(* ===== verification/_CoqProject ===== *)
-Q . S2P
Prelude.v
GoStrings.v
GoUtf8.v
GoText.v
ApplyPatchParser.v
ApplyPatchRender.v
AbsPath.v
ApplyPatchSeek.v
ApplyPatchApply.v
ApplyPatchDiff.v
ExecPolicyShlex.v
ExecPolicy.v
ExecPolicyParser.v
HeadTail.v
LruCache.v
StreamInline.v
StreamTagged.v
StreamUtf8.v
Truncation.v
NetGlob.v
NetAddr.v
NetConfig.v
NetMitm.v
NetPolicy.v
NetBind.v
GoOrder.v
Readiness.v
AgentPath.v
AgentGraph.v
AgentRegistry.v
AgentControl.v
GoPath.v
Seccomp.v
Permissions.v
SandboxPath.v
SandboxPolicy.v
SandboxProfile.v
SandboxLinux.v
SandboxRefine.v
Approvals.v
ApprovalWaiters.v
ExecProcess.v
ExecStore.v
ExecManager.v
ExecSessions.v
ExecWatcher.v
ExecCollect.v
ProtocolItems.v
CoreState.v
CoreMapping.v
CoreCompact.v
CoreTools.v
CoreTurn.v
CoreTurnRuns.v
CoreSession.v
CoreSessionRuns.v
GoalStore.v
GoalAccounting.v
GoalRuntime.v
GoalRuns.v
ShellCmd.v
ShellRuns.v
CoreShell.v
CoreShellRuns.v
