(* ===== verification/Prelude.v ===== *)
(** * codexgo: a verification library for the core of the Go agent

    The repository is a Go port of a coding agent.  This library models the
    parts of it that decide something: what a patch does to files, what a
    command policy allows, what a stream parser shows, what a buffer keeps;
    and proves what they promise.  Terminal, network and process handling call
    these parts and are not modelled (see the end).

    ** How Go is modelled

    [Prelude.v] (this file), [GoStrings.v], [GoUtf8.v] and [GoText.v] hold what
    the components share.  A Go string is the list of its bytes; a rune is a
    [Z]; decoding and encoding follow [unicode/utf8] on every byte string, the
    invalid ones included.  [int]s that count something are [nat] or [Z];
    where the code relies on the width ([Truncation.v]) the 64-bit wrap-around
    is written out.  A Go error is an [Err] of the [result] monad, a panic
    (slice or index out of range, exhausted fuel) is [Panic] or [None], and
    the entry points are proved never to produce one.  Loops that are not
    structural take fuel, the theorems show that the fuel given is enough.
    Mutable objects are records passed and returned.

    ** Components

    - [ApplyPatchParser.v], [ApplyPatchRender.v]: internal/applypatch/parser.go.
      [parsePatchText] with its strict and lenient modes; the renderer is the
      specification side: parsing a rendered patch gives the hunks back, a
      heredoc wrapper is transparent, parsing always returns and its errors
      name a line of the patch.
    - [ApplyPatchSeek.v]: seek_sequence.go and replacements.go.  The context
      search is characterised pass by pass; the new contents are total, and for
      edits that cannot overlap they are the splice of the chunks.
    - [ApplyPatchApply.v]: apply.go over a [FileSystem] class with laws, which a
      file system in memory discharges.  The committed delta replays and
      reverts the run, nothing outside the named paths changes, a run always
      returns and reports what it did.
    - [ApplyPatchDiff.v]: diff.go.  The Myers search with its trace returns a
      shortest script; hunks keep all changes and the right context; headers
      are right.
    - [AbsPath.v]: internal/utils/abspath, both platforms.  On Unix,
      resolution is absolute, normal, idempotent and contained in its base.
    - [ExecPolicyShlex.v], [ExecPolicy.v], [ExecPolicyParser.v]:
      internal/execpolicy.  Shell words round-trip; the matches of a command,
      the strictest decision, overlays, network rules; the builtins, the
      builder and the self-test of examples.  The Starlark interpreter is a
      parameter that yields the calls it makes.
    - [HeadTail.v]: internal/unifiedexec/headtail.go, refined to the output
      since the last drain.
    - [LruCache.v]: internal/utils/cache, refined to one list of pairs.
    - [StreamInline.v], [StreamTagged.v], [StreamUtf8.v]:
      internal/utils/streamparser.  However the input is cut into chunks, the
      parsers yield what the whole text does.  [StreamUtf8.v] takes the wrapped
      parser through the class [StreamTextParser].
    - [Truncation.v]: internal/utils/truncation.  Budgets, markers and items.
    - [NetGlob.v], [NetAddr.v], [NetConfig.v], [NetMitm.v], [NetPolicy.v],
      [NetBind.v]: internal/networkproxy, the policy of the network proxy.  The
      glob matcher agrees with the meaning of patterns; non-public addresses are
      exactly those of the special-purpose blocks; the order on domain patterns
      is inclusion of hosts; hooks act in the order of the configuration, and
      validated hooks compile; an allowed request reaches a public host or one
      that is named, a denied plain host name stays denied, updates keep
      the policy within its managed constraints; the proxy listens on loopback.
    - [GoOrder.v]: the order of Go strings, [sort.Strings], and the order in
      which a [range] visits a map, a class ([MapOrder]) that the clients take
      as any permutation of the entries.
    - [AgentPath.v], [AgentGraph.v], [AgentRegistry.v], [AgentControl.v]:
      internal/multiagent and internal/agentgraph.  References resolve as the
      grammar of paths says; descendants are listed once, by depth; the spawn
      count is exact in every interleaving of registry operations, so the limit
      on agents holds and no slot leaks; a spawn leaves the registry in order,
      and what a failed one leaves is said exactly; closing an agent takes out its
      subtree.
    - [Readiness.v]: internal/utils/readiness, as atomic steps of concurrent
      calls.  The flag is safe in every interleaving, and its waiters wake.

    - [Seccomp.v]: internal/sandbox/seccomp_bpf.go, the generator of the network
      filter, run by an interpreter of classic BPF over a class of machines
      ([ClassicBPF]): the program decides every system call by the table of the
      code, which is the documented one but for the socketpairs of the proxy mode.
    - [Permissions.v], [GoPath.v], [SandboxPath.v], [SandboxPolicy.v],
      [SandboxProfile.v]: permission profiles and policies of internal/protocol
      and their resolution in internal/sandbox.  Go's path.Clean and path.Join
      are segment lists; the access to a path is that of its most specific
      entry; overlays cannot lift a denial by naming it; full disk access and
      the choice of no sandbox are justified.  [SandboxWorld] holds the answers
      of the file system.
    - [SandboxLinux.v], [SandboxRefine.v]: the Linux helper.  The specification
      of a request, the plan of mounts, the order of the inner stage;
      [SandboxRefine.v] composes policy, plan and a table of mounts with laws
      ([MountTable], discharged by an interpreter) and proves that what the
      kernel lets a command write is what the policy allows, for entries without
      symbolic links on their way and on the mounts that the plan reaches: the
      root's, and those that hold a writable root.  The examples show what stays
      writable on other mounts and what a mask on a link hides.
    - [Approvals.v], [ApprovalWaiters.v]: internal/core/approval_decision.go,
      sandbox_escalation.go, turn.go, approvals.go.  What a session remembers,
      when a denied command may run without a sandbox, and the pending requests
      as atomic steps of concurrent goroutines over their channels.

    - [ExecProcess.v], [ExecStore.v], [ExecManager.v], [ExecSessions.v],
      [ExecWatcher.v], [ExecCollect.v]: internal/unifiedexec.  Processes and their exit state,
      the store and its eviction, the calls of the manager as atomic steps of
      concurrent goroutines, and the watcher that streams the output.  A session
      is never lost while no id has been drawn twice; the watcher cuts exactly
      the bytes it received; collecting output loses nothing the buffer keeps
      and returns.
    - [ProtocolItems.v], [CoreState.v], [CoreMapping.v], [CoreCompact.v]:
      internal/core with the items and events of internal/protocol.  The accounts
      of a session hold whatever the operations; a compacted conversation keeps
      the newest user messages that fit in the budget and the summary, can be
      compacted again without losing what was kept whole, and takes the initial
      context in one place.
    - [CoreTools.v], [CoreTurn.v], [CoreTurnRuns.v]: tool calls and the turn of
      internal/core (turn_run.go, turn_output.go, event_compact.go) as a machine
      whose steps are the accesses to what it shares, with the answers of the
      model and of the tools as inputs, and what others may do in between as a
      relation.  Every call gets one item with its id; outputs go to open calls
      only and all are settled before the next request; a request carries the
      conversation; a cancelled turn ends.
    - [CoreSession.v], [CoreSessionRuns.v]: submission_loop.go, turn_spawn.go,
      turn_handlers.go and the queues of codex.go, with any number of tasks, whose
      tools and left-over commands send events too.  In every interleaving the
      events of a submission start and end once and in order, with only the output
      of commands that are still running after the end, and at most one task is
      not cancelled.  Events of extensions, which have ids of their own, are left
      out.
    - [GoalStore.v], [GoalAccounting.v], [GoalRuntime.v], [GoalRuns.v]:
      internal/state/goals.go and internal/ext/goal.  The statements of the goal
      table, the accounting of a turn, and the hooks, tools and host calls as
      programs whose steps interleave.  Active goals have budget left and usage
      never shrinks in any interleaving; a turn alone, its hooks one after
      another, charges its goal with exactly what it used if its last call does
      not fail, whatever fails on the way.
    - [ShellCmd.v], [ShellRuns.v]: internal/shellcmd.  What the analysis of a
      script reports is what a run of it can execute, for any word expansion and
      any exit statuses, as long as words are quoted or plain.
    - [CoreShell.v], [CoreShellRuns.v]: the tools of internal/core that run
      commands and write files.  Commands run under the turn's sandbox policy,
      and without one only after a denial that the user lifts.  Patches do not
      look at the policy: the examples at the end show it.

    ** Interactions

    [ApplyPatchApply.v] runs the hunks of [ApplyPatchParser.v] with the edits
    of [ApplyPatchSeek.v] on paths resolved by [AbsPath.v]; [ExecPolicy.v]
    resolves host executables with [AbsPath.v]; [ExecPolicyParser.v] builds the
    policies of [ExecPolicy.v] and splits examples with [ExecPolicyShlex.v];
    [NetPolicy.v] compiles the domain lists of [NetConfig.v] to the globs of
    [NetGlob.v], normalises hosts and classifies addresses with [NetAddr.v],
    and compiles the hooks of [NetMitm.v]; [AgentControl.v] works on the
    registry of [AgentRegistry.v] and on any [AgentGraphStore] and
    [ThreadEngine], its theorems about subtrees on the store of
    [AgentGraph.v]; [SandboxPolicy.v] resolves the paths of [SandboxPath.v], which
    are those of [AbsPath.v]; [SandboxLinux.v] takes the roots of a policy and the
    mode of [Seccomp.v]; [Approvals.v] reads the policy of a turn from
    [SandboxProfile.v], and [ApprovalWaiters.v] carries its decisions.  [CoreCompact.v]
    cuts with [Truncation.v] and reads the conversation through [CoreMapping.v];
    [CoreTurn.v] runs the calls of [CoreTools.v] and the compaction of
    [CoreCompact.v] on the state of [CoreState.v], and [CoreSession.v] runs its
    turns as tasks.  The classes [GoEnv] and [GoWorld]
    hold what these read outside the program: Unicode tables and net/url, and
    the environment and files.

    ** Fuel

    Byte loops (decoding, trimming, [splitLoop], [validateFrom]) use the length
    of their input: each round consumes a byte.  The patch parser uses the
    number of lines; the diff uses the sum of both lengths for its rounds and
    the length of the first text for a diagonal; the ancestors of a path use
    its length; the inline tag parser the length of its pending text; the glob
    matcher (length of the text + 2) * (length of the pattern + 1) rounds; the
    IPv6 parser its eight groups.  The walk over spawn edges uses one round more
    than there are edges: each but the last visits a new thread.  The walk to the
    nearest existing ancestor of a path takes its length + 3 rounds.

    ** Not modelled

    Packages that are input and output (terminal, HTTP, JSON-RPC, processes,
    databases, system calls), wiring, message types and their JSON, and
    embedded text: they have no decisions of their own that a model could be
    wrong about, or their meaning lies in code outside the repository.  Within
    the modelled packages the parts left out are named at the top of each file.
    PROJECT.json lists every part with the reason. *)

From stdpp Require Export base list gmap strings sorting.
From Stdlib Require Export Ascii ZArith Lia.

(** ** Go values

    A Go [string] or [[]byte] is a list of bytes; string literals coerce. *)
Abbreviation gostring := (list ascii).

Definition str : string -> list ascii := String.list_ascii_of_string.
Coercion str : string >-> list.
Arguments str : simpl never.

(** A rune is a code point, kept as an integer. *)
Abbreviation rune := Z.

(** [len] of a slice or string as a Go [int]. *)
Definition zlen {A} (l : list A) : Z := Z.of_nat (length l).
Arguments zlen {A} _ : simpl never.

(** ** Outcomes of Go code

    [Ok] and [Err] are Go's two-valued returns.  [Panic] is a run that does not
    return: a slice or index out of range, or a loop whose fuel is used up.
    The components prove that their entry points never yield it. *)
Inductive result (E A : Type) : Type :=
| Ok (a : A)
| Err (e : E)
| Panic.
Arguments Ok {E A} _.
Arguments Err {E A} _.
Arguments Panic {E A}.

#[export] Instance result_ret {E} : MRet (result E) := fun A a => Ok a.
#[export] Instance result_bind {E} : MBind (result E) :=
  fun A B f m => match m with Ok a => f a | Err e => Err e | Panic => Panic end.
#[export] Instance result_fmap {E} : FMap (result E) :=
  fun A B f m => match m with Ok a => Ok (f a) | Err e => Err e | Panic => Panic end.

Definition is_ok {E A} (r : result E A) : bool :=
  match r with Ok _ => true | _ => false end.

(** The run returns, with a value or with an error. *)
Definition returns {E A} (r : result E A) : Prop :=
  match r with Panic => False | _ => True end.

(** An [option] whose [None] is a panic. *)
Definition or_panic {E A} (o : option A) : result E A :=
  match o with Some a => Ok a | None => Panic end.

(** The slice expression [l[lo:hi]], which panics out of range. *)
Definition go_slice {A} (lo hi : nat) (l : list A) : option (list A) :=
  if decide (lo <= hi /\ hi <= length l)%nat
  then Some (take (hi - lo) (drop lo l)) else None.

#[export] Instance result_eq_dec {E A} `{EqDecision E, EqDecision A} :
  EqDecision (result E A).
Proof. solve_decision. Defined.

(** ** Tactics of the development *)

Create HintDb codex.
Create Rewrite HintDb codex.

(** Split on the scrutinee of a [match] or [if] in the goal or in [H]. *)
Ltac split_match :=
  match goal with
  | |- context [match ?x with _ => _ end] => destruct x eqn:?
  end.

Ltac split_match_in H :=
  match type of H with
  | context [match ?x with _ => _ end] => destruct x eqn:?
  end.

(** Turn boolean comparisons into propositions, everywhere. *)
Ltac breflect :=
  repeat match goal with
  | H : andb _ _ = true |- _ => apply andb_true_iff in H; destruct H
  | H : orb _ _ = false |- _ => apply orb_false_iff in H; destruct H
  | H : negb _ = true |- _ => apply negb_true_iff in H
  | H : negb _ = false |- _ => apply negb_false_iff in H
  | H : (_ =? _)%Z = true |- _ => apply Z.eqb_eq in H
  | H : (_ =? _)%Z = false |- _ => apply Z.eqb_neq in H
  | H : (_ <? _)%Z = true |- _ => apply Z.ltb_lt in H
  | H : (_ <? _)%Z = false |- _ => apply Z.ltb_ge in H
  | H : (_ <=? _)%Z = true |- _ => apply Z.leb_le in H
  | H : (_ <=? _)%Z = false |- _ => apply Z.leb_gt in H
  | H : (_ =? _)%nat = true |- _ => apply Nat.eqb_eq in H
  | H : (_ =? _)%nat = false |- _ => apply Nat.eqb_neq in H
  | H : (_ <? _)%nat = true |- _ => apply Nat.ltb_lt in H
  | H : (_ <? _)%nat = false |- _ => apply Nat.ltb_ge in H
  | H : (_ <=? _)%nat = true |- _ => apply Nat.leb_le in H
  | H : (_ <=? _)%nat = false |- _ => apply Nat.leb_gt in H
  | H : bool_decide _ = true |- _ => apply bool_decide_eq_true in H
  | H : bool_decide _ = false |- _ => apply bool_decide_eq_false in H
  end.

(** ** Outcome specifications

    [rspec P Q r]: [r] returns, a value satisfies [P], an error satisfies [Q]. *)
Definition rspec {E A} (P : A -> Prop) (Q : E -> Prop) (r : result E A) : Prop :=
  match r with Ok a => P a | Err e => Q e | Panic => False end.

Lemma rspec_returns {E A} (P : A -> Prop) (Q : E -> Prop) (r : result E A) :
  rspec P Q r -> returns r.
Proof. by destruct r. Qed.

Lemma rspec_mono {E A} (P P' : A -> Prop) (Q Q' : E -> Prop) (r : result E A) :
  rspec P Q r -> (forall a, P a -> P' a) -> (forall e, Q e -> Q' e) -> rspec P' Q' r.
Proof. destruct r; simpl; auto. Qed.

Lemma rspec_bind {E A B} (P : A -> Prop) (R : B -> Prop) (Q : E -> Prop)
    (m : result E A) (f : A -> result E B) :
  rspec P Q m -> (forall a, P a -> rspec R Q (f a)) -> rspec R Q (m ≫= f).
Proof. destruct m; simpl; auto. Qed.

Lemma result_bind_Ok {E A B} (f : A -> result E B) (m : result E A) b :
  m ≫= f = Ok b <-> exists a, m = Ok a /\ f a = Ok b.
Proof. destruct m; simpl; naive_solver. Qed.

Lemma mapM_Ok {E A B} (f : A -> result E B) (l : list A) (k : list B) :
  mapM f l = Ok k <-> Forall2 (fun x y => f x = Ok y) l k.
Proof.
  revert k. induction l as [|x l IH]; intros k.
  - simpl. split; [by intros [= <-]|]. by inversion 1.
  - cbn [mapM]. rewrite result_bind_Ok. setoid_rewrite result_bind_Ok. split.
    + intros (y & Hy & k' & Hk%IH & [= <-]). by constructor.
    + inversion 1 as [|? y ? k' Hy Hk]; subst. exists y. split; [done|]. exists k'. split; [by apply IH|done].
Qed.

Lemma go_slice_Some {A} (lo hi : nat) (l : list A) :
  (lo <= hi)%nat -> (hi <= length l)%nat ->
  go_slice lo hi l = Some (take (hi - lo) (drop lo l)).
Proof. intros. unfold go_slice. by rewrite decide_True. Qed.

(** ** Generic lemmas on lists *)

Lemma zlen_nonneg {A} (l : list A) : (0 <= zlen l)%Z.
Proof. unfold zlen. lia. Qed.

Lemma zlen_app {A} (l k : list A) : zlen (l ++ k) = (zlen l + zlen k)%Z.
Proof. unfold zlen. rewrite length_app. lia. Qed.

Lemma zlen_cons {A} (x : A) (l : list A) : zlen (x :: l) = (1 + zlen l)%Z.
Proof. unfold zlen. simpl. lia. Qed.

Lemma zlen_nil {A} : zlen (@nil A) = 0%Z.
Proof. done. Qed.

#[export] Hint Resolve zlen_nonneg : codex.
#[export] Hint Rewrite @zlen_app @zlen_cons @zlen_nil : codex.

Lemma drop_take {A} (m n : nat) (l : list A) : drop m (take n l) = take (n - m) (drop m l).
Proof. apply skipn_firstn_comm. Qed.

Lemma drop_take_app_self {A} (n m : nat) (l : list A) :
  (n <= m)%nat -> take n l ++ take (m - n) (drop n l) ++ drop m l = l.
Proof.
  intros Hnm. rewrite <- (take_drop n l) at 4. f_equal.
  rewrite <- (take_drop (m - n) (drop n l)) at 2. f_equal.
  rewrite drop_drop. f_equal. lia.
Qed.

(** The longest prefix whose elements satisfy [P]. *)
Fixpoint take_while {A} (P : A -> bool) (l : list A) : list A :=
  match l with x :: l => if P x then x :: take_while P l else [] | [] => [] end.

Lemma take_while_app {A} (P : A -> bool) (l : list A) :
  l = take_while P l ++ drop (length (take_while P l)) l.
Proof. induction l as [|x l IH]; simpl; [done|]. destruct (P x); simpl; [by f_equal|done]. Qed.

Lemma take_while_Forall {A} (P : A -> bool) (l : list A) :
  Forall (fun x => P x = true) (take_while P l).
Proof. induction l as [|x l IH]; simpl; [done|]. destruct (P x) eqn:E; by constructor. Qed.

Lemma last_snoc_inv {A} (l : list A) x : last l = Some x -> l = removelast l ++ [x].
Proof.
  intros H. destruct l as [|a l] using rev_ind; [done|].
  rewrite last_snoc in H. simplify_eq. by rewrite removelast_last.
Qed.

Lemma Forall2_impl_in {A B} (P Q : A -> B -> Prop) l k :
  Forall2 P l k -> (forall x y, x ∈ l -> y ∈ k -> P x y -> Q x y) -> Forall2 Q l k.
Proof.
  induction 1 as [|x y l k Hxy _ IH]; intros HPQ; [constructor|].
  constructor; [apply HPQ; [by left|by left|done]|]. apply IH. intros x' y' ? ?. apply HPQ; by right.
Qed.

Lemma list_filter_all {A} (P : A -> Prop) `{!forall x, Decision (P x)} (l : list A) :
  Forall P l -> filter P l = l.
Proof. induction 1 as [|x l Hx _ IH]; [done|]. by rewrite filter_cons_True, IH. Qed.
