(* ===== verification/GoStrings.v ===== *)
(** * The parts of Go's [strings], [unicode] and [unicode/utf8] packages the
    program uses

    Strings are byte lists.  Runes are decoded the way [utf8.DecodeRune] does
    it: an invalid sequence yields [RuneError] with width one, so every
    function below is total on arbitrary bytes. *)

From S2P Require Import Prelude.

(** ** Bytes *)

Definition bval (c : ascii) : Z := Z.of_N (N_of_ascii c).
Definition byte_of (z : Z) : ascii := ascii_of_N (Z.to_N z).

Definition nl : ascii := "010"%char.
Definition cr : ascii := "013"%char.

Lemma bval_range c : (0 <= bval c < 256)%Z.
Proof. unfold bval. pose proof (N_ascii_bounded c). lia. Qed.

Lemma byte_of_bval c : byte_of (bval c) = c.
Proof. unfold byte_of, bval. rewrite N2Z.id. apply ascii_N_embedding. Qed.

Lemma bval_byte_of z : (0 <= z < 256)%Z -> bval (byte_of z) = z.
Proof. intros ?. unfold bval, byte_of. rewrite N_ascii_embedding; lia. Qed.

Lemma bval_inj c d : bval c = bval d -> c = d.
Proof. intros H. by rewrite <- (byte_of_bval c), H, byte_of_bval. Qed.

(** ** [unicode/utf8] *)

Definition RuneError : rune := 65533.
Definition RuneSelf : Z := 128.

(** [utf8.RuneStart]: not a continuation byte. *)
Definition rune_start (c : ascii) : bool := negb (Z.land (bval c) 192 =? 128)%Z.

Definition in_range (lo hi z : Z) : bool := (lo <=? z)%Z && (z <=? hi)%Z.

(** [utf8.DecodeRune]: the first rune and its width.  The second byte's
    accepted range depends on the first, as in the package's [first] and
    [acceptRanges] tables. *)
Definition accept_range (b0 : Z) : Z * Z :=
  if (b0 =? 224)%Z then (160, 191)%Z
  else if (b0 =? 237)%Z then (128, 159)%Z
  else if (b0 =? 240)%Z then (144, 191)%Z
  else if (b0 =? 244)%Z then (128, 143)%Z
  else (128, 191)%Z.

Definition decode_rune (s : gostring) : rune * nat :=
  match s with
  | [] => (RuneError, 0%nat)
  | c0 :: s1 =>
      let b0 := bval c0 in
      let '(lo, hi) := accept_range b0 in
      let bad := (RuneError, 1%nat) in
      if (b0 <? RuneSelf)%Z then (b0, 1%nat)
      else if in_range 194 223 b0 then
        match s1 with
        | c1 :: _ =>
            if in_range lo hi (bval c1)
            then ((b0 mod 32) * 64 + bval c1 mod 64, 2%nat)%Z else bad
        | _ => bad
        end
      else if in_range 224 239 b0 then
        match s1 with
        | c1 :: c2 :: _ =>
            if in_range lo hi (bval c1) && in_range 128 191 (bval c2)
            then ((b0 mod 16) * 4096 + (bval c1 mod 64) * 64 + bval c2 mod 64, 3%nat)%Z
            else bad
        | _ => bad
        end
      else if in_range 240 244 b0 then
        match s1 with
        | c1 :: c2 :: c3 :: _ =>
            if in_range lo hi (bval c1) && in_range 128 191 (bval c2)
               && in_range 128 191 (bval c3)
            then ((b0 mod 8) * 262144 + (bval c1 mod 64) * 4096
                  + (bval c2 mod 64) * 64 + bval c3 mod 64, 4%nat)%Z
            else bad
        | _ => bad
        end
      else bad
  end.

Arguments decode_rune : simpl never.

(** [utf8.DecodeLastRune], on the reversed string: look back at most four
    bytes for a rune start, and accept it only if it spans to the end. *)
Definition decode_last_rev (r : gostring) : rune * nat :=
  let bad := (RuneError, 1%nat) in
  let accept bs := if decide ((decode_rune bs).2 = length bs) then decode_rune bs else bad in
  match r with
  | [] => (RuneError, 0%nat)
  | c0 :: r1 =>
      if (bval c0 <? RuneSelf)%Z then (bval c0, 1%nat)
      else match r1 with
      | [] => bad
      | c1 :: r2 =>
          if rune_start c1 then accept [c1; c0]
          else match r2 with
          | [] => bad
          | c2 :: r3 =>
              if rune_start c2 then accept [c2; c1; c0]
              else match r3 with
              | [] => bad
              | c3 :: _ => if rune_start c3 then accept [c3; c2; c1; c0] else bad
              end
          end
      end
  end.

(** [utf8.AppendRune] / [Builder.WriteRune]; out-of-range runes and surrogate
    halves are written as [RuneError]. *)
Definition encode_rune (r : rune) : gostring :=
  let cont z := byte_of (128 + z mod 64)%Z in
  let enc3 r := [byte_of (224 + r / 4096)%Z; cont (r / 64)%Z; cont r] in
  if in_range 0 127 r then [byte_of r]
  else if in_range 128 2047 r then [byte_of (192 + r / 64)%Z; cont r]
  else if in_range 55296 57343 r || (r <? 0)%Z || (1114111 <? r)%Z then enc3 RuneError
  else if (r <? 65536)%Z then enc3 r
  else [byte_of (240 + r / 262144)%Z; cont (r / 4096)%Z; cont (r / 64)%Z; cont r].

(** [for _, r := range s]: the runes of a string. *)
Fixpoint runes_fuel (fuel : nat) (s : gostring) : list rune :=
  match fuel, s with
  | S fuel, _ :: _ => let '(r, w) := decode_rune s in r :: runes_fuel fuel (drop w s)
  | _, _ => []
  end.
Definition runes (s : gostring) : list rune := runes_fuel (length s) s.

(** [utf8.ValidString] *)
Fixpoint valid_utf8_fuel (fuel : nat) (s : gostring) : bool :=
  match fuel, s with
  | S fuel, c :: _ =>
      let '(r, w) := decode_rune s in
      if (w =? 1)%nat && (RuneSelf <=? bval c)%Z then false
      else valid_utf8_fuel fuel (drop w s)
  | _, _ => true
  end.
Definition valid_utf8 (s : gostring) : bool := valid_utf8_fuel (length s) s.

(** ** [unicode.IsSpace] *)
Definition is_space (r : rune) : bool :=
  in_range 9 13 r || (r =? 32)%Z || (r =? 133)%Z || (r =? 160)%Z || (r =? 5760)%Z
  || in_range 8192 8202 r || (r =? 8232)%Z || (r =? 8233)%Z || (r =? 8239)%Z
  || (r =? 8287)%Z || (r =? 12288)%Z.

(** ** Trimming *)

(** [strings.TrimLeftFunc] *)
Fixpoint trim_left_fuel (f : rune -> bool) (fuel : nat) (s : gostring) : gostring :=
  match fuel, s with
  | S fuel, _ :: _ =>
      let '(r, w) := decode_rune s in
      if f r then trim_left_fuel f fuel (drop w s) else s
  | _, _ => s
  end.
Definition trim_left_func (f : rune -> bool) (s : gostring) : gostring :=
  trim_left_fuel f (length s) s.

(** [strings.TrimRightFunc], on the reversed string *)
Fixpoint trim_right_fuel (f : rune -> bool) (fuel : nat) (r : gostring) : gostring :=
  match fuel, r with
  | S fuel, _ :: _ =>
      let '(c, w) := decode_last_rev r in
      if f c then trim_right_fuel f fuel (drop w r) else r
  | _, _ => r
  end.
Definition trim_right_func (f : rune -> bool) (s : gostring) : gostring :=
  rev (trim_right_fuel f (length s) (rev s)).

(** [strings.TrimSpace] *)
Definition trim_space (s : gostring) : gostring :=
  trim_right_func is_space (trim_left_func is_space s).

(** ** Prefixes and suffixes *)

(** [strings.CutPrefix] *)
Fixpoint cut_prefix (s p : gostring) {struct p} : option gostring :=
  match p, s with
  | [], _ => Some s
  | a :: p, b :: s => if decide (a = b) then cut_prefix s p else None
  | _ :: _, [] => None
  end.

(** [strings.HasPrefix] *)
Definition has_prefix (s p : gostring) : bool :=
  match cut_prefix s p with Some _ => true | None => false end.

(** [strings.CutSuffix] and [strings.HasSuffix] *)
Definition cut_suffix (s p : gostring) : option gostring :=
  (λ r, rev r) <$> cut_prefix (rev s) (rev p).
Definition has_suffix (s p : gostring) : bool :=
  match cut_suffix s p with Some _ => true | None => false end.

(** [strings.TrimPrefix] and [strings.TrimSuffix] *)
Definition trim_prefix (s p : gostring) : gostring := default s (cut_prefix s p).
Definition trim_suffix (s p : gostring) : gostring := default s (cut_suffix s p).

(** ** [strings.Split] on a one-byte separator, and [strings.Join] *)
Fixpoint split_byte (sep : ascii) (s : gostring) : list gostring :=
  match s with
  | [] => [[]]
  | c :: s =>
      if decide (c = sep) then [] :: split_byte sep s
      else match split_byte sep s with
           | l :: ls => (c :: l) :: ls
           | [] => [[c]]
           end
  end.

Fixpoint join (sep : gostring) (ls : list gostring) : gostring :=
  match ls with
  | [] => []
  | [l] => l
  | l :: ls => l ++ sep ++ join sep ls
  end.

(** ** [fmt]'s [%d] on an integer *)
Fixpoint digits_fuel (fuel : nat) (z : Z) (acc : gostring) : gostring :=
  match fuel with
  | O => acc
  | S fuel =>
      let acc := byte_of (48 + z mod 10)%Z :: acc in
      if (z / 10 =? 0)%Z then acc else digits_fuel fuel (z / 10)%Z acc
  end.
Definition format_int (z : Z) : gostring :=
  if (z <? 0)%Z then "-"%char :: digits_fuel 20 (- z)%Z [] else digits_fuel 20 z [].

(** ** Laws *)

Lemma cut_prefix_Some s p r : cut_prefix s p = Some r <-> s = p ++ r.
Proof.
  revert s. induction p as [|a p IH]; intros s; simpl.
  - split; congruence.
  - destruct s as [|b s]; [split; congruence|].
    case_decide; subst; [rewrite IH|]; split; congruence.
Qed.

Lemma cut_prefix_app p r : cut_prefix (p ++ r) p = Some r.
Proof. by apply cut_prefix_Some. Qed.

Lemma has_prefix_true s p : has_prefix s p = true <-> exists r, s = p ++ r.
Proof.
  unfold has_prefix. destruct (cut_prefix s p) as [r|] eqn:E.
  - apply cut_prefix_Some in E. split; eauto.
  - split; [done|]. intros [r ->]. by rewrite cut_prefix_app in E.
Qed.

Lemma cut_suffix_Some s p r : cut_suffix s p = Some r <-> s = r ++ p.
Proof.
  unfold cut_suffix. destruct (cut_prefix (rev s) (rev p)) as [q|] eqn:E; simpl.
  - apply cut_prefix_Some in E. apply (f_equal (@rev _)) in E.
    rewrite rev_app_distr, !rev_involutive in E. subst. split.
    + congruence.
    + intros ?%app_inv_tail. congruence.
  - split; [done|]. intros ->. by rewrite rev_app_distr, cut_prefix_app in E.
Qed.

Lemma has_suffix_true s p : has_suffix s p = true <-> exists r, s = r ++ p.
Proof.
  unfold has_suffix. destruct (cut_suffix s p) as [r|] eqn:E.
  - apply cut_suffix_Some in E. split; eauto.
  - split; [done|]. intros [r ->].
    assert (cut_suffix (r ++ p) p = Some r) by (by apply cut_suffix_Some). congruence.
Qed.

Lemma trim_suffix_byte_id s c : last s <> Some c -> trim_suffix s [c] = s.
Proof.
  intros H. unfold trim_suffix. destruct (cut_suffix s [c]) as [r|] eqn:E; [|done].
  apply cut_suffix_Some in E. subst. by rewrite last_snoc in H.
Qed.

(** *** Split and Join *)

Lemma split_byte_nonempty sep s : split_byte sep s <> [].
Proof. destruct s as [|c s]; simpl; [done|]. case_decide; [done|]. by case_match. Qed.

Lemma join_split_byte sep s : join [sep] (split_byte sep s) = s.
Proof.
  induction s as [|c s IH]; [done|]. simpl.
  destruct (split_byte sep s) as [|l ls] eqn:E; [by apply split_byte_nonempty in E|].
  case_decide as Hc; [subst c|]; simpl in *; [by rewrite IH|].
  destruct ls; simpl in *; by rewrite <- IH.
Qed.

Lemma split_byte_app sep l s :
  sep ∉ l ->
  split_byte sep (l ++ s) =
    match split_byte sep s with x :: xs => (l ++ x) :: xs | [] => [l] end.
Proof.
  induction l as [|c l IH]; intros Hn; simpl.
  - case_match; [by apply split_byte_nonempty in H|done].
  - rewrite not_elem_of_cons in Hn. destruct Hn as [Hc Hn].
    rewrite decide_False, (IH Hn) by congruence. by case_match.
Qed.

Lemma split_byte_none sep l : sep ∉ l -> split_byte sep l = [l].
Proof.
  intros. rewrite <- (app_nil_r l) at 1. rewrite split_byte_app by done. simpl.
  by rewrite app_nil_r.
Qed.

Lemma split_byte_join sep ls :
  Forall (fun l => sep ∉ l) ls -> ls <> [] -> split_byte sep (join [sep] ls) = ls.
Proof.
  induction 1 as [|l ls Hl Hls IH]; [done|]. intros _.
  destruct ls as [|l' ls']; [by apply split_byte_none|].
  change (join [sep] (l :: l' :: ls')) with (l ++ [sep] ++ join [sep] (l' :: ls')).
  rewrite split_byte_app by done.
  assert (split_byte sep ([sep] ++ join [sep] (l' :: ls')) = [] :: l' :: ls') as ->.
  { rewrite <- IH at 2 by done. simpl. by rewrite decide_True. }
  by rewrite app_nil_r.
Qed.

Lemma split_byte_no_sep sep s : Forall (fun l => sep ∉ l) (split_byte sep s).
Proof.
  induction s as [|c s IH]; simpl; [by repeat constructor; apply not_elem_of_nil|].
  case_decide; [by constructor; [apply not_elem_of_nil|]|].
  destruct (split_byte sep s) as [|l ls]; constructor; try done;
    [|apply Forall_cons in IH as [Hl _]|by apply Forall_cons in IH as [_ Hls]].
  all: rewrite not_elem_of_cons; split; [congruence|]; try done; apply not_elem_of_nil.
Qed.

(** *** Runes *)

Lemma decode_rune_ascii c s :
  (bval c < 128)%Z -> decode_rune (c :: s) = (bval c, 1%nat).
Proof.
  intros H. unfold decode_rune. destruct (accept_range (bval c)).
  unfold RuneSelf. by rewrite (proj2 (Z.ltb_lt _ _) H).
Qed.

Lemma rune_start_ascii c : (bval c < 128)%Z -> rune_start c = true.
Proof.
  intros H. unfold rune_start. apply negb_true_iff, Z.eqb_neq.
  pose proof (bval_range c). assert (Z.testbit (bval c) 7 = false) as Hb.
  { destruct (Z.eq_dec (bval c) 0) as [->|]; [done|].
    apply Z.bits_above_log2; [lia|]. apply Z.log2_lt_pow2; simpl; lia. }
  intros E. apply (f_equal (fun z => Z.testbit z 7)) in E.
  rewrite Z.land_spec, Hb in E. done.
Qed.

(** The last rune of a string does not depend on what comes before an ASCII
    byte. *)
Lemma decode_last_rev_app r c t :
  r <> [] -> (bval c < 128)%Z -> decode_last_rev (r ++ c :: t) = decode_last_rev r.
Proof.
  intros Hr Hc. pose proof (rune_start_ascii c Hc) as Hs.
  destruct r as [|c0 [|c1 [|c2 [|c3 r]]]]; try done; simpl.
  all: rewrite ?Hs, ?(decode_rune_ascii c) by done; simpl.
  all: by repeat (case_match; try done).
Qed.

(** *** Trimming *)

(** A string is clean on the right when its last rune is not white space. *)
Definition clean_right (s : gostring) : bool :=
  negb (is_space (decode_last_rev (rev s)).1).

Lemma trim_right_clean s : clean_right s = true -> trim_right_func is_space s = s.
Proof.
  unfold clean_right, trim_right_func. intros H. apply negb_true_iff in H.
  destruct (length s) as [|n]; simpl; [by rewrite rev_involutive|].
  destruct (rev s) eqn:E; [by rewrite <- (rev_involutive s), E|].
  rewrite <- E in *. destruct (decode_last_rev (rev s)); simpl in H. rewrite H.
  by rewrite rev_involutive.
Qed.

Lemma trim_left_clean c s :
  (bval c < 128)%Z -> is_space (bval c) = false ->
  trim_left_func is_space (c :: s) = c :: s.
Proof.
  intros Hc Hs. unfold trim_left_func. change (length (c :: s)) with (S (length s)).
  cbn [trim_left_fuel]. by rewrite decode_rune_ascii, Hs.
Qed.

Lemma trim_space_clean c s :
  (bval c < 128)%Z -> is_space (bval c) = false -> clean_right (c :: s) = true ->
  trim_space (c :: s) = c :: s.
Proof. intros. unfold trim_space. rewrite trim_left_clean by done. by apply trim_right_clean. Qed.

Lemma clean_right_app p c s :
  s <> [] -> (bval c < 128)%Z -> clean_right (p ++ c :: s) = clean_right s.
Proof.
  intros Hs Hc. unfold clean_right. rewrite rev_app_distr. simpl. rewrite <- app_assoc.
  simpl. rewrite decode_last_rev_app; [done| |done].
  intros E. apply Hs. by rewrite <- (rev_involutive s), E.
Qed.

Lemma clean_right_snoc s c :
  (bval c < 128)%Z -> is_space (bval c) = false -> clean_right (s ++ [c]) = true.
Proof.
  intros Hc Hs. unfold clean_right. rewrite rev_app_distr. simpl.
  unfold RuneSelf. rewrite (proj2 (Z.ltb_lt _ _) Hc). simpl. by rewrite Hs.
Qed.

Lemma clean_right_last s c :
  clean_right s = true -> (bval c < 128)%Z -> is_space (bval c) = true -> last s <> Some c.
Proof.
  intros H Hc Hs Hl. apply last_snoc_inv in Hl. rewrite Hl in H. unfold clean_right in H.
  rewrite rev_app_distr in H. simpl in H. unfold RuneSelf in H.
  rewrite (proj2 (Z.ltb_lt _ _) Hc) in H. simpl in H. by rewrite Hs in H.
Qed.

(** *** Widths, and trimming never crosses a non-space ASCII byte *)

Lemma decode_rune_width s : s <> [] -> (1 <= (decode_rune s).2 <= length s)%nat.
Proof.
  destruct s as [|c s]; [done|]. intros _. unfold decode_rune.
  destruct (accept_range (bval c)). repeat (case_match; simpl; try lia).
Qed.

Lemma decode_last_rev_width r : r <> [] -> (1 <= (decode_last_rev r).2 <= length r)%nat.
Proof.
  intros Hr. unfold decode_last_rev.
  repeat (case_match; simpl; try lia); try done.
  all: match goal with
       | H : decode_rune ?x = _, E : _.2 = _ |- _ => simpl in E; lia
       | E : (decode_rune _).2 = _ |- _ => simpl in E; lia
       end.
Qed.

Lemma trim_right_fuel_keeps f n r c t :
  (bval c < 128)%Z -> f (bval c) = false ->
  exists r', trim_right_fuel f n (r ++ c :: t) = r' ++ c :: t.
Proof.
  intros Hc Hf. revert r. induction n as [|n IH]; intros r; [by exists r|].
  destruct (decide (r = [])) as [->|Hr].
  - exists []. simpl. unfold RuneSelf. rewrite (proj2 (Z.ltb_lt _ _) Hc). simpl. by rewrite Hf.
  - assert (exists x y, r ++ c :: t = x :: y) as (x & y & Exy) by (destruct r; eauto).
    cbn [trim_right_fuel]. rewrite Exy, <- Exy, decode_last_rev_app by done.
    pose proof (decode_last_rev_width r Hr) as Hw.
    destruct (decode_last_rev r) as [z w]. simpl in Hw.
    destruct (f z); [|by exists r].
    rewrite drop_app_le by lia. apply IH.
Qed.

Lemma trim_space_not_nil c s :
  (bval c < 128)%Z -> is_space (bval c) = false -> trim_space (c :: s) <> [].
Proof.
  intros Hc Hs. unfold trim_space. rewrite trim_left_clean by done.
  unfold trim_right_func.
  change (rev (c :: s)) with (rev s ++ [c]).
  destruct (trim_right_fuel_keeps is_space (length (c :: s)) (rev s) c [] Hc Hs) as [r' E].
  rewrite E, rev_app_distr. done.
Qed.

Lemma join_snoc sep ls l : ls <> [] -> join sep (ls ++ [l]) = join sep ls ++ sep ++ l.
Proof.
  induction ls as [|a ls IH]; [done|]. intros _. destruct ls as [|b ls]; [done|].
  change (join sep ((a :: b :: ls) ++ [l])) with (a ++ sep ++ join sep ((b :: ls) ++ [l])).
  rewrite IH by done. simpl. by rewrite <- !app_assoc.
Qed.

Lemma split_byte_app_sep sep s t :
  split_byte sep (s ++ sep :: t) = split_byte sep s ++ split_byte sep t.
Proof.
  induction s as [|c s IH]; simpl.
  - by rewrite decide_True.
  - rewrite IH. case_decide; [done|].
    destruct (split_byte sep s) eqn:E; [by apply split_byte_nonempty in E|done].
Qed.

Lemma last_split_byte sep s :
  s <> [] -> last s <> Some sep -> last (split_byte sep s) <> Some [].
Proof.
  induction s as [|c s IH]; [done|]. intros _ Hl. simpl. case_decide as Hc.
  - subst. destruct s as [|d s]; [done|].
    rewrite last_cons_cons in Hl. specialize (IH ltac:(done) Hl).
    destruct (split_byte sep (d :: s)) eqn:E; [by apply split_byte_nonempty in E|done].
  - destruct s as [|d s]; [done|]. rewrite last_cons_cons in Hl.
    specialize (IH ltac:(done) Hl).
    destruct (split_byte sep (d :: s)) as [|x [|y ys]]; [done|done|]. done.
Qed.

Lemma trim_left_fuel_drop f n s : exists k, trim_left_fuel f n s = drop k s.
Proof.
  revert s. induction n as [|n IH]; intros s; [by exists 0|]. destruct s as [|c s]; [by exists 0|].
  cbn [trim_left_fuel]. destruct (decode_rune (c :: s)) as [r w]. destruct (f r); [|by exists 0].
  destruct (IH (drop w (c :: s))) as [k ->]. exists (w + k). by rewrite drop_drop.
Qed.

Lemma trim_right_fuel_length f n r : (length (trim_right_fuel f n r) <= length r)%nat.
Proof.
  revert r. induction n as [|n IH]; intros r; [done|]. destruct r as [|c r]; [done|].
  cbn [trim_right_fuel]. destruct (decode_last_rev (c :: r)) as [z w]. destruct (f z); [|done].
  etrans; [apply IH|]. rewrite length_drop. lia.
Qed.

(** A string that [TrimSpace] leaves alone does not end in ASCII white space. *)
Lemma trim_space_fixed_last s c :
  trim_space s = s -> (bval c < 128)%Z -> is_space (bval c) = true -> last s <> Some c.
Proof.
  intros Htrim Hc Hs Hl. unfold trim_space, trim_left_func in Htrim.
  destruct (trim_left_fuel_drop is_space (length s) s) as [k Ek]. rewrite Ek in Htrim.
  assert (length (trim_right_func is_space (drop k s)) <= length (drop k s)) as Hlen.
  { unfold trim_right_func. rewrite length_rev. etrans; [apply trim_right_fuel_length|].
    by rewrite length_rev. }
  rewrite Htrim, length_drop in Hlen. apply last_snoc_inv in Hl.
  assert (length s = length (removelast s) + 1)
    by (apply (f_equal length) in Hl; rewrite length_app in Hl; simpl in Hl; lia).
  assert (k = 0) as -> by lia. rewrite drop_0 in Htrim.
  unfold trim_right_func in Htrim. apply (f_equal length) in Htrim.
  rewrite length_rev in Htrim. rewrite Hl in Htrim at 2. rewrite rev_app_distr in Htrim.
  destruct (length s) as [|n] eqn:En; [lia|]. simpl in Htrim.
  unfold RuneSelf in Htrim. rewrite (proj2 (Z.ltb_lt _ _) Hc) in Htrim. simpl in Htrim.
  rewrite Hs in Htrim.
  pose proof (trim_right_fuel_length is_space n (drop 0 (rev (removelast s)))) as Hr.
  rewrite drop_0, length_rev in *. lia.
Qed.
