(* ===== verification/GoUtf8.v ===== *)
(** * UTF-8: decoding and encoding are inverse

    The laws of [decode_rune], [encode_rune], [runes] and [valid_utf8] that the
    components share: a scalar value survives encoding and decoding, a valid
    string is the encoding of its runes, and decoding distributes over what
    follows an encoded rune. *)

From S2P Require Import Prelude GoStrings.

Local Open Scope Z_scope.

#[local] Ltac Zify.zify_post_hook ::= Z.to_euclidean_division_equations.

(** [utf8.ValidRune]: a code point that is not a surrogate half. *)
Definition scalar (r : rune) : Prop := 0 <= r <= 1114111 /\ ~ (55296 <= r <= 57343).

Lemma in_range_true lo hi z : lo <= z <= hi -> in_range lo hi z = true.
Proof. intros H. unfold in_range. rewrite andb_true_iff, !Z.leb_le. lia. Qed.

Lemma in_range_false lo hi z : (z < lo \/ hi < z) -> in_range lo hi z = false.
Proof. intros H. unfold in_range. rewrite andb_false_iff, !Z.leb_gt. lia. Qed.

Lemma in_range_spec lo hi z : in_range lo hi z = true <-> lo <= z <= hi.
Proof. unfold in_range. rewrite andb_true_iff, !Z.leb_le. lia. Qed.

(** Settles the range tests of a goal by arithmetic. *)
Ltac ranges :=
  repeat match goal with
  | |- context [in_range ?lo ?hi ?z] =>
      first [rewrite (in_range_true lo hi z) by lia | rewrite (in_range_false lo hi z) by lia]
  | |- context [?x <? ?y] =>
      first [rewrite (proj2 (Z.ltb_lt x y)) by lia | rewrite (proj2 (Z.ltb_ge x y)) by lia]
  | |- context [?x =? ?y] =>
      first [rewrite (proj2 (Z.eqb_eq x y)) by lia | rewrite (proj2 (Z.eqb_neq x y)) by lia]
  end.

Lemma encode_ascii r : 0 <= r < 128 -> encode_rune r = [byte_of r].
Proof. intros H. unfold encode_rune. by ranges. Qed.

Lemma encode_ascii_byte c : bval c < 128 -> encode_rune (bval c) = [c].
Proof. intros H. pose proof (bval_range c). rewrite encode_ascii by lia. by rewrite byte_of_bval. Qed.

(** The second byte's range never rejects what the encoder writes. *)
Lemma accept_range_two b0 : 194 <= b0 <= 223 -> accept_range b0 = (128, 191).
Proof. intros H. unfold accept_range. by ranges. Qed.

Lemma decode_encode r s :
  scalar r -> decode_rune (encode_rune r ++ s) = (r, length (encode_rune r)).
Proof.
  intros [Hr Hs]. unfold encode_rune.
  destruct (decide (r <= 127)).
  { ranges. rewrite <- (bval_byte_of r) at 2 by lia. apply decode_rune_ascii.
    rewrite bval_byte_of by lia. lia. }
  destruct (decide (r <= 2047)).
  { ranges. unfold decode_rune. cbn [app]. cbv beta iota zeta. rewrite !bval_byte_of by lia.
    rewrite accept_range_two by lia. unfold RuneSelf. ranges. simpl. f_equal. lia. }
  destruct (decide (r <= 65535)).
  { assert (in_range 55296 57343 r || (r <? 0) || (1114111 <? r) = false) as -> by (by ranges).
    ranges. unfold decode_rune. cbn [app]. cbv beta iota zeta. rewrite !bval_byte_of by lia. unfold RuneSelf.
    destruct (decide (r / 4096 = 0)); [|destruct (decide (r / 4096 = 13))];
      unfold accept_range; ranges; simpl; f_equal; lia. }
  assert (in_range 55296 57343 r || (r <? 0) || (1114111 <? r) = false) as -> by (by ranges).
  ranges. unfold decode_rune. cbn [app]. cbv beta iota zeta. rewrite !bval_byte_of by lia. unfold RuneSelf.
  destruct (decide (r / 262144 = 0)); [|destruct (decide (r / 262144 = 4))];
    unfold accept_range; ranges; simpl; f_equal; lia.
Qed.

Lemma encode_rune_length r : (1 <= length (encode_rune r) <= 4)%nat.
Proof. unfold encode_rune. repeat case_match; simpl; lia. Qed.

Lemma bytes_eq z c l l' : z = bval c -> l = l' -> byte_of z :: l = c :: l'.
Proof. intros -> ->. by rewrite byte_of_bval. Qed.

(** The rune read is the one the bytes encode. *)
Lemma encode_decode s r w c s' :
  s = c :: s' -> decode_rune s = (r, w) -> w <> 1%nat \/ bval c < 128 ->
  scalar r /\ encode_rune r = take w s.
Proof.
  intros -> E Hok. pose proof (bval_range c) as Hc. unfold decode_rune, RuneSelf in E.
  destruct (accept_range (bval c)) as [lo hi] eqn:Ea. destruct (bval c <? 128) eqn:E0.
  { apply Z.ltb_lt in E0. injection E as <- <-. split; [unfold scalar; lia|].
    rewrite encode_ascii_byte by lia. done. }
  apply Z.ltb_ge in E0. destruct Hok as [Hw|]; [|lia].
  repeat match type of E with
  | context [if ?b then _ else _] => let Eb := fresh "Eb" in destruct b eqn:Eb
  | context [match ?l with [] => _ | _ :: _ => _ end] => destruct l
  end; injection E as <- <-; try done;
  repeat match goal with
  | H : _ && _ = true |- _ => apply andb_true_iff in H as [? H]
  end; rewrite ?in_range_spec in *;
  repeat match goal with a : ascii |- _ => lazymatch goal with
    | H : 0 <= bval a < 256 |- _ => fail
    | _ => pose proof (bval_range a) end end.
  - assert (lo = 128 /\ hi = 191) as [-> ->] by (rewrite accept_range_two in Ea by lia; by simplify_eq).
    split; [unfold scalar; lia|]. unfold encode_rune. ranges. simpl.
    repeat (apply bytes_eq; [lia|]). done.
  - assert (128 <= lo /\ hi <= 191 /\ (bval c = 224 -> 160 <= lo) /\ (bval c = 237 -> hi <= 159)) as Hlh.
    { unfold accept_range in Ea. repeat case_match; breflect; simplify_eq; lia. }
    split; [unfold scalar; lia|]. unfold encode_rune.
    match goal with |- context [in_range 55296 57343 ?z] =>
      assert (in_range 55296 57343 z || (z <? 0) || (1114111 <? z) = false) as -> by (by ranges) end.
    ranges. simpl. repeat (apply bytes_eq; [lia|]). done.
  - assert (128 <= lo /\ hi <= 191 /\ (bval c = 240 -> 144 <= lo) /\ (bval c = 244 -> hi <= 143)) as Hlh.
    { unfold accept_range in Ea. repeat case_match; breflect; simplify_eq; lia. }
    split; [unfold scalar; lia|]. unfold encode_rune.
    match goal with |- context [in_range 55296 57343 ?z] =>
      assert (in_range 55296 57343 z || (z <? 0) || (1114111 <? z) = false) as -> by (by ranges) end.
    ranges. simpl. repeat (apply bytes_eq; [lia|]). done.
Qed.

(** ** Whole strings *)

Definition encode_runes (rs : list rune) : gostring := concat (map encode_rune rs).

Lemma encode_runes_app rs rs' : encode_runes (rs ++ rs') = encode_runes rs ++ encode_runes rs'.
Proof. unfold encode_runes. by rewrite map_app, concat_app. Qed.

Lemma runes_fuel_enough n s : (length s <= n)%nat -> runes_fuel n s = runes s.
Proof.
  revert s. assert (forall k s n, (length s <= k)%nat -> (length s <= n)%nat ->
    runes_fuel n s = runes_fuel k s) as H; [|intros; unfold runes; by apply H].
  induction k as [|k IH]; intros s n' Hk Hn.
  - destruct s; [by destruct n'|simpl in Hk; lia].
  - destruct s as [|c s]; [by destruct n'|]. destruct n' as [|n']; [simpl in Hn; lia|].
    simpl runes_fuel. pose proof (decode_rune_width (c :: s) ltac:(done)) as Hw.
    destruct (decode_rune (c :: s)) as [r w]. simpl in Hw. f_equal.
    apply IH; rewrite length_drop; simpl in *; lia.
Qed.

Lemma runes_cons s : s <> [] -> runes s = (decode_rune s).1 :: runes (drop (decode_rune s).2 s).
Proof.
  intros Hne. pose proof (decode_rune_width s Hne). destruct s as [|c s]; [done|].
  unfold runes at 1. simpl length. cbn [runes_fuel].
  destruct (decode_rune (c :: s)) as [r w]. simpl in *. f_equal.
  apply runes_fuel_enough. rewrite length_drop. simpl. lia.
Qed.

Lemma runes_encode_cons r s : scalar r -> runes (encode_rune r ++ s) = r :: runes s.
Proof.
  intros Hr. pose proof (encode_rune_length r).
  rewrite runes_cons by (destruct (encode_rune r); simpl in *; [lia|done]).
  rewrite decode_encode by done. simpl. by rewrite drop_app_length.
Qed.

Lemma runes_encode_app rs s : Forall scalar rs -> runes (encode_runes rs ++ s) = rs ++ runes s.
Proof.
  induction 1 as [|r rs Hr _ IH]; [done|]. unfold encode_runes in *. simpl.
  by rewrite <- app_assoc, runes_encode_cons, IH.
Qed.

Lemma runes_ascii c s : bval c < 128 -> runes (c :: s) = bval c :: runes s.
Proof.
  intros H. rewrite runes_cons by done. by rewrite decode_rune_ascii.
Qed.

(** A valid string is the encoding of its runes. *)
Lemma valid_utf8_runes s : valid_utf8 s = true -> s = encode_runes (runes s) /\ Forall scalar (runes s).
Proof.
  unfold valid_utf8. assert (forall n s, (length s <= n)%nat -> valid_utf8_fuel n s = true ->
    s = encode_runes (runes s) /\ Forall scalar (runes s)) as H; [|by apply H].
  clear. induction n as [|n IH]; intros s Hn Hv.
  { destruct s; [by split; [|constructor]|simpl in Hn; lia]. }
  destruct s as [|c s]; [by split; [|constructor]|]. cbn [valid_utf8_fuel] in Hv.
  pose proof (decode_rune_width (c :: s) ltac:(done)) as Hw. rewrite runes_cons by done.
  destruct (decode_rune (c :: s)) as [r w] eqn:E. simpl in Hw |- *.
  destruct ((w =? 1)%nat && (RuneSelf <=? bval c)) eqn:Eb; [done|].
  destruct (encode_decode (c :: s) r w c s) as [Hr He]; [done|done| |].
  { unfold RuneSelf in Eb. apply andb_false_iff in Eb as [Eb|Eb];
      [apply Nat.eqb_neq in Eb; by left|apply Z.leb_gt in Eb; by right]. }
  destruct (IH (drop w (c :: s))) as [Hs Hall]; [rewrite length_drop; simpl in *; lia|done|].
  split; [|by constructor]. unfold encode_runes in *. simpl. rewrite <- Hs, He.
  by rewrite take_drop.
Qed.

Lemma valid_utf8_encode rs : Forall scalar rs -> valid_utf8 (encode_runes rs) = true.
Proof.
  intros Hall. unfold valid_utf8. generalize (le_n (length (encode_runes rs))).
  generalize (length (encode_runes rs)) at 2 3 as n. induction Hall as [|r rs Hr _ IH]; intros n Hn;
    [by destruct n|]. unfold encode_runes in *. simpl in *. rewrite length_app in Hn.
  pose proof (encode_rune_length r) as Hl.
  destruct n as [|n]; [lia|]. cbn [valid_utf8_fuel].
  destruct (encode_rune r ++ concat (map encode_rune rs)) as [|c s] eqn:E.
  { apply (f_equal length) in E. rewrite length_app in E. simpl in E. lia. }
  rewrite <- E, decode_encode by done. rewrite drop_app_length.
  assert ((length (encode_rune r) =? 1)%nat && (RuneSelf <=? bval c) = false) as ->.
  { apply andb_false_iff. destruct (decide (r < 128)) as [Hlt|].
    - right. rewrite encode_ascii in E by (unfold scalar in *; lia). simpl in E. injection E as <- _.
      apply Z.leb_gt. unfold RuneSelf. rewrite bval_byte_of; unfold scalar in *; lia.
    - left. apply Nat.eqb_neq. unfold encode_rune, scalar in *. ranges.
      by repeat case_match. }
  apply IH. lia.
Qed.

Lemma runes_encode rs : Forall scalar rs -> runes (encode_runes rs) = rs.
Proof. intros H. rewrite <- (app_nil_r (encode_runes rs)), runes_encode_app by done. apply app_nil_r. Qed.

(** ** The last rune *)

Lemma rune_start_cont c : 128 <= bval c < 192 -> rune_start c = false.
Proof. destruct c as [[] [] [] [] [] [] [] []]; vm_compute; intuition congruence. Qed.

Lemma rune_start_lead c : 192 <= bval c -> rune_start c = true.
Proof. destruct c as [[] [] [] [] [] [] [] []]; vm_compute; intuition congruence. Qed.

Lemma decode_last_encode r t :
  scalar r -> decode_last_rev (rev (encode_rune r) ++ t) = (r, length (encode_rune r)).
Proof.
  intros Hr. pose proof (decode_encode r [] Hr) as Hd. rewrite app_nil_r in Hd. revert Hd.
  destruct Hr as [Hr Hs]. unfold encode_rune.
  destruct (decide (r <= 127)).
  { ranges. intros _. simpl. unfold decode_last_rev. rewrite bval_byte_of by lia. unfold RuneSelf. by ranges. }
  destruct (decide (r <= 2047)).
  { ranges. intros Hd. simpl rev. cbn [app]. unfold decode_last_rev. cbv beta iota zeta.
    rewrite bval_byte_of by lia. unfold RuneSelf. ranges.
    rewrite rune_start_lead by (rewrite bval_byte_of; lia). rewrite Hd. simpl. done. }
  destruct (decide (r <= 65535)).
  { assert (in_range 55296 57343 r || (r <? 0) || (1114111 <? r) = false) as -> by (by ranges).
    ranges. intros Hd. simpl rev. cbn [app]. unfold decode_last_rev. cbv beta iota zeta.
    rewrite bval_byte_of by lia. unfold RuneSelf. ranges.
    rewrite rune_start_cont by (rewrite bval_byte_of; lia).
    rewrite rune_start_lead by (rewrite bval_byte_of; lia). rewrite Hd. simpl. done. }
  assert (in_range 55296 57343 r || (r <? 0) || (1114111 <? r) = false) as -> by (by ranges).
  ranges. intros Hd. simpl rev. cbn [app]. unfold decode_last_rev. cbv beta iota zeta.
  rewrite bval_byte_of by lia. unfold RuneSelf. ranges.
  rewrite !rune_start_cont by (rewrite bval_byte_of; lia).
  rewrite rune_start_lead by (rewrite bval_byte_of; lia). rewrite Hd. simpl. done.
Qed.

(** ** Trimming, rune by rune *)

Fixpoint drop_while {A} (f : A -> bool) (l : list A) : list A :=
  match l with
  | x :: l' => if f x then drop_while f l' else l
  | [] => []
  end.

Lemma encode_runes_cons r rs : encode_runes (r :: rs) = encode_rune r ++ encode_runes rs.
Proof. done. Qed.

Lemma encode_rune_nonempty r : encode_rune r <> [].
Proof. pose proof (encode_rune_length r). destruct (encode_rune r); [simpl in *; lia|done]. Qed.

Lemma trim_left_encode f rs :
  Forall scalar rs -> trim_left_func f (encode_runes rs) = encode_runes (drop_while f rs).
Proof.
  intros Hall. unfold trim_left_func. generalize (le_n (length (encode_runes rs))).
  generalize (length (encode_runes rs)) at 2 3 as n.
  induction Hall as [|r rs Hr _ IH]; intros n Hn; [by destruct n|].
  rewrite encode_runes_cons in *. rewrite length_app in Hn. pose proof (encode_rune_length r).
  destruct n as [|n]; [lia|]. cbn [trim_left_fuel drop_while].
  destruct (encode_rune r ++ encode_runes rs) as [|c s] eqn:E.
  { apply app_eq_nil in E as [E _]. by apply encode_rune_nonempty in E. }
  rewrite <- E, decode_encode by done. destruct (f r); [|done].
  rewrite drop_app_length. apply IH. lia.
Qed.

Lemma trim_right_encode f rs :
  Forall scalar rs -> trim_right_func f (encode_runes rs) = encode_runes (rev (drop_while f (rev rs))).
Proof.
  intros Hall. unfold trim_right_func. rewrite <- (rev_involutive (encode_runes (rev _))). f_equal.
  generalize (le_n (length (encode_runes rs))). generalize (length (encode_runes rs)) at 2 3 as n.
  induction rs as [|r rs IH] using rev_ind; intros n Hn; [by destruct n|].
  apply Forall_app in Hall as [Hall Hr]. apply Forall_cons in Hr as [Hr _].
  rewrite encode_runes_app in *. rewrite length_app in Hn.
  assert (encode_runes [r] = encode_rune r) as Er by apply app_nil_r. rewrite Er in *.
  pose proof (encode_rune_length r). destruct n as [|n]; [lia|].
  rewrite !rev_app_distr. cbn [rev app trim_right_fuel drop_while].
  destruct (rev (encode_rune r) ++ rev (encode_runes rs)) as [|c s] eqn:E.
  { apply (f_equal length) in E. rewrite length_app, length_rev in E. simpl in E. lia. }
  rewrite <- E, decode_last_encode by done. destruct (f r).
  - rewrite <- (length_rev (encode_rune r)), drop_app_length. apply IH; [done|lia].
  - cbn [rev]. by rewrite rev_involutive, encode_runes_app, rev_app_distr, Er.
Qed.

(** Trimming both ends of a prefix gives a prefix of the trimmed whole. *)
Lemma drop_while_split {A} (f : A -> bool) (l : list A) :
  exists ws, l = ws ++ drop_while f l /\ Forall (fun x => f x = true) ws
    /\ (drop_while f l = [] \/ exists x l', drop_while f l = x :: l' /\ f x = false).
Proof.
  induction l as [|x l (ws & E & Hws & Hd)]; [by exists []; split_and!; [|constructor|left]|]. simpl.
  destruct (f x) eqn:Ef.
  - exists (x :: ws). split_and!; [by rewrite E at 1|by constructor|done].
  - exists []. split_and!; [done|constructor|]. right. by exists x, l.
Qed.

Lemma drop_while_app {A} (f : A -> bool) (ws l : list A) :
  Forall (fun x => f x = true) ws -> drop_while f (ws ++ l) = drop_while f l.
Proof. induction 1 as [|x ws Hx _ IH]; [done|]. simpl. by rewrite Hx. Qed.

Definition trim_runes {A} (f : A -> bool) (l : list A) : list A := rev (drop_while f (rev (drop_while f l))).

Lemma trim_end_split {A} (f : A -> bool) (l : list A) :
  exists ws, l = rev (drop_while f (rev l)) ++ ws /\ Forall (fun x => f x = true) ws.
Proof.
  destruct (drop_while_split f (rev l)) as (ws & E & Hws & _). exists (rev ws). split.
  - rewrite <- rev_app_distr, <- E. by rewrite rev_involutive.
  - by apply Forall_rev.
Qed.

Lemma trim_end_prefix {A} (f : A -> bool) (b t : list A) :
  rev (drop_while f (rev b)) `prefix_of` rev (drop_while f (rev (b ++ t))).
Proof.
  induction t as [|x t IH] using rev_ind; [by rewrite app_nil_r|].
  rewrite app_assoc, (rev_app_distr (b ++ t)). simpl. destruct (f x); [done|].
  destruct (trim_end_split f b) as (ws & E & _). simpl. rewrite rev_involutive.
  exists (ws ++ t ++ [x]). by rewrite E at 1; rewrite <- !app_assoc.
Qed.

Lemma trim_runes_prefix {A} (f : A -> bool) (q l : list A) :
  q `prefix_of` l -> trim_runes f q `prefix_of` trim_runes f l.
Proof.
  intros [t ->]. unfold trim_runes. destruct (drop_while_split f q) as (ws & E & Hws & [Hn|(x & l' & Hd & Hx)]).
  - rewrite Hn. simpl. apply prefix_nil.
  - rewrite E at 2. rewrite <- app_assoc, drop_while_app by done. rewrite Hd. simpl drop_while.
    rewrite Hx. apply (trim_end_prefix f (x :: l') t).
Qed.

Lemma encode_prefix q l : q `prefix_of` l -> encode_runes q `prefix_of` encode_runes l.
Proof. intros [t ->]. rewrite encode_runes_app. by eexists. Qed.

Lemma encode_rune_high r : scalar r -> (128 <= r)%Z -> Forall (fun c => (128 <= bval c)%Z) (encode_rune r).
Proof.
  intros [Hr Hs] Hlt. unfold encode_rune.
  repeat case_match; rewrite ?in_range_spec in *; try lia;
    repeat (apply Forall_cons; split; [rewrite bval_byte_of|]); try (by constructor);
    breflect; unfold RuneError in *; Z.to_euclidean_division_equations; lia.
Qed.

Arguments runes : simpl never.
Arguments encode_rune : simpl never.

(** ** [strings.TrimSpace] is idempotent, on any bytes *)

Lemma decode_rune_width_one c s r : decode_rune (c :: s) = (r, 1%nat) -> bval c < 128 \/ r = RuneError.
Proof.
  unfold decode_rune, RuneSelf. destruct (accept_range (bval c)) as [lo hi].
  destruct (bval c <? 128) eqn:E; [intros _; left; lia|].
  repeat case_match; intros [= <-]; try (by right); simplify_eq.
Qed.

(** A rune that decodes keeps decoding with more bytes behind it. *)
Lemma decode_rune_extend t x :
  t <> [] -> (decode_rune t).1 <> RuneError -> decode_rune (t ++ x) = decode_rune t.
Proof.
  intros Ht. destruct (decode_rune t) as [r w] eqn:E. simpl. intros Hr. destruct t as [|c t']; [done|].
  pose proof (decode_rune_width (c :: t') Ht) as Hw. rewrite E in Hw. cbn [snd] in Hw.
  destruct (encode_decode (c :: t') r w c t' eq_refl E) as [Hsc Henc].
  { destruct (decide (w = 1%nat)) as [->|]; [|by left]. apply decode_rune_width_one in E. naive_solver. }
  assert (length (encode_rune r) = w) as Hlen by (rewrite Henc, length_take; lia).
  rewrite <- (take_drop w (c :: t')), <- Henc, <- (assoc (++)), decode_encode by done. by rewrite Hlen.
Qed.

Lemma trim_left_fuel_head f n s : (length s <= n)%nat ->
  trim_left_fuel f n s = [] \/ f (decode_rune (trim_left_fuel f n s)).1 = false.
Proof.
  revert s. induction n as [|n IH]; intros s Hn; [destruct s; simpl in Hn; [by left|lia]|].
  destruct s as [|c s]; [by left|]. cbn [trim_left_fuel].
  pose proof (decode_rune_width (c :: s) ltac:(done)) as Hw.
  destruct (decode_rune (c :: s)) as [r w] eqn:E. cbn [snd] in Hw.
  destruct (f r) eqn:Ef; [|right; by rewrite E]. apply IH. rewrite length_drop. simpl in *. lia.
Qed.

Lemma trim_right_fuel_drop f n r : exists k, trim_right_fuel f n r = drop k r.
Proof.
  revert r. induction n as [|n IH]; intros r; [by exists 0%nat|]. destruct r as [|c r]; [by exists 0%nat|].
  cbn [trim_right_fuel]. destruct (decode_last_rev (c :: r)) as [z w]. destruct (f z); [|by exists 0%nat].
  destruct (IH (drop w (c :: r))) as [k ->]. exists (w + k)%nat. by rewrite drop_drop.
Qed.

Lemma trim_right_fuel_last f n r : (length r <= n)%nat ->
  trim_right_fuel f n r = [] \/ f (decode_last_rev (trim_right_fuel f n r)).1 = false.
Proof.
  revert r. induction n as [|n IH]; intros r Hn; [destruct r; simpl in Hn; [by left|lia]|].
  destruct r as [|c r]; [by left|]. cbn [trim_right_fuel].
  pose proof (decode_last_rev_width (c :: r) ltac:(done)) as Hw.
  destruct (decode_last_rev (c :: r)) as [z w] eqn:E. cbn [snd] in Hw.
  destruct (f z) eqn:Ef; [|right; by rewrite E]. apply IH. rewrite length_drop. simpl in *. lia.
Qed.

Lemma trim_space_idem s : trim_space (trim_space s) = trim_space s.
Proof.
  unfold trim_space at 2 3. set (u := trim_left_func is_space s).
  set (t := trim_right_func is_space u).
  assert (exists x, u = t ++ x) as [x Eu].
  { unfold t, trim_right_func. destruct (trim_right_fuel_drop is_space (length u) (rev u)) as [k ->].
    exists (rev (take k (rev u))). rewrite <- rev_app_distr, take_drop. by rewrite rev_involutive. }
  destruct (decide (t = [])) as [->|Ht]; [done|].
  assert (trim_left_func is_space t = t) as Hl.
  { destruct t as [|c t'] eqn:Et; [done|]. unfold trim_left_func. cbn [length trim_left_fuel].
    destruct (decode_rune (c :: t')) as [r w] eqn:E. destruct (is_space r) eqn:Er; [|done]. exfalso.
    assert (decode_rune u = (r, w)) as Edu.
    { rewrite Eu, decode_rune_extend; [done|done|]. rewrite E. simpl. intros ->. done. }
    destruct (trim_left_fuel_head is_space (length s) s ltac:(lia)) as [En|En].
    - unfold u, trim_left_func in Eu. by rewrite En in Eu.
    - change (trim_left_fuel is_space (length s) s) with u in En. rewrite Edu in En. simpl in En. congruence. }
  unfold trim_space. rewrite Hl. apply trim_right_clean. unfold clean_right. apply negb_true_iff.
  unfold t, trim_right_func. rewrite rev_involutive.
  destruct (trim_right_fuel_last is_space (length u) (rev u)) as [En|En]; [by rewrite length_rev| |done].
  destruct Ht. unfold t, trim_right_func. by rewrite En.
Qed.
