(* ===== verification/GoText.v ===== *)
(** * More of Go's standard library: searching, quoting, lower case, [filepath.Base]

    The parts of [strings], [strconv] and [path/filepath] (Unix) the policy
    engine and its messages use.  The Unicode tables behind [unicode.ToLower]
    and [strconv.IsPrint] beyond Latin-1 are arguments. *)

From S2P Require Import Prelude GoStrings GoUtf8.

#[export] Instance ascii_countable : Countable ascii :=
  inj_countable' N_of_ascii ascii_of_N ascii_N_embedding.

(** [strings.IndexByte] / [strings.Cut] with a one-byte separator: the parts
    before and after the first occurrence. *)
Fixpoint cut_byte (sep : ascii) (s : gostring) : option (gostring * gostring) :=
  match s with
  | [] => None
  | c :: s =>
      if decide (c = sep) then Some ([], s)
      else match cut_byte sep s with
           | Some (before, after) => Some (c :: before, after)
           | None => None
           end
  end.

(** [strings.Count] of one byte. *)
Definition count_byte (c : ascii) (s : gostring) : nat := length (filter (fun d => d = c) s).

(** [strings.Contains] *)
Fixpoint contains (s sub : gostring) : bool :=
  has_prefix s sub || match s with [] => false | _ :: s => contains s sub end.

(** [strings.Index] *)
Fixpoint str_index (s sub : gostring) : option nat :=
  if has_prefix s sub then Some 0%nat
  else match s with
       | [] => None
       | _ :: s => S <$> str_index s sub
       end.

(** [strings.TrimRight] with a one-byte cutset. *)
Fixpoint trim_left_byte (c : ascii) (s : gostring) : gostring :=
  match s with
  | d :: s' => if decide (d = c) then trim_left_byte c s' else s
  | [] => []
  end.
Definition trim_right_byte (c : ascii) (s : gostring) : gostring := rev (trim_left_byte c (rev s)).

(** ** [strings.ToLower] *)

Definition ascii_lower (c : ascii) : ascii :=
  if in_range 65 90 (bval c) then byte_of (bval c + 32)%Z else c.

Section Unicode.
(** [unicode.ToLower] beyond ASCII, and [strconv.IsPrint] beyond Latin-1. *)
Variable unicode_lower : rune -> rune.
Variable unicode_print : rune -> bool.

Definition rune_lower (r : rune) : rune :=
  if (r <? 128)%Z then (if in_range 65 90 r then (r + 32)%Z else r) else unicode_lower r.

Definition to_lower (s : gostring) : gostring :=
  if forallb (fun c => (bval c <? 128)%Z) s then map ascii_lower s
  else encode_runes (map rune_lower (runes s)).

(** ** [strings.ToUpper] *)

Definition ascii_upper (c : ascii) : ascii :=
  if in_range 97 122 (bval c) then byte_of (bval c - 32)%Z else c.

Definition rune_upper (unicode_upper : rune -> rune) (r : rune) : rune :=
  if (r <? 128)%Z then (if in_range 97 122 r then (r - 32)%Z else r) else unicode_upper r.

Definition to_upper (unicode_upper : rune -> rune) (s : gostring) : gostring :=
  if forallb (fun c => (bval c <? 128)%Z) s then map ascii_upper s
  else encode_runes (map (rune_upper unicode_upper) (runes s)).

(** ** [strconv.Quote], the [%q] verb *)

Definition is_print (r : rune) : bool :=
  if (r <=? 255)%Z then in_range 32 126 r || (in_range 161 255 r && negb (r =? 173)%Z)
  else unicode_print r.

Definition hex_digit (z : Z) : ascii :=
  if (z <? 10)%Z then byte_of (48 + z)%Z else byte_of (87 + z)%Z.

(** [n] hexadecimal digits of [z]. *)
Fixpoint hex (n : nat) (z : Z) : gostring :=
  match n with
  | O => []
  | S n => hex n (z / 16)%Z ++ [hex_digit (z mod 16)%Z]
  end.

Definition valid_rune (r : rune) : bool :=
  in_range 0 1114111 r && negb (in_range 55296 57343 r).

Definition escaped_rune (r : rune) : gostring :=
  let bs := "092"%char in
  if (r =? 34)%Z || (r =? 92)%Z then [bs; byte_of r]
  else if is_print r then encode_rune r
  else if (r =? 7)%Z then [bs; "a"%char]
  else if (r =? 8)%Z then [bs; "b"%char]
  else if (r =? 12)%Z then [bs; "f"%char]
  else if (r =? 10)%Z then [bs; "n"%char]
  else if (r =? 13)%Z then [bs; "r"%char]
  else if (r =? 9)%Z then [bs; "t"%char]
  else if (r =? 11)%Z then [bs; "v"%char]
  else if (r <? 32)%Z || (r =? 127)%Z then [bs; "x"%char] ++ hex 2 r
  else if negb (valid_rune r) then [bs; "u"%char] ++ hex 4 RuneError
  else if (r <? 65536)%Z then [bs; "u"%char] ++ hex 4 r
  else [bs; "U"%char] ++ hex 8 r.

Fixpoint quote_body (fuel : nat) (s : gostring) : gostring :=
  match fuel, s with
  | S fuel, c :: _ =>
      let '(r, w) := decode_rune s in
      (if (w =? 1)%nat && (r =? RuneError)%Z then ["092"%char; "x"%char] ++ hex 2 (bval c)
       else escaped_rune r) ++ quote_body fuel (drop w s)
  | _, _ => []
  end.

Definition quote (s : gostring) : gostring :=
  ["034"%char] ++ quote_body (length s) s ++ ["034"%char].

End Unicode.

(** ** [filepath.Base] on Unix *)

Definition after_last (sep : ascii) (s : gostring) : gostring :=
  match last (split_byte sep s) with Some l => l | None => s end.

Definition filepath_base (path : gostring) : gostring :=
  if decide (path = []) then "."
  else
    let base := after_last "/" (trim_right_byte "/" path) in
    if decide (base = []) then "/" else base.

Example base_examples :
  map filepath_base [str "/usr/bin/git"; str "git"; str "/usr/bin/"; str "/"; str "//"; []]
  = [str "git"; str "git"; str "bin"; str "/"; str "/"; str "."].
Proof. reflexivity. Qed.

Example quote_example :
  quote (fun _ => true) (str "a" ++ ["034"%char; "009"%char; "255"%char; "127"%char; "195"%char; "169"%char])
  = ["034"%char] ++ str "a" ++ ["092"%char; "034"%char; "092"%char] ++ str "t" ++ ["092"%char] ++ str "xff"
    ++ ["092"%char] ++ str "x7f" ++ ["195"%char; "169"%char; "034"%char].
Proof. vm_compute. reflexivity. Qed.

(** ** Laws *)

Lemma cut_byte_spec sep s before after :
  cut_byte sep s = Some (before, after) <-> s = before ++ sep :: after /\ sep ∉ before.
Proof.
  revert before. induction s as [|c s IH]; intros before; simpl.
  - split; [done|]. intros [H _]. by destruct before.
  - case_decide as Hc.
    + subst. split; [intros [= <- <-]; split; [done|apply not_elem_of_nil]|].
      intros [E Hn]. destruct before as [|d before]; [by injection E as ->|].
      injection E as -> ->. destruct Hn. by left.
    + destruct (cut_byte sep s) as [[b a]|]; split.
      * intros [= <- <-]. destruct (proj1 (IH b) eq_refl) as [-> Hn]. split; [done|].
        apply not_elem_of_cons. by split; [congruence|].
      * intros [E Hn]. destruct before as [|d before]; [by injection E as ->|].
        injection E as -> E. apply not_elem_of_cons in Hn as [_ Hn].
        assert (Some (b, a) = Some (before, after)) as [= -> ->] by (by apply IH). done.
      * done.
      * intros [E Hn]. destruct before as [|d before]; [by injection E as ->|].
        injection E as -> E. apply not_elem_of_cons in Hn as [_ Hn].
        assert (None = Some (before, after)); [by apply IH|done].
Qed.

Lemma cut_byte_None sep s : cut_byte sep s = None <-> sep ∉ s.
Proof.
  induction s as [|c s IH]; simpl; [split; [intros _; apply not_elem_of_nil|done]|].
  rewrite not_elem_of_cons. case_decide as Hc; [split; [done|by intros [? _]]|].
  destruct (cut_byte sep s) as [[? ?]|]; split; try done.
  - intros [_ Hn]. by apply IH in Hn.
  - intros _. split; [congruence|]. by apply IH.
Qed.

Lemma contains_spec s sub : contains s sub = true <-> exists p t, s = p ++ sub ++ t.
Proof.
  induction s as [|c s IH]; simpl; rewrite orb_true_iff, has_prefix_true.
  - split.
    + intros [[r E]|]; [by exists [], r|done].
    + intros (p & t & E). left. exists t. by destruct p.
  - split.
    + intros [[r E]|H]; [by exists [], r|]. apply IH in H as (p & t & ->). by exists (c :: p), t.
    + intros (p & t & E). destruct p as [|d p]; [left; by exists t|].
      right. apply IH. exists p, t. by injection E.
Qed.
