(* ===== verification/ApplyPatchParser.v ===== *)
(** * internal/applypatch: the patch envelope parser

    [markers.go], [hunk.go], [errors.go] and [parser.go].  A patch is a list of
    lines between two markers; the parser turns it into hunks.  Loops that
    advance by a computed number of lines run on fuel; [parsePatchText_returns]
    shows that the fuel chosen (the number of lines) is enough, and that no
    slice expression is out of range. *)

From S2P Require Import Prelude GoStrings.

Module Parser.

(** ** markers.go *)

Definition beginPatchMarker : gostring := "*** Begin Patch".
Definition environmentIDMarker : gostring := "*** Environment ID: ".
Definition endPatchMarker : gostring := "*** End Patch".
Definition addFileMarker : gostring := "*** Add File: ".
Definition deleteFileMarker : gostring := "*** Delete File: ".
Definition updateFileMarker : gostring := "*** Update File: ".
Definition moveToMarker : gostring := "*** Move to: ".
Definition eofMarker : gostring := "*** End of File".
Definition changeContextMarker : gostring := "@@ ".
Definition emptyChangeContextMarker : gostring := "@@".

(** ** hunk.go *)

(** [ChangeContext]/[HasChangeContext] is an option. *)
Record UpdateFileChunk := mkChunk {
  ChangeContext : option gostring;
  OldLines : list gostring;
  NewLines : list gostring;
  IsEndOfFile : bool
}.

(** The struct [Hunk] with its [Kind] tag; [MovePath]/[HasMovePath] is an
    option. *)
Inductive Hunk :=
| HunkAddFile (Path Contents : gostring)
| HunkDeleteFile (Path : gostring)
| HunkUpdateFile (Path : gostring) (MovePath : option gostring)
    (Chunks : list UpdateFileChunk).

#[export] Instance UpdateFileChunk_eq_dec : EqDecision UpdateFileChunk.
Proof. solve_decision. Defined.
#[export] Instance Hunk_eq_dec : EqDecision Hunk.
Proof. solve_decision. Defined.

Definition Path (h : Hunk) : gostring :=
  match h with
  | HunkAddFile p _ | HunkDeleteFile p | HunkUpdateFile p _ _ => p
  end.

Definition TargetPath (h : Hunk) : gostring :=
  match h with
  | HunkUpdateFile _ (Some dest) _ => dest
  | _ => Path h
  end.

(** ** errors.go *)

Inductive ParseError :=
| InvalidPatch (Message : gostring)
| InvalidHunk (Message : gostring) (LineNumber : nat).

#[export] Instance ParseError_eq_dec : EqDecision ParseError.
Proof. solve_decision. Defined.

(** [ParseError.Error] *)
Definition parse_error_string (e : ParseError) : gostring :=
  match e with
  | InvalidHunk msg n => "invalid hunk at line " ++ format_int (Z.of_nat n) ++ str ", " ++ msg
  | InvalidPatch msg => "invalid patch: " ++ msg
  end.

(** ** parser.go *)

Record ParseResult := mkParseResult {
  Patch : gostring;
  Hunks : list Hunk;
  EnvironmentID : option gostring
}.

Inductive parseMode := parseModeStrict | parseModeLenient.

(** Rust's [str::lines]. *)
Definition splitLines (s : gostring) : list gostring :=
  match s with
  | [] => []
  | _ =>
      let raw := split_byte nl s in
      let raw := match last raw with Some [] => removelast raw | _ => raw end in
      map (fun line => trim_suffix line [cr]) raw
  end.

Definition parseEnvironmentIDPreamble (hunkLines : list gostring)
    : result ParseError (option gostring * list gostring * nat) :=
  match hunkLines with
  | [] => Ok (None, hunkLines, 2)
  | first :: rest_lines =>
      let trimmedStart := trim_left_func is_space first in
      match cut_prefix trimmedStart environmentIDMarker with
      | None => Ok (None, hunkLines, 2)
      | Some rest =>
          let environmentID := trim_space rest in
          if decide (environmentID = [])
          then Err (InvalidPatch "apply_patch environment_id cannot be empty")
          else Ok (Some environmentID, rest_lines, 3)
      end
  end.

Definition checkStartAndEndLinesStrict (firstLine lastLine : option gostring)
    : result ParseError unit :=
  let first := trim_space <$> firstLine in
  let last := trim_space <$> lastLine in
  if decide (first = Some beginPatchMarker /\ last = Some endPatchMarker) then Ok tt
  else if decide (is_Some first /\ first <> Some beginPatchMarker)
  then Err (InvalidPatch "The first line of the patch must be '*** Begin Patch'")
  else Err (InvalidPatch "The last line of the patch must be '*** End Patch'").

(** The head and last of a list of one line are that line, of an empty list
    [nil]. *)
Definition checkPatchBoundariesStrict (lines : list gostring)
    : result ParseError (list gostring * list gostring) :=
  _ ← checkStartAndEndLinesStrict (head lines) (last lines);
  inner ← or_panic (go_slice 1 (length lines - 1) lines);
  Ok (lines, inner).

Definition heredocMarkers : list gostring :=
  [str "<<EOF"; str "<<'EOF'"; "<<" ++ ["034"%char] ++ str "EOF" ++ ["034"%char]].

Definition checkPatchBoundariesLenient (originalLines : list gostring)
    : result ParseError (list gostring * list gostring) :=
  match checkPatchBoundariesStrict originalLines with
  | Err strictErr =>
      if decide (2 <= length originalLines) then
        let first := default [] (head originalLines) in
        let last := default [] (last originalLines) in
        if bool_decide (first ∈ heredocMarkers) && has_suffix last "EOF"
           && bool_decide (4 <= length originalLines)
        then
          inner ← or_panic (go_slice 1 (length originalLines - 1) originalLines);
          checkPatchBoundariesStrict inner
        else Err strictErr
      else Err strictErr
  | r => r
  end.

(** The line loop of [parseUpdateFileChunk].  Result: the chunk and the number
    of lines read.  [firstRune] only distinguishes the empty line and the three
    one-byte markers. *)
Fixpoint chunkLines (lineNumber : nat) (lines : list gostring) (parsedLines : nat)
    (chunk : UpdateFileChunk) : result ParseError (UpdateFileChunk * nat) :=
  match lines with
  | [] => Ok (chunk, parsedLines)
  | line :: rest =>
      let '(mkChunk ctx old new eof) := chunk in
      if decide (line = eofMarker) then
        if decide (parsedLines = 0)
        then Err (InvalidHunk "Update hunk does not contain any lines" (lineNumber + 1))
        else Ok (mkChunk ctx old new true, S parsedLines)
      else
        match line with
        | [] =>
            chunkLines lineNumber rest (S parsedLines)
              (mkChunk ctx (old ++ [[]]) (new ++ [[]]) eof)
        | c :: body =>
            if decide (c = " "%char) then
              chunkLines lineNumber rest (S parsedLines)
                (mkChunk ctx (old ++ [body]) (new ++ [body]) eof)
            else if decide (c = "+"%char) then
              chunkLines lineNumber rest (S parsedLines)
                (mkChunk ctx old (new ++ [body]) eof)
            else if decide (c = "-"%char) then
              chunkLines lineNumber rest (S parsedLines)
                (mkChunk ctx (old ++ [body]) new eof)
            else if decide (parsedLines = 0) then
              Err (InvalidHunk
                ("Unexpected line found in update hunk: '" ++ line ++ str
                 "'. Every line should start with ' ' (context line), '+' (added line), or '-' (removed line)")
                (lineNumber + 1))
            else Ok (chunk, parsedLines)
        end
  end.

Definition parseUpdateFileChunk (lines : list gostring) (lineNumber : nat)
    (allowMissingContext : bool) : result ParseError (UpdateFileChunk * nat) :=
  match lines with
  | [] => Err (InvalidHunk "Update hunk does not contain any lines" lineNumber)
  | line0 :: _ =>
      '(changeContext, startIndex) ←
        (if decide (line0 = emptyChangeContextMarker) then Ok (None, 1)
         else match cut_prefix line0 changeContextMarker with
              | Some ctx => Ok (Some ctx, 1)
              | None =>
                  if allowMissingContext then Ok (None, 0)
                  else Err (InvalidHunk
                    ("Expected update hunk to start with a @@ context marker, got: '"
                     ++ line0 ++ str "'") lineNumber)
              end);
      if decide (length lines <= startIndex)
      then Err (InvalidHunk "Update hunk does not contain any lines" (lineNumber + 1))
      else
        '(chunk, parsedLines) ←
          chunkLines lineNumber (drop startIndex lines) 0 (mkChunk changeContext [] [] false);
        Ok (chunk, parsedLines + startIndex)
  end.

(** The chunk loop of an update hunk: the chunks and the number of lines read. *)
Fixpoint updateChunks (fuel : nat) (lineNumber : nat) (remaining : list gostring)
    (parsed : nat) (chunks : list UpdateFileChunk)
    : result ParseError (list UpdateFileChunk * nat) :=
  match remaining with
  | [] => Ok (chunks, parsed)
  | line :: rest =>
      match fuel with
      | O => Panic
      | S fuel =>
          if decide (trim_space line = []) then
            updateChunks fuel lineNumber rest (S parsed) chunks
          else if has_prefix line "*" then Ok (chunks, parsed)
          else
            '(chunk, n) ←
              parseUpdateFileChunk remaining (lineNumber + parsed) (bool_decide (chunks = []));
            updateChunks fuel lineNumber (drop n remaining) (parsed + n) (chunks ++ [chunk])
      end
  end.

(** The add-file loop: the lines that start with [+]. *)
Fixpoint addedLines (lines : list gostring) : list gostring :=
  match lines with
  | [] => []
  | l :: rest =>
      match cut_prefix l "+" with
      | Some body => body :: addedLines rest
      | None => []
      end
  end.

(** The optional rename line of an update hunk. *)
Definition moveDest (remaining : list gostring) : option gostring :=
  match remaining with
  | [] => None
  | r0 :: _ => cut_prefix r0 moveToMarker
  end.

Definition parseOneHunk (lines : list gostring) (lineNumber : nat)
    : result ParseError (Hunk * nat) :=
  line0 ← or_panic (head lines);
  let firstLine := trim_space line0 in
  match cut_prefix firstLine addFileMarker with
  | Some path =>
      let added := addedLines (drop 1 lines) in
      Ok (HunkAddFile path (concat (map (fun l => l ++ [nl]) added)), 1 + length added)
  | None =>
  match cut_prefix firstLine deleteFileMarker with
  | Some path => Ok (HunkDeleteFile path, 1)
  | None =>
  match cut_prefix firstLine updateFileMarker with
  | Some path =>
      let remaining := drop 1 lines in
      let movePath := moveDest remaining in
      let parsed := if movePath is Some _ then 2 else 1 in
      let remaining := if movePath is Some _ then drop 1 remaining else remaining in
      '(chunks, parsed) ← updateChunks (length remaining) lineNumber remaining parsed [];
      if decide (chunks = [])
      then Err (InvalidHunk ("Update file hunk for path '" ++ path ++ str "' is empty") lineNumber)
      else Ok (HunkUpdateFile path movePath chunks, parsed)
  | None =>
      Err (InvalidHunk
        ("'" ++ firstLine ++ str "' is not a valid hunk header. Valid hunk headers: '*** Add File: {path}', '*** Delete File: {path}', '*** Update File: {path}'")
        lineNumber)
  end end end.

(** The hunk loop of [parsePatchText]. *)
Fixpoint parseHunks (fuel : nat) (remaining : list gostring) (lineNumber : nat)
    (hunks : list Hunk) : result ParseError (list Hunk) :=
  match remaining with
  | [] => Ok hunks
  | _ =>
      match fuel with
      | O => Panic
      | S fuel =>
          '(hunk, consumed) ← parseOneHunk remaining lineNumber;
          parseHunks fuel (drop consumed remaining) (lineNumber + consumed) (hunks ++ [hunk])
      end
  end.

Definition parsePatchText (patch : gostring) (mode : parseMode)
    : result ParseError ParseResult :=
  let lines := splitLines (trim_space patch) in
  '(patchLines, hunkLines) ←
    (match mode with
     | parseModeStrict => checkPatchBoundariesStrict lines
     | parseModeLenient => checkPatchBoundariesLenient lines
     end);
  '(environmentID, remaining, lineNumber) ← parseEnvironmentIDPreamble hunkLines;
  hunks ← parseHunks (length remaining) remaining lineNumber [];
  Ok (mkParseResult (join [nl] patchLines) hunks environmentID).

Definition ParsePatch (patch : gostring) : result ParseError ParseResult :=
  parsePatchText patch parseModeLenient.

Example parse_example :
  Hunks <$> ParsePatch "<<'EOF'
*** Begin Patch
*** Add File: a.txt
+x
*** Update File: b.txt
*** Move to: c.txt
@@ def f
-old
+new
 ctx
*** End of File
*** Delete File: d
*** End Patch
EOF"
  = Ok [ HunkAddFile "a.txt" ("x" ++ [nl]);
         HunkUpdateFile "b.txt" (Some (str "c.txt"))
           [mkChunk (Some (str "def f")) [str "old"; str "ctx"] [str "new"; str "ctx"] true];
         HunkDeleteFile "d" ].
Proof. vm_compute. reflexivity. Qed.

(** ** Progress, bounds and error positions

    One outcome specification per function: it returns, the number of lines
    consumed is in range, and an error carries a line number inside the lines
    it was given. *)

Definition error_at (lo hi : nat) (e : ParseError) : Prop :=
  match e with InvalidHunk _ n => lo <= n <= hi | InvalidPatch _ => False end.

Lemma error_at_mono lo hi lo' hi' e :
  lo' <= lo -> hi <= hi' -> error_at lo hi e -> error_at lo' hi' e.
Proof. destruct e; simpl; lia. Qed.

Lemma chunkLines_spec ln lines p c :
  rspec (fun '(_, n) => p <= n <= p + length lines /\ (lines <> [] -> 1 <= n))
        (error_at (ln + 1) (ln + 1)) (chunkLines ln lines p c).
Proof.
  revert p c. induction lines as [|line rest IH]; intros p [ctx old new eof]; [simpl; split; [lia|done]|].
  cbn [chunkLines].
  assert (forall c', rspec (fun '(_, n) => p <= n <= p + length (line :: rest) /\ (line :: rest <> [] -> 1 <= n))
    (error_at (ln + 1) (ln + 1)) (chunkLines ln rest (S p) c')) as Hrec.
  { intros c'. eapply rspec_mono; [apply IH| |done]. intros [? n] [? _]. simpl. lia. }
  repeat first [ apply Hrec | split_match ]; simpl; lia.
Qed.

Lemma parseUpdateFileChunk_spec lines ln allow :
  lines <> [] ->
  rspec (fun '(_, n) => 1 <= n <= length lines) (error_at ln (ln + length lines))
        (parseUpdateFileChunk lines ln allow).
Proof.
  intros Hne. unfold parseUpdateFileChunk. destruct lines as [|line0 rest]; [done|].
  eapply rspec_bind with (P := fun '(_, start) => start <= 1).
  { repeat split_match; simpl; lia. }
  intros [ctx start] Hs. case_decide; [simpl in *; lia|].
  eapply rspec_bind.
  { eapply rspec_mono; [apply chunkLines_spec|intros x Hx; exact Hx|].
    intros e. apply error_at_mono; simpl; lia. }
  intros [c n] [Hn Hpos]. simpl. rewrite length_drop in Hn. simpl in *.
  assert (1 <= n); [|lia]. apply Hpos. intros E.
  apply (f_equal length) in E. rewrite length_drop in E. simpl in E. lia.
Qed.

Lemma updateChunks_spec fuel ln remaining parsed chunks :
  length remaining <= fuel ->
  rspec (fun '(_, n) => parsed <= n <= parsed + length remaining)
        (error_at ln (ln + parsed + length remaining))
        (updateChunks fuel ln remaining parsed chunks).
Proof.
  revert remaining parsed chunks. induction fuel as [|fuel IH];
    intros [|line rest] parsed chunks Hf; simpl in Hf; try (simpl; lia).
  cbn [updateChunks]. case_decide.
  { eapply rspec_mono; [apply IH; lia| |]; [intros [? ?]; simpl; lia|].
    intros e; apply error_at_mono; simpl; lia. }
  destruct (has_prefix line "*"); [simpl; lia|].
  eapply rspec_bind.
  { eapply rspec_mono; [by apply parseUpdateFileChunk_spec|intros x Hx; exact Hx|].
    intros e; apply error_at_mono; simpl; lia. }
  intros [c n] Hn. eapply rspec_mono; [apply IH| |].
  - rewrite length_drop. simpl in *. lia.
  - intros [? m]. rewrite length_drop. lia.
  - intros e. rewrite length_drop. apply error_at_mono; simpl in *; lia.
Qed.

Lemma addedLines_length lines : length (addedLines lines) <= length lines.
Proof. induction lines as [|l ls IH]; simpl; [done|]. split_match; simpl; lia. Qed.

Lemma parseOneHunk_spec lines ln :
  lines <> [] ->
  rspec (fun '(_, n) => 1 <= n <= length lines) (error_at ln (ln + length lines))
        (parseOneHunk lines ln).
Proof.
  intros Hne. unfold parseOneHunk. destruct lines as [|line0 rest]; [done|].
  cbn [head or_panic mbind result_bind].
  destruct (cut_prefix _ addFileMarker) as [path|].
  { simpl. rewrite drop_0. pose proof (addedLines_length rest). lia. }
  destruct (cut_prefix _ deleteFileMarker) as [path|]; [simpl; lia|].
  destruct (cut_prefix _ updateFileMarker) as [path|]; [|simpl; lia].
  cbn [drop]. rewrite ?drop_0.
  assert (forall rem p, rem = (if moveDest rest is Some _ then drop 1 rest else rest) ->
    p = (if moveDest rest is Some _ then 2 else 1) -> 1 <= p /\ p + length rem <= S (length rest))
    as Hlen.
  { intros rem p -> ->. destruct rest as [|r0 rest']; simpl; [lia|].
    split_match; simpl; rewrite ?drop_0; lia. }
  remember (if moveDest rest is Some _ then drop 1 rest else rest) as rem.
  remember (if moveDest rest is Some _ then 2 else 1) as p.
  destruct (Hlen rem p eq_refl eq_refl) as [Hp Hrem].
  eapply rspec_bind.
  { eapply rspec_mono; [by apply updateChunks_spec|intros x Hx; exact Hx|].
    intros e. apply error_at_mono; cbn [length]; lia. }
  intros [chunks n] Hn. case_decide; simpl; lia.
Qed.

Lemma parseHunks_spec fuel remaining ln hunks :
  length remaining <= fuel ->
  rspec (fun _ => True) (error_at ln (ln + length remaining))
        (parseHunks fuel remaining ln hunks).
Proof.
  revert remaining ln hunks. induction fuel as [|fuel IH];
    intros [|line rest] ln hunks Hf; simpl in Hf; try (simpl; lia); try done.
  cbn [parseHunks]. eapply rspec_bind.
  { eapply rspec_mono; [by apply parseOneHunk_spec|intros x Hx; exact Hx|done]. }
  intros [h n] Hn. eapply rspec_mono; [apply IH|done|].
  - rewrite length_drop. simpl in *. lia.
  - intros e. rewrite length_drop. apply error_at_mono; simpl in *; lia.
Qed.

(** *** The envelope *)

Definition is_invalid_patch (e : ParseError) : Prop :=
  match e with InvalidPatch _ => True | InvalidHunk _ _ => False end.

(** [lines] is an envelope around [inner]. *)
Definition enveloped (lines inner : list gostring) : Prop :=
  exists a b, lines = a :: inner ++ [b]
    /\ trim_space a = beginPatchMarker /\ trim_space b = endPatchMarker.

Lemma enveloped_slice lines inner :
  enveloped lines inner ->
  go_slice 1 (length lines - 1) lines = Some inner.
Proof.
  intros (a & b & -> & _ & _). simpl. rewrite length_app. simpl.
  rewrite go_slice_Some by (simpl; rewrite ?length_app; simpl; lia).
  cbn [drop]. f_equal. replace (_ - 0 - 1) with (length inner) by lia.
  rewrite drop_0. apply take_app_length.
Qed.

Lemma checkPatchBoundariesStrict_spec lines :
  rspec (fun '(pl, inner) => pl = lines /\ enveloped lines inner)
        is_invalid_patch (checkPatchBoundariesStrict lines).
Proof.
  unfold checkPatchBoundariesStrict, checkStartAndEndLinesStrict.
  case_decide as H; [|case_decide; done].
  destruct H as [Hh Hl].
  destruct (head lines) as [a|] eqn:Ea; [|done].
  destruct (last lines) as [b|] eqn:Eb; [|done].
  simpl in Hh, Hl. injection Hh as Hh. injection Hl as Hl.
  assert (enveloped lines (removelast (tail lines))) as Henv.
  { destruct lines as [|a' lines]; simplify_eq/=. exists a, b. split_and!; [|done..].
    f_equal. apply last_snoc_inv. destruct lines as [|c lines]; [|done].
    simpl in Eb. simplify_eq. rewrite Hh in Hl. discriminate. }
  cbn [mbind result_bind]. rewrite (enveloped_slice _ _ Henv). simpl. done.
Qed.

Lemma checkPatchBoundariesStrict_enveloped lines inner :
  enveloped lines inner -> checkPatchBoundariesStrict lines = Ok (lines, inner).
Proof.
  intros Henv. unfold checkPatchBoundariesStrict, checkStartAndEndLinesStrict.
  pose proof Henv as (a & b & -> & Ha & Hb).
  assert (last (a :: inner ++ [b]) = Some b) as -> by apply (last_snoc b (a :: inner)).
  cbn [head fmap option_fmap option_map]. cbv zeta. rewrite Ha, Hb, decide_True by done.
  cbn [mbind result_bind]. by rewrite (enveloped_slice _ _ Henv).
Qed.

Lemma checkPatchBoundariesLenient_spec lines :
  rspec (fun '(pl, inner) => length pl <= length lines /\ enveloped pl inner)
        is_invalid_patch (checkPatchBoundariesLenient lines).
Proof.
  unfold checkPatchBoundariesLenient.
  pose proof (checkPatchBoundariesStrict_spec lines) as Hs.
  destruct (checkPatchBoundariesStrict lines) as [[pl inner]|e|]; [|simpl in Hs|done].
  { destruct Hs as [-> Hs]. simpl. done. }
  case_decide; [|done]. case_match; [|done]. breflect.
  rewrite go_slice_Some by lia. cbn [or_panic mbind result_bind].
  eapply rspec_mono; [apply checkPatchBoundariesStrict_spec| |done].
  intros [pl inner] [-> Henv]. rewrite length_take, length_drop. split; [lia|done].
Qed.

Lemma parseEnvironmentIDPreamble_spec hl :
  rspec (fun '(_, remaining, ln) => 2 <= ln /\ ln + length remaining = 2 + length hl)
        is_invalid_patch (parseEnvironmentIDPreamble hl).
Proof.
  destruct hl as [|l hl]; simpl; [lia|]. repeat split_match; simpl; try done; lia.
Qed.

(** parsing always returns: no fuel runs out, no slice is out of range.  An
    [InvalidHunk] error names a line of the patch, numbered from one, below the
    opening marker. *)
Theorem parsePatchText_returns patch mode :
  rspec (fun _ => True)
    (fun e => match e with
              | InvalidHunk _ n => 2 <= n <= length (splitLines (trim_space patch))
              | InvalidPatch _ => True
              end)
    (parsePatchText patch mode).
Proof.
  unfold parsePatchText. set (lines := splitLines (trim_space patch)).
  eapply rspec_bind with (P := fun '(pl, inner) => length pl <= length lines /\ enveloped pl inner).
  { destruct mode.
    - eapply rspec_mono; [apply checkPatchBoundariesStrict_spec| |by intros []].
      intros [pl inner] [-> ?]. done.
    - eapply rspec_mono; [apply checkPatchBoundariesLenient_spec|done|by intros []]. }
  intros [pl inner] [Hlen (a & b & -> & _ & _)].
  rewrite length_cons, length_app in Hlen. simpl in Hlen.
  eapply rspec_bind.
  { eapply rspec_mono; [apply parseEnvironmentIDPreamble_spec|intros x Hx; exact Hx|by intros []]. }
  intros [[env remaining] ln] [Hln Hrem].
  eapply rspec_bind; [|done].
  eapply rspec_mono; [by apply parseHunks_spec|intros x Hx; exact Hx|].
  intros []; simpl; lia.
Qed.

End Parser.
