(* ===== verification/ApplyPatchRender.v ===== *)
(** * internal/applypatch: a canonical renderer, and the parser's round trip

    The program has no renderer: models emit patches.  [render_patch] is the
    format the parser documents, one canonical text per list of hunks, and
    [ParsePatch_render] shows that the parser reads back exactly those hunks. *)

From S2P Require Import Prelude GoStrings ApplyPatchParser.
Import Parser.

(** ** Rendering *)

Definition render_chunk (c : UpdateFileChunk) : list gostring :=
  (match ChangeContext c with
   | None => emptyChangeContextMarker
   | Some ctx => changeContextMarker ++ ctx
   end)
  :: map (cons "-"%char) (OldLines c) ++ map (cons "+"%char) (NewLines c)
  ++ (if IsEndOfFile c then [eofMarker] else []).

(** The lines of a text in which every line ends in a newline. *)
Definition content_lines (s : gostring) : list gostring := removelast (split_byte nl s).

Definition render_header (h : Hunk) : gostring :=
  (match h with
   | HunkAddFile _ _ => addFileMarker
   | HunkDeleteFile _ => deleteFileMarker
   | HunkUpdateFile _ _ _ => updateFileMarker
   end) ++ Path h.

Definition render_body (h : Hunk) : list gostring :=
  match h with
  | HunkAddFile _ contents => map (cons "+"%char) (content_lines contents)
  | HunkDeleteFile _ => []
  | HunkUpdateFile _ move chunks =>
      (match move with Some dest => [moveToMarker ++ dest] | None => [] end)
      ++ concat (map render_chunk chunks)
  end.

Definition render_hunk (h : Hunk) : list gostring := render_header h :: render_body h.

Definition render_lines (env : option gostring) (hunks : list Hunk) : list gostring :=
  (match env with Some e => [environmentIDMarker ++ e] | None => [] end)
  ++ concat (map render_hunk hunks).

Definition render_patch (env : option gostring) (hunks : list Hunk) : gostring :=
  join [nl] (beginPatchMarker :: render_lines env hunks ++ [endPatchMarker]).

(** ** Well-formed hunks: what the line format can carry *)

Definition wf_line (l : gostring) : bool :=
  bool_decide (nl ∉ l) && bool_decide (last l <> Some cr).

Definition wf_chunk (c : UpdateFileChunk) : bool :=
  forallb wf_line (OldLines c) && forallb wf_line (NewLines c)
  && match ChangeContext c with Some ctx => wf_line ctx | None => true end
  && bool_decide (OldLines c ++ NewLines c <> []).

Definition wf_path (p : gostring) : bool :=
  wf_line p && clean_right p && bool_decide (p <> []).

Definition wf_hunk (h : Hunk) : bool :=
  wf_path (Path h) &&
  match h with
  | HunkAddFile _ contents =>
      bool_decide (last (split_byte nl contents) = Some [])
      && forallb wf_line (content_lines contents)
  | HunkDeleteFile _ => true
  | HunkUpdateFile _ move chunks =>
      match move with Some dest => wf_line dest | None => true end
      && forallb wf_chunk chunks && bool_decide (chunks <> [])
  end.

Definition wf_env (env : option gostring) : bool :=
  match env with
  | Some e => wf_line e && bool_decide (trim_space e = e) && bool_decide (e <> [])
  | None => true
  end.

(** ** Lines the parser stops at *)

(** The next line, if any, starts with [c] and is not the end-of-file marker. *)
Definition next_starts (P : ascii -> Prop) (lines : list gostring) : Prop :=
  match lines with
  | [] => True
  | [] :: _ => False
  | (c :: l) :: _ => P c /\ c :: l <> eofMarker
  end.

Definition star_or_at (c : ascii) : Prop := c = "*"%char \/ c = "@"%char.

Lemma next_starts_mono (P Q : ascii -> Prop) lines :
  (forall c, P c -> Q c) -> next_starts P lines -> next_starts Q lines.
Proof. intros H. destruct lines as [|[|c l] ls]; simpl; try done. intros [? ?]; auto. Qed.

Lemma next_starts_hunks hunks :
  next_starts (fun c => c = "*"%char) (concat (map render_hunk hunks)).
Proof. destruct hunks as [|[] hunks]; simpl; try done; split; done. Qed.

Lemma next_starts_chunks chunks rest :
  next_starts (fun c => c = "*"%char) rest ->
  next_starts star_or_at (concat (map render_chunk chunks) ++ rest).
Proof.
  intros H. destruct chunks as [|[[ctx|] old new eof] chunks]; simpl.
  - eapply next_starts_mono; [|exact H]. intros c ->. by left.
  - split; [by right|done].
  - split; [by right|done].
Qed.

(** ** The chunk loops *)

Lemma chunkLines_old ln ols rest p ctx o n e :
  chunkLines ln (map (cons "-"%char) ols ++ rest) p (mkChunk ctx o n e)
  = chunkLines ln rest (p + length ols) (mkChunk ctx (o ++ ols) n e).
Proof.
  revert p o. induction ols as [|l ols IH]; intros p o; simpl map; simpl app.
  - by rewrite app_nil_r, Nat.add_0_r.
  - cbn [chunkLines]. rewrite decide_False by done.
    change (S (length ols)) with (1 + length ols). simpl. rewrite IH, <- app_assoc. f_equal. simpl. lia.
Qed.

Lemma chunkLines_new ln nls rest p ctx o n e :
  chunkLines ln (map (cons "+"%char) nls ++ rest) p (mkChunk ctx o n e)
  = chunkLines ln rest (p + length nls) (mkChunk ctx o (n ++ nls) e).
Proof.
  revert p n. induction nls as [|l nls IH]; intros p n; simpl map; simpl app.
  - by rewrite app_nil_r, Nat.add_0_r.
  - cbn [chunkLines]. rewrite decide_False by done.
    simpl. rewrite IH, <- app_assoc. f_equal. simpl. lia.
Qed.

Lemma chunkLines_stop ln rest p c :
  next_starts star_or_at rest -> p <> 0 -> chunkLines ln rest p c = Ok (c, p).
Proof.
  destruct rest as [|[|a l] rest]; simpl; try done. intros [Ha He] Hp.
  destruct c as [ctx o n e]. rewrite !decide_False; try done;
    destruct Ha as [-> | ->]; congruence.
Qed.

Lemma parseUpdateFileChunk_render c rest ln allow :
  wf_chunk c = true -> next_starts star_or_at rest ->
  parseUpdateFileChunk (render_chunk c ++ rest) ln allow = Ok (c, length (render_chunk c)).
Proof.
  intros Hwf Hrest. unfold wf_chunk in Hwf. breflect.
  destruct c as [ctx old new eof].
  cbn [ChangeContext OldLines NewLines IsEndOfFile] in *.
  set (body := map (cons "-"%char) old ++ map (cons "+"%char) new ++ (if eof then [eofMarker] else [])).
  assert (0 < length old + length new) as Hpos.
  { rewrite <- length_app. destruct (old ++ new); [done|simpl; lia]. }
  assert (length body = length old + length new + (if eof then 1 else 0)) as Hlen.
  { unfold body. rewrite !length_app, !length_map. destruct eof; simpl; lia. }
  assert (chunkLines ln (body ++ rest) 0 (mkChunk ctx [] [] false)
          = Ok (mkChunk ctx old new eof, length body)) as Hbody.
  { unfold body at 1. rewrite <- !app_assoc, chunkLines_old, chunkLines_new.
    rewrite Hlen. simpl ([] ++ _). destruct eof.
    - simpl app. cbn [chunkLines]. rewrite decide_True, decide_False by (done || lia).
      do 2 f_equal. lia.
    - rewrite chunkLines_stop by (done || lia). do 2 f_equal. lia. }
  unfold parseUpdateFileChunk, render_chunk. cbn [app].
  destruct ctx as [ctx|]; cbn [ChangeContext OldLines NewLines IsEndOfFile]; fold body.
  - rewrite decide_False by done.
    match goal with |- context [cut_prefix ?x ?y] => change (cut_prefix x y) with (Some ctx) end.
    cbn [mbind result_bind].
    rewrite decide_False by (simpl; rewrite length_app; lia).
    cbn [drop]. rewrite drop_0, Hbody. simpl. do 2 f_equal. lia.
  - rewrite decide_True by done. cbn [mbind result_bind].
    rewrite decide_False by (simpl; rewrite length_app; lia).
    cbn [drop]. rewrite drop_0, Hbody. simpl. do 2 f_equal. lia.
Qed.

Lemma chunk_header_shape c :
  exists h tl, render_chunk c = ("@"%char :: h) :: tl.
Proof. destruct c as [[ctx|] o n e]; simpl; eauto. Qed.

Lemma updateChunks_render fuel ln rest parsed acc chunks :
  forallb wf_chunk chunks = true ->
  next_starts (fun c => c = "*"%char) rest ->
  length (concat (map render_chunk chunks) ++ rest) <= fuel ->
  updateChunks fuel ln (concat (map render_chunk chunks) ++ rest) parsed acc
  = Ok (acc ++ chunks, parsed + length (concat (map render_chunk chunks))).
Proof.
  revert fuel parsed acc. induction chunks as [|c chunks IH]; intros fuel parsed acc Hwf Hrest Hf.
  - simpl in *. rewrite app_nil_r, Nat.add_0_r.
    destruct rest as [|[|a l] rest]; [by destruct fuel|done|]. destruct Hrest as [-> _].
    destruct fuel as [|fuel]; [simpl in Hf; lia|]. cbn [updateChunks].
    rewrite decide_False by by apply trim_space_not_nil. done.
  - simpl in Hwf. breflect. cbn [map concat] in *. rewrite <- app_assoc in *.
    destruct (chunk_header_shape c) as (h & tl & Hc).
    destruct fuel as [|fuel]; [rewrite Hc in Hf; cbn in Hf; lia|].
    pose proof (parseUpdateFileChunk_render c (concat (map render_chunk chunks) ++ rest)
      (ln + parsed) (bool_decide (acc = [])) ltac:(done) (next_starts_chunks _ _ Hrest)) as Hp.
    assert (render_chunk c ++ concat (map render_chunk chunks) ++ rest
      = ("@"%char :: h) :: tl ++ concat (map render_chunk chunks) ++ rest) as E by (by rewrite Hc).
    rewrite E in *. cbn [updateChunks].
    rewrite decide_False by by apply trim_space_not_nil. simpl (has_prefix _ _). cbv iota.
    rewrite Hp. cbn [mbind result_bind]. rewrite <- E, drop_app_length.
    rewrite IH; [|done|done|].
    + rewrite <- app_assoc, length_app. do 2 f_equal. lia.
    + rewrite length_cons, length_app in Hf. lia.
Qed.

(** ** Hunks *)

Lemma addedLines_render ls rest :
  next_starts (fun c => c = "*"%char) rest ->
  addedLines (map (cons "+"%char) ls ++ rest) = ls.
Proof.
  intros Hr. induction ls as [|l ls IH]; cbn [map app addedLines].
  - destruct rest as [|[|c r] rest]; [done..|]. by destruct Hr as [-> _].
  - change (cut_prefix ("+"%char :: l) "+") with (Some l). cbn. by rewrite IH.
Qed.

Lemma concat_content_lines s :
  last (split_byte nl s) = Some [] ->
  concat (map (fun l => l ++ [nl]) (content_lines s)) = s.
Proof.
  intros Hl. unfold content_lines. rewrite <- (join_split_byte nl s) at 2.
  rewrite (last_snoc_inv _ _ Hl) at 2. generalize (removelast (split_byte nl s)) as ls.
  induction ls as [|l ls IH]; [done|]. cbn [map concat app].
  rewrite IH. destruct (ls ++ [[]]) as [|x xs] eqn:E; [by destruct ls|].
  change (join [nl] (l :: x :: xs)) with (l ++ [nl] ++ join [nl] (x :: xs)).
  by rewrite <- app_assoc.
Qed.

Lemma wf_path_header m c p :
  wf_path p = true -> (bval c < 128)%Z -> is_space (bval c) = false ->
  trim_space (c :: m ++ " "%char :: p) = c :: m ++ " "%char :: p.
Proof.
  intros Hp Hc Hs. unfold wf_path in Hp. breflect.
  apply trim_space_clean; [done..|].
  rewrite app_comm_cons, clean_right_app; done.
Qed.

Lemma render_header_trim h :
  wf_path (Path h) = true -> trim_space (render_header h) = render_header h.
Proof.
  intros Hp. destruct h; unfold render_header, Path in *.
  - by apply (wf_path_header "** Add File:" "*"%char).
  - by apply (wf_path_header "** Delete File:" "*"%char).
  - by apply (wf_path_header "** Update File:" "*"%char).
Qed.

Lemma moveDest_render move chunks rest :
  chunks <> [] ->
  moveDest ((match move with Some dest => [moveToMarker ++ dest] | None => [] end)
            ++ concat (map render_chunk chunks) ++ rest) = move.
Proof.
  intros Hc. destruct move as [dest|]; cbn [app moveDest].
  - apply cut_prefix_app.
  - destruct chunks as [|c chunks]; [done|].
    destruct (chunk_header_shape c) as (h & tl & E). cbn [map concat]. by rewrite E.
Qed.

Lemma parseOneHunk_render h rest ln :
  wf_hunk h = true -> next_starts (fun c => c = "*"%char) rest ->
  parseOneHunk (render_hunk h ++ rest) ln = Ok (h, length (render_hunk h)).
Proof.
  intros Hwf Hrest. unfold wf_hunk in Hwf. apply andb_true_iff in Hwf as [Hp Hwf].
  unfold parseOneHunk, render_hunk. cbn [app head or_panic mbind result_bind].
  rewrite render_header_trim by done. cbn [drop]. rewrite !drop_0.
  destruct h as [p contents|p|p move chunks]; unfold render_header; cbn [Path render_body] in *.
  - rewrite cut_prefix_app. breflect. rewrite addedLines_render by done.
    rewrite concat_content_lines by done. by rewrite length_cons, length_map.
  - change (cut_prefix (deleteFileMarker ++ p) addFileMarker) with (@None gostring).
    by rewrite cut_prefix_app.
  - change (cut_prefix (updateFileMarker ++ p) addFileMarker) with (@None gostring).
    change (cut_prefix (updateFileMarker ++ p) deleteFileMarker) with (@None gostring).
    rewrite cut_prefix_app. breflect. rewrite <- app_assoc, moveDest_render by done.
    cbv zeta.
    replace (if move is Some _ then _ else _) with (concat (map render_chunk chunks) ++ rest)
      by (by destruct move).
    rewrite updateChunks_render by done. cbn [mbind result_bind].
    rewrite decide_False by done. destruct move; simpl; rewrite ?length_app; simpl; done.
Qed.

Lemma parseHunks_render fuel hunks ln acc :
  forallb wf_hunk hunks = true -> length (concat (map render_hunk hunks)) <= fuel ->
  parseHunks fuel (concat (map render_hunk hunks)) ln acc = Ok (acc ++ hunks).
Proof.
  revert fuel ln acc. induction hunks as [|h hunks IH]; intros fuel ln acc Hwf Hf;
    cbn [map concat] in *.
  - rewrite app_nil_r. by destruct fuel.
  - simpl in Hwf. breflect. pose proof (next_starts_hunks hunks) as Hn.
    pose proof (parseOneHunk_render h _ ln ltac:(done) Hn) as Hp.
    assert (render_hunk h ++ concat (map render_hunk hunks)
      = render_header h :: render_body h ++ concat (map render_hunk hunks)) as E by done.
    rewrite E in *. destruct fuel as [|fuel]; [simpl in Hf; lia|]. cbn [parseHunks].
    rewrite Hp. cbn [mbind result_bind]. rewrite <- E, drop_app_length.
    rewrite IH; [by rewrite <- app_assoc|done|].
    rewrite length_cons, length_app in Hf. lia.
Qed.

(** ** The patch *)

Lemma wf_line_cons c l : c <> nl -> c <> cr -> wf_line l = true -> wf_line (c :: l) = true.
Proof.
  unfold wf_line. intros Hn Hc H. breflect.
  apply andb_true_iff; split; apply bool_decide_eq_true.
  - rewrite not_elem_of_cons. done.
  - destruct l; [simpl; congruence|done].
Qed.

Lemma wf_line_app m l :
  nl ∉ m -> last m <> Some cr -> wf_line l = true -> wf_line (m ++ l) = true.
Proof.
  intros Hm Hl H. unfold wf_line in *. breflect.
  apply andb_true_iff; split; apply bool_decide_eq_true.
  - rewrite elem_of_app. tauto.
  - rewrite last_app. by destruct (last l) eqn:E.
Qed.

(** Facts about the marker constants are computed. *)
Ltac by_marker := refine (bool_decide_eq_true_1 _ _); vm_compute; reflexivity.

Lemma wf_line_map c ls :
  c <> nl -> c <> cr -> forallb wf_line ls = true -> Forall (fun l => wf_line l = true) (map (cons c) ls).
Proof.
  intros Hn Hc H. apply Forall_map, Forall_forall. intros l Hl.
  apply wf_line_cons; [done..|]. rewrite forallb_forall in H. apply H. by apply list_elem_of_In.
Qed.

Lemma render_chunk_wf c : wf_chunk c = true -> Forall (fun l => wf_line l = true) (render_chunk c).
Proof.
  unfold wf_chunk. intros H. breflect. unfold render_chunk. constructor.
  - destruct (ChangeContext c); [|done]. apply wf_line_app; [by_marker|done|done].
  - rewrite !Forall_app. split_and!; [by apply wf_line_map..|].
    destruct (IsEndOfFile c); by repeat constructor.
Qed.

Lemma render_hunk_wf h : wf_hunk h = true -> Forall (fun l => wf_line l = true) (render_hunk h).
Proof.
  unfold wf_hunk, wf_path. intros H. breflect. unfold render_hunk. constructor.
  - unfold render_header. apply wf_line_app; [destruct h; by_marker|by destruct h|done].
  - destruct h as [p contents|p|p move chunks]; cbn [render_body] in *; breflect;
      [by apply wf_line_map|done|].
    apply Forall_app; split.
    + destruct move; [|done]. repeat constructor.
      apply wf_line_app; [by_marker|done|done].
    + apply Forall_concat, Forall_map, Forall_forall. intros c Hc. apply render_chunk_wf.
      match goal with H : forallb wf_chunk _ = true |- _ => rewrite forallb_forall in H; apply H end.
      by apply list_elem_of_In.
Qed.

Lemma render_lines_wf env hunks :
  wf_env env = true -> forallb wf_hunk hunks = true ->
  Forall (fun l => wf_line l = true) (render_lines env hunks).
Proof.
  intros He Hh. unfold render_lines. apply Forall_app; split.
  - destruct env as [e|]; [|done]. simpl in He. breflect. repeat constructor.
    apply wf_line_app; [by_marker|done|done].
  - apply Forall_concat, Forall_map, Forall_forall. intros h Hin. apply render_hunk_wf.
    rewrite forallb_forall in Hh. apply Hh. by apply list_elem_of_In.
Qed.

Lemma splitLines_join ls l :
  Forall (fun l => wf_line l = true) (ls ++ [l]) -> l <> [] ->
  splitLines (join [nl] (ls ++ [l])) = ls ++ [l].
Proof.
  intros Hwf Hl. unfold splitLines.
  rewrite split_byte_join; [|by eapply Forall_impl; [exact Hwf|]; unfold wf_line; simpl; intros; breflect|by destruct ls].
  rewrite last_snoc. destruct l as [|c l]; [done|].
  assert (join [nl] (ls ++ [c :: l]) <> []) as Hj.
  { intros E. apply (f_equal (@length _)) in E. destruct ls as [|a ls]; [done|].
    rewrite join_snoc, !length_app in E by done. simpl in E. lia. }
  destruct (join [nl] (ls ++ [c :: l])) eqn:E; [done|].
  rewrite <- (map_id (ls ++ [c :: l])) at 2. apply map_ext_in. intros x Hx.
  apply trim_suffix_byte_id. rewrite Forall_forall in Hwf.
  specialize (Hwf x (proj2 (list_elem_of_In _ _) Hx)). unfold wf_line in Hwf. by breflect.
Qed.

Lemma parseEnvironmentIDPreamble_render env hunks :
  wf_env env = true ->
  parseEnvironmentIDPreamble (render_lines env hunks)
  = Ok (env, concat (map render_hunk hunks), if env is Some _ then 3 else 2).
Proof.
  intros He. unfold render_lines. destruct env as [e|]; cbn [app].
  - simpl in He. breflect. unfold parseEnvironmentIDPreamble.
    change (environmentIDMarker ++ e) with ("*"%char :: (str "** Environment ID: " ++ e)).
    rewrite trim_left_clean by done.
    change ("*"%char :: (str "** Environment ID: " ++ e)) with (environmentIDMarker ++ e).
    rewrite cut_prefix_app. cbv zeta.
    match goal with H : trim_space e = e |- _ => rewrite H end. by rewrite decide_False.
  - destruct hunks as [|h hunks]; [done|]. cbn [map concat app render_hunk].
    unfold parseEnvironmentIDPreamble.
    by destruct h; unfold render_header;
      match goal with |- context [trim_left_func is_space (?m ++ ?p)] =>
        let m' := eval vm_compute in m in
        change (m ++ p) with (m' ++ p); cbn [app]; rewrite trim_left_clean by done
      end.
Qed.

(** ** Round trip *)

Lemma render_patch_trim env hunks : trim_space (render_patch env hunks) = render_patch env hunks.
Proof.
  unfold render_patch. rewrite app_comm_cons, join_snoc by done.
  assert (exists s, join [nl] (beginPatchMarker :: render_lines env hunks) = "*"%char :: s) as [s ->].
  { destruct (render_lines env hunks); cbn [join]; by eexists. }
  change endPatchMarker with (str "*** End Patc" ++ str "h").
  rewrite app_assoc, app_assoc. cbn [app]. apply trim_space_clean; [done..|].
  by apply (clean_right_snoc ("*"%char :: _) "h"%char).
Qed.

(** C1: the parser reads a rendered patch back: the same hunks, the same
    environment id, and the patch text itself. *)
Theorem ParsePatch_render env hunks :
  wf_env env = true -> forallb wf_hunk hunks = true ->
  ParsePatch (render_patch env hunks)
  = Ok (mkParseResult (render_patch env hunks) hunks env).
Proof.
  intros He Hh. unfold ParsePatch, parsePatchText. rewrite render_patch_trim.
  unfold render_patch at 1. rewrite app_comm_cons, splitLines_join; [|constructor; [done|]|done].
  2: { apply Forall_app; split; [by apply render_lines_wf|by repeat constructor]. }
  unfold checkPatchBoundariesLenient.
  rewrite (checkPatchBoundariesStrict_enveloped _ (render_lines env hunks))
    by (exists beginPatchMarker, endPatchMarker; done).
  cbn [mbind result_bind]. rewrite parseEnvironmentIDPreamble_render by done.
  cbn [mbind result_bind]. by rewrite parseHunks_render.
Qed.

Lemma ParsePatch_render_witness :
  exists hunks, forallb wf_hunk hunks = true /\ length hunks = 3 /\
    result_fmap _ _ Hunks (ParsePatch (render_patch (Some (str "env")) hunks)) = Ok hunks.
Proof.
  exists [HunkAddFile "a" ("x" ++ [nl]); HunkDeleteFile "b";
          HunkUpdateFile "c" (Some (str "d")) [mkChunk (Some (str "f")) [str "o"] [str "n"; []] true]].
  split; [vm_compute; reflexivity|]. split; [reflexivity|].
  rewrite (ParsePatch_render (Some (str "env"))); [reflexivity|vm_compute; reflexivity..].
Defined.

(** ** The lenient heredoc wrapper *)

Lemma splitLines_not_nl s :
  s <> [] -> last s <> Some nl ->
  splitLines s = map (fun l => trim_suffix l [cr]) (split_byte nl s).
Proof.
  intros Hs Hl. unfold splitLines. destruct s as [|c s]; [done|].
  pose proof (last_split_byte nl (c :: s) Hs Hl) as H.
  by destruct (last (split_byte nl (c :: s))) as [[]|].
Qed.

Definition heredoc (w p : gostring) : gostring := w ++ nl :: p ++ nl :: str "EOF".

Lemma heredoc_trim w p : w ∈ heredocMarkers -> trim_space (heredoc w p) = heredoc w p.
Proof.
  intros Hw. unfold heredoc.
  assert (exists s, w = "<"%char :: s) as [s ->].
  { unfold heredocMarkers in Hw. rewrite !elem_of_cons in Hw.
    destruct Hw as [->|[->|[->|Hw]]]; [by eexists..|by apply elem_of_nil in Hw]. }
  change (nl :: str "EOF") with ((nl :: str "EO") ++ str "F").
  rewrite (app_comm_cons _ _ nl), !app_assoc. cbn [app].
  apply trim_space_clean; [done..|]. by apply (clean_right_snoc ("<"%char :: _) "F"%char).
Qed.

Lemma splitLines_heredoc w p :
  w ∈ heredocMarkers -> p <> [] -> last p <> Some nl ->
  splitLines (heredoc w p) = w :: splitLines p ++ [str "EOF"].
Proof.
  intros Hw Hp Hl. rewrite (splitLines_not_nl p) by done.
  assert (nl ∉ w /\ last w <> Some cr /\ w <> []) as (Hn & Hc & Hne).
  { unfold heredocMarkers in Hw. rewrite !elem_of_cons in Hw.
    destruct Hw as [->|[->|[->|Hw]]]; [split_and!; [by_marker|done|done]..|by apply elem_of_nil in Hw]. }
  assert (heredoc w p = (w ++ nl :: p) ++ nl :: str "EOF") as E
    by (unfold heredoc; by rewrite <- app_assoc).
  rewrite splitLines_not_nl.
  - rewrite E, !split_byte_app_sep, (split_byte_none nl w) by done.
    rewrite !map_app. cbn [map app]. by rewrite trim_suffix_byte_id.
  - rewrite E. by destruct w.
  - rewrite E, last_app. done.
Qed.

(** a heredoc wrapper is transparent: a patch the strict parser accepts
    gives the same result when it is wrapped in one. *)
Theorem ParsePatch_heredoc w p r :
  w ∈ heredocMarkers -> trim_space p = p ->
  parsePatchText p parseModeStrict = Ok r -> ParsePatch (heredoc w p) = Ok r.
Proof.
  intros Hw Htrim Hp. unfold ParsePatch, parsePatchText in *. rewrite Htrim in Hp.
  rewrite heredoc_trim by done.
  pose proof (checkPatchBoundariesStrict_spec (splitLines p)) as Hs.
  destruct (checkPatchBoundariesStrict (splitLines p)) as [[pl inner]|e|] eqn:Hcheck; [|done..].
  destruct Hs as [-> Henv].
  assert (p <> []) as Hne by (intros ->; destruct Henv as (? & ? & [=] & _)).
  assert (last p <> Some nl) as Hl by (by apply trim_space_fixed_last).
  rewrite splitLines_heredoc by done.
  assert (2 <= length (splitLines p)) as Hlen.
  { destruct Henv as (a & b & -> & _). rewrite length_cons, length_app. simpl. lia. }
  set (lines := w :: splitLines p ++ [str "EOF"]).
  assert (length lines = S (S (length (splitLines p)))) as Hll.
  { subst lines. rewrite length_cons, length_app. simpl. lia. }
  assert (last lines = Some (str "EOF")) as Hlast by apply (last_snoc (str "EOF") (w :: splitLines p)).
  assert (checkPatchBoundariesLenient lines = Ok (splitLines p, inner)) as ->.
  { unfold checkPatchBoundariesLenient.
    pose proof (checkPatchBoundariesStrict_spec lines) as Hs.
    destruct (checkPatchBoundariesStrict lines) as [[pl i]|e|]; [|..].
    - destruct Hs as [_ (a & b & E & Ha & Hb)]. exfalso.
      apply (f_equal last) in E. rewrite Hlast in E.
      pose proof (last_snoc b (a :: i)) as L. cbn [app] in L. rewrite L in E.
      injection E as <-. discriminate.
    - rewrite decide_True by lia. rewrite Hlast.
      change (default [] (head lines)) with w. rewrite bool_decide_eq_true_2 by done.
      rewrite bool_decide_eq_true_2 by lia.
      replace (go_slice 1 (length lines - 1) lines) with (Some (splitLines p)); [exact Hcheck|].
      rewrite go_slice_Some by lia. subst lines. cbn [drop]. rewrite drop_0. f_equal.
      rewrite Hll. replace (_ - 1 - 1) with (length (splitLines p)) by lia.
      by rewrite take_app_length.
    - done. }
  cbn [mbind result_bind]. exact Hp.
Qed.

Lemma ParsePatch_heredoc_witness :
  exists r, ParsePatch (heredoc "<<EOF" (render_patch None [HunkDeleteFile "a"])) = Ok r.
Proof.
  eexists. eapply ParsePatch_heredoc.
  - vm_compute. left.
  - vm_compute. reflexivity.
  - vm_compute. reflexivity.
Defined.
