(* ===== verification/AbsPath.v ===== *)
(** * internal/utils/abspath: lexical absolute paths

    [grammar.go], [normalize.go], [platform.go], [home.go], [helpers.go] and the
    pure part of [abspath.go].  The platform and the user's home directory are
    the two things the code reads from its environment: they are the variables
    of the section. *)

From S2P Require Import Prelude GoStrings.

Module AbsPath.

Definition slash : ascii := "/"%char.
Definition backslash : ascii := "092"%char.

(** [component] with its [kind]; the root separator carries no text. *)
Inductive component :=
| compPrefix (text : gostring)
| compRootDir
| compNormal (text : gostring).

#[export] Instance component_eq_dec : EqDecision component.
Proof. solve_decision. Defined.

Definition is_prefix_comp (c : component) : bool :=
  match c with compPrefix _ => true | _ => false end.
Definition is_root_comp (c : component) : bool :=
  match c with compRootDir => true | _ => false end.
Definition is_normal_comp (c : component) : bool :=
  match c with compNormal _ => true | _ => false end.

Definition isASCIIAlpha (b : ascii) : bool :=
  in_range 97 122 (bval b) || in_range 65 90 (bval b).

(** [strings.TrimLeft] for a set of bytes. *)
Fixpoint trim_left_bytes (P : ascii -> bool) (s : gostring) : gostring :=
  match s with c :: s' => if P c then trim_left_bytes P s' else s | [] => [] end.

(** [strings.HasSuffix(base, "/")], [base[len(base)-1]] *)
Definition last_is (P : ascii -> bool) (s : gostring) : bool :=
  match last s with Some c => P c | None => false end.

Section Platform.
Variable isWindows : bool.
Variable homeDir : option gostring.

(** ** grammar.go *)

Definition isSeparator (b : ascii) : bool :=
  if decide (b = slash) then true else isWindows && bool_decide (b = backslash).

Definition nativeSeparator : ascii := if isWindows then backslash else slash.

Definition appendSegments (out : list component) (segs : list gostring) : list component :=
  out ++ map compNormal (filter (fun seg => seg <> []) segs).

Definition parseComponentsUnix (path : gostring) : list component :=
  match path with
  | c :: _ =>
      if decide (c = slash)
      then appendSegments [compRootDir]
             (split_byte slash (trim_left_bytes (fun b => bool_decide (b = slash)) path))
      else appendSegments [] (split_byte slash path)
  | [] => appendSegments [] (split_byte slash path)
  end.

Fixpoint splitFirstSegment (s : gostring) : gostring * gostring :=
  match s with
  | [] => ([], [])
  | c :: s =>
      if isSeparator c then ([], s)
      else let '(seg, rest) := splitFirstSegment s in (c :: seg, rest)
  end.

Fixpoint splitOnSeparators (s : gostring) : list gostring :=
  match s with
  | [] => [[]]
  | c :: s =>
      if isSeparator c then [] :: splitOnSeparators s
      else match splitOnSeparators s with
           | l :: ls => (c :: l) :: ls
           | [] => [[c]]
           end
  end.

Definition trimLeftSeparators (s : gostring) : gostring := trim_left_bytes isSeparator s.

Definition appendNormalSegments (out : list component) (rest : gostring) : list component :=
  appendSegments out (splitOnSeparators rest).

(** The tail shared by the drive and the plain forms: an optional root, then
    segments. *)
Definition rootedSegments (out : list component) (rest : gostring) : list component :=
  match rest with
  | c :: _ =>
      if isSeparator c then appendNormalSegments (out ++ [compRootDir]) (trimLeftSeparators rest)
      else appendNormalSegments out rest
  | [] => appendNormalSegments out rest
  end.

Definition parseComponentsWindows (path : gostring) : list component :=
  match path with
  | a :: b :: body =>
      if isSeparator a && isSeparator b then
        let '(server, afterServer) := splitFirstSegment body in
        let '(share, afterShare) := splitFirstSegment afterServer in
        if bool_decide (server <> []) && bool_decide (share <> []) then
          let prefixText := [backslash; backslash] ++ server ++ [backslash] ++ share in
          appendNormalSegments [compPrefix prefixText; compRootDir] afterShare
        else
          appendNormalSegments [compRootDir]
            (trim_left_bytes (fun c => bool_decide (c = backslash) || bool_decide (c = slash)) path)
      else if isASCIIAlpha a && bool_decide (b = ":"%char) then
        rootedSegments [compPrefix [a; b]] body
      else rootedSegments [] path
  | _ => rootedSegments [] path
  end.

Definition parseComponents (path : gostring) : list component :=
  if isWindows then parseComponentsWindows path else parseComponentsUnix path.

Definition hasRoot (path : gostring) : bool := existsb is_root_comp (parseComponents path).

Definition pathHasPrefix (path : gostring) : bool :=
  match parseComponents path with c :: _ => is_prefix_comp c | [] => false end.

Definition isAbsolute (path : gostring) : bool :=
  if isWindows then pathHasPrefix path && hasRoot path
  else match path with c :: _ => bool_decide (c = slash) | [] => false end.

Fixpoint renderFrom (needSep : bool) (comps : list component) : gostring :=
  match comps with
  | [] => []
  | compPrefix text :: rest => text ++ renderFrom false rest
  | compRootDir :: rest => nativeSeparator :: renderFrom false rest
  | compNormal text :: rest =>
      (if needSep then [nativeSeparator] else []) ++ text ++ renderFrom true rest
  end.
Definition renderComponents (comps : list component) : gostring := renderFrom false comps.

Definition prefixOf (path : gostring) : gostring :=
  match parseComponents path with compPrefix t :: _ => t | _ => [] end.

Definition endsWithSeparator (s : gostring) : bool := last_is isSeparator s.

Definition joinUnix (base path : gostring) : gostring :=
  if isAbsolute path then path
  else if decide (base = []) then path
  else if has_suffix base "/" then base ++ path
  else base ++ [slash] ++ path.

Definition joinWindows (base path : gostring) : gostring :=
  if isAbsolute path || pathHasPrefix path then path
  else if decide (base = []) then path
  else if hasRoot path then prefixOf base ++ path
  else if endsWithSeparator base then base ++ path
  else base ++ [backslash] ++ path.

(** ** platform.go *)

Definition isWindowsDriveAbsolutePath (path : gostring) : bool :=
  match path with
  | a :: b :: c :: _ =>
      isASCIIAlpha a && bool_decide (b = ":"%char)
      && (bool_decide (c = backslash) || bool_decide (c = slash))
  | _ => false
  end.

Definition device (c : ascii) : gostring := [backslash; backslash; c; backslash].
Definition uncSuffix : gostring := "UNC" ++ [backslash].

Definition normalizeWindowsDevicePath (path : gostring) : option gostring :=
  match cut_prefix path (device "?" ++ uncSuffix) with
  | Some rest => Some ([backslash; backslash] ++ rest)
  | None =>
  match cut_prefix path (device "." ++ uncSuffix) with
  | Some rest => Some ([backslash; backslash] ++ rest)
  | None =>
  match cut_prefix path (device "?") with
  | Some rest =>
      if isWindowsDriveAbsolutePath rest then Some rest else
      match cut_prefix path (device ".") with
      | Some rest => if isWindowsDriveAbsolutePath rest then Some rest else None
      | None => None
      end
  | None =>
      match cut_prefix path (device ".") with
      | Some rest => if isWindowsDriveAbsolutePath rest then Some rest else None
      | None => None
      end
  end end end.

Definition normalizePathForPlatform (path : gostring) : gostring :=
  if isWindows then default path (normalizeWindowsDevicePath path) else path.

(** ** home.go *)

Definition joinHome (home rest : gostring) : gostring :=
  if isWindows then joinWindows home rest else joinUnix home rest.

Definition maybeExpandHomeDirectory (path : gostring) : gostring :=
  match cut_prefix path "~", homeDir with
  | None, _ | _, None => path
  | Some [], Some home => home
  | Some (c :: r), Some home =>
      if decide (c = slash)
      then joinHome home (trim_left_bytes (fun b => bool_decide (b = slash)) r)
      else if isWindows && bool_decide (c = backslash)
      then joinHome home (trim_left_bytes (fun b => bool_decide (b = backslash)) r)
      else path
  end.

(** ** normalize.go *)

Definition dot : gostring := ".".
Definition dotdot : gostring := "..".

Definition popComponent (comps : list component) : list component :=
  match last comps with
  | Some (compNormal _) => removelast comps
  | _ => comps
  end.

Definition normalizeStep (out : list component) (c : component) : list component :=
  match c with
  | compNormal text =>
      if decide (text = dot) then out
      else if decide (text = dotdot) then popComponent out
      else out ++ [c]
  | _ => out ++ [c]
  end.

Definition normalizeComponents (comps : list component) : list component :=
  fold_left normalizeStep comps [].

Definition normalizePath (path : gostring) : gostring :=
  match normalizeComponents (parseComponents path) with
  | [] => dot
  | out => renderComponents out
  end.

Definition pathWithBaseUnix (path base : gostring) : gostring :=
  if isAbsolute path then path else joinUnix base path.

Definition pathWithBaseWindows (path base : gostring) : gostring :=
  if isAbsolute path || hasRoot path then joinWindows base path
  else
    match parseComponents path with
    | compPrefix p :: rest =>
        match rest with
        | [] => renderComponents [compPrefix p; compRootDir]
        | _ =>
            let baseComps := parseComponents base in
            let tail := match baseComps with compPrefix _ :: t => t | _ => baseComps end in
            renderComponents ([compPrefix p] ++ tail ++ rest)
        end
    | _ => joinWindows base path
    end.

Definition pathWithBase (path base : gostring) : gostring :=
  if isWindows then pathWithBaseWindows path base else pathWithBaseUnix path base.

Definition absolutizeFrom (path base : gostring) : gostring :=
  normalizePath (pathWithBase path base).

(** ** helpers.go *)

Definition rootPath : gostring := if isWindows then [backslash] else [slash].

(** The components before the last normal one. *)
Fixpoint parentComps (comps : list component) : option (list component) :=
  match comps with
  | [] => None
  | c :: rest =>
      match parentComps rest with
      | Some p => Some (c :: p)
      | None => if is_normal_comp c then Some [] else None
      end
  end.

Definition parentOf (path : gostring) : option gostring :=
  match parentComps (parseComponents path) with
  | None | Some [] => None
  | Some parent => Some (renderComponents parent)
  end.

(** ** abspath.go *)

Definition ResolvePathAgainstBase (path basePath : gostring) : gostring :=
  let expanded := normalizePathForPlatform (maybeExpandHomeDirectory path) in
  let base := normalizePathForPlatform basePath in
  absolutizeFrom expanded base.

(** [cwd] is the answer of [os.Getwd], [None] for its error. *)
Definition FromAbsolutePath (cwd : option gostring) (path : gostring) : option gostring :=
  let expanded := normalizePathForPlatform (maybeExpandHomeDirectory path) in
  if isAbsolute expanded then Some (normalizePath expanded)
  else absolutizeFrom expanded <$> cwd.

Definition CurrentDir (cwd : option gostring) : option gostring := cwd ≫= FromAbsolutePath cwd.

Definition RelativeToCurrentDir (cwd : option gostring) (path : gostring) : option gostring :=
  ResolvePathAgainstBase path <$> cwd.

Definition FromAbsolutePathChecked (path : gostring) : option gostring :=
  let expanded := normalizePathForPlatform (maybeExpandHomeDirectory path) in
  if isAbsolute expanded then Some (absolutizeFrom expanded rootPath) else None.

Definition Join (a path : gostring) : gostring := ResolvePathAgainstBase path a.

(** The loop of [Ancestors]; [length path] steps suffice because a parent is
    shorter. *)
Fixpoint ancestorsFuel (fuel : nat) (cur : gostring) : option (list gostring) :=
  match fuel with
  | O => None
  | S fuel =>
      match parentOf cur with
      | None => Some [cur]
      | Some parent => cons cur <$> ancestorsFuel fuel parent
      end
  end.
Definition Ancestors (a : gostring) : option (list gostring) := ancestorsFuel (S (length a)) a.

End Platform.

Example unix_resolve :
  ResolvePathAgainstBase false (Some (str "/home/u")) "a/./b/../c//d" "/w/x"
  = str "/w/x/a/c/d".
Proof. vm_compute. reflexivity. Qed.
Example unix_ancestors :
  Ancestors false "/a/b" = Some [str "/a/b"; str "/a"; str "/"].
Proof. vm_compute. reflexivity. Qed.

(** ** Unix paths: components are a faithful normal form *)

Definition wf_seg (s : gostring) : Prop := s <> [] /\ slash ∉ s.
Definition wf_clean_seg (s : gostring) : Prop := wf_seg s /\ s <> dot /\ s <> dotdot.

Definition unix_comps (rooted : bool) (segs : list gostring) : list component :=
  (if rooted then [compRootDir] else []) ++ map compNormal segs.

Lemma filter_id_Forall (segs : list gostring) :
  Forall wf_seg segs -> filter (fun s => s <> []) segs = segs.
Proof.
  induction 1 as [|s segs [Hs _] _ IH]; [done|].
  rewrite filter_cons_True by done. by rewrite IH.
Qed.

Lemma split_filter_wf path :
  Forall wf_seg (filter (fun s => s <> []) (split_byte slash path)).
Proof.
  rewrite Forall_forall. intros s [Hs Hin]%list_elem_of_filter. split; [done|].
  pose proof (split_byte_no_sep slash path) as H. rewrite Forall_forall in H. by apply H.
Qed.

Lemma parseComponentsUnix_wf path :
  exists rooted segs, parseComponentsUnix path = unix_comps rooted segs /\ Forall wf_seg segs
    /\ rooted = isAbsolute false path.
Proof.
  unfold parseComponentsUnix, appendSegments, isAbsolute, unix_comps.
  destruct path as [|c path]; [by exists false, []|].
  case_decide; [exists true|exists false]; eexists; (split; [done|split; [apply split_filter_wf|]]).
  - by rewrite bool_decide_eq_true_2.
  - by rewrite bool_decide_eq_false_2.
Qed.

Lemma renderFrom_normals b segs :
  renderFrom false b (map compNormal segs)
  = (if b then match segs with [] => [] | _ => [slash] end else []) ++ join [slash] segs.
Proof.
  revert b. induction segs as [|s segs IH]; intros b; [by destruct b|].
  cbn [map renderFrom]. rewrite IH. destruct segs as [|s' segs]; [by destruct b; simpl; rewrite ?app_nil_r|].
  change (join [slash] (s :: s' :: segs)) with (s ++ [slash] ++ join [slash] (s' :: segs)).
  by destruct b.
Qed.

Lemma renderComponents_unix rooted segs :
  renderComponents false (unix_comps rooted segs) = (if rooted then [slash] else []) ++ join [slash] segs.
Proof.
  unfold renderComponents, unix_comps. destruct rooted; cbn [app renderFrom];
    by rewrite renderFrom_normals.
Qed.

Lemma split_join_segs segs :
  Forall wf_seg segs -> filter (fun s => s <> []) (split_byte slash (join [slash] segs)) = segs.
Proof.
  intros H. destruct segs as [|s segs]; [done|].
  rewrite split_byte_join; [by apply filter_id_Forall| |done].
  eapply Forall_impl; [exact H|]. by intros ? [].
Qed.

Lemma join_head segs :
  Forall wf_seg segs -> match join [slash] segs with c :: _ => c <> slash | [] => True end.
Proof.
  destruct 1 as [|s segs [Hs Hn]]; [done|].
  destruct s as [|c s]; [done|]. apply not_elem_of_cons in Hn as [Hn _].
  by destruct segs.
Qed.

Lemma trim_left_bytes_slash s :
  match s with c :: _ => c <> slash | [] => True end ->
  trim_left_bytes (fun b => bool_decide (b = slash)) s = s.
Proof. destruct s as [|c s]; [done|]. intros Hc. simpl. by rewrite bool_decide_eq_false_2. Qed.

(** Rendering then parsing gives the components back. *)
Lemma parse_render rooted segs :
  Forall wf_seg segs ->
  parseComponentsUnix (renderComponents false (unix_comps rooted segs)) = unix_comps rooted segs.
Proof.
  intros H. rewrite renderComponents_unix. pose proof (join_head segs H) as Hh.
  pose proof (split_join_segs segs H) as Hs.
  destruct rooted; cbn [app]; unfold parseComponentsUnix, appendSegments, unix_comps.
  - rewrite decide_True by done. cbn [trim_left_bytes].
    rewrite bool_decide_eq_true_2 by done. by rewrite trim_left_bytes_slash, Hs.
  - destruct (join [slash] segs) as [|c r]; [by rewrite Hs|].
    rewrite decide_False by done. by rewrite Hs.
Qed.

Lemma normalizeStep_unix rooted segs s :
  Forall wf_clean_seg segs -> wf_seg s ->
  exists segs', normalizeStep (unix_comps rooted segs) (compNormal s) = unix_comps rooted segs'
    /\ Forall wf_clean_seg segs'.
Proof.
  intros H Hs. unfold normalizeStep. case_decide; [by exists segs|].
  case_decide as Hdd.
  - unfold popComponent. destruct segs as [|x segs _] using rev_ind.
    + exists []. destruct rooted; done.
    + unfold unix_comps. rewrite map_app, app_assoc. cbn [map].
      rewrite last_snoc, removelast_last. apply Forall_app in H as [H _]. by exists segs.
  - exists (segs ++ [s]). unfold unix_comps. rewrite map_app, app_assoc. split; [done|].
    apply Forall_app; split; [done|]. repeat constructor; try done; apply Hs.
Qed.

Lemma normalizeComponents_unix rooted segs :
  Forall wf_seg segs ->
  exists segs', normalizeComponents (unix_comps rooted segs) = unix_comps rooted segs'
    /\ Forall wf_clean_seg segs'.
Proof.
  intros H. unfold normalizeComponents.
  assert (fold_left normalizeStep (unix_comps rooted segs) []
    = fold_left normalizeStep (map compNormal segs) (unix_comps rooted [])) as -> by (by destruct rooted).
  assert (Forall wf_clean_seg (@nil gostring)) as Hacc by constructor.
  revert Hacc. generalize (@nil gostring) as acc.
  induction H as [|s segs Hs _ IH]; intros acc Hacc; [by exists acc|].
  cbn [map fold_left]. destruct (normalizeStep_unix rooted acc s Hacc Hs) as (acc' & -> & Hacc').
  by apply IH.
Qed.

Lemma normalizeComponents_clean rooted segs :
  Forall wf_clean_seg segs -> normalizeComponents (unix_comps rooted segs) = unix_comps rooted segs.
Proof.
  intros H. unfold normalizeComponents.
  assert (forall acc, fold_left normalizeStep (map compNormal segs) acc = acc ++ map compNormal segs) as Hn.
  { induction H as [|s segs (_ & Hd & Hdd) _ IH]; intros acc; cbn [map fold_left]; [by rewrite app_nil_r|].
    unfold normalizeStep at 2. rewrite !decide_False by done. by rewrite IH, <- app_assoc. }
  unfold unix_comps. destruct rooted; cbn [app fold_left]; by rewrite Hn.
Qed.

(** [normalizePath] in normal form. *)
Lemma normalizePath_unix path :
  exists segs, Forall wf_clean_seg segs
    /\ normalizeComponents (parseComponentsUnix path) = unix_comps (isAbsolute false path) segs
    /\ normalizePath false path =
       (if decide (isAbsolute false path = false /\ segs = []) then dot
        else renderComponents false (unix_comps (isAbsolute false path) segs)).
Proof.
  destruct (parseComponentsUnix_wf path) as (rooted & segs & E & Hwf & Hr).
  destruct (normalizeComponents_unix rooted segs Hwf) as (segs' & En & Hc).
  exists segs'. rewrite <- Hr, E, En. split_and!; [done..|].
  unfold normalizePath, parseComponents. rewrite E, En.
  destruct rooted; [by rewrite decide_False by naive_solver|].
  destruct segs'; [by rewrite decide_True|by rewrite decide_False by naive_solver].
Qed.

Lemma wf_clean_seg_wf s : wf_clean_seg s -> wf_seg s.
Proof. by intros []. Qed.

Lemma Forall_clean_wf segs : Forall wf_clean_seg segs -> Forall wf_seg segs.
Proof. intros H. eapply Forall_impl; [exact H|apply wf_clean_seg_wf]. Qed.

#[local] Hint Resolve Forall_clean_wf : codex.

(** On Unix, normalization is idempotent. *)
Theorem normalizePath_idempotent path :
  normalizePath false (normalizePath false path) = normalizePath false path.
Proof.
  destruct (normalizePath_unix path) as (segs & Hc & _ & E). rewrite E.
  case_decide as Hd; [done|].
  unfold normalizePath at 1, parseComponents. rewrite parse_render by eauto with codex.
  rewrite normalizeComponents_clean by done.
  destruct (isAbsolute false path), segs; try done. by destruct Hd.
Qed.

(** The segments of a relative path. *)
Definition segments (path : gostring) : list gostring :=
  filter (fun s => s <> []) (split_byte slash path).

(** *** Resolution as a walk *)

(** One segment of a walk through the tree: the names down to where it stands. *)
Definition walk (at_ : list gostring) (s : gostring) : list gostring :=
  if decide (s = dot) then at_ else if decide (s = dotdot) then removelast at_ else at_ ++ [s].

Lemma normalizeStep_walk (at_ : list gostring) (s : gostring) :
  normalizeStep (unix_comps true at_) (compNormal s) = unix_comps true (walk at_ s).
Proof.
  unfold normalizeStep, walk. case_decide; [done|]. case_decide.
  - unfold popComponent. destruct at_ as [|x at_ _] using rev_ind; [done|].
    unfold unix_comps. rewrite map_app, app_assoc. cbn [map]. by rewrite last_snoc, !removelast_last.
  - unfold unix_comps. by rewrite map_app, app_assoc.
Qed.

Lemma normalizeComponents_walk (segs : list gostring) :
  normalizeComponents (unix_comps true segs) = unix_comps true (fold_left walk segs []).
Proof.
  unfold normalizeComponents, unix_comps at 1. cbn [app fold_left]. change (normalizeStep [] compRootDir) with (unix_comps true []).
  generalize (@nil gostring) as at_. induction segs as [|s segs IH]; intros at_; [done|].
  cbn [map fold_left]. by rewrite normalizeStep_walk, IH.
Qed.

Lemma walk_clean (segs : list gostring) : Forall wf_seg segs -> Forall wf_clean_seg (fold_left walk segs []).
Proof.
  intros H. assert (Forall wf_clean_seg (@nil gostring)) as Hacc by constructor. revert Hacc. generalize (@nil gostring) as at_.
  induction H as [|s segs Hs _ IH]; intros at_ Hat; [done|]. cbn [fold_left]. apply IH. unfold walk. case_decide; [done|]. case_decide.
  - destruct at_ as [|x at_ _] using rev_ind; [done|]. rewrite removelast_last. by apply Forall_app in Hat as [Hat _].
  - apply Forall_app. split; [done|]. by repeat constructor; try apply Hs.
Qed.

Lemma segments_slash (s : gostring) : segments (slash :: s) = segments s.
Proof. unfold segments. change (slash :: s) with ([] ++ slash :: s). rewrite split_byte_app_sep, filter_app. by cbn. Qed.

Lemma segments_app (a b : gostring) : segments (a ++ slash :: b) = segments a ++ segments b.
Proof. unfold segments. by rewrite split_byte_app_sep, filter_app. Qed.

Lemma parse_absolute (path : gostring) : isAbsolute false path = true -> parseComponents false path = unix_comps true (segments path).
Proof.
  destruct path as [|c path]; [done|]. intros ->%bool_decide_eq_true.
  unfold parseComponents, parseComponentsUnix. rewrite decide_True by done. unfold appendSegments, unix_comps. do 2 f_equal.
  change (filter _ (split_byte slash ?x)) with (segments x). generalize (slash :: path) as s.
  induction s as [|c s IH]; [done|]. cbn [trim_left_bytes]. case_bool_decide as Hc; [|done]. subst c. by rewrite segments_slash.
Qed.

(** C40: on Unix, resolving against an absolute base is a walk: from the root for
    an absolute path, and otherwise from where the base leads, along the segments
    of the path with its home expanded; [.] stays, [..] goes up, but not above
    the root. The result is the names to where the walk ends, none of them empty,
    [.] or [..], a single slash before each. *)
Theorem ResolvePathAgainstBase_absolute home path base :
  isAbsolute false base = true ->
  let p := maybeExpandHomeDirectory false home path in
  let names := fold_left walk ((if isAbsolute false p then [] else segments base) ++ segments p) [] in
  Forall wf_clean_seg names /\ ResolvePathAgainstBase false home path base = slash :: join [slash] names.
Proof.
  intros Hb p names. set (target := pathWithBase false p base).
  assert (isAbsolute false target = true
    /\ segments target = (if isAbsolute false p then [] else segments base) ++ segments p) as [Habs Hseg].
  { unfold target, pathWithBase, pathWithBaseUnix. destruct (isAbsolute false p) eqn:Ep; [done|]. unfold joinUnix. rewrite Ep.
    destruct base as [|c base]; [done|]. rewrite decide_False by done. destruct (has_suffix _ _) eqn:Hs; [|split; [exact Hb|apply segments_app]].
    split; [exact Hb|]. apply has_suffix_true in Hs as [b Eb]. rewrite Eb. change (str "/") with [slash].
    rewrite <- app_assoc. cbn [app]. rewrite !segments_app. change (segments []) with (@nil gostring). by rewrite app_nil_r. }
  assert (Forall wf_seg (segments target)) as Hwf by apply split_filter_wf.
  split; [unfold names; rewrite <- Hseg; by apply walk_clean|]. unfold ResolvePathAgainstBase, normalizePathForPlatform, absolutizeFrom.
  fold p target. unfold normalizePath. rewrite parse_absolute, normalizeComponents_walk, Hseg by done. fold names.
  exact (renderComponents_unix true names).
Qed.

Lemma ResolvePathAgainstBase_absolute_witness :
  ResolvePathAgainstBase false (Some (str "/h")) "../x//./y" "/a/b/" = str "/a/x/y".
Proof.
  refine (eq_trans (proj2 (ResolvePathAgainstBase_absolute (Some (str "/h")) (str "../x//./y") (str "/a/b/") _)) _);
    vm_compute; reflexivity.
Defined.

(** *** Containment *)

Lemma parse_joined bs path :
  Forall wf_seg bs -> isAbsolute false path = false ->
  parseComponentsUnix
    (joinUnix false (renderComponents false (unix_comps true bs)) path)
  = unix_comps true (bs ++ segments path).
Proof.
  intros Hbs Hp. unfold joinUnix. rewrite Hp, renderComponents_unix. cbn [app].
  rewrite decide_False by done.
  assert (match path with c :: _ => c <> slash | [] => True end) as Hhead.
  { unfold isAbsolute in Hp. destruct path; [done|]. by breflect. }
  unfold parseComponentsUnix, appendSegments, unix_comps, segments.
  destruct (has_suffix (slash :: join [slash] bs) "/") eqn:Hsuf.
  - assert (bs = []) as ->.
    { apply has_suffix_true in Hsuf as [r E]. destruct bs as [|b bs _] using rev_ind; [done|].
      exfalso. apply Forall_app in Hbs as [_ Hb]. inversion_clear Hb as [|? ? [Hne Hn] _].
      apply (f_equal last) in E. change (str "/") with [slash] in E.
      rewrite last_snoc in E.
      assert (exists pre, slash :: join [slash] (bs ++ [b]) = pre ++ b) as [pre Epre].
      { destruct bs as [|b0 bs]; [by exists [slash]|].
        rewrite join_snoc by done. exists (slash :: join [slash] (b0 :: bs) ++ [slash]).
        cbn [app]. by rewrite <- app_assoc. }
      rewrite Epre, last_app in E. destruct (last b) as [x|] eqn:Eb.
      - simplify_eq. apply last_Some in Eb as [l' ->]. set_solver.
      - by apply last_None in Eb. }
    cbn [join app]. rewrite decide_True by done. cbn [trim_left_bytes].
    rewrite bool_decide_eq_true_2 by done. by rewrite trim_left_bytes_slash.
  - cbn [app]. rewrite decide_True by done. cbn [trim_left_bytes].
    rewrite bool_decide_eq_true_2 by done.
    destruct bs as [|b bs]; [done|].
    assert (match join [slash] (b :: bs) ++ slash :: path with c :: _ => c <> slash | [] => True end)
      as Hj.
    { pose proof (join_head (b :: bs) Hbs) as Hj.
      destruct (join [slash] (b :: bs)) eqn:E; [|done].
      inversion_clear Hbs as [|? ? [Hne _] _]. by destruct b, bs. }
    rewrite trim_left_bytes_slash, split_byte_app_sep by done.
    rewrite filter_app, split_join_segs by done. by rewrite !map_app.
Qed.

Lemma normalizeComponents_no_parent bs segs :
  Forall wf_clean_seg bs -> dotdot ∉ segs ->
  normalizeComponents (unix_comps true (bs ++ segs))
  = unix_comps true (bs ++ filter (fun s => s <> dot) segs).
Proof.
  intros Hbs Hdd. pose proof (normalizeComponents_clean true bs Hbs) as Hb.
  unfold normalizeComponents, unix_comps in *. rewrite map_app, app_assoc, fold_left_app, Hb.
  clear Hb Hbs. rewrite map_app, app_assoc. generalize ([compRootDir] ++ map compNormal bs) as acc.
  induction segs as [|s segs IH]; intros acc; [by rewrite app_nil_r|].
  apply not_elem_of_cons in Hdd as [Hs Hdd]. cbn [map fold_left]. unfold normalizeStep at 2.
  case_decide as Hd.
  - rewrite filter_cons_False by tauto. by apply IH.
  - rewrite decide_False, IH, filter_cons_True by congruence. cbn [map]. by rewrite <- app_assoc.
Qed.

(** on Unix, a relative path without a parent segment resolves below its
    base: the result is the base's components followed by the path's own. *)
Theorem ResolvePathAgainstBase_contained home path bs :
  Forall wf_clean_seg bs -> isAbsolute false path = false -> cut_prefix path "~" = None ->
  dotdot ∉ segments path ->
  ResolvePathAgainstBase false home path (renderComponents false (unix_comps true bs))
  = renderComponents false (unix_comps true (bs ++ filter (fun s => s <> dot) (segments path))).
Proof.
  intros Hbs Hp Ht Hdd.
  unfold ResolvePathAgainstBase, maybeExpandHomeDirectory, normalizePathForPlatform, absolutizeFrom.
  rewrite Ht. unfold pathWithBase, pathWithBaseUnix. rewrite Hp.
  unfold normalizePath, parseComponents. rewrite parse_joined by eauto with codex.
  by rewrite normalizeComponents_no_parent.
Qed.

Lemma ResolvePathAgainstBase_contained_witness :
  ResolvePathAgainstBase false None "src/./a.go"
    (renderComponents false (unix_comps true [str "w"; str "repo"])) = str "/w/repo/src/a.go".
Proof.
  rewrite ResolvePathAgainstBase_contained; [vm_compute; reflexivity|..].
  - repeat constructor; try done; refine (bool_decide_eq_true_1 _ _); vm_compute; reflexivity.
  - vm_compute. reflexivity.
  - vm_compute. reflexivity.
  - refine (bool_decide_eq_true_1 _ _). vm_compute. reflexivity.
Defined.

(** *** Ancestors *)

Lemma parentComps_unix segs :
  parentComps (unix_comps true segs) =
    match segs with [] => None | _ => Some (unix_comps true (removelast segs)) end.
Proof.
  assert (parentComps (map compNormal segs) =
    match segs with [] => None | _ => Some (map compNormal (removelast segs)) end) as E.
  { induction segs as [|s segs IH]; [done|]. cbn [map parentComps]. rewrite IH. by destruct segs. }
  unfold unix_comps. cbn [app parentComps]. rewrite E. by destruct segs.
Qed.

Lemma parentOf_unix segs :
  Forall wf_seg segs ->
  parentOf false (renderComponents false (unix_comps true segs)) =
    match segs with
    | [] => None
    | _ => Some (renderComponents false (unix_comps true (removelast segs)))
    end.
Proof.
  intros H. unfold parentOf, parseComponents. rewrite parse_render, parentComps_unix by done.
  by destruct segs.
Qed.

Lemma length_render_segs segs :
  Forall wf_seg segs -> length segs < length (renderComponents false (unix_comps true segs)).
Proof.
  rewrite renderComponents_unix. cbn [app length]. induction 1 as [|s segs [Hs _] _ IH]; [simpl; lia|].
  destruct segs as [|s' segs]; [destruct s; [done|simpl; lia]|].
  change (join [slash] (s :: s' :: segs)) with (s ++ [slash] ++ join [slash] (s' :: segs)).
  rewrite !length_app. simpl in *. lia.
Qed.

(** The ancestors of an absolute path are its prefixes by components, from
    the path itself to the root; in particular the loop terminates. *)
Theorem Ancestors_unix segs :
  Forall wf_seg segs ->
  Ancestors false (renderComponents false (unix_comps true segs))
  = Some (map (fun k => renderComponents false (unix_comps true (take k segs)))
              (rev (seq 0 (S (length segs))))).
Proof.
  intros Hwf. unfold Ancestors. pose proof (length_render_segs segs Hwf) as Hlen.
  assert (forall fuel, length segs < fuel ->
    ancestorsFuel false fuel (renderComponents false (unix_comps true segs))
    = Some (map (fun k => renderComponents false (unix_comps true (take k segs)))
              (rev (seq 0 (S (length segs)))))) as H; [|apply H; lia].
  clear Hlen. induction segs as [|s segs IH] using rev_ind; intros [|fuel] Hf; try lia; [done|].
  cbn [ancestorsFuel]. rewrite parentOf_unix by done.
  destruct (segs ++ [s]) as [|x xs] eqn:E; [by destruct segs|]. rewrite <- E in *.
  rewrite length_app in *. simpl in Hf. rewrite removelast_last.
  apply Forall_app in Hwf as [Hwf _]. rewrite IH by (done || lia).
  cbn [fmap option_fmap option_map]. rewrite Nat.add_1_r, (seq_S (S (length segs))), rev_app_distr.
  cbn [rev app map]. rewrite Nat.add_0_l, take_ge by (rewrite length_app; simpl; lia).
  do 2 f_equal. apply map_ext_in. intros k Hk. rewrite <- in_rev, in_seq in Hk.
  by rewrite take_app_le by lia.
Qed.

Lemma Ancestors_unix_witness :
  Ancestors false "/a/bc" = Some [str "/a/bc"; str "/a"; str "/"].
Proof.
  change (str "/a/bc") with (renderComponents false (unix_comps true [str "a"; str "bc"])).
  rewrite Ancestors_unix; [vm_compute; reflexivity|].
  repeat constructor; try done; refine (bool_decide_eq_true_1 _ _); vm_compute; reflexivity.
Defined.

End AbsPath.
