(* ===== verification/ApplyPatchSeek.v ===== *)
(** * internal/applypatch: locating chunks and editing lines

    [seek_sequence.go] and [replacements.go].  Line indices are [nat]: every
    index the code computes is non-negative.  The file system is an argument
    of [deriveNewContentsFromChunks] (see [ApplyPatchApply]); this file models
    the part below the read. *)

From S2P Require Import Prelude GoStrings ApplyPatchParser.
Import Parser.

Module Seek.

(** ** seek_sequence.go *)

(** [isUnicodeWhitespace], the switch on code points. *)
Definition isUnicodeWhitespace (r : rune) : bool :=
  bool_decide (r ∈ [9; 10; 11; 12; 13; 32; 133; 160; 5760;
                    8192; 8193; 8194; 8195; 8196; 8197; 8198; 8199;
                    8200; 8201; 8202;
                    8232; 8233; 8239; 8287; 12288])%Z.

Definition trimEnd (s : gostring) : gostring := trim_right_func isUnicodeWhitespace s.

(** The switch of [normalisePunctuation] on one rune. *)
Definition normaliseRune (c : rune) : gostring :=
  if decide (c ∈ [8208; 8209; 8210; 8211; 8212; 8213; 8722])%Z then str "-"
  else if decide (c ∈ [8216; 8217; 8218; 8219])%Z then str "'"
  else if decide (c ∈ [8220; 8221; 8222; 8223])%Z then ["034"%char]
  else if decide (c ∈ [160; 8194; 8195; 8196; 8197; 8198; 8199; 8200; 8201; 8202; 8239; 8287; 12288])%Z
  then str " "
  else encode_rune c.

Definition normalisePunctuation (s : gostring) : gostring :=
  concat (map normaliseRune (runes (trim_space s))).

(** [equalLines]: compare as long as [a]. *)
Fixpoint equalLines (a b : list gostring) : bool :=
  match a, b with
  | x :: a, y :: b => if decide (x = y) then equalLines a b else false
  | _, _ => true
  end.

(** The inner loop of [matchWith] at one position. *)
Fixpoint matchLines (transform : gostring -> gostring) (lines pattern : list gostring) : bool :=
  match pattern, lines with
  | [], _ => true
  | p :: pattern, l :: lines =>
      if decide (transform l = transform p) then matchLines transform lines pattern else false
  | _ :: _, [] => false
  end.

(** [for i := i0; i <= last; i++ { if test(i) return i }] with [n] iterations
    left. *)
Fixpoint searchFrom (test : nat -> bool) (i n : nat) : option nat :=
  match n with
  | O => None
  | S n => if test i then Some i else searchFrom test (S i) n
  end.

Definition searchRange (test : nat -> bool) (searchStart last : nat) : option nat :=
  searchFrom test searchStart (S last - searchStart).

Definition matchWith (lines pattern : list gostring) (searchStart last : nat)
    (transform : gostring -> gostring) : option nat :=
  searchRange (fun i => matchLines transform (drop i lines) pattern) searchStart last.

Definition seekSequence (lines pattern : list gostring) (start : nat) (eof : bool) : option nat :=
  if decide (pattern = []) then Some start
  else if decide (length lines < length pattern) then None
  else
    let searchStart :=
      if eof && bool_decide (length pattern <= length lines)
      then length lines - length pattern else start in
    let last := length lines - length pattern in
    match searchRange
            (fun i => equalLines (take (length pattern) (drop i lines)) pattern)
            searchStart last with
    | Some i => Some i
    | None =>
    match matchWith lines pattern searchStart last trimEnd with
    | Some i => Some i
    | None =>
    match matchWith lines pattern searchStart last trim_space with
    | Some i => Some i
    | None => matchWith lines pattern searchStart last normalisePunctuation
    end end end.

(** ** replacements.go *)

Record replacement := mkReplacement {
  startIndex : nat;
  oldLen : nat;
  newLines : list gostring
}.

(** [ComputeReplacementsError] *)
Inductive ApplyError :=
| ComputeReplacementsError (Message : gostring)
| IOError (Context Err : gostring)
| PlainError (Message : gostring).

#[export] Instance ApplyError_eq_dec : EqDecision ApplyError.
Proof. solve_decision. Defined.

(** The element [l[len(l)-1]] is the empty string. *)
Definition ends_empty (l : list gostring) : bool := bool_decide (last l = Some []).

(** One iteration of the chunk loop: from [lineIndex] to the new replacement
    and the next [lineIndex]. *)
Definition computeReplacement (originalLines : list gostring) (path : gostring)
    (chunk : UpdateFileChunk) (lineIndex : nat) : result ApplyError (replacement * nat) :=
  lineIndex ←
    (match ChangeContext chunk with
     | None => Ok lineIndex
     | Some ctx =>
         match seekSequence originalLines [ctx] lineIndex false with
         | Some idx => Ok (idx + 1)
         | None => Err (ComputeReplacementsError
             ("Failed to find context '" ++ ctx ++ str "' in " ++ path))
         end
     end);
  if decide (OldLines chunk = []) then
    let insertionIdx :=
      if ends_empty originalLines then length originalLines - 1 else length originalLines in
    Ok (mkReplacement insertionIdx 0 (NewLines chunk), lineIndex)
  else
    let eof := IsEndOfFile chunk in
    let pattern := OldLines chunk in
    let newSlice := NewLines chunk in
    let '(found, pattern, newSlice) :=
      match seekSequence originalLines pattern lineIndex eof with
      | Some i => (Some i, pattern, newSlice)
      | None =>
          if ends_empty pattern then
            let pattern := removelast pattern in
            let newSlice := if ends_empty newSlice then removelast newSlice else newSlice in
            (seekSequence originalLines pattern lineIndex eof, pattern, newSlice)
          else (None, pattern, newSlice)
      end in
    match found with
    | Some i => Ok (mkReplacement i (length pattern) newSlice, i + length pattern)
    | None => Err (ComputeReplacementsError
        ("Failed to find expected lines in " ++ path ++ str ":" ++ [nl]
         ++ join [nl] (OldLines chunk)))
    end.

Fixpoint computeLoop (originalLines : list gostring) (path : gostring)
    (chunks : list UpdateFileChunk) (lineIndex : nat) : result ApplyError (list replacement) :=
  match chunks with
  | [] => Ok []
  | chunk :: chunks =>
      '(r, lineIndex) ← computeReplacement originalLines path chunk lineIndex;
      rs ← computeLoop originalLines path chunks lineIndex;
      Ok (r :: rs)
  end.

(** [sort.SliceStable] by start index. *)
Fixpoint insertStable (r : replacement) (rs : list replacement) : list replacement :=
  match rs with
  | [] => [r]
  | r' :: rs' => if decide (startIndex r' < startIndex r) then r' :: insertStable r rs' else r :: rs
  end.
Definition sortStable (rs : list replacement) : list replacement :=
  fold_right insertStable [] rs.

Definition computeReplacements (originalLines : list gostring) (path : gostring)
    (chunks : list UpdateFileChunk) : result ApplyError (list replacement) :=
  rs ← computeLoop originalLines path chunks 0;
  Ok (sortStable rs).

(** [append(out[:i], out[i+1:]...)], guarded by [i < len(out)]. *)
Definition removeAt (i : nat) (out : list gostring) : list gostring :=
  if decide (i < length out) then take i out ++ drop (S i) out else out.

(** [append; copy(out[pos+1:], out[pos:]); out[pos] = x], which panics when
    [pos] is past the end. *)
Definition insertAt (pos : nat) (x : gostring) (out : list gostring) : option (list gostring) :=
  if decide (pos <= length out) then Some (take pos out ++ x :: drop pos out) else None.

Fixpoint insertLines (pos : nat) (xs : list gostring) (out : list gostring)
    : option (list gostring) :=
  match xs with
  | [] => Some out
  | x :: xs => match insertAt pos x out with
               | Some out => insertLines (S pos) xs out
               | None => None
               end
  end.

Definition applyReplacement (r : replacement) (out : list gostring) : option (list gostring) :=
  insertLines (startIndex r) (newLines r)
    (Nat.iter (oldLen r) (removeAt (startIndex r)) out).

(** In descending order: the last replacement first. *)
Definition applyReplacements (lines : list gostring) (rs : list replacement)
    : option (list gostring) :=
  fold_left (fun out r => match out with Some out => applyReplacement r out | None => None end)
    (rev rs) (Some lines).

(** The lines of a file, without the element after the final newline. *)
Definition originalLinesOf (original : gostring) : list gostring :=
  let lines := split_byte nl original in
  if ends_empty lines then removelast lines else lines.

(** [deriveNewContentsFromChunks] after the read: the new contents. *)
Definition newContentsOf (pathAbs original : gostring) (chunks : list UpdateFileChunk)
    : result ApplyError gostring :=
  let originalLines := originalLinesOf original in
  replacements ← computeReplacements originalLines pathAbs chunks;
  newLines ← or_panic (applyReplacements originalLines replacements);
  let newLines := if ends_empty newLines then newLines else newLines ++ [[]] in
  Ok (join [nl] newLines).

Example new_contents_example :
  newContentsOf "f" ("a" ++ [nl] ++ "b " ++ [nl] ++ str "c")
    [mkChunk (Some (str "a")) [str "b"] [str "B"; str "B2"] false; mkChunk None [] [str "end"] false]
  = Ok ("a" ++ [nl] ++ "B" ++ [nl] ++ "B2" ++ [nl] ++ "c" ++ [nl] ++ "end" ++ [nl]).
Proof. vm_compute. reflexivity. Qed.

(** Overlap: a pure addition is placed before the final empty line, which an
    earlier chunk may be replacing; the added line is then lost. *)
Example addition_lost :
  newContentsOf "f" ("a" ++ [nl; nl])
    [mkChunk None [str "a"; []] [str "b"] false; mkChunk None [] [str "c"] false]
  = Ok ("b" ++ [nl]).
Proof. vm_compute. reflexivity. Qed.

(** ** [isUnicodeWhitespace] is [unicode.IsSpace] *)

Lemma isUnicodeWhitespace_spec r : isUnicodeWhitespace r = is_space r.
Proof.
  apply eq_bool_prop_intro. unfold isUnicodeWhitespace, is_space, in_range.
  rewrite bool_decide_spec, !elem_of_cons, elem_of_nil.
  rewrite !orb_True, !andb_True. rewrite !Is_true_true, !Z.leb_le, !Z.eqb_eq. lia.
Qed.

(** ** Searching *)

Lemma searchFrom_spec test i n :
  match searchFrom test i n with
  | Some k => i <= k < i + n /\ test k = true /\ (forall j, i <= j < k -> test j = false)
  | None => forall j, i <= j < i + n -> test j = false
  end.
Proof.
  revert i. induction n as [|n IH]; intros i; simpl; [lia|].
  destruct (test i) eqn:Ei; [split_and!; [lia..|done|lia]|].
  specialize (IH (S i)). destruct (searchFrom test (S i) n) as [k|].
  - destruct IH as (Hk & Ht & Hj). split_and!; [lia..|done|].
    intros j Hji. destruct (decide (j = i)) as [->|]; [done|]. apply Hj. lia.
  - intros j Hji. destruct (decide (j = i)) as [->|]; [done|]. apply IH. lia.
Qed.

(** Position [i] matches when the window of lines there equals the pattern up
    to [t]. *)
Definition window (i n : nat) (lines : list gostring) : list gostring := take n (drop i lines).

Definition matches_at (t : gostring -> gostring) (lines pattern : list gostring) (i : nat) : Prop :=
  i + length pattern <= length lines
  /\ map t (window i (length pattern) lines) = map t pattern.

Definition levels : list (gostring -> gostring) := [id; trimEnd; trim_space; normalisePunctuation].

Definition first_match (t : gostring -> gostring) (lines pattern : list gostring) (lo i : nat) : Prop :=
  lo <= i /\ matches_at t lines pattern i
  /\ (forall j, lo <= j < i -> ~ matches_at t lines pattern j).

Lemma equalLines_spec a b : length a = length b -> equalLines a b = true <-> a = b.
Proof.
  revert b. induction a as [|x a IH]; intros [|y b] Hl; simpl in *; try done.
  injection Hl as Hl. case_decide; subst; [rewrite IH by done|]; split; congruence.
Qed.

Lemma matchLines_spec t lines pattern :
  matchLines t lines pattern = true <->
  length pattern <= length lines /\ map t (take (length pattern) lines) = map t pattern.
Proof.
  revert lines. induction pattern as [|p pattern IH]; intros [|l lines]; simpl.
  - split; [split; [lia|done]|done].
  - split; [split; [lia|done]|done].
  - split; [done|lia].
  - case_decide as E.
    + rewrite IH. split; intros [Hl Hm]; (split; [lia|congruence]).
    + split; [done|]. intros [_ [=]]. done.
Qed.

(** One pass over the candidate positions. *)
Definition seekLevel (t : gostring -> gostring) (lines pattern : list gostring) (lo : nat) : option nat :=
  matchWith lines pattern lo (length lines - length pattern) t.

Lemma seekLevel_spec t lines pattern lo :
  pattern <> [] -> length pattern <= length lines ->
  match seekLevel t lines pattern lo with
  | Some i => first_match t lines pattern lo i
  | None => forall j, lo <= j -> ~ matches_at t lines pattern j
  end.
Proof.
  intros Hne Hlen. unfold seekLevel, matchWith, searchRange.
  set (test := fun i => matchLines t (drop i lines) pattern).
  assert (forall j, test j = true <-> matches_at t lines pattern j) as Htest.
  { intros j. subst test. simpl. rewrite matchLines_spec, length_drop. unfold matches_at, window.
    split; intros [? ?]; (split; [|done]).
    - destruct pattern; [done|simpl in *; lia].
    - lia. }
  assert (forall j, test j = false <-> ~ matches_at t lines pattern j) as Htest'
    by (intros j; rewrite <- Htest; destruct (test j); naive_solver).
  pose proof (searchFrom_spec test lo (S (length lines - length pattern) - lo)) as H.
  destruct (searchFrom test lo _) as [i|].
  - destruct H as (Hi & Ht & Hj). split_and!; [lia|by apply Htest|].
    intros j Hlt. apply Htest'. by apply Hj.
  - intros j Hj Hm. assert (j + length pattern <= length lines) by apply Hm.
    apply Htest in Hm. rewrite H in Hm; [done|lia].
Qed.

Definition seek_start (lines pattern : list gostring) (start : nat) (eof : bool) : nat :=
  if eof then length lines - length pattern else start.

(** The passes in order, the first that succeeds. *)
Fixpoint seekLevels (ts : list (gostring -> gostring)) (lines pattern : list gostring) (lo : nat)
    : option nat :=
  match ts with
  | [] => None
  | t :: ts => match seekLevel t lines pattern lo with
               | Some i => Some i
               | None => seekLevels ts lines pattern lo
               end
  end.

Lemma searchFrom_ext f g i n :
  (forall j, i <= j < i + n -> f j = g j) -> searchFrom f i n = searchFrom g i n.
Proof.
  revert i. induction n as [|n IH]; intros i H; simpl; [done|].
  rewrite (H i) by lia. destruct (g i); [done|]. apply IH. intros. apply H. lia.
Qed.

Lemma seekSequence_levels lines pattern start eof :
  pattern <> [] -> length pattern <= length lines ->
  seekSequence lines pattern start eof
  = seekLevels levels lines pattern (seek_start lines pattern start eof).
Proof.
  intros Hne Hlen. unfold seekSequence. rewrite !decide_False by (done || lia).
  rewrite bool_decide_eq_true_2, andb_true_r by lia. fold (seek_start lines pattern start eof).
  set (lo := seek_start lines pattern start eof).
  unfold levels, seekLevels, seekLevel.
  assert (searchRange (fun i => equalLines (take (length pattern) (drop i lines)) pattern)
            lo (length lines - length pattern)
          = matchWith lines pattern lo (length lines - length pattern) id) as ->; [|by repeat case_match].
  unfold matchWith, searchRange. apply searchFrom_ext. intros j Hj.
  apply eq_true_iff_eq. rewrite equalLines_spec.
  - rewrite matchLines_spec, length_drop, !map_id. split; [intros E; split; [lia|done]|tauto].
  - rewrite length_take, length_drop. lia.
Qed.

(** What a search that found [r] from [lo] establishes. *)
Definition seek_result (ts : list (gostring -> gostring)) (lines pattern : list gostring)
    (lo : nat) (r : option nat) : Prop :=
  match r with
  | Some i =>
      exists before t after, ts = before ++ t :: after
        /\ first_match t lines pattern lo i
        /\ Forall (fun t' => forall j, lo <= j -> ~ matches_at t' lines pattern j) before
  | None => Forall (fun t => forall j, lo <= j -> ~ matches_at t lines pattern j) ts
  end.

Lemma seekLevels_result ts lines pattern lo :
  pattern <> [] -> length pattern <= length lines ->
  seek_result ts lines pattern lo (seekLevels ts lines pattern lo).
Proof.
  intros Hne Hlen. induction ts as [|t ts IH]; simpl; [constructor|].
  pose proof (seekLevel_spec t lines pattern lo Hne Hlen) as Ht.
  destruct (seekLevel t lines pattern lo) as [i|].
  - exists [], t, ts. split_and!; [done|done|constructor].
  - destruct (seekLevels ts lines pattern lo) as [i|].
    + destruct IH as (before & t' & after & -> & Hf & Hb).
      exists (t :: before), t', after. split_and!; [done|done|by constructor].
    + by constructor.
Qed.

Lemma seekSequence_result lines pattern start eof :
  pattern <> [] ->
  seek_result levels lines pattern (seek_start lines pattern start eof)
    (seekSequence lines pattern start eof).
Proof.
  intros Hne. destruct (decide (length pattern <= length lines)) as [Hlen|Hlen].
  - rewrite seekSequence_levels by done. by apply seekLevels_result.
  - unfold seekSequence. rewrite decide_False, decide_True by (done || lia).
    apply Forall_forall. intros t _ j _ [Hm _]. lia.
Qed.

(** [seekSequence] finds the earliest position of the strictest pass that
    matches anywhere in the searched range, and fails only when no pass matches
    there; an empty pattern matches at the start. *)
Theorem seekSequence_spec lines pattern start eof :
  let r := seekSequence lines pattern start eof in
  if decide (pattern = []) then r = Some start
  else seek_result levels lines pattern (seek_start lines pattern start eof) r.
Proof.
  intros r. subst r. case_decide as Hne; [|by apply seekSequence_result].
  unfold seekSequence. by rewrite decide_True.
Qed.

Lemma seekSequence_matches lines pattern start eof i :
  start <= length lines -> seekSequence lines pattern start eof = Some i ->
  exists t, t ∈ levels /\ matches_at t lines pattern i.
Proof.
  intros Hs E. destruct (decide (pattern = [])) as [->|Hne].
  - exists id. split; [left|]. unfold seekSequence in E. rewrite decide_True in E by done.
    simplify_eq. split; [simpl; lia|done].
  - pose proof (seekSequence_result lines pattern start eof Hne) as H. rewrite E in H.
    destruct H as (before & t & after & El & (_ & Hm & _) & _). exists t. split; [|done].
    rewrite El. set_solver.
Qed.

Lemma seekSequence_bound lines pattern start eof i :
  start <= length lines -> seekSequence lines pattern start eof = Some i ->
  i + length pattern <= length lines.
Proof.
  intros Hs E. by destruct (seekSequence_matches _ _ _ _ _ Hs E) as (t & _ & [? _]).
Qed.

Lemma seekSequence_ge lines pattern start i :
  seekSequence lines pattern start false = Some i -> start <= i.
Proof.
  intros E. destruct (decide (pattern = [])) as [->|Hne].
  - unfold seekSequence in E. rewrite decide_True in E by done. by simplify_eq.
  - pose proof (seekSequence_result lines pattern start false Hne) as H. rewrite E in H.
    destruct H as (? & ? & ? & _ & (? & _) & _). done.
Qed.

(** ** The replacements of a list of chunks *)

(** [r] is an edit of [lines] that [chunk] asks for: a block that matches its
    old lines (without a final empty line, when only that matches) replaced by
    its new lines, or an insertion at the end. *)
Definition realises (lines : list gostring) (chunk : UpdateFileChunk) (r : replacement) : Prop :=
  (OldLines chunk = []
   /\ r = mkReplacement (if ends_empty lines then length lines - 1 else length lines) 0 (NewLines chunk))
  \/ (exists t, t ∈ levels /\ oldLen r = length (OldLines chunk) /\ newLines r = NewLines chunk
        /\ matches_at t lines (OldLines chunk) (startIndex r))
  \/ (exists t, t ∈ levels /\ ends_empty (OldLines chunk) = true
        /\ oldLen r = length (removelast (OldLines chunk))
        /\ newLines r = (if ends_empty (NewLines chunk) then removelast (NewLines chunk) else NewLines chunk)
        /\ matches_at t lines (removelast (OldLines chunk)) (startIndex r)).

Definition in_range_of (n : nat) (r : replacement) : Prop := startIndex r + oldLen r <= n.

(** An edit at or after [lo], or an insertion at the very end. *)
Definition after_or_end (n lo : nat) (r : replacement) : Prop :=
  lo <= startIndex r \/ (startIndex r = n /\ oldLen r = 0).

Definition is_compute_error (e : ApplyError) : Prop :=
  match e with ComputeReplacementsError _ => True | _ => False end.

Lemma computeReplacement_spec lines path chunk li :
  li <= length lines ->
  rspec (fun '(r, li') =>
           realises lines chunk r /\ in_range_of (length lines) r /\ li' <= length lines
           /\ (IsEndOfFile chunk = false -> ends_empty lines = false \/ OldLines chunk <> [] ->
               li <= li' /\ after_or_end (length lines) li r
               /\ (startIndex r + oldLen r <= li' \/ (startIndex r = length lines /\ oldLen r = 0))))
        is_compute_error (computeReplacement lines path chunk li).
Proof.
  intros Hli. unfold computeReplacement.
  eapply rspec_bind with (P := fun li' => li <= li' <= length lines).
  { destruct (ChangeContext chunk) as [ctx|]; [|simpl; lia].
    destruct (seekSequence lines [ctx] li false) as [i|] eqn:E; [|done]. simpl.
    pose proof (seekSequence_bound _ _ _ _ _ Hli E). pose proof (seekSequence_ge _ _ _ _ E).
    simpl in *. lia. }
  intros li1 Hli1. case_decide as Hold.
  { simpl. split_and!.
    - left. done.
    - unfold in_range_of. simpl. destruct (ends_empty lines); lia.
    - lia.
    - intros _ [->|]; [|done]. split_and!; [lia|by right|by right]. }
  destruct (seekSequence lines (OldLines chunk) li1 (IsEndOfFile chunk)) as [i|] eqn:E; simpl.
  { pose proof (seekSequence_bound _ _ _ _ _ (proj2 Hli1) E) as Hb.
    destruct (seekSequence_matches _ _ _ _ _ (proj2 Hli1) E) as (t & Ht & Hm). split_and!.
    - right. left. exists t. done.
    - done.
    - lia.
    - intros Heof _. rewrite Heof in E. pose proof (seekSequence_ge _ _ _ _ E).
      split_and!; [lia|left; simpl; lia|left; simpl; lia]. }
  destruct (ends_empty (OldLines chunk)) eqn:He; [|done].
  destruct (seekSequence lines (removelast (OldLines chunk)) li1 (IsEndOfFile chunk)) as [i|] eqn:E';
    simpl; [|done].
  pose proof (seekSequence_bound _ _ _ _ _ (proj2 Hli1) E') as Hb.
  destruct (seekSequence_matches _ _ _ _ _ (proj2 Hli1) E') as (t & Ht & Hm). split_and!.
  - right. right. exists t. done.
  - done.
  - lia.
  - intros Heof _. rewrite Heof in E'. pose proof (seekSequence_ge _ _ _ _ E').
    split_and!; [lia|left; simpl; lia|left; simpl; lia].
Qed.

(** Each edit lies before every later one, or is an insertion at the end. *)
Fixpoint edits_ordered (n : nat) (rs : list replacement) : Prop :=
  match rs with
  | [] => True
  | r :: rs =>
      Forall (fun r' => startIndex r + oldLen r <= startIndex r' \/ (startIndex r' = n /\ oldLen r' = 0)
                        \/ (startIndex r = n /\ oldLen r = 0)) rs
      /\ edits_ordered n rs
  end.

(** The chunks whose edits cannot overlap: none asks for the end of the file,
    and none is a pure addition in front of a final empty line. *)
Definition plain_chunks (lines : list gostring) (chunks : list UpdateFileChunk) : Prop :=
  Forall (fun c => IsEndOfFile c = false /\ (ends_empty lines = false \/ OldLines c <> [])) chunks.

Lemma computeLoop_spec lines path chunks li :
  li <= length lines ->
  rspec (fun rs => Forall2 (realises lines) chunks rs /\ Forall (in_range_of (length lines)) rs
           /\ (plain_chunks lines chunks ->
               Forall (after_or_end (length lines) li) rs /\ edits_ordered (length lines) rs))
        is_compute_error (computeLoop lines path chunks li).
Proof.
  revert li. induction chunks as [|c chunks IH]; intros li Hli; simpl.
  { split_and!; [constructor|constructor|intros _; split; [constructor|done]]. }
  eapply rspec_bind; [by apply computeReplacement_spec|].
  intros [r li'] (Hreal & Hin & Hli' & Hplain).
  eapply rspec_bind; [by apply IH|]. intros rs (Hreals & Hins & Hord). simpl.
  split_and!; [by constructor|by constructor|].
  intros Hp. inversion_clear Hp as [|? ? [He Ho] Hps].
  destruct (Hplain He Ho) as (Hle & Hr & Hnext). destruct (Hord Hps) as [Hafter Hrs].
  split; [constructor; [done|]|split; [|done]].
  - eapply Forall_impl; [exact Hafter|]. unfold after_or_end. intros r'. simpl. lia.
  - eapply Forall_impl; [exact Hafter|]. unfold after_or_end. intros r'. simpl. lia.
Qed.

(** ** Sorting *)

Lemma insertStable_perm r rs : insertStable r rs ≡ₚ r :: rs.
Proof.
  induction rs as [|r' rs IH]; simpl; [done|]. case_decide; [|done].
  rewrite IH. apply perm_swap.
Qed.

Lemma sortStable_perm rs : sortStable rs ≡ₚ rs.
Proof. induction rs as [|r rs IH]; simpl; [done|]. by rewrite insertStable_perm, IH. Qed.

(** Disjoint and in order. *)
Fixpoint disjoint_sorted (rs : list replacement) : Prop :=
  match rs with
  | [] => True
  | r :: rs => Forall (fun r' => startIndex r + oldLen r <= startIndex r') rs /\ disjoint_sorted rs
  end.

Lemma insertStable_disjoint n r rs :
  in_range_of n r -> Forall (in_range_of n) rs -> disjoint_sorted rs ->
  Forall (fun r' => startIndex r + oldLen r <= startIndex r' \/ (startIndex r' = n /\ oldLen r' = 0)
                    \/ (startIndex r = n /\ oldLen r = 0)) rs ->
  disjoint_sorted (insertStable r rs).
Proof.
  intros Hr. induction rs as [|r' rs IH]; intros Hin Hd Hrel; simpl; [done|].
  inversion_clear Hin as [|? ? Hr' Hin']. inversion_clear Hrel as [|? ? Hrel' Hrels].
  destruct Hd as [Hd Hds]. unfold in_range_of in *. case_decide as Hlt.
  - split; [|by apply IH].
    eapply Permutation_Forall; [symmetry; apply insertStable_perm|]. constructor; [lia|done].
  - split; [|done]. constructor; [lia|].
    eapply Forall_impl; [exact Hd|]. simpl. intros. lia.
Qed.

Lemma sortStable_disjoint n rs :
  Forall (in_range_of n) rs -> edits_ordered n rs -> disjoint_sorted (sortStable rs).
Proof.
  induction rs as [|r rs IH]; intros Hin Hord; simpl; [done|].
  inversion_clear Hin as [|? ? Hr Hins]. destruct Hord as [Hrel Hord].
  apply (insertStable_disjoint n); [done| |by apply IH|].
  - eapply Permutation_Forall; [symmetry; apply sortStable_perm|done].
  - eapply Permutation_Forall; [symmetry; apply sortStable_perm|done].
Qed.

(** ** Editing: [applyReplacements] against a direct description *)

(** The reference: copy the lines from [pos], replacing each block. *)
Fixpoint splice (pos : nat) (lines : list gostring) (rs : list replacement) : list gostring :=
  match rs with
  | [] => drop pos lines
  | r :: rs =>
      take (startIndex r - pos) (drop pos lines) ++ newLines r
      ++ splice (startIndex r + oldLen r) lines rs
  end.

Lemma removeAt_app l x k : removeAt (length l) (l ++ x :: k) = l ++ k.
Proof.
  unfold removeAt. rewrite decide_True by (rewrite length_app; simpl; lia).
  rewrite take_app_length. rewrite drop_app_ge by lia.
  by replace (S (length l) - length l) with 1 by lia.
Qed.

Lemma removeAt_iter l k m : Nat.iter (length m) (removeAt (length l)) (l ++ m ++ k) = l ++ k.
Proof.
  induction m as [|x m IH]; [done|]. cbn [length]. rewrite Nat.iter_succ_r.
  cbn [app]. by rewrite removeAt_app.
Qed.

Lemma insertLines_app l xs k : insertLines (length l) xs (l ++ k) = Some (l ++ xs ++ k).
Proof.
  revert l. induction xs as [|x xs IH]; intros l; [done|]. simpl. unfold insertAt.
  rewrite decide_True by (rewrite length_app; lia).
  rewrite take_app_length, drop_app_length.
  specialize (IH (l ++ [x])). rewrite length_app, Nat.add_1_r, <- !app_assoc in IH. exact IH.
Qed.

Lemma applyReplacement_block r l m k :
  startIndex r = length l -> oldLen r = length m ->
  applyReplacement r (l ++ m ++ k) = Some (l ++ newLines r ++ k).
Proof.
  intros Hs Ho. unfold applyReplacement. rewrite Hs, Ho, removeAt_iter. apply insertLines_app.
Qed.

Lemma applyReplacements_cons lines r rs :
  applyReplacements lines (r :: rs)
  = match applyReplacements lines rs with Some out => applyReplacement r out | None => None end.
Proof. unfold applyReplacements. simpl. by rewrite fold_left_app. Qed.

Lemma splice_prefix pos lines rs :
  match rs with r :: _ => pos <= startIndex r | [] => True end ->
  forall pos', pos' <= pos -> pos <= length lines ->
  take pos' lines ++ splice pos' lines rs = take pos lines ++ splice pos lines rs.
Proof.
  intros Hrs pos' Hle Hlen.
  assert (take pos lines = take pos' lines ++ take (pos - pos') (drop pos' lines)) as ->.
  { rewrite <- (take_drop pos' (take pos lines)) at 1. rewrite take_take, Nat.min_l by lia.
    f_equal. by rewrite drop_take. }
  rewrite <- app_assoc. f_equal. destruct rs as [|r rs]; simpl.
  - rewrite <- (take_drop (pos - pos') (drop pos' lines)) at 1.
    rewrite drop_drop. do 2 f_equal. lia.
  - rewrite !app_assoc. f_equal. f_equal.
    rewrite <- (take_drop (pos - pos') (take (startIndex r - pos') (drop pos' lines))).
    rewrite take_take, Nat.min_l by lia. f_equal.
    rewrite drop_take, drop_drop. f_equal; [lia|f_equal; lia].
Qed.

Lemma applyReplacements_splice_from lines rs :
  Forall (in_range_of (length lines)) rs -> disjoint_sorted rs ->
  applyReplacements lines rs = Some (splice 0 lines rs).
Proof.
  induction rs as [|r rs IH]; intros Hin Hd.
  { unfold applyReplacements. simpl. by rewrite drop_0. }
  inversion_clear Hin as [|? ? Hr Hins]. destruct Hd as [Hd Hds]. unfold in_range_of in Hr.
  rewrite applyReplacements_cons, IH by done.
  assert (splice 0 lines rs
    = take (startIndex r) lines ++ take (oldLen r) (drop (startIndex r) lines)
      ++ splice (startIndex r + oldLen r) lines rs) as ->.
  { rewrite <- (app_nil_l (splice 0 lines rs)). change [] with (take 0 lines).
    rewrite (splice_prefix (startIndex r + oldLen r)).
    - rewrite app_assoc. f_equal.
      rewrite <- (take_drop (startIndex r) (take (startIndex r + oldLen r) lines)).
      rewrite take_take, Nat.min_l by lia. f_equal.
      rewrite drop_take. f_equal. lia.
    - destruct Hd; done.
    - lia.
    - lia. }
  rewrite applyReplacement_block.
  - simpl. by rewrite Nat.sub_0_r, drop_0.
  - rewrite length_take. lia.
  - rewrite length_take, length_drop. lia.
Qed.

(** *** Editing never leaves the slice *)

Fixpoint starts_sorted (rs : list replacement) : Prop :=
  match rs with
  | [] => True
  | r :: rs => Forall (fun r' => startIndex r <= startIndex r') rs /\ starts_sorted rs
  end.

Lemma insertStable_sorted r rs : starts_sorted rs -> starts_sorted (insertStable r rs).
Proof.
  induction rs as [|r' rs IH]; simpl; [done|]. intros [Hr' Hs]. case_decide as Hlt; simpl.
  - split; [|by apply IH].
    eapply Permutation_Forall; [symmetry; apply insertStable_perm|]. constructor; [lia|done].
  - split; [|done]. constructor; [lia|]. eapply Forall_impl; [exact Hr'|]. simpl. lia.
Qed.

Lemma sortStable_sorted rs : starts_sorted (sortStable rs).
Proof. induction rs; simpl; [done|]. by apply insertStable_sorted. Qed.

Lemma applyReplacement_returns r out :
  startIndex r <= length out ->
  exists out', applyReplacement r out = Some out' /\ startIndex r <= length out'.
Proof.
  intros Hle. unfold applyReplacement.
  assert (startIndex r <= length (Nat.iter (oldLen r) (removeAt (startIndex r)) out)) as Hrem.
  { induction (oldLen r) as [|n IHn]; [done|]. simpl. unfold removeAt at 1. case_decide; [|done].
    rewrite length_app, length_take, length_drop. lia. }
  revert Hrem. generalize (Nat.iter (oldLen r) (removeAt (startIndex r)) out) as k. clear Hle.
  intros k Hk. assert (startIndex r <= startIndex r) as Hp by lia. revert Hp Hk.
  generalize (startIndex r) at 2 3 4 as pos. revert k. induction (newLines r) as [|x xs IH]; intros k pos Hp Hk.
  - exists k. split; [done|lia].
  - simpl. unfold insertAt. rewrite decide_True by done.
    apply IH; [lia|]. rewrite length_app, length_take. simpl. rewrite length_drop. lia.
Qed.

Lemma applyReplacements_returns lines rs :
  starts_sorted rs -> Forall (fun r => startIndex r <= length lines) rs ->
  exists out, applyReplacements lines rs = Some out
    /\ forall b, b <= length lines -> Forall (fun r => b <= startIndex r) rs -> b <= length out.
Proof.
  induction rs as [|r rs IH]; intros Hs Hin; [by exists lines|].
  destruct Hs as [Hr Hs]. inversion_clear Hin as [|? ? Hri Hins].
  destruct (IH Hs Hins) as (out & E & Hb). rewrite applyReplacements_cons, E.
  destruct (applyReplacement_returns r out) as (out' & E' & Hlen).
  { apply Hb; done. }
  exists out'. split; [done|]. intros b _ Hbs. inversion_clear Hbs. lia.
Qed.

Lemma in_range_start n rs : Forall (in_range_of n) rs -> Forall (fun r => startIndex r <= n) rs.
Proof. intros H. eapply Forall_impl; [exact H|]. unfold in_range_of. simpl. lia. Qed.

Lemma computeReplacements_spec lines path chunks :
  rspec (fun rs => exists rs0, rs = sortStable rs0 /\ Forall2 (realises lines) chunks rs0
           /\ Forall (in_range_of (length lines)) rs /\ starts_sorted rs
           /\ (plain_chunks lines chunks -> disjoint_sorted rs))
        is_compute_error (computeReplacements lines path chunks).
Proof.
  unfold computeReplacements. eapply rspec_bind; [apply computeLoop_spec; lia|].
  intros rs0 (Hreal & Hin & Hord). exists rs0. split_and!; [done|done| |apply sortStable_sorted|].
  - eapply Permutation_Forall; [symmetry; apply sortStable_perm|done].
  - intros Hp. destruct (Hord Hp) as [_ Ho]. by apply (sortStable_disjoint (length lines)).
Qed.

(** Join lines back into a text, with a final newline. *)
Definition finish (lines : list gostring) : gostring :=
  join [nl] (if ends_empty lines then lines else lines ++ [[]]).

Lemma finish_newline lines : finish lines = [] \/ last (finish lines) = Some nl.
Proof.
  assert (forall ls, join [nl] (ls ++ [[]]) = [] \/ last (join [nl] (ls ++ [[]])) = Some nl) as H.
  { intros ls. destruct ls as [|l ls]; [by left|]. right.
    rewrite join_snoc by done. by rewrite app_nil_r, last_snoc. }
  unfold finish. unfold ends_empty. case_bool_decide as Hl; [|apply H].
  rewrite (last_snoc_inv _ _ Hl). apply H.
Qed.

Lemma newLines_return original rs0 :
  Forall (in_range_of (length (originalLinesOf original))) (sortStable rs0) ->
  exists out, applyReplacements (originalLinesOf original) (sortStable rs0) = Some out.
Proof.
  intros Hin.
  destruct (applyReplacements_returns (originalLinesOf original) (sortStable rs0)) as (out & E & _);
    [apply sortStable_sorted|by apply in_range_start|by exists out].
Qed.

Lemma newContentsOf_total path original chunks : newContentsOf path original chunks <> Panic.
Proof.
  unfold newContentsOf.
  pose proof (computeReplacements_spec (originalLinesOf original) path chunks) as H.
  destruct (computeReplacements _ _ _) as [rs| |]; [|done..].
  destruct H as (rs0 & -> & _ & Hin & _). simpl.
  by destruct (newLines_return original rs0 Hin) as [out ->].
Qed.

(** computing the new contents of a file always returns: every index is in
    range, the only errors are chunks that cannot be located, and a result is
    empty or ends in a newline. *)
Theorem newContentsOf_returns path original chunks :
  rspec (fun new => new = [] \/ last new = Some nl) is_compute_error
        (newContentsOf path original chunks).
Proof.
  unfold newContentsOf. eapply rspec_bind; [apply computeReplacements_spec|].
  intros rs (rs0 & -> & _ & Hin & Hs & _).
  destruct (newLines_return original rs0 Hin) as [out ->].
  apply (finish_newline out).
Qed.

(** C3: when no two edits can overlap, the new contents are the original lines
    with each chunk's block, and nothing else, replaced by the chunk's new
    lines. *)
Theorem newContentsOf_edits path original chunks :
  let lines := originalLinesOf original in
  plain_chunks lines chunks ->
  rspec (fun new => exists rs0, Forall2 (realises lines) chunks rs0
           /\ new = finish (splice 0 lines (sortStable rs0)))
        is_compute_error (newContentsOf path original chunks).
Proof.
  intros lines Hp. unfold newContentsOf. fold lines.
  eapply rspec_bind; [apply computeReplacements_spec|].
  intros rs (rs0 & -> & Hreal & Hin & _ & Hd).
  rewrite applyReplacements_splice_from by auto. exists rs0. split; done.
Qed.

Lemma newContentsOf_edits_witness :
  exists new rs0,
    newContentsOf "f" ("a" ++ [nl] ++ str "b") [mkChunk None [str "b"] [str "c"] false] = Ok new
    /\ new = finish (splice 0 [str "a"; str "b"] (sortStable rs0)).
Proof.
  pose proof (newContentsOf_edits "f" ("a" ++ [nl] ++ str "b") [mkChunk None [str "b"] [str "c"] false])
    as H.
  assert (plain_chunks (originalLinesOf ("a" ++ [nl] ++ str "b")) [mkChunk None [str "b"] [str "c"] false])
    as Hp by (repeat constructor; by left).
  specialize (H Hp). destruct (newContentsOf _ _ _) as [new| |] eqn:E; [|vm_compute in E; discriminate..].
  destruct H as (rs0 & _ & ->). exists (finish (splice 0 [str "a"; str "b"] (sortStable rs0))), rs0.
  split; [done|reflexivity].
Defined.

End Seek.
