(* ===== verification/ApplyPatchApply.v ===== *)
(** * internal/applypatch: applying hunks to a file system

    [filesystem.go], [apply_types.go] and [apply.go].  The interface
    [FileSystem] is a class over a state type; [FileSystemLaws] states what the
    apply logic relies on, in terms of the texts the reads return.  The output
    writers are parameters: a write may fail. *)

From S2P Require Import Prelude GoStrings AbsPath ApplyPatchParser ApplyPatchSeek.
Import Parser Seek.

Module Apply.

(** ** filesystem.go *)

Record FileMetadata := mkMetadata {
  IsFile : bool;
  IsDirectory : bool;
  IsSymlink : bool
}.

(** A file system error; [isNotFound] is the [errors.Is] test of the code. *)
Record FsError := mkFsError { isNotFound : bool; fsMessage : gostring }.

(** Mutating operations return the new state even when they fail. *)
Class FileSystem (FS : Type) := {
  ReadFileText : FS -> gostring -> result FsError gostring;
  WriteFile : FS -> gostring -> gostring -> FS * option FsError;
  Remove : FS -> gostring -> FS * option FsError;
  Metadata : FS -> gostring -> result FsError FileMetadata;
  CreateDirAll : FS -> gostring -> FS * option FsError
}.

(** The text of the file at [p], if it can be read. *)
Definition text {FS : Type} `{FileSystem FS} (fs : FS) (p : gostring) : option gostring :=
  match ReadFileText fs p with Ok c => Some c | _ => None end.

(** What a call at [p] may touch: no other path's text. *)
Definition only_at {FS : Type} `{FileSystem FS} (p : gostring) (fs fs' : FS) : Prop :=
  forall q, q <> p -> text fs' q = text fs q.

Class FileSystemLaws (FS : Type) `{FileSystem FS} := {
  read_returns fs p : ReadFileText fs p <> Panic;
  metadata_returns fs p : Metadata fs p <> Panic;
  write_only_at fs p c : only_at p fs (WriteFile fs p c).1;
  write_text fs p c : (WriteFile fs p c).2 = None -> text (WriteFile fs p c).1 p = Some c;
  remove_only_at fs p : only_at p fs (Remove fs p).1;
  remove_text fs p : (Remove fs p).2 = None -> text (Remove fs p).1 p = None;
  remove_failed fs p :
    text (Remove fs p).1 p = text fs p \/ text (Remove fs p).1 p = None;
  mkdir_text fs p q : text (CreateDirAll fs p).1 q = text fs q
}.

(** [filepath.Dir] of a Unix path: clean the part up to the last separator. *)
Definition filepath_dir (path : gostring) : gostring :=
  let upto :=
    match list_find (fun c => c = AbsPath.slash) (rev path) with
    | Some (i, _) => take (length path - i) path
    | None => []
    end in
  AbsPath.normalizePath false upto.

Definition parentDir (path : gostring) : option gostring :=
  let dir := filepath_dir path in
  if decide (dir = path \/ dir = []) then None else Some dir.

(** ** apply_types.go *)

Inductive AppliedPatchFileChange :=
| AppliedAdd (Content : gostring) (OverwrittenContent : option gostring)
| AppliedDelete (Content : gostring)
| AppliedUpdate (MovePath : option gostring) (OldContent : gostring)
    (OverwrittenMoveContent : option gostring) (NewContent : gostring).

Record AppliedPatchChange := mkChange {
  ChangePath : gostring;
  Change : AppliedPatchFileChange
}.

Record AppliedPatchDelta := mkDelta {
  changes : list AppliedPatchChange;
  exact : bool
}.

Definition emptyAppliedPatchDelta : AppliedPatchDelta := mkDelta [] true.

(** [AppliedPatchDelta.append] *)
Definition appendDelta (d other : AppliedPatchDelta) : AppliedPatchDelta :=
  mkDelta (changes d ++ changes other) (exact d && exact other).

Record AffectedPaths := mkAffected {
  Added : list gostring;
  Modified : list gostring;
  Deleted : list gostring
}.

Record ApplyFailure := mkFailure {
  FailureErr : ApplyError;
  FailureDelta : AppliedPatchDelta
}.

(** [error.Error] of the errors of the package. *)
Definition errorString (e : ApplyError) : gostring :=
  match e with
  | ComputeReplacementsError msg | PlainError msg => msg
  | IOError ctx err => ctx ++ str ": " ++ err
  end.

(** ** apply.go *)

Section Apply.
Context {FS : Type} `{FileSystem FS}.

(** The environment of [abspath]: Unix, with the user's home directory. *)
Variable homeDir : option gostring.
Variable cwd : gostring.

Definition ResolvePath (h : Hunk) : gostring :=
  AbsPath.ResolvePathAgainstBase false homeDir
    (match h with HunkUpdateFile p _ _ => p | _ => TargetPath h end) cwd.

Definition ResolveMove (dest : gostring) : gostring :=
  AbsPath.ResolvePathAgainstBase false homeDir dest cwd.

(** [fmt.Errorf("...: %w", err)] over a file system error. *)
Definition wrapped (context path : gostring) (msg : gostring) : ApplyError :=
  PlainError (context ++ path ++ str ": " ++ msg).

(** [ensureNotDirectory] *)
Definition ensureNotDirectory (path : gostring) (fs : FS) : option gostring :=
  match Metadata fs path with
  | Err e => Some (fsMessage e)
  | Ok meta => if IsDirectory meta then Some (str "path is a directory") else None
  | Panic => None
  end.

Definition readFileTextOK (path : gostring) (fs : FS) : option gostring := text fs path.

Definition removeFailureWasSideEffectFree (path : gostring) (expected : option gostring) (fs : FS) : bool :=
  match expected with
  | None => false
  | Some expected =>
      match ReadFileText fs path with Ok content => bool_decide (content = expected) | _ => false end
  end.

(** Returns the new value of [*exact]. *)
Definition noteExistingPathDeltaSupport (path : gostring) (fs : FS) (exact : bool) : bool :=
  match Metadata fs path with
  | Ok meta => if IsFile meta && negb (IsSymlink meta) then exact else false
  | Err e => if isNotFound e then exact else false
  | Panic => false
  end.

Definition readOptionalFileTextForDelta (path : gostring) (fs : FS) (exact : bool)
    : option gostring * bool :=
  let exact := noteExistingPathDeltaSupport path fs exact in
  match ReadFileText fs path with
  | Ok content => (Some content, exact)
  | Err e => if isNotFound e then (None, exact) else (None, false)
  | Panic => (None, false)
  end.

Definition writeFileWithMissingParentRetry (fs : FS) (pathAbs contents : gostring)
    : FS * option ApplyError :=
  let '(fs, err) := WriteFile fs pathAbs contents in
  match err with
  | None => (fs, None)
  | Some e =>
      if isNotFound e then
        let '(fs, mkErr) :=
          match parentDir pathAbs with
          | Some parent => CreateDirAll fs parent
          | None => (fs, None)
          end in
        match mkErr with
        | Some e => (fs, Some (wrapped "Failed to create parent directories for " pathAbs (fsMessage e)))
        | None =>
            let '(fs, werr) := WriteFile fs pathAbs contents in
            (fs, (fun e => wrapped "Failed to write file " pathAbs (fsMessage e)) <$> werr)
        end
      else (fs, Some (wrapped "Failed to write file " pathAbs (fsMessage e)))
  end.

(** [deriveNewContentsFromChunks]: the original and the new contents. *)
Definition deriveNewContentsFromChunks (pathAbs : gostring) (chunks : list UpdateFileChunk) (fs : FS)
    : result ApplyError (gostring * gostring) :=
  match ReadFileText fs pathAbs with
  | Err e => Err (IOError ("Failed to read file to update " ++ pathAbs) (fsMessage e))
  | Panic => Panic
  | Ok original =>
      new ← newContentsOf pathAbs original chunks;
      Ok (original, new)
  end.

(** The outcome of one hunk: the file system, the delta, and an error if the
    hunk failed. *)
Record Step := mkStep {
  stepFs : FS;
  stepDelta : AppliedPatchDelta;
  stepErr : option ApplyError
}.

Definition applyAdd (pathAbs contents : gostring) (fs : FS) (d : AppliedPatchDelta) : Step :=
  let '(overwritten, ex) := readOptionalFileTextForDelta pathAbs fs (exact d) in
  let '(fs, err) := writeFileWithMissingParentRetry fs pathAbs contents in
  match err with
  | Some e => mkStep fs (mkDelta (changes d) false) (Some e)
  | None =>
      mkStep fs (mkDelta (changes d ++ [mkChange pathAbs (AppliedAdd contents overwritten)]) ex) None
  end.

Definition applyDelete (pathAbs : gostring) (fs : FS) (d : AppliedPatchDelta) : Step :=
  let ex := noteExistingPathDeltaSupport pathAbs fs (exact d) in
  let deletedContent := readFileTextOK pathAbs fs in
  let ex := if deletedContent is Some _ then ex else false in
  match ensureNotDirectory pathAbs fs with
  | Some msg =>
      mkStep fs (mkDelta (changes d) ex) (Some (wrapped "Failed to delete file " pathAbs msg))
  | None =>
      let '(fs, err) := Remove fs pathAbs in
      match err with
      | Some e =>
          mkStep fs
            (mkDelta (changes d) (ex && removeFailureWasSideEffectFree pathAbs deletedContent fs))
            (Some (wrapped "Failed to delete file " pathAbs (fsMessage e)))
      | None =>
          mkStep fs
            (mkDelta (changes d ++ match deletedContent with
                                   | Some c => [mkChange pathAbs (AppliedDelete c)]
                                   | None => []
                                   end) ex) None
      end
  end.

Definition applyMove (pathAbs destAbs original new : gostring) (fs : FS) (ex : bool)
    (cs : list AppliedPatchChange) : Step :=
  let '(overwrittenMove, ex) := readOptionalFileTextForDelta destAbs fs ex in
  let '(fs, err) := writeFileWithMissingParentRetry fs destAbs new in
  match err with
  | Some e => mkStep fs (mkDelta cs false) (Some e)
  | None =>
      let written := cs ++ [mkChange destAbs (AppliedAdd new overwrittenMove)] in
      match ensureNotDirectory pathAbs fs with
      | Some msg =>
          mkStep fs (mkDelta written ex) (Some (wrapped "Failed to remove original " pathAbs msg))
      | None =>
          let '(fs, err) := Remove fs pathAbs in
          match err with
          | Some e =>
              mkStep fs
                (mkDelta written (ex && removeFailureWasSideEffectFree pathAbs (Some original) fs))
                (Some (wrapped "Failed to remove original " pathAbs (fsMessage e)))
          | None =>
              mkStep fs
                (mkDelta (cs ++ [mkChange pathAbs
                           (AppliedUpdate (Some destAbs) original overwrittenMove new)]) ex) None
          end
      end
  end.

Definition applyUpdate (pathAbs : gostring) (movePath : option gostring)
    (chunks : list UpdateFileChunk) (fs : FS) (d : AppliedPatchDelta) : option Step :=
  let ex := noteExistingPathDeltaSupport pathAbs fs (exact d) in
  match deriveNewContentsFromChunks pathAbs chunks fs with
  | Panic => None
  | Err e => Some (mkStep fs (mkDelta (changes d) ex) (Some e))
  | Ok (original, new) =>
      match movePath with
      | Some dest => Some (applyMove pathAbs (ResolveMove dest) original new fs ex (changes d))
      | None =>
          let '(fs, err) := WriteFile fs pathAbs new in
          match err with
          | Some e =>
              Some (mkStep fs (mkDelta (changes d) false)
                      (Some (wrapped "Failed to write file " pathAbs (fsMessage e))))
          | None =>
              Some (mkStep fs
                      (mkDelta (changes d ++ [mkChange pathAbs (AppliedUpdate None original None new)]) ex)
                      None)
          end
      end
  end.

Definition applyHunk (h : Hunk) (fs : FS) (d : AppliedPatchDelta) : option Step :=
  let pathAbs := ResolvePath h in
  match h with
  | HunkAddFile _ contents => Some (applyAdd pathAbs contents fs d)
  | HunkDeleteFile _ => Some (applyDelete pathAbs fs d)
  | HunkUpdateFile _ move chunks => applyUpdate pathAbs move chunks fs d
  end.

Definition noteAffected (h : Hunk) (a : AffectedPaths) : AffectedPaths :=
  match h with
  | HunkAddFile _ _ => mkAffected (Added a ++ [TargetPath h]) (Modified a) (Deleted a)
  | HunkDeleteFile _ => mkAffected (Added a) (Modified a) (Deleted a ++ [TargetPath h])
  | HunkUpdateFile _ _ _ => mkAffected (Added a) (Modified a ++ [TargetPath h]) (Deleted a)
  end.

(** The hunk loop of [applyHunksToFiles]: [None] is a panic. *)
Fixpoint applyLoop (hunks : list Hunk) (fs : FS) (d : AppliedPatchDelta) (a : AffectedPaths)
    : option (FS * AppliedPatchDelta * (AffectedPaths + ApplyError)) :=
  match hunks with
  | [] => Some (fs, d, inl a)
  | h :: hunks =>
      match applyHunk h fs d with
      | None => None
      | Some (mkStep fs d (Some e)) => Some (fs, d, inr e)
      | Some (mkStep fs d None) => applyLoop hunks fs d (noteAffected h a)
      end
  end.

Definition applyHunksToFiles (hunks : list Hunk) (fs : FS) (d : AppliedPatchDelta)
    : option (FS * AppliedPatchDelta * (AffectedPaths + ApplyError)) :=
  if decide (hunks = []) then Some (fs, d, inr (PlainError "No files were modified."))
  else applyLoop hunks fs d (mkAffected [] [] []).

(** *** Output *)

Context {W : Type}.
Variable write : W -> gostring -> W * option gostring.

Definition wrapIOError (err : gostring) : ApplyError := IOError "I/O error" err.

Fixpoint writeAll (w : W) (parts : list gostring) : W * option gostring :=
  match parts with
  | [] => (w, None)
  | p :: parts =>
      let '(w, err) := write w p in
      match err with Some e => (w, Some e) | None => writeAll w parts end
  end.

Definition summaryLine (mark : string) (path : gostring) : gostring := str mark ++ path ++ [nl].

Definition PrintSummary (affected : AffectedPaths) (out : W) : W * option gostring :=
  writeAll out
    (("Success. Updated the following files:" ++ [nl])
     :: map (summaryLine "A ") (Added affected) ++ map (summaryLine "M ") (Modified affected)
     ++ map (summaryLine "D ") (Deleted affected)).

(** The value of a call: the delta, or the failure. *)
Definition ApplyHunks (hunks : list Hunk) (stdout stderr : W) (fs : FS)
    : option (FS * W * W * result ApplyFailure AppliedPatchDelta) :=
  match applyHunksToFiles hunks fs emptyAppliedPatchDelta with
  | None => None
  | Some (fs, delta, inl affected) =>
      let '(stdout, err) := PrintSummary affected stdout in
      Some (fs, stdout, stderr,
            match err with
            | Some e => Err (mkFailure (wrapIOError e) delta)
            | None => Ok delta
            end)
  | Some (fs, delta, inr applyErr) =>
      let '(stderr, werr) := write stderr (errorString applyErr ++ [nl]) in
      Some (fs, stdout, stderr,
            Err (mkFailure (match werr with Some e => wrapIOError e | None => applyErr end) delta))
  end.

Definition parseErrorReport (e : ParseError) : gostring :=
  match e with
  | InvalidHunk msg n => "Invalid patch hunk on line " ++ format_int (Z.of_nat n) ++ str ": " ++ msg ++ [nl]
  | InvalidPatch msg => "Invalid patch: " ++ msg ++ [nl]
  end.

Definition ApplyPatch (patch : gostring) (stdout stderr : W) (fs : FS)
    : option (FS * W * W * result ApplyFailure AppliedPatchDelta) :=
  match ParsePatch patch with
  | Panic => None
  | Err e =>
      let '(stderr, werr) := write stderr (parseErrorReport e) in
      Some (fs, stdout, stderr,
            Err (mkFailure (match werr with
                            | Some e => wrapIOError e
                            | None => PlainError (parse_error_string e)
                            end) emptyAppliedPatchDelta))
  | Ok result => ApplyHunks (Hunks result) stdout stderr fs
  end.

End Apply.

(** ** Texts as maps, and what a delta says about them *)

Abbreviation texts := (gostring -> option gostring).

Definition put (p : gostring) (v : option gostring) (m : texts) : texts :=
  fun q => if decide (q = p) then v else m q.

(** Two text maps are equal when they agree everywhere. *)
#[export] Instance texts_equiv : Equiv texts := fun m1 m2 => forall q, m1 q = m2 q.
#[export] Instance texts_equivalence : Equivalence (≡@{texts}).
Proof.
  split; [by intros m q|by intros m1 m2 E q|].
  intros m1 m2 m3 E1 E2 q. by rewrite E1, E2.
Qed.
#[export] Instance put_proper p v : Proper ((≡@{texts}) ==> (≡@{texts})) (put p v).
Proof. intros m1 m2 E q. unfold put. case_decide; [done|apply E]. Qed.

Definition replay1 (m : texts) (c : AppliedPatchChange) : texts :=
  match Change c with
  | AppliedAdd content _ => put (ChangePath c) (Some content) m
  | AppliedDelete _ => put (ChangePath c) None m
  | AppliedUpdate None _ _ new => put (ChangePath c) (Some new) m
  | AppliedUpdate (Some dest) _ _ new => put (ChangePath c) None (put dest (Some new) m)
  end.

Definition revert1 (c : AppliedPatchChange) (m : texts) : texts :=
  match Change c with
  | AppliedAdd _ overwritten => put (ChangePath c) overwritten m
  | AppliedDelete content => put (ChangePath c) (Some content) m
  | AppliedUpdate None old _ _ => put (ChangePath c) (Some old) m
  | AppliedUpdate (Some dest) old overwritten _ =>
      put (ChangePath c) (Some old) (put dest overwritten m)
  end.

(** Redo the changes in order; undo them from the last to the first. *)
Definition replay (cs : list AppliedPatchChange) (m : texts) : texts := fold_left replay1 cs m.
Definition revert (cs : list AppliedPatchChange) (m : texts) : texts := fold_right revert1 m cs.

#[export] Instance replay1_proper : Proper ((≡@{texts}) ==> (=) ==> (≡@{texts})) replay1.
Proof. intros m1 m2 E c ? <-. unfold replay1. repeat case_match; by rewrite E. Qed.
#[export] Instance revert1_proper c : Proper ((≡@{texts}) ==> (≡@{texts})) (revert1 c).
Proof. intros m1 m2 E. unfold revert1. repeat case_match; by rewrite E. Qed.
#[export] Instance replay_proper cs : Proper ((≡@{texts}) ==> (≡@{texts})) (replay cs).
Proof.
  unfold replay. induction cs as [|c cs IH]; intros m1 m2 E; [done|]. simpl. apply IH. by rewrite E.
Qed.
#[export] Instance revert_proper cs : Proper ((≡@{texts}) ==> (≡@{texts})) (revert cs).
Proof.
  unfold revert. induction cs as [|c cs IH]; intros m1 m2 E; [done|]. simpl.
  by apply revert1_proper, IH.
Qed.

(** The changes [cs] account for the step from [m] to [m']: redoing them gives
    [m'], undoing them gives [m] back. *)
Definition accounts (cs : list AppliedPatchChange) (m m' : texts) : Prop :=
  m' ≡ replay cs m /\ m ≡ revert cs m'.

Lemma accounts_nil m m' : m' ≡ m -> accounts [] m m'.
Proof. intros E. split; [exact E|by symmetry]. Qed.

Lemma accounts_app cs1 cs2 m1 m2 m3 :
  accounts cs1 m1 m2 -> accounts cs2 m2 m3 -> accounts (cs1 ++ cs2) m1 m3.
Proof.
  intros [E1 R1] [E2 R2]. unfold accounts, replay, revert in *.
  rewrite fold_left_app, fold_right_app. split.
  - rewrite E2. apply (replay_proper cs2), E1.
  - rewrite R1. apply (revert_proper cs1), R2.
Qed.

Lemma accounts_put p v overwritten c m m' :
  m' ≡ put p v m -> m p = overwritten ->
  replay1 m c = put p v m -> (forall x, revert1 c x = put p overwritten x) ->
  accounts [c] m m'.
Proof.
  intros E Ho Hr Hv. split; [unfold replay; simpl; by rewrite Hr|].
  unfold revert. simpl. rewrite Hv. intros q. unfold put. case_decide as Hq; [by subst|].
  rewrite (E q). unfold put. by rewrite decide_False.
Qed.

Section Laws.
Context {FS : Type} `{FileSystemLaws FS}.
Variable homeDir : option gostring.
Variable cwd : gostring.

Lemma write_put fs p c fs' :
  WriteFile fs p c = (fs', None) -> text fs' ≡ put p (Some c) (text fs).
Proof.
  intros E q. pose proof (write_text fs p c) as Ht. pose proof (write_only_at fs p c) as Ho.
  rewrite E in Ht, Ho. unfold put. case_decide; [subst; by apply Ht|by apply Ho].
Qed.

Lemma remove_put fs p fs' : Remove fs p = (fs', None) -> text fs' ≡ put p None (text fs).
Proof.
  intros E q. pose proof (remove_text fs p) as Ht. pose proof (remove_only_at fs p) as Ho.
  rewrite E in Ht, Ho. unfold put. case_decide; [subst; by apply Ht|by apply Ho].
Qed.

Lemma only_at_trans p (fs1 fs2 fs3 : FS) : only_at p fs1 fs2 -> only_at p fs2 fs3 -> only_at p fs1 fs3.
Proof. intros H12 H23 q Hq. by rewrite H23, H12. Qed.

Lemma retry_put fs p c fs' err :
  writeFileWithMissingParentRetry fs p c = (fs', err) ->
  only_at p fs fs' /\ (err = None -> text fs' ≡ put p (Some c) (text fs)).
Proof.
  unfold writeFileWithMissingParentRetry.
  pose proof (write_only_at fs p c) as Ho1. pose proof (write_put fs p c) as Hp1.
  destruct (WriteFile fs p c) as [fs1 err1]. simpl in Ho1.
  destruct err1 as [e1|]; [|intros [= <- <-]; split; [done|intros _; by apply Hp1]].
  destruct (isNotFound e1); [|intros [= <- <-]; split; [done|discriminate]].
  assert (forall fs2 mkErr, match parentDir p with Some parent => CreateDirAll fs1 parent
    | None => (fs1, None) end = (fs2, mkErr) -> forall q, text fs2 q = text fs1 q) as Hmk.
  { intros fs2 mkErr E q. destruct (parentDir p) as [parent|]; [|by simplify_eq].
    pose proof (mkdir_text fs1 parent q) as Hq. by rewrite E in Hq. }
  destruct (match parentDir p with Some parent => _ | None => _ end) as [fs2 mkErr] eqn:Emk.
  specialize (Hmk fs2 mkErr eq_refl).
  assert (only_at p fs fs2) as Ho2 by (intros q Hq; rewrite Hmk; by apply Ho1).
  destruct mkErr as [e2|]; [intros [= <- <-]; split; [done|discriminate]|].
  pose proof (write_only_at fs2 p c) as Ho3. pose proof (write_put fs2 p c) as Hp3.
  destruct (WriteFile fs2 p c) as [fs3 err3]. simpl in Ho3.
  intros [= <- <-]. split; [by eapply only_at_trans|].
  intros Herr. destruct err3; [discriminate|]. intros q. rewrite (Hp3 fs3 eq_refl q).
  unfold put. case_decide as Hq; [done|]. by rewrite Ho2.
Qed.

Lemma note_exact p (fs : FS) ex : noteExistingPathDeltaSupport p fs ex = true -> ex = true.
Proof. unfold noteExistingPathDeltaSupport. repeat case_match; done. Qed.

Lemma readOptional_exact p (fs : FS) ex ow ex' :
  readOptionalFileTextForDelta p fs ex = (ow, ex') -> ex' = true -> ow = text fs p /\ ex = true.
Proof.
  unfold readOptionalFileTextForDelta, text. intros E Hex.
  destruct (ReadFileText fs p) as [c|e|]; [| |simplify_eq].
  - simplify_eq. split; [done|by eapply note_exact].
  - destruct (isNotFound e); simplify_eq. split; [done|by eapply note_exact].
Qed.

(** The delta of a step, when exact, extends an exact delta by changes that
    account for the step. *)
Definition step_accounts (fs : FS) (d : AppliedPatchDelta) (st : Step) : Prop :=
  exact (stepDelta st) = true ->
  exact d = true /\ exists cs, changes (stepDelta st) = changes d ++ cs
    /\ accounts cs (text fs) (text (stepFs st)).

Lemma step_accounts_same fs d fs' ex err :
  (ex = true -> exact d = true /\ text fs' ≡ text fs) ->
  step_accounts fs d (mkStep fs' (mkDelta (changes d) ex) err).
Proof.
  intros Hex He. destruct (Hex He) as [Hd Ht]. split; [done|].
  exists []. rewrite app_nil_r. split; [done|by apply accounts_nil].
Qed.

Lemma applyAdd_accounts p c fs d : step_accounts fs d (applyAdd p c fs d).
Proof.
  unfold applyAdd. destruct (readOptionalFileTextForDelta p fs (exact d)) as [ow ex] eqn:Er.
  destruct (writeFileWithMissingParentRetry fs p c) as [fs' err] eqn:Ew.
  apply retry_put in Ew as [_ Hw].
  destruct err as [e|]; [by apply step_accounts_same|].
  intros He. simpl in He. destruct (readOptional_exact _ _ _ _ _ Er He) as [-> Hd].
  split; [done|]. eexists. split; [done|].
  eapply accounts_put; [by apply Hw|done|done|done].
Qed.

Lemma side_effect_free_text p expected (fs : FS) :
  removeFailureWasSideEffectFree p expected fs = true -> text fs p = expected /\ is_Some expected.
Proof.
  unfold removeFailureWasSideEffectFree, text. destruct expected as [x|]; [|done].
  destruct (ReadFileText fs p); [|done..]. intros Hb. breflect. subst. by split.
Qed.

Lemma applyDelete_accounts p fs d : step_accounts fs d (applyDelete p fs d).
Proof.
  unfold applyDelete, readFileTextOK.
  set (ex := if text fs p is Some _ then _ else false).
  assert (ex = true -> exact d = true /\ is_Some (text fs p)) as Hex.
  { subst ex. destruct (text fs p); [|done]. intros E. split; [by eapply note_exact|done]. }
  destruct (ensureNotDirectory p fs) as [msg|].
  { apply step_accounts_same. intros E. split; [by apply Hex|done]. }
  pose proof (remove_only_at fs p) as Ho.
  destruct (Remove fs p) as [fs' err] eqn:Er. simpl in Ho. destruct err as [e|].
  - apply step_accounts_same. intros [Ee Hs]%andb_true_iff.
    split; [by apply Hex|]. apply side_effect_free_text in Hs as [Hs _].
    intros q. destruct (decide (q = p)) as [->|]; [done|by apply Ho].
  - intros He. simpl in He. destruct (Hex He) as [Hd [c Hc]]. split; [done|].
    simpl. rewrite Hc. eexists. split; [done|].
    eapply accounts_put; [by apply remove_put|by symmetry|done|done].
Qed.

Lemma applyMove_accounts p dest old new fs ex0 d :
  text fs p = Some old -> (ex0 = true -> exact d = true) ->
  step_accounts fs d (applyMove p dest old new fs ex0 (changes d)).
Proof.
  intros Hold Hex0. unfold applyMove.
  destruct (readOptionalFileTextForDelta dest fs ex0) as [ow ex] eqn:Er.
  destruct (writeFileWithMissingParentRetry fs dest new) as [fs1 err] eqn:Ew.
  apply retry_put in Ew as [_ Hw]. destruct err as [e|]; [by apply step_accounts_same|].
  specialize (Hw eq_refl).
  assert (ex = true -> exact d = true /\ ow = text fs dest) as Hex.
  { intros E. destruct (readOptional_exact _ _ _ _ _ Er E) as [-> E0]. auto. }
  assert (forall fs2, ex = true -> text fs2 ≡ put dest (Some new) (text fs) ->
    exact d = true /\ exists cs, changes d ++ [mkChange dest (AppliedAdd new ow)] = changes d ++ cs
      /\ accounts cs (text fs) (text fs2)) as Hadd.
  { intros fs2 E Ht. destruct (Hex E) as [Hd Ho]. split; [done|]. eexists. split; [done|].
    eapply accounts_put; [exact Ht|by symmetry|done|done]. }
  destruct (ensureNotDirectory p fs1) as [msg|]; [intros E; by apply Hadd|].
  pose proof (remove_only_at fs1 p) as Ho. pose proof (remove_failed fs1 p) as Hf.
  destruct (Remove fs1 p) as [fs2 err] eqn:Erm. simpl in Ho, Hf. destruct err as [e|].
  - intros E. cbn [stepDelta exact] in E. apply andb_true_iff in E as [E Hs].
    apply side_effect_free_text in Hs as [Hs _]. apply Hadd; [done|].
    intros q. destruct (decide (q = p)) as [->|Hq]; [|rewrite <- (Hw q); by apply Ho].
    destruct Hf as [Hf|Hf]; [exact (eq_trans Hf (Hw p))|congruence].
  - intros E. simpl in E. destruct (Hex E) as [Hd Hdest]. split; [done|]. eexists. split; [done|].
    assert (text fs2 ≡ put p None (put dest (Some new) (text fs))) as Ht.
    { rewrite (remove_put fs1 p fs2 Erm). by rewrite Hw. }
    split; [exact Ht|]. unfold revert. simpl. unfold revert1. simpl. intros q.
    specialize (Ht q). unfold put in *. repeat case_decide; subst; congruence.
Qed.

Lemma applyUpdate_accounts p move chunks fs d st :
  applyUpdate homeDir cwd p move chunks fs d = Some st -> step_accounts fs d st.
Proof.
  unfold applyUpdate, deriveNewContentsFromChunks.
  set (ex := noteExistingPathDeltaSupport p fs (exact d)).
  assert (ex = true -> exact d = true) as Hex by apply note_exact.
  destruct (ReadFileText fs p) as [original|e|] eqn:Eread; [| |done].
  2: { intros [= <-]. apply step_accounts_same. auto. }
  destruct (newContentsOf p original chunks) as [new|e|]; simpl; [| |done].
  2: { intros [= <-]. apply step_accounts_same. auto. }
  assert (text fs p = Some original) as Ht by (unfold text; by rewrite Eread).
  destruct move as [dest|]; [intros [= <-]; by apply applyMove_accounts|].
  destruct (WriteFile fs p new) as [fs' err] eqn:Ew.
  destruct err as [e|]; intros [= <-]; [by apply step_accounts_same|].
  intros E. split; [by apply Hex|]. eexists. split; [done|].
  eapply accounts_put; [by eapply write_put|exact Ht|done|done].
Qed.

Lemma applyHunk_accounts h fs d st : applyHunk homeDir cwd h fs d = Some st -> step_accounts fs d st.
Proof.
  destruct h; simpl; [intros [= <-]; apply applyAdd_accounts|intros [= <-]; apply applyDelete_accounts|].
  apply applyUpdate_accounts.
Qed.

Lemma applyLoop_accounts hunks fs d a fs' d' r :
  applyLoop homeDir cwd hunks fs d a = Some (fs', d', r) ->
  exact d' = true ->
  exact d = true /\ exists cs, changes d' = changes d ++ cs /\ accounts cs (text fs) (text fs').
Proof.
  revert fs d a. induction hunks as [|h hunks IH]; intros fs d a E He; simpl in E.
  { simplify_eq. split; [done|]. exists []. rewrite app_nil_r. split; [done|by apply accounts_nil]. }
  destruct (applyHunk homeDir cwd h fs d) as [[fs1 d1 err]|] eqn:Eh; [|done].
  pose proof (applyHunk_accounts h fs d _ Eh) as Hs. unfold step_accounts in Hs. simpl in Hs.
  destruct err as [e|]; [simplify_eq; by apply Hs|].
  destruct (IH _ _ _ E He) as (He1 & cs2 & E2 & H2). destruct (Hs He1) as (Hd & cs1 & E1 & H1).
  split; [done|]. exists (cs1 ++ cs2). rewrite E2, E1, <- app_assoc.
  split; [done|by eapply accounts_app].
Qed.

Definition delta_of (r : result ApplyFailure AppliedPatchDelta) : AppliedPatchDelta :=
  match r with
  | Ok d => d
  | Err f => FailureDelta f
  | Panic => emptyAppliedPatchDelta
  end.

Context {W : Type}.
Variable write : W -> gostring -> W * option gostring.

(** How a call of [ApplyHunks] arises from the hunk loop. *)
Lemma ApplyHunks_inv hunks out err fs fs' out' err' r :
  ApplyHunks homeDir cwd write hunks out err fs = Some (fs', out', err', r) ->
  exists res, applyHunksToFiles homeDir cwd hunks fs emptyAppliedPatchDelta = Some (fs', delta_of r, res)
    /\ match res with
       | inl a => (out', match r with Ok _ => None | Err f => Some (FailureErr f) | Panic => None end)
                  = (let '(w, e) := PrintSummary write a out in (w, wrapIOError <$> e)) /\ err' = err
       | inr e => out' = out /\ is_ok r = false
       end.
Proof.
  unfold ApplyHunks.
  destruct (applyHunksToFiles _ _ _ _ _) as [[[fs1 d1] [a|e]]|]; [| |done].
  - destruct (PrintSummary write a out) as [w [e|]] eqn:Ep; intros [= <- <- <- <-]; exists (inl a);
      simpl; by rewrite Ep.
  - destruct (write err _) as [w we]. intros [= <- <- <- <-]. exists (inr e). done.
Qed.

Lemma applyHunksToFiles_accounts hunks fs fs' d' r :
  applyHunksToFiles homeDir cwd hunks fs emptyAppliedPatchDelta = Some (fs', d', r) ->
  exact d' = true -> accounts (changes d') (text fs) (text fs').
Proof.
  unfold applyHunksToFiles. case_decide.
  - intros [= <- <- <-] _. by apply accounts_nil.
  - intros E He. destruct (applyLoop_accounts _ _ _ _ _ _ _ E He) as (_ & cs & -> & Hc). exact Hc.
Qed.

(** C2: when the delta of a run is exact, whether the run succeeds or fails
    half-way, redoing its changes on the initial texts gives the final ones and
    undoing them on the final texts gives the initial ones. *)
Theorem ApplyHunks_delta_exact hunks out err fs fs' out' err' r :
  ApplyHunks homeDir cwd write hunks out err fs = Some (fs', out', err', r) ->
  exact (delta_of r) = true ->
  text fs' ≡ replay (changes (delta_of r)) (text fs)
  /\ text fs ≡ revert (changes (delta_of r)) (text fs').
Proof.
  intros E He. apply ApplyHunks_inv in E as (res & E & _).
  exact (applyHunksToFiles_accounts _ _ _ _ _ E He).
Qed.

(** *** Frame *)

Definition touched (h : Hunk) : list gostring :=
  ResolvePath homeDir cwd h
  :: match h with HunkUpdateFile _ (Some dest) _ => [ResolveMove homeDir cwd dest] | _ => [] end.

Definition only_in (ps : list gostring) (fs fs' : FS) : Prop :=
  forall q, q ∉ ps -> text fs' q = text fs q.

Lemma only_at_in p ps (fs fs' : FS) : p ∈ ps -> only_at p fs fs' -> only_in ps fs fs'.
Proof. intros Hp Ho q Hq. apply Ho. by intros ->. Qed.

Lemma only_in_trans ps (fs1 fs2 fs3 : FS) : only_in ps fs1 fs2 -> only_in ps fs2 fs3 -> only_in ps fs1 fs3.
Proof. intros H12 H23 q Hq. by rewrite H23, H12. Qed.

Lemma retry_only_at fs p c : only_at p fs (writeFileWithMissingParentRetry fs p c).1.
Proof.
  destruct (writeFileWithMissingParentRetry fs p c) as [fs' err] eqn:E.
  by apply retry_put in E as [? _].
Qed.

Lemma applyMove_only_in p dest old new fs ex cs :
  only_in [p; dest] fs (stepFs (applyMove p dest old new fs ex cs)).
Proof.
  unfold applyMove. destruct (readOptionalFileTextForDelta dest fs ex) as [ow ex'].
  pose proof (retry_only_at fs dest new) as Hw.
  destruct (writeFileWithMissingParentRetry fs dest new) as [fs1 err]. simpl in Hw.
  apply (only_at_in dest [p; dest]) in Hw; [|set_solver].
  destruct err; [done|]. destruct (ensureNotDirectory p fs1); [done|].
  pose proof (remove_only_at fs1 p) as Hr. destruct (Remove fs1 p) as [fs2 err]. simpl in Hr.
  apply (only_at_in p [p; dest]) in Hr; [|set_solver].
  by destruct err; eapply only_in_trans.
Qed.

Lemma applyHunk_only_in h fs d st :
  applyHunk homeDir cwd h fs d = Some st -> only_in (touched h) fs (stepFs st).
Proof.
  unfold touched. destruct h as [p c|p|p move chunks]; cbn [applyHunk].
  - intros [= <-]. unfold applyAdd. destruct (readOptionalFileTextForDelta _ _ _) as [ow ex].
    pose proof (retry_only_at fs (ResolvePath homeDir cwd (HunkAddFile p c)) c) as Hw.
    destruct (writeFileWithMissingParentRetry _ _ _) as [fs' [e|]];
      by eapply only_at_in; [left|].
  - intros [= <-]. unfold applyDelete. destruct (ensureNotDirectory _ _); [done|].
    pose proof (remove_only_at fs (ResolvePath homeDir cwd (HunkDeleteFile p))) as Hr.
    destruct (Remove _ _) as [fs' [e|]]; by eapply only_at_in; [left|].
  - unfold applyUpdate. destruct (deriveNewContentsFromChunks _ _ _) as [[old new]|e|]; [| |done].
    2: { by intros [= <-]. }
    destruct move as [dest|]; [intros [= <-]; apply applyMove_only_in|].
    set (q := ResolvePath homeDir cwd (HunkUpdateFile p None chunks)).
    pose proof (write_only_at fs q new) as Hw.
    destruct (WriteFile fs q new) as [fs' [e|]]; intros [= <-]; by eapply only_at_in; [left|].
Qed.

(** A run changes no text outside the paths its hunks name, source and
    move destination, resolved against the working directory. *)
Theorem ApplyHunks_frame hunks out err fs fs' out' err' r q :
  ApplyHunks homeDir cwd write hunks out err fs = Some (fs', out', err', r) ->
  q ∉ concat (map touched hunks) -> text fs' q = text fs q.
Proof.
  intros E Hq. apply ApplyHunks_inv in E as (res & E & _).
  unfold applyHunksToFiles in E. case_decide; [by simplify_eq|]. clear H1.
  revert fs E. generalize emptyAppliedPatchDelta as d, (mkAffected [] [] []) as a.
  generalize dependent res. revert Hq. induction hunks as [|h hunks IH]; intros Hq res d a fs E.
  { simpl in E. by simplify_eq. }
  simpl in E. cbn [map concat] in Hq. rewrite elem_of_app in Hq.
  destruct (applyHunk homeDir cwd h fs d) as [[fs1 d1 e1]|] eqn:Eh; [|done].
  pose proof (applyHunk_only_in h fs d _ Eh) as Ho. simpl in Ho.
  destruct e1 as [e|]; [simplify_eq; apply Ho; tauto|].
  rewrite (IH ltac:(tauto) _ _ _ _ E). apply Ho. tauto.
Qed.

(** *** Success *)

Lemma deriveNewContents_total p chunks fs : deriveNewContentsFromChunks p chunks fs <> Panic.
Proof.
  unfold deriveNewContentsFromChunks. pose proof (read_returns fs p) as Hr.
  destruct (ReadFileText fs p) as [c|e|]; [|done|done].
  pose proof (newContentsOf_total p c chunks) as Hn. by destruct (newContentsOf p c chunks).
Qed.

Lemma applyHunk_total h fs d : exists st, applyHunk homeDir cwd h fs d = Some st.
Proof.
  destruct h as [p c|p|p move chunks]; simpl; [by eexists..|]. unfold applyUpdate.
  pose proof (deriveNewContents_total (ResolvePath homeDir cwd (HunkUpdateFile p move chunks)) chunks fs).
  destruct (deriveNewContentsFromChunks _ _ _) as [[old new]|e|]; [|by eexists|done].
  destruct move; [by eexists|]. destruct (WriteFile _ _ _) as [? []]; by eexists.
Qed.

(** The affected paths of a list of hunks, by kind and in order. *)
Definition affected_by (hunks : list Hunk) (a : AffectedPaths) : AffectedPaths :=
  fold_left (fun a h => noteAffected h a) hunks a.

Lemma applyLoop_total hunks fs d a :
  exists fs' d' r, applyLoop homeDir cwd hunks fs d a = Some (fs', d', r)
    /\ match r with inl a' => a' = affected_by hunks a | inr _ => True end.
Proof.
  revert fs d a. induction hunks as [|h hunks IH]; intros fs d a; simpl; [by eexists _, _, _|].
  destruct (applyHunk_total h fs d) as [[fs1 d1 [e|]] ->]; [by eexists _, _, _|]. apply IH.
Qed.

(** Applying hunks always returns.  It succeeds only on a non-empty list
    whose every hunk was applied; then the summary names each hunk's path once,
    additions first, then modifications, then deletions. *)
Theorem ApplyHunks_outcome hunks out err fs :
  exists fs' out' err' r,
    ApplyHunks homeDir cwd write hunks out err fs = Some (fs', out', err', r)
    /\ (is_ok r = true -> hunks <> []
        /\ PrintSummary write (affected_by hunks (mkAffected [] [] [])) out = (out', None)
        /\ err' = err).
Proof.
  unfold ApplyHunks, applyHunksToFiles. case_decide as Hh.
  { destruct (write err _) as [w e]. by eexists _, _, _, _. }
  destruct (applyLoop_total hunks fs emptyAppliedPatchDelta (mkAffected [] [] []))
    as (fs' & d' & [a|e] & -> & Ha).
  - subst a. destruct (PrintSummary write _ out) as [w [e|]] eqn:Ep; eexists _, _, _, _;
      (split; [done|]); [done|]. intros _. done.
  - destruct (write err _) as [w we]. by eexists _, _, _, _.
Qed.

End Laws.

(** ** A file system in memory

    The reference instance of the laws: files with their texts, and
    directories.  It distinguishes a missing parent, as [os.WriteFile] does. *)
Record MemFs := mkMemFs {
  files : gmap gostring gostring;
  dirs : gset gostring
}.

Definition not_found : FsError := mkFsError true "no such file or directory".
Definition is_a_directory : FsError := mkFsError false "is a directory".

Definition has_parent (fs : MemFs) (p : gostring) : bool :=
  match parentDir p with Some d => bool_decide (d ∈ dirs fs) | None => true end.

#[export] Instance MemFs_FileSystem : FileSystem MemFs := {
  ReadFileText fs p :=
    match files fs !! p with
    | Some c => Ok c
    | None => Err (if decide (p ∈ dirs fs) then is_a_directory else not_found)
    end;
  WriteFile fs p c :=
    if decide (p ∈ dirs fs) then (fs, Some is_a_directory)
    else if has_parent fs p then (mkMemFs (<[p := c]> (files fs)) (dirs fs), None)
    else (fs, Some not_found);
  Remove fs p :=
    match files fs !! p with
    | Some _ => (mkMemFs (delete p (files fs)) (dirs fs), None)
    | None => (fs, Some not_found)
    end;
  Metadata fs p :=
    match files fs !! p with
    | Some _ => Ok (mkMetadata true false false)
    | None => if decide (p ∈ dirs fs) then Ok (mkMetadata false true false) else Err not_found
    end;
  CreateDirAll fs p :=
    (mkMemFs (files fs) (list_to_set (default [] (AbsPath.Ancestors false p)) ∪ dirs fs), None)
}.

Lemma MemFs_text fs p : text fs p = files fs !! p.
Proof. unfold text. simpl. by destruct (files fs !! p). Qed.

#[export] Instance MemFs_laws : FileSystemLaws MemFs.
Proof.
  split.
  - intros fs p. simpl. by repeat case_match.
  - intros fs p. simpl. by repeat case_match.
  - intros fs p c q Hq. rewrite !MemFs_text. simpl. repeat case_match; simpl; try done.
    by rewrite lookup_insert_ne.
  - intros fs p c. rewrite MemFs_text. simpl. repeat case_match; simpl; try done.
    intros _. apply lookup_insert_eq.
  - intros fs p q Hq. rewrite !MemFs_text. simpl. case_match; simpl; [|done].
    by rewrite lookup_delete_ne.
  - intros fs p. rewrite MemFs_text. simpl. case_match; simpl; [|done].
    intros _. apply lookup_delete_eq.
  - intros fs p. rewrite !MemFs_text. simpl. case_match; simpl; [|by left].
    right. apply lookup_delete_eq.
  - intros fs p q. by rewrite !MemFs_text.
Qed.

(** ** Examples on the in-memory file system *)

(** A writer that keeps its output and never fails. *)
Definition buffer_write (w p : gostring) : gostring * option gostring := (w ++ p, None).

Definition run (hunks : list Hunk) (fs : MemFs) :=
  ApplyHunks None "/w" buffer_write hunks [] [] fs.

Definition demo_fs : MemFs :=
  mkMemFs {[ str "/w/a" := "one" ++ [nl] ; str "/w/b" := "two" ++ [nl] ]} {[ str "/"; str "/w" ]}.
Definition demo_hunks : list Hunk :=
  [ HunkAddFile "d/new" ("n" ++ [nl]); HunkDeleteFile "b";
    HunkUpdateFile "a" (Some (str "c")) [mkChunk None [str "one"] [str "ONE"] false] ].

Example demo_summary :
  match run demo_hunks demo_fs with
  | Some (fs, out, _, Ok d) =>
      out = "Success. Updated the following files:" ++ [nl] ++ "A d/new" ++ [nl] ++ "M c" ++ [nl]
            ++ "D b" ++ [nl]
      /\ exact d = true /\ text fs "/w/d/new" = Some ("n" ++ [nl]) /\ text fs "/w/a" = None
  | _ => False
  end.
Proof. vm_compute. done. Qed.

(** A move onto the file itself writes the new text and then removes it. *)
Example move_onto_itself :
  match run [HunkUpdateFile "a" (Some (str "./a")) [mkChunk None [str "one"] [str "ONE"] false]] demo_fs with
  | Some (fs, _, _, Ok _) => text fs "/w/a" = None
  | _ => False
  end.
Proof. vm_compute. done. Qed.

Lemma ApplyHunks_delta_exact_witness :
  match run demo_hunks demo_fs with
  | Some (fs', _, _, r) => text demo_fs ≡ revert (changes (delta_of r)) (text fs')
  | None => False
  end.
Proof.
  destruct (run demo_hunks demo_fs) as [[[[fs' out'] err'] r]|] eqn:E; [|vm_compute in E; discriminate].
  refine (proj2 (ApplyHunks_delta_exact None "/w" buffer_write demo_hunks [] [] demo_fs fs' out' err' r E _)).
  vm_compute in E. injection E as <- <- <- <-. vm_compute. reflexivity.
Defined.

Lemma ApplyHunks_frame_witness :
  match run [HunkDeleteFile "b"] demo_fs with
  | Some (fs', _, _, _) => text fs' "/w/a" = Some ("one" ++ [nl])
  | None => False
  end.
Proof.
  destruct (run [HunkDeleteFile "b"] demo_fs) as [[[[fs' out'] err'] r]|] eqn:E;
    [|vm_compute in E; discriminate].
  rewrite (ApplyHunks_frame None "/w" buffer_write _ _ _ _ _ _ _ _ "/w/a" E);
    [vm_compute; reflexivity|].
  refine (bool_decide_eq_true_1 _ _). vm_compute. reflexivity.
Defined.

Lemma ApplyHunks_outcome_witness :
  exists fs' out' err' r,
    run demo_hunks demo_fs = Some (fs', out', err', r)
    /\ (is_ok r = true -> demo_hunks <> []
        /\ PrintSummary buffer_write (affected_by demo_hunks (mkAffected [] [] [])) [] = (out', None)
        /\ err' = []).
Proof. exact (ApplyHunks_outcome None "/w" buffer_write demo_hunks [] [] demo_fs). Defined.

End Apply.
