(* ===== verification/ApplyPatchDiff.v ===== *)
(** * internal/applypatch: the unified diff of an update

    [diff.go]: Myers' O(ND) line diff, its backtracking, the grouping into
    hunks and the rendering.  Go's [int]s are integers; array accesses go
    through [zget]/[zset], which yield [None] out of range, so [None] is a
    panic throughout. *)

From S2P Require Import Prelude GoStrings.

Module Diff.

Local Open Scope Z_scope.
#[local] Ltac Zify.zify_post_hook ::= Z.to_euclidean_division_equations.

Inductive opKind := opEqual | opDelete | opInsert.

Record lineOp := mkOp {
  kind : opKind;
  oldIndex : Z;
  newIndex : Z
}.

#[export] Instance opKind_eq_dec : EqDecision opKind.
Proof. solve_decision. Defined.
#[export] Instance lineOp_eq_dec : EqDecision lineOp.
Proof. solve_decision. Defined.

(** Array access at a Go [int]. *)
Definition zget {A} (l : list A) (i : Z) : option A :=
  if decide (0 <= i) then l !! Z.to_nat i else None.
Definition zset {A} (l : list A) (i : Z) (x : A) : option (list A) :=
  if decide (0 <= i < zlen l) then Some (<[Z.to_nat i := x]> l) else None.

(** [splitKeepingEnds] *)
Fixpoint splitKeepingEnds (text : gostring) : list gostring :=
  match text with
  | [] => []
  | c :: rest =>
      if decide (c = nl) then [c] :: splitKeepingEnds rest
      else match splitKeepingEnds rest with
           | l :: ls => (c :: l) :: ls
           | [] => [[c]]
           end
  end.

Section Myers.
Variables a b : list gostring.
Let n := zlen a.
Let m := zlen b.

(** [x < n && y < m && a[x] == b[y]] *)
Definition diagonal (x y : Z) : option bool :=
  if (x <? n) && (y <? m) then
    match zget a x, zget b y with
    | Some l, Some l' => Some (bool_decide (l = l'))
    | _, _ => None
    end
  else Some false.

(** The inner loop: follow the diagonal.  [x] grows up to [n]. *)
Fixpoint snake (fuel : nat) (x y : Z) : option Z :=
  match fuel with
  | O => None
  | S fuel =>
      match diagonal x y with
      | Some true => snake fuel (x + 1) (y + 1)
      | Some false => Some x
      | None => None
      end
  end.

(** [k == -d || (k != d && v[offset+k-1] < v[offset+k+1])] *)
Definition goDown (v : list Z) (offset d k : Z) : option bool :=
  if k =? - d then Some true
  else if k =? d then Some false
  else match zget v (offset + k - 1), zget v (offset + k + 1) with
       | Some l, Some r => Some (l <? r)
       | _, _ => None
       end.

Definition stepStart (v : list Z) (offset d k : Z) : option Z :=
  match goDown v offset d k with
  | Some true => zget v (offset + k + 1)
  | Some false => Z.succ <$> zget v (offset + k - 1)
  | None => None
  end.

(** [for k := -d; k <= d; k += 2]: the new [v], and whether the end was
    reached. *)
Fixpoint roundLoop (steps : nat) (offset d k : Z) (v : list Z) : option (list Z * bool) :=
  match steps with
  | O => Some (v, false)
  | S steps =>
      match stepStart v offset d k with
      | None => None
      | Some x0 =>
          match snake (S (length a)) x0 (x0 - k) with
          | None => None
          | Some x =>
              match zset v (offset + k) x with
              | None => None
              | Some v =>
                  if (n <=? x) && (m <=? x - k) then Some (v, true)
                  else roundLoop steps offset d (k + 2) v
              end
          end
      end
  end.

(** [for d := 0; d <= maxD; d++]: the trace, one snapshot per round. *)
Fixpoint outerLoop (rounds : nat) (offset : Z) (d : nat) (v : list Z) (trace : list (list Z))
    : option (list (list Z)) :=
  match rounds with
  | O => Some trace
  | S rounds =>
      match roundLoop (S d) offset (Z.of_nat d) (- Z.of_nat d) v with
      | None => None
      | Some (v', true) => Some (trace ++ [v])
      | Some (v', false) => outerLoop rounds offset (S d) v' (trace ++ [v])
      end
  end.

(** [for x > prevX && y > prevY]: the equal operations, latest first. *)
Fixpoint backDiagonal (fuel : nat) (x y prevX prevY : Z) (acc : list lineOp)
    : option (list lineOp * Z * Z) :=
  if (prevX <? x) && (prevY <? y) then
    match fuel with
    | O => None
    | S fuel => backDiagonal fuel (x - 1) (y - 1) prevX prevY (acc ++ [mkOp opEqual (x - 1) (y - 1)])
    end
  else Some (acc, x, y).

(** The rounds of [backtrack], from [d] down to one. *)
Fixpoint backRounds (d : nat) (trace : list (list Z)) (offset x y : Z) (acc : list lineOp)
    : option (list lineOp * Z * Z) :=
  match d with
  | O => Some (acc, x, y)
  | S d' =>
      match trace !! d with
      | None => None
      | Some v =>
          let k := x - y in
          match goDown v offset (Z.of_nat d) k with
          | None => None
          | Some down =>
              let prevK := if down then k + 1 else k - 1 in
              match zget v (offset + prevK) with
              | None => None
              | Some prevX =>
                  let prevY := prevX - prevK in
                  match backDiagonal (length a) x y prevX prevY acc with
                  | None => None
                  | Some (acc, x, y) =>
                      let op := if x =? prevX then mkOp opInsert x (y - 1)
                                else mkOp opDelete (x - 1) y in
                      backRounds d' trace offset prevX prevY (acc ++ [op])
                  end
              end
          end
      end
  end.

Definition backtrack (trace : list (list Z)) (offset : Z) : option (list lineOp) :=
  match backRounds (length trace - 1) trace offset n m [] with
  | None => None
  | Some (acc, x, y) =>
      match backDiagonal (length a) x y 0 0 acc with
      | None => None
      | Some (rev_ops, _, _) => Some (rev rev_ops)
      end
  end.

Definition myersLineDiff : option (list lineOp) :=
  let maxD := (length a + length b)%nat in
  if decide (maxD = 0%nat) then Some []
  else
    let offset := Z.of_nat maxD in
    match outerLoop (S maxD) offset 0 (replicate (2 * maxD + 1) 0) [] with
    | None => None
    | Some trace => backtrack trace offset
    end.

End Myers.

(** ** Grouping *)

Definition is_equal_op (op : lineOp) : bool := bool_decide (kind op = opEqual).

(** [flush] *)
Definition flush (groups : list (list lineOp)) (current : list lineOp) : list (list lineOp) :=
  if decide (current = []) then groups else groups ++ [current].

(** The loop of [groupOps]: a run of equal operations at a time. *)
Fixpoint groupLoop (fuel : nat) (context : nat) (ops current : list lineOp)
    (groups : list (list lineOp)) : option (list (list lineOp)) :=
  match ops with
  | [] => Some (flush groups current)
  | op :: rest =>
      match fuel with
      | O => None
      | S fuel =>
          if negb (is_equal_op op) then groupLoop fuel context rest (current ++ [op]) groups
          else
            let run := take_while is_equal_op ops in
            let after := drop (length run) ops in
            let runLen := length run in
            let keep := Nat.min context runLen in
            if decide (current = []) then
              groupLoop fuel context after
                (if decide (after = []) then current else current ++ drop (runLen - keep) run) groups
            else if decide (after = []) then
              groupLoop fuel context after [] (flush groups (current ++ take keep run))
            else if decide (runLen <= 2 * context)%nat then
              groupLoop fuel context after (current ++ run) groups
            else
              groupLoop fuel context after (drop (runLen - context) run)
                (flush groups (current ++ take context run))
      end
  end.

Definition groupOps (ops : list lineOp) (context : nat) : option (list (list lineOp)) :=
  if existsb (fun op => negb (is_equal_op op)) ops
  then groupLoop (length ops) context ops [] []
  else Some [].

(** ** Rendering *)

(** The accumulators of [hunkRanges]: starts are [-1] until set. *)
Record ranges := mkRanges {
  oldStart : Z;
  oldCount : Z;
  newStart : Z;
  newCount : Z
}.

Definition rangeStep (r : ranges) (op : lineOp) : ranges :=
  let '(mkRanges os ol ns nl) := r in
  let os' := if os <? 0 then oldIndex op else os in
  let ns' := if ns <? 0 then newIndex op else ns in
  match kind op with
  | opEqual => mkRanges os' (ol + 1) ns' (nl + 1)
  | opDelete => mkRanges os' (ol + 1) ns nl
  | opInsert => mkRanges os ol ns' (nl + 1)
  end.

Definition hunkRanges (group : list lineOp) : ranges :=
  let '(mkRanges os ol ns nl) := fold_left rangeStep group (mkRanges (-1) 0 (-1) 0) in
  mkRanges (if ol =? 0 then 0 else os + 1) ol (if nl =? 0 then 0 else ns + 1) nl.

Definition formatRange (start length : Z) : gostring :=
  if length =? 1 then format_int start else format_int start ++ str "," ++ format_int length.

Definition writeLine (prefix : ascii) (line : gostring) : gostring :=
  (prefix :: line) ++ (if has_suffix line [nl] then [] else [nl]).

Definition opLine (oldLines newLines : list gostring) (op : lineOp) : option gostring :=
  match kind op with
  | opEqual => writeLine " " <$> zget oldLines (oldIndex op)
  | opDelete => writeLine "-" <$> zget oldLines (oldIndex op)
  | opInsert => writeLine "+" <$> zget newLines (newIndex op)
  end.

Definition writeHunk (group : list lineOp) (oldLines newLines : list gostring) : option gostring :=
  let r := hunkRanges group in
  let header := "@@ -" ++ formatRange (oldStart r) (oldCount r) ++ str " +"
                ++ formatRange (newStart r) (newCount r) ++ str " @@" ++ [nl] in
  lines ← mapM (opLine oldLines newLines) group;
  Some (header ++ concat lines).

Definition unifiedDiff (original updated : gostring) (context : nat) : option gostring :=
  let oldLines := splitKeepingEnds original in
  let newLines := splitKeepingEnds updated in
  ops ← myersLineDiff oldLines newLines;
  groups ← groupOps ops context;
  hunks ← mapM (fun g => writeHunk g oldLines newLines) groups;
  Some (concat hunks).

Example unified_diff_example :
  unifiedDiff "a
b
c
d
" "a
B
c
d
e" 1 = Some (str "@@ -1,4 +1,5 @@
 a
-b
+B
 c
 d
+e
").
Proof. vm_compute. reflexivity. Qed.

(** ** Myers' algorithm: the furthest-reaching points *)

Section MyersSpec.
Variables a b : list gostring.
Notation n := (zlen a).
Notation m := (zlen b).

(** The line at [x] of [a] equals the line at [y] of [b]. *)
Definition matching (x y : Z) : Prop :=
  0 <= x < n /\ 0 <= y < m /\ a !! Z.to_nat x = b !! Z.to_nat y.

#[local] Instance matching_dec x y : Decision (matching x y).
Proof. unfold matching. apply _. Defined.

(** [slide x y x']: the diagonal run from [(x, y)] ends at [x']. *)
Definition slide (x y x' : Z) : Prop :=
  x <= x' /\ (forall i, x <= i < x' -> matching i (y + (i - x))) /\ ~ matching x' (y + (x' - x)).

Lemma zget_Some {A} (l : list A) i : 0 <= i < zlen l -> exists x, zget l i = Some x /\ l !! Z.to_nat i = Some x.
Proof.
  unfold zlen, zget. intros Hi. rewrite decide_True by lia.
  destruct (lookup_lt_is_Some_2 l (Z.to_nat i)) as [x Hx]; [lia|]. by exists x.
Qed.

Lemma diagonal_spec x y : 0 <= x -> 0 <= y -> diagonal a b x y = Some (bool_decide (matching x y)).
Proof.
  intros Hx Hy. unfold diagonal. destruct (x <? n) eqn:Ex, (y <? m) eqn:Ey; simpl; breflect;
    try (rewrite bool_decide_eq_false_2; [done|unfold matching; lia]).
  destruct (zget_Some a x) as (l & -> & El); [lia|].
  destruct (zget_Some b y) as (l' & -> & El'); [lia|].
  f_equal. apply bool_decide_ext. unfold matching. rewrite El, El'. split.
  - intros ->. split_and!; try lia. done.
  - intros (_ & _ & E). by simplify_eq.
Qed.

Lemma snake_spec fuel x y :
  0 <= x -> 0 <= y -> n - x < Z.of_nat fuel ->
  0 < Z.of_nat fuel -> exists x', snake a b fuel x y = Some x' /\ slide x y x'.
Proof.
  revert x y. induction fuel as [|fuel IH]; intros x y Hx Hy Hf Hpos; [lia|]. simpl.
  rewrite diagonal_spec by done. destruct (bool_decide_reflect (matching x y)) as [Hm|Hm].
  - assert (x < n) by apply Hm.
    destruct (IH (x + 1) (y + 1)) as (x' & E & Hle & Hrun & Hstop); [lia..|].
    exists x'. split; [done|]. split_and!; [lia| |by replace (y + (x' - x)) with (y + 1 + (x' - (x + 1))) by lia].
    intros i Hi. destruct (decide (i = x)) as [->|]; [by replace (y + (x - x)) with y by lia|].
    replace (y + (i - x)) with (y + 1 + (i - (x + 1))) by lia. apply Hrun. lia.
  - exists x. split; [done|]. split_and!; [lia|lia|by replace (y + (x - x)) with y by lia].
Qed.

Lemma slide_det x y x1 x2 : slide x y x1 -> slide x y x2 -> x1 = x2.
Proof.
  intros (H1 & R1 & S1) (H2 & R2 & S2). destruct (Z.lt_trichotomy x1 x2) as [H|[H|H]]; [|done|].
  - exfalso. apply S1, R2. lia.
  - exfalso. apply S2, R1. lia.
Qed.

(** The end of the diagonal run from [(x, y)]. *)
Fixpoint slideFuel (fuel : nat) (x y : Z) : Z :=
  match fuel with
  | O => x
  | S fuel => if decide (matching x y) then slideFuel fuel (x + 1) (y + 1) else x
  end.
Definition slideTo (x y : Z) : Z := slideFuel (S (length a)) x y.

Lemma slideTo_spec x y : 0 <= x -> slide x y (slideTo x y).
Proof.
  intros Hx. unfold slideTo.
  assert (forall fuel x y, 0 <= x -> n - x < Z.of_nat fuel -> 0 < Z.of_nat fuel ->
    slide x y (slideFuel fuel x y)) as H; [|apply H; unfold zlen; lia].
  clear x y Hx. induction fuel as [|fuel IH]; intros x y Hx Hf Hp; [lia|]. simpl.
  destruct (decide (matching x y)) as [Hm|Hm].
  - assert (x < n) by apply Hm.
    destruct (IH (x + 1) (y + 1)) as (Hle & Hrun & Hstop); [lia..|]. split_and!; [lia| |].
    + intros i Hi. destruct (decide (i = x)) as [->|]; [by replace (y + (x - x)) with y by lia|].
      replace (y + (i - x)) with (y + 1 + (i - (x + 1))) by lia. apply Hrun. lia.
    + by replace (y + (_ - x)) with (y + 1 + (slideFuel fuel (x + 1) (y + 1) - (x + 1))) by lia.
  - split_and!; [lia|lia|by replace (y + (x - x)) with y by lia].
Qed.

Lemma snake_slideTo x y : 0 <= x -> 0 <= y -> snake a b (S (length a)) x y = Some (slideTo x y).
Proof.
  intros Hx Hy. destruct (snake_spec (S (length a)) x y Hx Hy) as (x' & -> & Hs); [unfold zlen; lia..|].
  f_equal. eapply slide_det; [exact Hs|by apply slideTo_spec].
Qed.

Lemma slideTo_ge x y : 0 <= x -> x <= slideTo x y.
Proof. intros Hx. apply (slideTo_spec x y Hx). Qed.

(** A run that moves ends inside the grid. *)
Lemma slideTo_inside x y :
  0 <= x -> slideTo x y = x \/ (slideTo x y <= n /\ y + (slideTo x y - x) <= m).
Proof.
  intros Hx. destruct (slideTo_spec x y Hx) as (Hle & Hrun & _).
  destruct (decide (slideTo x y = x)) as [->|Hne]; [by left|]. right.
  destruct (Hrun (slideTo x y - 1)) as (? & ? & _); lia.
Qed.

(** [far d k]: the abscissa of the furthest point on diagonal [k] after [d]
    edits; [down d k]: whether round [d] reaches the diagonal from above. *)
Fixpoint far (d : nat) (k : Z) : Z :=
  match d with
  | O => slideTo 0 0
  | S d' =>
      let x0 := if (k =? - Z.of_nat d) || (negb (k =? Z.of_nat d) && (far d' (k - 1) <? far d' (k + 1)))
                then far d' (k + 1) else far d' (k - 1) + 1 in
      slideTo x0 (x0 - k)
  end.

Definition down (d : nat) (k : Z) : bool :=
  (k =? - Z.of_nat d)
  || (negb (k =? Z.of_nat d) && (far (pred d) (k - 1) <? far (pred d) (k + 1))).

Definition first (d : nat) (k : Z) : Z :=
  if down d k then far (pred d) (k + 1) else far (pred d) (k - 1) + 1.

Lemma far_S d k : far (S d) k = slideTo (first (S d) k) (first (S d) k - k).
Proof. done. Qed.

(** The diagonals of round [d]. *)
Definition valid (d : nat) (k : Z) : Prop :=
  - Z.of_nat d <= k <= Z.of_nat d /\ (k + Z.of_nat d) mod 2 = 0.

Lemma first_cases d k :
  valid (S d) k ->
  (down (S d) k = true /\ first (S d) k = far d (k + 1) /\ valid d (k + 1))
  \/ (down (S d) k = false /\ first (S d) k = far d (k - 1) + 1 /\ valid d (k - 1)).
Proof.
  intros [Hk Hp]. unfold first. destruct (down (S d) k) eqn:E; [left|right];
    (split; [done|split; [done|]]); unfold down, valid in *.
  - apply orb_true_iff in E as [E|E]; breflect; lia.
  - apply orb_false_iff in E as [E _]. breflect. lia.
Qed.

Lemma first_ge d k :
  valid (S d) k ->
  (valid d (k - 1) -> far d (k - 1) + 1 <= first (S d) k)
  /\ (valid d (k + 1) -> far d (k + 1) <= first (S d) k).
Proof.
  intros [Hk Hp]. unfold first, down, valid. simpl pred.
  destruct (k =? - Z.of_nat (S d)) eqn:E1; simpl; breflect; [lia|].
  destruct (k =? Z.of_nat (S d)) eqn:E2; simpl; breflect; [lia|].
  destruct (far d (k - 1) <? far d (k + 1)) eqn:E3; breflect; lia.
Qed.

Lemma far_nonneg d k : valid d k -> 0 <= far d k /\ 0 <= far d k - k.
Proof.
  revert k. induction d as [|d IH]; intros k Hv.
  - destruct Hv. simpl. pose proof (slideTo_ge 0 0). lia.
  - rewrite far_S. destruct (first_cases d k Hv) as [(_ & -> & Hv')|(_ & -> & Hv')];
      destruct (IH _ Hv'); pose proof (slideTo_ge (far d (k + 1)) (far d (k + 1) - k));
      pose proof (slideTo_ge (far d (k - 1) + 1) (far d (k - 1) + 1 - k)); lia.
Qed.

Lemma first_nonneg d k : valid (S d) k -> 0 <= first (S d) k /\ 0 <= first (S d) k - k.
Proof.
  intros Hv. destruct (first_cases d k Hv) as [(_ & -> & Hv')|(_ & -> & Hv')];
    pose proof (far_nonneg _ _ Hv'); lia.
Qed.

Lemma far_ge_first d k : valid (S d) k -> first (S d) k <= far (S d) k.
Proof. intros Hv. rewrite far_S. apply slideTo_ge. by apply first_nonneg. Qed.

Lemma far_sum d k : valid d k -> Z.of_nat d <= 2 * far d k - k.
Proof.
  revert k. induction d as [|d IH]; intros k Hv.
  - pose proof (far_nonneg 0 k Hv). destruct Hv. lia.
  - pose proof (far_ge_first d k Hv).
    destruct (first_cases d k Hv) as [(_ & E & Hv')|(_ & E & Hv')]; specialize (IH _ Hv'); lia.
Qed.

Lemma far_mono d k :
  valid d k -> far d k <= far (S d) (k - 1) /\ far d k + 1 <= far (S d) (k + 1).
Proof.
  intros Hv. assert (valid (S d) (k - 1) /\ valid (S d) (k + 1)) as [Hl Hr]
    by (unfold valid in *; lia).
  pose proof (far_ge_first d _ Hl). pose proof (far_ge_first d _ Hr).
  pose proof (proj2 (first_ge d _ Hl)) as H1. pose proof (proj1 (first_ge d _ Hr)) as H2.
  replace (k - 1 + 1) with k in H1 by lia. replace (k + 1 - 1) with k in H2 by lia.
  specialize (H1 Hv). specialize (H2 Hv). lia.
Qed.

(** A point past an edge of the grid has a neighbour one round earlier. *)
Lemma overshoot_x d k :
  valid d k -> n < far d k ->
  exists d', d = S d' /\ valid d' (k - 1) /\ far d k - 1 <= far d' (k - 1).
Proof.
  revert k. induction d as [|d IH]; intros k Hv Hx.
  - exfalso. destruct (slideTo_inside 0 0); simpl in *; unfold zlen in *; lia.
  - exists d. split; [done|]. pose proof (first_nonneg d k Hv) as [H0 _].
    assert (far (S d) k = first (S d) k) as Ef.
    { rewrite far_S in *. destruct (slideTo_inside (first (S d) k) (first (S d) k - k)); lia. }
    destruct (first_cases d k Hv) as [(_ & E & Hv')|(_ & E & Hv')]; rewrite Ef, E in *; [|split; [done|lia]].
    destruct (IH _ Hv' Hx) as (d' & -> & Hv'' & Hle).
    replace (k + 1 - 1) with k in * by lia. pose proof (far_mono d' k Hv'').
    split; [unfold valid in *; lia|lia].
Qed.

Lemma overshoot_y d k :
  valid d k -> m < far d k - k ->
  exists d', d = S d' /\ valid d' (k + 1) /\ far d k <= far d' (k + 1).
Proof.
  revert k. induction d as [|d IH]; intros k Hv Hy.
  - exfalso. destruct Hv. destruct (slideTo_inside 0 0); simpl in *; unfold zlen in *; lia.
  - exists d. split; [done|]. pose proof (first_nonneg d k Hv) as [H0 _].
    assert (far (S d) k = first (S d) k) as Ef.
    { rewrite far_S in *. destruct (slideTo_inside (first (S d) k) (first (S d) k - k)); lia. }
    destruct (first_cases d k Hv) as [(_ & E & Hv')|(_ & E & Hv')]; rewrite Ef, E in *; [split; [done|lia]|].
    destruct (IH _ Hv') as (d' & -> & Hv'' & Hle); [lia|].
    replace (k - 1 + 1) with k in * by lia. pose proof (far_mono d' k Hv'').
    split; [unfold valid in *; lia|lia].
Qed.

(** [finished d k]: the round reaches the end of both texts. *)
Definition finished (d : nat) (k : Z) : Prop := valid d k /\ n <= far d k /\ m <= far d k - k.

Lemma finished_exact d k :
  (forall d' k', (d' < d)%nat -> ~ finished d' k') -> finished d k -> far d k = n /\ k = n - m.
Proof.
  intros Hfirst (Hv & Hx & Hy).
  destruct (decide (n < far d k)) as [Hox|].
  { exfalso. destruct (overshoot_x d k Hv Hox) as (d' & -> & Hv' & Hle).
    apply (Hfirst d' (k - 1)); [lia|]. split_and!; [done|lia|lia]. }
  destruct (decide (m < far d k - k)) as [Hoy|].
  { exfalso. destruct (overshoot_y d k Hv Hoy) as (d' & -> & Hv' & Hle).
    apply (Hfirst d' (k + 1)); [lia|]. split_and!; [done|lia|lia]. }
  lia.
Qed.

Lemma finished_exists : finished (length a + length b) (n - m).
Proof.
  assert (valid (length a + length b) (n - m)) as Hv.
  { unfold valid, zlen. split; [lia|]. rewrite Nat2Z.inj_add.
    replace (_ - _ + (_ + _)) with (Z.of_nat (length a) * 2) by lia. apply Z.mod_mul. lia. }
  pose proof (far_sum _ _ Hv). unfold finished. unfold zlen in *. split; [done|lia].
Qed.

(** ** The array of the code holds the furthest points *)

Variable maxD : nat.
Notation offset := (Z.of_nat maxD).

(** [v] as it is when round [d] starts. *)
Definition holds (d : nat) (v : list Z) : Prop :=
  zlen v = 2 * offset + 1
  /\ match d with
     | O => zget v (offset + 1) = Some 0
     | S d' => forall k, valid d' k -> zget v (offset + k) = Some (far d' k)
     end.

Lemma zget_zset_eq {A} (l l' : list A) i x : zset l i x = Some l' -> zget l' i = Some x.
Proof.
  unfold zset, zget, zlen. case_decide as Hi; [|done]. intros [= <-].
  rewrite decide_True by lia. apply list_lookup_insert_eq. lia.
Qed.

Lemma zget_zset_ne {A} (l l' : list A) i j x : zset l i x = Some l' -> i <> j -> zget l' j = zget l j.
Proof.
  unfold zset, zget, zlen. case_decide as Hi; [|done]. intros [= <-] Hne.
  case_decide; [|done]. apply list_lookup_insert_ne. lia.
Qed.

Lemma zset_Some {A} (l : list A) i x :
  0 <= i < zlen l -> exists l', zset l i x = Some l' /\ zlen l' = zlen l.
Proof.
  intros Hi. unfold zset. rewrite decide_True by done. eexists. split; [done|].
  unfold zlen. by rewrite length_insert.
Qed.

(** The array during round [d], once the diagonals below [k] are written. *)
Definition mid_round (d : nat) (k : Z) (v : list Z) : Prop :=
  zlen v = 2 * offset + 1
  /\ (match d with
      | O => zget v (offset + 1) = Some 0
      | S d' => forall j, valid d' j -> zget v (offset + j) = Some (far d' j)
      end)
  /\ (forall j, valid d j -> j < k -> zget v (offset + j) = Some (far d j)).

Lemma goDown_down d v k :
  valid (S d) k -> (forall j, valid d j -> zget v (offset + j) = Some (far d j)) ->
  goDown v offset (Z.of_nat (S d)) k = Some (down (S d) k).
Proof.
  intros [Hk Hp] Hv. unfold goDown, down. simpl pred.
  destruct (k =? - Z.of_nat (S d)) eqn:E1; [done|].
  destruct (k =? Z.of_nat (S d)) eqn:E2; [done|]. simpl. breflect.
  replace (offset + k - 1) with (offset + (k - 1)) by lia.
  replace (offset + k + 1) with (offset + (k + 1)) by lia.
  rewrite !Hv by (unfold valid in *; lia). done.
Qed.

Lemma stepStart_first d k v :
  valid d k -> mid_round d k v ->
  exists x0, stepStart v offset (Z.of_nat d) k = Some x0 /\ 0 <= x0 /\ 0 <= x0 - k
    /\ slideTo x0 (x0 - k) = far d k.
Proof.
  intros Hv (Hlen & Hprev & _). unfold stepStart. destruct d as [|d].
  - assert (k = 0) as -> by (destruct Hv; lia). unfold goDown. simpl.
    exists 0. rewrite Z.add_0_r, Hprev. done.
  - rewrite (goDown_down d v k Hv Hprev).
    destruct (first_nonneg d k Hv). rewrite far_S.
    destruct (first_cases d k Hv) as [(-> & E & Hv')|(-> & E & Hv')]; rewrite E in *.
    + exists (far d (k + 1)). replace (offset + k + 1) with (offset + (k + 1)) by lia.
      rewrite Hprev by done. done.
    + exists (far d (k - 1) + 1). replace (offset + k - 1) with (offset + (k - 1)) by lia.
      rewrite Hprev by done. done.
Qed.

Lemma mid_round_step d k v v' :
  valid d k -> mid_round d k v -> zset v (offset + k) (far d k) = Some v' -> zlen v' = zlen v ->
  mid_round d (k + 2) v'.
Proof.
  intros Hk (Hlen & Hprev & Hdone) Hset Hl. split_and!; [lia| |].
  - destruct d as [|d].
    + destruct Hk. rewrite (zget_zset_ne _ _ _ _ _ Hset) by lia. done.
    + intros j Hj. rewrite (zget_zset_ne _ _ _ _ _ Hset); [by apply Hprev|].
      unfold valid in *. lia.
  - intros j Hj Hlt. destruct (decide (j = k)) as [->|Hne]; [by eapply zget_zset_eq|].
    rewrite (zget_zset_ne _ _ _ _ _ Hset) by lia. apply Hdone; [done|].
    unfold valid in *. lia.
Qed.

Lemma roundLoop_spec steps d k v :
  (d <= maxD)%nat -> k = Z.of_nat d + 2 - 2 * Z.of_nat steps -> (steps <= S d)%nat ->
  mid_round d k v -> (forall j, valid d j -> j < k -> ~ finished d j) ->
  exists v' found, roundLoop a b steps offset (Z.of_nat d) k v = Some (v', found)
    /\ (if found : bool then exists j, finished d j
        else (forall j, ~ finished d j) /\ holds (S d) v').
Proof.
  revert k v. induction steps as [|steps IH]; intros k v Hd Hk Hs Hmid Hnot.
  - exists v, false. split; [done|]. split.
    + intros j Hj. apply (Hnot j); [apply Hj| |done]. destruct Hj as [[? ?] _]. lia.
    + destruct Hmid as (Hlen & _ & Hdone). split; [done|]. intros j Hj. apply Hdone; [done|].
      destruct Hj. lia.
  - assert (valid d k) as Hv by (unfold valid; lia). simpl.
    destruct (stepStart_first d k v Hv Hmid) as (x0 & -> & Hx0 & Hy0 & Hslide).
    change (match diagonal a b x0 (x0 - k) with Some true => _ | Some false => _ | None => _ end)
      with (snake a b (S (length a)) x0 (x0 - k)).
    rewrite (snake_slideTo x0 (x0 - k) Hx0 Hy0), Hslide.
    destruct (zset_Some v (offset + k) (far d k)) as (v' & Hset & Hl).
    { destruct Hmid as [-> _], Hv. lia. }
    rewrite Hset. destruct ((n <=? far d k) && (m <=? far d k - k)) eqn:Ef.
    + exists v', true. split; [done|]. exists k. breflect. done.
    + apply IH; [done|lia|lia|by eapply mid_round_step|].
      intros j Hj Hlt (_ & Hfx & Hfy). destruct (decide (j = k)) as [->|Hne].
      * apply andb_false_iff in Ef as [Ef|Ef]; breflect; lia.
      * apply (Hnot j); [done| |done]. unfold valid in *. lia.
Qed.

(** The trace is one snapshot per round, up to the first finished round. *)
Lemma outerLoop_spec rounds d v trace :
  maxD = (length a + length b)%nat -> (rounds + d = S maxD)%nat ->
  holds d v -> length trace = d -> (forall i v', trace !! i = Some v' -> holds i v') ->
  (forall d' k, (d' < d)%nat -> ~ finished d' k) ->
  exists trace' D k, outerLoop a b rounds offset d v trace = Some trace'
    /\ length trace' = S D /\ (forall i v', trace' !! i = Some v' -> holds i v')
    /\ finished D k /\ (forall d' k', (d' < D)%nat -> ~ finished d' k').
Proof.
  intros HmaxD. revert d v trace. induction rounds as [|rounds IH]; intros d v trace Hr Hh Hlen Htr Hnot.
  { exfalso. apply (Hnot maxD (n - m)); [lia|]. rewrite HmaxD. apply finished_exists. }
  cbn [outerLoop].
  destruct (roundLoop_spec (S d) d (- Z.of_nat d) v) as (v' & found & E & Hres).
  { lia. } { lia. } { lia. }
  { destruct Hh as [Hl Hv]. split_and!; [done|done|]. intros j [Hj _] Hlt. lia. }
  { intros j [Hj _] Hlt. lia. }
  rewrite E.
  assert (forall i v0, (trace ++ [v]) !! i = Some v0 -> holds i v0) as Htr'.
  { intros i v0 Hi. apply lookup_app_Some in Hi as [Hi|[Hge Hi]]; [by apply Htr|].
    apply list_lookup_singleton_Some in Hi as [Hi <-]. by replace i with d by lia. }
  destruct found.
  - destruct Hres as [k Hk]. exists (trace ++ [v]), d, k.
    rewrite length_app. simpl. split_and!; [done|lia|done|done|done].
  - destruct Hres as [Hno Hh']. apply IH; [lia|done|rewrite length_app; simpl; lia|done|].
    intros d' k Hlt. destruct (decide (d' = d)) as [->|]; [apply Hno|apply Hnot; lia].
Qed.

(** ** Edit scripts *)

(** [script x y ops x' y']: the operations walk from [(x, y)] to [(x', y')],
    each carrying the indices it stands at; equal operations join equal lines. *)
Inductive script : Z -> Z -> list lineOp -> Z -> Z -> Prop :=
| script_nil x y : script x y [] x y
| script_equal x y ops x' y' :
    matching x y -> script (x + 1) (y + 1) ops x' y' ->
    script x y (mkOp opEqual x y :: ops) x' y'
| script_delete x y ops x' y' :
    0 <= x < n -> script (x + 1) y ops x' y' -> script x y (mkOp opDelete x y :: ops) x' y'
| script_insert x y ops x' y' :
    0 <= y < m -> script x (y + 1) ops x' y' -> script x y (mkOp opInsert x y :: ops) x' y'.

Lemma script_app x y ops x1 y1 ops' x2 y2 :
  script x y ops x1 y1 -> script x1 y1 ops' x2 y2 -> script x y (ops ++ ops') x2 y2.
Proof. induction 1; intros; simpl; [done|constructor; auto..]. Qed.

(** The number of insertions and deletions. *)
Definition edits (ops : list lineOp) : nat := length (filter (fun op => kind op <> opEqual) ops).

Lemma edits_app ops ops' : edits (ops ++ ops') = (edits ops + edits ops')%nat.
Proof. unfold edits. by rewrite filter_app, length_app. Qed.

Lemma edits_rev ops : edits (rev ops) = edits ops.
Proof. induction ops as [|op ops IH]; [done|]. simpl. rewrite edits_app, IH.
  change (op :: ops) with ([op] ++ ops). rewrite edits_app. lia. Qed.

(** No script reaches further than [far]. *)
Lemma far_furthest ops x y :
  script 0 0 ops x y -> valid (edits ops) (x - y) /\ x <= far (edits ops) (x - y).
Proof.
  revert x y. induction ops as [|op ops IH] using rev_ind; intros x y Hs.
  - assert (valid 0 0) as Hv by (split; [lia|done]).
    inversion Hs; subst. split; [exact Hv|]. apply (far_nonneg 0 0 Hv).
  - assert (exists x1 y1, script 0 0 ops x1 y1 /\ script x1 y1 [op] x y) as (x1 & y1 & H1 & H2).
    { clear IH. revert Hs. generalize 0 at 1 3 as x0. generalize 0 as y0.
      induction ops as [|o ops IH']; intros y0 x0 Hs; [exists x0, y0; split; [constructor|done]|].
      inversion Hs; subst;
        match goal with H : script _ _ (ops ++ [op]) _ _ |- _ =>
          destruct (IH' _ _ H) as (x1 & y1 & ? & ?) end;
        exists x1, y1; (split; [constructor; done|done]). }
    destruct (IH _ _ H1) as [Hv Hle]. rewrite edits_app.
    pose proof (far_mono _ _ Hv) as [Hd Hr].
    inversion H2 as [|? ? ? ? ? Hm H3|? ? ? ? ? Hm H3|? ? ? ? ? Hm H3]; inversion H3; subst;
      unfold edits at 2 4; simpl; rewrite ?Nat.add_0_r, ?Nat.add_1_r.
    + replace (x1 + 1 - (y1 + 1)) with (x1 - y1) by lia. split; [done|].
      destruct (decide (x1 = far (edits ops) (x1 - y1))) as [E|]; [|lia]. exfalso.
      assert (slide_stop : ~ matching x1 y1); [|done].
      pose proof Hv as Hv'. destruct (edits ops) as [|d].
      * simpl in E. pose proof (slideTo_spec 0 0) as (_ & _ & Hstop); [lia|].
        rewrite <- E in Hstop. destruct Hv. by replace y1 with (0 + (x1 - 0)) by lia.
      * rewrite far_S in E. destruct (first_nonneg d _ Hv) as [Hf _].
        destruct (slideTo_spec (first (S d) (x1 - y1)) (first (S d) (x1 - y1) - (x1 - y1)) Hf)
          as (_ & _ & Hstop). rewrite <- E in Hstop.
        by replace y1 with (first (S d) (x1 - y1) - (x1 - y1) + (x1 - first (S d) (x1 - y1))) by lia.
    + replace (x1 + 1 - y) with (x1 - y + 1) by lia. split; [unfold valid in *; lia|lia].
    + replace (x - (y1 + 1)) with (x - y1 - 1) by lia. split; [unfold valid in *; lia|lia].
Qed.

(** The diagonal loop collects the run back to [(x1, y1)]. *)
Lemma backDiagonal_spec fuel x y pX pY acc :
  let t := Z.min (x - pX) (y - pY) in
  0 <= t <= Z.of_nat fuel ->
  (forall i, x - t <= i < x -> matching i (y + (i - x))) ->
  exists eqs, backDiagonal fuel x y pX pY acc = Some (acc ++ eqs, x - t, y - t)
    /\ script (x - t) (y - t) (rev eqs) x y /\ edits eqs = 0%nat.
Proof.
  revert x y acc. induction fuel as [|fuel IH]; intros x y acc t Ht Hrun.
  - exists []. simpl. assert (t = 0) as Ht0 by lia. rewrite Ht0, !Z.sub_0_r, app_nil_r.
    assert ((pX <? x) && (pY <? y) = false) as ->.
    { apply andb_false_iff. rewrite !Z.ltb_ge. lia. }
    split_and!; [done|constructor|done].
  - simpl. destruct ((pX <? x) && (pY <? y)) eqn:E.
    + breflect. destruct (IH (x - 1) (y - 1) (acc ++ [mkOp opEqual (x - 1) (y - 1)])) as (eqs & E' & Hs & He).
      * lia.
      * intros i Hi. replace (y - 1 + (i - (x - 1))) with (y + (i - x)) by lia. apply Hrun. lia.
      * exists (mkOp opEqual (x - 1) (y - 1) :: eqs). rewrite E'.
        replace (x - 1 - _) with (x - t) in * by lia. replace (y - 1 - _) with (y - t) in * by lia.
        rewrite <- app_assoc. split_and!; [done| |exact He].
        simpl. eapply script_app; [exact Hs|].
        constructor; [replace (y - 1) with (y + (x - 1 - x)) by lia; apply Hrun; lia|].
        replace (x - 1 + 1) with x by lia. replace (y - 1 + 1) with y by lia. constructor.
    + exists []. apply andb_false_iff in E. rewrite !Z.ltb_ge in E.
      assert (t = 0) as Ht0 by lia. rewrite Ht0, !Z.sub_0_r, app_nil_r.
      split_and!; [done|constructor|done].
Qed.

(** One round back: from the furthest point of round [S d] on diagonal [k] to
    the one of round [d] it came from. *)
Definition origin (d : nat) (k : Z) : Z := if down (S d) k then k + 1 else k - 1.

Lemma origin_valid d k : valid (S d) k -> valid d (origin d k).
Proof. intros Hv. unfold origin. by destruct (first_cases d k Hv) as [(-> & _ & ?)|(-> & _ & ?)]. Qed.

Lemma backRounds_spec trace d x y acc :
  (forall i v, trace !! i = Some v -> holds i v) -> (d < length trace)%nat ->
  valid d (x - y) -> x = far d (x - y) -> x <= n -> y <= m ->
  exists ops x0, backRounds a d trace offset x y acc = Some (acc ++ ops, x0, x0)
    /\ x0 = far 0 0 /\ x0 <= n /\ x0 <= m /\ script x0 x0 (rev ops) x y /\ edits ops = d.
Proof.
  intros Htrace. revert x y acc. induction d as [|d IH]; intros x y acc Hd Hv Hx Hxn Hym.
  { assert (x - y = 0) as E by (destruct Hv; lia). rewrite E in Hx. exists [], x. cbn [backRounds].
    rewrite app_nil_r. replace y with x by lia. split_and!; [done|done|done|lia|constructor|done]. }
  destruct (lookup_lt_is_Some_2 trace (S d) Hd) as [v Hvtr].
  destruct (Htrace _ _ Hvtr) as [_ Hholds].
  cbn [backRounds]. rewrite Hvtr, (goDown_down d v _ Hv Hholds). fold (origin d (x - y)).
  set (k := x - y) in *. pose proof (origin_valid d k Hv) as Hov.
  rewrite (Hholds _ Hov). set (pX := far d (origin d k)).
  assert (pX <= n /\ pX - origin d k <= m /\ 0 <= pX /\ 0 <= pX - origin d k) as (HpX & HpY & H0 & H0').
  { pose proof (far_nonneg d _ Hov). pose proof (far_ge_first d k Hv).
    unfold pX, origin in *. destruct (first_cases d k Hv) as [(Ed & E & _)|(Ed & E & _)];
      rewrite Ed in *; lia. }
  pose proof (first_nonneg d k Hv) as [Hf0 Hf1].
  destruct (slideTo_spec (first (S d) k) (first (S d) k - k) Hf0) as (Hle & Hrun & _).
  rewrite <- far_S, <- Hx in Hle, Hrun.
  assert (Z.min (x - pX) (y - (pX - origin d k)) = x - first (S d) k) as Ht.
  { unfold pX, origin in *. destruct (first_cases d k Hv) as [(Ed & E & _)|(Ed & E & _)];
      rewrite Ed, E in *; lia. }
  destruct (backDiagonal_spec (length a) x y pX (pX - origin d k) acc) as (eqs & -> & Hs & Heqs).
  { rewrite Ht. unfold zlen in *. lia. }
  { rewrite Ht. intros i Hi. replace (y + (i - x)) with (first (S d) k - k + (i - first (S d) k)) by lia.
    apply Hrun. lia. }
  rewrite Ht in *. replace (x - (x - first (S d) k)) with (first (S d) k) in * by lia.
  replace (y - (x - first (S d) k)) with (first (S d) k - k) in * by lia.
  set (op := if first (S d) k =? pX then _ else _).
  destruct (IH pX (pX - origin d k) ((acc ++ eqs) ++ [op])) as (ops & x0 & -> & Hx0 & Hn & Hm & Hscr & Hops);
    [lia|by replace (pX - _) with (origin d k) by lia|by replace (pX - (pX - _)) with (origin d k) by lia
    |done|done|].
  exists (eqs ++ op :: ops), x0. split_and!; [by rewrite <- !app_assoc|done..| |].
  2: { rewrite edits_app, Heqs. change (op :: ops) with ([op] ++ ops). rewrite edits_app, Hops.
    subst op. by case_match. }
  rewrite rev_app_distr. simpl rev. eapply script_app; [|exact Hs].
  eapply script_app; [exact Hscr|]. subst op pX. unfold origin in *.
  destruct (first_cases d k Hv) as [(Ed & E & _)|(Ed & E & _)]; rewrite Ed, E in *.
  - rewrite Z.eqb_refl. replace (far d (k + 1) - k - 1) with (far d (k + 1) - (k + 1)) by lia.
    apply script_insert; [lia|].
    replace (far d (k + 1) - (k + 1) + 1) with (far d (k + 1) - k) by lia. constructor.
  - rewrite (proj2 (Z.eqb_neq _ _)) by lia. replace (far d (k - 1) + 1 - 1) with (far d (k - 1)) by lia.
    replace (far d (k - 1) + 1 - k) with (far d (k - 1) - (k - 1)) by lia.
    apply script_delete; [lia|constructor].
Qed.

Lemma holds_initial : (0 < maxD)%nat -> holds 0 (replicate (2 * maxD + 1) 0).
Proof.
  intros Hm. unfold holds, zget, zlen. rewrite length_replicate. split; [lia|].
  rewrite decide_True by lia. apply lookup_replicate_2. lia.
Qed.

End MyersSpec.

Lemma myersLineDiff_script a b :
  exists ops, myersLineDiff a b = Some ops /\ script a b 0 0 ops (zlen a) (zlen b)
    /\ forall ops', script a b 0 0 ops' (zlen a) (zlen b) -> (edits ops <= edits ops')%nat.
Proof.
  unfold myersLineDiff. case_decide as Hz.
  { exists []. split_and!; [done| |unfold edits; simpl; lia].
    destruct a, b; try (simpl in Hz; lia). constructor. }
  set (maxD := (length a + length b)%nat) in *.
  destruct (outerLoop_spec a b maxD (S maxD) 0 (replicate (2 * maxD + 1) 0) [])
    as (trace & D & k & -> & Hlen & Htr & Hfin & Hfirst);
    [done|lia|apply holds_initial; lia|done|done|lia|].
  destruct (finished_exact a b D k Hfirst Hfin) as [Hfar ->].
  unfold backtrack. rewrite Hlen. replace (S D - 1)%nat with D by lia.
  destruct (backRounds_spec a b maxD trace D (zlen a) (zlen b) [])
    as (ops & x0 & -> & Hx0 & Hn & Hm & Hs & HD);
    [done|lia|apply Hfin|done|lia|lia|].
  pose proof (slideTo_spec a b 0 0) as (Hle & Hrun & _); [lia|].
  change (slideTo a b 0 0) with (far a b 0 0) in *. rewrite <- Hx0 in *.
  destruct (backDiagonal_spec a b (length a) x0 x0 0 0 ([] ++ ops)) as (eqs & -> & Hs0 & He0).
  { unfold zlen in *. lia. }
  { intros i Hi. replace (x0 + (i - x0)) with (0 + (i - 0)) by lia. apply Hrun. lia. }
  exists (rev (([] ++ ops) ++ eqs)). split_and!; [done| |].
  - rewrite rev_app_distr. eapply script_app; [|exact Hs].
    replace (x0 - _) with 0 in Hs0 by lia. exact Hs0.
  - intros ops' Hops'. rewrite edits_rev, edits_app, He0. simpl. rewrite HD, Nat.add_0_r.
    destruct (far_furthest a b ops' _ _ Hops') as [Hv Hle'].
    destruct (decide (D <= edits ops')%nat) as [|Hlt]; [done|]. exfalso.
    apply (Hfirst (edits ops') (zlen a - zlen b)); [lia|]. split_and!; [done|lia|lia].
Qed.

(** A walk splits where its operations do. *)
Lemma script_app_inv a b x y ops ops' x2 y2 :
  script a b x y (ops ++ ops') x2 y2 ->
  exists x1 y1, script a b x y ops x1 y1 /\ script a b x1 y1 ops' x2 y2.
Proof.
  revert x y. induction ops as [|op ops IH]; intros x y Hs; [by exists x, y; split; [constructor|]|].
  inversion Hs; subst;
    match goal with H : script _ _ _ _ (ops ++ ops') _ _ |- _ =>
      destruct (IH _ _ H) as (x1 & y1 & ? & ?) end;
    exists x1, y1; (split; [constructor; done|done]).
Qed.

(** The lines of the first text a script reads, and those of the second it leaves. *)
Definition oldSide (a : list gostring) (ops : list lineOp) : list gostring :=
  omap (fun op => if decide (kind op = opInsert) then None else zget a (oldIndex op)) ops.
Definition newSide (a b : list gostring) (ops : list lineOp) : list gostring :=
  omap (fun op => match kind op with
                  | opEqual => zget a (oldIndex op)
                  | opDelete => None
                  | opInsert => zget b (newIndex op)
                  end) ops.

Lemma oldSide_cons a op ops :
  oldSide a (op :: ops) = match (if decide (kind op = opInsert) then None else zget a (oldIndex op)) with
                          | Some l => l :: oldSide a ops
                          | None => oldSide a ops
                          end.
Proof. done. Qed.

Lemma newSide_cons a b op ops :
  newSide a b (op :: ops) = match (match kind op with
                                   | opEqual => zget a (oldIndex op)
                                   | opDelete => None
                                   | opInsert => zget b (newIndex op)
                                   end) with
                            | Some l => l :: newSide a b ops
                            | None => newSide a b ops
                            end.
Proof. done. Qed.

Lemma script_bounds a b x y ops x' y' : script a b x y ops x' y' -> x <= x' /\ y <= y'.
Proof. induction 1; lia. Qed.

Lemma drop_zget {A} (l : list A) x e : 0 <= x -> zget l x = Some e ->
  drop (Z.to_nat x) l = e :: drop (Z.to_nat (x + 1)) l.
Proof.
  unfold zget. intros Hx. rewrite decide_True by done. intros E.
  rewrite (drop_S _ _ _ E). do 2 f_equal. lia.
Qed.

Lemma script_sides a b x y ops :
  script a b x y ops (zlen a) (zlen b) -> 0 <= x -> 0 <= y ->
  oldSide a ops = drop (Z.to_nat x) a /\ newSide a b ops = drop (Z.to_nat y) b.
Proof.
  remember (zlen a) as x' eqn:Ex. remember (zlen b) as y' eqn:Ey. induction 1 as
    [x y|x y ops x' y' Hm Hs IH|x y ops x' y' Hx Hs IH|x y ops x' y' Hy Hs IH]; intros H0 H1; subst.
  - unfold zlen. rewrite !Nat2Z.id, !drop_all. done.
  - destruct IH as [Ea Eb]; [done|done|lia|lia|]. destruct Hm as (Hx & Hy & Em).
    destruct (zget_Some a x Hx) as (l & El & El'). destruct (zget_Some b y Hy) as (l' & Eg & Eg').
    assert (l' = l) as -> by congruence.
    rewrite oldSide_cons, newSide_cons. simpl. rewrite El. rewrite Ea, Eb.
    by rewrite (drop_zget a x l), (drop_zget b y l).
  - destruct IH as [Ea Eb]; [done|done|lia|lia|].
    destruct (zget_Some a x Hx) as (l & El & El'). rewrite oldSide_cons, newSide_cons. simpl.
    rewrite El. rewrite Ea, Eb. by rewrite (drop_zget a x l).
  - destruct IH as [Ea Eb]; [done|done|lia|lia|].
    destruct (zget_Some b y Hy) as (l & El & El'). rewrite oldSide_cons, newSide_cons. simpl.
    rewrite El. rewrite Ea, Eb. by rewrite (drop_zget b y l).
Qed.

(** C28.  The line diff always returns a script (no index is ever out of
    range): it walks from the start of both texts to their ends, deleting lines of the first,
    inserting lines of the second and keeping equal ones; what it reads is the
    first text and what it leaves is the second; and no script between the two
    texts has fewer insertions and deletions. *)
Theorem myersLineDiff_correct a b :
  exists ops, myersLineDiff a b = Some ops
    /\ script a b 0 0 ops (zlen a) (zlen b)
    /\ oldSide a ops = a /\ newSide a b ops = b
    /\ (forall ops', script a b 0 0 ops' (zlen a) (zlen b) -> (edits ops <= edits ops')%nat).
Proof.
  destruct (myersLineDiff_script a b) as (ops & E & Hs & Hmin). exists ops.
  destruct (script_sides a b 0 0 ops Hs) as [Ea Eb]; [done|done|]. done.
Qed.

(** ** Grouping: the declarative reading *)

Definition is_change (op : lineOp) : Prop := kind op <> opEqual.
Definition all_equal (ops : list lineOp) : Prop := Forall (fun op => kind op = opEqual) ops.

(** [hunked c ops groups]: [ops] starts with a change; runs of at most [2c]
    equal lines stay inside a group, longer ones leave [c] lines on each side,
    the last one [c] lines. *)
Inductive hunked (c : nat) : list lineOp -> list (list lineOp) -> Prop :=
| hunked_last op tail :
    is_change op -> all_equal tail -> hunked c (op :: tail) [op :: take c tail]
| hunked_join op run rest g gs :
    is_change op -> all_equal run -> (length run <= 2 * c)%nat -> hunked c rest (g :: gs) ->
    hunked c (op :: run ++ rest) ((op :: run ++ g) :: gs)
| hunked_split op run rest g gs :
    is_change op -> all_equal run -> (2 * c < length run)%nat -> hunked c rest (g :: gs) ->
    hunked c (op :: run ++ rest) ((op :: take c run) :: (drop (length run - c) run ++ g) :: gs).

Lemma equal_run ops :
  exists run after, ops = run ++ after /\ run = take_while is_equal_op ops /\ all_equal run
    /\ (after = [] \/ exists op rest, after = op :: rest /\ is_change op).
Proof.
  induction ops as [|op ops (run & after & -> & E & Hrun & Hafter)];
    [by exists [], []; split_and!; [..|constructor|left]|].
  simpl. unfold is_equal_op at 1. case_bool_decide as Hk.
  - exists (op :: run), after. rewrite <- E. split_and!; [done|done|by constructor|done].
  - exists [], (op :: run ++ after). split_and!; [done|done|constructor|]. right. by exists op, (run ++ after).
Qed.

Lemma groupLoop_change fuel c op rest cur groups :
  is_change op ->
  groupLoop (S fuel) c (op :: rest) cur groups = groupLoop fuel c rest (cur ++ [op]) groups.
Proof. intros Hc. simpl. unfold is_equal_op. by rewrite bool_decide_eq_false_2. Qed.

Lemma groupLoop_run fuel c run after cur groups :
  run <> [] -> run = take_while is_equal_op (run ++ after) -> all_equal run ->
  groupLoop (S fuel) c (run ++ after) cur groups =
    let runLen := length run in
    let keep := Nat.min c runLen in
    if decide (cur = []) then
      groupLoop fuel c after (if decide (after = []) then cur else cur ++ drop (runLen - keep) run) groups
    else if decide (after = []) then groupLoop fuel c after [] (flush groups (cur ++ take keep run))
    else if decide (runLen <= 2 * c)%nat then groupLoop fuel c after (cur ++ run) groups
    else groupLoop fuel c after (drop (runLen - c) run) (flush groups (cur ++ take c run)).
Proof.
  intros Hne Etw Hall. destruct run as [|op run]; [done|].
  simpl app in *. cbn [groupLoop]. rewrite <- Etw.
  inversion Hall; subst. unfold is_equal_op at 1. rewrite bool_decide_eq_true_2 by done.
  cbn [negb]. replace (drop (length (op :: run)) (op :: run ++ after)) with after; [done|].
  symmetry. exact (drop_app_length (op :: run) after).
Qed.

Lemma flush_snoc groups cur : cur <> [] -> flush groups cur = groups ++ [cur].
Proof. intros. unfold flush. by case_decide. Qed.

Lemma groupLoop_hunked c fuel ops cur groups :
  (length ops <= fuel)%nat -> (exists op rest, ops = op :: rest /\ is_change op) ->
  exists g gs, groupLoop fuel c ops cur groups = Some (groups ++ (cur ++ g) :: gs)
    /\ hunked c ops (g :: gs).
Proof.
  revert ops cur groups. induction (lt_wf fuel) as [fuel _ IH].
  intros ops cur groups Hlen (op & rest & -> & Hc). destruct fuel as [|fuel]; [simpl in Hlen; lia|].
  rewrite groupLoop_change by done.
  destruct (equal_run rest) as (run & after & -> & Erun & Hall & Hafter).
  assert (cur ++ [op] <> []) as Hcur by (by destruct cur).
  destruct (decide (run = [])) as [->|Hne].
  - simpl app in *. destruct Hafter as [->|Hafter].
    + exists [op], []. pose proof (hunked_last c op [] Hc (Forall_nil_2 _)) as Hh.
      rewrite take_nil in Hh. split; [|done]. destruct fuel; simpl; by rewrite flush_snoc.
    + destruct (IH fuel (Nat.lt_succ_diag_r _) after (cur ++ [op]) groups) as (g & gs & -> & Hh);
        [simpl in Hlen; lia|done|].
      exists (op :: g), gs. rewrite <- app_assoc. split; [done|].
      apply (hunked_join c op [] after); [done|constructor|simpl; lia|done].
  - simpl in Hlen. rewrite length_app in Hlen.
    assert (0 < length run)%nat by (destruct run; simpl; [done|lia]).
    destruct fuel as [|fuel]; [lia|]. rewrite groupLoop_run by done. cbv zeta.
    rewrite (decide_False (P := cur ++ [op] = [])) by done.
    destruct Hafter as [->|Hafter].
    + rewrite decide_True by done. exists (op :: take c run), []. split.
      * replace (take (Nat.min c (length run)) run) with (take c run).
        2: { rewrite <- (firstn_all run) at 1. by rewrite take_take. }
        rewrite flush_snoc by (by destruct cur). rewrite <- app_assoc. by destruct fuel.
      * rewrite app_nil_r. by constructor.
    + rewrite (decide_False (P := after = [])) by (by destruct Hafter as (? & ? & -> & _)).
      case_decide as H2c.
      * destruct (IH fuel) with (ops := after) (cur := (cur ++ [op]) ++ run) (groups := groups)
          as (g & gs & -> & Hh); [lia|lia|done|].
        exists (op :: run ++ g), gs. rewrite <- !app_assoc. split; [done|]. by constructor.
      * destruct (IH fuel) with (ops := after) (cur := drop (length run - c) run)
          (groups := flush groups ((cur ++ [op]) ++ take c run)) as (g & gs & -> & Hh); [lia|lia|done|].
        exists (op :: take c run), ((drop (length run - c) run ++ g) :: gs).
        rewrite flush_snoc by (by destruct cur). rewrite <- !app_assoc. split; [done|].
        constructor; [done|done|lia|done].
Qed.

Lemma existsb_change ops :
  if existsb (fun op => negb (is_equal_op op)) ops then ~ all_equal ops else all_equal ops.
Proof.
  destruct (existsb _ ops) eqn:E.
  - apply existsb_exists in E as (op & Hin & Hop). intros Hall.
    unfold all_equal in Hall. rewrite List.Forall_forall in Hall. specialize (Hall _ Hin).
    unfold is_equal_op in Hop. by rewrite bool_decide_eq_true_2 in Hop.
  - unfold all_equal. rewrite List.Forall_forall. intros op Hin.
    destruct (decide (kind op = opEqual)) as [|Hne]; [done|].
    assert (existsb (fun op => negb (is_equal_op op)) ops = true); [|congruence].
    apply existsb_exists. exists op. split; [done|]. unfold is_equal_op. by rewrite bool_decide_eq_false_2.
Qed.

Lemma groupOps_cases ops c :
  (all_equal ops /\ groupOps ops c = Some [])
  \/ exists lead rest g gs, ops = lead ++ rest /\ all_equal lead /\ hunked c rest (g :: gs)
       /\ groupOps ops c = Some ((drop (length lead - c) lead ++ g) :: gs).
Proof.
  unfold groupOps. pose proof (existsb_change ops) as He. destruct (existsb _ ops); [right|by left].
  destruct (equal_run ops) as (lead & rest & Eops & Elead & Hall & [->|Hrest]).
  { destruct He. rewrite Eops, app_nil_r. done. }
  exists lead, rest. destruct (decide (lead = [])) as [->|Hne].
  - simpl in *. destruct (groupLoop_hunked c (length ops) ops [] []) as (g & gs & -> & Hh);
      [lia|by rewrite Eops|]. exists g, gs. rewrite <- Eops. split_and!; done.
  - assert (0 < length lead)%nat by (destruct lead; simpl; [done|lia]).
    assert (length ops = length lead + length rest)%nat as Hlen by (by rewrite Eops, length_app).
    destruct (length ops) as [|fuel]; [lia|].
    replace (groupLoop (S fuel) c ops [] []) with (groupLoop (S fuel) c (lead ++ rest) [] [])
      by (by rewrite Eops).
    rewrite groupLoop_run; [|done| |done].
    2: { by rewrite <- Eops. }
    cbv zeta. rewrite decide_True by done.
    rewrite (decide_False (P := rest = [])) by (by destruct Hrest as (? & ? & -> & _)).
    destruct (groupLoop_hunked c fuel rest ([] ++ drop (length lead - Nat.min c (length lead)) lead) [])
      as (g & gs & -> & Hh); [lia|done|]. exists g, gs. split_and!; [done..|].
    simpl. do 4 f_equal. lia.
Qed.

(**  Grouping never fails.  Without changes there are no hunks; otherwise the
    first hunk starts with the last [context] equal lines before the first
    change, and from there the groups are those of [hunked]: gaps of at most
    [2 context] equal lines are kept, longer ones are cut to [context] lines on
    both sides; and the hunks hold all the changes, in order. *)
Theorem groupOps_hunked ops context :
  exists groups, groupOps ops context = Some groups
    /\ filter is_change (concat groups) = filter is_change ops
    /\ ((all_equal ops /\ groups = [])
        \/ exists lead rest g gs, ops = lead ++ rest /\ all_equal lead
             /\ hunked context rest (g :: gs)
             /\ groups = (drop (length lead - context) lead ++ g) :: gs).
Proof.
  assert (forall l, all_equal l -> filter is_change l = []) as Hnil.
  { induction 1 as [|op l Hop _ IH]; [done|]. rewrite filter_cons_False; [done|]. intros Hc. by apply Hc. }
  assert (forall k l, all_equal l -> filter is_change (take k l) = []) as Htake.
  { intros k l Hl. apply Hnil. by apply Forall_take. }
  assert (forall k l, all_equal l -> filter is_change (drop k l) = []) as Hdrop.
  { intros k l Hl. apply Hnil. by apply Forall_drop. }
  assert (forall c l gs, hunked c l gs -> filter is_change (concat gs) = filter is_change l) as Hhunk.
  { induction 1 as [op tail Hc Ht|op run rest g gs Hc Hr Hl Hh IH|op run rest g gs Hc Hr Hl Hh IH];
      simpl in *; rewrite !filter_cons_True by done; f_equal; rewrite ?filter_app in *.
    - by rewrite app_nil_r, Htake, Hnil.
    - by rewrite <- app_assoc, IH.
    - by rewrite <- !app_assoc, IH, Htake, Hdrop, (Hnil run). }
  destruct (groupOps_cases ops context) as [[He ->]|(lead & rest & g & gs & Eops & Hl & Hh & ->)].
  - exists []. split_and!; [done|by rewrite (Hnil ops)|by left].
  - eexists. split_and!; [done| |right; by exists lead, rest, g, gs].
    specialize (Hhunk _ _ _ Hh). simpl in *.
    by rewrite Eops, <- app_assoc, filter_app, Hhunk, filter_app, Hdrop, (Hnil lead).
Qed.

(** ** Hunk headers *)

(** The groups are stretches of the script. *)
Lemma hunked_infix c ops g gs :
  hunked c ops (g :: gs) ->
  (exists s, ops = g ++ s) /\ Forall (fun g' => exists p s, ops = p ++ g' ++ s) (g :: gs).
Proof.
  remember (g :: gs) as groups eqn:Eg. intros Hh. revert g gs Eg.
  induction Hh as [op tail Hc Ht|op run rest g' gs' Hc Hr Hl Hh IH|op run rest g' gs' Hc Hr Hl Hh IH];
    intros g gs [= <- <-].
  - assert (op :: tail = (op :: take c tail) ++ drop c tail) as E by (simpl; by rewrite take_drop).
    split; [by eexists|]. constructor; [|constructor]. by exists [], (drop c tail).
  - destruct (IH _ _ eq_refl) as [[s Es] Hall].
    assert (op :: run ++ rest = (op :: run ++ g') ++ s) as E by (simpl; by rewrite Es, <- app_assoc).
    split; [by eexists|]. apply Forall_cons in Hall as [_ Hall].
    constructor; [by exists [], s|]. eapply Forall_impl; [exact Hall|].
    intros g0 (p & s' & ->). by exists ((op :: run) ++ p), s'; rewrite <- app_assoc.
  - destruct (IH _ _ eq_refl) as [[s Es] Hall].
    assert (op :: run ++ rest = (op :: take c run) ++ (drop c run ++ rest)) as E
      by (simpl; by rewrite app_assoc, take_drop).
    split; [by eexists|]. apply Forall_cons in Hall as [_ Hall].
    constructor; [by exists [], (drop c run ++ rest)|]. constructor.
    + exists (op :: take (length run - c) run), s. simpl. f_equal.
      by rewrite Es, <- app_assoc, !app_assoc, take_drop.
    + eapply Forall_impl; [exact Hall|].
      intros g0 (p & s' & ->). by exists ((op :: run) ++ p), s'; rewrite <- app_assoc.
Qed.

Lemma groupOps_infix ops c groups :
  groupOps ops c = Some groups -> Forall (fun g => exists p s, ops = p ++ g ++ s) groups.
Proof.
  destruct (groupOps_cases ops c) as [[_ ->]|(lead & rest & g & gs & -> & _ & Hh & ->)];
    intros [= <-]; [constructor|].
  destruct (hunked_infix c rest g gs Hh) as [[s Es] Hall]. apply Forall_cons in Hall as [_ Hall].
  constructor.
  - exists (take (length lead - c) lead), s. by rewrite Es, <- app_assoc, !app_assoc, take_drop.
  - eapply Forall_impl; [exact Hall|]. intros g0 (p & s' & ->). by exists (lead ++ p), s'; rewrite <- app_assoc.
Qed.

Lemma rangeStep_fold a b x y ops x' y' os ol ns nl :
  script a b x y ops x' y' -> 0 <= x -> 0 <= y ->
  fold_left rangeStep ops (mkRanges os ol ns nl)
  = mkRanges (if (os <? 0) && negb (x' =? x) then x else os) (ol + (x' - x))
             (if (ns <? 0) && negb (y' =? y) then y else ns) (nl + (y' - y)).
Proof.
  intros Hs. revert os ol ns nl. induction Hs as
    [x y|x y ops x' y' Hm Hs IH|x y ops x' y' Hx Hs IH|x y ops x' y' Hy Hs IH];
    intros os ol ns nl H0 H1.
  - simpl. rewrite !Z.eqb_refl, !andb_false_r. f_equal; lia.
  - pose proof (script_bounds _ _ _ _ _ _ _ Hs). simpl. rewrite IH by lia.
    f_equal; repeat case_match; breflect; lia.
  - pose proof (script_bounds _ _ _ _ _ _ _ Hs). simpl. rewrite IH by lia.
    f_equal; repeat case_match; breflect; lia.
  - pose proof (script_bounds _ _ _ _ _ _ _ Hs). simpl. rewrite IH by lia.
    f_equal; repeat case_match; breflect; lia.
Qed.

(**  Every hunk is a stretch of the script, from a point [(x, y)] of the
    two texts to [(x', y')], and its header says so: one-based starts and the
    numbers of lines of both sides, with start [0] for an empty side. *)
Theorem hunk_headers a b context ops groups :
  myersLineDiff a b = Some ops -> groupOps ops context = Some groups ->
  Forall (fun g => exists x y x' y', script a b x y g x' y'
    /\ hunkRanges g = mkRanges (if x' =? x then 0 else x + 1) (x' - x)
                               (if y' =? y then 0 else y + 1) (y' - y)) groups.
Proof.
  intros Eops Egr. destruct (myersLineDiff_script a b) as (ops' & E & Hs & _).
  assert (ops' = ops) as -> by congruence.
  eapply Forall_impl; [exact (groupOps_infix _ _ _ Egr)|]. intros g (p & s & ->).
  apply script_app_inv in Hs as (x & y & Hp & Hs). apply script_app_inv in Hs as (x' & y' & Hg & _).
  exists x, y, x', y'. split; [done|]. destruct (script_bounds _ _ _ _ _ _ _ Hp).
  pose proof (script_bounds _ _ _ _ _ _ _ Hg).
  unfold hunkRanges. rewrite (rangeStep_fold _ _ _ _ _ _ _ _ _ _ _ Hg) by lia.
  f_equal; repeat case_match; breflect; lia.
Qed.

Lemma hunk_headers_witness :
  let a := [str "a"; str "b"; str "c"] in
  let b := [str "a"; str "x"; str "y"; str "c"] in
  exists ops groups, myersLineDiff a b = Some ops /\ groupOps ops 0 = Some groups
    /\ map hunkRanges groups = [mkRanges 2 1 2 2]
    /\ Forall (fun g => exists x y x' y', script a b x y g x' y'
         /\ hunkRanges g = mkRanges (if x' =? x then 0 else x + 1) (x' - x)
                                    (if y' =? y then 0 else y + 1) (y' - y)) groups.
Proof.
  do 2 eexists. split; [vm_compute; reflexivity|]. split; [vm_compute; reflexivity|].
  split; [vm_compute; reflexivity|].
  eapply (hunk_headers _ _ 0); vm_compute; reflexivity.
Defined.

(** ** The whole diff *)

Lemma splitKeepingEnds_concat text : concat (splitKeepingEnds text) = text.
Proof.
  induction text as [|c rest IH]; [done|]. simpl. case_decide; simpl; [by rewrite IH|].
  destruct (splitKeepingEnds rest); simpl in *; by rewrite <- IH.
Qed.

Lemma script_all_equal a b x y ops x' y' :
  script a b x y ops x' y' -> all_equal ops -> x' - x = y' - y.
Proof.
  induction 1 as [|? ? ? ? ? ? ? IH| |]; intros Hall; inversion Hall; subst; try done; [lia|].
  specialize (IH ltac:(done)). lia.
Qed.

Lemma all_equal_sides a b ops : all_equal ops -> oldSide a ops = newSide a b ops.
Proof.
  induction 1 as [|op ops Hop _ IH]; [done|]. rewrite oldSide_cons, newSide_cons, Hop, IH. simpl. by case_match.
Qed.

Lemma edits_zero ops : edits ops = 0%nat <-> all_equal ops.
Proof.
  unfold edits, all_equal. rewrite length_zero_iff_nil. split.
  - induction ops as [|op ops IH]; [constructor|]. destruct (decide (kind op = opEqual)) as [E|E].
    + rewrite filter_cons_False by (intros H; by apply H). constructor; auto.
    + by rewrite filter_cons_True.
  - induction 1; [done|]. rewrite filter_cons_False; [done|]. intros Hn. by apply Hn.
Qed.

(** The script that keeps every line. *)
Fixpoint keepAll (i : Z) (l : list gostring) : list lineOp :=
  match l with [] => [] | _ :: l => mkOp opEqual i i :: keepAll (i + 1) l end.

Lemma keepAll_script a i l :
  0 <= i -> drop (Z.to_nat i) a = l -> i <= zlen a ->
  script a a i i (keepAll i l) (zlen a) (zlen a) /\ all_equal (keepAll i l).
Proof.
  revert i. induction l as [|e l IH]; intros i Hi Hd Hle; simpl.
  - assert (i = zlen a) as ->; [|by split; constructor].
    apply (f_equal length) in Hd. rewrite length_drop in Hd. unfold zlen in *. simpl in Hd. lia.
  - assert (i < zlen a) as Hlt.
    { apply (f_equal length) in Hd. rewrite length_drop in Hd. unfold zlen in *. simpl in Hd. lia. }
    destruct (IH (i + 1)) as [Hs Ha]; [lia| |lia|].
    { replace (Z.to_nat (i + 1)) with (1 + Z.to_nat i)%nat by lia.
      rewrite Nat.add_comm, <- drop_drop, Hd. done. }
    split; [|by constructor]. constructor; [|done]. by split_and!.
Qed.

Lemma script_opLine a b x y ops x' y' :
  script a b x y ops x' y' -> Forall (fun op => is_Some (opLine a b op)) ops.
Proof.
  induction 1 as [|? ? ? ? ? Hm|? ? ? ? ? Hx|? ? ? ? ? Hy]; constructor; try done; unfold opLine; simpl.
  - destruct Hm as (Hx & _). destruct (zget_Some a x Hx) as (l & -> & _). by eexists.
  - destruct (zget_Some a x Hx) as (l & -> & _). by eexists.
  - destruct (zget_Some b y Hy) as (l & -> & _). by eexists.
Qed.

Lemma mapM_is_Some {A B} (f : A -> option B) l : Forall (fun x => is_Some (f x)) l -> is_Some (mapM f l).
Proof.
  induction 1 as [|x l [y Hy] _ [k Hk]]; [by eexists|]. simpl. rewrite Hy. simpl. rewrite Hk. by eexists.
Qed.

Lemma writeHunk_nonempty g a b h : writeHunk g a b = Some h -> h <> [].
Proof.
  unfold writeHunk. destruct (mapM (opLine a b) g); [|done]. intros E.
  cbn [mbind option_bind] in E. by injection E as <-.
Qed.

(** The diff of two texts is always produced, and it is empty exactly
    when the texts are the same. *)
Theorem unifiedDiff_empty_iff original updated context :
  exists d, unifiedDiff original updated context = Some d /\ (d = [] <-> original = updated).
Proof.
  unfold unifiedDiff. set (a := splitKeepingEnds original). set (b := splitKeepingEnds updated).
  assert (a = b <-> original = updated) as Hab.
  { split; [|by intros; subst a b; congruence]. intros E.
    rewrite <- (splitKeepingEnds_concat original), <- (splitKeepingEnds_concat updated). by fold a b; rewrite E. }
  destruct (myersLineDiff_script a b) as (ops & -> & Hs & Hmin). cbn [mbind option_bind].
  assert (all_equal ops <-> a = b) as Hiff.
  { destruct (script_sides a b 0 0 ops Hs) as [Ea Eb]; [done|done|]. simpl in *. split.
    - intros Hall. exact (eq_trans (eq_sym Ea) (eq_trans (all_equal_sides a b ops Hall) Eb)).
    - intros <-. destruct (keepAll_script a 0 a) as [Hk Hall]; [done|done|unfold zlen; lia|].
      apply edits_zero. apply edits_zero in Hall. specialize (Hmin _ Hk). lia. }
  setoid_rewrite <- Hab. setoid_rewrite <- Hiff.
  assert (forall groups, groupOps ops context = Some groups ->
    is_Some (mapM (fun g => writeHunk g a b) groups)) as Htotal.
  { intros groups Eg. apply mapM_is_Some. eapply Forall_impl; [exact (groupOps_infix _ _ _ Eg)|].
    intros g (p & s & Eops). pose proof (script_opLine _ _ _ _ _ _ _ Hs) as Hop. rewrite Eops in Hop.
    apply Forall_app in Hop as [_ Hop]. apply Forall_app in Hop as [Hop _].
    destruct (mapM_is_Some _ _ Hop) as [ls Els]. unfold writeHunk. rewrite Els. by eexists. }
  destruct (groupOps_cases ops context) as [[He E]|(lead & rest & g & gs & Eops & Hl & Hh & E)]; rewrite E.
  - by exists [].
  - cbn [mbind option_bind]. destruct (Htotal _ E) as [hs Ehs]. rewrite Ehs. cbn [mbind option_bind].
    eexists. split; [done|]. split.
    + apply mapM_Some_1 in Ehs. inversion Ehs as [|? h ? hs' Hh' _]; subst.
      apply writeHunk_nonempty in Hh'. by destruct h.
    + intros Hall. exfalso. subst ops. apply Forall_app in Hall as [_ Hall].
      inversion Hh; subst; inversion Hall; by subst.
Qed.

End Diff.
