(* ===== verification/ExecPolicyShlex.v ===== *)
(** * internal/execpolicy: shell words

    [shlex.go]: splitting a shell string into words and quoting words into a
    shell string.  [shlexSplit]'s outer loop and its two quote loops are one
    structural scan whose mode says which loop is running. *)

From S2P Require Import Prelude GoStrings GoUtf8.

Module Shlex.

Local Open Scope Z_scope.

Definition squote : ascii := "'"%char.
Definition dquote : ascii := "034"%char.
Definition bslash : ascii := "092"%char.
Definition dollar : ascii := "$"%char.
Definition backtick : ascii := "`"%char.
Definition bang : ascii := "!"%char.

(** The loop that is running: the outer one, or the one inside quotes. *)
Inductive quoting := Unquoted | SingleQuoted | DoubleQuoted.

Definition isByte (c : ascii) (r : rune) : bool := (r =? bval c)%Z.

(** The word separators of the outer loop. *)
Definition separator (c : rune) : bool :=
  isByte " " c || isByte "009" c || isByte nl c || isByte cr c.

(** The runes a backslash escapes inside double quotes. *)
Definition escapable (next : rune) : bool :=
  isByte dollar next || isByte backtick next || isByte dquote next || isByte bslash next.

Fixpoint scan (mode : quoting) (rs : list rune) (words : list gostring) (current : gostring)
    (hasWord : bool) : option (list gostring) :=
  match mode, rs with
  | Unquoted, [] => Some (if hasWord then words ++ [current] else words)
  | Unquoted, c :: rest =>
      if separator c then
        if hasWord then scan Unquoted rest (words ++ [current]) [] false
        else scan Unquoted rest words current hasWord
      else if isByte squote c then scan SingleQuoted rest words current true
      else if isByte dquote c then scan DoubleQuoted rest words current true
      else if isByte bslash c then
        match rest with
        | [] => None
        | next :: rest =>
            if isByte nl next then scan Unquoted rest words current hasWord
            else scan Unquoted rest words (current ++ encode_rune next) true
        end
      else scan Unquoted rest words (current ++ encode_rune c) true
  | _, [] => None
  | SingleQuoted, c :: rest =>
      if isByte squote c then scan Unquoted rest words current hasWord
      else scan SingleQuoted rest words (current ++ encode_rune c) hasWord
  | DoubleQuoted, ch :: rest =>
      if isByte dquote ch then scan Unquoted rest words current hasWord
      else
        match rest with
        | next :: rest' =>
            if isByte bslash ch && escapable next then
              scan DoubleQuoted rest' words (current ++ encode_rune next) hasWord
            else if isByte bslash ch && isByte nl next then
              scan DoubleQuoted rest' words current hasWord
            else scan DoubleQuoted rest words (current ++ encode_rune ch) hasWord
        | [] => scan DoubleQuoted rest words (current ++ encode_rune ch) hasWord
        end
  end.

Definition shlexSplit (input : gostring) : option (list gostring) :=
  scan Unquoted (runes input) [] [] false.

Definition shlexSafePunct : gostring := ",._+:@%/-".

Definition isShlexSafeByte (c : ascii) : bool :=
  if in_range (bval "a") (bval "z") (bval c) then true
  else if in_range (bval "A") (bval "Z") (bval c) then true
  else if in_range (bval "0") (bval "9") (bval c) then true
  else bool_decide (c ∈ shlexSafePunct).

Definition isAllShlexSafe (s : gostring) : bool := forallb isShlexSafeByte s.

(** The switch of the double-quote loop. *)
Definition needsBackslash (c : ascii) : bool :=
  bool_decide (c = dollar) || bool_decide (c = backtick) || bool_decide (c = dquote)
  || bool_decide (c = bslash) || bool_decide (c = bang).

Definition escapeByte (c : ascii) : gostring := if needsBackslash c then [bslash; c] else [c].

Definition shlexTryQuote (s : gostring) : option gostring :=
  if decide (s = []) then Some [squote; squote]
  else if bool_decide ("000"%char ∈ s) then None
  else if isAllShlexSafe s then Some s
  else if negb (bool_decide (squote ∈ s)) then Some ([squote] ++ s ++ [squote])
  else Some ([dquote] ++ concat (map escapeByte s) ++ [dquote]).

Fixpoint quoteAll (tokens : list gostring) : option (list gostring) :=
  match tokens with
  | [] => Some []
  | tok :: tokens =>
      q ← shlexTryQuote tok;
      quoted ← quoteAll tokens;
      Some (q :: quoted)
  end.

Definition shlexTryJoin (tokens : list gostring) : option gostring :=
  quoted ← quoteAll tokens; Some (join " " quoted).

Example split_example :
  shlexSplit ("git  'a b'c " ++ [dquote] ++ str "x\$y" ++ [dquote] ++ str " \ z") = Some [str "git"; str "a bc"; str "x$y"; str " z"].
Proof. vm_compute. reflexivity. Qed.

(** A token with both a single quote and an exclamation mark does not survive:
    the quoting escapes the mark, the splitting keeps the backslash. *)
Example bang_gains_backslash :
  (shlexTryJoin [str "it's!"] ≫= shlexSplit) = Some [str "it's" ++ [bslash; bang]].
Proof. vm_compute. reflexivity. Qed.

(** ** Single steps *)

Lemma isByte_true c r : isByte c r = true <-> r = bval c.
Proof. apply Z.eqb_eq. Qed.

Lemma isByte_bval c d : isByte c (bval d) = bool_decide (d = c).
Proof.
  unfold isByte. case_bool_decide as E; [subst; apply Z.eqb_refl|].
  apply Z.eqb_neq. intros H. by apply bval_inj in H.
Qed.

Lemma safe_byte_plain c :
  isShlexSafeByte c = true ->
  bval c < 128 /\ separator (bval c) = false /\ isByte squote (bval c) = false
  /\ isByte dquote (bval c) = false /\ isByte bslash (bval c) = false.
Proof. destruct c as [[] [] [] [] [] [] [] []]; vm_compute; intros H; done. Qed.

Lemma scan_safe t rest words cur hasWord :
  t <> [] -> isAllShlexSafe t = true ->
  scan Unquoted (runes (t ++ rest)) words cur hasWord
  = scan Unquoted (runes rest) words (cur ++ t) true.
Proof.
  intros Hne. unfold isAllShlexSafe. revert cur hasWord.
  induction t as [|c t IH]; [done|]. intros cur hasWord H. simpl in H.
  apply andb_true_iff in H as [Hc Ht]. destruct (safe_byte_plain c Hc) as (Ha & E1 & E2 & E3 & E4).
  simpl app. rewrite runes_ascii by done. cbn [scan]. rewrite E1, E2, E3, E4, encode_ascii_byte by done.
  destruct (decide (t = [])) as [->|]; [done|]. rewrite IH by done. by rewrite <- app_assoc.
Qed.

Lemma scan_single rs rest words cur hasWord :
  bval squote ∉ rs ->
  scan SingleQuoted (rs ++ bval squote :: rest) words cur hasWord
  = scan Unquoted rest words (cur ++ encode_runes rs) hasWord.
Proof.
  revert cur. induction rs as [|r rs IH]; intros cur Hr.
  - simpl. by rewrite app_nil_r.
  - apply not_elem_of_cons in Hr as [Hr Hrs]. cbn [app scan].
    assert (isByte squote r = false) as -> by (unfold isByte; apply Z.eqb_neq; done).
    rewrite IH by done. unfold encode_runes. simpl. by rewrite <- app_assoc.
Qed.

(** The double-quoted rendering of a rune. *)
Definition escapeRune (r : rune) : gostring :=
  concat (map escapeByte (encode_rune r)).

Lemma escape_encode rs : concat (map escapeByte (encode_runes rs)) = concat (map escapeRune rs).
Proof.
  induction rs as [|r rs IH]; [done|]. unfold encode_runes in *. simpl.
  by rewrite map_app, concat_app, IH.
Qed.

Lemma high_not_escaped c : (128 <= bval c)%Z -> escapeByte c = [c].
Proof. intros H. unfold escapeByte, needsBackslash. repeat case_bool_decide; subst; try done. Qed.

Lemma escapeRune_cases r :
  scalar r ->
  (exists c, r = bval c /\ (bval c < 128)%Z /\ escapeRune r = escapeByte c)
  \/ ((128 <= r)%Z /\ escapeRune r = encode_rune r).
Proof.
  intros Hr. destruct (decide (r < 128)%Z) as [Hlt|Hge]; [left|right].
  - destruct Hr as [Hr _]. exists (byte_of r). rewrite bval_byte_of by lia. split_and!; [done|done|].
    unfold escapeRune. rewrite encode_ascii by lia. simpl. apply app_nil_r.
  - split; [lia|]. unfold escapeRune. pose proof (encode_rune_high r Hr ltac:(lia)) as Hall.
    induction Hall as [|c l Hc _ IH]; [done|]. simpl. by rewrite high_not_escaped, IH.
Qed.

Lemma scan_double_rune r rest words cur hasWord :
  scalar r -> r <> bval bang ->
  scan DoubleQuoted (runes (escapeRune r ++ rest)) words cur hasWord
  = scan DoubleQuoted (runes rest) words (cur ++ encode_rune r) hasWord.
Proof.
  intros Hr Hb. destruct (escapeRune_cases r Hr) as [(c & -> & Hc & ->)|(Hge & ->)].
  - unfold escapeByte. destruct (needsBackslash c) eqn:E.
    + simpl app. rewrite !runes_ascii by done. cbn [scan].
      rewrite !isByte_bval. unfold escapable. rewrite !isByte_bval.
      unfold needsBackslash in E. rewrite !orb_true_iff, !bool_decide_eq_true in E.
      destruct E as [[[[->| ->]| ->]| ->]| ->]; done.
    + simpl app. rewrite runes_ascii by done. cbn [scan]. rewrite !isByte_bval.
      unfold needsBackslash in E. rewrite !orb_false_iff, !bool_decide_eq_false in E.
      destruct E as [[[[? ?] ?] ?] ?]. rewrite !bool_decide_eq_false_2 by done. simpl.
      by destruct (runes rest).
  - rewrite runes_encode_cons by done. cbn [scan]. unfold isByte.
    assert ((r =? bval dquote)%Z = false) as -> by (apply Z.eqb_neq; simpl in *; change (bval dquote) with 34%Z; lia).
    assert ((r =? bval bslash)%Z = false) as -> by (apply Z.eqb_neq; change (bval bslash) with 92%Z; lia).
    simpl. by destruct (runes rest).
Qed.

Lemma scan_double rs rest words cur hasWord :
  Forall scalar rs -> bval bang ∉ rs ->
  scan DoubleQuoted (runes (concat (map escapeRune rs) ++ dquote :: rest)) words cur hasWord
  = scan Unquoted (runes rest) words (cur ++ encode_runes rs) hasWord.
Proof.
  intros Hall. revert cur. induction Hall as [|r rs Hr _ IH]; intros cur Hb.
  - cbn [map concat app]. rewrite runes_ascii by done. cbn [scan]. by rewrite isByte_bval, app_nil_r.
  - apply not_elem_of_cons in Hb as [Hb Hbs]. simpl. rewrite <- app_assoc.
    rewrite scan_double_rune by done. rewrite IH by done. unfold encode_runes. simpl.
    by rewrite <- app_assoc.
Qed.

(** An ASCII byte is in a valid string when its rune is. *)
Lemma ascii_in_runes c s :
  valid_utf8 s = true -> (bval c < 128)%Z -> bval c ∈ runes s -> c ∈ s.
Proof.
  intros Hv Hc Hin. destruct (valid_utf8_runes s Hv) as [E _]. rewrite E. clear E.
  apply list_elem_of_split in Hin as (l1 & l2 & ->). rewrite encode_runes_app.
  apply elem_of_app. right. unfold encode_runes. simpl. rewrite encode_ascii_byte by done. by left.
Qed.

(** A token that survives quoting and splitting. *)
Definition round_trips (t : gostring) : Prop :=
  valid_utf8 t = true /\ ~ (squote ∈ t /\ bang ∈ t).

Lemma scan_word t q rest words :
  round_trips t -> shlexTryQuote t = Some q ->
  scan Unquoted (runes (q ++ rest)) words [] false = scan Unquoted (runes rest) words t true.
Proof.
  intros [Hv Hb] Hq. unfold shlexTryQuote in Hq.
  case_decide as Hne; [injection Hq as <-; subst; simpl app; rewrite !runes_ascii by done; done|].
  case_bool_decide; [done|]. destruct (isAllShlexSafe t) eqn:Hsafe.
  { injection Hq as <-. by rewrite scan_safe. }
  destruct (valid_utf8_runes t Hv) as [Et Hall].
  case_bool_decide as Hsq; simpl in Hq; injection Hq as <-.
  - rewrite Et, escape_encode. simpl app. rewrite <- app_assoc, runes_ascii by done.
    cbn [scan]. cbn [app]. rewrite scan_double; [done|done|].
    intros Hin. apply Hb. split; [done|]. by apply ascii_in_runes.
  - transitivity (scan Unquoted (runes rest) words ([] ++ encode_runes (runes t)) true);
      [|by rewrite <- Et].
    rewrite <- (scan_single (runes t)) by (intros Hin; apply Hsq; by apply ascii_in_runes).
    assert (runes (t ++ squote :: rest) = runes t ++ bval squote :: runes rest) as Ert.
    { rewrite Et at 1. rewrite runes_encode_app by done. by rewrite runes_ascii. }
    cbn [app]. rewrite <- app_assoc, runes_ascii by done. cbn [scan]. cbn [app]. by rewrite Ert.
Qed.

Lemma scan_words ts qs words :
  Forall round_trips ts -> quoteAll ts = Some qs ->
  scan Unquoted (runes (join " " qs)) words [] false = Some (words ++ ts).
Proof.
  intros Hall. revert qs words. induction Hall as [|t ts Ht _ IH]; intros qs words Hq.
  { injection Hq as <-. simpl. by rewrite app_nil_r. }
  simpl in Hq. destruct (shlexTryQuote t) as [q|] eqn:Eq; [|done]. simpl in Hq.
  destruct (quoteAll ts) as [qs'|] eqn:Eqs; [|done]. simpl in Hq. injection Hq as <-.
  destruct qs' as [|q' qs'].
  - assert (ts = []) as -> by (destruct ts; [done|]; simpl in Eqs;
      destruct (shlexTryQuote _); [|done]; simpl in Eqs; by destruct (quoteAll ts)).
    simpl. rewrite <- (app_nil_r q). by rewrite (scan_word t q).
  - change (join " " (q :: q' :: qs')) with (q ++ " " ++ join " " (q' :: qs')).
    rewrite (scan_word t q) by done.
    change (runes (" " ++ join " " (q' :: qs'))) with (runes (" "%char :: join " " (q' :: qs'))).
    rewrite runes_ascii by done. cbn [scan].
    change (separator (bval " ")) with true. cbn iota.
    rewrite (IH _ (words ++ [t]) eq_refl). by rewrite <- app_assoc.
Qed.

(**  Quoting and splitting are inverse: the words of a rendered command
    are its tokens, for tokens of valid UTF-8 that do not have both a single
    quote and an exclamation mark. *)
Theorem shlexTryJoin_split tokens s :
  Forall round_trips tokens -> shlexTryJoin tokens = Some s -> shlexSplit s = Some tokens.
Proof.
  intros Hall. unfold shlexTryJoin, shlexSplit. destruct (quoteAll tokens) as [qs|] eqn:E; [|done].
  simpl. intros [= <-]. by rewrite (scan_words tokens qs []).
Qed.

Lemma shlexTryJoin_split_witness :
  shlexTryJoin [str "git"; str "commit"; str ""; str "-m"; str "it's " ++ [dquote] ++ str "done" ++ [dquote]; str "a b!"]
  = Some (str "git commit '' -m " ++ [dquote] ++ str "it's " ++ [bslash; dquote] ++ str "done"
          ++ [bslash; dquote; dquote] ++ str " 'a b!'")
  /\ shlexSplit (str "git commit '' -m " ++ [dquote] ++ str "it's " ++ [bslash; dquote] ++ str "done"
          ++ [bslash; dquote; dquote] ++ str " 'a b!'")
     = Some [str "git"; str "commit"; str ""; str "-m"; str "it's " ++ [dquote] ++ str "done" ++ [dquote]; str "a b!"].
Proof.
  split; [vm_compute; reflexivity|]. apply shlexTryJoin_split; [|vm_compute; reflexivity].
  repeat (apply Forall_cons; split; [apply (bool_decide_unpack _); vm_compute; exact I|]). constructor.
Defined.

End Shlex.
