(* ===== verification/ExecPolicy.v ===== *)
(** * internal/execpolicy: rules and the compiled policy

    [decision.go], [rule.go], [error.go], [network_rule.go],
    [executable_name.go] and [policy.go]: decisions, prefix rules and their
    matches, network rules, and [Policy] with its immutable updates, the
    matching of commands and the compiled domain lists.  Maps are [gmap]s; the
    platform is Unix ([runtime.GOOS] is not ["windows"]). *)

From stdpp Require Import gmap.
From S2P Require Import Prelude GoStrings GoUtf8 GoText AbsPath.

Module ExecPolicy.

(** ** decision.go *)

Inductive Decision := DecisionAllow | DecisionPrompt | DecisionForbidden.

#[export] Instance Decision_eq_dec : EqDecision Decision.
Proof. solve_decision. Defined.

(** The declaration order is the severity. *)
Definition severity (d : Decision) : nat :=
  match d with DecisionAllow => 0 | DecisionPrompt => 1 | DecisionForbidden => 2 end.

(** [Decision.max] *)
Definition decision_max (d other : Decision) : Decision :=
  if (severity d <? severity other)%nat then other else d.

(** ** error.go *)

Record TextPosition := mkPos { Line : Z; Column : Z }.
Record TextRange := mkRange { Start : TextPosition; End_ : TextPosition }.
Record ErrorLocation := mkLoc { LocPath : gostring; LocRange : TextRange }.

Inductive Error :=
| ErrInvalidDecision (Message : gostring)
| ErrInvalidPattern (Message : gostring)
| ErrInvalidExample (Message : gostring)
| ErrInvalidRule (Message : gostring)
| ErrExampleDidNotMatch (Rules Examples : list gostring) (Location : option ErrorLocation)
| ErrExampleDidMatch (Rule Example : gostring) (Location : option ErrorLocation)
| ErrStarlark (Wrapped : gostring) (Location : option ErrorLocation).

Definition withLocation (e : Error) (location : ErrorLocation) : Error :=
  match e with
  | ErrExampleDidNotMatch r x None => ErrExampleDidNotMatch r x (Some location)
  | ErrExampleDidMatch r x None => ErrExampleDidMatch r x (Some location)
  | _ => e
  end.

Definition ParseDecision (raw : gostring) : result Error Decision :=
  if decide (raw = "allow") then Ok DecisionAllow
  else if decide (raw = "prompt") then Ok DecisionPrompt
  else if decide (raw = "forbidden") then Ok DecisionForbidden
  else Err (ErrInvalidDecision raw).

Definition Decision_String (d : Decision) : gostring :=
  match d with DecisionAllow => "allow" | DecisionPrompt => "prompt" | DecisionForbidden => "forbidden" end.

Definition Decision_MarshalJSON (d : Decision) : gostring :=
  ["034"%char] ++ Decision_String d ++ ["034"%char].

(** [UnmarshalJSON]: the bytes between the quotes; [None] is the error that is
    not a policy error. *)
Definition Decision_UnmarshalJSON (data : gostring) : option (result Error Decision) :=
  match data with
  | c :: rest =>
      match rev rest with
      | d :: middle =>
          if decide (c = "034"%char /\ d = "034"%char) then Some (ParseDecision (rev middle)) else None
      | [] => None
      end
  | [] => None
  end.

(** ** rule.go *)

Inductive PatternToken :=
| PatternTokenSingle (value : gostring)
| PatternTokenAlts (alts : list gostring).

(** [PatternToken.matches] *)
Definition token_matches (t : PatternToken) (token : gostring) : bool :=
  match t with
  | PatternTokenSingle value => bool_decide (value = token)
  | PatternTokenAlts alts => existsb (fun alt => bool_decide (alt = token)) alts
  end.

Definition Alternatives (t : PatternToken) : list gostring :=
  match t with PatternTokenSingle value => [value] | PatternTokenAlts alts => alts end.

Record PrefixPattern := mkPattern { first : gostring; rest : list PatternToken }.

(** The loop of [matchesPrefix] over the trailing tokens. *)
Fixpoint rest_matches (rest : list PatternToken) (tokens : list gostring) : bool :=
  match rest, tokens with
  | [], _ => true
  | t :: rest, token :: tokens => token_matches t token && rest_matches rest tokens
  | _ :: _, [] => false
  end.

Definition matchesPrefix (p : PrefixPattern) (cmd : list gostring) : option (list gostring) :=
  let patternLength := S (length (rest p)) in
  if (length cmd <? patternLength)%nat then None
  else match cmd with
       | [] => None
       | head :: args =>
           if decide (head <> first p) then None
           else if rest_matches (rest p) args then Some (take patternLength cmd) else None
       end.

Record PrefixRule := mkRule {
  Pattern : PrefixPattern;
  RuleDecision : Decision;
  Justification : option gostring
}.

(** [PrefixRule.Program] *)
Definition Program_ (r : PrefixRule) : gostring := first (Pattern r).

Inductive RuleMatch :=
| ruleMatchPrefix (matchedPrefix : list gostring) (decision : Decision)
    (resolvedProgram : option gostring) (justification : option gostring)
| ruleMatchHeuristics (command : list gostring) (decision : Decision).

#[export] Instance RuleMatch_eq_dec : EqDecision RuleMatch.
Proof. solve_decision. Defined.

Definition match_decision (m : RuleMatch) : Decision :=
  match m with ruleMatchPrefix _ d _ _ | ruleMatchHeuristics _ d => d end.

Definition IsHeuristics (m : RuleMatch) : bool :=
  match m with ruleMatchHeuristics _ _ => true | _ => false end.

Definition withResolvedProgram (m : RuleMatch) (resolved : gostring) : RuleMatch :=
  match m with
  | ruleMatchPrefix p d _ j => ruleMatchPrefix p d (Some resolved) j
  | ruleMatchHeuristics _ _ => m
  end.

(** [PrefixRule.matches] *)
Definition rule_matches (r : PrefixRule) (cmd : list gostring) : option RuleMatch :=
  match matchesPrefix (Pattern r) cmd with
  | Some matched => Some (ruleMatchPrefix matched (RuleDecision r) None (Justification r))
  | None => None
  end.

Section Debug.
Variable unicode_print : rune -> bool.
Notation q := (quote unicode_print).

Definition token_debug (t : PatternToken) : gostring :=
  match t with
  | PatternTokenSingle value => "Single(" ++ q value ++ str ")"
  | PatternTokenAlts alts => "Alts([" ++ join ", " (map q alts) ++ str "])"
  end.

Definition decisionDebug (d : Decision) : gostring :=
  match d with DecisionAllow => "Allow" | DecisionPrompt => "Prompt" | DecisionForbidden => "Forbidden" end.

(** [Some(..)] or [None] *)
Definition debug_option (o : option gostring) : gostring :=
  match o with Some s => "Some(" ++ q s ++ str ")" | None => "None" end.

Definition debugStringSlice (values : list gostring) : gostring :=
  "[" ++ join ", " (map q values) ++ str "]".

Definition rule_debug (r : PrefixRule) : gostring :=
  "PrefixRule { pattern: PrefixPattern { first: " ++ q (first (Pattern r)) ++ str ", rest: ["
  ++ join ", " (map token_debug (rest (Pattern r))) ++ str "] }, decision: "
  ++ decisionDebug (RuleDecision r) ++ str ", justification: " ++ debug_option (Justification r)
  ++ str " }".

Definition match_debug (m : RuleMatch) : gostring :=
  match m with
  | ruleMatchHeuristics command d =>
      "HeuristicsRuleMatch { command: " ++ debugStringSlice command ++ str ", decision: "
      ++ decisionDebug d ++ str " }"
  | ruleMatchPrefix p d r j =>
      "PrefixRuleMatch { matched_prefix: " ++ debugStringSlice p ++ str ", decision: "
      ++ decisionDebug d ++ str ", resolved_program: " ++ debug_option r
      ++ str ", justification: " ++ debug_option j ++ str " }"
  end.

(** [Error.Error] *)
Definition error_string (e : Error) : gostring :=
  match e with
  | ErrInvalidDecision m => "invalid decision: " ++ m
  | ErrInvalidPattern m => "invalid pattern element: " ++ m
  | ErrInvalidExample m => "invalid example: " ++ m
  | ErrInvalidRule m => "invalid rule: " ++ m
  | ErrExampleDidNotMatch rules examples _ =>
      "expected every example to match at least one rule. rules: " ++ debugStringSlice rules
      ++ str "; unmatched examples: " ++ debugStringSlice examples
  | ErrExampleDidMatch rule example _ =>
      "expected example to not match rule `" ++ rule ++ str "`: " ++ example
  | ErrStarlark wrapped _ => "starlark error: " ++ wrapped
  end.
End Debug.

(** ** network_rule.go *)

Inductive NetworkRuleProtocol :=
| NetworkRuleProtocolHTTP | NetworkRuleProtocolHTTPS
| NetworkRuleProtocolSocks5TCP | NetworkRuleProtocolSocks5UDP.

#[export] Instance NetworkRuleProtocol_eq_dec : EqDecision NetworkRuleProtocol.
Proof. solve_decision. Defined.

Definition ParseNetworkRuleProtocol (raw : gostring) : result Error NetworkRuleProtocol :=
  if decide (raw = "http") then Ok NetworkRuleProtocolHTTP
  else if decide (raw = "https" \/ raw = "https_connect" \/ raw = "http-connect")
  then Ok NetworkRuleProtocolHTTPS
  else if decide (raw = "socks5_tcp") then Ok NetworkRuleProtocolSocks5TCP
  else if decide (raw = "socks5_udp") then Ok NetworkRuleProtocolSocks5UDP
  else Err (ErrInvalidRule
    ("network_rule protocol must be one of http, https, socks5_tcp, socks5_udp (got " ++ raw ++ str ")")).

Definition AsPolicyString (p : NetworkRuleProtocol) : gostring :=
  match p with
  | NetworkRuleProtocolHTTP => "http"
  | NetworkRuleProtocolHTTPS => "https"
  | NetworkRuleProtocolSocks5TCP => "socks5_tcp"
  | NetworkRuleProtocolSocks5UDP => "socks5_udp"
  end.

Record NetworkRule := mkNetworkRule {
  Host : gostring;
  Protocol : NetworkRuleProtocol;
  NetDecision : Decision;
  NetJustification : option gostring
}.

Definition parseNetworkRuleDecision (raw : gostring) : result Error Decision :=
  if decide (raw = "deny") then Ok DecisionForbidden else ParseDecision raw.

Definition allASCIIDigits (s : gostring) : bool := forallb (fun c => in_range 48 57 (bval c)) s.

(** parser.go: [isWhitespace], [isBlank]; [isUnicodeSpace] is [unicode.IsSpace]. *)
Definition isWhitespace (r : rune) : bool :=
  (r =? 32)%Z || (r =? 9)%Z || (r =? 10)%Z || (r =? 13)%Z || (r =? 11)%Z || (r =? 12)%Z
  || (r =? 133)%Z || (r =? 160)%Z || is_space r.
Definition isBlank (s : gostring) : bool := forallb isWhitespace (runes s).
Definition containsWhitespace (s : gostring) : bool := existsb isWhitespace (runes s).

Definition emptyHost : Error := ErrInvalidRule "network_rule host cannot be empty".

(** A port suffix is taken off: [[v6]], [[v6]:80] or [name:80]. *)
Definition stripPort (raw host : gostring) : result Error gostring :=
  match cut_prefix host "[" with
  | Some stripped =>
      match cut_byte "]" stripped with
      | None => Err (ErrInvalidRule "network_rule host has an invalid bracketed IPv6 literal")
      | Some (inside, rest) =>
          let portOK := match cut_prefix rest ":" with
                        | Some port => bool_decide (port <> []) && allASCIIDigits port
                        | None => false
                        end in
          if bool_decide (rest <> []) && negb portOK
          then Err (ErrInvalidRule ("network_rule host contains an unsupported suffix: " ++ raw))
          else Ok inside
      end
  | None =>
      if decide (count_byte ":" host = 1%nat) then
        match cut_byte ":" host with
        | Some (candidate, port) =>
            if bool_decide (candidate <> []) && bool_decide (port <> []) && allASCIIDigits port
            then Ok candidate else Ok host
        | None => Ok host
        end
      else Ok host
  end.

Section Hosts.
Variable unicode_lower : rune -> rune.

Definition normalizeNetworkRuleHost (raw : gostring) : result Error gostring :=
  let host := trim_space raw in
  if decide (host = []) then Err emptyHost
  else if contains host "://" || contains host "/" || contains host "?" || contains host "#"
  then Err (ErrInvalidRule "network_rule host must be a hostname or IP literal (without scheme or path)")
  else
    host ← stripPort raw host;
    let normalized := to_lower unicode_lower (trim_space (trim_right_byte "." host)) in
    if decide (normalized = []) then Err emptyHost
    else if contains normalized "*"
    then Err (ErrInvalidRule "network_rule host must be a specific host; wildcards are not allowed")
    else if containsWhitespace normalized
    then Err (ErrInvalidRule "network_rule host cannot contain whitespace")
    else Ok normalized.
End Hosts.

(** ** executable_name.go, on Unix *)

Definition executableLookupKey (raw : gostring) : gostring := raw.

Definition executablePathLookupKey (path : gostring) : option gostring :=
  let name := filepath_base path in
  if decide (name = "." \/ name = "/" \/ name = []) then None else Some (executableLookupKey name).

(** ** policy.go *)

(** Absolute paths are their normalised strings. *)
Abbreviation RuleMap := (gmap gostring (list PrefixRule)).

Record Policy := mkPolicy {
  rulesByProgram : RuleMap;
  networkRules : list NetworkRule;
  hostExecutablesByName : gmap gostring (list gostring)
}.

(** [orderedRuleMap.insert] *)
Definition rules_insert (m : RuleMap) (program : gostring) (rule : PrefixRule) : RuleMap :=
  <[program := default [] (m !! program) ++ [rule]]> m.

Definition EmptyPolicy : Policy := mkPolicy ∅ [] ∅.

Definition AddPrefixRule (p : Policy) (prefix : list gostring) (decision : Decision)
    : result Error Policy :=
  match prefix with
  | [] => Err (ErrInvalidPattern "prefix cannot be empty")
  | head :: tail =>
      let rule := mkRule (mkPattern head (map PatternTokenSingle tail)) decision None in
      Ok (mkPolicy (rules_insert (rulesByProgram p) head rule) (networkRules p)
                   (hostExecutablesByName p))
  end.

Definition AddNetworkRule (unicode_lower : rune -> rune) (p : Policy) (host : gostring)
    (protocol : NetworkRuleProtocol) (decision : Decision) (justification : option gostring)
    : result Error Policy :=
  normalizedHost ← normalizeNetworkRuleHost unicode_lower host;
  if match justification with Some j => isBlank j | None => false end
  then Err (ErrInvalidRule "justification cannot be empty")
  else Ok (mkPolicy (rulesByProgram p)
             (networkRules p ++ [mkNetworkRule normalizedHost protocol decision justification])
             (hostExecutablesByName p)).

(** The overlay's rules follow the base's; its allowlists replace the base's. *)
Definition MergeOverlay (p overlay : Policy) : Policy :=
  mkPolicy
    (union_with (fun base over => Some (base ++ over)) (rulesByProgram p) (rulesByProgram overlay))
    (networkRules p ++ networkRules overlay)
    (hostExecutablesByName overlay ∪ hostExecutablesByName p).

Definition removeDomain (entries : list gostring) (host : gostring) : list gostring :=
  filter (fun entry => entry <> host) entries.

Definition upsertDomain (entries : list gostring) (host : gostring) : list gostring :=
  removeDomain entries host ++ [host].

(** One iteration of [CompiledNetworkDomains]: the allowed and denied lists. *)
Definition compileRule (lists : list gostring * list gostring) (rule : NetworkRule)
    : list gostring * list gostring :=
  let '(allowed, denied) := lists in
  match NetDecision rule with
  | DecisionAllow => (upsertDomain allowed (Host rule), removeDomain denied (Host rule))
  | DecisionForbidden => (removeDomain allowed (Host rule), upsertDomain denied (Host rule))
  | DecisionPrompt => (allowed, denied)
  end.

Definition CompiledNetworkDomains (p : Policy) : list gostring * list gostring :=
  fold_left compileRule (networkRules p) ([], []).

(** *** Matching *)

Definition HeuristicsFallback := option (list gostring -> Decision).

Definition matchExactRules (p : Policy) (cmd : list gostring) : list RuleMatch :=
  match cmd with
  | [] => []
  | head :: _ =>
      match rulesByProgram p !! head with
      | None => []
      | Some rules => omap (fun rule => rule_matches rule cmd) rules
      end
  end.

Definition containsPath (paths : list gostring) (target : gostring) : bool :=
  existsb (fun path => bool_decide (path = target)) paths.

Section Platform.
(** The user's home directory, which path expansion consults. *)
Variable homeDir : option gostring.

Definition matchHostExecutableRules (p : Policy) (cmd : list gostring) : list RuleMatch :=
  match cmd with
  | [] => []
  | head :: args =>
      match AbsPath.FromAbsolutePathChecked false homeDir head with
      | None => []
      | Some program =>
          match executablePathLookupKey program with
          | None => []
          | Some basename =>
              match rulesByProgram p !! basename with
              | None => []
              | Some rules =>
                  let allowlisted := match hostExecutablesByName p !! basename with
                                     | Some paths => containsPath paths program
                                     | None => true
                                     end in
                  if negb allowlisted then []
                  else omap (fun rule => m ← rule_matches rule (basename :: args);
                                         Some (withResolvedProgram m program)) rules
              end
          end
      end
  end.

Definition MatchesForCommand (p : Policy) (cmd : list gostring) (fallback : HeuristicsFallback)
    (ResolveHostExecutables : bool) : list RuleMatch :=
  let matched := matchExactRules p cmd in
  let matched := if decide (matched = []) then
                   if ResolveHostExecutables then matchHostExecutableRules p cmd else matched
                 else matched in
  match matched, fallback with
  | [], Some heuristics => [ruleMatchHeuristics cmd (heuristics cmd)]
  | _, _ => matched
  end.

Record Evaluation := mkEvaluation { EvalDecision : Decision; MatchedRules : list RuleMatch }.

Definition evaluationFromMatches (matched : list RuleMatch) : Evaluation :=
  mkEvaluation
    (match matched with
     | [] => DecisionAllow
     | m :: ms => fold_left (fun d m => decision_max d (match_decision m)) ms (match_decision m)
     end)
    matched.

Definition IsMatch (e : Evaluation) : bool := existsb (fun m => negb (IsHeuristics m)) (MatchedRules e).

Definition CheckWithOptions (p : Policy) (cmd : list gostring) (fallback : HeuristicsFallback)
    (resolve : bool) : Evaluation :=
  evaluationFromMatches (MatchesForCommand p cmd fallback resolve).

Definition Check (p : Policy) (cmd : list gostring) (fallback : HeuristicsFallback) : Evaluation :=
  CheckWithOptions p cmd fallback false.

Definition CheckMultipleWithOptions (p : Policy) (commands : list (list gostring))
    (fallback : HeuristicsFallback) (resolve : bool) : Evaluation :=
  evaluationFromMatches (concat (map (fun cmd => MatchesForCommand p cmd fallback resolve) commands)).

Definition CheckMultiple (p : Policy) (commands : list (list gostring))
    (fallback : HeuristicsFallback) : Evaluation :=
  CheckMultipleWithOptions p commands fallback false.

End Platform.

(** output.go: the decision [FormatMatchesJSON] prints, absent without
    matches. *)
Definition formattedDecision (matched : list RuleMatch) : option Decision :=
  match matched with
  | [] => None
  | m :: ms => Some (fold_left (fun d m => decision_max d (match_decision m)) ms (match_decision m))
  end.

(** ** Prefix patterns *)

(** The tokens of a pattern, and what each accepts. *)
Definition pattern_tokens (p : PrefixPattern) : list PatternToken :=
  PatternTokenSingle (first p) :: rest p.
Definition accepts (t : PatternToken) (token : gostring) : Prop := token ∈ Alternatives t.

Lemma token_matches_accepts t token : token_matches t token = true <-> accepts t token.
Proof.
  destruct t as [v|alts]; unfold accepts; simpl.
  - rewrite bool_decide_eq_true, list_elem_of_singleton. done.
  - rewrite existsb_exists. setoid_rewrite bool_decide_eq_true. setoid_rewrite list_elem_of_In.
    split; [by intros (x & Hx & ->)|by exists token].
Qed.

Lemma rest_matches_spec ts tokens :
  rest_matches ts tokens = true
  <-> (length ts <= length tokens)%nat /\ Forall2 accepts ts (take (length ts) tokens).
Proof.
  revert tokens. induction ts as [|t ts IH]; intros tokens; simpl.
  - split; [intros _; split; [lia|constructor]|done].
  - destruct tokens as [|token tokens]; simpl; [split; [done|lia]|].
    rewrite andb_true_iff, IH, token_matches_accepts, Forall2_cons. intuition lia.
Qed.

(** [cmd] starts with [pre], token by token what the pattern accepts. *)
Definition prefix_accepted (p : PrefixPattern) (cmd pre : list gostring) : Prop :=
  Forall2 accepts (pattern_tokens p) pre /\ exists suf, cmd = pre ++ suf.

Lemma matchesPrefix_spec p cmd pre : matchesPrefix p cmd = Some pre <-> prefix_accepted p cmd pre.
Proof.
  unfold matchesPrefix, prefix_accepted, pattern_tokens. split.
  - destruct (_ <? _)%nat eqn:El; [done|]. breflect. destruct cmd as [|head args]; [done|].
    case_decide as Hh; [done|]. destruct (rest_matches _ _) eqn:Er; [|done].
    intros [= <-]. apply rest_matches_spec in Er as [_ Er]. simpl. split.
    + constructor; [|done]. unfold accepts. simpl. by apply list_elem_of_singleton.
    + exists (drop (length (rest p)) args). by rewrite take_drop.
  - intros [Hall [suf ->]]. pose proof (Forall2_length _ _ _ Hall) as Hlen. simpl in Hlen.
    destruct pre as [|head args]; [done|]. apply Forall2_cons in Hall as [Hh Hall].
    unfold accepts in Hh. simpl in Hh. apply list_elem_of_singleton in Hh as ->.
    injection Hlen as Hlen. cbn [app length]. rewrite length_app.
    rewrite (proj2 (Nat.ltb_ge _ _)) by lia. case_decide as Hn; [done|].
    assert (rest_matches (rest p) (args ++ suf) = true) as ->.
    { apply rest_matches_spec. rewrite length_app, Hlen, take_app_length. split; [lia|done]. }
    f_equal. cbn [take]. f_equal. by rewrite Hlen, take_app_length.
Qed.

Lemma rule_matches_spec r cmd m :
  rule_matches r cmd = Some m
  <-> exists pre, prefix_accepted (Pattern r) cmd pre
        /\ m = ruleMatchPrefix pre (RuleDecision r) None (Justification r).
Proof.
  unfold rule_matches. setoid_rewrite <- matchesPrefix_spec. destruct (matchesPrefix _ _) as [pre|].
  - split; [intros [= <-]; by exists pre|]. by intros (? & [= <-] & ->).
  - split; [done|by intros (? & ? & _)].
Qed.

(** ** The matches of a command *)

Definition rules_for (p : Policy) (program : gostring) : list PrefixRule :=
  default [] (rulesByProgram p !! program).

(** [m] comes from a rule keyed by the command's own first token. *)
Definition exact_match (p : Policy) (cmd : list gostring) (m : RuleMatch) : Prop :=
  exists head args r pre, cmd = head :: args /\ r ∈ rules_for p head
    /\ prefix_accepted (Pattern r) cmd pre
    /\ m = ruleMatchPrefix pre (RuleDecision r) None (Justification r).

(** [m] comes from a rule keyed by the base name of the command's absolute
    program, which the allowlist of that name, if there is one, contains. *)
Definition resolved_match (homeDir : option gostring) (p : Policy) (cmd : list gostring)
    (m : RuleMatch) : Prop :=
  exists head args program basename r pre, cmd = head :: args
    /\ AbsPath.FromAbsolutePathChecked false homeDir head = Some program
    /\ executablePathLookupKey program = Some basename
    /\ (forall paths, hostExecutablesByName p !! basename = Some paths -> program ∈ paths)
    /\ r ∈ rules_for p basename
    /\ prefix_accepted (Pattern r) (basename :: args) pre
    /\ m = ruleMatchPrefix pre (RuleDecision r) (Some program) (Justification r).

Lemma containsPath_spec paths target : containsPath paths target = true <-> target ∈ paths.
Proof.
  unfold containsPath. rewrite existsb_exists, list_elem_of_In. setoid_rewrite bool_decide_eq_true.
  split; [by intros (? & ? & ->)|by exists target].
Qed.

Lemma matchExactRules_spec p cmd m : m ∈ matchExactRules p cmd <-> exact_match p cmd m.
Proof.
  unfold matchExactRules, exact_match, rules_for. destruct cmd as [|head args].
  { split; [by intros H%not_elem_of_nil|by intros (? & ? & ? & ? & ? & _)]. }
  assert (m ∈ match rulesByProgram p !! head with None => [] | Some rules =>
            omap (fun rule => rule_matches rule (head :: args)) rules end
    <-> exists r, r ∈ default [] (rulesByProgram p !! head) /\ rule_matches r (head :: args) = Some m) as ->.
  { destruct (rulesByProgram p !! head) as [rules|]; simpl; [apply list_elem_of_omap|].
    split; [by intros H%not_elem_of_nil|by intros (? & H%not_elem_of_nil & _)]. }
  setoid_rewrite rule_matches_spec. split.
  - intros (r & Hr & pre & Hpre & ->). by exists head, args, r, pre.
  - intros (? & ? & r & pre & [= <- <-] & Hr & Hpre & ->). exists r. split; [done|]. by exists pre.
Qed.

Lemma matchHostExecutableRules_spec homeDir p cmd m :
  m ∈ matchHostExecutableRules homeDir p cmd <-> resolved_match homeDir p cmd m.
Proof.
  unfold matchHostExecutableRules, resolved_match, rules_for. split.
  - destruct cmd as [|head args]; [by intros H%not_elem_of_nil|].
    destruct (AbsPath.FromAbsolutePathChecked _ _ _) as [program|] eqn:Ep; [|by intros H%not_elem_of_nil].
    destruct (executablePathLookupKey _) as [basename|] eqn:Eb; [|by intros H%not_elem_of_nil].
    destruct (rulesByProgram p !! basename) as [rules|] eqn:Er; [|by intros H%not_elem_of_nil].
    cbv zeta. destruct (match hostExecutablesByName p !! basename with
      | Some paths => containsPath paths program | None => true end) eqn:Ea;
      simpl; [|by intros H%not_elem_of_nil].
    intros (r & Hr & Hm)%list_elem_of_omap. destruct (rule_matches r _) as [m'|] eqn:Em; [|done].
    injection Hm as <-. apply rule_matches_spec in Em as (pre & Hpre & ->).
    exists head, args, program, basename, r, pre. split_and!; try done; [|by rewrite Er].
    intros paths Hp. rewrite Hp in Ea. by apply containsPath_spec.
  - intros (head & args & program & basename & r & pre & -> & -> & -> & Hallow & Hr & Hpre & ->).
    destruct (rulesByProgram p !! basename) as [rules|]; [|by apply not_elem_of_nil in Hr].
    cbv zeta. assert (match hostExecutablesByName p !! basename with
      | Some paths => containsPath paths program | None => true end = true) as ->.
    { destruct (hostExecutablesByName p !! basename) as [paths|]; [|done].
      by apply containsPath_spec, Hallow. }
    simpl. apply list_elem_of_omap. exists r. split; [done|].
    rewrite (proj2 (rule_matches_spec r (basename :: args) _)
      (ex_intro _ pre (conj Hpre eq_refl))). done.
Qed.

Lemma elem_nonempty {A} (l : list A) : l <> [] <-> exists x, x ∈ l.
Proof.
  split; [destruct l as [|x l]; [done|exists x; by left]|]. intros [x Hx] ->. by apply not_elem_of_nil in Hx.
Qed.

Lemma MatchesForCommand_spec homeDir p cmd fallback resolve m :
  m ∈ MatchesForCommand homeDir p cmd fallback resolve
  <-> exact_match p cmd m
      \/ (resolve = true /\ resolved_match homeDir p cmd m
          /\ (forall m', ~ exact_match p cmd m'))
      \/ (exists heuristics, fallback = Some heuristics
          /\ m = ruleMatchHeuristics cmd (heuristics cmd)
          /\ (forall m', ~ exact_match p cmd m')
          /\ (resolve = true -> forall m', ~ resolved_match homeDir p cmd m')).
Proof.
  unfold MatchesForCommand. setoid_rewrite <- matchExactRules_spec.
  setoid_rewrite <- matchHostExecutableRules_spec.
  set (ex := matchExactRules p cmd). set (host := matchHostExecutableRules homeDir p cmd).
  assert (forall l : list RuleMatch, (forall m', ~ m' ∈ l) <-> l = []) as Hnil.
  { intros l. split; [|intros -> m'; apply not_elem_of_nil].
    destruct l as [|x l]; [done|]. intros H. destruct (H x). by left. }
  rewrite !Hnil. assert (~ m ∈ []) as Hm by apply not_elem_of_nil.
  case_decide as Hex; [rewrite Hex|destruct ex as [|x l]; [done|naive_solver]].
  destruct resolve.
  - destruct (decide (host = [])) as [Hhost|Hhost].
    + rewrite Hhost. destruct fallback as [h|]; [rewrite list_elem_of_singleton|]; naive_solver.
    + destruct host as [|x l]; [done|]. naive_solver.
  - destruct fallback as [h|]; [rewrite list_elem_of_singleton|]; naive_solver.
Qed.

(** C21.  The matches of a command are: those of the rules for its first token;
    only when there are none, and if the option asks for it, those of the
    rules for its program's base name, gated by the allowlist and carrying
    the resolved path; only when there are none either, and if there is a
    fallback, one heuristics match with the fallback's decision. *)
Theorem MatchesForCommand_iff homeDir p cmd fallback resolve m :
  m ∈ MatchesForCommand homeDir p cmd fallback resolve
  <-> exact_match p cmd m
      \/ (resolve = true /\ resolved_match homeDir p cmd m
          /\ (forall m', ~ exact_match p cmd m'))
      \/ (exists heuristics, fallback = Some heuristics
          /\ m = ruleMatchHeuristics cmd (heuristics cmd)
          /\ (forall m', ~ exact_match p cmd m')
          /\ (resolve = true -> forall m', ~ resolved_match homeDir p cmd m')).
Proof. apply MatchesForCommand_spec. Qed.

(** ** The strictest decision *)

Lemma severity_inj d d' : severity d = severity d' -> d = d'.
Proof. by destruct d, d'. Qed.

Lemma severity_top d : (2 <= severity d)%nat -> d = DecisionForbidden.
Proof. destruct d; simpl; [lia|lia|done]. Qed.

Lemma decision_max_severity d d' : severity (decision_max d d') = Nat.max (severity d) (severity d').
Proof. by destruct d, d'. Qed.

Lemma fold_max ms d0 :
  let d := fold_left (fun d m => decision_max d (match_decision m)) ms d0 in
  (d = d0 \/ exists m, m ∈ ms /\ match_decision m = d)
  /\ (severity d0 <= severity d)%nat
  /\ (forall m, m ∈ ms -> (severity (match_decision m) <= severity d)%nat).
Proof.
  revert d0. induction ms as [|m ms IH]; intros d0; simpl.
  - split_and!; [by left|done|]. intros m H%not_elem_of_nil. done.
  - destruct (IH (decision_max d0 (match_decision m))) as (Hd & Hle & Hall).
    rewrite decision_max_severity in Hle. split_and!; [|lia|].
    + destruct Hd as [Hd|(m' & Hm' & Hd)]; [|right; exists m'; split; [by right|done]].
      rewrite Hd. unfold decision_max. case_match; [right; exists m; split; [by left|done]|by left].
    + intros m' [->|Hm']%elem_of_cons; [lia|by apply Hall].
Qed.

(** [d] is the strictest decision of the matches. *)
Definition strictest (matched : list RuleMatch) (d : Decision) : Prop :=
  (exists m, m ∈ matched /\ match_decision m = d)
  /\ forall m, m ∈ matched -> (severity (match_decision m) <= severity d)%nat.

Lemma evaluation_strictest matched :
  matched <> [] -> strictest matched (EvalDecision (evaluationFromMatches matched)).
Proof.
  destruct matched as [|m ms]; [done|]. intros _. simpl.
  destruct (fold_max ms (match_decision m)) as (Hd & Hle & Hall). split.
  - destruct Hd as [Hd|(m' & Hm' & Hd)]; [exists m; split; [by left|done]|].
    exists m'. split; [by right|done].
  - intros m' [->|Hm']%elem_of_cons; [done|by apply Hall].
Qed.

Lemma MatchesForCommand_nonempty homeDir p cmd heuristics resolve :
  MatchesForCommand homeDir p cmd (Some heuristics) resolve <> [].
Proof. unfold MatchesForCommand. by destruct (if decide _ then _ else _). Qed.

(** C22.  Checking one or more commands with a heuristics fallback yields the
    strictest decision among all matches of all the commands (one of them
    carries it), and a forbidding match always forbids. *)
Theorem CheckMultiple_strictest homeDir p commands heuristics resolve :
  commands <> [] ->
  let d := EvalDecision (CheckMultipleWithOptions homeDir p commands (Some heuristics) resolve) in
  (exists cmd m, cmd ∈ commands
     /\ m ∈ MatchesForCommand homeDir p cmd (Some heuristics) resolve /\ match_decision m = d)
  /\ (forall cmd m, cmd ∈ commands ->
        m ∈ MatchesForCommand homeDir p cmd (Some heuristics) resolve ->
        (severity (match_decision m) <= severity d)%nat
        /\ (match_decision m = DecisionForbidden -> d = DecisionForbidden)).
Proof.
  intros Hne. unfold CheckMultipleWithOptions.
  set (matches cmd := MatchesForCommand homeDir p cmd (Some heuristics) resolve).
  assert (forall m, m ∈ concat (map matches commands) <-> exists cmd, cmd ∈ commands /\ m ∈ matches cmd) as Hin.
  { intros m. rewrite list_elem_of_In, in_concat. setoid_rewrite in_map_iff.
    setoid_rewrite list_elem_of_In. naive_solver. }
  assert (concat (map matches commands) <> []) as Hne'.
  { apply elem_nonempty in Hne as [cmd Hcmd].
    destruct (proj1 (elem_nonempty (matches cmd)) (MatchesForCommand_nonempty _ _ _ _ _)) as [m Hm].
    apply elem_nonempty. exists m. apply Hin. by exists cmd. }
  destruct (evaluation_strictest _ Hne') as [(m & Hm & Hd) Hall]. split.
  - apply Hin in Hm as (cmd & Hcmd & Hm). by exists cmd, m.
  - intros cmd m' Hcmd Hm'. assert (m' ∈ concat (map matches commands)) as H by (apply Hin; by exists cmd).
    specialize (Hall _ H). split; [done|]. intros E. rewrite E in Hall.
    by apply severity_top.
Qed.

Lemma CheckMultiple_strictest_witness :
  let p := mkPolicy {[ str "git" := [mkRule (mkPattern "git" []) DecisionAllow None;
                                     mkRule (mkPattern "git" [PatternTokenAlts [str "push"; str "fetch"]])
                                       DecisionPrompt None] ]} [] ∅ in
  let h := fun _ => DecisionForbidden in
  EvalDecision (CheckMultipleWithOptions None p [[str "git"; str "log"]; [str "/bin/git"; str "push"]] (Some h) true)
    = DecisionPrompt
  /\ (exists cmd m, cmd ∈ [[str "git"; str "log"]; [str "/bin/git"; str "push"]]
        /\ m ∈ MatchesForCommand None p cmd (Some h) true
        /\ match_decision m = EvalDecision (CheckMultipleWithOptions None p
             [[str "git"; str "log"]; [str "/bin/git"; str "push"]] (Some h) true)).
Proof. split; [vm_compute; reflexivity|]. apply CheckMultiple_strictest. discriminate. Defined.

(** ** Overlays *)

Lemma rules_for_MergeOverlay p overlay program :
  rules_for (MergeOverlay p overlay) program = rules_for p program ++ rules_for overlay program.
Proof.
  unfold rules_for, MergeOverlay. cbn [rulesByProgram]. rewrite lookup_union_with.
  destruct (rulesByProgram p !! program), (rulesByProgram overlay !! program); simpl;
    by rewrite ?app_nil_r.
Qed.

Lemma matchExactRules_rules_for p head args :
  matchExactRules p (head :: args)
  = omap (fun rule => rule_matches rule (head :: args)) (rules_for p head).
Proof. unfold rules_for. simpl. by destruct (rulesByProgram p !! head). Qed.

Lemma matchExactRules_MergeOverlay p overlay cmd :
  matchExactRules (MergeOverlay p overlay) cmd = matchExactRules p cmd ++ matchExactRules overlay cmd.
Proof.
  destruct cmd as [|head args]; [done|].
  by rewrite !matchExactRules_rules_for, rules_for_MergeOverlay, omap_app.
Qed.

Lemma Check_exact homeDir p cmd fallback :
  matchExactRules p cmd <> [] -> Check homeDir p cmd fallback = evaluationFromMatches (matchExactRules p cmd).
Proof.
  intros Hne. unfold Check, CheckWithOptions, MatchesForCommand. rewrite decide_False by done.
  by destruct (matchExactRules p cmd).
Qed.

(**  Merging an overlay keeps every exact match of the base, in order,
    followed by the overlay's; so it never loosens the decision on a command a
    base rule matches exactly, and when both match, the decision is the
    stricter of the two. *)
Theorem MergeOverlay_exact homeDir p overlay cmd fallback :
  matchExactRules p cmd <> [] ->
  let merged := Check homeDir (MergeOverlay p overlay) cmd fallback in
  MatchedRules merged = matchExactRules p cmd ++ matchExactRules overlay cmd
  /\ (severity (EvalDecision (Check homeDir p cmd fallback)) <= severity (EvalDecision merged))%nat
  /\ (matchExactRules overlay cmd <> [] ->
      EvalDecision merged = decision_max (EvalDecision (Check homeDir p cmd fallback))
                              (EvalDecision (Check homeDir overlay cmd fallback))).
Proof.
  intros Hp. pose proof (matchExactRules_MergeOverlay p overlay cmd) as Em.
  assert (matchExactRules (MergeOverlay p overlay) cmd <> []) as Hm.
  { rewrite Em. by destruct (matchExactRules p cmd). }
  cbv zeta. rewrite !Check_exact, Em by done.
  assert (matchExactRules p cmd ++ matchExactRules overlay cmd <> []) as Hm' by congruence.
  destruct (evaluation_strictest _ Hp) as [(m1 & Hm1 & Hd1) Hall1].
  destruct (evaluation_strictest _ Hm') as [(m & Hin & Hd) Hall].
  assert (severity (EvalDecision (evaluationFromMatches (matchExactRules p cmd)))
    <= severity (EvalDecision (evaluationFromMatches
         (matchExactRules p cmd ++ matchExactRules overlay cmd))))%nat as Hle.
  { rewrite <- Hd1. apply Hall. apply elem_of_app. by left. }
  split_and!; [done|done|]. intros Ho. rewrite Check_exact by done.
  destruct (evaluation_strictest _ Ho) as [(m2 & Hm2 & Hd2) Hall2].
  assert (severity (EvalDecision (evaluationFromMatches (matchExactRules overlay cmd)))
    <= severity (EvalDecision (evaluationFromMatches
         (matchExactRules p cmd ++ matchExactRules overlay cmd))))%nat as Hle2.
  { rewrite <- Hd2. apply Hall. apply elem_of_app. by right. }
  apply severity_inj. rewrite decision_max_severity.
  apply elem_of_app in Hin as [Hin|Hin]; [specialize (Hall1 _ Hin)|specialize (Hall2 _ Hin)];
    rewrite Hd in *; lia.
Qed.

Lemma MergeOverlay_exact_witness :
  let p := mkPolicy {[ str "rm" := [mkRule (mkPattern "rm" []) DecisionPrompt None] ]} [] ∅ in
  let o := mkPolicy {[ str "rm" := [mkRule (mkPattern "rm" [PatternTokenSingle "-rf"]) DecisionForbidden None] ]} [] ∅ in
  let merged := Check None (MergeOverlay p o) [str "rm"; str "-rf"; str "/"] None in
  EvalDecision merged = DecisionForbidden
  /\ (severity (EvalDecision (Check None p [str "rm"; str "-rf"; str "/"] None))
      <= severity (EvalDecision merged))%nat.
Proof.
  split; [vm_compute; reflexivity|]. apply MergeOverlay_exact. vm_compute. discriminate.
Defined.

(** ** Compiled domains *)

(** The last rule of each host that allows or forbids it, in order. *)
Fixpoint latest (rules : list NetworkRule) : list NetworkRule :=
  match rules with
  | [] => []
  | r :: rules =>
      if decide (NetDecision r = DecisionPrompt) then latest rules
      else if existsb (fun r' => bool_decide (NetDecision r' <> DecisionPrompt)
                                 && bool_decide (Host r' = Host r)) rules
      then latest rules
      else r :: latest rules
  end.

Lemma latest_snoc rules r :
  latest (rules ++ [r])
  = if decide (NetDecision r = DecisionPrompt) then latest rules
    else filter (fun r' => Host r' <> Host r) (latest rules) ++ [r].
Proof.
  induction rules as [|r0 rules IH]; simpl.
  - by case_decide.
  - rewrite existsb_app. simpl. destruct (decide (NetDecision r = DecisionPrompt)) as [Hr|Hr].
    + rewrite (bool_decide_eq_false_2 (NetDecision r <> _)) by naive_solver. simpl.
      by rewrite orb_false_r, IH.
    + rewrite (bool_decide_eq_true_2 (NetDecision r <> _)) by done. simpl. rewrite orb_false_r, IH.
      case_decide as H0; [done|]. case_bool_decide as Hh.
      * rewrite orb_true_r. case_match; [done|]. rewrite filter_cons_False; [done|]. naive_solver.
      * rewrite orb_false_r. case_match; [done|]. by rewrite filter_cons_True by congruence.
Qed.

Lemma map_filter_host l host :
  map Host (filter (fun r' => Host r' <> host) l) = filter (fun h => h <> host) (map Host l).
Proof.
  induction l as [|r l IH]; [done|]. simpl. destruct (decide (Host r = host)) as [E|E].
  - rewrite !filter_cons_False by naive_solver. done.
  - rewrite !filter_cons_True by done. simpl. by rewrite IH.
Qed.

Lemma compiled_latest rules :
  fold_left compileRule rules ([], [])
  = (map Host (filter (fun r => NetDecision r = DecisionAllow) (latest rules)),
     map Host (filter (fun r => NetDecision r = DecisionForbidden) (latest rules))).
Proof.
  induction rules as [|r rules IH] using rev_ind; [done|].
  rewrite fold_left_app, IH, latest_snoc. simpl. unfold upsertDomain, removeDomain.
  assert (forall (P Q : NetworkRule -> Prop) `{!forall x, base.Decision (P x), !forall x, base.Decision (Q x)} (l : list NetworkRule),
    filter P (filter Q l) = filter Q (filter P l)) as Hcomm.
  { intros P Q ? ? l. rewrite !list_filter_filter. apply list_filter_iff. naive_solver. }
  destruct (NetDecision r) eqn:Ed; simpl; rewrite ?filter_app, ?map_app;
    rewrite ?(Hcomm (fun r0 => NetDecision r0 = _)), ?map_filter_host; simpl.
  - rewrite filter_cons_True, filter_cons_False by congruence. simpl. by rewrite app_nil_r.
  - done.
  - rewrite filter_cons_False, filter_cons_True by congruence. simpl. by rewrite app_nil_r.
Qed.

(**  The compiled lists are decided by each host's last allowing or
    forbidding rule: the allowed list holds the hosts whose last such rule
    allows, the denied list those whose last one forbids, each in the order of
    these rules; no host is twice in a list or in both. *)
Theorem CompiledNetworkDomains_latest p :
  let '(allowed, denied) := CompiledNetworkDomains p in
  allowed = map Host (filter (fun r => NetDecision r = DecisionAllow) (latest (networkRules p)))
  /\ denied = map Host (filter (fun r => NetDecision r = DecisionForbidden) (latest (networkRules p)))
  /\ NoDup (allowed ++ denied).
Proof.
  unfold CompiledNetworkDomains. rewrite compiled_latest. split_and!; [done..|].
  assert (NoDup (map Host (latest (networkRules p)))) as Hnd.
  { induction (networkRules p) as [|r rules IH] using rev_ind; [constructor|].
    rewrite latest_snoc. case_decide; [done|]. rewrite map_app, map_filter_host. simpl.
    apply NoDup_app. split_and!; [by apply NoDup_filter| |apply NoDup_singleton].
    intros h [Hh _]%list_elem_of_filter. by rewrite list_elem_of_singleton. }
  induction (latest (networkRules p)) as [|r l IH]; [constructor|]. simpl in Hnd.
  apply NoDup_cons in Hnd as [Hr Hl]. specialize (IH Hl).
  assert (forall (P : NetworkRule -> Prop) `{!forall x, base.Decision (P x)}, Host r ∉ map Host (filter P l)) as Hn.
  { intros P ? Hin. apply Hr. clear -Hin. apply list_elem_of_fmap in Hin as (x & -> & Hx).
    apply list_elem_of_filter in Hx as [_ Hx]. by apply list_elem_of_fmap_2. }
  destruct (NetDecision r) eqn:Ed.
  - rewrite filter_cons_True, filter_cons_False by congruence. simpl. constructor; [|done].
    rewrite not_elem_of_app. by split.
  - by rewrite !filter_cons_False by congruence.
  - rewrite filter_cons_False, filter_cons_True by congruence. simpl.
    rewrite <- Permutation_middle. constructor; [|done]. rewrite not_elem_of_app. by split.
Qed.

End ExecPolicy.
