(* ===== verification/ExecPolicyParser.v ===== *)
(** * internal/execpolicy: policy files

    [parse_helpers.go], [builder.go], [validate.go], [parser.go] and
    [LoadPolicies]: the three builtins policy files call, the builder they fill
    and the self-tests run after each file.

    Starlark is third-party code and an argument of the model: [Value] is what
    the builtins can observe of one ([starlark.AsString], the assertion to
    [*starlark.List] and [Type()]), a call carries its keyword tuples and what
    [starlark.UnpackArgs] stored, and running a file is a sequence of builtin
    calls and an optional error.  The builtins return [None] and Starlark cannot
    catch errors, so a run does not depend on the builder and ends at the first
    failing call. *)

From stdpp Require Import gmap.
From S2P Require Import Prelude GoStrings GoUtf8 GoText AbsPath ExecPolicyShlex ExecPolicy.

Module PolicyParser.
Import Shlex ExecPolicy.

(** ** parse_helpers.go *)

Inductive Value :=
| VString (s : gostring)
| VList (elems : list Value)
| VOther (type : gostring).

Definition Type_ (v : Value) : gostring :=
  match v with VString _ => "string" | VList _ => "list" | VOther t => t end.

Definition AsString (v : Value) : option gostring :=
  match v with VString s => Some s | _ => None end.

(** A list whose elements must be strings; [fail] is the error for one that is
    not. *)
Fixpoint stringElems (fail : gostring -> Error) (elems : list Value) : result Error (list gostring) :=
  match elems with
  | [] => Ok []
  | elem :: elems =>
      match AsString elem with
      | None => Err (fail (Type_ elem))
      | Some s => tokens ← stringElems fail elems; Ok (s :: tokens)
      end
  end.

Definition parsePatternToken (value : Value) : result Error PatternToken :=
  match value with
  | VString s => Ok (PatternTokenSingle s)
  | VOther t =>
      Err (ErrInvalidPattern ("pattern element must be a string or list of strings (got " ++ t ++ str ")"))
  | VList elems =>
      tokens ← stringElems (fun t =>
        ErrInvalidPattern ("pattern alternative must be a string (got " ++ t ++ str ")")) elems;
      match tokens with
      | [] => Err (ErrInvalidPattern "pattern alternatives cannot be empty")
      | [token] => Ok (PatternTokenSingle token)
      | _ => Ok (PatternTokenAlts tokens)
      end
  end.

Fixpoint mapResult {A B} (f : A -> result Error B) (l : list A) : result Error (list B) :=
  match l with
  | [] => Ok []
  | x :: l => y ← f x; ys ← mapResult f l; Ok (y :: ys)
  end.

Definition parsePattern (pattern : list Value) : result Error (list PatternToken) :=
  tokens ← mapResult parsePatternToken pattern;
  match tokens with
  | [] => Err (ErrInvalidPattern "pattern cannot be empty")
  | _ => Ok tokens
  end.

Definition parseStringExample (raw : gostring) : result Error (list gostring) :=
  match shlexSplit raw with
  | None => Err (ErrInvalidExample "example string has invalid shell syntax")
  | Some [] => Err (ErrInvalidExample "example cannot be an empty string")
  | Some tokens => Ok tokens
  end.

Definition parseListExample (elems : list Value) : result Error (list gostring) :=
  tokens ← stringElems (fun t =>
    ErrInvalidExample ("example tokens must be strings (got " ++ t ++ str ")")) elems;
  match tokens with
  | [] => Err (ErrInvalidExample "example cannot be an empty list")
  | _ => Ok tokens
  end.

Definition parseExample (value : Value) : result Error (list gostring) :=
  match value with
  | VString s => parseStringExample s
  | VOther t =>
      Err (ErrInvalidExample ("example must be a string or list of strings (got " ++ t ++ str ")"))
  | VList elems => parseListExample elems
  end.

Definition parseExamples (examples : list Value) : result Error (list (list gostring)) :=
  mapResult parseExample examples.

(** ** builder.go *)

Record pendingExampleValidation := mkPending {
  rules : list PrefixRule;
  matches : list (list gostring);
  notMatches : list (list gostring);
  location : option ErrorLocation
}.

Record policyBuilder := mkBuilder {
  builderRules : RuleMap;
  builderNetworkRules : list NetworkRule;
  builderHostExecutables : gmap gostring (list gostring);
  pendingExampleValidations : list pendingExampleValidation
}.

Definition newPolicyBuilder : policyBuilder := mkBuilder ∅ [] ∅ [].

Definition addRule (b : policyBuilder) (rule : PrefixRule) : policyBuilder :=
  mkBuilder (rules_insert (builderRules b) (Program_ rule) rule) (builderNetworkRules b)
    (builderHostExecutables b) (pendingExampleValidations b).

Definition addNetworkRule (b : policyBuilder) (rule : NetworkRule) : policyBuilder :=
  mkBuilder (builderRules b) (builderNetworkRules b ++ [rule])
    (builderHostExecutables b) (pendingExampleValidations b).

Definition addHostExecutable (b : policyBuilder) (name : gostring) (paths : list gostring)
    : policyBuilder :=
  mkBuilder (builderRules b) (builderNetworkRules b)
    (<[name := paths]> (builderHostExecutables b)) (pendingExampleValidations b).

Definition addPendingExampleValidation (b : policyBuilder) (v : pendingExampleValidation)
    : policyBuilder :=
  mkBuilder (builderRules b) (builderNetworkRules b) (builderHostExecutables b)
    (pendingExampleValidations b ++ [v]).

Definition build (b : policyBuilder) : Policy :=
  mkPolicy (builderRules b) (builderNetworkRules b) (builderHostExecutables b).

Definition attachValidationLocation (err : Error) (location : option ErrorLocation) : Error :=
  match location with Some l => withLocation err l | None => err end.

(** ** parser.go: the calls of a policy file *)

(** What [UnpackArgs] stores for each builtin; an omitted argument keeps its
    zero value. *)
Record PrefixRuleArgs := mkPrefixRuleArgs {
  patternValue : list Value;
  decisionRaw : gostring;
  matchValue : list Value;
  notMatchValue : list Value;
  prefixJustification : gostring
}.

Record NetworkRuleArgs := mkNetworkRuleArgs {
  hostArg : gostring;
  protocolRaw : gostring;
  netDecisionRaw : gostring;
  netJustificationRaw : gostring
}.

Record HostExecutableArgs := mkHostExecutableArgs { nameArg : gostring; pathsList : list Value }.

(** The error a builtin ends with: its own, or one of [UnpackArgs]. *)
Inductive BuiltinError := PolicyError (e : Error) | StarlarkError (message : gostring).

Definition kwargs_ := list (list Value).

Definition hasKeyword (kwargs : kwargs_) (name : gostring) : bool :=
  existsb (fun kv => match kv with
                     | [key; _] => bool_decide (AsString key = Some name)
                     | _ => false
                     end) kwargs.

Definition lift {A} (r : result Error A) : result BuiltinError A :=
  match r with Ok a => Ok a | Err e => Err (PolicyError e) | Panic => Panic end.

Definition prefixRuleBuiltin (b : policyBuilder) (unpacked : gostring + PrefixRuleArgs)
    (kwargs : kwargs_) (location : option ErrorLocation) : result BuiltinError policyBuilder :=
  match unpacked with
  | inl e => Err (StarlarkError e)
  | inr args =>
      decision ← lift (if hasKeyword kwargs "decision" then ParseDecision (decisionRaw args)
                       else Ok DecisionAllow);
      let justificationSet := hasKeyword kwargs "justification" in
      if justificationSet && isBlank (prefixJustification args)
      then Err (PolicyError (ErrInvalidRule "justification cannot be empty"))
      else
        patternTokens ← lift (parsePattern (patternValue args));
        matches ← lift (parseExamples (matchValue args));
        notMatches ← lift (parseExamples (notMatchValue args));
        match patternTokens with
        | [] => Panic
        | firstToken :: rest =>
            let rules := map (fun head =>
              mkRule (mkPattern head rest) decision
                (if justificationSet then Some (prefixJustification args) else None))
              (Alternatives firstToken) in
            let b := addPendingExampleValidation b (mkPending rules matches notMatches location) in
            Ok (fold_left addRule rules b)
        end
  end.

Section Platform.
Variable unicode_lower : rune -> rune.
Variable unicode_print : rune -> bool.
Variable homeDir : option gostring.

Definition networkRuleBuiltin (b : policyBuilder) (unpacked : gostring + NetworkRuleArgs)
    (kwargs : kwargs_) : result BuiltinError policyBuilder :=
  match unpacked with
  | inl e => Err (StarlarkError e)
  | inr args =>
      protocol ← lift (ParseNetworkRuleProtocol (protocolRaw args));
      decision ← lift (parseNetworkRuleDecision (netDecisionRaw args));
      let justificationSet := hasKeyword kwargs "justification" in
      if justificationSet && isBlank (netJustificationRaw args)
      then Err (PolicyError (ErrInvalidRule "justification cannot be empty"))
      else
        normalizedHost ← lift (normalizeNetworkRuleHost unicode_lower (hostArg args));
        Ok (addNetworkRule b (mkNetworkRule normalizedHost protocol decision
              (if justificationSet then Some (netJustificationRaw args) else None)))
  end.

Definition containsPathSeparator (name : gostring) : bool :=
  existsb (fun c => bool_decide (c = "/"%char)) name.

Definition validateHostExecutableName (name : gostring) : result Error () :=
  if decide (name = []) then Err (ErrInvalidRule "host_executable name cannot be empty")
  else if bool_decide (filepath_base name <> name) || containsPathSeparator name
          || bool_decide (name = str ".") || bool_decide (name = str "..")
  then Err (ErrInvalidRule ("host_executable name must be a bare executable name (got " ++ name ++ str ")"))
  else Ok ().

(** [filepath.IsAbs] on Unix *)
Definition filepath_isAbs (path : gostring) : bool := has_prefix path "/".

(** [pathError] stands for the text of the error of [FromAbsolutePathChecked]. *)
Definition parseLiteralAbsolutePath (pathError : gostring -> gostring) (raw : gostring)
    : result Error gostring :=
  if negb (filepath_isAbs raw)
  then Err (ErrInvalidRule ("host_executable paths must be absolute (got " ++ raw ++ str ")"))
  else match AbsPath.FromAbsolutePathChecked false homeDir raw with
       | None => Err (ErrInvalidRule ("invalid absolute path `" ++ raw ++ str "`: " ++ pathError raw))
       | Some path => Ok path
       end.

Definition hostExecutablePath (pathError : gostring -> gostring) (name : gostring)
    (parsed : list gostring) (value : Value) : result Error (list gostring) :=
  match AsString value with
  | None => Err (ErrInvalidRule ("host_executable paths must be strings (got " ++ Type_ value ++ str ")"))
  | Some raw =>
      path ← parseLiteralAbsolutePath pathError raw;
      if bool_decide (executablePathLookupKey path = Some (executableLookupKey name))
      then Ok (if containsPath parsed path then parsed else parsed ++ [path])
      else Err (ErrInvalidRule ("host_executable path `" ++ raw ++ str "` must have basename `"
                                ++ name ++ str "`"))
  end.

Fixpoint parseHostExecutablePaths (pathError : gostring -> gostring) (name : gostring)
    (values : list Value) (parsed : list gostring) : result Error (list gostring) :=
  match values with
  | [] => Ok parsed
  | value :: values =>
      parsed ← hostExecutablePath pathError name parsed value;
      parseHostExecutablePaths pathError name values parsed
  end.

Definition hostExecutableBuiltin (pathError : gostring -> gostring) (b : policyBuilder)
    (unpacked : gostring + HostExecutableArgs) : result BuiltinError policyBuilder :=
  match unpacked with
  | inl e => Err (StarlarkError e)
  | inr args =>
      _ ← lift (validateHostExecutableName (nameArg args));
      paths ← lift (parseHostExecutablePaths pathError (nameArg args) (pathsList args) []);
      Ok (addHostExecutable b (executableLookupKey (nameArg args)) paths)
  end.

(** ** validate.go *)

Definition renderExample (example : list gostring) : gostring :=
  default (str "unable to render example") (shlexTryJoin example).

Definition renderRules (rs : list PrefixRule) : list gostring := map (rule_debug unicode_print) rs.

Definition validateMatchExamples (policy : Policy) (rs : list PrefixRule)
    (examples : list (list gostring)) : option Error :=
  let unmatched := map renderExample
    (filter (fun example => MatchesForCommand homeDir policy example None true = []) examples) in
  if decide (unmatched = []) then None
  else Some (ErrExampleDidNotMatch (renderRules rs) unmatched None).

Fixpoint validateNotMatchExamples (policy : Policy) (examples : list (list gostring)) : option Error :=
  match examples with
  | [] => None
  | example :: examples =>
      match MatchesForCommand homeDir policy example None true with
      | m :: _ => Some (ErrExampleDidMatch (match_debug unicode_print m) (renderExample example) None)
      | [] => validateNotMatchExamples policy examples
      end
  end.

(** The scratch policy: only the validation's own rules, all allowlists. *)
Definition scratchPolicy (b : policyBuilder) (v : pendingExampleValidation) : Policy :=
  mkPolicy (fold_left (fun m rule => rules_insert m (Program_ rule) rule) (rules v) ∅) []
    (builderHostExecutables b).

Fixpoint validatePending (b : policyBuilder) (vs : list pendingExampleValidation) : option Error :=
  match vs with
  | [] => None
  | v :: vs =>
      let scratch := scratchPolicy b v in
      match validateNotMatchExamples scratch (notMatches v) with
      | Some err => Some (attachValidationLocation err (location v))
      | None =>
          match validateMatchExamples scratch (rules v) (matches v) with
          | Some err => Some (attachValidationLocation err (location v))
          | None => validatePending b vs
          end
      end
  end.

Definition validatePendingExamplesFrom (b : policyBuilder) (start : nat) : option Error :=
  validatePending b (drop start (pendingExampleValidations b)).

(** ** parser.go: running a file *)

Inductive Call :=
| prefix_rule (unpacked : gostring + PrefixRuleArgs) (kwargs : kwargs_)
    (location : option ErrorLocation)
| network_rule (unpacked : gostring + NetworkRuleArgs) (kwargs : kwargs_)
| host_executable (unpacked : gostring + HostExecutableArgs) (kwargs : kwargs_).

Variable pathError : gostring -> gostring.

Definition runCall (b : policyBuilder) (c : Call) : result BuiltinError policyBuilder :=
  match c with
  | prefix_rule unpacked kwargs location => prefixRuleBuiltin b unpacked kwargs location
  | network_rule unpacked kwargs => networkRuleBuiltin b unpacked kwargs
  | host_executable unpacked _ => hostExecutableBuiltin pathError b unpacked
  end.

(** The builder after a run, and the error that ended it; [None] is a panic. *)
Fixpoint runCalls (b : policyBuilder) (calls : list Call) (final : option gostring)
    : option (policyBuilder * option BuiltinError) :=
  match calls with
  | [] => Some (b, StarlarkError <$> final)
  | c :: calls =>
      match runCall b c with
      | Ok b => runCalls b calls final
      | Err e => Some (b, Some e)
      | Panic => None
      end
  end.

(** The interpreter: what a file does when run, and where its error is. *)
Variable exec : gostring -> gostring -> list Call * option gostring.
Variable starlarkErrorLocation : gostring -> option ErrorLocation.

Definition Parse (b : policyBuilder) (policyIdentifier policyFileContents : gostring)
    : option (policyBuilder * option Error) :=
  let pendingValidationCount := length (pendingExampleValidations b) in
  let '(calls, final) := exec policyIdentifier policyFileContents in
  match runCalls b calls final with
  | None => None
  | Some (b, Some (PolicyError e)) => Some (b, Some e)
  | Some (b, Some (StarlarkError m)) => Some (b, Some (ErrStarlark m (starlarkErrorLocation m)))
  | Some (b, None) => Some (b, validatePendingExamplesFrom b pendingValidationCount)
  end.

Inductive LoadError :=
| ReadFailed (policyPath message : gostring)
| ParseFailed (policyPath : gostring) (e : Error).

(** [LoadPolicies]; [readFile] is [os.ReadFile]. *)
Fixpoint loadFiles (readFile : gostring -> gostring + gostring) (b : policyBuilder)
    (policyPaths : list gostring) : result LoadError Policy :=
  match policyPaths with
  | [] => Ok (build b)
  | path :: policyPaths =>
      match readFile path with
      | inl e => Err (ReadFailed path e)
      | inr contents =>
          match Parse b path contents with
          | None => Panic
          | Some (_, Some e) => Err (ParseFailed path e)
          | Some (b, None) => loadFiles readFile b policyPaths
          end
      end
  end.

Definition LoadPolicies (readFile : gostring -> gostring + gostring) (policyPaths : list gostring)
    : result LoadError Policy :=
  loadFiles readFile newPolicyBuilder policyPaths.

End Platform.

(** ** The rules a call adds *)

Lemma rules_for_insert m program rule q nets hosts :
  rules_for (mkPolicy (rules_insert m program rule) nets hosts) q
  = rules_for (mkPolicy m nets hosts) q ++ (if decide (q = program) then [rule] else []).
Proof.
  unfold rules_for, rules_insert. cbn [rulesByProgram]. case_decide as E.
  - subst. by rewrite lookup_insert_eq.
  - rewrite lookup_insert_ne by congruence. by rewrite app_nil_r.
Qed.

(** Inserting rules one by one adds, under each key, the rules with that key. *)
Lemma rules_for_fold rs m q nets hosts :
  rules_for (mkPolicy (fold_left (fun m rule => rules_insert m (Program_ rule) rule) rs m) nets hosts) q
  = rules_for (mkPolicy m nets hosts) q ++ filter (fun r => Program_ r = q) rs.
Proof.
  revert m. induction rs as [|r rs IH]; intros m; simpl; [by rewrite app_nil_r|].
  rewrite IH, rules_for_insert, <- app_assoc. f_equal. case_decide as E.
  - by rewrite filter_cons_True.
  - by rewrite filter_cons_False.
Qed.

Lemma fold_addRule rs b :
  fold_left addRule rs b
  = mkBuilder (fold_left (fun m rule => rules_insert m (Program_ rule) rule) rs (builderRules b))
      (builderNetworkRules b) (builderHostExecutables b) (pendingExampleValidations b).
Proof. revert b. induction rs as [|r rs IH]; intros [? ? ? ?]; [done|]. simpl. by rewrite IH. Qed.

Lemma rules_for_addRules rs b q :
  rules_for (build (fold_left addRule rs b)) q = rules_for (build b) q ++ filter (fun r => Program_ r = q) rs.
Proof. rewrite fold_addRule. unfold build. cbn [builderRules builderNetworkRules builderHostExecutables]. apply rules_for_fold. Qed.

Lemma lift_Ok {A} (r : result Error A) a : lift r = Ok a <-> r = Ok a.
Proof. destruct r; simpl; split; congruence. Qed.

(** What a successful [prefix_rule] call did. *)
Lemma prefixRuleBuiltin_Ok b unpacked kwargs loc b' :
  prefixRuleBuiltin b unpacked kwargs loc = Ok b' ->
  exists args decision tokens exs notExs,
    unpacked = inr args
    /\ (if hasKeyword kwargs "decision" then ParseDecision (decisionRaw args) else Ok DecisionAllow)
       = Ok decision
    /\ parsePattern (patternValue args) = Ok tokens
    /\ parseExamples (matchValue args) = Ok exs /\ parseExamples (notMatchValue args) = Ok notExs
    /\ exists firstToken rest, tokens = firstToken :: rest
       /\ b' = let rs := map (fun head => mkRule (mkPattern head rest) decision
                       (if hasKeyword kwargs "justification" then Some (prefixJustification args) else None))
                       (Alternatives firstToken) in
               fold_left addRule rs (addPendingExampleValidation b (mkPending rs exs notExs loc)).
Proof.
  unfold prefixRuleBuiltin. destruct unpacked as [|args]; [done|]. rewrite result_bind_Ok.
  intros (decision & Hd%lift_Ok & H). cbv zeta in H. destruct (_ && _); [done|].
  apply result_bind_Ok in H as (tokens & Ht%lift_Ok & H).
  apply result_bind_Ok in H as (exs & He%lift_Ok & H).
  apply result_bind_Ok in H as (notExs & Hn%lift_Ok & H).
  destruct tokens as [|firstToken rest] eqn:E; [done|]. injection H as <-.
  exists args, decision, tokens, exs, notExs. subst tokens. split_and!; try done. by exists firstToken, rest.
Qed.

Lemma accepts_head t ts cmd pre :
  Forall2 accepts (t :: ts) pre /\ (exists suf, cmd = pre ++ suf)
  <-> exists h, h ∈ Alternatives t /\ prefix_accepted (mkPattern h ts) cmd pre.
Proof.
  unfold prefix_accepted, pattern_tokens. simpl. split.
  - intros [Hall Hsuf]. destruct pre as [|h pre]; [by inversion Hall|].
    apply Forall2_cons in Hall as [Hh Hall]. exists h. split_and!; [done| |done].
    constructor; [|done]. unfold accepts. simpl. by apply list_elem_of_singleton.
  - intros (h & Hh & Hall & Hsuf). split; [|done]. destruct pre as [|h' pre]; [by inversion Hall|].
    apply Forall2_cons in Hall as [Hh' Hall]. unfold accepts in Hh'. simpl in Hh'.
    apply list_elem_of_singleton in Hh' as ->. by constructor.
Qed.

(**  A successful [prefix_rule] call adds exactly the matches of its
    pattern: the policy built afterwards matches a command exactly as before,
    or with the call's decision on a prefix whose tokens are accepted one by
    one by the pattern's elements, the first included.  Its examples are queued
    for the self-test. *)
Theorem prefixRuleBuiltin_accepts b unpacked kwargs loc b' :
  prefixRuleBuiltin b unpacked kwargs loc = Ok b' ->
  exists args decision tokens exs notExs,
    unpacked = inr args
    /\ parsePattern (patternValue args) = Ok tokens
    /\ parseExamples (matchValue args) = Ok exs /\ parseExamples (notMatchValue args) = Ok notExs
    /\ (exists rs, pendingExampleValidations b'
                   = pendingExampleValidations b ++ [mkPending rs exs notExs loc])
    /\ (hasKeyword kwargs "decision" = true -> ParseDecision (decisionRaw args) = Ok decision)
    /\ (hasKeyword kwargs "decision" = false -> decision = DecisionAllow)
    /\ forall cmd m,
        exact_match (build b') cmd m
        <-> exact_match (build b) cmd m
            \/ exists pre, Forall2 accepts tokens pre /\ (exists suf, cmd = pre ++ suf)
                 /\ m = ruleMatchPrefix pre decision None
                          (if hasKeyword kwargs "justification" then Some (prefixJustification args)
                           else None).
Proof.
  intros (args & decision & tokens & exs & notExs & Hu & Hd & Ht & He & Hn & ft & rs & -> & ->)%prefixRuleBuiltin_Ok.
  exists args, decision, (ft :: rs), exs, notExs. split_and!; try done.
  { cbv zeta. rewrite fold_addRule. simpl. by eexists. }
  { intros Hk. by rewrite Hk in Hd. }
  { intros Hk. rewrite Hk in Hd. by injection Hd as <-. }
  intros cmd m. unfold exact_match. cbv zeta. setoid_rewrite rules_for_addRules.
  setoid_rewrite elem_of_app. setoid_rewrite list_elem_of_filter. setoid_rewrite list_elem_of_fmap.
  split.
  - intros (head & xs & r & pre & -> & [Hr|(Hh & h & -> & Hin)] & Hpre & ->).
    + left. by exists head, xs, r, pre.
    + right. exists pre. simpl in *.
      by destruct (proj2 (accepts_head ft rs (head :: xs) pre) (ex_intro _ h (conj Hin Hpre))).
  - intros [(head & xs & r & pre & -> & Hr & Hpre & ->)|(pre & Hall & Hsuf & ->)].
    + exists head, xs, r, pre. split_and!; auto.
    + destruct (proj1 (accepts_head ft rs cmd pre) (conj Hall Hsuf)) as (h & Hh & Hpre).
      destruct Hpre as [Hall' [suf ->]]. destruct pre as [|h' pre]; [by inversion Hall'|].
      assert (h' = h) as ->.
      { inversion Hall' as [|? ? ? ? Hacc]; subst. unfold accepts in Hacc. simpl in Hacc.
        by apply list_elem_of_singleton in Hacc. }
      eexists h, (pre ++ suf), (mkRule (mkPattern h rs) decision _), (h :: pre).
      split_and!; [done|right; split; [done|by exists h]| |done].
      split; [done|]. by exists suf.
Qed.

Lemma prefixRuleBuiltin_accepts_witness :
  let unpacked := inr (mkPrefixRuleArgs [VList [VString (str "npm"); VString (str "yarn")]; VString (str "test")]
                         "prompt" [VString (str "npm test --all")] [] []) in
  let kwargs := [[VString (str "pattern"); VOther "list"]; [VString (str "decision"); VString (str "prompt")]] in
  exists b', prefixRuleBuiltin newPolicyBuilder unpacked kwargs None = Ok b'
    /\ exists args decision tokens exs notExs,
        unpacked = inr args
        /\ parsePattern (patternValue args) = Ok tokens
        /\ parseExamples (matchValue args) = Ok exs /\ parseExamples (notMatchValue args) = Ok notExs
        /\ (exists rs, pendingExampleValidations b'
                       = pendingExampleValidations newPolicyBuilder ++ [mkPending rs exs notExs None])
        /\ (hasKeyword kwargs "decision" = true -> ParseDecision (decisionRaw args) = Ok decision)
        /\ (hasKeyword kwargs "decision" = false -> decision = DecisionAllow)
        /\ forall cmd m,
            exact_match (build b') cmd m
            <-> exact_match (build newPolicyBuilder) cmd m
                \/ exists pre, Forall2 accepts tokens pre /\ (exists suf, cmd = pre ++ suf)
                     /\ m = ruleMatchPrefix pre decision None
                              (if hasKeyword kwargs "justification" then Some (prefixJustification args)
                               else None).
Proof.
  eexists. split; [reflexivity|]. apply prefixRuleBuiltin_accepts.
  reflexivity.
Defined.

(** A decision passed by position is unpacked but ignored: the rule allows. *)
Example positional_decision_ignored :
  exists b', prefixRuleBuiltin newPolicyBuilder
      (inr (mkPrefixRuleArgs [VString (str "rm")] "forbidden" [] [] [])) [] None = Ok b'
    /\ EvalDecision (Check None (build b') [str "rm"; str "-rf"; str "/"]
                       (Some (fun _ => DecisionPrompt))) = DecisionAllow.
Proof. eexists. split; [reflexivity|]. vm_compute. reflexivity. Qed.

(** ** Runs *)

(** Everything queued is also in the rules. *)
Definition pending_in_rules (b : policyBuilder) : Prop :=
  forall v r, v ∈ pendingExampleValidations b -> r ∈ rules v -> r ∈ rules_for (build b) (Program_ r).

Lemma runCall_pending lower home perr b c b' :
  runCall lower home perr b c = Ok b' -> pending_in_rules b -> pending_in_rules b'.
Proof.
  intros Hrun Hb. destruct c as [unpacked kwargs loc|unpacked kwargs|unpacked kwargs]; simpl in Hrun.
  - apply prefixRuleBuiltin_Ok in Hrun as (args & d & tokens & exs & notExs & _ & _ & _ & _ & _ & ft & rs & -> & ->).
    cbv zeta. intros v r Hv Hr. rewrite rules_for_addRules. apply elem_of_app.
    rewrite fold_addRule in Hv. simpl in Hv. apply elem_of_app in Hv as [Hv|Hv].
    + left. by apply (Hb v r).
    + apply list_elem_of_singleton in Hv as ->. right. by apply list_elem_of_filter.
  - unfold networkRuleBuiltin in Hrun. destruct unpacked as [|args]; [done|].
    apply result_bind_Ok in Hrun as (p & _ & Hrun). apply result_bind_Ok in Hrun as (d & _ & Hrun).
    cbv zeta in Hrun. destruct (_ && _); [done|].
    apply result_bind_Ok in Hrun as (h & _ & [= <-]). exact Hb.
  - unfold hostExecutableBuiltin in Hrun. destruct unpacked as [|args]; [done|].
    apply result_bind_Ok in Hrun as (p & _ & Hrun). apply result_bind_Ok in Hrun as (d & _ & [= <-]).
    exact Hb.
Qed.

Lemma runCalls_pending lower home perr b calls final b' :
  runCalls lower home perr b calls final = Some (b', None) -> pending_in_rules b -> pending_in_rules b'.
Proof.
  revert b. induction calls as [|c calls IH]; intros b; simpl.
  - intros [= <- _]. done.
  - destruct (runCall lower home perr b c) as [b1|e|] eqn:E; [|done|done].
    intros Hrun Hb. eapply IH; [exact Hrun|]. by eapply runCall_pending.
Qed.

(** Rules found in the scratch policy are in the built one. *)
Lemma scratch_rules_for b v q r :
  pending_in_rules b -> v ∈ pendingExampleValidations b ->
  r ∈ rules_for (scratchPolicy b v) q -> r ∈ rules_for (build b) q.
Proof.
  intros Hb Hv Hr. unfold scratchPolicy in Hr. rewrite rules_for_fold in Hr.
  apply elem_of_app in Hr as [Hr|Hr]; [by apply not_elem_of_nil in Hr|].
  apply list_elem_of_filter in Hr as [<- Hr]. by apply (Hb v).
Qed.

Lemma MatchesForCommand_nonempty_iff home p cmd :
  MatchesForCommand home p cmd None true <> []
  <-> (exists m, exact_match p cmd m) \/ (exists m, resolved_match home p cmd m).
Proof.
  rewrite elem_nonempty. setoid_rewrite MatchesForCommand_spec. split.
  - intros [m [H|[(_ & H & _)|(? & ? & _)]]]; [left|right|done]; by exists m.
  - intros [[m H]|[m H]]; [exists m; by left|].
    destruct (decide (matchExactRules p cmd = [])) as [E|E].
    + exists m. right. left. split_and!; [done|done|]. intros m' Hm'.
      apply matchExactRules_spec in Hm'. rewrite E in Hm'. by apply not_elem_of_nil in Hm'.
    + apply elem_nonempty in E as [m' Hm']. exists m'. left. by apply matchExactRules_spec.
Qed.

Lemma validatePending_None print home b vs :
  validatePending print home b vs = None ->
  forall v, v ∈ vs ->
    (forall ex, ex ∈ matches v -> MatchesForCommand home (scratchPolicy b v) ex None true <> [])
    /\ (forall ex, ex ∈ notMatches v -> MatchesForCommand home (scratchPolicy b v) ex None true = []).
Proof.
  induction vs as [|v0 vs IH]; intros Hv v; [by intros H%not_elem_of_nil|]. simpl in Hv.
  destruct (validateNotMatchExamples _ _ _ (notMatches v0)) eqn:En; [done|].
  destruct (validateMatchExamples _ _ _ _ _) eqn:Em; [done|].
  intros [->|Hin]%elem_of_cons; [|by apply IH]. clear IH Hv. split.
  - unfold validateMatchExamples in Em. cbv zeta in Em. case_decide as Hnil; [|done].
    apply map_eq_nil in Hnil. intros ex Hex Hm.
    assert (ex ∈ filter (fun example => MatchesForCommand home (scratchPolicy b v0) example None true = [])
              (matches v0)) as H by (by apply list_elem_of_filter).
    rewrite Hnil in H. by apply not_elem_of_nil in H.
  - clear Em. induction (notMatches v0) as [|ex exs IH]; intros ex' H; [by apply not_elem_of_nil in H|].
    simpl in En. destruct (MatchesForCommand _ _ ex _ _) eqn:Eex; [|done].
    apply elem_of_cons in H as [->|H]; [done|]. by apply IH.
Qed.

(**  Examples are kept by the policy: when a policy file is accepted, its
    [prefix_rule]s are in the built policy, every [match] example is matched by the built policy, and
    no rule of a [prefix_rule] accepts one of its own [not_match] examples. *)
Theorem Parse_examples lower print home perr exec errLocation policyIdentifier contents b :
  Parse lower print home perr exec errLocation newPolicyBuilder policyIdentifier contents = Some (b, None) ->
  forall v, v ∈ pendingExampleValidations b ->
    (forall r, r ∈ rules v -> r ∈ rules_for (build b) (Program_ r))
    /\ (forall ex, ex ∈ matches v -> MatchesForCommand home (build b) ex None true <> [])
    /\ (forall ex r pre, ex ∈ notMatches v -> r ∈ rules v -> ~ prefix_accepted (Pattern r) ex pre).
Proof.
  unfold Parse. destruct (exec policyIdentifier contents) as [calls final].
  destruct (runCalls _ _ _ _ calls final) as [[b1 [[]|]]|] eqn:Erun; [done|done| |done].
  intros [= <- Hval]. intros v Hv. unfold validatePendingExamplesFrom in Hval. simpl in Hval.
  rewrite drop_0 in Hval.
  assert (pending_in_rules b1) as Hb.
  { eapply runCalls_pending; [exact Erun|]. intros v' r Hv'. by apply not_elem_of_nil in Hv'. }
  destruct (validatePending_None _ _ _ _ Hval v Hv) as [Hm Hn]. split_and!.
  - intros r Hr. by apply (Hb v).
  - intros ex Hex. specialize (Hm ex Hex). apply MatchesForCommand_nonempty_iff.
    apply MatchesForCommand_nonempty_iff in Hm as [[m Hm]|[m Hm]]; [left|right]; exists m.
    + destruct Hm as (head & args & r & pre & E & Hr & Hpre & ->).
      exists head, args, r, pre. split_and!; [done| |done|done]. by eapply scratch_rules_for.
    + destruct Hm as (head & args & program & basename & r & pre & E & Ep & Eb & Hallow & Hr & Hpre & ->).
      exists head, args, program, basename, r, pre. split_and!; try done. by eapply scratch_rules_for.
  - intros ex r pre Hex Hr Hpre. specialize (Hn ex Hex).
    assert (MatchesForCommand home (scratchPolicy b1 v) ex None true <> []); [|done].
    apply MatchesForCommand_nonempty_iff. left.
    assert (exists args, ex = Program_ r :: args) as [args ->].
    { destruct Hpre as [Hall [suf ->]]. destruct pre as [|h pre]; [by inversion Hall|].
      inversion Hall as [|? ? ? ? Hacc]; subst. unfold accepts in Hacc. simpl in Hacc.
      apply list_elem_of_singleton in Hacc as ->. by exists (pre ++ suf). }
    eexists. exists (Program_ r), args, r, pre. split_and!; [done| |done|done].
    unfold scratchPolicy. rewrite rules_for_fold. apply elem_of_app. right.
    by apply list_elem_of_filter.
Qed.

Lemma Parse_examples_witness :
  let exec := fun _ _ => ([host_executable (inr (mkHostExecutableArgs "git" [VString (str "/usr/bin/git")])) [];
                           prefix_rule (inr (mkPrefixRuleArgs [VString (str "git"); VString (str "status")] []
                              [VString (str "/usr/bin/git status -s")] [VList [VString (str "git"); VString (str "push")]] []))
                             [] None], None) in
  exists b v, Parse (fun r => r) (fun _ => true) None (fun _ => []) exec (fun _ => None) newPolicyBuilder "p" [] = Some (b, None)
    /\ pendingExampleValidations b = [v]
    /\ (forall r, r ∈ rules v -> r ∈ rules_for (build b) (Program_ r))
    /\ (forall ex, ex ∈ matches v -> MatchesForCommand None (build b) ex None true <> [])
    /\ (forall ex r pre, ex ∈ notMatches v -> r ∈ rules v -> ~ prefix_accepted (Pattern r) ex pre).
Proof.
  do 2 eexists. split; [reflexivity|]. split; [reflexivity|].
  eapply (Parse_examples (fun r => r) (fun _ => true) None (fun _ => [])
    (fun _ _ => ([host_executable (inr (mkHostExecutableArgs "git" [VString (str "/usr/bin/git")])) [];
                           prefix_rule (inr (mkPrefixRuleArgs [VString (str "git"); VString (str "status")] []
                              [VString (str "/usr/bin/git status -s")] [VList [VString (str "git"); VString (str "push")]] []))
                             [] None], None)) (fun _ => None) "p" []);
    [reflexivity|apply list_elem_of_singleton; reflexivity].
Defined.

(** ** No panics *)

Lemma stringElems_returns fail elems : returns (stringElems fail elems).
Proof.
  induction elems as [|e elems IH]; [done|]. simpl. destruct (AsString e); [|done].
  by destruct (stringElems fail elems).
Qed.

Lemma mapResult_returns {A B} (f : A -> result Error B) l : (forall x, returns (f x)) -> returns (mapResult f l).
Proof.
  intros Hf. induction l as [|x l IH]; [done|]. simpl. specialize (Hf x).
  destruct (f x); [|done|done]. simpl. by destruct (mapResult f l).
Qed.

Lemma parsePattern_returns pattern : returns (parsePattern pattern) /\ parsePattern pattern <> Ok [].
Proof.
  unfold parsePattern. assert (returns (mapResult parsePatternToken pattern)) as H.
  { apply mapResult_returns. intros [s|elems|t]; [done| |done]. simpl.
    match goal with |- context [stringElems ?f elems] => pose proof (stringElems_returns f elems) as H;
      destruct (stringElems f elems) as [[|? [|]]| |] end; done. }
  by destruct (mapResult parsePatternToken pattern) as [[|]| |].
Qed.

Lemma parseExamples_returns examples : returns (parseExamples examples).
Proof.
  apply mapResult_returns. intros [s|elems|t]; [| |done]; simpl.
  - unfold parseStringExample. by destruct (shlexSplit s) as [[|]|].
  - unfold parseListExample. match goal with |- context [stringElems ?f elems] =>
      pose proof (stringElems_returns f elems) as H; destruct (stringElems f elems) as [[|]| |] end; done.
Qed.

Lemma prefixRuleBuiltin_returns b unpacked kwargs loc : returns (prefixRuleBuiltin b unpacked kwargs loc).
Proof.
  unfold prefixRuleBuiltin. destruct unpacked as [|args]; [done|].
  assert (returns (if hasKeyword kwargs "decision" then ParseDecision (decisionRaw args) else Ok DecisionAllow)) as Hd.
  { case_match; [|done]. unfold ParseDecision. repeat case_decide; done. }
  destruct (if hasKeyword _ _ then _ else _); [|done|done]. simpl. case_match; [done|].
  destruct (parsePattern_returns (patternValue args)) as [Hp Hne].
  destruct (parsePattern (patternValue args)) as [tokens| |]; [|done|done]. simpl.
  pose proof (parseExamples_returns (matchValue args)).
  destruct (parseExamples (matchValue args)); [|done|done]. simpl.
  pose proof (parseExamples_returns (notMatchValue args)).
  destruct (parseExamples (notMatchValue args)); [|done|done]. simpl.
  by destruct tokens.
Qed.

End PolicyParser.
