(* ===== verification/HeadTail.v ===== *)
(** * internal/unifiedexec: the head/tail output buffer

    [headtail.go].  The abstract state of a buffer is the whole output pushed
    since it was created or last drained; the buffer shows its first
    [headBudget] bytes and the last [tailBudget] of the rest, however the
    output was cut into chunks. *)

From S2P Require Import Prelude GoStrings.

Module HeadTail.

Local Open Scope Z_scope.

Record HeadTailBuffer := mkBuffer {
  maxBytes : Z;
  headBudget : Z;
  tailBudget : Z;
  head : list gostring;
  tail : list gostring;
  headBytes : Z;
  tailBytes : Z;
  omittedSize : Z
}.

(** Go's [/] truncates towards zero. *)
Definition NewHeadTailBuffer (maxBytes : Z) : HeadTailBuffer :=
  let headBudget := Z.quot maxBytes 2 in
  let tailBudget := maxBytes - headBudget in
  mkBuffer maxBytes headBudget (if tailBudget <? 0 then 0 else tailBudget) [] [] 0 0 0.

Definition UnifiedExecOutputMaxBytes : Z := 1024 * 1024.

Definition NewDefaultHeadTailBuffer : HeadTailBuffer := NewHeadTailBuffer UnifiedExecOutputMaxBytes.

Definition RetainedBytes (b : HeadTailBuffer) : Z := headBytes b + tailBytes b.
Definition OmittedBytes (b : HeadTailBuffer) : Z := omittedSize b.

(** The loop of [trimTailToBudget]: the remaining tail and the bytes dropped.
    The code's [excess] shrinks by what is dropped. *)
Fixpoint trimLoop (excess : Z) (tail : list gostring) (tailBytes omittedSize : Z)
    : list gostring * Z * Z :=
  if excess <=? 0 then (tail, tailBytes, omittedSize)
  else match tail with
       | [] => (tail, tailBytes, omittedSize)
       | front :: rest =>
           if zlen front <=? excess
           then trimLoop (excess - zlen front) rest (tailBytes - zlen front) (omittedSize + zlen front)
           else (drop (Z.to_nat excess) front :: rest, tailBytes - excess, omittedSize + excess)
       end.

Definition trimTailToBudget (b : HeadTailBuffer) : HeadTailBuffer :=
  let '(tail', tailBytes', omitted') :=
    trimLoop (tailBytes b - tailBudget b) (tail b) (tailBytes b) (omittedSize b) in
  mkBuffer (maxBytes b) (headBudget b) (tailBudget b) (head b) tail' (headBytes b) tailBytes' omitted'.

Definition pushToTail (b : HeadTailBuffer) (chunk : gostring) : HeadTailBuffer :=
  if tailBudget b =? 0 then
    mkBuffer (maxBytes b) (headBudget b) (tailBudget b) (head b) (tail b) (headBytes b) (tailBytes b)
      (omittedSize b + zlen chunk)
  else if tailBudget b <=? zlen chunk then
    let start := zlen chunk - tailBudget b in
    let kept := drop (Z.to_nat start) chunk in
    let dropped := zlen chunk - zlen kept in
    mkBuffer (maxBytes b) (headBudget b) (tailBudget b) (head b) [kept] (headBytes b) (zlen kept)
      (omittedSize b + (tailBytes b + dropped))
  else
    trimTailToBudget
      (mkBuffer (maxBytes b) (headBudget b) (tailBudget b) (head b) (tail b ++ [chunk]) (headBytes b)
         (tailBytes b + zlen chunk) (omittedSize b)).

Definition withHead (b : HeadTailBuffer) (part : gostring) : HeadTailBuffer :=
  mkBuffer (maxBytes b) (headBudget b) (tailBudget b) (head b ++ [part]) (tail b)
    (headBytes b + zlen part) (tailBytes b) (omittedSize b).

Definition PushChunk (b : HeadTailBuffer) (chunk : gostring) : HeadTailBuffer :=
  if maxBytes b =? 0 then
    mkBuffer (maxBytes b) (headBudget b) (tailBudget b) (head b) (tail b) (headBytes b) (tailBytes b)
      (omittedSize b + zlen chunk)
  else if headBytes b <? headBudget b then
    let remainingHead := headBudget b - headBytes b in
    if zlen chunk <=? remainingHead then withHead b chunk
    else
      let headPart := take (Z.to_nat remainingHead) chunk in
      let tailPart := drop (Z.to_nat remainingHead) chunk in
      let b := if 0 <? zlen headPart then withHead b headPart else b in
      pushToTail b tailPart
  else pushToTail b chunk.

Definition SnapshotChunks (b : HeadTailBuffer) : list gostring := head b ++ tail b.

Definition ToBytes (b : HeadTailBuffer) : gostring := concat (head b) ++ concat (tail b).

Definition DrainChunks (b : HeadTailBuffer) : list gostring * HeadTailBuffer :=
  (head b ++ tail b, mkBuffer (maxBytes b) (headBudget b) (tailBudget b) [] [] 0 0 0).

(** ** The abstract buffer *)

(** The first [n] bytes, and the last [n]. *)
Definition firstn_z (n : Z) (s : gostring) : gostring := take (Z.to_nat n) s.
Definition lastn_z (n : Z) (s : gostring) : gostring := drop (Z.to_nat (zlen s - n)) s.

(** The bytes a buffer of [maxBytes] keeps of all it was given. *)
Definition budgets (maxBytes : Z) : Z * Z :=
  (Z.max 0 (Z.quot maxBytes 2), Z.max 0 (maxBytes - Z.quot maxBytes 2)).
Definition retained (maxBytes : Z) (output : gostring) : gostring :=
  let '(h, t) := budgets maxBytes in
  firstn_z h output ++ lastn_z t (drop (Z.to_nat h) output).

(** [models b output]: [b] holds what it should of [output]. *)
Record models (b : HeadTailBuffer) (output : gostring) : Prop := mkModels {
  m_head_budget : headBudget b = Z.quot (maxBytes b) 2;
  m_tail_budget : tailBudget b = Z.max 0 (maxBytes b - Z.quot (maxBytes b) 2);
  m_head : concat (head b) = firstn_z (Z.max 0 (headBudget b)) output;
  m_tail : concat (tail b) = lastn_z (tailBudget b) (drop (Z.to_nat (headBudget b)) output);
  m_head_bytes : headBytes b = zlen (concat (head b));
  m_tail_bytes : tailBytes b = zlen (concat (tail b));
  m_omitted : omittedSize b = zlen output - zlen (concat (head b)) - zlen (concat (tail b))
}.

(** ** Lemmas *)

Lemma zlen_drop {A} n (l : list A) : zlen (drop (Z.to_nat n) l) = Z.max 0 (zlen l - Z.max 0 n).
Proof. unfold zlen. rewrite length_drop. lia. Qed.

Lemma zlen_take {A} n (l : list A) : zlen (take (Z.to_nat n) l) = Z.min (Z.max 0 n) (zlen l).
Proof. unfold zlen. rewrite length_take. lia. Qed.

Lemma lastn_z_all n s : zlen s <= n -> lastn_z n s = s.
Proof. intros H. unfold lastn_z. by replace (Z.to_nat (zlen s - n)) with 0%nat by lia. Qed.

Lemma lastn_z_0 s : lastn_z 0 s = [].
Proof. unfold lastn_z. apply drop_ge. unfold zlen. lia. Qed.

Lemma zlen_lastn n s : 0 <= n -> zlen (lastn_z n s) = Z.min n (zlen s).
Proof. intros H. unfold lastn_z. rewrite zlen_drop. pose proof (zlen_nonneg s). lia. Qed.

(** The last bytes of [s ++ t] only depend on the last bytes of [s]. *)
Lemma lastn_z_app n s t : 0 <= n -> lastn_z n (lastn_z n s ++ t) = lastn_z n (s ++ t).
Proof.
  intros Hn. unfold lastn_z at 1 3. rewrite !zlen_app, zlen_lastn by done.
  unfold lastn_z. pose proof (zlen_nonneg s). pose proof (zlen_nonneg t).
  destruct (decide (zlen s <= n)).
  - replace (Z.to_nat (zlen s - n)) with 0%nat by lia. rewrite drop_0. do 2 f_equal. lia.
  - rewrite Z.min_l by lia. rewrite !drop_app, drop_drop, length_drop. unfold zlen in *.
    f_equal; f_equal; lia.
Qed.

Lemma lastn_z_long n s t : 0 <= n <= zlen t -> lastn_z n (s ++ t) = lastn_z n t.
Proof.
  intros Hn. unfold lastn_z. rewrite zlen_app. pose proof (zlen_nonneg s).
  rewrite drop_app. replace (drop _ s) with (@nil ascii).
  - simpl. f_equal. unfold zlen in *. lia.
  - symmetry. apply drop_ge. unfold zlen in *. lia.
Qed.

Lemma trimLoop_spec excess tail tb om :
  tb = zlen (concat tail) -> excess <= tb ->
  let '(tail', tb', om') := trimLoop excess tail tb om in
  concat tail' = drop (Z.to_nat excess) (concat tail)
  /\ tb' = zlen (concat tail') /\ om' + tb' = om + tb.
Proof.
  revert excess tb om. induction tail as [|front rest IH]; intros excess tb om Htb Hex.
  - simpl in *. rewrite zlen_nil in Htb. destruct (excess <=? 0); by rewrite drop_nil.
  - simpl. destruct (excess <=? 0) eqn:E0; breflect.
    { replace (Z.to_nat excess) with 0%nat by lia. done. }
    simpl in Htb. rewrite zlen_app in Htb. pose proof (zlen_nonneg front).
    destruct (zlen front <=? excess) eqn:E1; breflect.
    + specialize (IH (excess - zlen front) (tb - zlen front) (om + zlen front)).
      destruct (trimLoop _ _ _ _) as [[tail' tb'] om']. destruct IH as (-> & Htb' & Hom); [lia|lia|].
      split_and!; [|done|lia]. rewrite drop_app. rewrite (drop_ge front) by (unfold zlen in *; lia).
      simpl. f_equal. unfold zlen in *. lia.
    + simpl. rewrite drop_app. replace (Z.to_nat excess - length front)%nat with 0%nat by (unfold zlen in *; lia).
      split_and!; [done| |lia]. rewrite zlen_app, zlen_drop. lia.
Qed.

(** What [pushToTail] does to the part of the output behind the head. *)
Lemma pushToTail_spec b chunk rest :
  0 <= tailBudget b -> concat (tail b) = lastn_z (tailBudget b) rest ->
  tailBytes b = zlen (concat (tail b)) ->
  let b' := pushToTail b chunk in
  maxBytes b' = maxBytes b /\ headBudget b' = headBudget b /\ tailBudget b' = tailBudget b
  /\ head b' = head b /\ headBytes b' = headBytes b
  /\ concat (tail b') = lastn_z (tailBudget b) (rest ++ chunk)
  /\ tailBytes b' = zlen (concat (tail b'))
  /\ omittedSize b' + tailBytes b' = omittedSize b + tailBytes b + zlen chunk.
Proof.
  intros H0 Ht Htb. pose proof (zlen_nonneg chunk). unfold pushToTail.
  destruct (tailBudget b =? 0) eqn:E0; [|destruct (tailBudget b <=? zlen chunk) eqn:E1]; breflect.
  - simpl. split_and!; try done; [|lia]. rewrite Ht, E0. unfold lastn_z.
    rewrite !Z.sub_0_r. by rewrite !drop_ge by (unfold zlen; lia).
  - simpl. rewrite app_nil_r. split_and!; try done; [|lia].
    rewrite lastn_z_long by lia. done.
  - unfold trimTailToBudget. cbn [tailBytes tailBudget tail omittedSize maxBytes headBudget head headBytes].
    pose proof (trimLoop_spec (tailBytes b + zlen chunk - tailBudget b) (tail b ++ [chunk])
      (tailBytes b + zlen chunk) (omittedSize b)) as Hspec.
    destruct (trimLoop _ _ _ _) as [[tail' tb'] om'].
    assert (concat (tail b ++ [chunk]) = concat (tail b) ++ chunk) as Ec
      by (rewrite concat_app; simpl; by rewrite app_nil_r).
    destruct Hspec as (Hc & Htb' & Hom); [rewrite Ec, zlen_app; lia|lia|].
    cbn [tailBytes tailBudget tail omittedSize maxBytes headBudget head headBytes].
    split_and!; try done; [|lia].
    rewrite Hc, Ec, Htb, Ht, <- lastn_z_app by done. unfold lastn_z at 3. by rewrite zlen_app.
Qed.

Lemma models_new max : models (NewHeadTailBuffer max) [].
Proof.
  split; simpl; try done.
  - destruct (_ <? 0) eqn:E; breflect; lia.
  - unfold firstn_z. by rewrite take_nil.
  - unfold lastn_z. by rewrite !drop_nil.
Qed.

Lemma zlen_firstn n s : 0 <= n -> zlen (firstn_z n s) = Z.min n (zlen s).
Proof. intros. unfold firstn_z. rewrite zlen_take. lia. Qed.

Lemma take_app_z n (s t : gostring) :
  0 <= n -> firstn_z n (s ++ t) = firstn_z n s ++ firstn_z (n - zlen s) t.
Proof. intros. unfold firstn_z. rewrite take_app. do 2 f_equal. unfold zlen. lia. Qed.

Lemma drop_app_z n (s t : gostring) :
  drop (Z.to_nat n) (s ++ t) = drop (Z.to_nat n) s ++ drop (Z.to_nat (n - zlen s)) t.
Proof. rewrite drop_app. do 2 f_equal. unfold zlen. lia. Qed.

Lemma models_push b output chunk : models b output -> models (PushChunk b chunk) (output ++ chunk).
Proof.
  intros [Hhb Htb Hh Ht Hhn Htn Hom]. pose proof (zlen_nonneg chunk). pose proof (zlen_nonneg output).
  assert (0 <= tailBudget b) as Ht0 by lia.
  unfold PushChunk. destruct (maxBytes b =? 0) eqn:Em; breflect.
  { assert (headBudget b = 0 /\ tailBudget b = 0) as [Ehb Etb] by (by rewrite Hhb, Htb, Em).
    rewrite Ehb, Etb in *. rewrite lastn_z_0 in Ht. change (firstn_z (Z.max 0 0) output) with (@nil ascii) in Hh.
    rewrite Hh, Ht, zlen_nil in *.
    split; cbn [maxBytes headBudget tailBudget head tail headBytes tailBytes omittedSize];
      rewrite ?Em, ?Ehb, ?Etb, ?Hh, ?Ht, ?lastn_z_0; try done.
    rewrite zlen_app, zlen_nil. lia. }
  assert (zlen (concat (head b)) = Z.min (Z.max 0 (headBudget b)) (zlen output)) as Hhl
    by (rewrite Hh; apply zlen_firstn; lia).
  destruct (headBytes b <? headBudget b) eqn:Elt; breflect.
  - assert (zlen output = headBytes b) as Hout by lia.
    assert (concat (tail b) = []) as Et.
    { rewrite Ht. unfold lastn_z. rewrite (drop_ge output) by (unfold zlen in *; lia). by rewrite drop_nil. }
    assert (concat (head b) = output) as Eo.
    { rewrite Hh. unfold firstn_z. apply take_ge. unfold zlen in *. lia. }
    destruct (zlen chunk <=? headBudget b - headBytes b) eqn:Ele; breflect.
    + split; simpl; try done.
      * rewrite concat_app, Eo. simpl. rewrite app_nil_r. unfold firstn_z. rewrite take_ge; [done|].
        pose proof (zlen_app output chunk). unfold zlen in *. lia.
      * rewrite Et. unfold lastn_z. rewrite (drop_ge (output ++ chunk)); [by rewrite drop_nil|].
        pose proof (zlen_app output chunk). unfold zlen in *. lia.
      * rewrite concat_app. simpl. rewrite app_nil_r, zlen_app. lia.
      * rewrite concat_app. simpl. rewrite app_nil_r, !zlen_app. lia.
    + set (r := headBudget b - headBytes b) in *.
      assert (zlen (take (Z.to_nat r) chunk) = r) as Hr by (rewrite zlen_take; lia).
      rewrite Hr, (proj2 (Z.ltb_lt 0 r)) by lia.
      destruct (pushToTail_spec (withHead b (take (Z.to_nat r) chunk)) (drop (Z.to_nat r) chunk) [])
        as (E1 & E2 & E3 & E4 & E5 & E6 & E7 & E8); [done|simpl; rewrite Et; unfold lastn_z; by rewrite drop_nil|done|].
      assert (concat (head b ++ [take (Z.to_nat r) chunk]) = output ++ take (Z.to_nat r) chunk) as Ec
        by (rewrite concat_app; simpl; by rewrite app_nil_r, Eo).
      split; rewrite ?E1, ?E2, ?E3, ?E4, ?E5, ?E7; simpl; try done; rewrite ?Ec.
      * rewrite take_app_z by lia. unfold firstn_z. rewrite (take_ge output) by (unfold zlen in *; lia).
        do 3 f_equal. lia.
      * rewrite E6, drop_app_z. simpl. rewrite (drop_ge output) by (unfold zlen in *; lia).
        simpl. do 2 f_equal. f_equal. lia.
      * rewrite zlen_app. lia.
      * rewrite E7 in E8. simpl in E8. rewrite !zlen_app, Hr. rewrite zlen_drop in E8. rewrite Et in *. rewrite zlen_nil in *. lia.
  - assert (Z.max 0 (headBudget b) <= zlen output) as Hge by lia.
    destruct (pushToTail_spec b chunk (drop (Z.to_nat (headBudget b)) output))
      as (E1 & E2 & E3 & E4 & E5 & E6 & E7 & E8); [done|done|done|].
    split; rewrite ?E1, ?E2, ?E3, ?E4, ?E5, ?E7; simpl; try done.
    + rewrite Hh, take_app_z by lia. unfold firstn_z at 3.
      replace (Z.to_nat (Z.max 0 (headBudget b) - zlen output)) with 0%nat by lia.
      simpl. by rewrite app_nil_r.
    + rewrite E6, drop_app_z. do 2 f_equal.
      by replace (Z.to_nat (headBudget b - zlen output)) with 0%nat by lia.
    + rewrite E7 in E8. rewrite zlen_app. lia.
Qed.

(** ** Sequences of operations *)

Inductive op := Push (chunk : gostring) | Drain.

(** A run of operations: the final buffer and, for each [Drain], what it
    returned. *)
Fixpoint run (b : HeadTailBuffer) (ops : list op) : HeadTailBuffer * list (list gostring) :=
  match ops with
  | [] => (b, [])
  | Push chunk :: ops => run (PushChunk b chunk) ops
  | Drain :: ops =>
      let '(chunks, b) := DrainChunks b in
      let '(b, outs) := run b ops in (b, chunks :: outs)
  end.

(** The same on the abstract state: the output since the last drain. *)
Fixpoint spec_run (max : Z) (output : gostring) (ops : list op) : gostring * list gostring :=
  match ops with
  | [] => (output, [])
  | Push chunk :: ops => spec_run max (output ++ chunk) ops
  | Drain :: ops => let '(o, outs) := spec_run max [] ops in (o, retained max output :: outs)
  end.

Lemma PushChunk_maxBytes b c : maxBytes (PushChunk b c) = maxBytes b.
Proof. unfold PushChunk, pushToTail, trimTailToBudget. by repeat case_match. Qed.

Lemma models_ToBytes b output : models b output -> ToBytes b = retained (maxBytes b) output.
Proof.
  intros [Hhb Htb Hh Ht _ _ _]. unfold ToBytes, retained, budgets. rewrite Hh, Ht, Htb, Hhb.
  do 2 f_equal. f_equal. lia.
Qed.

Lemma models_Drain b output : models b output -> models (DrainChunks b).2 [].
Proof.
  intros [Hhb Htb _ _ _ _ _]. split; simpl; try done.
  - unfold firstn_z. by rewrite take_nil.
  - unfold lastn_z. by rewrite !drop_nil.
Qed.

Lemma run_models b output ops :
  models b output ->
  let '(b', outs) := run b ops in let '(o', souts) := spec_run (maxBytes b) output ops in
  models b' o' /\ maxBytes b' = maxBytes b /\ map (@concat ascii) outs = souts.
Proof.
  revert b output. induction ops as [|[chunk|] ops IH]; intros b output Hm; simpl.
  - done.
  - specialize (IH _ _ (models_push b output chunk Hm)).
    pose proof (PushChunk_maxBytes b chunk) as Emax.
    by rewrite Emax in IH.
  - specialize (IH _ _ (models_Drain b output Hm)). simpl in IH.
    destruct (run _ ops) as [b' outs]. destruct (spec_run _ _ ops) as [o' souts].
    destruct IH as (Hm' & Emax & Eouts). split_and!; [done|done|]. simpl. rewrite Eouts.
    f_equal. rewrite concat_app. by apply models_ToBytes.
Qed.

(** C34.  Whatever the chunks and the order of pushes and drains: each drain
    returns, and at the end the buffer shows, exactly the first [maxBytes / 2]
    bytes of the output since the last drain and the last
    [maxBytes - maxBytes / 2] bytes of the rest; the counters say how many
    bytes are kept and how many are missing. *)
Theorem buffer_run_refines max ops :
  let '(b, outs) := run (NewHeadTailBuffer max) ops in
  let '(output, souts) := spec_run max [] ops in
  map (@concat ascii) outs = souts
  /\ ToBytes b = retained max output /\ concat (SnapshotChunks b) = ToBytes b
  /\ RetainedBytes b = zlen (ToBytes b) /\ OmittedBytes b = zlen output - zlen (ToBytes b)
  /\ RetainedBytes b <= Z.max 0 max.
Proof.
  pose proof (run_models _ _ ops (models_new max)) as H.
  destruct (run _ ops) as [b outs]. simpl in H. destruct (spec_run _ _ ops) as [output souts].
  destruct H as (Hm & Emax & Eouts). pose proof (models_ToBytes b output Hm) as Eb. rewrite Emax in Eb.
  destruct Hm as [Hhb Htb Hh Ht Hhn Htn Hom]. rewrite Emax in *.
  split_and!; [done|done| | | |]; unfold SnapshotChunks, ToBytes, RetainedBytes, OmittedBytes.
  - by rewrite concat_app.
  - rewrite zlen_app. lia.
  - rewrite zlen_app. lia.
  - rewrite Hhn, Htn, Hh, Ht, zlen_firstn, zlen_lastn by lia. rewrite Hhb, Htb.
    Z.to_euclidean_division_equations. lia.
Qed.

(** Two ways of cutting the same output show the same bytes. *)
Example chunking_irrelevant :
  ToBytes (run (NewHeadTailBuffer 10) [Push "01234567"; Push "89"; Push "abc"]).1
  = ToBytes (run (NewHeadTailBuffer 10) [Push "0"; Push "123456789abc"]).1.
Proof. vm_compute. reflexivity. Qed.

End HeadTail.
