(* ===== verification/LruCache.v ===== *)
(** * internal/utils/cache: the LRU cache

    [lru.go]: a doubly linked list of entries and a map from keys to its
    elements, here a heap of elements addressed by numbers, so that the list
    and the map share them as in the code.  The abstract cache is one list of
    key/value pairs, most recently used first.  [cache.go]: the lock and the
    switch around it; every method holds the lock throughout, so a method is
    one step. *)

From stdpp Require Import gmap.
From S2P Require Import Prelude.

Module LruCache.

Section Cache.
Context {K V : Type} `{Countable K}.

(** [container/list]: the elements of [order], front first. *)
Record LruCache := mkCache {
  capacity : nat;
  unbounded : bool;
  order : list nat;
  elements : gmap nat (K * V);
  items : gmap K nat;
  fresh : nat
}.

Definition newLruCache (capacity : nat) : LruCache := mkCache capacity false [] ∅ ∅ 0.
Definition newUnboundedLruCache : LruCache := mkCache 0 true [] ∅ ∅ 0.

Definition Len (c : LruCache) : nat := size (items c).
Definition Cap (c : LruCache) : nat := if unbounded c then 0 else capacity c.

(** [order.Remove] and [order.MoveToFront] *)
Definition remove_el (el : nat) (l : list nat) : list nat := filter (fun e => e <> el) l.
Definition moveToFront (c : LruCache) (el : nat) : LruCache :=
  mkCache (capacity c) (unbounded c) (el :: remove_el el (order c)) (elements c) (items c) (fresh c).

(** The first component is the value and the flag; [None] inside is a missing
    element, a nil dereference. *)
Definition Get (c : LruCache) (key : K) : option (option V * LruCache) :=
  match items c !! key with
  | None => Some (None, c)
  | Some el =>
      match elements c !! el with
      | None => None
      | Some (_, v) => Some (Some v, moveToFront c el)
      end
  end.

Definition evictOldest (c : LruCache) : option LruCache :=
  match last (order c) with
  | None => Some c
  | Some back =>
      match elements c !! back with
      | None => None
      | Some (key, _) =>
          Some (mkCache (capacity c) (unbounded c) (remove_el back (order c))
                  (delete back (elements c)) (delete key (items c)) (fresh c))
      end
  end.

Definition Put (c : LruCache) (key : K) (value : V) : option (option V * LruCache) :=
  match items c !! key with
  | Some el =>
      match elements c !! el with
      | None => None
      | Some (k, prev) =>
          let c := mkCache (capacity c) (unbounded c) (order c) (<[el := (k, value)]> (elements c))
                     (items c) (fresh c) in
          Some (Some prev, moveToFront c el)
      end
  | None =>
      let el := fresh c in
      let c := mkCache (capacity c) (unbounded c) (el :: order c) (<[el := (key, value)]> (elements c))
                 (<[key := el]> (items c)) (S el) in
      if negb (unbounded c) && (capacity c <? size (items c))%nat
      then c ← evictOldest c; Some (None, c)
      else Some (None, c)
  end.

Definition Pop (c : LruCache) (key : K) : option (option V * LruCache) :=
  match items c !! key with
  | None => Some (None, c)
  | Some el =>
      match elements c !! el with
      | None => None
      | Some (_, v) =>
          Some (Some v, mkCache (capacity c) (unbounded c) (remove_el el (order c))
                          (delete el (elements c)) (delete key (items c)) (fresh c))
      end
  end.

Definition Clear (c : LruCache) : LruCache :=
  mkCache (capacity c) (unbounded c) [] ∅ ∅ (fresh c).

(** ** cache.go *)

Record BlockingLruCache := mkBlocking { inner : LruCache; enabled : bool }.

(** [None] is [ErrZeroCapacity]. *)
Definition NewBlockingLruCache (capacity : nat) : option BlockingLruCache :=
  if decide (capacity = 0) then None else Some (mkBlocking (newLruCache capacity) true).
Definition TryWithCapacity (capacity : nat) : option BlockingLruCache := NewBlockingLruCache capacity.
Definition NewDisabledBlockingLruCache (capacity : nat) : option BlockingLruCache :=
  if decide (capacity = 0) then None else Some (mkBlocking (newLruCache capacity) false).

Definition SetEnabled (c : BlockingLruCache) (enabled : bool) : BlockingLruCache :=
  mkBlocking (inner c) enabled.

(** [value] is what the factory returns if it is called; the flag says whether
    it was. *)
Definition GetOrTryInsertWith {E} (c : BlockingLruCache) (key : K) (value : E + V)
    : option ((E + V) * bool * BlockingLruCache) :=
  if negb (enabled c) then Some (value, true, c)
  else
    '(found, i) ← Get (inner c) key;
    match found with
    | Some v => Some (inr v, false, mkBlocking i (enabled c))
    | None =>
        match value with
        | inl e => Some (inl e, true, mkBlocking i (enabled c))
        | inr v => '(_, i) ← Put i key v; Some (inr v, true, mkBlocking i (enabled c))
        end
    end.

Definition GetOrInsertWith (c : BlockingLruCache) (key : K) (value : V)
    : option (V * bool * BlockingLruCache) :=
  if negb (enabled c) then Some (value, true, c)
  else
    '(found, i) ← Get (inner c) key;
    match found with
    | Some v => Some (v, false, mkBlocking i (enabled c))
    | None => '(_, i) ← Put i key value; Some (value, true, mkBlocking i (enabled c))
    end.

(** Get, Insert, Remove, Clear: no-ops while disabled. *)
Definition gated {A} (c : BlockingLruCache) (off : A) (run : LruCache -> option (A * LruCache))
    : option (A * BlockingLruCache) :=
  if negb (enabled c) then Some (off, c)
  else '(a, i) ← run (inner c); Some (a, mkBlocking i (enabled c)).

Definition BlockingGet (c : BlockingLruCache) (key : K) := gated c None (fun i => Get i key).
Definition Insert (c : BlockingLruCache) (key : K) (value : V) := gated c None (fun i => Put i key value).
Definition Remove (c : BlockingLruCache) (key : K) := gated c None (fun i => Pop i key).
Definition BlockingClear (c : BlockingLruCache) := gated c () (fun i => Some ((), Clear i)).

(** [WithMut]: a disabled cache hands the callback a throwaway one. *)
Definition WithMut {R} (c : BlockingLruCache) (callback : LruCache -> option (R * LruCache))
    : option (R * BlockingLruCache) :=
  if negb (enabled c) then '(r, _) ← callback newUnboundedLruCache; Some (r, c)
  else '(r, i) ← callback (inner c); Some (r, mkBlocking i (enabled c)).

(** ** Operations and the abstract cache *)

Inductive op := OpGet (key : K) | OpPut (key : K) (value : V) | OpPop (key : K) | OpClear.

Definition step (c : LruCache) (o : op) : option (option V * LruCache) :=
  match o with
  | OpGet k => Get c k
  | OpPut k v => Put c k v
  | OpPop k => Pop c k
  | OpClear => Some (None, Clear c)
  end.

(** The abstract cache: pairs, most recently used first. *)
Abbreviation spec := (list (K * V)).

Fixpoint assoc (key : K) (l : spec) : option V :=
  match l with
  | [] => None
  | (k, v) :: l => if decide (k = key) then Some v else assoc key l
  end.
Definition without (key : K) (l : spec) : spec := filter (fun kv => kv.1 <> key) l.

(** [bound] is [None] for an unbounded cache. *)
Definition spec_step (bound : option nat) (l : spec) (o : op) : option V * spec :=
  match o with
  | OpGet k => (assoc k l, match assoc k l with Some v => (k, v) :: without k l | None => l end)
  | OpPut k v =>
      (assoc k l,
       match assoc k l with
       | Some _ => (k, v) :: without k l
       | None =>
           match bound with
           | Some n => if (n <? S (length l))%nat then removelast ((k, v) :: l) else (k, v) :: l
           | None => (k, v) :: l
           end
       end)
  | OpPop k => (assoc k l, without k l)
  | OpClear => (None, [])
  end.

Definition bound (c : LruCache) : option nat := if unbounded c then None else Some (capacity c).

(** [c] represents [l]: the list's elements hold the pairs in order, and the
    map takes each key to its element. *)
Record represents (c : LruCache) (l : spec) : Prop := mkRepresents {
  rep_elements : Forall2 (fun el kv => elements c !! el = Some kv) (order c) l;
  rep_items : forall k el, items c !! k = Some el <-> el ∈ order c /\ exists v, elements c !! el = Some (k, v);
  rep_order : NoDup (order c);
  rep_keys : NoDup (map fst l);
  rep_fresh : forall el, el ∈ order c -> (el < fresh c)%nat
}.

Lemma represents_new n : represents (newLruCache n) [].
Proof.
  split; simpl; try constructor; try done.
  - intros [Hel _]. by apply not_elem_of_nil in Hel.
  - intros el Hel. by apply not_elem_of_nil in Hel.
Qed.

Lemma Forall2_remove_el els (P : nat -> K * V -> Prop) l el k v :
  Forall2 P els l -> NoDup els -> NoDup (map fst l) -> el ∈ els ->
  (forall e kv, P e kv -> e = el <-> kv.1 = k) -> P el (k, v) ->
  Forall2 P (remove_el el els) (without k l).
Proof.
  intros Hall Hnd Hk _ Heq _. unfold remove_el, without.
  induction Hall as [|e kv els l Hp Hall IH]; [constructor|].
  apply NoDup_cons in Hnd as [_ Hnd]. simpl in Hk. apply NoDup_cons in Hk as [_ Hk].
  destruct (decide (e = el)) as [->|Hne].
  - rewrite !filter_cons_False; [by apply IH| |]; simpl; [|naive_solver].
    intros Hn. apply Hn. by apply (Heq el).
  - rewrite !filter_cons_True; [|intros Hn; apply Hne; by apply (Heq e kv)|done].
    constructor; [done|by apply IH].
Qed.

(** Elements of the list and their keys determine each other. *)
Lemma rep_same_key c l el kv el' k v :
  represents c l -> el ∈ order c -> elements c !! el = Some kv ->
  el' ∈ order c -> elements c !! el' = Some (k, v) -> (el = el' <-> kv.1 = k).
Proof.
  intros Hrep Hin He Hin' He'. split; [intros ->; rewrite He in He'; by injection He' as ->|].
  destruct kv as [k0 v0]. simpl. intros ->.
  assert (items c !! k = Some el) as E1 by (apply (rep_items c l Hrep); eauto).
  assert (items c !! k = Some el') as E2 by (apply (rep_items c l Hrep); eauto). congruence.
Qed.

Lemma assoc_Some l k v : NoDup (map fst l) -> (assoc k l = Some v <-> (k, v) ∈ l).
Proof.
  induction l as [|[k0 v0] l IH]; simpl; intros Hnd.
  - split; [done|]. by intros Hin%not_elem_of_nil.
  - apply NoDup_cons in Hnd as [Hn Hnd]. rewrite elem_of_cons. case_decide as E.
    + subst. split; [intros [= ->]; by left|]. intros [[= ->]|Hin]; [done|].
      destruct Hn. apply list_elem_of_fmap. by exists (k, v).
    + rewrite IH by done. split; [by right|]. intros [[= -> ->]|?]; [done|done].
Qed.

Lemma assoc_None l k : assoc k l = None <-> k ∉ map fst l.
Proof.
  induction l as [|[k0 v0] l IH]; simpl; [split; [intros _; apply not_elem_of_nil|done]|].
  rewrite not_elem_of_cons. case_decide; [split; [done|naive_solver]|]. rewrite IH. naive_solver.
Qed.

Lemma rep_lookup c l k :
  represents c l ->
  match items c !! k with
  | Some el => exists v, el ∈ order c /\ elements c !! el = Some (k, v) /\ assoc k l = Some v
  | None => assoc k l = None
  end.
Proof.
  intros Hrep. destruct (items c !! k) as [el|] eqn:E.
  - apply (rep_items c l Hrep) in E as [Hin [v He]]. exists v. split_and!; [done|done|].
    apply assoc_Some; [apply Hrep|]. destruct Hrep as [Hall _ _ _ _].
    apply list_elem_of_lookup in Hin as [i Hi].
    destruct (Forall2_lookup_l _ _ _ _ _ Hall Hi) as (kv & Hkv & He'). rewrite He in He'.
    injection He' as <-. by apply list_elem_of_lookup_2 with i.
  - apply assoc_None. intros Hin. apply list_elem_of_fmap in Hin as ([k' v] & -> & Hin). simpl in *.
    apply list_elem_of_lookup in Hin as [i Hi]. pose proof Hrep as [Hall Hitems _ _ _].
    destruct (Forall2_lookup_r _ _ _ _ _ Hall Hi) as (el & Hel & He).
    assert (items c !! k' = Some el); [|congruence].
    apply Hitems. split; [by apply list_elem_of_lookup_2 with i|by exists v].
Qed.

Lemma elem_of_remove_el el e l : e ∈ remove_el el l <-> e ∈ l /\ e <> el.
Proof. unfold remove_el. rewrite list_elem_of_filter. naive_solver. Qed.

Lemma NoDup_without k l : NoDup (map fst l) -> NoDup (map fst (without k l)) /\ k ∉ map fst (without k l).
Proof.
  intros Hnd. split.
  - unfold without. induction l as [|kv l IH]; [constructor|]. simpl in Hnd.
    apply NoDup_cons in Hnd as [Hn Hnd]. destruct (decide (kv.1 <> k)) as [E|E].
    + rewrite filter_cons_True by done. simpl. constructor; [|by apply IH].
      intros Hin. apply Hn. apply list_elem_of_fmap in Hin as (x & -> & Hx).
      apply list_elem_of_filter in Hx as [_ Hx]. by apply list_elem_of_fmap_2.
    + rewrite filter_cons_False by done. by apply IH.
  - intros Hin. apply list_elem_of_fmap in Hin as (x & -> & Hx).
    apply list_elem_of_filter in Hx as [Hx _]. by apply Hx.
Qed.

(** Taking an element out of the list. *)
Lemma Forall2_without c l el k v :
  represents c l -> el ∈ order c -> elements c !! el = Some (k, v) ->
  Forall2 (fun el kv => elements c !! el = Some kv) (remove_el el (order c)) (without k l).
Proof.
  intros Hrep Hin He. pose proof Hrep as [Hall Hitems Hnd Hk _].
  assert (Forall2 (fun e kv => elements c !! e = Some kv /\ e ∈ order c) (order c) l) as Hall'.
  { apply Forall2_same_length_lookup. split; [by eapply Forall2_length|].
    intros i e kv Hi Hj. split; [by apply (Forall2_lookup_lr _ _ _ _ _ _ Hall Hi Hj)|].
    by apply list_elem_of_lookup_2 with i. }
  eapply Forall2_impl.
  - apply (Forall2_remove_el _ _ _ el k v Hall'); [done|done|done| |done].
    intros e kv [He' Hin']. exact (rep_same_key c l e kv el k v Hrep Hin' He' Hin He).
  - by intros e kv [? _].
Qed.

(** Moving an element with a possibly new value to the front. *)
Lemma represents_front c l el k v v' :
  represents c l -> el ∈ order c -> elements c !! el = Some (k, v) ->
  represents (mkCache (capacity c) (unbounded c) (el :: remove_el el (order c))
                (<[el := (k, v')]> (elements c)) (items c) (fresh c)) ((k, v') :: without k l).
Proof.
  intros Hrep Hin He. pose proof Hrep as [Hall Hitems Hnd Hk Hf].
  destruct (NoDup_without k l Hk) as [Hk1 Hk2]. split; simpl.
  - constructor; [by rewrite lookup_insert_eq|].
    eapply Forall2_impl_in; [by apply (Forall2_without c l el k v)|].
    intros e kv Hine _ Hp. apply elem_of_remove_el in Hine as [_ Hne].
    by rewrite lookup_insert_ne by congruence.
  - intros k0 e. rewrite Hitems, elem_of_cons, elem_of_remove_el. split.
    + intros [Hine [v0 Hv0]]. split; [destruct (decide (e = el)); naive_solver|].
      destruct (decide (e = el)) as [->|Hne].
      * rewrite lookup_insert_eq. rewrite He in Hv0. injection Hv0 as -> ->. by exists v'.
      * rewrite lookup_insert_ne by congruence. by exists v0.
    + intros [Hine [v0 Hv0]]. destruct (decide (e = el)) as [->|Hne].
      * rewrite lookup_insert_eq in Hv0. injection Hv0 as -> ->. eauto.
      * rewrite lookup_insert_ne in Hv0 by congruence. destruct Hine as [->|[Hine _]]; [done|]. eauto.
  - constructor; [|by apply NoDup_filter]. rewrite elem_of_remove_el. by intros [_ ?].
  - by constructor.
  - intros e [->|[Hine _]%elem_of_remove_el]%elem_of_cons; by apply Hf.
Qed.

Lemma represents_pop c l el k v :
  represents c l -> el ∈ order c -> elements c !! el = Some (k, v) ->
  represents (mkCache (capacity c) (unbounded c) (remove_el el (order c)) (delete el (elements c))
                (delete k (items c)) (fresh c)) (without k l).
Proof.
  intros Hrep Hin He. pose proof Hrep as [Hall Hitems Hnd Hk Hf].
  destruct (NoDup_without k l Hk) as [Hk1 Hk2]. split; simpl; [| | |done|].
  - eapply Forall2_impl_in; [by apply (Forall2_without c l el k v)|].
    intros e kv Hine _ Hp. apply elem_of_remove_el in Hine as [_ Hne].
    by rewrite lookup_delete_ne by congruence.
  - intros k0 e. rewrite elem_of_remove_el, lookup_delete_Some, Hitems. split.
    + intros [Hne [Hine [v0 Hv0]]].
      assert (e <> el) as Hne' by (intros ->; rewrite He in Hv0; congruence).
      split; [done|]. exists v0. by rewrite lookup_delete_ne by congruence.
    + intros [[Hine Hne] [v0 Hv0]]. rewrite lookup_delete_ne in Hv0 by congruence. split; [|eauto].
      intros ->. apply Hne. by apply (rep_same_key c l e (k0, v0) el k0 v Hrep).
  - by apply NoDup_filter.
  - intros e [Hine _]%elem_of_remove_el. by apply Hf.
Qed.

Lemma size_items c l : represents c l -> size (items c) = length l.
Proof.
  intros Hrep. pose proof Hrep as [Hall Hitems Hnd Hk _].
  assert (dom (items c) = list_to_set (map fst l)) as Hdom.
  { apply set_eq. intros k. rewrite elem_of_dom, elem_of_list_to_set.
    pose proof (rep_lookup c l k Hrep) as Hl. split.
    - intros [el E]. rewrite E in Hl. destruct Hl as (v & _ & _ & Ha). apply assoc_Some in Ha; [|done].
      apply list_elem_of_fmap. by exists (k, v).
    - intros Hin. destruct (items c !! k); [by eexists|]. apply assoc_None in Hl. done. }
  rewrite <- size_dom, Hdom, size_list_to_set by done. by rewrite length_map.
Qed.

Lemma filter_neq_removelast (f : K * V -> K) l kv :
  NoDup (map f (l ++ [kv])) -> filter (fun x => f x <> f kv) (l ++ [kv]) = l.
Proof.
  rewrite map_app. intros [Hnd [Hdis _]]%NoDup_app. rewrite filter_app, filter_cons_False by (intros Hn; by apply Hn).
  rewrite app_nil_r. apply list_filter_all. apply Forall_forall. intros x Hx E.
  apply (Hdis (f x)); [by apply list_elem_of_fmap_2|]. rewrite E. simpl. by apply list_elem_of_singleton.
Qed.

Lemma represents_evict c l :
  represents c l -> exists c', evictOldest c = Some c' /\ represents c' (removelast l)
    /\ bound c' = bound c.
Proof.
  intros Hrep. pose proof Hrep as [Hall Hitems Hnd Hk Hf]. unfold evictOldest.
  destruct (last (order c)) as [back|] eqn:El.
  - apply last_Some in El as [els Eo]. rewrite Eo in Hall.
    apply Forall2_app_inv_l in Hall as (l1 & l2 & Hall1 & Hall2 & ->).
    inversion Hall2 as [|? [k v] ? ? He Hnil]; subst. inversion Hnil; subst.
    rewrite He. eexists. split; [done|]. split; [|done].
    assert (back ∈ order c) as Hin by (rewrite Eo; set_solver).
    pose proof (represents_pop c _ back k v Hrep Hin He) as Hpop.
    assert (without k (l1 ++ [(k, v)]) = removelast (l1 ++ [(k, v)])) as <-; [|exact Hpop].
    rewrite removelast_last. exact (filter_neq_removelast fst l1 (k, v) Hk).
  - apply last_None in El. rewrite El in Hall. inversion Hall; subst. by exists c.
Qed.

Lemma step_refines c l o :
  represents c l ->
  exists r c', step c o = Some (r, c') /\ spec_step (bound c) l o = (r, (spec_step (bound c) l o).2)
    /\ represents c' (spec_step (bound c) l o).2 /\ bound c' = bound c.
Proof.
  intros Hrep. destruct o as [k|k v|k|]; simpl.
  - unfold Get. pose proof (rep_lookup c l k Hrep) as Hl. destruct (items c !! k) as [el|].
    + destruct Hl as (v & Hin & He & ->). rewrite He. do 2 eexists. split_and!; [done|done| |done].
      pose proof (represents_front c l el k v v Hrep Hin He) as Hr.
      by rewrite insert_id in Hr.
    + rewrite Hl. by do 2 eexists.
  - unfold Put. pose proof (rep_lookup c l k Hrep) as Hl. destruct (items c !! k) as [el|] eqn:Ei.
    + destruct Hl as (v0 & Hin & He & ->). rewrite He. do 2 eexists. split_and!; [done|done| |done].
      by apply (represents_front c l el k v0 v).
    + rewrite Hl. set (c1 := mkCache _ _ (fresh c :: order c) _ _ _).
      assert (represents c1 ((k, v) :: l)) as Hrep1.
      { pose proof Hrep as [Hall Hitems Hnd Hk Hf]. split; simpl.
        - constructor; [by rewrite lookup_insert_eq|]. eapply Forall2_impl_in; [exact Hall|].
          intros e kv Hin _ He. rewrite lookup_insert_ne; [done|]. specialize (Hf e Hin). lia.
        - intros k0 e. destruct (decide (k0 = k)) as [->|Hne].
          + rewrite lookup_insert_eq, elem_of_cons. split.
            * intros [= <-]. split; [by left|]. exists v. by rewrite lookup_insert_eq.
            * intros [[->|Hin] [v0 Hv0]]; [done|]. assert (e <> fresh c) by (specialize (Hf e Hin); lia).
              rewrite lookup_insert_ne in Hv0 by congruence.
              assert (items c !! k = Some e); [|congruence]. apply Hitems. eauto.
          + rewrite lookup_insert_ne by congruence. rewrite Hitems, elem_of_cons. split.
            * intros [Hin [v0 Hv0]]. assert (e <> fresh c) by (specialize (Hf e Hin); lia).
              split; [by right|]. exists v0. by rewrite lookup_insert_ne by congruence.
            * intros [Hin [v0 Hv0]]. destruct (decide (e = fresh c)) as [->|Hne'].
              { rewrite lookup_insert_eq in Hv0. congruence. }
              rewrite lookup_insert_ne in Hv0 by congruence. destruct Hin as [->|Hin]; [done|]. eauto.
        - constructor; [|done]. intros Hin. specialize (Hf _ Hin). lia.
        - constructor; [by apply assoc_None|done].
        - intros e [->|Hin]%elem_of_cons; [lia|]. specialize (Hf e Hin). lia. }
      pose proof (size_items _ _ Hrep1) as Hsize. cbn [items c1 length] in Hsize.
      cbv zeta. cbn [unbounded capacity items c1]. rewrite Hsize. unfold bound.
      destruct (unbounded c) eqn:Eu; simpl negb; cbn [andb].
      * do 2 eexists. split_and!; [done|done|exact Hrep1|]. unfold bound. simpl. by rewrite ?Eu.
      * destruct (capacity c <? S (length l))%nat.
        -- destruct (represents_evict c1 _ Hrep1) as (c' & -> & Hrep' & Hb).
           do 2 eexists. split_and!; [done|done|exact Hrep'|]. unfold bound in Hb. rewrite Hb. simpl. by rewrite ?Eu.
        -- do 2 eexists. split_and!; [done|done|exact Hrep1|]. unfold bound. simpl. by rewrite ?Eu.
  - unfold Pop. pose proof (rep_lookup c l k Hrep) as Hl. destruct (items c !! k) as [el|].
    + destruct Hl as (v & Hin & He & ->). rewrite He. do 2 eexists. split_and!; [done|done| |done].
      by apply (represents_pop c l el k v).
    + rewrite Hl. do 2 eexists. split_and!; [done|done| |done].
      assert (without k l = l) as ->; [|done]. unfold without. apply list_filter_all, Forall_forall.
      intros kv Hin E. apply assoc_None in Hl. apply Hl. rewrite <- E. by apply list_elem_of_fmap_2.
  - do 2 eexists. split_and!; [done|done| |done]. split; simpl; try constructor; try done.
    + intros [Hel _]. by apply not_elem_of_nil in Hel.
    + intros el Hel. by apply not_elem_of_nil in Hel.
Qed.

(** Runs: the results of a sequence of operations. *)
Fixpoint run (c : LruCache) (ops : list op) : option (list (option V) * LruCache) :=
  match ops with
  | [] => Some ([], c)
  | o :: ops => '(r, c) ← step c o; '(rs, c) ← run c ops; Some (r :: rs, c)
  end.

Fixpoint spec_run (bound : option nat) (l : spec) (ops : list op) : list (option V) * spec :=
  match ops with
  | [] => ([], l)
  | o :: ops => let '(r, l) := spec_step bound l o in let '(rs, l) := spec_run bound l ops in (r :: rs, l)
  end.

Lemma run_represents c l ops :
  represents c l ->
  exists rs c' l', run c ops = Some (rs, c') /\ spec_run (bound c) l ops = (rs, l') /\ represents c' l'.
Proof.
  revert c l. induction ops as [|o ops IH]; intros c l Hrep; simpl.
  - by exists [], c, l.
  - destruct (step_refines c l o Hrep) as (r & c1 & -> & E & Hrep1 & Hb). simpl.
    destruct (spec_step (bound c) l o) as [r' l1]. simpl in *. injection E as ->.
    destruct (IH _ _ Hrep1) as (rs & c' & l' & -> & Es & Hrep'). rewrite Hb in Es. simpl. rewrite Es.
    by exists (r :: rs), c', l'.
Qed.

Lemma length_without_assoc k v (l : spec) :
  assoc k l = Some v -> NoDup (map fst l) -> S (length (without k l)) = length l.
Proof.
  intros Ha Hnd. unfold without. induction l as [|[k0 v0] l IH]; [done|]. simpl in *.
  apply NoDup_cons in Hnd as [Hn Hnd]. case_decide as E.
  - subst. rewrite filter_cons_False by naive_solver. f_equal. rewrite list_filter_all; [done|].
    apply Forall_forall. intros kv Hin E. apply Hn. rewrite <- E. by apply list_elem_of_fmap_2.
  - rewrite filter_cons_True by done. simpl. f_equal. by apply IH.
Qed.

Lemma spec_step_length n l o :
  NoDup (map fst l) -> (length l <= n)%nat -> (length (spec_step (Some n) l o).2 <= n)%nat.
Proof.
  intros Hnd Hl. destruct o as [k|k v|k|]; simpl.
  - destruct (assoc k l) eqn:E; [|done]. simpl. by rewrite (length_without_assoc k v).
  - destruct (assoc k l) eqn:E.
    + simpl. by rewrite (length_without_assoc k v0).
    + destruct (n <? S (length l))%nat eqn:En; breflect; [|simpl; lia].
      assert (length (removelast ((k, v) :: l)) = length l) as Hr.
      { rewrite removelast_firstn_len, length_take. simpl. lia. }
      cbn [removelast] in Hr. lia.
  - unfold without. pose proof (length_filter (fun kv : K * V => kv.1 <> k) l). lia.
  - lia.
Qed.

End Cache.

(**  The cache behaves as one list of pairs ordered by use, whatever the operations:
    every result is that of the list (a [Get] finds the last value put under
    the key unless removed or evicted, and moves it to the front; a [Put] past
    the capacity drops the least recently used pair), no operation fails, and
    the number of entries is the list's length. *)
Theorem cache_run_refines `{Countable K} {V} (capacity : nat) (ops : list (@op K V)) :
  exists rs c l,
    run (newLruCache capacity) ops = Some (rs, c)
    /\ spec_run (Some capacity) [] ops = (rs, l)
    /\ Len c = length l /\ NoDup (map fst l).
Proof.
  destruct (run_represents (newLruCache capacity) [] ops (represents_new _)) as (rs & c & l & E & Es & Hrep).
  exists rs, c, l. split_and!; [done|done|by apply size_items|apply Hrep].
Qed.

(** ** The hit guarantee *)

Section Hits.
Context {K V : Type} `{Countable K}.

(** The keys an operation can put in front of another one. *)
Definition touched (o : @op K V) : list K :=
  match o with OpGet k | OpPut k _ => [k] | _ => [] end.
(** The operation does not remove [k]. *)
Definition keeps (k : K) (o : @op K V) : Prop :=
  match o with OpPop k' => k' <> k | OpClear => False | _ => True end.
Definition overwrites (k : K) (o : @op K V) : Prop :=
  match o with OpPut k' _ => k' = k | _ => False end.

(** The keys in front of [k]. *)
Fixpoint before (k : K) (l : list (K * V)) : list K :=
  match l with
  | [] => []
  | (k', _) :: l => if decide (k' = k) then [] else k' :: before k l
  end.

Lemma before_subset k (l : list (K * V)) : before k l ⊆ map fst l.
Proof.
  induction l as [|[k' v] l IH]; simpl; [set_solver|]. case_decide; set_solver.
Qed.

Lemma before_without k k' (l : list (K * V)) : k' <> k -> before k (without k' l) ⊆ before k l.
Proof.
  intros Hne. unfold without. induction l as [|[k0 v0] l IH]; [done|]. simpl.
  destruct (decide (k0 = k')) as [->|Hk].
  - rewrite filter_cons_False by naive_solver. rewrite decide_False by done. set_solver.
  - rewrite filter_cons_True by done. simpl. case_decide; set_solver.
Qed.

Lemma assoc_without k k' (l : list (K * V)) : k' <> k -> assoc k (without k' l) = assoc k l.
Proof.
  intros Hne. unfold without. induction l as [|[k0 v0] l IH]; [done|].
  destruct (decide (k0 = k')) as [->|Hk].
  - rewrite filter_cons_False by naive_solver. simpl. by rewrite decide_False.
  - rewrite filter_cons_True by done. simpl. case_decide; [done|]. apply IH.
Qed.

Lemma before_removelast k (l : list (K * V)) v :
  assoc k l = Some v -> NoDup (map fst l) -> (length (before k l) < length l - 1)%nat ->
  assoc k (removelast l) = Some v /\ before k (removelast l) = before k l.
Proof.
  induction l as [|[k0 v0] l IH]; [done|]. simpl. intros Ha Hnd Hlt.
  apply NoDup_cons in Hnd as [_ Hnd]. destruct l as [|kv l]; [simpl in Hlt; lia|].
  case_decide as E.
  - cbn [removelast assoc before]. by rewrite !(decide_True _ _ E).
  - change (removelast ((k0, v0) :: kv :: l)) with ((k0, v0) :: removelast (kv :: l)).
    destruct IH as [Ha' Hb']; [done|done|simpl in *; lia|]. cbn [assoc before].
    rewrite decide_False by done. split; [done|]. rewrite decide_False by done. by rewrite Hb'.
Qed.

Lemma length_before k (l : list (K * V)) v : assoc k l = Some v -> (length (before k l) < length l)%nat.
Proof.
  induction l as [|[k0 v0] l IH]; [done|]. simpl. case_decide; simpl; [lia|]. intros Ha. specialize (IH Ha). lia.
Qed.

Lemma NoDup_before k (l : list (K * V)) : NoDup (map fst l) -> NoDup (before k l).
Proof.
  induction l as [|[k0 v0] l IH]; simpl; intros Hnd; [constructor|]. apply NoDup_cons in Hnd as [Hn Hnd].
  case_decide; constructor; [|by apply IH]. intros Hin. apply Hn. by apply before_subset in Hin.
Qed.

End Hits.

Section Guarantee.
Context {K V : Type} `{Countable K}.

Lemma spec_step_NoDup n (l : list (K * V)) o :
  NoDup (map fst l) -> NoDup (map fst (spec_step (Some n) l o).2).
Proof.
  intros Hnd. destruct o as [k|k v|k|]; simpl; [| | |constructor].
  - destruct (assoc k l); [|done]. simpl. constructor; by apply NoDup_without.
  - destruct (assoc k l) eqn:E; [simpl; constructor; by apply NoDup_without|].
    assert (NoDup (map fst ((k, v) :: l))) as Hnd' by (simpl; constructor; [by apply assoc_None|done]).
    assert (NoDup (map fst (removelast ((k, v) :: l)))) as Hrem.
    { rewrite removelast_firstn_len, <- firstn_map. by eapply sublist_NoDup, sublist_take. }
    by case_match.
  - by apply NoDup_without.
Qed.

(** One operation on another key brings at most that key in front of [k]. *)
Lemma spec_step_keeps n (l : list (K * V)) o k v (others : gset K) :
  NoDup (map fst l) -> (length l <= n)%nat ->
  assoc k l = Some v -> keeps k o -> ~ overwrites k o ->
  list_to_set (before k l) ⊆ others -> list_to_set (touched o) ⊆ others ∪ {[k]} ->
  (size others < n)%nat ->
  assoc k (spec_step (Some n) l o).2 = Some v
  /\ list_to_set (before k (spec_step (Some n) l o).2) ⊆ others.
Proof.
  intros Hnd Hl Ha Hk Ho Hb Ht Hs.
  assert (forall (k' : K) (v' : V), k' <> k -> k' ∈ others -> forall l' : list (K * V), before k l' ⊆ before k l ->
    (list_to_set (before k ((k', v') :: l')) : gset K) ⊆ others) as Hcons.
  { intros k' v' Hne Hin l' Hl'. simpl. rewrite decide_False by done. simpl.
    apply union_subseteq. split; [set_solver|]. intros x Hx. apply Hb.
    apply elem_of_list_to_set in Hx. apply elem_of_list_to_set. set_solver. }
  destruct o as [k'|k' v'|k'|]; simpl in *.
  - destruct (assoc k' l) as [v'|] eqn:E; [|done]. destruct (decide (k' = k)) as [->|Hne].
    + simpl. rewrite !decide_True by done. rewrite Ha in E. injection E as ->. split; [done|set_solver].
    + assert (k' ∈ others) by set_solver. split.
      * simpl. rewrite decide_False by done. by rewrite assoc_without.
      * apply (Hcons k' v'); [done|done|by apply before_without].
  - destruct (decide (k' = k)) as [->|Hne]; [done|]. assert (k' ∈ others) by set_solver.
    destruct (assoc k' l) eqn:E.
    + split; [simpl; rewrite decide_False by done; by rewrite assoc_without|].
      apply (Hcons k' v'); [done|done|by apply before_without].
    + assert (assoc k ((k', v') :: l) = Some v) as Ha' by (simpl; by rewrite decide_False).
      pose proof (Hcons k' v' Hne ltac:(done) l ltac:(done)) as Hb'.
      destruct (n <? S (length l))%nat eqn:En; [|done]. breflect.
      assert (NoDup (map fst ((k', v') :: l))) as Hnd' by (simpl; constructor; [by apply assoc_None|done]).
      assert (size (list_to_set (before k ((k', v') :: l)) : gset K) <= size others)%nat as Hsz
        by (by apply subseteq_size).
      rewrite size_list_to_set in Hsz by (by apply NoDup_before).
      destruct (before_removelast k ((k', v') :: l) v Ha' Hnd') as [Ea Eb]; [simpl length at 2; lia|].
      split; [exact Ea|].
      change ((list_to_set (before k (removelast ((k', v') :: l))) : gset K) ⊆ others).
      by rewrite Eb.
  - split; [by rewrite assoc_without|]. intros x Hx. apply Hb. apply elem_of_list_to_set in Hx.
    apply elem_of_list_to_set. apply before_without in Hx; done.
  - done.
Qed.

Lemma spec_run_keeps n (l : list (K * V)) ops k v (others : gset K) :
  NoDup (map fst l) -> (length l <= n)%nat -> assoc k l = Some v ->
  Forall (keeps k) ops -> Forall (fun o => ~ overwrites k o) ops ->
  list_to_set (before k l) ⊆ others -> list_to_set (concat (map touched ops)) ⊆ others ∪ {[k]} ->
  (size others < n)%nat -> assoc k (spec_run (Some n) l ops).2 = Some v.
Proof.
  revert l. induction ops as [|o ops IH]; intros l Hnd Hl Ha Hk Ho Hb Ht Hs; [done|].
  apply Forall_cons in Hk as [Hk Hks]. apply Forall_cons in Ho as [Ho Hos]. simpl in Ht.
  rewrite list_to_set_app in Ht.
  destruct (spec_step_keeps n l o k v others) as [Ha' Hb']; try done; [set_solver|].
  pose proof (spec_step_NoDup n l o Hnd). pose proof (spec_step_length n l o Hnd Hl).
  simpl. destruct (spec_step (Some n) l o) as [r l1]. simpl in *.
  specialize (IH l1). destruct (spec_run (Some n) l1 ops). apply IH; try done. set_solver.
Qed.

End Guarantee.

(** The hit guarantee of a cache of capacity [n]: after a [Put] of [k],
    as long as [k] is neither removed nor put again and the operations use
    fewer than [n] other keys, a [Get] of [k] still finds the value. *)
Theorem run_hits `{Countable K} {V} (n : nat) (ops0 ops : list (@op K V)) k v (others : gset K) :
  Forall (keeps k) ops -> Forall (fun o => ~ overwrites k o) ops ->
  list_to_set (concat (map touched ops)) ⊆ others ∪ {[k]} -> (size others < n)%nat ->
  exists rs c, run (newLruCache n) (ops0 ++ OpPut k v :: ops) = Some (rs, c)
    /\ exists c', Get c k = Some (Some v, c').
Proof.
  intros Hk Ho Ht Hs.
  destruct (run_represents (newLruCache n) [] (ops0 ++ OpPut k v :: ops) (represents_new _))
    as (rs & c & l & E & Es & Hrep). exists rs, c. split; [done|].
  assert (assoc k l = Some v) as Ha.
  { change (bound (newLruCache n)) with (Some n) in Es.
    assert (forall l0, NoDup (map fst l0) -> (length l0 <= n)%nat ->
      assoc k (spec_run (Some n) l0 (ops0 ++ OpPut k v :: ops)).2 = Some v) as Hgen;
      [|specialize (Hgen [] (NoDup_nil_2) ltac:(simpl; lia)); by rewrite Es in Hgen].
    clear -Hk Ho Ht Hs. induction ops0 as [|o ops0 IH]; intros l0 Hnd Hl.
    - cbn [app spec_run]. set (l1 := (spec_step (Some n) l0 (OpPut k v)).2).
      assert (assoc k l1 = Some v /\ before k l1 = []) as [Ha Hb].
      { subst l1. simpl. destruct (assoc k l0); [simpl; by rewrite !decide_True|].
        case_match eqn:En; [|simpl; by rewrite !decide_True]. breflect.
        destruct l0 as [|kv l0]; [simpl in *; lia|].
        change (removelast ((k, v) :: kv :: l0)) with ((k, v) :: removelast (kv :: l0)).
        simpl. by rewrite !decide_True. }
      pose proof (spec_run_keeps n l1 ops k v others (spec_step_NoDup n l0 _ Hnd)
        (spec_step_length n l0 _ Hnd Hl) Ha Hk Ho) as Hrun.
      rewrite Hb in Hrun. specialize (Hrun ltac:(set_solver) Ht Hs).
      subst l1. destruct (spec_step (Some n) l0 (OpPut k v)) as [r l1]. simpl in *.
      by destruct (spec_run (Some n) l1 ops).
    - cbn [app spec_run]. pose proof (spec_step_NoDup n l0 o Hnd). pose proof (spec_step_length n l0 o Hnd Hl).
      destruct (spec_step (Some n) l0 o) as [r l1]. simpl in *. specialize (IH l1).
      destruct (spec_run (Some n) l1 _). by apply IH. }
  pose proof (rep_lookup c l k Hrep) as Hlook. unfold Get. rewrite Ha in Hlook.
  destruct (items c !! k) as [el|]; [|done]. destruct Hlook as (v' & _ & -> & [= <-]). by eexists.
Qed.

Lemma run_hits_witness :
  let ops0 := [OpPut 1 10; OpPut 2 20] in
  let ops := [OpPut 4 40; OpGet 3; OpPut 5 50; OpGet 4; OpPut 5 51] in
  exists rs c, run (newLruCache 3) (ops0 ++ OpPut 3 30 :: ops) = Some (rs, c)
    /\ exists c', Get c 3 = Some (Some 30, c').
Proof.
  apply (run_hits 3 _ _ 3 30 {[4; 5]}).
  - repeat (apply Forall_cons; split; [simpl; try done; lia|]). constructor.
  - repeat (apply Forall_cons; split; [simpl; try done; lia|]). constructor.
  - apply (bool_decide_unpack _). vm_compute. exact I.
  - vm_compute. lia.
Defined.

End LruCache.
