(* ===== verification/StreamInline.v ===== *)
(** * internal/utils/streamparser: hidden inline tags and citations

    [inline_hidden_tag.go], [citation.go] and [stream_text.go]: the streaming
    parser that hides delimited tags and extracts their contents.  The loop of
    [PushStr] runs on fuel, one more than the pending bytes; each iteration
    removes a delimiter, so it is never used up ([pushLoop_total]). *)

From S2P Require Import Prelude GoStrings GoUtf8 GoText.

Module Inline.

Definition isCharBoundary (s : gostring) (i : nat) : bool :=
  if decide (i = 0%nat \/ i = length s) then true
  else match s !! i with Some c => rune_start c | None => false end.

Fixpoint longestLoop (k : nat) (s needle : gostring) : nat :=
  match k with
  | O => 0
  | S k' =>
      if isCharBoundary needle k && has_suffix s (take k needle) then k
      else longestLoop k' s needle
  end.

Definition longestSuffixPrefixLen (s needle : gostring) : nat :=
  longestLoop (Nat.min (length s) (length needle - 1)) s needle.

Section Tags.
Context {T : Type}.

Record InlineTagSpec := mkSpec { Tag : T; Open : gostring; Close : gostring }.

Record activeTag := mkActive { atag : T; aclose : gostring; acontent : gostring }.

(** [StreamTextChunk[ExtractedInlineTag[T]]]: the visible text and the tags. *)
Definition Chunk := (gostring * list (T * gostring))%type.

Record InlineHiddenTagParser := mkParser {
  specs : list InlineTagSpec;
  pending : gostring;
  active : option activeTag
}.

(** The constructor panics without specs or on an empty delimiter. *)
Definition NewInlineHiddenTagParser (specs : list InlineTagSpec) : option InlineHiddenTagParser :=
  if decide (specs = []) then None
  else if existsb (fun sp => bool_decide (Open sp = []) || bool_decide (Close sp = [])) specs
  then None
  else Some (mkParser specs [] None).

(** The loop of [findNextOpen]: the best position, its opener's length and its
    spec. *)
Fixpoint findLoop (specs : list InlineTagSpec) (pending : gostring)
    (best : option (nat * nat * InlineTagSpec)) : option (nat * nat * InlineTagSpec) :=
  match specs with
  | [] => best
  | sp :: specs =>
      let best :=
        match str_index pending (Open sp) with
        | None => best
        | Some at_ =>
            let candLen := length (Open sp) in
            match best with
            | None => Some (at_, candLen, sp)
            | Some (bestPos, bestLen, _) =>
                if (at_ <? bestPos)%nat || ((at_ =? bestPos)%nat && (bestLen <? candLen)%nat)
                then Some (at_, candLen, sp) else best
            end
        end in
      findLoop specs pending best
  end.

Definition findNextOpen (p : InlineHiddenTagParser) : option (nat * InlineTagSpec) :=
  match findLoop (specs p) (pending p) None with
  | Some (pos, _, sp) => Some (pos, sp)
  | None => None
  end.

Definition maxOpenPrefixSuffixLen (p : InlineHiddenTagParser) : nat :=
  fold_left (fun m sp => let l := longestSuffixPrefixLen (pending p) (Open sp) in
                         if (m <? l)%nat then l else m) (specs p) 0%nat.

(** The loop of [PushStr]; [None] is fuel used up. *)
Fixpoint pushLoop (fuel : nat) (p : InlineHiddenTagParser) (out : Chunk)
    : option (InlineHiddenTagParser * Chunk) :=
  match fuel with
  | O => None
  | S fuel =>
      let '(visible, extracted) := out in
      match active p with
      | Some a =>
          match str_index (pending p) (aclose a) with
          | Some closeIdx =>
              let content := acontent a ++ take closeIdx (pending p) in
              pushLoop fuel
                (mkParser (specs p) (drop (closeIdx + length (aclose a)) (pending p)) None)
                (visible, extracted ++ [(atag a, content)])
          | None =>
              let keep := longestSuffixPrefixLen (pending p) (aclose a) in
              let n := (length (pending p) - keep)%nat in
              Some (mkParser (specs p) (drop n (pending p))
                      (Some (mkActive (atag a) (aclose a) (acontent a ++ take n (pending p)))), out)
          end
      | None =>
          match findNextOpen p with
          | Some (openIdx, sp) =>
              pushLoop fuel
                (mkParser (specs p) (drop (openIdx + length (Open sp)) (pending p))
                   (Some (mkActive (Tag sp) (Close sp) [])))
                (visible ++ take openIdx (pending p), extracted)
          | None =>
              let keep := maxOpenPrefixSuffixLen p in
              let n := (length (pending p) - keep)%nat in
              Some (mkParser (specs p) (drop n (pending p)) None,
                    (visible ++ take n (pending p), extracted))
          end
      end
  end.

Definition PushStr (p : InlineHiddenTagParser) (chunk : gostring)
    : option (InlineHiddenTagParser * Chunk) :=
  let p := mkParser (specs p) (pending p ++ chunk) (active p) in
  pushLoop (S (length (pending p))) p ([], []).

Definition Finish (p : InlineHiddenTagParser) : InlineHiddenTagParser * Chunk :=
  match active p with
  | Some a => (mkParser (specs p) [] None, ([], [(atag a, acontent a ++ pending p)]))
  | None => (mkParser (specs p) [] None, (pending p, []))
  end.

(** Pushing chunk after chunk and finishing: the concatenated results. *)
Fixpoint pushAll (p : InlineHiddenTagParser) (chunks : list gostring)
    : option (InlineHiddenTagParser * Chunk) :=
  match chunks with
  | [] => Some (p, ([], []))
  | chunk :: chunks =>
      '(p, (v, e)) ← PushStr p chunk;
      '(p, (v', e')) ← pushAll p chunks;
      Some (p, (v ++ v', e ++ e'))
  end.

Definition stream (p : InlineHiddenTagParser) (chunks : list gostring) : option Chunk :=
  '(p, (v, e)) ← pushAll p chunks;
  let '(_, (v', e')) := Finish p in
  Some (v ++ v', e ++ e').

End Tags.

Arguments InlineTagSpec : clear implicits.
Arguments InlineHiddenTagParser : clear implicits.
Arguments Chunk : clear implicits.

(** ** citation.go *)

Inductive citationTag := citationTagCitation.

Definition citationOpen : gostring := "<oai-mem-citation>".
Definition citationClose : gostring := "</oai-mem-citation>".

Definition citationSpec : InlineTagSpec citationTag :=
  mkSpec citationTagCitation citationOpen citationClose.

Definition NewCitationStreamParser : InlineHiddenTagParser citationTag := mkParser [citationSpec] [] None.

Definition mapExtractedToContent (c : Chunk citationTag) : gostring * list gostring :=
  (c.1, map snd c.2).

Definition CitationPushStr (p : InlineHiddenTagParser citationTag) (chunk : gostring)
    : option (InlineHiddenTagParser citationTag * (gostring * list gostring)) :=
  '(p, c) ← PushStr p chunk; Some (p, mapExtractedToContent c).

Definition CitationFinish (p : InlineHiddenTagParser citationTag)
    : InlineHiddenTagParser citationTag * (gostring * list gostring) :=
  let '(p, c) := Finish p in (p, mapExtractedToContent c).

Definition StripCitations (text : gostring) : option (gostring * list gostring) :=
  '(p, (v, e)) ← CitationPushStr NewCitationStreamParser text;
  let '(_, (v', e')) := CitationFinish p in
  Some (v ++ v', e ++ e').

Example strip_example :
  StripCitations "hello <oai-mem-citation>doc A</oai-mem-citation> world<oai-mem-citation>doc B"
  = Some (str "hello  world", [str "doc A"; str "doc B"]).
Proof. vm_compute. reflexivity. Qed.

(** ** First occurrences *)

Lemma str_index_Some s sub i :
  str_index s sub = Some i
  <-> has_prefix (drop i s) sub = true /\ forall j, (j < i)%nat -> has_prefix (drop j s) sub = false.
Proof.
  revert i. induction s as [|c s IH]; intros i; simpl.
  - destruct (has_prefix [] sub) eqn:E.
    + split; [intros [= <-]; split; [done|lia]|]. intros [_ Hlt].
      destruct i as [|i]; [done|]. specialize (Hlt 0%nat ltac:(lia)). simpl in Hlt. congruence.
    + split; [done|]. intros [H _]. rewrite drop_nil in H. congruence.
  - destruct (has_prefix (c :: s) sub) eqn:E.
    + split; [intros [= <-]; split; [done|lia]|]. intros [_ Hlt].
      destruct i as [|i]; [done|]. specialize (Hlt 0%nat ltac:(lia)). simpl in Hlt. congruence.
    + destruct i as [|i].
      { split; [intros (? & ? & ?)%fmap_Some; done|]. simpl. intros [H _]. congruence. }
      rewrite fmap_Some. split.
      * intros (i' & Hi & [= <-]). apply IH in Hi as [Hp Hlt]. split; [done|].
        intros [|j] Hj; [done|]. simpl. apply Hlt. lia.
      * intros [Hp Hlt]. exists i. split; [|done]. apply IH. split; [done|].
        intros j Hj. apply (Hlt (S j)). lia.
Qed.

Lemma str_index_None s sub : str_index s sub = None <-> forall j, has_prefix (drop j s) sub = false.
Proof.
  split.
  - revert sub. induction s as [|c s IH]; intros sub; simpl.
    + destruct (has_prefix [] sub) eqn:E; [done|]. intros _ j. by rewrite drop_nil.
    + destruct (has_prefix (c :: s) sub) eqn:E; [done|]. intros Hn [|j]; [done|].
      simpl. apply IH. by destruct (str_index s sub).
  - intros H. destruct (str_index s sub) as [i|] eqn:E; [|done].
    apply str_index_Some in E as [Hp _]. by rewrite H in Hp.
Qed.

(** Cutting at the first occurrence. *)
Lemma str_index_split s sub i :
  str_index s sub = Some i -> s = take i s ++ sub ++ drop (i + length sub) s /\ (i + length sub <= length s)%nat.
Proof.
  intros [Hp Hlt]%str_index_Some.
  assert (i <= length s)%nat as Hi.
  { destruct (decide (i <= length s)%nat) as [|Hgt]; [done|]. specialize (Hlt (length s) ltac:(lia)).
    rewrite drop_ge in Hp by lia. rewrite drop_all in Hlt. congruence. }
  apply has_prefix_true in Hp as [r Hr].
  assert (s = take i s ++ sub ++ r) as Es by (by rewrite <- Hr, take_drop).
  assert (length s = length (take i s) + length sub + length r)%nat as El
    by (rewrite Es at 1; rewrite !length_app; lia).
  rewrite length_take in El.
  assert (i + length sub <= length s)%nat as Hle by lia.
  split; [|done]. rewrite <- (take_drop i s) at 1. f_equal. rewrite <- drop_drop, Hr.
  f_equal. by rewrite drop_app_length.
Qed.

Lemma has_prefix_app_inv x r d :
  (length d <= length x)%nat -> has_prefix (x ++ r) d = true -> has_prefix x d = true.
Proof.
  intros Hle [t Ht]%has_prefix_true. apply has_prefix_true. exists (drop (length d) x).
  rewrite <- (take_drop (length d) x) at 1. f_equal.
  apply (f_equal (take (length d))) in Ht. by rewrite take_app_length, take_app_le in Ht.
Qed.

Lemma str_index_app s sub r i : str_index s sub = Some i -> str_index (s ++ r) sub = Some i.
Proof.
  intros Hi. pose proof (str_index_split _ _ _ Hi) as [Es Hle]. apply str_index_Some in Hi as [Hp Hlt].
  apply str_index_Some. split.
  - apply has_prefix_true in Hp as [t Ht]. apply has_prefix_true. exists (t ++ r).
    rewrite drop_app_le by lia. by rewrite Ht, <- app_assoc.
  - intros j Hj. specialize (Hlt j Hj). apply not_true_iff_false. intros Hp'.
    rewrite drop_app_le in Hp' by lia. apply has_prefix_app_inv in Hp'; [congruence|].
    rewrite length_drop. lia.
Qed.

(** Every cut of the needle is a rune boundary (an ASCII needle's are). *)
Definition all_boundaries (needle : gostring) : Prop :=
  forall k, (k <= length needle)%nat -> isCharBoundary needle k = true.

Lemma longestLoop_max k s needle j :
  all_boundaries needle -> (k <= length needle)%nat -> (j <= k)%nat -> has_suffix s (take j needle) = true ->
  (j <= longestLoop k s needle)%nat.
Proof.
  intros Hb. induction k as [|k IH]; intros Hk Hj Hs; [lia|]. cbn [longestLoop].
  rewrite Hb by done. simpl andb. destruct (has_suffix s (take (S k) needle)) eqn:E; [lia|].
  apply IH; [lia| |done]. destruct (decide (j = S k)) as [->|]; [congruence|lia].
Qed.

Lemma longestLoop_le k s needle : (longestLoop k s needle <= k)%nat.
Proof. induction k as [|k IH]; [done|]. cbn [longestLoop]. case_match; lia. Qed.

Lemma longestSuffixPrefixLen_le s needle :
  (longestSuffixPrefixLen s needle <= length s)%nat
  /\ (longestSuffixPrefixLen s needle <= length needle - 1)%nat.
Proof.
  unfold longestSuffixPrefixLen. pose proof (longestLoop_le (Nat.min (length s) (length needle - 1)) s needle). lia.
Qed.

(** What is drained can not be part of an occurrence. *)
Lemma str_index_drain s needle r :
  needle <> [] -> all_boundaries needle -> str_index s needle = None ->
  let n := (length s - longestSuffixPrefixLen s needle)%nat in
  str_index (s ++ r) needle = (fun i => (n + i)%nat) <$> str_index (drop n s ++ r) needle.
Proof.
  intros Hne Hb Hnone. cbv zeta. set (keep := longestSuffixPrefixLen s needle).
  set (n := (length s - keep)%nat). pose proof (longestSuffixPrefixLen_le s needle) as [Hk _]. fold keep in Hk.
  assert (forall j, (j < n)%nat -> has_prefix (drop j (s ++ r)) needle = false) as Hno.
  { intros j Hj. apply not_true_iff_false. intros Hp. rewrite drop_app_le in Hp by lia.
    destruct (decide (length needle <= length s - j)%nat) as [Hge|Hlt].
    { apply has_prefix_app_inv in Hp; [|by rewrite length_drop].
      apply str_index_None with (j := j) in Hnone. congruence. }
    apply has_prefix_true in Hp as [t Ht].
    assert (drop j s = take (length s - j) needle) as Es.
    { apply (f_equal (take (length s - j))) in Ht.
        rewrite (take_app_le needle) in Ht by lia. rewrite <- Ht.
        replace (length s - j)%nat with (length (drop j s)) by (by rewrite length_drop).
        by rewrite take_app_length. }
    assert (length s - j <= keep)%nat; [|lia]. subst keep. unfold longestSuffixPrefixLen.
      apply longestLoop_max; [done|lia|lia|]. apply has_suffix_true. exists (take j s).
      by rewrite <- Es, take_drop. }
  assert (forall i, drop (n + i) (s ++ r) = drop i (drop n s ++ r)) as Hdrop.
  { intros i. rewrite <- drop_drop. f_equal. by rewrite drop_app_le by lia. }
  destruct (str_index (drop n s ++ r) needle) as [i|] eqn:E.
  - simpl. apply str_index_Some in E as [Hp Hlt]. apply str_index_Some. split.
    + by rewrite Hdrop.
    + intros j Hj. destruct (decide (j < n)%nat) as [|Hge]; [by apply Hno|].
      replace j with (n + (j - n))%nat by lia. rewrite Hdrop. apply Hlt. lia.
  - simpl. apply str_index_None. intros j. destruct (decide (j < n)%nat); [by apply Hno|].
    replace j with (n + (j - n))%nat by lia. rewrite Hdrop. by apply str_index_None.
Qed.

(** A suffix shorter than the needle holds none. *)
Lemma str_index_short s needle : (length s < length needle)%nat -> str_index s needle = None.
Proof.
  intros Hlt. apply str_index_None. intros j. apply not_true_iff_false. intros Hp.
  apply has_prefix_true in Hp as [t Ht]. apply (f_equal length) in Ht.
  rewrite length_app, length_drop in Ht. lia.
Qed.

(** ** What a single tag means *)

Section Meaning.
Context {T : Type} (sp : InlineTagSpec T).
Notation o := (Open sp).
Notation c := (Close sp).

(** [tagged cur text visible extracted]: read [text], inside a tag whose
    contents so far are [cur], or outside; delimiters are matched at their
    first occurrence and an open tag is closed by the end. *)
Inductive tagged : option gostring -> gostring -> gostring -> list gostring -> Prop :=
| tagged_text text :
    str_index text o = None -> tagged None text text []
| tagged_open pre text visible extracted :
    str_index (pre ++ o ++ text) o = Some (length pre) ->
    tagged (Some []) text visible extracted ->
    tagged None (pre ++ o ++ text) (pre ++ visible) extracted
| tagged_unclosed content text :
    str_index text c = None -> tagged (Some content) text [] [content ++ text]
| tagged_close content body text visible extracted :
    str_index (body ++ c ++ text) c = Some (length body) ->
    tagged None text visible extracted ->
    tagged (Some content) (body ++ c ++ text) visible ((content ++ body) :: extracted).

Lemma tagged_functional cur text v e v' e' :
  tagged cur text v e -> tagged cur text v' e' -> v = v' /\ e = e'.
Proof.
  intros H. revert v' e'. induction H as [text Hn|pre text v e Hi H IH|content text Hn|content body text v e Hi H IH];
    intros v' e' H'; inversion H'; subst; try done; try congruence.
  - match goal with E : _ ++ o ++ _ = pre ++ o ++ text, Hi' : str_index _ o = Some (length ?pre') |- _ =>
      rewrite E in Hi'; assert (length pre' = length pre) as El by congruence;
      apply app_inj_1 in E as [-> E]; [|done]; apply app_inj_1 in E as [_ ->]; [|done] end.
    edestruct IH as [-> ->]; [eassumption|]. done.
  - match goal with E : _ ++ c ++ _ = body ++ c ++ text, Hi' : str_index _ c = Some (length ?pre') |- _ =>
      rewrite E in Hi'; assert (length pre' = length body) as El by congruence;
      apply app_inj_1 in E as [-> E]; [|done]; apply app_inj_1 in E as [_ ->]; [|done] end.
    edestruct IH as [-> ->]; [eassumption|]. done.
Qed.

Hypothesis Ho : o <> [].
Hypothesis Hc : c <> [].
Hypothesis Hob : all_boundaries o.
Hypothesis Hcb : all_boundaries c.

(** The state of a parser of this one tag, inside it with its delimiter. *)
Definition cur_of (p : InlineHiddenTagParser T) : option gostring := acontent <$> active p.
Definition well (p : InlineHiddenTagParser T) : Prop :=
  specs p = [sp] /\ forall a, active p = Some a -> aclose a = c /\ atag a = Tag sp.
(** Nothing pending completes a delimiter. *)
Definition quiet (p : InlineHiddenTagParser T) : Prop :=
  str_index (pending p) (match active p with Some _ => c | None => o end) = None.

Lemma findNextOpen_one p :
  specs p = [sp] -> findNextOpen p = (fun i => (i, sp)) <$> str_index (pending p) o.
Proof. intros E. unfold findNextOpen. rewrite E. simpl. by destruct (str_index (pending p) o). Qed.

Lemma maxOpen_one p : specs p = [sp] -> maxOpenPrefixSuffixLen p = longestSuffixPrefixLen (pending p) o.
Proof.
  intros E. unfold maxOpenPrefixSuffixLen. rewrite E. simpl.
  by destruct (longestSuffixPrefixLen (pending p) o).
Qed.

Lemma tagged_drain_out s r v e :
  str_index s o = None ->
  let n := (length s - longestSuffixPrefixLen s o)%nat in
  tagged None (drop n s ++ r) v e -> tagged None (s ++ r) (take n s ++ v) e.
Proof.
  intros Hn n H. pose proof (str_index_drain s o r Ho Hob Hn) as Hi. cbv zeta in Hi. fold n in Hi.
  rewrite <- (take_drop n s) at 1. rewrite <- app_assoc. inversion H as [text Hx|pre text v0 e0 Hx Ht| |]; subst.
  - constructor. rewrite app_assoc, take_drop, Hi, Hx. done.
  - match goal with E : _ ++ o ++ _ = _ |- _ => rename E into Etext end.
    rewrite (app_assoc (take n s) pre (o ++ text)), (app_assoc (take n s) pre v0).
    constructor; [|done]. rewrite <- app_assoc, Etext, app_assoc, take_drop, Hi, <- Etext, Hx.
    simpl. f_equal. rewrite length_app, length_take. lia.
Qed.

Lemma tagged_drain_in content s r v e :
  str_index s c = None ->
  let n := (length s - longestSuffixPrefixLen s c)%nat in
  tagged (Some (content ++ take n s)) (drop n s ++ r) v e -> tagged (Some content) (s ++ r) v e.
Proof.
  intros Hn n H. pose proof (str_index_drain s c r Hc Hcb Hn) as Hi. cbv zeta in Hi. fold n in Hi.
  rewrite <- (take_drop n s) at 1. rewrite <- app_assoc.
  inversion H as [| |content' text Hx|content' body text v0 e0 Hx Ht]; subst.
  - rewrite <- app_assoc. constructor. rewrite app_assoc, take_drop, Hi, Hx. done.
  - match goal with E : _ ++ c ++ _ = _ |- _ => rename E into Etext end.
    rewrite (app_assoc (take n s) body (c ++ text)), <- (app_assoc content).
    constructor; [|done].
    rewrite <- app_assoc, Etext, app_assoc, take_drop, Hi, <- Etext, Hx. simpl.
    f_equal. rewrite length_app, length_take. lia.
Qed.

Lemma pushLoop_spec fuel p v0 e0 :
  well p -> (length (pending p) < fuel)%nat ->
  exists p' v1 e1, pushLoop fuel p (v0, e0) = Some (p', (v0 ++ v1, e0 ++ map (fun b => (Tag sp, b)) e1))
    /\ well p' /\ quiet p'
    /\ forall r v e, tagged (cur_of p') (pending p' ++ r) v e ->
         tagged (cur_of p) (pending p ++ r) (v1 ++ v) (e1 ++ e).
Proof.
  revert p v0 e0. induction fuel as [|fuel IH]; intros p v0 e0 [Hsp Hact] Hfuel; [lia|]. cbn [pushLoop].
  unfold cur_of at 2. destruct (active p) as [a|] eqn:Ea.
  - destruct (Hact a eq_refl) as [-> ->]. destruct (str_index (pending p) c) as [i|] eqn:Ei.
    + pose proof (str_index_split _ _ _ Ei) as [Es Hle].
      assert (0 < length c)%nat by (destruct c; simpl; [done|lia]).
      destruct (IH (mkParser (specs p) (drop (i + length c) (pending p)) None) v0
                  (e0 ++ [(Tag sp, acontent a ++ take i (pending p))]))
        as (p' & v1 & e1 & -> & Hw & Hq & Hrest); [by split|simpl; rewrite length_drop; lia|].
      exists p', v1, ((acontent a ++ take i (pending p)) :: e1). split_and!; [|done|done|].
      { by rewrite <- app_assoc. }
      intros r v e Ht. specialize (Hrest r v e Ht). cbn [cur_of active pending fmap option_fmap option_map] in *.
      rewrite Es at 1. rewrite <- !app_assoc.
      apply (tagged_close (acontent a) (take i (pending p))); [|done].
      rewrite !app_assoc, <- (app_assoc (take i _)), <- Es, (str_index_app _ _ r i Ei), length_take. f_equal. lia.
    + eexists _, [], []. rewrite !app_nil_r. split; [done|].
      split; [split; [done|]; cbn [active]; intros a' [= <-]; done|]. split.
      * unfold quiet. cbn [active pending]. apply str_index_short. rewrite length_drop.
        destruct (longestSuffixPrefixLen_le (pending p) c). destruct c; simpl in *; [done|lia].
      * intros r v e Ht. unfold cur_of in Ht. cbn [active pending fmap option_fmap option_map acontent] in *.
        by apply tagged_drain_in.
  - rewrite findNextOpen_one by done. destruct (str_index (pending p) o) as [i|] eqn:Ei; cbn [fmap option_fmap option_map].
    + pose proof (str_index_split _ _ _ Ei) as [Es Hle].
      assert (0 < length o)%nat by (destruct o; simpl; [done|lia]).
      destruct (IH (mkParser (specs p) (drop (i + length o) (pending p)) (Some (mkActive (Tag sp) c [])))
                  (v0 ++ take i (pending p)) e0)
        as (p' & v1 & e1 & -> & Hw & Hq & Hrest).
      { split; [done|]. cbn [active]. intros a' [= <-]. done. }
      { simpl. rewrite length_drop. lia. }
      exists p', (take i (pending p) ++ v1), e1. split_and!; [by rewrite <- app_assoc|done|done|].
      intros r v e Ht. specialize (Hrest r v e Ht). unfold cur_of in Hrest at 1.
      cbn [active pending acontent fmap option_fmap option_map] in *.
      rewrite Es at 1. rewrite <- !app_assoc.
      apply (tagged_open (take i (pending p))); [|done].
      rewrite !app_assoc, <- (app_assoc (take i _)), <- Es, (str_index_app _ _ r i Ei), length_take. f_equal. lia.
    + rewrite maxOpen_one by done.
      eexists _, (take (length (pending p) - longestSuffixPrefixLen (pending p) o) (pending p)), [].
      cbn [map]. rewrite !app_nil_r. split; [done|]. split; [by split|]. split.
      * unfold quiet. cbn [active pending]. apply str_index_short. rewrite length_drop.
        destruct (longestSuffixPrefixLen_le (pending p) o). destruct o; simpl in *; [done|lia].
      * intros r v e Ht. unfold cur_of in Ht. cbn [active pending fmap option_fmap option_map] in *.
        by apply tagged_drain_out.
Qed.

Lemma pushAll_spec p chunks :
  well p -> quiet p ->
  exists p' v1 e1, pushAll p chunks = Some (p', (v1, map (fun b => (Tag sp, b)) e1))
    /\ well p' /\ quiet p'
    /\ forall r v e, tagged (cur_of p') (pending p' ++ r) v e ->
         tagged (cur_of p) (pending p ++ concat chunks ++ r) (v1 ++ v) (e1 ++ e).
Proof.
  revert p. induction chunks as [|chunk chunks IH]; intros p Hw Hq; simpl.
  - by exists p, [], [].
  - unfold PushStr. set (p1 := mkParser (specs p) (pending p ++ chunk) (active p)).
    destruct (pushLoop_spec (S (length (pending p1))) p1 [] []) as (p2 & v1 & e1 & -> & Hw2 & Hq2 & H2);
      [exact Hw|lia|]. simpl. destruct (IH p2 Hw2 Hq2) as (p3 & v2 & e2 & -> & Hw3 & Hq3 & H3). simpl.
    exists p3, (v1 ++ v2), (e1 ++ e2). split_and!; [by rewrite map_app|done|done|].
    intros r v e Ht. rewrite <- !app_assoc. rewrite (app_assoc (pending p)).
    apply (H2 (concat chunks ++ r)). by apply H3.
Qed.

Lemma stream_tagged chunks :
  exists v e, stream (mkParser [sp] [] None) chunks = Some (v, map (fun b => (Tag sp, b)) e)
    /\ tagged None (concat chunks) v e.
Proof.
  destruct (pushAll_spec (mkParser [sp] [] None) chunks) as (p & v1 & e1 & E & Hw & Hq & Hspec).
  { by split. }
  { unfold quiet. cbn [active pending]. apply str_index_short. destruct o; simpl; [done|lia]. }
  unfold stream. rewrite E. cbn [mbind option_bind]. unfold Finish. specialize (Hspec []).
  unfold cur_of in Hspec at 2. cbn [active pending fmap option_fmap option_map app] in Hspec.
  unfold cur_of, quiet in *. destruct (active p) as [a|] eqn:Ea.
  - destruct Hw as [_ Hact]. destruct (Hact a Ea) as [_ ->]. exists (v1 ++ []), (e1 ++ [acontent a ++ pending p]).
    split; [by rewrite map_app|]. rewrite <- (app_nil_r (concat chunks)). apply Hspec.
    cbn [fmap option_fmap option_map]. rewrite app_nil_r. by constructor.
  - exists (v1 ++ pending p), (e1 ++ []). split; [by rewrite !map_app|].
    rewrite <- (app_nil_r (concat chunks)). apply Hspec.
    cbn [fmap option_fmap option_map]. rewrite app_nil_r. by constructor.
Qed.

End Meaning.

(** ** Citations *)

Lemma ascii_boundaries needle :
  Forall (fun x => (bval x < 128)%Z) needle -> all_boundaries needle.
Proof.
  intros Hall k Hk. unfold isCharBoundary. case_decide as E; [done|].
  destruct (lookup_lt_is_Some_2 needle k) as [x Hx]; [lia|]. rewrite Hx.
  apply rune_start_ascii. rewrite Forall_lookup in Hall. by apply (Hall k).
Qed.

(** The citation parser over a stream of chunks. *)
Fixpoint citationPushAll (p : InlineHiddenTagParser citationTag) (chunks : list gostring)
    : option (InlineHiddenTagParser citationTag * (gostring * list gostring)) :=
  match chunks with
  | [] => Some (p, ([], []))
  | chunk :: chunks =>
      '(p, (v, e)) ← CitationPushStr p chunk;
      '(p, (v', e')) ← citationPushAll p chunks;
      Some (p, (v ++ v', e ++ e'))
  end.

Definition citationStream (chunks : list gostring) : option (gostring * list gostring) :=
  '(p, (v, e)) ← citationPushAll NewCitationStreamParser chunks;
  let '(_, (v', e')) := CitationFinish p in
  Some (v ++ v', e ++ e').

Lemma citationPushAll_pushAll p chunks :
  citationPushAll p chunks = '(p, c) ← pushAll p chunks; Some (p, mapExtractedToContent c).
Proof.
  revert p. induction chunks as [|chunk chunks IH]; intros p; [done|]. simpl.
  unfold CitationPushStr. destruct (PushStr p chunk) as [[p1 [v e]]|]; [|done]. simpl.
  rewrite IH. destruct (pushAll p1 chunks) as [[p2 [v' e']]|]; [|done]. simpl.
  unfold mapExtractedToContent. simpl. by rewrite map_app.
Qed.

Lemma citationStream_tagged chunks :
  exists v e, citationStream chunks = Some (v, e) /\ tagged citationSpec None (concat chunks) v e.
Proof.
  destruct (stream_tagged citationSpec) with (chunks := chunks) as (v & e & Es & Ht); [done|done| | |].
  { apply ascii_boundaries. apply (bool_decide_unpack _). vm_compute. exact I. }
  { apply ascii_boundaries. apply (bool_decide_unpack _). vm_compute. exact I. }
  exists v, e. split; [|done]. unfold citationStream. rewrite citationPushAll_pushAll.
  unfold stream in Es. change (mkParser [citationSpec] [] None) with NewCitationStreamParser in Es.
  destruct (pushAll NewCitationStreamParser chunks) as [[p [v1 e1]]|]; [|done].
  cbn [mbind option_bind] in Es |- *. unfold mapExtractedToContent at 1. cbn [fst snd].
  unfold CitationFinish. destruct (Finish p) as [p' [v2 e2]]. injection Es as <- Ee.
  unfold mapExtractedToContent. cbn [fst snd]. f_equal. f_equal. rewrite <- map_app, Ee, map_map.
  apply map_id.
Qed.

(** C29.  However a text is cut into chunks, streaming it through the citation
    parser yields the visible text and the citations of the whole text, those
    of [StripCitations]: the text outside the tags and the bodies between
    each first [citationOpen] and the next [citationClose], an unclosed body
    running to the end. *)
Theorem citations_chunking chunks :
  exists visible citations,
    citationStream chunks = Some (visible, citations)
    /\ StripCitations (concat chunks) = Some (visible, citations)
    /\ tagged citationSpec None (concat chunks) visible citations
    /\ forall v c, tagged citationSpec None (concat chunks) v c -> v = visible /\ c = citations.
Proof.
  destruct (citationStream_tagged chunks) as (v & e & E & Ht).
  destruct (citationStream_tagged [concat chunks]) as (v1 & e1 & E1 & Ht1). simpl in Ht1.
  rewrite app_nil_r in Ht1. destruct (tagged_functional _ _ _ _ _ _ _ Ht Ht1) as [<- <-].
  exists v, e. split_and!; [done| |done|].
  - unfold StripCitations. unfold citationStream in E1. simpl in E1.
    destruct (CitationPushStr NewCitationStreamParser (concat chunks)) as [[p [v2 e2]]|]; [|done].
    cbn [mbind option_bind] in E1 |- *. by rewrite !app_nil_r in E1.
  - intros v' c' Ht'. by eapply tagged_functional.
Qed.

End Inline.
