(* ===== verification/StreamTagged.v ===== *)
(** * internal/utils/streamparser: tags alone on a line, plans and assistant text

    [tagged_line_parser.go], [proposed_plan.go] and [assistant_text.go]: the
    streaming parser that turns lines consisting of a delimiter into the start
    and the end of a block, its use for proposed plans, and the combination
    with the citation parser.  The specification [wholeText] reads complete
    lines; the parser sees the text rune by rune and shows a line as soon as
    it can not be a delimiter any more. *)

From S2P Require Import Prelude GoStrings GoUtf8 StreamInline.

Module Tagged.

Section Lines.
Context {T : Type} {T_eq_dec : EqDecision T}.

Record tagSpec := mkTagSpec { open : gostring; close : gostring; tag : T }.

Inductive taggedLineSegment :=
| segNormal (text : gostring)
| segTagStart (t : T)
| segTagDelta (t : T) (text : gostring)
| segTagEnd (t : T).

Record taggedLineParser := mkParser {
  specs : list tagSpec;
  activeTag : option T;
  detectTag : bool;
  lineBuffer : gostring
}.

Definition newTaggedLineParser (specs : list tagSpec) : taggedLineParser := mkParser specs None true [].

Definition trimStart (s : gostring) : gostring := trim_left_func is_space s.
Definition trimEnd (s : gostring) : gostring := trim_right_func is_space s.

Definition pushSegment (segments : list taggedLineSegment) (seg : taggedLineSegment)
    : list taggedLineSegment :=
  match seg with
  | segNormal text =>
      if decide (text = []) then segments
      else match last segments with
           | Some (segNormal text') => removelast segments ++ [segNormal (text' ++ text)]
           | _ => segments ++ [seg]
           end
  | segTagDelta t text =>
      if decide (text = []) then segments
      else match last segments with
           | Some (segTagDelta t' text') =>
               if decide (t' = t) then removelast segments ++ [segTagDelta t' (text' ++ text)]
               else segments ++ [seg]
           | _ => segments ++ [seg]
           end
  | _ => segments ++ [seg]
  end.

Definition textSegment (active : option T) (text : gostring) : taggedLineSegment :=
  match active with Some t => segTagDelta t text | None => segNormal text end.

Definition pushText (active : option T) (text : gostring) (segments : list taggedLineSegment)
    : list taggedLineSegment :=
  pushSegment segments (textSegment active text).

Definition isTagPrefix (specs : list tagSpec) (slug : gostring) : bool :=
  let slug := trimEnd slug in
  existsb (fun sp => has_prefix (open sp) slug || has_prefix (close sp) slug) specs.

Fixpoint matchOpen (specs : list tagSpec) (slug : gostring) : option T :=
  match specs with
  | [] => None
  | sp :: specs => if decide (open sp = slug) then Some (tag sp) else matchOpen specs slug
  end.

Fixpoint matchClose (specs : list tagSpec) (slug : gostring) : option T :=
  match specs with
  | [] => None
  | sp :: specs => if decide (close sp = slug) then Some (tag sp) else matchClose specs slug
  end.

(** The decision [finishLine] and [finish] share: the segment of a buffered
    line and the tag that is active afterwards. *)
Definition lineSegment (specs : list tagSpec) (active : option T) (line : gostring)
    : taggedLineSegment * option T :=
  let withoutNewline := trim_suffix line [nl] in
  let slug := trimEnd (trimStart withoutNewline) in
  match matchOpen specs slug, active with
  | Some t, None => (segTagStart t, Some t)
  | _, _ =>
      match matchClose specs slug, active with
      | Some t, Some a => if decide (a = t) then (segTagEnd t, None) else (textSegment active line, active)
      | _, _ => (textSegment active line, active)
      end
  end.

Definition finishLine (p : taggedLineParser) (segments : list taggedLineSegment)
    : taggedLineParser * list taggedLineSegment :=
  let '(seg, active) := lineSegment (specs p) (activeTag p) (lineBuffer p) in
  (mkParser (specs p) active true [], pushSegment segments seg).

(** One iteration of [parse]: the parser, the run and the segments. *)
Definition parseRune (st : taggedLineParser * gostring * list taggedLineSegment) (ch : rune)
    : taggedLineParser * gostring * list taggedLineSegment :=
  let '(p, run, segments) := st in
  if detectTag p then
    let '(run, segments) :=
      if decide (run = []) then (run, segments) else ([], pushText (activeTag p) run segments) in
    let p := mkParser (specs p) (activeTag p) (detectTag p) (lineBuffer p ++ encode_rune ch) in
    if (ch =? 10)%Z then
      let '(p, segments) := finishLine p segments in (p, run, segments)
    else
      let slug := trimStart (lineBuffer p) in
      if decide (slug = []) then (p, run, segments)
      else if isTagPrefix (specs p) slug then (p, run, segments)
      else (mkParser (specs p) (activeTag p) false [], run,
            pushText (activeTag p) (lineBuffer p) segments)
  else
    let run := run ++ encode_rune ch in
    if (ch =? 10)%Z then
      (mkParser (specs p) (activeTag p) true (lineBuffer p), [], pushText (activeTag p) run segments)
    else (p, run, segments).

Definition parse (p : taggedLineParser) (delta : gostring)
    : taggedLineParser * list taggedLineSegment :=
  let '(p, run, segments) := fold_left parseRune (runes delta) (p, [], []) in
  (p, if decide (run = []) then segments else pushText (activeTag p) run segments).

Definition finish (p : taggedLineParser) : taggedLineParser * list taggedLineSegment :=
  let '(p, segments) :=
    if decide (lineBuffer p = []) then (p, []) else finishLine p [] in
  match activeTag p with
  | Some t => (mkParser (specs p) None true (lineBuffer p), pushSegment segments (segTagEnd t))
  | None => (mkParser (specs p) None true (lineBuffer p), segments)
  end.

(** Streaming chunk after chunk; the outputs one after the other. *)
Fixpoint parseAll (p : taggedLineParser) (chunks : list gostring)
    : taggedLineParser * list taggedLineSegment :=
  match chunks with
  | [] => (p, [])
  | chunk :: chunks =>
      let '(p, segs) := parse p chunk in
      let '(p, segs') := parseAll p chunks in (p, segs ++ segs')
  end.

Definition streamAll (p : taggedLineParser) (chunks : list gostring) : list taggedLineSegment :=
  let '(p, segs) := parseAll p chunks in segs ++ (finish p).2.

(** ** The specification: whole lines *)

(** The lines of a text with their newlines; the last one may lack it. *)
Fixpoint lines (rs : list rune) : list (list rune) :=
  match rs with
  | [] => []
  | r :: rs =>
      if (r =? 10)%Z then [r] :: lines rs
      else match lines rs with l :: ls => (r :: l) :: ls | [] => [[r]] end
  end.

Fixpoint lineSegments (specs : list tagSpec) (active : option T) (ls : list (list rune))
    : list taggedLineSegment * option T :=
  match ls with
  | [] => ([], active)
  | l :: ls =>
      let '(seg, active) := lineSegment specs active (encode_runes l) in
      let '(segs, active) := lineSegments specs active ls in (seg :: segs, active)
  end.

(** Each line is a delimiter or text; a block left open ends with the text. *)
Definition wholeText (specs : list tagSpec) (text : gostring) : list taggedLineSegment :=
  let '(segs, active) := lineSegments specs None (lines (runes text)) in
  segs ++ match active with Some t => [segTagEnd t] | None => [] end.

(** Adjacent pieces of the same text joined, empty ones dropped: what
    [pushSegment] does within one call. *)
Definition coalesce (segs : list taggedLineSegment) : list taggedLineSegment :=
  fold_left pushSegment segs [].

(** ** Segments up to coalescing *)

Inductive atom := aNormal (c : ascii) | aStart (t : T) | aDelta (t : T) (c : ascii) | aEnd (t : T).

Definition seg_atoms (seg : taggedLineSegment) : list atom :=
  match seg with
  | segNormal text => map aNormal text
  | segTagStart t => [aStart t]
  | segTagDelta t text => map (aDelta t) text
  | segTagEnd t => [aEnd t]
  end.
Definition atoms (segs : list taggedLineSegment) : list atom := concat (map seg_atoms segs).

Definition atom_seg (a : atom) : taggedLineSegment :=
  match a with
  | aNormal c => segNormal [c]
  | aStart t => segTagStart t
  | aDelta t c => segTagDelta t [c]
  | aEnd t => segTagEnd t
  end.

Lemma atoms_app a b : atoms (a ++ b) = atoms a ++ atoms b.
Proof. unfold atoms. by rewrite map_app, concat_app. Qed.

Lemma atoms_one seg : atoms [seg] = seg_atoms seg.
Proof. apply app_nil_r. Qed.

Lemma atoms_pushSegment segs seg : atoms (pushSegment segs seg) = atoms segs ++ seg_atoms seg.
Proof.
  destruct seg as [text|t|t text|t]; simpl; rewrite ?atoms_app, ?atoms_one; try done.
  - case_decide as E; [subst; by rewrite app_nil_r|].
    destruct (last segs) as [[text'|t|t text'|t]|] eqn:El; rewrite ?atoms_app, ?atoms_one; try done.
    rewrite (last_snoc_inv _ _ El) at 2. rewrite !atoms_app, !atoms_one. simpl.
    by rewrite map_app, app_assoc.
  - case_decide as E; [subst; by rewrite app_nil_r|].
    destruct (last segs) as [[text'|t'|t' text'|t']|] eqn:El; rewrite ?atoms_app, ?atoms_one; try done.
    case_decide as Et; rewrite ?atoms_app, ?atoms_one; [|done]. subst.
    rewrite (last_snoc_inv _ _ El) at 2. rewrite !atoms_app, !atoms_one. simpl.
    by rewrite map_app, app_assoc.
Qed.

(** Pushing a text is pushing its bytes. *)
Lemma pushSegment_bytes segs seg :
  pushSegment segs seg = fold_left pushSegment (map atom_seg (seg_atoms seg)) segs.
Proof.
  destruct seg as [text|t|t text|t]; [|done| |done].
  - induction text as [|c text IH] using rev_ind; [done|].
    cbn [seg_atoms] in *. rewrite !map_app, fold_left_app, <- IH. clear IH. simpl.
    destruct text as [|c0 text]; [done|]. rewrite ?decide_False by done.
    destruct (last segs) as [[text'|t|t text'|t]|] eqn:El;
      rewrite ?last_snoc, ?removelast_last; try done. by rewrite <- !app_assoc.
  - induction text as [|c text IH] using rev_ind; [done|].
    cbn [seg_atoms] in *. rewrite !map_app, fold_left_app, <- IH. clear IH. simpl.
    destruct text as [|c0 text]; [done|]. rewrite ?decide_False by done.
    destruct (last segs) as [[text'|t'|t' text'|t']|] eqn:El;
      rewrite ?last_snoc, ?removelast_last; rewrite ?decide_True by done; try done.
    case_decide as Et; rewrite ?last_snoc, ?removelast_last; rewrite ?decide_True by done; [|done].
    subst. by rewrite <- !app_assoc.
Qed.

Lemma coalesce_atoms segs : coalesce segs = fold_left pushSegment (map atom_seg (atoms segs)) [].
Proof.
  unfold coalesce, atoms. generalize (@nil taggedLineSegment). induction segs as [|seg segs IH]; intros acc; [done|].
  simpl. by rewrite map_app, fold_left_app, <- pushSegment_bytes, IH.
Qed.

Lemma coalesce_same segs segs' : atoms segs = atoms segs' -> coalesce segs = coalesce segs'.
Proof. intros E. by rewrite !coalesce_atoms, E. Qed.

(** ** Lines that can not be delimiters *)

Definition line_slug (l : list rune) : gostring := trimEnd (trimStart (encode_runes l)).

Lemma line_slug_trim l : Forall scalar l -> line_slug l = encode_runes (trim_runes is_space l).
Proof.
  intros Hl. unfold line_slug, trimStart, trimEnd, trim_runes. rewrite trim_left_encode by done.
  rewrite trim_right_encode; [done|]. destruct (drop_while_split is_space l) as (ws & E & _).
  rewrite E in Hl. by apply Forall_app in Hl as [_ Hl].
Qed.

(** The newline is white space, so stripping it first changes nothing. *)
Lemma slug_without_newline l :
  Forall scalar l -> trimEnd (trimStart (trim_suffix (encode_runes l) [nl])) = line_slug l.
Proof.
  intros Hl. unfold trim_suffix. destruct (cut_suffix (encode_runes l) [nl]) as [s|] eqn:E; [|done].
  apply cut_suffix_Some in E. simpl.
  destruct l as [|r l _] using rev_ind.
  { by apply (f_equal length) in E; rewrite length_app in E; simpl in E; lia. }
  apply Forall_app in Hl as [Hl Hr]. apply Forall_cons in Hr as [Hr _].
  rewrite encode_runes_app in E. unfold encode_runes in E at 2. simpl in E. rewrite app_nil_r in E.
  assert (r = 10%Z) as ->.
  { destruct (decide (r < 128)%Z) as [Hlt|Hge].
    - destruct Hr as [Hr _]. rewrite encode_ascii in E by lia. apply app_inj_tail in E as [_ E].
      apply (f_equal bval) in E. rewrite bval_byte_of in E by lia. exact E.
    - exfalso. assert (exists c, last (encode_rune r) = Some c /\ (128 <= bval c)%Z) as (c & Hc & Hb).
      { pose proof (encode_rune_high r Hr ltac:(lia)) as Hhigh.
        pose proof (encode_rune_nonempty r). destruct (encode_rune r) as [|c0 t0 _] using rev_ind; [done|].
        exists c0. rewrite last_snoc. split; [done|].
        apply Forall_app in Hhigh as [_ Hhigh]. by apply Forall_cons in Hhigh as [? _]. }
      apply (f_equal last) in E. rewrite last_snoc, last_app, Hc in E. injection E as ->. by apply Hb. }
  change (encode_rune 10) with [nl] in E. apply app_inj_tail in E as [<- _].
  fold (line_slug l). rewrite !line_slug_trim; [|apply Forall_app; split; [done|by constructor]|done].
  f_equal. unfold trim_runes. destruct (drop_while_split is_space l) as (ws & E & Hws & Hd).
  rewrite E at 2. rewrite <- app_assoc, drop_while_app by done.
  destruct Hd as [-> |(x & l' & -> & Hx)]; [done|].
  cbn [app drop_while]. rewrite Hx. change (x :: l' ++ [10%Z]) with ((x :: l') ++ [10%Z]).
  rewrite (rev_app_distr (x :: l') [10%Z]). done.
Qed.

Variable sps : list tagSpec.

Definition is_delimiter (slug : gostring) : Prop :=
  exists sp, sp ∈ sps /\ (open sp = slug \/ close sp = slug).

Lemma matchOpen_Some slug t : matchOpen sps slug = Some t -> is_delimiter slug.
Proof.
  unfold is_delimiter. induction sps as [|sp l IH]; [done|]. simpl. case_decide.
  - intros _. exists sp. split; [by left|by left].
  - intros Hm. destruct (IH Hm) as (sp' & Hin & Hd). exists sp'. split; [by right|done].
Qed.

Lemma matchClose_Some slug t : matchClose sps slug = Some t -> is_delimiter slug.
Proof.
  unfold is_delimiter. induction sps as [|sp l IH]; [done|]. simpl. case_decide.
  - intros _. exists sp. split; [by left|by right].
  - intros Hm. destruct (IH Hm) as (sp' & Hin & Hd). exists sp'. split; [by right|done].
Qed.

(** Some beginning of the line excludes every delimiter. *)
Definition hopeless (l : list rune) : Prop :=
  exists q, q `prefix_of` l /\ isTagPrefix sps (trimStart (encode_runes q)) = false.

Lemma hopeless_app l t : hopeless l -> hopeless (l ++ t).
Proof. intros (q & [t' ->] & Hq). exists q. split; [|done]. exists (t' ++ t). by rewrite app_assoc. Qed.

Lemma hopeless_text active l :
  Forall scalar l -> hopeless l ->
  lineSegment sps active (encode_runes l) = (textSegment active (encode_runes l), active).
Proof.
  intros Hl (q & Hq & Hno).
  assert (Forall scalar q) as Hqs by (destruct Hq as [t ->]; by apply Forall_app in Hl as [? _]).
  assert (~ is_delimiter (line_slug l)) as Hnot.
  { intros (sp & Hin & Hd). apply not_true_iff_false in Hno. apply Hno. unfold isTagPrefix.
    fold (line_slug q). apply existsb_exists. exists sp. split; [by apply list_elem_of_In|].
    assert (line_slug q `prefix_of` line_slug l) as [t Ht].
    { rewrite !line_slug_trim by done. by apply encode_prefix, trim_runes_prefix. }
    apply orb_true_iff. destruct Hd as [Hd|Hd]; [left|right]; apply has_prefix_true; exists t; congruence. }
  unfold lineSegment. rewrite slug_without_newline by done.
  destruct (matchOpen sps (line_slug l)) eqn:Eo; [by apply matchOpen_Some in Eo|].
  destruct (matchClose sps (line_slug l)) eqn:Ec; [by apply matchClose_Some in Ec|done].
Qed.

(** ** The parser follows the lines *)

Lemma lineSegments_app active ls ls' :
  lineSegments sps active (ls ++ ls')
  = let '(a, act) := lineSegments sps active ls in
    let '(b, act') := lineSegments sps act ls' in (a ++ b, act').
Proof.
  revert active. induction ls as [|l ls IH]; intros active; simpl; [by destruct (lineSegments sps active ls')|].
  destruct (lineSegment sps active (encode_runes l)) as [seg act]. rewrite IH.
  destruct (lineSegments sps act ls) as [a act1]. by destruct (lineSegments sps act1 ls').
Qed.

Lemma atoms_text active s s' :
  seg_atoms (textSegment active s) ++ seg_atoms (textSegment active s')
  = seg_atoms (textSegment active (s ++ s')).
Proof. destruct active; simpl; by rewrite map_app. Qed.

Lemma atoms_text_nil active : seg_atoms (textSegment active []) = [].
Proof. by destruct active. Qed.

(** [follows ls cl st]: with the complete lines [ls] and the beginning [cl] of
    the next line read, the state is [st]; [segs] are all segments so far. *)
Definition follows (ls : list (list rune)) (cl : list rune) (p : taggedLineParser) (run : gostring)
    (segs : list taggedLineSegment) : Prop :=
  let '(done_, active) := lineSegments sps None ls in
  specs p = sps /\ activeTag p = active /\ Forall scalar cl
  /\ ((detectTag p = true /\ run = [] /\ lineBuffer p = encode_runes cl /\ atoms segs = atoms done_)
      \/ (detectTag p = false /\ lineBuffer p = [] /\ hopeless cl
          /\ atoms segs ++ seg_atoms (textSegment active run)
             = atoms done_ ++ seg_atoms (textSegment active (encode_runes cl)))).

Lemma follows_newline ls cl active done_ :
  lineSegments sps None ls = (done_, active) ->
  lineSegments sps None (ls ++ [cl])
  = let '(seg, act) := lineSegment sps active (encode_runes cl) in (done_ ++ [seg], act).
Proof.
  intros E. rewrite lineSegments_app, E. simpl. by destruct (lineSegment sps active (encode_runes cl)).
Qed.

Lemma parseRune_follows ls cl p run segs r :
  scalar r -> follows ls cl p run segs ->
  let '(p', run', segs') := parseRune (p, run, segs) r in
  if (r =? 10)%Z then follows (ls ++ [cl ++ [r]]) [] p' run' segs'
  else follows ls (cl ++ [r]) p' run' segs'.
Proof.
  intros Hr Hf. unfold follows in *. destruct (lineSegments sps None ls) as [done_ active] eqn:El.
  destruct Hf as (Hsp & Hact & Hcl & Hst).
  assert (Forall scalar (cl ++ [r])) as Hcl' by (apply Forall_app; split; [done|by constructor]).
  assert (encode_runes (cl ++ [r]) = encode_runes cl ++ encode_rune r) as Eenc
    by (rewrite encode_runes_app; unfold encode_runes at 2; simpl; by rewrite app_nil_r).
  rewrite (follows_newline ls (cl ++ [r]) active done_ El).
  unfold parseRune. destruct Hst as [(Hd & -> & Hbuf & Hat)|(Hd & Hbuf & Hh & Hat)]; rewrite Hd.
  - rewrite decide_True by done. cbn [lineBuffer specs activeTag detectTag]. rewrite Hbuf, <- Eenc.
    destruct (r =? 10)%Z eqn:E10.
    + unfold finishLine. cbn [lineBuffer specs activeTag]. rewrite Hsp, Hact.
      destruct (lineSegment sps active (encode_runes (cl ++ [r]))) as [seg act].
      split_and!; [done|done|constructor|]. left. split_and!; [done|done|done|].
      by rewrite atoms_pushSegment, atoms_app, atoms_one, Hat.
    + case_decide as Es.
      { split_and!; [done|done|done|]. left. by split_and!. }
      destruct (isTagPrefix (specs p) (trimStart (encode_runes (cl ++ [r])))) eqn:Ep.
      { split_and!; [done|done|done|]. left. by split_and!. }
      split_and!; [done|done|done|]. right. split_and!; [done|done| |].
      * exists (cl ++ [r]). split; [done|by rewrite <- Hsp].
      * unfold pushText. rewrite atoms_pushSegment, atoms_text_nil, app_nil_r, Hat. by rewrite Hact.
  - destruct (r =? 10)%Z eqn:E10.
    + rewrite (hopeless_text active (cl ++ [r])); [|done|by apply hopeless_app].
      split_and!; [done|done|constructor|]. left. cbn [detectTag lineBuffer]. rewrite Hbuf.
      split_and!; [done|done|done|]. unfold pushText. rewrite Hact, atoms_pushSegment, atoms_app, atoms_one.
      by rewrite <- atoms_text, app_assoc, Hat, <- app_assoc, atoms_text, <- Eenc.
    + split_and!; [done|done|done|]. right. split_and!; [done|done|by apply hopeless_app|].
      by rewrite <- atoms_text, app_assoc, Hat, <- app_assoc, atoms_text, <- Eenc.
Qed.

(** Complete lines and the beginning of the next one, while reading. *)
Fixpoint advance (ls : list (list rune)) (cl rs : list rune) : list (list rune) * list rune :=
  match rs with
  | [] => (ls, cl)
  | r :: rs => if (r =? 10)%Z then advance (ls ++ [cl ++ [r]]) [] rs else advance ls (cl ++ [r]) rs
  end.

Lemma fold_follows rs ls cl p run segs :
  Forall scalar rs -> follows ls cl p run segs ->
  let '(p', run', segs') := fold_left parseRune rs (p, run, segs) in
  let '(ls', cl') := advance ls cl rs in follows ls' cl' p' run' segs'.
Proof.
  intros Hall. revert ls cl p run segs. induction Hall as [|r rs Hr _ IH]; intros ls cl p run segs Hf; [done|].
  cbn [fold_left advance]. pose proof (parseRune_follows ls cl p run segs r Hr Hf) as H.
  destruct (parseRune (p, run, segs) r) as [[p1 run1] segs1].
  destruct (r =? 10)%Z; by apply IH.
Qed.

(** Between two calls the run is empty, and outputs of earlier calls come first. *)
Lemma follows_prefix ls cl p run segs pre :
  follows ls cl p run (pre ++ segs) ->
  follows ls cl p [] (pre ++ (if decide (run = []) then segs else pushText (activeTag p) run segs)).
Proof.
  unfold follows. destruct (lineSegments sps None ls) as [done_ active].
  intros (Hsp & Hact & Hcl & Hst). split_and!; [done|done|done|].
  destruct Hst as [(Hd & -> & Hbuf & Hat)|(Hd & Hbuf & Hh & Hat)]; [left|right].
  - rewrite decide_True by done. done.
  - split_and!; [done|done|done|]. rewrite atoms_text_nil, app_nil_r. rewrite <- Hat.
    case_decide as Er; [subst; by rewrite atoms_text_nil, app_nil_r|].
    unfold pushText. by rewrite !atoms_app, atoms_pushSegment, app_assoc, Hact.
Qed.

(** A call does not look at earlier outputs. *)
Lemma follows_segs ls cl p run segs segs' :
  atoms segs = atoms segs' -> follows ls cl p run segs -> follows ls cl p run segs'.
Proof.
  unfold follows. destruct (lineSegments sps None ls). intros ->. done.
Qed.

Lemma parseRune_prefix pre p run segs r :
  let '(p1, run1, segs1) := parseRune (p, run, segs) r in
  let '(p2, run2, segs2) := parseRune (p, run, pre ++ segs) r in
  p1 = p2 /\ run1 = run2 /\ atoms segs2 = atoms pre ++ atoms segs1.
Proof.
  unfold parseRune, finishLine, pushText.
  repeat case_match; simplify_eq; split_and!; try done;
    rewrite ?atoms_pushSegment, ?atoms_app, ?atoms_pushSegment, ?atoms_app, ?app_assoc; done.
Qed.

Lemma parseRune_atoms p run segs segs' r :
  atoms segs = atoms segs' ->
  let '(p1, run1, segs1) := parseRune (p, run, segs) r in
  let '(p2, run2, segs2) := parseRune (p, run, segs') r in
  p1 = p2 /\ run1 = run2 /\ atoms segs1 = atoms segs2.
Proof.
  intros E. unfold parseRune, finishLine, pushText.
  repeat case_match; simplify_eq; split_and!; try done;
    rewrite ?atoms_pushSegment, ?atoms_pushSegment, ?E; done.
Qed.

Lemma fold_prefix rs pre p run segs segs0 :
  atoms segs0 = atoms pre ++ atoms segs ->
  let '(p1, run1, segs1) := fold_left parseRune rs (p, run, segs) in
  let '(p2, run2, segs2) := fold_left parseRune rs (p, run, segs0) in
  p1 = p2 /\ run1 = run2 /\ atoms segs2 = atoms pre ++ atoms segs1.
Proof.
  revert p run segs segs0. induction rs as [|r rs IH]; intros p run segs segs0 E; [done|].
  cbn [fold_left]. rewrite <- atoms_app in E.
  pose proof (parseRune_prefix pre p run segs r) as H1.
  pose proof (parseRune_atoms p run segs0 (pre ++ segs) r E) as H2.
  destruct (parseRune (p, run, segs) r) as [[p1 run1] segs1].
  destruct (parseRune (p, run, pre ++ segs) r) as [[p2 run2] segs2].
  destruct (parseRune (p, run, segs0) r) as [[p3 run3] segs3].
  destruct H1 as (<- & <- & E1). destruct H2 as (-> & -> & E2). apply IH. congruence.
Qed.

Lemma advance_app ls cl rs rs' :
  advance ls cl (rs ++ rs') = let '(ls', cl') := advance ls cl rs in advance ls' cl' rs'.
Proof.
  revert ls cl. induction rs as [|r rs IH]; intros ls cl; [done|]. simpl. case_match; apply IH.
Qed.

Lemma parseAll_follows chunks ls cl p segs :
  Forall (fun c => valid_utf8 c = true) chunks -> follows ls cl p [] segs ->
  let '(p', segs') := parseAll p chunks in
  let '(ls', cl') := advance ls cl (concat (map runes chunks)) in
  follows ls' cl' p' [] (segs ++ segs').
Proof.
  intros Hall. revert ls cl p segs. induction Hall as [|chunk chunks Hv _ IH]; intros ls cl p segs Hf; simpl.
  - by rewrite app_nil_r.
  - destruct (valid_utf8_runes chunk Hv) as [_ Hsc]. unfold parse.
    pose proof (fold_follows (runes chunk) ls cl p [] segs Hsc Hf) as H.
    pose proof (fold_prefix (runes chunk) segs p [] [] segs) as Hp.
    destruct (fold_left parseRune (runes chunk) (p, [], [])) as [[p1 run1] segs1].
    destruct (fold_left parseRune (runes chunk) (p, [], segs)) as [[p2 run2] segs2].
    destruct Hp as (-> & -> & Ea); [by rewrite app_nil_r|].
    rewrite advance_app. destruct (advance ls cl (runes chunk)) as [ls1 cl1].
    assert (follows ls1 cl1 p2 run2 (segs ++ segs1)) as H'
      by (eapply follows_segs; [|exact H]; by rewrite Ea, atoms_app).
    apply follows_prefix in H'. specialize (IH _ _ _ _ H').
    destruct (parseAll p2 chunks) as [p' segs']. by rewrite <- app_assoc in IH.
Qed.

Lemma advance_lines rs ls cl :
  Forall (fun r => r <> 10%Z) cl ->
  let '(ls', cl') := advance ls cl rs in
  ls' ++ (match cl' with [] => [] | _ => [cl'] end)
  = ls ++ (match lines rs with
           | l :: ls0 => (cl ++ l) :: ls0
           | [] => match cl with [] => [] | _ => [cl] end
           end)
  /\ Forall (fun r => r <> 10%Z) cl'.
Proof.
  revert ls cl. induction rs as [|r rs IH]; intros ls cl Hcl; [done|]. cbn [advance lines].
  destruct (r =? 10)%Z eqn:E; breflect.
  - specialize (IH (ls ++ [cl ++ [r]]) [] (Forall_nil_2 _)). destruct (advance _ [] rs) as [ls' cl'].
    destruct IH as [-> Hcl']. split; [|done]. rewrite <- app_assoc. simpl. do 2 f_equal. by destruct (lines rs).
  - assert (Forall (fun r => r <> 10%Z) (cl ++ [r])) as Hcl' by (apply Forall_app; split; [done|by constructor]).
    specialize (IH ls (cl ++ [r]) Hcl'). destruct (advance ls (cl ++ [r]) rs) as [ls' cl'].
    destruct IH as [-> Hcl'']. split; [|done]. f_equal. destruct (lines rs) as [|l ls0].
    + by destruct (cl ++ [r]) eqn:E'; [destruct cl|].
    + by rewrite <- app_assoc.
Qed.

Lemma streamAll_atoms chunks :
  Forall (fun c => valid_utf8 c = true) chunks ->
  atoms (streamAll (newTaggedLineParser sps) chunks) = atoms (wholeText sps (concat chunks)).
Proof.
  intros Hall.
  assert (follows [] [] (newTaggedLineParser sps) [] []) as H0.
  { unfold follows. simpl. split_and!; [done|done|constructor|]. left. done. }
  pose proof (parseAll_follows chunks [] [] _ [] Hall H0) as H. unfold streamAll.
  destruct (parseAll (newTaggedLineParser sps) chunks) as [p segs].
  assert (runes (concat chunks) = concat (map runes chunks)) as Er.
  { clear -Hall. induction Hall as [|c cs Hc _ IH]; [done|]. simpl. rewrite <- IH.
    destruct (valid_utf8_runes c Hc) as [E Hsc]. rewrite E at 1. by apply runes_encode_app. }
  pose proof (advance_lines (concat (map runes chunks)) [] [] (Forall_nil_2 _)) as Hl.
  unfold wholeText. rewrite Er. destruct (advance [] [] (concat (map runes chunks))) as [ls cl].
  destruct Hl as [Hl _]. simpl in Hl.
  assert (lines (concat (map runes chunks)) = ls ++ match cl with [] => [] | _ => [cl] end) as ->.
  { rewrite Hl. by destruct (lines (concat (map runes chunks))). }
  simpl in H. unfold follows in H. rewrite lineSegments_app. destruct (lineSegments sps None ls) as [done_ active].
  destruct H as (Hsp & Hact & Hcl & Hst). unfold finish.
  destruct Hst as [(Hd & _ & Hbuf & Hat)|(Hd & Hbuf & Hh & Hat)].
  - destruct cl as [|r cl].
    + rewrite Hbuf, decide_True by done. simpl. rewrite app_nil_r. rewrite !atoms_app, Hat. f_equal.
      rewrite Hact. by destruct active.
    + rewrite decide_False by (rewrite Hbuf, encode_runes_cons; intros [E _]%app_eq_nil; by apply (encode_rune_nonempty r)).
      unfold finishLine. rewrite Hbuf, Hsp, Hact. cbn [lineSegments].
      destruct (lineSegment sps active (encode_runes (r :: cl))) as [seg act]. cbn [activeTag].
      destruct act as [t|]; cbn [snd]; rewrite !atoms_app, Hat, ?atoms_pushSegment, ?atoms_one, <- ?app_assoc;
        change (atoms []) with (@nil atom); by rewrite ?app_nil_r.
  - rewrite Hbuf, decide_True by done.
    rewrite atoms_text_nil, app_nil_r in Hat. rewrite Hact.
    destruct cl as [|r cl]; cbn [lineSegments].
    + rewrite app_nil_r. rewrite atoms_text_nil, app_nil_r in Hat. rewrite !atoms_app, Hat.
      by destruct active.
    + rewrite hopeless_text by done. rewrite !atoms_app, atoms_one, Hat. by destruct active.
Qed.

End Lines.

Arguments taggedLineParser : clear implicits.
Arguments taggedLineSegment : clear implicits.
Arguments tagSpec : clear implicits.

(**  However a text of valid UTF-8 is cut into chunks, the line parser's
    segments are, up to joining adjacent pieces of the same text, those of its
    complete lines: a line that trims to an opening delimiter outside a block
    starts one, a line that trims to the closing delimiter of the open block
    ends it, every other line is text of the block or normal text, and a block left open is
    ended by the end of the stream. *)
Theorem streamAll_lines {T} `{EqDecision T} (sps : list (tagSpec T)) chunks :
  Forall (fun c => valid_utf8 c = true) chunks ->
  coalesce (streamAll (newTaggedLineParser sps) chunks) = coalesce (wholeText sps (concat chunks)).
Proof. intros Hall. by apply coalesce_same, streamAll_atoms. Qed.

Lemma streamAll_lines_witness :
  let sps := [mkTagSpec (str "<a>") (str "</a>") 1%nat] in
  let chunks := map str ["x
 <"; "a>
in"; "side
</a>
"]%string in
  coalesce (streamAll (newTaggedLineParser sps) chunks)
    = [segNormal (str "x" ++ [nl]); segTagStart 1%nat; segTagDelta 1%nat (str "inside" ++ [nl]); segTagEnd 1%nat]
  /\ coalesce (streamAll (newTaggedLineParser sps) chunks) = coalesce (wholeText sps (concat chunks)).
Proof.
  split; [vm_compute; reflexivity|]. apply streamAll_lines.
  repeat (apply Forall_cons; split; [vm_compute; reflexivity|]). constructor.
Defined.

(** ** proposed_plan.go *)

Inductive planTag := planTagProposedPlan.
#[export] Instance planTag_eq_dec : EqDecision planTag.
Proof. solve_decision. Defined.

Definition proposedPlanOpenTag : gostring := "<proposed_plan>".
Definition proposedPlanCloseTag : gostring := "</proposed_plan>".

Inductive ProposedPlanSegment :=
| ProposedPlanNormal (text : gostring)
| ProposedPlanStart
| ProposedPlanDelta (text : gostring)
| ProposedPlanEnd.

Definition planSpecs : list (tagSpec planTag) :=
  [mkTagSpec proposedPlanOpenTag proposedPlanCloseTag planTagProposedPlan].

Definition NewProposedPlanParser : taggedLineParser planTag := newTaggedLineParser planSpecs.

Definition mapPlanSegment (seg : taggedLineSegment planTag) : ProposedPlanSegment :=
  match seg with
  | segNormal text => ProposedPlanNormal text
  | segTagStart _ => ProposedPlanStart
  | segTagDelta _ text => ProposedPlanDelta text
  | segTagEnd _ => ProposedPlanEnd
  end.

Definition visibleOf (seg : ProposedPlanSegment) : gostring :=
  match seg with ProposedPlanNormal text => text | _ => [] end.

Definition mapPlanSegments (segments : list (taggedLineSegment planTag))
    : gostring * list ProposedPlanSegment :=
  let mapped := map mapPlanSegment segments in (concat (map visibleOf mapped), mapped).

Definition PlanPushStr (p : taggedLineParser planTag) (chunk : gostring)
    : taggedLineParser planTag * (gostring * list ProposedPlanSegment) :=
  let '(p, segs) := parse p chunk in (p, mapPlanSegments segs).

Definition PlanFinish (p : taggedLineParser planTag)
    : taggedLineParser planTag * (gostring * list ProposedPlanSegment) :=
  let '(p, segs) := finish p in (p, mapPlanSegments segs).

Definition StripProposedPlanBlocks (text : gostring) : gostring :=
  let '(p, (v, _)) := PlanPushStr NewProposedPlanParser text in
  let '(_, (v', _)) := PlanFinish p in v ++ v'.

(** The loop of [ExtractProposedPlanText]: the text of the last block. *)
Definition extractStep (st : bool * gostring) (seg : ProposedPlanSegment) : bool * gostring :=
  let '(saw, planText) := st in
  match seg with
  | ProposedPlanStart => (true, [])
  | ProposedPlanDelta text => (saw, planText ++ text)
  | ProposedPlanEnd | ProposedPlanNormal _ => st
  end.

Definition ExtractProposedPlanText (text : gostring) : option gostring :=
  let '(p, (_, e)) := PlanPushStr NewProposedPlanParser text in
  let '(_, (_, e')) := PlanFinish p in
  let '(saw, planText) := fold_left extractStep (e ++ e') (false, []) in
  if saw then Some planText else None.

Definition planText : gostring :=
  "before" ++ [nl] ++ str "  <proposed_plan>  " ++ [nl] ++ str "- step" ++ [nl] ++ str "</proposed_plan>"
  ++ [nl] ++ str "<proposed_plan> x".

Example plan_example :
  ExtractProposedPlanText planText = Some (str "- step" ++ [nl])
  /\ StripProposedPlanBlocks planText = str "before" ++ [nl] ++ str "<proposed_plan> x".
Proof. vm_compute. done. Qed.

(** ** assistant_text.go *)

Record AssistantTextChunk := mkAssistantChunk {
  VisibleText : gostring;
  Citations : list gostring;
  PlanSegments : list ProposedPlanSegment
}.

Record AssistantTextStreamParser := mkAssistant {
  planMode : bool;
  citations : Inline.InlineHiddenTagParser Inline.citationTag;
  plan : taggedLineParser planTag
}.

Definition NewAssistantTextStreamParser (planMode : bool) : AssistantTextStreamParser :=
  mkAssistant planMode Inline.NewCitationStreamParser NewProposedPlanParser.

(** [parseVisibleText] *)
Definition parseVisibleText (a : AssistantTextStreamParser) (visibleText : gostring)
    : AssistantTextStreamParser * (gostring * list ProposedPlanSegment) :=
  if negb (planMode a) then (a, (visibleText, []))
  else
    let '(p, c) := PlanPushStr (plan a) visibleText in
    (mkAssistant (planMode a) (citations a) p, c).

Definition AssistantPushStr (a : AssistantTextStreamParser) (chunk : gostring)
    : option (AssistantTextStreamParser * AssistantTextChunk) :=
  '(c, (v, e)) ← Inline.CitationPushStr (citations a) chunk;
  let '(a, (v, segs)) := parseVisibleText (mkAssistant (planMode a) c (plan a)) v in
  Some (a, mkAssistantChunk v e segs).

Definition AssistantFinish (a : AssistantTextStreamParser)
    : AssistantTextStreamParser * AssistantTextChunk :=
  let '(c, (v, e)) := Inline.CitationFinish (citations a) in
  let '(a, (v, segs)) := parseVisibleText (mkAssistant (planMode a) c (plan a)) v in
  if planMode a then
    let '(p, (v', segs')) := PlanFinish (plan a) in
    (mkAssistant (planMode a) (citations a) p, mkAssistantChunk (v ++ v') e (segs ++ segs'))
  else (a, mkAssistantChunk v e segs).

Example assistant_example :
  let chunks := map str ["hi <oai-mem-"; "citation>d</oai-mem-citation>"; "
<proposed_"; "plan>
step
"]%string in
  (fix go (a : AssistantTextStreamParser) (chunks : list gostring) (visible : gostring) (cites : list gostring)
        (segs : list ProposedPlanSegment) :=
     match chunks with
     | [] => let '(_, c) := AssistantFinish a in
             Some (visible ++ VisibleText c, cites ++ Citations c, segs ++ PlanSegments c)
     | chunk :: chunks =>
         '(a, c) ← AssistantPushStr a chunk;
         go a chunks (visible ++ VisibleText c) (cites ++ Citations c) (segs ++ PlanSegments c)
     end) (NewAssistantTextStreamParser true) chunks [] [] []
  = Some (str "hi " ++ [nl], [str "d"],
          [ProposedPlanNormal "hi "; ProposedPlanNormal [nl]; ProposedPlanStart;
           ProposedPlanDelta (str "step" ++ [nl]); ProposedPlanEnd]).
Proof. vm_compute. reflexivity. Qed.

End Tagged.
