(* ===== verification/StreamUtf8.v ===== *)
(** * internal/utils/streamparser: byte streams

    [utf8_validate.go] and [utf8_stream.go]: the adapter that accepts bytes
    and feeds a wrapped text parser with complete code points.  The wrapped
    parser is any instance of the [StreamTextParser] interface. *)

From S2P Require Import Prelude GoStrings GoUtf8 StreamInline.

Module Utf8Stream.

Local Open Scope Z_scope.

(** stream_text.go: [StreamTextParser], for parsers with state [P]. *)
Class StreamTextParser (P T : Type) := {
  PushStr : P -> gostring -> P * (gostring * list T);
  Finish : P -> P * (gostring * list T)
}.

(** ** utf8_validate.go *)

Record utf8DecodeResult := mkDecode { ok : bool; validUpTo : nat; errorLen : nat }.

Definition leadSize (first : Z) : option nat :=
  if in_range 194 223 first then Some 2%nat
  else if in_range 224 239 first then Some 3%nat
  else if in_range 240 244 first then Some 4%nat
  else None.

(** The bounds of the second byte: [lo] and [hi]. *)
Definition secondRange (first : Z) : Z * Z :=
  if first =? 224 then (160, 191)
  else if first =? 237 then (128, 159)
  else if first =? 240 then (144, 191)
  else if first =? 244 then (128, 143)
  else (128, 191).

Arguments secondRange : simpl never.

(** The loop over the continuation bytes from the [j]-th on, [n] of them left:
    the error length it returns with, if it does. *)
Fixpoint continuation (n j : nat) (first : Z) (rest : gostring) : option nat :=
  match n with
  | O => None
  | S n =>
      match rest with
      | [] => Some 0%nat
      | cont :: rest =>
          if decide (j = 1%nat) then
            let '(lo, hi) := secondRange first in
            if (bval cont <? lo) || (hi <? bval cont) then Some 1%nat else continuation n (S j) first rest
          else if (bval cont <? 128) || (191 <? bval cont) then Some j
          else continuation n (S j) first rest
      end
  end.

(** The outer loop, at offset [i] with [b] left. *)
Fixpoint validateFrom (fuel i : nat) (b : gostring) : utf8DecodeResult :=
  match fuel, b with
  | S fuel, c :: rest =>
      let first := bval c in
      if first <? 128 then validateFrom fuel (S i) rest
      else match leadSize first with
           | None => mkDecode false i 1
           | Some size =>
               match continuation (size - 1) 1 first rest with
               | Some e => mkDecode false i e
               | None => validateFrom fuel (i + size) (drop (size - 1) rest)
               end
           end
  | _, _ => mkDecode true i 0
  end.

Definition validateUTF8 (b : gostring) : utf8DecodeResult := validateFrom (length b) 0 b.

(** ** utf8_stream.go *)

Inductive Utf8StreamParserError :=
| Utf8InvalidUtf8 (ValidUpTo ErrorLen : nat)
| Utf8IncompleteAtEof.

Section Adapter.
Context {P T : Type} `{StreamTextParser P T}.

Record Utf8StreamParser := mkUtf8 { inner : P; pendingUTF8 : gostring }.

Definition NewUtf8StreamParser (p : P) : Utf8StreamParser := mkUtf8 p [].

Definition emptyChunk : gostring * list T := ([], []).

Definition PushBytes (u : Utf8StreamParser) (chunk : gostring)
    : Utf8StreamParser * result Utf8StreamParserError (gostring * list T) :=
  let bytes := pendingUTF8 u ++ chunk in
  let res := validateUTF8 bytes in
  if ok res then
    let '(p, out) := PushStr (inner u) bytes in (mkUtf8 p [], Ok out)
  else if (0 <? errorLen res)%nat then (u, Err (Utf8InvalidUtf8 (validUpTo res) (errorLen res)))
  else if decide (validUpTo res = 0%nat) then (mkUtf8 (inner u) bytes, Ok emptyChunk)
  else
    let prefix := take (validUpTo res) bytes in
    let pres := validateUTF8 prefix in
    if negb (ok pres) then (u, Err (Utf8InvalidUtf8 (validUpTo pres) (errorLen pres)))
    else
      let '(p, out) := PushStr (inner u) prefix in
      (mkUtf8 p (drop (validUpTo res) bytes), Ok out).

Definition FinishBytes (u : Utf8StreamParser)
    : Utf8StreamParser * result Utf8StreamParserError (gostring * list T) :=
  let res := validateUTF8 (pendingUTF8 u) in
  if bool_decide (pendingUTF8 u <> []) && negb (ok res) then
    (u, Err (if (0 <? errorLen res)%nat then Utf8InvalidUtf8 (validUpTo res) (errorLen res)
             else Utf8IncompleteAtEof))
  else
    let '(p, (v, e)) :=
      if decide (pendingUTF8 u = []) then (inner u, emptyChunk) else PushStr (inner u) (pendingUTF8 u) in
    let '(p, (v', e')) := Finish p in
    (mkUtf8 p [], Ok (v ++ v', e ++ e')).

Definition IntoInner (u : Utf8StreamParser) : result Utf8StreamParserError P :=
  if decide (pendingUTF8 u = []) then Ok (inner u)
  else
    let res := validateUTF8 (pendingUTF8 u) in
    if ok res then Ok (inner u)
    else if (0 <? errorLen res)%nat then Err (Utf8InvalidUtf8 (validUpTo res) (errorLen res))
    else Err Utf8IncompleteAtEof.

Definition IntoInnerLossy (u : Utf8StreamParser) : P := inner u.

(** ** What validation says *)

(** [rest] starts with a code point that ends too early, or with bytes no
    continuation makes valid. *)
Definition unfinished (rest : gostring) : Prop :=
  exists c t size, rest = c :: t /\ 128 <= bval c /\ leadSize (bval c) = Some size
    /\ continuation (size - 1) 1 (bval c) t = Some 0%nat.
Definition broken (rest : gostring) : Prop :=
  exists c t, rest = c :: t /\ 128 <= bval c
    /\ (leadSize (bval c) = None
        \/ exists size e, leadSize (bval c) = Some size /\ continuation (size - 1) 1 (bval c) t = Some e
             /\ (0 < e)%nat).

Lemma secondRange_accept first : secondRange first = accept_range first.
Proof. done. Qed.

(** A lead byte with all its continuation bytes is one code point. *)
Lemma continuation_decode c size t :
  128 <= bval c -> leadSize (bval c) = Some size -> continuation (size - 1) 1 (bval c) t = None ->
  (size <= S (length t))%nat /\ (2 <= size)%nat /\ (decode_rune (c :: t)).2 = size.
Proof.
  intros Hc Hl Hcont. unfold decode_rune, RuneSelf. rewrite (proj2 (Z.ltb_ge _ _) Hc).
  unfold leadSize in Hl. destruct (accept_range (bval c)) as [lo hi] eqn:Ea.
  repeat match type of Hl with context [if ?b then _ else _] => destruct b eqn:? end; simplify_eq;
    simpl in Hcont; rewrite ?secondRange_accept, ?Ea in Hcont;
    repeat match type of Hcont with
    | context [match ?l with [] => _ | _ :: _ => _ end] => destruct l; [done|]; simpl in Hcont
    | context [if ?b then _ else _] => destruct b eqn:?; [done|]; simpl in Hcont
    end;
    repeat match goal with Hx : _ || _ = false |- _ => apply orb_false_iff in Hx as [? ?] end; breflect;
    (split; [simpl; lia|split; [lia|]]);
    repeat match goal with |- context [in_range ?a ?b ?z] => rewrite (in_range_true a b z) by lia end; done.
Qed.

(** A broken start is not a code point, whatever follows. *)
Lemma broken_decode rest more :
  broken rest -> exists c t, rest = c :: t /\ 128 <= bval c /\ (decode_rune (rest ++ more)).2 = 1%nat.
Proof.
  intros (c & t & -> & Hc & Hb). exists c, t. split; [done|]. split; [done|].
  unfold decode_rune, RuneSelf. cbn [app]. rewrite (proj2 (Z.ltb_ge _ _) Hc).
  destruct (accept_range (bval c)) as [lo hi] eqn:Ea. unfold leadSize in Hb.
  destruct (in_range 194 223 (bval c)) eqn:E2; [|destruct (in_range 224 239 (bval c)) eqn:E3;
    [|destruct (in_range 240 244 (bval c)) eqn:E4; [|done]]];
  (destruct Hb as [Hb|(size & e & [= <-] & Hb & He)]; [done|]); simpl in Hb; rewrite secondRange_accept, Ea in Hb;
  repeat match type of Hb with
  | context [match ?l with [] => _ | _ :: _ => _ end] => destruct l; [injection Hb as <-; lia|]; simpl in Hb
  | context [if ?b then _ else _] => destruct b eqn:?; simpl in Hb
  end; try done; cbn [app];
  repeat match goal with Hx : _ || _ = true |- _ => apply orb_true_iff in Hx as [Hx|Hx] end;
  repeat match goal with Hx : _ || _ = false |- _ => apply orb_false_iff in Hx as [? ?] end; breflect;
  repeat match goal with |- context [match ?l ++ more with [] => _ | _ :: _ => _ end] =>
    destruct (l ++ more) end; try done;
  repeat match goal with |- context [in_range ?a ?b ?z] =>
    first [rewrite (in_range_true a b z) by lia | rewrite (in_range_false a b z) by lia
          |destruct (in_range a b z)] end; repeat case_match; done.
Qed.

(** Validity of the parts of a string. *)
Lemma valid_utf8_cons s : s <> [] ->
  valid_utf8 s = true <->
  ~ ((decode_rune s).2 = 1%nat /\ exists c t, s = c :: t /\ 128 <= bval c)
  /\ valid_utf8 (drop (decode_rune s).2 s) = true.
Proof.
  intros Hne. split.
  - intros Hv. destruct (valid_utf8_runes s Hv) as [Es Hall]. destruct (runes s) as [|r rs]; [by destruct s|].
    apply Forall_cons in Hall as [Hr Hrs]. rewrite Es, encode_runes_cons, decode_encode by done.
    cbn [snd]. rewrite drop_app_length. split; [|by apply valid_utf8_encode].
    intros [Hlen (c & t & E & Hc)]. destruct (decide (r < 128)) as [Hlt|].
    + rewrite encode_ascii in E by (unfold scalar in Hr; lia). injection E as <- _.
      rewrite bval_byte_of in Hc; unfold scalar in Hr; lia.
    + unfold encode_rune, scalar in *. repeat case_match; rewrite ?in_range_spec in *; simpl in Hlen; lia.
  - intros [Hno Hv]. destruct s as [|c s]; [done|].
    pose proof (decode_rune_width (c :: s) Hne) as Hw. destruct (decode_rune (c :: s)) as [r w] eqn:E. simpl in Hw.
    destruct (encode_decode (c :: s) r w c s) as [Hr He]; [done|done| |].
    { destruct (decide (w = 1%nat)) as [->|]; [|by left]. right.
      destruct (decide (bval c < 128)) as [|Hge]; [done|]. exfalso. apply Hno. split; [done|].
      exists c, s. split; [done|lia]. }
    cbn [snd] in Hv. destruct (valid_utf8_runes _ Hv) as [Ed Hall].
    rewrite <- (take_drop w (c :: s)), <- He, Ed, <- encode_runes_cons.
    apply valid_utf8_encode. by constructor.
Qed.

Lemma valid_utf8_app a b : valid_utf8 a = true -> valid_utf8 (a ++ b) = valid_utf8 b.
Proof.
  intros Ha. destruct (valid_utf8_runes a Ha) as [E Hall]. rewrite E. clear Ha E. revert Hall.
  generalize (runes a) as rs. intros rs Hall. induction Hall as [|r rs Hr _ IH]; [done|]. rewrite encode_runes_cons, <- app_assoc, <- IH.
  set (s := encode_runes rs ++ b). apply eq_true_iff_eq.
  rewrite (valid_utf8_cons (encode_rune r ++ s)).
  2: { intros [E _]%app_eq_nil. by apply (encode_rune_nonempty r). }
  rewrite decode_encode by done. cbn [snd]. rewrite drop_app_length. split; [by intros [_ ?]|]. intros Hv.
  split; [|done]. intros [Hlen (c & t & E & Hc)]. destruct (decide (r < 128)) as [Hlt|].
  - rewrite encode_ascii in E by (unfold scalar in Hr; lia). injection E as <- _.
    rewrite bval_byte_of in Hc; unfold scalar in Hr; lia.
  - unfold encode_rune, scalar in *. repeat case_match; rewrite ?in_range_spec in *; simpl in Hlen; lia.
Qed.

Lemma validateFrom_spec fuel i b :
  (length b <= fuel)%nat ->
  let res := validateFrom fuel i b in
  exists v rest, b = v ++ rest /\ valid_utf8 v = true /\ validUpTo res = (i + length v)%nat
    /\ if ok res then rest = []
       else if decide (errorLen res = 0%nat) then unfinished rest else broken rest.
Proof.
  revert i b. induction fuel as [|fuel IH]; intros i b Hf; cbv zeta.
  { destruct b; [|simpl in Hf; lia]. exists [], []. simpl. split_and!; [done|done|lia|done]. }
  destruct b as [|c rest]; [exists [], []; simpl; split_and!; [done|done|lia|done]|].
  cbn [validateFrom]. simpl in Hf. destruct (bval c <? 128) eqn:E; breflect.
  - destruct (IH (S i) rest) as (v & r & -> & Hv & Hup & Hcase); [lia|]. exists (c :: v), r.
    split_and!; [done| |simpl; lia|done].
    rewrite valid_utf8_cons by done. rewrite decode_rune_ascii by done. cbn [snd drop]. split; [|done].
    intros [_ (c' & t & [= <- <-] & Hge)]. lia.
  - destruct (leadSize (bval c)) as [size|] eqn:El.
    + destruct (continuation (size - 1) 1 (bval c) rest) as [e|] eqn:Ec.
      * exists [], (c :: rest). simpl. split_and!; [done|done|lia|]. case_decide; [subst|].
        -- by exists c, rest, size.
        -- exists c, rest. split_and!; [done|done|]. right. exists size, e. split_and!; [done|done|lia].
      * destruct (continuation_decode c size rest E El Ec) as (Hle & H2 & Hd).
        destruct (IH (i + size)%nat (drop (size - 1) rest)) as (v & r & Er & Hv & Hup & Hcase);
          [rewrite length_drop; lia|].
        exists (c :: take (size - 1) rest ++ v), r. split_and!; [| | |done].
        -- simpl. by rewrite <- app_assoc, <- Er, take_drop.
        -- assert (c :: rest = (c :: take (size - 1) rest ++ v) ++ r) as Eall
             by (simpl; by rewrite <- app_assoc, <- Er, take_drop).
           assert (decode_rune (c :: take (size - 1) rest ++ v) = decode_rune (c :: rest)) as Edec.
           { destruct (decode_rune (c :: rest)) as [x w] eqn:Ew. simpl in Hd. subst w.
             destruct (encode_decode (c :: rest) x size c rest) as [Hx Hex]; [done|done|left; lia|].
             replace (c :: take (size - 1) rest) with (encode_rune x).
             2: { rewrite Hex. destruct size; [lia|]. simpl. by rewrite Nat.sub_0_r. }
             rewrite app_comm_cons.
             replace (c :: take (size - 1) rest) with (encode_rune x).
             2: { rewrite Hex. destruct size; [lia|]. simpl. by rewrite Nat.sub_0_r. }
             rewrite decode_encode by done. f_equal. rewrite Hex, length_take. simpl. lia. }
           rewrite valid_utf8_cons by done. rewrite Edec, Hd. split; [lia|].
           destruct size; [lia|]. simpl. rewrite Nat.sub_0_r. rewrite drop_app_le by (rewrite length_take; lia).
           rewrite drop_ge by (rewrite length_take; lia). done.
        -- rewrite Hup. simpl. rewrite length_app, length_take. lia.
    + exists [], (c :: rest). simpl. split_and!; [done|done|lia|]. exists c, rest. split_and!; [done|done|by left].
Qed.

Lemma validateUTF8_prefix b :
  let res := validateUTF8 b in
  exists v rest, b = v ++ rest /\ valid_utf8 v = true /\ validUpTo res = length v
    /\ (ok res = true <-> valid_utf8 b = true)
    /\ (ok res = true -> rest = [])
    /\ (ok res = false -> errorLen res = 0%nat -> unfinished rest)
    /\ (ok res = false -> errorLen res <> 0%nat -> forall more, valid_utf8 (b ++ more) = false).
Proof.
  destruct (validateFrom_spec (length b) 0 b (le_n _)) as (v & rest & E & Hv & Hup & Hcase).
  unfold validateUTF8. cbv zeta. exists v, rest. simpl in Hup.
  assert (forall r, broken r -> forall more, valid_utf8 (r ++ more) = false) as Hbroken.
  { intros r Hb more. destruct (broken_decode r more Hb) as (c & t & -> & Hc & Hd).
    apply not_true_iff_false. intros Hv'. apply valid_utf8_cons in Hv' as [Hno _]; [|done].
    apply Hno. split; [done|]. by exists c, (t ++ more). }
  assert (forall r, unfinished r -> valid_utf8 r = false) as Hunf.
  { intros r (c & t & size & -> & Hc & Hl & Hcont). apply not_true_iff_false. intros Hv'.
    apply valid_utf8_cons in Hv' as [Hno _]; [|done]. apply Hno. split; [|by exists c, t].
    unfold decode_rune, RuneSelf. rewrite (proj2 (Z.ltb_ge _ _) Hc).
    destruct (accept_range (bval c)) as [lo hi] eqn:Ea. unfold leadSize in Hl.
    destruct (in_range 194 223 (bval c)); [|destruct (in_range 224 239 (bval c));
      [|destruct (in_range 240 244 (bval c)); [|done]]]; injection Hl as <-; simpl in Hcont;
    rewrite secondRange_accept, Ea in Hcont;
    repeat match type of Hcont with
    | context [match ?l with [] => _ | _ :: _ => _ end] => destruct l; [done|]; simpl in Hcont
    | context [if ?b then _ else _] => destruct b eqn:?; [done|]; simpl in Hcont
    end; done. }
  split_and!; [done|done|done| | | |].
  - destruct (ok _) eqn:Eok.
    + split; [|done]. intros _. rewrite E, Hcase, app_nil_r. done.
    + split; [done|]. intros Hb. rewrite E, valid_utf8_app in Hb by done.
      case_decide; [by rewrite (Hunf rest) in Hb|].
      specialize (Hbroken rest Hcase []). by rewrite app_nil_r, Hb in Hbroken.
  - intros Hok. by rewrite Hok in Hcase.
  - intros Hok He. by rewrite Hok, decide_True in Hcase.
  - intros Hok He more. rewrite Hok, decide_False in Hcase by done.
    rewrite E, <- app_assoc, valid_utf8_app by done. by apply Hbroken.
Qed.

(**  [validateUTF8] finds the longest valid prefix: it accepts exactly
    the valid strings, and otherwise stops where a code point is either cut
    off by the end of the input (error length 0) or wrong whatever follows. *)
Theorem validateUTF8_spec b :
  let res := validateUTF8 b in
  exists v rest, b = v ++ rest /\ valid_utf8 v = true /\ validUpTo res = length v
    /\ (ok res = true <-> valid_utf8 b = true)
    /\ (ok res = true -> rest = [])
    /\ (ok res = false -> errorLen res = 0%nat -> unfinished rest)
    /\ (ok res = false -> errorLen res <> 0%nat -> forall more, valid_utf8 (b ++ more) = false).
Proof. apply validateUTF8_prefix. Qed.

(** ** Byte streams *)

(** Text pushed piece by piece, and the end of the stream. *)
Fixpoint pushPieces (p : P) (pieces : list gostring) : P * (gostring * list T) :=
  match pieces with
  | [] => (p, emptyChunk)
  | piece :: pieces =>
      let '(p, (v, e)) := PushStr p piece in
      let '(p, (v', e')) := pushPieces p pieces in (p, (v ++ v', e ++ e'))
  end.

Definition textStream (p : P) (pieces : list gostring) : gostring * list T :=
  let '(p, (v, e)) := pushPieces p pieces in
  let '(_, (v', e')) := Finish p in (v ++ v', e ++ e').

(** The same for bytes, up to the first error. *)
Fixpoint pushChunks (u : Utf8StreamParser) (chunks : list gostring)
    : result Utf8StreamParserError (Utf8StreamParser * (gostring * list T)) :=
  match chunks with
  | [] => Ok (u, emptyChunk)
  | chunk :: chunks =>
      let '(u, r) := PushBytes u chunk in
      '(v, e) ← r;
      '(u, (v', e')) ← pushChunks u chunks;
      Ok (u, (v ++ v', e ++ e'))
  end.

Definition byteStream (p : P) (chunks : list gostring) : result Utf8StreamParserError (gostring * list T) :=
  '(u, (v, e)) ← pushChunks (NewUtf8StreamParser p) chunks;
  '(v', e') ← (FinishBytes u).2;
  Ok (v ++ v', e ++ e').

(** One call on bytes that more bytes make valid: complete code points go to
    the parser, an unfinished one stays. *)
Lemma PushBytes_valid u chunk more :
  valid_utf8 (pendingUTF8 u ++ chunk ++ more) = true ->
  exists piece u', valid_utf8 piece = true /\ pendingUTF8 u ++ chunk = piece ++ pendingUTF8 u'
    /\ ((piece = [] /\ PushBytes u chunk = (u', Ok emptyChunk) /\ inner u' = inner u)
        \/ exists p out, PushStr (inner u) piece = (p, out) /\ PushBytes u chunk = (u', Ok out)
             /\ inner u' = p).
Proof.
  intros Hv. rewrite app_assoc in Hv. unfold PushBytes. cbv zeta.
  destruct (validateUTF8_prefix (pendingUTF8 u ++ chunk)) as (v & rest & E & Hvv & Hup & Hok & Hrest & Hunf & Hbad).
  set (res := validateUTF8 (pendingUTF8 u ++ chunk)) in *. destruct (ok res) eqn:Eok.
  - specialize (Hrest eq_refl). subst rest. rewrite app_nil_r in E. rewrite E.
    destruct (PushStr (inner u) v) as [p out] eqn:Ep. exists v, (mkUtf8 p []).
    split_and!; [done|by rewrite app_nil_r|]. right. by exists p, out.
  - destruct (decide (errorLen res = 0%nat)) as [He|He].
    2: { specialize (Hbad eq_refl He more). congruence. }
    rewrite He. cbn [Nat.ltb Nat.leb]. case_decide as Hz.
    + exists [], (mkUtf8 (inner u) (pendingUTF8 u ++ chunk)). split_and!; [done|done|]. left. done.
    + rewrite Hup, E, take_app_length, drop_app_length.
      destruct (validateUTF8_prefix v) as (v' & rest' & _ & _ & _ & Hok' & _).
      rewrite (proj2 Hok' Hvv). simpl negb. cbn iota.
      destruct (PushStr (inner u) v) as [p out] eqn:Ep. exists v, (mkUtf8 p rest).
      split_and!; [done|done|]. right. by exists p, out.
Qed.

Lemma pushPieces_app p pieces pieces' :
  pushPieces p (pieces ++ pieces')
  = let '(p, (v, e)) := pushPieces p pieces in
    let '(p, (v', e')) := pushPieces p pieces' in (p, (v ++ v', e ++ e')).
Proof.
  revert p. induction pieces as [|piece pieces IH]; intros p; simpl.
  - by destruct (pushPieces p pieces') as [? [? ?]].
  - destruct (PushStr p piece) as [p1 [v1 e1]]. rewrite IH.
    destruct (pushPieces p1 pieces) as [p2 [v2 e2]]. destruct (pushPieces p2 pieces') as [p3 [v3 e3]].
    by rewrite <- !app_assoc.
Qed.

Lemma pushChunks_valid u chunks :
  valid_utf8 (pendingUTF8 u ++ concat chunks) = true ->
  exists pieces u' out, Forall (fun s => valid_utf8 s = true) pieces
    /\ pendingUTF8 u ++ concat chunks = concat pieces ++ pendingUTF8 u'
    /\ pushChunks u chunks = Ok (u', out) /\ pushPieces (inner u) pieces = (inner u', out).
Proof.
  revert u. induction chunks as [|chunk chunks IH]; intros u Hv.
  - exists [], u, emptyChunk. simpl. split_and!; [constructor|by rewrite app_nil_r|done|done].
  - cbn [concat] in Hv. destruct (PushBytes_valid u chunk (concat chunks) Hv) as (piece & u1 & Hp & E & Hpush).
    assert (valid_utf8 (pendingUTF8 u1 ++ concat chunks) = true) as Hv1.
    { rewrite app_assoc, E, <- app_assoc, valid_utf8_app in Hv; done. }
    destruct (IH u1 Hv1) as (pieces & u2 & out & Hall & E2 & Hc & Hpp).
    cbn [concat pushChunks]. rewrite app_assoc, E, <- app_assoc, E2.
    destruct Hpush as [(-> & -> & Hin)|(p & out1 & Hstr & -> & Hin)].
    + exists pieces, u2, out. unfold emptyChunk. cbn [mbind result_bind app]. rewrite Hc.
      destruct out as [v e]. rewrite Hin in Hpp. done.
    + destruct out1 as [v1 e1]. destruct out as [v e].
      exists (piece :: pieces), u2, (v1 ++ v, e1 ++ e). split_and!; [by constructor| | |].
      * cbn [concat]. by rewrite <- app_assoc.
      * cbn [mbind result_bind]. by rewrite Hc.
      * simpl. rewrite Hstr. rewrite Hin in Hpp. by rewrite Hpp.
Qed.

(**  Bytes cut anywhere, even inside a code point, are streamed without an
    error when together they are valid UTF-8, and the wrapped parser sees exactly their text, in
    pieces that are valid on their own. *)
Theorem byteStream_pieces p chunks :
  valid_utf8 (concat chunks) = true ->
  exists pieces, Forall (fun s => valid_utf8 s = true) pieces /\ concat pieces = concat chunks
    /\ byteStream p chunks = Ok (textStream p pieces).
Proof.
  intros Hv. destruct (pushChunks_valid (NewUtf8StreamParser p) chunks Hv)
    as (pieces & u & [v e] & Hall & E & Hc & Hp). simpl in E.
  unfold byteStream. rewrite Hc. cbn [mbind result_bind]. unfold FinishBytes. cbv zeta.
  assert (valid_utf8 (pendingUTF8 u) = true) as Hpend.
  { rewrite E in Hv. rewrite valid_utf8_app in Hv; [done|].
    clear -Hall. induction Hall as [|s l Hs _ IH]; [done|]. simpl. by rewrite valid_utf8_app. }
  destruct (validateUTF8_prefix (pendingUTF8 u)) as (_ & _ & _ & _ & _ & Hok & _).
  rewrite (proj2 Hok Hpend). simpl negb. rewrite andb_false_r.
  destruct (decide (pendingUTF8 u = [])) as [En|En].
  - exists pieces. rewrite En, app_nil_r in E. split_and!; [done|done|]. unfold emptyChunk, textStream.
    cbn [inner NewUtf8StreamParser] in Hp. rewrite Hp. destruct (Finish (inner u)) as [p' [v' e']]. done.
  - exists (pieces ++ [pendingUTF8 u]). split_and!.
    + apply Forall_app. split; [done|by constructor].
    + rewrite concat_app. simpl. by rewrite app_nil_r.
    + unfold textStream. rewrite pushPieces_app. cbn [inner NewUtf8StreamParser] in Hp. rewrite Hp.
      cbn [pushPieces]. destruct (PushStr (inner u) (pendingUTF8 u)) as [p1 [v1 e1]].
      destruct (Finish p1) as [p2 [v2 e2]] eqn:Ef. unfold emptyChunk.
      cbn [mbind result_bind snd]. rewrite Ef. by rewrite !app_nil_r, <- !app_assoc.
Qed.

End Adapter.

(** A parser that shows everything. *)
#[local] Instance echo : StreamTextParser () () := {
  PushStr p s := (p, (s, []));
  Finish p := (p, ([], []))
}.

Lemma byteStream_pieces_witness :
  let chunks := [str "caf" ++ ["195"%char]; ["169"%char; "226"%char]; ["130"%char]; "172"%char :: str "!"] in
  (exists out, byteStream () chunks = Ok (out, []) /\ out = concat chunks)
  /\ exists pieces, Forall (fun s => valid_utf8 s = true) pieces /\ concat pieces = concat chunks
       /\ byteStream () chunks = Ok (textStream () pieces).
Proof.
  split; [eexists; split; vm_compute; reflexivity|].
  apply byteStream_pieces. vm_compute. reflexivity.
Defined.

End Utf8Stream.
