(* ===== verification/Truncation.v ===== *)
(** * internal/utils/truncation: shrinking tool output

    [tokens.go], [truncate_string.go], [policy.go] and [truncation.go].  Go's
    [int] is 64 bits wide here; the saturating helpers keep the width, the
    rest works on lengths and saturated values, which are in range.  An
    [ImageDetail] pointer is an option; JSON is not modelled. *)

From S2P Require Import Prelude GoStrings GoUtf8.

Module Truncation.

Local Open Scope Z_scope.

(** ** Machine integers *)

Definition maxInt : Z := 2 ^ 63 - 1.
Definition minInt : Z := - maxInt - 1.
Definition wrap (z : Z) : Z := (z + 2 ^ 63) mod 2 ^ 64 - 2 ^ 63.
Definition is_int (z : Z) : Prop := minInt <= z <= maxInt.
Definition clamp (z : Z) : Z := Z.max minInt (Z.min maxInt z).
Definition maxUint64 : Z := 2 ^ 64 - 1.

(** ** tokens.go *)

Definition approxBytesPerToken : Z := 4.

Definition saturatingAddInt (a b : Z) : Z :=
  let sum := wrap (a + b) in
  if ((0 <? a) && (0 <? b) && (sum <? 0)) || ((wrap (maxInt - b) <? a) && (0 <? b)) then maxInt
  else if ((a <? 0) && (b <? 0) && (0 <=? sum)) || ((a <? wrap (minInt - b)) && (b <? 0)) then minInt
  else sum.

(** Go's division truncates and wraps. *)
Definition int_div (a b : Z) : Z := wrap (Z.quot a b).

Definition saturatingMulInt (a b : Z) : Z :=
  if (a =? 0) || (b =? 0) then 0
  else
    let product := wrap (a * b) in
    if negb (int_div product b =? a)
    then if Bool.eqb (0 <? a) (0 <? b) then maxInt else minInt
    else product.

Definition ceilDivInt (n d : Z) : Z :=
  if n <=? 0 then 0 else Z.quot (saturatingAddInt n (d - 1)) d.

Definition ceilDivUint64 (n d : Z) : Z :=
  let add := d - 1 in
  let n := if maxUint64 - add <? n then maxUint64 else n + add in
  n / d.

Definition ApproxTokenCount (text : gostring) : Z := ceilDivInt (zlen text) approxBytesPerToken.
Definition ApproxBytesForTokens (tokens : Z) : Z := saturatingMulInt tokens approxBytesPerToken.
Definition ApproxTokensFromByteCount (bytes : Z) : Z := ceilDivUint64 bytes approxBytesPerToken.

Definition ApproxTokensFromByteCountI64 (bytes : Z) : Z :=
  if bytes <=? 0 then 0
  else
    let tokens := ApproxTokensFromByteCount bytes in
    if 2 ^ 63 - 1 <? tokens then 2 ^ 63 - 1 else tokens.

(** ** truncate_string.go *)

Definition saturatingSubInt (a b : Z) : Z := if a <? b then 0 else a - b.

Definition splitBudget (budget : Z) : Z * Z :=
  let half := Z.quot budget 2 in (half, budget - half).

(** The loop of [splitString] at offset [idx] with [s] left: characters
    removed, end of the prefix, start of the suffix. *)
Fixpoint splitLoop (fuel : nat) (s : gostring) (idx beginningBytes tailStartTarget : Z)
    (removed prefixEnd suffixStart : Z) (suffixStarted : bool) : Z * Z * Z :=
  match fuel, s with
  | S fuel, _ :: _ =>
      let size := (decode_rune s).2 in
      let charEnd := idx + Z.of_nat size in
      let rest := drop size s in
      if charEnd <=? beginningBytes then
        splitLoop fuel rest charEnd beginningBytes tailStartTarget removed charEnd suffixStart suffixStarted
      else if tailStartTarget <=? idx then
        splitLoop fuel rest charEnd beginningBytes tailStartTarget removed prefixEnd
          (if suffixStarted then suffixStart else idx) true
      else
        splitLoop fuel rest charEnd beginningBytes tailStartTarget (removed + 1) prefixEnd suffixStart
          suffixStarted
  | _, _ => (removed, prefixEnd, suffixStart)
  end.

Definition splitString (s : gostring) (beginningBytes endBytes : Z) : Z * gostring * gostring :=
  if decide (s = []) then (0, [], [])
  else
    let length_ := zlen s in
    let tailStartTarget := saturatingSubInt length_ endBytes in
    let '(removed, prefixEnd, suffixStart) :=
      splitLoop (length s) s 0 beginningBytes tailStartTarget 0 0 length_ false in
    let suffixStart := if suffixStart <? prefixEnd then prefixEnd else suffixStart in
    (removed, take (Z.to_nat prefixEnd) s, drop (Z.to_nat suffixStart) s).

Definition formatTruncationMarker (useTokens : bool) (removedCount : Z) : gostring :=
  if useTokens then "…" ++ format_int removedCount ++ str " tokens truncated…"
  else "…" ++ format_int removedCount ++ str " chars truncated…".

Definition removedUnits (useTokens : bool) (removedBytes removedChars : Z) : Z :=
  if useTokens then ApproxTokensFromByteCount (if removedBytes <? 0 then 0 else removedBytes)
  else if removedChars <? 0 then 0 else removedChars.

Definition assembleTruncatedOutput (prefix suffix marker : gostring) : gostring :=
  prefix ++ marker ++ suffix.

Definition truncateWithByteEstimate (s : gostring) (maxBytes : Z) (useTokens : bool) : gostring :=
  if decide (s = []) then []
  else
    let totalChars := zlen (runes s) in
    if maxBytes =? 0 then formatTruncationMarker useTokens (removedUnits useTokens (zlen s) totalChars)
    else if zlen s <=? maxBytes then s
    else
      let '(leftBudget, rightBudget) := splitBudget maxBytes in
      let '(removedChars, before_, after_) := splitString s leftBudget rightBudget in
      let marker := formatTruncationMarker useTokens
        (removedUnits useTokens (saturatingSubInt (zlen s) maxBytes) removedChars) in
      assembleTruncatedOutput before_ after_ marker.

Definition TruncateMiddleChars (s : gostring) (maxBytes : Z) : gostring :=
  truncateWithByteEstimate s maxBytes false.

(** The result, and the original token count if it was truncated. *)
Definition TruncateMiddleWithTokenBudget (s : gostring) (maxTokens : Z) : gostring * option Z :=
  if decide (s = []) then ([], None)
  else if (0 <? maxTokens) && (zlen s <=? ApproxBytesForTokens maxTokens) then (s, None)
  else
    let truncated := truncateWithByteEstimate s (ApproxBytesForTokens maxTokens) true in
    let totalTokens := ApproxTokenCount s in
    if decide (truncated = s) then (truncated, None) else (truncated, Some totalTokens).

(** ** policy.go *)

Inductive PolicyMode := ModeBytes | ModeTokens.
Record TruncationPolicy := mkPolicy { mode : PolicyMode; limit : Z }.

Definition BytesPolicy (bytes : Z) : TruncationPolicy :=
  mkPolicy ModeBytes (if bytes <? 0 then 0 else bytes).
Definition TokensPolicy (tokens : Z) : TruncationPolicy :=
  mkPolicy ModeTokens (if tokens <? 0 then 0 else tokens).

Definition TokenBudget (p : TruncationPolicy) : Z :=
  match mode p with
  | ModeBytes =>
      let tokens := ApproxTokensFromByteCount (limit p) in if maxInt <? tokens then maxInt else tokens
  | ModeTokens => limit p
  end.

Definition ByteBudget (p : TruncationPolicy) : Z :=
  match mode p with
  | ModeBytes => limit p
  | ModeTokens => ApproxBytesForTokens (limit p)
  end.

(** ** content_item.go: the items *)

Inductive FunctionCallOutputContentItem :=
| InputText (text : gostring)
| InputImage (imageURL : gostring) (detail : option gostring)
| EncryptedContent (encrypted : gostring).

(** ** truncation.go *)

Definition TruncateText (content : gostring) (policy : TruncationPolicy) : gostring :=
  match mode policy with
  | ModeBytes => TruncateMiddleChars content (limit policy)
  | ModeTokens => (TruncateMiddleWithTokenBudget content (limit policy)).1
  end.

(** The loop of [countLines]: the count, and whether the last line has begun. *)
Fixpoint countLoop (s : gostring) (count : Z) (open : bool) : Z * bool :=
  match s with
  | [] => (count, open)
  | c :: s => if decide (c = nl) then countLoop s (count + 1) false else countLoop s count true
  end.
Definition countLines (s : gostring) : Z :=
  let '(count, open) := countLoop s 0 false in if open then count + 1 else count.

Definition FormattedTruncateText (content : gostring) (policy : TruncationPolicy) : gostring :=
  if zlen content <=? ByteBudget policy then content
  else "Total output lines: " ++ format_int (countLines content) ++ [nl; nl] ++ TruncateText content policy.

Definition is_text (it : FunctionCallOutputContentItem) : bool :=
  match it with InputText _ => true | _ => false end.

(** The accumulation of the text segments: a separator once it is non-empty. *)
Definition combineStep (acc : gostring) (it : FunctionCallOutputContentItem) : gostring :=
  match it with
  | InputText text => (if decide (acc = []) then acc else acc ++ [nl]) ++ text
  | _ => acc
  end.

(** The resulting items, and the token count if they were truncated. *)
Definition FormattedTruncateTextContentItemsWithPolicy (items : list FunctionCallOutputContentItem)
    (policy : TruncationPolicy) : list FunctionCallOutputContentItem * option Z :=
  if negb (existsb is_text items) then (items, None)
  else
    let combined := fold_left combineStep items [] in
    if zlen combined <=? ByteBudget policy then (items, None)
    else
      (InputText (FormattedTruncateText combined policy) :: filter (fun it => is_text it = false) items,
       Some (ApproxTokenCount combined)).

(** One iteration of [TruncateFunctionOutputItemsWithPolicy]: the output, the
    remaining budget and the omitted items. *)
Definition truncateStep (m : PolicyMode) (st : list FunctionCallOutputContentItem * Z * Z)
    (it : FunctionCallOutputContentItem) : list FunctionCallOutputContentItem * Z * Z :=
  let '(out, remaining, omitted) := st in
  match it with
  | InputText text =>
      if remaining =? 0 then (out, remaining, omitted + 1)
      else
        let cost := match m with ModeBytes => zlen text | ModeTokens => ApproxTokenCount text end in
        if cost <=? remaining then (out ++ [InputText text], saturatingSubInt remaining cost, omitted)
        else
          let snippetPolicy := match m with
                               | ModeBytes => BytesPolicy remaining
                               | ModeTokens => TokensPolicy remaining
                               end in
          let snippet := TruncateText text snippetPolicy in
          if decide (snippet = []) then (out, 0, omitted + 1)
          else (out ++ [InputText snippet], 0, omitted)
  | _ => (out ++ [it], remaining, omitted)
  end.

Definition omittedItem (n : Z) : FunctionCallOutputContentItem :=
  InputText ("[omitted " ++ format_int n ++ str " text items ...]").

Definition TruncateFunctionOutputItemsWithPolicy (items : list FunctionCallOutputContentItem)
    (policy : TruncationPolicy) : list FunctionCallOutputContentItem :=
  let budget := match mode policy with ModeBytes => ByteBudget policy | ModeTokens => TokenBudget policy end in
  let '(out, _, omitted) := fold_left (truncateStep (mode policy)) items ([], budget, 0) in
  if 0 <? omitted then out ++ [omittedItem omitted] else out.

Example truncate_example :
  TruncateMiddleChars "0123456789abcdef" 6 = str "012…10 chars truncated…def"
  /\ TruncateFunctionOutputItemsWithPolicy [InputText "abcd"; InputImage "u" None; InputText "0123456789"; InputText "x"]
       (BytesPolicy 8)
     = [InputText "abcd"; InputImage "u" None; InputText "01…6 chars truncated…89";
        InputText "[omitted 1 text items ...]"].
Proof. vm_compute. done. Qed.

(** ** Saturating arithmetic *)

Lemma wrap_id z : is_int z -> wrap z = z.
Proof. unfold is_int, wrap, minInt, maxInt. intros H. rewrite Z.mod_small; lia. Qed.

Lemma wrap_cases z : 2 * minInt <= z <= 2 * maxInt + 1 ->
  wrap z = z \/ (maxInt < z /\ wrap z = z - 2 ^ 64) \/ (z < minInt /\ wrap z = z + 2 ^ 64).
Proof. unfold wrap, minInt, maxInt. intros H. Z.to_euclidean_division_equations. lia. Qed.

Lemma wrap_range z : is_int (wrap z).
Proof. unfold is_int, wrap, minInt, maxInt. pose proof (Z.mod_pos_bound (z + 2 ^ 63) (2 ^ 64)). lia. Qed.

Lemma saturatingAddInt_clamp a b : is_int a -> is_int b -> saturatingAddInt a b = clamp (a + b).
Proof.
  intros Ha Hb. unfold saturatingAddInt, clamp, is_int in *.
  assert (minInt = - maxInt - 1 /\ 0 < maxInt) as [Hmin Hmax] by done.
  destruct (Z.ltb_spec 0 b) as [Hp|Hp]; rewrite ?andb_true_r, ?andb_false_r, ?orb_false_r.
  - rewrite (wrap_id (maxInt - b)), (proj2 (Z.ltb_ge b 0)), !andb_false_r by (unfold is_int, minInt, maxInt in *; lia).
    destruct (Z.ltb_spec (maxInt - b) a) as [Ho|Ho]; [rewrite orb_true_r; simpl; lia|].
    rewrite wrap_id by (unfold is_int, minInt, maxInt in *; lia).
    destruct (Z.ltb_spec 0 a), (Z.ltb_spec (a + b) 0); simpl; lia.
  - simpl. destruct (Z.ltb_spec b 0) as [Hn|Hn]; rewrite ?andb_true_r, ?andb_false_r; simpl.
    + rewrite (wrap_id (minInt - b)) by (unfold is_int, minInt, maxInt in *; lia).
      destruct (Z.ltb_spec a (minInt - b)) as [Ho|Ho]; [rewrite orb_true_r; simpl; lia|].
      rewrite wrap_id by (unfold is_int, minInt, maxInt in *; lia).
      destruct (Z.ltb_spec a 0), (Z.leb_spec 0 (a + b)); simpl; lia.
    + rewrite wrap_id by (unfold is_int, minInt, maxInt in *; lia). lia.
Qed.

Lemma int_div_4 p : int_div p 4 = wrap (Z.quot p 4).
Proof. done. Qed.

(** Multiplication by the bytes of a token. *)
Lemma ApproxBytesForTokens_clamp tokens : is_int tokens -> ApproxBytesForTokens tokens = clamp (tokens * 4).
Proof.
  intros Ht. unfold ApproxBytesForTokens, saturatingMulInt, approxBytesPerToken, clamp.
  destruct (tokens =? 0) eqn:E0; [breflect; subst; done|]. simpl orb. cbv iota. breflect.
  assert (int_div (wrap (tokens * 4)) 4 = Z.quot (wrap (tokens * 4)) 4) as Ed.
  { apply wrap_id. pose proof (wrap_range (tokens * 4)). unfold is_int, minInt, maxInt in *.
    Z.to_euclidean_division_equations. lia. }
  rewrite Ed. unfold is_int, minInt, maxInt in *.
  destruct (Z.eqb_spec (Z.quot (wrap (tokens * 4)) 4) tokens) as [E|E]; simpl negb; cbv iota.
  - assert (wrap (tokens * 4) = tokens * 4) as ->.
    { unfold wrap in *. Z.to_euclidean_division_equations. lia. }
    pose proof (wrap_range (tokens * 4)). unfold is_int, minInt, maxInt in *.
    unfold wrap in *. Z.to_euclidean_division_equations. lia.
  - assert (tokens * 4 < - 2 ^ 63 \/ 2 ^ 63 - 1 < tokens * 4) as Hover.
    { destruct (decide (- 2 ^ 63 <= tokens * 4 <= 2 ^ 63 - 1)) as [Hin|]; [|lia]. exfalso. apply E.
      rewrite wrap_id by (unfold is_int, minInt, maxInt; lia). rewrite Z.quot_mul; lia. }
    destruct (Z.ltb_spec 0 tokens); simpl; lia.
Qed.

(**  The token arithmetic does not overflow: on 64-bit integers the
    saturating sum is the exact sum clamped to the range, the bytes of a
    number of tokens are four times as many, clamped, and the tokens of a
    text are a quarter of its bytes rounded up. *)
Theorem token_arithmetic :
  (forall a b, is_int a -> is_int b -> saturatingAddInt a b = clamp (a + b))
  /\ (forall tokens, is_int tokens -> ApproxBytesForTokens tokens = clamp (tokens * 4))
  /\ (forall text, zlen text <= maxInt - 3 ->
        let t := ApproxTokenCount text in 4 * t - 4 < zlen text <= 4 * t)
  /\ (forall bytes, 0 <= bytes <= maxUint64 ->
        let t := ApproxTokensFromByteCount bytes in 0 <= t /\ bytes - 3 <= 4 * t < bytes + 4).
Proof.
  split_and!; [exact saturatingAddInt_clamp|exact ApproxBytesForTokens_clamp| |].
  - intros text Hlen. pose proof (zlen_nonneg text). cbv zeta.
    unfold ApproxTokenCount, ceilDivInt, approxBytesPerToken.
    destruct (Z.leb_spec (zlen text) 0); [lia|].
    rewrite saturatingAddInt_clamp by (unfold is_int, minInt, maxInt in *; lia).
    unfold clamp, minInt, maxInt in *. Z.to_euclidean_division_equations. lia.
  - intros bytes Hb. cbv zeta. unfold ApproxTokensFromByteCount, ceilDivUint64, approxBytesPerToken, maxUint64 in *.
    destruct (Z.ltb_spec (2 ^ 64 - 1 - (4 - 1)) bytes); Z.to_euclidean_division_equations; lia.
Qed.

(** ** Splitting on character boundaries *)

(** [k] whole characters are the most that fit in [budget] bytes. *)
Definition longest_prefix (rs : list rune) (budget : Z) (k : nat) : Prop :=
  (k <= length rs)%nat /\ zlen (encode_runes (take k rs)) <= budget
  /\ forall k', (k < k' <= length rs)%nat -> budget < zlen (encode_runes (take k' rs)).

(** From the [j]-th character on, what is left fits in [budget] bytes, and no
    earlier start would. *)
Definition longest_suffix (rs : list rune) (budget : Z) (j : nat) : Prop :=
  (j <= length rs)%nat /\ zlen (encode_runes (drop j rs)) <= budget
  /\ forall j', (j' < j)%nat -> budget < zlen (encode_runes (drop j' rs)).

Lemma zlen_encode_cons r rs : zlen (encode_runes (r :: rs)) = zlen (encode_rune r) + zlen (encode_runes rs).
Proof. by rewrite encode_runes_cons, zlen_app. Qed.

Lemma zlen_encode_rune_pos r : 1 <= zlen (encode_rune r).
Proof. pose proof (encode_rune_length r). unfold zlen. lia. Qed.

Lemma zlen_take_0 (rs : list rune) : zlen (encode_runes (take 0 rs)) = 0.
Proof. done. Qed.

(** The loop in the suffix part: nothing changes any more but the flag. *)
Lemma splitLoop_tail fuel rs idx b t removed pe ss started :
  Forall scalar rs -> (length (encode_runes rs) <= fuel)%nat -> b < idx + 1 -> t <= idx ->
  splitLoop fuel (encode_runes rs) idx b t removed pe ss started
  = (removed, pe, if started then ss else match rs with [] => ss | _ => idx end).
Proof.
  intros Hall. revert fuel idx ss started. induction Hall as [|r rs Hr _ IH]; intros fuel idx ss started Hf Hb Ht.
  { destruct fuel; simpl; by destruct started. }
  rewrite encode_runes_cons in *. rewrite length_app in Hf. pose proof (encode_rune_length r).
  destruct fuel as [|fuel]; [lia|]. cbn [splitLoop].
  destruct (encode_rune r ++ encode_runes rs) as [|c s] eqn:E.
  { apply app_eq_nil in E as [E _]. by apply encode_rune_nonempty in E. }
  rewrite <- E, decode_encode by done. cbn [snd]. rewrite drop_app_length.
  rewrite (proj2 (Z.leb_gt _ _)) by lia. rewrite (proj2 (Z.leb_le _ _)) by lia.
  rewrite IH by lia. by destruct started.
Qed.

(** The loop in the middle part. *)
Lemma splitLoop_middle fuel rs idx b t removed pe ss :
  Forall scalar rs -> (length (encode_runes rs) <= fuel)%nat ->
  (forall k, (0 < k <= length rs)%nat -> b < idx + zlen (encode_runes (take k rs))) ->
  exists j, (j <= length rs)%nat
    /\ splitLoop fuel (encode_runes rs) idx b t removed pe ss false
       = (removed + Z.of_nat j, pe,
          if decide (j = length rs) then ss else idx + zlen (encode_runes (take j rs)))
    /\ (forall j', (j' < j)%nat -> idx + zlen (encode_runes (take j' rs)) < t)
    /\ ((j < length rs)%nat -> t <= idx + zlen (encode_runes (take j rs))).
Proof.
  intros Hall. revert fuel idx removed. induction Hall as [|r rs Hr Hall IH]; intros fuel idx removed Hf Hb.
  { exists 0%nat. simpl. split_and!; [lia| |lia|lia]. destruct fuel; simpl; do 2 f_equal; lia. }
  pose proof (encode_rune_length r) as Hlen. pose proof (zlen_encode_rune_pos r) as Hpos.
  assert (b < idx + zlen (encode_rune r)) as Hb1.
  { specialize (Hb 1%nat ltac:(simpl; lia)). cbn [take] in Hb. rewrite zlen_encode_cons in Hb.
    rewrite zlen_take_0 in Hb. lia. }
  destruct (decide (t <= idx)) as [Ht|Ht].
  - exists 0%nat. rewrite zlen_take_0. split_and!; [lia| |lia|lia].
    rewrite encode_runes_cons in *. rewrite length_app in Hf. destruct fuel as [|fuel]; [lia|]. cbn [splitLoop].
    destruct (encode_rune r ++ encode_runes rs) as [|c s] eqn:E.
    { apply app_eq_nil in E as [E _]. by apply encode_rune_nonempty in E. }
    rewrite <- E, decode_encode by done. cbn [snd]. rewrite drop_app_length.
    change (Z.of_nat (length (encode_rune r))) with (zlen (encode_rune r)).
    rewrite (proj2 (Z.leb_gt _ _)) by lia. rewrite (proj2 (Z.leb_le _ _)) by lia.
    rewrite splitLoop_tail; [|done|lia|lia|lia]. rewrite decide_False by (simpl; lia).
    do 2 f_equal; lia.
  - rewrite encode_runes_cons in Hf. rewrite length_app in Hf. destruct fuel as [|fuel]; [lia|].
    destruct (IH fuel (idx + zlen (encode_rune r)) (removed + 1)) as (j & Hj & E & Hlt & Hge); [lia| |].
    { intros k Hk. specialize (Hb (S k) ltac:(simpl; lia)). cbn [take] in Hb. rewrite zlen_encode_cons in Hb. lia. }
    exists (S j). rewrite encode_runes_cons. cbn [splitLoop].
    destruct (encode_rune r ++ encode_runes rs) as [|c s] eqn:Es.
    { apply app_eq_nil in Es as [Es _]. by apply encode_rune_nonempty in Es. }
    rewrite <- Es, decode_encode by done. cbn [snd]. rewrite drop_app_length.
    change (Z.of_nat (length (encode_rune r))) with (zlen (encode_rune r)).
    rewrite (proj2 (Z.leb_gt _ _)) by lia. rewrite (proj2 (Z.leb_gt t idx)) by lia. rewrite E.
    cbn [take length]. rewrite zlen_encode_cons. split_and!; [lia| | |].
    + f_equal; [f_equal; lia|]. repeat case_decide; lia.
    + intros [|j'] Hj'; [rewrite zlen_take_0; lia|]. cbn [take].
      rewrite zlen_encode_cons. specialize (Hlt j' ltac:(lia)). lia.
    + intros Hj'. specialize (Hge ltac:(lia)). lia.
Qed.

(** The whole loop: a prefix part, a middle part and a suffix part. *)
Lemma splitLoop_spec fuel rs idx b t ss pe :
  Forall scalar rs -> (length (encode_runes rs) <= fuel)%nat -> b <= t ->
  exists k j, (k <= j <= length rs)%nat
    /\ splitLoop fuel (encode_runes rs) idx b t 0 pe ss false
       = (Z.of_nat (j - k), if decide (k = 0%nat) then pe else idx + zlen (encode_runes (take k rs)),
          if decide (j = length rs) then ss else idx + zlen (encode_runes (take j rs)))
    /\ (forall k', (0 < k' <= k)%nat -> idx + zlen (encode_runes (take k' rs)) <= b)
    /\ (forall k', (k < k' <= length rs)%nat -> b < idx + zlen (encode_runes (take k' rs)))
    /\ (forall j', (k <= j' < j)%nat -> idx + zlen (encode_runes (take j' rs)) < t)
    /\ ((j < length rs)%nat -> t <= idx + zlen (encode_runes (take j rs))).
Proof.
  intros Hall. revert fuel idx pe. induction Hall as [|r rs Hr Hall IH]; intros fuel idx pe Hf Hbt.
  { exists 0%nat, 0%nat. simpl. split_and!; try lia. by destruct fuel. }
  pose proof (encode_rune_length r) as Hlen.
  destruct (decide (idx + zlen (encode_rune r) <= b)) as [Hb|Hb].
  - rewrite encode_runes_cons in Hf. rewrite length_app in Hf. destruct fuel as [|fuel]; [lia|].
    destruct (IH fuel (idx + zlen (encode_rune r)) (idx + zlen (encode_rune r)))
      as (k & j & Hkj & E & H1 & H2 & H3 & H4); [lia|done|..].
    exists (S k), (S j). rewrite encode_runes_cons. cbn [splitLoop].
    destruct (encode_rune r ++ encode_runes rs) as [|c s] eqn:Es.
    { apply app_eq_nil in Es as [Es _]. by apply encode_rune_nonempty in Es. }
    rewrite <- Es, decode_encode by done. cbn [snd]. rewrite drop_app_length.
    change (Z.of_nat (length (encode_rune r))) with (zlen (encode_rune r)).
    rewrite (proj2 (Z.leb_le _ _)) by lia. rewrite E. cbn [take length]. rewrite !zlen_encode_cons.
    split_and!; [lia|lia| | | | |].
    + repeat case_decide; try lia; subst; rewrite ?zlen_take_0; (apply (f_equal2 pair); [apply (f_equal2 pair)|]); lia.
    + intros [|k'] Hk'; [lia|]. cbn [take]. rewrite zlen_encode_cons.
      destruct (decide (k' = 0%nat)) as [->|]; [rewrite ?zlen_take_0; lia|].
      specialize (H1 k' ltac:(lia)). lia.
    + intros [|k'] Hk'; [lia|]. cbn [take]. rewrite zlen_encode_cons. specialize (H2 k' ltac:(lia)). lia.
    + intros [|j'] Hj'; [lia|]. cbn [take]. rewrite zlen_encode_cons. specialize (H3 j' ltac:(lia)). lia.
    + intros Hj. specialize (H4 ltac:(lia)). lia.
  - assert (forall k', (0 < k' <= length (r :: rs))%nat -> b < idx + zlen (encode_runes (take k' (r :: rs)))) as Hno.
    { intros [|k'] Hk'; [lia|]. cbn [take]. rewrite zlen_encode_cons.
      pose proof (zlen_nonneg (encode_runes (take k' rs))). lia. }
    destruct (splitLoop_middle fuel (r :: rs) idx b t 0 pe ss) as (j & Hj & E & H3 & H4);
      [by constructor|done|done|].
    exists 0%nat, j. rewrite E, Nat.sub_0_r. split_and!; [lia|lia|done|lia|intros; apply Hno; lia| |done].
    intros j' Hj'. apply H3. lia.
Qed.

Lemma zlen_take_drop rs k :
  zlen (encode_runes (take k rs)) + zlen (encode_runes (drop k rs)) = zlen (encode_runes rs).
Proof. rewrite <- zlen_app, <- encode_runes_app. by rewrite take_drop. Qed.

Lemma take_encode rs k : take (Z.to_nat (zlen (encode_runes (take k rs)))) (encode_runes rs) = encode_runes (take k rs).
Proof.
  rewrite <- (take_drop k rs) at 2. rewrite encode_runes_app. unfold zlen. rewrite Nat2Z.id.
  by rewrite take_app_length.
Qed.

Lemma drop_encode rs k : drop (Z.to_nat (zlen (encode_runes (take k rs)))) (encode_runes rs) = encode_runes (drop k rs).
Proof.
  rewrite <- (take_drop k rs) at 2. rewrite encode_runes_app. unfold zlen. rewrite Nat2Z.id.
  by rewrite drop_app_length.
Qed.

Lemma splitString_spec rs b e :
  Forall scalar rs -> 0 <= b -> 0 <= e -> b + e <= zlen (encode_runes rs) -> rs <> [] ->
  exists k j, (k <= j <= length rs)%nat
    /\ splitString (encode_runes rs) b e
       = (Z.of_nat (j - k), encode_runes (take k rs), encode_runes (drop j rs))
    /\ longest_prefix rs b k /\ longest_suffix rs e j.
Proof.
  intros Hall Hb He Hbe Hne. set (s := encode_runes rs).
  assert (s <> []) as Hs.
  { destruct rs as [|r rs']; [done|]. subst s. rewrite encode_runes_cons.
    intros [E _]%app_eq_nil. by apply encode_rune_nonempty in E. }
  unfold splitString. rewrite decide_False by done. cbv zeta.
  assert (saturatingSubInt (zlen s) e = zlen s - e) as ->.
  { unfold saturatingSubInt. destruct (Z.ltb_spec (zlen s) e); [subst s; lia|done]. }
  destruct (splitLoop_spec (length s) rs 0 b (zlen s - e) (zlen s) 0) as (k & j & Hkj & E & H1 & H2 & H3 & H4);
    [done|done|subst s; lia|]. fold s in E. rewrite E. exists k, j.
  assert ((if decide (k = 0%nat) then 0 else 0 + zlen (encode_runes (take k rs))) = zlen (encode_runes (take k rs))) as ->
    by (destruct (decide (k = 0%nat)); [by subst|lia]).
  assert ((if decide (j = length rs) then zlen s else 0 + zlen (encode_runes (take j rs)))
    = zlen (encode_runes (take j rs))) as -> by (destruct (decide (j = length rs)) as [Hjl|]; [rewrite Hjl, firstn_all; done|lia]).
  assert (zlen (encode_runes (take k rs)) <= zlen (encode_runes (take j rs))) as Hmono.
  { replace (take k rs) with (take k (take j rs)) by (rewrite take_take; f_equal; lia).
    pose proof (zlen_take_drop (take j rs) k). pose proof (zlen_nonneg (encode_runes (drop k (take j rs)))). lia. }
  rewrite (proj2 (Z.ltb_ge _ _)) by done. subst s. rewrite take_encode, drop_encode.
  split_and!; [lia|lia|done| |].
  - split_and!; [lia| |].
    + destruct (decide (k = 0%nat)) as [->|]; [done|]. specialize (H1 k ltac:(lia)). lia.
    + intros k' Hk'. specialize (H2 k' Hk'). lia.
  - pose proof (zlen_take_drop rs j). split_and!; [lia| |].
    + destruct (decide (j < length rs)%nat) as [Hj|]; [specialize (H4 Hj); lia|].
      rewrite drop_ge by lia. done.
    + intros j' Hj'. pose proof (zlen_take_drop rs j').
      destruct (decide (k <= j')%nat) as [|Hlt]; [specialize (H3 j' ltac:(lia)); lia|].
      assert (zlen (encode_runes (take j' rs)) < zlen (encode_runes (take k rs))) as Hstrict.
      { replace (take j' rs) with (take j' (take k rs)) by (rewrite take_take; f_equal; lia).
        pose proof (zlen_take_drop (take k rs) j').
        destruct (drop j' (take k rs)) as [|r l] eqn:Ed.
        - apply (f_equal length) in Ed. rewrite length_drop, length_take in Ed. simpl in Ed. lia.
        - rewrite zlen_encode_cons in *. pose proof (zlen_encode_rune_pos r).
          pose proof (zlen_nonneg (encode_runes l)). lia. }
      destruct (decide (k = 0%nat)); [lia|]. specialize (H1 k ltac:(lia)). lia.
Qed.

(**  Middle truncation of valid UTF-8 that does not fit: the result is
    the longest prefix of whole characters within half the budget, a marker,
    and the longest suffix of whole characters within the rest of it; the
    marker counts exactly the characters missing in between (or estimates
    their tokens from the bytes over budget), and nothing else is lost. *)
Theorem truncate_middle s maxBytes useTokens :
  valid_utf8 s = true -> 0 < maxBytes < zlen s ->
  exists k j, (k <= j <= length (runes s))%nat
    /\ longest_prefix (runes s) (maxBytes / 2) k
    /\ longest_suffix (runes s) (maxBytes - maxBytes / 2) j
    /\ truncateWithByteEstimate s maxBytes useTokens
       = encode_runes (take k (runes s))
         ++ formatTruncationMarker useTokens
              (if useTokens then ApproxTokensFromByteCount (zlen s - maxBytes) else Z.of_nat (j - k))
         ++ encode_runes (drop j (runes s))
    /\ s = encode_runes (take k (runes s)) ++ encode_runes (take (j - k) (drop k (runes s)))
           ++ encode_runes (drop j (runes s)).
Proof.
  intros Hv Hmax. destruct (valid_utf8_runes s Hv) as [Es Hall]. remember (runes s) as rs eqn:Ers.
  assert (rs <> []) as Hne by (intros ->; rewrite Es in Hmax; change (zlen (encode_runes [])) with 0 in Hmax; lia).
  destruct (splitString_spec rs (maxBytes / 2) (maxBytes - maxBytes / 2)) as (k & j & Hkj & E & Hp & Hsuf);
    [done|Z.to_euclidean_division_equations; lia|Z.to_euclidean_division_equations; lia|rewrite <- Es; lia|done|].
  exists k, j. split_and!; [lia|lia|done|done| |].
  - unfold truncateWithByteEstimate.
    rewrite decide_False by (intros ->; change (zlen (@nil ascii)) with 0 in Hmax; lia). cbv zeta.
    rewrite (proj2 (Z.eqb_neq _ _)) by lia. rewrite (proj2 (Z.leb_gt _ _)) by lia. unfold splitBudget.
    rewrite Z.quot_div_nonneg by lia. rewrite Es at 1. rewrite E. unfold assembleTruncatedOutput.
    assert (removedUnits useTokens (saturatingSubInt (zlen s) maxBytes) (Z.of_nat (j - k))
      = if useTokens then ApproxTokensFromByteCount (zlen s - maxBytes) else Z.of_nat (j - k)) as ->;
      [|reflexivity].
    unfold saturatingSubInt, removedUnits. rewrite (proj2 (Z.ltb_ge (zlen s) _)) by lia.
    rewrite !(proj2 (Z.ltb_ge _ 0)) by lia. by destruct useTokens.
  - rewrite Es at 1. rewrite <- !encode_runes_app. f_equal.
    replace (drop j rs) with (drop (j - k) (drop k rs)) by (rewrite drop_drop; f_equal; lia).
    by rewrite !take_drop.
Qed.

Lemma truncate_middle_witness :
  let s := str "héllo wörld" in
  TruncateMiddleChars s 5 = str "h…7 chars truncated…rld"
  /\ exists k j, (k <= j <= length (runes s))%nat
    /\ longest_prefix (runes s) (5 / 2) k
    /\ longest_suffix (runes s) (5 - 5 / 2) j
    /\ truncateWithByteEstimate s 5 false
       = encode_runes (take k (runes s)) ++ formatTruncationMarker false (Z.of_nat (j - k))
         ++ encode_runes (drop j (runes s))
    /\ s = encode_runes (take k (runes s)) ++ encode_runes (take (j - k) (drop k (runes s)))
           ++ encode_runes (drop j (runes s)).
Proof.
  split; [vm_compute; reflexivity|]. apply (truncate_middle _ 5 false); [vm_compute; reflexivity|].
  vm_compute. split; reflexivity.
Defined.

(** ** Items *)

(** The other items keep their order and contents. *)
Lemma truncateStep_others m items out remaining omitted :
  let '(out', _, _) := fold_left (truncateStep m) items (out, remaining, omitted) in
  filter (fun it => is_text it = false) out'
  = filter (fun it => is_text it = false) out ++ filter (fun it => is_text it = false) items.
Proof.
  revert out remaining omitted. induction items as [|it items IH]; intros out remaining omitted.
  { simpl. by rewrite app_nil_r. }
  cbn [fold_left].
  assert (exists r o l, truncateStep m (out, remaining, omitted) it = (out ++ l, r, o)
    /\ filter (fun it => is_text it = false) l = filter (fun it => is_text it = false) [it]) as (r & o & l & -> & El).
  { destruct it as [text|url d|enc]; simpl.
    - destruct (remaining =? 0); [by exists remaining, (omitted + 1), []; rewrite app_nil_r|].
      destruct (_ <=? remaining); [by eexists _, _, _|].
      case_decide; [by exists 0, (omitted + 1), []; rewrite app_nil_r|]. by eexists _, _, _.
    - by eexists _, _, _.
    - by eexists _, _, _. }
  specialize (IH (out ++ l) r o). destruct (fold_left _ items _) as [[out' ?] ?].
  rewrite IH, filter_app, El, <- app_assoc. f_equal.
  rewrite <- filter_app. done.
Qed.

(** The cost of a text under a policy. *)
Definition cost (m : PolicyMode) (text : gostring) : Z :=
  match m with ModeBytes => zlen text | ModeTokens => ApproxTokenCount text end.
Definition snippet (m : PolicyMode) (remaining : Z) (text : gostring) : gostring :=
  TruncateText text (match m with ModeBytes => BytesPolicy remaining | ModeTokens => TokensPolicy remaining end).

Definition texts (items : list FunctionCallOutputContentItem) : list gostring :=
  omap (fun it => match it with InputText t => Some t | _ => None end) items.

(** What becomes of the texts: whole ones while they fit, then at most one
    snippet, then nothing but the count of the others. *)
Inductive spent (m : PolicyMode) : Z -> list gostring -> list gostring -> Z -> Prop :=
| spent_done remaining : spent m remaining [] [] 0
| spent_whole remaining text ts out omitted :
    remaining <> 0 -> cost m text <= remaining ->
    spent m (remaining - cost m text) ts out omitted ->
    spent m remaining (text :: ts) (text :: out) omitted
| spent_snippet remaining text ts :
    remaining <> 0 -> remaining < cost m text -> snippet m remaining text <> [] ->
    spent m remaining (text :: ts) [snippet m remaining text] (zlen ts)
| spent_empty_snippet remaining text ts :
    remaining <> 0 -> remaining < cost m text -> snippet m remaining text = [] ->
    spent m remaining (text :: ts) [] (1 + zlen ts)
| spent_out text ts : spent m 0 (text :: ts) [] (1 + zlen ts).

Lemma truncateStep_zero m items out omitted :
  fold_left (truncateStep m) items (out, 0, omitted)
  = (out ++ filter (fun it => is_text it = false) items, 0, omitted + zlen (texts items)).
Proof.
  revert out omitted. induction items as [|it items IH]; intros out omitted.
  { simpl. rewrite app_nil_r. do 2 f_equal. unfold zlen. simpl. lia. }
  destruct it as [text|url d|enc]; cbn [fold_left truncateStep].
  - cbn [Z.eqb]. rewrite IH. rewrite filter_cons_False by done. unfold texts. simpl omap. rewrite zlen_cons.
    rewrite <- Z.add_assoc. reflexivity.
  - rewrite IH. rewrite filter_cons_True by done. by rewrite <- app_assoc.
  - rewrite IH. rewrite filter_cons_True by done. by rewrite <- app_assoc.
Qed.

Lemma texts_app l l' : texts (l ++ l') = texts l ++ texts l'.
Proof. apply omap_app. Qed.

Lemma texts_others items : texts (filter (fun it => is_text it = false) items) = [].
Proof.
  induction items as [|[t|u d|e] items IH]; [done| | |].
  - by rewrite filter_cons_False.
  - by rewrite filter_cons_True.
  - by rewrite filter_cons_True.
Qed.

Lemma truncateStep_spent m items out remaining omitted :
  let '(out', _, omitted') := fold_left (truncateStep m) items (out, remaining, omitted) in
  exists o n, texts out' = texts out ++ o /\ omitted' = omitted + n /\ spent m remaining (texts items) o n.
Proof.
  revert out remaining omitted. induction items as [|it items IH]; intros out remaining omitted.
  { exists [], 0. rewrite app_nil_r. split_and!; [done|lia|constructor]. }
  destruct it as [text|url d|enc]; cbn [fold_left truncateStep].
  - destruct (Z.eqb_spec remaining 0) as [->|Hr].
    { rewrite truncateStep_zero. exists [], (1 + zlen (texts items)).
      rewrite texts_app, texts_others. split_and!; [done|lia|apply spent_out]. }
    fold (cost m text). destruct (Z.leb_spec (cost m text) remaining) as [Hc|Hc].
    + assert (saturatingSubInt remaining (cost m text) = remaining - cost m text) as ->.
      { unfold saturatingSubInt. by rewrite (proj2 (Z.ltb_ge _ _)). }
      specialize (IH (out ++ [InputText text]) (remaining - cost m text) omitted).
      destruct (fold_left _ items _) as [[out' ?] omitted']. destruct IH as (o & n & Eo & -> & Hs).
      exists (text :: o), n. rewrite Eo, texts_app, <- app_assoc. split_and!; [done|done|by apply spent_whole].
    + fold (snippet m remaining text). case_decide as Hsn; rewrite truncateStep_zero.
      * exists [], (1 + zlen (texts items)). rewrite texts_app, texts_others.
        split_and!; [done|lia|by apply spent_empty_snippet].
      * exists [snippet m remaining text], (zlen (texts items)).
        rewrite !texts_app, texts_others, app_nil_r. split_and!; [done|lia|by apply spent_snippet].
  - specialize (IH (out ++ [InputImage url d]) remaining omitted).
    destruct (fold_left _ items _) as [[out' ?] omitted']. destruct IH as (o & n & Eo & -> & Hs).
    exists o, n. rewrite Eo, texts_app. by rewrite app_nil_r.
  - specialize (IH (out ++ [EncryptedContent enc]) remaining omitted).
    destruct (fold_left _ items _) as [[out' ?] omitted']. destruct IH as (o & n & Eo & -> & Hs).
    exists o, n. rewrite Eo, texts_app. by rewrite app_nil_r.
Qed.

(**  Truncating the items of a tool result keeps every image and
    encrypted item, in order, and spends the budget on the texts in order:
    those that fit are kept whole, the first that does not is cut to what is
    left, and all later ones are counted in a final note, which appears
    exactly when some text is omitted. *)
Theorem TruncateFunctionOutputItems_spent items policy :
  exists o n,
    spent (mode policy) (limit policy) (texts items) o n
    /\ texts (TruncateFunctionOutputItemsWithPolicy items policy)
       = o ++ (if 0 <? n then texts [omittedItem n] else [])
    /\ filter (fun it => is_text it = false) (TruncateFunctionOutputItemsWithPolicy items policy)
       = filter (fun it => is_text it = false) items.
Proof.
  unfold TruncateFunctionOutputItemsWithPolicy.
  assert (match mode policy with ModeBytes => ByteBudget policy | ModeTokens => TokenBudget policy end
    = limit policy) as -> by (unfold ByteBudget, TokenBudget; by destruct (mode policy)).
  pose proof (truncateStep_spent (mode policy) items [] (limit policy) 0) as Hs.
  pose proof (truncateStep_others (mode policy) items [] (limit policy) 0) as Ho.
  destruct (fold_left _ items _) as [[out ?] omitted]. destruct Hs as (o & n & Eo & -> & Hs).
  simpl in Eo, Ho. exists o, n. rewrite Z.add_0_l. split; [done|].
  destruct (0 <? n); rewrite ?texts_app, ?filter_app, Eo, Ho, ?app_nil_r; done.
Qed.

End Truncation.
