(* ===== verification/NetGlob.v ===== *)
(** * internal/networkproxy/glob.go: the glob matcher

    [globMatchBytes] is an iterative matcher that backtracks to the last star
    only.  It is compared with the meaning of a glob: the pattern is read as a
    list of tokens, and a text matches when it splits accordingly. *)

From S2P Require Import Prelude GoStrings.

Module Glob.

Local Open Scope nat_scope.

Definition slash : ascii := "/".
Definition star : ascii := "*".
Definition question : ascii := "?".
Definition lbracket : ascii := "[".
Definition rbracket : ascii := "]".

(** ** Character classes *)

Definition byte_le (a b : ascii) : bool := (bval a <=? bval b)%Z.

(** The loop of [matchClass] from index [i], with the bytes left. *)
Fixpoint classLoop (l : gostring) (ch : ascii) (negate matched first : bool) (i : nat) : bool * nat :=
  match l with
  | [] => (false, 0)
  | c :: l1 =>
      if bool_decide (c = rbracket) && negb first
      then (if negate then negb matched else matched, i + 1)
      else
        match l1 with
        | dash :: hi :: l3 =>
            if bool_decide (dash = "-"%char) && negb (bool_decide (hi = rbracket))
            then classLoop l3 ch negate (matched || (byte_le c ch && byte_le ch hi)) false (i + 3)
            else classLoop l1 ch negate (matched || bool_decide (c = ch)) false (i + 1)
        | _ => classLoop l1 ch negate (matched || bool_decide (c = ch)) false (i + 1)
        end
  end.

(** Whether the class at the start of the pattern accepts [ch], and its length;
    length [0] means that there is no well-formed class. *)
Definition matchClass (pattern : gostring) (ch : ascii) : bool * nat :=
  match pattern with
  | c :: rest =>
      if decide (c = lbracket) then
        match rest with
        | n :: rest' =>
            if decide (n = "!"%char \/ n = "^"%char) then classLoop rest' ch true false true 2
            else classLoop rest ch false false true 1
        | [] => (false, 0)
        end
      else (false, 0)
  | [] => (false, 0)
  end.

(** ** The matcher *)

Record globState := mkGlob {
  pIdx : nat;
  sIdx : nat;
  starIdx : option nat;
  starMatchIdx : nat;
  starGlobAllowSep : bool
}.

(** What one round of the loop does: go on, or return. *)
Inductive round := Continue (g : globState) | Return (b : bool).

Section Matcher.
Context (pattern s : gostring) (literalSeparator : bool).

(** [for pIdx < len(pattern) && pattern[pIdx] == '*' { pIdx++ }] *)
Definition skipStars (p : nat) : nat :=
  p + length (take_while (fun c => bool_decide (c = star)) (drop p pattern)).

(** [!literalSeparator || ch != '/'] *)
Definition sepOk (ch : ascii) : bool := negb literalSeparator || negb (bool_decide (ch = slash)).

(** The switch on the pattern byte at [pIdx] against [ch]: the new pattern
    index if the byte is consumed. *)
Definition consume (p : nat) (c ch : ascii) : option nat :=
  let literally := if decide (c = ch) then Some (p + 1) else None in
  if decide (c = question) then (if sepOk ch then Some (p + 1) else None)
  else if decide (c = lbracket) then
    let '(matched, next) := matchClass (drop p pattern) ch in
    if matched then (if sepOk ch then Some (p + next) else literally)
    else if decide (0 < next) then None
    else literally
  else literally.

(** The label [backtrack]. *)
Definition backtrack (g : globState) : option round :=
  match starIdx g with
  | Some p =>
      ch ← s !! starMatchIdx g;
      if negb (starGlobAllowSep g) && bool_decide (ch = slash) then Some (Return false)
      else
        let m := starMatchIdx g + 1 in
        Some (Continue (mkGlob p m (Some p) m (starGlobAllowSep g)))
  | None => Some (Return false)
  end.

Definition globRound (g : globState) (ch : ascii) : option round :=
  match pattern !! pIdx g with
  | None => backtrack g
  | Some c =>
      if decide (c = star) then
        let p := skipStars (pIdx g) in
        Some (Continue (mkGlob p (sIdx g) (Some p) (sIdx g) (negb literalSeparator)))
      else
        match consume (pIdx g) c ch with
        | Some p => Some (Continue (mkGlob p (sIdx g + 1) (starIdx g) (starMatchIdx g) (starGlobAllowSep g)))
        | None => backtrack g
        end
  end.

Fixpoint globLoop (fuel : nat) (g : globState) : option bool :=
  match fuel with
  | 0 => None
  | S fuel =>
      match s !! sIdx g with
      | None => Some (bool_decide (skipStars (pIdx g) = length pattern))
      | Some ch =>
          match globRound g ch with
          | Some (Continue g) => globLoop fuel g
          | Some (Return b) => Some b
          | None => None
          end
      end
  end.

Definition globFuel : nat := (length s + 2) * (length pattern + 1).

Definition globMatch : option bool := globLoop globFuel (mkGlob 0 0 None 0 false).

End Matcher.

Example glob_examples :
  globMatch "*a*b" "xaaxb" false = Some true
  /\ globMatch "*a*b" "a/ab" true = Some false
  /\ globMatch "[!a-c]?" "d]" false = Some true
  /\ globMatch "[a" "[a" false = Some true
  /\ globMatch "?*.example.com" "example.com" false = Some false.
Proof. vm_compute. done. Qed.

(** ** The meaning of a glob *)

Inductive token :=
| TStar
| TOne
| TClass (negated : bool) (ranges : list (ascii * ascii))
| TByte (c : ascii).

(** The body of a class: its ranges (single bytes are ranges of one) and its
    length with the closing bracket; a bracket in first place is a member. *)
Fixpoint class_body (l : gostring) (first : bool) : option (list (ascii * ascii) * nat) :=
  match l with
  | [] => None
  | c :: l1 =>
      if bool_decide (c = rbracket) && negb first then Some ([], 1)
      else
        let single := '(rs, n) ← class_body l1 false; Some ((c, c) :: rs, S n) in
        match l1 with
        | dash :: hi :: l3 =>
            if bool_decide (dash = "-"%char) && negb (bool_decide (hi = rbracket))
            then '(rs, n) ← class_body l3 false; Some ((c, hi) :: rs, S (S (S n)))
            else single
        | _ => single
        end
  end.

(** A class after its opening bracket: negation, ranges, length. *)
Definition class_at (l : gostring) : option (bool * list (ascii * ascii) * nat) :=
  match l with
  | n :: rest =>
      if decide (n = "!"%char \/ n = "^"%char)
      then '(rs, k) ← class_body rest true; Some (true, rs, S k)
      else '(rs, k) ← class_body l true; Some (false, rs, k)
  | [] => None
  end.

(** The first token of a pattern and the pattern after it. *)
Definition next_token (c : ascii) (rest : gostring) : token * gostring :=
  if decide (c = star) then (TStar, rest)
  else if decide (c = question) then (TOne, rest)
  else if decide (c = lbracket) then
    match class_at rest with
    | Some (neg, rs, k) => (TClass neg rs, drop k rest)
    | None => (TByte c, rest)
    end
  else (TByte c, rest).

Fixpoint tokens_fuel (fuel : nat) (pattern : gostring) : list token :=
  match fuel, pattern with
  | S fuel, c :: rest => let '(t, rest') := next_token c rest in t :: tokens_fuel fuel rest'
  | _, _ => []
  end.
Definition tokens (pattern : gostring) : list token := tokens_fuel (length pattern) pattern.

Definition in_class (negated : bool) (ranges : list (ascii * ascii)) (ch : ascii) : bool :=
  xorb negated (existsb (fun '(lo, hi) => byte_le lo ch && byte_le ch hi) ranges).

(** The tokens that match exactly one byte; with a literal separator only a
    slash in the pattern matches a slash. *)
Definition accepts (sep : bool) (t : token) (ch : ascii) : Prop :=
  match t with
  | TStar => False
  | TOne => sep = true -> ch <> slash
  | TClass neg rs => in_class neg rs ch = true /\ (sep = true -> ch <> slash)
  | TByte c => c = ch
  end.

Inductive matches (sep : bool) : list token -> gostring -> Prop :=
| matches_nil : matches sep [] []
| matches_star w ts s :
    (sep = true -> slash ∉ w) -> matches sep ts s -> matches sep (TStar :: ts) (w ++ s)
| matches_one t ts ch s : accepts sep t ch -> matches sep ts s -> matches sep (t :: ts) (ch :: s).

(** ** Classes *)

Lemma byte_le_antisym c ch : byte_le c ch && byte_le ch c = bool_decide (c = ch).
Proof.
  unfold byte_le. apply eq_bool_prop_intro. rewrite bool_decide_spec, andb_True, !Is_true_true, !Z.leb_le.
  split; [|by intros ->]. intros [H1 H2]. unfold bval in *.
  rewrite <- (ascii_N_embedding c), <- (ascii_N_embedding ch). f_equal. lia.
Qed.

Lemma classLoop_body ch neg n : forall l m first i, length l <= n ->
  classLoop l ch neg m first i
  = match class_body l first with
    | Some (rs, k) =>
        (xorb neg (m || existsb (fun '(lo, hi) => byte_le lo ch && byte_le ch hi) rs), i + k)
    | None => (false, 0)
    end.
Proof.
  induction n as [|n IH]; intros [|c l1] m first i Hn; simpl in Hn; [done|lia|done|].
  cbn [classLoop class_body]. destruct (bool_decide (c = rbracket) && negb first) eqn:E.
  { f_equal. rewrite orb_false_r. by destruct neg, m. }
  assert (classLoop l1 ch neg (m || bool_decide (c = ch)) false (i + 1)
    = match ('(rs, k) ← class_body l1 false; Some ((c, c) :: rs, S k)) with
      | Some (rs, k) =>
          (xorb neg (m || existsb (fun '(lo, hi) => byte_le lo ch && byte_le ch hi) rs), i + k)
      | None => (false, 0)
      end) as Hsingle.
  { rewrite IH by lia. destruct (class_body l1 false) as [[rs k]|]; [|done]. simpl.
    rewrite byte_le_antisym, orb_assoc. f_equal. lia. }
  destruct l1 as [|dash [|hi l3]]; [exact Hsingle..|].
  destruct (bool_decide (dash = "-"%char) && negb (bool_decide (hi = rbracket))); [|exact Hsingle].
  rewrite IH by (simpl in Hn; lia). destruct (class_body l3 false) as [[rs k]|]; [|done]. simpl.
  rewrite orb_assoc. f_equal. lia.
Qed.

Lemma matchClass_at rest ch :
  matchClass (lbracket :: rest) ch
  = match class_at rest with
    | Some (neg, rs, k) => (in_class neg rs ch, S k)
    | None => (false, 0)
    end.
Proof.
  unfold matchClass, class_at. rewrite decide_True by done. destruct rest as [|n rest]; [done|].
  case_decide; rewrite (classLoop_body ch _ (S (length rest))) by (simpl; lia);
    [destruct (class_body rest true) as [[rs k]|]|destruct (class_body (n :: rest) true) as [[rs k]|]]; done.
Qed.

Lemma class_body_length n : forall l first rs k, length l <= n ->
  class_body l first = Some (rs, k) -> k <= length l.
Proof.
  induction n as [|n IH]; intros [|c l1] first rs k Hn E; simpl in Hn; [done|lia|done|].
  cbn [class_body] in E. destruct (bool_decide (c = rbracket) && negb first).
  { simplify_eq. simpl. lia. }
  assert (forall rs k, ('(rs, k) ← class_body l1 false; Some ((c, c) :: rs, S k)) = Some (rs, k) ->
    k <= length (c :: l1)) as Hsingle.
  { intros rs' k' E'. destruct (class_body l1 false) as [[rs1 k1]|] eqn:E1; [|done].
    apply IH in E1; [|lia]. simpl in E'. simplify_eq. simpl. lia. }
  destruct l1 as [|dash [|hi l3]]; [by eapply Hsingle..|].
  destruct (bool_decide (dash = "-"%char) && negb (bool_decide (hi = rbracket))); [|by eapply Hsingle].
  destruct (class_body l3 false) as [[rs1 k1]|] eqn:E1; [|done]. apply IH in E1; [|simpl in Hn; lia].
  simpl in E. simplify_eq. simpl. lia.
Qed.

Lemma class_at_length rest neg rs k : class_at rest = Some (neg, rs, k) -> k <= length rest.
Proof.
  unfold class_at. destruct rest as [|n rest]; [done|].
  case_decide; [destruct (class_body rest true) as [[rs1 k1]|] eqn:E|
                destruct (class_body (n :: rest) true) as [[rs1 k1]|] eqn:E]; try done;
    intros [= <- <- <-]; eapply class_body_length in E; try reflexivity; simpl in *; lia.
Qed.

(** ** Tokens *)

Lemma next_token_length c rest : length (next_token c rest).2 <= length rest.
Proof.
  unfold next_token. repeat case_decide; simpl; try lia.
  destruct (class_at rest) as [[[neg rs] k]|]; simpl; [rewrite length_drop|]; lia.
Qed.

Lemma tokens_fuel_enough n m pattern :
  length pattern <= n -> length pattern <= m -> tokens_fuel n pattern = tokens_fuel m pattern.
Proof.
  revert m pattern. induction n as [|n IH]; intros [|m] [|c rest] Hn Hm; simpl in *; try done; try lia.
  pose proof (next_token_length c rest). destruct (next_token c rest) as [t rest']. simpl in *.
  f_equal. apply IH; lia.
Qed.

Lemma tokens_cons c rest :
  tokens (c :: rest) = (next_token c rest).1 :: tokens (next_token c rest).2.
Proof.
  unfold tokens. cbn [length tokens_fuel]. pose proof (next_token_length c rest).
  destruct (next_token c rest) as [t rest']. simpl in *. f_equal. by apply tokens_fuel_enough.
Qed.

Lemma next_token_star c rest : (next_token c rest).1 = TStar <-> c = star.
Proof.
  unfold next_token. case_decide; [done|]. repeat case_decide; simpl; [done| |done].
  destruct (class_at rest) as [[[neg rs] k]|]; done.
Qed.

(** ** Matching *)

Lemma matches_nil_inv sep s : matches sep [] s <-> s = [].
Proof. split; [by inversion 1|intros ->; constructor]. Qed.

Lemma matches_star_inv sep ts s :
  matches sep (TStar :: ts) s
  <-> exists w s', s = w ++ s' /\ (sep = true -> slash ∉ w) /\ matches sep ts s'.
Proof.
  split; [|intros (w & s' & -> & Hw & Hm); by constructor]. inversion 1 as [|w ts' s' Hw Hm|]; simplify_eq.
  - by exists w, s'.
  - done.
Qed.

Lemma matches_one_inv sep t ts s :
  t <> TStar ->
  matches sep (t :: ts) s <-> exists ch s', s = ch :: s' /\ accepts sep t ch /\ matches sep ts s'.
Proof.
  intros Ht. split; [|intros (ch & s' & -> & Ha & Hm); by constructor].
  inversion 1; simplify_eq; eauto.
Qed.

Lemma matches_star_star sep ts s : matches sep (TStar :: TStar :: ts) s <-> matches sep (TStar :: ts) s.
Proof.
  rewrite !matches_star_inv. split.
  - intros (w & s1 & -> & Hw & (w' & s2 & -> & Hw' & Hm)%matches_star_inv).
    exists (w ++ w'), s2. rewrite <- app_assoc. split_and!; [done| |done].
    intros Hs. rewrite elem_of_app. naive_solver.
  - intros (w & s1 & -> & Hw & Hm). exists [], (w ++ s1). split_and!; [done|set_solver|].
    apply matches_star_inv. eauto.
Qed.

Lemma accepts_not_star sep t ch : accepts sep t ch -> t <> TStar.
Proof. by intros ? ->. Qed.

(** Tokens without a star match a text of the same length, byte by byte. *)
Lemma matches_pre sep pre ts w s :
  Forall2 (accepts sep) pre w -> matches sep (pre ++ ts) (w ++ s) <-> matches sep ts s.
Proof.
  induction 1 as [|t ch pre w Ha _ IH]; [done|]. cbn [app].
  rewrite matches_one_inv by (by eapply accepts_not_star). rewrite <- IH. naive_solver.
Qed.

Lemma matches_pre_inv sep pre ts w s :
  Forall2 (accepts sep) pre w ->
  matches sep (pre ++ ts) s ->
  exists v s', s = v ++ s' /\ Forall2 (accepts sep) pre v /\ matches sep ts s'.
Proof.
  intros Hpre. revert s. induction Hpre as [|t ch pre w Ha _ IH]; intros s Hm; [by exists [], s|].
  cbn [app] in Hm. apply matches_one_inv in Hm as (c & s' & -> & Hc & (v & s2 & -> & Hv & Hm)%IH);
    [|by eapply accepts_not_star].
  exists (c :: v), s2. split_and!; [done|by constructor|done].
Qed.

(** Only a slash in the pattern matches a slash, so what matches one place
    where there is a slash at an offset has a slash there everywhere. *)
Lemma accepts_slash t ch : accepts true t slash -> accepts true t ch -> ch = slash.
Proof. destruct t; simpl; [done|naive_solver|naive_solver|congruence]. Qed.

(** Matching starless tokens again further right leaves no slash in between. *)
Lemma shifted_no_slash pre u v w z z' :
  u <> [] -> slash ∉ u -> u ++ v ++ z = w ++ z' ->
  Forall2 (accepts true) pre v -> Forall2 (accepts true) pre w -> slash ∉ v.
Proof.
  intros Hu Hs E Hv Hw [i Hi]%list_elem_of_lookup.
  assert (length u <> 0) as Hlen by (by destruct u).
  pose proof (Forall2_length _ _ _ Hv) as Lv. pose proof (Forall2_length _ _ _ Hw) as Lw.
  revert Hi. induction i as [i IH] using lt_wf_ind. intros Hi.
  destruct (Forall2_lookup_r _ _ _ _ _ Hv Hi) as (t & Ht & Ha).
  destruct (Forall2_lookup_l _ _ _ _ _ Hw Ht) as (c & Hc & Hac).
  apply (accepts_slash t c Ha) in Hac as ->.
  assert ((u ++ v ++ z) !! i = Some slash) as Hx.
  { rewrite E. by apply lookup_app_l_Some. }
  destruct (decide (i < length u)) as [Hlt|Hge].
  - rewrite lookup_app_l in Hx by done. apply Hs. by eapply list_elem_of_lookup_2.
  - rewrite lookup_app_r in Hx by lia.
    rewrite lookup_app_l in Hx by (apply lookup_lt_Some in Hi; lia).
    by apply (IH (i - length u)); [lia|].
Qed.

(** The leftmost place of a starless stretch after a star is enough when
    another star follows. *)
Lemma matches_leftmost sep pre w ts s :
  Forall2 (accepts sep) pre w ->
  matches sep (TStar :: pre ++ TStar :: ts) (w ++ s) <-> matches sep (TStar :: ts) s.
Proof.
  intros Hpre. split.
  - intros (u & s1 & E & Hu & Hm)%matches_star_inv.
    destruct (matches_pre_inv _ _ _ _ _ Hpre Hm) as (v & s2 & -> & Hv & Hm2).
    apply matches_star_inv in Hm2 as (x & y & -> & Hx & Hy).
    pose proof (Forall2_length _ _ _ Hv). pose proof (Forall2_length _ _ _ Hpre).
    assert (s = drop (length w) (u ++ v) ++ x ++ y) as ->.
    { rewrite <- (drop_app_length w s), E, app_assoc, drop_app_le; [done|]. rewrite length_app. lia. }
    apply matches_star_inv. exists (drop (length w) (u ++ v) ++ x), y. rewrite <- app_assoc.
    split_and!; [done| |done]. intros ->. rewrite elem_of_app. intros [Hin|Hin]; [|by apply Hx].
    destruct u as [|c u].
    { cbn [app] in Hin. rewrite drop_ge in Hin by lia. by apply elem_of_nil in Hin. }
    apply elem_of_list_drop in Hin || apply (subseteq_drop (length w)) in Hin.
    apply elem_of_app in Hin as [Hin|Hin]; [by apply Hu|].
    eapply (shifted_no_slash pre (c :: u) v w (x ++ y)); try done. by apply Hu.
  - intros Hm. apply matches_star_inv. exists [], (w ++ s). split_and!; [done|set_solver|].
    by apply matches_pre.
Qed.

(** ** The loop *)

Section Loop.
Context (pattern s : gostring) (sep : bool).

Notation toks i := (tokens (drop i pattern)).
Notation ts0 := (tokens pattern).

Lemma toks_at p c : pattern !! p = Some c ->
  toks p = (next_token c (drop (S p) pattern)).1 :: tokens (next_token c (drop (S p) pattern)).2.
Proof. intros Hp. by rewrite (drop_S _ _ _ Hp), tokens_cons. Qed.

Lemma sepOk_spec ch : sepOk sep ch = true <-> (sep = true -> ch <> slash).
Proof.
  unfold sepOk. rewrite orb_true_iff, !negb_true_iff, bool_decide_eq_false. destruct sep; naive_solver.
Qed.

Lemma consume_spec p c ch :
  pattern !! p = Some c -> c <> star ->
  match consume pattern sep p c ch with
  | Some p' => p < p' <= length pattern /\ exists t, toks p = t :: toks p' /\ accepts sep t ch
  | None => exists t rest, toks p = t :: rest /\ t <> TStar /\ ~ accepts sep t ch
  end.
Proof.
  intros Hp Hc. rewrite (toks_at p c Hp). pose proof (lookup_lt_Some _ _ _ Hp) as Hlt.
  unfold consume, next_token. rewrite (decide_False (P := c = star)), !Nat.add_1_r by done. case_decide as Hqm.
  { destruct (sepOk sep ch) eqn:Es.
    - split; [lia|]. exists TOne. split; [done|]. exact (proj1 (sepOk_spec ch) Es).
    - exists TOne, (toks (S p)). split_and!; [done|done|]. simpl. rewrite <- sepOk_spec, Es. done. }
  case_decide as Hb.
  - subst c. rewrite (drop_S _ _ _ Hp), matchClass_at.
    destruct (class_at (drop (S p) pattern)) as [[[neg rs] k]|] eqn:Ecl; cbn [fst snd].
    + pose proof (class_at_length _ _ _ _ Ecl) as Hk. rewrite length_drop in Hk.
      destruct (in_class neg rs ch) eqn:Ein.
      * destruct (sepOk sep ch) eqn:Es.
        -- split; [lia|]. exists (TClass neg rs). rewrite drop_drop.
           replace (S p + k) with (p + S k) by lia. split; [done|]. split; [done|]. exact (proj1 (sepOk_spec ch) Es).
        -- case_decide as Hch.
           { exfalso. subst ch. destruct sep; done. }
           eexists _, _. split_and!; [reflexivity|done|]. simpl. intros [_ Hs%sepOk_spec]. congruence.
      * rewrite decide_True by lia. eexists _, _. split_and!; [reflexivity|done|].
        simpl. rewrite Ein. by intros [].
    + rewrite decide_False by lia. case_decide as Hch.
      * split; [lia|]. by exists (TByte lbracket).
      * by eexists _, _.
  - case_decide as Hch.
    + split; [lia|]. by exists (TByte c).
    + by eexists _, _.
Qed.

Lemma skipStars_step p : pattern !! p = Some star -> skipStars pattern p = skipStars pattern (S p).
Proof.
  intros Hp. unfold skipStars. rewrite (drop_S _ _ _ Hp). cbn [take_while].
  rewrite bool_decide_true by done. cbn [length]. lia.
Qed.

Lemma skipStars_stop p : pattern !! p <> Some star -> skipStars pattern p = p.
Proof.
  intros Hp. unfold skipStars. destruct (drop p pattern) as [|c l] eqn:E; cbn [take_while length]; [lia|].
  rewrite bool_decide_false; [simpl; lia|]. intros ->. apply Hp.
  rewrite <- (Nat.add_0_r p), <- lookup_drop, E. done.
Qed.

Lemma toks_star p : pattern !! p = Some star -> toks p = TStar :: toks (S p).
Proof. intros Hp. rewrite (toks_at p star Hp). done. Qed.

(** Stars in a row are one star. *)
Lemma skipStars_spec p : pattern !! p = Some star ->
  p < skipStars pattern p <= length pattern
  /\ forall t, matches sep (toks p) t <-> matches sep (TStar :: toks (skipStars pattern p)) t.
Proof.
  remember (length pattern - p) as n eqn:En. revert p En. induction n as [|n IH]; intros p En Hp;
    pose proof (lookup_lt_Some _ _ _ Hp) as Hlt; [lia|].
  rewrite (skipStars_step p Hp), (toks_star p Hp). destruct (decide (pattern !! S p = Some star)) as [Hs|Hs].
  - destruct (IH (S p)) as [Hr Hm]; [lia|done|]. split; [lia|]. intros t.
    rewrite (toks_star _ Hs), matches_star_star, <- (toks_star _ Hs). apply Hm.
  - rewrite skipStars_stop by done. split; [lia|done].
Qed.

(** At the end of the text only stars may be left. *)
Lemma skipStars_end p : p <= length pattern ->
  skipStars pattern p = length pattern <-> matches sep (toks p) [].
Proof.
  remember (length pattern - p) as n eqn:En. revert p En. induction n as [|n IH]; intros p En Hp.
  - assert (p = length pattern) as -> by lia. rewrite skipStars_stop by (by rewrite lookup_ge_None_2).
    rewrite drop_all. split; [constructor|done].
  - destruct (lookup_lt_is_Some_2 pattern p) as [c Hc]; [lia|]. destruct (decide (c = star)) as [->|Hs].
    + rewrite skipStars_step, IH, (toks_star p) by (done || lia). rewrite matches_star_inv. split.
      * intros Hm. exists [], []. split_and!; [done|set_solver|done].
      * by intros (w & s' & [-> ->]%eq_sym%app_eq_nil & _ & Hm).
    + rewrite skipStars_stop by congruence. split; [lia|]. rewrite (toks_at p c Hc). intros Hm.
      apply matches_one_inv in Hm as (? & ? & ? & _); [done|]. by rewrite next_token_star.
Qed.

(** The loop invariant.  Without a star the tokens read so far match the text
    read so far.  With one, matching the whole text comes down to matching
    from the last star on, and what was read since then fits where it was put. *)
Definition loop_inv (g : globState) : Prop :=
  pIdx g <= length pattern /\ sIdx g <= length s
  /\ match starIdx g with
     | None => exists pre, ts0 = pre ++ toks (pIdx g) /\ Forall2 (accepts sep) pre (take (sIdx g) s)
     | Some p =>
         p <= length pattern /\ starMatchIdx g <= sIdx g /\ starGlobAllowSep g = negb sep
         /\ (matches sep ts0 s <-> matches sep (TStar :: toks p) (drop (starMatchIdx g) s))
         /\ exists pre, toks p = pre ++ toks (pIdx g)
              /\ Forall2 (accepts sep) pre (take (sIdx g - starMatchIdx g) (drop (starMatchIdx g) s))
     end.

Definition loop_measure (g : globState) : nat :=
  (length s + 1 - match starIdx g with Some _ => S (starMatchIdx g) | None => 0 end)
    * (length pattern + 1)
  + (length pattern - pIdx g).

(** The text from the last star on, split at the current position. *)
Lemma drop_split m i : m <= i -> drop m s = take (i - m) (drop m s) ++ drop i s.
Proof.
  intros. rewrite <- (take_drop (i - m) (drop m s)) at 1. rewrite drop_drop. do 2 f_equal. lia.
Qed.

(** When the current token is stuck, so is the current attempt. *)
Lemma backtrack_inv g ch :
  loop_inv g -> s !! sIdx g = Some ch -> ~ matches sep (toks (pIdx g)) (drop (sIdx g) s) ->
  exists r, backtrack s g = Some r
    /\ match r with
       | Continue g' => loop_inv g' /\ loop_measure g' < loop_measure g
       | Return b => b = false /\ ~ matches sep ts0 s
       end.
Proof.
  intros (Hp & Hs & Hinv) Hch Hno. pose proof (lookup_lt_Some _ _ _ Hch) as Hlt.
  unfold backtrack, loop_measure. destruct g as [p i st m al]. simpl in *. destruct st as [q|].
  - destruct Hinv as (Hq & Hm & -> & Hiff & pre & Epre & Hpre).
    destruct (lookup_lt_is_Some_2 s m) as [c Hc]; [lia|]. rewrite Hc. cbn [mbind option_bind].
    assert (forall w s', drop m s = w ++ s' -> (sep = true -> slash ∉ w) -> matches sep (toks q) s' ->
      exists w', w = c :: w') as Hw.
    { intros [|c' w] s' E _ Hmq; [|rewrite (drop_S _ _ _ Hc) in E; injection E as <- _; eauto].
      exfalso. apply Hno. cbn [app] in E. rewrite <- E, Epre, (drop_split m i) in Hmq by lia.
      by apply matches_pre in Hmq. }
    rewrite (drop_S _ _ _ Hc) in Hiff.
    destruct (negb (negb sep) && bool_decide (c = slash)) eqn:Eb.
    + eexists. split; [done|]. split; [done|]. breflect. rewrite Hiff, matches_star_inv.
      intros (w & s' & E & Hws & Hmq). destruct (Hw w s') as [w' ->]; [by rewrite (drop_S _ _ _ Hc)|done|done|].
      apply Hws; [by destruct sep|]. subst. left.
    + eexists. split; [done|]. simpl. split.
      * unfold loop_inv. simpl. split_and!; [done|lia|done|lia|done| |].
        -- rewrite Hiff, Nat.add_1_r, !matches_star_inv. split.
           ++ intros (w & s' & E & Hws & Hmq).
              destruct (Hw w s') as [w' ->]; [by rewrite (drop_S _ _ _ Hc)|done|done|].
              injection E as E. exists w', s'. split_and!; [done|set_solver|done].
           ++ intros (w & s' & -> & Hws & Hmq). exists (c :: w), s'. split_and!; [done| |done].
              intros ->. simpl in Eb. breflect. apply not_elem_of_cons. auto.
        -- exists []. split; [done|]. by rewrite Nat.sub_diag.
      * destruct (Nat.le_exists_sub (S m) (length s)) as (d & Hd & _); [lia|].
        replace (length s + 1 - S (m + 1)) with d by lia. replace (length s + 1 - S m) with (S d) by lia. nia.
  - eexists. split; [done|]. split; [done|]. destruct Hinv as (pre & Epre & Hpre).
    rewrite Epre, <- (take_drop i s). intros Hm. apply Hno. by apply matches_pre in Hm.
Qed.

Lemma globRound_inv g ch :
  loop_inv g -> s !! sIdx g = Some ch ->
  exists r, globRound pattern s sep g ch = Some r
    /\ match r with
       | Continue g' => loop_inv g' /\ loop_measure g' < loop_measure g
       | Return b => b = false /\ ~ matches sep ts0 s
       end.
Proof.
  intros Hg Hch. pose proof (lookup_lt_Some _ _ _ Hch) as Hlt. unfold globRound.
  destruct (pattern !! pIdx g) as [c|] eqn:Hp.
  2: { apply backtrack_inv with ch; [done..|]. rewrite drop_ge by (by apply lookup_ge_None_1).
       rewrite (drop_S _ _ _ Hch). by rewrite matches_nil_inv. }
  pose proof (lookup_lt_Some _ _ _ Hp) as Hplt. case_decide as Hc.
  - subst c. destruct (skipStars_spec _ Hp) as [Hskip Hm]. eexists. split; [done|].
    destruct g as [p i st m al]. unfold loop_inv, loop_measure in *. simpl in *.
    destruct Hg as (_ & Hi & Hinv). split.
    + split_and!; [lia|lia|lia|lia|done| |exists []; rewrite Nat.sub_diag; done].
      rewrite <- Hm. destruct st as [q|].
      * destruct Hinv as (Hq & Hmi & _ & -> & pre & Epre & Hpre). rewrite (drop_split m i), Epre by lia.
        rewrite (toks_star _ Hp). by apply matches_leftmost.
      * destruct Hinv as (pre & Epre & Hpre). rewrite Epre. rewrite <- (take_drop i s) at 1.
        by apply matches_pre.
    + assert (forall x y, x <= y -> x * (length pattern + 1) <= y * (length pattern + 1)) as Hmul
        by (intros; apply Nat.mul_le_mono_r; lia).
      destruct st as [q|].
      * destruct Hinv as (_ & Hmi & _). specialize (Hmul (length s + 1 - S i) (length s + 1 - S m)). lia.
      * specialize (Hmul (length s + 1 - S i) (length s + 1 - 0)). lia.
  - pose proof (consume_spec _ _ ch Hp Hc) as Hcon. destruct (consume pattern sep (pIdx g) c ch) as [p'|].
    + destruct Hcon as (Hp' & t & Et & Ha). eexists. split; [done|].
      destruct g as [p i st m al]. unfold loop_inv, loop_measure in *. simpl in *.
      destruct Hg as (_ & Hi & Hinv). split; [|lia]. split_and!; [lia|lia|].
      destruct st as [q|].
      * destruct Hinv as (Hq & Hmi & -> & Hiff & pre & Epre & Hpre). split_and!; [lia|lia|done|done|].
        exists (pre ++ [t]). split; [by rewrite Epre, Et, <- app_assoc|].
        replace (i + 1 - m) with (S (i - m)) by lia.
        rewrite (take_S_r _ _ ch) by (rewrite lookup_drop; by replace (m + (i - m)) with i by lia).
        by apply Forall2_app; [|constructor].
      * destruct Hinv as (pre & Epre & Hpre). exists (pre ++ [t]). rewrite Epre, Et, <- app_assoc.
        split; [done|]. rewrite Nat.add_1_r, (take_S_r _ _ ch) by done. by apply Forall2_app; [|constructor].
    + destruct Hcon as (t & rest & Et & Ht & Hna). apply backtrack_inv with ch; [done..|].
      rewrite Et, (drop_S _ _ _ Hch), matches_one_inv by done. by intros (? & ? & [= <- <-] & ? & _).
Qed.

Lemma globLoop_spec fuel g :
  loop_inv g -> loop_measure g < fuel ->
  exists b, globLoop pattern s sep fuel g = Some b /\ (b = true <-> matches sep ts0 s).
Proof.
  revert g. induction fuel as [|fuel IH]; intros g Hg Hf; [lia|]. cbn [globLoop].
  destruct (s !! sIdx g) as [ch|] eqn:Hch.
  - destruct (globRound_inv g ch Hg Hch) as ([g'|b] & -> & Hr).
    + destruct Hr as [Hg' Hlt]. apply IH; [done|lia].
    + destruct Hr as [-> Hno]. exists false. split; [done|]. split; [done|by intros ?%Hno].
  - eexists. split; [done|]. rewrite bool_decide_eq_true, skipStars_end by apply Hg.
    apply lookup_ge_None_1 in Hch. destruct g as [p i st m al]. unfold loop_inv in Hg. simpl in *.
    destruct Hg as (Hp & Hi & Hinv). destruct st as [q|].
    + destruct Hinv as (Hq & Hmi & _ & -> & pre & Epre & Hpre). rewrite (drop_split m i), Epre by lia.
      rewrite (drop_ge s i) by lia. rewrite matches_star_inv. split.
      * intros Hm. exists [], (take (i - m) (drop m s) ++ []).
        split_and!; [done|set_solver|]. by apply matches_pre.
      * intros (u & s1 & E & _ & Hm). destruct (matches_pre_inv _ _ _ _ _ Hpre Hm) as (v & s2 & -> & Hv & Hm2).
        pose proof (Forall2_length _ _ _ Hv) as L1. pose proof (Forall2_length _ _ _ Hpre) as L2.
        assert (s2 = []) as ->; [|done]. apply (f_equal length) in E. rewrite !length_app in E. simpl in E.
        apply length_zero_iff_nil. lia.
    + destruct Hinv as (pre & Epre & Hpre). rewrite Epre. rewrite take_ge in Hpre by lia.
      rewrite <- (app_nil_r s) at 1. by rewrite (matches_pre _ _ _ _ _ Hpre).
Qed.

End Loop.

Lemma globMatch_run pattern s sep :
  exists b, globMatch pattern s sep = Some b /\ (b = true <-> matches sep (tokens pattern) s).
Proof.
  apply globLoop_spec.
  - unfold loop_inv. simpl. split_and!; [lia|lia|]. exists []. by rewrite drop_0.
  - unfold loop_measure, globFuel. simpl. lia.
Qed.

(** The result as the callers use it. *)
Definition globMatches (pattern s : gostring) (sep : bool) : bool := bool_decide (globMatch pattern s sep = Some true).

Lemma globMatches_spec pattern s sep : globMatches pattern s sep = true <-> matches sep (tokens pattern) s.
Proof.
  unfold globMatches. rewrite bool_decide_eq_true. destruct (globMatch_run pattern s sep) as (b & -> & Hb).
  rewrite <- Hb. split; [by intros [= ->]|by intros ->].
Qed.

(** A byte that stands for itself. *)
Definition plain_byte (c : ascii) : Prop := c <> star /\ c <> question /\ c <> lbracket.

Lemma tokens_plain d : Forall plain_byte d -> tokens d = TByte <$> d.
Proof.
  induction 1 as [|c d (H1 & H2 & H3) _ IH]; [done|]. rewrite tokens_cons. unfold next_token.
  rewrite !decide_False by done. simpl. by f_equal.
Qed.

Lemma matches_plain sep d s : matches sep (TByte <$> d) s <-> s = d.
Proof.
  revert s. induction d as [|c d IH]; intros s; simpl; [apply matches_nil_inv|].
  rewrite matches_one_inv by done. split.
  - intros (ch & s' & -> & Ha & ->%IH). by simpl in Ha; subst.
  - intros ->. exists c, d. split_and!; [done|done|]. by apply IH.
Qed.

(** C39.  The matcher always returns, on every pattern, malformed classes
    included, and returns true exactly when the text splits as the pattern's
    tokens say: going back to the last star only is enough, with and without
    a literal separator. *)
Theorem globMatch_correct pattern s sep :
  exists b, globMatch pattern s sep = Some b /\ (b = true <-> matches sep (tokens pattern) s).
Proof. apply globMatch_run. Qed.

End Glob.
