(* ===== verification/NetAddr.v ===== *)
(** * internal/networkproxy/host.go: hosts and addresses

    The normal form of a host and the classification of addresses that are not
    publicly routable.  The part of [net/netip] it relies on is modelled:
    [ParseAddr] on both families with zones, and the predicates on addresses. *)

From S2P Require Import Prelude GoStrings GoUtf8 GoText.

Module Host.

Local Open Scope Z_scope.

(** ** [netip.Addr]

    An IPv4 address is its four bytes; an IPv6 address its eight 16-bit groups
    and a zone, empty for none. *)
Inductive Addr :=
| IPv4 (a b c d : Z)
| IPv6 (groups : list Z) (zone : gostring).

#[export] Instance Addr_eq_dec : EqDecision Addr.
Proof. solve_decision. Defined.

Definition is_digit (c : ascii) : bool := in_range 48 57 (bval c).

(** [parseIPv4Fields]: the bytes left, the octets read, the value and the
    number of digits of the current octet, and whether the byte before was a
    dot or there is none. *)
Fixpoint parseIPv4Fields (s : gostring) (fields : list Z) (val : Z) (digLen : nat) (afterDot : bool)
    : option (list Z) :=
  match s with
  | [] => if (length fields <? 3)%nat then None else Some (fields ++ [val])
  | c :: s' =>
      if is_digit c then
        if (digLen =? 1)%nat && (val =? 0) then None
        else
          let val := val * 10 + (bval c - 48) in
          if 255 <? val then None else parseIPv4Fields s' fields val (S digLen) false
      else if decide (c = "."%char) then
        if afterDot || bool_decide (s' = []) then None
        else if (length fields =? 3)%nat then None
        else parseIPv4Fields s' (fields ++ [val]) 0 0 true
      else None
  end.

Definition parseIPv4 (s : gostring) : option Addr :=
  match parseIPv4Fields s [] 0 0 true with
  | Some [a; b; c; d] => Some (IPv4 a b c d)
  | _ => None
  end.

Definition hex_value (c : ascii) : option Z :=
  let z := bval c in
  if in_range 48 57 z then Some (z - 48)
  else if in_range 97 102 z then Some (z - 87)
  else if in_range 65 70 z then Some (z - 55)
  else None.

(** The hexadecimal number at the start of [s]: its value, its digits and the
    bytes after it; more than four digits are an error. *)
Fixpoint hexGroup (s : gostring) (acc : Z) (off : nat) : option (Z * nat * gostring) :=
  match s with
  | c :: s' =>
      match hex_value c with
      | Some v => if (3 <? off)%nat then None else hexGroup s' (acc * 16 + v) (S off)
      | None => Some (acc, off, s)
      end
  | [] => Some (acc, off, [])
  end.

(** The loop of [parseIPv6]: [fuel] groups are still missing.  The groups read,
    the position of the ellipsis, and the text left. *)
Fixpoint parseGroups (fuel : nat) (s : gostring) (ip : list Z) (ellipsis : option nat)
    : option (list Z * option nat * gostring) :=
  match fuel with
  | O => Some (ip, ellipsis, s)
  | S fuel =>
      '(acc, off, rest) ← hexGroup s 0 0;
      if (off =? 0)%nat then None
      else
        match rest with
        | [] => Some (ip ++ [acc], ellipsis, [])
        | c :: rest' =>
            if decide (c = "."%char) then
              if bool_decide (ellipsis = None) && negb (length ip =? 6)%nat then None
              else if (6 <? length ip)%nat then None
              else match parseIPv4Fields s [] 0 0 true with
                   | Some [a; b; c; d] => Some (ip ++ [a * 256 + b; c * 256 + d], ellipsis, [])
                   | _ => None
                   end
            else if decide (c = ":"%char) then
              match rest' with
              | [] => None
              | c2 :: rest'' =>
                  let ip := ip ++ [acc] in
                  if decide (c2 = ":"%char) then
                    if bool_decide (ellipsis = None) then
                      if decide (rest'' = []) then Some (ip, Some (length ip), [])
                      else parseGroups fuel rest'' ip (Some (length ip))
                    else None
                  else parseGroups fuel rest' ip ellipsis
              end
            else None
        end
  end.

(** After the zone and a leading [::]: the loop, then the expansion of the
    ellipsis. *)
Definition finishIPv6 (zone s : gostring) (ellipsis : option nat) : option Addr :=
  if bool_decide (ellipsis = Some 0%nat) && bool_decide (s = []) then Some (IPv6 (replicate 8 0) zone)
  else
    '(ip, ellipsis, rest) ← parseGroups 8 s [] ellipsis;
    if decide (rest <> []) then None
    else if (length ip <? 8)%nat then
      match ellipsis with
      | None => None
      | Some e => Some (IPv6 (take e ip ++ replicate (8 - length ip) 0 ++ drop e ip) zone)
      end
    else match ellipsis with Some _ => None | None => Some (IPv6 ip zone) end.

Definition parseIPv6 (input : gostring) : option Addr :=
  '(s, zone) ← match cut_byte "%" input with
               | Some (s, zone) => if decide (zone = []) then None else Some (s, zone)
               | None => Some (input, [])
               end;
  match cut_prefix s "::" with
  | Some s => finishIPv6 zone s (Some 0%nat)
  | None => finishIPv6 zone s None
  end.

(** [netip.ParseAddr]: the first of [.], [:] and [%] decides. *)
Definition ParseAddr (s : gostring) : option Addr :=
  let special c := bool_decide (c = "."%char \/ c = ":"%char \/ c = "%"%char) in
  match drop (length (take_while (fun c => negb (special c)) s)) s with
  | c :: _ => if decide (c = "."%char) then parseIPv4 s
              else if decide (c = ":"%char) then parseIPv6 s else None
  | [] => None
  end.

Definition Zone (a : Addr) : gostring := match a with IPv4 _ _ _ _ => [] | IPv6 _ zone => zone end.

Definition Is4 (a : Addr) : bool := match a with IPv4 _ _ _ _ => true | _ => false end.

(** [Is4In6] and [Unmap]: the IPv4-mapped addresses [::ffff:a.b.c.d]. *)
Definition mapped4 (a : Addr) : option Addr :=
  match a with
  | IPv6 [0; 0; 0; 0; 0; f; x; y] _ =>
      if f =? 65535 then Some (IPv4 (x / 256) (x mod 256) (y / 256) (y mod 256)) else None
  | _ => None
  end.
Definition Is4In6 (a : Addr) : bool := match mapped4 a with Some _ => true | None => false end.
Definition Unmap (a : Addr) : Addr := default a (mapped4 a).

(** The first group of an IPv6 address. *)
Definition group0 (groups : list Z) : Z := match groups with g :: _ => g | [] => 0 end.

Definition IsLoopback (a : Addr) : bool :=
  match Unmap a with
  | IPv4 a _ _ _ => a =? 127
  | IPv6 groups _ => bool_decide (groups = [0; 0; 0; 0; 0; 0; 0; 1])
  end.
Definition IsPrivate (a : Addr) : bool :=
  match Unmap a with
  | IPv4 a b _ _ => (a =? 10) || ((a =? 172) && (Z.land b 240 =? 16)) || ((a =? 192) && (b =? 168))
  | IPv6 groups _ => Z.land (Z.shiftr (group0 groups) 8) 254 =? 252
  end.
Definition IsLinkLocalUnicast (a : Addr) : bool :=
  match Unmap a with
  | IPv4 a b _ _ => (a =? 169) && (b =? 254)
  | IPv6 groups _ => Z.land (group0 groups) 65472 =? 65152
  end.
Definition IsLinkLocalMulticast (a : Addr) : bool :=
  match Unmap a with
  | IPv4 a b c _ => (a =? 224) && (b =? 0) && (c =? 0)
  | IPv6 groups _ => Z.land (group0 groups) 65295 =? 65282
  end.
Definition IsMulticast (a : Addr) : bool :=
  match Unmap a with
  | IPv4 a _ _ _ => Z.land a 240 =? 224
  | IPv6 groups _ => Z.shiftr (group0 groups) 8 =? 255
  end.
Definition IsUnspecified (a : Addr) : bool :=
  bool_decide (a = IPv4 0 0 0 0) || bool_decide (a = IPv6 (replicate 8 0) []).

(** ** The classification *)

Definition toU32 (b : list Z) : Z :=
  fold_left (fun acc x => Z.lor (Z.shiftl acc 8) x) b 0.

Definition ipv4InCIDR (ip base : list Z) (prefix : Z) : bool :=
  let mask := if prefix =? 0 then 0 else Z.land (Z.shiftl (2 ^ 32 - 1) (32 - prefix)) (2 ^ 32 - 1) in
  Z.land (toU32 ip) mask =? Z.land (toU32 base) mask.

Definition As4 (a : Addr) : list Z := match a with IPv4 a b c d => [a; b; c; d] | _ => [] end.

Definition isNonPublicIPv4 (addr : Addr) : bool :=
  if IsLoopback addr || IsPrivate addr || IsLinkLocalUnicast addr || IsLinkLocalMulticast addr
     || IsUnspecified addr || IsMulticast addr then true
  else
    let b := As4 addr in
    if decide (b = [255; 255; 255; 255]) then true
    else
      ipv4InCIDR b [0; 0; 0; 0] 8 || ipv4InCIDR b [100; 64; 0; 0] 10
      || ipv4InCIDR b [192; 0; 0; 0] 24 || ipv4InCIDR b [192; 0; 2; 0] 24
      || ipv4InCIDR b [198; 18; 0; 0] 15 || ipv4InCIDR b [198; 51; 100; 0] 24
      || ipv4InCIDR b [203; 0; 113; 0] 24 || ipv4InCIDR b [240; 0; 0; 0] 4.

Definition isNonPublicIPv6 (addr : Addr) : bool :=
  IsLoopback addr || IsUnspecified addr || IsMulticast addr || IsPrivate addr || IsLinkLocalUnicast addr.

Definition isNonPublicIP (addr : Addr) : bool :=
  if Is4In6 addr then isNonPublicIPv4 (Unmap addr) || IsLoopback addr
  else if Is4 addr then isNonPublicIPv4 addr
  else isNonPublicIPv6 addr.

(** ** Hosts *)

Section Hosts.
(** [unicode.ToLower] beyond ASCII. *)
Variable unicode_lower : rune -> rune.

Definition isUnscopedIP (s : gostring) : bool :=
  match ParseAddr s with Some addr => bool_decide (Zone addr = []) | None => false end.

(** One delimiter of the loop of [normalizeIPLiteral]. *)
Definition scopedLiteral (host delimiter : gostring) : option gostring :=
  idx ← str_index host delimiter;
  let ip := take idx host in
  let scope := drop (idx + length delimiter) host in
  if isUnscopedIP ip then Some (ip ++ "%" ++ scope) else None.

Definition normalizeIPLiteral (host : gostring) : option gostring :=
  match scopedLiteral host "%25" with
  | Some r => Some r
  | None =>
      match scopedLiteral host "%" with
      | Some r => Some r
      | None => if isUnscopedIP host then Some host else None
      end
  end.

Definition normalizeDNSHostOrIPLiteral (host : gostring) : gostring :=
  let host := trim_right_byte "." (to_lower unicode_lower host) in
  default host (normalizeIPLiteral host).

Definition NormalizeHost (host : gostring) : gostring :=
  let host := trim_space host in
  let unbracketed :=
    if (count_byte ":" host =? 1)%nat
    then normalizeDNSHostOrIPLiteral (match cut_byte ":" host with Some (before, _) => before | None => host end)
    else normalizeDNSHostOrIPLiteral host in
  match cut_prefix host "[" with
  | Some rest => match cut_byte "]" rest with
                 | Some (inside, _) => normalizeDNSHostOrIPLiteral inside
                 | None => unbracketed
                 end
  | None => unbracketed
  end.

Definition unscopedIPLiteral (host : gostring) : option gostring :=
  match cut_byte "%" host with
  | Some (ip, _) => match ParseAddr ip with Some _ => Some ip | None => None end
  | None => None
  end.

Definition parseHost (input : gostring) : option gostring :=
  let normalized := NormalizeHost input in
  if decide (normalized = []) then None else Some normalized.

Definition isLoopbackHost (host : gostring) : bool :=
  let host := default host (unscopedIPLiteral host) in
  if decide (host = str "localhost") then true
  else match ParseAddr host with Some addr => IsLoopback addr | None => false end.

End Hosts.

Example ParseAddr_examples :
  ParseAddr "127.0.0.1" = Some (IPv4 127 0 0 1)
  /\ ParseAddr "1.2.3" = None /\ ParseAddr "01.2.3.4" = None /\ ParseAddr "1.2.3.256" = None
  /\ ParseAddr "::1" = Some (IPv6 [0; 0; 0; 0; 0; 0; 0; 1] [])
  /\ ParseAddr "::" = Some (IPv6 [0; 0; 0; 0; 0; 0; 0; 0] [])
  /\ ParseAddr "fe80::1%lo0" = Some (IPv6 [65152; 0; 0; 0; 0; 0; 0; 1] "lo0")
  /\ ParseAddr "1:2:3:4:5:6:7::8" = None /\ ParseAddr "1:2:3:4:5:6:7::" = Some (IPv6 [1; 2; 3; 4; 5; 6; 7; 0] [])
  /\ ParseAddr "::ffff:10.0.0.1" = Some (IPv6 [0; 0; 0; 0; 0; 65535; 2560; 1] [])
  /\ ParseAddr "example.com" = None /\ ParseAddr "12345::" = None.
Proof. vm_compute. done. Qed.

Example NormalizeHost_examples :
  map (NormalizeHost id) [str " Example.COM.:443 "; str "[::1]:80"; str "fe80::1%25eth0"; str "::1"; str "a:b:c"]
  = [str "example.com"; str "::1"; str "fe80::1%eth0"; str "::1"; str "a:b:c"].
Proof. vm_compute. done. Qed.

(** ** Well-formed addresses *)

Definition byte_range (z : Z) : Prop := 0 <= z < 256.

Definition wf_addr (addr : Addr) : Prop :=
  match addr with
  | IPv4 a b c d => Forall byte_range [a; b; c; d]
  | IPv6 groups _ => length groups = 8%nat /\ Forall (fun g => 0 <= g < 65536) groups
  end.

Lemma parseIPv4Fields_range s fields val digLen afterDot r :
  Forall byte_range fields -> byte_range val ->
  parseIPv4Fields s fields val digLen afterDot = Some r -> Forall byte_range r.
Proof.
  revert fields val digLen afterDot. induction s as [|c s IH]; intros fields val digLen afterDot Hf Hv E; simpl in E.
  { destruct (_ <? _)%nat; [done|]. simplify_eq. apply Forall_app_2; [done|]. by constructor. }
  destruct (is_digit c) eqn:Ec.
  - destruct (_ && _); [done|]. destruct (255 <? _) eqn:E2; [done|]. breflect.
    apply IH in E; [done|done|]. unfold is_digit in Ec. apply in_range_spec in Ec. unfold byte_range in *. lia.
  - repeat (case_decide || case_match); try done. apply IH in E; [done| |done].
    apply Forall_app_2; [done|]. by constructor.
Qed.

Lemma parseIPv4_wf s addr : parseIPv4 s = Some addr -> wf_addr addr.
Proof.
  unfold parseIPv4. destruct (parseIPv4Fields s [] 0 0 true) as [r|] eqn:E; [|done].
  apply parseIPv4Fields_range in E; [|constructor|done]. repeat case_match; try done. by intros [= <-].
Qed.

Lemma hex_value_range c v : hex_value c = Some v -> 0 <= v < 16.
Proof.
  unfold hex_value. pose proof (bval_range c).
  repeat match goal with |- (if ?b then _ else _) = _ -> _ =>
    let E := fresh in destruct b eqn:E; [apply in_range_spec in E; intros [= <-]; lia|] end. done.
Qed.

Lemma hexGroup_range s acc off r :
  0 <= acc < 16 ^ Z.of_nat off -> (off <= 4)%nat -> hexGroup s acc off = Some r -> 0 <= r.1.1 < 65536.
Proof.
  revert acc off. induction s as [|c s IH]; intros acc off Hacc Hoff E; simpl in E.
  - simplify_eq. simpl. assert (16 ^ Z.of_nat off <= 16 ^ 4) by (apply Z.pow_le_mono_r; lia). lia.
  - destruct (hex_value c) as [v|] eqn:Ev.
    + destruct (3 <? off)%nat eqn:Eo; [done|]. breflect. apply IH in E; [done| |lia].
      apply hex_value_range in Ev. rewrite Nat2Z.inj_succ, Z.pow_succ_r by lia. lia.
    + simplify_eq. simpl. assert (16 ^ Z.of_nat off <= 16 ^ 4) by (apply Z.pow_le_mono_r; lia). lia.
Qed.

Definition groups_ok (ip : list Z) : Prop := Forall (fun g => 0 <= g < 65536) ip.

Lemma groups_ok_snoc ip g : groups_ok ip -> 0 <= g < 65536 -> groups_ok (ip ++ [g]).
Proof. intros. apply Forall_app_2; [done|]. by constructor. Qed.

(** The ellipsis stays within the groups, of which there are at most eight. *)
Lemma parseGroups_wf fuel s ip ellipsis ip' ellipsis' rest :
  groups_ok ip -> (length ip + fuel = 8)%nat -> (forall e, ellipsis = Some e -> e <= length ip)%nat ->
  parseGroups fuel s ip ellipsis = Some (ip', ellipsis', rest) ->
  groups_ok ip' /\ (length ip' <= 8)%nat /\ (forall e, ellipsis' = Some e -> e <= length ip')%nat.
Proof.
  revert s ip ellipsis. induction fuel as [|fuel IH]; intros s ip ellipsis Hip Hlen He E; simpl in E.
  { simplify_eq. split_and!; [done|lia|done]. }
  destruct (hexGroup s 0 0) as [[[acc off] r]|] eqn:Eh; [|done].
  apply hexGroup_range in Eh; [|simpl; lia|lia]. cbn [mbind option_bind fst] in *.
  destruct (off =? 0)%nat; [done|]. pose proof (groups_ok_snoc ip acc Hip Eh) as Hip1.
  assert (length (ip ++ [acc]) = S (length ip)) as L1 by (rewrite length_app; simpl; lia).
  destruct r as [|c r'].
  { simplify_eq. split_and!; [done|lia|]. intros e He'. apply He in He'. lia. }
  case_decide.
  { destruct (_ && _); [done|]. destruct (6 <? length ip)%nat eqn:E6; [done|]. breflect.
    destruct (parseIPv4Fields s [] 0 0 true) as [f|] eqn:Ef; [|done].
    apply parseIPv4Fields_range in Ef; [|constructor|done].
    destruct f as [|a [|b [|c' [|d [|]]]]]; try done. simplify_eq.
    repeat match goal with H : Forall byte_range (_ :: _) |- _ => apply Forall_cons in H as [? H] end.
    unfold byte_range in *. rewrite length_app. simpl. split_and!; [|lia|].
    - apply Forall_app. split; [done|]. repeat constructor; lia.
    - intros e He'. apply He in He'. lia. }
  case_decide; [|done]. destruct r' as [|c2 r'']; [done|]. case_decide.
  - case_bool_decide; [|done]. case_decide.
    + simplify_eq. split_and!; [done|lia|]. intros e [= <-]. lia.
    + apply IH in E; [done|done|lia|]. intros e [= <-]. lia.
  - apply IH in E; [done|done|lia|]. intros e He'. apply He in He'. lia.
Qed.

Lemma finishIPv6_wf zone s ellipsis addr :
  (forall e, ellipsis = Some e -> e = 0)%nat -> finishIPv6 zone s ellipsis = Some addr -> wf_addr addr.
Proof.
  intros He. unfold finishIPv6. destruct (_ && _).
  { intros [= <-]. split; [done|]. by repeat constructor. }
  destruct (parseGroups 8 s [] ellipsis) as [[[ip el] rest]|] eqn:E; [|done].
  apply parseGroups_wf in E as (Hip & Hlen & Hel); [|constructor|done|intros e ->%He; simpl; lia].
  cbn [mbind option_bind]. case_decide; [done|]. destruct (length ip <? 8)%nat eqn:E8; breflect.
  - destruct el as [e|]; [|done]. intros [= <-]. specialize (Hel e eq_refl). split.
    + rewrite !length_app, length_take, length_drop, length_replicate. lia.
    + rewrite !Forall_app. split_and!; [by apply Forall_take| |by apply Forall_drop].
      apply Forall_replicate. lia.
  - destruct el; [done|]. intros [= <-]. split; [lia|done].
Qed.

Lemma parseIPv6_wf s addr : parseIPv6 s = Some addr -> wf_addr addr.
Proof.
  unfold parseIPv6. destruct (cut_byte "%" s) as [[s1 zone]|].
  - case_decide; [done|]. cbn [mbind option_bind].
    destruct (cut_prefix s1 "::"); apply finishIPv6_wf; naive_solver.
  - cbn [mbind option_bind]. destruct (cut_prefix s "::"); apply finishIPv6_wf; naive_solver.
Qed.

Lemma ParseAddr_wf s addr : ParseAddr s = Some addr -> wf_addr addr.
Proof.
  unfold ParseAddr. destruct (drop _ _) as [|c l]; [done|].
  repeat case_decide; [apply parseIPv4_wf|apply parseIPv6_wf|done].
Qed.

(** ** The blocks of non-public addresses *)

Definition u32 (a b c d : Z) : Z := 16777216 * a + 65536 * b + 256 * c + d.

(** The IPv4 blocks, as base address and prefix length: this network, private
    use, shared address space, loopback, link local, protocol assignments,
    documentation, benchmarking, multicast, reserved and broadcast. *)
Definition blocks4 : list (Z * Z) :=
  [ (u32 0 0 0 0, 8); (u32 10 0 0 0, 8); (u32 100 64 0 0, 10); (u32 127 0 0 0, 8);
    (u32 169 254 0 0, 16); (u32 172 16 0 0, 12); (u32 192 0 0 0, 24); (u32 192 0 2 0, 24);
    (u32 192 168 0 0, 16); (u32 198 18 0 0, 15); (u32 198 51 100 0, 24); (u32 203 0 113 0, 24);
    (u32 224 0 0 0, 4); (u32 240 0 0 0, 4) ].

Definition in_block (n : Z) (block : Z * Z) : Prop := block.1 <= n < block.1 + 2 ^ (32 - block.2).

(** The IPv6 prefixes, on the first group: unique local, link local, multicast. *)
Definition non_public6 (groups : list Z) (zone : gostring) : Prop :=
  (groups = replicate 8 0 /\ zone = []) \/ groups = replicate 7 0 ++ [1]
  \/ 64512 <= group0 groups < 65024 \/ 65152 <= group0 groups < 65216 \/ 65280 <= group0 groups < 65536.

Definition non_public (addr : Addr) : Prop :=
  match Unmap addr with
  | IPv4 a b c d => Exists (in_block (u32 a b c d)) blocks4
  | IPv6 groups zone => non_public6 groups zone
  end.

(** Clearing the low bits with a mask. *)
Lemma land_high x w k : 0 <= k <= w -> 0 <= x < 2 ^ w -> Z.land x (2 ^ w - 2 ^ k) = x / 2 ^ k * 2 ^ k.
Proof.
  intros Hk Hx.
  assert (2 ^ w - 2 ^ k = Z.shiftl (Z.ones (w - k)) k) as ->.
  { rewrite Z.shiftl_mul_pow2, Z.ones_equiv, <- Z.sub_1_r, Z.mul_sub_distr_r by lia.
    rewrite <- Z.pow_add_r by lia. replace (w - k + k) with w by lia. lia. }
  rewrite <- Z.shiftl_mul_pow2, <- Z.shiftr_div_pow2 by lia.
  apply Z.bits_inj'. intros n Hn. rewrite Z.land_spec. destruct (Z.lt_ge_cases n k).
  { rewrite !Z.shiftl_spec_low by lia. apply andb_false_r. }
  rewrite !Z.shiftl_spec by lia. rewrite Z.shiftr_spec by lia. replace (n - k + k) with n by lia.
  destruct (Z.lt_ge_cases n w).
  - rewrite Z.ones_spec_low by lia. apply andb_true_r.
  - rewrite Z.ones_spec_high by lia. rewrite andb_false_r. symmetry.
    destruct (Z.eq_dec x 0) as [->|]; [apply Z.testbit_0_l|].
    apply Z.bits_above_log2; [lia|]. apply Z.log2_lt_pow2; [lia|].
    apply Z.lt_le_trans with (2 ^ w); [lia|]. apply Z.pow_le_mono_r; lia.
Qed.

Lemma lor_low acc x : 0 <= x < 256 -> Z.lor (Z.shiftl acc 8) x = 256 * acc + x.
Proof.
  intros Hx. rewrite <- Z.lxor_lor, <- Z.add_nocarry_lxor.
  - rewrite Z.shiftl_mul_pow2 by lia. lia.
  - apply Z.bits_inj'. intros n Hn. rewrite Z.land_spec, Z.bits_0. destruct (Z.lt_ge_cases n 8).
    + by rewrite Z.shiftl_spec_low.
    + rewrite (Z.bits_above_log2 x); [apply andb_false_r|lia|].
      destruct (Z.eq_dec x 0) as [->|]; [simpl; lia|]. apply Z.log2_lt_pow2; [lia|].
      apply Z.lt_le_trans with (2 ^ 8); [lia|]. apply Z.pow_le_mono_r; lia.
  - apply Z.bits_inj'. intros n Hn. rewrite Z.land_spec, Z.bits_0. destruct (Z.lt_ge_cases n 8).
    + by rewrite Z.shiftl_spec_low.
    + rewrite (Z.bits_above_log2 x); [apply andb_false_r|lia|].
      destruct (Z.eq_dec x 0) as [->|]; [simpl; lia|]. apply Z.log2_lt_pow2; [lia|].
      apply Z.lt_le_trans with (2 ^ 8); [lia|]. apply Z.pow_le_mono_r; lia.
Qed.

Lemma toU32_u32 a b c d : Forall byte_range [a; b; c; d] -> toU32 [a; b; c; d] = u32 a b c d.
Proof.
  intros H. repeat (apply Forall_cons in H as [? H]). unfold byte_range in *.
  unfold toU32, u32. cbn [fold_left]. rewrite !lor_low by lia. lia.
Qed.

Lemma ipv4InCIDR_block a b c d a' b' c' d' prefix :
  Forall byte_range [a; b; c; d] -> Forall byte_range [a'; b'; c'; d'] ->
  0 < prefix <= 32 -> u32 a' b' c' d' mod 2 ^ (32 - prefix) = 0 ->
  ipv4InCIDR [a; b; c; d] [a'; b'; c'; d'] prefix = true
  <-> in_block (u32 a b c d) (u32 a' b' c' d', prefix).
Proof.
  intros H H' Hp Hal. unfold ipv4InCIDR, in_block. rewrite (proj2 (Z.eqb_neq prefix 0)) by lia.
  rewrite !toU32_u32 by done. cbn [fst snd].
  repeat (apply Forall_cons in H as [? H]). repeat (apply Forall_cons in H' as [? H']). unfold byte_range in *.
  set (n := u32 a b c d). set (base := u32 a' b' c' d') in *.
  assert (0 <= n < 2 ^ 32) by (unfold n, u32; lia). assert (0 <= base < 2 ^ 32) by (unfold base, u32; lia).
  assert (Z.land (Z.shiftl (2 ^ 32 - 1) (32 - prefix)) (2 ^ 32 - 1) = 2 ^ 32 - 2 ^ (32 - prefix)) as ->.
  { replace (2 ^ 32 - 1) with (Z.ones 32) by done. rewrite Z.land_ones, Z.shiftl_mul_pow2 by lia.
    rewrite Z.ones_equiv, <- Z.sub_1_r. set (k := 32 - prefix). assert (2 ^ 32 = 2 ^ k * 2 ^ prefix) as ->.
    { rewrite <- Z.pow_add_r by lia. f_equal. lia. }
    assert (0 < 2 ^ k) by (apply Z.pow_pos_nonneg; lia). assert (0 < 2 ^ prefix) by (apply Z.pow_pos_nonneg; lia).
    symmetry. apply Z.mod_unique with (2 ^ k - 1); nia. }
  rewrite Z.eqb_eq, !land_high by lia. set (p := 2 ^ (32 - prefix)) in *.
  assert (0 < p) by (apply Z.pow_pos_nonneg; lia).
  assert (base = p * (base / p)) as Hb by (apply Z.div_exact; lia).
  pose proof (Z.div_mod n p) as Hn. pose proof (Z.mod_pos_bound n p). split; intros E; [nia|].
  assert (n / p = base / p) as ->; [|done]. symmetry. apply Z.div_unique with (n - base); lia.
Qed.

Lemma land_eqb x w k v : 0 <= k <= w -> 0 <= x < 2 ^ w ->
  (Z.land x (2 ^ w - 2 ^ k) =? v * 2 ^ k) = true <-> v * 2 ^ k <= x < (v + 1) * 2 ^ k.
Proof.
  intros Hk Hx. rewrite Z.eqb_eq, land_high by done. assert (0 < 2 ^ k) by (apply Z.pow_pos_nonneg; lia).
  set (p := 2 ^ k) in *. pose proof (Z.div_mod x p). pose proof (Z.mod_pos_bound x p).
  set (q := x / p) in *. split; intros E.
  - assert (q = v) as -> by (eapply Z.mul_reg_r; [|exact E]; lia). lia.
  - f_equal. symmetry. apply Z.div_unique with (x - v * p); lia.
Qed.

(** The blocks the predicates of [netip.Addr] cover. *)
Definition std_blocks4 : list (Z * Z) :=
  [ (u32 127 0 0 0, 8); (u32 10 0 0 0, 8); (u32 172 16 0 0, 12); (u32 192 168 0 0, 16);
    (u32 169 254 0 0, 16); (u32 224 0 0 0, 24); (u32 0 0 0 0, 32); (u32 224 0 0 0, 4) ].

(** Membership in a block, by the octets its prefix covers. *)

Section Octets.
Context (a b c d : Z) (Ha : 0 <= a < 256) (Hb : 0 <= b < 256) (Hc : 0 <= c < 256) (Hd : 0 <= d < 256).

Ltac octets := unfold in_block, u32; cbn [fst snd];
  change (2 ^ (32 - 8)) with 16777216; change (2 ^ (32 - 12)) with 1048576;
  change (2 ^ (32 - 16)) with 65536; change (2 ^ (32 - 24)) with 256;
  change (2 ^ (32 - 32)) with 1; change (2 ^ (32 - 4)) with 268435456;
  change (2 ^ (32 - 10)) with 4194304; change (2 ^ (32 - 15)) with 131072; lia.

Lemma in_block_8 a' : in_block (u32 a b c d) (u32 a' 0 0 0, 8) <-> a = a'.
Proof. octets. Qed.
Lemma in_block_16 a' b' : 0 <= b' < 256 -> in_block (u32 a b c d) (u32 a' b' 0 0, 16) <-> a = a' /\ b = b'.
Proof. octets. Qed.
Lemma in_block_24 : in_block (u32 a b c d) (u32 224 0 0 0, 24) <-> a = 224 /\ b = 0 /\ c = 0.
Proof. octets. Qed.
Lemma in_block_32 : in_block (u32 a b c d) (u32 0 0 0 0, 32) <-> a = 0 /\ b = 0 /\ c = 0 /\ d = 0.
Proof. octets. Qed.
Lemma in_block_12 : in_block (u32 a b c d) (u32 172 16 0 0, 12) <-> a = 172 /\ 16 <= b < 32.
Proof. octets. Qed.
Lemma in_block_4 a' : in_block (u32 a b c d) (u32 a' 0 0 0, 4) <-> a' <= a < a' + 16.
Proof. octets. Qed.

End Octets.

Lemma std_blocks4_spec a b c d :
  Forall byte_range [a; b; c; d] ->
  IsLoopback (IPv4 a b c d) || IsPrivate (IPv4 a b c d) || IsLinkLocalUnicast (IPv4 a b c d)
    || IsLinkLocalMulticast (IPv4 a b c d) || IsUnspecified (IPv4 a b c d) || IsMulticast (IPv4 a b c d) = true
  <-> Exists (in_block (u32 a b c d)) std_blocks4.
Proof.
  intros H. repeat (apply Forall_cons in H as [? H]). unfold byte_range in *.
  unfold IsLoopback, IsPrivate, IsLinkLocalUnicast, IsLinkLocalMulticast, IsUnspecified, IsMulticast, Unmap, mapped4.
  cbn [default from_option id].
  rewrite !orb_true_iff, !andb_true_iff, !bool_decide_eq_true, !Z.eqb_eq.
  pose proof (land_eqb b 8 4 1 ltac:(lia) ltac:(lia)) as Hb. rewrite Z.eqb_eq in Hb.
  pose proof (land_eqb a 8 4 14 ltac:(lia) ltac:(lia)) as Ha. rewrite Z.eqb_eq in Ha.
  change (2 ^ 8 - 2 ^ 4) with 240 in *. change (1 * 2 ^ 4) with 16 in *. change (14 * 2 ^ 4) with 224 in *.
  change ((1 + 1) * 2 ^ 4) with 32 in *. change ((14 + 1) * 2 ^ 4) with (224 + 16) in *.
  rewrite Hb, Ha.
  assert (IPv4 a b c d = IPv4 0 0 0 0 <-> a = 0 /\ b = 0 /\ c = 0 /\ d = 0) as ->
    by (split; [by intros [= -> -> -> ->]|by intros (-> & -> & -> & ->)]).
  assert (IPv4 a b c d = IPv6 (replicate 8 0) [] <-> False) as -> by (split; [discriminate|intros []]).
  unfold std_blocks4. rewrite !Exists_cons, Exists_nil.
  rewrite !in_block_8, !in_block_16, in_block_24, in_block_32, in_block_12, in_block_4 by lia. tauto.
Qed.

Lemma isNonPublicIPv4_blocks a b c d :
  Forall byte_range [a; b; c; d] ->
  isNonPublicIPv4 (IPv4 a b c d) = true <-> Exists (in_block (u32 a b c d)) blocks4.
Proof.
  intros Hf. pose proof (std_blocks4_spec a b c d Hf) as Hstd. unfold isNonPublicIPv4.
  assert (forall a' b' c' d' prefix, Forall byte_range [a'; b'; c'; d'] -> 0 < prefix <= 32 ->
    u32 a' b' c' d' mod 2 ^ (32 - prefix) = 0 ->
    ipv4InCIDR [a; b; c; d] [a'; b'; c'; d'] prefix = true
    <-> in_block (u32 a b c d) (u32 a' b' c' d', prefix)) as Hc by (intros; by apply ipv4InCIDR_block).
  assert ((in_block (u32 a b c d) (u32 224 0 0 0, 24) -> in_block (u32 a b c d) (u32 224 0 0 0, 4))
    /\ (in_block (u32 a b c d) (u32 0 0 0 0, 32) -> in_block (u32 a b c d) (u32 0 0 0 0, 8))) as [Hi1 Hi2].
  { repeat (apply Forall_cons in Hf as [? Hf]). unfold byte_range in *.
    rewrite in_block_24, in_block_4, in_block_32, in_block_8 by lia. lia. }
  unfold std_blocks4, blocks4 in *. rewrite !Exists_cons, Exists_nil in Hstd. rewrite !Exists_cons, Exists_nil.
  destruct (IsLoopback _ || _ || _ || _ || _ || _); [|case_decide as Hbc; unfold As4 in *].
  - split; [intros _|done]. apply proj1 in Hstd. specialize (Hstd eq_refl). tauto.
  - split; [intros _|done]. injection Hbc as -> -> -> ->. do 13 right. left. unfold in_block, u32. simpl. lia.
  - assert (~ (false = true)) as Hno by done. rewrite Hstd in Hno.
    rewrite !orb_true_iff, !Hc by first [lia | done | unfold byte_range; repeat constructor; lia].
    revert Hno Hi1 Hi2. generalize (in_block (u32 a b c d)). clear. tauto.
Qed.

(** ** IPv6 *)

Lemma land_shiftr_eqb x : 0 <= x < 65536 -> (Z.land (Z.shiftr x 8) 254 =? 252) = true <-> 64512 <= x < 65024.
Proof.
  intros Hx. rewrite Z.shiftr_div_pow2 by lia. change (2 ^ 8) with 256.
  pose proof (Z.div_mod x 256). pose proof (Z.mod_pos_bound x 256).
  assert (0 <= x / 256 < 2 ^ 8) as Hr by (change (2 ^ 8) with 256; lia).
  pose proof (land_eqb (x / 256) 8 1 126 ltac:(lia) Hr) as Heq.
  change (2 ^ 8 - 2 ^ 1) with 254 in Heq. change (126 * 2 ^ 1) with 252 in Heq.
  change ((126 + 1) * 2 ^ 1) with 254 in Heq. rewrite Heq. lia.
Qed.

Lemma Unmap_not_mapped addr : mapped4 addr = None -> Unmap addr = addr.
Proof. unfold Unmap. by intros ->. Qed.

Lemma isNonPublicIPv6_spec groups zone :
  wf_addr (IPv6 groups zone) -> mapped4 (IPv6 groups zone) = None ->
  isNonPublicIPv6 (IPv6 groups zone) = true <-> non_public6 groups zone.
Proof.
  intros [Hlen Hg] Hm. unfold isNonPublicIPv6, IsLoopback, IsUnspecified, IsMulticast, IsPrivate, IsLinkLocalUnicast.
  rewrite (Unmap_not_mapped _ Hm). unfold non_public6.
  assert (0 <= group0 groups < 65536) as Hg0 by (destruct groups; [done|by apply Forall_cons in Hg as [? _]]).
  rewrite !orb_true_iff, !bool_decide_eq_true, land_shiftr_eqb by done.
  pose proof (land_eqb (group0 groups) 16 6 1018 ltac:(lia) ltac:(lia)) as Hl.
  change (2 ^ 16 - 2 ^ 6) with 65472 in Hl. change (1018 * 2 ^ 6) with 65152 in Hl.
  change ((1018 + 1) * 2 ^ 6) with 65216 in Hl. rewrite Hl, Z.eqb_eq, Z.shiftr_div_pow2 by lia.
  change (2 ^ 8) with 256. assert (group0 groups / 256 = 255 <-> 65280 <= group0 groups < 65536) as ->
    by (pose proof (Z.div_mod (group0 groups) 256); pose proof (Z.mod_pos_bound (group0 groups) 256); lia).
  assert (IPv6 groups zone = IPv4 0 0 0 0 <-> False) as -> by (split; [discriminate|intros []]).
  assert (IPv6 groups zone = IPv6 (replicate 8 0) [] <-> groups = replicate 8 0 /\ zone = []) as ->
    by (split; [by intros [= -> ->]|by intros [-> ->]]).
  change (replicate 7 0 ++ [1]) with [0; 0; 0; 0; 0; 0; 0; 1]. tauto.
Qed.

Lemma mapped4_wf addr addr4 : wf_addr addr -> mapped4 addr = Some addr4 ->
  exists a b c d, addr4 = IPv4 a b c d /\ Forall byte_range [a; b; c; d].
Proof.
  destruct addr as [|groups zone]; [done|]. intros [_ Hg]. unfold mapped4. repeat case_match; try done.
  intros [= <-]. repeat (apply Forall_cons in Hg as [? Hg]). unfold byte_range. eexists _, _, _, _. split; [done|].
  repeat match goal with H : 0 <= ?g < 65536 |- _ =>
    pose proof (Z.div_mod g 256); pose proof (Z.mod_pos_bound g 256); revert H end.
  repeat constructor; lia.
Qed.

Lemma isNonPublicIP_wf addr : wf_addr addr -> isNonPublicIP addr = true <-> non_public addr.
Proof.
  intros Hwf. unfold isNonPublicIP, Is4In6, non_public, Unmap.
  destruct (mapped4 addr) as [addr4|] eqn:Em; cbn [default from_option id].
  - destruct (mapped4_wf _ _ Hwf Em) as (a & b & c & d & -> & Hr). rewrite orb_true_iff, isNonPublicIPv4_blocks by done. cbn [default from_option id].
    split; [|by left]. intros [?|Hl]; [done|]. unfold IsLoopback, Unmap in Hl. rewrite Em in Hl.
    cbn [default from_option id] in Hl. apply Z.eqb_eq in Hl as ->.
    repeat (apply Forall_cons in Hr as [? Hr]). unfold byte_range, blocks4 in *.
    do 3 right. left. by rewrite in_block_8 by lia.
  - destruct addr as [a b c d|groups zone]; cbn [Is4]; [by apply isNonPublicIPv4_blocks|by apply isNonPublicIPv6_spec].
Qed.

(** The addresses a proxied request may not reach without an explicit
    entry are exactly those of the special-purpose blocks: an address accepted
    by [ParseAddr] is classified as non-public if and only if it lies in one
    of the fourteen IPv4 blocks (directly or as an IPv4-mapped IPv6 address),
    or is the unspecified or loopback IPv6 address, or its first group lies in
    the unique-local, link-local or multicast prefix. *)
Theorem isNonPublicIP_blocks s addr :
  ParseAddr s = Some addr -> isNonPublicIP addr = true <-> non_public addr.
Proof. intros Hwf%ParseAddr_wf. by apply isNonPublicIP_wf. Qed.

Lemma isNonPublicIP_blocks_witness :
  (isNonPublicIP (IPv4 100 64 1 2) = true <-> non_public (IPv4 100 64 1 2))
  /\ (isNonPublicIP (IPv6 [0; 0; 0; 0; 0; 65535; 2560; 1] []) = true
      <-> non_public (IPv6 [0; 0; 0; 0; 0; 65535; 2560; 1] [])).
Proof.
  split; [apply (isNonPublicIP_blocks "100.64.1.2")|apply (isNonPublicIP_blocks "::ffff:10.0.0.1")]; vm_compute; reflexivity.
Defined.

End Host.
