(* ===== verification/NetConfig.v ===== *)
(** * internal/networkproxy: the policy configuration and its domain lists

    [config.go], [domainpattern.go], the compiled pattern sets of [glob.go] and
    the overlay of [execpolicy.go]: network modes, the ordered domain rules,
    the copies that replace or upsert rules, domain patterns and the order
    between them, and the compilation of patterns to globs. *)

From stdpp Require Import gmap sorting.
From S2P Require Import Prelude GoStrings GoUtf8 GoText NetGlob NetAddr.

(** What the package uses of the Unicode tables and of [net/url]: the case
    maps of [unicode] beyond ASCII; [url.Parse] of ["//" + host] followed by
    [Hostname], [None] for an error or an empty host name; and whether
    [url.ParseQuery] accepts so many parameters.  The treatment of colons and
    brackets by the former and the limit of the latter depend on the release of
    Go and its settings, so they are not fixed here. *)
Class GoEnv := {
  unicode_lower : rune -> rune;
  unicode_upper : rune -> rune;
  url_hostname : gostring -> option gostring;
  query_params_within_max : nat -> bool;
}.

Module Config.
Import Glob.

(** ** config.go: modes *)

Definition NetworkMode := gostring.
Definition NetworkModeLimited : NetworkMode := "limited".
Definition NetworkModeFull : NetworkMode := "full".
Definition DefaultNetworkMode : NetworkMode := NetworkModeFull.

Definition AllowsMethod (m : NetworkMode) (method : gostring) : bool :=
  if decide (m = NetworkModeLimited)
  then bool_decide (method = str "GET" \/ method = str "HEAD" \/ method = str "OPTIONS")
  else true.

Definition normalized (m : NetworkMode) : NetworkMode :=
  if decide (m = []) then DefaultNetworkMode else m.

(** ** config.go: domain rules *)

Inductive NetworkDomainPermission :=
| DomainPermissionNone
| DomainPermissionAllow
| DomainPermissionDeny.

#[export] Instance NetworkDomainPermission_eq_dec : EqDecision NetworkDomainPermission.
Proof. solve_decision. Defined.

(** [None < Allow < Deny] *)
Definition permission_rank (p : NetworkDomainPermission) : Z :=
  match p with DomainPermissionNone => 0 | DomainPermissionAllow => 1 | DomainPermissionDeny => 2 end.

Record NetworkDomainPermissionEntry := mkEntry {
  Pattern : gostring;
  Permission : NetworkDomainPermission;
}.

#[export] Instance NetworkDomainPermissionEntry_eq_dec : EqDecision NetworkDomainPermissionEntry.
Proof. solve_decision. Defined.

Definition NetworkDomainPermissions := list NetworkDomainPermissionEntry.

Definition effectiveStep (acc : list gostring * gmap gostring NetworkDomainPermission)
    (entry : NetworkDomainPermissionEntry) : list gostring * gmap gostring NetworkDomainPermission :=
  let '(order, effective) := acc in
  match effective !! Pattern entry with
  | None => (order ++ [Pattern entry], <[Pattern entry := Permission entry]> effective)
  | Some p => if (permission_rank p <? permission_rank (Permission entry))%Z
              then (order, <[Pattern entry := Permission entry]> effective)
              else (order, effective)
  end.

Definition effectiveEntries (d : NetworkDomainPermissions) : list NetworkDomainPermissionEntry :=
  let '(order, effective) := foldl effectiveStep ([], ∅) d in
  map (fun pattern => mkEntry pattern (default DomainPermissionNone (effective !! pattern))) order.

(** ** mitmhook.go: the configuration of hooks *)

Record MitmHookMatchConfig := mkMatch {
  Methods : list gostring;
  PathPrefixes : list gostring;
  Query : gmap gostring (list gostring);
  Headers : gmap gostring (list gostring);
  HasBody : bool;  (* [Body != nil] *)
}.

Record InjectedHeaderConfig := mkInjected {
  Name : gostring;
  SecretEnvVar : option gostring;
  SecretFile : option gostring;
  Prefix : option gostring;
}.

Record MitmHookActionsConfig := mkActions {
  StripRequestHeaders : list gostring;
  InjectRequestHeaders : list InjectedHeaderConfig;
}.

Record MitmHookConfig := mkHook {
  HookHost : gostring;
  Matcher : MitmHookMatchConfig;
  Actions : MitmHookActionsConfig;
}.

(** ** config.go: the settings *)

Definition NetworkUnixSocketPermission := gostring.
Definition UnixSocketPermissionAllow : NetworkUnixSocketPermission := "allow".
Definition UnixSocketPermissionDeny : NetworkUnixSocketPermission := "deny".
Definition NetworkUnixSocketPermissions := gmap gostring NetworkUnixSocketPermission.

Record NetworkProxySettings := mkSettings {
  Enabled : bool;
  ProxyURL : gostring;
  EnableSocks5 : bool;
  SocksURL : gostring;
  EnableSocks5UDP : bool;
  AllowUpstreamProxy : bool;
  DangerouslyAllowNonLoopbackProxy : bool;
  DangerouslyAllowAllUnixSockets : bool;
  Mode : NetworkMode;
  Domains : option NetworkDomainPermissions;
  UnixSockets : option NetworkUnixSocketPermissions;
  AllowLocalBinding : bool;
  Mitm : bool;
  MitmHooks : list MitmHookConfig;
}.

Definition defaultProxyURL : gostring := "http://127.0.0.1:3128".
Definition defaultSocksURL : gostring := "http://127.0.0.1:8081".

Definition DefaultNetworkProxySettings : NetworkProxySettings :=
  {| Enabled := false; ProxyURL := defaultProxyURL; EnableSocks5 := true; SocksURL := defaultSocksURL;
     EnableSocks5UDP := true; AllowUpstreamProxy := true; DangerouslyAllowNonLoopbackProxy := false;
     DangerouslyAllowAllUnixSockets := false; Mode := DefaultNetworkMode; Domains := None;
     UnixSockets := None; AllowLocalBinding := false; Mitm := false; MitmHooks := [] |}.

(** [out := s; out.F = x] *)
Definition with_domains (s : NetworkProxySettings) (d : option NetworkDomainPermissions) : NetworkProxySettings :=
  {| Enabled := Enabled s; ProxyURL := ProxyURL s; EnableSocks5 := EnableSocks5 s; SocksURL := SocksURL s;
     EnableSocks5UDP := EnableSocks5UDP s; AllowUpstreamProxy := AllowUpstreamProxy s;
     DangerouslyAllowNonLoopbackProxy := DangerouslyAllowNonLoopbackProxy s;
     DangerouslyAllowAllUnixSockets := DangerouslyAllowAllUnixSockets s; Mode := Mode s; Domains := d;
     UnixSockets := UnixSockets s; AllowLocalBinding := AllowLocalBinding s; Mitm := Mitm s; MitmHooks := MitmHooks s |}.
Definition with_unix_sockets (s : NetworkProxySettings) (u : option NetworkUnixSocketPermissions) : NetworkProxySettings :=
  {| Enabled := Enabled s; ProxyURL := ProxyURL s; EnableSocks5 := EnableSocks5 s; SocksURL := SocksURL s;
     EnableSocks5UDP := EnableSocks5UDP s; AllowUpstreamProxy := AllowUpstreamProxy s;
     DangerouslyAllowNonLoopbackProxy := DangerouslyAllowNonLoopbackProxy s;
     DangerouslyAllowAllUnixSockets := DangerouslyAllowAllUnixSockets s; Mode := Mode s; Domains := Domains s;
     UnixSockets := u; AllowLocalBinding := AllowLocalBinding s; Mitm := Mitm s; MitmHooks := MitmHooks s |}.
Definition with_mode (s : NetworkProxySettings) (m : NetworkMode) : NetworkProxySettings :=
  {| Enabled := Enabled s; ProxyURL := ProxyURL s; EnableSocks5 := EnableSocks5 s; SocksURL := SocksURL s;
     EnableSocks5UDP := EnableSocks5UDP s; AllowUpstreamProxy := AllowUpstreamProxy s;
     DangerouslyAllowNonLoopbackProxy := DangerouslyAllowNonLoopbackProxy s;
     DangerouslyAllowAllUnixSockets := DangerouslyAllowAllUnixSockets s; Mode := m; Domains := Domains s;
     UnixSockets := UnixSockets s; AllowLocalBinding := AllowLocalBinding s; Mitm := Mitm s; MitmHooks := MitmHooks s |}.

Definition domainEntries (s : NetworkProxySettings) (permission : NetworkDomainPermission) : list gostring :=
  match Domains s with
  | None => []
  | Some d => Pattern <$> filter (fun entry => Permission entry = permission) (effectiveEntries d)
  end.
Definition AllowedDomains (s : NetworkProxySettings) : list gostring := domainEntries s DomainPermissionAllow.
Definition DeniedDomains (s : NetworkProxySettings) : list gostring := domainEntries s DomainPermissionDeny.

(** The order of [sort.Strings]. *)
Fixpoint str_leb (a b : gostring) : bool :=
  match a, b with
  | [], _ => true
  | _ :: _, [] => false
  | c :: a, d :: b => (bval c <? bval d)%Z || ((bval c =? bval d)%Z && str_leb a b)
  end.
Definition str_le (a b : gostring) : Prop := Is_true (str_leb a b).
#[export] Instance str_le_dec : RelDecision str_le := fun a b => _.
Definition sort_strings (l : list gostring) : list gostring := merge_sort str_le l.

Definition AllowUnixSockets (s : NetworkProxySettings) : list gostring :=
  match UnixSockets s with
  | None => []
  | Some entries =>
      sort_strings (map fst (filter (fun '(_, permission) => permission = UnixSocketPermissionAllow)
                                    (map_to_list entries)))
  end.

Definition cloneDomains (s : NetworkProxySettings) : NetworkDomainPermissions := default [] (Domains s).

(** One iteration of the second loop of [withDomainEntries]. *)
Definition appendEntry (permission : NetworkDomainPermission) (kept : NetworkDomainPermissions) (entry : gostring)
    : NetworkDomainPermissions :=
  if bool_decide (mkEntry entry permission ∈ kept) then kept else kept ++ [mkEntry entry permission].

Definition withDomainEntries (s : NetworkProxySettings) (entries : list gostring)
    (permission : NetworkDomainPermission) : NetworkProxySettings :=
  let kept := filter (fun e => Permission e <> permission) (cloneDomains s) in
  let kept := foldl (appendEntry permission) kept entries in
  with_domains s (if decide (kept = []) then None else Some kept).
Definition WithAllowedDomains (s : NetworkProxySettings) (domains : list gostring) : NetworkProxySettings :=
  withDomainEntries s domains DomainPermissionAllow.
Definition WithDeniedDomains (s : NetworkProxySettings) (domains : list gostring) : NetworkProxySettings :=
  withDomainEntries s domains DomainPermissionDeny.

Definition WithAllowUnixSockets (s : NetworkProxySettings) (paths : list gostring) : NetworkProxySettings :=
  let entries := filter (fun '(_, perm) => perm <> UnixSocketPermissionAllow) (default ∅ (UnixSockets s)) in
  let entries := foldl (fun entries path => <[path := UnixSocketPermissionAllow]> entries) entries paths in
  with_unix_sockets s (if decide (entries = ∅) then None else Some entries).

(** ** domainpattern.go *)

Inductive domainPatternKind := domainExact | domainSubdomainsOnly | domainApexAndSubdomains.

#[export] Instance domainPatternKind_eq_dec : EqDecision domainPatternKind.
Proof. solve_decision. Defined.

Record domainPattern := mkPattern { kind : domainPatternKind; domain : gostring }.

Definition parseDomainKind (d : gostring) (k : domainPatternKind) : domainPattern :=
  let d := trim_space d in
  if decide (d = []) then mkPattern domainExact [] else mkPattern k d.

Definition parseDomainPattern (input : gostring) : domainPattern :=
  let input := trim_space input in
  if decide (input = []) then mkPattern domainExact []
  else match cut_prefix input "**." with
       | Some rest => parseDomainKind rest domainApexAndSubdomains
       | None => match cut_prefix input "*." with
                 | Some rest => parseDomainKind rest domainSubdomainsOnly
                 | None => mkPattern domainExact input
                 end
       end.

(** The error of [compileGlobsetWithPolicy]. *)
Inductive globset_error := ErrGlobalWildcard.

Inductive globalWildcardPolicy := globalWildcardAllow | globalWildcardReject.

#[export] Instance globalWildcardPolicy_eq_dec : EqDecision globalWildcardPolicy.
Proof. solve_decision. Defined.

Definition domainGlobSet := list gostring.

Definition expandDomainPattern (pattern : gostring) : list gostring :=
  let dp := parseDomainPattern pattern in
  match kind dp with
  | domainExact => [domain dp]
  | domainSubdomainsOnly => ["?*." ++ domain dp]
  | domainApexAndSubdomains => [domain dp; "?*." ++ domain dp]
  end.

Section Env.
Context {env : GoEnv}.

Notation NormalizeHost := (Host.NormalizeHost unicode_lower).
Notation ToLower := (to_lower unicode_lower).

Definition WithUpsertDomainPermission (s : NetworkProxySettings) (host : gostring)
    (permission : NetworkDomainPermission) : NetworkProxySettings :=
  let normalizedHost := NormalizeHost host in
  let kept := filter (fun e => NormalizeHost (Pattern e) <> normalizedHost) (cloneDomains s) in
  with_domains s (Some (kept ++ [mkEntry host permission])).

Definition parseDomainForConstraints (d : gostring) : gostring :=
  let d := trim_right_byte "." (trim_space d) in
  if decide (d = []) then []
  else
    let host := if has_prefix d "[" && has_suffix d "]"
                then take (length d - 2) (drop 1 d) else d in
    if bool_decide (Exists (fun c => c = "*"%char \/ c = "?"%char \/ c = "%"%char) host) then d
    else match url_hostname host with
         | None => []
         | Some hostname => ToLower hostname
         end.

Definition parseDomainPatternForConstraints (input : gostring) : domainPattern :=
  let input := trim_space input in
  if decide (input = []) then mkPattern domainExact []
  else match cut_prefix input "**." with
       | Some rest => mkPattern domainApexAndSubdomains (parseDomainForConstraints rest)
       | None => match cut_prefix input "*." with
                 | Some rest => mkPattern domainSubdomainsOnly (parseDomainForConstraints rest)
                 | None => mkPattern domainExact (parseDomainForConstraints input)
                 end
       end.

Definition normalizeDomain (d : gostring) : gostring := ToLower (trim_right_byte "." d).

Definition domainEq (left right : gostring) : bool := bool_decide (normalizeDomain left = normalizeDomain right).

Definition isSubdomainOrEqual (child parent : gostring) : bool :=
  let child := normalizeDomain child in
  let parent := normalizeDomain parent in
  bool_decide (child = parent) || has_suffix child ("." ++ parent).

Definition isStrictSubdomain (child parent : gostring) : bool :=
  let child := normalizeDomain child in
  let parent := normalizeDomain parent in
  bool_decide (child <> parent) && has_suffix child ("." ++ parent).

Definition allows (p candidate : domainPattern) : bool :=
  match kind p with
  | domainExact => bool_decide (kind candidate = domainExact) && domainEq (domain candidate) (domain p)
  | domainSubdomainsOnly =>
      match kind candidate with
      | domainExact => isStrictSubdomain (domain candidate) (domain p)
      | domainSubdomainsOnly => isSubdomainOrEqual (domain candidate) (domain p)
      | domainApexAndSubdomains => isStrictSubdomain (domain candidate) (domain p)
      end
  | domainApexAndSubdomains => isSubdomainOrEqual (domain candidate) (domain p)
  end.

(** ** glob.go: the compiled sets *)

Definition match_ (g : domainGlobSet) (host : gostring) : bool :=
  let host := ToLower host in existsb (fun p => globMatches p host false) g.

Definition normalizePattern (pattern : gostring) : gostring :=
  let pattern := trim_space pattern in
  if decide (pattern = str "*") then "*"
  else match cut_prefix pattern "**." with
       | Some rest => "**." ++ NormalizeHost rest
       | None => match cut_prefix pattern "*." with
                 | Some rest => "*." ++ NormalizeHost rest
                 | None => NormalizeHost pattern
                 end
       end.

Definition isGlobalWildcardDomainPattern (pattern : gostring) : bool :=
  bool_decide (str "*" ∈ expandDomainPattern (normalizePattern pattern)).

(** One candidate of the inner loop; [seen] is the set of the compiled ones. *)
Definition addCandidate (acc : domainGlobSet * gset gostring) (candidate : gostring) : domainGlobSet * gset gostring :=
  let '(compiled, seen) := acc in
  let lc := ToLower candidate in
  if decide (lc ∈ seen) then (compiled, seen) else (compiled ++ [lc], {[lc]} ∪ seen).

Fixpoint compileLoop (policy : globalWildcardPolicy) (patterns : list gostring)
    (acc : domainGlobSet * gset gostring) : result globset_error domainGlobSet :=
  match patterns with
  | [] => Ok acc.1
  | pattern :: patterns =>
      if bool_decide (policy = globalWildcardReject) && isGlobalWildcardDomainPattern pattern
      then Err ErrGlobalWildcard
      else compileLoop policy patterns (foldl addCandidate acc (expandDomainPattern (normalizePattern pattern)))
  end.

Definition compileGlobsetWithPolicy (patterns : list gostring) (policy : globalWildcardPolicy)
    : result globset_error domainGlobSet := compileLoop policy patterns ([], ∅).
Definition compileAllowlistGlobset (patterns : list gostring) := compileGlobsetWithPolicy patterns globalWildcardAllow.
Definition compileDenylistGlobset (patterns : list gostring) := compileGlobsetWithPolicy patterns globalWildcardReject.

Definition globsetMatchesHostOrUnscoped (set : domainGlobSet) (host : gostring) : bool :=
  if match_ set host then true
  else match Host.unscopedIPLiteral host with Some ip => match_ set ip | None => false end.

(** ** execpolicy.go: the overlay of the exec policy's network rules *)

Definition upsertStep (permission : NetworkDomainPermission) (acc : NetworkProxySettings * gset gostring)
    (host : gostring) : NetworkProxySettings * gset gostring :=
  let '(network, seen) := acc in
  if decide (host ∈ seen) then (network, seen)
  else (WithUpsertDomainPermission network host permission, {[host]} ∪ seen).

Definition upsertNetworkDomains (network : NetworkProxySettings) (hosts : list gostring)
    (permission : NetworkDomainPermission) : NetworkProxySettings :=
  (foldl (upsertStep permission) (network, ∅) hosts).1.

(** [NetworkProxyConfig] wraps the settings. *)
Definition ApplyExecPolicyNetworkRules (config : NetworkProxySettings) (allowedDomains deniedDomains : list gostring)
    : NetworkProxySettings :=
  let config := upsertNetworkDomains config allowedDomains DomainPermissionAllow in
  upsertNetworkDomains config deniedDomains DomainPermissionDeny.

End Env.

(** An environment to evaluate with: ASCII letters, and host names that are
    taken as they are. *)
Definition ascii_env : GoEnv :=
  {| unicode_lower := id; unicode_upper := id;
     url_hostname := fun host => if decide (host = []) then None else Some host;
     query_params_within_max := fun n => (n <=? 10000)%nat |}.

Section Examples.
#[local] Existing Instance ascii_env.

Example compile_example :
  compileAllowlistGlobset [str "*.Example.com"; str "**.a.org."; str "a.org"]
  = Ok [str "?*.example.com"; str "a.org"; str "?*.a.org"]
  /\ compileDenylistGlobset [str "**.*"] = Err ErrGlobalWildcard
  /\ globsetMatchesHostOrUnscoped [str "fe80::1"] "fe80::1%lo0" = true
  /\ match_ [str "?*.example.com"] "A.EXAMPLE.com" = true /\ match_ [str "?*.example.com"] "example.com" = false.
Proof. vm_compute. done. Qed.

Example upsert_example :
  Domains (ApplyExecPolicyNetworkRules DefaultNetworkProxySettings [str "A.com"; str "b.com"; str "a.com"] [str "b.com:80"])
  = Some [mkEntry "a.com" DomainPermissionAllow; mkEntry "b.com:80" DomainPermissionDeny]
  /\ sort_strings [str "b"; str "a/b"; str "a"] = [str "a"; str "a/b"; str "b"].
Proof. vm_compute. done. Qed.

End Examples.

(** ** Domain rules: the strongest permission of a pattern wins *)

Lemma permission_rank_inj p q : permission_rank p = permission_rank q -> p = q.
Proof. by destruct p, q. Qed.

Lemma permission_rank_range p : (0 <= permission_rank p <= 2)%Z.
Proof. destruct p; simpl; lia. Qed.

Definition effective_ok (d : NetworkDomainPermissions)
    (acc : list gostring * gmap gostring NetworkDomainPermission) : Prop :=
  NoDup acc.1
  /\ (forall pattern, pattern ∈ acc.1 <-> is_Some (acc.2 !! pattern))
  /\ (forall pattern p, acc.2 !! pattern = Some p ->
        (exists e, e ∈ d /\ Pattern e = pattern /\ Permission e = p)
        /\ forall e, e ∈ d -> Pattern e = pattern -> (permission_rank (Permission e) <= permission_rank p)%Z)
  /\ (forall e, e ∈ d -> Pattern e ∈ acc.1).

Lemma effectiveStep_ok d acc e : effective_ok d acc -> effective_ok (d ++ [e]) (effectiveStep acc e).
Proof.
  destruct acc as [order effective]. intros (Hnd & Hdom & Hmax & Hall). unfold effectiveStep. simpl in *.
  destruct (effective !! Pattern e) as [p|] eqn:E; [destruct (_ <? _)%Z eqn:Er; breflect|];
    (split_and!; simpl).
  all: try done.
  - intros q. rewrite lookup_insert_is_Some', Hdom. naive_solver.
  - intros q p' [[<- <-]|[Hne Hq]]%lookup_insert_Some.
    + split; [exists e; set_solver|]. intros e'. rewrite elem_of_app, list_elem_of_singleton. intros [He'| ->] Hp; [|lia].
      destruct (Hmax _ _ E) as [_ Hm]. specialize (Hm e' He' Hp). lia.
    + destruct (Hmax _ _ Hq) as [(e' & ? & ? & ?) Hm]. split; [exists e'; set_solver|].
      intros e''. rewrite elem_of_app, list_elem_of_singleton. intros [?| ->] ?; [by apply Hm|done].
  - intros e'. rewrite elem_of_app, list_elem_of_singleton. intros [?| ->]; [by apply Hall|]. by apply Hdom.
  - intros q p' Hq. destruct (Hmax _ _ Hq) as [(e' & ? & ? & ?) Hm]. split; [exists e'; set_solver|].
    intros e''. rewrite elem_of_app, list_elem_of_singleton. intros [?| ->] Hpe; [by apply Hm|]. assert (p = p') as -> by congruence. lia.
  - intros e'. rewrite elem_of_app, list_elem_of_singleton. intros [?| ->]; [by apply Hall|]. by apply Hdom.
  - apply NoDup_app. split_and!; [done| |apply NoDup_singleton]. intros q Hq%Hdom. rewrite list_elem_of_singleton.
    intros ->. rewrite E in Hq. by apply is_Some_None in Hq.
  - intros q. rewrite elem_of_app, list_elem_of_singleton, lookup_insert_is_Some', Hdom. naive_solver.
  - intros q p' [[<- <-]|[Hne Hq]]%lookup_insert_Some.
    + split; [exists e; set_solver|]. intros e'. rewrite elem_of_app, list_elem_of_singleton. intros [He'| ->] Hp; [|lia].
      apply Hall in He'. rewrite Hp in He'. apply Hdom in He'. rewrite E in He'. by apply is_Some_None in He'.
    + destruct (Hmax _ _ Hq) as [(e' & ? & ? & ?) Hm]. split; [exists e'; set_solver|].
      intros e''. rewrite elem_of_app, list_elem_of_singleton. intros [?| ->] ?; [by apply Hm|done].
  - intros e'. rewrite !elem_of_app, !list_elem_of_singleton. intros [?| ->]; [left; by apply Hall|by right].
Qed.

Lemma effective_fold_ok d acc d' : effective_ok d' acc -> effective_ok (d' ++ d) (foldl effectiveStep acc d).
Proof.
  revert acc d'. induction d as [|e d IH]; intros acc d' H; simpl; [by rewrite app_nil_r|].
  rewrite (assoc (++) d' [e] d). apply IH. by apply effectiveStep_ok.
Qed.

Lemma effective_ok_nil : effective_ok [] ([], ∅).
Proof.
  split_and!; simpl; [apply NoDup_nil_2| |intros ? ?; by rewrite lookup_empty|by intros e ?%not_elem_of_nil].
  intros pattern. rewrite lookup_empty. split; [by intros ?%not_elem_of_nil|by intros ?%is_Some_None].
Qed.

Lemma effectiveEntries_elem d e :
  e ∈ effectiveEntries d
  <-> e ∈ d /\ forall e', e' ∈ d -> Pattern e' = Pattern e ->
        (permission_rank (Permission e') <= permission_rank (Permission e))%Z.
Proof.
  unfold effectiveEntries.
  pose proof (effective_fold_ok d ([], ∅) [] effective_ok_nil) as H.
  simpl in H. destruct (foldl effectiveStep ([], ∅) d) as [order effective]. destruct H as (_ & Hdom & Hmax & Hall).
  simpl in *. rewrite list_elem_of_fmap. split.
  - intros (pattern & -> & [p Hp]%Hdom). simpl. rewrite Hp. simpl.
    destruct (Hmax _ _ Hp) as [([pt pm] & He & <- & <-) Hm]. done.
  - intros [He Hm]. exists (Pattern e). pose proof (Hall _ He) as Ho. split; [|done].
    apply Hdom in Ho as [p Hp]. rewrite Hp. destruct (Hmax _ _ Hp) as [(e' & He' & Hpe & <-) Hm'].
    destruct e as [pattern perm]. simpl in *. f_equal. apply permission_rank_inj.
    specialize (Hm' _ He eq_refl). specialize (Hm _ He' Hpe). simpl in *. lia.
Qed.

Lemma DeniedDomains_elem s pattern :
  pattern ∈ DeniedDomains s <-> mkEntry pattern DomainPermissionDeny ∈ cloneDomains s.
Proof.
  unfold DeniedDomains, domainEntries, cloneDomains. destruct (Domains s) as [d|]; simpl.
  - rewrite list_elem_of_fmap. split.
    + intros ([q pm] & -> & [Hp He]%list_elem_of_filter). simpl in *. subst. by apply effectiveEntries_elem in He as [He _].
    + intros He. exists (mkEntry pattern DomainPermissionDeny). split; [done|]. apply list_elem_of_filter.
      split; [done|]. apply effectiveEntries_elem. split; [done|]. intros e' _ _. simpl.
      pose proof (permission_rank_range (Permission e')). lia.
  - by split; intros ?%not_elem_of_nil.
Qed.

Lemma AllowedDomains_elem s pattern :
  pattern ∈ AllowedDomains s
  <-> mkEntry pattern DomainPermissionAllow ∈ cloneDomains s /\ pattern ∉ DeniedDomains s.
Proof.
  rewrite DeniedDomains_elem. unfold AllowedDomains, domainEntries, cloneDomains. destruct (Domains s) as [d|]; simpl.
  - rewrite list_elem_of_fmap. split.
    + intros ([q pm] & -> & [Hp He]%list_elem_of_filter). simpl in *. subst.
      apply effectiveEntries_elem in He as [He Hm]. split; [done|]. intros Hd. specialize (Hm _ Hd eq_refl). done.
    + intros [He Hn]. exists (mkEntry pattern DomainPermissionAllow). split; [done|]. apply list_elem_of_filter.
      split; [done|]. apply effectiveEntries_elem. split; [done|]. intros [q pm] He' Hq. simpl in *. subst.
      destruct pm; simpl; [lia|lia|done].
  - split; [by intros ?%not_elem_of_nil|by intros [?%not_elem_of_nil _]].
Qed.

(** ** Plain domains

    Letters, digits, [-], [_] and dots, not starting with a dot: what the
    wildcard forms are meant for. *)

Definition domain_byte (c : ascii) : bool :=
  in_range 65 90 (bval c) || in_range 97 122 (bval c) || in_range 48 57 (bval c)
  || (bval c =? 45)%Z || (bval c =? 95)%Z || (bval c =? 46)%Z.

Definition plain_domain (d : gostring) : bool :=
  match d with c :: _ => negb (bval c =? 46)%Z && forallb domain_byte d | [] => false end.

(** The normal form of a plain domain. *)
Definition canon (d : gostring) : gostring := map ascii_lower (trim_right_byte "." d).

Lemma domain_byte_spec c :
  domain_byte c = true <->
  (65 <= bval c <= 90 \/ 97 <= bval c <= 122 \/ 48 <= bval c <= 57 \/ bval c = 45 \/ bval c = 95 \/ bval c = 46)%Z.
Proof. unfold domain_byte. rewrite !orb_true_iff, !in_range_spec, !Z.eqb_eq. tauto. Qed.

Lemma domain_byte_ne c d : domain_byte c = true -> domain_byte d = false -> c <> d.
Proof. congruence. Qed.

Lemma domain_byte_ascii c : domain_byte c = true -> (bval c < 128)%Z /\ is_space (bval c) = false.
Proof.
  intros H%domain_byte_spec. split; [lia|]. apply not_true_iff_false. unfold is_space.
  rewrite !orb_true_iff, !in_range_spec, !Z.eqb_eq. lia.
Qed.

(** A printable ASCII byte that is no white space. *)
Definition solid (c : ascii) : Prop := (bval c < 128)%Z /\ is_space (bval c) = false.

Lemma trim_space_solid s : Forall solid s -> trim_space s = s.
Proof.
  intros Hs. destruct s as [|c s]; [done|]. pose proof Hs as [[Hc1 Hc2] _]%Forall_cons.
  apply trim_space_clean; [done..|]. destruct (exists_last (l := c :: s)) as (s' & z & E); [done|].
  rewrite E in *. apply Forall_app in Hs as [_ [[Hz1 Hz2] _]%Forall_cons]. by apply clean_right_snoc.
Qed.

Lemma trim_left_byte_spec c s :
  exists n, s = replicate n c ++ trim_left_byte c s /\ head (trim_left_byte c s) <> Some c.
Proof.
  induction s as [|d s (n & IH & Hh)]; [by exists 0%nat|]. simpl. case_decide as E.
  - subst. exists (S n). simpl. by rewrite <- IH.
  - exists 0%nat. split; [done|]. simpl. congruence.
Qed.

Lemma trim_right_byte_spec c s :
  exists n, s = trim_right_byte c s ++ replicate n c /\ last (trim_right_byte c s) <> Some c.
Proof.
  destruct (trim_left_byte_spec c (rev s)) as (n & E & Hh). exists n. unfold trim_right_byte.
  assert (forall l : gostring, rev l = reverse l) as Hrev by apply rev_alt.
  split; [|by rewrite (Hrev (trim_left_byte _ _)), last_reverse].
  rewrite <- (rev_involutive s) at 1. rewrite E at 1. rewrite rev_app_distr. f_equal.
  rewrite Hrev. apply reverse_replicate.
Qed.

Lemma trim_right_byte_id c s : last s <> Some c -> trim_right_byte c s = s.
Proof.
  intros Hl. destruct (trim_right_byte_spec c s) as (n & E & _). destruct n as [|n].
  - simpl in E. by rewrite app_nil_r in E.
  - destruct Hl. rewrite E, replicate_S_end, (assoc (++)). apply last_snoc.
Qed.

(** ** Letters *)

Section Plain.
Context (lower : rune -> rune).

Lemma to_lower_ascii s : Forall (fun c => bval c < 128)%Z s -> to_lower lower s = map ascii_lower s.
Proof.
  intros Hs. unfold to_lower. destruct (forallb _ s) eqn:E; [done|]. exfalso.
  rewrite <- not_true_iff_false in E. apply E. apply forallb_forall. intros c Hc.
  rewrite Forall_forall in Hs. apply Z.ltb_lt, Hs. by apply list_elem_of_In.
Qed.

Lemma bval_ascii_lower c :
  (bval (ascii_lower c) = if in_range 65 90 (bval c) then bval c + 32 else bval c)%Z.
Proof.
  unfold ascii_lower. destruct (in_range 65 90 (bval c)) eqn:E; [|done].
  apply in_range_spec in E. apply bval_byte_of. lia.
Qed.

Lemma ascii_lower_idem c : ascii_lower (ascii_lower c) = ascii_lower c.
Proof.
  apply bval_inj. rewrite !bval_ascii_lower. destruct (in_range 65 90 (bval c)) eqn:E; [|by rewrite E].
  apply in_range_spec in E. by rewrite in_range_false by lia.
Qed.

Lemma map_lower_idem s : map ascii_lower (map ascii_lower s) = map ascii_lower s.
Proof. rewrite map_map. apply map_ext. apply ascii_lower_idem. Qed.

Lemma domain_byte_lower c : domain_byte c = true -> domain_byte (ascii_lower c) = true.
Proof.
  rewrite !domain_byte_spec, bval_ascii_lower. destruct (in_range 65 90 (bval c)) eqn:E; [|done].
  apply in_range_spec in E. lia.
Qed.

Lemma ascii_lower_dot c : ascii_lower c = "."%char <-> c = "."%char.
Proof.
  split; [|by intros ->]. intros E. apply bval_inj. apply (f_equal bval) in E. revert E.
  rewrite bval_ascii_lower. change (bval ".") with 46%Z.
  destruct (in_range _ _ _) eqn:E2; [apply in_range_spec in E2; lia|done].
Qed.

Lemma trim_right_lower s : trim_right_byte "." (map ascii_lower s) = map ascii_lower (trim_right_byte "." s).
Proof.
  unfold trim_right_byte. rewrite !map_rev. f_equal. rewrite <- map_rev.
  induction (rev s) as [|c l IH]; [done|]. simpl. case_decide as E; case_decide as E'; [done| |..]; try done.
  - by apply (proj1 (ascii_lower_dot c)) in E.
  - by apply (proj2 (ascii_lower_dot c)) in E'.
Qed.

Lemma plain_domain_cons d : plain_domain d = true ->
  exists c s, d = c :: s /\ c <> "."%char /\ Forall (fun c => domain_byte c = true) d.
Proof.
  destruct d as [|c s]; [done|]. cbn [plain_domain]. rewrite andb_true_iff, negb_true_iff, Z.eqb_neq.
  intros [Hc Hf]. exists c, s. split_and!; [done|by intros ->|].
  rewrite forallb_forall in Hf. apply Forall_forall. intros x Hx. apply Hf. by apply list_elem_of_In.
Qed.

Lemma plain_solid d : Forall (fun c => domain_byte c = true) d -> Forall solid d.
Proof. intros H. eapply Forall_impl; [exact H|]. intros c. apply domain_byte_ascii. Qed.

Lemma plain_avoids d c : Forall (fun c => domain_byte c = true) d -> domain_byte c = false -> c ∉ d.
Proof. rewrite Forall_forall. intros H Hc Hin. by rewrite (H _ Hin) in Hc. Qed.

Lemma trim_right_prefix c s : exists t, s = trim_right_byte c s ++ t.
Proof. destruct (trim_right_byte_spec c s) as (n & E & _). by eexists. Qed.

Lemma canon_plain d : plain_domain d = true -> plain_domain (canon d) = true.
Proof.
  intros (c & s & -> & Hc & Hf)%plain_domain_cons. unfold canon.
  destruct (trim_right_byte_spec "." (c :: s)) as (n & E & _).
  destruct (trim_right_byte "." (c :: s)) as [|c' t] eqn:Et.
  { destruct n; [done|]. by injection E as -> _. }
  rewrite E in Hf. apply Forall_app in Hf as [Hf _]. injection E as <- E. cbn [map plain_domain].
  rewrite andb_true_iff, negb_true_iff, Z.eqb_neq. split.
  - intros Hb. apply Hc, ascii_lower_dot, bval_inj, Hb.
  - change (ascii_lower c :: map ascii_lower t) with (map ascii_lower (c :: t)). apply forallb_forall.
    intros x (y & <- & Hy)%in_map_iff. apply domain_byte_lower. rewrite Forall_forall in Hf. apply Hf.
    by apply list_elem_of_In.
Qed.

Lemma canon_last d : last (canon d) <> Some "."%char.
Proof.
  unfold canon. destruct (trim_right_byte_spec "." d) as (_ & _ & Hl).
  change (map ascii_lower (trim_right_byte "." d)) with (ascii_lower <$> trim_right_byte "." d).
  rewrite fmap_last. revert Hl. destruct (last (trim_right_byte "." d)) as [c|]; simpl; [|done].
  intros Hl [= E]. apply (proj1 (ascii_lower_dot c)) in E. by subst.
Qed.

Lemma canon_lower d : map ascii_lower (canon d) = canon d.
Proof. apply map_lower_idem. Qed.

Lemma canon_trim d : trim_right_byte "." (canon d) = canon d.
Proof. apply trim_right_byte_id, canon_last. Qed.

Lemma str_index_absent c sub s : c ∉ s -> str_index s (c :: sub) = None.
Proof.
  induction s as [|d s IH]; intros Hc; [done|]. apply not_elem_of_cons in Hc as [Hd Hc].
  simpl. unfold has_prefix. simpl. rewrite decide_False by done. by rewrite IH.
Qed.

Lemma count_byte_None c s : c ∉ s -> count_byte c s = 0%nat.
Proof.
  unfold count_byte. induction s as [|d s IH]; [done|]. intros [Hd Hc]%not_elem_of_cons.
  rewrite filter_cons_False by congruence. by apply IH.
Qed.

Lemma normalizeIPLiteral_plain s : "%"%char ∉ s -> default s (Host.normalizeIPLiteral s) = s.
Proof.
  intros Hp. unfold Host.normalizeIPLiteral, Host.scopedLiteral.
  change (str "%25") with ("%"%char :: str "25"). change (str "%") with ["%"%char].
  rewrite !str_index_absent by done. cbn [mbind option_bind]. by destruct (Host.isUnscopedIP s).
Qed.

Lemma NormalizeHost_plain d : plain_domain d = true -> Host.NormalizeHost lower d = canon d.
Proof.
  intros Hd. pose proof Hd as (c & s & Ed & Hc & Hf)%plain_domain_cons. unfold Host.NormalizeHost.
  rewrite trim_space_solid by (by apply plain_solid).
  assert (cut_prefix d "[" = None) as ->.
  { destruct (cut_prefix d "[") as [r|] eqn:E; [|done]. apply cut_prefix_Some in E.
    exfalso. apply (plain_avoids d "[" Hf eq_refl). rewrite E. by left. }
  rewrite count_byte_None by (by apply plain_avoids). simpl. unfold Host.normalizeDNSHostOrIPLiteral.
  rewrite to_lower_ascii by (eapply Forall_impl; [exact Hf|]; intros x Hx; by apply domain_byte_ascii).
  rewrite trim_right_lower. apply normalizeIPLiteral_plain.
  pose proof (canon_plain d Hd) as (c' & s' & _ & _ & Hf')%plain_domain_cons. by apply plain_avoids.
Qed.

Lemma plain_tokens d : plain_domain d = true -> tokens d = TByte <$> d.
Proof.
  intros (c & s & _ & _ & Hf)%plain_domain_cons. apply tokens_plain. eapply Forall_impl; [exact Hf|].
  intros x Hx. split_and!; by apply domain_byte_ne.
Qed.

End Plain.

(** ** What a pattern means *)

Definition kind_prefix (k : domainPatternKind) : gostring :=
  match k with domainExact => [] | domainSubdomainsOnly => "*." | domainApexAndSubdomains => "**." end.

(** How a pattern is written, and its normal form. *)
Definition render (p : domainPattern) : gostring := kind_prefix (kind p) ++ domain p.
Definition canon_pattern (p : domainPattern) : domainPattern := mkPattern (kind p) (canon (domain p)).
Definition plain_pattern (p : domainPattern) : Prop := plain_domain (domain p) = true.

Definition strict_sub (h d : gostring) : Prop := exists w, w <> [] /\ h = w ++ "." ++ d.

(** The hosts of a pattern. *)
Definition host_in (p : domainPattern) (h : gostring) : Prop :=
  match kind p with
  | domainExact => h = domain p
  | domainSubdomainsOnly => strict_sub h (domain p)
  | domainApexAndSubdomains => h = domain p \/ strict_sub h (domain p)
  end.

Lemma render_solid p : plain_pattern p -> Forall solid (render p).
Proof.
  intros (c & s & _ & _ & Hf)%plain_domain_cons. apply Forall_app_2; [|by apply plain_solid].
  destruct (kind p); simpl; repeat constructor; done.
Qed.

Lemma plain_no_star d rest pre : plain_domain d = true -> d <> "*"%char :: pre ++ rest.
Proof.
  intros (c & s & _ & _ & Hf)%plain_domain_cons ->. apply Forall_cons in Hf as [Hc _]. done.
Qed.

Lemma cut_prefix_plain d pre : plain_domain d = true -> cut_prefix d ("*"%char :: pre) = None.
Proof.
  intros Hd. destruct (cut_prefix d _) as [r|] eqn:E; [|done]. apply cut_prefix_Some in E.
  by destruct (plain_no_star d r pre Hd).
Qed.

(** The three forms, by the prefixes that are tried. *)
Lemma render_cases p (A : Type) (f : gostring -> domainPatternKind -> A) : plain_pattern p ->
  render p <> [] /\ render p <> str "*"
  /\ match cut_prefix (render p) "**." with
     | Some rest => f rest domainApexAndSubdomains
     | None => match cut_prefix (render p) "*." with
               | Some rest => f rest domainSubdomainsOnly
               | None => f (render p) domainExact
               end
     end = f (domain p) (kind p).
Proof.
  intros Hp. pose proof Hp as (c & s & E & Hc & _)%plain_domain_cons. unfold render.
  destruct (kind p) eqn:Ek; cbn [kind_prefix app].
  - change (str "**.") with ("*"%char :: str "*."). change (str "*.") with ("*"%char :: str ".").
    rewrite !cut_prefix_plain by done. split_and!; [by rewrite E| |done].
    intros Ed. by apply (plain_no_star (domain p) [] []).
  - assert (cut_prefix (str "*." ++ domain p) "**." = None) as -> by (by rewrite E; simpl).
    rewrite cut_prefix_app. split_and!; [done| |done]. by rewrite E.
  - rewrite cut_prefix_app. done.
Qed.

Lemma parseDomainPattern_render p : plain_pattern p -> parseDomainPattern (render p) = p.
Proof.
  intros Hp. unfold parseDomainPattern. rewrite trim_space_solid by (by apply render_solid).
  assert (trim_space (domain p) = domain p) as Ht.
  { apply trim_space_solid. pose proof Hp as (c & s & _ & _ & Hf)%plain_domain_cons. by apply plain_solid. }
  destruct (render_cases p _ (fun rest k => match k with domainExact => mkPattern domainExact rest
                                            | k => parseDomainKind rest k end) Hp)
    as (Hn & _ & E). rewrite decide_False by done. cbv beta iota in E. rewrite E.
  destruct p as [k d]. destruct k; simpl in *; [done|..]; unfold parseDomainKind; rewrite Ht.
  all: apply plain_domain_cons in Hp as (c & s & Ed & _); simpl in Ed; by rewrite decide_False by (by rewrite Ed).
Qed.

(** A pattern whose domain is in normal form. *)
Definition canonical (p : domainPattern) : Prop := plain_pattern p /\ canon (domain p) = domain p.

Lemma canon_idem d : canon (canon d) = canon d.
Proof. unfold canon at 1. rewrite canon_trim. apply canon_lower. Qed.

Lemma canon_pattern_canonical p : plain_pattern p -> canonical (canon_pattern p).
Proof. intros Hp. split; [by apply canon_plain|apply canon_idem]. Qed.

Lemma canonical_lower p : canonical p -> map ascii_lower (domain p) = domain p.
Proof. intros [_ <-]. apply canon_lower. Qed.

Lemma glob_subdomains d h : plain_domain d = true ->
  matches false (tokens ("?*." ++ d)) h <-> strict_sub h d.
Proof.
  intros Hd. change (str "?*." ++ d) with ("?"%char :: "*"%char :: "."%char :: d).
  assert (tokens ("?"%char :: "*"%char :: "."%char :: d) = TOne :: TStar :: TByte "."%char :: tokens d) as ->
    by by rewrite !tokens_cons.
  rewrite (plain_tokens d Hd).
  rewrite matches_one_inv by done. unfold strict_sub. split.
  - intros (ch & s & -> & _ & (w & s' & -> & _ & Hm)%matches_star_inv).
    apply (matches_plain false ("."%char :: d)) in Hm as ->. by exists (ch :: w).
  - intros ([|ch w] & Hw & ->); [done|]. exists ch, (w ++ "." ++ d). split_and!; [done|done|].
    apply matches_star_inv. exists w, ("." ++ d). split_and!; [done|done|].
    by apply (matches_plain false ("."%char :: d)).
Qed.

Lemma expand_render p h : canonical p ->
  (exists c, c ∈ expandDomainPattern (render p) /\ globMatches (map ascii_lower c) h false = true) <-> host_in p h.
Proof.
  intros Hc. pose proof (canonical_lower p Hc) as Hl. destruct Hc as [Hp _]. unfold expandDomainPattern.
  rewrite parseDomainPattern_render by done. unfold host_in.
  assert (globMatches (map ascii_lower (domain p)) h false = true <-> h = domain p) as Hexact.
  { rewrite Hl, globMatches_spec, plain_tokens by done. apply matches_plain. }
  assert (globMatches (map ascii_lower ("?*." ++ domain p)) h false = true <-> strict_sub h (domain p)) as Hsub.
  { rewrite map_app, Hl, globMatches_spec. apply (glob_subdomains _ _ Hp). }
  rewrite <- (Exists_exists (fun c => globMatches (map ascii_lower c) h false = true)).
  destruct (kind p); rewrite !Exists_cons, Exists_nil, ?Hexact, ?Hsub; tauto.
Qed.

Lemma expand_ascii p c : plain_pattern p -> c ∈ expandDomainPattern (render p) ->
  Forall (fun c => bval c < 128)%Z c.
Proof.
  intros Hp. unfold expandDomainPattern. rewrite parseDomainPattern_render by done.
  assert (Forall (fun c => bval c < 128)%Z (domain p)) as Hd.
  { pose proof Hp as (c' & s & _ & _ & Hf)%plain_domain_cons. eapply Forall_impl; [exact Hf|].
    intros x Hx. by apply domain_byte_ascii. }
  assert (Forall (fun c => bval c < 128)%Z ("?*." ++ domain p)) as Hs.
  { apply Forall_app_2; [|done]. repeat constructor. }
  destruct (kind p); rewrite ?elem_of_cons, elem_of_nil; naive_solver.
Qed.

(** ** Compiled sets *)

Section Compiled.
Context {env : GoEnv}.
Notation ToLower := (to_lower unicode_lower).

Definition set_ok (acc : domainGlobSet * gset gostring) : Prop := acc.2 = list_to_set acc.1.

Lemma addCandidates_elem cs acc : set_ok acc ->
  set_ok (foldl addCandidate acc cs)
  /\ forall x, x ∈ (foldl addCandidate acc cs).1 <-> x ∈ acc.1 \/ exists c, c ∈ cs /\ x = ToLower c.
Proof.
  revert acc. induction cs as [|c cs IH]; intros [compiled seen] Hok; simpl; [set_solver|].
  unfold set_ok in *. simpl in *. subst.
  case_decide as Hin.
  - destruct (IH (compiled, list_to_set compiled)) as [Hok Hx]; [done|]. split; [done|].
    intros x. rewrite Hx. simpl. rewrite elem_of_list_to_set in Hin. set_solver.
  - destruct (IH (compiled ++ [ToLower c], {[ToLower c]} ∪ list_to_set compiled)) as [Hok Hx];
      [simpl; set_solver|]. split; [done|]. intros x. rewrite Hx. simpl. set_solver.
Qed.

(** The patterns a compiled set holds. *)
Definition candidate_of (patterns : list gostring) (x : gostring) : Prop :=
  exists pattern c, pattern ∈ patterns /\ c ∈ expandDomainPattern (normalizePattern pattern) /\ x = ToLower c.

Lemma compileLoop_elem policy patterns acc set : set_ok acc ->
  compileLoop policy patterns acc = Ok set -> forall x, x ∈ set <-> x ∈ acc.1 \/ candidate_of patterns x.
Proof.
  revert acc. induction patterns as [|pattern patterns IH]; intros acc Hok; simpl.
  { intros [= <-] x. unfold candidate_of. set_solver. }
  destruct (_ && _); [done|].
  destruct (addCandidates_elem (expandDomainPattern (normalizePattern pattern)) acc Hok) as [Hok' Hx].
  intros E x. rewrite (IH _ Hok' E), Hx. unfold candidate_of. split.
  - intros [[?|(c & ? & ?)]|(q & c & ? & ? & ?)]; [by left|right..].
    + exists pattern, c. set_solver.
    + exists q, c. set_solver.
  - intros [?|(q & c & [->|?]%elem_of_cons & ? & ?)]; [by left; left|left; right; by exists c|right; by exists q, c].
Qed.

Lemma compile_allow_Ok patterns : exists set, compileAllowlistGlobset patterns = Ok set.
Proof.
  unfold compileAllowlistGlobset, compileGlobsetWithPolicy. generalize (@nil gostring, ∅ : gset gostring).
  induction patterns as [|pattern patterns IH]; intros acc; simpl; [by eexists|apply IH].
Qed.

Lemma match_spec set host :
  match_ set host = true <-> exists x, x ∈ set /\ matches false (tokens x) (ToLower host).
Proof.
  unfold match_. rewrite existsb_exists. setoid_rewrite globMatches_spec. by setoid_rewrite list_elem_of_In.
Qed.

(** A compiled set matches what one of its patterns matches. *)
Lemma compiled_match policy patterns set host :
  compileGlobsetWithPolicy patterns policy = Ok set ->
  match_ set host = true
  <-> exists pattern c, pattern ∈ patterns /\ c ∈ expandDomainPattern (normalizePattern pattern)
        /\ matches false (tokens (ToLower c)) (ToLower host).
Proof.
  intros E. rewrite match_spec. pose proof (compileLoop_elem _ _ ([], ∅) _ ltac:(done) E) as Hx. simpl in Hx.
  setoid_rewrite Hx. unfold candidate_of. split.
  - intros (x & [?%not_elem_of_nil|(q & c & ? & ? & ->)] & Hm); [done|by exists q, c].
  - intros (q & c & ? & ? & Hm). exists (ToLower c). split; [right; by exists q, c|done].
Qed.

Lemma normalizePattern_render p : plain_pattern p -> normalizePattern (render p) = render (canon_pattern p).
Proof.
  intros Hp. unfold normalizePattern. rewrite trim_space_solid by (by apply render_solid).
  destruct (render_cases p _ (fun rest k => kind_prefix k ++ Host.NormalizeHost unicode_lower rest) Hp) as (_ & Hn & E).
  rewrite decide_False by done. cbn [kind_prefix app] in E. 
  change (render (canon_pattern p)) with (kind_prefix (kind p) ++ canon (domain p)).
  rewrite <- (NormalizeHost_plain unicode_lower (domain p) Hp). exact E.
Qed.

Lemma parseForConstraints_render p :
  (forall d, plain_domain d = true -> last d <> Some "."%char -> url_hostname d = Some d) ->
  plain_pattern p -> parseDomainPatternForConstraints (render p) = canon_pattern p.
Proof.
  intros Hurl Hp. unfold parseDomainPatternForConstraints. rewrite trim_space_solid by (by apply render_solid).
  assert (parseDomainForConstraints (domain p) = canon (domain p)) as Ed; [|].
  { unfold parseDomainForConstraints. pose proof Hp as (c & s & Ed & Hc & Hf)%plain_domain_cons.
    rewrite trim_space_solid by (by apply plain_solid).
    destruct (trim_right_byte_spec "." (domain p)) as (n & E & Hl).
    set (d := trim_right_byte "." (domain p)) in *. rewrite E in Hf. apply Forall_app in Hf as [Hf _].
    assert (d <> []) as Hd.
    { intros Hd. rewrite Hd in E. rewrite Ed in E. destruct n; [done|]. by injection E as -> _. }
    rewrite decide_False by done.
    assert (has_prefix d "[" = false) as ->.
    { apply not_true_iff_false. rewrite has_prefix_true. intros [r Er].
      apply (plain_avoids d "[" Hf eq_refl). rewrite Er. by left. }
    simpl. rewrite bool_decide_false.
    2: { rewrite Exists_exists. intros (x & Hx & Hor). rewrite Forall_forall in Hf. specialize (Hf _ Hx).
         by destruct Hor as [->|[->| ->]]. }
    rewrite Hurl; [|..|done].
    - apply to_lower_ascii. eapply Forall_impl; [exact Hf|]. intros x Hx. by apply domain_byte_ascii.
    - destruct d as [|c' t]; [done|]. rewrite Ed in E. injection E as <- _. cbn [plain_domain].
      rewrite andb_true_iff, negb_true_iff, Z.eqb_neq. split.
      + intros Hb. by apply Hc, bval_inj.
      + apply forallb_forall. intros x Hx. rewrite Forall_forall in Hf. apply Hf. by apply list_elem_of_In. }
  destruct (render_cases p _ (fun rest k => mkPattern k (parseDomainForConstraints rest)) Hp) as (Hn & _ & E).
  rewrite decide_False by done. rewrite E. unfold canon_pattern. by rewrite Ed.
Qed.

(** A compiled list of plain patterns matches exactly their hosts. *)
Lemma compiled_hosts policy ps set host :
  Forall plain_pattern ps -> compileGlobsetWithPolicy (map render ps) policy = Ok set ->
  match_ set host = true <-> exists p, p ∈ ps /\ host_in (canon_pattern p) (ToLower host).
Proof.
  intros Hps E. rewrite (compiled_match _ _ _ _ E). rewrite Forall_forall in Hps. split.
  - intros (q & c & (p & -> & Hp)%list_elem_of_fmap & Hc & Hm). exists p. split; [done|].
    specialize (Hps _ Hp). rewrite normalizePattern_render in Hc by done.
    pose proof (canon_pattern_canonical p Hps) as Hcan. apply (expand_render _ _ Hcan). exists c. split; [done|].
    rewrite globMatches_spec. by rewrite to_lower_ascii in Hm by (by apply (expand_ascii (canon_pattern p) c (proj1 Hcan))).
  - intros (p & Hp & Hh). specialize (Hps _ Hp). pose proof (canon_pattern_canonical p Hps) as Hcan.
    apply (expand_render _ _ Hcan) in Hh as (c & Hc & Hm). rewrite globMatches_spec in Hm.
    exists (render p), c. split_and!; [apply list_elem_of_fmap; by exists p| |].
    + by rewrite normalizePattern_render.
    + by rewrite to_lower_ascii by (by apply (expand_ascii (canon_pattern p) c (proj1 Hcan))).
Qed.

(** *** Hosts with a plain normal form *)

Lemma to_lower_star u : head (to_lower unicode_lower ("*"%char :: u)) = Some "*"%char.
Proof.
  unfold to_lower. destruct (forallb _ _); [done|]. rewrite runes_ascii by done. cbn [map].
  rewrite encode_runes_cons. change (rune_lower unicode_lower (bval "*")) with (bval "*").
  by rewrite encode_ascii_byte by done.
Qed.

Lemma normalizeDNS_plain_head u c : c <> "."%char -> head (to_lower unicode_lower u) = Some c ->
  plain_domain (Host.normalizeDNSHostOrIPLiteral unicode_lower u) = true -> domain_byte c = true.
Proof.
  intros Hc Hh Hp. unfold Host.normalizeDNSHostOrIPLiteral in Hp.
  destruct (trim_right_byte_spec "." (to_lower unicode_lower u)) as (n & E & _).
  set (h := trim_right_byte "." (to_lower unicode_lower u)) in *.
  destruct h as [|c' h'] eqn:Eh.
  { rewrite E in Hh. destruct n; [done|]. by injection Hh as <-. }
  rewrite E in Hh. injection Hh as ->.
  assert (default (c :: h') (Host.normalizeIPLiteral (c :: h')) = c :: h') as Ed; [|rewrite Ed in Hp].
  { unfold Host.normalizeIPLiteral, Host.scopedLiteral in *.
    assert (forall ip scope : gostring, plain_domain (ip ++ "%" ++ scope) <> true) as Hno.
    { intros ip scope (x & s' & _ & _ & Hf)%plain_domain_cons. apply Forall_app in Hf as [_ [Hf _]%Forall_cons]. done. }
    destruct (str_index _ "%25"); cbn [mbind option_bind] in *;
      [destruct (Host.isUnscopedIP _); [by apply Hno in Hp|]|];
      (destruct (str_index _ "%"); cbn [mbind option_bind] in *;
        [destruct (Host.isUnscopedIP (take _ _)); [by apply Hno in Hp|]|]);
      by destruct (Host.isUnscopedIP (c :: h')). }
  apply plain_domain_cons in Hp as (x & s' & [= -> ->] & _ & Hf). by apply Forall_cons in Hf as [? _].
Qed.

Lemma NormalizeHost_star e r : trim_space e = "*"%char :: r ->
  plain_domain (Host.NormalizeHost unicode_lower e) = true -> False.
Proof.
  intros Et Hp. unfold Host.NormalizeHost in Hp. rewrite Et in Hp.
  assert (cut_prefix ("*"%char :: r) "[" = None) as En by done. rewrite En in Hp. clear En.
  assert (exists u, plain_domain (Host.normalizeDNSHostOrIPLiteral unicode_lower ("*"%char :: u)) = true) as [u Hu].
  { destruct (_ =? 1)%nat; [|by exists r]. destruct (cut_byte ":" _) as [[before after]|] eqn:Ec; [|by exists r].
    apply cut_byte_spec in Ec as [E _]. destruct before as [|x before]; [done|]. injection E as <- _. by exists before. }
  apply (normalizeDNS_plain_head _ "*"%char) in Hu; [done|done|apply to_lower_star].
Qed.

Lemma NormalizeHost_trim e : Host.NormalizeHost unicode_lower (trim_space e) = Host.NormalizeHost unicode_lower e.
Proof. unfold Host.NormalizeHost. by rewrite trim_space_idem. Qed.

(** A pattern that names a plain host is compiled to it. *)
Lemma normalizePattern_exact e n : Host.NormalizeHost unicode_lower e = n -> plain_domain n = true ->
  normalizePattern e = n.
Proof.
  intros <- Hp. unfold normalizePattern. case_decide as Hs; [by destruct (NormalizeHost_star e [] Hs Hp)|].
  destruct (cut_prefix (trim_space e) "**.") as [r|] eqn:E1.
  { apply cut_prefix_Some in E1. by destruct (NormalizeHost_star e ("*." ++ r) E1 Hp). }
  destruct (cut_prefix (trim_space e) "*.") as [r|] eqn:E2.
  { apply cut_prefix_Some in E2. by destruct (NormalizeHost_star e ("." ++ r) E2 Hp). }
  apply NormalizeHost_trim.
Qed.

(** The set compiled from patterns that name a canonical host matches it. *)
Lemma compiled_exact policy patterns set e n :
  compileGlobsetWithPolicy patterns policy = Ok set -> e ∈ patterns -> Host.NormalizeHost unicode_lower e = n ->
  plain_domain n = true -> canon n = n -> match_ set n = true.
Proof.
  intros E He En Hp Hc. rewrite (compiled_match _ _ _ _ E).
  assert (canonical (mkPattern domainExact n)) as Hcan by done.
  destruct (proj2 (expand_render (mkPattern domainExact n) n Hcan) eq_refl) as (c & Hin & Hm).
  rewrite globMatches_spec in Hm. exists e, c. rewrite (normalizePattern_exact e n En Hp).
  split_and!; [done|done|]. rewrite !to_lower_ascii.
  - pose proof (canonical_lower _ Hcan) as Hl. simpl in Hl. by rewrite Hl.
  - pose proof Hp as (x & s' & _ & _ & Hf)%plain_domain_cons. eapply Forall_impl; [exact Hf|].
    intros y Hy. by apply domain_byte_ascii.
  - by eapply (expand_ascii (mkPattern domainExact n)).
Qed.

Lemma NormalizeHost_canonical n : plain_domain n = true -> canon n = n -> Host.NormalizeHost unicode_lower n = n.
Proof. intros Hp Hc. by rewrite NormalizeHost_plain. Qed.

(** *** The order on patterns *)

Lemma strict_sub_trans h c d : strict_sub h c -> strict_sub c d -> strict_sub h d.
Proof.
  intros (w & Hw & ->) (v & Hv & ->). exists (w ++ "." ++ v). split; [by destruct w|]. by rewrite <- !(assoc (++)).
Qed.

Lemma strict_sub_length h d : strict_sub h d -> (length d + 1 < length h)%nat.
Proof. intros (w & Hw & ->). rewrite !length_app. destruct w; [done|]. simpl. lia. Qed.

Lemma strict_sub_cons x d : strict_sub ([x] ++ "." ++ d) d.
Proof. by exists [x]. Qed.

Lemma suffix_strict c d : plain_domain c = true -> has_suffix c ("." ++ d) = true <-> strict_sub c d.
Proof.
  intros (x & s & E & Hx & _)%plain_domain_cons. rewrite has_suffix_true. split; [|by intros (w & _ & ->); exists w].
  intros [w Ew]. exists w. split; [|done]. intros ->. rewrite E in Ew. by injection Ew as ->.
Qed.

(** One label before [c] decides: [c] is [d] or below it. *)
Lemma label_below x c d : plain_domain c = true -> strict_sub ([x] ++ "." ++ c) d -> c = d \/ strict_sub c d.
Proof.
  intros Hc ([|y w] & Hw & E); [done|]. injection E as <- E. destruct w as [|z w].
  - left. by injection E.
  - right. injection E as <- E. apply suffix_strict; [done|]. apply has_suffix_true. by exists w.
Qed.

Lemma labels_distinct d c : ~ (["a"%char] ++ "." ++ c = d /\ (["b"%char] ++ "." ++ c = d \/ strict_sub (["b"%char] ++ "." ++ c) d)).
Proof. intros [<- [E|E%strict_sub_length]]; [done|]. simpl in E. lia. Qed.

Lemma subs_below c d (S : gostring -> Prop) : plain_domain c = true ->
  S (["a"%char] ++ "." ++ c) -> S (["b"%char] ++ "." ++ c) ->
  (forall h, S h -> strict_sub h c -> h = d \/ strict_sub h d) -> c = d \/ strict_sub c d.
Proof.
  intros Hc Sa Sb H. destruct (H _ Sa (strict_sub_cons "a" c)) as [Ea|Ea]; [|by eapply label_below].
  destruct (labels_distinct d c). split; [done|]. apply H; [done|apply strict_sub_cons].
Qed.

Section Order.
Context (p c : domainPattern) (Hp : canonical p) (Hc : canonical c).

Lemma normalizeDomain_canonical q : canonical q -> normalizeDomain (domain q) = domain q.
Proof.
  intros [Hq Eq]. unfold normalizeDomain. rewrite <- Eq at 1. rewrite canon_trim, Eq.
  pose proof Hq as (x & s & _ & _ & Hf)%plain_domain_cons. rewrite to_lower_ascii.
  - rewrite <- Eq. apply canon_lower.
  - eapply Forall_impl; [exact Hf|]. intros y Hy. by apply domain_byte_ascii.
Qed.

Lemma isStrictSubdomain_spec : isStrictSubdomain (domain c) (domain p) = true <-> strict_sub (domain c) (domain p).
Proof.
  unfold isStrictSubdomain. rewrite !normalizeDomain_canonical, andb_true_iff, bool_decide_eq_true by done.
  rewrite suffix_strict by apply Hc. split; [by intros [_ H]|]. intros H. split; [|done]. intros E.
  apply strict_sub_length in H. rewrite E in H. lia.
Qed.

Lemma isSubdomainOrEqual_spec :
  isSubdomainOrEqual (domain c) (domain p) = true <-> domain c = domain p \/ strict_sub (domain c) (domain p).
Proof.
  unfold isSubdomainOrEqual. rewrite !normalizeDomain_canonical, orb_true_iff, bool_decide_eq_true by done.
  by rewrite suffix_strict by apply Hc.
Qed.

Ltac allows_cases :=
  unfold allows, host_in; destruct (kind p) eqn:?; destruct (kind c) eqn:?;
  rewrite ?andb_true_iff, ?bool_decide_eq_true, ?isStrictSubdomain_spec, ?isSubdomainOrEqual_spec.

Lemma allows_sound h : allows p c = true -> host_in c h -> host_in p h.
Proof.
  allows_cases; try by intros [? _].
  - unfold domainEq. rewrite !normalizeDomain_canonical, bool_decide_eq_true by done. by intros [_ ->].
  - by intros ? ->.
  - intros [<-|Hd] Hh; [done|]. by eapply strict_sub_trans.
  - intros Hd [->|Hh]; [done|]. by eapply strict_sub_trans.
  - by intros ? ->.
  - intros [<-|Hd] Hh; right; [done|]. by eapply strict_sub_trans.
  - intros [<-|Hd] [->|Hh]; [by left|by right|by right|right]. by eapply strict_sub_trans.
Qed.

(** Hosts that are their own lower-case form are enough to tell. *)
Lemma allows_complete :
  (forall h, ToLower h = h -> host_in c h -> host_in p h) -> allows p c = true.
Proof.
  pose proof (proj1 Hc) as Hcp. unfold plain_pattern in Hcp.
  assert (forall l, Forall (fun x => bval x < 128)%Z l -> map ascii_lower l = l -> ToLower (l ++ domain c) = l ++ domain c)
    as Hlow.
  { intros l Hl El. rewrite to_lower_ascii.
    - rewrite map_app, El. by rewrite (canonical_lower c Hc).
    - apply Forall_app_2; [done|]. pose proof Hcp as (x & s & _ & _ & Hf)%plain_domain_cons.
      eapply Forall_impl; [exact Hf|]. intros y Hy. by apply domain_byte_ascii. }
  assert (ToLower (["a"%char] ++ "." ++ domain c) = ["a"%char] ++ "." ++ domain c) as Sa
    by (apply (Hlow ["a"; "."]%char); [by repeat constructor|done]).
  assert (ToLower (["b"%char] ++ "." ++ domain c) = ["b"%char] ++ "." ++ domain c) as Sb
    by (apply (Hlow ["b"; "."]%char); [by repeat constructor|done]).
  assert (ToLower (domain c) = domain c) as S0 by (apply (Hlow []); done).
  assert ((forall h, ToLower h = h -> strict_sub h (domain c) -> h = domain p) -> False) as Hno.
  { intros H. apply (labels_distinct (domain p) (domain c)).
    split; [|left]; apply H; solve [done | apply strict_sub_cons]. }
  allows_cases; intros H.
  - unfold domainEq. rewrite !normalizeDomain_canonical, bool_decide_eq_true by done. split; [done|by apply H].
  - by destruct Hno.
  - destruct Hno. intros h Sh Hh. apply H; [done|by right].
  - by apply H.
  - eapply label_below; [done|]. apply H; [exact Sa|apply strict_sub_cons].
  - apply H; [done|by left].
  - by apply H.
  - by apply (subs_below _ _ (fun h => ToLower h = h)).
  - apply H; [done|by left].
Qed.

End Order.

(**  The order the managed constraints use is inclusion of hosts: for
    patterns of letters, digits, hyphens, underscores and dots, with or without
    a wildcard prefix, a managed pattern allows a candidate if and only if
    every host the compiled candidate matches is matched by the compiled
    managed pattern. *)
Theorem allows_iff_included managed candidate set_m set_c :
  (forall d, plain_domain d = true -> last d <> Some "."%char -> url_hostname d = Some d) ->
  plain_pattern managed -> plain_pattern candidate ->
  compileAllowlistGlobset [render managed] = Ok set_m ->
  compileAllowlistGlobset [render candidate] = Ok set_c ->
  allows (parseDomainPatternForConstraints (render managed)) (parseDomainPatternForConstraints (render candidate)) = true
  <-> forall host, match_ set_c host = true -> match_ set_m host = true.
Proof.
  intros Hurl Hm Hc Em Ec. rewrite !parseForConstraints_render by done.
  pose proof (canon_pattern_canonical _ Hm) as Hm'. pose proof (canon_pattern_canonical _ Hc) as Hc'.
  assert (forall q set host, plain_pattern q -> compileAllowlistGlobset [render q] = Ok set ->
    match_ set host = true <-> host_in (canon_pattern q) (ToLower host)) as Hset.
  { intros q set host Hq E. rewrite (compiled_hosts globalWildcardAllow [q] set host); [|by repeat constructor|done].
    split; [by intros (q' & ->%list_elem_of_singleton & ?)|]. intros ?. exists q. split; [by left|done]. }
  split.
  - intros Ha host. rewrite (Hset candidate), (Hset managed) by done. by apply allows_sound.
  - intros Hincl. apply allows_complete; [done..|]. intros h Eh. rewrite <- Eh.
    rewrite <- (Hset candidate set_c), <- (Hset managed set_m) by done. apply Hincl.
Qed.

End Compiled.

Lemma allows_iff_included_witness :
  let managed := mkPattern domainSubdomainsOnly "example.com" in
  let candidate := mkPattern domainApexAndSubdomains "api.Example.com." in
  allows (env := ascii_env) (parseDomainPatternForConstraints (env := ascii_env) (render managed))
    (parseDomainPatternForConstraints (env := ascii_env) (render candidate)) = true
  <-> forall host, match_ (env := ascii_env) [str "api.example.com"; str "?*.api.example.com"] host = true ->
        match_ (env := ascii_env) [str "?*.example.com"] host = true.
Proof.
  apply (@allows_iff_included ascii_env).
  - intros d Hd _. simpl. by destruct d.
  - done.
  - done.
  - vm_compute. reflexivity.
  - vm_compute. reflexivity.
Defined.

(** Outside plain patterns the order is coarser than inclusion: entries whose
    domain does not parse as the host of a URL, such as IPv6 literals, all
    become the empty domain and allow each other. *)
Lemma unparsed_domains_allow (env : GoEnv) :
  url_hostname "2001:db8::1" = None -> url_hostname "2001:db8::2" = None ->
  allows (parseDomainPatternForConstraints "2001:db8::1") (parseDomainPatternForConstraints "2001:db8::2") = true.
Proof.
  intros E1 E2.
  assert (forall d : gostring, d = str "2001:db8::1" \/ d = str "2001:db8::2" ->
    parseDomainPatternForConstraints d = mkPattern domainExact []) as H; [|rewrite !H by auto; reflexivity].
  intros d Hd.
  assert (trim_space d = d /\ d <> [] /\ cut_prefix d "**." = None /\ cut_prefix d "*." = None
          /\ trim_right_byte "." d = d /\ has_prefix d "[" = false
          /\ bool_decide (Exists (fun c => c = "*"%char \/ c = "?"%char \/ c = "%"%char) d) = false)
    as (H1 & H2 & H3 & H4 & H5 & H6 & H7) by (by destruct Hd as [-> | ->]; vm_compute).
  unfold parseDomainPatternForConstraints, parseDomainForConstraints.
  rewrite H1, decide_False, H3, H4, H1, H5, decide_False, H6, andb_false_l, H7 by done.
  by destruct Hd as [-> | ->]; rewrite ?E1, ?E2.
Qed.

End Config.
