(* ===== verification/NetMitm.v ===== *)
(** * internal/networkproxy/mitmhook.go: hooks on decrypted requests

    Validation and compilation of the hook configuration, and the evaluation of
    the compiled hooks on a request, with what they use of [net/http],
    [net/textproto] and [net/url]: canonical header names and query parsing.
    Errors say which hook and field is wrong and why; their texts are not kept.
    Where the code ranges over a map and returns the first error, the order is
    that of [map_to_list]. *)

From stdpp Require Import gmap sorting.
From S2P Require Import Prelude GoStrings GoUtf8 GoText AbsPath NetGlob NetAddr NetConfig.

Module Mitm.
Import Glob Config.

(** ** Requests *)

Record Request := mkRequest {
  Method : gostring;
  URLPath : gostring;
  RawQuery : gostring;
  Header : gmap gostring (list gostring);
}.

(** ** [net/textproto] *)

Definition isTokenChar (c : ascii) : bool :=
  let b := bval c in
  if in_range 97 122 b || in_range 65 90 b || in_range 48 57 b then true
  else bool_decide (c ∈ str "!#$%&'*+-.^_`|~").

(** [upper] tells whether the next byte starts a word. *)
Fixpoint canonicalHeaderBytes (upper : bool) (s : gostring) : gostring :=
  match s with
  | [] => []
  | c :: s =>
      let c := if upper then ascii_upper c else ascii_lower c in
      c :: canonicalHeaderBytes (bool_decide (c = "-"%char)) s
  end.

(** [textproto.CanonicalMIMEHeaderKey]: names that are no tokens are kept. *)
Definition CanonicalMIMEHeaderKey (s : gostring) : gostring :=
  if forallb isTokenChar s then canonicalHeaderBytes true s else s.

(** [http.Header.Values] *)
Definition HeaderValues (req : Request) (name : gostring) : list gostring :=
  default [] (Header req !! CanonicalMIMEHeaderKey name).

(** ** [net/url]: queries *)

(** [url.QueryUnescape] *)
Fixpoint QueryUnescape (s : gostring) : option gostring :=
  match s with
  | [] => Some []
  | c :: s1 =>
      if decide (c = "%"%char) then
        match s1 with
        | h :: l :: s2 =>
            x ← Host.hex_value h; y ← Host.hex_value l;
            cons (byte_of (16 * x + y)) <$> QueryUnescape s2
        | _ => None
        end
      else cons (if decide (c = "+"%char) then " "%char else c) <$> QueryUnescape s1
  end.

(** One part of the query: the values so far, and whether an error was met. *)
Definition parseQueryPart (acc : gmap gostring (list gostring) * bool) (key : gostring)
    : gmap gostring (list gostring) * bool :=
  let '(m, failed) := acc in
  if contains key ";" then (m, true)
  else if decide (key = []) then (m, failed)
  else
    let '(key, value) := default (key, []) (cut_byte "=" key) in
    match QueryUnescape key, QueryUnescape value with
    | Some key, Some value => (<[key := default [] (m !! key) ++ [value]]> m, failed)
    | _, _ => (m, true)
    end.

(** ** Compiled hooks *)

Inductive pathMatcher := pathMatcherPrefix (literal : gostring) | pathMatcherGlob (glob : gostring).

Definition pathMatcher_matches (m : pathMatcher) (candidate : gostring) : bool :=
  match m with
  | pathMatcherPrefix literal => has_prefix candidate literal
  | pathMatcherGlob glob => globMatches glob candidate true
  end.

Inductive valueMatcher := valueMatcherExact (exact : gostring) | valueMatcherGlob (glob : gostring).

Definition valueMatcher_matches (m : valueMatcher) (candidate : gostring) : bool :=
  match m with
  | valueMatcherExact exact => bool_decide (exact = candidate)
  | valueMatcherGlob glob => globMatches glob candidate false
  end.

(** [queryConstraint] and [headerConstraint] have the same fields. *)
Record constraint := mkConstraint { cname : gostring; allowedValues : list valueMatcher }.

Inductive secretSourceKind := secretSourceEnvVar | secretSourceFile.

Record resolvedInjectedHeader := mkResolved {
  rname : gostring;
  rvalue : gostring;
  sourceKind : secretSourceKind;
  rsource : gostring;
}.

Record mitmHookMatcher := mkMatcher {
  methods : list gostring;
  pathPrefixes : list pathMatcher;
  query : list constraint;
  headers : list constraint;
}.

Record mitmHookActions := mkHookActions {
  stripRequestHeaders : list gostring;
  injectRequestHeaders : list resolvedInjectedHeader;
}.

Record mitmHook := mkMitmHook { host : gostring; matcher : mitmHookMatcher; actions : mitmHookActions }.

Definition mitmHooksByHost := gmap gostring (list mitmHook).

Inductive hookEvaluation :=
| hookNoHooksForHost
| hookMatched (actions : mitmHookActions)
| hookedHostNoMatch.

(** ** Errors *)

Inductive field_error :=
| EmptyHost | WildcardHost | EmptyMethod | EmptyGlob | EmptyPathPrefix
| UnbalancedClass (pattern : gostring)
| EmptyHeaderName | InvalidHeaderName (name : gostring)
| EmptyQueryKey | NoQueryValues (name : gostring)
| EmptySecretEnvVar | EmptySecretFile | RelativeSecretFile (path : gostring)
| SecretSource | MissingEnvVar (name : gostring) | UnreadableFile (path : gostring)
| InvalidHeaderValue (name : gostring).

Inductive hook_field :=
  FHost | FMethods | FPathPrefixes | FQuery | FHeaders | FStrip | FInject.

Inductive hook_error :=
| MitmDisabled
| InvalidField (i : nat) (f : hook_field) (e : field_error)
| EmptyField (i : nat) (f : hook_field)
| BodyUnsupported (i : nat)
| CompileField (e : field_error)
| CompileInjected (name : gostring) (e : field_error).

(** [if err := m; err != nil { return wrap(err) }] *)
Definition wrap {E E' A} (f : E -> E') (m : result E A) : result E' A :=
  match m with Ok a => Ok a | Err e => Err (f e) | Panic => Panic end.

(** ** Patterns *)

Definition literalPrefix : gostring := "literal:".
Definition patternPrefix : gostring := "pattern:".

Inductive matcherPatternKind := matcherLiteral | matcherGlob.

Definition parseMatcherPattern (pattern : gostring) : result field_error (matcherPatternKind * gostring) :=
  match cut_prefix pattern literalPrefix with
  | Some literal => Ok (matcherLiteral, literal)
  | None =>
      match cut_prefix pattern patternPrefix with
      | None => Ok (matcherLiteral, pattern)
      | Some glob => if decide (glob = []) then Err EmptyGlob else Ok (matcherGlob, glob)
      end
  end.

(** The depth of open brackets after the loop of [validateGlob]. *)
Fixpoint bracketDepth (pattern : gostring) (depth : nat) : nat :=
  match pattern with
  | [] => depth
  | c :: p =>
      if decide (c = "["%char) then bracketDepth p (S depth)
      else if decide (c = "]"%char) then bracketDepth p (depth - 1)
      else if decide (c = "092"%char) then match p with [] => depth | _ :: p => bracketDepth p depth end
      else bracketDepth p depth
  end.

Definition validateGlob (pattern : gostring) : result field_error unit :=
  if (bracketDepth pattern 0 =? 0)%nat then Ok tt else Err (UnbalancedClass pattern).

Definition compilePathMatcher (prefix : gostring) : result field_error pathMatcher :=
  '(kind, value) ← parseMatcherPattern prefix;
  match kind with
  | matcherLiteral => if decide (value = []) then Err EmptyPathPrefix else Ok (pathMatcherPrefix value)
  | matcherGlob => _ ← validateGlob value; Ok (pathMatcherGlob value)
  end.
Definition compilePathMatchers (prefixes : list gostring) : result field_error (list pathMatcher) :=
  mapM compilePathMatcher prefixes.

Definition compileValueMatcher (value : gostring) : result field_error valueMatcher :=
  '(kind, parsed) ← parseMatcherPattern value;
  match kind with
  | matcherLiteral => Ok (valueMatcherExact parsed)
  | matcherGlob => _ ← validateGlob parsed; Ok (valueMatcherGlob parsed)
  end.
Definition compileValueMatchers (values : list gostring) : result field_error (list valueMatcher) :=
  mapM compileValueMatcher values.

(** ** Names and values *)

Definition normalizeQueryName (name : gostring) : result field_error gostring :=
  if decide (name = []) then Err EmptyQueryKey else Ok name.

Definition parseHeaderName (name : gostring) : result field_error gostring :=
  if decide (name = []) then Err EmptyHeaderName
  else if forallb isTokenChar name then Ok (CanonicalMIMEHeaderKey name)
  else Err (InvalidHeaderName name).

Definition isValidHeaderValue (value : gostring) : bool :=
  forallb (fun c => bool_decide (c = "009"%char) || negb ((bval c <? 32)%Z || (bval c =? 127)%Z)) value.

Definition sortedKeys (m : gmap gostring (list gostring)) : list gostring :=
  sort_strings (map fst (map_to_list m)).

Definition compileQueryConstraint (q : gmap gostring (list gostring)) (name : gostring)
    : result field_error constraint :=
  normalized ← normalizeQueryName name;
  matchers ← compileValueMatchers (default [] (q !! name));
  Ok (mkConstraint normalized matchers).
Definition compileQueryConstraints (q : gmap gostring (list gostring)) : result field_error (list constraint) :=
  mapM (compileQueryConstraint q) (sortedKeys q).

Definition compileHeaderConstraint (h : gmap gostring (list gostring)) (name : gostring)
    : result field_error constraint :=
  parsedName ← parseHeaderName name;
  matchers ← compileValueMatchers (default [] (h !! name));
  Ok (mkConstraint parsedName matchers).
Definition compileHeaderConstraints (h : gmap gostring (list gostring)) : result field_error (list constraint) :=
  mapM (compileHeaderConstraint h) (sortedKeys h).

Definition compileStripHeaders (names : list gostring) : result field_error (list gostring) :=
  mapM parseHeaderName names.

(** [for … { if err := f(x); err != nil { return err } }] *)
Definition check_all {E A B} (f : A -> result E B) (l : list A) : result E unit :=
  _ ← mapM f l; Ok tt.

Definition validateQueryConstraints (q : gmap gostring (list gostring)) : result field_error unit :=
  check_all (fun '(name, values) =>
    normalized ← normalizeQueryName name;
    if decide (normalized = []) then Err EmptyQueryKey
    else if decide (values = []) then Err (NoQueryValues name)
    else compileValueMatchers values) (map_to_list q).

Definition validateHeaderConstraints (h : gmap gostring (list gostring)) : result field_error unit :=
  check_all (fun '(name, values) => _ ← parseHeaderName name; compileValueMatchers values) (map_to_list h).

Definition validateStripRequestHeaders (names : list gostring) : result field_error unit :=
  check_all parseHeaderName names.

Section Env.
Context {env : GoEnv}.
(** The home and working directories, on Unix. *)
Variable homeDir cwd : option gostring.

Notation NormalizeHost := (Host.NormalizeHost unicode_lower).
Notation ToUpper := (to_upper unicode_upper).

(** [url.ParseQuery]: the values, and whether there was no error. *)
Definition ParseQuery (q : gostring) : gmap gostring (list gostring) * bool :=
  if query_params_within_max (count_byte "&" q + 1)
  then let '(m, failed) := foldl parseQueryPart (∅, false) (split_byte "&" q) in (m, negb failed)
  else (∅, false).

Definition normalizeHookHost (h : gostring) : result field_error gostring :=
  let normalized := NormalizeHost h in
  if decide (normalized = []) then Err EmptyHost
  else if contains normalized "*" then Err WildcardHost
  else Ok normalized.

Definition normalizeMethod (method : gostring) : result field_error gostring :=
  let normalized := ToUpper (trim_space method) in
  if decide (normalized = []) then Err EmptyMethod else Ok normalized.
Definition normalizeMethods (ms : list gostring) : result field_error (list gostring) := mapM normalizeMethod ms.

Definition parseSecretFile (path : gostring) : result field_error gostring :=
  if decide (trim_space path = []) then Err EmptySecretFile
  else if negb (has_prefix path "/") then Err (RelativeSecretFile path)
  else match AbsPath.FromAbsolutePath false homeDir cwd path with
       | Some abs => Ok abs
       | None => Err (RelativeSecretFile path)
       end.

Definition validateInjectedHeader (h : InjectedHeaderConfig) : result field_error unit :=
  _ ← parseHeaderName (Name h);
  match SecretEnvVar h, SecretFile h with
  | Some v, None => if decide (trim_space v = []) then Err EmptySecretEnvVar else Ok tt
  | None, Some file => _ ← parseSecretFile file; Ok tt
  | _, _ => Err SecretSource
  end.
Definition validateInjectedHeaders (hs : list InjectedHeaderConfig) : result field_error unit :=
  check_all validateInjectedHeader hs.

(** One iteration of [validateMitmHookConfig]. *)
Definition validateHook (i : nat) (hook : MitmHookConfig) : result hook_error unit :=
  host ← wrap (InvalidField i FHost) (normalizeHookHost (HookHost hook));
  methods ← wrap (InvalidField i FMethods) (normalizeMethods (Methods (Matcher hook)));
  if decide (methods = []) then Err (EmptyField i FMethods)
  else
    paths ← wrap (InvalidField i FPathPrefixes) (compilePathMatchers (PathPrefixes (Matcher hook)));
    if decide (length paths = 0%nat) then Err (EmptyField i FPathPrefixes)
    else if HasBody (Matcher hook) then Err (BodyUnsupported i)
    else
      _ ← wrap (InvalidField i FQuery) (validateQueryConstraints (Query (Matcher hook)));
      _ ← wrap (InvalidField i FHeaders) (validateHeaderConstraints (Headers (Matcher hook)));
      _ ← wrap (InvalidField i FStrip) (validateStripRequestHeaders (StripRequestHeaders (Actions hook)));
      _ ← wrap (InvalidField i FInject) (validateInjectedHeaders (InjectRequestHeaders (Actions hook)));
      if decide (host = []) then Err (EmptyField i FHost) else Ok tt.

Fixpoint validateHooks (i : nat) (hooks : list MitmHookConfig) : result hook_error unit :=
  match hooks with
  | [] => Ok tt
  | hook :: hooks => _ ← validateHook i hook; validateHooks (S i) hooks
  end.

Definition validateMitmHookConfig (cfg : NetworkProxySettings) : result hook_error unit :=
  let hooks := MitmHooks cfg in
  if decide (length hooks = 0%nat) then Ok tt
  else if negb (Mitm cfg) then Err MitmDisabled
  else validateHooks 0 hooks.

(** ** Compilation *)

Section Secrets.
(** The environment, and the contents of files, [None] for an error. *)
Variable resolveEnv readFile : gostring -> option gostring.

Definition compileInjectedHeader (h : InjectedHeaderConfig) : result field_error resolvedInjectedHeader :=
  name ← parseHeaderName (Name h);
  '(secret, kind, source) ←
    match SecretEnvVar h, SecretFile h with
    | Some v, None =>
        match resolveEnv v with
        | Some value => Ok (value, secretSourceEnvVar, v)
        | None => Err (MissingEnvVar v)
        end
    | None, Some file =>
        path ← parseSecretFile file;
        match readFile path with
        | Some value => Ok (value, secretSourceFile, path)
        | None => Err (UnreadableFile path)
        end
    | _, _ => Err SecretSource
    end;
  let value := default [] (Prefix h) ++ secret in
  if isValidHeaderValue value then Ok (mkResolved name value kind source)
  else Err (InvalidHeaderValue (Name h)).

Definition compileActions (a : MitmHookActionsConfig) : result hook_error mitmHookActions :=
  strip ← wrap CompileField (compileStripHeaders (StripRequestHeaders a));
  inject ← mapM (fun h => wrap (CompileInjected (Name h)) (compileInjectedHeader h)) (InjectRequestHeaders a);
  Ok (mkHookActions strip inject).

(** One iteration of the loop of [compileMitmHooksWithResolvers]: the hook. *)
Definition compileHook (hook : MitmHookConfig) : result hook_error mitmHook :=
  host ← wrap CompileField (normalizeHookHost (HookHost hook));
  methods ← wrap CompileField (normalizeMethods (Methods (Matcher hook)));
  paths ← wrap CompileField (compilePathMatchers (PathPrefixes (Matcher hook)));
  query ← wrap CompileField (compileQueryConstraints (Query (Matcher hook)));
  headers ← wrap CompileField (compileHeaderConstraints (Headers (Matcher hook)));
  actions ← compileActions (Actions hook);
  Ok (mkMitmHook host (mkMatcher methods paths query headers) actions).

(** [result[host] = append(result[host], hook)] *)
Definition appendHook (m : mitmHooksByHost) (hook : mitmHook) : mitmHooksByHost :=
  <[host hook := default [] (m !! host hook) ++ [hook]]> m.

Fixpoint compileHooks (hooks : list MitmHookConfig) (m : mitmHooksByHost) : result hook_error mitmHooksByHost :=
  match hooks with
  | [] => Ok m
  | hook :: hooks => compiled ← compileHook hook; compileHooks hooks (appendHook m compiled)
  end.

Definition compileMitmHooksWithResolvers (cfg : NetworkProxySettings) : result hook_error mitmHooksByHost :=
  _ ← validateMitmHookConfig cfg;
  compileHooks (MitmHooks cfg) ∅.

End Secrets.

(** With [os.LookupEnv] and [os.ReadFile] for the two arguments. *)
Definition compileMitmHooks (lookupEnv readFile : gostring -> option gostring) (cfg : NetworkProxySettings)
    : result hook_error mitmHooksByHost :=
  compileMitmHooksWithResolvers lookupEnv (fun path => trim_space <$> readFile path) cfg.

(** ** Evaluation *)

Definition pathMatches (matchers : list pathMatcher) (path : gostring) : bool :=
  existsb (fun m => pathMatcher_matches m path) matchers.

(** A value of [actual] is allowed. *)
Definition anyAllowed (allowed : list valueMatcher) (actual : list gostring) : bool :=
  existsb (fun candidate => existsb (fun m => valueMatcher_matches m candidate) allowed) actual.

Definition queryMatches (constraints : list constraint) (req : Request) : bool :=
  if decide (length constraints = 0%nat) then true
  else
    let '(values, ok) := ParseQuery (RawQuery req) in
    let values := if ok then values else ∅ in
    forallb (fun c => match values !! cname c with
                      | None => false
                      | Some actual => anyAllowed (allowedValues c) actual
                      end) constraints.

Definition headersMatch (constraints : list constraint) (req : Request) : bool :=
  forallb (fun c =>
    let actual := HeaderValues req (cname c) in
    if decide (length actual = 0%nat) then false
    else if decide (length (allowedValues c) = 0%nat) then true
    else anyAllowed (allowedValues c) actual) constraints.

Definition hookMatches (hook : mitmHook) (req : Request) : bool :=
  let method := ToUpper (Method req) in
  if negb (bool_decide (method ∈ methods (matcher hook))) then false
  else if negb (pathMatches (pathPrefixes (matcher hook)) (URLPath req)) then false
  else if negb (queryMatches (query (matcher hook)) req) then false
  else headersMatch (headers (matcher hook)) req.

(** The loop over the hooks of a host. *)
Fixpoint firstMatch (hooks : list mitmHook) (req : Request) : hookEvaluation :=
  match hooks with
  | [] => hookedHostNoMatch
  | hook :: hooks => if hookMatches hook req then hookMatched (actions hook) else firstMatch hooks req
  end.

Definition evaluateMitmHooks (hooksByHost : mitmHooksByHost) (h : gostring) (req : Request) : hookEvaluation :=
  let normalizedHost := NormalizeHost h in
  match hooksByHost !! normalizedHost with
  | None => hookNoHooksForHost
  | Some hooks => firstMatch hooks req
  end.

End Env.

Section Examples.
#[local] Existing Instance ascii_env.

Definition example_hook : MitmHookConfig :=
  mkHook "API.example.com" (mkMatch [str "get "] [str "/v1/"; str "pattern:/repos/*"]
    {[str "q" := [str "pattern:a*"]]} {[str "x-kind" := []]} false)
    (mkActions [str "authorization"] [mkInjected "x-token" (Some (str "TOKEN")) None (Some (str "Bearer "))]).

Definition example_settings : NetworkProxySettings :=
  {| Enabled := true; ProxyURL := []; EnableSocks5 := true; SocksURL := []; EnableSocks5UDP := true;
     AllowUpstreamProxy := true; DangerouslyAllowNonLoopbackProxy := false; DangerouslyAllowAllUnixSockets := false;
     Mode := NetworkModeFull; Domains := None; UnixSockets := None; AllowLocalBinding := false; Mitm := true;
     MitmHooks := [example_hook] |}.

Definition example_env (name : gostring) : option gostring := if decide (name = str "TOKEN") then Some (str "s3") else None.

Definition example_request (path q : gostring) : Request :=
  mkRequest "GET" path q {[str "X-Kind" := [str "1"]]}.

Example evaluate_example :
  match compileMitmHooksWithResolvers None None example_env (fun _ => None) example_settings with
  | Ok hooks =>
      map (fun r => match evaluateMitmHooks hooks "api.example.com:443" r with
                    | hookMatched a => map rvalue (injectRequestHeaders a)
                    | _ => []
                    end)
        [example_request "/v1/x" "q=b&q=%61c"; example_request "/v1/x" "q=b"; example_request "/repos/a/b" "q=a";
         example_request "/repos/a" "q=a&x=;"]
      = [[str "Bearer s3"]; []; []; []]
      /\ evaluateMitmHooks hooks "example.com" (example_request "/" "") = hookNoHooksForHost
  | _ => False
  end.
Proof. vm_compute. done. Qed.

End Examples.

(** ** What a hook's configuration says *)

(** The texts a matcher pattern stands for. *)
Definition value_spec (pattern v : gostring) : Prop :=
  match cut_prefix pattern literalPrefix with
  | Some literal => v = literal
  | None => match cut_prefix pattern patternPrefix with
            | Some glob => matches false (tokens glob) v
            | None => v = pattern
            end
  end.

Definition path_spec (pattern path : gostring) : Prop :=
  match cut_prefix pattern literalPrefix with
  | Some literal => literal `prefix_of` path
  | None => match cut_prefix pattern patternPrefix with
            | Some glob => matches true (tokens glob) path
            | None => pattern `prefix_of` path
            end
  end.

Definition some_value (patterns actual : list gostring) : Prop :=
  exists v pattern, v ∈ actual /\ pattern ∈ patterns /\ value_spec pattern v.

(** *** Header names *)

Lemma isTokenChar_case c (u : bool) : isTokenChar c = true ->
  isTokenChar (if u then ascii_upper c else ascii_lower c) = true.
Proof.
  intros Hc. unfold ascii_upper, ascii_lower. pose proof (bval_range c).
  destruct u; (destruct (in_range _ _ (bval c)) eqn:E; [|done]); apply in_range_spec in E;
    unfold isTokenChar; rewrite bval_byte_of by lia.
  - rewrite (in_range_true 65 90) by lia. by rewrite orb_true_r.
  - by rewrite (in_range_true 97 122) by lia.
Qed.

Lemma ascii_case_idem c (u : bool) :
  (if u then ascii_upper (ascii_upper c) else ascii_lower (ascii_lower c)) = if u then ascii_upper c else ascii_lower c.
Proof.
  destruct u; [|apply ascii_lower_idem]. unfold ascii_upper. pose proof (bval_range c).
  destruct (in_range 97 122 (bval c)) eqn:E; [|by rewrite E]. apply in_range_spec in E.
  rewrite bval_byte_of by lia. by rewrite in_range_false by lia.
Qed.

Lemma canonicalHeaderBytes_idem u s : canonicalHeaderBytes u (canonicalHeaderBytes u s) = canonicalHeaderBytes u s.
Proof.
  revert u. induction s as [|c s IH]; intros u; [done|]. cbn [canonicalHeaderBytes].
  assert ((if u then ascii_upper (if u then ascii_upper c else ascii_lower c)
           else ascii_lower (if u then ascii_upper c else ascii_lower c)) = if u then ascii_upper c else ascii_lower c)
    as -> by (pose proof (ascii_case_idem c u); by destruct u).
  by rewrite IH.
Qed.

Lemma canonicalHeaderBytes_token u s : forallb isTokenChar s = true -> forallb isTokenChar (canonicalHeaderBytes u s) = true.
Proof.
  revert u. induction s as [|c s IH]; intros u; [done|]. simpl. rewrite !andb_true_iff. intros [Hc Hs].
  split; [by apply isTokenChar_case|by apply IH].
Qed.

Lemma CanonicalMIMEHeaderKey_idem s : CanonicalMIMEHeaderKey (CanonicalMIMEHeaderKey s) = CanonicalMIMEHeaderKey s.
Proof.
  unfold CanonicalMIMEHeaderKey at 2 3. destruct (forallb isTokenChar s) eqn:E.
  - unfold CanonicalMIMEHeaderKey. rewrite canonicalHeaderBytes_token by done. apply canonicalHeaderBytes_idem.
  - unfold CanonicalMIMEHeaderKey. by rewrite E.
Qed.

Lemma parseHeaderName_Ok name k : parseHeaderName name = Ok k -> k = CanonicalMIMEHeaderKey name.
Proof. unfold parseHeaderName. case_decide; [done|]. destruct (forallb _ _); [|done]. by intros [= <-]. Qed.

Lemma sortedKeys_elem m name : name ∈ sortedKeys m <-> is_Some (m !! name).
Proof.
  unfold sortedKeys, sort_strings. rewrite (merge_sort_Permutation str_le). rewrite list_elem_of_fmap.
  split.
  - intros ([k v] & -> & Hk%elem_of_map_to_list). by eexists.
  - intros [v Hv]. exists (name, v). split; [done|]. by apply elem_of_map_to_list.
Qed.

(** *** Compiled matchers *)

Lemma compileValueMatcher_spec pattern m v :
  compileValueMatcher pattern = Ok m -> valueMatcher_matches m v = true <-> value_spec pattern v.
Proof.
  unfold compileValueMatcher, parseMatcherPattern, value_spec.
  destruct (cut_prefix pattern literalPrefix) as [l|].
  { intros [= <-]. simpl. rewrite bool_decide_eq_true. split; congruence. }
  destruct (cut_prefix pattern patternPrefix) as [g|].
  - case_decide; [done|]. simpl. unfold validateGlob. destruct (_ =? _)%nat; [|done].
    intros [= <-]. apply globMatches_spec.
  - intros [= <-]. simpl. rewrite bool_decide_eq_true. split; congruence.
Qed.

Lemma compilePathMatcher_spec pattern m path :
  compilePathMatcher pattern = Ok m -> pathMatcher_matches m path = true <-> path_spec pattern path.
Proof.
  unfold compilePathMatcher, parseMatcherPattern, path_spec.
  destruct (cut_prefix pattern literalPrefix) as [l|].
  { simpl. case_decide; [done|]. intros [= <-]. apply has_prefix_true. }
  destruct (cut_prefix pattern patternPrefix) as [g|].
  - case_decide; [done|]. simpl. unfold validateGlob. destruct (_ =? _)%nat; [|done].
    intros [= <-]. apply globMatches_spec.
  - simpl. case_decide; [done|]. intros [= <-]. apply has_prefix_true.
Qed.

(** A test over the compiled elements is the same test over the sources. *)
Lemma existsb_compiled {E A B} (f : A -> result E B) (test : B -> bool) (P : A -> Prop) l k :
  (forall x y, f x = Ok y -> test y = true <-> P x) ->
  Forall2 (fun x y => f x = Ok y) l k -> existsb test k = true <-> exists x, x ∈ l /\ P x.
Proof.
  intros Hf H. rewrite existsb_exists. split.
  - intros (y & Hy%list_elem_of_In & Ht). destruct (list_elem_of_lookup_1 _ _ Hy) as [i Hi].
    destruct (Forall2_lookup_r _ _ _ _ _ H Hi) as (x & Hx & E'). exists x.
    split; [by eapply list_elem_of_lookup_2|by eapply Hf].
  - intros (x & Hx & Hp). destruct (list_elem_of_lookup_1 _ _ Hx) as [i Hi].
    destruct (Forall2_lookup_l _ _ _ _ _ H Hi) as (y & Hy & E'). exists y.
    split; [apply list_elem_of_In; by eapply list_elem_of_lookup_2|by eapply Hf].
Qed.

Lemma forallb_compiled {E A B} (f : A -> result E B) (test : B -> bool) (P : A -> Prop) l k :
  (forall x y, x ∈ l -> f x = Ok y -> test y = true <-> P x) ->
  Forall2 (fun x y => f x = Ok y) l k -> forallb test k = true <-> forall x, x ∈ l -> P x.
Proof.
  intros Hf H. rewrite forallb_forall. split.
  - intros Ht x Hx. destruct (list_elem_of_lookup_1 _ _ Hx) as [i Hi].
    destruct (Forall2_lookup_l _ _ _ _ _ H Hi) as (y & Hy & E'). apply (Hf x y Hx E').
    apply Ht, list_elem_of_In. by eapply list_elem_of_lookup_2.
  - intros Hp y Hy%list_elem_of_In. destruct (list_elem_of_lookup_1 _ _ Hy) as [i Hi].
    destruct (Forall2_lookup_r _ _ _ _ _ H Hi) as (x & Hx & E').
    apply list_elem_of_lookup_2 in Hx. by apply (Hf x y Hx E'), Hp.
Qed.

Lemma anyAllowed_spec patterns ms actual :
  compileValueMatchers patterns = Ok ms -> anyAllowed ms actual = true <-> some_value patterns actual.
Proof.
  intros Hms%mapM_Ok. unfold anyAllowed, some_value. rewrite existsb_exists. split.
  - intros (v & Hv%list_elem_of_In & Hm).
    apply (existsb_compiled compileValueMatcher _ (fun p => value_spec p v) patterns ms) in Hm as (p & ? & ?);
      [by exists v, p|intros; by apply compileValueMatcher_spec|done].
  - intros (v & p & Hv & Hp & Hs). exists v. split; [by apply list_elem_of_In|].
    apply (existsb_compiled compileValueMatcher _ (fun p => value_spec p v) patterns ms);
      [intros; by apply compileValueMatcher_spec|done|by exists p].
Qed.

(** *** Hooks *)

Lemma wrap_Ok {E E' A} (f : E -> E') (m : result E A) a : wrap f m = Ok a <-> m = Ok a.
Proof. destruct m; simpl; naive_solver. Qed.

Section Spec.
Context {env : GoEnv} (homeDir cwd : option gostring) (resolveEnv readFile : gostring -> option gostring).

Notation NormalizeHost := (Host.NormalizeHost unicode_lower).
Notation ToUpper := (to_upper unicode_upper).
Notation compileActions := (compileActions homeDir cwd resolveEnv readFile).
Notation compileHook := (compileHook homeDir cwd resolveEnv readFile).
Notation compileHooks := (compileHooks homeDir cwd resolveEnv readFile).
Notation compile := (compileMitmHooksWithResolvers homeDir cwd resolveEnv readFile).

Definition for_host (h : gostring) (hook : MitmHookConfig) : Prop := NormalizeHost (HookHost hook) = NormalizeHost h.

(** The values of the query; none when it is malformed. *)
Definition queryValues (req : Request) : gmap gostring (list gostring) :=
  let '(values, ok) := ParseQuery (RawQuery req) in if ok then values else ∅.

(** The request has the method, one of the paths, and for every listed query
    key and header an allowed value; a header without values must be there. *)
Definition hook_applies (hook : MitmHookConfig) (req : Request) : Prop :=
  let m := Matcher hook in
  (exists method, method ∈ Methods m /\ ToUpper (trim_space method) = ToUpper (Method req))
  /\ (exists prefix, prefix ∈ PathPrefixes m /\ path_spec prefix (URLPath req))
  /\ (forall name values, Query m !! name = Some values ->
        exists actual, queryValues req !! name = Some actual /\ some_value values actual)
  /\ (forall name values, Headers m !! name = Some values ->
        HeaderValues req name <> [] /\ (values = [] \/ some_value values (HeaderValues req name))).

Lemma methods_spec ms out method : normalizeMethods ms = Ok out ->
  method ∈ out <-> exists m, m ∈ ms /\ ToUpper (trim_space m) = method.
Proof.
  intros Hms%mapM_Ok.
  assert (forall x y, normalizeMethod x = Ok y -> y = ToUpper (trim_space x)) as Hf.
  { intros x y. unfold normalizeMethod. case_decide; [done|]. by intros [= <-]. }
  pose proof (existsb_compiled normalizeMethod (fun y => bool_decide (method = y))
                (fun x => ToUpper (trim_space x) = method) ms out) as H.
  rewrite <- H; [|intros x y ->%Hf; rewrite bool_decide_eq_true; split; congruence|done].
  rewrite existsb_exists. setoid_rewrite bool_decide_eq_true. setoid_rewrite <- list_elem_of_In. naive_solver.
Qed.

Lemma queryMatches_spec q cs req : compileQueryConstraints q = Ok cs ->
  queryMatches cs req = true
  <-> forall name values, q !! name = Some values ->
        exists actual, queryValues req !! name = Some actual /\ some_value values actual.
Proof.
  intros Hcs%mapM_Ok. transitivity (forallb (fun c => match queryValues req !! cname c with
    | None => false | Some actual => anyAllowed (allowedValues c) actual end) cs = true).
  { unfold queryMatches, queryValues. destruct cs; [done|]. simpl. by destruct (ParseQuery (RawQuery req)) as [? []]. }
  rewrite (forallb_compiled (compileQueryConstraint q) _ (fun name => forall values, q !! name = Some values ->
    exists actual, queryValues req !! name = Some actual /\ some_value values actual) (sortedKeys q) cs); [|..|done].
  - split; [|naive_solver]. intros H name values Hq. apply (H name); [|done]. apply sortedKeys_elem. by eexists.
  - intros name c [values Hq]%sortedKeys_elem E. unfold compileQueryConstraint in E. rewrite Hq in E. simpl in E.
    apply result_bind_Ok in E as (n & En & E). unfold normalizeQueryName in En. case_decide as Hne; [done|].
    injection En as <-. apply result_bind_Ok in E as (ms & Ems & E). injection E as <-. simpl. split.
    + intros H values' E'. simplify_eq. destruct (queryValues req !! name) as [actual|]; [|done].
      exists actual. split; [done|]. by apply (anyAllowed_spec _ ms).
    + intros H. destruct (H _ Hq) as (actual & -> & Hs). by apply (anyAllowed_spec values ms).
Qed.

Lemma headersMatch_spec hs cs req : compileHeaderConstraints hs = Ok cs ->
  headersMatch cs req = true
  <-> forall name values, hs !! name = Some values ->
        HeaderValues req name <> [] /\ (values = [] \/ some_value values (HeaderValues req name)).
Proof.
  intros Hcs%mapM_Ok. unfold headersMatch.
  rewrite (forallb_compiled (compileHeaderConstraint hs) _ (fun name => forall values, hs !! name = Some values ->
    HeaderValues req name <> [] /\ (values = [] \/ some_value values (HeaderValues req name))) (sortedKeys hs) cs);
    [|..|done].
  - split; [|naive_solver]. intros H name values Hq. apply (H name); [|done]. apply sortedKeys_elem. by eexists.
  - intros name c [values Hq]%sortedKeys_elem E. unfold compileHeaderConstraint in E. rewrite Hq in E. simpl in E.
    apply result_bind_Ok in E as (n & ->%parseHeaderName_Ok & E).
    apply result_bind_Ok in E as (ms & Ems & E). injection E as <-. cbn [cname allowedValues].
    assert (HeaderValues req (CanonicalMIMEHeaderKey name) = HeaderValues req name) as ->
      by (unfold HeaderValues; by rewrite CanonicalMIMEHeaderKey_idem).
    assert (length ms = length values) as Hlen 
      by (symmetry; exact (Forall2_length _ _ _ (proj1 (mapM_Ok _ _ _) Ems))).
    transitivity (HeaderValues req name <> [] /\ (values = [] \/ some_value values (HeaderValues req name)));
      [|naive_solver].
    rewrite <- (anyAllowed_spec values ms) by done. case_decide as Hl; [|case_decide as Hm].
    + apply nil_length_inv in Hl. naive_solver.
    + split; [|done]. intros _. split; [by intros E; rewrite E in Hl|]. left. apply nil_length_inv. lia.
    + assert (values <> []) by (intros ->; simpl in *; lia). split; [|naive_solver].
      intros Ha. split; [by intros E; rewrite E in Hl|by right].
Qed.

Lemma compileHook_spec hook c : compileHook hook = Ok c ->
  host c = NormalizeHost (HookHost hook) /\ compileActions (Actions hook) = Ok (actions c)
  /\ forall req, hookMatches c req = true <-> hook_applies hook req.
Proof.
  unfold Mitm.compileHook. intros (h & Hh%wrap_Ok & E)%result_bind_Ok.
  unfold normalizeHookHost in Hh. case_decide; [done|]. destruct (contains _ _); [done|].
  injection Hh as <-. apply result_bind_Ok in E as (ms & Hms%wrap_Ok & E).
  apply result_bind_Ok in E as (ps & Hps%wrap_Ok & E). apply result_bind_Ok in E as (qs & Hqs%wrap_Ok & E).
  apply result_bind_Ok in E as (hs & Hhs%wrap_Ok & E). apply result_bind_Ok in E as (acts & Ha & [= <-]).
  split_and!; [done..|]. intros req. unfold hookMatches, hook_applies. simpl.
  rewrite <- (methods_spec _ _ _ Hms), <- (queryMatches_spec _ _ _ Hqs), <- (headersMatch_spec _ _ _ Hhs).
  assert (pathMatches ps (URLPath req) = true
          <-> exists prefix, prefix ∈ PathPrefixes (Matcher hook) /\ path_spec prefix (URLPath req)) as <-.
  { apply (existsb_compiled compilePathMatcher); [|by apply mapM_Ok]. intros. by apply compilePathMatcher_spec. }
  case_bool_decide; destruct (pathMatches _ _), (queryMatches _ _); simpl; naive_solver.
Qed.

(** The hooks of a host, in the order of the configuration. *)
Lemma compileHooks_lookup hooks m m' : compileHooks hooks m = Ok m' ->
  exists cs, Forall2 (fun hook c => compileHook hook = Ok c) hooks cs
    /\ forall h, m' !! h = match filter (fun c => host c = h) cs with
                         | [] => m !! h
                         | hs => Some (default [] (m !! h) ++ hs)
                         end.
Proof.
  revert m. induction hooks as [|hook hooks IH]; intros m.
  { intros [= <-]. by exists []. }
  cbn [Mitm.compileHooks]. intros (c & Hc & E)%result_bind_Ok. apply IH in E as (cs & Hcs & Hm).
  exists (c :: cs). split; [by constructor|]. intros h. rewrite Hm. unfold appendHook, mitmHooksByHost in *. rewrite filter_cons.
  case_decide as Eh.
  - subst. rewrite lookup_insert_eq. simpl. destruct (filter _ cs); [done|]. by rewrite <- (assoc (++)).
  - rewrite lookup_insert_ne by done. done.
Qed.

Lemma firstMatch_spec cs req :
  match firstMatch cs req with
  | hookNoHooksForHost => False
  | hookedHostNoMatch => Forall (fun c => hookMatches c req = false) cs
  | hookMatched acts => exists pre c post, cs = pre ++ c :: post /\ hookMatches c req = true /\ acts = actions c
                          /\ Forall (fun c => hookMatches c req = false) pre
  end.
Proof.
  induction cs as [|c cs IH]; simpl; [done|]. destruct (hookMatches c req) eqn:E.
  - by exists [], c, cs.
  - destruct (firstMatch cs req); [done| |by constructor].
    destruct IH as (pre & c' & post & -> & ? & ? & ?). exists (c :: pre), c', post. split_and!; [done..|by constructor].
Qed.

(** A split of a filtered list splits the list. *)
Lemma filter_split {A} (P : A -> Prop) `{forall x, Decision (P x)} l pre x post :
  filter P l = pre ++ x :: post -> exists l1 l2, l = l1 ++ x :: l2 /\ filter P l1 = pre /\ P x.
Proof.
  revert pre. induction l as [|y l IH]; intros pre; [by destruct pre|]. rewrite filter_cons. case_decide as Hy.
  - destruct pre as [|z pre]; intros [= -> E].
    + by exists [], l.
    + apply IH in E as (l1 & l2 & -> & <- & Hx). exists (z :: l1), l2. by rewrite filter_cons_True.
  - intros (l1 & l2 & -> & <- & Hx)%IH. exists (y :: l1), l2. by rewrite filter_cons_False.
Qed.

(**  The hook that acts on a decrypted request is the first one of the
    configuration for its host whose methods, paths, query values and headers
    it fulfils, with that hook's actions; there is no match only when no hook
    of the host is fulfilled, and no hooks only when the configuration has
    none for the host. *)
Theorem evaluateMitmHooks_first cfg hooks h req :
  compile cfg = Ok hooks ->
  match evaluateMitmHooks hooks h req with
  | hookNoHooksForHost => Forall (fun hook => ~ for_host h hook) (MitmHooks cfg)
  | hookedHostNoMatch =>
      Exists (for_host h) (MitmHooks cfg)
      /\ Forall (fun hook => for_host h hook -> ~ hook_applies hook req) (MitmHooks cfg)
  | hookMatched acts =>
      exists pre hook post, MitmHooks cfg = pre ++ hook :: post
        /\ for_host h hook /\ hook_applies hook req /\ compileActions (Actions hook) = Ok acts
        /\ Forall (fun hook => for_host h hook -> ~ hook_applies hook req) pre
  end.
Proof.
  unfold compileMitmHooksWithResolvers. intros (_ & _ & (cs & Hcs & Hm)%compileHooks_lookup)%result_bind_Ok.
  assert (forall hook c, compileHook hook = Ok c -> host c = NormalizeHost h <-> for_host h hook) as Hhost.
  { intros hook c (-> & _)%compileHook_spec. done. }
  assert (forall l1 l2, Forall2 (fun hook c => compileHook hook = Ok c) l1 l2 ->
    Forall (fun c => hookMatches c req = false) (filter (fun c => host c = NormalizeHost h) l2) ->
    Forall (fun hook => for_host h hook -> ~ hook_applies hook req) l1) as Hnone.
  { induction 1 as [|hook c l1 l2 Hc _ IH]; [by constructor|]. rewrite filter_cons.
    pose proof (compileHook_spec _ _ Hc) as (_ & _ & Hmatch). case_decide as Eh.
    - intros [Hf ?]%Forall_cons. constructor; [|by apply IH]. intros _. rewrite <- Hmatch, Hf. done.
    - intros ?. constructor; [|by apply IH]. by intros ?%(Hhost _ _ Hc). }
  unfold evaluateMitmHooks. rewrite Hm. unfold mitmHooksByHost. rewrite lookup_empty. simpl.
  destruct (filter _ cs) as [|c0 hs] eqn:Ef.
  - clear Hnone Hm. induction Hcs as [|hook c l1 l2 Hc _ IH]; [by apply Forall_nil|]. revert Ef. rewrite filter_cons.
    case_decide as Eh; [done|]. intros Ef. constructor; [|by apply IH]. by rewrite <- (Hhost _ _ Hc).
  - pose proof (firstMatch_spec (c0 :: hs) req) as Hfirst. destruct (firstMatch (c0 :: hs) req) as [|acts|]; [done|..].
    + destruct Hfirst as (pre & c & post & E & Hmatch & -> & Hpre). rewrite E in Ef.
      apply filter_split in Ef as (cs1 & cs2 & -> & <- & Hc).
      apply Forall2_app_inv_r in Hcs as (pre & l2 & Hpre' & Hl2 & Hcfg).
      apply Forall2_cons_inv_r in Hl2 as (hook & post' & Hhook & _ & ->).
      exists pre, hook, post'. pose proof (compileHook_spec _ _ Hhook) as (_ & Ha & Happ).
      split_and!; [done|by apply (Hhost _ _ Hhook)|by apply Happ|done|by eapply Hnone].
    + rewrite <- Ef in Hfirst. split; [|by eapply Hnone].
      assert (c0 ∈ filter (fun c => host c = NormalizeHost h) cs) as [Ec Hc]%list_elem_of_filter by (rewrite Ef; by left).
      destruct (list_elem_of_lookup_1 _ _ Hc) as [i Hi].
      destruct (Forall2_lookup_r _ _ _ _ _ Hcs Hi) as (hook & Hx & E'). apply Exists_exists. exists hook.
      split; [by eapply list_elem_of_lookup_2|]. by apply (Hhost _ _ E').
Qed.

(** *** Validated configurations compile *)

Definition succeeds {E A} (m : result E A) : Prop := exists a, m = Ok a.

Lemma mapM_succeeds {E A B} (f : A -> result E B) l : succeeds (mapM f l) <-> Forall (fun x => succeeds (f x)) l.
Proof.
  split.
  - intros [k Hk%mapM_Ok]. induction Hk; constructor; [by eexists|done].
  - induction 1 as [|x l [y Hy] _ [k Hk]]; [by eexists|]. exists (y :: k). apply mapM_Ok.
    constructor; [done|]. by apply mapM_Ok.
Qed.

Lemma check_all_Ok {E A B} (f : A -> result E B) l u : check_all f l = Ok u -> Forall (fun x => succeeds (f x)) l.
Proof. intros (k & Hk & _)%result_bind_Ok. apply mapM_succeeds. by eexists. Qed.

Lemma validateQuery_compiles q u : validateQueryConstraints q = Ok u -> succeeds (compileQueryConstraints q).
Proof.
  intros Hq%check_all_Ok. apply mapM_succeeds, Forall_forall. intros name [values Hv]%sortedKeys_elem.
  rewrite Forall_forall in Hq. specialize (Hq (name, values) ltac:(by apply elem_of_map_to_list)) as [ms Hms].
  apply result_bind_Ok in Hms as (n & Hn & Hms). repeat case_decide; try done.
  exists (mkConstraint n ms). unfold compileQueryConstraint. by rewrite Hn, Hv; simpl; rewrite Hms.
Qed.

Lemma validateHeaders_compiles h u : validateHeaderConstraints h = Ok u -> succeeds (compileHeaderConstraints h).
Proof.
  intros Hh%check_all_Ok. apply mapM_succeeds, Forall_forall. intros name [values Hv]%sortedKeys_elem.
  rewrite Forall_forall in Hh. specialize (Hh (name, values) ltac:(by apply elem_of_map_to_list)) as [ms Hms].
  apply result_bind_Ok in Hms as (n & Hn & Hms).
  exists (mkConstraint n ms). unfold compileHeaderConstraint. by rewrite Hn, Hv; simpl; rewrite Hms.
Qed.

(** The secret of a header is there and makes a valid value. *)
Definition secret_ok (h : InjectedHeaderConfig) : Prop :=
  exists secret, isValidHeaderValue (default [] (Prefix h) ++ secret) = true
    /\ match SecretEnvVar h, SecretFile h with
       | Some v, _ => resolveEnv v = Some secret
       | None, Some file => forall path, parseSecretFile homeDir cwd file = Ok path -> readFile path = Some secret
       | None, None => True
       end.

Lemma validateInjected_compiles h u :
  validateInjectedHeader homeDir cwd h = Ok u -> secret_ok h ->
  succeeds (compileInjectedHeader homeDir cwd resolveEnv readFile h).
Proof.
  unfold validateInjectedHeader, secret_ok, compileInjectedHeader.
  intros (name & -> & E)%result_bind_Ok (secret & Hv & Hs). simpl.
  destruct (SecretEnvVar h) as [v|], (SecretFile h) as [file|]; try done; simpl in *.
  - rewrite Hs. simpl. rewrite Hv. by eexists.
  - apply result_bind_Ok in E as (path & Hp & _). rewrite Hp. simpl. rewrite (Hs path Hp). simpl. rewrite Hv. by eexists.
Qed.

Lemma validateHook_compiles i hook u :
  validateHook homeDir cwd i hook = Ok u -> Forall secret_ok (InjectRequestHeaders (Actions hook)) ->
  succeeds (compileHook hook).
Proof.
  unfold validateHook. intros E Hsec.
  apply result_bind_Ok in E as (h & Hh%wrap_Ok & E). apply result_bind_Ok in E as (ms & Hms%wrap_Ok & E).
  case_decide; [done|]. apply result_bind_Ok in E as (ps & Hps%wrap_Ok & E). case_decide; [done|].
  destruct (HasBody _); [done|]. apply result_bind_Ok in E as (u1 & Hq%wrap_Ok & E).
  apply result_bind_Ok in E as (u2 & Hh'%wrap_Ok & E). apply result_bind_Ok in E as (u3 & Hst%wrap_Ok & E).
  apply result_bind_Ok in E as (u4 & Hin%wrap_Ok & _).
  destruct (validateQuery_compiles _ _ Hq) as [qs Hqs]. destruct (validateHeaders_compiles _ _ Hh') as [hs Hhs].
  apply check_all_Ok in Hst, Hin.
  assert (succeeds (compileStripHeaders (StripRequestHeaders (Actions hook)))) as [st Est] by (by apply mapM_succeeds).
  assert (succeeds (mapM (fun h => wrap (CompileInjected (Name h)) (compileInjectedHeader homeDir cwd resolveEnv readFile h))
                         (InjectRequestHeaders (Actions hook)))) as [inj Einj].
  { apply mapM_succeeds, Forall_forall. intros x Hx. rewrite Forall_forall in Hin, Hsec.
    destruct (Hin x Hx) as [u5 Hu5]. destruct (validateInjected_compiles _ _ Hu5 (Hsec x Hx)) as [r Hr].
    exists r. by rewrite Hr. }
  eexists. unfold Mitm.compileHook, Mitm.compileActions. rewrite Hh, Hms, Hps, Hqs, Hhs, Est. simpl.
  rewrite Einj. reflexivity.
Qed.

Lemma validateHooks_each i hooks u hook : validateHooks homeDir cwd i hooks = Ok u -> hook ∈ hooks ->
  exists j, validateHook homeDir cwd j hook = Ok tt.
Proof.
  revert i. induction hooks as [|x hooks IH]; intros i; [by intros _ ?%not_elem_of_nil|].
  cbn [validateHooks]. intros ([] & Hx & E)%result_bind_Ok [->|Hin]%elem_of_cons; [by exists i|by eapply IH].
Qed.

Lemma compileHooks_succeeds hooks m :
  Forall (fun hook => succeeds (compileHook hook)) hooks -> succeeds (compileHooks hooks m).
Proof.
  intros H. revert m. induction H as [|hook hooks [c Hc] _ IH]; intros m; [by eexists|].
  cbn [Mitm.compileHooks]. rewrite Hc. apply IH.
Qed.

(**  Validation is enough: a configuration that passes
    [validateMitmHookConfig] compiles whenever its secrets can be read and
    make valid header values; every other error of the second pass is
    unreachable. *)
Theorem validated_hooks_compile cfg :
  validateMitmHookConfig homeDir cwd cfg = Ok tt ->
  Forall (fun hook => Forall secret_ok (InjectRequestHeaders (Actions hook))) (MitmHooks cfg) ->
  exists hooks, compile cfg = Ok hooks.
Proof.
  intros Hv Hsec. unfold compileMitmHooksWithResolvers. rewrite Hv. simpl. apply compileHooks_succeeds.
  apply Forall_forall. intros hook Hin. unfold validateMitmHookConfig in Hv.
  destruct (MitmHooks cfg) as [|hook0 hooks0] eqn:Eh; [by apply not_elem_of_nil in Hin|]. rewrite <- Eh in *.
  rewrite decide_False in Hv by (by rewrite Eh). destruct (Mitm cfg); [|done]. simpl in Hv.
  destruct (validateHooks_each _ _ _ _ Hv Hin) as [j Hj]. rewrite Forall_forall in Hsec.
  eapply validateHook_compiles; [exact Hj|by apply Hsec].
Qed.

End Spec.

(** *** Validation reads nothing outside the configuration *)

Section World.
Context {env : GoEnv} (h1 c1 h2 c2 : option gostring).

Lemma parseSecretFile_world path : parseSecretFile h1 c1 path = parseSecretFile h2 c2 path.
Proof.
  unfold parseSecretFile. case_decide; [done|]. destruct (has_prefix path "/") eqn:Hp; [|done]. simpl.
  apply has_prefix_true in Hp as [r ->]. done.
Qed.

Lemma check_all_ext {E A B} (f g : A -> result E B) l : (forall x, f x = g x) -> check_all f l = check_all g l.
Proof.
  intros Hfg. unfold check_all. assert (mapM f l = mapM g l) as ->; [|done].
  induction l as [|x l IH]; [done|]. simpl. by rewrite Hfg, IH.
Qed.

Lemma validateHook_world i hook : validateHook h1 c1 i hook = validateHook h2 c2 i hook.
Proof.
  unfold validateHook. assert (forall hs, validateInjectedHeaders h1 c1 hs = validateInjectedHeaders h2 c2 hs) as E.
  { intros hs. apply check_all_ext. intros x. unfold validateInjectedHeader.
    destruct (SecretEnvVar x), (SecretFile x); [done..| |done]. by rewrite parseSecretFile_world. }
  by rewrite E.
Qed.

Lemma validateMitmHookConfig_world cfg : validateMitmHookConfig h1 c1 cfg = validateMitmHookConfig h2 c2 cfg.
Proof.
  unfold validateMitmHookConfig. assert (forall i hooks, validateHooks h1 c1 i hooks = validateHooks h2 c2 i hooks) as ->; [|done].
  intros i hooks. revert i. induction hooks as [|hook hooks IH]; intros i; [done|]. cbn [validateHooks].
  by rewrite validateHook_world, IH.
Qed.

End World.

Definition example_compile : result hook_error mitmHooksByHost :=
  compileMitmHooksWithResolvers (env := ascii_env) None None example_env (fun _ => None) example_settings.

Definition example_hooks : mitmHooksByHost := match example_compile with Ok hooks => hooks | _ => ∅ end.

Lemma evaluateMitmHooks_first_witness :
  let req := example_request "/v1/x" "q=ab" in
  match evaluateMitmHooks (env := ascii_env) example_hooks "api.example.com" req with hookMatched _ => True | _ => False end
  /\ match evaluateMitmHooks (env := ascii_env) example_hooks "api.example.com" req with
     | hookNoHooksForHost => Forall (fun hook => ~ for_host (env := ascii_env) "api.example.com" hook) (MitmHooks example_settings)
     | hookedHostNoMatch =>
         Exists (for_host (env := ascii_env) "api.example.com") (MitmHooks example_settings)
         /\ Forall (fun hook => for_host (env := ascii_env) "api.example.com" hook
                      -> ~ hook_applies (env := ascii_env) hook req) (MitmHooks example_settings)
     | hookMatched acts =>
         exists pre hook post, MitmHooks example_settings = pre ++ hook :: post
           /\ for_host (env := ascii_env) "api.example.com" hook
           /\ hook_applies (env := ascii_env) hook req
           /\ compileActions None None example_env (fun _ => None) (Actions hook) = Ok acts
           /\ Forall (fun hook => for_host (env := ascii_env) "api.example.com" hook ->
                        ~ hook_applies (env := ascii_env) hook req) pre
     end.
Proof.
  assert (example_compile = Ok example_hooks) as E.
  { unfold example_hooks. assert (is_ok example_compile = true) as H by (vm_compute; reflexivity).
    by destruct example_compile. }
  split; [vm_compute; exact I|].
  apply (evaluateMitmHooks_first (env := ascii_env) None None example_env (fun _ => None)). exact E.
Defined.

Lemma validated_hooks_compile_witness :
  validateMitmHookConfig (env := ascii_env) None None example_settings = Ok tt
  /\ exists hooks, compileMitmHooksWithResolvers (env := ascii_env) None None example_env (fun _ => None) example_settings
                   = Ok hooks.
Proof.
  assert (validateMitmHookConfig (env := ascii_env) None None example_settings = Ok tt) as Hv by (vm_compute; reflexivity).
  split; [exact Hv|].
  apply (validated_hooks_compile (env := ascii_env) None None example_env (fun _ => None) example_settings Hv).
  apply Forall_singleton, Forall_singleton. exists (str "s3"). split; reflexivity.
Defined.

End Mitm.
