(* ===== verification/NetPolicy.v ===== *)
(** * internal/networkproxy: constraints, the compiled state and decisions

    [unixsocket.go], [constraints.go], [state.go], [decision.go], [protocol.go],
    [blocked.go] and the events of [audit.go]: managed bounds on the policy,
    the compiled state with its updates and its buffer of blocked requests, the
    decision on a host, and the decision on a request with its audit event.
    Every method runs under the mutex of the state, so it is one step; a lookup
    works on the snapshot taken under the read lock.  Texts of errors are kept
    as their parts. *)

From stdpp Require Import gmap.
From S2P Require Import Prelude GoStrings GoUtf8 GoText AbsPath NetGlob NetAddr NetConfig NetMitm.

(** What an operation reads outside the program: the home and working
    directories, environment variables, files, symbolic links, and whether the
    platform is macOS. *)
Class GoWorld := {
  homeDir : option gostring;
  cwd : option gostring;
  LookupEnv : gostring -> option gostring;
  ReadFile : gostring -> option gostring;
  EvalSymlinks : gostring -> option gostring;
  darwin : bool;
}.

Module Policy.
Import Config.
Import Mitm (hook_error, mitmHooksByHost, Request, hookEvaluation).

(** ** Errors *)

(** The parts of a message: a text, a quoted list, an error's text. *)
Inductive detail :=
| Text (s : gostring)
| Quoted (l : list gostring)
| HookText (e : hook_error).

Inductive NetError :=
| ErrSocketPath (index : nat) (path : gostring)
| ConstraintError (FieldName : gostring) (Candidate Allowed : detail)
| ErrGlobset (context : gostring) (e : globset_error)
| ErrHooks (e : hook_error)
| ErrInvalidHost (host : gostring)
| ErrWrapped (context : gostring) (e : NetError).

Definition invalidValue {A} (fieldName : gostring) (candidate allowed : detail) : result NetError A :=
  Err (ConstraintError fieldName candidate allowed).

(** ** unixsocket.go *)

Inductive validatedUnixSocketPath :=
| unixPathNative (native raw : gostring)
| unixPathUnixStyleAbsolute (raw : gostring).

Definition filepath_IsAbs (path : gostring) : bool := has_prefix path "/".

Section World.
Context {env : GoEnv} {world : GoWorld}.

Notation NormalizeHost := (Host.NormalizeHost unicode_lower).
Notation parseHost := (Host.parseHost unicode_lower).
Notation ToLower := (to_lower unicode_lower).
Notation FromAbsolutePath := (AbsPath.FromAbsolutePath false homeDir cwd).

Definition parseValidatedUnixSocketPath (socketPath : gostring) : option validatedUnixSocketPath :=
  if filepath_IsAbs socketPath then
    native ← FromAbsolutePath socketPath; Some (unixPathNative native socketPath)
  else if has_prefix socketPath "/" then Some (unixPathUnixStyleAbsolute socketPath)
  else None.

Fixpoint validateSocketPaths (index : nat) (paths : list gostring) : result NetError unit :=
  match paths with
  | [] => Ok tt
  | path :: paths =>
      match parseValidatedUnixSocketPath path with
      | Some _ => validateSocketPaths (S index) paths
      | None => Err (ErrSocketPath index path)
      end
  end.
Definition validateUnixSocketAllowlistPaths (cfg : NetworkProxySettings) : result NetError unit :=
  validateSocketPaths 0 (AllowUnixSockets cfg).

Definition unixSocketPermissionsSupported : bool := darwin.

(** ** constraints.go *)

Record NetworkProxyConstraints := mkConstraints {
  cEnabled : option bool;
  cMode : option NetworkMode;
  cAllowUpstreamProxy : option bool;
  cDangerouslyAllowNonLoopbackProxy : option bool;
  cDangerouslyAllowAllUnixSockets : option bool;
  cAllowedDomains : option (list gostring);
  cAllowlistExpansionEnabled : option bool;
  cDeniedDomains : option (list gostring);
  cDenylistExpansionEnabled : option bool;
  cAllowUnixSockets : option (list gostring);
  cAllowLocalBinding : option bool;
}.

Definition networkModeRank (mode : NetworkMode) : Z :=
  if decide (normalized mode = NetworkModeLimited) then 0 else 1.

Definition lowercaseSet (entries : list gostring) : gset gostring := list_to_set (map ToLower entries).

Definition setsEqual (a b : gset gostring) : bool :=
  (size a =? size b)%nat && bool_decide (a ⊆ b).

Fixpoint validateNonGlobalWildcardDomainPatterns (fieldName : gostring) (patterns : list gostring)
    : result NetError unit :=
  match patterns with
  | [] => Ok tt
  | pattern :: patterns =>
      if isGlobalWildcardDomainPattern pattern
      then Err (ConstraintError fieldName (Text (trim_space pattern))
                  (Text "exact hosts or scoped wildcards like *.example.com or **.example.com"))
      else validateNonGlobalWildcardDomainPatterns fieldName patterns
  end.

(** [if len(l) > 0 { return invalidValue(…) }] *)
Definition none_left (l : list gostring) (e : result NetError unit) : result NetError unit :=
  if decide (l = []) then Ok tt else e.

Definition validateAllowedDomainsConstraint (managed : list gostring) (expansion : option bool)
    (candidate : list gostring) (deniedOverrides : gset gostring) : result NetError unit :=
  _ ← validateNonGlobalWildcardDomainPatterns "network.allowed_domains" managed;
  let requiredSet := lowercaseSet managed in
  match expansion with
  | Some true =>
      let candidateSet := lowercaseSet candidate in
      let missing := filter (fun entry => entry ∉ candidateSet /\ entry ∉ deniedOverrides) (elements requiredSet) in
      none_left missing (invalidValue "network.allowed_domains" (Text "missing managed allowed_domains entries") (Quoted missing))
  | Some false =>
      let candidateSet := lowercaseSet candidate in
      let expectedSet := filter (fun entry => entry ∉ deniedOverrides) requiredSet in
      if setsEqual candidateSet expectedSet then Ok tt
      else invalidValue "network.allowed_domains" (Quoted candidate) (Text "must match managed allowed_domains")
  | None =>
      let managedPatterns := map parseDomainPatternForConstraints managed in
      let invalid := filter (fun entry =>
        negb (existsb (fun m => allows m (parseDomainPatternForConstraints entry)) managedPatterns)) candidate in
      none_left invalid (invalidValue "network.allowed_domains" (Quoted invalid) (Text "subset of managed allowed_domains"))
  end.

Definition validateDeniedDomainsConstraint (managed : list gostring) (expansion : option bool)
    (candidate : list gostring) : result NetError unit :=
  _ ← validateNonGlobalWildcardDomainPatterns "network.denied_domains" managed;
  let requiredSet := lowercaseSet managed in
  let candidateSet := lowercaseSet candidate in
  if decide (expansion = Some false) then
    if setsEqual candidateSet requiredSet then Ok tt
    else invalidValue "network.denied_domains" (Quoted candidate) (Text "must match managed denied_domains")
  else
    let missing := filter (fun entry => entry ∉ candidateSet) (elements requiredSet) in
    none_left missing (invalidValue "network.denied_domains" (Text "missing managed denied_domains entries") (Quoted missing)).

(** A flag the managed configuration turned off. *)
Definition forbids (c : option bool) (flag : bool) (fieldName : gostring) : result NetError unit :=
  if bool_decide (c = Some false) && flag
  then invalidValue fieldName (Text "true") (Text "false (disabled by managed config)") else Ok tt.

Definition ValidatePolicyAgainstConstraints (config : NetworkProxySettings) (c : NetworkProxyConstraints)
    : result NetError unit :=
  let configAllowedDomains := AllowedDomains config in
  let configDeniedDomains := DeniedDomains config in
  let deniedDomainOverrides := lowercaseSet configDeniedDomains in
  let configAllowUnixSockets := AllowUnixSockets config in
  _ ← match Mitm.validateMitmHookConfig homeDir cwd config with
      | Err e => invalidValue "network.mitm_hooks" (HookText e) (Text "valid MITM hook configuration")
      | _ => Ok tt
      end;
  _ ← validateNonGlobalWildcardDomainPatterns "network.denied_domains" configDeniedDomains;
  _ ← forbids (cEnabled c) (Enabled config) "network.enabled";
  _ ← match cMode c with
      | Some m => if (networkModeRank m <? networkModeRank (Mode config))%Z
                  then invalidValue "network.mode" (Text (normalized (Mode config)))
                         (Text (normalized m ++ " or more restrictive"))
                  else Ok tt
      | None => Ok tt
      end;
  _ ← forbids (cAllowUpstreamProxy c) (AllowUpstreamProxy config) "network.allow_upstream_proxy";
  _ ← forbids (cDangerouslyAllowNonLoopbackProxy c) (DangerouslyAllowNonLoopbackProxy config)
        "network.dangerously_allow_non_loopback_proxy";
  let allowAllUnixSockets := default (bool_decide (cAllowUnixSockets c = None)) (cDangerouslyAllowAllUnixSockets c) in
  _ ← (if DangerouslyAllowAllUnixSockets config && negb allowAllUnixSockets
       then invalidValue "network.dangerously_allow_all_unix_sockets" (Text "true") (Text "false (disabled by managed config)")
       else Ok tt);
  _ ← forbids (cAllowLocalBinding c) (AllowLocalBinding config) "network.allow_local_binding";
  _ ← match cAllowedDomains c with
      | Some managed => validateAllowedDomainsConstraint managed (cAllowlistExpansionEnabled c)
                          configAllowedDomains deniedDomainOverrides
      | None => Ok tt
      end;
  _ ← match cDeniedDomains c with
      | Some managed => validateDeniedDomainsConstraint managed (cDenylistExpansionEnabled c) configDeniedDomains
      | None => Ok tt
      end;
  match cAllowUnixSockets c with
  | Some sockets =>
      let allowed := lowercaseSet sockets in
      let invalid := filter (fun entry => ToLower entry ∉ allowed) configAllowUnixSockets in
      none_left invalid (invalidValue "network.allow_unix_sockets" (Quoted invalid) (Text "subset of managed allow_unix_sockets"))
  | None => Ok tt
  end.

End World.

(** ** blocked.go *)

Definition maxBlockedEvents : nat := 200.

Record BlockedRequest := mkBlocked {
  bHost : gostring; bReason : gostring; bClient : option gostring; bMethod : option gostring;
  bMode : option NetworkMode; bProtocol : gostring; bDecision : option gostring; bSource : option gostring;
  bPort : option Z; bTimestamp : Z;
}.

Record BlockedRequestArgs := mkBlockedArgs {
  aHost : gostring; aReason : gostring; aClient : option gostring; aMethod : option gostring;
  aMode : option NetworkMode; aProtocol : gostring; aDecision : option gostring; aSource : option gostring;
  aPort : option Z;
}.

Definition newBlockedRequest (unixTimestamp : Z) (args : BlockedRequestArgs) : BlockedRequest :=
  mkBlocked (aHost args) (aReason args) (aClient args) (aMethod args) (aMode args) (aProtocol args)
    (aDecision args) (aSource args) (aPort args) unixTimestamp.

(** ** state.go: the compiled state *)

Record ConfigState := mkConfigState {
  ConfigOf : NetworkProxySettings;
  allowSet : domainGlobSet;
  denySet : domainGlobSet;
  mitmEnabled : bool;
  mitmHooks : mitmHooksByHost;
  constraints : NetworkProxyConstraints;
  blocked : list BlockedRequest;
  blockedTotal : Z;
}.

Record NetworkProxyAuditMetadata := mkMetadata {
  ConversationID : gostring; AppVersion : gostring; UserAccountID : gostring; AuthMode : gostring;
  Originator : gostring; UserEmail : gostring; TerminalType : gostring; Model : gostring; Slug : gostring;
}.

(** A resolver; [None] is an error or a timeout. *)
Definition hostLookupFunc := gostring -> Z -> option (list Host.Addr).

(** Whether an observer and a sink are set; what they do with an entry or an
    event is theirs. *)
Record NetworkProxyState := mkState {
  state : ConfigState;
  observer : bool;
  auditSink : bool;
  metadata : NetworkProxyAuditMetadata;
  lookup_ : hostLookupFunc;
}.

Definition with_state (s : NetworkProxyState) (c : ConfigState) : NetworkProxyState :=
  mkState c (observer s) (auditSink s) (metadata s) (lookup_ s).
Definition with_blocked (c : ConfigState) (b : list BlockedRequest) (total : Z) : ConfigState :=
  mkConfigState (ConfigOf c) (allowSet c) (denySet c) (mitmEnabled c) (mitmHooks c) (constraints c) b total.
Definition with_config (c : ConfigState) (cfg : NetworkProxySettings) : ConfigState :=
  mkConfigState cfg (allowSet c) (denySet c) (mitmEnabled c) (mitmHooks c) (constraints c) (blocked c) (blockedTotal c).

Definition NewNetworkProxyState (defaultHostLookup : hostLookupFunc) (c : ConfigState) : NetworkProxyState :=
  mkState c false false (mkMetadata [] [] [] [] [] [] [] [] []) defaultHostLookup.
Definition WithAuditMetadata (s : NetworkProxyState) (m : NetworkProxyAuditMetadata) : NetworkProxyState :=
  mkState (state s) (observer s) (auditSink s) m (lookup_ s).
Definition WithAuditSink (s : NetworkProxyState) (sink : bool) : NetworkProxyState :=
  mkState (state s) (observer s) sink (metadata s) (lookup_ s).
Definition SetBlockedRequestObserver (s : NetworkProxyState) (o : bool) : NetworkProxyState :=
  mkState (state s) o (auditSink s) (metadata s) (lookup_ s).
Definition WithBlockedRequestObserver (s : NetworkProxyState) (o : bool) : NetworkProxyState :=
  SetBlockedRequestObserver s o.
Definition SetLookupFunc (defaultHostLookup : hostLookupFunc) (s : NetworkProxyState) (l : option hostLookupFunc)
    : NetworkProxyState :=
  mkState (state s) (observer s) (auditSink s) (metadata s) (default defaultHostLookup l).

Definition AuditMetadata (s : NetworkProxyState) : NetworkProxyAuditMetadata := metadata s.
Definition CurrentConfig (s : NetworkProxyState) : NetworkProxySettings := ConfigOf (state s).
Definition CurrentPatterns (s : NetworkProxyState) : list gostring * list gostring :=
  (AllowedDomains (ConfigOf (state s)), DeniedDomains (ConfigOf (state s))).
Definition StateEnabled (s : NetworkProxyState) : bool := Enabled (ConfigOf (state s)).
Definition StateNetworkMode (s : NetworkProxyState) : NetworkMode := normalized (Mode (ConfigOf (state s))).
Definition MethodAllowed (s : NetworkProxyState) (method : gostring) : bool := AllowsMethod (StateNetworkMode s) method.
Definition StateAllowUpstreamProxy (s : NetworkProxyState) : bool := AllowUpstreamProxy (ConfigOf (state s)).
Definition StateAllowLocalBinding (s : NetworkProxyState) : bool := AllowLocalBinding (ConfigOf (state s)).
Definition MitmEnabled (s : NetworkProxyState) : bool := mitmEnabled (state s).

(** *** Blocked requests *)

(** [for len(blocked) > maxBlockedEvents { blocked = blocked[1:] }] *)
Fixpoint trimBlocked (l : list BlockedRequest) : list BlockedRequest :=
  match l with
  | [] => []
  | _ :: l' => if (maxBlockedEvents <? length l)%nat then trimBlocked l' else l
  end.

(** The new state, and the entries the observer is told. *)
Definition RecordBlocked (s : NetworkProxyState) (entry : BlockedRequest) : NetworkProxyState * list BlockedRequest :=
  let c := state s in
  (with_state s (with_blocked c (trimBlocked (blocked c ++ [entry])) ((blockedTotal c + 1) mod 2 ^ 64)),
   if observer s then [entry] else []).

Definition BlockedSnapshot (s : NetworkProxyState) : list BlockedRequest := blocked (state s).

Definition DrainBlocked (s : NetworkProxyState) : NetworkProxyState * list BlockedRequest :=
  let c := state s in (with_state s (with_blocked c [] (blockedTotal c)), blocked c).

(** *** Decisions on hosts *)

Inductive hostBlockReason := hostBlockDenied | hostBlockNotAllowed | hostBlockNotAllowedLocal.

#[export] Instance hostBlockReason_eq_dec : EqDecision hostBlockReason.
Proof. solve_decision. Defined.

Definition reasonDenied : gostring := "denied".
Definition reasonNotAllowed : gostring := "not_allowed".
Definition reasonNotAllowedLocal : gostring := "not_allowed_local".
Definition reasonPolicyDenied : gostring := "policy_denied".

Definition asStr (r : hostBlockReason) : gostring :=
  match r with
  | hostBlockDenied => reasonDenied
  | hostBlockNotAllowed => reasonNotAllowed
  | hostBlockNotAllowedLocal => reasonNotAllowedLocal
  end.

(** [hostBlockDecision]: allowed, or the reason. *)
Inductive hostBlockDecision := hostAllowed | hostBlockedFor (reason : hostBlockReason).

Definition hostResolvesToNonPublicIP (host : gostring) (port : Z) (lookup : hostLookupFunc) : bool :=
  match Host.ParseAddr host with
  | Some addr => Host.isNonPublicIP addr
  | None => match lookup host port with
            | None => true
            | Some addrs => existsb Host.isNonPublicIP addrs
            end
  end.

Section Decisions.
Context {env : GoEnv}.

Notation NormalizeHost := (Host.NormalizeHost unicode_lower).
Notation parseHost := (Host.parseHost unicode_lower).

Definition containsNormalized (entries : list gostring) (normalized : gostring) : bool :=
  existsb (fun e => bool_decide (NormalizeHost e = normalized)) entries.

Definition isExplicitLocalAllowlisted (allowedDomains : list gostring) (host : gostring) : bool :=
  let unscoped := Host.unscopedIPLiteral host in
  existsb (fun pattern =>
    let pattern := trim_space pattern in
    if bool_decide (pattern = str "*") || has_prefix pattern "*." || has_prefix pattern "**." then false
    else if bool_decide (Exists (fun c => c = "*"%char \/ c = "?"%char) pattern) then false
    else
      let normalizedPattern := NormalizeHost pattern in
      bool_decide (normalizedPattern = host) || bool_decide (unscoped = Some normalizedPattern)) allowedDomains.

(** Whether the host is a literal that is not public, or the loopback name. *)
Definition localLiteral (normalized : gostring) : bool :=
  let hostNoScope := default normalized (Host.unscopedIPLiteral normalized) in
  if Host.isLoopbackHost normalized then true
  else match Host.ParseAddr hostNoScope with
       | Some addr => Host.isNonPublicIP addr
       | None => false
       end.

Definition hostBlocked (s : NetworkProxyState) (host : gostring) (port : Z) : hostBlockDecision :=
  match parseHost host with
  | None => hostBlockedFor hostBlockNotAllowed
  | Some normalized =>
      let c := state s in
      let allowedDomains := AllowedDomains (ConfigOf c) in
      if globsetMatchesHostOrUnscoped (denySet c) normalized then hostBlockedFor hostBlockDenied
      else
        let isAllowlisted := globsetMatchesHostOrUnscoped (allowSet c) normalized in
        let local :=
          if AllowLocalBinding (ConfigOf c) then false
          else if localLiteral normalized then negb (isExplicitLocalAllowlisted allowedDomains normalized)
          else hostResolvesToNonPublicIP normalized port (lookup_ s) in
        if local then hostBlockedFor hostBlockNotAllowedLocal
        else if (length allowedDomains =? 0)%nat || negb isAllowlisted then hostBlockedFor hostBlockNotAllowed
        else hostAllowed
  end.

Definition HostHasMitmHooks (s : NetworkProxyState) (host : gostring) : bool :=
  match mitmHooks (state s) !! NormalizeHost host with Some _ => true | None => false end.

Definition evaluateMitmHookRequest (s : NetworkProxyState) (host : gostring) (req : Request) : hookEvaluation :=
  Mitm.evaluateMitmHooks (mitmHooks (state s)) host req.

End Decisions.

(** *** Updates *)

Section Updates.
Context {env : GoEnv} {world : GoWorld}.

Notation NormalizeHost := (Host.NormalizeHost unicode_lower).
Notation parseHost := (Host.parseHost unicode_lower).

Definition wrapGlobset {A} (context : gostring) (m : result globset_error A) : result NetError A :=
  Mitm.wrap (ErrGlobset context) m.

Definition BuildConfigState (config : NetworkProxySettings) (c : NetworkProxyConstraints) : result NetError ConfigState :=
  _ ← validateUnixSocketAllowlistPaths config;
  let allowedDomains := AllowedDomains config in
  let deniedDomains := DeniedDomains config in
  _ ← validateNonGlobalWildcardDomainPatterns "network.denied_domains" deniedDomains;
  denySet ← wrapGlobset "compile denylist" (compileDenylistGlobset deniedDomains);
  allowSet ← wrapGlobset "compile allowlist" (compileAllowlistGlobset allowedDomains);
  hooks ← Mitm.wrap ErrHooks (Mitm.compileMitmHooks homeDir cwd LookupEnv ReadFile config);
  Ok (mkConfigState config allowSet denySet (Mitm config) hooks c [] 0).

(** [if err := m; err != nil { return fmt.Errorf(context, err) }] *)
Definition in_context {A} (context : gostring) (m : result NetError A) : result NetError A :=
  Mitm.wrap (ErrWrapped context) m.

Definition SetNetworkMode (s : NetworkProxyState) (mode : NetworkMode) : result NetError NetworkProxyState :=
  let candidate := with_mode (ConfigOf (state s)) mode in
  _ ← in_context "network.mode constrained by managed config"
        (ValidatePolicyAgainstConstraints candidate (constraints (state s)));
  Ok (with_state s (with_config (state s) candidate)).

(** The end of [updateDomainList]: validate and compile the candidate, and
    keep the buffer. *)
Definition commitDomains (s : NetworkProxyState) (constraintField listName : gostring)
    (candidate : NetworkProxySettings) : result NetError NetworkProxyState :=
  _ ← in_context (constraintField ++ " constrained by managed config") (ValidatePolicyAgainstConstraints candidate (constraints (state s)));
  newState ← in_context ("failed to compile updated network " ++ listName) (BuildConfigState candidate (constraints (state s)));
  Ok (with_state s (with_blocked newState (blocked (state s)) (blockedTotal (state s)))).

Definition updateDomainList (s : NetworkProxyState) (host : gostring) (permission : NetworkDomainPermission)
    : result NetError NetworkProxyState :=
  match parseHost host with
  | None => Err (ErrInvalidHost host)
  | Some normalized =>
      let deny := bool_decide (permission = DomainPermissionDeny) in
      let listName := if deny then str "denylist" else str "allowlist" in
      let constraintField := if deny then str "network.denied_domains" else str "network.allowed_domains" in
      let current := ConfigOf (state s) in
      let '(targetEntries, oppositeEntries) :=
        if deny then (DeniedDomains current, AllowedDomains current)
        else (AllowedDomains current, DeniedDomains current) in
      let targetContains := containsNormalized targetEntries normalized in
      let oppositeContains := containsNormalized oppositeEntries normalized in
      if targetContains && negb oppositeContains then Ok s
      else commitDomains s constraintField listName (WithUpsertDomainPermission current normalized permission)
  end.

Definition AddAllowedDomain (s : NetworkProxyState) (host : gostring) : result NetError NetworkProxyState :=
  updateDomainList s host DomainPermissionAllow.
Definition AddDeniedDomain (s : NetworkProxyState) (host : gostring) : result NetError NetworkProxyState :=
  updateDomainList s host DomainPermissionDeny.

(** *** Unix sockets *)

(** One iteration of the loop of [IsUnixSocketAllowed]. *)
Definition socketEntryMatches (requestedAbs requestedCanonical allowed : gostring) : bool :=
  match parseValidatedUnixSocketPath allowed with
  | Some (unixPathNative native _) =>
      if decide (native = requestedAbs) then true
      else if decide (requestedCanonical = []) then false
      else bool_decide (EvalSymlinks native = Some requestedCanonical)
  | _ => false
  end.

Definition IsUnixSocketAllowed (s : NetworkProxyState) (path : gostring) : bool :=
  if negb unixSocketPermissionsSupported then false
  else if negb (filepath_IsAbs path) then false
  else if DangerouslyAllowAllUnixSockets (ConfigOf (state s)) then true
  else match AbsPath.FromAbsolutePath false homeDir cwd path with
       | None => false
       | Some requestedAbs =>
           let requestedCanonical := default [] (EvalSymlinks requestedAbs) in
           existsb (socketEntryMatches requestedAbs requestedCanonical) (AllowUnixSockets (ConfigOf (state s)))
       end.

End Updates.

(** ** decision.go *)

Inductive NetworkProtocol := ProtocolHTTP | ProtocolHTTPSConnect | ProtocolSocks5TCP | ProtocolSocks5UDP.

Definition PolicyProtocol (p : NetworkProtocol) : gostring :=
  match p with
  | ProtocolHTTP => "http"
  | ProtocolHTTPSConnect => "https_connect"
  | ProtocolSocks5TCP => "socks5_tcp"
  | ProtocolSocks5UDP => "socks5_udp"
  end.

Inductive NetworkApprovalProtocol := ApprovalHTTP | ApprovalHTTPS | ApprovalSocks5TCP | ApprovalSocks5UDP.
Definition ApprovalProtocol (p : NetworkProtocol) : NetworkApprovalProtocol :=
  match p with
  | ProtocolHTTP => ApprovalHTTP
  | ProtocolHTTPSConnect => ApprovalHTTPS
  | ProtocolSocks5TCP => ApprovalSocks5TCP
  | ProtocolSocks5UDP => ApprovalSocks5UDP
  end.

Record NetworkPolicyRequest := mkPolicyRequest {
  rProtocol : NetworkProtocol; rHost : gostring; rPort : Z; rClientAddr : gostring;
  rMethod : gostring; rCommand : gostring; rExecPolicyHint : gostring;
}.

Inductive NetworkDecisionSource :=
  NetworkDecisionSourceBaselinePolicy | NetworkDecisionSourceModeGuard
| NetworkDecisionSourceProxyState | NetworkDecisionSourceDecider.

Definition source_string (s : NetworkDecisionSource) : gostring :=
  match s with
  | NetworkDecisionSourceBaselinePolicy => "baseline_policy"
  | NetworkDecisionSourceModeGuard => "mode_guard"
  | NetworkDecisionSourceProxyState => "proxy_state"
  | NetworkDecisionSourceDecider => "decider"
  end.

Inductive NetworkPolicyDecision := NetworkPolicyDecisionDeny | NetworkPolicyDecisionAsk.

Definition decision_string (d : NetworkPolicyDecision) : gostring :=
  match d with NetworkPolicyDecisionDeny => "deny" | NetworkPolicyDecisionAsk => "ask" end.

(** [NetworkDecision]: the fields of a denial mean nothing for [Allow]. *)
Inductive NetworkDecision :=
| DecisionAllow
| DecisionDeny (Reason : gostring) (Source : NetworkDecisionSource) (Decision : NetworkPolicyDecision).

Definition Allow : NetworkDecision := DecisionAllow.
Definition or_policy_denied (reason : gostring) : gostring := if decide (reason = []) then reasonPolicyDenied else reason.
Definition DenyWithSource (reason : gostring) (source : NetworkDecisionSource) : NetworkDecision :=
  DecisionDeny (or_policy_denied reason) source NetworkPolicyDecisionDeny.
Definition AskWithSource (reason : gostring) (source : NetworkDecisionSource) : NetworkDecision :=
  DecisionDeny (or_policy_denied reason) source NetworkPolicyDecisionAsk.
Definition Deny (reason : gostring) : NetworkDecision := DenyWithSource reason NetworkDecisionSourceDecider.
Definition Ask (reason : gostring) : NetworkDecision := AskWithSource reason NetworkDecisionSourceDecider.

(** A [NetworkPolicyDecider]. *)
Definition Decider := NetworkPolicyRequest -> NetworkDecision.

Definition mapDeciderDecision (decision : NetworkDecision) : NetworkDecision :=
  match decision with
  | DecisionAllow => decision
  | DecisionDeny reason _ d => DecisionDeny reason NetworkDecisionSourceDecider d
  end.

(** ** audit.go *)

Record PolicyDecisionAuditEvent := mkEvent {
  EventName : gostring; Timestamp : gostring; EventMetadata : NetworkProxyAuditMetadata;
  Scope : gostring; EventDecision : gostring; EventSource : gostring; EventReason : gostring;
  EventProtocol : gostring; ServerAddress : gostring; ServerPort : Z; EventMethod : gostring;
  ClientAddress : gostring; Override : bool;
}.

Definition auditPolicyDecisionEventName : gostring := "codex.network_proxy.policy_decision".
Definition auditScopeDomain : gostring := "domain".
Definition auditScopeNonDomain : gostring := "non_domain".
Definition auditDecisionAllow : gostring := "allow".
Definition auditDecisionDeny : gostring := "deny".
Definition auditReasonAllow : gostring := "allow".
Definition auditDefaultMethod : gostring := "none".
Definition auditDefaultClientAddress : gostring := "unknown".

(** Absent methods and clients are empty. *)
Record policyAuditArgs := mkAuditArgs {
  scope : gostring; adecision : gostring; asource : gostring; areason : gostring; aprotocol : NetworkProtocol;
  serverAddress : gostring; serverPort : Z; amethod : gostring; hasMethod : bool;
  clientAddr : gostring; hasClient : bool; override : bool;
}.

(** The events the sink is given; [now] is the formatted time. *)
Definition emitPolicyAuditEvent (sink : bool) (now : gostring) (m : NetworkProxyAuditMetadata) (args : policyAuditArgs)
    : list PolicyDecisionAuditEvent :=
  if negb sink then []
  else [ {| EventName := auditPolicyDecisionEventName; Timestamp := now; EventMetadata := m;
            Scope := scope args; EventDecision := adecision args; EventSource := asource args;
            EventReason := areason args; EventProtocol := PolicyProtocol (aprotocol args);
            ServerAddress := serverAddress args; ServerPort := serverPort args;
            EventMethod := if hasMethod args then amethod args else auditDefaultMethod;
            ClientAddress := if hasClient args then clientAddr args else auditDefaultClientAddress;
            Override := override args |} ].

(** [blockDecisionAuditArgs] *)
Record blockDecisionAuditArgs := mkBlockArgs {
  bsource : NetworkDecisionSource; breason : gostring; bprotocol : NetworkProtocol; bserverAddress : gostring;
  bserverPort : Z; bmethod : gostring; bhasMethod : bool; bclientAddr : gostring; bhasClient : bool;
}.

Definition emitNonDomainAuditEvent (sink : bool) (now : gostring) (m : NetworkProxyAuditMetadata)
    (args : blockDecisionAuditArgs) (decision : gostring) : list PolicyDecisionAuditEvent :=
  emitPolicyAuditEvent sink now m
    {| scope := auditScopeNonDomain; adecision := decision; asource := source_string (bsource args);
       areason := breason args; aprotocol := bprotocol args; serverAddress := bserverAddress args;
       serverPort := bserverPort args; amethod := bmethod args; hasMethod := bhasMethod args;
       clientAddr := bclientAddr args; hasClient := bhasClient args; override := false |}.
Definition emitBlockDecisionAuditEvent sink now m args := emitNonDomainAuditEvent sink now m args auditDecisionDeny.
Definition emitAllowDecisionAuditEvent sink now m args := emitNonDomainAuditEvent sink now m args auditDecisionAllow.

Section Evaluate.
Context {env : GoEnv}.

(** The decision and whether the decider overrode the policy. *)
Definition decideHost (s : NetworkProxyState) (decider : option Decider) (request : NetworkPolicyRequest)
    : NetworkDecision * bool :=
  match hostBlocked s (rHost request) (rPort request) with
  | hostAllowed => (Allow, false)
  | hostBlockedFor hostBlockNotAllowed =>
      match decider with
      | Some decide =>
          let deciderDecision := mapDeciderDecision (decide request) in
          (deciderDecision, match deciderDecision with DecisionAllow => true | _ => false end)
      | None => (DenyWithSource (asStr hostBlockNotAllowed) NetworkDecisionSourceBaselinePolicy, false)
      end
  | hostBlockedFor reason => (DenyWithSource (asStr reason) NetworkDecisionSourceBaselinePolicy, false)
  end.

(** The decision, and the audit events. *)
Definition evaluateHostPolicy (now : gostring) (s : NetworkProxyState) (decider : option Decider)
    (request : NetworkPolicyRequest) : NetworkDecision * list PolicyDecisionAuditEvent :=
  let '(decision, policyOverride) := decideHost s decider request in
  let '(auditDecision, auditSource, auditReason) :=
    match decision with
    | DecisionAllow =>
        if policyOverride
        then (auditDecisionAllow, NetworkDecisionSourceDecider, asStr hostBlockNotAllowed)
        else (auditDecisionAllow, NetworkDecisionSourceBaselinePolicy, auditReasonAllow)
    | DecisionDeny reason source d => (decision_string d, source, reason)
    end in
  (decision,
   emitPolicyAuditEvent (auditSink s) now (metadata s)
     {| scope := auditScopeDomain; adecision := auditDecision; asource := source_string auditSource;
        areason := auditReason; aprotocol := rProtocol request; serverAddress := rHost request;
        serverPort := rPort request; amethod := rMethod request;
        hasMethod := negb (bool_decide (rMethod request = []));
        clientAddr := rClientAddr request; hasClient := negb (bool_decide (rClientAddr request = []));
        override := policyOverride |}).

End Evaluate.

(** ** Examples *)

Definition example_world : GoWorld :=
  {| homeDir := None; cwd := None; LookupEnv := fun _ => None; ReadFile := fun _ => None;
     EvalSymlinks := fun _ => None; darwin := true |}.

Definition example_constraints (managed : option (list gostring)) : NetworkProxyConstraints :=
  mkConstraints None None None None None managed None None None None None.

(** Public and private names. *)
Definition example_lookup : hostLookupFunc := fun host _ =>
  if decide (host = str "intranet.example.com") then Some [Host.IPv4 10 0 0 7]
  else if decide (host = str "gone.example.com") then None else Some [Host.IPv4 93 184 216 34].

Section Examples.
#[local] Existing Instances ascii_env example_world.

Definition example_policy : result NetError NetworkProxyState :=
  NewNetworkProxyState example_lookup <$>
  BuildConfigState
    (WithDeniedDomains (WithAllowedDomains DefaultNetworkProxySettings [str "**.Example.com"; str "127.0.0.1"])
                       [str "bad.example.com"])
    (example_constraints None).

Definition example_decisions (s : NetworkProxyState) : list hostBlockDecision :=
  map (fun h => hostBlocked s h 443)
    [str "api.example.com"; str "BAD.example.com."; str "intranet.example.com"; str "gone.example.com";
     str "127.0.0.1"; str "[::1]:80"; str "other.org"; str " "].

Example hostBlocked_example :
  example_decisions <$> example_policy
  = Ok [hostAllowed; hostBlockedFor hostBlockDenied; hostBlockedFor hostBlockNotAllowedLocal;
        hostBlockedFor hostBlockNotAllowedLocal; hostAllowed; hostBlockedFor hostBlockNotAllowedLocal;
        hostBlockedFor hostBlockNotAllowed; hostBlockedFor hostBlockNotAllowed].
Proof. vm_compute. reflexivity. Qed.

Example update_example :
  (s ← example_policy; s ← AddDeniedDomain s "api.example.com:443"; s ← AddAllowedDomain s "other.org";
   Ok (hostBlocked s "api.example.com" 443, hostBlocked s "other.org" 80,
       CurrentPatterns s))
  = Ok (hostBlockedFor hostBlockDenied, hostAllowed,
        ([str "**.Example.com"; str "127.0.0.1"; str "other.org"], [str "bad.example.com"; str "api.example.com"])).
Proof. vm_compute. reflexivity. Qed.

Example managed_example :
  is_ok (c ← BuildConfigState DefaultNetworkProxySettings (example_constraints (Some [str "*.example.com"]));
         AddAllowedDomain (NewNetworkProxyState example_lookup c) "api.example.com") = true
  /\ is_ok (c ← BuildConfigState DefaultNetworkProxySettings (example_constraints (Some [str "*.example.com"]));
         AddAllowedDomain (NewNetworkProxyState example_lookup c) "example.com") = false.
Proof. vm_compute. split; reflexivity. Qed.

End Examples.

(** ** What an allowed request satisfies *)

Section Safety.
Context {env : GoEnv}.

Notation NormalizeHost := (Host.NormalizeHost unicode_lower).

(** An allowed entry without wildcards that names the host, or its address
    without the zone. *)
Definition explicit_entry (allowed : list gostring) (n : gostring) : Prop :=
  exists pattern, pattern ∈ allowed /\ "*"%char ∉ trim_space pattern /\ "?"%char ∉ trim_space pattern
    /\ (NormalizeHost (trim_space pattern) = n
        \/ Host.unscopedIPLiteral n = Some (NormalizeHost (trim_space pattern))).

(** The address of a literal, without its zone. *)
Definition literal_of (n : gostring) : option Host.Addr := Host.ParseAddr (default n (Host.unscopedIPLiteral n)).

(** A public literal, or a name other than [localhost] that resolves to public
    addresses only. *)
Definition reaches_public (lookup : hostLookupFunc) (n : gostring) (port : Z) : Prop :=
  match literal_of n with
  | Some addr => ~ Host.non_public addr
  | None => n <> str "localhost"
            /\ exists addrs, lookup n port = Some addrs
                 /\ Forall (fun addr => Host.wf_addr addr -> ~ Host.non_public addr) addrs
  end.

Lemma isExplicit_spec allowed n : isExplicitLocalAllowlisted allowed n = true -> explicit_entry allowed n.
Proof.
  unfold isExplicitLocalAllowlisted, explicit_entry. rewrite existsb_exists.
  intros (pattern & Hin%list_elem_of_In & H). exists pattern. split; [done|].
  destruct (_ || _); [done|]. case_bool_decide as Hw; [done|]. rewrite Exists_exists in Hw.
  apply orb_true_iff in H. rewrite !bool_decide_eq_true in H.
  split_and!; [intros Hin'; apply Hw; naive_solver|intros Hin'; apply Hw; naive_solver|done].
Qed.

Lemma not_non_public s addr : Host.ParseAddr s = Some addr -> Host.isNonPublicIP addr = false -> ~ Host.non_public addr.
Proof.
  intros Hwf%Host.ParseAddr_wf E. rewrite <- Host.isNonPublicIP_wf by done. by rewrite E.
Qed.

(** Literals that are not public are local. *)
Lemma localLiteral_false n : localLiteral n = false ->
  match literal_of n with Some addr => ~ Host.non_public addr | None => n <> str "localhost" end.
Proof.
  unfold localLiteral, literal_of. destruct (Host.isLoopbackHost n) eqn:El; [done|].
  destruct (Host.ParseAddr _) as [addr|] eqn:Ep; [by eapply not_non_public|].
  intros _ ->. by vm_compute in El.
Qed.

Lemma lookup_public n port lookup : hostResolvesToNonPublicIP n port lookup = false -> literal_of n = None ->
  exists addrs, lookup n port = Some addrs /\ Forall (fun addr => Host.wf_addr addr -> ~ Host.non_public addr) addrs.
Proof.
  unfold hostResolvesToNonPublicIP, literal_of, Host.unscopedIPLiteral. intros E Hl.
  assert (Host.ParseAddr n = None) as Hn.
  { destruct (cut_byte "%" n) as [[ip zone]|] eqn:Ec; [|done].
    destruct (Host.ParseAddr ip) eqn:Ei; [|done]. simpl in Hl. congruence. }
  rewrite Hn in E. destruct (lookup n port) as [addrs|]; [|done]. exists addrs. split; [done|].
  apply Forall_forall. intros addr Hin Hwf. rewrite <- Host.isNonPublicIP_wf by done.
  intros Ha. assert (existsb Host.isNonPublicIP addrs = true) as Hex; [|congruence].
  apply existsb_exists. exists addr. split; [by apply list_elem_of_In|done].
Qed.

(** What the baseline says unless the host is denied or local. *)
Lemma hostBlocked_not_local s h port n r :
  Host.parseHost unicode_lower h = Some n -> hostBlocked s h port = r ->
  r = hostAllowed \/ r = hostBlockedFor hostBlockNotAllowed ->
  globsetMatchesHostOrUnscoped (denySet (state s)) n = false
  /\ (AllowLocalBinding (ConfigOf (state s)) = true
      \/ explicit_entry (AllowedDomains (ConfigOf (state s))) n \/ reaches_public (lookup_ s) n port)
  /\ (r = hostAllowed -> globsetMatchesHostOrUnscoped (allowSet (state s)) n = true).
Proof.
  unfold hostBlocked. intros -> <-. destruct (globsetMatchesHostOrUnscoped (denySet _) n); [naive_solver|].
  intros Hr. split; [done|]. split; [|by repeat case_match; intros; breflect].
  destruct (AllowLocalBinding _); [by left|]. right. destruct (localLiteral n) eqn:El.
  - left. apply isExplicit_spec. destruct (isExplicitLocalAllowlisted _ n); [done|naive_solver].
  - right. destruct (hostResolvesToNonPublicIP n port _) eqn:Er; [naive_solver|].
    apply localLiteral_false in El. unfold reaches_public. destruct (literal_of n) eqn:En; [done|].
    split; [done|]. by apply lookup_public.
Qed.

(** C24.  What an allowed request satisfies, whoever allows it: a host with
    a normal form is not on the denylist; unless local binding is on it is
    named by an explicit entry, or is a public literal, or a name that resolves
    to public addresses only; and it is on the allowlist or the decider said
    yes.  The decider can only make up for the allowlist. *)
Theorem allowed_requests_safe now s decider req :
  (evaluateHostPolicy now s decider req).1 = DecisionAllow ->
  let decider_allows := exists decide, decider = Some decide /\ decide req = DecisionAllow in
  match Host.parseHost unicode_lower (rHost req) with
  | None => decider_allows
  | Some n =>
      globsetMatchesHostOrUnscoped (denySet (state s)) n = false
      /\ (AllowLocalBinding (ConfigOf (state s)) = true
          \/ explicit_entry (AllowedDomains (ConfigOf (state s))) n
          \/ reaches_public (lookup_ s) n (rPort req))
      /\ (globsetMatchesHostOrUnscoped (allowSet (state s)) n = true \/ decider_allows)
  end.
Proof.
  unfold evaluateHostPolicy, decideHost. destruct (hostBlocked s (rHost req) (rPort req)) as [|r] eqn:E.
  - intros _. simpl. destruct (Host.parseHost unicode_lower (rHost req)) as [n|] eqn:En.
    + destruct (hostBlocked_not_local _ _ _ _ _ En E (or_introl eq_refl)) as (? & ? & Ha). naive_solver.
    + unfold hostBlocked in E. by rewrite En in E.
  - destruct r; [done| |done]. destruct decider as [decide|]; [|done]. intros Hd. simpl in Hd.
    assert (decide req = DecisionAllow) as Hyes by (destruct (decide req); [done|by simpl in Hd]).
    destruct (Host.parseHost unicode_lower (rHost req)) as [n|] eqn:En; [|by exists decide].
    destruct (hostBlocked_not_local _ _ _ _ _ En E (or_intror eq_refl)) as (? & ? & _).
    split_and!; [done..|right; by exists decide].
Qed.

End Safety.

(** ** Runs *)

(** The operations that change the state.  Each reads the environment and
    files as they are at its time. *)
Inductive op :=
| OpSetMode (mode : NetworkMode)
| OpAllow (host : gostring)
| OpDeny (host : gostring)
| OpRecord (entry : BlockedRequest)
| OpDrain
| OpSetObserver (o : bool)
| OpSetLookup (l : option hostLookupFunc).

Section Runs.
Context {env : GoEnv} (defaultHostLookup : hostLookupFunc).

Definition or_same (s : NetworkProxyState) (m : result NetError NetworkProxyState) : NetworkProxyState :=
  match m with Ok s' => s' | _ => s end.

Definition apply_op (s : NetworkProxyState) (wo : GoWorld * op) : NetworkProxyState :=
  let '(world, o) := wo in
  match o with
  | OpSetMode mode => or_same s (SetNetworkMode s mode)
  | OpAllow host => or_same s (AddAllowedDomain s host)
  | OpDeny host => or_same s (AddDeniedDomain s host)
  | OpRecord entry => (RecordBlocked s entry).1
  | OpDrain => (DrainBlocked s).1
  | OpSetObserver b => SetBlockedRequestObserver s b
  | OpSetLookup l => SetLookupFunc defaultHostLookup s l
  end.

Definition run (s : NetworkProxyState) (ops : list (GoWorld * op)) : NetworkProxyState := foldl apply_op s ops.

(** The entries recorded since the last drain, and in all. *)
Definition since_drain (ops : list (GoWorld * op)) : list BlockedRequest :=
  foldl (fun acc wo => match wo.2 with OpRecord e => acc ++ [e] | OpDrain => [] | _ => acc end) [] ops.
Definition recorded (ops : list (GoWorld * op)) : nat :=
  length (filter (fun wo => match wo.2 with OpRecord _ => true | _ => false end = true) ops).

Notation NormalizeHost := (Host.NormalizeHost unicode_lower).

(** The policy is within the bounds, whatever the environment. *)
Definition valid (cfg : NetworkProxySettings) (c : NetworkProxyConstraints) : Prop :=
  forall world : GoWorld, ValidatePolicyAgainstConstraints cfg c = Ok tt.

Lemma validate_world (w1 w2 : GoWorld) cfg c :
  ValidatePolicyAgainstConstraints (world := w1) cfg c = ValidatePolicyAgainstConstraints (world := w2) cfg c.
Proof.
  unfold ValidatePolicyAgainstConstraints.
  by rewrite (Mitm.validateMitmHookConfig_world (@homeDir w1) (@cwd w1) (@homeDir w2) (@cwd w2)).
Qed.

Lemma validate_valid (w : GoWorld) cfg c u : ValidatePolicyAgainstConstraints cfg c = Ok u -> valid cfg c.
Proof. intros E w'. destruct u. by rewrite (validate_world w' w). Qed.

(** The compiled parts belong to the configuration. *)
Definition in_sync (c : ConfigState) : Prop :=
  compileDenylistGlobset (DeniedDomains (ConfigOf c)) = Ok (denySet c)
  /\ compileAllowlistGlobset (AllowedDomains (ConfigOf c)) = Ok (allowSet c)
  /\ mitmEnabled c = Mitm (ConfigOf c).

Lemma BuildConfigState_Ok (w : GoWorld) cfg c st : BuildConfigState cfg c = Ok st ->
  ConfigOf st = cfg /\ constraints st = c /\ in_sync st /\ blocked st = [] /\ blockedTotal st = 0%Z.
Proof.
  unfold BuildConfigState, wrapGlobset. intros (u1 & _ & E)%result_bind_Ok. apply result_bind_Ok in E as (u2 & _ & E).
  apply result_bind_Ok in E as (ds & Hd%Mitm.wrap_Ok & E). apply result_bind_Ok in E as (al & Ha%Mitm.wrap_Ok & E).
  apply result_bind_Ok in E as (hooks & _ & [= <-]). done.
Qed.

(** A new policy in place of the old one, with the same buffer. *)
Definition committed (s s' : NetworkProxyState) (candidate : NetworkProxySettings) : Prop :=
  exists c, s' = with_state s (with_blocked c (blocked (state s)) (blockedTotal (state s)))
    /\ ConfigOf c = candidate /\ constraints c = constraints (state s) /\ in_sync c
    /\ valid candidate (constraints c).

Lemma commitDomains_Ok (w : GoWorld) s f l candidate s' : commitDomains s f l candidate = Ok s' -> committed s s' candidate.
Proof.
  unfold commitDomains, in_context. intros (u & Hv%Mitm.wrap_Ok & Hb)%result_bind_Ok.
  apply result_bind_Ok in Hb as (c & Hc%Mitm.wrap_Ok & [= <-]). exists c.
  destruct (BuildConfigState_Ok _ _ _ _ Hc) as (Ec & Econ & Hsync & _). split_and!; [done..|].
  rewrite Econ. by eapply validate_valid.
Qed.

(** How an update of the lists ends: nothing to do, or the upserted rules. *)
Lemma updateDomainList_Ok (w : GoWorld) s h p s' : updateDomainList s h p = Ok s' ->
  exists n, Host.parseHost unicode_lower h = Some n
  /\ ((s' = s /\ (p = DomainPermissionDeny -> containsNormalized (DeniedDomains (ConfigOf (state s))) n = true))
     \/ committed s s' (WithUpsertDomainPermission (ConfigOf (state s)) n p)).
Proof.
  unfold updateDomainList. destruct (Host.parseHost unicode_lower h) as [n|]; [|done]. intros E. exists n.
  split; [done|]. case_bool_decide as Hp.
  - destruct (containsNormalized (DeniedDomains _) n && _) eqn:Eb; [|right; by eapply commitDomains_Ok].
    left. injection E as <-. split; [done|]. intros _. by breflect.
  - destruct (containsNormalized (AllowedDomains _) n && _); [|right; by eapply commitDomains_Ok].
    left. by injection E as <-.
Qed.

(** *** The invariant *)

Definition inv (c0 : NetworkProxyConstraints) (s : NetworkProxyState) : Prop :=
  constraints (state s) = c0 /\ valid (ConfigOf (state s)) c0 /\ in_sync (state s).

Lemma committed_inv c0 s s' candidate : committed s s' candidate -> inv c0 s -> inv c0 s'.
Proof. intros (c & -> & <- & Ec & Hsync & Hv) (<- & _ & _). rewrite Ec in Hv. done. Qed.

Lemma SetNetworkMode_Ok (w : GoWorld) s mode s' : SetNetworkMode s mode = Ok s' ->
  s' = with_state s (with_config (state s) (with_mode (ConfigOf (state s)) mode))
  /\ valid (with_mode (ConfigOf (state s)) mode) (constraints (state s)).
Proof.
  unfold SetNetworkMode, in_context. intros (u & Hv%Mitm.wrap_Ok & [= <-])%result_bind_Ok.
  split; [done|]. by eapply validate_valid.
Qed.

Lemma apply_op_inv c0 s wo : inv c0 s -> inv c0 (apply_op s wo).
Proof.
  intros Hinv. destruct wo as [w []]; simpl; try done.
  - destruct (SetNetworkMode s mode) as [s'| |] eqn:E; simpl; [|done..].
    destruct Hinv as (<- & _ & Hsync). by apply SetNetworkMode_Ok in E as [-> Hv].
  - destruct (AddAllowedDomain s host) as [s'| |] eqn:E; simpl; [|done..].
    apply updateDomainList_Ok in E as (n & _ & [[-> _]|Hc]); [done|by eapply committed_inv].
  - destruct (AddDeniedDomain s host) as [s'| |] eqn:E; simpl; [|done..].
    apply updateDomainList_Ok in E as (n & _ & [[-> _]|Hc]); [done|by eapply committed_inv].
Qed.

Lemma run_inv c0 s ops : inv c0 s -> inv c0 (run s ops).
Proof. revert s. induction ops as [|wo ops IH]; intros s Hs; [done|]. apply IH. by apply apply_op_inv. Qed.

(** *** The buffer of blocked requests *)

Definition last_n {A} (n : nat) (l : list A) : list A := drop (length l - n) l.

Lemma trimBlocked_spec l : trimBlocked l = last_n maxBlockedEvents l.
Proof.
  induction l as [|e l IH]; [done|]. cbn [trimBlocked]. destruct (maxBlockedEvents <? length (e :: l))%nat eqn:E.
  - apply Nat.ltb_lt in E. rewrite IH. unfold last_n. simpl length in *.
    by replace (S (length l) - maxBlockedEvents)%nat with (S (length l - maxBlockedEvents)) by lia.
  - apply Nat.ltb_ge in E. unfold last_n. by replace (length (e :: l) - maxBlockedEvents)%nat with 0%nat by lia.
Qed.

Lemma last_n_snoc {A} n (l : list A) x : (0 < n)%nat -> last_n n (last_n n l ++ [x]) = last_n n (l ++ [x]).
Proof.
  intros Hn. unfold last_n. rewrite !length_app, length_drop. simpl.
  rewrite !drop_app, drop_drop, !length_drop.
  replace (length l - n + (length l - (length l - n) + 1 - n))%nat with (length l + 1 - n)%nat by lia.
  f_equal. f_equal. lia.
Qed.

Lemma apply_op_buffer s wo :
  blocked (state (apply_op s wo)) = match wo.2 with
                                    | OpRecord e => last_n maxBlockedEvents (blocked (state s) ++ [e])
                                    | OpDrain => []
                                    | _ => blocked (state s)
                                    end
  /\ blockedTotal (state (apply_op s wo)) = match wo.2 with
                                           | OpRecord e => ((blockedTotal (state s) + 1) mod 2 ^ 64)%Z
                                           | _ => blockedTotal (state s)
                                           end.
Proof.
  assert (forall s' c, committed s s' c -> blocked (state s') = blocked (state s)
                                          /\ blockedTotal (state s') = blockedTotal (state s)) as Hc.
  { by intros s' c (c' & -> & _). }
  destruct wo as [w []]; simpl; try done.
  - destruct (SetNetworkMode s mode) as [s'| |] eqn:E; simpl; [|done..]. by apply SetNetworkMode_Ok in E as [-> _].
  - destruct (AddAllowedDomain s host) as [s'| |] eqn:E; simpl; [|done..].
    apply updateDomainList_Ok in E as (n & _ & [[-> _]|H]); [done|by apply Hc in H].
  - destruct (AddDeniedDomain s host) as [s'| |] eqn:E; simpl; [|done..].
    apply updateDomainList_Ok in E as (n & _ & [[-> _]|H]); [done|by apply Hc in H].
  - by rewrite trimBlocked_spec.
Qed.

Lemma run_buffer s ops : blocked (state s) = [] -> blockedTotal (state s) = 0%Z ->
  blocked (state (run s ops)) = last_n maxBlockedEvents (since_drain ops)
  /\ blockedTotal (state (run s ops)) = (Z.of_nat (recorded ops) mod 2 ^ 64)%Z.
Proof.
  intros Hb Ht. induction ops as [|wo ops [IHb IHt]] using rev_ind; [done|].
  unfold run, since_drain, recorded in *. rewrite !foldl_app, filter_app, length_app. simpl.
  destruct (apply_op_buffer (foldl apply_op s ops) wo) as [-> ->]. rewrite IHb, IHt.
  destruct wo as [w []]; simpl; rewrite ?Nat.add_0_r; try done.
  split; [by rewrite last_n_snoc by (unfold maxBlockedEvents; lia)|].
  rewrite Zplus_mod_idemp_l. f_equal. lia.
Qed.

(** C35.  Whatever sequence of updates runs, whether they succeed or fail: the
    managed constraints stay, the policy in force is within them, the
    compiled lists are those of the configuration, the buffer holds the last
    200 requests blocked since it was drained, and the total counts all of
    them at 64 bits. *)
Theorem policy_run_invariant (w : GoWorld) cfg c0 c ops :
  ValidatePolicyAgainstConstraints cfg c0 = Ok tt -> BuildConfigState cfg c0 = Ok c ->
  let s := run (NewNetworkProxyState defaultHostLookup c) ops in
  constraints (state s) = c0
  /\ (forall world : GoWorld, ValidatePolicyAgainstConstraints (CurrentConfig s) c0 = Ok tt)
  /\ compileDenylistGlobset (CurrentPatterns s).2 = Ok (denySet (state s))
  /\ compileAllowlistGlobset (CurrentPatterns s).1 = Ok (allowSet (state s))
  /\ MitmEnabled s = Mitm (CurrentConfig s)
  /\ BlockedSnapshot s = last_n maxBlockedEvents (since_drain ops)
  /\ blockedTotal (state s) = (Z.of_nat (recorded ops) mod 2 ^ 64)%Z.
Proof.
  intros Hv Hb s. destruct (BuildConfigState_Ok _ _ _ _ Hb) as (Ec & Econ & Hsync & Hbl & Htot).
  assert (inv c0 s) as (Hc & Hv' & Hd & Ha & Hm).
  { apply run_inv. split_and!; [done| |done]. simpl. rewrite Ec. by eapply validate_valid. }
  destruct (run_buffer (NewNetworkProxyState defaultHostLookup c) ops Hbl Htot) as [Hbuf Hcount].
  by split_and!.
Qed.

(** *** Denied hosts stay denied *)

(** The configuration has a deny rule for the host. *)
Definition denies (n : gostring) (cfg : NetworkProxySettings) : Prop :=
  exists e, mkEntry e DomainPermissionDeny ∈ cloneDomains cfg /\ NormalizeHost e = n.

(** An allow rule for the host takes the deny rule away. *)
Definition allows_again (n : gostring) (wo : GoWorld * op) : Prop :=
  match wo.2 with OpAllow host => NormalizeHost (NormalizeHost host) = n | _ => False end.

Lemma containsNormalized_denies n cfg : containsNormalized (DeniedDomains cfg) n = true -> denies n cfg.
Proof.
  unfold containsNormalized. rewrite existsb_exists. intros (e & He%list_elem_of_In & Hn).
  apply bool_decide_eq_true in Hn. exists e. by rewrite <- DeniedDomains_elem.
Qed.

Lemma upsert_entries cfg h p :
  cloneDomains (WithUpsertDomainPermission cfg h p)
  = filter (fun e => NormalizeHost (Pattern e) <> NormalizeHost h) (cloneDomains cfg) ++ [mkEntry h p].
Proof. done. Qed.

Lemma upsert_denies_self cfg h : denies (NormalizeHost h) (WithUpsertDomainPermission cfg h DomainPermissionDeny).
Proof. exists h. rewrite upsert_entries. split; [|done]. apply elem_of_app. right. by left. Qed.

Lemma upsert_denies_other n cfg h p : denies n cfg -> (p = DomainPermissionDeny \/ NormalizeHost h <> n) ->
  denies n (WithUpsertDomainPermission cfg h p).
Proof.
  intros (e & He & Hn) Hor. destruct (decide (NormalizeHost h = n)) as [<-|Hne].
  - destruct Hor as [->|]; [|done]. apply upsert_denies_self.
  - exists e. rewrite upsert_entries. split; [|done]. apply elem_of_app. left. apply list_elem_of_filter.
    split; [|done]. simpl. congruence.
Qed.

Lemma parseHost_Some h n : Host.parseHost unicode_lower h = Some n -> n = NormalizeHost h.
Proof. unfold Host.parseHost. case_decide; [done|]. by intros [= <-]. Qed.

Lemma apply_op_denies n s wo : ~ allows_again n wo -> denies n (ConfigOf (state s)) ->
  denies n (ConfigOf (state (apply_op s wo))).
Proof.
  intros Hna Hd. destruct wo as [w []]; simpl; try done.
  - destruct (SetNetworkMode s mode) as [s'| |] eqn:E; simpl; [|done..]. by apply SetNetworkMode_Ok in E as [-> _].
  - destruct (AddAllowedDomain s host) as [s'| |] eqn:E; simpl; [|done..].
    apply updateDomainList_Ok in E as (m & ->%parseHost_Some & [[-> _]|(c & -> & Ec & _)]); [done|]. simpl. rewrite Ec.
    apply upsert_denies_other; [done|by right].
  - destruct (AddDeniedDomain s host) as [s'| |] eqn:E; simpl; [|done..].
    apply updateDomainList_Ok in E as (m & _ & [[-> _]|(c & -> & Ec & _)]); [done|]. simpl. rewrite Ec.
    apply upsert_denies_other; [done|by left].
Qed.

Lemma run_denies n s ops : Forall (fun wo => ~ allows_again n wo) ops -> denies n (ConfigOf (state s)) ->
  denies n (ConfigOf (state (run s ops))).
Proof.
  intros Hops. revert s. induction Hops as [|wo ops Hwo _ IH]; intros s Hs; [done|].
  apply IH. by apply apply_op_denies.
Qed.

Lemma denied_blocks s h n port : in_sync (state s) -> denies n (ConfigOf (state s)) ->
  plain_domain n = true -> canon n = n -> NormalizeHost h = n ->
  hostBlocked s h port = hostBlockedFor hostBlockDenied.
Proof.
  intros (Hd & _) (e & He & En) Hp Hc Hh. rewrite <- DeniedDomains_elem in He.
  assert (n <> []) as Hne by (intros E; rewrite E in Hp; discriminate Hp).
  assert (Host.parseHost unicode_lower h = Some n) as Hparse
    by (unfold Host.parseHost; rewrite Hh; by case_decide).
  unfold hostBlocked. rewrite Hparse. unfold globsetMatchesHostOrUnscoped. by rewrite (compiled_exact _ _ _ e n Hd He En Hp Hc).
Qed.

(** C25.  A denial holds until it is taken back: after [AddDeniedDomain] of a
    host whose normal form is a plain name (ASCII letters, digits, hyphens,
    underscores and dots, an IPv4 address included) has succeeded, on any state
    the program reaches, the host is denied in every spelling that normalizes to
    the same, through any sequence of updates that does not add the host to the
    allowlist again, whatever else is allowed by wildcards or added.  A host with
    the characters of patterns or the colons of an IPv6 literal is outside
    ([ipv6_denial_by_spelling]). *)
Theorem denied_stays_denied (w0 w : GoWorld) cfg c0 c before h s' after h' port :
  BuildConfigState (world := w0) cfg c0 = Ok c -> ValidatePolicyAgainstConstraints (world := w0) cfg c0 = Ok tt ->
  AddDeniedDomain (world := w) (run (NewNetworkProxyState defaultHostLookup c) before) h = Ok s' ->
  plain_domain (NormalizeHost h) = true -> canon (NormalizeHost h) = NormalizeHost h ->
  Forall (fun wo => ~ allows_again (NormalizeHost h) wo) after ->
  NormalizeHost h' = NormalizeHost h ->
  hostBlocked (run s' after) h' port = hostBlockedFor hostBlockDenied.
Proof.
  intros Hb Hv Hadd Hp Hc Hops Hh'. destruct (BuildConfigState_Ok _ _ _ _ Hb) as (Ec & Econ & Hsync & _).
  assert (inv c0 (run (NewNetworkProxyState defaultHostLookup c) before)) as Hinv.
  { apply run_inv. split_and!; [done| |done]. simpl. rewrite Ec. exact (validate_valid w0 _ _ _ Hv). }
  assert (inv c0 s' /\ denies (NormalizeHost h) (ConfigOf (state s'))) as [Hinv' Hden].
  { apply updateDomainList_Ok in Hadd as (n & ->%parseHost_Some & [[-> Hcon]|Hcom]).
    - split; [done|]. by apply containsNormalized_denies, Hcon.
    - split; [by eapply committed_inv|]. destruct Hcom as (c1 & -> & Ec1 & _). simpl. rewrite Ec1.
      rewrite <- (NormalizeHost_canonical _ Hp Hc) at 1. apply upsert_denies_self. }
  destruct (run_inv c0 s' after Hinv') as (_ & _ & Hsync').
  eapply denied_blocks; [done|by apply run_denies|done..].
Qed.

(** *** The managed allowlist bounds the policy *)

Lemma managed_bounds_candidate managed candidate overrides :
  (forall d, plain_domain d = true -> last d <> Some "."%char -> url_hostname d = Some d) ->
  Forall plain_pattern managed -> Forall plain_pattern candidate ->
  validateAllowedDomainsConstraint (map render managed) None (map render candidate) overrides = Ok tt ->
  forall h c, c ∈ candidate -> host_in (canon_pattern c) h -> exists m, m ∈ managed /\ host_in (canon_pattern m) h.
Proof.
  intros Hurl Hm Hc. unfold validateAllowedDomainsConstraint. intros ([] & _ & E)%result_bind_Ok h c Hin Hh.
  unfold none_left in E. case_decide as Hnil; [|done]. clear E.
  rewrite Forall_forall in Hm, Hc.
  assert (existsb (fun m => allows m (parseDomainPatternForConstraints (render c)))
            (map parseDomainPatternForConstraints (map render managed)) = true) as Hex.
  { apply not_false_iff_true. intros Hf.
    assert (render c ∈ (@nil gostring)) as Habs; [|by apply not_elem_of_nil in Habs].
    rewrite <- Hnil. apply list_elem_of_filter. split; [by rewrite Hf|]. apply list_elem_of_fmap. by exists c. }
  apply existsb_exists in Hex as (m' & Hm'%list_elem_of_In & Ha). rewrite map_map in Hm'.
  apply list_elem_of_fmap in Hm' as (m & -> & Hmin). exists m. split; [done|].
  rewrite !parseForConstraints_render in Ha by auto.
  eapply allows_sound; [by apply canon_pattern_canonical, Hm|by apply canon_pattern_canonical, Hc|done|done].
Qed.

Lemma validate_allowed (w : GoWorld) cfg c managed :
  ValidatePolicyAgainstConstraints cfg c = Ok tt -> cAllowedDomains c = Some managed ->
  validateAllowedDomainsConstraint managed (cAllowlistExpansionEnabled c) (AllowedDomains cfg)
    (lowercaseSet (DeniedDomains cfg)) = Ok tt.
Proof.
  unfold ValidatePolicyAgainstConstraints. intros E Hm. rewrite Hm in E.
  repeat (apply result_bind_Ok in E as (?u & ?H & E)). by destruct u7.
Qed.

(**  Managed allowlists bound what users and approvals can add: with a
    managed list and no expansion setting, in every state the program reaches,
    each host the allowlist in force matches is matched by the managed list,
    for lists of plain patterns. *)
Theorem managed_allowlist_bounds (w : GoWorld) cfg c0 c ops managed current set_m host :
  (forall d, plain_domain d = true -> last d <> Some "."%char -> url_hostname d = Some d) ->
  ValidatePolicyAgainstConstraints cfg c0 = Ok tt -> BuildConfigState cfg c0 = Ok c ->
  cAllowedDomains c0 = Some (map render managed) -> cAllowlistExpansionEnabled c0 = None ->
  Forall plain_pattern managed -> compileAllowlistGlobset (map render managed) = Ok set_m ->
  let s := run (NewNetworkProxyState defaultHostLookup c) ops in
  (CurrentPatterns s).1 = map render current -> Forall plain_pattern current ->
  match_ (allowSet (state s)) host = true -> match_ set_m host = true.
Proof.
  intros Hurl Hv Hb Hman Hexp Hpm Em s Hcur Hpc. destruct (BuildConfigState_Ok _ _ _ _ Hb) as (Ec & Econ & Hsync & _).
  assert (inv c0 s) as (_ & Hv' & _ & Ha & _).
  { apply run_inv. split_and!; [done| |done]. simpl. rewrite Ec. by eapply validate_valid. }
  pose proof (validate_allowed w _ _ _ (Hv' w) Hman) as Hok. rewrite Hexp in Hok.
  unfold CurrentPatterns in Hcur. simpl in Hcur. rewrite Hcur in Hok, Ha.
  rewrite (compiled_hosts _ _ _ host Hpc Ha), (compiled_hosts _ _ _ host Hpm Em).
  intros (p & Hp & Hh). by eapply managed_bounds_candidate.
Qed.

End Runs.

(** ** The theorems on an example *)

Section Witnesses.
#[local] Existing Instances ascii_env example_world.

Definition example_config : NetworkProxySettings :=
  WithAllowedDomains DefaultNetworkProxySettings [str "**.example.com"; str "api.example.com"].
Definition example_managed : list domainPattern :=
  [mkPattern domainApexAndSubdomains "Example.com"; mkPattern domainExact "other.org"].
Definition example_bounds : NetworkProxyConstraints := example_constraints (Some (map render example_managed)).

Definition empty_state : ConfigState :=
  mkConfigState DefaultNetworkProxySettings [] [] false ∅ (example_constraints None) [] 0.
Definition built : result NetError ConfigState := BuildConfigState example_config example_bounds.
Definition example_state : ConfigState := match built with Ok c => c | _ => empty_state end.

Lemma built_Ok : built = Ok example_state.
Proof.
  unfold example_state. assert (is_ok built = true) as H by (vm_compute; reflexivity). by destruct built.
Qed.

Definition example_request (host : gostring) : NetworkPolicyRequest :=
  mkPolicyRequest ProtocolHTTPSConnect host 443 "" "CONNECT" "" "".
Definition example_decider : Decider := fun _ => DecisionAllow.
Definition example_entry (h : gostring) : BlockedRequest :=
  mkBlocked h reasonDenied None None None "http" None None None 0.
Definition example_run : NetworkProxyState := NewNetworkProxyState example_lookup example_state.

Lemma allowed_requests_safe_witness :
  globsetMatchesHostOrUnscoped (denySet example_state) "free.net" = false
  /\ (AllowLocalBinding (ConfigOf example_state) = true
      \/ explicit_entry (AllowedDomains (ConfigOf example_state)) "free.net"
      \/ reaches_public example_lookup "free.net" 443)
  /\ (globsetMatchesHostOrUnscoped (allowSet example_state) "free.net" = true
      \/ exists decide, Some example_decider = Some decide /\ decide (example_request "free.net") = DecisionAllow).
Proof.
  pose proof (allowed_requests_safe "now" example_run (Some example_decider) (example_request "free.net")
                ltac:(vm_compute; reflexivity)) as H.
  assert (Host.parseHost unicode_lower (rHost (example_request "free.net")) = Some (str "free.net")) as Ep
    by (vm_compute; reflexivity).
  rewrite Ep in H. exact H.
Defined.

Lemma policy_run_invariant_witness :
  let ops := [(example_world, OpAllow "other.org"); (example_world, OpAllow "evil.net");
              (example_world, OpRecord (example_entry "evil.net"))] in
  let s := run example_lookup example_run ops in
  constraints (state s) = example_bounds
  /\ (forall world : GoWorld, ValidatePolicyAgainstConstraints (CurrentConfig s) example_bounds = Ok tt)
  /\ compileDenylistGlobset (CurrentPatterns s).2 = Ok (denySet (state s))
  /\ compileAllowlistGlobset (CurrentPatterns s).1 = Ok (allowSet (state s))
  /\ MitmEnabled s = Mitm (CurrentConfig s)
  /\ BlockedSnapshot s = last_n maxBlockedEvents (since_drain ops)
  /\ blockedTotal (state s) = (Z.of_nat (recorded ops) mod 2 ^ 64)%Z.
Proof.
  intros ops. apply (policy_run_invariant example_lookup example_world example_config).
  - vm_compute. reflexivity.
  - exact built_Ok.
Defined.

Definition denied_run : result NetError NetworkProxyState := AddDeniedDomain example_run "API.example.com:443".
Definition denied_state : NetworkProxyState := match denied_run with Ok s => s | _ => example_run end.

Lemma denied_stays_denied_witness :
  hostBlocked (run example_lookup denied_state [(example_world, OpAllow "www.example.com"); (example_world, OpSetMode "limited")])
    "api.Example.com." 80 = hostBlockedFor hostBlockDenied.
Proof.
  apply (denied_stays_denied example_lookup example_world example_world example_config example_bounds example_state []
           "API.example.com:443").
  - exact built_Ok.
  - vm_compute. reflexivity.
  - change (denied_run = Ok denied_state). unfold denied_state.
    assert (is_ok denied_run = true) as H by (vm_compute; reflexivity). by destruct denied_run.
  - vm_compute. reflexivity.
  - vm_compute. reflexivity.
  - apply Forall_cons. split; [by vm_compute|]. apply Forall_singleton. intros [].
  - vm_compute. reflexivity.
Defined.

(** The normal form of an IPv6 literal is its text: the denied address passes in
    another spelling, under an entry of the allowlist for that spelling. *)
Example ipv6_denial_by_spelling :
  match BuildConfigState (WithAllowedDomains DefaultNetworkProxySettings [str "2606:4700:0:0::1111"]) (example_constraints None) with
  | Ok c =>
      match AddDeniedDomain (NewNetworkProxyState example_lookup c) "[2606:4700::1111]" with
      | Ok s => hostBlocked s "2606:4700::1111" 443 = hostBlockedFor hostBlockDenied
                /\ hostBlocked s "2606:4700:0:0::1111" 443 = hostAllowed
                /\ Host.ParseAddr "2606:4700:0:0::1111" = Host.ParseAddr "2606:4700::1111"
      | _ => False
      end
  | _ => False
  end.
Proof. vm_compute. done. Qed.

Lemma managed_allowlist_bounds_witness :
  match_ (allowSet (state (run example_lookup example_run [(example_world, OpAllow "other.org")]))) "a.example.com" = true
  /\ match_ [str "example.com"; str "?*.example.com"; str "other.org"] "a.example.com" = true.
Proof.
  split; [vm_compute; reflexivity|].
  apply (managed_allowlist_bounds example_lookup example_world example_config example_bounds example_state
           [(example_world, OpAllow "other.org")] example_managed
           [mkPattern domainApexAndSubdomains "example.com"; mkPattern domainExact "api.example.com";
            mkPattern domainExact "other.org"]).
  - intros d Hd _. simpl. by destruct d.
  - vm_compute. reflexivity.
  - exact built_Ok.
  - reflexivity.
  - reflexivity.
  - repeat constructor.
  - vm_compute. reflexivity.
  - vm_compute. reflexivity.
  - repeat constructor.
  - vm_compute. reflexivity.
Defined.

End Witnesses.

(** An entry that a URL reads as user information and a host, but the compiler
    of patterns as a host and a port, passes a managed list that does not cover
    what it allows. *)
Example userinfo_escapes_managed_list :
  let env := {| unicode_lower := id; unicode_upper := id; query_params_within_max := fun _ => true;
                url_hostname := fun h => if decide (h = str "evil.net:@a.example.com") then Some (str "a.example.com")
                                         else Some h |} in
  validateAllowedDomainsConstraint (env := env) [str "*.example.com"] None [str "evil.net:@a.example.com"] ∅ = Ok tt
  /\ compileAllowlistGlobset (env := env) [str "evil.net:@a.example.com"] = Ok [str "evil.net"].
Proof. vm_compute. done. Qed.

End Policy.
