(* ===== verification/NetBind.v ===== *)
(** * internal/networkproxy/addr.go: the addresses the proxy listens on

    Parsing of loose [host:port] addresses, their resolution to addresses that
    can be bound, and the clamping of binds to loopback. *)

From stdpp Require Import gmap.
From S2P Require Import Prelude GoStrings GoUtf8 GoText NetAddr NetConfig NetMitm NetPolicy.

Module Bind.
Import Config Policy.

(** [netip.AddrPort] *)
Definition AddrPort : Type := Host.Addr * Z.

Definition loopback4 : Host.Addr := Host.IPv4 127 0 0 1.

(** [strconv.ParseUint(s, 10, 16)], [None] for an error. *)
Definition ParseUint16 (s : gostring) : option Z :=
  if bool_decide (s = []) || negb (forallb Host.is_digit s) then None
  else
    let n := fold_left (fun acc c => acc * 10 + (bval c - 48))%Z s 0%Z in
    if (65535 <? n)%Z then None else Some n.

(** A rune that folds to a lower-case ASCII letter: itself, its upper case, the
    long s, the Kelvin sign. *)
Definition folds_to (r : rune) (c : ascii) : bool :=
  let z := bval c in
  (r =? z)%Z || (in_range 97 122 z && (r =? z - 32)%Z) || ((z =? 115)%Z && (r =? 383)%Z)
  || ((z =? 107)%Z && (r =? 8490)%Z).

Fixpoint all_fold (rs : list rune) (t : gostring) : bool :=
  match rs, t with
  | [], [] => true
  | r :: rs, c :: t => folds_to r c && all_fold rs t
  | _, _ => false
  end.

(** [strings.EqualFold] with a lower-case ASCII text. *)
Definition EqualFoldLower (s t : gostring) : bool := all_fold (runes s) t.

(** ** Host and port *)

(** [socketAddressParts] *)
Record socketAddressParts := mkParts { phost : gostring; pport : Z }.

Definition before_byte (sep : ascii) (s : gostring) : gostring :=
  match cut_byte sep s with Some (before, _) => before | None => s end.

Definition parseHostPort (rawURL : gostring) (defaultPort : Z) : option socketAddressParts :=
  let trimmed := trim_space rawURL in
  let port_or_default s := default defaultPort (ParseUint16 s) in
  if decide (trimmed = []) then None
  else if match Host.ParseAddr trimmed with Some addr => negb (Host.Is4 addr) | None => false end
          && negb (has_prefix trimmed "[")
  then Some (mkParts trimmed defaultPort)
  else
    let withoutScheme := match str_index trimmed "://" with Some idx => drop (idx + 3) trimmed | None => trimmed end in
    let hostPort := after_last "@" (before_byte "/" withoutScheme) in
    let unbracketed :=
      if (count_byte ":" hostPort =? 1)%nat then
        let '(host, portStr) := default (hostPort, []) (cut_byte ":" hostPort) in
        if decide (host = []) then None else Some (mkParts host (port_or_default portStr))
      else if decide (hostPort = []) then None
      else Some (mkParts hostPort defaultPort) in
    match cut_prefix hostPort "[" with
    | None => unbracketed
    | Some inner =>
        match cut_byte "]" inner with
        | None => unbracketed
        | Some (host, rest) =>
            let port := match cut_prefix rest ":" with Some p => port_or_default p | None => defaultPort end in
            if decide (host = []) then None else Some (mkParts host port)
        end
    end.

Definition formatHostAndPort (host : gostring) (port : Z) : gostring :=
  if contains host ":" then "[" ++ host ++ "]:" ++ format_int port
  else host ++ ":" ++ format_int port.

Definition HostAndPortFromNetworkAddr (value : gostring) (defaultPort : Z) : gostring :=
  let trimmed := trim_space value in
  if decide (trimmed = []) then "<missing>"
  else match parseHostPort trimmed defaultPort with
       | None => formatHostAndPort trimmed defaultPort
       | Some parts => formatHostAndPort (phost parts) (pport parts)
       end.

Definition resolveAddr (rawURL : gostring) (defaultPort : Z) : option AddrPort :=
  parts ← parseHostPort rawURL defaultPort;
  let host := if EqualFoldLower (phost parts) "localhost" then str "127.0.0.1" else phost parts in
  match Host.ParseAddr host with
  | Some addr => Some (addr, pport parts)
  | None => Some (loopback4, pport parts)
  end.

(** ** Clamping *)

Definition clampNonLoopback (addr : AddrPort) (allowNonLoopback : bool) : AddrPort :=
  if Host.IsLoopback addr.1 then addr
  else if allowNonLoopback then addr
  else (loopback4, addr.2).

Definition clampBindAddrs (httpAddr socksAddr : AddrPort) (cfg : NetworkProxySettings) : AddrPort * AddrPort :=
  let httpAddr := clampNonLoopback httpAddr (DangerouslyAllowNonLoopbackProxy cfg) in
  let socksAddr := clampNonLoopback socksAddr (DangerouslyAllowNonLoopbackProxy cfg) in
  if (length (AllowUnixSockets cfg) =? 0)%nat && negb (DangerouslyAllowAllUnixSockets cfg)
  then (httpAddr, socksAddr)
  else ((loopback4, httpAddr.2), (loopback4, socksAddr.2)).

(** [RuntimeConfig] *)
Record RuntimeConfig := mkRuntime { HTTPAddr : AddrPort; SocksAddr : AddrPort }.

Inductive BindError := BindPolicy (e : NetError) | InvalidProxyURL (url : gostring) | InvalidSocksURL (url : gostring).

Definition or_error {A} (o : option A) (e : BindError) : result BindError A :=
  match o with Some a => Ok a | None => Err e end.

Definition ResolveRuntime `{GoWorld} (cfg : NetworkProxySettings) : result BindError RuntimeConfig :=
  _ ← Mitm.wrap BindPolicy (validateUnixSocketAllowlistPaths cfg);
  httpAddr ← or_error (resolveAddr (ProxyURL cfg) 3128) (InvalidProxyURL (ProxyURL cfg));
  socksAddr ← or_error (resolveAddr (SocksURL cfg) 8081) (InvalidSocksURL (SocksURL cfg));
  let '(httpAddr, socksAddr) := clampBindAddrs httpAddr socksAddr cfg in
  Ok (mkRuntime httpAddr socksAddr).

Example parse_examples :
  map (fun s => (fun p => (phost p, pport p)) <$> parseHostPort s 3128)
    [str "http://user:pw@proxy.local:8080/x"; str "http://[::1]:9999"; str "2001:db8::1"; str "host:99999"; str " "; str ":80";
     str "[::1]"]
  = [Some (str "proxy.local", 8080%Z); Some (str "::1", 9999%Z); Some (str "2001:db8::1", 3128%Z); Some (str "host", 3128%Z);
     None; None; Some (str "::1", 3128%Z)]
  /\ HostAndPortFromNetworkAddr "http://[::1]:8080" 3128 = str "[::1]:8080"
  /\ resolveAddr "LocalHost:1" 3128 = Some (loopback4, 1%Z)
  /\ resolveAddr "http://0.0.0.0:3128" 1 = Some (Host.IPv4 0 0 0 0, 3128%Z).
Proof. vm_compute. done. Qed.

(** ** Where the proxy can be reached *)

Lemma ParseUint16_range s n : ParseUint16 s = Some n -> (0 <= n <= 65535)%Z.
Proof.
  unfold ParseUint16. destruct (_ || _) eqn:E; [done|]. breflect.
  assert (forall l acc, forallb Host.is_digit l = true -> (0 <= acc)%Z ->
    (0 <= fold_left (fun acc c => acc * 10 + (bval c - 48)) l acc)%Z) as Hfold.
  { induction l as [|c l IH]; intros acc Hl Hacc; [done|]. simpl in *. apply andb_true_iff in Hl as [Hc Hl].
    apply IH; [done|]. apply in_range_spec in Hc. lia. }
  specialize (Hfold s 0%Z ltac:(done) ltac:(lia)). destruct (_ <? _)%Z eqn:En; [done|]. intros [= <-]. breflect. lia.
Qed.

Lemma parseHostPort_port s d p : (0 <= d <= 65535)%Z -> parseHostPort s d = Some p -> (0 <= pport p <= 65535)%Z.
Proof.
  intros Hd. unfold parseHostPort.
  assert (forall t, 0 <= default d (ParseUint16 t) <= 65535)%Z as Hp.
  { intros t. destruct (ParseUint16 t) eqn:E; [by apply ParseUint16_range in E|done]. }
  repeat case_match; intros; simplify_eq; simpl; solve [apply Hp | done].
Qed.

Lemma clampNonLoopback_spec a b : Host.IsLoopback (clampNonLoopback a b).1 = true \/ b = true.
Proof. unfold clampNonLoopback. destruct (Host.IsLoopback a.1) eqn:E; [by left|]. destruct b; [by right|by left]. Qed.

(**  The proxy listens on loopback only unless the dangerous flag is set,
    and with sockets to bridge, on 127.0.0.1 whatever the flag says; the ports
    are the parsed ones and fit 16 bits. *)
Theorem ResolveRuntime_loopback (w : GoWorld) cfg rc :
  ResolveRuntime cfg = Ok rc ->
  (DangerouslyAllowNonLoopbackProxy cfg = false ->
     Host.IsLoopback (HTTPAddr rc).1 = true /\ Host.IsLoopback (SocksAddr rc).1 = true)
  /\ (AllowUnixSockets cfg <> [] \/ DangerouslyAllowAllUnixSockets cfg = true ->
       (HTTPAddr rc).1 = loopback4 /\ (SocksAddr rc).1 = loopback4)
  /\ (exists http socks, parseHostPort (ProxyURL cfg) 3128 = Some http /\ parseHostPort (SocksURL cfg) 8081 = Some socks
       /\ (HTTPAddr rc).2 = pport http /\ (SocksAddr rc).2 = pport socks
       /\ (0 <= pport http <= 65535)%Z /\ (0 <= pport socks <= 65535)%Z).
Proof.
  unfold ResolveRuntime. intros (u & _ & E)%result_bind_Ok.
  apply result_bind_Ok in E as (h & Hh & E). apply result_bind_Ok in E as (s & Hs & E).
  assert (forall url d (a : AddrPort) e, or_error (resolveAddr url d) e = Ok a -> exists p, parseHostPort url d = Some p /\ a.2 = pport p)
    as Hres.
  { intros url d a e. unfold resolveAddr. destruct (parseHostPort url d) as [p|]; [|done]. cbn [mbind option_bind].
    destruct (Host.ParseAddr _); intros [= <-]; by exists p. }
  destruct (Hres _ _ _ _ Hh) as (ph & Eph & Ehp). destruct (Hres _ _ _ _ Hs) as (ps & Eps & Esp).
  assert (forall a b, (clampNonLoopback a b).2 = a.2) as Hport.
  { intros a b. unfold clampNonLoopback. destruct (Host.IsLoopback a.1), b; done. }
  pose proof (parseHostPort_port _ 3128 _ ltac:(lia) Eph) as Hrh. pose proof (parseHostPort_port _ 8081 _ ltac:(lia) Eps) as Hrs.
  unfold clampBindAddrs in E.
  pose proof (clampNonLoopback_spec h (DangerouslyAllowNonLoopbackProxy cfg)) as Hch.
  pose proof (clampNonLoopback_spec s (DangerouslyAllowNonLoopbackProxy cfg)) as Hcs.
  destruct (_ && _) eqn:Eb; injection E as <-; cbn [HTTPAddr SocksAddr fst snd]; rewrite !Hport.
  - breflect. split_and!.
    + intros Ef. rewrite Ef in *. naive_solver.
    + match goal with H : length _ = 0%nat |- _ => apply nil_length_inv in H end.
      intros [?|?]; congruence.
    + by exists ph, ps.
  - split_and!; [done|done|]. by exists ph, ps.
Qed.

Lemma ResolveRuntime_loopback_witness :
  ResolveRuntime (H := example_world) DefaultNetworkProxySettings
    = Ok (mkRuntime (loopback4, 3128%Z) (loopback4, 8081%Z))
  /\ Host.IsLoopback loopback4 = true /\ Host.IsLoopback loopback4 = true.
Proof.
  assert (ResolveRuntime (H := example_world) DefaultNetworkProxySettings
          = Ok (mkRuntime (loopback4, 3128%Z) (loopback4, 8081%Z))) as E by (vm_compute; reflexivity).
  split; [exact E|]. exact (proj1 (ResolveRuntime_loopback example_world _ _ E) eq_refl).
Defined.

End Bind.
