(* ===== verification/GoOrder.v ===== *)
(** * The order of Go strings, [sort.Strings], and the order of a map range

    Go compares strings byte by byte.  [sort.Strings] puts a slice into that
    order; the order is total, so the result depends on the elements only.  A
    range over a map visits its entries in an unspecified order, which is an
    instance of a class here. *)

From stdpp Require Import base list gmap sorting.
From S2P Require Import Prelude GoStrings GoText.

(** ** The order *)

Fixpoint str_leb (s t : gostring) : bool :=
  match s, t with
  | [], _ => true
  | _ :: _, [] => false
  | c :: s, d :: t => if (bval c =? bval d)%Z then str_leb s t else (bval c <? bval d)%Z
  end.

Definition str_le (s t : gostring) : Prop := str_leb s t = true.
Definition str_lt (s t : gostring) : Prop := str_le s t /\ s <> t.

#[export] Instance str_le_dec : RelDecision str_le := fun s t => decide (str_leb s t = true).

#[export] Instance str_le_refl : Reflexive str_le.
Proof. intros s. unfold str_le. induction s as [|c s IH]; simpl; [done|]. by rewrite Z.eqb_refl. Qed.

#[export] Instance str_le_trans : Transitive str_le.
Proof.
  intros s. unfold str_le. induction s as [|c s IH]; intros [|d t] [|e u]; simpl; try done.
  destruct (Z.eqb_spec (bval c) (bval d)) as [E1|N1], (Z.eqb_spec (bval d) (bval e)) as [E2|N2],
    (Z.eqb_spec (bval c) (bval e)) as [E3|N3]; intros; breflect; try lia; eauto.
  all: apply Z.ltb_lt; lia.
Qed.

#[export] Instance str_le_total : Total str_le.
Proof.
  intros s. unfold str_le. induction s as [|c s IH]; intros [|d t]; simpl; auto.
  destruct (Z.eqb_spec (bval c) (bval d)) as [->|N].
  - rewrite Z.eqb_refl. apply IH.
  - destruct (Z.eqb_spec (bval d) (bval c)); [lia|]. rewrite !Z.ltb_lt. lia.
Qed.

#[export] Instance str_le_antisymm : AntiSymm (=) str_le.
Proof.
  intros s. unfold str_le. induction s as [|c s IH]; intros [|d t]; simpl; try done.
  destruct (Z.eqb_spec (bval c) (bval d)) as [E|N].
  - rewrite E, Z.eqb_refl. intros. apply bval_inj in E as ->. f_equal. auto.
  - destruct (Z.eqb_spec (bval d) (bval c)); [lia|]. rewrite !Z.ltb_lt. lia.
Qed.

(** ** [sort.Strings] *)

Definition sort_strings (l : list gostring) : list gostring := merge_sort str_le l.

Lemma sort_strings_perm l : sort_strings l ≡ₚ l.
Proof. apply merge_sort_Permutation. Qed.

Lemma sort_strings_sorted l : StronglySorted str_le (sort_strings l).
Proof. apply (StronglySorted_merge_sort _ l). Qed.

(** Any sorting algorithm gives this list. *)
Lemma sort_strings_unique l k : l ≡ₚ k -> StronglySorted str_le k -> sort_strings l = k.
Proof.
  intros Hp Hk. apply (StronglySorted_unique str_le); [apply sort_strings_sorted|done|].
  by rewrite sort_strings_perm.
Qed.

Lemma sort_strings_Permutation l k : l ≡ₚ k -> sort_strings l = sort_strings k.
Proof.
  intros H. apply sort_strings_unique; [|apply sort_strings_sorted]. by rewrite sort_strings_perm.
Qed.

#[export] Instance sort_strings_proper : Proper ((≡ₚ) ==> eq) sort_strings.
Proof. intros l k H. by apply sort_strings_Permutation. Qed.

Lemma elem_of_sort_strings x l : x ∈ sort_strings l <-> x ∈ l.
Proof. by rewrite sort_strings_perm. Qed.

Lemma NoDup_sort_strings l : NoDup (sort_strings l) <-> NoDup l.
Proof. by rewrite sort_strings_perm. Qed.

(** ** [sort.SliceStable]

    The stable sort by a strict weak order given as a test. *)

Section Stable.
Context {A : Type} (less : A -> A -> bool).

Fixpoint insert_stable (x : A) (l : list A) : list A :=
  match l with
  | [] => [x]
  | y :: l => if less y x then y :: insert_stable x l else x :: y :: l
  end.
Definition sort_stable (l : list A) : list A := foldr insert_stable [] l.

Lemma insert_stable_perm x l : insert_stable x l ≡ₚ x :: l.
Proof. induction l as [|y l IH]; cbn; [done|]. destruct (less y x); [|done]. rewrite IH. apply perm_swap. Qed.

Lemma sort_stable_perm l : sort_stable l ≡ₚ l.
Proof. induction l as [|x l IH]; cbn; [done|]. by rewrite insert_stable_perm, IH. Qed.

Definition not_after (x y : A) : Prop := less y x = false.

Hypothesis less_asym : forall x y, less x y = true -> less y x = false.
Hypothesis not_less_trans : forall x y z, less y x = false -> less z y = false -> less z x = false.

Lemma insert_stable_sorted x l : StronglySorted not_after l -> StronglySorted not_after (insert_stable x l).
Proof.
  induction 1 as [|y l Hl IH Hy]; cbn; [by repeat constructor|]. destruct (less y x) eqn:E.
  - constructor; [done|]. rewrite insert_stable_perm. constructor; [by apply less_asym|done].
  - constructor; [by constructor|]. constructor; [done|]. eapply Forall_impl; [exact Hy|].
    intros z Hz. unfold not_after in *. by apply (not_less_trans _ y).
Qed.

Lemma sort_stable_sorted l : StronglySorted not_after (sort_stable l).
Proof. induction l as [|x l IH]; cbn; [constructor|]. by apply insert_stable_sorted. Qed.
End Stable.

(** ** Ranges over maps *)

(** The entries in the order the runtime happens to visit them. *)
Class MapOrder (A : Type) := {
  range : gmap gostring A -> list (gostring * A);
  range_perm : forall m, range m ≡ₚ map_to_list m;
}.

Lemma elem_of_range {A} `{MapOrder A} (m : gmap gostring A) k v :
  (k, v) ∈ range m <-> m !! k = Some v.
Proof. by rewrite range_perm, elem_of_map_to_list. Qed.

Lemma NoDup_range_fst {A} `{MapOrder A} (m : gmap gostring A) : NoDup (range m).*1.
Proof. rewrite range_perm. apply NoDup_fst_map_to_list. Qed.

(** The order of the map's own enumeration. *)
Definition listed_order (A : Type) : MapOrder A :=
  {| range := map_to_list; range_perm := fun m => Permutation_refl (map_to_list m) |}.

(** ** Counting the entries of a map *)

Section Count.
Context `{Countable K} {V : Type} (P : V -> bool).
Implicit Type m : gmap K V.

Definition count (m : gmap K V) : nat := size (filter (fun kv : K * V => P kv.2 = true) m).

Lemma count_empty : count ∅ = 0%nat.
Proof. unfold count. by rewrite map_filter_empty, map_size_empty. Qed.

Lemma count_insert_new m k v : m !! k = None -> count (<[k := v]> m) = (count m + Nat.b2n (P v))%nat.
Proof.
  intros Hk. unfold count. destruct (P v) eqn:E.
  - rewrite map_filter_insert_True, map_size_insert_None by (done || by apply map_lookup_filter_None; left).
    simpl. lia.
  - rewrite map_filter_insert_False, delete_id by (simpl; congruence || done). simpl. lia.
Qed.

Lemma count_delete m k v : m !! k = Some v -> count m = (count (delete k m) + Nat.b2n (P v))%nat.
Proof.
  intros Hk. rewrite <- (count_insert_new _ k v) by apply lookup_delete_eq. by rewrite insert_delete_id by done.
Qed.

Lemma count_insert m k u v : m !! k = Some u ->
  (count (<[k := v]> m) + Nat.b2n (P u) = count m + Nat.b2n (P v))%nat.
Proof.
  intros Hk. rewrite (count_delete m k u Hk), <- (insert_delete_eq m k v).
  rewrite count_insert_new by apply lookup_delete_eq. lia.
Qed.

Lemma count_pos m k v : m !! k = Some v -> P v = true -> (1 <= count m)%nat.
Proof. intros Hk Hv. rewrite (count_delete m k v), Hv by done. simpl. lia. Qed.
(** The count on any enumeration of the map. *)
Lemma count_list m l : l ≡ₚ map_to_list m ->
  length (filter (fun kv : K * V => P kv.2 = true) l) = count m.
Proof.
  intros Hl. rewrite Hl. unfold count. rewrite map_filter_alt, <- length_map_to_list.
  rewrite map_to_list_to_map; [done|].
  eapply sublist_NoDup; [apply (NoDup_fst_map_to_list m)|]. apply fmap_sublist, sublist_filter.
Qed.
End Count.
