(* ===== verification/Readiness.v ===== *)
(** * internal/utils/readiness: the readiness flag

    [readiness.go], [timedmutex.go], [token.go] and [errors.go].  The flag is
    shared by goroutines, so every method is a sequence of atomic steps, one per
    access to the shared state, and a system is a flag with one program counter
    per call.  A run is any interleaving of new calls, steps, timers and
    cancellations. *)

From stdpp Require Import gmap sets.
From S2P Require Import Prelude.

Open Scope Z_scope.

Module Readiness.

(** ** token.go, errors.go *)

(** An [int32], wrapped around. *)
Definition wrap32 (z : Z) : Z := (z + 2 ^ 31) mod 2 ^ 32 - 2 ^ 31.

Record Token := MkToken { id : Z }.

#[export] Instance Token_eq_dec : EqDecision Token.
Proof. solve_decision. Defined.
#[export] Instance Token_countable : Countable Token :=
  inj_countable' id MkToken (fun t => match t with MkToken _ => eq_refl end).

Inductive ReadinessError := ErrTokenLockFailed | ErrFlagAlreadyReady | ErrContext.

(** ** timedmutex.go: a channel of capacity one that holds the token when the
    lock is free *)

Record timedMutex := { ch : bool }.

Definition newTimedMutex : timedMutex := {| ch := true |}.

Definition tryLock (m : timedMutex) : bool * timedMutex := (ch m, {| ch := false |}).

Definition unlock (m : timedMutex) : timedMutex := {| ch := true |}.

(** [lock] waits for at most this many milliseconds. *)
Definition lockTimeout : Z := 1000.

(** ** The flag *)

Record Flag := {
  ready : bool;
  nextID : Z;
  lock : timedMutex;
  tokens : gset Token;
  done : bool;       (* the channel is closed *)
  closeOnce : bool;  (* the Once has run *)
}.

Definition New : Flag := {|
  ready := false; nextID := 1; lock := newTimedMutex; tokens := ∅;
  done := false; closeOnce := false |}.

Definition set_ready (b : bool) (f : Flag) : Flag :=
  {| ready := b; nextID := nextID f; lock := lock f; tokens := tokens f;
     done := done f; closeOnce := closeOnce f |}.
Definition set_lock (m : timedMutex) (f : Flag) : Flag :=
  {| ready := ready f; nextID := nextID f; lock := m; tokens := tokens f;
     done := done f; closeOnce := closeOnce f |}.
Definition set_tokens (ts : gset Token) (f : Flag) : Flag :=
  {| ready := ready f; nextID := nextID f; lock := lock f; tokens := ts;
     done := done f; closeOnce := closeOnce f |}.
Definition set_nextID (z : Z) (f : Flag) : Flag :=
  {| ready := ready f; nextID := z; lock := lock f; tokens := tokens f;
     done := done f; closeOnce := closeOnce f |}.

(** Closing a closed channel panics; the Once keeps that from happening. *)
Definition signalReady (f : Flag) : result unit Flag :=
  if closeOnce f then Ok f
  else if done f then Panic
  else Ok {| ready := ready f; nextID := nextID f; lock := lock f; tokens := tokens f;
             done := true; closeOnce := true |}.

(** ** Calls and their program counters *)

Inductive call := CallIsReady | CallSubscribe | CallMarkReady (t : Token) | CallWaitReady.

(** What a call returned. *)
Inductive outcome :=
| Ready (b : bool)
| Subscribed (r : Token + ReadinessError)
| Marked (r : bool + ReadinessError)
| Waited (err : option ReadinessError).

(** The callers of the timed [lock]. *)
Inductive locker := LockSubscribe | LockMarkReady (t : Token).

(** [w] tells whether [IsReady] was called by [WaitReady]. *)
Inductive pc :=
| IsLoad (w : bool) | IsTry (w : bool) | IsLen (w : bool) | IsUnlock (w empty : bool)
| IsSwap (w : bool) | IsSignal (w : bool) | IsReload (w : bool)
| WaitSelect
| SubLoad | SubRecheck | SubNext | SubCheck (t : Token) | SubUnlock (r : Token + ReadinessError)
| MarkLoad (t : Token) | MarkCheck (t : Token) | MarkStore (t : Token) | MarkClear
| MarkUnlock (marked : bool) | MarkSignal
| LockFast (k : locker) | LockWait (k : locker)
| Done (o : outcome).

Definition start (c : call) : pc :=
  match c with
  | CallIsReady => IsLoad false
  | CallSubscribe => SubLoad
  | CallMarkReady t => MarkLoad t
  | CallWaitReady => IsLoad true
  end.

(** ** The atomic steps *)

(** Where the return of [IsReady] leads. *)
Definition IsReady_return (w b : bool) : pc :=
  if w then if b then Done (Waited None) else WaitSelect else Done (Ready b).

Definition IsReady_step (f : Flag) (w : bool) (p : pc) : result unit (Flag * pc) :=
  match p with
  | IsLoad _ => Ok (f, if ready f then IsReady_return w true else IsTry w)
  | IsTry _ =>
      let '(taken, m) := tryLock (lock f) in
      if taken then Ok (set_lock m f, IsLen w) else Ok (f, IsReload w)
  | IsLen _ => Ok (f, IsUnlock w (bool_decide (tokens f = ∅)))
  | IsUnlock _ empty => Ok (set_lock (unlock (lock f)) f, if empty then IsSwap w else IsReload w)
  | IsSwap _ => Ok (set_ready true f, if ready f then IsReady_return w true else IsSignal w)
  | IsSignal _ => f ← signalReady f; Ok (f, IsReady_return w true)
  | IsReload _ => Ok (f, IsReady_return w (ready f))
  | _ => Ok (f, p)
  end.

(** The timed lock: at once when it is free, else in the select. *)
Definition locked (k : locker) : pc :=
  match k with LockSubscribe => SubRecheck | LockMarkReady t => MarkCheck t end.

Definition lock_failed (k : locker) : pc :=
  match k with
  | LockSubscribe => Done (Subscribed (inr ErrTokenLockFailed))
  | LockMarkReady _ => Done (Marked (inr ErrTokenLockFailed))
  end.

Definition lock_step (f : Flag) (k : locker) : Flag * pc :=
  if ch (lock f) then (set_lock {| ch := false |} f, locked k) else (f, LockWait k).

Definition Subscribe_step (f : Flag) (p : pc) : Flag * pc :=
  match p with
  | SubLoad => (f, if ready f then Done (Subscribed (inr ErrFlagAlreadyReady)) else LockFast LockSubscribe)
  | SubRecheck => (f, if ready f then SubUnlock (inr ErrFlagAlreadyReady) else SubNext)
  | SubNext =>
      let n := wrap32 (nextID f + 1) in (set_nextID n f, SubCheck (MkToken (wrap32 (n - 1))))
  | SubCheck t =>
      if id t =? 0 then (f, SubNext)
      else if decide (t ∈ tokens f) then (f, SubNext)
      else (set_tokens ({[t]} ∪ tokens f) f, SubUnlock (inl t))
  | SubUnlock r => (set_lock (unlock (lock f)) f, Done (Subscribed r))
  | _ => (f, p)
  end.

Definition MarkReady_step (f : Flag) (p : pc) : result unit (Flag * pc) :=
  match p with
  | MarkLoad t =>
      Ok (f, if ready f then Done (Marked (inl false))
             else if id t =? 0 then Done (Marked (inl false))
             else LockFast (LockMarkReady t))
  | MarkCheck t => Ok (f, if decide (t ∈ tokens f) then MarkStore t else MarkUnlock false)
  | MarkStore _ => Ok (set_ready true f, MarkClear)
  | MarkClear => Ok (set_tokens ∅ f, MarkUnlock true)
  | MarkUnlock marked =>
      Ok (set_lock (unlock (lock f)) f, if marked then MarkSignal else Done (Marked (inl false)))
  | MarkSignal => f ← signalReady f; Ok (f, Done (Marked (inl true)))
  | _ => Ok (f, p)
  end.

(** One step of a call; a call blocked in a select stays where it is. *)
Definition go (f : Flag) (p : pc) : result unit (Flag * pc) :=
  match p with
  | IsLoad w | IsTry w | IsLen w | IsUnlock w _ | IsSwap w | IsSignal w | IsReload w => IsReady_step f w p
  | WaitSelect => Ok (f, if done f then Done (Waited None) else WaitSelect)
  | SubLoad | SubRecheck | SubNext | SubCheck _ | SubUnlock _ => Ok (Subscribe_step f p)
  | MarkLoad _ | MarkCheck _ | MarkStore _ | MarkClear | MarkUnlock _ | MarkSignal => MarkReady_step f p
  | LockFast k | LockWait k => Ok (lock_step f k)
  | Done _ => Ok (f, p)
  end.

(** The timer of a lock fires, or a context is cancelled. *)
Definition expire (p : pc) : pc :=
  match p with LockWait k => if lockTimeout <=? 0 then p else lock_failed k | _ => p end.

Definition cancel (p : pc) : pc :=
  match p with
  | LockWait k => lock_failed k
  | WaitSelect => Done (Waited (Some ErrContext))
  | _ => p
  end.

(** ** Systems and runs *)

Record system := { flag : Flag; calls : gmap nat pc }.

Definition initial : system := {| flag := New; calls := ∅ |}.

Inductive event := Call (i : nat) (c : call) | Step (i : nat) | Timer (i : nat) | Cancel (i : nat).

#[export] Instance call_eq_dec : EqDecision call.
Proof. solve_decision. Defined.
#[export] Instance event_eq_dec : EqDecision event.
Proof. solve_decision. Defined.

Definition exec (s : system) (e : event) : result unit system :=
  match e with
  | Call i c =>
      match calls s !! i with
      | Some _ => Ok s
      | None => Ok {| flag := flag s; calls := <[i := start c]> (calls s) |}
      end
  | Step i =>
      match calls s !! i with
      | Some p =>
          '(f, p) ← go (flag s) p;
          Ok {| flag := f; calls := <[i := p]> (calls s) |}
      | None => Ok s
      end
  | Timer i => Ok {| flag := flag s; calls := alter expire i (calls s) |}
  | Cancel i => Ok {| flag := flag s; calls := alter cancel i (calls s) |}
  end.

Fixpoint run (s : system) (es : list event) : result unit system :=
  match es with
  | [] => Ok s
  | e :: es => s ← exec s e; run s es
  end.

Definition String (f : Flag) : gostring :=
  "ReadinessFlag { ready: " ++ (if ready f then str "true" else str "false") ++ " }".

(** ** What the program counters tell *)

Definition critical (p : pc) : bool :=
  match p with
  | IsLen _ | IsUnlock _ _ | SubRecheck | SubNext | SubCheck _ | SubUnlock _
  | MarkCheck _ | MarkStore _ | MarkClear | MarkUnlock _ => true
  | _ => false
  end.

(** The caller is about to close the channel. *)
Definition signalling (p : pc) : bool :=
  match p with IsSignal _ | MarkClear | MarkUnlock true | MarkSignal => true | _ => false end.

(** [MarkReady] has accepted its token. *)
Definition marking (p : pc) : bool :=
  match p with MarkClear | MarkUnlock true | MarkSignal | Done (Marked (inl true)) => true | _ => false end.

(** ... and has dropped the tokens. *)
Definition cleared (p : pc) : bool :=
  match p with MarkUnlock true | MarkSignal | Done (Marked (inl true)) => true | _ => false end.

Definition inserting (p : pc) : bool :=
  match p with SubNext | SubCheck _ => true | _ => false end.

(** [Subscribe] has given out the token. *)
Definition handed (p : pc) : option Token :=
  match p with SubUnlock (inl t) | Done (Subscribed (inl t)) => Some t | _ => None end.

Definition returned_ready (p : pc) : bool :=
  match p with Done (Ready true) | Done (Waited None) => true | _ => false end.

(** What the flag owes to one call. *)
Record sound (f : Flag) (p : pc) : Prop := {
  sound_lock : critical p = true -> ch (lock f) = false;
  sound_ready : signalling p = true \/ marking p = true \/ returned_ready p = true -> ready f = true;
  sound_cleared : cleared p = true -> tokens f = ∅;
  sound_store : forall t, p = MarkStore t -> t ∈ tokens f;
}.

Record inv (s : system) : Prop := {
  inv_sound : forall i p, calls s !! i = Some p -> sound (flag s) p;
  inv_done : done (flag s) = closeOnce (flag s);
  inv_done_ready : done (flag s) = true -> ready (flag s) = true;
  inv_exclusive : forall i j p q, calls s !! i = Some p -> calls s !! j = Some q ->
    critical p = true -> critical q = true -> i = j;
  inv_locked : ch (lock (flag s)) = false ->
    exists i p, calls s !! i = Some p /\ critical p = true;
  inv_signalled : ready (flag s) = true ->
    done (flag s) = true \/ exists i p, calls s !! i = Some p /\ signalling p = true;
  inv_marking : forall i j p q, calls s !! i = Some p -> calls s !! j = Some q ->
    marking p = true -> marking q = true -> i = j;
  inv_inserting : forall i j p q, calls s !! i = Some p -> calls s !! j = Some q ->
    cleared p = true -> inserting q = false;
  inv_handed : forall i p t, calls s !! i = Some p -> handed p = Some t ->
    id t <> 0 /\ (t ∈ tokens (flag s) \/ exists j q, calls s !! j = Some q /\ cleared q = true);
  inv_distinct : forall i j p q t, calls s !! i = Some p -> calls s !! j = Some q ->
    handed p = Some t -> handed q = Some t -> i = j;
  inv_tokens : forall t, t ∈ tokens (flag s) -> exists i p, calls s !! i = Some p /\ handed p = Some t;
}.

Lemma inv_initial : inv initial.
Proof. split; simpl; set_solver. Qed.

(** ** What one step does, to the flag and to its call *)

Inductive lock_effect (f f' : Flag) (p p' : pc) : Prop :=
| lock_same : lock f' = lock f -> critical p' = critical p -> lock_effect f f' p p'
| lock_taken : ch (lock f) = true -> ch (lock f') = false -> critical p' = true -> lock_effect f f' p p'
| lock_freed : critical p = true -> ch (lock f') = true -> critical p' = false -> lock_effect f f' p p'.

Inductive tokens_effect (f f' : Flag) (p p' : pc) : Prop :=
| tokens_same : tokens f' = tokens f -> handed p' = handed p -> cleared p' = cleared p ->
    tokens_effect f f' p p'
| tokens_cleared : p = MarkClear -> tokens f' = ∅ -> handed p' = None -> cleared p' = true ->
    tokens_effect f f' p p'
| tokens_added t : p = SubCheck t -> t ∉ tokens f -> id t <> 0 -> tokens f' = {[t]} ∪ tokens f ->
    handed p' = Some t -> cleared p' = false -> tokens_effect f f' p p'.

Record effect (f f' : Flag) (p p' : pc) : Prop := {
  effect_lock : lock_effect f f' p p';
  effect_tokens : tokens_effect f f' p p';
  effect_once : done f' = closeOnce f';
  effect_done : done f' = true -> done f = true \/ signalling p = true;
  effect_signalled : signalling p = true -> signalling p' = true \/ done f' = true;
  effect_keeps_done : done f = true -> done f' = true;
  effect_keeps_ready : ready f = true -> ready f' = true;
  effect_ready : ready f' = true -> ready f = true \/ signalling p' = true;
  effect_marking : marking p' = true -> marking p = true \/ exists t, p = MarkStore t;
  effect_inserting : inserting p' = true -> inserting p = true \/ (critical p = true /\ ready f = false);
  effect_sound : sound f' p';
  effect_nextID : nextID f' = nextID f \/ critical p = true;
}.

Ltac case_step :=
  repeat (case_decide || case_match || case_bool_decide || simplify_eq/=).

Ltac solve_lock :=
  first [apply lock_same; simpl; congruence
        |apply lock_taken; simpl; congruence
        |apply lock_freed; simpl; congruence].

Ltac solve_tokens :=
  first [apply tokens_same; simpl; congruence
        |apply tokens_cleared; simpl; congruence
        |eapply tokens_added; simpl; [reflexivity|..]; congruence].

Ltac solve_sound :=
  split; simpl; intros; simplify_eq/=; try solve [tauto | congruence | eauto | by destruct (ready _); naive_solver].

Lemma go_effect f p : sound f p -> done f = closeOnce f -> (done f = true -> ready f = true) ->
  exists f' p', go f p = Ok (f', p') /\ effect f f' p p'.
Proof.
  intros [Hl Hr Hc Hst] Ho Hd.
  assert (Hsig : exists g, signalReady f = Ok g /\ done g = true /\ closeOnce g = true /\
            ready g = ready f /\ lock g = lock f /\ tokens g = tokens f /\ nextID g = nextID f).
  { unfold signalReady. destruct (closeOnce f) eqn:E.
    - exists f. by rewrite Ho.
    - rewrite Ho. by eexists. }
  destruct Hsig as (g & Hg & Hgd & Hgo & Hgr & Hgl & Hgt & Hgn).
  destruct p; simpl in *; unfold lock_step, IsReady_return, tryLock; rewrite ?Hg; simpl;
    repeat match goal with
    | |- context [if ?b then _ else _] => destruct b eqn:?; simpl
    end;
    (eexists _, _; split; [reflexivity|]);
    try (destruct k); try (destruct r); try (destruct marked); breflect; simpl in *;
    try specialize (Hl eq_refl); try specialize (Hr (or_introl eq_refl)); try specialize (Hc eq_refl).
  all: split; simpl; [solve_lock|solve_tokens|..|solve_sound|]; intros; simplify_eq/=;
    try solve [tauto | congruence | eauto | rewrite ?Hgr in *; tauto | right; split; congruence ].
Qed.

Lemma expire_effect f p : sound f p -> done f = closeOnce f -> effect f f p (expire p).
Proof.
  intros [Hl Hr Hc Hst] Ho. unfold expire. change (lockTimeout <=? 0) with false. cbv iota.
  destruct p; try destruct k; simpl in *.
  all: split; simpl; [solve_lock|solve_tokens|..|solve_sound|]; intros; simplify_eq/=;
    try solve [tauto | eauto].
Qed.

Lemma cancel_effect f p : sound f p -> done f = closeOnce f -> effect f f p (cancel p).
Proof.
  intros [Hl Hr Hc Hst] Ho. destruct p; try destruct k; simpl in *.
  all: split; simpl; [solve_lock|solve_tokens|..|solve_sound|]; intros; simplify_eq/=;
    try solve [tauto | eauto].
Qed.

(** ** The invariant is kept *)

Lemma sound_other s i j p q f' p' :
  inv s -> calls s !! i = Some p -> calls s !! j = Some q -> i <> j ->
  effect (flag s) f' p p' -> sound f' q.
Proof.
  intros Hs Hp Hq Hij He. destruct (inv_sound s Hs j q Hq) as [Hl Hr Hc Hst].
  pose proof (inv_exclusive s Hs i j p q Hp Hq) as Hex.
  split.
  - intros Hcr. destruct (effect_lock _ _ _ _ He) as [E _|E _ _|E _ _].
    + rewrite E. auto.
    + rewrite (Hl Hcr) in E. done.
    + by destruct Hij; auto.
  - intros H%Hr. by apply (effect_keeps_ready _ _ _ _ He).
  - intros Hcl. destruct (effect_tokens _ _ _ _ He) as [E _ _| |t -> _ _ _ _ _]; [|done|].
    + rewrite E. auto.
    + by pose proof (inv_inserting s Hs j i q _ Hq Hp Hcl).
  - intros t ->. destruct (effect_tokens _ _ _ _ He) as [E _ _| ->|]; [| |set_solver].
    + rewrite E. auto.
    + by destruct Hij; auto.
Qed.


Section Step.
Context (s : system) (i : nat) (p p' : pc) (f' : Flag).
Hypotheses (Hs : inv s) (Hp : calls s !! i = Some p) (He : effect (flag s) f' p p').

Lemma step_exclusive j k q r :
  <[i := p']> (calls s) !! j = Some q -> <[i := p']> (calls s) !! k = Some r ->
  critical q = true -> critical r = true -> j = k.
Proof using Hs Hp He.
  assert (Hone : forall k r, i <> k -> calls s !! k = Some r -> critical p' = true -> critical r = true -> False).
  { intros k' r' Hik Hr Cp Cr. destruct (effect_lock _ _ _ _ He) as [_ E|E _ _|_ _ E].
    - apply Hik, (inv_exclusive s Hs i k' p r'); congruence.
    - pose proof (sound_lock _ _ (inv_sound s Hs k' r' Hr) Cr). congruence.
    - congruence. }
  intros [[<- <-]|[Hij Hq]]%lookup_insert_Some [[<- <-]|[Hik Hr]]%lookup_insert_Some Cq Cr; [done|..].
  - by destruct (Hone k r).
  - by destruct (Hone j q).
  - by apply (inv_exclusive s Hs j k q r).
Qed.

Lemma step_locked : ch (lock f') = false ->
  exists j q, <[i := p']> (calls s) !! j = Some q /\ critical q = true.
Proof using Hs Hp He.
  intros L. destruct (effect_lock _ _ _ _ He) as [E E'|_ _ E|_ E _]; [| |congruence].
  2: { exists i, p'. by rewrite lookup_insert_eq. }
  rewrite E in L. destruct (inv_locked s Hs L) as (j & q & Hq & Cq).
  destruct (decide (i = j)) as [<-|Hij].
  - exists i, p'. rewrite lookup_insert_eq. split; [done|congruence].
  - exists j, q. by rewrite lookup_insert_ne.
Qed.

Lemma step_signalled : ready f' = true ->
  done f' = true \/ exists j q, <[i := p']> (calls s) !! j = Some q /\ signalling q = true.
Proof using Hs Hp He.
  intros [R|R]%(effect_ready _ _ _ _ He); [|right; exists i, p'; by rewrite lookup_insert_eq].
  destruct (inv_signalled s Hs R) as [D|(j & q & Hq & Sq)]; [left; by apply (effect_keeps_done _ _ _ _ He)|].
  destruct (decide (i = j)) as [<-|Hij].
  - simplify_eq. destruct (effect_signalled _ _ _ _ He Sq); [right|by left].
    exists i, p'. by rewrite lookup_insert_eq.
  - right. exists j, q. by rewrite lookup_insert_ne.
Qed.

(** A call that has dropped the tokens, after the step, had done so before,
    or the step dropped them. *)
Lemma marking_cleared q : marking q = true -> cleared q = false -> q = MarkClear.
Proof. by destruct q as [| | | | | | | | | | | | | | | | |[]| | | |[|[]|[[]|]|]]. Qed.

Lemma cleared_marking q : cleared q = true -> marking q = true.
Proof. by destruct q as [| | | | | | | | | | | | | | | | |[]| | | |[|[]|[[]|]|]]. Qed.

Lemma step_marking j k q r :
  <[i := p']> (calls s) !! j = Some q -> <[i := p']> (calls s) !! k = Some r ->
  marking q = true -> marking r = true -> j = k.
Proof using Hs Hp He.
  assert (Hone : forall k r, i <> k -> calls s !! k = Some r -> marking p' = true -> marking r = true -> False).
  { intros k' r' Hik Hr Mp Mr. destruct (effect_marking _ _ _ _ He Mp) as [M|[t ->]].
    - by apply Hik, (inv_marking s Hs i k' p r').
    - pose proof (sound_store _ _ (inv_sound s Hs i _ Hp) t eq_refl) as Ht.
      destruct (cleared r') eqn:C.
      + rewrite (sound_cleared _ _ (inv_sound s Hs k' r' Hr) C) in Ht. set_solver.
      + apply marking_cleared in C as ->; [|done]. apply Hik.
        by apply (inv_exclusive s Hs i k' (MarkStore t) MarkClear). }
  intros [[<- <-]|[Hij Hq]]%lookup_insert_Some [[<- <-]|[Hik Hr]]%lookup_insert_Some Mq Mr; [done|..].
  - by destruct (Hone k r).
  - by destruct (Hone j q).
  - by apply (inv_marking s Hs j k q r).
Qed.

Lemma step_inserting j k q r :
  <[i := p']> (calls s) !! j = Some q -> <[i := p']> (calls s) !! k = Some r ->
  cleared q = true -> inserting r = false.
Proof using Hs Hp He.
  intros Hq Hr Cq. destruct (inserting r) eqn:I; [|done]. exfalso.
  apply lookup_insert_Some in Hq as [[<- <-]|[Hij Hq]], Hr as [[<- <-]|[Hik Hr]].
  - by destruct p'.
  - destruct (effect_tokens _ _ _ _ He) as [_ _ E| -> _ _ _|t _ _ _ _ _ E]; [| |congruence].
    + rewrite E in Cq. pose proof (inv_inserting s Hs i k p r Hp Hr Cq). congruence.
    + apply Hik. apply (inv_exclusive s Hs i k MarkClear r); [done..|by destruct r].
  - destruct (effect_inserting _ _ _ _ He I) as [I'|[C R]].
    + pose proof (inv_inserting s Hs j i q p Hq Hp Cq). congruence.
    + pose proof (sound_ready _ _ (inv_sound s Hs j q Hq)) as R'. rewrite R in R'.
      apply cleared_marking in Cq. enough (false = true) by done. auto.
  - pose proof (inv_inserting s Hs j k q r Hq Hr Cq). congruence.
Qed.

Lemma step_handed j q t :
  <[i := p']> (calls s) !! j = Some q -> handed q = Some t ->
  id t <> 0 /\ (t ∈ tokens f' \/ exists k r, <[i := p']> (calls s) !! k = Some r /\ cleared r = true).
Proof using Hs Hp He.
  assert (Hold : forall j q t, calls s !! j = Some q -> handed q = Some t -> id t <> 0 /\
            (t ∈ tokens f' \/ exists k r, <[i := p']> (calls s) !! k = Some r /\ cleared r = true)).
  { intros j' q' t' Hq Hh. destruct (inv_handed s Hs j' q' t' Hq Hh) as [Hid Ht]. split; [done|].
    destruct (effect_tokens _ _ _ _ He) as [E _ Ec| -> _ _ Ec|u Ep _ _ E _ Ec].
    - destruct Ht as [Ht|(k & r & Hr & Cr)]; [left; by rewrite E|right].
      destruct (decide (i = k)) as [<-|Hik].
      + exists i, p'. rewrite lookup_insert_eq. simplify_eq. split; [done|congruence].
      + exists k, r. by rewrite lookup_insert_ne.
    - right. exists i, p'. by rewrite lookup_insert_eq.
    - destruct Ht as [Ht|(k & r & Hr & Cr)]; [left; set_solver|].
      right. exists k, r. rewrite lookup_insert_ne; [done|]. intros <-. rewrite Hp in Hr.
      by simplify_eq. }
  intros [[<- <-]|[Hij Hq]]%lookup_insert_Some Hh; [|by eapply Hold].
  destruct (effect_tokens _ _ _ _ He) as [_ E _| |u _ _ Hid E Eh _]; [|congruence|].
  - rewrite E in Hh. by eapply Hold.
  - simplify_eq. split; [done|left; set_solver].
Qed.

Lemma step_distinct j k q r t :
  <[i := p']> (calls s) !! j = Some q -> <[i := p']> (calls s) !! k = Some r ->
  handed q = Some t -> handed r = Some t -> j = k.
Proof using Hs Hp He.
  assert (Hone : forall k r t, i <> k -> calls s !! k = Some r -> handed p' = Some t -> handed r = Some t -> False).
  { intros k' r' t' Hik Hr Hh Hh'. destruct (effect_tokens _ _ _ _ He) as [_ E _| |u Ep Hu _ _ Eh _].
    - apply Hik, (inv_distinct s Hs i k' p r' t'); congruence.
    - congruence.
    - rewrite Hh in Eh. injection Eh as <-.
      destruct (inv_handed s Hs k' r' t' Hr Hh') as [_ [Hin|(l & x & Hx & Cx)]]; [done|].
      pose proof (inv_inserting s Hs l i x _ Hx Hp Cx) as I. by rewrite Ep in I. }
  intros [[<- <-]|[Hij Hq]]%lookup_insert_Some [[<- <-]|[Hik Hr]]%lookup_insert_Some Hh Hh'; [done|..].
  - by destruct (Hone k r t).
  - by destruct (Hone j q t).
  - by apply (inv_distinct s Hs j k q r t).
Qed.

Lemma step_tokens t : t ∈ tokens f' ->
  exists j q, <[i := p']> (calls s) !! j = Some q /\ handed q = Some t.
Proof using Hs Hp He.
  assert (Hold : t ∈ tokens (flag s) -> (handed p = Some t -> handed p' = Some t) ->
            exists j q, <[i := p']> (calls s) !! j = Some q /\ handed q = Some t).
  { intros Ht Hk. destruct (inv_tokens s Hs t Ht) as (j & q & Hq & Hh).
    destruct (decide (i = j)) as [<-|Hij].
    - exists i, p'. rewrite lookup_insert_eq. simplify_eq. auto.
    - exists j, q. by rewrite lookup_insert_ne. }
  intros Ht. destruct (effect_tokens _ _ _ _ He) as [E Eh _|_ E _ _|u Ep _ _ E Eh _]; rewrite E in Ht.
  - apply Hold; [done|congruence].
  - set_solver.
  - apply elem_of_union in Ht as [<-%elem_of_singleton|Ht].
    + exists i, p'. by rewrite lookup_insert_eq.
    + apply Hold; [done|by rewrite Ep].
Qed.

Lemma inv_effect : inv {| flag := f'; calls := <[i := p']> (calls s) |}.
Proof using Hs Hp He.
  split; simpl.
  - intros j q [[<- <-]|[Hij Hq]]%lookup_insert_Some; [by apply (effect_sound _ _ _ _ He)|].
    by apply (sound_other s i j p q f' p').
  - apply (effect_once _ _ _ _ He).
  - intros [D|D]%(effect_done _ _ _ _ He); apply (effect_keeps_ready _ _ _ _ He).
    + by apply (inv_done_ready s Hs).
    + apply (sound_ready _ _ (inv_sound s Hs i p Hp)). auto.
  - apply step_exclusive.
  - apply step_locked.
  - apply step_signalled.
  - apply step_marking.
  - apply step_inserting.
  - apply step_handed.
  - apply step_distinct.
  - apply step_tokens.
Qed.

End Step.

Lemma inv_call s i c : inv s -> calls s !! i = None ->
  inv {| flag := flag s; calls := <[i := start c]> (calls s) |}.
Proof.
  intros Hs Hi.
  assert (Hst : critical (start c) = false /\ signalling (start c) = false /\ marking (start c) = false /\
    cleared (start c) = false /\ inserting (start c) = false /\ handed (start c) = None /\
    returned_ready (start c) = false /\ forall t, start c <> MarkStore t) by by destruct c.
  destruct Hst as (Hc & Hsg & Hm & Hcl & Hin & Hh & Hrr & Hms).
  assert (Hkeep : forall j q, calls s !! j = Some q -> <[i := start c]> (calls s) !! j = Some q).
  { intros j q Hq. rewrite lookup_insert_ne; [done|congruence]. }
  destruct Hs as [H1 H2 H3 H4 H5 H6 H7 H8 H9 H10 H11]. split; simpl; try done.
  - intros j q [[<- <-]|[Hij Hq]]%lookup_insert_Some; [|eauto].
    split; intros; naive_solver congruence.
  - intros j k q r [[<- <-]|[Hij Hq]]%lookup_insert_Some [[<- <-]|[Hik Hr]]%lookup_insert_Some ??;
      [congruence..|eauto].
  - intros L. destruct (H5 L) as (j & q & Hq & Cq). eauto.
  - intros R. destruct (H6 R) as [D|(j & q & Hq & Sq)]; eauto 6.
  - intros j k q r [[<- <-]|[Hij Hq]]%lookup_insert_Some [[<- <-]|[Hik Hr]]%lookup_insert_Some ??;
      [congruence..|eauto].
  - intros j k q r [[<- <-]|[Hij Hq]]%lookup_insert_Some [[<- <-]|[Hik Hr]]%lookup_insert_Some ?;
      [congruence..|eauto].
  - intros j q t [[<- <-]|[Hij Hq]]%lookup_insert_Some ?; [congruence|].
    destruct (H9 j q t Hq) as [? [?|(k & r & Hr & Cr)]]; [done|auto|]. split; [done|]. eauto 6.
  - intros j k q r t [[<- <-]|[Hij Hq]]%lookup_insert_Some [[<- <-]|[Hik Hr]]%lookup_insert_Some ??;
      [congruence..|eauto].
  - intros t Ht. destruct (H11 t Ht) as (j & q & Hq & Eq). eauto.
Qed.

Lemma alter_insert_eq (g : pc -> pc) i (m : gmap nat pc) p :
  m !! i = Some p -> alter g i m = <[i := g p]> m.
Proof. intros H. apply map_eq. intros j. destruct (decide (i = j)) as [<-|]; by simplify_map_eq. Qed.

Lemma alter_absent (g : pc -> pc) i (m : gmap nat pc) : m !! i = None -> alter g i m = m.
Proof. intros H. apply map_eq. intros j. destruct (decide (i = j)) as [<-|]; by simplify_map_eq. Qed.

(** Every event is possible, and keeps the invariant. *)
Lemma exec_inv s e : inv s -> exists s', exec s e = Ok s' /\ inv s'.
Proof.
  intros Hs. destruct e as [i c|i|i|i]; simpl.
  - destruct (calls s !! i) eqn:E; [by exists s|]. eexists. split; [done|]. by apply inv_call.
  - destruct (calls s !! i) as [p|] eqn:E; [|by exists s].
    destruct (go_effect (flag s) p) as (f' & p' & Hg & He);
      [by eapply inv_sound|by apply inv_done|by apply inv_done_ready|].
    rewrite Hg. eexists. split; [done|]. by eapply inv_effect.
  - eexists. split; [done|]. destruct (calls s !! i) as [p|] eqn:E.
    + rewrite (alter_insert_eq _ _ _ p) by done.
      apply (inv_effect s i p); [done..|]. apply expire_effect; [by eapply inv_sound|by apply inv_done].
    + rewrite alter_absent by done. by destruct s.
  - eexists. split; [done|]. destruct (calls s !! i) as [p|] eqn:E.
    + rewrite (alter_insert_eq _ _ _ p) by done.
      apply (inv_effect s i p); [done..|]. apply cancel_effect; [by eapply inv_sound|by apply inv_done].
    + rewrite alter_absent by done. by destruct s.
Qed.

Lemma run_keeps_inv es s : inv s -> exists s', run s es = Ok s' /\ inv s'.
Proof.
  revert s. induction es as [|e es IH]; intros s Hs; simpl; [eauto|].
  destruct (exec_inv s e Hs) as (s1 & -> & H1). apply IH, H1.
Qed.

Lemma run_app es es' s : run s (es ++ es') = s1 ← run s es; run s1 es'.
Proof.
  revert s. induction es as [|e es IH]; intros s; simpl; [done|].
  destruct (exec s e) as [s1| |]; simpl; auto.
Qed.

(** ** Counting down the steps of one call *)

(** How often call [i] is scheduled. *)
Definition steps (i : nat) (es : list event) : nat := length (filter (eq (Step i)) es).

Section Countdown.
Context (i : nat) (Q : nat -> Flag -> pc -> Prop) (cancelled : bool).
Hypothesis Q_step : forall n s p f' p', inv s -> calls s !! i = Some p ->
  Q n (flag s) p -> go (flag s) p = Ok (f', p') -> Q (n - 1)%nat f' p'.
Hypothesis Q_other : forall n s j p q f' q', inv s -> calls s !! i = Some p -> calls s !! j = Some q ->
  i <> j -> effect (flag s) f' q q' -> Q n (flag s) p -> Q n f' p.
Hypothesis Q_expire : forall n f p, Q n f p -> Q n f (expire p).
Hypothesis Q_cancel : cancelled = true -> forall n f p, Q n f p -> Q n f (cancel p).

Lemma exec_countdown e s s' n p :
  inv s -> calls s !! i = Some p -> Q n (flag s) p -> (cancelled = false -> e <> Cancel i) ->
  exec s e = Ok s' ->
  exists p', calls s' !! i = Some p' /\ Q (if decide (e = Step i) then n - 1 else n)%nat (flag s') p'.
Proof using Q_step Q_other Q_expire Q_cancel.
  intros Hs Hp HQ Hc. destruct e as [j c|j|j|j]; cbn [exec].
  - rewrite decide_False by done. destruct (calls s !! j) eqn:E; intros [= <-]; [eauto|].
    exists p. simpl. split; [|done]. rewrite lookup_insert_ne; congruence.
  - destruct (calls s !! j) as [q|] eqn:E; [|intros [= <-]; rewrite decide_False; [eauto|congruence]].
    destruct (go_effect (flag s) q) as (f' & q' & Hg & He);
      [by eapply inv_sound|by apply inv_done|by apply inv_done_ready|].
    rewrite Hg. intros [= <-]. cbn [calls flag]. destruct (decide (i = j)) as [<-|Hij].
    + simplify_eq. rewrite decide_True, lookup_insert_eq by done. eauto.
    + rewrite decide_False, lookup_insert_ne by congruence. eauto.
  - rewrite decide_False by done. intros [= <-]. cbn [calls flag]. destruct (decide (i = j)) as [<-|Hij].
    + rewrite lookup_alter_eq, Hp. eauto.
    + rewrite lookup_alter_ne by done. eauto.
  - rewrite decide_False by done. intros [= <-]. cbn [calls flag]. destruct (decide (i = j)) as [<-|Hij].
    + rewrite lookup_alter_eq, Hp. destruct cancelled; [eauto|]. by destruct Hc.
    + rewrite lookup_alter_ne by done. eauto.
Qed.

Lemma run_countdown es s s' n p :
  inv s -> calls s !! i = Some p -> Q n (flag s) p -> (cancelled = false -> Cancel i ∉ es) ->
  run s es = Ok s' ->
  exists p', calls s' !! i = Some p' /\ Q (n - steps i es) (flag s') p'.
Proof using Q_step Q_other Q_expire Q_cancel.
  revert s n p. induction es as [|e es IH]; intros s n p Hs Hp HQ Hc; simpl.
  - intros [= <-]. exists p. unfold steps. simpl. by rewrite Nat.sub_0_r.
  - destruct (exec_inv s e Hs) as (s1 & He & H1). rewrite He. simpl. intros Hr.
    destruct (exec_countdown e s s1 n p) as (p1 & Hp1 & HQ1); [done..|set_solver|done|].
    destruct (IH s1 _ p1 H1 Hp1 HQ1) as (p' & Hp' & HQ'); [set_solver|done|].
    exists p'. split; [done|]. unfold steps in *. rewrite filter_cons.
    destruct (decide (e = Step i)) as [->|Hne].
    + rewrite decide_True by done. simpl. by rewrite Nat.sub_succ_r, <- Nat.sub_1_r, <- Nat.sub_add_distr, Nat.add_comm, Nat.sub_add_distr.
    + by rewrite decide_False by congruence.
Qed.

End Countdown.

(** ** Liveness *)

Lemma effect_monotone f f' p p' : effect f f' p p' ->
  (ready f = true -> ready f' = true) /\ (done f = true -> done f' = true).
Proof. intros He. split; [apply (effect_keeps_ready _ _ _ _ He)|apply (effect_keeps_done _ _ _ _ He)]. Qed.

(** The steps left until a call that has made the flag ready has closed the
    channel. *)
Definition signal_in (n : nat) (f : Flag) (p : pc) : Prop :=
  match p with
  | IsSignal _ | MarkSignal => (1 <= n)%nat
  | MarkUnlock true => (2 <= n)%nat
  | MarkClear => (3 <= n)%nat
  | Done _ => done f = true
  | _ => False
  end.

Lemma signalReady_done f g : signalReady f = Ok g -> done f = closeOnce f -> done g = true /\ ready g = ready f.
Proof. unfold signalReady. destruct (closeOnce f); [intros [= <-]; auto|]. by destruct (done f); intros [= <-]. Qed.

Lemma signal_in_step n f p f' p' : done f = closeOnce f ->
  signal_in n f p -> go f p = Ok (f', p') -> signal_in (n - 1) f' p'.
Proof.
  intros Ho. destruct p as [| | | | |w| | | | | | | | | | | |[]| | | |]; simpl; try done.
  - destruct (signalReady f) as [g| |] eqn:E; simpl; try done. intros _ [= <- <-].
    apply signalReady_done in E as [E _]; [|done]. unfold IsReady_return. by destruct w.
  - intros ? [= <- <-]. simpl. lia.
  - intros ? [= <- <-]. simpl. lia.
  - destruct (signalReady f) as [g| |] eqn:E; simpl; try done. intros _ [= <- <-].
    by apply signalReady_done in E as [E _].
  - by intros ? [= <- <-].
Qed.

Lemma signal_done i es s s' p :
  inv s -> calls s !! i = Some p -> signalling p = true -> (3 <= steps i es)%nat ->
  run s es = Ok s' -> done (flag s') = true.
Proof.
  intros Hs Hp Hsg Hn Hr.
  destruct (run_countdown i signal_in true) with (es := es) (s := s) (s' := s') (n := 3%nat) (p := p)
    as (p' & _ & HQ); try done.
  - intros n s1 q f' q' H1 _. apply signal_in_step, (inv_done s1 H1).
  - intros n s1 j q r f' q' _ _ _ _ He HQ. apply effect_monotone in He as [_ Hd].
    destruct q as [| | | | | | | | | | | | | | | | |[]| | | |]; simpl in *; auto.
  - intros n f q. unfold expire. by destruct q as [| | | | | | | | | | | | | | | | |[]| | |k|].
  - intros _ n f q. by destruct q as [| | | | | | | | | | | | | | | | |[]| | |k|].
  - destruct p as [| | | | | | | | | | | | | | | | |[]| | | |]; simpl in *; solve [done | lia].
  - replace (3 - steps i es)%nat with 0%nat in HQ by lia.
    destruct p' as [| | | | | | | | | | | | | | | | |[]| | | |]; simpl in *; solve [done | lia].
Qed.

(** The calls of [WaitReady] that have not been cancelled. *)
Definition waiting (p : pc) : bool :=
  match p with
  | IsLoad true | IsTry true | IsLen true | IsUnlock true _ | IsSwap true | IsSignal true
  | IsReload true | WaitSelect | Done (Waited None) => true
  | _ => false
  end.

Definition wait_left (p : pc) : nat :=
  match p with IsTry _ => 4 | IsLen _ => 3 | IsUnlock _ _ => 2 | Done _ => 0 | _ => 1 end.

Definition stays_waiting (n : nat) (f : Flag) (p : pc) : Prop := ready f = true /\ waiting p = true.

Definition wait_in (n : nat) (f : Flag) (p : pc) : Prop :=
  ready f = true /\ done f = true /\ waiting p = true /\ (wait_left p <= n)%nat.

Lemma waiting_step f p f' p' : ready f = true -> waiting p = true -> go f p = Ok (f', p') ->
  waiting p' = true /\ (done f = true -> (wait_left p' <= wait_left p - 1)%nat).
Proof.
  intros R W. destruct p as [[]|[]|[]|[] e|[]|[]|[]| | | | | | | | | | | | | | |[ |[]| |[]]]; simpl in *; try done;
    unfold tryLock; rewrite ?R.
  all: repeat match goal with |- context [if ?b then _ else _] => destruct b eqn:? end.
  all: try (destruct (signalReady f) as [g| |]; simpl; [|done..]).
  all: intros [= <- <-]; simpl; split; [done|intros D; simplify_eq/=; lia].
Qed.

Lemma waiting_expire p : expire p = p \/ waiting p = false.
Proof. unfold expire. destruct p; auto. Qed.

Lemma wait_returns w es1 es2 s s' p :
  inv s -> ready (flag s) = true -> calls s !! w = Some p -> waiting p = true ->
  (forall i, i ∈ dom (calls s) -> (3 <= steps i es1)%nat) -> (4 <= steps w es2)%nat ->
  Cancel w ∉ es1 ++ es2 -> run s (es1 ++ es2) = Ok s' -> calls s' !! w = Some (Done (Waited None)).
Proof.
  intros Hs R Hp W H1 H2 Hc. rewrite run_app.
  destruct (run_keeps_inv es1 s Hs) as (s1 & Hr1 & Hs1). rewrite Hr1. simpl. intros Hr2.
  assert (Hd : done (flag s1) = true).
  { destruct (inv_signalled s Hs R) as [D|(i & q & Hq & Sq)].
    - destruct (run_countdown w (fun _ f _ => done f = true) true) with (es := es1) (s := s) (s' := s1) (n := 0%nat) (p := p)
        as (p' & _ & HQ); try done.
      + intros n t q f' q' Ht Hq D' Hg. destruct (go_effect (flag t) q) as (f1 & q1 & Hg1 & He);
          [by eapply inv_sound|by apply inv_done|by apply inv_done_ready|].
        rewrite Hg in Hg1. simplify_eq. by apply (effect_keeps_done _ _ _ _ He).
      + intros n t j q r f' q' _ _ _ _ He. apply (effect_keeps_done _ _ _ _ He).
    - apply (signal_done i es1 s s1 q); [done..| |done]. apply H1, elem_of_dom. eauto. }
  destruct (run_countdown w stays_waiting false) with (es := es1) (s := s) (s' := s1) (n := 0%nat) (p := p)
    as (p1 & Hp1 & R1 & W1); try done.
  { intros n t q f' q' Ht Hq [R' W'] Hg. destruct (waiting_step _ _ _ _ R' W' Hg) as [W2 _].
    destruct (go_effect (flag t) q) as (f1 & q1 & Hg1 & He);
      [by eapply inv_sound|by apply inv_done|by apply inv_done_ready|].
    rewrite Hg in Hg1. simplify_eq. split; [by apply (effect_keeps_ready _ _ _ _ He)|done]. }
  { intros n t j q r f' q' _ _ _ _ He [R' W']. split; [by apply (effect_keeps_ready _ _ _ _ He)|done]. }
  { intros n f q [R' W']. destruct (waiting_expire q) as [->|E]; [done|congruence]. }
  { intros _. set_solver. }
  destruct (run_countdown w wait_in false) with (es := es2) (s := s1) (s' := s') (n := 4%nat) (p := p1)
    as (p2 & Hp2 & R2 & D2 & W2 & L2); try done.
  { intros n t q f' q' Ht Hq (R' & D' & W' & L') Hg. destruct (waiting_step _ _ _ _ R' W' Hg) as [W2 L2].
    destruct (go_effect (flag t) q) as (f1 & q1 & Hg1 & He);
      [by eapply inv_sound|by apply inv_done|by apply inv_done_ready|].
    rewrite Hg in Hg1. simplify_eq. apply effect_monotone in He as [Hr Hd']. specialize (L2 D').
    split_and!; auto; lia. }
  { intros n t j q r f' q' _ _ _ _ He (R' & D' & W' & L'). apply effect_monotone in He as [? ?]. split_and!; auto. }
  { intros n f q Hq. destruct Hq as (R' & D' & W' & L'). destruct (waiting_expire q) as [->|E]; [done|congruence]. }
  { split_and!; [done..|]. destruct p1; simpl; lia. }
  { intros _. set_solver. }
  replace (4 - steps w es2)%nat with 0%nat in L2 by lia. rewrite Hp2.
  destruct p2 as [[]|[]|[]|[] e|[]|[]|[]| | | | | | | | | | | | | | |[ |[]| |[]]]; simpl in *; solve [done | lia].
Qed.

(** ** The lock is released *)

Lemma wrap32_mod z : wrap32 z mod 2 ^ 32 = z mod 2 ^ 32.
Proof.
  unfold wrap32. rewrite Zminus_mod_idemp_l.
  f_equal. lia.
Qed.

Lemma wrap32_congr z z' : z mod 2 ^ 32 = z' mod 2 ^ 32 -> wrap32 z = wrap32 z'.
Proof. intros H. unfold wrap32. by rewrite <- Zplus_mod_idemp_l, H, Zplus_mod_idemp_l. Qed.

Lemma wrap32_add z k : wrap32 (wrap32 z + k) = wrap32 (z + k).
Proof. apply wrap32_congr. by rewrite <- Zplus_mod_idemp_l, wrap32_mod, Zplus_mod_idemp_l. Qed.

(** The [k]-th next token is not reserved and not given out. *)
Definition fresh (f : Flag) (k : nat) : Prop :=
  wrap32 (nextID f + Z.of_nat k) <> 0 /\ MkToken (wrap32 (nextID f + Z.of_nat k)) ∉ tokens f.

Lemma fresh_exists f : Z.of_nat (size (tokens f)) + 2 <= 2 ^ 32 ->
  exists k, (k <= size (tokens f) + 1)%nat /\ fresh f k.
Proof.
  intros Hsz. set (n := (size (tokens f) + 2)%nat).
  set (cand := (fun k : nat => MkToken (wrap32 (nextID f + Z.of_nat k))) <$> seq 0 n).
  assert (Hnd : NoDup cand).
  { apply NoDup_fmap_2_strong; [|apply NoDup_seq].
    intros j k [_ Hj]%elem_of_seq [_ Hk]%elem_of_seq [= E].
    assert (E' : (nextID f + Z.of_nat j) mod 2 ^ 32 = (nextID f + Z.of_nat k) mod 2 ^ 32).
    { by rewrite <- wrap32_mod, E, wrap32_mod. }
    apply (f_equal (fun z => (z - nextID f) mod 2 ^ 32)) in E'.
    rewrite !Zminus_mod_idemp_l, !Z.add_simpl_l, !Z.mod_small in E' by lia. lia. }
  destruct (decide (Exists (fun t => t ∉ {[MkToken 0]} ∪ tokens f) cand)) as [He|Hn].
  - apply Exists_exists in He as (t & Ht & Hf).
    apply list_elem_of_fmap in Ht as (k & -> & [_ Hk]%elem_of_seq).
    exists k. split; [lia|]. split; [|set_solver]. intros E. rewrite E in Hf. set_solver.
  - exfalso. assert (Hsub : (list_to_set cand : gset Token) ⊆ {[MkToken 0]} ∪ tokens f).
    { intros t Ht%elem_of_list_to_set. destruct (decide (t ∈ {[MkToken 0]} ∪ tokens f)); [done|].
      destruct Hn. apply Exists_exists. eauto. }
    apply subseteq_size in Hsub. rewrite size_list_to_set in Hsub by done.
    unfold cand in Hsub. rewrite length_fmap, length_seq in Hsub.
    pose proof (size_union_alt {[MkToken 0]} (tokens f)) as Hu.
    assert (size (tokens f ∖ {[MkToken 0]}) <= size (tokens f))%nat by (apply subseteq_size; set_solver).
    rewrite size_singleton in Hu. lia.
Qed.

(** After the critical section a call does not enter it again. *)
Definition left_critical (p : pc) : bool :=
  match p with
  | IsSwap _ | IsReload _ | IsSignal _ | WaitSelect | MarkSignal | Done _ => true | _ => false end.

(** At most [n] steps until the lock is released. *)
Definition release_in (n : nat) (f : Flag) (p : pc) : Prop :=
  match p with
  | IsLen _ | MarkClear => (2 <= n)%nat
  | IsUnlock _ _ | MarkUnlock _ | SubUnlock _ => (1 <= n)%nat
  | MarkCheck _ => (4 <= n)%nat
  | MarkStore _ => (3 <= n)%nat
  | SubRecheck => exists k, fresh f k /\ (2 * k + 4 <= n)%nat
  | SubNext => exists k, fresh f k /\ (2 * k + 3 <= n)%nat
  | SubCheck t => (id t <> 0 /\ t ∉ tokens f /\ (2 <= n)%nat) \/ exists k, fresh f k /\ (2 * k + 4 <= n)%nat
  | _ => left_critical p = true
  end.

Lemma release_in_step n f p f' p' : release_in n f p -> go f p = Ok (f', p') -> release_in (n - 1) f' p'.
Proof.
  destruct p as [| | | w e|w|w|w| | | | |t|r| |t|t| |m| |k|k|o]; cbn [release_in left_critical go IsReady_step Subscribe_step MarkReady_step];
    try done; unfold IsReady_return.
  - intros ? [= <- <-]. simpl. lia.
  - intros ? [= <- <-]. by destruct e.
  - intros ? [= <- <-]. destruct (ready f), w; done.
  - intros ?. destruct (signalReady f) as [g| |]; simpl; [|done..]. intros [= <- <-]. by destruct w.
  - intros ? [= <- <-]. destruct (ready f), w; done.
  - intros ? [= <- <-]. by destruct (done f).
  - intros (k & Hk & Hn) [= <- <-]. destruct (ready f); simpl; [lia|]. exists k. split; [done|lia].
  - intros (k & [Hk1 Hk2] & Hn) [= <- <-]. cbn [release_in].
    assert (Ht : wrap32 (wrap32 (nextID f + 1) - 1) = wrap32 (nextID f)).
    { change (wrap32 (nextID f + 1) - 1) with (wrap32 (nextID f + 1) + -1). rewrite wrap32_add. f_equal. lia. }
    destruct k as [|k].
    + left. rewrite Z.add_0_r in *. cbn [id tokens set_nextID]. rewrite Ht. split_and!; [done..|lia].
    + right. exists k. split; [|lia]. unfold fresh. cbn [nextID tokens set_nextID].
      replace (wrap32 (wrap32 (nextID f + 1) + Z.of_nat k)) with (wrap32 (nextID f + Z.of_nat (S k))); [done|].
      rewrite wrap32_add. f_equal. lia.
  - intros Hn. destruct (id t =? 0) eqn:E; [|destruct (decide (t ∈ tokens f))]; intros [= <- <-]; simpl.
    + breflect. destruct Hn as [(? & _)|(k & Hk & Hn)]; [done|]. exists k. split; [done|lia].
    + destruct Hn as [(_ & ? & _)|(k & Hk & Hn)]; [done|]. exists k. split; [done|lia].
    + destruct Hn as [(_ & _ & ?)|(k & Hk & Hn)]; lia.
  - by intros ? [= <- <-].
  - intros ? [= <- <-]. destruct (decide _); simpl; lia.
  - intros ? [= <- <-]. simpl. lia.
  - intros ? [= <- <-]. simpl. lia.
  - intros ? [= <- <-]. by destruct m.
  - intros ?. destruct (signalReady f) as [g| |]; simpl; [|done..]. by intros [= <- <-].
  - by intros ? [= <- <-].
Qed.

Lemma release_in_same n f f' p : tokens f' = tokens f -> nextID f' = nextID f ->
  release_in n f p -> release_in n f' p.
Proof. intros Ht Hn. unfold release_in, fresh. by rewrite Ht, Hn. Qed.

Lemma lock_released i es s s' p :
  inv s -> calls s !! i = Some p -> critical p = true ->
  Z.of_nat (size (tokens (flag s))) + 2 <= 2 ^ 32 ->
  (2 * size (tokens (flag s)) + 6 <= steps i es)%nat ->
  run s es = Ok s' -> exists p', calls s' !! i = Some p' /\ left_critical p' = true.
Proof.
  intros Hs Hp Cp Hsz Hn Hr. destruct (fresh_exists _ Hsz) as (k & Hk & Hf).
  destruct (run_countdown i (fun n f p => (critical p = true \/ left_critical p = true) /\ release_in n f p) true)
    with (es := es) (s := s) (s' := s') (n := (2 * size (tokens (flag s)) + 6)%nat) (p := p)
    as (p' & Hp' & _ & HQ); try done.
  - intros n t q f' q' Ht Hq [C HQ] Hg. pose proof (release_in_step _ _ _ _ _ HQ Hg) as HQ'. split; [|done].
    destruct q'; simpl in *; auto; try (destruct HQ'; done).
  - intros n t j q r f' q' Ht Hq Hr' Hij He [[C|L] HQ]; (split; [auto|]).
    + assert (Cr : critical r = false).
      { destruct (critical r) eqn:E; [|done]. destruct Hij. by apply (inv_exclusive t Ht i j q r). }
      apply (release_in_same n (flag t)); [| |done].
      * destruct (effect_tokens _ _ _ _ He) as [E _ _| -> _ _ _|u -> _ _ _ _ _]; done.
      * destruct (effect_nextID _ _ _ _ He); [done|congruence].
    + by destruct q.
  - intros n f q [C HQ]. assert (expire q = q) as -> by (destruct q; simpl in *; naive_solver). done.
  - intros _ n f q [C HQ]. destruct q; simpl in *; solve [auto | done].
  - split; [auto|]. destruct p; simpl in *; try done; try lia.
    + exists k. split; [done|lia].
    + exists k. split; [done|lia].
    + right. exists k. split; [done|lia].
  - exists p'. split; [done|]. replace (_ - _)%nat with 0%nat in HQ by lia.
    destruct p'; simpl in *; try done; try lia; destruct_and?; naive_solver lia.
Qed.

(** ** Calls that run alone *)

(** [n] steps of one call with no other call in between. *)
Fixpoint alone (n : nat) (f : Flag) (p : pc) : result unit (Flag * pc) :=
  match n with
  | O => Ok (f, p)
  | S n => '(f, p) ← go f p; alone n f p
  end.

(** No call is under way. *)
Definition quiescent (f : Flag) : Prop :=
  ch (lock f) = true /\ done f = ready f /\ closeOnce f = ready f.

Lemma alone_app n m f p : alone (n + m) f p = '(f, p) ← alone n f p; alone m f p.
Proof.
  revert f p. induction n as [|n IH]; intros f p; simpl; [done|].
  destruct (go f p) as [[f1 p1]| |]; simpl; [apply IH|done..].
Qed.

Lemma subscribe_loop f k : fresh f k ->
  exists n f' t, alone n f SubNext = Ok (f', SubUnlock (inl t)) /\ id t <> 0 /\ t ∉ tokens f /\
    tokens f' = {[t]} ∪ tokens f /\ ready f' = ready f /\ done f' = done f /\ closeOnce f' = closeOnce f.
Proof.
  revert f. induction k as [|k IH]; intros f Hk.
  all: assert (Ht : wrap32 (wrap32 (nextID f + 1) - 1) = wrap32 (nextID f))
    by (change (wrap32 (nextID f + 1) - 1) with (wrap32 (nextID f + 1) + -1); rewrite wrap32_add; f_equal; lia).
  all: set (g := set_nextID (wrap32 (nextID f + 1)) f).
  all: assert (Hnow : id (MkToken (wrap32 (nextID f))) <> 0 -> MkToken (wrap32 (nextID f)) ∉ tokens f ->
    alone 2 f SubNext = Ok (set_tokens ({[MkToken (wrap32 (nextID f))]} ∪ tokens f) g,
                            SubUnlock (inl (MkToken (wrap32 (nextID f)))))).
  1,3: intros Hz Hin; cbn [alone go Subscribe_step mbind result_bind]; rewrite Ht;
    apply Z.eqb_neq in Hz; rewrite Hz, decide_False by done; done.
  - unfold fresh in Hk. rewrite Z.add_0_r in Hk. destruct Hk as [Hz Hin].
    eexists 2%nat, _, _. rewrite Hnow by done. done.
  - destruct (decide (wrap32 (nextID f) <> 0 /\ MkToken (wrap32 (nextID f)) ∉ tokens f)) as [[Hz Hin]|Hno].
    { eexists 2%nat, _, _. rewrite Hnow by done. done. }
    destruct (IH g) as (n & f' & t & Ha & Hr).
    { unfold fresh, g. cbn [nextID tokens set_nextID]. rewrite wrap32_add.
      replace (nextID f + 1 + Z.of_nat k) with (nextID f + Z.of_nat (S k)) by lia. done. }
    exists (2 + n)%nat, f', t. rewrite alone_app.
    replace (alone 2 f SubNext) with (Ok (E:=unit) (g, SubNext)); [simpl; done|].
    cbn [alone go Subscribe_step mbind result_bind]. rewrite Ht.
    destruct (id _ =? 0) eqn:E; [done|]. breflect. destruct (decide (_ ∈ _)) as [|Hin]; [done|]. by destruct Hno.
Qed.

Theorem calls_alone f : quiescent f ->
  (exists n f', alone n f (start CallIsReady) =
     Ok (f', Done (Ready (ready f || bool_decide (tokens f = ∅)))) /\ quiescent f' /\
     ready f' = ready f || bool_decide (tokens f = ∅) /\ tokens f' = tokens f) /\
  (Z.of_nat (size (tokens f)) + 2 <= 2 ^ 32 ->
   exists n f' r, alone n f (start CallSubscribe) = Ok (f', Done (Subscribed r)) /\ quiescent f' /\
     ready f' = ready f /\
     if ready f then r = inr ErrFlagAlreadyReady /\ f' = f
     else exists t, r = inl t /\ id t <> 0 /\ t ∉ tokens f /\ tokens f' = {[t]} ∪ tokens f) /\
  (forall t, let ok := negb (ready f) && negb (id t =? 0) && bool_decide (t ∈ tokens f) in
   exists n f', alone n f (start (CallMarkReady t)) = Ok (f', Done (Marked (inl ok))) /\ quiescent f' /\
     if ok then ready f' = true /\ tokens f' = ∅ else f' = f) /\
  (exists n f', alone n f (start CallWaitReady) =
     Ok (f', if ready f || bool_decide (tokens f = ∅) then Done (Waited None) else WaitSelect)).
Proof.
  destruct f as [r z [c] ts d o]. intros (Hc & Hd & Ho). simpl in Hc, Hd, Ho. subst c d o. split_and!.
  - destruct r; [by eexists 1%nat, _|]. destruct (decide (ts = ∅)) as [->|Hne].
    + by eexists 6%nat, _.
    + eexists 5%nat, _. simpl. by rewrite bool_decide_eq_false_2.
  - intros Hsz. destruct r; [by eexists 1%nat, _, _|].
    set (f0 := {| ready := false; nextID := z; lock := {| ch := false |}; tokens := ts; done := false; closeOnce := false |}).
    destruct (fresh_exists f0) as (k & _ & Hk); [done|].
    destruct (subscribe_loop f0 k Hk) as (n & f' & t & Ha & Hz & Hin & Ht & Hr & Hd & Hoo).
    exists (3 + (n + 1))%nat. rewrite alone_app.
    replace (alone 3 _ _) with (Ok (E:=unit) (f0, SubNext)) by reflexivity.
    cbn [mbind result_bind]. rewrite alone_app, Ha. simpl.
    simpl in Hr, Hd, Hoo. eexists _, _. split; [done|].
    split; [split_and!; simpl; congruence|]. split; [done|]. by exists t.
  - intros t. destruct r; [by eexists 1%nat, _|]. simpl. destruct (id t =? 0) eqn:E.
    + eexists 1%nat, _. simpl. by rewrite E.
    + destruct (decide (t ∈ ts)) as [Hin|Hin].
      * eexists 7%nat, _. simpl. rewrite E, bool_decide_eq_true_2 by done. simpl. by rewrite decide_True.
      * eexists 4%nat, _. simpl. rewrite E, bool_decide_eq_false_2 by done. simpl. by rewrite decide_False.
  - destruct r; [by eexists 1%nat, _|]. destruct (decide (ts = ∅)) as [->|Hne].
    + by eexists 6%nat, _.
    + eexists 5%nat, _. simpl. by rewrite bool_decide_eq_false_2.
Qed.

(** ** The properties *)

Lemma run_ready es s s' : inv s -> run s es = Ok s' -> ready (flag s) = true -> ready (flag s') = true.
Proof.
  revert s. induction es as [|e es IH]; intros s Hs; simpl; [by intros [= <-]|].
  destruct (exec_inv s e Hs) as (s1 & He & H1). rewrite He. simpl. intros Hr R.
  apply (IH s1 H1 Hr). destruct e as [j c|j|j|j]; simpl in He.
  - destruct (calls s !! j); by simplify_eq.
  - destruct (calls s !! j) as [q|] eqn:E; [|by simplify_eq].
    destruct (go_effect (flag s) q) as (f' & q' & Hg & Hef);
      [by eapply inv_sound|by apply inv_done|by apply inv_done_ready|].
    rewrite Hg in He. simplify_eq/=. by apply (effect_keeps_ready _ _ _ _ Hef).
  - by simplify_eq.
  - by simplify_eq.
Qed.

(** The call has seen, under the lock, that there are no tokens. *)
Definition saw_empty (p : pc) : bool := match p with IsUnlock _ true | IsSwap _ => true | _ => false end.

Lemma go_saw_empty f p f' p' : go f p = Ok (f', p') -> saw_empty p' = true ->
  saw_empty p = true \/ tokens f = ∅ /\ exists w, p = IsLen w.
Proof.
  intros Hg Hp. destruct p as [w|w|w|w e|w|w|w| | | | |t|r|t|t|t| |m| |k|k|o]; simpl in Hg;
    unfold lock_step, IsReady_return, tryLock, signalReady in Hg.
  3: { injection Hg as <- <-. cbn in Hp. case_bool_decide; [|done]. right. eauto. }
  all: repeat case_match; simplify_eq/=; try done; try (by left); by destruct k.
Qed.

Lemma exec_saw_empty s e s' i p' : exec s e = Ok s' -> calls s' !! i = Some p' -> saw_empty p' = true ->
  (exists p, calls s !! i = Some p /\ saw_empty p = true)
  \/ e = Step i /\ tokens (flag s) = ∅ /\ exists w, calls s !! i = Some (IsLen w).
Proof.
  intros He Hi Hp.
  assert (forall (g : pc -> pc) j, (forall p, saw_empty (g p) = true -> saw_empty p = true) ->
    alter g j (calls s) !! i = Some p' -> exists p, calls s !! i = Some p /\ saw_empty p = true) as Halter.
  { intros g j Hg H. destruct (decide (j = i)) as [->|Hne]; [|rewrite lookup_alter_ne in H by done; eauto].
    rewrite lookup_alter_eq in H. destruct (calls s !! i) as [p|]; [|done]. injection H as <-. eauto. }
  destruct e as [j c|j|j|j]; simpl in He.
  - destruct (calls s !! j) eqn:Ej; simplify_eq/=; [eauto|]. destruct (decide (j = i)) as [->|Hne].
    + rewrite lookup_insert_eq in Hi. injection Hi as <-. by destruct c.
    + rewrite lookup_insert_ne in Hi by done. eauto.
  - destruct (calls s !! j) as [p|] eqn:Ej; [|simplify_eq; eauto].
    destruct (go (flag s) p) as [[f q]| |] eqn:Eg; simplify_eq/=. destruct (decide (j = i)) as [->|Hne].
    + rewrite lookup_insert_eq in Hi. injection Hi as <-.
      destruct (go_saw_empty _ _ _ _ Eg Hp) as [H|[H1 [w ->]]]; [eauto|right; eauto].
    + rewrite lookup_insert_ne in Hi by done. eauto.
  - simplify_eq/=. left. eapply Halter; [|exact Hi]. intros p. destruct p; try done. by destruct k.
  - simplify_eq/=. left. eapply Halter; [|exact Hi]. intros p. destruct p; try done; try by destruct k.
Qed.

(** ... at an earlier moment of the run. *)
Lemma run_saw_empty es s i p : run initial es = Ok s -> calls s !! i = Some p -> saw_empty p = true ->
  exists es1 es2 s1 w, es = es1 ++ Step i :: es2 /\ run initial es1 = Ok s1 /\ run s1 (Step i :: es2) = Ok s
    /\ calls s1 !! i = Some (IsLen w) /\ tokens (flag s1) = ∅.
Proof.
  revert s i p. induction es as [|e es IH] using rev_ind; intros s i p Hr Hi Hp; [simpl in Hr; by simplify_eq/=|].
  rewrite run_app in Hr. destruct (run initial es) as [s0| |] eqn:E0; try done. simpl in Hr.
  destruct (exec s0 e) as [s'| |] eqn:Ee; try done. injection Hr as <-.
  destruct (exec_saw_empty _ _ _ _ _ Ee Hi Hp) as [(q & Hq & Hq')|(-> & Ht & w & Hw)].
  - destruct (IH _ _ _ eq_refl Hq Hq') as (es1 & es2 & s1 & w & -> & H1 & H2 & H3 & H4).
    exists es1, (es2 ++ [e]), s1, w. split_and!; [by rewrite <- app_assoc|done| |done..].
    change (Step i :: es2 ++ [e]) with ((Step i :: es2) ++ [e]). rewrite run_app, H2. cbn [mbind result_bind run]. by rewrite Ee.
  - exists es, [], s0, w. split_and!; [done..| |done|done]. cbn [run]. by rewrite Ee.
Qed.

(** What makes the flag ready: an accepted token, or an earlier look at a token
    set that was empty when nobody had been given a token. *)
Lemma exec_becomes_ready es s e s' : run initial es = Ok s -> exec s e = Ok s' -> ready (flag s) = false -> ready (flag s') = true ->
  exists i, e = Step i /\
    ((exists t j q, calls s !! i = Some (MarkStore t) /\ calls s !! j = Some q /\ handed q = Some t)
     \/ exists es1 es2 s1 w, es = es1 ++ Step i :: es2 /\ run initial es1 = Ok s1 /\ calls s1 !! i = Some (IsLen w)
          /\ tokens (flag s1) = ∅ /\ forall j q, calls s1 !! j = Some q -> handed q = None).
Proof.
  intros Hr He Hn Hy. destruct (run_keeps_inv es initial inv_initial) as (s0 & Hr' & Hs). rewrite Hr in Hr'. injection Hr' as <-.
  destruct e as [i c|i|i|i]; simpl in He; try (destruct (calls s !! i) as [p|] eqn:Ei); simplify_eq/=; try congruence.
  destruct (go (flag s) p) as [[f q]| |] eqn:Eg; simplify_eq/=. exists i. split; [done|].
  assert ((exists t, p = MarkStore t) \/ exists w, p = IsSwap w) as [[t ->]|[w ->]].
  { destruct p; simpl in Eg; unfold lock_step, IsReady_return, tryLock, signalReady in Eg; eauto;
      repeat case_match; simplify_eq/=; congruence. }
  - left. destruct (inv_tokens s Hs t) as (j & q' & Hj & Hq); [apply (sound_store _ _ (inv_sound s Hs i _ Ei)); done|]. eauto 6.
  - right. destruct (run_saw_empty _ _ _ _ Hr Ei eq_refl) as (es1 & es2 & s1 & w' & -> & H1 & H2 & H3 & H4).
    exists es1, es2, s1, w'. split_and!; [done..|]. intros j q' Hj.
    destruct (run_keeps_inv es1 initial inv_initial) as (s1' & Hr1 & Hs1). rewrite H1 in Hr1. injection Hr1 as <-.
    destruct (handed q') as [t|] eqn:Hq; [|done]. exfalso.
    destruct (inv_handed s1 Hs1 j q' t Hj Hq) as [_ [Ht|(k & r & Hk & Hc)]]; [rewrite H4 in Ht; set_solver|].
    assert (ready (flag s1) = true) as R.
    { apply (sound_ready _ _ (inv_sound s1 Hs1 k r Hk)). right. left. by destruct r as [| | | | | | | | | | | | | | | | |[]| | | |[| |[[]|]|]]. }
    pose proof (run_ready _ _ _ Hs1 H2 R). congruence.
Qed.

(** C27: For every interleaving of calls, steps, timeouts and cancellations, no
    step panics (the channel is closed at most once); at most one call is in
    the critical section; the channel is closed and a call reports readiness
    only when the flag is ready; the flag never becomes unready again; at most
    one [MarkReady] succeeds. The flag becomes ready only by a step of a
    [MarkReady] with a token that some [Subscribe] has given out, or of an
    [IsReady] that earlier, holding the lock, found no token when none had been
    given out. And given out tokens are pairwise distinct and not the reserved
    zero, wrap-around of the counter included. *)
Theorem readiness_safe es : exists s, run initial es = Ok s /\
  (forall i j p q, calls s !! i = Some p -> calls s !! j = Some q ->
     critical p = true -> critical q = true -> i = j) /\
  (done (flag s) = true -> ready (flag s) = true) /\
  (forall i p, calls s !! i = Some p -> returned_ready p = true -> ready (flag s) = true) /\
  (forall es' s', run s es' = Ok s' -> ready (flag s) = true -> ready (flag s') = true) /\
  (forall i j, calls s !! i = Some (Done (Marked (inl true))) ->
     calls s !! j = Some (Done (Marked (inl true))) -> i = j) /\
  (forall e s', exec s e = Ok s' -> ready (flag s) = false -> ready (flag s') = true ->
     exists i, e = Step i /\
       ((exists t j q, calls s !! i = Some (MarkStore t) /\ calls s !! j = Some q /\ handed q = Some t)
        \/ exists es1 es2 s1 w, es = es1 ++ Step i :: es2 /\ run initial es1 = Ok s1 /\ calls s1 !! i = Some (IsLen w)
             /\ tokens (flag s1) = ∅ /\ forall j q, calls s1 !! j = Some q -> handed q = None)) /\
  (forall i j p q t, calls s !! i = Some p -> calls s !! j = Some q ->
     handed p = Some t -> handed q = Some t -> i = j /\ id t <> 0).
Proof.
  destruct (run_keeps_inv es initial inv_initial) as (s & Hr & Hs). exists s. split; [done|].
  split_and!.
  - apply (inv_exclusive s Hs).
  - apply (inv_done_ready s Hs).
  - intros i p Hp Hrr. apply (sound_ready _ _ (inv_sound s Hs i p Hp)). auto.
  - intros es' s' Hr' R. by apply (run_ready es' s s' Hs).
  - intros i j Hi Hj. by apply (inv_marking s Hs i j _ _ Hi Hj).
  - intros e s'. by apply exec_becomes_ready.
  - intros i j p q t Hp Hq Hh Hh'. split; [by apply (inv_distinct s Hs i j p q t)|].
    by apply (inv_handed s Hs i p t).
Qed.

(** C36: Once the flag is ready, every waiter wakes: if each call that is under
    way is scheduled three times, and the waiter then four times, in any
    interleaving with each other, with new calls, timers and cancellations of
    other calls, the waiter's [WaitReady] has returned without an error. *)
Theorem WaitReady_wakes es s w p es1 es2 s' :
  run initial es = Ok s -> ready (flag s) = true ->
  calls s !! w = Some p -> waiting p = true ->
  (forall i, i ∈ dom (calls s) -> (3 <= steps i es1)%nat) -> (4 <= steps w es2)%nat ->
  Cancel w ∉ es1 ++ es2 -> run s (es1 ++ es2) = Ok s' ->
  calls s' !! w = Some (Done (Waited None)).
Proof.
  intros Hr. destruct (run_keeps_inv es initial inv_initial) as (s0 & Hr0 & Hs).
  assert (s0 = s) as -> by congruence. by apply wait_returns.
Qed.

(** A subscriber, a waiter in its select, and a [MarkReady] that has just
    stored the flag. *)
Definition wake_history : list event :=
  [Call 0 CallSubscribe; Step 0; Step 0; Step 0; Step 0; Step 0; Step 0;
   Call 1 CallWaitReady; Step 1; Step 1; Step 1; Step 1; Step 1;
   Call 2 (CallMarkReady (MkToken 1)); Step 2; Step 2; Step 2; Step 2].
Definition wake_system : system :=
  match run initial wake_history with Ok s => s | _ => initial end.
Definition wake_first : list event :=
  [Step 1; Step 0; Step 2; Step 0; Step 2; Step 1; Step 0; Step 1; Step 2].
Definition wake_second : list event := [Step 1; Step 1; Step 1; Step 1].
Definition wake_final : system :=
  match run wake_system (wake_first ++ wake_second) with Ok s => s | _ => initial end.

Lemma WaitReady_wakes_witness :
  (calls wake_system !! 1%nat = Some WaitSelect /\ calls wake_system !! 2%nat = Some MarkClear) /\
  calls wake_final !! 1%nat = Some (Done (Waited None)).
Proof.
  split; [by vm_compute|].
  refine (WaitReady_wakes wake_history wake_system 1 WaitSelect wake_first wake_second wake_final
    _ _ _ _ _ _ _ _).
  - by vm_compute.
  - by vm_compute.
  - by vm_compute.
  - done.
  - assert (Hall : set_Forall (fun i => (3 <= steps i wake_first)%nat) (dom (calls wake_system)))
      by (apply (bool_decide_unpack _); by vm_compute).
    exact Hall.
  - apply Nat.leb_le. by vm_compute.
  - by apply (bool_decide_unpack _).
  - by vm_compute.
Defined.

(** The swap of [IsReady] comes after it has released the lock: a [Subscribe]
    in between returns a token although the flag turns ready without it, and
    [MarkReady] then refuses that token. *)
Example subscribe_race :
  match run initial
    [Call 0 CallIsReady; Step 0; Step 0; Step 0; Step 0;
     Call 1 CallSubscribe; Step 1; Step 1; Step 1; Step 1; Step 1; Step 1;
     Step 0; Step 0;
     Call 2 (CallMarkReady (MkToken 1)); Step 2] with
  | Ok s => calls s !! 1%nat = Some (Done (Subscribed (inl (MkToken 1)))) /\
            calls s !! 0%nat = Some (Done (Ready true)) /\
            calls s !! 2%nat = Some (Done (Marked (inl false)))
  | _ => False
  end.
Proof. vm_compute. auto. Qed.

End Readiness.
