(* ===== verification/AgentPath.v ===== *)
(** * internal/protocol/ids.go and internal/multiagent/agentpath.go: agent paths

    An agent path names an agent in the tree of a session: [/root], or a path
    below it, or [/morpheus].  The validation, the join of a name, the
    resolution of a reference against a base and the prefix match.  Texts of
    errors are kept; the wrapping of [unsupportedOperationf] is a constructor. *)

From stdpp Require Import base list strings.
From S2P Require Import Prelude GoStrings GoUtf8 GoText.

Module AgentPath.

(** ** ids.go *)

Definition ThreadID := gostring.

Definition AgentPathRoot : gostring := "/root".
Definition AgentPathMorpheus : gostring := "/morpheus".
Definition agentPathRootSeg : gostring := "root".

(** The Go value; [NewAgentPath] is the only exported way to a valid one. *)
Record AgentPath := MkPath { path : gostring }.

#[export] Instance AgentPath_eq_dec : EqDecision AgentPath.
Proof. solve_decision. Defined.

Definition AgentPathRootValue : AgentPath := MkPath AgentPathRoot.
Definition AgentPathMorpheusValue : AgentPath := MkPath AgentPathMorpheus.

Definition IsRoot (a : AgentPath) : bool := bool_decide (path a = AgentPathRoot).

(** The last segment, or [root]. *)
Definition Name (a : AgentPath) : gostring :=
  if IsRoot a then agentPathRootSeg
  else if decide ("/"%char ∈ path a)
       then let seg := after_last "/" (path a) in
            if decide (seg = []) then agentPathRootSeg else seg
       else agentPathRootSeg.

Definition name_rune (ch : rune) : bool :=
  (in_range 97 122 ch || in_range 48 57 ch || (ch =? 95)%Z).

Definition validateAgentName (agentName : gostring) : option gostring :=
  if decide (agentName = []) then Some (str "agent_name must not be empty")
  else if decide (agentName = agentPathRootSeg) then Some (str "agent_name `root` is reserved")
  else if decide (agentName = str "." \/ agentName = str "..")
       then Some ("agent_name `" ++ agentName ++ "` is reserved")
  else if contains agentName "/" then Some (str "agent_name must not contain `/`")
  else if forallb name_rune (runes agentName) then None
       else Some (str "agent_name must use only lowercase letters, digits, and underscores").

(** The first error of the names of a path. *)
Fixpoint validateAgentNames (segments : list gostring) : option gostring :=
  match segments with
  | [] => None
  | seg :: segments =>
      match validateAgentName seg with Some e => Some e | None => validateAgentNames segments end
  end.

Definition absolute_error : gostring := "absolute agent paths must start with `/root` or be `/morpheus`".

Definition validateAbsoluteAgentPath (path : gostring) : option gostring :=
  if decide (path = AgentPathMorpheus) then None
  else match cut_prefix path "/" with
       | None => Some absolute_error
       | Some stripped =>
           match split_byte "/" stripped with
           | seg :: segments =>
               if decide (seg <> agentPathRootSeg) then Some absolute_error
               else if has_suffix stripped "/" then Some (str "absolute agent path must not end with `/`")
               else validateAgentNames segments
           | [] => Some absolute_error
           end
       end.

Definition NewAgentPath (path : gostring) : result gostring AgentPath :=
  match validateAbsoluteAgentPath path with Some e => Err e | None => Ok (MkPath path) end.

Definition Join (a : AgentPath) (agentName : gostring) : result gostring AgentPath :=
  match validateAgentName agentName with
  | Some e => Err e
  | None => NewAgentPath (path a ++ "/" ++ agentName)
  end.

(** ** agentpath.go *)

Inductive AgentError := UnsupportedOperation (detail : gostring).

Definition unsupported {A} (r : result gostring A) : result AgentError A :=
  match r with Ok a => Ok a | Err e => Err (UnsupportedOperation e) | Panic => Panic end.

Definition validateRelativeReference (reference : gostring) : option AgentError :=
  if has_suffix reference "/"
  then Some (UnsupportedOperation "relative agent path must not end with `/`") else None.

(** The loop that joins the segments of a reference. *)
Fixpoint joinSegments (resolved : AgentPath) (segments : list gostring) : result AgentError AgentPath :=
  match segments with
  | [] => Ok resolved
  | segment :: segments => next ← unsupported (Join resolved segment); joinSegments next segments
  end.

Definition resolveAgentPath (base : AgentPath) (reference : gostring) : result AgentError AgentPath :=
  if decide (reference = []) then Err (UnsupportedOperation "agent path must not be empty")
  else if decide (reference = AgentPathRoot) then Ok AgentPathRootValue
  else if has_prefix reference "/" then unsupported (NewAgentPath reference)
  else match validateRelativeReference reference with
       | Some e => Err e
       | None => joinSegments base (split_byte "/" reference)
       end.

Definition agentMatchesPrefix (agentPath : option AgentPath) (prefix : AgentPath) : bool :=
  if IsRoot prefix then true
  else match agentPath with
       | None => false
       | Some p =>
           if decide (path p = path prefix) then true
           else match cut_prefix (path p) (path prefix) with
                | Some suffix => has_prefix suffix "/"
                | None => false
                end
       end.

(** ** Agent names, byte by byte *)

Definition name_byte (c : ascii) : bool := name_rune (bval c).

(** What [validateAgentName] accepts. *)
Definition valid_name (s : gostring) : Prop :=
  s <> [] /\ s <> agentPathRootSeg /\ Forall (fun c => name_byte c = true) s.

Lemma name_rune_range r : name_rune r = true -> (0 <= r < 128)%Z.
Proof. unfold name_rune, in_range. intros H. repeat (apply orb_true_iff in H as [H|H]); breflect; lia. Qed.

Lemma decode_rune_high c s : (128 <= bval c)%Z -> (128 <= (decode_rune (c :: s)).1)%Z.
Proof.
  intros Hc. destruct (decode_rune (c :: s)) as [r w] eqn:E. cbn [fst].
  destruct (decide (w = 1%nat)) as [->|Hw].
  - apply decode_rune_width_one in E as [?| ->]; [lia|]. unfold RuneError. lia.
  - destruct (Z.le_gt_cases 128 r) as [?|Hr]; [done|].
    destruct (encode_decode (c :: s) r w c s eq_refl E) as [Hsc Henc]; [by left|].
    destruct Hsc as [? _]. rewrite encode_ascii in Henc by lia.
    pose proof (decode_rune_width (c :: s) ltac:(done)) as Hle. rewrite E in Hle. cbn [snd] in Hle.
    apply (f_equal length) in Henc. rewrite length_take in Henc. simpl in *. lia.
Qed.

Lemma runes_name s : forallb name_rune (runes s) = true <-> Forall (fun c => name_byte c = true) s.
Proof.
  induction s as [|c s IH]; [done|]. destruct (Z.ltb_spec (bval c) 128) as [Hc|Hc].
  - rewrite runes_ascii by done. cbn [forallb]. by rewrite andb_true_iff, IH, Forall_cons.
  - rewrite runes_cons by done. cbn [forallb]. rewrite andb_true_iff, Forall_cons.
    pose proof (decode_rune_high c s Hc) as Hr. unfold name_byte.
    split; intros [H _]; apply name_rune_range in H; lia.
Qed.

Lemma name_no_slash s : Forall (fun c => name_byte c = true) s -> "/"%char ∉ s.
Proof. intros H Hin. rewrite Forall_forall in H. by specialize (H _ Hin). Qed.

Lemma contains_byte c s : contains s [c] = true <-> c ∈ s.
Proof.
  rewrite contains_spec. split.
  - intros (p & t & ->). set_solver.
  - intros (p & t & ->)%list_elem_of_split. by exists p, t.
Qed.

Lemma validateAgentName_None s : validateAgentName s = None <-> valid_name s.
Proof.
  unfold validateAgentName, valid_name.
  destruct (decide (s = [])) as [->|Hne]; [naive_solver|].
  destruct (decide (s = agentPathRootSeg)) as [->|Hroot]; [naive_solver|].
  destruct (decide _) as [Hdot|Hdot].
  { split; [done|]. intros (_ & _ & H). by destruct Hdot as [-> | ->]; inversion H. }
  destruct (contains s _) eqn:E.
  - split; [done|]. intros (_ & _ & H). apply contains_byte in E. by apply name_no_slash in H.
  - rewrite <- runes_name. destruct (forallb name_rune (runes s)); naive_solver.
Qed.

Lemma validateAgentNames_None l : validateAgentNames l = None <-> Forall valid_name l.
Proof.
  induction l as [|s l IH]; simpl; [done|]. rewrite Forall_cons, <- validateAgentName_None, <- IH.
  destruct (validateAgentName s); naive_solver.
Qed.

(** ** The paths that validate *)

(** The path with the given names below the root. *)
Definition render (names : list gostring) : gostring :=
  "/" ++ join "/" (agentPathRootSeg :: names).

Definition valid_path (p : gostring) : Prop :=
  p = AgentPathMorpheus \/ exists names, Forall valid_name names /\ p = render names.

Lemma valid_name_no_slash s : valid_name s -> "/"%char ∉ s.
Proof. intros (_ & _ & H). by apply name_no_slash. Qed.

Lemma root_no_slash : "/"%char ∉ agentPathRootSeg.
Proof. by apply (bool_decide_unpack _). Qed.

Lemma names_no_slash names : Forall valid_name names -> Forall (fun l => "/"%char ∉ l) names.
Proof. intros H. by eapply Forall_impl, valid_name_no_slash. Qed.

Lemma split_render names : Forall valid_name names ->
  split_byte "/" (join "/" (agentPathRootSeg :: names)) = agentPathRootSeg :: names.
Proof.
  intros Hn. apply split_byte_join; [|done].
  constructor; [apply root_no_slash|by apply names_no_slash].
Qed.

Lemma render_nil : render [] = AgentPathRoot.
Proof. done. Qed.

Lemma render_snoc names n : render (names ++ [n]) = render names ++ "/" ++ n.
Proof.
  unfold render. change (agentPathRootSeg :: (names ++ [n])) with ((agentPathRootSeg :: names) ++ [n]).
  rewrite join_snoc by done. by rewrite (assoc (++)).
Qed.

Lemma render_inj a b : Forall valid_name a -> Forall valid_name b -> render a = render b -> a = b.
Proof.
  intros Ha Hb H. unfold render in H. apply (app_inv_head (str "/")) in H.
  apply (f_equal (split_byte "/")) in H. rewrite !split_render in H by done. by simplify_eq.
Qed.

Lemma render_not_morpheus names : render names <> AgentPathMorpheus.
Proof. unfold render. by destruct names. Qed.

Lemma validateAgentNames_slash stripped segs seg :
  split_byte "/" stripped = seg :: segs -> segs <> [] -> validateAgentNames segs = None ->
  has_suffix stripped "/" = false.
Proof.
  intros Hs Hne Hv. destruct (has_suffix stripped "/") eqn:E; [|done]. exfalso.
  apply has_suffix_true in E as [r ->]. apply validateAgentNames_None in Hv.
  change (r ++ str "/") with (r ++ "/"%char :: []) in Hs. rewrite split_byte_app_sep in Hs. simpl in Hs.
  destruct (split_byte "/" r) as [|x xs] eqn:Er; [by apply split_byte_nonempty in Er|].
  injection Hs as -> <-. apply Forall_app in Hv as [_ Hv]. by apply Forall_singleton in Hv as [? _].
Qed.

Lemma validateAbsoluteAgentPath_None p : validateAbsoluteAgentPath p = None <-> valid_path p.
Proof.
  unfold validateAbsoluteAgentPath, valid_path. destruct (decide (p = AgentPathMorpheus)) as [->|Hm]; [naive_solver|].
  destruct (cut_prefix p "/") as [stripped|] eqn:E.
  - apply cut_prefix_Some in E as ->.
    destruct (split_byte "/" stripped) as [|seg segs] eqn:Es; [by apply split_byte_nonempty in Es|].
    split.
    + destruct (decide (seg <> _)) as [|Heq]; [done|]. destruct (has_suffix stripped _) eqn:El; [done|].
      intros Hv%validateAgentNames_None. right. exists segs. split; [done|]. unfold render.
      destruct (decide (seg = agentPathRootSeg)) as [<-|]; [|done].
      rewrite <- Es. f_equal. symmetry. apply (join_split_byte "/").
    + intros [?|(names & Hn & Hr)]; [done|]. unfold render in Hr. apply app_inv_head in Hr as ->.
      rewrite split_render in Es by done. injection Es as <- <-.
      rewrite decide_False by auto. apply validateAgentNames_None in Hn.
      destruct names as [|n names].
      * done.
      * rewrite (validateAgentNames_slash _ (n :: names) agentPathRootSeg); [done| |done|done].
        apply split_render. by apply validateAgentNames_None.
  - split; [done|]. intros [?|(names & Hn & ->)]; [done|]. unfold render in E.
    by rewrite cut_prefix_app in E.
Qed.

Lemma NewAgentPath_Ok q a : NewAgentPath q = Ok a <-> valid_path q /\ a = MkPath q.
Proof.
  unfold NewAgentPath. rewrite <- validateAbsoluteAgentPath_None.
  destruct (validateAbsoluteAgentPath q); naive_solver.
Qed.

(** A valid name can be joined below the root, and nothing else can. *)
Lemma Join_Ok a n b : valid_path (path a) ->
  Join a n = Ok b <->
  valid_name n /\ exists names, Forall valid_name names /\ path a = render names /\ b = MkPath (render (names ++ [n])).
Proof.
  intros Ha. unfold Join. rewrite <- validateAgentName_None.
  destruct (validateAgentName n) as [e|] eqn:E; [naive_solver|].
  apply validateAgentName_None in E. rewrite NewAgentPath_Ok. split.
  - intros [Hv ->]. split; [done|]. destruct Ha as [Hm|(names & Hn & Hp)].
    + exfalso. rewrite Hm in Hv. destruct Hv as [Hv|(names & Hn & Hv)].
      * apply (f_equal length) in Hv. rewrite length_app in Hv. simpl in Hv. lia.
      * unfold render in Hv. by destruct names.
    + exists names. by rewrite render_snoc, Hp.
  - intros (_ & names & Hn & Hp & ->). rewrite Hp, <- render_snoc. split; [|done].
    right. exists (names ++ [n]). split; [|done]. by apply Forall_app_2; [|constructor].
Qed.

Lemma joinSegments_returns a segs : returns (joinSegments a segs).
Proof.
  revert a. induction segs as [|seg segs IH]; intros a; simpl; [done|].
  unfold Join, NewAgentPath. destruct (validateAgentName seg); simpl; [done|].
  destruct (validateAbsoluteAgentPath _); simpl; [done|apply IH].
Qed.

Lemma joinSegments_Ok segs : segs <> [] -> forall a b, valid_path (path a) ->
  joinSegments a segs = Ok b <->
  Forall valid_name segs /\ exists names, Forall valid_name names /\ path a = render names /\
    b = MkPath (render (names ++ segs)).
Proof.
  induction segs as [|seg segs IH]; [done|]. intros _ a b Ha. cbn [joinSegments].
  rewrite result_bind_Ok.
  assert (Hj : forall c, unsupported (Join a seg) = Ok c <-> Join a seg = Ok c)
    by (intros c; destruct (Join a seg); simpl; naive_solver).
  destruct segs as [|seg' segs].
  - split.
    + intros (c & Hc%Hj & [= <-]). apply Join_Ok in Hc as [Hn (names & Hf & Hp & ->)]; [|done].
      split; [by constructor|]. eauto.
    + intros ([Hn _]%Forall_cons & names & Hf & Hp & ->). eexists. split; [|done].
      apply Hj, Join_Ok; [done|]. eauto.
  - split.
    + intros (c & Hc%Hj & Hr). apply Join_Ok in Hc as [Hn (names & Hf & Hp & ->)]; [|done].
      apply IH in Hr as (Hs & names' & Hf' & Hp' & ->); [|done|].
      2: { right. eexists. split; [|done]. by apply Forall_app_2; [|constructor]. }
      cbn [path] in Hp'. apply render_inj in Hp' as <-; [|by apply Forall_app_2; [|constructor]|done].
      split; [by constructor|]. exists names. by rewrite <- (assoc (++)).
    + intros ([Hn Hs]%Forall_cons & names & Hf & Hp & ->).
      assert (Hv : Forall valid_name (names ++ [seg])) by (by apply Forall_app_2; [|constructor]).
      exists (MkPath (render (names ++ [seg]))). split.
      * apply Hj, Join_Ok; [done|]. eauto.
      * apply IH; [done|by right; eauto|]. split; [done|]. exists (names ++ [seg]).
        by rewrite <- (assoc (++)).
Qed.

Lemma names_head segs : Forall valid_name segs -> segs <> [] ->
  exists c t, join "/" segs = c :: t /\ c <> "/"%char.
Proof.
  intros Hs Hne. destruct segs as [|seg segs]; [done|].
  apply Forall_cons in Hs as [(Hz & _ & Hb) _]. destruct seg as [|c seg]; [done|].
  apply Forall_cons in Hb as [Hc _].
  exists c. destruct segs; eexists; (split; [reflexivity|]); by intros ->.
Qed.

Lemma absolute_head p : valid_path p -> exists t, p = "/"%char :: t.
Proof. intros [->|(names & _ & ->)]; eexists; reflexivity. Qed.

(** What a reference resolves to. *)
Definition resolves (base : AgentPath) (reference : gostring) (p : AgentPath) : Prop :=
  (valid_path reference /\ p = MkPath reference) \/
  (exists names segs, Forall valid_name names /\ Forall valid_name segs /\ segs <> [] /\
     path base = render names /\ reference = join "/" segs /\ p = MkPath (render (names ++ segs))).

Lemma no_trailing_slash segs : Forall valid_name segs -> segs <> [] -> has_suffix (join "/" segs) "/" = false.
Proof.
  intros Hs Hne. destruct (has_suffix _ _) eqn:E; [|done]. exfalso.
  apply has_suffix_true in E as [r Hr].
  assert (Hsp : split_byte "/" (join "/" segs) = segs)
    by (apply split_byte_join; [by apply names_no_slash|done]).
  rewrite Hr in Hsp. change (r ++ str "/") with (r ++ "/"%char :: []) in Hsp.
  rewrite split_byte_app_sep in Hsp. rewrite <- Hsp in Hs.
  apply Forall_app in Hs as [_ Hs]. by apply Forall_singleton in Hs as [? _].
Qed.

(** An absolute reference is not a join of names. *)
Lemma resolves_absolute base t p :
  resolves base ("/"%char :: t) p <-> valid_path ("/"%char :: t) /\ p = MkPath ("/"%char :: t).
Proof.
  split; [|by left]. intros [H|(names & segs & _ & Hs & Hne & _ & Hr & _)]; [done|].
  destruct (names_head segs Hs Hne) as (c & t' & Hj & Hc). congruence.
Qed.

(** A reference that does not start with a slash has to be one. *)
Lemma resolves_relative base reference p : has_prefix reference "/" = false -> valid_path (path base) ->
  joinSegments base (split_byte "/" reference) = Ok p /\ has_suffix reference "/" = false <->
  resolves base reference p.
Proof.
  intros Hpre Hb. split.
  - intros [Hj Hsuf]. apply joinSegments_Ok in Hj as (Hs & names & Hn & Hp & ->); [|apply split_byte_nonempty|done].
    right. exists names, (split_byte "/" reference). split_and!; try done; [apply split_byte_nonempty|].
    symmetry. apply (join_split_byte "/").
  - intros [[[t ->]%absolute_head _]|(names & segs & Hn & Hs & Hne & Hp & -> & ->)]; [done|].
    split; [|by apply no_trailing_slash].
    assert (Hsp : split_byte "/" (join "/" segs) = segs)
      by (apply split_byte_join; [by apply names_no_slash|done]).
    apply joinSegments_Ok; [apply split_byte_nonempty|done|]. rewrite Hsp. eauto.
Qed.

Lemma resolveAgentPath_Ok base reference p : valid_path (path base) ->
  resolveAgentPath base reference = Ok p <-> resolves base reference p.
Proof.
  intros Hb. unfold resolveAgentPath.
  destruct (decide (reference = [])) as [->|Hne].
  { split; [done|]. intros [[[t ?]%absolute_head _]|(names & segs & _ & Hs & Hne & _ & Hr & _)]; [done|].
    destruct (names_head segs Hs Hne) as (c & t & Hj & _). congruence. }
  destruct (decide (reference = AgentPathRoot)) as [->|Hroot].
  { change AgentPathRoot with ("/"%char :: str "root"). rewrite resolves_absolute. split.
    - intros [= <-]. split; [|done]. right. by exists [].
    - by intros [_ ->]. }
  destruct (has_prefix reference "/") eqn:Epre.
  - apply has_prefix_true in Epre as [t ->]. change (str "/" ++ t) with ("/"%char :: t).
    rewrite resolves_absolute, <- NewAgentPath_Ok. by destruct (NewAgentPath _); simpl; split; intros; simplify_eq.
  - rewrite <- resolves_relative by done. unfold validateRelativeReference.
    destruct (has_suffix reference "/"); naive_solver.
Qed.

(** Resolving a reference against a valid base returns, and succeeds exactly
    for a valid absolute path, which it returns as it is, or for one or more
    valid names separated by slashes, which it puts below the base; so a
    resolved path is valid again. *)
Theorem resolveAgentPath_spec base reference : valid_path (path base) ->
  returns (resolveAgentPath base reference) /\
  (forall p, resolveAgentPath base reference = Ok p <-> resolves base reference p) /\
  (forall p, resolveAgentPath base reference = Ok p -> valid_path (path p)).
Proof.
  intros Hb. split_and!.
  - unfold resolveAgentPath. repeat case_decide; try done. destruct (has_prefix _ _).
    + unfold NewAgentPath. by destruct (validateAbsoluteAgentPath _).
    + unfold validateRelativeReference. destruct (has_suffix _ _); [done|apply joinSegments_returns].
  - intros p. by apply resolveAgentPath_Ok.
  - intros p Hp. apply resolveAgentPath_Ok in Hp as [[Hv ->]|(names & segs & Hn & Hs & _ & _ & _ & ->)]; [done| |done].
    right. exists (names ++ segs). split; [by apply Forall_app_2|done].
Qed.

Lemma resolveAgentPath_spec_witness :
  valid_path "/root/lead" /\
  resolveAgentPath (MkPath "/root/lead") "team_a/worker_1" = Ok (MkPath "/root/lead/team_a/worker_1") /\
  resolveAgentPath (MkPath "/root/lead") "/root/other" = Ok (MkPath "/root/other").
Proof.
  assert (Hb : valid_path "/root/lead") by (by apply validateAbsoluteAgentPath_None).
  split; [done|]. split.
  - apply (proj2 (resolveAgentPath_spec (MkPath "/root/lead") "team_a/worker_1" Hb)).
    right. exists [str "lead"], [str "team_a"; str "worker_1"]. split_and!; try done.
    + by repeat constructor; apply validateAgentName_None.
    + by repeat constructor; apply validateAgentName_None.
  - apply (proj2 (resolveAgentPath_spec (MkPath "/root/lead") "/root/other" Hb)).
    left. split; [|done]. by apply validateAbsoluteAgentPath_None.
Defined.

(** The match is a prefix of names, so [/root/ab] is not under [/root/a]. *)
Theorem agentMatchesPrefix_names a b : Forall valid_name a -> Forall valid_name b ->
  agentMatchesPrefix (Some (MkPath (render a))) (MkPath (render b)) = true <-> b `prefix_of` a.
Proof.
  intros Ha Hb. unfold agentMatchesPrefix, IsRoot. cbn [path].
  case_bool_decide as Hr.
  { change AgentPathRoot with (render []) in Hr. apply render_inj in Hr as ->; [|done|done].
    split; [|done]. intros _. apply prefix_nil. }
  destruct (decide (render a = render b)) as [E|Hne].
  { apply render_inj in E as ->; [|done..]. by split. }
  split.
  - destruct (cut_prefix _ _) as [suffix|] eqn:E; [|done]. apply cut_prefix_Some in E.
    intros [t ->]%has_prefix_true. unfold render in E. rewrite <- (assoc (++)) in E.
    apply app_inv_head in E. apply (f_equal (split_byte "/")) in E.
    change (?x ++ str "/" ++ t) with (x ++ "/"%char :: t) in E.
    rewrite split_byte_app_sep, !split_render in E by done. injection E as ->. by apply prefix_app_r.
  - intros [k ->]. destruct k as [|n k]; [by rewrite app_nil_r in Hne|].
    assert (Hrk : render (b ++ n :: k) = render b ++ "/" ++ join "/" (n :: k)).
    { clear. unfold render. rewrite <- (assoc (++)). f_equal. revert n k.
      change (agentPathRootSeg :: b ++ ?x) with ((agentPathRootSeg :: b) ++ x).
      intros n k. generalize agentPathRootSeg. induction b as [|x b IH]; intros r; [done|].
      change (join "/" ((r :: x :: b) ++ n :: k)) with (r ++ "/" ++ join "/" ((x :: b) ++ n :: k)).
      rewrite IH. change (join "/" (r :: x :: b)) with (r ++ "/" ++ join "/" (x :: b)).
      by rewrite !(assoc (++)). }
    by rewrite Hrk, cut_prefix_app.
Qed.

End AgentPath.
