(* ===== verification/AgentGraph.v ===== *)
(** * internal/agentgraph: the store of spawn edges

    [agentgraph.go], [error.go] and [inmemory.go].  A child thread has at most
    one incoming edge, from the thread that spawned it, with a status.  The
    store lists children and descendants; the interface is a class, which the
    control plane uses, and the in-memory store is proved to keep its promises.
    Every method holds the mutex, so it is one step. *)

From stdpp Require Import base list gmap sorting.
From S2P Require Import Prelude GoStrings GoText GoOrder AgentPath.

Module Graph.
Import AgentPath (ThreadID).

(** ** agentgraph.go *)

Definition ThreadSpawnEdgeStatus := gostring.
Definition ThreadSpawnEdgeStatusOpen : ThreadSpawnEdgeStatus := "open".
Definition ThreadSpawnEdgeStatusClosed : ThreadSpawnEdgeStatus := "closed".

Definition IsValid (s : ThreadSpawnEdgeStatus) : bool :=
  bool_decide (s = ThreadSpawnEdgeStatusOpen \/ s = ThreadSpawnEdgeStatusClosed).

(** ** error.go *)

Inductive ErrorKind := ErrorKindInvalidRequest | ErrorKindInternal.

Record GraphError := { Kind : ErrorKind; Message : gostring }.

Definition ErrorText (e : GraphError) : gostring :=
  match Kind e with
  | ErrorKindInvalidRequest => "invalid agent graph store request: " ++ Message e
  | ErrorKindInternal => "agent graph store internal error: " ++ Message e
  end.

(** ** The interface: a store that may fail *)

Class AgentGraphStore (S : Type) := {
  UpsertThreadSpawnEdge : ThreadID -> ThreadID -> ThreadSpawnEdgeStatus -> S -> result GraphError unit * S;
  SetThreadSpawnEdgeStatus : ThreadID -> ThreadSpawnEdgeStatus -> S -> result GraphError unit * S;
  ListThreadSpawnChildren : ThreadID -> option ThreadSpawnEdgeStatus -> S -> result GraphError (list ThreadID);
  ListThreadSpawnDescendants : ThreadID -> option ThreadSpawnEdgeStatus -> S -> result GraphError (list ThreadID);
}.

(** ** inmemory.go *)

Record edge := { parent : gostring; status : ThreadSpawnEdgeStatus }.

Record InMemory := { edges : gmap gostring edge }.

Definition NewInMemoryAgentGraphStore : InMemory := {| edges := ∅ |}.

Definition upsert (parentThreadID childThreadID : ThreadID) (st : ThreadSpawnEdgeStatus) (s : InMemory) : InMemory :=
  {| edges := <[childThreadID := {| parent := parentThreadID; status := st |}]> (edges s) |}.

Definition setStatus (childThreadID : ThreadID) (st : ThreadSpawnEdgeStatus) (s : InMemory) : InMemory :=
  match edges s !! childThreadID with
  | Some existing => {| edges := <[childThreadID := {| parent := parent existing; status := st |}]> (edges s) |}
  | None => s
  end.

(** A nil filter follows every edge. *)
Definition follows (statusFilter : option ThreadSpawnEdgeStatus) (e : edge) : bool :=
  match statusFilter with None => true | Some st => bool_decide (status e = st) end.

Section InMemory.
Context `{MapOrder edge}.

Definition listChildren (parentThreadID : ThreadID) (statusFilter : option ThreadSpawnEdgeStatus) (s : InMemory) : list ThreadID :=
  sort_strings (filter (fun ce : gostring * edge => parent ce.2 = parentThreadID /\ follows statusFilter ce.2 = true)
                       (range (edges s))).*1.

(** The children of each parent, in the order of the range. *)
Fixpoint groupChildren (statusFilter : option ThreadSpawnEdgeStatus) (es : list (gostring * edge))
    (childrenByParent : gmap gostring (list gostring)) : gmap gostring (list gostring) :=
  match es with
  | [] => childrenByParent
  | (child, e) :: es =>
      groupChildren statusFilter es
        (if follows statusFilter e
         then <[parent e := default [] (childrenByParent !! parent e) ++ [child]]> childrenByParent
         else childrenByParent)
  end.

(** The unvisited children of one parent are marked and put on the level. *)
Fixpoint visitChildren (children : list gostring) (visited : gset gostring) (level : list gostring) :
    gset gostring * list gostring :=
  match children with
  | [] => (visited, level)
  | child :: children =>
      if decide (child ∈ visited) then visitChildren children visited level
      else visitChildren children ({[child]} ∪ visited) (level ++ [child])
  end.

Fixpoint visitFrontier (childrenByParent : gmap gostring (list gostring)) (frontier : list gostring)
    (visited : gset gostring) (level : list gostring) : gset gostring * list gostring :=
  match frontier with
  | [] => (visited, level)
  | p :: frontier =>
      let '(visited, level) := visitChildren (default [] (childrenByParent !! p)) visited level in
      visitFrontier childrenByParent frontier visited level
  end.

(** One turn of the outer loop per level; [None] when the fuel is used up. *)
Fixpoint walk (fuel : nat) (childrenByParent : gmap gostring (list gostring)) (frontier : list gostring)
    (visited : gset gostring) (ordered : list gostring) : option (list gostring) :=
  match frontier with
  | [] => Some ordered
  | _ =>
      match fuel with
      | O => None
      | S fuel =>
          let '(visited, level) := visitFrontier childrenByParent frontier visited [] in
          walk fuel childrenByParent level visited (ordered ++ sort_strings level)
      end
  end.

Definition listDescendants (rootThreadID : ThreadID) (statusFilter : option ThreadSpawnEdgeStatus) (s : InMemory) :
    result GraphError (list ThreadID) :=
  or_panic (walk (S (size (edges s))) (groupChildren statusFilter (range (edges s)) ∅) [rootThreadID] ∅ []).

#[export] Instance InMemory_store : AgentGraphStore InMemory := {|
  UpsertThreadSpawnEdge p c st s := (Ok tt, upsert p c st s);
  SetThreadSpawnEdgeStatus c st s := (Ok tt, setStatus c st s);
  ListThreadSpawnChildren p f s := Ok (listChildren p f s);
  ListThreadSpawnDescendants r f s := listDescendants r f s;
|}.

End InMemory.

(** ** What the lists are to be *)

(** [c] is a child of [p] by an edge that the filter follows. *)
Definition child_of (f : option ThreadSpawnEdgeStatus) (s : InMemory) (p c : gostring) : Prop :=
  exists e, edges s !! c = Some e /\ parent e = p /\ follows f e = true.

(** A path of [n] edges. *)
Inductive path_of (f : option ThreadSpawnEdgeStatus) (s : InMemory) (root : gostring) : nat -> gostring -> Prop :=
| path_root : path_of f s root 0 root
| path_edge n p c : path_of f s root n p -> child_of f s p c -> path_of f s root (S n) c.

(** Reached by [n] edges, one at least, and not by fewer. *)
Definition depth_of (f : option ThreadSpawnEdgeStatus) (s : InMemory) (root : gostring) (n : nat) (c : gostring) : Prop :=
  path_of f s root n c /\ (1 <= n)%nat /\ forall m, (1 <= m < n)%nat -> ~ path_of f s root m c.

Definition descendant (f : option ThreadSpawnEdgeStatus) (s : InMemory) (root c : gostring) : Prop :=
  exists n, (1 <= n)%nat /\ path_of f s root n c.

(** By depth, then by thread id. *)
Definition before (f : option ThreadSpawnEdgeStatus) (s : InMemory) (root c d : gostring) : Prop :=
  exists m n, depth_of f s root m c /\ depth_of f s root n d /\ ((m < n)%nat \/ (m = n /\ str_le c d)).

(** ** Paths *)

Section Walk.
Context `{MapOrder edge}.
Context (f : option ThreadSpawnEdgeStatus) (s : InMemory).

Lemma path_split a b root c : path_of f s root (a + b) c ->
  exists x, path_of f s root a x /\ path_of f s x b c.
Proof.
  revert c. induction b as [|b IH]; intros c Hp.
  - rewrite Nat.add_0_r in Hp. exists c. split; [done|constructor].
  - rewrite Nat.add_succ_r in Hp. inversion Hp as [|? p ? Hp' Hc]; subst.
    destruct (IH p Hp') as (x & Hx & Hb). exists x. split; [done|]. by econstructor.
Qed.

Lemma path_trans a b root x c : path_of f s root a x -> path_of f s x b c -> path_of f s root (a + b) c.
Proof.
  intros Ha Hb. induction Hb as [|b p c Hp IH Hc]; [by rewrite Nat.add_0_r|].
  rewrite Nat.add_succ_r. by econstructor.
Qed.

Lemma path_dom n root c : path_of f s root (S n) c -> c ∈ dom (edges s).
Proof. inversion 1 as [|? ? ? ? (e & He & _)]; subst. apply elem_of_dom. eauto. Qed.

(** Reached by at least one edge and at most [k]. *)
Definition within (root : gostring) (k : nat) (c : gostring) : Prop :=
  exists m, (1 <= m <= k)%nat /\ path_of f s root m c.

(** When level [k + 1] adds nothing, nothing deeper does. *)
Lemma level_closed k root : (forall c, path_of f s root (S k) c -> within root k c) ->
  forall n c, (1 <= n)%nat -> path_of f s root n c -> within root k c.
Proof.
  intros He n. induction n as [n IH] using (well_founded_induction lt_wf). intros c Hn Hp.
  destruct (decide (n <= k)%nat) as [?|Hge]; [by exists n; split; [lia|]|].
  replace n with (S k + (n - S k))%nat in Hp by lia. apply path_split in Hp as (x & Hx & Hc).
  destruct (He x Hx) as (m & Hm & Hmx). apply (IH (m + (n - S k))%nat); [lia..|by eapply path_trans].
Qed.

(** ** One level *)

Lemma groupChildren_lookup es m p :
  default [] (groupChildren f es m !! p) =
  default [] (m !! p) ++ (filter (fun ce : gostring * edge => parent ce.2 = p /\ follows f ce.2 = true) es).*1.
Proof.
  revert m. induction es as [|[c e] es IH]; intros m; simpl; [by rewrite app_nil_r|].
  rewrite IH. destruct (follows f e) eqn:Ef.
  - destruct (decide (parent e = p)) as [<-|Hne].
    + rewrite lookup_insert_eq, filter_cons_True by done. simpl. by rewrite <- (assoc (++)).
    + rewrite lookup_insert_ne, filter_cons_False by naive_solver. done.
  - rewrite filter_cons_False by (simpl; naive_solver congruence). done.
Qed.

Lemma elem_of_children p c :
  c ∈ default [] (groupChildren f (range (edges s)) ∅ !! p) <-> child_of f s p c.
Proof.
  rewrite groupChildren_lookup, lookup_empty. simpl. rewrite list_elem_of_fmap. split.
  - intros ([c' e] & -> & [[Hp Hf] Hin]%list_elem_of_filter). apply elem_of_range in Hin. exists e. auto.
  - intros (e & He & Hp & Hf). exists (c, e). split; [done|]. apply list_elem_of_filter.
    split; [done|]. by apply elem_of_range.
Qed.

Lemma visitChildren_spec children visited level :
  exists new, visitChildren children visited level = (visited ∪ list_to_set new, level ++ new) /\
    NoDup new /\ forall c, c ∈ new <-> c ∈ children /\ c ∉ visited.
Proof.
  revert visited level. induction children as [|x children IH]; intros visited level; simpl.
  - exists []. rewrite app_nil_r, list_to_set_nil, union_empty_r_L. split_and!; [done|constructor|set_solver].
  - destruct (decide (x ∈ visited)) as [Hx|Hx].
    + destruct (IH visited level) as (new & -> & Hnd & Hin). exists new. split_and!; [done..|].
      intros c. rewrite Hin. set_solver.
    + destruct (IH ({[x]} ∪ visited) (level ++ [x])) as (new & -> & Hnd & Hin). exists (x :: new).
      split_and!.
      * rewrite <- (assoc (++)). f_equal. set_solver.
      * constructor; [rewrite Hin; set_solver|done].
      * intros c. rewrite elem_of_cons, Hin. destruct (decide (c = x)); set_solver.
Qed.

Lemma visitFrontier_spec cs frontier visited level :
  exists new, visitFrontier cs frontier visited level = (visited ∪ list_to_set new, level ++ new) /\
    NoDup new /\ forall c, c ∈ new <-> (exists p, p ∈ frontier /\ c ∈ default [] (cs !! p)) /\ c ∉ visited.
Proof.
  revert visited level. induction frontier as [|p frontier IH]; intros visited level; simpl.
  - exists []. rewrite app_nil_r, list_to_set_nil, union_empty_r_L. split_and!; [done|constructor|set_solver].
  - destruct (visitChildren_spec (default [] (cs !! p)) visited level) as (n1 & -> & Hnd1 & Hin1).
    destruct (IH (visited ∪ list_to_set n1) (level ++ n1)) as (n2 & -> & Hnd2 & Hin2).
    exists (n1 ++ n2). split_and!.
    + rewrite <- (assoc (++)). f_equal. set_solver.
    + apply NoDup_app. split_and!; [done| |done]. intros x H1. rewrite Hin2. set_solver.
    + intros c. rewrite elem_of_app, Hin1, Hin2.
      destruct (decide (c ∈ n1)) as [H1|H1]; pose proof (Hin1 c); set_solver.
Qed.

(** ** The walk *)

Record level_inv (root : gostring) (k : nat) (frontier : list gostring) (visited : gset gostring)
    (ordered : list gostring) : Prop := {
  level_visited : forall c, c ∈ visited <-> within root k c;
  level_depth : forall c, c ∈ visited -> exists m, (m <= k)%nat /\ depth_of f s root m c;
  level_frontier : forall c, c ∈ frontier <-> path_of f s root k c /\ ~ within root (k - 1) c;
  level_ordered : forall c, c ∈ ordered <-> c ∈ visited;
  level_NoDup : NoDup ordered;
  level_sorted : StronglySorted (before f s root) ordered;
}.

Lemma within_mono root j k c : (j <= k)%nat -> within root j c -> within root k c.
Proof. intros Hle (m & Hm & Hp). exists m. split; [lia|done]. Qed.

Lemma within_depth root k c : path_of f s root (S k) c -> ~ within root k c -> depth_of f s root (S k) c.
Proof. intros Hp Hn. split; [done|]. split; [lia|]. intros m Hm Hpm. apply Hn. exists m. split; [lia|done]. Qed.

Lemma before_depth root m n c d : depth_of f s root m c -> depth_of f s root n d ->
  (m < n)%nat \/ (m = n /\ str_le c d) -> before f s root c d.
Proof. intros. exists m, n. auto. Qed.

Lemma sorted_app (R : relation gostring) (l k : list gostring) :
  StronglySorted R l -> StronglySorted R k -> (forall x y, x ∈ l -> y ∈ k -> R x y) -> StronglySorted R (l ++ k).
Proof.
  intros Hl Hk Hx. induction Hl as [|x l Hl IH Hf]; simpl; [done|]. constructor.
  - apply IH. intros. apply Hx; [by right|done].
  - apply Forall_app. split; [done|]. apply Forall_forall. intros y Hy. apply Hx; [by left|done].
Qed.

(** The next level. *)
Lemma level_step root k frontier visited ordered :
  level_inv root k frontier visited ordered ->
  let '(visited', level) := visitFrontier (groupChildren f (range (edges s)) ∅) frontier visited [] in
  level_inv root (S k) level visited' (ordered ++ sort_strings level) /\
  visited ⊆ visited' /\ visited' ⊆ visited ∪ dom (edges s) /\ (level <> [] -> size visited < size visited')%nat.
Proof.
  intros [Hv Hdp Hf Ho Hnd Hs].
  destruct (visitFrontier_spec (groupChildren f (range (edges s)) ∅) frontier visited [])
    as (new & -> & Hnn & Hin). simpl.
  assert (Hnew : forall c, c ∈ new <-> path_of f s root (S k) c /\ ~ within root k c).
  { intros c. rewrite Hin, Hv. split.
    - intros [(p & [Hp _]%Hf & Hc%elem_of_children) Hw]. split; [by econstructor|done].
    - intros [Hp Hw]. split; [|done]. inversion Hp as [|? p ? Hp' Hc]; subst.
      exists p. split; [|by apply elem_of_children]. apply Hf. split; [done|].
      intros (m & Hm & Hpm). apply Hw. exists (S m). split; [lia|by econstructor]. }
  split; [split|split_and!].
  - intros c. rewrite elem_of_union, elem_of_list_to_set, Hnew, Hv. split.
    + intros [Hw|[Hp _]]; [by eapply within_mono, Hw; lia|]. exists (S k). split; [lia|done].
    + intros (m & Hm & Hp). destruct (decide (c ∈ visited)) as [Hc%Hv|Hc]; [by left|right].
      assert (Hc' : ~ within root k c) by (by rewrite <- Hv).
      destruct (decide (m = S k)) as [->|]; [done|]. destruct Hc'. exists m. split; [lia|done].
  - intros c [Hc|Hc%elem_of_list_to_set]%elem_of_union.
    + destruct (Hdp c Hc) as (m & Hm & Hd). exists m. split; [lia|done].
    + apply Hnew in Hc as [Hp Hw]. exists (S k). split; [done|by apply within_depth].
  - intros c. rewrite Hnew. by rewrite Nat.sub_succ, Nat.sub_0_r.
  - intros c. rewrite elem_of_app, elem_of_sort_strings, Ho. set_solver.
  - apply NoDup_app. rewrite NoDup_sort_strings. split_and!; [done| |done].
    intros c Hc. rewrite elem_of_sort_strings, Hin. rewrite Ho in Hc. by intros [_ ?].
  - apply sorted_app; [done| |].
    + assert (Hd : Forall (depth_of f s root (S k)) (sort_strings new)).
      { apply Forall_forall. intros c [Hp Hw]%elem_of_sort_strings%Hnew. by apply within_depth. }
      pose proof (sort_strings_sorted new) as Hss. clear -Hd Hss.
      induction Hss as [|x l Hl IH Hx]; [constructor|]. apply Forall_cons in Hd as [Hdx Hdl].
      constructor; [by apply IH|]. rewrite !Forall_forall in *. intros y Hy.
      apply (before_depth _ (S k) (S k)); auto.
    + intros x y Hx%Ho Hy%elem_of_sort_strings%Hnew. destruct (Hdp x Hx) as (m & Hm & Hd).
      destruct Hy as [Hp Hw]. apply (before_depth _ m (S k)); [done|by apply within_depth|left; lia].
  - set_solver.
  - intros c. rewrite elem_of_union, elem_of_list_to_set. intros [?|[Hp _]%Hnew]; [set_solver|].
    apply path_dom in Hp. set_solver.
  - intros Hne. apply subset_size. destruct new as [|x new]; [done|].
    assert (x ∉ visited) by (apply Hin; by left). set_solver.
Qed.

(** When a level is empty, everything has been visited. *)
Lemma level_end root k visited ordered c : level_inv root k [] visited ordered -> (1 <= k)%nat ->
  within root k c <-> descendant f s root c.
Proof.
  intros [Hv Hdp Hf _ _ _] Hk. split.
  - intros (m & Hm & Hp). exists m. split; [lia|done].
  - intros (n & Hn & Hp). apply (within_mono _ (k - 1)); [lia|].
    apply (level_closed _ root) with (n := n); [|done..].
    replace (S (k - 1)) with k by lia. intros d Hd.
    assert (Hin : d ∈ visited) by (apply Hv; exists k; split; [lia|done]).
    destruct (Hdp d Hin) as (m & Hm & Hpm & Hm1 & Hmin). destruct (decide (m = k)) as [->|].
    + exfalso. apply (not_elem_of_nil d), Hf. split; [done|].
      intros (j & Hj & Hpj). apply (Hmin j); [lia|done].
    + exists m. split; [lia|done].
Qed.

Lemma level_inv_initial root : level_inv root 0 [root] ∅ [].
Proof.
  split.
  - intros c. split; [set_solver|]. intros (m & Hm & _). lia.
  - set_solver.
  - intros c. rewrite list_elem_of_singleton. split.
    + intros ->. split; [constructor|]. intros (m & Hm & _). lia.
    + intros [Hp _]. by inversion Hp.
  - set_solver.
  - constructor.
  - constructor.
Qed.

Lemma walk_spec fuel root k frontier visited ordered :
  level_inv root k frontier visited ordered -> visited ⊆ dom (edges s) ->
  (size (dom (edges s)) - size visited + (if decide (frontier = []) then 0 else 1) <= fuel)%nat ->
  (frontier = [] -> 1 <= k)%nat ->
  exists out, walk fuel (groupChildren f (range (edges s)) ∅) frontier visited ordered = Some out /\
    NoDup out /\ (forall c, c ∈ out <-> descendant f s root c) /\ StronglySorted (before f s root) out.
Proof.
  revert k frontier visited ordered. induction fuel as [|fuel IH]; intros k frontier visited ordered Hi Hsub Hfuel Hk.
  all: destruct frontier as [|p frontier]; cbn [walk].
  1,3: exists ordered; pose proof (level_ordered _ _ _ _ _ Hi) as Ho; pose proof (level_visited _ _ _ _ _ Hi) as Hv;
    split_and!; [done|apply (level_NoDup _ _ _ _ _ Hi)| |apply (level_sorted _ _ _ _ _ Hi)]; intros c; rewrite Ho, Hv;
    apply (level_end _ _ _ _ _ Hi); by apply Hk.
  - rewrite decide_False in Hfuel by done. lia.
  - pose proof (level_step root k _ _ _ Hi) as Hst.
    destruct (visitFrontier _ (p :: frontier) visited []) as [visited' level].
    destruct Hst as (Hi' & Hv & Hd & Hsz). apply (IH (S k)); [done|set_solver| |lia].
    rewrite decide_False in Hfuel by done.
    assert (size visited' <= size (dom (edges s)))%nat by (apply subseteq_size; set_solver).
    pose proof (subseteq_size _ _ Hv). destruct (decide (level = [])) as [?|Hne]; [lia|].
    specialize (Hsz Hne). lia.
Qed.

End Walk.

Lemma size_dom (s : InMemory) : size (dom (edges s)) = size (edges s).
Proof. apply size_dom. Qed.

Section Properties.
Context `{MapOrder edge}.

Lemma listDescendants_full f s root : exists out,
  listDescendants root f s = Ok out /\ NoDup out /\
  (forall c, c ∈ out <-> descendant f s root c) /\ StronglySorted (before f s root) out.
Proof.
  destruct (walk_spec f s (S (size (edges s))) root 0 [root] ∅ []) as (out & Hw & Hspec).
  - apply level_inv_initial.
  - set_solver.
  - rewrite decide_False, size_empty, size_dom by done. lia.
  - done.
  - exists out. split; [|done]. unfold listDescendants. by rewrite Hw.
Qed.

(** Listing the descendants of a thread always returns: the threads reached
    by one or more edges that the filter follows, each once, by depth and then
    by thread id, whatever the order of the ranges over the maps, and also
    when the edges have a cycle. *)
Theorem listDescendants_spec f s root : exists out,
  listDescendants root f s = Ok out /\ NoDup out /\
  (forall c, c ∈ out <-> descendant f s root c) /\ StronglySorted (before f s root) out.
Proof. apply listDescendants_full. Qed.

(** The children are exactly the threads one edge away, by thread id. *)
Theorem listChildren_spec f s p :
  NoDup (listChildren p f s) /\ (forall c, c ∈ listChildren p f s <-> child_of f s p c) /\
  StronglySorted str_le (listChildren p f s).
Proof.
  unfold listChildren. rewrite NoDup_sort_strings. split_and!; [| |apply sort_strings_sorted].
  - eapply sublist_NoDup; [apply (NoDup_range_fst (edges s))|]. apply fmap_sublist, sublist_filter.
  - intros c. rewrite elem_of_sort_strings, list_elem_of_fmap. split.
    + intros ([c' e] & -> & [[Hp Hf] Hin]%list_elem_of_filter). apply elem_of_range in Hin. exists e. auto.
    + intros (e & He & Hp & Hf). exists (c, e). split; [done|]. apply list_elem_of_filter.
      split; [done|]. by apply elem_of_range.
Qed.

End Properties.

Lemma depth_of_unique f s root m n c : depth_of f s root m c -> depth_of f s root n c -> m = n.
Proof.
  intros (Hp & Hm & Hmin) (Hp' & Hn & Hmin').
  destruct (Nat.lt_trichotomy m n) as [?|[?|?]]; [|done|]; exfalso.
  - by apply (Hmin' m).
  - by apply (Hmin n).
Qed.

#[export] Instance before_antisymm f s root : AntiSymm (=) (before f s root).
Proof.
  intros c d (m & n & Hm & Hn & Hlt) (n' & m' & Hn' & Hm' & Hlt').
  pose proof (depth_of_unique _ _ _ _ _ _ Hm Hm'). pose proof (depth_of_unique _ _ _ _ _ _ Hn Hn'). subst.
  destruct Hlt as [?|[? ?]], Hlt' as [?|[? ?]]; [lia..|]. by apply (anti_symm str_le).
Qed.

(** The order of the ranges does not show in the lists. *)
Theorem listDescendants_order (o1 o2 : MapOrder edge) f s root :
  @listDescendants o1 root f s = @listDescendants o2 root f s.
Proof.
  destruct (@listDescendants_full o1 f s root) as (l1 & -> & N1 & M1 & S1).
  destruct (@listDescendants_full o2 f s root) as (l2 & -> & N2 & M2 & S2).
  f_equal. apply (StronglySorted_unique (before f s root)); [done..|].
  apply NoDup_Permutation; [done..|]. intros c. by rewrite M1, M2.
Qed.

(** ** Updates *)

(** A child has one parent: the last one stored. *)
Lemma upsert_child p c st s f q d : child_of f (upsert p c st s) q d <->
  if decide (d = c) then q = p /\ follows f {| parent := p; status := st |} = true else child_of f s q d.
Proof.
  unfold child_of. simpl. destruct (decide (d = c)) as [->|Hne].
  - rewrite lookup_insert_eq. naive_solver.
  - by rewrite lookup_insert_ne.
Qed.

(** Closing an edge cuts the subtree below it from the walk over open edges;
    a missing child changes nothing. *)
Lemma setStatus_child c st s f q d : child_of f (setStatus c st s) q d <->
  exists e, edges s !! d = Some e /\ parent e = q /\
    follows f (if decide (d = c) then {| parent := parent e; status := st |} else e) = true.
Proof.
  unfold child_of, setStatus. destruct (edges s !! c) as [e|] eqn:E; simpl.
  - destruct (decide (d = c)) as [->|Hne].
    + rewrite lookup_insert_eq. setoid_rewrite E. naive_solver.
    + by rewrite lookup_insert_ne.
  - split; intros (e & He & Hp & Hf); exists e; (split; [done|]); split; try done;
      (destruct (decide (d = c)) as [->|]; [by pose proof (eq_trans (eq_sym He) E)|done]).
Qed.

(** ** Examples *)

Definition sample : InMemory :=
  upsert "b" "d" ThreadSpawnEdgeStatusOpen
    (upsert "a" "c" ThreadSpawnEdgeStatusClosed
      (upsert "root" "b" ThreadSpawnEdgeStatusOpen
        (upsert "root" "a" ThreadSpawnEdgeStatusOpen NewInMemoryAgentGraphStore))).

Example sample_descendants :
  @listDescendants (listed_order edge) "root" None sample = Ok [str "a"; str "b"; str "c"; str "d"].
Proof. vm_compute. reflexivity. Qed.

Example sample_open_descendants :
  @listDescendants (listed_order edge) "root" (Some ThreadSpawnEdgeStatusOpen) sample = Ok [str "a"; str "b"; str "d"].
Proof. vm_compute. reflexivity. Qed.

(** A cycle: the thread is its own descendant, once. *)
Example cycle_descendants :
  @listDescendants (listed_order edge) "a" None
    (upsert "b" "a" ThreadSpawnEdgeStatusOpen (upsert "a" "b" ThreadSpawnEdgeStatusOpen NewInMemoryAgentGraphStore))
  = Ok [str "b"; str "a"].
Proof. vm_compute. reflexivity. Qed.

End Graph.
