(* ===== verification/AgentRegistry.v ===== *)
(** * internal/multiagent: the registry of a session's agents

    [registry.go], [metadata.go] and [errors.go].  One registry is shared by all
    agents under a root: it bounds the number of spawned agents, keeps their
    metadata by agent path, and hands out nicknames.  A spawn holds a
    reservation until it is committed or released.  Every method of the registry
    holds the mutex, so it is one step; releasing a reservation is two. *)

From stdpp Require Import base list gmap.
From S2P Require Import Prelude GoStrings GoText GoOrder AgentPath.

Open Scope Z_scope.

Module Registry.
Import AgentPath.

(** ** metadata.go *)

Record AgentMetadata := {
  AgentID : option ThreadID;
  Path : option AgentPath;
  AgentNickname : option gostring;
  AgentRole : option gostring;
  LastTaskMessage : option gostring;
}.

Definition emptyMetadata : AgentMetadata :=
  {| AgentID := None; Path := None; AgentNickname := None; AgentRole := None; LastTaskMessage := None |}.

#[export] Instance AgentMetadata_eq_dec : EqDecision AgentMetadata.
Proof. solve_decision. Defined.

Definition pathString (m : AgentMetadata) : gostring :=
  match Path m with None => [] | Some p => path p end.

Definition set_AgentID (id : ThreadID) (m : AgentMetadata) : AgentMetadata :=
  {| AgentID := Some id; Path := Path m; AgentNickname := AgentNickname m;
     AgentRole := AgentRole m; LastTaskMessage := LastTaskMessage m |}.

Definition set_LastTaskMessage (msg : gostring) (m : AgentMetadata) : AgentMetadata :=
  {| AgentID := AgentID m; Path := Path m; AgentNickname := AgentNickname m;
     AgentRole := AgentRole m; LastTaskMessage := Some msg |}.

(** ** errors.go *)

Record AgentLimitError := { MaxThreads : Z }.

Definition AgentLimitError_Error (e : AgentLimitError) : gostring :=
  "multiagent: agent limit reached (max_threads=" ++ format_int (MaxThreads e) ++ ")".

(** ** registry.go: nicknames *)

(** [rand.IntN] is an argument. *)
Definition DefaultNicknamePicker (intN : nat -> nat) (candidates : list gostring) : gostring :=
  match candidates with
  | [] => []
  | _ => default [] (candidates !! intN (length candidates))
  end.

(** The lines of the embedded file, which is an argument. *)
Definition defaultAgentNicknameList (agentNamesFile : gostring) : list gostring :=
  filter (fun name => name <> []) (trim_space <$> split_byte nl agentNamesFile).

Definition ordinalSuffix (value : Z) : gostring :=
  if (Z.rem value 100 =? 11) || (Z.rem value 100 =? 12) || (Z.rem value 100 =? 13) then "th"
  else if Z.rem value 10 =? 1 then "st"
  else if Z.rem value 10 =? 2 then "nd"
  else if Z.rem value 10 =? 3 then "rd"
  else "th".

Definition formatAgentNickname (name : gostring) (nicknameResetCount : Z) : gostring :=
  if nicknameResetCount =? 0 then name
  else let value := nicknameResetCount + 1 in
       name ++ " the " ++ format_int value ++ ordinalSuffix value.

Definition isRootPath (p : option AgentPath) : bool :=
  match p with Some p => IsRoot p | None => false end.

(** ** registry.go: the registry *)

Record Registry := {
  agentTree : gmap gostring AgentMetadata;
  usedNicknames : gset gostring;
  nicknameResetCount : Z;
  totalCount : Z;
}.

Definition NewRegistry : Registry :=
  {| agentTree := ∅; usedNicknames := ∅; nicknameResetCount := 0; totalCount := 0 |}.

Definition set_agentTree (t : gmap gostring AgentMetadata) (r : Registry) : Registry :=
  {| agentTree := t; usedNicknames := usedNicknames r;
     nicknameResetCount := nicknameResetCount r; totalCount := totalCount r |}.
Definition set_totalCount (n : Z) (r : Registry) : Registry :=
  {| agentTree := agentTree r; usedNicknames := usedNicknames r;
     nicknameResetCount := nicknameResetCount r; totalCount := n |}.
Definition set_nicknames (used : gset gostring) (count : Z) (r : Registry) : Registry :=
  {| agentTree := agentTree r; usedNicknames := used;
     nicknameResetCount := count; totalCount := totalCount r |}.

(** A [uint64], wrapped around. *)
Definition wrap64 (z : Z) : Z := z mod 2 ^ 64.

Definition tryIncrementSpawned (maxThreads : Z) (r : Registry) : bool * Registry :=
  if maxThreads <=? totalCount r then (false, r)
  else (true, set_totalCount (wrap64 (totalCount r + 1)) r).

Definition decrementTotalCount (r : Registry) : Registry :=
  if 0 <? totalCount r then set_totalCount (totalCount r - 1) r else r.

Definition rootMetadata (threadID : ThreadID) : AgentMetadata :=
  {| AgentID := Some threadID; Path := Some AgentPathRootValue; AgentNickname := None;
     AgentRole := None; LastTaskMessage := None |}.

(** A path that is reserved for a spawn under way. *)
Definition placeholder (p : AgentPath) : AgentMetadata :=
  {| AgentID := None; Path := Some p; AgentNickname := None; AgentRole := None; LastTaskMessage := None |}.

Definition RegisterRootThread (threadID : ThreadID) (r : Registry) : Registry :=
  match agentTree r !! AgentPathRoot with
  | Some _ => r
  | None =>
      set_agentTree (<[AgentPathRoot := rootMetadata threadID]> (agentTree r)) r
  end.

Definition AgentIDForPath (p : AgentPath) (r : Registry) : option ThreadID :=
  metadata ← agentTree r !! path p; AgentID metadata.

(** The first entry with the thread id, in the order of a range. *)
Definition hasThreadID (threadID : ThreadID) (m : AgentMetadata) : bool :=
  bool_decide (AgentID m = Some threadID).

Fixpoint findEntry (threadID : ThreadID) (es : list (gostring * AgentMetadata)) : option (gostring * AgentMetadata) :=
  match es with
  | [] => None
  | (key, metadata) :: es =>
      if hasThreadID threadID metadata then Some (key, metadata) else findEntry threadID es
  end.

Definition reserveAgentPath (p : AgentPath) (r : Registry) : result AgentError Registry :=
  match agentTree r !! path p with
  | Some _ => Err (UnsupportedOperation ("agent path `" ++ path p ++ "` already exists"))
  | None =>
      Ok (set_agentTree (<[path p := placeholder p]> (agentTree r)) r)
  end.

Definition releaseReservedAgentPath (p : AgentPath) (r : Registry) : Registry :=
  match agentTree r !! path p with
  | Some metadata =>
      match AgentID metadata with
      | None => set_agentTree (delete (path p) (agentTree r)) r
      | Some _ => r
      end
  | None => r
  end.

Definition registerSpawnedThread (metadata : AgentMetadata) (r : Registry) : Registry :=
  match AgentID metadata with
  | None => r
  | Some id =>
      let key := if decide (pathString metadata = []) then "thread:" ++ id else pathString metadata in
      let used := match AgentNickname metadata with
                  | Some n => {[n]} ∪ usedNicknames r
                  | None => usedNicknames r
                  end in
      set_agentTree (<[key := metadata]> (agentTree r)) (set_nicknames used (nicknameResetCount r) r)
  end.

Section Ops.
Context `{MapOrder AgentMetadata} (picker : list gostring -> gostring).

Definition ReleaseSpawnedThread (threadID : ThreadID) (r : Registry) : Registry :=
  match findEntry threadID (range (agentTree r)) with
  | None => r
  | Some (removedKey, metadata) =>
      let r := set_agentTree (delete removedKey (agentTree r)) r in
      if negb (isRootPath (Path metadata)) && (0 <? totalCount r)
      then set_totalCount (totalCount r - 1) r else r
  end.

Definition AgentMetadataForThread (threadID : ThreadID) (r : Registry) : option AgentMetadata :=
  snd <$> findEntry threadID (range (agentTree r)).

Definition LiveAgents (r : Registry) : list AgentMetadata :=
  filter (fun m => AgentID m <> None /\ isRootPath (Path m) = false) (range (agentTree r)).*2.

Definition UpdateLastTaskMessage (threadID : ThreadID) (message : gostring) (r : Registry) : Registry :=
  match findEntry threadID (range (agentTree r)) with
  | None => r
  | Some (key, metadata) =>
      set_agentTree (<[key := set_LastTaskMessage message metadata]> (agentTree r)) r
  end.

(** The empty string stands for no nickname. *)
Definition reserveAgentNickname (names : list gostring) (preferred : gostring) (r : Registry) : gostring * Registry :=
  let record nickname r := (nickname, set_nicknames ({[nickname]} ∪ usedNicknames r) (nicknameResetCount r) r) in
  if decide (preferred <> []) then record preferred r
  else match names with
       | [] => ([], r)
       | _ =>
           let candidates := (fun name => formatAgentNickname name (nicknameResetCount r)) <$> names in
           match filter (fun c => c ∉ usedNicknames r) candidates with
           | (_ :: _) as available => record (picker available) r
           | [] =>
               let r := set_nicknames ∅ (nicknameResetCount r + 1) r in
               let base := picker names in
               if decide (base = []) then ([], r)
               else record (formatAgentNickname base (nicknameResetCount r)) r
           end
       end.

(** ** registry.go: reservations *)

Record SpawnReservation := {
  active : bool;
  reservedNickname : option gostring;
  reservedPath : option AgentPath;
}.

Definition ReserveSpawnSlot (maxThreads : option Z) (r : Registry) : result AgentLimitError SpawnReservation * Registry :=
  let fresh := {| active := true; reservedNickname := None; reservedPath := None |} in
  match maxThreads with
  | Some max =>
      let '(ok, r) := tryIncrementSpawned max r in
      if ok then (Ok fresh, r) else (Err {| MaxThreads := max |}, r)
  | None => (Ok fresh, set_totalCount (wrap64 (totalCount r + 1)) r)
  end.

Definition ReserveAgentNicknameWithPreference (names : list gostring) (preferred : gostring)
    (s : SpawnReservation) (r : Registry) : result AgentError gostring * SpawnReservation * Registry :=
  let '(nickname, r) := reserveAgentNickname names preferred r in
  if decide (nickname = []) then (Err (UnsupportedOperation "no available agent nicknames"), s, r)
  else (Ok nickname, {| active := active s; reservedNickname := Some nickname; reservedPath := reservedPath s |}, r).

Definition ReserveAgentPath (p : AgentPath) (s : SpawnReservation) (r : Registry) :
    result AgentError unit * SpawnReservation * Registry :=
  match reserveAgentPath p r with
  | Ok r => (Ok tt, {| active := active s; reservedNickname := reservedNickname s; reservedPath := Some p |}, r)
  | Err e => (Err e, s, r)
  | Panic => (Panic, s, r)
  end.

Definition Commit (metadata : AgentMetadata) (s : SpawnReservation) (r : Registry) : SpawnReservation * Registry :=
  if active s
  then ({| active := false; reservedNickname := None; reservedPath := None |}, registerSpawnedThread metadata r)
  else (s, r).

(** The first critical section of [Release]; it tells whether the second one,
    [decrementTotalCount], follows. *)
Definition releasePath (s : SpawnReservation) (r : Registry) : bool * SpawnReservation * Registry :=
  if active s
  then match reservedPath s with
       | Some p => (true, {| active := false; reservedNickname := reservedNickname s; reservedPath := None |},
                    releaseReservedAgentPath p r)
       | None => (true, {| active := false; reservedNickname := reservedNickname s; reservedPath := None |}, r)
       end
  else (false, s, r).

Definition Release (s : SpawnReservation) (r : Registry) : SpawnReservation * Registry :=
  let '(go_on, s, r) := releasePath s r in
  (s, if go_on then decrementTotalCount r else r).

End Ops.

Example nickname_examples :
  map (fun n => formatAgentNickname "Ada" n) [0; 1; 2; 3; 10; 20; 110]
  = [str "Ada"; str "Ada the 2nd"; str "Ada the 3rd"; str "Ada the 4th"; str "Ada the 11th";
     str "Ada the 21st"; str "Ada the 111th"].
Proof. reflexivity. Qed.

(** ** A session: the registry and the spawns under way, in any interleaving *)

Record session := {
  reg : Registry;
  spawns : gmap nat SpawnReservation;
  releasing : gmap nat unit;  (* between the two critical sections of [Release] *)
}.

Definition new_session : session := {| reg := NewRegistry; spawns := ∅; releasing := ∅ |}.

Inductive action :=
| Reserve (i : nat) (maxThreads : option Z)
| PickNickname (i : nat) (names : list gostring) (preferred : gostring)
| ReservePath (i : nat) (p : AgentPath)
| CommitSpawn (i : nat) (metadata : AgentMetadata)
| ReleaseBegin (i : nat)
| ReleaseEnd (i : nat)
| RootThread (id : ThreadID)
| ReleaseThread (id : ThreadID)
| UpdateTask (id : ThreadID) (message : gostring).

Section Session.
Context `{MapOrder AgentMetadata} (picker : list gostring -> gostring).

Definition act (s : session) (a : action) : session :=
  match a with
  | Reserve i max =>
      match spawns s !! i, ReserveSpawnSlot max (reg s) with
      | None, (Ok rv, r) => {| reg := r; spawns := <[i := rv]> (spawns s); releasing := releasing s |}
      | None, (_, r) => {| reg := r; spawns := spawns s; releasing := releasing s |}
      | Some _, _ => s
      end
  | PickNickname i names preferred =>
      match spawns s !! i with
      | Some rv =>
          let '(_, rv, r) := ReserveAgentNicknameWithPreference picker names preferred rv (reg s) in
          {| reg := r; spawns := <[i := rv]> (spawns s); releasing := releasing s |}
      | None => s
      end
  | ReservePath i p =>
      match spawns s !! i with
      | Some rv =>
          let '(_, rv, r) := ReserveAgentPath p rv (reg s) in
          {| reg := r; spawns := <[i := rv]> (spawns s); releasing := releasing s |}
      | None => s
      end
  | CommitSpawn i metadata =>
      match spawns s !! i with
      | Some rv =>
          let '(rv, r) := Commit metadata rv (reg s) in
          {| reg := r; spawns := <[i := rv]> (spawns s); releasing := releasing s |}
      | None => s
      end
  | ReleaseBegin i =>
      match spawns s !! i with
      | Some rv =>
          let '(go_on, rv, r) := releasePath rv (reg s) in
          {| reg := r; spawns := <[i := rv]> (spawns s);
             releasing := if go_on : bool then <[i := tt]> (releasing s) else releasing s |}
      | None => s
      end
  | ReleaseEnd i =>
      match releasing s !! i with
      | Some _ => {| reg := decrementTotalCount (reg s); spawns := spawns s; releasing := delete i (releasing s) |}
      | None => s
      end
  | RootThread id => {| reg := RegisterRootThread id (reg s); spawns := spawns s; releasing := releasing s |}
  | ReleaseThread id => {| reg := ReleaseSpawnedThread id (reg s); spawns := spawns s; releasing := releasing s |}
  | UpdateTask id msg => {| reg := UpdateLastTaskMessage id msg (reg s); spawns := spawns s; releasing := releasing s |}
  end.

Definition acts (s : session) (l : list action) : session := foldl act s l.

End Session.

(** ** What is counted *)

(** A live agent that is not the root. *)
Definition counted (m : AgentMetadata) : bool :=
  match AgentID m with Some _ => negb (isRootPath (Path m)) | None => false end.

Definition live (r : Registry) : nat := count counted (agentTree r).
Definition pending (s : session) : nat := count active (spawns s).

(** Slots in use. *)
Definition in_use (s : session) : Z :=
  Z.of_nat (live (reg s)) + Z.of_nat (pending s) + Z.of_nat (size (releasing s)).

Section Laws.
Context `{MapOrder AgentMetadata} (picker : list gostring -> gostring).

Lemma counted_true m : counted m = true <-> AgentID m <> None /\ isRootPath (Path m) = false.
Proof. unfold counted. destruct (AgentID m), (isRootPath (Path m)); naive_solver. Qed.

Lemma LiveAgents_length r : length (LiveAgents r) = live r.
Proof.
  unfold LiveAgents, live. rewrite <- (count_list counted _ (range (agentTree r))) by apply range_perm.
  induction (range (agentTree r)) as [|[k m] es IH]; [done|]. cbn [fmap list_fmap snd].
  rewrite !filter_cons. cbn [snd]. pose proof (counted_true m).
  destruct (decide _) as [D|D], (decide (counted m = true)) as [D'|D']; simpl; [by f_equal|tauto|tauto|done].
Qed.

Lemma findEntry_Some id es key m : findEntry id es = Some (key, m) ->
  (key, m) ∈ es /\ AgentID m = Some id.
Proof.
  induction es as [|[k m'] es IH]; simpl; [done|]. unfold hasThreadID.
  case_bool_decide; [intros [= -> ->]; split; [by left|done]|].
  intros Hf. destruct (IH Hf). split; [by right|done].
Qed.

Lemma findEntry_None id es : findEntry id es = None -> forall key m, (key, m) ∈ es -> AgentID m <> Some id.
Proof.
  induction es as [|[k m'] es IH]; simpl; [set_solver|]. unfold hasThreadID.
  case_bool_decide; [done|]. intros Hf key m [?|?]%elem_of_cons; [by simplify_eq|eauto].
Qed.

Lemma found r id key m : findEntry id (range (agentTree r)) = Some (key, m) ->
  agentTree r !! key = Some m /\ AgentID m = Some id.
Proof. intros [Hin Hid]%findEntry_Some. by apply elem_of_range in Hin. Qed.

Lemma not_found r id : findEntry id (range (agentTree r)) = None ->
  forall key m, agentTree r !! key = Some m -> AgentID m <> Some id.
Proof. intros Hf key m Hk. eapply findEntry_None; [done|by apply elem_of_range]. Qed.

(** ** The effect of each operation on the count of live agents *)

Lemma live_insert r key old m : agentTree r !! key = old ->
  (live (set_agentTree (<[key := m]> (agentTree r)) r) + match old with Some u => Nat.b2n (counted u) | None => 0 end
   = live r + Nat.b2n (counted m))%nat.
Proof.
  intros Hk. unfold live. simpl. destruct old as [u|].
  - by apply count_insert.
  - rewrite count_insert_new by done. lia.
Qed.

Lemma live_root id r : live (RegisterRootThread id r) = live r.
Proof.
  unfold RegisterRootThread. destruct (agentTree r !! AgentPathRoot) eqn:E; [done|].
  pose proof (live_insert r AgentPathRoot None (rootMetadata id) E) as Hl.
  change (counted (rootMetadata id)) with false in Hl. simpl in Hl. lia.
Qed.

Lemma live_reservePath p r r' : reserveAgentPath p r = Ok r' -> live r' = live r /\ totalCount r' = totalCount r.
Proof.
  unfold reserveAgentPath. destruct (agentTree r !! path p) eqn:E; [done|]. intros [= <-]. split; [|done].
  pose proof (live_insert r (path p) None (placeholder p) E) as Hl. simpl in Hl. lia.
Qed.

Lemma live_releasePath p r : live (releaseReservedAgentPath p r) = live r.
Proof.
  unfold releaseReservedAgentPath. destruct (agentTree r !! path p) as [m|] eqn:E; [|done].
  destruct (AgentID m) eqn:Ei; [done|]. unfold live. simpl.
  rewrite (count_delete counted (agentTree r) _ _ E). unfold counted at 3. rewrite Ei. simpl. lia.
Qed.

Lemma live_update id msg r : live (UpdateLastTaskMessage id msg r) = live r.
Proof.
  unfold UpdateLastTaskMessage. destruct (findEntry _ _) as [[key m]|] eqn:E; [|done].
  apply found in E as [Hk _].
  pose proof (live_insert r key (Some m) (set_LastTaskMessage msg m) Hk) as Hl.
  change (counted (set_LastTaskMessage msg m)) with (counted m) in Hl. lia.
Qed.

Lemma live_register m r : (live (registerSpawnedThread m r) <= live r + 1)%nat.
Proof.
  unfold registerSpawnedThread. destruct (AgentID m) as [id|] eqn:Ei; [|lia].
  match goal with |- context [<[?k := m]> _] => set (key := k) end.
  pose proof (live_insert r key _ m eq_refl) as Hl. unfold live in *. simpl in *.
  destruct (counted m); simpl in Hl; lia.
Qed.

(** Releasing a live agent frees one slot, when one is taken. *)
Lemma release_thread_spec id r : Z.of_nat (live r) <= totalCount r ->
  let r' := ReleaseSpawnedThread id r in
  totalCount r' = totalCount r - (Z.of_nat (live r) - Z.of_nat (live r')) /\
  (live r' <= live r <= live r' + 1)%nat.
Proof.
  intros Hle. unfold ReleaseSpawnedThread. destruct (findEntry _ _) as [[key m]|] eqn:E; [|simpl; lia].
  apply found in E as [Hk Hid].
  assert (Hc : live r = (live (set_agentTree (delete key (agentTree r)) r) + Nat.b2n (counted m))%nat)
    by (apply count_delete, Hk).
  assert (Hm : counted m = negb (isRootPath (Path m))) by (unfold counted; by rewrite Hid).
  rewrite Hm in Hc. destruct (negb (isRootPath (Path m))); simpl in Hc.
  - simpl. assert (0 < totalCount r) by lia. destruct (Z.ltb_spec 0 (totalCount r)); [|lia].
    change (live (set_totalCount _ ?x)) with (live x). simpl. lia.
  - simpl. lia.
Qed.

(** The slots in use after one spawn has changed. *)
Lemma in_use_spawn s i rv rv' r' rel : spawns s !! i = Some rv ->
  in_use {| reg := r'; spawns := <[i := rv']> (spawns s); releasing := rel |} =
  in_use s + (Z.of_nat (live r') - Z.of_nat (live (reg s)))
  + (Z.b2z (active rv') - Z.b2z (active rv)) + (Z.of_nat (size rel) - Z.of_nat (size (releasing s))).
Proof.
  intros Hi. unfold in_use, pending. simpl. pose proof (count_insert active (spawns s) i rv rv' Hi).
  destruct (active rv), (active rv'); simpl in *; lia.
Qed.

Lemma in_use_reg s r' : in_use {| reg := r'; spawns := spawns s; releasing := releasing s |} =
  in_use s + (Z.of_nat (live r') - Z.of_nat (live (reg s))).
Proof. unfold in_use, pending. simpl. lia. Qed.

Lemma nickname_frame names preferred r : let '(_, r') := reserveAgentNickname picker names preferred r in
  live r' = live r /\ totalCount r' = totalCount r /\ agentTree r' = agentTree r.
Proof.
  unfold reserveAgentNickname. destruct (decide _); [done|]. destruct names; [done|].
  destruct (filter _ _); [|done]. by destruct (decide _).
Qed.

Lemma nickname_step s i rv names preferred : spawns s !! i = Some rv ->
  let s' := act picker s (PickNickname i names preferred) in
  in_use s' = in_use s /\ totalCount (reg s') = totalCount (reg s).
Proof.
  intros Hi. simpl. rewrite Hi. unfold ReserveAgentNicknameWithPreference.
  pose proof (nickname_frame names preferred (reg s)) as Hn. destruct (reserveAgentNickname _ _ _ _) as [n r].
  destruct Hn as (Hl & Ht & _). destruct (decide (n = [])); (split; [|done]);
    rewrite (in_use_spawn _ _ _ _ _ _ Hi); simpl; lia.
Qed.

Lemma path_step s i rv p : spawns s !! i = Some rv ->
  let s' := act picker s (ReservePath i p) in
  in_use s' = in_use s /\ totalCount (reg s') = totalCount (reg s).
Proof.
  intros Hi. simpl. rewrite Hi. unfold ReserveAgentPath.
  destruct (reserveAgentPath p (reg s)) as [r| |] eqn:Er;
    rewrite (in_use_spawn _ _ _ _ _ _ Hi); simpl; try lia.
  apply live_reservePath in Er as [-> ->]. lia.
Qed.

Lemma register_totalCount m r : totalCount (registerSpawnedThread m r) = totalCount r.
Proof. unfold registerSpawnedThread. by destruct (AgentID m). Qed.

Lemma releaseReserved_totalCount p r : totalCount (releaseReservedAgentPath p r) = totalCount r.
Proof. unfold releaseReservedAgentPath. by repeat case_match. Qed.

Lemma commit_step s i rv m : spawns s !! i = Some rv ->
  let s' := act picker s (CommitSpawn i m) in
  in_use s' = in_use s + (if active rv
    then Z.of_nat (live (registerSpawnedThread m (reg s))) - Z.of_nat (live (reg s)) - 1 else 0) /\
  totalCount (reg s') = totalCount (reg s).
Proof.
  intros Hi. simpl. rewrite Hi. unfold Commit. destruct (active rv) eqn:Ea;
    rewrite (in_use_spawn _ _ _ _ _ _ Hi), ?Ea; simpl; rewrite ?register_totalCount; lia.
Qed.

Lemma size_insert_unit (m : gmap nat unit) i : Z.of_nat (size (<[i := tt]> m)) =
  Z.of_nat (size m) + (if m !! i then 0 else 1).
Proof.
  destruct (m !! i) as [[]|] eqn:E.
  - rewrite map_size_insert_Some by eauto. lia.
  - rewrite map_size_insert_None by done. lia.
Qed.

(** A spawn whose release has begun is not counted twice when no release of
    the same spawn is under way. *)
Lemma release_step s i rv : spawns s !! i = Some rv ->
  let s' := act picker s (ReleaseBegin i) in
  in_use s' = in_use s - (if active rv then if releasing s !! i then 1 else 0 else 0) /\
  totalCount (reg s') = totalCount (reg s).
Proof.
  intros Hi. simpl. rewrite Hi. unfold releasePath. destruct (active rv) eqn:Ea.
  - destruct (reservedPath rv) as [p|]; rewrite (in_use_spawn _ _ _ _ _ _ Hi), Ea; cbn [reg active Z.b2z];
      rewrite size_insert_unit, ?live_releasePath, ?releaseReserved_totalCount; destruct (releasing s !! i); lia.
  - rewrite (in_use_spawn _ _ _ _ _ _ Hi). cbn [reg]. lia.
Qed.

Lemma decrement_step s i : in_use s <= totalCount (reg s) ->
  let s' := act picker s (ReleaseEnd i) in
  let d := if releasing s !! i then 1 else 0 in
  in_use s' = in_use s - d /\ totalCount (reg s') = totalCount (reg s) - d.
Proof.
  intros Hle. simpl. destruct (releasing s !! i) as [[]|] eqn:E; [|simpl; lia].
  assert (Hsz : Z.of_nat (size (releasing s)) = Z.of_nat (size (delete i (releasing s))) + 1).
  { rewrite <- (insert_delete_id (releasing s) i tt E) at 1. rewrite size_insert_unit, lookup_delete_eq. lia. }
  unfold decrementTotalCount, in_use, pending, live in *. simpl in *.
  destruct (Z.ltb_spec 0 (totalCount (reg s))); simpl; lia.
Qed.

Lemma reserve_step M s i : totalCount (reg s) <= M < 2 ^ 64 -> 0 <= totalCount (reg s) ->
  let s' := act picker s (Reserve i (Some M)) in
  (in_use s' - in_use s = totalCount (reg s') - totalCount (reg s)) /\ totalCount (reg s) <= totalCount (reg s') <= M.
Proof.
  intros HM H0. simpl. destruct (spawns s !! i) eqn:E; [simpl; lia|]. unfold tryIncrementSpawned.
  destruct (Z.leb_spec M (totalCount (reg s))); simpl; [unfold in_use, pending; simpl; lia|].
  unfold in_use, pending, live, wrap64. simpl. rewrite Z.mod_small, count_insert_new by (done || lia). simpl. lia.
Qed.

Lemma in_use_nonneg s : 0 <= in_use s.
Proof. unfold in_use. lia. Qed.

(** ** Slots never run below the agents they stand for *)

Definition slots_bounded (M : Z) (s : session) : Prop := in_use s <= totalCount (reg s) <= M.

Lemma act_bounded M s a : M < 2 ^ 64 -> (forall i max, a = Reserve i max -> max = Some M) ->
  slots_bounded M s -> slots_bounded M (act picker s a).
Proof.
  unfold slots_bounded. intros HM Hmax [Hlo Hhi]. pose proof (in_use_nonneg s).
  destruct a as [i max|i names pref|i p|i m|i|i|id|id|id msg].
  - rewrite (Hmax i max eq_refl). pose proof (reserve_step M s i ltac:(lia) ltac:(lia)) as Hr.
    cbv zeta in Hr. lia.
  - destruct (spawns s !! i) as [rv|] eqn:E; [|simpl; by rewrite E].
    destruct (nickname_step s i rv names pref E) as [-> ->]. lia.
  - destruct (spawns s !! i) as [rv|] eqn:E; [|simpl; by rewrite E].
    destruct (path_step s i rv p E) as [-> ->]. lia.
  - destruct (spawns s !! i) as [rv|] eqn:E; [|simpl; by rewrite E].
    destruct (commit_step s i rv m E) as [-> ->]. pose proof (live_register m (reg s)). destruct (active rv); lia.
  - destruct (spawns s !! i) as [rv|] eqn:E; [|simpl; by rewrite E].
    destruct (release_step s i rv E) as [-> ->]. destruct (active rv), (releasing s !! i); lia.
  - destruct (decrement_step s i Hlo) as [-> ->]. destruct (releasing s !! i); lia.
  - simpl. rewrite in_use_reg, live_root. unfold RegisterRootThread. destruct (agentTree (reg s) !! _); simpl; lia.
  - simpl. rewrite in_use_reg. pose proof (release_thread_spec id (reg s)) as Hr. cbv zeta in Hr.
    assert (Z.of_nat (live (reg s)) <= in_use s) by (unfold in_use; lia). lia.
  - simpl. rewrite in_use_reg, live_update. unfold UpdateLastTaskMessage.
    destruct (findEntry _ _) as [[]|]; simpl; lia.
Qed.

Lemma acts_bounded M l s : M < 2 ^ 64 -> (forall i max, Reserve i max ∈ l -> max = Some M) ->
  slots_bounded M s -> slots_bounded M (acts picker s l).
Proof.
  intros HM. revert s. induction l as [|a l IH]; intros s Hl Hs; [done|]. simpl. apply IH.
  - intros i max Hin. apply (Hl i). by right.
  - apply act_bounded; [done| |done]. intros i max ->. apply (Hl i). by left.
Qed.

(** ** Runs that use the registry as the control plane does *)

(** The key of an entry: its valid path, or its thread id. *)
Definition keyed (k : gostring) (m : AgentMetadata) : Prop :=
  match Path m with
  | Some p => k = path p /\ valid_path k
  | None => exists id, AgentID m = Some id /\ k = "thread:" ++ id
  end.

Record orderly (s : session) : Prop := {
  orderly_keys : forall k m, agentTree (reg s) !! k = Some m -> keyed k m;
  orderly_paths : forall i rv p, spawns s !! i = Some rv -> active rv = true -> reservedPath rv = Some p ->
    agentTree (reg s) !! path p = Some (placeholder p) /\ valid_path (path p) /\ path p <> AgentPathRoot;
  orderly_distinct : forall i j rv rw p, spawns s !! i = Some rv -> spawns s !! j = Some rw ->
    active rv = true -> active rw = true -> reservedPath rv = Some p -> reservedPath rw = Some p -> i = j;
  orderly_releasing : forall i u, releasing s !! i = Some u ->
    exists rv, spawns s !! i = Some rv /\ active rv = false;
}.

(** The discipline: the count does not wrap; at most one path per spawn, valid
    and not the root; a commit gives a thread id that is new to the registry
    and the path that was reserved. *)
Definition proper (s : session) (a : action) : Prop :=
  match a with
  | Reserve i (Some max) => max < 2 ^ 64
  | Reserve i None => totalCount (reg s) + 1 < 2 ^ 64
  | ReservePath i p => forall rv, spawns s !! i = Some rv ->
      active rv = true /\ reservedPath rv = None /\ valid_path (path p) /\ path p <> AgentPathRoot
  | CommitSpawn i m => forall rv, spawns s !! i = Some rv -> active rv = true ->
      Path m = reservedPath rv /\
      exists id, AgentID m = Some id /\
        forall k m', agentTree (reg s) !! k = Some m' -> AgentID m' <> Some id
  | _ => True
  end.

(** The entry that a proper commit overwrites is its own placeholder. *)
Lemma commit_key s i rv m : orderly s -> spawns s !! i = Some rv -> active rv = true ->
  proper s (CommitSpawn i m) ->
  exists key id, AgentID m = Some id /\ keyed key m /\
    (if decide (pathString m = []) then "thread:" ++ id else pathString m) = key /\
    isRootPath (Path m) = false /\
    agentTree (reg s) !! key = placeholder <$> reservedPath rv.
Proof.
  intros Ho Hi Ha Hp. destruct (Hp rv Hi Ha) as (Hpath & id & Hid & Hnew).
  destruct (reservedPath rv) as [p|] eqn:Er.
  - destruct (orderly_paths s Ho i rv p Hi Ha Er) as (Ht & Hv & Hr).
    exists (path p), id. unfold keyed, pathString. rewrite Hpath. split_and!; try done.
    + rewrite decide_False; [done|]. intros E. rewrite E in Hv. by apply absolute_head in Hv as [? ?].
    + simpl. unfold IsRoot. by apply bool_decide_eq_false_2.
  - exists ("thread:" ++ id), id. unfold keyed, pathString. rewrite Hpath. split_and!; try done; [by exists id|].
    simpl. destruct (agentTree (reg s) !! ("thread:" ++ id)) as [m'|] eqn:E; [|done]. exfalso.
    pose proof (orderly_keys s Ho _ _ E) as Hk. unfold keyed in Hk. destruct (Path m') as [q|].
    + destruct Hk as [_ Hv]. by apply absolute_head in Hv as [? ?].
    + destruct Hk as (id' & Hid' & Heq). apply (app_inv_head (str "thread:")) in Heq as <-. by apply (Hnew _ _ E).
Qed.

Lemma commit_exact s i rv m : orderly s -> spawns s !! i = Some rv -> active rv = true ->
  proper s (CommitSpawn i m) ->
  live (registerSpawnedThread m (reg s)) = (live (reg s) + 1)%nat.
Proof.
  intros Ho Hi Ha Hp. destruct (commit_key s i rv m Ho Hi Ha Hp) as (key & id & Hid & _ & Hkey & Hroot & Ht).
  unfold registerSpawnedThread. rewrite Hid, Hkey.
  pose proof (live_insert (set_nicknames (match AgentNickname m with Some n => {[n]} ∪ usedNicknames (reg s)
    | None => usedNicknames (reg s) end) (nicknameResetCount (reg s)) (reg s)) key _ m Ht) as Hl.
  assert (Hc : counted m = true) by (unfold counted; by rewrite Hid, Hroot).
  rewrite Hc in Hl. unfold live in *. simpl in *.
  destruct (reservedPath rv); simpl in Hl; lia.
Qed.

(** *** The discipline is kept *)

(** Replacing a spawn by one with the same state. *)
Lemma orderly_spawn s i rv rv' r' rel :
  orderly s -> spawns s !! i = Some rv ->
  (forall k m, agentTree r' !! k = Some m -> keyed k m) ->
  (active rv' = true -> active rv = true /\ forall p, reservedPath rv' = Some p ->
     agentTree r' !! path p = Some (placeholder p) /\ valid_path (path p) /\ path p <> AgentPathRoot /\
     forall j rw, j <> i -> spawns s !! j = Some rw -> active rw = true -> reservedPath rw <> Some p) ->
  (forall j rw p, j <> i -> spawns s !! j = Some rw -> active rw = true -> reservedPath rw = Some p ->
     agentTree r' !! path p = Some (placeholder p)) ->
  (forall j u, rel !! j = Some u -> (j = i /\ active rv' = false) \/ releasing s !! j = Some u) ->
  orderly {| reg := r'; spawns := <[i := rv']> (spawns s); releasing := rel |}.
Proof.
  intros Ho Hi Hk Hnew Hold Hrel. split; simpl; [done| | |].
  - intros j rw p [[<- <-]|[Hij Hj]]%lookup_insert_Some Ha Hp.
    + destruct (Hnew Ha) as [_ Hn]. destruct (Hn p Hp) as (? & ? & ? & _). done.
    + destruct (orderly_paths s Ho j rw p Hj Ha Hp) as (_ & ? & ?). split; [|done]. by apply (Hold j rw).
  - intros j k rw rx p Hj Hk' Ha Hb Hp Hq.
    apply lookup_insert_Some in Hj as [[<- <-]|[Hij Hj]], Hk' as [[<- <-]|[Hik Hk']]; [done|..].
    + destruct (Hnew Ha) as [_ Hn]. destruct (Hn p Hp) as (_ & _ & _ & Hx). by destruct (Hx k rx).
    + destruct (Hnew Hb) as [_ Hn]. destruct (Hn p Hq) as (_ & _ & _ & Hx). by destruct (Hx j rw).
    + by apply (orderly_distinct s Ho j k rw rx p).
  - intros j u Hj. destruct (decide (j = i)) as [->|Hne].
    + exists rv'. rewrite lookup_insert_eq. split; [done|].
      destruct (Hrel i u Hj) as [[_ ?]|Hr]; [done|].
      destruct (orderly_releasing s Ho i u Hr) as (rw & Hw & Hf). simplify_eq.
      destruct (active rv') eqn:E; [|done]. destruct (Hnew eq_refl). congruence.
    + destruct (Hrel j u Hj) as [[? _]|Hr]; [done|]. rewrite lookup_insert_ne by done.
      by apply (orderly_releasing s Ho j u).
Qed.

(** Changing the tree only. *)
Lemma orderly_tree s r' : orderly s ->
  (forall k m, agentTree r' !! k = Some m -> keyed k m) ->
  (forall i rv p, spawns s !! i = Some rv -> active rv = true -> reservedPath rv = Some p ->
     agentTree r' !! path p = Some (placeholder p)) ->
  orderly {| reg := r'; spawns := spawns s; releasing := releasing s |}.
Proof.
  intros [H1 H2 H3 H4] Hk Hp. split; simpl; [done| |done|done].
  intros i rv p Hi Ha Hr. destruct (H2 i rv p Hi Ha Hr) as (_ & ? & ?). split; [|done]. by eapply Hp.
Qed.

Lemma keyed_insert (t : gmap gostring AgentMetadata) k m : (forall k m, t !! k = Some m -> keyed k m) -> keyed k m ->
  forall k' m', <[k := m]> t !! k' = Some m' -> keyed k' m'.
Proof. intros Ht Hk k' m' [[<- <-]|[_ ?]]%lookup_insert_Some; auto. Qed.

Lemma keyed_delete (t : gmap gostring AgentMetadata) k : (forall k m, t !! k = Some m -> keyed k m) ->
  forall k' m', delete k t !! k' = Some m' -> keyed k' m'.
Proof. intros Ht k' m' [_ ?]%lookup_delete_Some. auto. Qed.

Lemma orderly_nickname s i rv n : orderly s -> spawns s !! i = Some rv ->
  forall r', agentTree r' = agentTree (reg s) ->
  orderly {| reg := r'; spawns := <[i := {| active := active rv; reservedNickname := n; reservedPath := reservedPath rv |}]> (spawns s);
             releasing := releasing s |}.
Proof.
  intros Ho Hi r' Ht. apply (orderly_spawn s i rv); simpl; [done|done|rewrite Ht; apply (orderly_keys s Ho)|..].
  - intros Ha. split; [done|]. intros p Hp. rewrite Ht.
    destruct (orderly_paths s Ho i rv p Hi Ha Hp) as (? & ? & ?). split_and!; try done.
    intros j rw Hj Hw Hb Hq. apply Hj. by apply (orderly_distinct s Ho j i rw rv p).
  - intros j rw p Hj Hw Hb Hq. rewrite Ht. by apply (orderly_paths s Ho j rw p).
  - intros j u Hj. by right.
Qed.

Lemma orderly_path s i p : orderly s -> proper s (ReservePath i p) -> orderly (act picker s (ReservePath i p)).
Proof.
  intros Ho Hp. simpl. destruct (spawns s !! i) as [rv|] eqn:Hi; [|done].
  destruct (Hp rv Hi) as (Ha & Hn & Hv & Hr). unfold ReserveAgentPath, reserveAgentPath.
  destruct (agentTree (reg s) !! path p) eqn:E; simpl.
  { rewrite insert_id by done. by destruct s. }
  apply (orderly_spawn s i rv); simpl; [done|done| | | |by right].
  - apply keyed_insert; [apply (orderly_keys s Ho)|]. done.
  - intros _. split; [done|]. intros q [= <-]. rewrite lookup_insert_eq. split_and!; try done.
    intros j rw Hj Hw Hb Hq. destruct (orderly_paths s Ho j rw p Hw Hb Hq) as (? & _). congruence.
  - intros j rw q Hj Hw Hb Hq. destruct (orderly_paths s Ho j rw q Hw Hb Hq) as (Ht & _).
    rewrite lookup_insert_ne; [done|congruence].
Qed.

Lemma orderly_commit s i m : orderly s -> proper s (CommitSpawn i m) -> orderly (act picker s (CommitSpawn i m)).
Proof.
  intros Ho Hp. simpl. destruct (spawns s !! i) as [rv|] eqn:Hi; [|done]. unfold Commit.
  destruct (active rv) eqn:Ha; [|rewrite insert_id by done; by destruct s].
  destruct (commit_key s i rv m Ho Hi Ha Hp) as (key & id & Hid & Hk & Hkey & _ & Ht).
  unfold registerSpawnedThread. rewrite Hid, Hkey.
  apply (orderly_spawn s i rv); simpl; [done|done| |done| |by right].
  - apply keyed_insert; [apply (orderly_keys s Ho)|done].
  - intros j rw q Hj Hw Hb Hq. destruct (orderly_paths s Ho j rw q Hw Hb Hq) as (Hq' & _).
    rewrite lookup_insert_ne; [done|]. intros ->. rewrite Hq' in Ht.
    destruct (reservedPath rv) as [p|] eqn:Er; [|done]. simpl in Ht. assert (p = q) as -> by (unfold placeholder in Ht; congruence).
    apply Hj. by apply (orderly_distinct s Ho j i rw rv q).
Qed.

Lemma orderly_release s i : orderly s -> orderly (act picker s (ReleaseBegin i)).
Proof.
  intros Ho. simpl. destruct (spawns s !! i) as [rv|] eqn:Hi; [|done]. unfold releasePath.
  destruct (active rv) eqn:Ha; [|rewrite insert_id by done; by destruct s].
  assert (Hrel : forall j u, <[i := tt]> (releasing s) !! j = Some u -> (j = i /\ false = false) \/ releasing s !! j = Some u).
  { intros j u [[<- _]|[_ ?]]%lookup_insert_Some; auto. }
  destruct (reservedPath rv) as [p|] eqn:Er.
  - destruct (orderly_paths s Ho i rv p Hi Ha Er) as (Ht & _). unfold releaseReservedAgentPath. rewrite Ht. simpl.
    apply (orderly_spawn s i rv); simpl; [done|done| |done| |done].
    + apply keyed_delete, (orderly_keys s Ho).
    + intros j rw q Hj Hw Hb Hq. destruct (orderly_paths s Ho j rw q Hw Hb Hq) as (Hq' & _).
      rewrite lookup_delete_ne; [done|]. intros E. rewrite E, Hq' in Ht. injection Ht as <-.
      apply Hj. by apply (orderly_distinct s Ho j i rw rv q).
  - apply (orderly_spawn s i rv); simpl; [done|done|apply (orderly_keys s Ho)|done| |done].
    intros j rw q _ Hw Hb Hq. by apply (orderly_paths s Ho j rw q).
Qed.

(** An entry with a thread id is no placeholder. *)
Lemma placeholder_other s id key m i rv p : orderly s ->
  findEntry id (range (agentTree (reg s))) = Some (key, m) ->
  spawns s !! i = Some rv -> active rv = true -> reservedPath rv = Some p -> key <> path p.
Proof.
  intros Ho [Hk Hid]%found Hi Ha Hr ->. destruct (orderly_paths s Ho i rv p Hi Ha Hr) as (Ht & _).
  rewrite Hk in Ht. by injection Ht as ->.
Qed.

Lemma orderly_reserve s i max : orderly s -> orderly (act picker s (Reserve i max)).
Proof.
  intros Ho. simpl. destruct (spawns s !! i) as [rv|] eqn:Hi; [done|].
  assert (Hr : let '(x, r) := ReserveSpawnSlot max (reg s) in
    agentTree r = agentTree (reg s) /\ forall rv, x = Ok rv -> reservedPath rv = None).
  { unfold ReserveSpawnSlot, tryIncrementSpawned.
    destruct max; [destruct (_ <=? _)|]; (split; [done|]); intros rv [= <-]; done. }
  destruct (ReserveSpawnSlot max (reg s)) as [[rv| |] r]; destruct Hr as [Ht Hnp].
  2,3: apply orderly_tree; rewrite ?Ht; [done|apply (orderly_keys s Ho)|]; intros; by eapply (orderly_paths s Ho).
  specialize (Hnp rv eq_refl). destruct Ho as [H1 H2 H3 H4]. split; simpl; rewrite ?Ht; [done| | |].
  - intros j rw p [[<- <-]|[_ ?]]%lookup_insert_Some ??; [congruence|eauto].
  - intros j k rw rx p Hj Hk Ha Hb Hq Hq'.
    apply lookup_insert_Some in Hj as [[<- <-]|[_ Hj]], Hk as [[<- <-]|[_ Hk]]; try congruence. by eapply H3.
  - intros j u Hj. destruct (H4 j u Hj) as (rw & Hw & Hf). exists rw. rewrite lookup_insert_ne; [done|congruence].
Qed.

Lemma orderly_release_thread s id : orderly s -> orderly (act picker s (ReleaseThread id)).
Proof.
  intros Ho. simpl. apply orderly_tree; [done|..]; unfold ReleaseSpawnedThread;
    destruct (findEntry id (range (agentTree (reg s)))) as [[key m]|] eqn:E; cbv zeta.
  - destruct (negb _ && _); apply keyed_delete, (orderly_keys s Ho).
  - apply (orderly_keys s Ho).
  - intros i rv p Hi Ha Hr. destruct (orderly_paths s Ho i rv p Hi Ha Hr) as (Ht & _).
    destruct (negb _ && _); simpl; rewrite lookup_delete_ne; try done; by eapply placeholder_other.
  - intros. by eapply (orderly_paths s Ho).
Qed.

Lemma orderly_update s id msg : orderly s -> orderly (act picker s (UpdateTask id msg)).
Proof.
  intros Ho. simpl. apply orderly_tree; [done|..]; unfold UpdateLastTaskMessage;
    destruct (findEntry id (range (agentTree (reg s)))) as [[key m]|] eqn:E; cbv zeta.
  - apply keyed_insert; [apply (orderly_keys s Ho)|]. apply found in E as [Hk _].
    exact (orderly_keys s Ho _ _ Hk).
  - apply (orderly_keys s Ho).
  - intros i rv p Hi Ha Hr. destruct (orderly_paths s Ho i rv p Hi Ha Hr) as (Ht & _).
    simpl. rewrite lookup_insert_ne; [done|]. by eapply placeholder_other.
  - intros. by eapply (orderly_paths s Ho).
Qed.

Lemma orderly_root s id : orderly s -> orderly (act picker s (RootThread id)).
Proof.
  intros Ho. simpl. apply orderly_tree; [done|..]; unfold RegisterRootThread;
    destruct (agentTree (reg s) !! AgentPathRoot) eqn:E; simpl.
  - apply (orderly_keys s Ho).
  - apply keyed_insert; [apply (orderly_keys s Ho)|]. split; [done|]. right. by exists [].
  - intros. by eapply (orderly_paths s Ho).
  - intros i rv p Hi Ha Hr. destruct (orderly_paths s Ho i rv p Hi Ha Hr) as (Ht & _ & Hne).
    rewrite lookup_insert_ne by congruence. done.
Qed.

Lemma act_orderly s a : orderly s -> proper s a -> orderly (act picker s a).
Proof.
  intros Ho Hp. destruct a as [i max|i names pref|i p|i m|i|i|id|id|id msg].
  - by apply orderly_reserve.
  - simpl. destruct (spawns s !! i) as [rv|] eqn:Hi; [|done]. unfold ReserveAgentNicknameWithPreference.
    pose proof (nickname_frame names pref (reg s)) as Hn. destruct (reserveAgentNickname _ _ _ _) as [n r].
    destruct Hn as (_ & _ & Ht). destruct (decide (n = [])).
    + pose proof (orderly_nickname s i rv (reservedNickname rv) Ho Hi r Ht) as H1. by destruct rv.
    + by apply orderly_nickname.
  - by apply orderly_path.
  - by apply orderly_commit.
  - by apply orderly_release.
  - simpl. destruct (releasing s !! i) as [u|] eqn:E; [|done].
    assert (agentTree (decrementTotalCount (reg s)) = agentTree (reg s)) as Ht
      by (unfold decrementTotalCount; by destruct (_ <? _)).
    destruct Ho as [H1 H2 H3 H4]. split; simpl; rewrite ?Ht; [done..|].
    intros j v [_ Hj]%lookup_delete_Some. by eapply H4.
  - by apply orderly_root.
  - by apply orderly_release_thread.
  - by apply orderly_update.
Qed.

(** ** No slot leaks *)

Definition slots_exact (s : session) : Prop := in_use s = totalCount (reg s).

Lemma act_exact s a : orderly s -> proper s a -> slots_exact s -> slots_exact (act picker s a).
Proof.
  unfold slots_exact. intros Ho Hp He. pose proof (in_use_nonneg s).
  destruct a as [i max|i names pref|i p|i m|i|i|id|id|id msg].
  - simpl. destruct (spawns s !! i) as [rv|] eqn:E; [done|]. unfold ReserveSpawnSlot, tryIncrementSpawned.
    simpl in Hp. destruct max as [max|]; [destruct (Z.leb_spec max (totalCount (reg s)))|];
      unfold in_use, pending, live, wrap64 in *; simpl in *; [done|..];
      rewrite Z.mod_small, count_insert_new by (done || lia); simpl; lia.
  - destruct (spawns s !! i) as [rv|] eqn:E; [|simpl; by rewrite E].
    destruct (nickname_step s i rv names pref E) as [-> ->]. done.
  - destruct (spawns s !! i) as [rv|] eqn:E; [|simpl; by rewrite E].
    destruct (path_step s i rv p E) as [-> ->]. done.
  - destruct (spawns s !! i) as [rv|] eqn:E; [|simpl; by rewrite E].
    destruct (commit_step s i rv m E) as [-> ->]. destruct (active rv) eqn:Ea; [|lia].
    rewrite (commit_exact s i rv m) by done. lia.
  - destruct (spawns s !! i) as [rv|] eqn:E; [|simpl; by rewrite E].
    destruct (release_step s i rv E) as [-> ->]. destruct (active rv) eqn:Ea; [|lia].
    destruct (releasing s !! i) as [u|] eqn:Er; [|lia].
    destruct (orderly_releasing s Ho i u Er) as (rw & Hw & Hf). congruence.
  - destruct (decrement_step s i) as [-> ->]; [lia|]. destruct (releasing s !! i); lia.
  - simpl. rewrite in_use_reg, live_root. unfold RegisterRootThread. destruct (agentTree (reg s) !! _); simpl; lia.
  - simpl. rewrite in_use_reg. pose proof (release_thread_spec id (reg s)) as Hr. cbv zeta in Hr.
    assert (Z.of_nat (live (reg s)) <= in_use s) by (unfold in_use; lia). lia.
  - simpl. rewrite in_use_reg, live_update. unfold UpdateLastTaskMessage.
    destruct (findEntry _ _) as [[]|]; simpl; lia.
Qed.

(** Runs of proper actions. *)
Inductive proper_run : session -> Prop :=
| proper_new : proper_run new_session
| proper_act s a : proper_run s -> proper s a -> proper_run (act picker s a).

Lemma proper_run_orderly s : proper_run s -> orderly s /\ slots_exact s.
Proof.
  induction 1 as [|s a _ [Ho He] Hp].
  - split; [|done]. split; simpl; intros *; rewrite ?lookup_empty; done.
  - split; [by apply act_orderly|by apply act_exact].
Qed.

(** C38: When every spawn reserves its slot with the limit [M], then after any
    interleaving of registry operations the slots in use (live agents other
    than the root, spawns under way, and releases half done) are at most the
    spawn count, which is at most [M]: never more than [M] agents are live, and
    a further reservation fails exactly when the count has reached [M]. *)
Theorem live_agents_bounded M l : 0 <= M < 2 ^ 64 ->
  (forall i max, Reserve i max ∈ l -> max = Some M) ->
  let s := acts picker new_session l in
  in_use s <= totalCount (reg s) <= M /\ Z.of_nat (length (LiveAgents (reg s))) <= M /\
  (fst (ReserveSpawnSlot (Some M) (reg s)) = Err {| MaxThreads := M |} <-> totalCount (reg s) = M).
Proof.
  intros HM Hl s. assert (Hs : slots_bounded M s).
  { apply acts_bounded; [lia|done|]. unfold slots_bounded. simpl. change (in_use new_session) with 0. lia. }
  destruct Hs as [Hlo Hhi]. split; [done|]. split; [|split].
  - rewrite LiveAgents_length. unfold in_use in Hlo. lia.
  - unfold ReserveSpawnSlot, tryIncrementSpawned. destruct (Z.leb_spec M (totalCount (reg s))); simpl; [lia|done].
  - intros E. unfold ReserveSpawnSlot, tryIncrementSpawned. rewrite E, Z.leb_refl. done.
Qed.

(** When the registry is used as the control plane uses it, the spawn count
    is exactly the number of slots in use in every reachable state, so no slot
    is lost: with no spawn under way it is the number of live agents. *)
Theorem spawn_count_exact s : proper_run s ->
  totalCount (reg s) = in_use s /\
  ((forall i rv, spawns s !! i = Some rv -> active rv = false) -> releasing s = ∅ ->
   totalCount (reg s) = Z.of_nat (length (LiveAgents (reg s)))).
Proof.
  intros [Ho He]%proper_run_orderly. split; [done|]. intros Hidle Hrel.
  unfold slots_exact, in_use in He. rewrite LiveAgents_length, <- He, Hrel, map_size_empty.
  assert (pending s = 0)%nat; [|lia]. unfold pending, count. apply map_size_empty_iff, map_empty.
  intros i. apply map_lookup_filter_None. right. intros rv Hi. simpl. rewrite (Hidle i rv Hi). done.
Qed.

(** ** Nicknames *)

(** The picker answers from the list it is given. *)
Definition picks : Prop := forall l, l <> [] -> picker l ∈ l.

(** An automatic nickname that comes from the pool is one of the candidates
    and not in use; when the pool is used up, the generation goes up by one
    and the record of the earlier ones is dropped. *)
Theorem nickname_from_pool names r : picks -> names <> [] ->
  let '(n, r') := reserveAgentNickname picker names [] r in
  n ∈ usedNicknames r' \/ n = [] /\ [] ∈ names /\ usedNicknames r' = ∅.
Proof.
  intros Hpick Hne. unfold reserveAgentNickname. rewrite decide_False by naive_solver.
  destruct names as [|x names]; [done|]. destruct (filter _ _) as [|c cs].
  - destruct (decide (picker (x :: names) = [])) as [E|E]; simpl; [right|left; set_solver].
    split_and!; [done| |done]. rewrite <- E. by apply Hpick.
  - left. simpl. set_solver.
Qed.

Theorem nickname_fresh names r : picks ->
  (exists name, name ∈ names /\ formatAgentNickname name (nicknameResetCount r) ∉ usedNicknames r) ->
  let '(n, r') := reserveAgentNickname picker names [] r in
  n ∉ usedNicknames r /\ (exists name, name ∈ names /\ n = formatAgentNickname name (nicknameResetCount r)) /\
  nicknameResetCount r' = nicknameResetCount r /\ usedNicknames r' = {[n]} ∪ usedNicknames r.
Proof.
  intros Hpick (name & Hin & Hfree). unfold reserveAgentNickname. rewrite decide_False by naive_solver.
  destruct names as [|x names]; [by apply elem_of_nil in Hin|].
  destruct (filter _ _) as [|c cs] eqn:E.
  - exfalso. apply (elem_of_nil (formatAgentNickname name (nicknameResetCount r))). rewrite <- E.
    apply list_elem_of_filter. split; [done|]. apply list_elem_of_fmap. eauto.
  - simpl. assert (Hp : picker (c :: cs) ∈ c :: cs) by (by apply Hpick).
    revert Hp. generalize (picker (c :: cs)). intros n Hp. rewrite <- E in Hp. apply list_elem_of_filter in Hp as [Hu Hc].
    apply list_elem_of_fmap in Hc as (y & Hy & Hyin).
    split; [done|]. split; [by exists y|done].
Qed.

(** Releasing a spawn frees its slot and its path, and keeps its nickname
    marked as used. *)
Lemma release_keeps_nickname s r : usedNicknames (Release s r).2 = usedNicknames r.
Proof.
  unfold Release, releasePath. destruct (active s); [|done].
  destruct (reservedPath s); unfold releaseReservedAgentPath, decrementTotalCount; repeat case_match; done.
Qed.

End Laws.

(** ** Examples *)

Definition first_pick (l : list gostring) : gostring := default [] (head l).

Definition spawn_one : list action :=
  [RootThread "t0"; Reserve 0 (Some 2); ReservePath 0 (MkPath "/root/a");
   PickNickname 0 [str "Ada"] []; CommitSpawn 0 {| AgentID := Some (str "t1"); Path := Some (MkPath "/root/a");
     AgentNickname := Some (str "Ada"); AgentRole := None; LastTaskMessage := None |};
   Reserve 1 (Some 2); ReservePath 1 (MkPath "/root/b"); ReleaseBegin 1; ReleaseEnd 1].

Definition ordered : MapOrder AgentMetadata := listed_order AgentMetadata.

Lemma live_agents_bounded_witness :
  (0 <= 2 < 2 ^ 64) /\
  let s := @acts ordered first_pick new_session spawn_one in
  in_use s <= totalCount (reg s) <= 2 /\ Z.of_nat (length (@LiveAgents ordered (reg s))) <= 2 /\
  (fst (ReserveSpawnSlot (Some 2) (reg s)) = Err {| MaxThreads := 2 |} <-> totalCount (reg s) = 2).
Proof.
  split; [lia|].
  refine (@live_agents_bounded ordered first_pick 2 spawn_one _ _); [lia|].
  intros i max Hin. unfold spawn_one in Hin.
  repeat (apply elem_of_cons in Hin as [Hin|Hin]; [by simplify_eq|]). by apply elem_of_nil in Hin.
Defined.

(** Properness, decided on a concrete action. *)
Definition proper_b (s : session) (a : action) : bool :=
  match a with
  | Reserve i (Some max) => max <? 2 ^ 64
  | Reserve i None => totalCount (reg s) + 1 <? 2 ^ 64
  | ReservePath i p =>
      match spawns s !! i with
      | Some rv => active rv && bool_decide (reservedPath rv = None) &&
                   bool_decide (validateAbsoluteAgentPath (path p) = None) && bool_decide (path p <> AgentPathRoot)
      | None => true
      end
  | CommitSpawn i m =>
      match spawns s !! i with
      | Some rv => negb (active rv) || bool_decide (Path m = reservedPath rv) &&
          match AgentID m with
          | Some id => forallb (fun kv : gostring * AgentMetadata => negb (bool_decide (AgentID kv.2 = Some id)))
                               (map_to_list (agentTree (reg s)))
          | None => false
          end
      | None => true
      end
  | _ => true
  end.

Lemma proper_b_sound s a : proper_b s a = true -> proper s a.
Proof.
  destruct a as [i [max|]|i names pref|i p|i m|i|i|id|id|id msg]; simpl; try done; intros Hb; breflect; [done|done|..].
  - intros rv Hi. rewrite Hi in Hb. breflect. split_and!; try done. by apply validateAbsoluteAgentPath_None.
  - intros rv Hi Ha. rewrite Hi, Ha in Hb. simpl in Hb. breflect. split; [done|].
    destruct (AgentID m) as [id|]; [|done]. exists id. split; [done|]. intros k m' Hk E.
    match goal with H : forallb _ _ = true |- _ => rewrite forallb_forall in H; specialize (H (k, m')) end.
    rewrite <- list_elem_of_In, elem_of_map_to_list in *. simpl in *.
    rewrite bool_decide_eq_true_2 in * by done. naive_solver.
Qed.

Fixpoint all_proper (s : session) (l : list action) : bool :=
  match l with [] => true | a :: l => proper_b s a && all_proper (@act ordered first_pick s a) l end.

Lemma all_proper_run l s : @proper_run ordered first_pick s -> all_proper s l = true ->
  @proper_run ordered first_pick (@acts ordered first_pick s l).
Proof.
  revert s. induction l as [|a l IH]; intros s Hs Hl; simpl in *; [done|]. breflect.
  apply IH; [|done]. apply proper_act; [done|]. by apply proper_b_sound.
Qed.

Lemma spawn_count_exact_witness :
  let s := @acts ordered first_pick new_session spawn_one in
  @proper_run ordered first_pick s /\
  (totalCount (reg s) = in_use s /\
   ((forall i rv, spawns s !! i = Some rv -> active rv = false) -> releasing s = ∅ ->
    totalCount (reg s) = Z.of_nat (length (@LiveAgents ordered (reg s))))).
Proof.
  intros s. assert (Hr : @proper_run ordered first_pick s)
    by (apply all_proper_run; [apply proper_new|by vm_compute]).
  split; [exact Hr|]. exact (@spawn_count_exact ordered first_pick s Hr).
Defined.

Example spawn_one_count :
  totalCount (reg (@acts ordered first_pick new_session spawn_one)) = 1.
Proof. vm_compute. reflexivity. Qed.

End Registry.
