(* ===== verification/AgentControl.v ===== *)
(** * internal/multiagent: the control plane of a session's agents

    [control.go], [engine.go], [status.go], [input_preview.go], the depth rules
    of [metadata.go] and the session sources of [internal/rollout].  The control
    plane spawns, feeds, lists and closes agents.  It works on a thread engine
    and on a graph store, both interfaces, and on the registry.  Operations pass
    the state explicitly; each runs to its end, the interleavings of registry
    operations being those of [AgentRegistry]. *)

From stdpp Require Import base list gmap sorting.
From S2P Require Import Prelude GoStrings GoText GoOrder AgentPath AgentGraph AgentRegistry.

Open Scope Z_scope.

(** The parts of the types of other packages that the control plane carries
    without looking at them. *)
Class Payload := {
  OpRest : Type;
  CommunicationRest : Type;
  ConfigurationRest : Type;
  TurnEnvironment : Type;
}.

Module Control.
Import AgentPath Graph Registry.

(** ** rollout/source.go, rollout/subagent.go *)

Inductive SubAgentSourceKind :=
| SubAgentReview | SubAgentCompact | SubAgentThreadSpawn | SubAgentMemoryConsolidation | SubAgentOther.

Record ThreadSpawnSource := {
  ParentThreadID : ThreadID;
  Depth : Z;
  SpawnPath : option AgentPath;
  SpawnNickname : option gostring;
  SpawnRole : option gostring;
}.

Record SubAgentSource := {
  SubKind : SubAgentSourceKind;
  ThreadSpawn : option ThreadSpawnSource;
  Other : gostring;
}.

Inductive SessionSourceKind :=
| SourceCli | SourceVSCode | SourceExec | SourceMcp | SourceCustom | SourceInternal | SourceSubAgent | SourceUnknown.

Record SessionSource := {
  SourceKind : SessionSourceKind;
  Custom : gostring;
  Internal : option gostring;
  SubAgent : option SubAgentSource;
}.

#[export] Instance SubAgentSourceKind_eq_dec : EqDecision SubAgentSourceKind.
Proof. solve_decision. Defined.
#[export] Instance SessionSourceKind_eq_dec : EqDecision SessionSourceKind.
Proof. solve_decision. Defined.

(** The thread-spawn data, where every guard of the source holds. *)
Definition threadSpawnOf (source : SessionSource) : option ThreadSpawnSource :=
  if decide (SourceKind source = SourceSubAgent)
  then match SubAgent source with
       | Some sub => if decide (SubKind sub = SubAgentThreadSpawn) then ThreadSpawn sub else None
       | None => None
       end
  else None.

(** [AgentPath] reads through the thread-spawn pointer without a nil check. *)
Definition SourceAgentPath (s : SessionSource) : result AgentError (option AgentPath) :=
  if decide (SourceKind s = SourceSubAgent)
  then match SubAgent s with
       | Some sub =>
           if decide (SubKind sub = SubAgentThreadSpawn)
           then match ThreadSpawn sub with Some sp => Ok (SpawnPath sp) | None => Panic end
           else Ok None
       | None => Ok None
       end
  else Ok None.

Inductive ThreadSource := ThreadSourceSubagent.

(** ** metadata.go: depths, as [int32] *)

Definition maxInt32 : Z := 2 ^ 31 - 1.

Definition sessionDepth (source : SessionSource) : Z :=
  match threadSpawnOf source with Some spawn => Depth spawn | None => 0 end.

Definition NextThreadSpawnDepth (source : SessionSource) : Z :=
  let depth := sessionDepth source in if depth =? maxInt32 then depth else depth + 1.

Definition ExceedsThreadSpawnDepthLimit (depth maxDepth : Z) : bool := maxDepth <? depth.

Definition threadSpawnParentThreadID (source : SessionSource) : option ThreadID :=
  ParentThreadID <$> threadSpawnOf source.

(** ** status.go *)

Inductive AgentStatus :=
| StatusPendingInit | StatusRunning | StatusInterrupted
| StatusCompleted (message : option gostring) | StatusErrored (message : gostring)
| StatusShutdown | StatusNotFound.

#[export] Instance AgentStatus_eq_dec : EqDecision AgentStatus.
Proof. solve_decision. Defined.

Inductive TurnAbortReason := ReasonInterrupted | ReasonBudgetLimited | ReasonOther (name : gostring).

(** The events that status tracking looks at, with their optional payloads. *)
Inductive EventMsg :=
| TurnStarted
| TurnComplete (lastAgentMessage : option (option gostring))
| TurnAborted (reason : option TurnAbortReason)
| ErrorEvent (message : option gostring)
| ShutdownComplete
| OtherEvent.

Definition StatusFromEvent (msg : EventMsg) : option AgentStatus :=
  match msg with
  | TurnStarted => Some StatusRunning
  | TurnComplete payload => Some (StatusCompleted (m ← payload; m))
  | TurnAborted payload =>
      match default ReasonInterrupted payload with
      | ReasonInterrupted | ReasonBudgetLimited => Some StatusInterrupted
      | ReasonOther name => Some (StatusErrored name)
      end
  | ErrorEvent payload => Some (StatusErrored (default [] payload))
  | ShutdownComplete => Some StatusShutdown
  | OtherEvent => None
  end.

Definition IsFinal (status : AgentStatus) : bool :=
  match status with StatusPendingInit | StatusRunning | StatusInterrupted => false | _ => true end.

(** ** input_preview.go *)

Inductive UserInput :=
| InputText (text : gostring)
| InputImage
| InputLocalImage (path : gostring)
| InputSkill (name path : gostring)
| InputMention (name path : gostring)
| InputOther.

Definition renderUserInputItem (item : UserInput) : gostring :=
  match item with
  | InputText text => text
  | InputImage => "[image]"
  | InputLocalImage p => "[local_image:" ++ p ++ "]"
  | InputSkill name p => "[skill:$" ++ name ++ "](" ++ p ++ ")"
  | InputMention name p => "[mention:$" ++ name ++ "](" ++ p ++ ")"
  | InputOther => "[input]"
  end.

Section Types.
Context `{Payload}.

Record InterAgentCommunication := { Content : gostring; communicationRest : CommunicationRest }.

Inductive Op :=
| OpUserInput (items : list UserInput) (rest : OpRest)
| OpInterAgentCommunication (communication : option InterAgentCommunication)
| OpInterrupt
| OpOther (rest : OpRest).

Definition renderInputPreview (op : Op) : gostring :=
  match op with
  | OpUserInput items _ => join [nl] (renderUserInputItem <$> items)
  | OpInterAgentCommunication (Some c) => Content c
  | OpInterAgentCommunication None => []
  | _ => []
  end.

Record SessionConfiguration := {
  ConfigSource : SessionSource;
  Environments : list TurnEnvironment;
  configurationRest : ConfigurationRest;
}.

Definition withSource (cfg : SessionConfiguration) (source : SessionSource)
    (environments : option (list TurnEnvironment)) : SessionConfiguration :=
  {| ConfigSource := source;
     Environments := default (Environments cfg) environments;
     configurationRest := configurationRest cfg |}.

Definition subagentThreadSource (source : SessionSource) : option ThreadSource :=
  if decide (SourceKind source = SourceSubAgent) then Some ThreadSourceSubagent else None.

(** *** Options *)

Record ForkMode := { FullHistory : bool; LastNTurns : Z }.

Inductive ForkSnapshot := ForkInterrupted | ForkBeforeNthUserMessage (n : Z).

Definition forkSnapshotForMode (mode : ForkMode) : ForkSnapshot :=
  if negb (FullHistory mode) && (0 <? LastNTurns mode)
  then ForkBeforeNthUserMessage (LastNTurns mode) else ForkInterrupted.

Record SpawnOptions := {
  Fork : option ForkMode;
  ForkParentRolloutPath : gostring;
  OptEnvironments : option (list TurnEnvironment);
}.

Record StartThreadOptions := {
  Configuration : SessionConfiguration;
  StartSource : option SessionSource;
  StartThreadSource : option ThreadSource;
}.

(** *** engine.go: the interface to the thread engine *)

Inductive EngineError := ErrThreadNotFound | ErrInternalAgentDied | ErrOtherEngine (text : gostring).

Class ThreadEngine (E : Type) := {
  Thread : Type;
  StartThreadWithOptions : StartThreadOptions -> E -> result EngineError ThreadID * E;
  ResumeThreadByID : SessionConfiguration -> ThreadID -> SessionSource -> E -> result EngineError ThreadID * E;
  ForkThread : ForkSnapshot -> SessionConfiguration -> gostring -> option ThreadSource -> bool -> E ->
    result EngineError ThreadID * E;
  GetThread : ThreadID -> E -> result EngineError Thread;
  RemoveThread : ThreadID -> E -> E;
  Submit : Thread -> Op -> E -> result EngineError gostring * E;
  ThreadStatus : Thread -> E -> AgentStatus;
  ShutdownAndWait : Thread -> E -> option EngineError * E;
}.

(** *** errors.go *)

Inductive ControlError :=
| LimitReached (e : AgentLimitError)
| Unsupported (e : AgentError)
| Fatal (detail : gostring)
| EngineFailed (doing : gostring) (e : EngineError)
| GraphFailed (doing : gostring) (e : GraphError).

End Types.

(** Replaces the error of a result. *)
Definition map_err {E E' A} (f : E -> E') (r : result E A) : result E' A :=
  match r with Ok a => Ok a | Err e => Err (f e) | Panic => Panic end.

(** ** control.go *)

Record LiveAgent := { LiveThreadID : ThreadID; Metadata : AgentMetadata; Status : AgentStatus }.

Record ListedAgent := { AgentName : gostring; ListedStatus : AgentStatus; ListedTaskMessage : option gostring }.

Definition rootLastTaskMessage : gostring := "Main thread".

(** The mutable state behind a control plane. *)
Record ControlState (E G : Type) := { engine : E; graph : G; registry : Registry }.
Arguments engine {E G} _.
Arguments graph {E G} _.
Arguments registry {E G} _.

(** Its constant fields. *)
Record ControlConfig := {
  maxThreads : option Z;
  nicknameCandidates : gostring -> list gostring;
  picker : list gostring -> gostring;
}.

(** Path, then thread id. *)
Definition threadIDKey (id : option ThreadID) : gostring := default [] id.

Definition agent_le (l m : AgentMetadata) : Prop :=
  if decide (pathString l = pathString m)
  then str_le (threadIDKey (AgentID l)) (threadIDKey (AgentID m))
  else str_le (pathString l) (pathString m).

#[export] Instance agent_le_dec : RelDecision agent_le.
Proof. intros l m. unfold agent_le. destruct (decide _); apply _. Defined.

Section Control.
Context `{!Payload} {E G : Type} `{!ThreadEngine E} `{!AgentGraphStore G} `{!MapOrder AgentMetadata}.
Context (cfg : ControlConfig).

Definition state := ControlState E G.
Definition set_engine (e : E) (c : state) : state := {| engine := e; graph := graph c; registry := registry c |}.
Definition set_graph (g : G) (c : state) : state := {| engine := engine c; graph := g; registry := registry c |}.
Definition set_registry (r : Registry) (c : state) : state := {| engine := engine c; graph := graph c; registry := r |}.

Definition RegisterSessionRoot (currentThreadID : ThreadID) (currentSource : SessionSource) (c : state) : state :=
  match threadSpawnParentThreadID currentSource with
  | None => set_registry (RegisterRootThread currentThreadID (registry c)) c
  | Some _ => c
  end.

(** The resolved source and the seed of the metadata; a thread spawn reserves
    its path and a nickname. *)
Definition prepareSource (rv : SpawnReservation) (source : SessionSource) (r : Registry) :
    result ControlError (SessionSource * AgentMetadata) * SpawnReservation * Registry :=
  match threadSpawnOf source with
  | None => (Ok (source, emptyMetadata), rv, r)
  | Some spawn =>
      let r := if Depth spawn =? 1 then RegisterRootThread (ParentThreadID spawn) r else r in
      let '(reserved, rv, r) :=
        match SpawnPath spawn with
        | Some p => ReserveAgentPath p rv r
        | None => (Ok tt, rv, r)
        end in
      match reserved with
      | Err e => (Err (Unsupported e), rv, r)
      | Panic => (Panic, rv, r)
      | Ok _ =>
          let role := default [] (SpawnRole spawn) in
          let preferred := default [] (SpawnNickname spawn) in
          let '(picked, rv, r) :=
            ReserveAgentNicknameWithPreference (picker cfg) (nicknameCandidates cfg role) preferred rv r in
          match picked with
          | Err e => (Err (Unsupported e), rv, r)
          | Panic => (Panic, rv, r)
          | Ok nickname =>
              let spawn' := {| ParentThreadID := ParentThreadID spawn; Depth := Depth spawn;
                               SpawnPath := SpawnPath spawn; SpawnNickname := Some nickname;
                               SpawnRole := SpawnRole spawn |} in
              (Ok ({| SourceKind := SourceSubAgent; Custom := []; Internal := None;
                      SubAgent := Some {| SubKind := SubAgentThreadSpawn; ThreadSpawn := Some spawn'; Other := [] |} |},
                   {| AgentID := None; Path := SpawnPath spawn; AgentNickname := Some nickname;
                      AgentRole := SpawnRole spawn; LastTaskMessage := None |}), rv, r)
          end
      end
  end.

Definition spawnForkedThread (conf : SessionConfiguration) (source : SessionSource) (fork : ForkMode)
    (options : SpawnOptions) (e : E) : result ControlError ThreadID * E :=
  if decide (ForkParentRolloutPath options = []) then (Err (Fatal "spawn_agent fork requires a parent rollout path"), e)
  else if decide (SourceKind source = SourceSubAgent /\ SubKind <$> SubAgent source = Some SubAgentThreadSpawn)
       then let '(r, e) := ForkThread (forkSnapshotForMode fork) (withSource conf source (OptEnvironments options))
                             (ForkParentRolloutPath options) (subagentThreadSource source) false e in
            (map_err (EngineFailed []) r, e)
       else (Err (Fatal "spawn_agent fork requires a thread-spawn session source"), e).

Definition spawnThread (conf : SessionConfiguration) (source : SessionSource) (options : SpawnOptions) (e : E) :
    result ControlError ThreadID * E :=
  match Fork options with
  | Some fork => spawnForkedThread conf source fork options e
  | None =>
      let '(r, e) := StartThreadWithOptions
        {| Configuration := withSource conf source (OptEnvironments options);
           StartSource := Some source; StartThreadSource := subagentThreadSource source |} e in
      (map_err (EngineFailed []) r, e)
  end.

Definition persistThreadSpawnEdge (childThreadID : ThreadID) (source : SessionSource) (c : state) :
    result ControlError unit * state :=
  match threadSpawnParentThreadID source with
  | None => (Ok tt, c)
  | Some parentThreadID =>
      let '(r, g) := UpsertThreadSpawnEdge parentThreadID childThreadID ThreadSpawnEdgeStatusOpen (graph c) in
      (map_err (GraphFailed ("multiagent: persist spawn edge for " ++ childThreadID)) r, set_graph g c)
  end.

(** A dead agent is removed from the engine and from the registry. *)
Definition sendOp (agentID : ThreadID) (op : Op) (c : state) : result ControlError gostring * state :=
  match GetThread agentID (engine c) with
  | Err e => (Err (EngineFailed ("multiagent: get agent " ++ agentID) e), c)
  | Panic => (Panic, c)
  | Ok thread =>
      let '(r, e) := Submit thread op (engine c) in
      let c := set_engine e c in
      match r with
      | Ok subID => (Ok subID, c)
      | Panic => (Panic, c)
      | Err err =>
          let c := match err with
                   | ErrInternalAgentDied =>
                       set_registry (ReleaseSpawnedThread agentID (registry c)) (set_engine (RemoveThread agentID (engine c)) c)
                   | _ => c
                   end in
          (Err (EngineFailed ("multiagent: submit to agent " ++ agentID) err), c)
      end
  end.

(** Sends the operation, then records the preview. *)
Definition sendWithPreview (agentID : ThreadID) (op : Op) (preview : gostring) (c : state) :
    result ControlError gostring * state :=
  let '(r, c) := sendOp agentID op c in
  match r with
  | Ok subID => (Ok subID, set_registry (UpdateLastTaskMessage agentID preview (registry c)) c)
  | r => (r, c)
  end.

Definition SendInput (agentID : ThreadID) (op : Op) (c : state) : result ControlError gostring * state :=
  sendWithPreview agentID op (renderInputPreview op) c.

Definition SendInterAgentCommunication (agentID : ThreadID) (communication : InterAgentCommunication) (c : state) :
    result ControlError gostring * state :=
  sendWithPreview agentID (OpInterAgentCommunication (Some communication)) (Content communication) c.

Definition InterruptAgent (agentID : ThreadID) (c : state) : result ControlError gostring * state :=
  sendOp agentID OpInterrupt c.

Definition GetStatus (agentID : ThreadID) (c : state) : AgentStatus :=
  match GetThread agentID (engine c) with Ok thread => ThreadStatus thread (engine c) | _ => StatusNotFound end.

(** What the deferred function of a spawn does when it has not committed. *)
Definition abandon {A} (r : result ControlError A) (rv : SpawnReservation) (c : state) : result ControlError A * state :=
  (r, set_registry (snd (Release rv (registry c))) c).

Definition SpawnAgent (conf : SessionConfiguration) (initialOp : Op) (source : SessionSource) (options : SpawnOptions)
    (c : state) : result ControlError LiveAgent * state :=
  let '(slot, r) := ReserveSpawnSlot (maxThreads cfg) (registry c) in
  let c := set_registry r c in
  match slot with
  | Err e => (Err (LimitReached e), c)
  | Panic => (Panic, c)
  | Ok rv =>
      let '(prepared, rv, r) := prepareSource rv source (registry c) in
      let c := set_registry r c in
      match prepared with
      | Err e => abandon (Err e) rv c
      | Panic => abandon Panic rv c
      | Ok (resolvedSource, metadata) =>
          let '(spawned, e) := spawnThread conf resolvedSource options (engine c) in
          let c := set_engine e c in
          match spawned with
          | Err e => abandon (Err e) rv c
          | Panic => abandon Panic rv c
          | Ok id =>
              let metadata := set_AgentID id metadata in
              let c := set_registry (snd (Commit metadata rv (registry c))) c in
              let '(persisted, c) := persistThreadSpawnEdge id resolvedSource c in
              match persisted with
              | Err e => (Err e, c)
              | Panic => (Panic, c)
              | Ok _ =>
                  let '(sent, c) := SendInput id initialOp c in
                  match sent with
                  | Err e => (Err e, c)
                  | Panic => (Panic, c)
                  | Ok _ => (Ok {| LiveThreadID := id; Metadata := metadata; Status := GetStatus id c |}, c)
                  end
              end
          end
      end
  end.

Definition ResumeAgent (conf : SessionConfiguration) (threadID : ThreadID) (source : SessionSource) (c : state) :
    result ControlError unit * state :=
  let '(slot, r) := ReserveSpawnSlot (maxThreads cfg) (registry c) in
  let c := set_registry r c in
  match slot with
  | Err e => (Err (LimitReached e), c)
  | Panic => (Panic, c)
  | Ok rv =>
      let '(prepared, rv, r) := prepareSource rv source (registry c) in
      let c := set_registry r c in
      match prepared with
      | Err e => abandon (Err e) rv c
      | Panic => abandon Panic rv c
      | Ok (resolvedSource, metadata) =>
          let '(resumed, e) := ResumeThreadByID (withSource conf resolvedSource None) threadID resolvedSource (engine c) in
          let c := set_engine e c in
          match resumed with
          | Err e => abandon (Err (EngineFailed ("multiagent: resume agent " ++ threadID) e)) rv c
          | Panic => abandon Panic rv c
          | Ok id =>
              let c := set_registry (snd (Commit (set_AgentID id metadata) rv (registry c))) c in
              persistThreadSpawnEdge id resolvedSource c
          end
      end
  end.

(** The agent is removed whether or not its shutdown succeeded. *)
Definition ShutdownLiveAgent (agentID : ThreadID) (c : state) : option EngineError * state :=
  let '(shutdownErr, e) :=
    match GetThread agentID (engine c) with
    | Ok thread =>
        if decide (ThreadStatus thread (engine c) = StatusShutdown) then (None, engine c)
        else ShutdownAndWait thread (engine c)
    | _ => (None, engine c)
    end in
  (shutdownErr, {| engine := RemoveThread agentID e; graph := graph c;
                   registry := ReleaseSpawnedThread agentID (registry c) |}).

(** The loop over the descendants stops at the first error. *)
Fixpoint shutdownDescendants (ids : list ThreadID) (c : state) : option EngineError * state :=
  match ids with
  | [] => (None, c)
  | id :: ids =>
      let '(err, c) := ShutdownLiveAgent id c in
      match err with Some e => (Some e, c) | None => shutdownDescendants ids c end
  end.

Definition shutdown_result (err : option EngineError) : result ControlError unit :=
  match err with Some e => Err (EngineFailed [] e) | None => Ok tt end.

Definition shutdownAgentTree (agentID : ThreadID) (c : state) : result ControlError unit * state :=
  match ListThreadSpawnDescendants agentID None (graph c) with
  | Err e => (Err (GraphFailed ("multiagent: list descendants for " ++ agentID) e), c)
  | Panic => (Panic, c)
  | Ok descendants =>
      let '(result, c) := ShutdownLiveAgent agentID c in
      let '(err, c) := shutdownDescendants descendants c in
      match err with
      | Some _ => (shutdown_result err, c)
      | None => (shutdown_result result, c)
      end
  end.

Definition CloseAgent (agentID : ThreadID) (c : state) : result ControlError unit * state :=
  let known := bool_decide (AgentMetadataForThread agentID (registry c) <> None) in
  let '(closed, g) := SetThreadSpawnEdgeStatus agentID ThreadSpawnEdgeStatusClosed (graph c) in
  let c := set_graph g c in
  match closed with
  | Err e => if known then shutdownAgentTree agentID c
             else (Err (GraphFailed ("multiagent: persist closed edge for " ++ agentID) e), c)
  | Panic => (Panic, c)
  | Ok _ => shutdownAgentTree agentID c
  end.

Definition GetAgentMetadata (agentID : ThreadID) (c : state) : option AgentMetadata :=
  AgentMetadataForThread agentID (registry c).

(** The path of the current session, the root by default. *)
Definition basePath (currentSource : SessionSource) : result ControlError AgentPath :=
  p ← map_err Unsupported (SourceAgentPath currentSource); Ok (default AgentPathRootValue p).

Definition ResolveAgentReference (currentSource : SessionSource) (reference : gostring) (c : state) :
    result ControlError ThreadID :=
  base ← basePath currentSource;
  p ← map_err Unsupported (resolveAgentPath base reference);
  match AgentIDForPath p (registry c) with
  | Some id => Ok id
  | None => Err (Unsupported (UnsupportedOperation ("live agent path `" ++ path p ++ "` not found")))
  end.

Definition ListLiveSubtreeThreadIDs (agentID : ThreadID) (c : state) : result ControlError (list ThreadID) :=
  match ListThreadSpawnDescendants agentID None (graph c) with
  | Err e => Err (GraphFailed ("multiagent: list subtree for " ++ agentID) e)
  | Panic => Panic
  | Ok descendants => Ok (agentID :: descendants)
  end.

Definition under (resolvedPrefix : option AgentPath) (p : option AgentPath) : bool :=
  match resolvedPrefix with None => true | Some prefix => agentMatchesPrefix p prefix end.

Definition listAgent (resolvedPrefix : option AgentPath) (c : state) (m : AgentMetadata) : option ListedAgent :=
  match AgentID m with
  | None => None
  | Some id =>
      if under resolvedPrefix (Path m)
      then match GetThread id (engine c) with
           | Ok thread => Some {| AgentName := match Path m with Some p => path p | None => id end;
                                  ListedStatus := ThreadStatus thread (engine c);
                                  ListedTaskMessage := LastTaskMessage m |}
           | _ => None
           end
      else None
  end.

Definition listRoot (resolvedPrefix : option AgentPath) (c : state) : list ListedAgent :=
  if under resolvedPrefix (Some AgentPathRootValue)
  then match AgentIDForPath AgentPathRootValue (registry c) with
       | Some rootID =>
           match GetThread rootID (engine c) with
           | Ok thread => [{| AgentName := AgentPathRoot; ListedStatus := ThreadStatus thread (engine c);
                              ListedTaskMessage := Some rootLastTaskMessage |}]
           | _ => []
           end
       | None => []
       end
  else [].

Definition ListAgents (currentSource : SessionSource) (pathPrefix : option gostring) (c : state) :
    result ControlError (list ListedAgent) :=
  resolvedPrefix ← match pathPrefix with
                   | None => Ok None
                   | Some reference =>
                       base ← basePath currentSource;
                       prefix ← map_err Unsupported (resolveAgentPath base reference);
                       Ok (Some prefix)
                   end;
  Ok (listRoot resolvedPrefix c ++
      omap (listAgent resolvedPrefix c) (merge_sort agent_le (LiveAgents (registry c)))).

End Control.

(** ** Spawns keep the slots exact *)

(** A registry between operations: no spawn is under way, and the count is the
    number of live agents. *)
Definition quiet (r : Registry) : session := {| reg := r; spawns := ∅; releasing := ∅ |}.
Definition registry_ok (r : Registry) : Prop := orderly (quiet r) /\ slots_exact (quiet r).

(** One spawn under way. *)
Definition one (r : Registry) (rv : SpawnReservation) : session :=
  {| reg := r; spawns := {[0%nat := rv]}; releasing := ∅ |}.
Definition spawning (r : Registry) (rv : SpawnReservation) : Prop :=
  active rv = true /\ orderly (one r rv) /\ slots_exact (one r rv).

(** A spawn path that can be reserved. *)
Definition spawn_path_ok (p : AgentPath) : Prop := valid_path (path p) /\ path p <> AgentPathRoot.

(** A thread id that the registry does not know. *)
Definition unknown (r : Registry) (id : ThreadID) : Prop :=
  forall k m, agentTree r !! k = Some m -> AgentID m <> Some id.

Section SpawnLaws.
Context `{!MapOrder AgentMetadata} (pick : list gostring -> gostring).

Lemma live_exact r : registry_ok r -> totalCount r = Z.of_nat (live r).
Proof. intros [_ E]. unfold slots_exact, in_use, pending in E. simpl in E. rewrite count_empty, map_size_empty in E. lia. Qed.

Lemma ok_of_idle r sp : (forall i rv, sp !! i = Some rv -> active rv = false) ->
  orderly {| reg := r; spawns := sp; releasing := ∅ |} ->
  slots_exact {| reg := r; spawns := sp; releasing := ∅ |} -> registry_ok r.
Proof.
  intros Hidle [H1 _ _ _] He. split.
  - split; simpl; [done|intros *; by rewrite lookup_empty..].
  - unfold slots_exact, in_use, pending in *. simpl in *. rewrite <- He, count_empty.
    assert (count active sp = 0)%nat; [|lia]. unfold count. apply map_size_empty_iff, map_empty. intros i.
    apply map_lookup_filter_None. right. intros rv Hi. simpl. by rewrite (Hidle i rv Hi).
Qed.

(** A fresh slot. *)
Lemma reserve_spawning max r : registry_ok r -> proper (quiet r) (Reserve 0 max) ->
  let '(slot, r') := ReserveSpawnSlot max r in
  match slot with
  | Ok rv => spawning r' rv /\ reservedPath rv = None /\ agentTree r' = agentTree r /\
             totalCount r' = totalCount r + 1 /\ usedNicknames r' = usedNicknames r
  | Err _ => r' = r
  | Panic => False
  end.
Proof.
  intros [Ho He] Hp. pose proof (act_orderly pick _ (Reserve 0 max) Ho Hp) as Ho'.
  pose proof (act_exact pick _ (Reserve 0 max) Ho Hp He) as He'.
  pose proof (live_exact r (conj Ho He)) as Hl.
  simpl in Ho', He', Hp. unfold ReserveSpawnSlot, tryIncrementSpawned, wrap64 in *.
  destruct max as [max|]; [destruct (Z.leb_spec max (totalCount r)) as [|Hlt]; [done|]|];
    simpl in *; (split_and!; [split_and!; done|done..| |done]); apply Z.mod_small; lia.
Qed.

Lemma one_insert rv rv' : <[0%nat := rv']> ({[0%nat := rv]} : gmap nat SpawnReservation) = {[0%nat := rv']}.
Proof. apply insert_singleton_eq. Qed.

Lemma spawning_act r rv a r' rv' : spawning r rv -> proper (one r rv) a -> active rv' = true ->
  act pick (one r rv) a = one r' rv' -> spawning r' rv'.
Proof.
  intros (Ha & Ho & He) Hp Ha' Hact. split; [done|]. rewrite <- Hact.
  split; [by apply act_orderly|by apply act_exact].
Qed.

Lemma root_spawning id r rv : spawning r rv -> spawning (RegisterRootThread id r) rv.
Proof. intros Hs. apply (spawning_act r rv (RootThread id)); [done|done|apply Hs|done]. Qed.

Lemma path_spawning p rv r : spawning r rv -> reservedPath rv = None -> spawn_path_ok p ->
  let '(res, rv', r') := ReserveAgentPath p rv r in
  spawning r' rv' /\ match res with
                     | Ok _ => reservedPath rv' = Some p /\ agentTree r' = <[path p := placeholder p]> (agentTree r) /\
                               agentTree r !! path p = None
                     | _ => rv' = rv /\ r' = r
                     end /\ totalCount r' = totalCount r /\ returns res.
Proof.
  intros Hs Hn [Hv Hr]. destruct (ReserveAgentPath p rv r) as [[res rv'] r'] eqn:E.
  assert (Ha : active rv' = true).
  { unfold ReserveAgentPath in E. destruct (reserveAgentPath p r); simplify_eq/=; apply Hs. }
  split.
  - apply (spawning_act r rv (ReservePath 0 p)); [done| |done|].
    + intros rw Hw. simpl in Hw. apply lookup_singleton_Some in Hw as [_ <-]. destruct Hs as (? & _). done.
    + simpl. rewrite lookup_singleton_eq, E, one_insert. done.
  - unfold ReserveAgentPath, reserveAgentPath in E. destruct (agentTree r !! path p) eqn:Et; simplify_eq/=; done.
Qed.

Lemma nickname_spawning names pref rv r : spawning r rv ->
  let '(res, rv', r') := ReserveAgentNicknameWithPreference pick names pref rv r in
  spawning r' rv' /\ reservedPath rv' = reservedPath rv /\ agentTree r' = agentTree r /\
  totalCount r' = totalCount r /\ returns res.
Proof.
  intros Hs. destruct (ReserveAgentNicknameWithPreference pick names pref rv r) as [[res rv'] r'] eqn:E.
  pose proof (nickname_frame pick names pref r) as Hf.
  assert (Hrv : active rv' = active rv /\ reservedPath rv' = reservedPath rv /\ agentTree r' = agentTree r /\
    totalCount r' = totalCount r /\ returns res).
  { unfold ReserveAgentNicknameWithPreference in E. destruct (reserveAgentNickname _ _ _ _) as [n r1].
    destruct Hf as (_ & Ht & Htree). destruct (decide (n = [])); simplify_eq; done. }
  destruct Hrv as (Ha & Hp & Ht & Hc & Hret). split; [|done].
  apply (spawning_act r rv (PickNickname 0 names pref)); [done|done|by rewrite Ha; apply Hs|].
  simpl. rewrite lookup_singleton_eq, E, one_insert. done.
Qed.

Lemma commit_ok m rv r id : spawning r rv -> Path m = reservedPath rv -> AgentID m = Some id -> unknown r id ->
  let r' := snd (Commit m rv r) in
  registry_ok r' /\ totalCount r' = totalCount r /\ agentTree r' = agentTree (registerSpawnedThread m r).
Proof.
  intros (Ha & Ho & He) Hp Hid Hun.
  assert (Hprop : proper (one r rv) (CommitSpawn 0 m)).
  { intros rw Hw _. simpl in Hw. apply lookup_singleton_Some in Hw as [_ <-]. split; [done|]. by exists id. }
  pose proof (act_orderly pick _ _ Ho Hprop) as Ho'. pose proof (act_exact pick _ _ Ho Hprop He) as He'.
  simpl in Ho', He'. rewrite lookup_singleton_eq in Ho', He'. unfold Commit in *. rewrite Ha in *.
  rewrite one_insert in Ho', He'. simpl in *. split; [|split; [apply register_totalCount|done]].
  eapply (ok_of_idle _ _); [|exact Ho'|exact He']. intros i rw Hw. by apply lookup_singleton_Some in Hw as [_ <-].
Qed.

Lemma release_ok rv r : spawning r rv ->
  let r' := snd (Release rv r) in
  registry_ok r' /\ totalCount r' = totalCount r - 1 /\
  agentTree r' = match reservedPath rv with Some p => delete (path p) (agentTree r) | None => agentTree r end /\
  usedNicknames r' = usedNicknames r.
Proof.
  intros (Ha & Ho & He).
  pose proof (act_orderly pick _ (ReleaseBegin 0) Ho I) as Ho1. pose proof (act_exact pick _ (ReleaseBegin 0) Ho I He) as He1.
  pose proof (act_orderly pick _ (ReleaseEnd 0) Ho1 I) as Ho2. pose proof (act_exact pick _ (ReleaseEnd 0) Ho1 I He1) as He2.
  assert (Htot : 0 < totalCount r).
  { unfold slots_exact, in_use, pending in He. simpl in He. rewrite <- insert_empty, count_insert_new, count_empty, Ha in He by done.
    simpl in He. lia. }
  simpl in Ho2, He2. rewrite lookup_singleton_eq in Ho2, He2. cbv zeta. rewrite release_keeps_nickname.
  unfold Release, releasePath in *. rewrite Ha in *.
  assert (Hdec : forall x, totalCount x = totalCount r -> decrementTotalCount x = set_totalCount (totalCount r - 1) x).
  { intros x Hx. unfold decrementTotalCount. rewrite Hx. by destruct (Z.ltb_spec 0 (totalCount r)); [|lia]. }
  destruct (reservedPath rv) as [p|] eqn:Er.
  - destruct (orderly_paths _ Ho 0%nat rv p (lookup_singleton_eq _ _) Ha Er) as (Ht & _). simpl in Ht.
    simpl in Ho2, He2. rewrite lookup_insert_eq, one_insert, delete_insert_id in Ho2, He2 by apply lookup_empty.
    simpl. split; [|].
    + eapply ok_of_idle; [|exact Ho2|exact He2]. intros i rw Hw. by apply lookup_singleton_Some in Hw as [_ <-].
    + rewrite Hdec by apply releaseReserved_totalCount. unfold releaseReservedAgentPath. rewrite Ht. done.
  - simpl in Ho2, He2. rewrite lookup_insert_eq, one_insert, delete_insert_id in Ho2, He2 by apply lookup_empty.
    simpl. split; [|].
    + eapply ok_of_idle; [|exact Ho2|exact He2]. intros i rw Hw. by apply lookup_singleton_Some in Hw as [_ <-].
    + by rewrite Hdec.
Qed.

End SpawnLaws.

(** ** Spawning an agent *)

(** The registry with the parent recorded as the root, which a spawn of depth
    one does first. *)
Definition rooted (source : SessionSource) (r : Registry) : Registry :=
  match threadSpawnOf source with
  | Some spawn => if Depth spawn =? 1 then RegisterRootThread (ParentThreadID spawn) r else r
  | None => r
  end.

Definition sourcePath (source : SessionSource) : option AgentPath := spawn ← threadSpawnOf source; SpawnPath spawn.

(** The path asked for is one that the agent tree may hold. *)
Definition spawnable (source : SessionSource) : Prop := forall p, sourcePath source = Some p -> spawn_path_ok p.

Section SpawnAgent.
Context `{!Payload} {E G : Type} `{!ThreadEngine E} `{!AgentGraphStore G} `{!MapOrder AgentMetadata}.
Context (cfg : ControlConfig).

Lemma root_frame id r : totalCount (RegisterRootThread id r) = totalCount r /\ usedNicknames (RegisterRootThread id r) = usedNicknames r.
Proof. unfold RegisterRootThread. by destruct (agentTree r !! AgentPathRoot). Qed.

Lemma rooted_totalCount source r : totalCount (rooted source r) = totalCount r.
Proof. unfold rooted. destruct (threadSpawnOf source) as [sp|]; [|done]. destruct (_ =? _); [apply root_frame|done]. Qed.

Lemma rooted_tree source r r' : agentTree r = agentTree r' -> agentTree (rooted source r) = agentTree (rooted source r').
Proof.
  intros Ht. unfold rooted. destruct (threadSpawnOf source) as [sp|]; [|done]. destruct (_ =? _); [|done].
  unfold RegisterRootThread. rewrite Ht. destruct (agentTree r' !! AgentPathRoot); simpl; by rewrite ?Ht.
Qed.

Lemma prepareSource_spec rv source r : spawning r rv -> reservedPath rv = None -> spawnable source ->
  let '(res, rv', r') := prepareSource cfg rv source r in
  spawning r' rv' /\ totalCount r' = totalCount r /\ returns res /\
  agentTree r' = (match reservedPath rv' with
                  | Some p => <[path p := placeholder p]> (agentTree (rooted source r))
                  | None => agentTree (rooted source r)
                  end) /\
  (forall p, reservedPath rv' = Some p -> agentTree (rooted source r) !! path p = None) /\
  match res with
  | Ok (src, m) => Path m = reservedPath rv' /\ Path m = sourcePath source /\
                   threadSpawnParentThreadID src = threadSpawnParentThreadID source
  | _ => True
  end.
Proof.
  intros Hs Hn Hok. unfold spawnable, prepareSource, sourcePath, rooted, threadSpawnParentThreadID in *.
  destruct (threadSpawnOf source) as [sp|] eqn:Esp; simpl in *; [|rewrite Hn; split_and!; auto; [by intros p Hp|by rewrite Esp]].
  set (r0 := if Depth sp =? 1 then RegisterRootThread (ParentThreadID sp) r else r).
  assert (Hs0 : spawning r0 rv) by (unfold r0; destruct (_ =? _); [by apply (root_spawning (picker cfg))|done]).
  assert (Ht0 : totalCount r0 = totalCount r) by (unfold r0; destruct (_ =? _); [apply root_frame|done]).
  clearbody r0. rewrite <- Ht0. clear Ht0 Hs r.
  assert (Hpath : let '(res, rv1, r1) := match SpawnPath sp with
                    | Some p => ReserveAgentPath p rv r0 | None => (Ok tt, rv, r0) end in
    spawning r1 rv1 /\ totalCount r1 = totalCount r0 /\ returns res /\
    agentTree r1 = (match reservedPath rv1 with Some p => <[path p := placeholder p]> (agentTree r0) | None => agentTree r0 end) /\
    (forall p, reservedPath rv1 = Some p -> agentTree r0 !! path p = None) /\
    (is_ok res = true -> reservedPath rv1 = SpawnPath sp)).
  { destruct (SpawnPath sp) as [p|]; [|by rewrite Hn; split_and!].
    pose proof (path_spawning (picker cfg) p rv r0 Hs0 Hn (Hok p eq_refl)) as Hp.
    destruct (ReserveAgentPath p rv r0) as [[res rv1] r1]. destruct Hp as (Hs1 & Hres & Hc & Hret).
    destruct res as [[]| |]; simpl in *; [|destruct Hres as [-> ->]; rewrite Hn; by split_and!|done].
    destruct Hres as (Hr1 & Ht1 & Hnone). rewrite Hr1, Ht1. split_and!; try done. by intros q [= <-]. }
  destruct (match SpawnPath sp with Some p => _ | None => _ end) as [[res rv1] r1].
  destruct Hpath as (Hs1 & Hc1 & Hret & Ht1 & Hnone & Hres).
  destruct res as [[]| |]; [|by split_and!|done].
  pose proof (nickname_spawning (picker cfg) (nicknameCandidates cfg (default [] (SpawnRole sp)))
    (default [] (SpawnNickname sp)) rv1 r1 Hs1) as Hnick.
  destruct (ReserveAgentNicknameWithPreference _ _ _ _ _) as [[picked rv2] r2].
  destruct Hnick as (Hs2 & Hp2 & Ht2 & Hc2 & Hret2).
  destruct picked as [n| |]; simpl in *; [|rewrite Ht2, Hc2, Hp2; by split_and!|done].
  rewrite Ht2, Hc2, Hp2. split_and!; try done. by symmetry; apply Hres.
Qed.

(** The entry of a thread id that occurs once. *)
Lemma findEntry_unique r id key m : agentTree r !! key = Some m -> AgentID m = Some id ->
  (forall k m', agentTree r !! k = Some m' -> AgentID m' = Some id -> k = key) ->
  findEntry id (range (agentTree r)) = Some (key, m).
Proof.
  intros Hk Hid Hu. destruct (findEntry _ _) as [[k' m']|] eqn:Ef.
  - apply found in Ef as [Hk' Hid']. rewrite (Hu k' m' Hk' Hid') in Hk' |- *. congruence.
  - by destruct (not_found r id Ef key m Hk).
Qed.

Lemma release_thread_ok id r : registry_ok r -> registry_ok (ReleaseSpawnedThread id r).
Proof.
  intros [Ho He]. split.
  - apply (act_orderly (picker cfg) (quiet r) (ReleaseThread id) Ho I).
  - apply (act_exact (picker cfg) (quiet r) (ReleaseThread id) Ho I He).
Qed.

Lemma update_ok id msg r : registry_ok r -> registry_ok (UpdateLastTaskMessage id msg r).
Proof.
  intros [Ho He]. split.
  - apply (act_orderly (picker cfg) (quiet r) (UpdateTask id msg) Ho I).
  - apply (act_exact (picker cfg) (quiet r) (UpdateTask id msg) Ho I He).
Qed.

Lemma root_ok id r : registry_ok r -> registry_ok (RegisterRootThread id r).
Proof.
  intros [Ho He]. split.
  - apply (act_orderly (picker cfg) (quiet r) (RootThread id) Ho I).
  - apply (act_exact (picker cfg) (quiet r) (RootThread id) Ho I He).
Qed.

(** Sending never breaks the registry; when it succeeds, only the preview of
    the agent changes. *)
Lemma send_spec id op preview (c : state (E:=E) (G:=G)) : registry_ok (registry c) ->
  let '(res, c') := sendWithPreview id op preview c in
  registry_ok (registry c') /\ graph c' = graph c /\
  match res with Ok _ => registry c' = UpdateLastTaskMessage id preview (registry c) | _ => True end.
Proof.
  intros Hok. unfold sendWithPreview, sendOp. destruct (GetThread id (engine c)) as [t| |]; [|done..].
  destruct (Submit t op (engine c)) as [[sub|e|] e']; simpl; [|destruct e; simpl|done].
  - split; [by apply update_ok|done].
  - done.
  - split; [by apply release_thread_ok|done].
  - done.
Qed.

Lemma persist_registry id src (c : state (E:=E) (G:=G)) :
  let '(_, c') := persistThreadSpawnEdge id src c in registry c' = registry c /\ engine c' = engine c.
Proof.
  unfold persistThreadSpawnEdge. destruct (threadSpawnParentThreadID src); [|done].
  by destruct (UpsertThreadSpawnEdge _ _ _ _).
Qed.

(** *** The outcome of a spawn *)

(** In the tree and the count, a spawn leaves no agent and no slot behind, or it
    leaves one agent [m] with one slot. The nicknames that have been used are not
    part of this: one that was picked stays used. *)
Definition nothing_left (T : gmap gostring AgentMetadata) (n : Z) (r : Registry) : Prop :=
  agentTree r = T /\ totalCount r = n.
Definition registered (T : gmap gostring AgentMetadata) (n : Z) (m : AgentMetadata) (r : Registry) : Prop :=
  exists key, T !! key = None /\ agentTree r = <[key := m]> T /\ totalCount r = n + 1.

(** The slot that is asked for does not wrap the count around. *)
Definition slot_fits (r : Registry) : Prop :=
  match maxThreads cfg with Some max => max < 2 ^ 64 | None => totalCount r + 1 < 2 ^ 64 end.

(** The tree with the placeholder of a reservation. *)
Definition reserved_tree (T : gmap gostring AgentMetadata) (rv : SpawnReservation) (r : Registry) : Prop :=
  agentTree r = match reservedPath rv with Some p => <[path p := placeholder p]> T | None => T end /\
  forall p, reservedPath rv = Some p -> T !! path p = None.

Lemma abandon_spec {A} T rv (res : result ControlError A) (c : state (E:=E) (G:=G)) :
  spawning (registry c) rv -> reserved_tree T rv (registry c) ->
  let '(res', c') := abandon res rv c in
  res' = res /\ registry_ok (registry c') /\ nothing_left T (totalCount (registry c) - 1) (registry c').
Proof.
  intros Hs [Ht Hn]. destruct (release_ok (picker cfg) rv (registry c) Hs) as (Hok & Hc & Htree & _).
  unfold abandon. simpl. split; [done|]. split; [done|]. split; [|done]. rewrite Htree, Ht.
  destruct (reservedPath rv) as [p|]; [|done]. by apply delete_insert_id, Hn.
Qed.

Lemma commit_spec T rv m id r : spawning r rv -> reserved_tree T rv r -> Path m = reservedPath rv ->
  AgentID m = Some id -> (forall k m', T !! k = Some m' -> AgentID m' <> Some id) ->
  let r' := snd (Commit m rv r) in
  registry_ok r' /\ registered T (totalCount r - 1) m r' /\ isRootPath (Path m) = false.
Proof.
  intros Hs [Ht Hn] Hp Hid Hun. pose proof Hs as (Ha & Ho & He).
  assert (Hun' : unknown r id).
  { intros k m'. rewrite Ht. destruct (reservedPath rv) as [p|]; [|apply Hun].
    intros [[_ <-]|[_ Hk]]%lookup_insert_Some; [done|by eapply Hun]. }
  destruct (commit_ok (picker cfg) m rv r id Hs Hp Hid Hun') as (Hok & Hc & Htree).
  destruct (commit_key (one r rv) 0 rv m Ho (lookup_singleton_eq _ _) Ha) as (key & id' & Hid' & Hk & Hkey & Hroot & Hlk).
  { intros rw Hw _. simpl in Hw. apply lookup_singleton_Some in Hw as [_ <-]. split; [done|]. by exists id. }
  simplify_eq. split; [done|]. split; [|done]. exists (if decide (pathString m = []) then "thread:" ++ id else pathString m).
  rewrite Htree. unfold registerSpawnedThread. rewrite Hid. cbn [agentTree set_agentTree set_nicknames]. rewrite Hc, Ht.
  unfold keyed in Hk. rewrite Hp in Hk. destruct (reservedPath rv) as [p|].
  - destruct Hk as [-> _]. rewrite insert_insert_eq. split_and!; [by apply Hn|done|lia].
  - simpl in Hlk. rewrite Ht in Hlk. split_and!; [done..|lia].
Qed.

(** The first operation: on success the preview is recorded; when the agent has
    died it is taken out of the registry. *)
Lemma first_send T n m id op preview (c : state (E:=E) (G:=G)) : registry_ok (registry c) ->
  registered T n m (registry c) -> AgentID m = Some id -> isRootPath (Path m) = false ->
  (forall k m', T !! k = Some m' -> AgentID m' <> Some id) ->
  let '(res, c') := sendWithPreview id op preview c in
  match res with
  | Ok _ => registered T n (set_LastTaskMessage preview m) (registry c')
  | _ => nothing_left T n (registry c') \/ registered T n m (registry c')
  end.
Proof.
  intros Hok (key & Hk & Ht & Hc) Hid Hroot Hun.
  assert (Hf : findEntry id (range (agentTree (registry c))) = Some (key, m)).
  { apply findEntry_unique; [by rewrite Ht, lookup_insert_eq|done|]. intros k m'. rewrite Ht.
    intros [[-> _]|[_ Hl]]%lookup_insert_Some Hm'; [done|]. by apply Hun in Hl. }
  assert (Hpos : 0 < totalCount (registry c)).
  { rewrite (live_exact _ Hok). assert (1 <= live (registry c))%nat; [|lia].
    apply (count_pos _ _ key m); [by rewrite Ht, lookup_insert_eq|]. apply counted_true. by rewrite Hid. }
  assert (Hkeep : registered T n m (registry c)) by (by exists key).
  unfold sendWithPreview, sendOp. destruct (GetThread id (engine c)) as [t| |]; [|by right..].
  destruct (Submit t op (engine c)) as [[sub|e|] e']; simpl; [|destruct e; simpl; [by right| |by right]|by right].
  - exists key. unfold UpdateLastTaskMessage. rewrite Hf. simpl. rewrite Ht, insert_insert_eq. done.
  - left. unfold ReleaseSpawnedThread. rewrite Hf, Hroot. simpl.
    destruct (Z.ltb_spec 0 (totalCount (registry c))); [|lia]. split; simpl; [|lia].
    rewrite Ht. by apply delete_insert_id.
Qed.

(** The two steps before the engine is asked. *)
Lemma begin_spec source r : registry_ok r -> slot_fits r -> spawnable source ->
  let '(slot, r1) := ReserveSpawnSlot (maxThreads cfg) r in
  match slot with
  | Err e => r1 = r /\ maxThreads cfg = Some (MaxThreads e) /\ MaxThreads e <= totalCount r
  | Panic => False
  | Ok rv =>
      let '(prepared, rv', r2) := prepareSource cfg rv source r1 in
      spawning r2 rv' /\ reserved_tree (agentTree (rooted source r)) rv' r2 /\ totalCount r2 = totalCount r + 1 /\
      match prepared with
      | Ok (src, m) => Path m = reservedPath rv' /\ Path m = sourcePath source /\
                       threadSpawnParentThreadID src = threadSpawnParentThreadID source
      | Err e => forall l, e <> LimitReached l
      | Panic => False
      end
  end.
Proof.
  intros Hok Hfit Hsp.
  pose proof (reserve_spawning (picker cfg) (maxThreads cfg) r Hok) as Hr.
  destruct (ReserveSpawnSlot (maxThreads cfg) r) as [slot r1] eqn:Es.
  specialize (Hr ltac:(unfold slot_fits in Hfit; by destruct (maxThreads cfg))).
  destruct slot as [rv|e|]; [|split; [done|]|done].
  - destruct Hr as (Hs & Hn & Ht & Hc & _). pose proof (prepareSource_spec rv source r1 Hs Hn Hsp) as Hp.
    assert (Herr : forall l, fst (fst (prepareSource cfg rv source r1)) <> Err (LimitReached l)).
    { intros l. unfold prepareSource. destruct (threadSpawnOf source) as [sp|]; [|done].
      destruct (match SpawnPath sp with Some p => _ | None => _ end) as [[[[]| |] rv1] r2]; [|done..].
      by destruct (ReserveAgentNicknameWithPreference _ _ _ _ _) as [[[]] ]. }
    destruct (prepareSource cfg rv source r1) as [[res rv'] r2].
    destruct Hp as (Hs2 & Hc2 & Hret & Ht2 & Hnone & Hres). rewrite (rooted_tree source r1 r Ht) in Ht2, Hnone.
    split_and!; [done|done|lia|]. destruct res as [[src m]|e|]; [done| |done].
    intros l ->. by apply (Herr l).
  - unfold ReserveSpawnSlot, tryIncrementSpawned in Es. destruct (maxThreads cfg) as [max|]; [|done].
    destruct (Z.leb_spec max (totalCount r)); [|done]. by simplify_eq.
Qed.

Lemma limit_errors id op src options conf e (c : state (E:=E) (G:=G)) :
  (forall l, fst (spawnThread conf src options e) <> Err (LimitReached l)) /\
  (forall l, fst (persistThreadSpawnEdge id src c) <> Err (LimitReached l)) /\
  (forall l, fst (SendInput id op c) <> Err (LimitReached l)).
Proof.
  split_and!; intros l.
  - unfold spawnThread, spawnForkedThread. destruct (Fork options).
    + destruct (decide _); [done|]. destruct (decide _); [|done]. by destruct (ForkThread _ _ _ _ _ _) as [[]].
    + by destruct (StartThreadWithOptions _ _) as [[]].
  - unfold persistThreadSpawnEdge. destruct (threadSpawnParentThreadID src); [|done].
    by destruct (UpsertThreadSpawnEdge _ _ _ _) as [[]].
  - unfold SendInput, sendWithPreview, sendOp. destruct (GetThread id (engine c)); [|done..].
    by destruct (Submit _ _ _) as [[]].
Qed.

(** The store took the edge from the parent, if there is a parent, or failed to. *)
Definition edge_stored (source : SessionSource) (id : ThreadID) (g g' : G) : Prop :=
  match threadSpawnParentThreadID source with
  | Some parent => UpsertThreadSpawnEdge parent id ThreadSpawnEdgeStatusOpen g = (Ok tt, g')
  | None => g' = g
  end.
Definition edge_failed (source : SessionSource) (id : ThreadID) (g g' : G) : Prop :=
  match threadSpawnParentThreadID source with
  | Some parent => exists r, UpsertThreadSpawnEdge parent id ThreadSpawnEdgeStatusOpen g = (r, g') /\ r <> Ok tt
  | None => False
  end.

(** What follows the commit. *)
Lemma committed_spec T n m id src op (c : state (E:=E) (G:=G)) : registry_ok (registry c) ->
  registered T n m (registry c) -> AgentID m = Some id -> isRootPath (Path m) = false ->
  (forall k m', T !! k = Some m' -> AgentID m' <> Some id) ->
  let '(persisted, c1) := persistThreadSpawnEdge id src c in
  match persisted with
  | Ok _ =>
      edge_stored src id (graph c) (graph c1) /\
      let '(sent, c2) := SendInput id op c1 in
      registry_ok (registry c2) /\ graph c2 = graph c1 /\
      match sent with
      | Ok _ => registered T n (set_LastTaskMessage (renderInputPreview op) m) (registry c2)
      | _ => nothing_left T n (registry c2) \/ registered T n m (registry c2)
      end
  | _ => registry_ok (registry c1) /\ edge_failed src id (graph c) (graph c1) /\ registered T n m (registry c1)
  end.
Proof.
  intros Hok Hreg Hid Hroot Hun. pose proof (persist_registry id src c) as Hp.
  destruct (persistThreadSpawnEdge id src c) as [persisted c1] eqn:Ep. destruct Hp as [Hr1 _].
  rewrite <- Hr1 in Hok, Hreg. destruct persisted as [[]|e|].
  2,3: split_and!; [done| |done]; unfold persistThreadSpawnEdge in Ep; unfold edge_failed;
    (destruct (threadSpawnParentThreadID src) as [parent|]; [|discriminate Ep]);
    destruct (UpsertThreadSpawnEdge _ _ _ _) as [[[]| |] g] eqn:Eu; inversion Ep; subst; by eexists.
  split.
  - unfold persistThreadSpawnEdge in Ep. unfold edge_stored.
    destruct (threadSpawnParentThreadID src) as [parent|]; [|by inversion Ep].
    destruct (UpsertThreadSpawnEdge _ _ _ _) as [[[]| |] g]; by inversion Ep.
  - unfold SendInput. pose proof (send_spec id op (renderInputPreview op) c1 Hok) as Hs.
    pose proof (first_send T n m id op (renderInputPreview op) c1 Hok Hreg Hid Hroot Hun) as Hf.
    destruct (sendWithPreview _ _ _ _) as [sent c2]. destruct Hs as (? & ? & _). done.
Qed.

End SpawnAgent.

Section SpawnClaims.
Context `{!Payload} {E G : Type} `{!ThreadEngine E} `{!AgentGraphStore G} `{!MapOrder AgentMetadata}.
Context (cfg : ControlConfig).

(** C26: A spawn never leaks a slot or a path. When the registry is in order and
    one more slot does not wrap its count around, the source's path is valid and
    the engine gives a thread id that is new, the registry is in order after
    [SpawnAgent], whatever the engine and the graph store answer: on
    success it holds the new agent, at the path asked for, with the preview of
    the first operation, one slot more, and the edge from its parent is stored;
    with the limit reached nothing has changed. On any other failure, the tree,
    the slots and the edges are as before; or the edge could not be stored, and
    the agent is there with its slot; or the first operation could not be sent,
    the edge is stored, and the agent is there with its slot or, when it died,
    gone from the tree with its slot given back.  (A nickname that a failed spawn
    has taken stays taken: [release_keeps_nickname].) *)
Theorem SpawnAgent_accounting conf op source options (c : state (E:=E) (G:=G)) :
  registry_ok (registry c) -> slot_fits cfg (registry c) -> spawnable source ->
  (forall src id, fst (spawnThread conf src options (engine c)) = Ok id -> unknown (rooted source (registry c)) id) ->
  let T := agentTree (rooted source (registry c)) in
  let n := totalCount (registry c) in
  let '(res, c') := SpawnAgent cfg conf op source options c in
  registry_ok (registry c') /\
  match res with
  | Ok a =>
      AgentID (Metadata a) = Some (LiveThreadID a) /\ Path (Metadata a) = sourcePath source /\
      registered T n (set_LastTaskMessage (renderInputPreview op) (Metadata a)) (registry c') /\
      edge_stored source (LiveThreadID a) (graph c) (graph c')
  | Err (LimitReached e) => c' = c /\ maxThreads cfg = Some (MaxThreads e) /\ MaxThreads e <= n
  | _ =>
      (nothing_left T n (registry c') /\ graph c' = graph c)
      \/ exists id m, AgentID m = Some id /\ Path m = sourcePath source /\
           ((edge_failed source id (graph c) (graph c') /\ registered T n m (registry c'))
            \/ (edge_stored source id (graph c) (graph c') /\ (nothing_left T n (registry c') \/ registered T n m (registry c'))))
  end.
Proof.
  intros Hok Hfit Hsp Hnew T n. pose proof (begin_spec cfg source (registry c) Hok Hfit Hsp) as Hb.
  unfold SpawnAgent. destruct (ReserveSpawnSlot (maxThreads cfg) (registry c)) as [[rv|e|] r1]; [| |done].
  2: { destruct Hb as (-> & Hb). by destruct c. }
  cbn [registry set_registry]. destruct (prepareSource cfg rv source r1) as [[prepared rv'] r2].
  destruct Hb as (Hs & Hr & Hc & Hres). set (c2 := set_registry r2 (set_registry r1 c)).
  assert (Hab : forall A (res : result ControlError A) (c3 : state), registry c3 = r2 ->
    let '(res', c') := abandon (E:=E) (G:=G) res rv' c3 in
    res' = res /\ registry_ok (registry c') /\ nothing_left T n (registry c') /\ graph c' = graph c3).
  { intros A res c3 H3. pose proof (abandon_spec cfg T rv' res c3) as Ha. rewrite H3, Hc in Ha.
    specialize (Ha Hs Hr). rewrite Z.add_simpl_r in Ha. destruct Ha as (? & ? & ?). by split_and!. }
  destruct prepared as [[src m]|e|]; [| |done].
  2: { pose proof (Hab _ (Err (A:=LiveAgent) e) c2 eq_refl) as Ha. destruct (abandon _ _ c2) as [res' c'].
       destruct Ha as (-> & ? & ? & ?). split; [done|].
       destruct e; [by edestruct Hres|by left..]. }
  destruct Hres as (Hm & Hpath & Hpar).
  destruct (limit_errors [] op src options conf (engine c2) c2) as (Hl1 & _).
  change (engine c2) with (engine c) in *. specialize (Hnew src).
  destruct (spawnThread conf src options (engine c)) as [spawned e1]. simpl in Hl1, Hnew.
  set (c3 := set_engine e1 c2). destruct spawned as [id|e|].
  2,3: match goal with |- context [abandon ?r _ _] => pose proof (Hab _ r c3 eq_refl) as Ha end;
    destruct (abandon _ _ c3) as [res' c']; destruct Ha as (-> & ? & ? & ?); (split; [done|]).
  2: destruct e; [by edestruct Hl1|by left..].
  2: by left.
  specialize (Hnew id eq_refl).
  destruct (commit_spec cfg T rv' (set_AgentID id m) id r2 Hs Hr Hm eq_refl Hnew) as (Hok4 & Hreg4 & Hroot).
  rewrite Hc, Z.add_simpl_r in Hreg4. change (registry c3) with r2.
  set (c4 := set_registry _ c3).
  pose proof (committed_spec cfg T n (set_AgentID id m) id src op c4 Hok4 Hreg4 eq_refl Hroot Hnew) as Hend.
  destruct (limit_errors id op src options conf (engine c) c4) as (_ & Hl2 & _).
  destruct (persistThreadSpawnEdge id src c4) as [persisted c5]. simpl in Hl2.
  assert (forall g g', edge_stored src id g g' -> edge_stored source id g g') as Hst by (unfold edge_stored; by rewrite Hpar).
  assert (forall g g', edge_failed src id g g' -> edge_failed source id g g') as Hfl by (unfold edge_failed; by rewrite Hpar).
  set (m' := set_AgentID id m) in *. assert (AgentID m' = Some id /\ Path m' = sourcePath source) as [Hm1 Hm2] by done.
  destruct persisted as [[]|e|]; [|split; [apply Hend|]..].
  2: destruct Hend as (_ & Hf & Hg); destruct e; [by edestruct Hl2|..]; right; exists id, m'; auto 8.
  2: destruct Hend as (_ & Hf & Hg); right; exists id, m'; auto 8.
  destruct Hend as (Hedge%Hst & Hend). destruct (limit_errors id op src options conf (engine c) c5) as (_ & _ & Hl3).
  destruct (SendInput id op c5) as [sent c6]. simpl in Hl3. destruct Hend as (Hok6 & Hg & Hend). rewrite <- Hg in Hedge.
  destruct sent as [sub|e|]; (split; [done|]).
  - simpl. by split_and!.
  - destruct e; [by edestruct Hl3|..]; right; exists id, m'; auto 8.
  - right; exists id, m'; auto 8.
Qed.

End SpawnClaims.

(** ** Closing a subtree *)

(** What the control plane expects of an engine: a removed thread is not found,
    and neither a removal nor a shutdown brings threads to life. *)
Class ThreadEngineLaws `{!Payload} (E : Type) `{!ThreadEngine E} := {
  removed id e t : GetThread id (RemoveThread id e) <> Ok t;
  remove_others id d e t : GetThread d (RemoveThread id e) = Ok t -> GetThread d e = Ok t;
  shutdown_others th d e t : GetThread d (snd (ShutdownAndWait th e)) = Ok t -> exists t', GetThread d e = Ok t';
}.

(** No thread id has two entries. *)
Definition ids_unique (r : Registry) : Prop := forall k k' m m' id,
  agentTree r !! k = Some m -> agentTree r !! k' = Some m' -> AgentID m = Some id -> AgentID m' = Some id -> k = k'.

Section Close.
Context `{!Payload} {E : Type} `{!ThreadEngine E} `{!ThreadEngineLaws E} `{!MapOrder edge} `{!MapOrder AgentMetadata}.

Definition in_engine (d : ThreadID) (c : state (E:=E) (G:=InMemory)) : Prop := exists t, GetThread d (engine c) = Ok t.

Lemma release_thread_tree id r k m : ids_unique r ->
  agentTree (ReleaseSpawnedThread id r) !! k = Some m <-> agentTree r !! k = Some m /\ AgentID m <> Some id.
Proof.
  intros Hu. unfold ReleaseSpawnedThread. destruct (findEntry _ _) as [[key m']|] eqn:Ef.
  - apply found in Ef as [Hk Hid].
    assert (Ht : forall b : bool, agentTree (if b then set_totalCount (totalCount r - 1) (set_agentTree (delete key (agentTree r)) r)
      else set_agentTree (delete key (agentTree r)) r) = delete key (agentTree r)) by (by intros []).
    simpl in *. rewrite Ht, lookup_delete_Some. split.
    + intros [Hne Hl]. split; [done|]. intros Hm. by apply Hne, (Hu key k m' m id).
    + intros [Hl Hm]. split; [|done]. intros ->. rewrite Hk in Hl. by simplify_eq.
  - pose proof (not_found r id Ef k m). naive_solver.
Qed.

Lemma release_thread_unique id r : ids_unique r -> ids_unique (ReleaseSpawnedThread id r).
Proof.
  intros Hu k k' m m' d [Hk _]%release_thread_tree [Hk' _]%release_thread_tree; [|done..]. by apply Hu.
Qed.

(** The state after the threads [ids] have been taken out. *)
Record taken_out (ids : list ThreadID) (c c' : state (E:=E) (G:=InMemory)) : Prop := {
  out_graph : graph c' = graph c;
  out_unique : ids_unique (registry c');
  out_ok : registry_ok (registry c) -> registry_ok (registry c');
  out_engine d : d ∈ ids -> ~ in_engine d c';
  out_others d : in_engine d c' -> in_engine d c;
  out_tree k m : agentTree (registry c') !! k = Some m <->
    agentTree (registry c) !! k = Some m /\ forall d, d ∈ ids -> AgentID m <> Some d;
}.

Lemma taken_out_app ids ids' c c1 c2 : taken_out ids c c1 -> taken_out ids' c1 c2 -> taken_out (ids ++ ids') c c2.
Proof.
  intros [G1 U1 K1 I1 O1 T1] [G2 U2 K2 I2 O2 T2]. split; [congruence|done|auto| |auto|].
  - intros d [Hd|Hd]%elem_of_app; [|by apply I2]. intros Hin. by apply (I1 d Hd), O2.
  - intros k m. rewrite T2, T1. setoid_rewrite elem_of_app. naive_solver.
Qed.

Lemma ShutdownLiveAgent_out id c : ids_unique (registry c) ->
  let '(_, c') := ShutdownLiveAgent id c in taken_out [id] c c'.
Proof.
  intros Hu. unfold ShutdownLiveAgent.
  set (sh := match GetThread id (engine c) with Ok thread => _ | _ => _ end).
  assert (Hsh : forall d t, GetThread d (snd sh) = Ok t -> exists t', GetThread d (engine c) = Ok t').
  { intros d t. unfold sh. destruct (GetThread id (engine c)); [destruct (decide _)|..]; simpl; eauto using shutdown_others. }
  destruct sh as [err e]. simpl in Hsh. split; unfold in_engine; simpl.
  - done.
  - by apply release_thread_unique.
  - apply (release_thread_ok {| maxThreads := None; nicknameCandidates := fun _ => []; picker := fun _ => [] |}).
  - intros d ->%list_elem_of_singleton (t & Ht). by apply removed in Ht.
  - intros d (t & Ht%remove_others). by eapply Hsh.
  - intros k m. rewrite release_thread_tree by done. setoid_rewrite list_elem_of_singleton. naive_solver.
Qed.

Lemma shutdownDescendants_out ids c : ids_unique (registry c) ->
  let '(err, c') := shutdownDescendants ids c in
  exists done_ rest, ids = done_ ++ rest /\ taken_out done_ c c' /\ (err = None -> rest = []).
Proof.
  revert c. induction ids as [|id ids IH]; intros c Hu; simpl.
  - exists [], []. split; [done|]. split; [|done]. split; auto; [by intros d ?%elem_of_nil|].
    intros k m. setoid_rewrite elem_of_nil. naive_solver.
  - pose proof (ShutdownLiveAgent_out id c Hu) as Hs. destruct (ShutdownLiveAgent id c) as [[e|] c1].
    + by exists [id], ids.
    + specialize (IH c1 (out_unique _ _ _ Hs)). destruct (shutdownDescendants ids c1) as [err c'].
      destruct IH as (d & rest & -> & Hd & Hn). exists (id :: d), rest. split; [done|]. split; [|done].
      by apply (taken_out_app [id] d c c1 c').
Qed.

(** Closing an edge keeps the subtree, which does not look at the status. *)
Lemma path_of_closed id st g root n d : path_of None (setStatus id st g) root n d <-> path_of None g root n d.
Proof.
  assert (Hc : forall p x, child_of None (setStatus id st g) p x <-> child_of None g p x).
  { intros p x. rewrite setStatus_child. unfold child_of. simpl. naive_solver. }
  split; induction 1 as [|n p x _ IH Hx]; try constructor; econstructor; try done; by apply Hc.
Qed.

(** C37: Closing an agent closes the edge to it, and takes out the agent and the
    agents it spawned, directly or not: on success none of them is in the
    engine or in the registry, and the registry keeps exactly the entries of
    the other threads. The agent itself is taken out whatever the engine
    answers, an error only ever leaves some of its descendants, and the spawn
    count stays exact. *)
Theorem CloseAgent_subtree id c : ids_unique (registry c) ->
  let subtree d := d = id \/ descendant None (graph c) id d in
  let '(res, c') := CloseAgent id c in
  graph c' = setStatus id ThreadSpawnEdgeStatusClosed (graph c) /\
  (registry_ok (registry c) -> registry_ok (registry c')) /\
  (forall d, subtree d -> res = Ok tt \/ d = id -> ~ in_engine d c' /\ unknown (registry c') d) /\
  (forall k m, agentTree (registry c) !! k = Some m -> (forall d, subtree d -> AgentID m <> Some d) ->
     agentTree (registry c') !! k = Some m) /\
  (forall k m, agentTree (registry c') !! k = Some m -> agentTree (registry c) !! k = Some m) /\
  returns res.
Proof.
  intros Hu subtree. unfold CloseAgent, shutdownAgentTree. simpl.
  set (g := setStatus id ThreadSpawnEdgeStatusClosed (graph c)). set (c0 := set_graph g c).
  destruct (listDescendants_full None g id) as (ids & -> & _ & Hids & _).
  assert (Hin : forall d, subtree d <-> d ∈ id :: ids).
  { intros d. rewrite elem_of_cons, Hids. unfold subtree, descendant, g. by setoid_rewrite path_of_closed. }
  pose proof (ShutdownLiveAgent_out id c0 Hu) as Hs. destruct (ShutdownLiveAgent id c0) as [err c1].
  pose proof (shutdownDescendants_out ids c1 (out_unique _ _ _ Hs)) as Hd.
  destruct (shutdownDescendants ids c1) as [err' c2]. destruct Hd as (out & rest & -> & Hd & Hrest).
  pose proof (taken_out_app [id] out _ _ _ Hs Hd) as [G U K I O T]. simpl in *.
  assert (Hcase : let '(res, c') := match err' with Some _ => (shutdown_result err', c2) | None => (shutdown_result err, c2) end in
    c' = c2 /\ returns res /\ (res = Ok tt -> rest = [])).
  { destruct err' as [e|]; [done|]. destruct err; simpl; auto. }
  destruct (match err' with Some _ => _ | None => _ end) as [res c']. destruct Hcase as (-> & Hret & Hok).
  split_and!; [done|exact K| | | |done].
  - intros d Hd' Hor. assert (Hout : d ∈ id :: out).
    { destruct Hor as [Hr| ->]; [|by left]. rewrite (Hok Hr), app_nil_r in Hin. by apply Hin. }
    split; [by apply I|]. intros k m [_ Hm]%T. by apply Hm.
  - intros k m Hk Hm. apply T. split; [done|]. intros d Hd'. apply Hm, Hin. set_solver.
  - intros k m Hk%T. apply Hk.
Qed.

End Close.

(** ** A small engine, for the examples *)

Definition NoPayload : Payload :=
  {| OpRest := unit; CommunicationRest := unit; ConfigurationRest := unit; TurnEnvironment := unit |}.

(** Threads with their status; a new thread gets the next number as its id. *)
Record SmallEngine := { threads : gmap gostring AgentStatus; started : Z }.

Definition start (e : SmallEngine) : result EngineError ThreadID * SmallEngine :=
  let id := "t" ++ format_int (started e) in
  (Ok id, {| threads := <[id := StatusPendingInit]> (threads e); started := started e + 1 |}).

Definition find (id : ThreadID) (e : SmallEngine) : result EngineError ThreadID :=
  match threads e !! id with Some _ => Ok id | None => Err ErrThreadNotFound end.

Definition status_of (id : ThreadID) (e : SmallEngine) : AgentStatus := default StatusNotFound (threads e !! id).

Definition remove (id : ThreadID) (e : SmallEngine) : SmallEngine :=
  {| threads := delete id (threads e); started := started e |}.

Definition mark (id : ThreadID) (st : AgentStatus) (e : SmallEngine) : SmallEngine :=
  {| threads := match threads e !! id with Some _ => <[id := st]> (threads e) | None => threads e end;
     started := started e |}.

Definition small_engine : @ThreadEngine NoPayload SmallEngine :=
  @Build_ThreadEngine NoPayload SmallEngine ThreadID
    (fun _ e => start e) (fun _ _ _ e => start e) (fun _ _ _ _ _ e => start e)
    find remove (fun id _ e => (Ok (str "sub"), mark id StatusRunning e)) status_of
    (fun id e => (None, mark id StatusShutdown e)).

Lemma small_laws : @ThreadEngineLaws NoPayload SmallEngine small_engine.
Proof.
  split; simpl; unfold find, remove, mark; simpl.
  - intros id e t. by rewrite lookup_delete_eq.
  - intros id d e t. destruct (delete id (threads e) !! d) eqn:E; [|done].
    apply lookup_delete_Some in E as [_ ->]. done.
  - intros th d e t. destruct (threads e !! th) eqn:Et; [|by eauto].
    destruct (decide (th = d)) as [->|]; [rewrite lookup_insert_eq, Et|rewrite lookup_insert_ne by done]; eauto.
Qed.

Definition child_source (parent : ThreadID) (depth : Z) (p : gostring) : SessionSource :=
  {| SourceKind := SourceSubAgent; Custom := []; Internal := None;
     SubAgent := Some {| SubKind := SubAgentThreadSpawn; Other := [];
       ThreadSpawn := Some {| ParentThreadID := parent; Depth := depth; SpawnPath := Some (MkPath p);
                              SpawnNickname := None; SpawnRole := None |} |} |}.

Definition two_agents : ControlConfig :=
  {| maxThreads := Some 2; nicknameCandidates := fun _ => [str "Ada"; str "Bob"]; picker := first_pick |}.

Definition small_conf : @SessionConfiguration NoPayload :=
  @Build_SessionConfiguration NoPayload
    {| SourceKind := SourceCli; Custom := []; Internal := None; SubAgent := None |} [] tt.

Definition plain : @SpawnOptions NoPayload := @Build_SpawnOptions NoPayload None [] None.

Definition hello : @Op NoPayload := @OpUserInput NoPayload [InputText (str "hello")] tt.

Definition empty_control : ControlState SmallEngine InMemory :=
  {| engine := {| threads := {[str "root" := StatusRunning]}; started := 1 |};
     graph := NewInMemoryAgentGraphStore; registry := NewRegistry |}.

#[local] Existing Instances NoPayload small_engine.
#[local] Instance by_listed (A : Type) : MapOrder A := listed_order A.

Definition spawn_a := SpawnAgent two_agents small_conf hello (child_source "root" 1 "/root/a") plain.
Definition spawn_b := SpawnAgent two_agents small_conf hello (child_source "t1" 2 "/root/a/b") plain.

Example spawn_spawn_close :
  let '(a, c1) := spawn_a empty_control in
  let '(b, c2) := spawn_b c1 in
  let '(full, c3) := spawn_a c2 in
  let '(closed, c4) := CloseAgent "t1" c3 in
  (match a with Ok a => LiveThreadID a | _ => [] end, match b with Ok b => LiveThreadID b | _ => [] end)
    = (str "t1", str "t2") /\
  full = Err (LimitReached {| MaxThreads := 2 |}) /\
  totalCount (registry c3) = 2 /\ ListLiveSubtreeThreadIDs "t1" c3 = Ok [str "t1"; str "t2"] /\
  closed = Ok tt /\ totalCount (registry c4) = 0.
Proof. vm_compute. repeat split. Qed.

Lemma SpawnAgent_accounting_witness :
  registry_ok (registry empty_control) /\
  let '(res, c') := spawn_a empty_control in is_ok res = true /\ registry_ok (registry c').
Proof.
  assert (Hok : registry_ok (registry empty_control)).
  { split; [|done]. split; simpl; intros *; by rewrite lookup_empty. }
  split; [exact Hok|].
  pose proof (SpawnAgent_accounting two_agents small_conf hello (child_source "root" 1 "/root/a") plain empty_control Hok) as H.
  fold spawn_a in H. destruct (spawn_a empty_control) as [res c'] eqn:E.
  refine (conj _ (proj1 (H _ _ _))).
  - assert (Hr : is_ok (fst (spawn_a empty_control)) = true) by (by vm_compute). by rewrite E in Hr.
  - vm_compute. done.
  - intros p [= <-]. split; [apply validateAbsoluteAgentPath_None; by vm_compute|done].
  - intros src id [= <-] k m Hk.
    change (agentTree (rooted _ _)) with (<[AgentPathRoot := rootMetadata "root"]> (∅ : gmap gostring AgentMetadata)) in Hk.
    apply lookup_insert_Some in Hk as [[_ <-]|[_ Hk]]; [done|]. by rewrite lookup_empty in Hk.
Defined.

(** Uniqueness of thread ids, decided. *)
Definition ids_unique_b (r : Registry) : bool :=
  let l := map_to_list (agentTree r) in
  forallb (fun kv : gostring * AgentMetadata => forallb (fun kv' : gostring * AgentMetadata =>
    bool_decide (kv.1 = kv'.1) || bool_decide (AgentID kv.2 = None) || negb (bool_decide (AgentID kv.2 = AgentID kv'.2))) l) l.

Lemma ids_unique_b_sound r : ids_unique_b r = true -> ids_unique r.
Proof.
  unfold ids_unique_b. rewrite forallb_forall. intros Hb k k' m m' id Hk Hk' Hm Hm'.
  apply elem_of_map_to_list, list_elem_of_In in Hk, Hk'. specialize (Hb _ Hk). rewrite forallb_forall in Hb.
  specialize (Hb _ Hk'). simpl in Hb. rewrite Hm, Hm' in Hb.
  rewrite (bool_decide_eq_false_2 (Some id = None)), (bool_decide_eq_true_2 (Some id = Some id)) in Hb by done.
  rewrite !orb_false_r in Hb. by apply bool_decide_eq_true in Hb.
Qed.

Lemma CloseAgent_subtree_witness :
  let c := snd (spawn_b (snd (spawn_a empty_control))) in
  ids_unique (registry c) /\
  let '(res, c') := CloseAgent "t1" c in res = Ok tt /\ graph c' = setStatus "t1" ThreadSpawnEdgeStatusClosed (graph c).
Proof.
  intros c. assert (Hu : ids_unique (registry c)) by (apply ids_unique_b_sound; by vm_compute).
  split; [exact Hu|].
  pose proof (@CloseAgent_subtree NoPayload SmallEngine small_engine small_laws _ _ "t1" c Hu) as H.
  assert (Hr : fst (CloseAgent "t1" c) = Ok tt) by (by vm_compute).
  cbv zeta in H. destruct (CloseAgent "t1" c) as [res c']. exact (conj Hr (proj1 H)).
Defined.

End Control.
