(* ===== verification/GoPath.v ===== *)
(** * Go's [path.Clean], [path.Join] and [path.Dir], and clean Unix paths

    What the sandbox policy uses of [path] and [path/filepath] on Unix, and the
    absolute paths that are clean: a list of ordinary segments.  On these, the
    string operations of the policy are operations on segment lists. *)

From stdpp Require Import base list.
From S2P Require Import Prelude GoStrings AbsPath.

Module GoPath.
Import AbsPath.

(** ** The library functions *)

(** One segment, after the segments kept so far. *)
Definition clean_step (rooted : bool) (out : list gostring) (seg : gostring) : list gostring :=
  if decide (seg = [] \/ seg = dot) then out
  else if decide (seg = dotdot)
       then match last out with
            | Some prev => if decide (prev = dotdot) then out ++ [seg] else removelast out
            | None => if rooted then out else out ++ [seg]
            end
       else out ++ [seg].

Definition clean_segs (rooted : bool) (path : gostring) : list gostring :=
  fold_left (clean_step rooted) (split_byte slash path) [].

Definition Clean (path : gostring) : gostring :=
  let rooted := has_prefix path [slash] in
  match clean_segs rooted path with
  | [] => if rooted then [slash] else dot
  | segs => (if rooted then [slash] else []) ++ join [slash] segs
  end.

(** [path.Join] of two elements. *)
Definition Join2 (a b : gostring) : gostring :=
  match a, b with
  | [], [] => []
  | [], _ => Clean b
  | _, [] => Clean a
  | _, _ => Clean (a ++ [slash] ++ b)
  end.

(** The path up to and including the last slash. *)
Definition upto_slash (path : gostring) : gostring :=
  match list_find (fun c => c = slash) (reverse path) with
  | Some (i, _) => take (length path - i) path
  | None => []
  end.

Definition Dir (path : gostring) : gostring := Clean (upto_slash path).

Example clean_examples :
  map Clean [str "/a/./b/../c//d/"; str "../a/../../b"; []; str "/.."; str "a/.."]
  = [str "/a/c/d"; str "../../b"; str "."; str "/"; str "."].
Proof. vm_compute. reflexivity. Qed.
Example dir_examples :
  map Dir [str "/a/b"; str "/a"; str "/"; str "a"; str "/a/b/"; []]
  = [str "/a"; str "/"; str "/"; str "."; str "/a/b"; str "."].
Proof. vm_compute. reflexivity. Qed.

(** ** Clean absolute paths *)

Definition upath (segs : list gostring) : gostring := [slash] ++ join [slash] segs.

Definition clean_path (p : gostring) : Prop := exists segs, Forall wf_clean_seg segs /\ p = upath segs.

Lemma upath_render segs : upath segs = renderComponents false (unix_comps true segs).
Proof. by rewrite renderComponents_unix. Qed.

Lemma upath_nonempty segs : upath segs <> [].
Proof. done. Qed.

Lemma upath_inj segs segs' : Forall wf_seg segs -> Forall wf_seg segs' -> upath segs = upath segs' -> segs = segs'.
Proof.
  intros H H' E. rewrite !upath_render in E. apply (f_equal parseComponentsUnix) in E.
  rewrite !parse_render in E by done. unfold unix_comps in E. cbn [app] in E. injection E as E.
  revert E. apply (list_fmap_eq_inj compNormal); intros ?? [=]; done.
Qed.

Lemma upath_snoc segs s : segs <> [] -> upath (segs ++ [s]) = upath segs ++ [slash] ++ s.
Proof. intros. unfold upath. rewrite join_snoc by done. by rewrite <- !(assoc (++)). Qed.

Lemma upath_app segs more : segs <> [] -> more <> [] -> upath (segs ++ more) = upath segs ++ upath more.
Proof.
  intros Hs. induction more as [|m more IH] using rev_ind; [done|]. intros _.
  rewrite (assoc (++)), upath_snoc by (destruct segs; done).
  destruct more as [|m' more]; [by rewrite app_nil_r|].
  rewrite IH by done. rewrite (upath_snoc (m' :: more)) by done. by rewrite <- !(assoc (++)).
Qed.

(** [parent ++ "/" ++ rest] on segments. *)
Lemma split_upath segs : Forall wf_seg segs -> split_byte slash (upath segs) = [] :: match segs with [] => [[]] | _ => segs end.
Proof.
  intros H. unfold upath. change ([slash] ++ join [slash] segs) with ([] ++ slash :: join [slash] segs).
  rewrite split_byte_app_sep. simpl. f_equal. destruct segs as [|s segs]; [done|].
  apply split_byte_join; [|done]. eapply Forall_impl; [exact H|]. by intros ? [].
Qed.

Lemma clean_segs_upath segs : Forall wf_clean_seg segs -> clean_segs true (upath segs) = segs.
Proof.
  intros H. unfold clean_segs. rewrite split_upath by (eapply Forall_impl; [exact H|by intros ? []]).
  assert (Hf : forall acc, fold_left (clean_step true) segs acc = acc ++ segs).
  { induction H as [|s segs ((Hne & _) & Hd & Hdd) _ IH]; intros acc; cbn [fold_left]; [by rewrite app_nil_r|].
    unfold clean_step at 2. rewrite decide_False by naive_solver. rewrite decide_False by done.
    by rewrite IH, <- (assoc (++)). }
  cbn [fold_left]. unfold clean_step at 2. rewrite decide_True by auto.
  destruct segs as [|s segs]; [done|]. apply (Hf []).
Qed.

Lemma Clean_upath segs : Forall wf_clean_seg segs -> Clean (upath segs) = upath segs.
Proof.
  intros H. unfold Clean. assert (has_prefix (upath segs) [slash] = true) as -> by (apply has_prefix_true; by eexists).
  rewrite clean_segs_upath by done. by destruct segs.
Qed.

Lemma clean_segs_skip path : clean_segs true (slash :: path) = clean_segs true path.
Proof.
  unfold clean_segs. change (slash :: path) with ([] ++ slash :: path).
  rewrite split_byte_app_sep. cbn [split_byte app fold_left]. unfold clean_step at 2. by rewrite decide_True by auto.
Qed.

Lemma Join2_upath segs s : Forall wf_clean_seg segs -> wf_clean_seg s ->
  Join2 (upath segs) s = upath (segs ++ [s]).
Proof.
  intros H Hs. assert (Hall : Forall wf_clean_seg (segs ++ [s])) by (apply Forall_app; by auto).
  assert (Join2 (upath segs) s = Clean (upath segs ++ [slash] ++ s)) as ->.
  { unfold Join2, upath. destruct s; [by destruct Hs as [[? _] _]|done]. }
  destruct segs as [|x segs].
  - cbn [app] in *. rewrite <- (Clean_upath [s]) by done. unfold upath. cbn [app join]. unfold Clean.
    change (has_prefix (slash :: slash :: s) [slash]) with true. cbn [has_prefix cut_prefix].
    by rewrite clean_segs_skip.
  - by rewrite <- upath_snoc, Clean_upath.
Qed.

(** ** [Dir]: the parent, and the way up ends *)

Definition seg_total (segs : list gostring) : nat := sum_list_with (fun s => S (length s)) segs.

Lemma length_join_total segs : length (join [slash] segs) = pred (seg_total segs).
Proof.
  induction segs as [|s segs IH]; [done|]. destruct segs as [|s' segs]; [simpl; lia|].
  change (join [slash] (s :: s' :: segs)) with (s ++ [slash] ++ join [slash] (s' :: segs)).
  rewrite !length_app, IH. unfold seg_total. simpl. lia.
Qed.

Lemma seg_total_split path : seg_total (split_byte slash path) = S (length path).
Proof.
  pose proof (length_join_total (split_byte slash path)) as H. rewrite join_split_byte in H.
  pose proof (split_byte_nonempty slash path). destruct (split_byte slash path); [done|].
  unfold seg_total in *. simpl in *. lia.
Qed.

Lemma seg_total_snoc segs s : seg_total (segs ++ [s]) = seg_total segs + S (length s).
Proof. unfold seg_total. rewrite sum_list_with_app. simpl. lia. Qed.

Lemma seg_total_removelast segs : seg_total (removelast segs) <= seg_total segs.
Proof.
  destruct segs as [|s segs _] using rev_ind; [done|]. rewrite removelast_last, seg_total_snoc. lia.
Qed.

Lemma clean_step_total rooted out seg : seg_total (clean_step rooted out seg) <= seg_total out + S (length seg).
Proof.
  unfold clean_step. repeat case_decide; try destruct (last out); repeat case_decide; try destruct rooted;
    rewrite ?seg_total_snoc; pose proof (seg_total_removelast out); lia.
Qed.

Lemma fold_clean_total rooted segs out :
  seg_total (fold_left (clean_step rooted) segs out) <= seg_total out + seg_total segs.
Proof.
  revert out. induction segs as [|s segs IH]; intros out; cbn [fold_left]; [unfold seg_total; simpl; lia|].
  etrans; [apply IH|]. pose proof (clean_step_total rooted out s). unfold seg_total in *. simpl. lia.
Qed.

(** Cleaning never makes a path longer, apart from the empty one. *)
Lemma Clean_length path : length (Clean path) <= Nat.max 1 (length path).
Proof.
  unfold Clean. destruct (has_prefix path [slash]) eqn:Hp.
  - apply has_prefix_true in Hp as [rest ->]. cbn [app] in *. rewrite clean_segs_skip.
    pose proof (fold_clean_total true (split_byte slash rest) []) as H. rewrite seg_total_split in H.
    fold (clean_segs true rest) in H. destruct (clean_segs true rest); [simpl; lia|].
    cbn [length app]. rewrite length_join_total. simpl in *. lia.
  - pose proof (fold_clean_total false (split_byte slash path) []) as H. rewrite seg_total_split in H.
    fold (clean_segs false path) in H. destruct (clean_segs false path); [simpl; lia|].
    cbn [length app]. rewrite length_join_total. simpl in *. lia.
Qed.

Lemma upto_slash_cases path :
  upto_slash path = [] \/ exists pre post, path = pre ++ [slash] ++ post /\ upto_slash path = pre ++ [slash].
Proof.
  unfold upto_slash. destruct (list_find _ (reverse path)) as [[i c]|] eqn:Hf; [right|by left].
  apply list_find_Some in Hf as (Hi & -> & _).
  pose proof (lookup_lt_Some _ _ _ Hi) as Hlt. rewrite length_reverse in Hlt.
  rewrite reverse_lookup in Hi by done. exists (take (length path - S i) path), (drop (S (length path - S i)) path).
  split; [symmetry; by apply take_drop_middle|].
  replace (length path - i) with (S (length path - S i)) by lia. by apply take_S_r.
Qed.

(** A trailing slash is cleaned away. *)
Lemma Clean_trailing pre : pre <> [] -> Clean (pre ++ [slash]) = Clean pre.
Proof.
  intros Hp. unfold Clean, clean_segs. rewrite split_byte_app_sep. cbn [split_byte]. rewrite fold_left_app.
  cbn [fold_left]. replace (has_prefix (pre ++ [slash]) [slash]) with (has_prefix pre [slash])
    by (destruct pre; [done|]; unfold has_prefix; simpl; by case_decide).
  unfold clean_step at 1. by rewrite decide_True by auto.
Qed.

Lemma Dir_length path : length path <= 1 \/ length (Dir path) < length path.
Proof.
  unfold Dir. destruct (upto_slash_cases path) as [->|(pre & post & Hp & ->)].
  - destruct path as [|c [|]]; simpl; lia.
  - destruct pre as [|c pre]; [subst path; destruct post; simpl; lia|].
    rewrite Clean_trailing by done. pose proof (Clean_length (c :: pre)). subst path.
    rewrite !length_app in *. simpl in *. lia.
Qed.

Lemma Dir_short path : length path <= 1 -> Dir (Dir path) = Dir path.
Proof.
  intros H. destruct path as [|c [|]]; simpl in H; [done| |lia].
  destruct (decide (c = slash)) as [->|Hc]; [done|].
  assert (Dir [c] = dot) as ->; [|done]. unfold Dir, upto_slash. cbn. by rewrite decide_False.
Qed.

(** The directory of a clean path drops its last segment. *)
Lemma Dir_upath segs s : Forall wf_clean_seg segs -> wf_seg s -> Dir (upath (segs ++ [s])) = upath segs.
Proof.
  intros H [_ Hs]. assert (exists pre, upath (segs ++ [s]) = pre ++ [slash] ++ s /\ Clean (pre ++ [slash]) = upath segs)
    as (pre & E & Hc).
  { destruct segs as [|x segs]; [by exists []|]. exists (upath (x :: segs)). rewrite upath_snoc by done.
    split; [done|]. rewrite Clean_trailing by done. by apply Clean_upath. }
  rewrite <- Hc. unfold Dir. f_equal. rewrite E. unfold upto_slash.
  assert (list_find (fun c => c = slash) (reverse (pre ++ [slash] ++ s)) = Some (length s, slash)) as ->.
  { rewrite !reverse_app, reverse_singleton, <- (assoc (++)). apply list_find_Some. split_and!; [|done|].
    - rewrite lookup_app_r, length_reverse by (rewrite length_reverse; done). by rewrite Nat.sub_diag.
    - intros j y Hj Hlt. rewrite lookup_app_l in Hj by (by rewrite length_reverse).
      intros ->. apply Hs, elem_of_reverse. by eapply list_elem_of_lookup_2. }
  rewrite !length_app. cbn [length]. replace (length pre + (1 + length s) - length s) with (length (pre ++ [slash]))
    by (rewrite length_app; simpl; lia).
  rewrite (assoc (++)). by rewrite take_app_length.
Qed.

End GoPath.
