(* ===== verification/Seccomp.v ===== *)
(** * internal/sandbox: the network seccomp filter

    [seccomp_bpf.go] and the choice of a mode in [native_spec.go].  The code
    assembles a classic BPF program with relative jumps; the kernel runs it on
    every system call.  The machine is the class [ClassicBPF], with the rules
    of the three instructions that the program uses as its laws; an interpreter
    discharges them.  The program is proved to decide as its comments say,
    block by block. *)

From stdpp Require Import base list.
From S2P Require Import Prelude.

#[local] Open Scope Z_scope.

Module Seccomp.

(** ** Instructions and constants *)

Record sockFilterInstr := { Code : Z; Jt : Z; Jf : Z; K : Z }.

Definition bpfLD : Z := 0x00.
Definition bpfJMP : Z := 0x05.
Definition bpfRET : Z := 0x06.
Definition bpfW : Z := 0x00.
Definition bpfABS : Z := 0x20.
Definition bpfK : Z := 0x00.
Definition bpfJEQ : Z := 0x10.

Definition seccompDataNROffset : Z := 0.
Definition seccompDataArchOffset : Z := 4.
Definition seccompDataArg0LowOffset : Z := 16.

Definition seccompRetAllow : Z := 0x7fff0000.
Definition seccompRetErrnoTop : Z := 0x00050000.
Definition seccompRetKillProc : Z := 0x80000000.

Definition auditArchX8664 : Z := 0xC000003E.
Definition auditArchAARCH64 : Z := 0xC00000B7.

Definition afUNIX : Z := 1.
Definition afINET : Z := 2.
Definition afINET6 : Z := 10.

Definition errnoEPERM : Z := 1.

(** The opcodes that the builder puts together with [|]. *)
Definition load_word : Z := Z.lor (Z.lor bpfLD bpfW) bpfABS.
Definition jump_equal : Z := Z.lor (Z.lor bpfJMP bpfJEQ) bpfK.
Definition ret_constant : Z := Z.lor bpfRET bpfK.

Record networkSeccompSyscalls := {
  ptrace : Z; processVMReadv : Z; processVMWritev : Z;
  ioUringSetup : Z; ioUringEnter : Z; ioUringRegister : Z;
  connect : Z; accept : Z; accept4 : Z; bind_ : Z; listen : Z;
  getpeername : Z; getsockname : Z; shutdown : Z; sendto : Z;
  sendmmsg : Z; recvmmsg : Z; getsockopt : Z; setsockopt : Z;
  socket : Z; socketpair : Z;
}.

(** ** native_spec.go: the mode *)

Inductive NetworkSeccompMode :=
| NetworkSeccompModeNone | NetworkSeccompModeRestricted | NetworkSeccompModeProxyRouted.

#[export] Instance NetworkSeccompMode_eq_dec : EqDecision NetworkSeccompMode.
Proof. solve_decision. Defined.

(** [network] tells whether the network policy is enabled. *)
Definition shouldInstallNetworkSeccomp (network allowNetworkForProxy : bool) : bool :=
  negb network || allowNetworkForProxy.

Definition networkSeccompModeFor (network allowNetworkForProxy proxyRoutedNetwork : bool) : NetworkSeccompMode :=
  if negb (shouldInstallNetworkSeccomp network allowNetworkForProxy) then NetworkSeccompModeNone
  else if proxyRoutedNetwork then NetworkSeccompModeProxyRouted
  else NetworkSeccompModeRestricted.

(** ** The builder: each step appends to the program *)

Definition bpfBuilder := list sockFilterInstr.

Definition stmt (code k : Z) (b : bpfBuilder) : bpfBuilder :=
  b ++ [{| Code := code; Jt := 0; Jf := 0; K := k |}].

Definition jump (code k jt jf : Z) (b : bpfBuilder) : bpfBuilder :=
  b ++ [{| Code := code; Jt := jt; Jf := jf; K := k |}].

Definition seccompRetErrno (errno : Z) : Z :=
  Z.lor seccompRetErrnoTop (Z.land errno 0x0000ffff).

Inductive socketGateKind := allowFamilyEqual | allowFamilyInetOnly | denyFamilyUnix.

Definition emitAllowEqualBlock (nr family : Z) (b : bpfBuilder) : bpfBuilder :=
  let b := jump jump_equal nr 0 5 b in
  let b := stmt load_word seccompDataArg0LowOffset b in
  let b := jump jump_equal family 1 0 b in
  let b := stmt ret_constant (seccompRetErrno errnoEPERM) b in
  let b := stmt ret_constant seccompRetAllow b in
  stmt load_word seccompDataNROffset b.

Definition emitAllowInetBlock (nr : Z) (b : bpfBuilder) : bpfBuilder :=
  let b := jump jump_equal nr 0 6 b in
  let b := stmt load_word seccompDataArg0LowOffset b in
  let b := jump jump_equal afINET 2 0 b in
  let b := jump jump_equal afINET6 1 0 b in
  let b := stmt ret_constant (seccompRetErrno errnoEPERM) b in
  let b := stmt ret_constant seccompRetAllow b in
  stmt load_word seccompDataNROffset b.

Definition emitDenyUnixBlock (nr : Z) (b : bpfBuilder) : bpfBuilder :=
  let b := jump jump_equal nr 0 5 b in
  let b := stmt load_word seccompDataArg0LowOffset b in
  let b := jump jump_equal afUNIX 1 0 b in
  let b := stmt ret_constant seccompRetAllow b in
  let b := stmt ret_constant (seccompRetErrno errnoEPERM) b in
  stmt load_word seccompDataNROffset b.

Definition emitSocketFamilyGate (nr : Z) (kind : socketGateKind) (family : Z) (b : bpfBuilder) : bpfBuilder :=
  match kind with
  | allowFamilyEqual => emitAllowEqualBlock nr family b
  | allowFamilyInetOnly => emitAllowInetBlock nr b
  | denyFamilyUnix => emitDenyUnixBlock nr b
  end.

(** The system calls that are refused whatever their arguments. *)
Definition deniedSyscalls (mode : NetworkSeccompMode) (sc : networkSeccompSyscalls) : list Z :=
  [ptrace sc; processVMReadv sc; processVMWritev sc; ioUringSetup sc; ioUringEnter sc; ioUringRegister sc] ++
  match mode with
  | NetworkSeccompModeRestricted =>
      [connect sc; accept sc; accept4 sc; bind_ sc; listen sc; getpeername sc; getsockname sc; shutdown sc;
       sendto sc; sendmmsg sc; recvmmsg sc; getsockopt sc; setsockopt sc]
  | _ => []
  end.

Definition emitDenied (denied : list Z) (b : bpfBuilder) : bpfBuilder :=
  foldl (fun b nr => stmt ret_constant (seccompRetErrno errnoEPERM) (jump jump_equal nr 0 1 b)) b denied.

(** [None] stands for the nil program. *)
Definition buildNetworkSeccompProgram (mode : NetworkSeccompMode) (auditArch : Z) (sc : networkSeccompSyscalls) :
    option (list sockFilterInstr) :=
  if decide (mode = NetworkSeccompModeNone) then None else
  let b := stmt load_word seccompDataArchOffset [] in
  let b := jump jump_equal auditArch 1 0 b in
  let b := stmt ret_constant seccompRetKillProc b in
  let b := stmt load_word seccompDataNROffset b in
  let b := emitDenied (deniedSyscalls mode sc) b in
  let b := match mode with
           | NetworkSeccompModeRestricted =>
               emitSocketFamilyGate (socketpair sc) allowFamilyEqual afUNIX
                 (emitSocketFamilyGate (socket sc) allowFamilyEqual afUNIX b)
           | NetworkSeccompModeProxyRouted =>
               emitSocketFamilyGate (socketpair sc) denyFamilyUnix 0
                 (emitSocketFamilyGate (socket sc) allowFamilyInetOnly 0 b)
           | NetworkSeccompModeNone => b
           end in
  Some (stmt ret_constant seccompRetAllow b).

(** ** The machine *)

(** The word of [struct seccomp_data] at an offset. *)
Definition seccomp_data := Z -> Z.

(** [bpf_run d prog a]: what the program returns from here on, with [a] in the
    accumulator.  A jump counts from the next instruction. *)
Class ClassicBPF := {
  bpf_run : seccomp_data -> list sockFilterInstr -> Z -> option Z;
  run_load d i prog a : Code i = load_word -> bpf_run d (i :: prog) a = bpf_run d prog (d (K i));
  run_jump d i prog a : Code i = jump_equal ->
    bpf_run d (i :: prog) a = bpf_run d (drop (Z.to_nat (if a =? K i then Jt i else Jf i)) prog) a;
  run_ret d i prog a : Code i = ret_constant -> bpf_run d (i :: prog) a = Some (K i);
}.

(** ** What the filter is to decide *)

Inductive verdict := Kill | Eperm | Allow.

Definition verdict_code (v : verdict) : Z :=
  match v with Kill => seccompRetKillProc | Eperm => seccompRetErrno errnoEPERM | Allow => seccompRetAllow end.

Definition allow_if (b : bool) : verdict := if b then Allow else Eperm.

Definition decision (mode : NetworkSeccompMode) (auditArch : Z) (sc : networkSeccompSyscalls) (arch nr family : Z) : verdict :=
  if negb (arch =? auditArch) then Kill
  else if bool_decide (nr ∈ deniedSyscalls mode sc) then Eperm
  else match mode with
       | NetworkSeccompModeNone => Allow
       | NetworkSeccompModeRestricted =>
           if (nr =? socket sc) || (nr =? socketpair sc) then allow_if (family =? afUNIX) else Allow
       | NetworkSeccompModeProxyRouted =>
           if nr =? socket sc then allow_if ((family =? afINET) || (family =? afINET6))
           else if nr =? socketpair sc then allow_if (negb (family =? afUNIX))
           else Allow
       end.

(** ** The blocks of the program *)

(** Running one instruction, and taking a jump that has been decided. *)
Ltac run1 :=
  first [rewrite run_load by reflexivity | rewrite run_jump by reflexivity | rewrite run_ret by reflexivity];
  cbn [K Jt Jf].
Ltac take_jump :=
  repeat match goal with
         | |- context [Z.to_nat ?z] => let n := eval compute in (Z.to_nat z) in change (Z.to_nat z) with n
         end; cbn [drop app]; rewrite ?drop_0.

Section Blocks.
Context `{ClassicBPF} (d : seccomp_data).

(** A builder step appends a block that does not depend on what is there. *)
Definition appends (emit : bpfBuilder -> bpfBuilder) : Prop := forall b, emit b = b ++ emit [].

Lemma stmt_appends code k : appends (stmt code k).
Proof. done. Qed.
Lemma jump_appends code k jt jf : appends (jump code k jt jf).
Proof. done. Qed.

Lemma gate_appends nr kind family : appends (emitSocketFamilyGate nr kind family).
Proof.
  intros b. destruct kind; cbn; unfold emitAllowEqualBlock, emitAllowInetBlock, emitDenyUnixBlock, stmt, jump;
    by rewrite <- !(assoc (++)).
Qed.

Lemma denied_appends denied : appends (emitDenied denied).
Proof.
  unfold emitDenied. induction denied as [|nr denied IH]; intros b; simpl; [by rewrite app_nil_r|].
  rewrite IH, (IH (stmt _ _ (jump _ _ _ _ []))). unfold stmt, jump. by rewrite <- !(assoc (++)).
Qed.

Definition nr := d seccompDataNROffset.
Definition family := d seccompDataArg0LowOffset.

Lemma run_gate n kind fam rest : bpf_run d (emitSocketFamilyGate n kind fam [] ++ rest) nr =
  if nr =? n
  then Some (verdict_code (allow_if match kind with
                                    | allowFamilyEqual => family =? fam
                                    | allowFamilyInetOnly => (family =? afINET) || (family =? afINET6)
                                    | denyFamilyUnix => negb (family =? afUNIX)
                                    end))
  else bpf_run d rest nr.
Proof.
  destruct kind; cbn [emitSocketFamilyGate];
    unfold emitAllowEqualBlock, emitAllowInetBlock, emitDenyUnixBlock, stmt, jump; cbn [app]; run1;
    destruct (nr =? n); take_jump; try done; run1; run1; fold family.
  - destruct (family =? fam); take_jump; by run1.
  - destruct (family =? afINET); take_jump; run1; [done|]. destruct (family =? afINET6); take_jump; by run1.
  - destruct (family =? afUNIX); take_jump; by run1.
Qed.

Lemma run_denied denied rest : bpf_run d (emitDenied denied [] ++ rest) nr =
  if bool_decide (nr ∈ denied) then Some (verdict_code Eperm) else bpf_run d rest nr.
Proof.
  induction denied as [|n denied IH]; [done|].
  change (emitDenied (n :: denied) []) with (emitDenied denied (stmt ret_constant (seccompRetErrno errnoEPERM) (jump jump_equal n 0 1 []))).
  rewrite (denied_appends denied). unfold stmt, jump. cbn [app]. run1.
  destruct (Z.eqb_spec nr n) as [<-|Hne]; take_jump; [run1|].
  - by rewrite bool_decide_eq_true_2 by apply list_elem_of_here.
  - rewrite IH. assert (bool_decide (nr ∈ n :: denied) = bool_decide (nr ∈ denied)) as ->; [|done].
    apply bool_decide_ext. rewrite elem_of_cons. naive_solver.
Qed.

End Blocks.

Section Properties.
Context `{ClassicBPF}.

Lemma filter_decides mode auditArch sc prog : buildNetworkSeccompProgram mode auditArch sc = Some prog ->
  mode <> NetworkSeccompModeNone /\ forall d a,
    bpf_run d prog a = Some (verdict_code (decision mode auditArch sc
      (d seccompDataArchOffset) (d seccompDataNROffset) (d seccompDataArg0LowOffset))).
Proof.
  unfold buildNetworkSeccompProgram. destruct (decide (mode = NetworkSeccompModeNone)) as [|Hm]; [done|].
  intros Hp%(inj Some). rewrite <- Hp. clear Hp. split; [done|]. intros d a. unfold decision. fold (nr d) (family d).
  set (head := stmt load_word seccompDataNROffset _).
  assert (Hhead : forall rest, bpf_run d (head ++ rest) a =
    if d seccompDataArchOffset =? auditArch then bpf_run d rest (nr d) else Some seccompRetKillProc).
  { intros rest. unfold head, stmt, jump. cbn [app]. run1. run1.
    destruct (_ =? _); take_jump; run1; done. }
  clearbody head. destruct mode; [done|..].
  all: rewrite stmt_appends, (gate_appends (socketpair sc)), (gate_appends (socket sc)), denied_appends, <- !(assoc (++)), Hhead.
  all: destruct (_ =? auditArch); [|done]; rewrite run_denied, !run_gate; unfold stmt; cbn [app].
  all: rewrite run_ret by reflexivity; destruct (bool_decide _); [done|]; destruct (nr d =? socket sc), (nr d =? socketpair sc); done.
Qed.

(** The families that [native_spec.go] names for a mode. *)
Definition documented (mode : NetworkSeccompMode) (fam : Z) : bool :=
  match mode with
  | NetworkSeccompModeNone => true
  | NetworkSeccompModeRestricted => fam =? afUNIX
  | NetworkSeccompModeProxyRouted => (fam =? afINET) || (fam =? afINET6)
  end.

(** C30: The assembled program decides every system call by the table
    [decision]: a foreign architecture kills the process; the listed calls are
    refused with EPERM, whatever their arguments; [socket] and [socketpair] are
    decided by the address family; every other number is allowed. There is no
    program exactly when no mode is asked for. Against the documentation of the
    modes: [socket] creates exactly the documented families in both modes, and so
    does [socketpair] in the restricted mode; in the proxy mode [socketpair] is
    refused for AF_UNIX and allowed for every other family. And a number outside
    the table is allowed, those of the x32 calls included. *)
Theorem network_filter_decides mode auditArch sc :
  match buildNetworkSeccompProgram mode auditArch sc with
  | None => mode = NetworkSeccompModeNone
  | Some prog => mode <> NetworkSeccompModeNone /\ forall d a,
      let arch := d seccompDataArchOffset in
      let nr := d seccompDataNROffset in
      let fam := d seccompDataArg0LowOffset in
      bpf_run d prog a = Some (verdict_code (decision mode auditArch sc arch nr fam))
      /\ (arch = auditArch -> nr ∉ deniedSyscalls mode sc ->
           (nr = socket sc -> bpf_run d prog a = Some (verdict_code (allow_if (documented mode fam))))
           /\ (nr = socketpair sc -> nr <> socket sc -> bpf_run d prog a =
                Some (verdict_code (allow_if match mode with
                                             | NetworkSeccompModeProxyRouted => negb (fam =? afUNIX)
                                             | _ => documented mode fam
                                             end)))
           /\ (nr <> socket sc -> nr <> socketpair sc -> bpf_run d prog a = Some seccompRetAllow))
  end.
Proof.
  destruct (buildNetworkSeccompProgram mode auditArch sc) as [prog|] eqn:E.
  2: { unfold buildNetworkSeccompProgram in E. by destruct (decide _). }
  destruct (filter_decides _ _ _ _ E) as [Hm Hd]. split; [done|]. intros d a arch n fam. rewrite Hd. fold arch n fam.
  split; [done|]. intros Ha Hn. unfold decision. rewrite Ha, Z.eqb_refl, bool_decide_eq_false_2 by done. cbn [negb]. split_and!.
  - intros ->. rewrite Z.eqb_refl. by destruct mode.
  - intros -> Hne%Z.eqb_neq. rewrite Hne, Z.eqb_refl. by destruct mode.
  - intros H1%Z.eqb_neq H2%Z.eqb_neq. rewrite H1, H2. by destruct mode.
Qed.

(** A system call number that the table does not have is allowed, whatever its
    arguments. *)
Lemma unlisted_allowed mode auditArch sc prog d a :
  buildNetworkSeccompProgram mode auditArch sc = Some prog ->
  d seccompDataArchOffset = auditArch ->
  d seccompDataNROffset ∉ deniedSyscalls mode sc ->
  d seccompDataNROffset <> socket sc -> d seccompDataNROffset <> socketpair sc ->
  bpf_run d prog a = Some seccompRetAllow.
Proof.
  intros Hp Ha Hd H1 H2. destruct (filter_decides mode auditArch sc prog Hp) as [Hm Hrun].
  rewrite Hrun. unfold decision. rewrite Ha, Z.eqb_refl, bool_decide_eq_false_2 by done. simpl.
  rewrite (proj2 (Z.eqb_neq _ _) H1), (proj2 (Z.eqb_neq _ _) H2). by destruct mode.
Qed.

End Properties.

(** ** An interpreter *)

(** [skip] instructions are still to be jumped over. *)
Fixpoint interp (d : seccomp_data) (prog : list sockFilterInstr) (skip : nat) (a : Z) : option Z :=
  match prog, skip with
  | [], _ => None
  | _ :: prog, S skip => interp d prog skip a
  | i :: prog, O =>
      if Code i =? load_word then interp d prog 0 (d (K i))
      else if Code i =? jump_equal then interp d prog (Z.to_nat (if a =? K i then Jt i else Jf i)) a
      else if Code i =? ret_constant then Some (K i)
      else None
  end.

Lemma interp_skip d prog skip a : interp d prog skip a = interp d (drop skip prog) 0 a.
Proof.
  revert skip. induction prog as [|i prog IH]; intros [|skip]; simpl; [done..|]. apply IH.
Qed.

#[local] Instance interpreter : ClassicBPF.
Proof.
  refine {| bpf_run d prog a := interp d prog 0 a |}; intros d i prog a Hc; simpl; rewrite Hc; simpl; [done| |done].
  apply interp_skip.
Defined.

(** ** x86-64 *)

Definition amd64 : networkSeccompSyscalls := {|
  ptrace := 101; processVMReadv := 310; processVMWritev := 311;
  ioUringSetup := 425; ioUringEnter := 426; ioUringRegister := 427;
  connect := 42; accept := 43; accept4 := 288; bind_ := 49; listen := 50;
  getpeername := 52; getsockname := 51; shutdown := 48; sendto := 44;
  sendmmsg := 307; recvmmsg := 299; getsockopt := 55; setsockopt := 54;
  socket := 41; socketpair := 53 |}.

(** A call's data: architecture, number, first argument. *)
Definition syscall_data (arch nr arg0 : Z) : seccomp_data := fun k =>
  if k =? seccompDataArchOffset then arch else if k =? seccompDataNROffset then nr
  else if k =? seccompDataArg0LowOffset then arg0 else 0.

Definition restricted_amd64 : list sockFilterInstr :=
  default [] (buildNetworkSeccompProgram NetworkSeccompModeRestricted auditArchX8664 amd64).

Definition run_amd64 (nr arg0 : Z) : option Z := bpf_run (syscall_data auditArchX8664 nr arg0) restricted_amd64 0.

Example restricted_calls :
  map (fun '(nr, arg0) => run_amd64 nr arg0) [(42, 0); (41, afUNIX); (41, afINET); (53, afINET6); (1, 0)]
  = Some <$> [seccompRetErrno 1; seccompRetAllow; seccompRetErrno 1; seccompRetErrno 1; seccompRetAllow].
Proof. reflexivity. Qed.

Lemma network_filter_decides_witness :
  bpf_run (syscall_data auditArchX8664 41 afINET) restricted_amd64 0 =
  Some (verdict_code (decision NetworkSeccompModeRestricted auditArchX8664 amd64 auditArchX8664 41 afINET)).
Proof.
  pose proof (network_filter_decides NetworkSeccompModeRestricted auditArchX8664 amd64) as Hf.
  exact (proj1 (proj2 Hf (syscall_data auditArchX8664 41 afINET) 0)).
Defined.

(** The x32 calls of an x86-64 kernel have the same architecture value and the
    bit [2 ^ 30] in their number: no number of the table matches them. *)
Definition x32 (nr : Z) : Z := 2 ^ 30 + nr.

Lemma amd64_program : buildNetworkSeccompProgram NetworkSeccompModeRestricted auditArchX8664 amd64 = Some restricted_amd64.
Proof. reflexivity. Qed.

Lemma high_allowed n arg0 : 425 + 2 < n -> run_amd64 n arg0 = Some seccompRetAllow.
Proof.
  intros Hn. unfold run_amd64. apply (unlisted_allowed _ _ _ _ _ _ amd64_program); [done|..];
    change (syscall_data auditArchX8664 n arg0 seccompDataNROffset) with n; [|simpl; lia..].
  intros Hin. unfold deniedSyscalls in Hin. simpl in Hin.
  repeat (apply elem_of_cons in Hin as [Hin|Hin]; [lia|]). by apply elem_of_nil in Hin.
Qed.

Lemma x32_allowed nr arg0 : 0 <= nr -> run_amd64 (x32 nr) arg0 = Some seccompRetAllow.
Proof. intros Hnr. apply high_allowed. unfold x32. change (2 ^ 30) with 1073741824. lia. Qed.

(** In proxy mode a pair of sockets of any family but AF_UNIX passes: 17 is AF_PACKET. *)
Example proxy_socketpair_allowed :
  (fun prog => bpf_run (syscall_data auditArchX8664 53 17) prog 0)
    <$> buildNetworkSeccompProgram NetworkSeccompModeProxyRouted auditArchX8664 amd64 = Some (Some seccompRetAllow).
Proof. reflexivity. Qed.

Example x32_socket_allowed : run_amd64 (x32 41) afINET = Some seccompRetAllow /\ run_amd64 (x32 42) 0 = Some seccompRetAllow.
Proof. split; reflexivity. Qed.

End Seccomp.
