(* ===== verification/Permissions.v ===== *)
(** * internal/protocol: permission policies and profiles

    The data of [permissions.go], [permission_profile.go] and [sandbox.go]: the
    filesystem and network policies, the partial overlays, the tagged profile
    and the legacy sandbox policy, with the conversions between them.  A Go
    string used as an enumeration is an inductive type with a constructor for
    every named constant and one for any other string; the decoders are modelled
    from the raw struct that the JSON library fills. *)

From stdpp Require Import base list.
From S2P Require Import Prelude GoStrings.

Module Permissions.

(** ** permissions.go *)

Inductive NetworkSandboxPolicy :=
| NetworkSandboxPolicyRestricted
| NetworkSandboxPolicyEnabled
| NetworkSandboxPolicyOther (s : gostring).

Definition IsEnabled (n : NetworkSandboxPolicy) : bool :=
  match n with NetworkSandboxPolicyEnabled => true | _ => false end.

Inductive FileSystemAccessMode :=
| FileSystemAccessModeRead
| FileSystemAccessModeWrite
| FileSystemAccessModeDeny
| FileSystemAccessModeOther (s : gostring).
#[export] Instance FileSystemAccessMode_eq_dec : EqDecision FileSystemAccessMode.
Proof. solve_decision. Defined.

Definition CanRead (m : FileSystemAccessMode) : bool := bool_decide (m <> FileSystemAccessModeDeny).
Definition CanWrite (m : FileSystemAccessMode) : bool := bool_decide (m = FileSystemAccessModeWrite).

(** [FileSystemAccessMode.UnmarshalJSON], from the decoded string. *)
Definition access_mode_of_string (s : gostring) : FileSystemAccessMode :=
  let s := if decide (s = str "none") then str "deny" else s in
  if decide (s = str "read") then FileSystemAccessModeRead
  else if decide (s = str "write") then FileSystemAccessModeWrite
  else if decide (s = str "deny") then FileSystemAccessModeDeny
  else FileSystemAccessModeOther s.
Definition access_mode_to_string (m : FileSystemAccessMode) : gostring :=
  match m with
  | FileSystemAccessModeRead => str "read"
  | FileSystemAccessModeWrite => str "write"
  | FileSystemAccessModeDeny => str "deny"
  | FileSystemAccessModeOther s => s
  end.

Inductive FileSystemSpecialPathKind :=
| FileSystemSpecialPathKindRoot
| FileSystemSpecialPathKindMinimal
| FileSystemSpecialPathKindProjectRoots
| FileSystemSpecialPathKindTmpdir
| FileSystemSpecialPathKindSlashTmp
| FileSystemSpecialPathKindUnknown
| FileSystemSpecialPathKindOther (s : gostring).
#[export] Instance FileSystemSpecialPathKind_eq_dec : EqDecision FileSystemSpecialPathKind.
Proof. solve_decision. Defined.

Record FileSystemSpecialPath := mkFileSystemSpecialPath {
  SpecialKind : FileSystemSpecialPathKind;
  Subpath : option gostring;
  SpecialPath : gostring;
}.
#[export] Instance FileSystemSpecialPath_eq_dec : EqDecision FileSystemSpecialPath.
Proof. solve_decision. Defined.

Definition NewProjectRootsSpecialPath (subpath : option gostring) : FileSystemSpecialPath :=
  mkFileSystemSpecialPath FileSystemSpecialPathKindProjectRoots subpath [].
Definition NewUnknownSpecialPath (path : gostring) (subpath : option gostring) : FileSystemSpecialPath :=
  mkFileSystemSpecialPath FileSystemSpecialPathKindUnknown subpath path.
(** The composite literal with the other fields zero. *)
Definition special_of (kind : FileSystemSpecialPathKind) : FileSystemSpecialPath :=
  mkFileSystemSpecialPath kind None [].

Inductive FileSystemPathType :=
| FileSystemPathTypePath
| FileSystemPathTypeGlobPattern
| FileSystemPathTypeSpecial
| FileSystemPathTypeOther (s : gostring).
#[export] Instance FileSystemPathType_eq_dec : EqDecision FileSystemPathType.
Proof. solve_decision. Defined.

Record FileSystemPath := mkFileSystemPath {
  PathType : FileSystemPathType;
  Path : gostring;
  Pattern : gostring;
  Special : option FileSystemSpecialPath;
}.
#[export] Instance FileSystemPath_eq_dec : EqDecision FileSystemPath.
Proof. solve_decision. Defined.

Definition NewFileSystemPath (path : gostring) : FileSystemPath :=
  mkFileSystemPath FileSystemPathTypePath path [] None.
Definition NewFileSystemGlobPattern (pattern : gostring) : FileSystemPath :=
  mkFileSystemPath FileSystemPathTypeGlobPattern [] pattern None.
Definition NewFileSystemSpecialPath (value : FileSystemSpecialPath) : FileSystemPath :=
  mkFileSystemPath FileSystemPathTypeSpecial [] [] (Some value).

Record FileSystemSandboxEntry := mkFileSystemSandboxEntry {
  EntryPath : FileSystemPath;
  Access : FileSystemAccessMode;
}.
#[export] Instance FileSystemSandboxEntry_eq_dec : EqDecision FileSystemSandboxEntry.
Proof. solve_decision. Defined.

Inductive FileSystemSandboxKind :=
| FileSystemSandboxKindRestricted
| FileSystemSandboxKindUnrestricted
| FileSystemSandboxKindExternalSandbox
| FileSystemSandboxKindOther (s : gostring).
#[export] Instance FileSystemSandboxKind_eq_dec : EqDecision FileSystemSandboxKind.
Proof. solve_decision. Defined.

Record FileSystemSandboxPolicy := mkFileSystemSandboxPolicy {
  PolicyKind : FileSystemSandboxKind;
  PolicyGlobScanMaxDepth : option N;
  PolicyEntries : list FileSystemSandboxEntry;
}.

Definition DefaultFileSystemSandboxPolicy : FileSystemSandboxPolicy :=
  mkFileSystemSandboxPolicy FileSystemSandboxKindRestricted None
    [mkFileSystemSandboxEntry (NewFileSystemSpecialPath (special_of FileSystemSpecialPathKindRoot)) FileSystemAccessModeRead].

Record FileSystemPermissions := mkFileSystemPermissions {
  PermEntries : list FileSystemSandboxEntry;
  PermGlobScanMaxDepth : option N;
}.

Definition FileSystemPermissions_IsEmpty (f : FileSystemPermissions) : bool :=
  match PermEntries f with [] => true | _ => false end.

(** The loop of [asLegacyRoots] over the entries. *)
Fixpoint legacy_roots_loop (entries : list FileSystemSandboxEntry) (read write : list gostring) :
  option (list gostring * list gostring) :=
  match entries with
  | [] => Some (read, write)
  | entry :: entries =>
      match PathType (EntryPath entry) with
      | FileSystemPathTypePath =>
          match Access entry with
          | FileSystemAccessModeRead => legacy_roots_loop entries (read ++ [Path (EntryPath entry)]) write
          | FileSystemAccessModeWrite => legacy_roots_loop entries read (write ++ [Path (EntryPath entry)])
          | _ => None
          end
      | _ => None
      end
  end.

Definition asLegacyRoots (f : FileSystemPermissions) : option (list gostring * list gostring) :=
  match PermGlobScanMaxDepth f with
  | Some _ => None
  | None => legacy_roots_loop (PermEntries f) [] []
  end.

Definition fileSystemPermissionsFromReadWrite (read write : list gostring) : FileSystemPermissions :=
  mkFileSystemPermissions
    (map (fun p => mkFileSystemSandboxEntry (NewFileSystemPath p) FileSystemAccessModeRead) read
     ++ map (fun p => mkFileSystemSandboxEntry (NewFileSystemPath p) FileSystemAccessModeWrite) write) None.

(** [NetworkPermissions] and [AdditionalPermissionProfile]; a nil pointer is [None]. *)
Record NetworkPermissions := mkNetworkPermissions { Enabled : option bool }.
Record AdditionalPermissionProfile := mkAdditionalPermissionProfile {
  AdditionalNetwork : option NetworkPermissions;
  AdditionalFileSystem : option FileSystemPermissions;
}.

(** ** permission_profile.go *)

Inductive SandboxEnforcement :=
| SandboxEnforcementManaged
| SandboxEnforcementDisabled
| SandboxEnforcementExternal.
#[export] Instance SandboxEnforcement_eq_dec : EqDecision SandboxEnforcement.
Proof. solve_decision. Defined.

Inductive ManagedFileSystemPermissionsKind :=
| ManagedFileSystemPermissionsRestricted
| ManagedFileSystemPermissionsUnrestricted
| ManagedFileSystemPermissionsOther (s : gostring).

Record ManagedFileSystemPermissions := mkManagedFileSystemPermissions {
  ManagedKind : ManagedFileSystemPermissionsKind;
  ManagedEntries : list FileSystemSandboxEntry;
  ManagedGlobScanMaxDepth : option N;
}.

Definition NewRestrictedManagedFileSystem (entries : list FileSystemSandboxEntry) (depth : option N) :=
  mkManagedFileSystemPermissions ManagedFileSystemPermissionsRestricted entries depth.
Definition NewUnrestrictedManagedFileSystem :=
  mkManagedFileSystemPermissions ManagedFileSystemPermissionsUnrestricted [] None.
(** The zero value of the struct: its kind is the empty string. *)
Definition zero_managed := mkManagedFileSystemPermissions (ManagedFileSystemPermissionsOther []) [] None.

Definition ToSandboxPolicy (m : ManagedFileSystemPermissions) : FileSystemSandboxPolicy :=
  match ManagedKind m with
  | ManagedFileSystemPermissionsRestricted =>
      mkFileSystemSandboxPolicy FileSystemSandboxKindRestricted (ManagedGlobScanMaxDepth m) (ManagedEntries m)
  | _ => mkFileSystemSandboxPolicy FileSystemSandboxKindUnrestricted None []
  end.

Inductive PermissionProfileKind :=
| PermissionProfileManaged
| PermissionProfileDisabled
| PermissionProfileExternal
| PermissionProfileOther (s : gostring).

Record PermissionProfile := mkPermissionProfile {
  ProfileKind : PermissionProfileKind;
  FileSystem : ManagedFileSystemPermissions;
  Network : NetworkSandboxPolicy;
}.

Definition NewManagedPermissionProfile (fileSystem : ManagedFileSystemPermissions) (network : NetworkSandboxPolicy) :=
  mkPermissionProfile PermissionProfileManaged fileSystem network.
Definition NewDisabledPermissionProfile :=
  mkPermissionProfile PermissionProfileDisabled zero_managed (NetworkSandboxPolicyOther []).
Definition NewExternalPermissionProfile (network : NetworkSandboxPolicy) :=
  mkPermissionProfile PermissionProfileExternal zero_managed network.
Definition DefaultPermissionProfile :=
  NewManagedPermissionProfile (NewRestrictedManagedFileSystem [] None) NetworkSandboxPolicyRestricted.

Definition Enforcement (p : PermissionProfile) : SandboxEnforcement :=
  match ProfileKind p with
  | PermissionProfileManaged => SandboxEnforcementManaged
  | PermissionProfileDisabled => SandboxEnforcementDisabled
  | _ => SandboxEnforcementExternal
  end.

(** The struct that [decodeTaggedPermissionProfile] unmarshals into. *)
Record raw_profile := mk_raw_profile {
  raw_type : option PermissionProfileKind;
  raw_file_system : option ManagedFileSystemPermissions;
  raw_network : option NetworkSandboxPolicy;
}.

Definition decodeTaggedPermissionProfile (raw : raw_profile) : option PermissionProfile :=
  match raw_type raw with
  | Some PermissionProfileManaged =>
      Some (NewManagedPermissionProfile (default zero_managed (raw_file_system raw))
              (default NetworkSandboxPolicyRestricted (raw_network raw)))
  | Some PermissionProfileDisabled => Some NewDisabledPermissionProfile
  | Some PermissionProfileExternal =>
      Some (NewExternalPermissionProfile (default NetworkSandboxPolicyRestricted (raw_network raw)))
  | _ => None
  end.

Definition fileSystemSandboxPolicyFromPermissions (perms : FileSystemPermissions) : FileSystemSandboxPolicy :=
  mkFileSystemSandboxPolicy FileSystemSandboxKindRestricted (PermGlobScanMaxDepth perms) (PermEntries perms).

Definition permissionProfileFromRuntime (fsPolicy : FileSystemSandboxPolicy) (network : NetworkSandboxPolicy) :
  PermissionProfile :=
  match PolicyKind fsPolicy with
  | FileSystemSandboxKindExternalSandbox => NewExternalPermissionProfile network
  | FileSystemSandboxKindUnrestricted => NewManagedPermissionProfile NewUnrestrictedManagedFileSystem network
  | _ => NewManagedPermissionProfile
           (NewRestrictedManagedFileSystem (PolicyEntries fsPolicy) (PolicyGlobScanMaxDepth fsPolicy)) network
  end.

(** [decodeLegacyPermissionProfile], from the decoded struct. *)
Definition decodeLegacyPermissionProfile (network : option NetworkPermissions)
  (fileSystem : option FileSystemPermissions) : PermissionProfile :=
  let fsPolicy := match fileSystem with
                  | Some perms => fileSystemSandboxPolicyFromPermissions perms
                  | None => mkFileSystemSandboxPolicy FileSystemSandboxKindRestricted None []
                  end in
  let networkPolicy := match network with
                       | Some (mkNetworkPermissions (Some true)) => NetworkSandboxPolicyEnabled
                       | _ => NetworkSandboxPolicyRestricted
                       end in
  permissionProfileFromRuntime fsPolicy networkPolicy.

(** ** sandbox.go *)

Inductive NetworkAccess := NetworkAccessRestricted | NetworkAccessEnabled | NetworkAccessUnset.

Inductive SandboxPolicyType :=
| SandboxPolicyTypeDangerFullAccess
| SandboxPolicyTypeReadOnly
| SandboxPolicyTypeExternalSandbox
| SandboxPolicyTypeWorkspaceWrite.
#[export] Instance SandboxPolicyType_eq_dec : EqDecision SandboxPolicyType.
Proof. solve_decision. Defined.

Record SandboxPolicy := mkSandboxPolicy {
  LegacyType : SandboxPolicyType;
  NetworkAccessBool : bool;
  LegacyNetworkAccess : NetworkAccess;
  LegacyWritableRoots : list gostring;
  ExcludeTmpdirEnvVar : bool;
  ExcludeSlashTmp : bool;
}.

Definition NewReadOnlySandboxPolicy (networkAccess : bool) : SandboxPolicy :=
  mkSandboxPolicy SandboxPolicyTypeReadOnly networkAccess NetworkAccessUnset [] false false.
Definition NewDangerFullAccessSandboxPolicy : SandboxPolicy :=
  mkSandboxPolicy SandboxPolicyTypeDangerFullAccess false NetworkAccessUnset [] false false.

Record WritableRoot := mkWritableRoot {
  Root : gostring;
  ReadOnlySubpaths : list gostring;
  ProtectedMetadataNames : list gostring;
}.

(** ** Conversions *)

Definition read_entry (p : gostring) := mkFileSystemSandboxEntry (NewFileSystemPath p) FileSystemAccessModeRead.
Definition write_entry (p : gostring) := mkFileSystemSandboxEntry (NewFileSystemPath p) FileSystemAccessModeWrite.

Lemma legacy_roots_loop_reads reads rest read write :
  legacy_roots_loop (map read_entry reads ++ rest) read write = legacy_roots_loop rest (read ++ reads) write.
Proof.
  revert read. induction reads as [|p reads IH]; intros read; cbn; [by rewrite app_nil_r|].
  rewrite IH, <- (assoc (++)). done.
Qed.

Lemma legacy_roots_loop_writes writes read write :
  legacy_roots_loop (map write_entry writes) read write = Some (read, write ++ writes).
Proof.
  revert write. induction writes as [|p writes IH]; intros write; cbn; [by rewrite app_nil_r|].
  rewrite IH, <- (assoc (++)). done.
Qed.

(** A legacy read/write list survives the canonical form. *)
Lemma asLegacyRoots_fromReadWrite read write :
  asLegacyRoots (fileSystemPermissionsFromReadWrite read write) = Some (read, write).
Proof.
  unfold asLegacyRoots, fileSystemPermissionsFromReadWrite. cbn [PermGlobScanMaxDepth PermEntries].
  fold read_entry write_entry. rewrite legacy_roots_loop_reads. apply legacy_roots_loop_writes.
Qed.

(** Access modes survive their JSON text; the only text that changes is the
    legacy alias. *)
Lemma access_mode_roundtrip s : s <> str "none" -> access_mode_to_string (access_mode_of_string s) = s.
Proof.
  intros H. unfold access_mode_of_string. cbv zeta. rewrite (decide_False (P := s = str "none")) by done.
  repeat case_decide; subst; reflexivity.
Qed.

Example none_is_deny : access_mode_of_string (str "none") = FileSystemAccessModeDeny.
Proof. reflexivity. Qed.

(** A managed profile that is written without [file_system] is decoded as one
    with an unrestricted filesystem. *)
Example managed_without_file_system :
  ToSandboxPolicy <$> (FileSystem <$> decodeTaggedPermissionProfile
    (mk_raw_profile (Some PermissionProfileManaged) None (Some NetworkSandboxPolicyRestricted)))
  = Some (mkFileSystemSandboxPolicy FileSystemSandboxKindUnrestricted None []).
Proof. reflexivity. Qed.

End Permissions.
