(* ===== verification/SandboxPath.v ===== *)
(** * internal/sandbox: paths

    [pathutil.go] on Unix: candidate paths, the component-aware prefix test,
    component counts, filesystem roots, and the removal of duplicate roots
    through symbolic links.  What the code asks the operating system is the
    class [SandboxWorld].  On clean absolute paths every operation is one on
    lists of segments. *)

From stdpp Require Import base list.
From S2P Require Import Prelude GoStrings AbsPath GoPath.

Module SandboxPath.
Import AbsPath GoPath.

(** The answers of the operating system, fixed during a resolution: the home
    directory, [os.Getwd], the variable TMPDIR (empty when unset), [os.Stat] for
    a directory or a regular file, whether [os.Lstat] succeeds, and
    [filepath.EvalSymlinks]. *)
Class SandboxWorld := {
  homeDir : option gostring;
  getwd : option gostring;
  tmpdir_env : gostring;
  isDir : gostring -> bool;
  isFile : gostring -> bool;
  lstat : gostring -> bool;
  evalSymlinks : gostring -> option gostring;
}.

Section Paths.
Context `{World : SandboxWorld}.

(** ** pathutil.go *)

Definition FromAbsolute (p : gostring) : option gostring := FromAbsolutePath false homeDir getwd p.

Definition resolveCandidatePath (target cwd : gostring) : option gostring :=
  if isAbsolute false target then FromAbsolute target
  else base ← FromAbsolute cwd; Some (Join false homeDir base target).

Definition resolvePathAgainstBase (target base : gostring) : gostring :=
  ResolvePathAgainstBase false homeDir target base.

Definition normalizeAbsolute (p : gostring) : gostring := default p (FromAbsolute p).

Definition pathStartsWith (child parent : gostring) : bool :=
  if decide (parent = []) then false
  else if decide (child = parent) then true
  else if decide (parent = [slash]) then has_prefix child [slash]
  else has_prefix child (parent ++ [slash]).

Definition stripPrefixPath (child parent : gostring) : option gostring :=
  if negb (pathStartsWith child parent) then None
  else if decide (child = parent) then Some []
  else if decide (parent = [slash]) then Some (trim_prefix child [slash])
  else Some (trim_prefix child (parent ++ [slash])).

Definition trim_slashes (s : gostring) : gostring :=
  reverse (trim_left_bytes (fun b => bool_decide (b = slash))
    (reverse (trim_left_bytes (fun b => bool_decide (b = slash)) s))).

Definition componentCount (p : gostring) : nat :=
  if decide (p = []) then 0
  else (if has_prefix p [slash] then 1 else 0)
       + length (filter (fun part => part <> []) (split_byte slash (trim_slashes p))).

Definition parentless (p : gostring) : bool :=
  match p with
  | [c] => bool_decide (c = slash)
  | [_; b; c] => bool_decide (b = ":"%char) && (bool_decide (c = backslash) || bool_decide (c = slash))
  | _ => false
  end.

Definition filesystemRootForPath (p : gostring) : gostring :=
  let fallback := if has_prefix p [slash] then [slash] else p in
  match FromAbsolute p with
  | Some abs => match Ancestors false abs ≫= last with Some root => root | None => fallback end
  | None => fallback
  end.

(** The loop of [normalizeEffectiveAbsolutePath]; it ends with [None] at the
    topmost ancestor. *)
Fixpoint effective_loop (fuel : nat) (p ancestor : gostring) : result unit (option gostring) :=
  match fuel with
  | O => Panic
  | S fuel =>
      let found := if lstat ancestor
                   then canonical ← evalSymlinks ancestor; FromAbsolute (canonical ++ trim_prefix p ancestor)
                   else None in
      match found with
      | Some abs => Ok (Some abs)
      | None => let parent := Dir ancestor in
                if decide (parent = ancestor) then Ok None else effective_loop fuel p parent
      end
  end.

Definition effective_fuel (p : gostring) : nat := length p + 3.

Definition normalizeEffectiveAbsolutePath (p : gostring) : gostring :=
  match effective_loop (effective_fuel p) p p with
  | Ok (Some abs) => abs
  | _ => default p (FromAbsolute p)
  end.

Fixpoint dedup_from (key : gostring -> gostring) (seen paths : list gostring) : list gostring :=
  match paths with
  | [] => []
  | p :: paths =>
      let k := key p in
      if decide (k ∈ seen) then dedup_from key seen paths else k :: dedup_from key (k :: seen) paths
  end.

Definition dedupPaths (paths : list gostring) : list gostring := dedup_from normalizeEffectiveAbsolutePath [] paths.
Definition dedupPathsNoNormalize (paths : list gostring) : list gostring := dedup_from id [] paths.

(** ** On clean paths *)

Definition clean := Forall wf_clean_seg.
Definition wf := Forall wf_seg.

Lemma clean_wf segs : clean segs -> wf segs.
Proof. apply Forall_clean_wf. Qed.

Lemma clean_app (a b : list gostring) : clean (a ++ b) <-> clean a /\ clean b.
Proof. apply Forall_app. Qed.

Lemma clean_prefix (a b : list gostring) : a `prefix_of` b -> clean b -> clean a.
Proof. intros [k ->] [? _]%clean_app. done. Qed.

Lemma upath_root segs : wf segs -> upath segs = [slash] -> segs = [].
Proof. intros Hw E. apply (upath_inj segs []); [done|constructor|done]. Qed.

Lemma split_below (b : list gostring) rest : wf b -> b <> [] ->
  split_byte slash (upath b ++ [slash] ++ rest) = [] :: b ++ split_byte slash rest.
Proof.
  intros Hb Hne. change (upath b ++ [slash] ++ rest) with (upath b ++ slash :: rest).
  rewrite split_byte_app_sep, split_upath by done. by destruct b.
Qed.

(** The prefix test is the prefix order on segments. *)
Lemma pathStartsWith_upath (a b : list gostring) : wf a -> wf b ->
  pathStartsWith (upath a) (upath b) = bool_decide (b `prefix_of` a).
Proof.
  intros Ha Hb. unfold pathStartsWith. rewrite decide_False by apply upath_nonempty. symmetry.
  case_decide as Heq; [apply upath_inj in Heq as ->; [|done..]; by apply bool_decide_eq_true_2|].
  case_decide as Hroot.
  { apply upath_root in Hroot as ->; [|done]. rewrite bool_decide_eq_true_2 by apply prefix_nil.
    symmetry. apply has_prefix_true. by eexists. }
  assert (b <> []) as Hne by (by intros ->).
  apply Bool.eq_iff_eq_true. rewrite bool_decide_eq_true, has_prefix_true. split.
  - intros [k ->]. destruct k as [|x k]; [by rewrite app_nil_r in Heq|].
    exists (join [slash] (x :: k)). by rewrite upath_app, <- (assoc (++)).
  - intros [r E]. rewrite <- (assoc (++)) in E. apply (f_equal (split_byte slash)) in E.
    rewrite (split_below b), split_upath in E by done. injection E as E.
    destruct a as [|x a]; [|rewrite E; by apply prefix_app_r].
    destruct b as [|y b]; [done|]. injection E as <- _. by apply Forall_inv in Hb as [? _].
Qed.

Lemma join_last segs : wf segs -> last_is (fun b => bool_decide (b = slash)) (join [slash] segs) = false.
Proof.
  intros H. destruct segs as [|s segs _] using rev_ind; [done|].
  apply Forall_app in H as [_ [Hs Hn]%Forall_inv].
  assert (exists pre, join [slash] (segs ++ [s]) = pre ++ s) as [pre ->].
  { destruct segs as [|x segs]; [by exists []|]. rewrite join_snoc by done.
    exists (join [slash] (x :: segs) ++ [slash]). by rewrite <- (assoc (++)). }
  destruct s as [|c s _] using rev_ind; [done|]. unfold last_is. rewrite (assoc (++)), last_snoc.
  apply bool_decide_eq_false_2. intros ->. apply Hn. apply elem_of_app. right. by constructor.
Qed.

Lemma trim_slashes_upath segs : wf segs -> trim_slashes (upath segs) = join [slash] segs.
Proof.
  intros H. unfold trim_slashes, upath. cbn [app trim_left_bytes]. rewrite bool_decide_eq_true_2 by done.
  rewrite (trim_left_bytes_slash (join [slash] segs)) by (by apply join_head).
  rewrite trim_left_bytes_slash; [by rewrite reverse_involutive|].
  pose proof (join_last segs H) as Hl. unfold last_is in Hl.
  destruct (join [slash] segs) as [|c s _] using rev_ind; [done|].
  rewrite last_snoc in Hl. rewrite reverse_snoc. by apply bool_decide_eq_false in Hl.
Qed.

Lemma componentCount_upath segs : wf segs -> componentCount (upath segs) = S (length segs).
Proof.
  intros H. unfold componentCount. rewrite decide_False by apply upath_nonempty.
  rewrite trim_slashes_upath, split_join_segs by done.
  assert (has_prefix (upath segs) [slash] = true) as -> by (apply has_prefix_true; by eexists). done.
Qed.

Lemma trim_prefix_app p r : trim_prefix (p ++ r) p = r.
Proof. unfold trim_prefix. by rewrite cut_prefix_app. Qed.

Lemma stripPrefixPath_upath (b k : list gostring) : wf (b ++ k) ->
  stripPrefixPath (upath (b ++ k)) (upath b) = Some (join [slash] k).
Proof.
  intros H. pose proof H as [Hb Hk]%Forall_app. unfold stripPrefixPath.
  rewrite pathStartsWith_upath, bool_decide_eq_true_2 by (done || by apply prefix_app_r). cbn [negb].
  case_decide as Heq.
  { apply upath_inj in Heq; [|done..]. rewrite <- (app_nil_r b) in Heq at 2. by apply (inj (app b)) in Heq as ->. }
  case_decide as Hroot.
  { apply upath_root in Hroot as ->; [|done]. by rewrite <- (trim_prefix_app [slash] (join [slash] k)). }
  destruct b as [|x b]; [done|]. destruct k as [|y k]; [by rewrite app_nil_r in Heq|].
  rewrite upath_app by done. unfold upath at 2. rewrite (assoc (++)). by rewrite trim_prefix_app.
Qed.

Lemma stripPrefixPath_None (a b : list gostring) : wf a -> wf b -> ~ b `prefix_of` a -> stripPrefixPath (upath a) (upath b) = None.
Proof.
  intros Ha Hb Hn. unfold stripPrefixPath. by rewrite pathStartsWith_upath, bool_decide_eq_false_2 by done.
Qed.

(** *** Candidates *)

Lemma FromAbsolute_upath segs : clean segs -> FromAbsolute (upath segs) = Some (upath segs).
Proof.
  intros Hc. unfold FromAbsolute, FromAbsolutePath, normalizePathForPlatform.
  assert (maybeExpandHomeDirectory false homeDir (upath segs) = upath segs) as -> by done.
  assert (isAbsolute false (upath segs) = true) as -> by (by apply bool_decide_eq_true_2).
  f_equal. unfold normalizePath, parseComponents. rewrite upath_render, parse_render by (by apply clean_wf).
  by rewrite normalizeComponents_clean.
Qed.

Lemma normalizePath_absolute p : isAbsolute false p = true ->
  exists segs, clean segs /\ normalizePath false p = upath segs.
Proof.
  intros Ha. destruct (normalizePath_unix p) as (segs & Hc & _ & E). rewrite Ha in E.
  rewrite decide_False in E by naive_solver. exists segs. by rewrite upath_render.
Qed.

Lemma FromAbsolute_absolute p : isAbsolute false p = true -> exists segs, clean segs /\ FromAbsolute p = Some (upath segs).
Proof.
  intros Ha. unfold FromAbsolute, FromAbsolutePath, normalizePathForPlatform.
  assert (maybeExpandHomeDirectory false homeDir p = p) as ->.
  { destruct p as [|c p]; [done|]. apply bool_decide_eq_true in Ha as ->. done. }
  rewrite Ha. destruct (normalizePath_absolute p Ha) as (segs & Hc & ->). by exists segs.
Qed.

Lemma Join_absolute base path : isAbsolute false base = true ->
  exists segs, clean segs /\ Join false homeDir base path = upath segs.
Proof.
  intros Hb. unfold Join, ResolvePathAgainstBase, normalizePathForPlatform, absolutizeFrom.
  set (p := maybeExpandHomeDirectory false homeDir path).
  apply normalizePath_absolute. unfold pathWithBase, pathWithBaseUnix. destruct (isAbsolute false p) eqn:Ep; [done|].
  unfold joinUnix. rewrite Ep. destruct base as [|c base]; [done|].
  rewrite decide_False by done. destruct (has_suffix _ _); exact Hb.
Qed.

(** Against an absolute directory every target has a clean absolute form. *)
Lemma resolveCandidatePath_total target cwd : isAbsolute false cwd = true ->
  exists segs, clean segs /\ resolveCandidatePath target cwd = Some (upath segs).
Proof.
  intros Hc. unfold resolveCandidatePath. destruct (isAbsolute false target) eqn:Ht; [by apply FromAbsolute_absolute|].
  destruct (FromAbsolute_absolute cwd Hc) as (segs & Hs & ->). cbn [mbind option_bind].
  destruct (Join_absolute (upath segs) target) as (segs' & Hs' & ->); [by apply bool_decide_eq_true_2|by exists segs'].
Qed.

Lemma resolveCandidatePath_upath segs cwd : clean segs -> resolveCandidatePath (upath segs) cwd = Some (upath segs).
Proof.
  intros Hc. unfold resolveCandidatePath.
  assert (isAbsolute false (upath segs) = true) as -> by (by apply bool_decide_eq_true_2). by apply FromAbsolute_upath.
Qed.

Lemma filesystemRootForPath_upath segs : clean segs -> filesystemRootForPath (upath segs) = upath [].
Proof.
  intros Hc. unfold filesystemRootForPath. rewrite FromAbsolute_upath by done.
  rewrite upath_render, Ancestors_unix by (by apply clean_wf). cbn [mbind option_bind].
  cbn [seq rev]. rewrite map_app. cbn [map]. by rewrite last_snoc.
Qed.

(** *** Symbolic links *)

(** The way up the ancestors ends within the fuel. *)
Lemma effective_loop_returns p ancestor fuel : length ancestor + 3 <= fuel -> returns (effective_loop fuel p ancestor).
Proof.
  assert (forall fuel a, Dir a = a -> 1 <= fuel -> returns (effective_loop fuel p a)) as Hfix.
  { intros [|f] a E Hf; [lia|]. cbn [effective_loop]. destruct (if lstat a then _ else _); [done|].
    by rewrite decide_True. }
  revert ancestor. induction fuel as [|fuel IH]; intros a Hf; [lia|]. cbn [effective_loop].
  destruct (if lstat a then _ else _); [done|]. case_decide; [done|].
  destruct (Dir_length a) as [Hs|Hs]; [apply Hfix; [by apply Dir_short|lia]|apply IH; lia].
Qed.

Lemma normalizeEffective_returns p : returns (effective_loop (effective_fuel p) p p).
Proof. apply effective_loop_returns. done. Qed.

Lemma upath_prefix (a p : list gostring) : a `prefix_of` p -> exists r, upath p = upath a ++ r.
Proof.
  intros [k ->]. destruct k as [|y k]; [exists []; by rewrite !app_nil_r|].
  destruct a as [|x a]; [by exists (join [slash] (y :: k))|]. exists (upath (y :: k)). by rewrite upath_app.
Qed.

(** No symbolic link lies on the way to the path. *)
Definition unlinked (s : list gostring) : Prop :=
  forall a c, a `prefix_of` s -> evalSymlinks (upath a) = Some c -> c = upath a.

Lemma unlinked_prefix a s : a `prefix_of` s -> unlinked s -> unlinked a.
Proof. intros Ha Hs b c Hb. apply Hs. by etrans. Qed.

(** Without symbolic links on its way a clean path is its own effective path. *)
Lemma effective_loop_identity fuel p a :
  unlinked p -> clean p -> a `prefix_of` p ->
  match effective_loop fuel (upath p) (upath a) with Ok (Some q) => q = upath p | _ => True end.
Proof.
  intros Hid Hp. revert a. induction fuel as [|fuel IH]; intros a Ha; [done|]. cbn [effective_loop].
  assert ((if lstat (upath a) then c ← evalSymlinks (upath a); FromAbsolute (c ++ trim_prefix (upath p) (upath a)) else None)
    = Some (upath p) \/ (if lstat (upath a) then c ← evalSymlinks (upath a); FromAbsolute (c ++ trim_prefix (upath p) (upath a)) else None)
    = None) as [-> | ->]; [|done|].
  { destruct (lstat _); [|by right]. destruct (evalSymlinks (upath a)) as [c|] eqn:Ec; [left|by right].
    apply (Hid a c Ha) in Ec as ->. cbn [mbind option_bind]. destruct (upath_prefix a p Ha) as [r Er].
    rewrite Er at 1. rewrite trim_prefix_app, <- Er. by apply FromAbsolute_upath. }
  case_decide as Hd; [done|]. destruct a as [|x a _] using rev_ind; [by destruct Hd|].
  pose proof (clean_prefix _ _ Ha Hp) as [Hca Hx]%clean_app.
  rewrite Dir_upath; [|done|by apply Forall_inv, wf_clean_seg_wf in Hx]. apply IH.
  etrans; [by apply prefix_app_r|done].
Qed.

Lemma normalizeEffective_identity p : unlinked p -> clean p ->
  normalizeEffectiveAbsolutePath (upath p) = upath p.
Proof.
  intros Hid Hp. unfold normalizeEffectiveAbsolutePath.
  pose proof (effective_loop_identity (effective_fuel (upath p)) p p Hid Hp (reflexivity p)) as Hq.
  rewrite FromAbsolute_upath by done. by destruct (effective_loop _ _ _) as [[q|]| |].
Qed.

(** *** Removing duplicates *)

Lemma elem_of_dedup_from key seen paths q :
  q ∈ dedup_from key seen paths <-> (q ∉ seen /\ exists p, p ∈ paths /\ key p = q).
Proof.
  revert seen. induction paths as [|p paths IH]; intros seen; cbn [dedup_from].
  { split; [by intros ?%elem_of_nil|]. by intros (_ & p & ?%elem_of_nil & _). }
  case_decide as Hs.
  - rewrite IH. split.
    + intros (Hn & p' & Hin & Hk). split; [done|]. exists p'. by rewrite elem_of_cons; auto.
    + intros (Hn & p' & [->|Hin]%elem_of_cons & Hk); [by subst|]. eauto.
  - rewrite elem_of_cons, IH. split.
    + intros [->|(Hn & p' & Hin & Hk)]; [by split; [|exists p; rewrite elem_of_cons; auto]|].
      apply not_elem_of_cons in Hn as [_ Hn]. split; [done|]. exists p'. rewrite elem_of_cons; auto.
    + intros (Hn & p' & [->|Hin]%elem_of_cons & Hk); [by left|].
      destruct (decide (q = key p)) as [->|Hq]; [by left|right].
      split; [by apply not_elem_of_cons|eauto].
Qed.

Lemma elem_of_dedupNoNormalize q paths : q ∈ dedupPathsNoNormalize paths <-> q ∈ paths.
Proof.
  unfold dedupPathsNoNormalize. rewrite elem_of_dedup_from. unfold id. split.
  - intros (_ & p & Hp & <-). done.
  - intros Hq. split; [apply not_elem_of_nil|eauto].
Qed.

Lemma elem_of_dedupPaths q paths : q ∈ dedupPaths paths <-> exists p, p ∈ paths /\ normalizeEffectiveAbsolutePath p = q.
Proof.
  unfold dedupPaths. rewrite elem_of_dedup_from. split; [by intros (_ & ?)|].
  intros ?. split; [apply not_elem_of_nil|done].
Qed.

End Paths.
End SandboxPath.
