(* ===== verification/SandboxPolicy.v ===== *)
(** * internal/sandbox: resolving a filesystem policy

    [policy_resolve.go], on Unix: which entry of a policy decides the access to
    a path, which roots a command may write to or read, and what stays
    read-only below them. *)

From stdpp Require Import base list.
From S2P Require Import Prelude GoStrings GoOrder AbsPath GoPath SandboxPath Permissions.

Module SandboxPolicy.
Import AbsPath GoPath SandboxPath Permissions.

Section Policy.
Context `{World : SandboxWorld}.

(** ** policy_resolve.go *)

Definition protectedMetadataGitName : gostring := str ".git".
Definition protectedMetadataAgentsName : gostring := str ".agents".
Definition protectedMetadataCodexName : gostring := str ".codexgo".
Definition protectedMetadataPathNames : list gostring :=
  [protectedMetadataGitName; protectedMetadataAgentsName; protectedMetadataCodexName].

Record resolvedEntry := mkResolvedEntry { rpath : gostring; raccess : FileSystemAccessMode }.

Definition is_restricted (p : FileSystemSandboxPolicy) : bool :=
  bool_decide (PolicyKind p = FileSystemSandboxKindRestricted).
(** The two kinds that the switches on [Kind] let through. *)
Definition is_open (p : FileSystemSandboxPolicy) : bool :=
  bool_decide (PolicyKind p = FileSystemSandboxKindUnrestricted)
  || bool_decide (PolicyKind p = FileSystemSandboxKindExternalSandbox).

(** [entry.Path.Type == Special && entry.Path.Special != nil && Kind == kind] *)
Definition has_special (kind : FileSystemSpecialPathKind) (path : FileSystemPath) : bool :=
  bool_decide (PathType path = FileSystemPathTypeSpecial)
  && match Special path with Some s => bool_decide (SpecialKind s = kind) | None => false end.

Definition fsHasRootAccess (p : FileSystemSandboxPolicy) (predicate : FileSystemAccessMode -> bool) : bool :=
  is_restricted p
  && existsb (fun entry => has_special FileSystemSpecialPathKindRoot (EntryPath entry) && predicate (Access entry))
       (PolicyEntries p).

Definition fsHasDeniedReadRestrictions (p : FileSystemSandboxPolicy) : bool :=
  is_restricted p
  && existsb (fun entry => bool_decide (Access entry = FileSystemAccessModeDeny)) (PolicyEntries p).

Definition fsHasFullDiskReadAccess (p : FileSystemSandboxPolicy) : bool :=
  if is_open p then true else fsHasRootAccess p CanRead && negb (fsHasDeniedReadRestrictions p).

Definition accessRank (a : FileSystemAccessMode) : nat :=
  match a with FileSystemAccessModeRead => 0 | FileSystemAccessModeWrite => 1 | _ => 2 end.
Definition accessGreater (a b : FileSystemAccessMode) : bool := accessRank b <? accessRank a.

Definition ptrStringEqual (a b : option gostring) : bool := bool_decide (a = b).

Definition specialPathsShareTarget (left right : option FileSystemSpecialPath) : bool :=
  match left, right with
  | Some l, Some r =>
      if decide (SpecialKind l = SpecialKind r)
      then match SpecialKind l with
           | FileSystemSpecialPathKindRoot | FileSystemSpecialPathKindMinimal
           | FileSystemSpecialPathKindTmpdir | FileSystemSpecialPathKindSlashTmp => true
           | FileSystemSpecialPathKindProjectRoots => ptrStringEqual (Subpath l) (Subpath r)
           | FileSystemSpecialPathKindUnknown =>
               bool_decide (SpecialPath l = SpecialPath r) && ptrStringEqual (Subpath l) (Subpath r)
           | FileSystemSpecialPathKindOther _ => false
           end
      else false
  | _, _ => false
  end.

Definition specialMatchesAbsolutePath (value : option FileSystemSpecialPath) (target : gostring) : bool :=
  match value with
  | Some v => match SpecialKind v with
              | FileSystemSpecialPathKindRoot => parentless target
              | FileSystemSpecialPathKindSlashTmp => bool_decide (target = str "/tmp")
              | _ => false
              end
  | None => false
  end.

Definition pathsShareTarget (left right : FileSystemPath) : bool :=
  match PathType left, PathType right with
  | FileSystemPathTypePath, FileSystemPathTypePath => bool_decide (Path left = Path right)
  | FileSystemPathTypeSpecial, FileSystemPathTypeSpecial => specialPathsShareTarget (Special left) (Special right)
  | FileSystemPathTypePath, FileSystemPathTypeSpecial => specialMatchesAbsolutePath (Special right) (Path left)
  | FileSystemPathTypeSpecial, FileSystemPathTypePath => specialMatchesAbsolutePath (Special left) (Path right)
  | FileSystemPathTypeGlobPattern, FileSystemPathTypeGlobPattern => bool_decide (Pattern left = Pattern right)
  | _, _ => false
  end.

Definition fsHasSameTargetWriteOverride (p : FileSystemSandboxPolicy) (entry : FileSystemSandboxEntry) : bool :=
  existsb (fun candidate => CanWrite (Access candidate) && accessGreater (Access candidate) (Access entry)
                            && pathsShareTarget (EntryPath candidate) (EntryPath entry)) (PolicyEntries p).

(** The body of the loop of [fsHasWriteNarrowingEntries]. *)
Definition narrows (p : FileSystemSandboxPolicy) (entry : FileSystemSandboxEntry) : bool :=
  if CanWrite (Access entry) then false
  else match PathType (EntryPath entry) with
       | FileSystemPathTypePath => negb (fsHasSameTargetWriteOverride p entry)
       | FileSystemPathTypeGlobPattern => true
       | FileSystemPathTypeSpecial =>
           match Special (EntryPath entry) with
           | None => false
           | Some s =>
               match SpecialKind s with
               | FileSystemSpecialPathKindRoot => bool_decide (Access entry = FileSystemAccessModeDeny)
               | FileSystemSpecialPathKindMinimal | FileSystemSpecialPathKindUnknown => false
               | _ => negb (fsHasSameTargetWriteOverride p entry)
               end
           end
       | FileSystemPathTypeOther _ => false
       end.

Definition fsHasWriteNarrowingEntries (p : FileSystemSandboxPolicy) : bool :=
  is_restricted p && existsb (narrows p) (PolicyEntries p).

Definition fsHasFullDiskWriteAccess (p : FileSystemSandboxPolicy) : bool :=
  if is_open p then true else fsHasRootAccess p CanWrite && negb (fsHasWriteNarrowingEntries p).

Definition fsIncludePlatformDefaults (p : FileSystemSandboxPolicy) : bool :=
  if fsHasFullDiskReadAccess p || negb (is_restricted p) then false
  else existsb (fun entry => has_special FileSystemSpecialPathKindMinimal (EntryPath entry) && CanRead (Access entry))
         (PolicyEntries p).

(** *** Entries to paths *)

Definition resolveSpecialPath (s : FileSystemSpecialPath) (cwdAbs : option gostring) : option gostring :=
  match SpecialKind s with
  | FileSystemSpecialPathKindProjectRoots =>
      cwd ← cwdAbs;
      match Subpath s with
      | Some sub => Some (resolvePathAgainstBase sub cwd)
      | None => Some cwd
      end
  | FileSystemSpecialPathKindTmpdir =>
      if decide (tmpdir_env = []) then None else Some (normalizeAbsolute tmpdir_env)
  | FileSystemSpecialPathKindSlashTmp => if isDir (str "/tmp") then Some (str "/tmp") else None
  | _ => None
  end.

Definition resolveFileSystemPath (p : FileSystemPath) (cwdAbs : option gostring) : option gostring :=
  match PathType p with
  | FileSystemPathTypePath => Some (Path p)
  | FileSystemPathTypeSpecial => s ← Special p; resolveSpecialPath s cwdAbs
  | _ => None
  end.

Definition resolveEntryPath (p : FileSystemPath) (cwdAbs : option gostring) : option gostring :=
  if has_special FileSystemSpecialPathKindRoot p then filesystemRootForPath <$> cwdAbs
  else resolveFileSystemPath p cwdAbs.

Definition resolve_entry (cwdAbs : option gostring) (entry : FileSystemSandboxEntry) : option resolvedEntry :=
  resolved ← resolveEntryPath (EntryPath entry) cwdAbs; Some (mkResolvedEntry resolved (Access entry)).

Definition resolvedEntriesWithCwd (p : FileSystemSandboxPolicy) (cwd : gostring) : list resolvedEntry :=
  omap (resolve_entry (resolveCandidatePath cwd cwd)) (PolicyEntries p).

(** *** Access *)

(** One iteration of the search for the most specific entry. *)
Definition best_step (resolved : gostring) (best : option resolvedEntry) (entry : resolvedEntry) : option resolvedEntry :=
  if negb (pathStartsWith resolved (rpath entry)) then best
  else match best with
       | None => Some entry
       | Some b =>
           let spec := componentCount (rpath entry) in
           let bestSpec := componentCount (rpath b) in
           if (bestSpec <? spec) || (bool_decide (spec = bestSpec) && accessGreater (raccess entry) (raccess b))
           then Some entry else best
       end.

Definition resolveAccessWithCwd (p : FileSystemSandboxPolicy) (target cwd : gostring) : FileSystemAccessMode :=
  if is_open p then FileSystemAccessModeWrite
  else match resolveCandidatePath target cwd with
       | None => FileSystemAccessModeDeny
       | Some resolved =>
           match fold_left (best_step resolved) (resolvedEntriesWithCwd p cwd) None with
           | Some best => raccess best
           | None => FileSystemAccessModeDeny
           end
       end.

Definition canReadPathWithCwd (p : FileSystemSandboxPolicy) (target cwd : gostring) : bool :=
  CanRead (resolveAccessWithCwd p target cwd).

Definition firstComponent (rel : gostring) : gostring :=
  take_while (fun c => negb (bool_decide (c = slash))) (trim_prefix rel [slash]).

(** [None] for the empty string of [metadataPathName]. *)
Definition metadataPathName (component : gostring) : option gostring :=
  if decide (component ∈ protectedMetadataPathNames) then Some component else None.

Fixpoint metadata_child (entries : list resolvedEntry) (target : gostring) : option (gostring * gostring) :=
  match entries with
  | [] => None
  | entry :: entries =>
      let found := if CanWrite (raccess entry)
                   then rel ← stripPrefixPath target (rpath entry);
                        name ← metadataPathName (firstComponent rel);
                        Some (Join2 (rpath entry) name, name)
                   else None in
      match found with Some r => Some r | None => metadata_child entries target end
  end.

Definition metadataChildOfWritableRoot (p : FileSystemSandboxPolicy) (target cwd : gostring) :
  option (gostring * gostring) := metadata_child (resolvedEntriesWithCwd p cwd) target.

Definition hasExplicitWriteEntryForMetadataPath (p : FileSystemSandboxPolicy) (protectedPath target cwd : gostring) : bool :=
  existsb (fun entry => CanWrite (raccess entry) && pathStartsWith target (rpath entry)
                        && pathStartsWith (rpath entry) protectedPath) (resolvedEntriesWithCwd p cwd).

Definition isMetadataWriteDenied (p : FileSystemSandboxPolicy) (target cwd : gostring) : bool :=
  if negb (is_restricted p) then false
  else match resolveCandidatePath target cwd with
       | None => true
       | Some resolvedTarget =>
           match metadataChildOfWritableRoot p resolvedTarget cwd with
           | None => false
           | Some (protectedPath, _) => negb (hasExplicitWriteEntryForMetadataPath p protectedPath resolvedTarget cwd)
           end
       end.

Definition canWritePathWithCwd (p : FileSystemSandboxPolicy) (target cwd : gostring) : bool :=
  if negb (CanWrite (resolveAccessWithCwd p target cwd)) then false
  else if fsHasFullDiskWriteAccess p then true
  else negb (isMetadataWriteDenied p target cwd).

(** *** Roots *)

Definition getReadableRootsWithCwd (p : FileSystemSandboxPolicy) (cwd : gostring) : list gostring :=
  if fsHasFullDiskReadAccess p then []
  else dedupPaths (map rpath (filter (fun entry => CanRead (raccess entry) && canReadPathWithCwd p (rpath entry) cwd)
                                (resolvedEntriesWithCwd p cwd))).

Definition hasExplicitResolvedPathEntry (entries : list resolvedEntry) (target : gostring) : bool :=
  existsb (fun entry => bool_decide (rpath entry = target)) entries.

Definition protectedMetadataNamesForWritableRoot (p : FileSystemSandboxPolicy) (root cwd : gostring) : list gostring :=
  filter (fun name => negb (canWritePathWithCwd p (Join2 root name) cwd)) protectedMetadataPathNames.

Definition defaultReadOnlySubpathsForWritableRoot (root : gostring) (protectMissingDotCodex : bool) : list gostring :=
  let topGit := Join2 root protectedMetadataGitName in
  let topAgents := Join2 root protectedMetadataAgentsName in
  let topCodex := Join2 root protectedMetadataCodexName in
  dedupPathsNoNormalize
    ((if isDir topGit || isFile topGit then [topGit] else [])
     ++ (if isDir topAgents then [topAgents] else [])
     ++ (if protectMissingDotCodex || isDir topCodex then [topCodex] else [])).

Definition writable_entry_paths (p : FileSystemSandboxPolicy) (cwd : gostring) : list gostring :=
  map rpath (filter (fun entry => CanWrite (raccess entry) && canWritePathWithCwd p (rpath entry) cwd)
               (resolvedEntriesWithCwd p cwd)).

(** What stays read-only below one root. *)
Definition read_only_below (p : FileSystemSandboxPolicy) (cwd root : gostring) : list gostring :=
  let resolvedEntries := resolvedEntriesWithCwd p cwd in
  let protectMissingDotCodex := bool_decide (resolveCandidatePath cwd cwd = Some root) in
  filter (fun sub => negb (hasExplicitResolvedPathEntry resolvedEntries sub))
    (defaultReadOnlySubpathsForWritableRoot root protectMissingDotCodex)
  ++ map rpath (filter (fun entry => negb (CanWrite (raccess entry)) && negb (canWritePathWithCwd p (rpath entry) cwd)
                                     && negb (bool_decide (rpath entry = root)) && pathStartsWith (rpath entry) root)
                  resolvedEntries).

Definition writable_root (p : FileSystemSandboxPolicy) (cwd root : gostring) : WritableRoot :=
  mkWritableRoot root (dedupPathsNoNormalize (read_only_below p cwd root))
    (protectedMetadataNamesForWritableRoot p root cwd).

Definition getWritableRootsWithCwd (p : FileSystemSandboxPolicy) (cwd : gostring) : list WritableRoot :=
  if fsHasFullDiskWriteAccess p then []
  else map (writable_root p cwd) (dedupPaths (writable_entry_paths p cwd)).

Definition getUnreadableRootsWithCwd (p : FileSystemSandboxPolicy) (cwd : gostring) : list gostring :=
  if negb (is_restricted p) then []
  else let rootPath := filesystemRootForPath <$> resolveCandidatePath cwd cwd in
       dedupPaths (map rpath (filter (fun entry =>
         bool_decide (raccess entry = FileSystemAccessModeDeny) && negb (canReadPathWithCwd p (rpath entry) cwd)
         && negb (bool_decide (rootPath = Some (rpath entry)))) (resolvedEntriesWithCwd p cwd))).

Fixpoint dedup_sorted (last : option gostring) (l : list gostring) : list gostring :=
  match l with
  | [] => []
  | s :: l => if decide (last = Some s) then dedup_sorted last l else s :: dedup_sorted (Some s) l
  end.
Definition dedupSortedStrings (l : list gostring) : list gostring := dedup_sorted None l.

Definition getUnreadableGlobsWithCwd (p : FileSystemSandboxPolicy) (cwd : gostring) : list gostring :=
  if negb (is_restricted p) then []
  else dedupSortedStrings (GoOrder.sort_strings
    (map (fun entry => resolvePathAgainstBase (Pattern (EntryPath entry)) cwd)
       (filter (fun entry => bool_decide (Access entry = FileSystemAccessModeDeny)
                             && bool_decide (PathType (EntryPath entry) = FileSystemPathTypeGlobPattern))
          (PolicyEntries p)))).

(** ** Which entry decides *)

(** [e] covers the path [t]; [e] is at most as specific as [b]. *)
Definition covers (t : gostring) (e : resolvedEntry) : Prop := pathStartsWith t (rpath e) = true.
Definition below (e b : resolvedEntry) : Prop :=
  componentCount (rpath e) < componentCount (rpath b)
  \/ (componentCount (rpath e) = componentCount (rpath b) /\ accessRank (raccess e) <= accessRank (raccess b)).

(** [e] is an entry that decides the access to [t]. *)
Definition decides (entries : list resolvedEntry) (t : gostring) (e : resolvedEntry) : Prop :=
  e ∈ entries /\ covers t e /\ forall e', e' ∈ entries -> covers t e' -> below e' e.

Lemma below_refl e : below e e.
Proof. by right. Qed.

Lemma below_trans a b c : below a b -> below b c -> below a c.
Proof. unfold below. lia. Qed.

Lemma not_below b e :
  (componentCount (rpath b) <? componentCount (rpath e))
  || (bool_decide (componentCount (rpath e) = componentCount (rpath b)) && accessGreater (raccess e) (raccess b)) = false ->
  below e b.
Proof.
  unfold accessGreater, below. intros [H1%Nat.ltb_ge H2]%orb_false_iff.
  apply andb_false_iff in H2 as [H2%bool_decide_eq_false|H2%Nat.ltb_ge]; lia.
Qed.

Lemma yes_below b e :
  (componentCount (rpath b) <? componentCount (rpath e))
  || (bool_decide (componentCount (rpath e) = componentCount (rpath b)) && accessGreater (raccess e) (raccess b)) = true ->
  below b e.
Proof.
  unfold accessGreater, below. intros [H1%Nat.ltb_lt|[H1%bool_decide_eq_true H2%Nat.ltb_lt]%andb_true_iff]%orb_true_iff; lia.
Qed.

(** The search loop, from the entries [seen] so far. *)
Lemma best_fold t entries seen best :
  (forall e, best = Some e -> decides seen t e) -> (best = None -> forall e, e ∈ seen -> ~ covers t e) ->
  let r := fold_left (best_step t) entries best in
  (forall e, r = Some e -> decides (seen ++ entries) t e) /\ (r = None -> forall e, e ∈ seen ++ entries -> ~ covers t e).
Proof.
  revert seen best. induction entries as [|x entries IH]; intros seen best Hs Hn; cbn [fold_left].
  { by rewrite app_nil_r. }
  replace (seen ++ x :: entries) with ((seen ++ [x]) ++ entries) by (by rewrite <- (assoc (++))).
  apply IH; unfold best_step; destruct (pathStartsWith t (rpath x)) eqn:Hx; cbn [negb].
  - destruct best as [b|]; [|intros e [= <-]].
    + destruct (Hs b eq_refl) as (Hin & Hc & Hmax). destruct (_ || _) eqn:Hg; intros e [= <-].
      * apply yes_below in Hg. split_and!; [apply elem_of_app; right; by constructor|done|].
        intros e' [He| ->%list_elem_of_singleton]%elem_of_app Hce; [|apply below_refl].
        eapply below_trans; [by apply Hmax|done].
      * apply not_below in Hg. split_and!; [apply elem_of_app; by left|done|].
        intros e' [He| ->%list_elem_of_singleton]%elem_of_app Hce; [by apply Hmax|done].
    + split_and!; [apply elem_of_app; right; by constructor|done|].
      intros e' [He| ->%list_elem_of_singleton]%elem_of_app Hce; [by destruct (Hn eq_refl e' He)|apply below_refl].
  - intros e He. destruct (Hs e He) as (Hin & Hc & Hmax). split_and!; [apply elem_of_app; by left|done|].
    intros e' [He'| ->%list_elem_of_singleton]%elem_of_app Hce; [by apply Hmax|]. unfold covers in Hce. congruence.
  - destruct best; [by destruct (_ || _)|done].
  - intros Hb e [He| ->%list_elem_of_singleton]%elem_of_app; [by apply Hn|]. unfold covers. congruence.
Qed.

Lemma best_decides t entries :
  match fold_left (best_step t) entries None with
  | Some e => decides entries t e
  | None => forall e, e ∈ entries -> ~ covers t e
  end.
Proof.
  destruct (best_fold t entries [] None) as [H1 H2]; [done|by intros _ e ?%elem_of_nil|].
  destruct (fold_left _ _ _); [by apply H1|by apply H2].
Qed.

Lemma resolveAccess_cases p target cwd t : is_open p = false -> resolveCandidatePath target cwd = Some t ->
  (exists e, decides (resolvedEntriesWithCwd p cwd) t e /\ resolveAccessWithCwd p target cwd = raccess e)
  \/ ((forall e, e ∈ resolvedEntriesWithCwd p cwd -> ~ covers t e)
      /\ resolveAccessWithCwd p target cwd = FileSystemAccessModeDeny).
Proof.
  intros Ho Ht. unfold resolveAccessWithCwd. rewrite Ho, Ht. pose proof (best_decides t (resolvedEntriesWithCwd p cwd)) as Hb.
  destruct (fold_left _ _ _) as [e|]; [left; by exists e|by right].
Qed.

(** What decides is unique up to the access modes of the highest rank. *)
Lemma decides_rank entries t e e' : decides entries t e -> decides entries t e' ->
  accessRank (raccess e) = accessRank (raccess e').
Proof.
  intros (H1 & H2 & H3) (H1' & H2' & H3'). pose proof (H3 _ H1' H2') as A. pose proof (H3' _ H1 H2) as B.
  unfold below in *. lia.
Qed.

Lemma rank_write a : accessRank a = 1 <-> a = FileSystemAccessModeWrite.
Proof. by destruct a. Qed.

Lemma CanWrite_true a : CanWrite a = true <-> a = FileSystemAccessModeWrite.
Proof. apply bool_decide_eq_true. Qed.

(** The access to a path is writable exactly when an entry that decides it is. *)
Lemma resolve_write_iff p target cwd t : is_open p = false -> resolveCandidatePath target cwd = Some t ->
  resolveAccessWithCwd p target cwd = FileSystemAccessModeWrite
  <-> exists e, decides (resolvedEntriesWithCwd p cwd) t e /\ raccess e = FileSystemAccessModeWrite.
Proof.
  intros Ho Ht. destruct (resolveAccess_cases p target cwd t Ho Ht) as [(e & He & ->)|[Hn ->]].
  - split; [by eauto|]. intros (e' & He' & Hw). apply rank_write. rewrite (decides_rank _ _ _ _ He He').
    by apply rank_write.
  - split; [done|]. intros (e & (Hin & Hc & _) & _). by destruct (Hn e Hin).
Qed.

(** ** Full access *)

Lemma elem_of_resolved p cwd e :
  e ∈ resolvedEntriesWithCwd p cwd
  <-> exists entry, entry ∈ PolicyEntries p
        /\ resolveEntryPath (EntryPath entry) (resolveCandidatePath cwd cwd) = Some (rpath e) /\ raccess e = Access entry.
Proof.
  unfold resolvedEntriesWithCwd. rewrite list_elem_of_omap. unfold resolve_entry. split.
  - intros (entry & Hin & Hr). destruct (resolveEntryPath _ _) as [r|] eqn:E; [|done]. simplify_eq/=. eauto.
  - intros (entry & Hin & Hr & Ha). exists entry. split; [done|]. rewrite Hr. destruct e. by simplify_eq/=.
Qed.

Lemma has_special_inv kind path : has_special kind path = true ->
  PathType path = FileSystemPathTypeSpecial /\ exists s, Special path = Some s /\ SpecialKind s = kind.
Proof.
  unfold has_special. intros [H1%bool_decide_eq_true H2]%andb_true_iff.
  destruct (Special path) as [s|]; [|done]. apply bool_decide_eq_true in H2. eauto.
Qed.

Lemma resolve_root path cwdAbs : has_special FileSystemSpecialPathKindRoot path = true ->
  resolveEntryPath path cwdAbs = filesystemRootForPath <$> cwdAbs.
Proof. unfold resolveEntryPath. by intros ->. Qed.

(** A policy with a root entry has an entry for [/], which covers every absolute path. *)
Lemma root_access_entry p cwd pred : isAbsolute false cwd = true -> fsHasRootAccess p pred = true ->
  exists e, e ∈ resolvedEntriesWithCwd p cwd /\ rpath e = upath [] /\ pred (raccess e) = true.
Proof.
  intros Hcwd [_ (entry & Hin & [Hs Ha]%andb_true_iff)%existsb_exists]%andb_true_iff.
  destruct (resolveCandidatePath_total cwd cwd Hcwd) as (c & Hc & Ec).
  exists (mkResolvedEntry (upath []) (Access entry)). split; [|done].
  apply elem_of_resolved. exists entry. rewrite resolve_root, Ec by done. cbn [fmap option_fmap option_map rpath raccess].
  rewrite filesystemRootForPath_upath by done. by rewrite list_elem_of_In.
Qed.

Lemma root_covers segs e : rpath e = upath [] -> clean segs -> covers (upath segs) e.
Proof.
  intros He Hc. unfold covers. rewrite He, pathStartsWith_upath by (try constructor; by apply clean_wf).
  apply bool_decide_eq_true_2, prefix_nil.
Qed.

Lemma root_decided p cwd pred target : isAbsolute false cwd = true -> is_open p = false -> fsHasRootAccess p pred = true ->
  exists segs e, clean segs /\ resolveCandidatePath target cwd = Some (upath segs)
    /\ decides (resolvedEntriesWithCwd p cwd) (upath segs) e /\ resolveAccessWithCwd p target cwd = raccess e.
Proof.
  intros Hcwd Ho Hr. destruct (resolveCandidatePath_total target cwd Hcwd) as (t & Ht & Et).
  destruct (root_access_entry p cwd pred Hcwd Hr) as (e & Hin & Hp & _).
  destruct (resolveAccess_cases p target cwd _ Ho Et) as [(b & Hb & E)|[Hn _]]; [by exists t, b|].
  destruct (Hn e Hin). by apply root_covers.
Qed.

Lemma full_read p target cwd : isAbsolute false cwd = true -> fsHasFullDiskReadAccess p = true ->
  canReadPathWithCwd p target cwd = true.
Proof.
  intros Hcwd Hf. unfold canReadPathWithCwd, CanRead. apply bool_decide_eq_true_2.
  unfold fsHasFullDiskReadAccess in Hf. destruct (is_open p) eqn:Ho; [unfold resolveAccessWithCwd; by rewrite Ho|].
  apply andb_true_iff in Hf as [Hr Hd].
  destruct (root_decided p cwd _ target Hcwd Ho Hr) as (t & e & _ & _ & (Hin & _) & ->).
  apply elem_of_resolved in Hin as (entry & Hin & _ & ->). intros Hdeny.
  apply negb_true_iff, not_true_iff_false in Hd. apply Hd. unfold fsHasDeniedReadRestrictions.
  apply andb_true_iff in Hr as [-> _]. apply existsb_exists. exists entry. rewrite <- list_elem_of_In.
  by rewrite bool_decide_eq_true_2.
Qed.

(** The entries of a policy for Unix: known access modes, and no path entry
    that the code takes for the root of a Windows drive. *)
Definition unix_entry (entry : FileSystemSandboxEntry) : Prop :=
  accessRank (Access entry) = 2 -> Access entry = FileSystemAccessModeDeny.
Definition unix_path (entry : FileSystemSandboxEntry) : Prop :=
  parentless (Path (EntryPath entry)) = true -> Path (EntryPath entry) = upath [].

Lemma share_target_resolves c e cwdAbs r :
  isDir (str "/tmp") = true -> (forall cwd, cwdAbs = Some cwd -> filesystemRootForPath cwd = upath []) ->
  (parentless (Path e) = true -> Path e = upath []) -> is_Some cwdAbs ->
  has_special FileSystemSpecialPathKindRoot e = false ->
  pathsShareTarget c e = true -> resolveEntryPath e cwdAbs = Some r -> resolveEntryPath c cwdAbs = Some r.
Proof.
  intros Htmp Hroot Hpl [cwd Hcwd] Hne Hsh Hr. unfold pathsShareTarget in Hsh.
  unfold resolveEntryPath in Hr. rewrite Hne in Hr. unfold resolveFileSystemPath in Hr.
  destruct (PathType e) eqn:Ee; try done; destruct (PathType c) eqn:Ec; try done.
  - apply bool_decide_eq_true in Hsh. unfold resolveEntryPath, has_special, resolveFileSystemPath.
    rewrite Ec, bool_decide_eq_false_2 by done. cbn. congruence.
  - unfold specialMatchesAbsolutePath in Hsh. destruct (Special c) as [v|] eqn:Es; [|done].
    unfold resolveEntryPath, has_special, resolveFileSystemPath. rewrite Ec, Es, bool_decide_eq_true_2 by done.
    cbn [andb]. destruct (SpecialKind v) eqn:Ek; try done.
    + rewrite bool_decide_eq_true_2, Hcwd by done. cbn. rewrite Hroot by done. simplify_eq/=. by rewrite Hpl.
    + rewrite bool_decide_eq_false_2 by done. cbn. unfold resolveSpecialPath. rewrite Ek, Htmp.
      apply bool_decide_eq_true in Hsh. congruence.
  - unfold specialMatchesAbsolutePath in Hsh. destruct (Special e) as [v|] eqn:Es; [|done]. cbn in Hr.
    unfold has_special in Hne. rewrite Ee, Es, bool_decide_eq_true_2 in Hne by done. cbn [andb] in Hne.
    apply bool_decide_eq_false in Hne. destruct (SpecialKind v) eqn:Ek; try done.
    apply bool_decide_eq_true in Hsh. unfold resolveSpecialPath in Hr. rewrite Ek, Htmp in Hr.
    unfold resolveEntryPath, has_special, resolveFileSystemPath. rewrite Ec, bool_decide_eq_false_2 by done. cbn. congruence.
  - unfold specialPathsShareTarget in Hsh. destruct (Special c) as [v|] eqn:Ev; [|done].
    destruct (Special e) as [w|] eqn:Ew; [|done]. cbn in Hr. case_decide as Hk; [|done].
    unfold has_special in Hne. rewrite Ee, Ew, bool_decide_eq_true_2 in Hne by done. cbn [andb] in Hne.
    apply bool_decide_eq_false in Hne. unfold resolveEntryPath, has_special, resolveFileSystemPath.
    rewrite Ec, Ev, bool_decide_eq_true_2 by done. cbn [andb]. rewrite bool_decide_eq_false_2 by congruence. cbn.
    unfold resolveSpecialPath in *. rewrite <- Hk in Hr. destruct (SpecialKind v); try done.
    apply bool_decide_eq_true in Hsh. by rewrite Hsh.
Qed.

(** Any entry that resolves and is not writable is outranked by a writable
    entry for the same path, when nothing narrows the policy. *)
Lemma not_narrowed p cwd entry r : isAbsolute false cwd = true -> isDir (str "/tmp") = true ->
  unix_entry entry -> unix_path entry -> fsHasRootAccess p CanWrite = true ->
  entry ∈ PolicyEntries p -> CanWrite (Access entry) = false -> narrows p entry = false ->
  resolveEntryPath (EntryPath entry) (resolveCandidatePath cwd cwd) = Some r ->
  accessRank (Access entry) = 0 /\ exists e, e ∈ resolvedEntriesWithCwd p cwd /\ rpath e = r /\ raccess e = FileSystemAccessModeWrite.
Proof.
  intros Hcwd Htmp Hue Hup Hroot Hin Hw Hn Hr.
  destruct (resolveCandidatePath_total cwd cwd Hcwd) as (cs & Hcs & Ecs).
  assert (has_special FileSystemSpecialPathKindRoot (EntryPath entry) = false -> fsHasSameTargetWriteOverride p entry = true ->
    accessRank (Access entry) = 0 /\ exists e, e ∈ resolvedEntriesWithCwd p cwd /\ rpath e = r /\ raccess e = FileSystemAccessModeWrite)
    as Hover.
  { intros Hns (c & Hc & [[Hcw Hg%Nat.ltb_lt]%andb_true_iff Hsh]%andb_true_iff)%existsb_exists.
    apply CanWrite_true in Hcw. rewrite Hcw in Hg. cbn in Hg. split; [lia|].
    exists (mkResolvedEntry r FileSystemAccessModeWrite). split_and!; [|done..]. apply elem_of_resolved. exists c.
    rewrite list_elem_of_In. split_and!; [done| |done]. apply (share_target_resolves _ (EntryPath entry)); try done; rewrite Ecs.
    intros ? [= <-]. by apply filesystemRootForPath_upath. }
  unfold narrows in Hn. rewrite Hw in Hn. unfold resolveEntryPath in Hr.
  destruct (has_special _ _) eqn:Hs.
  { apply has_special_inv in Hs as (Ht & s & Es & Ek). rewrite Ht, Es, Ek in Hn. apply bool_decide_eq_false in Hn.
    rewrite Ecs in Hr. injection Hr as <-. split.
    - unfold unix_entry in Hue. destruct (Access entry); [done..|]. by specialize (Hue eq_refl).
    - destruct (root_access_entry p cwd _ Hcwd Hroot) as (e & He & Hpe & Ha). apply CanWrite_true in Ha.
      exists e. by rewrite filesystemRootForPath_upath. }
  specialize (Hover eq_refl). unfold resolveFileSystemPath in Hr.
  destruct (PathType (EntryPath entry)) eqn:Ht; try done; [by apply negb_false_iff in Hn; auto|].
  destruct (Special (EntryPath entry)) as [s|] eqn:Es; [|done]. cbn in Hr.
  unfold has_special in Hs. rewrite Ht, Es, bool_decide_eq_true_2 in Hs by done. cbn [andb] in Hs.
  apply bool_decide_eq_false in Hs. unfold resolveSpecialPath in Hr.
  destruct (SpecialKind s) eqn:Ek; try done; apply negb_false_iff in Hn; auto.
Qed.

Lemma full_write_access p target cwd : isAbsolute false cwd = true -> isDir (str "/tmp") = true ->
  Forall unix_entry (PolicyEntries p) -> Forall unix_path (PolicyEntries p) ->
  fsHasFullDiskWriteAccess p = true -> resolveAccessWithCwd p target cwd = FileSystemAccessModeWrite.
Proof.
  intros Hcwd Htmp Hue Hup Hf. unfold fsHasFullDiskWriteAccess in Hf.
  destruct (is_open p) eqn:Ho; [unfold resolveAccessWithCwd; by rewrite Ho|].
  apply andb_true_iff in Hf as [Hr Hd].
  destruct (root_decided p cwd _ target Hcwd Ho Hr) as (t & e & _ & _ & (Hin & Hc & Hmax) & ->).
  pose proof Hin as (entry & Hen & Hre & Ha)%elem_of_resolved.
  destruct (CanWrite (Access entry)) eqn:Hw; [apply CanWrite_true in Hw; congruence|exfalso].
  rewrite Forall_forall in Hue, Hup.
  assert (narrows p entry = false) as Hn.
  { apply negb_true_iff in Hd. unfold fsHasWriteNarrowingEntries in Hd.
    apply andb_true_iff in Hr as [Hrk _]. rewrite Hrk in Hd. cbn [andb] in Hd.
    apply not_true_iff_false. intros Hna. apply not_true_iff_false in Hd. apply Hd. apply existsb_exists.
    exists entry. by rewrite <- list_elem_of_In. }
  destruct (not_narrowed p cwd entry _ Hcwd Htmp (Hue _ Hen) (Hup _ Hen) Hr Hen Hw Hn Hre) as (Hrank & b & Hb & Hpb & Hab).
  assert (below b e) as Hbe by (apply Hmax; [done|unfold covers; by rewrite Hpb]).
  unfold below in Hbe. rewrite Hpb, Hab, Ha, Hrank in Hbe. cbn in Hbe. lia.
Qed.

(** C5: the access to a path is the one of its most specific entry. Among
    the entries that cover the resolved target, the decisive one has the most
    components and, for the same path, the strongest mode (deny over write over
    read); without any, access is denied. *)
Theorem access_most_specific p target cwd t : is_open p = false -> resolveCandidatePath target cwd = Some t ->
  (exists e, decides (resolvedEntriesWithCwd p cwd) t e /\ resolveAccessWithCwd p target cwd = raccess e)
  \/ ((forall e, e ∈ resolvedEntriesWithCwd p cwd -> ~ covers t e)
      /\ resolveAccessWithCwd p target cwd = FileSystemAccessModeDeny).
Proof. apply resolveAccess_cases. Qed.

(** The shortcuts for full disk access are right: when the policy is
    said to allow every read, or every write, each target can be read, or written. *)
Theorem full_disk_access_sound p target cwd : isAbsolute false cwd = true -> isDir (str "/tmp") = true ->
  Forall unix_entry (PolicyEntries p) -> Forall unix_path (PolicyEntries p) ->
  (fsHasFullDiskReadAccess p = true -> canReadPathWithCwd p target cwd = true)
  /\ (fsHasFullDiskWriteAccess p = true -> canWritePathWithCwd p target cwd = true).
Proof.
  intros Hcwd Htmp Hue Hup. split; [by apply full_read|]. intros Hf. unfold canWritePathWithCwd.
  by rewrite full_write_access, Hf by done.
Qed.

End Policy.

(** ** Examples *)

Section Examples.

(** A world without symbolic links where every path is a directory. *)
#[local] Instance plain_world : SandboxWorld := {|
  homeDir := None; getwd := Some (str "/w"); tmpdir_env := []; isDir := fun _ => true; isFile := fun _ => false;
  lstat := fun _ => true; evalSymlinks := Some |}.

Definition root_entry (a : FileSystemAccessMode) : FileSystemSandboxEntry :=
  mkFileSystemSandboxEntry (NewFileSystemSpecialPath (special_of FileSystemSpecialPathKindRoot)) a.
Definition path_entry (path : gostring) (a : FileSystemAccessMode) : FileSystemSandboxEntry :=
  mkFileSystemSandboxEntry (NewFileSystemPath path) a.
Definition restricted (entries : list FileSystemSandboxEntry) : FileSystemSandboxPolicy :=
  mkFileSystemSandboxPolicy FileSystemSandboxKindRestricted None entries.

Definition layered : FileSystemSandboxPolicy :=
  restricted [root_entry FileSystemAccessModeRead; path_entry (str "/w") FileSystemAccessModeWrite;
              path_entry (str "/w/secret") FileSystemAccessModeDeny; path_entry (str "/w/secret/out") FileSystemAccessModeWrite].

Example layered_access :
  map (fun t => resolveAccessWithCwd layered t (str "/w")) [str "/etc/passwd"; str "a"; str "secret/k"; str "secret/out/x"]
  = [FileSystemAccessModeRead; FileSystemAccessModeWrite; FileSystemAccessModeDeny; FileSystemAccessModeWrite]
  /\ map (fun t => canWritePathWithCwd layered t (str "/w")) [str "a"; str ".git/config"; str ".codexgo"; str "/w/secret/out/x"]
  = [true; false; false; true].
Proof. vm_compute. done. Qed.

Lemma access_most_specific_witness :
  (exists e, decides (resolvedEntriesWithCwd layered (str "/w")) (str "/w/secret/k") e
     /\ resolveAccessWithCwd layered (str "secret/k") (str "/w") = raccess e)
  \/ ((forall e, e ∈ resolvedEntriesWithCwd layered (str "/w") -> ~ covers (str "/w/secret/k") e)
      /\ resolveAccessWithCwd layered (str "secret/k") (str "/w") = FileSystemAccessModeDeny).
Proof. apply access_most_specific; vm_compute; reflexivity. Defined.

Definition full_write_policy : FileSystemSandboxPolicy :=
  restricted [root_entry FileSystemAccessModeWrite; path_entry (str "/tmp") FileSystemAccessModeRead;
    mkFileSystemSandboxEntry (NewFileSystemSpecialPath (special_of FileSystemSpecialPathKindSlashTmp)) FileSystemAccessModeWrite].

Lemma full_disk_access_sound_witness :
  canReadPathWithCwd full_write_policy (str "/etc") (str "/w") = true
  /\ canWritePathWithCwd full_write_policy (str "/tmp/x") (str "/w") = true.
Proof.
  pose proof (full_disk_access_sound full_write_policy (str "/etc") (str "/w")) as H1.
  pose proof (full_disk_access_sound full_write_policy (str "/tmp/x") (str "/w")) as H2.
  split; [apply H1|apply H2]; try (vm_compute; reflexivity); repeat constructor; done.
Defined.

(** An entry is compared as it is written: one that ends in a slash covers
    nothing below it. *)
Example trailing_slash_entry :
  canReadPathWithCwd (restricted [root_entry FileSystemAccessModeRead; path_entry (str "/secret/") FileSystemAccessModeDeny])
    (str "/secret/key") (str "/w") = true.
Proof. vm_compute. reflexivity. Qed.

(** Only the first writable entry is asked for protected metadata: a root
    inside the metadata of another one has unprotected metadata. *)
Example metadata_order :
  let p := restricted [path_entry (str "/w") FileSystemAccessModeWrite; path_entry (str "/w/.agents/b") FileSystemAccessModeWrite] in
  let q := restricted [path_entry (str "/w/.agents/b") FileSystemAccessModeWrite; path_entry (str "/w") FileSystemAccessModeWrite] in
  (canWritePathWithCwd p (str "/w/.agents/b/.git/config") (str "/w"),
   canWritePathWithCwd q (str "/w/.agents/b/.git/config") (str "/w")) = (true, false).
Proof. vm_compute. reflexivity. Qed.

End Examples.
End SandboxPolicy.
