(* ===== verification/SandboxProfile.v ===== *)
(** * internal/sandbox: profiles, overlays and the choice of a sandbox

    [runtime.go], [glob_depth.go], [preference.go], [spawn.go], the legacy
    projection of [policy_resolve.go] and [core/turn_sandbox_policy.go]: a
    permission profile becomes a filesystem and a network policy, a partial
    overlay is folded in, and the policies select the platform sandbox. *)

From stdpp Require Import base list.
From S2P Require Import Prelude GoStrings AbsPath GoPath SandboxPath Permissions SandboxPolicy.

Module SandboxProfile.
Import AbsPath GoPath SandboxPath Permissions SandboxPolicy.

(** ** runtime.go: profiles *)

Definition profileFileSystemSandboxPolicy (p : PermissionProfile) : FileSystemSandboxPolicy :=
  match ProfileKind p with
  | PermissionProfileManaged => ToSandboxPolicy (FileSystem p)
  | PermissionProfileExternal => mkFileSystemSandboxPolicy FileSystemSandboxKindExternalSandbox None []
  | _ => mkFileSystemSandboxPolicy FileSystemSandboxKindUnrestricted None []
  end.

Definition profileNetworkSandboxPolicy (p : PermissionProfile) : NetworkSandboxPolicy :=
  match ProfileKind p with
  | PermissionProfileManaged | PermissionProfileExternal => Network p
  | _ => NetworkSandboxPolicyEnabled
  end.

Definition profileRuntimePermissions (p : PermissionProfile) : FileSystemSandboxPolicy * NetworkSandboxPolicy :=
  (profileFileSystemSandboxPolicy p, profileNetworkSandboxPolicy p).

Definition managedFromSandboxPolicy (fsPolicy : FileSystemSandboxPolicy) : ManagedFileSystemPermissions :=
  match PolicyKind fsPolicy with
  | FileSystemSandboxKindUnrestricted => NewUnrestrictedManagedFileSystem
  | _ => NewRestrictedManagedFileSystem (PolicyEntries fsPolicy) (PolicyGlobScanMaxDepth fsPolicy)
  end.

Definition profileFromRuntimeWithEnforcement (enforcement : SandboxEnforcement) (fsPolicy : FileSystemSandboxPolicy)
  (network : NetworkSandboxPolicy) : PermissionProfile :=
  match PolicyKind fsPolicy with
  | FileSystemSandboxKindExternalSandbox => NewExternalPermissionProfile network
  | FileSystemSandboxKindUnrestricted =>
      if decide (enforcement = SandboxEnforcementDisabled) then NewDisabledPermissionProfile
      else NewManagedPermissionProfile (managedFromSandboxPolicy fsPolicy) network
  | _ => NewManagedPermissionProfile (managedFromSandboxPolicy fsPolicy) network
  end.

(** *** Equality of entries *)

Definition specialPathsEqual (a b : option FileSystemSpecialPath) : bool :=
  match a, b with
  | Some a, Some b =>
      if decide (SpecialKind a = SpecialKind b)
      then match SpecialKind a with
           | FileSystemSpecialPathKindProjectRoots => ptrStringEqual (Subpath a) (Subpath b)
           | FileSystemSpecialPathKindUnknown =>
               bool_decide (SpecialPath a = SpecialPath b) && ptrStringEqual (Subpath a) (Subpath b)
           | _ => true
           end
      else false
  | None, None => true
  | _, _ => false
  end.

Definition filesystemPathsEqual (a b : FileSystemPath) : bool :=
  if decide (PathType a = PathType b)
  then match PathType a with
       | FileSystemPathTypePath => bool_decide (Path a = Path b)
       | FileSystemPathTypeGlobPattern => bool_decide (Pattern a = Pattern b)
       | _ => specialPathsEqual (Special a) (Special b)
       end
  else false.

Definition entriesEqual (a b : FileSystemSandboxEntry) : bool :=
  bool_decide (Access a = Access b) && filesystemPathsEqual (EntryPath a) (EntryPath b).

Definition containsEntry (entries : list FileSystemSandboxEntry) (target : FileSystemSandboxEntry) : bool :=
  existsb (fun e => entriesEqual e target) entries.

(** ** glob_depth.go *)

Definition hasDenyGlobEntry (entries : list FileSystemSandboxEntry) : bool :=
  existsb (fun e => bool_decide (Access e = FileSystemAccessModeDeny)
                    && bool_decide (PathType (EntryPath e) = FileSystemPathTypeGlobPattern)) entries.

(** [globScanDepth]: a nil pointer is [None]. *)
Inductive globScanDepth := bounded (depth : N) | unbounded.

Definition effectiveGlobScanDepth (entries : list FileSystemSandboxEntry) (depth : option N) : option globScanDepth :=
  if hasDenyGlobEntry entries
  then match depth with Some d => Some (bounded d) | None => Some unbounded end
  else None.

Definition mergeGlobScanMaxDepth (leftEntries : list FileSystemSandboxEntry) (leftDepth : option N)
  (rightEntries : list FileSystemSandboxEntry) (rightDepth : option N) : option N :=
  match effectiveGlobScanDepth leftEntries leftDepth, effectiveGlobScanDepth rightEntries rightDepth with
  | Some unbounded, _ | _, Some unbounded => None
  | Some (bounded l), Some (bounded r) => Some (N.max l r)
  | Some (bounded l), None => Some l
  | None, Some (bounded r) => Some r
  | None, None => None
  end.

(** ** runtime.go: overlays *)

Definition merge_entries (entries overlay : list FileSystemSandboxEntry) : list FileSystemSandboxEntry :=
  fold_left (fun entries e => if containsEntry entries e then entries else entries ++ [e]) overlay entries.

Definition mergeFileSystemPolicyWithAdditional (base : FileSystemSandboxPolicy) (overlay : FileSystemPermissions) :
  FileSystemSandboxPolicy :=
  if negb (is_restricted base) then base
  else mkFileSystemSandboxPolicy FileSystemSandboxKindRestricted
         (mergeGlobScanMaxDepth (PolicyEntries base) (PolicyGlobScanMaxDepth base)
            (PermEntries overlay) (PermGlobScanMaxDepth overlay))
         (merge_entries (PolicyEntries base) (PermEntries overlay)).

Definition effectiveFileSystemSandboxPolicy (base : FileSystemSandboxPolicy)
  (additional : option AdditionalPermissionProfile) : FileSystemSandboxPolicy :=
  match additional ≫= AdditionalFileSystem with
  | None => base
  | Some overlay => if FileSystemPermissions_IsEmpty overlay then base
                    else mergeFileSystemPolicyWithAdditional base overlay
  end.

Definition mergeNetworkAccess (baseEnabled : bool) (additional : AdditionalPermissionProfile) : bool :=
  if baseEnabled then true
  else match AdditionalNetwork additional with
       | Some n => bool_decide (Enabled n = Some true)
       | None => false
       end.

Definition effectiveNetworkSandboxPolicy (base : NetworkSandboxPolicy)
  (additional : option AdditionalPermissionProfile) : NetworkSandboxPolicy :=
  match additional with
  | Some a => if mergeNetworkAccess (IsEnabled base) a then NetworkSandboxPolicyEnabled else NetworkSandboxPolicyRestricted
  | None => base
  end.

(** ** preference.go and spawn.go *)

Inductive SandboxType :=
| SandboxTypeNone
| SandboxTypeMacosSeatbelt
| SandboxTypeLinuxSeccomp
| SandboxTypeWindowsRestrictedToken.
#[export] Instance SandboxType_eq_dec : EqDecision SandboxType.
Proof. solve_decision. Defined.

Inductive SandboxablePreference :=
| SandboxablePreferenceAuto
| SandboxablePreferenceRequire
| SandboxablePreferenceForbid.

Inductive WindowsSandboxLevel :=
| WindowsSandboxLevelDisabled
| WindowsSandboxLevelRestrictedToken
| WindowsSandboxLevelElevated
| WindowsSandboxLevelOther (s : gostring).
#[export] Instance WindowsSandboxLevel_eq_dec : EqDecision WindowsSandboxLevel.
Proof. solve_decision. Defined.

Definition AsMetricTag (s : SandboxType) : gostring :=
  match s with
  | SandboxTypeNone => str "none"
  | SandboxTypeMacosSeatbelt => str "seatbelt"
  | SandboxTypeLinuxSeccomp => str "seccomp"
  | SandboxTypeWindowsRestrictedToken => str "windows_sandbox"
  end.

(** The operating system the binary is built for: the [platform_*.go] file. *)
Inductive platform := linux | darwin | windows | other.

Definition platformSandbox (os : platform) (windowsSandboxEnabled : bool) : option SandboxType :=
  match os with
  | linux => Some SandboxTypeLinuxSeccomp
  | darwin => Some SandboxTypeMacosSeatbelt
  | windows => if windowsSandboxEnabled then Some SandboxTypeWindowsRestrictedToken else None
  | other => None
  end.

Definition ShouldRequirePlatformSandbox (fileSystemPolicy : FileSystemSandboxPolicy)
  (networkPolicy : NetworkSandboxPolicy) (hasManagedNetworkRequirements : bool) : bool :=
  if hasManagedNetworkRequirements then true
  else if negb (IsEnabled networkPolicy)
  then negb (bool_decide (PolicyKind fileSystemPolicy = FileSystemSandboxKindExternalSandbox))
  else match PolicyKind fileSystemPolicy with
       | FileSystemSandboxKindRestricted => negb (fsHasFullDiskWriteAccess fileSystemPolicy)
       | _ => false
       end.

Definition EffectivePermissionProfile (base : PermissionProfile) (additional : option AdditionalPermissionProfile) :
  PermissionProfile :=
  let '(fsPolicy, networkPolicy) := profileRuntimePermissions base in
  profileFromRuntimeWithEnforcement (Enforcement base) (effectiveFileSystemSandboxPolicy fsPolicy additional)
    (effectiveNetworkSandboxPolicy networkPolicy additional).

Record SelectParams := mkSelectParams {
  SelectFileSystemPolicy : FileSystemSandboxPolicy;
  SelectNetworkPolicy : NetworkSandboxPolicy;
  Preference : SandboxablePreference;
  SelectWindowsLevel : WindowsSandboxLevel;
  HasManagedNetworkRequirements : bool;
}.

Definition selectInitial (os : platform) (fileSystemPolicy : FileSystemSandboxPolicy) (networkPolicy : NetworkSandboxPolicy)
  (pref : SandboxablePreference) (windowsSandboxLevel : WindowsSandboxLevel) (hasManagedNetworkRequirements : bool) :
  SandboxType :=
  let available := platformSandbox os (negb (bool_decide (windowsSandboxLevel = WindowsSandboxLevelDisabled))) in
  match pref with
  | SandboxablePreferenceForbid => SandboxTypeNone
  | SandboxablePreferenceRequire => default SandboxTypeNone available
  | SandboxablePreferenceAuto =>
      if ShouldRequirePlatformSandbox fileSystemPolicy networkPolicy hasManagedNetworkRequirements
      then default SandboxTypeNone available else SandboxTypeNone
  end.

Definition SelectBackendType (os : platform) (params : SelectParams) : SandboxType :=
  selectInitial os (SelectFileSystemPolicy params) (SelectNetworkPolicy params) (Preference params)
    (SelectWindowsLevel params) (HasManagedNetworkRequirements params).

(** ** core/turn_sandbox_policy.go *)

Inductive SandboxMode :=
| SandboxModeReadOnly
| SandboxModeWorkspaceWrite
| SandboxModeDangerFullAccess
| SandboxModeOther (s : gostring).

(** The fields of [TurnContext] that the resolver reads. *)
Record TurnContext := mkTurnContext {
  TurnSandboxMode : SandboxMode;
  TurnNetworkAccessEnabled : bool;
  TurnWindowsSandboxLevel : WindowsSandboxLevel;
}.

Definition special_entry (s : FileSystemSpecialPath) (a : FileSystemAccessMode) : FileSystemSandboxEntry :=
  mkFileSystemSandboxEntry (NewFileSystemSpecialPath s) a.

Definition readOnlyFileSystemSandboxPolicy : FileSystemSandboxPolicy :=
  mkFileSystemSandboxPolicy FileSystemSandboxKindRestricted None
    [special_entry (special_of FileSystemSpecialPathKindRoot) FileSystemAccessModeRead].

Definition workspaceWriteFileSystemSandboxPolicy : FileSystemSandboxPolicy :=
  mkFileSystemSandboxPolicy FileSystemSandboxKindRestricted None
    [special_entry (special_of FileSystemSpecialPathKindRoot) FileSystemAccessModeRead;
     special_entry (NewProjectRootsSpecialPath None) FileSystemAccessModeWrite;
     special_entry (special_of FileSystemSpecialPathKindSlashTmp) FileSystemAccessModeWrite;
     special_entry (special_of FileSystemSpecialPathKindTmpdir) FileSystemAccessModeWrite].

Definition networkSandboxPolicyForFlag (enabled : bool) : NetworkSandboxPolicy :=
  if enabled then NetworkSandboxPolicyEnabled else NetworkSandboxPolicyRestricted.

Definition runtimePermissionsForMode (mode : SandboxMode) (networkEnabled : bool) :
  FileSystemSandboxPolicy * NetworkSandboxPolicy :=
  match mode with
  | SandboxModeDangerFullAccess =>
      (mkFileSystemSandboxPolicy FileSystemSandboxKindUnrestricted None [], NetworkSandboxPolicyEnabled)
  | SandboxModeWorkspaceWrite => (workspaceWriteFileSystemSandboxPolicy, networkSandboxPolicyForFlag networkEnabled)
  | _ => (readOnlyFileSystemSandboxPolicy, networkSandboxPolicyForFlag networkEnabled)
  end.

(** [resolveTurnSandboxPolicy]; a nil context is [None]. *)
Definition resolveTurnSandboxPolicy (os : platform) (tc : option TurnContext) :
  SandboxType * (FileSystemSandboxPolicy * NetworkSandboxPolicy) :=
  let '(mode, networkEnabled, windowsLevel) :=
    match tc with
    | Some tc => (match TurnSandboxMode tc with SandboxModeOther [] => SandboxModeReadOnly | m => m end,
                  TurnNetworkAccessEnabled tc, TurnWindowsSandboxLevel tc)
    | None => (SandboxModeReadOnly, false, WindowsSandboxLevelDisabled)
    end in
  let '(fsPolicy, networkPolicy) := runtimePermissionsForMode mode networkEnabled in
  (SelectBackendType os (mkSelectParams fsPolicy networkPolicy SandboxablePreferenceAuto windowsLevel false),
   (fsPolicy, networkPolicy)).

(** ** The legacy projection *)

Definition externalSandboxPolicy (network : NetworkSandboxPolicy) : SandboxPolicy :=
  mkSandboxPolicy SandboxPolicyTypeExternalSandbox false
    (if IsEnabled network then Permissions.NetworkAccessEnabled else NetworkAccessRestricted) [] false false.

(** What [toLegacySandboxPolicy] collects over the entries. *)
Record legacy_scan := mk_legacy_scan {
  workspaceRootWritable : bool;
  scanned_roots : list gostring;
  tmpdirWritable : bool;
  slashTmpWritable : bool;
  unbridgeableRootWrite : bool;
}.

Section Legacy.
Context `{World : SandboxWorld}.

Definition legacy_step (cwdAbs : option gostring) (st : legacy_scan) (entry : FileSystemSandboxEntry) : legacy_scan :=
  let '(mk_legacy_scan workspace roots tmpdir slashTmp rootWrite) := st in
  let w := CanWrite (Access entry) in
  match PathType (EntryPath entry) with
  | FileSystemPathTypePath =>
      if w then if decide (cwdAbs = Some (Path (EntryPath entry)))
                then mk_legacy_scan true roots tmpdir slashTmp rootWrite
                else mk_legacy_scan workspace (roots ++ [Path (EntryPath entry)]) tmpdir slashTmp rootWrite
      else st
  | FileSystemPathTypeSpecial =>
      match Special (EntryPath entry) with
      | None => st
      | Some s =>
          match SpecialKind s with
          | FileSystemSpecialPathKindRoot => mk_legacy_scan workspace roots tmpdir slashTmp (rootWrite || w)
          | FileSystemSpecialPathKindProjectRoots =>
              if bool_decide (Subpath s = None) && w then mk_legacy_scan true roots tmpdir slashTmp rootWrite
              else match resolveSpecialPath s cwdAbs with
                   | Some resolved => if w then mk_legacy_scan workspace (roots ++ [resolved]) tmpdir slashTmp rootWrite
                                      else st
                   | None => st
                   end
          | FileSystemSpecialPathKindTmpdir => mk_legacy_scan workspace roots (tmpdir || w) slashTmp rootWrite
          | FileSystemSpecialPathKindSlashTmp => mk_legacy_scan workspace roots tmpdir (slashTmp || w) rootWrite
          | _ => st
          end
      end
  | _ => st
  end.

Inductive legacy_error := errLegacyWriteOutsideWorkspace.

Definition toLegacySandboxPolicy (p : FileSystemSandboxPolicy) (network : NetworkSandboxPolicy) (cwd : gostring) :
  result legacy_error SandboxPolicy :=
  match PolicyKind p with
  | FileSystemSandboxKindExternalSandbox => Ok (externalSandboxPolicy network)
  | FileSystemSandboxKindUnrestricted =>
      Ok (if IsEnabled network then NewDangerFullAccessSandboxPolicy
          else externalSandboxPolicy NetworkSandboxPolicyRestricted)
  | _ =>
      let '(mk_legacy_scan workspace roots tmpdir slashTmp rootWrite) :=
        fold_left (legacy_step (resolveCandidatePath cwd cwd)) (PolicyEntries p) (mk_legacy_scan false [] false false false) in
      if fsHasFullDiskWriteAccess p
      then Ok (if IsEnabled network then NewDangerFullAccessSandboxPolicy
               else externalSandboxPolicy NetworkSandboxPolicyRestricted)
      else if workspace
      then Ok (mkSandboxPolicy SandboxPolicyTypeWorkspaceWrite (IsEnabled network) NetworkAccessUnset
                 (dedupPathsNoNormalize roots) (negb tmpdir) (negb slashTmp))
      else if rootWrite || bool_decide (roots <> []) || tmpdir || slashTmp
      then Err errLegacyWriteOutsideWorkspace
      else Ok (NewReadOnlySandboxPolicy (IsEnabled network))
  end.

(** ** Folding and projecting *)

(** A rebuilt profile projects to the policies that it was built from. *)
Lemma rebuild_projects enforcement fs net :
  (PolicyKind fs = FileSystemSandboxKindRestricted
   \/ fs = mkFileSystemSandboxPolicy FileSystemSandboxKindUnrestricted None []
   \/ fs = mkFileSystemSandboxPolicy FileSystemSandboxKindExternalSandbox None []) ->
  (enforcement = SandboxEnforcementDisabled -> PolicyKind fs = FileSystemSandboxKindUnrestricted ->
     net = NetworkSandboxPolicyEnabled) ->
  profileRuntimePermissions (profileFromRuntimeWithEnforcement enforcement fs net) = (fs, net).
Proof.
  intros Hk Hd. unfold profileFromRuntimeWithEnforcement, managedFromSandboxPolicy, profileRuntimePermissions.
  destruct Hk as [Hk|[->| ->]]; [|cbn [PolicyKind] in *|done].
  - rewrite Hk. destruct fs. cbn in *. by subst.
  - case_decide; [|done]. by rewrite Hd.
Qed.

Lemma profile_kinds p : let fs := profileFileSystemSandboxPolicy p in
  PolicyKind fs = FileSystemSandboxKindRestricted
   \/ fs = mkFileSystemSandboxPolicy FileSystemSandboxKindUnrestricted None []
   \/ fs = mkFileSystemSandboxPolicy FileSystemSandboxKindExternalSandbox None [].
Proof.
  unfold profileFileSystemSandboxPolicy, ToSandboxPolicy.
  destruct (ProfileKind p); [destruct (ManagedKind (FileSystem p))|..]; auto.
Qed.

Lemma effective_kind fs additional : PolicyKind (effectiveFileSystemSandboxPolicy fs additional) = PolicyKind fs
  /\ (PolicyKind fs <> FileSystemSandboxKindRestricted -> effectiveFileSystemSandboxPolicy fs additional = fs).
Proof.
  unfold effectiveFileSystemSandboxPolicy. destruct (additional ≫= AdditionalFileSystem) as [overlay|]; [|done].
  destruct (FileSystemPermissions_IsEmpty overlay); [done|]. unfold mergeFileSystemPolicyWithAdditional, is_restricted.
  case_bool_decide as Hr; cbn [negb]; [|done]. split; [by rewrite Hr|done].
Qed.

(** The effective profile projects to the folded policies: nothing is lost or
    added on the way back into a profile. *)
Lemma effective_profile_projects base additional :
  profileRuntimePermissions (EffectivePermissionProfile base additional)
  = (effectiveFileSystemSandboxPolicy (profileFileSystemSandboxPolicy base) additional,
     effectiveNetworkSandboxPolicy (profileNetworkSandboxPolicy base) additional).
Proof.
  unfold EffectivePermissionProfile. unfold profileRuntimePermissions at 2.
  destruct (effective_kind (profileFileSystemSandboxPolicy base) additional) as [Hk Hsame].
  apply rebuild_projects.
  - destruct (profile_kinds base) as [Hr|[Hu|He]]; [left; by rewrite Hk|right; left|right; right];
      (rewrite Hsame; [done|]); [by rewrite Hu|by rewrite He].
  - intros Hd _. unfold Enforcement in Hd. unfold profileNetworkSandboxPolicy. destruct (ProfileKind base); try done.
    by destruct additional.
Qed.

(** *** Overlays and denied paths *)

Lemma merge_entries_elem base overlay e : e ∈ merge_entries base overlay -> e ∈ base \/ e ∈ overlay.
Proof.
  unfold merge_entries. revert base. induction overlay as [|x overlay IH]; intros base; cbn [fold_left]; [by left|].
  intros [He|He]%IH; [|right; by right]. destruct (containsEntry base x); [by left|].
  apply elem_of_app in He as [He| ->%list_elem_of_singleton]; [by left|right; by constructor].
Qed.

Lemma merge_entries_base base overlay e : e ∈ base -> e ∈ merge_entries base overlay.
Proof.
  unfold merge_entries. revert base. induction overlay as [|x overlay IH]; intros base He; cbn [fold_left]; [done|].
  apply IH. destruct (containsEntry base x); [done|]. apply elem_of_app. by left.
Qed.

Lemma effective_entries fs additional : PolicyKind fs = FileSystemSandboxKindRestricted ->
  (forall e, e ∈ PolicyEntries fs -> e ∈ PolicyEntries (effectiveFileSystemSandboxPolicy fs additional))
  /\ (forall e, e ∈ PolicyEntries (effectiveFileSystemSandboxPolicy fs additional) ->
        e ∈ PolicyEntries fs \/ exists a o, additional = Some a /\ AdditionalFileSystem a = Some o /\ e ∈ PermEntries o).
Proof.
  intros Hk. unfold effectiveFileSystemSandboxPolicy. destruct additional as [a|]; cbn; [|auto].
  destruct (AdditionalFileSystem a) as [o|] eqn:Eo; [|auto]. destruct (FileSystemPermissions_IsEmpty o); [auto|].
  unfold mergeFileSystemPolicyWithAdditional, is_restricted. rewrite bool_decide_eq_true_2 by done. cbn [negb PolicyEntries].
  split; [intros e; apply merge_entries_base|]. intros e [?|?]%merge_entries_elem; [by left|right; eauto].
Qed.

(** an overlay cannot reopen a denied path by naming it again. When
    the entry that decides a target in the base policy denies it, the folded
    policy grants access only through an entry of the overlay that is deeper
    than the denied one. *)
Theorem overlay_cannot_lift_deny fs additional target cwd t e :
  PolicyKind fs = FileSystemSandboxKindRestricted -> resolveCandidatePath target cwd = Some t ->
  decides (resolvedEntriesWithCwd fs cwd) t e -> accessRank (raccess e) = 2 ->
  let fs' := effectiveFileSystemSandboxPolicy fs additional in
  accessRank (resolveAccessWithCwd fs' target cwd) < 2 ->
  exists a o entry b, additional = Some a /\ AdditionalFileSystem a = Some o /\ entry ∈ PermEntries o
    /\ resolve_entry (resolveCandidatePath cwd cwd) entry = Some b /\ covers t b
    /\ componentCount (rpath e) < componentCount (rpath b) /\ resolveAccessWithCwd fs' target cwd = raccess b.
Proof.
  intros Hk Ht (Hin & Hc & Hmax) Hdeny fs' Hacc.
  destruct (effective_entries fs additional Hk) as [Hkeep Hfrom].
  assert (is_open fs' = false) as Ho.
  { unfold is_open, fs'. by rewrite (proj1 (effective_kind fs additional)), Hk. }
  destruct (resolveAccess_cases fs' target cwd t Ho Ht) as [(b & (Hbin & Hbc & Hbmax) & Eb)|[_ Eb]]; rewrite Eb in *;
    [|cbn in Hacc; lia].
  assert (e ∈ resolvedEntriesWithCwd fs' cwd) as Hin'.
  { apply elem_of_resolved in Hin as (entry & Hen & Hr). apply elem_of_resolved. exists entry. auto. }
  pose proof (Hbmax e Hin' Hc) as Heb. unfold below in Heb.
  pose proof Hbin as (entry & Hen & Hr & Ha)%elem_of_resolved.
  destruct (Hfrom entry Hen) as [Hbase|(a & o & Ea & Eo & Hov)].
  - assert (below b e) as Hbe; [|unfold below in Hbe; lia]. apply Hmax; [|done].
    apply elem_of_resolved. eauto.
  - exists a, o, entry, b. split_and!; [done..| |done|lia|done].
    unfold resolve_entry. rewrite Hr. destruct b. cbn in *. by rewrite Ha.
Qed.

(** Folding an overlay and going back to a profile loses nothing: the
    effective profile projects to the folded filesystem and network policies,
    for every kind of profile. *)
Theorem effective_profile_exact base additional :
  profileRuntimePermissions (EffectivePermissionProfile base additional)
  = (effectiveFileSystemSandboxPolicy (profileFileSystemSandboxPolicy base) additional,
     effectiveNetworkSandboxPolicy (profileNetworkSandboxPolicy base) additional).
Proof. apply effective_profile_projects. Qed.

(** leaving a command without a sandbox is justified. On a platform that
    has one, the automatic choice drops it only when nothing requires a managed
    network, and either the isolation is external or the network is open and the
    policy lets the command write everywhere. *)
Theorem auto_unsandboxed_is_open os fs net level managed cwd st :
  platformSandbox os (negb (bool_decide (level = WindowsSandboxLevelDisabled))) = Some st -> st <> SandboxTypeNone ->
  selectInitial os fs net SandboxablePreferenceAuto level managed = SandboxTypeNone ->
  (forall s, PolicyKind fs <> FileSystemSandboxKindOther s) ->
  isAbsolute false cwd = true -> isDir (str "/tmp") = true ->
  Forall unix_entry (PolicyEntries fs) -> Forall unix_path (PolicyEntries fs) ->
  managed = false /\ (PolicyKind fs = FileSystemSandboxKindExternalSandbox
    \/ (IsEnabled net = true /\ forall target, canWritePathWithCwd fs target cwd = true)).
Proof.
  intros Hst Hne Hsel Hkind Hcwd Htmp Hue Hup. unfold selectInitial in Hsel. rewrite Hst in Hsel. cbn [default] in Hsel.
  destruct (ShouldRequirePlatformSandbox fs net managed) eqn:Hreq; [done|]. unfold ShouldRequirePlatformSandbox in Hreq.
  destruct managed; [done|]. split; [done|].
  assert (fsHasFullDiskWriteAccess fs = true -> forall target, canWritePathWithCwd fs target cwd = true) as Hfull.
  { intros Hf target. unfold canWritePathWithCwd. by rewrite full_write_access, Hf by done. }
  destruct (IsEnabled net); cbn [negb] in Hreq.
  - right. split; [done|]. apply Hfull. destruct (PolicyKind fs) eqn:Ek; [by apply negb_false_iff in Hreq|..];
      try (unfold fsHasFullDiskWriteAccess, is_open; by rewrite Ek). exfalso. by apply (Hkind s).
  - left. by apply negb_false_iff, bool_decide_eq_true in Hreq.
Qed.

End Legacy.

(** ** Examples *)

Section Examples.
#[local] Existing Instance plain_world.

Definition deny_overlay : AdditionalPermissionProfile :=
  mkAdditionalPermissionProfile (Some (mkNetworkPermissions (Some true)))
    (Some (mkFileSystemPermissions [path_entry (str "/w/secret") FileSystemAccessModeWrite;
                                    path_entry (str "/w/secret/out") FileSystemAccessModeWrite] None)).
Definition deny_base : FileSystemSandboxPolicy :=
  restricted [root_entry FileSystemAccessModeRead; path_entry (str "/w/secret") FileSystemAccessModeDeny].

Lemma overlay_cannot_lift_deny_witness :
  let fs' := effectiveFileSystemSandboxPolicy deny_base (Some deny_overlay) in
  resolveAccessWithCwd fs' (str "/w/secret/k") (str "/w") = FileSystemAccessModeDeny
  /\ exists a o entry b, Some deny_overlay = Some a /\ AdditionalFileSystem a = Some o /\ entry ∈ PermEntries o
    /\ resolve_entry (resolveCandidatePath (str "/w") (str "/w")) entry = Some b /\ covers (str "/w/secret/out/k") b
    /\ componentCount (str "/w/secret") < componentCount (rpath b)
    /\ resolveAccessWithCwd fs' (str "/w/secret/out/k") (str "/w") = raccess b.
Proof.
  split; [vm_compute; reflexivity|].
  apply (overlay_cannot_lift_deny deny_base (Some deny_overlay) (str "/w/secret/out/k") (str "/w") (str "/w/secret/out/k")
    (mkResolvedEntry (str "/w/secret") FileSystemAccessModeDeny)); try (vm_compute; reflexivity).
  pose proof (best_decides (str "/w/secret/out/k") (resolvedEntriesWithCwd deny_base (str "/w"))) as Hb. exact Hb.
Defined.

Lemma auto_unsandboxed_is_open_witness :
  false = false /\ (PolicyKind full_write_policy = FileSystemSandboxKindExternalSandbox
    \/ (IsEnabled NetworkSandboxPolicyEnabled = true
        /\ forall target, canWritePathWithCwd full_write_policy target (str "/w") = true)).
Proof.
  apply (auto_unsandboxed_is_open linux full_write_policy NetworkSandboxPolicyEnabled WindowsSandboxLevelDisabled false
    (str "/w") SandboxTypeLinuxSeccomp); try (vm_compute; reflexivity); try done; repeat constructor; done.
Defined.

(** The zero value of a policy's kind resolves every access to deny, but asks
    for no sandbox. *)
Example zero_kind_unsandboxed :
  let p := mkFileSystemSandboxPolicy (FileSystemSandboxKindOther []) None [] in
  (ShouldRequirePlatformSandbox p NetworkSandboxPolicyEnabled false, resolveAccessWithCwd p (str "/w/a") (str "/w"))
  = (false, FileSystemAccessModeDeny).
Proof. vm_compute. reflexivity. Qed.

(** The projection keeps the writable roots and drops the denied paths. *)
Example legacy_drops_deny :
  toLegacySandboxPolicy (restricted [root_entry FileSystemAccessModeRead; path_entry (str "/w") FileSystemAccessModeWrite;
    path_entry (str "/x") FileSystemAccessModeWrite; path_entry (str "/w/secret") FileSystemAccessModeDeny])
    NetworkSandboxPolicyRestricted (str "/w")
  = Ok (mkSandboxPolicy SandboxPolicyTypeWorkspaceWrite false NetworkAccessUnset [str "/x"] true true).
Proof. vm_compute. reflexivity. Qed.

End Examples.
End SandboxProfile.
