(* ===== verification/SandboxLinux.v ===== *)
(** * internal/sandbox: the Linux sandbox

    [native_build.go], the mount overlay of [linux_namespaces_linux.go], the rules of
    [landlock_linux.go] and the order of [linux_sandbox_main_linux.go].  A spawn request is
    resolved into a specification, which the helper turns into mounts.  The
    kernel's mount table is the class [MountTable], with the rules of mount(2)
    as its laws.  The result: what the mounts let a command write is what the
    policy lets it write. *)

From stdpp Require Import base list.
From S2P Require Import Prelude GoStrings AbsPath GoPath SandboxPath Permissions SandboxPolicy SandboxProfile Seccomp.

Module SandboxLinux.
Import AbsPath GoPath SandboxPath Permissions SandboxPolicy SandboxProfile.
#[local] Existing Instance Seccomp.NetworkSeccompMode_eq_dec.

(** ** Requests and specifications *)

(** [SpawnRequest]; [HasProxy] says that its [Network] is not nil. *)
Record SpawnRequest := mkSpawnRequest {
  Command : list gostring;
  Cwd : gostring;
  RequestFileSystemPolicy : FileSystemSandboxPolicy;
  RequestNetworkPolicy : NetworkSandboxPolicy;
  SandboxPolicyCwd : gostring;
  EnforceManagedNetwork : bool;
  HasProxy : bool;
}.

Definition policyCwd (r : SpawnRequest) : gostring :=
  if decide (SandboxPolicyCwd r = []) then Cwd r else SandboxPolicyCwd r.

Record NativeSandboxSpec := mkNativeSandboxSpec {
  SpecCommand : list gostring;
  SpecCwd : gostring;
  FullDiskWriteAccess : bool;
  FullDiskReadAccess : bool;
  WritableRoots : list gostring;
  SpecReadOnlySubpaths : list gostring;
  ProtectedSubpaths : list gostring;
  ReadableRoots : list gostring;
  UnreadableRoots : list gostring;
  SpecNetworkSeccompMode : Seccomp.NetworkSeccompMode;
  DenyReadPaths : list gostring;
  SpecWindowsSandboxLevel : WindowsSandboxLevel;
}.

(** ** The mount table

    [mount_point ns t] is the mount that holds the path [t] (a list of
    segments); [read_only] its read-only flag at [t]; [exposed] says that [t] is
    still the file of the original tree.  An operation can fail, with [None].
    The binds are recursive, so deeper mounts stay in place; the remounts change
    the flag of one mount, whatever [MS_REC] says.  The kernel follows symbolic
    links in the path of an operation, so the laws that say where it takes effect
    are about paths without them; a mask hides something or nothing wherever it
    takes effect. *)
Inductive mount_op :=
| make_private
| remount_root_read_only
| bind_read_write (path : gostring)
| bind_read_only (path : gostring)
| mask_path (path : gostring).

(** A clean path without symbolic links on its way. *)
Definition direct `{World : SandboxWorld} (s : list gostring) : Prop := clean s /\ unlinked s.
Definition direct_path `{World : SandboxWorld} (p : gostring) : Prop := exists s, direct s /\ p = upath s.

(** A bind over itself takes over the paths below it that no deeper mount holds. *)
Definition takes_over (r point t : list gostring) : bool := bool_decide (r `prefix_of` t) && (length point <=? length r).

Class MountTable `{World : SandboxWorld} := {
  mounts : Type;
  mount : mount_op -> mounts -> option mounts;
  mount_point : mounts -> list gostring -> list gostring;
  read_only : mounts -> list gostring -> bool;
  exposed : mounts -> list gostring -> bool;
  private_law ns ns' : mount make_private ns = Some ns' ->
    forall t, mount_point ns' t = mount_point ns t /\ read_only ns' t = read_only ns t /\ exposed ns' t = exposed ns t;
  root_law ns ns' : mount remount_root_read_only ns = Some ns' ->
    forall t, mount_point ns' t = mount_point ns t
      /\ read_only ns' t = (if decide (mount_point ns t = []) then true else read_only ns t)
      /\ exposed ns' t = exposed ns t;
  bind_rw_law ns ns' r : mount (bind_read_write (upath r)) ns = Some ns' -> direct r ->
    forall t, mount_point ns' t = (if takes_over r (mount_point ns t) t then r else mount_point ns t)
      /\ read_only ns' t = (if takes_over r (mount_point ns t) t then false else read_only ns t)
      /\ exposed ns' t = exposed ns t;
  bind_ro_law ns ns' r : mount (bind_read_only (upath r)) ns = Some ns' -> direct r ->
    forall t, mount_point ns' t = (if takes_over r (mount_point ns t) t then r else mount_point ns t)
      /\ read_only ns' t = (if takes_over r (mount_point ns t) t then true else read_only ns t)
      /\ exposed ns' t = exposed ns t;
  mask_hides ns ns' q : mount (mask_path q) ns = Some ns' ->
    forall t, exposed ns' t = true ->
      mount_point ns' t = mount_point ns t /\ read_only ns' t = read_only ns t /\ exposed ns' t = exposed ns t;
  mask_law ns ns' d : mount (mask_path (upath d)) ns = Some ns' -> direct d ->
    forall t, if decide (d `prefix_of` t) then exposed ns' t = false
              else mount_point ns' t = mount_point ns t /\ read_only ns' t = read_only ns t /\ exposed ns' t = exposed ns t;
}.

Section Linux.
Context `{World : SandboxWorld}.

(** ** native_build.go *)

Definition networkAllowsProxy (req : SpawnRequest) : bool := EnforceManagedNetwork req || HasProxy req.
Definition proxyRoutedNetwork (req : SpawnRequest) : bool := HasProxy req.

Definition buildLinuxSandboxSpec (req : SpawnRequest) : NativeSandboxSpec :=
  let fsPolicy := RequestFileSystemPolicy req in
  let cwd := policyCwd req in
  let fullWrite := fsHasFullDiskWriteAccess fsPolicy in
  let fullRead := fsHasFullDiskReadAccess fsPolicy in
  let roots := if fullWrite then [] else getWritableRootsWithCwd fsPolicy cwd in
  let readableRoots := if fullRead then [] else getReadableRootsWithCwd fsPolicy cwd in
  {| SpecCommand := Command req;
     SpecCwd := Cwd req;
     FullDiskWriteAccess := fullWrite;
     FullDiskReadAccess := fullRead;
     WritableRoots := dedupPathsNoNormalize (map Root roots);
     SpecReadOnlySubpaths := dedupPathsNoNormalize (concat (map ReadOnlySubpaths roots));
     ProtectedSubpaths := dedupPathsNoNormalize
       (concat (map (fun root => map (Join2 (Root root)) (ProtectedMetadataNames root)) roots));
     ReadableRoots := dedupPathsNoNormalize readableRoots;
     UnreadableRoots := dedupPathsNoNormalize (getUnreadableRootsWithCwd fsPolicy cwd);
     SpecNetworkSeccompMode := Seccomp.networkSeccompModeFor (IsEnabled (RequestNetworkPolicy req))
       (networkAllowsProxy req) (proxyRoutedNetwork req);
     DenyReadPaths := [];
     SpecWindowsSandboxLevel := WindowsSandboxLevelOther [] |}.

Definition buildWindowsSandboxSpec (req : SpawnRequest) (level : WindowsSandboxLevel) : NativeSandboxSpec :=
  let spec := buildLinuxSandboxSpec req in
  {| SpecCommand := SpecCommand spec;
     SpecCwd := SpecCwd spec;
     FullDiskWriteAccess := FullDiskWriteAccess spec;
     FullDiskReadAccess := FullDiskReadAccess spec;
     WritableRoots := WritableRoots spec;
     SpecReadOnlySubpaths := SpecReadOnlySubpaths spec;
     ProtectedSubpaths := ProtectedSubpaths spec;
     ReadableRoots := ReadableRoots spec;
     UnreadableRoots := UnreadableRoots spec;
     SpecNetworkSeccompMode := Seccomp.NetworkSeccompModeNone;
     DenyReadPaths := dedupPathsNoNormalize (UnreadableRoots spec ++ SpecReadOnlySubpaths spec);
     SpecWindowsSandboxLevel := level |}.

(** ** linux_namespaces_linux.go *)

Record nsSetup := mkNsSetup {
  fullDiskWriteAccess : bool;
  fullDiskReadAccess : bool;
  writableRoots : list gostring;
  readOnlySubpaths : list gostring;
  protectedSubpaths : list gostring;
  readableRoots : list gostring;
  unreadableRoots : list gostring;
  unshareNet : bool;
}.

Definition nsSetupFromSpec (spec : NativeSandboxSpec) : nsSetup :=
  {| fullDiskWriteAccess := FullDiskWriteAccess spec;
     fullDiskReadAccess := FullDiskReadAccess spec;
     writableRoots := WritableRoots spec;
     readOnlySubpaths := SpecReadOnlySubpaths spec;
     protectedSubpaths := ProtectedSubpaths spec;
     readableRoots := ReadableRoots spec;
     unreadableRoots := UnreadableRoots spec;
     unshareNet := bool_decide (SpecNetworkSeccompMode spec = Seccomp.NetworkSeccompModeRestricted) |}.

Fixpoint existing_from (seen paths : list gostring) : list gostring :=
  match paths with
  | [] => []
  | p :: paths =>
      if decide (p = [] \/ p ∈ seen) then existing_from seen paths
      else if lstat p then p :: existing_from (p :: seen) paths else existing_from seen paths
  end.
Definition existingPaths (paths : list gostring) : list gostring := existing_from [] paths.

(** The stable sort by depth. *)
Fixpoint insert_by_depth (p : gostring) (l : list gostring) : list gostring :=
  match l with
  | [] => [p]
  | q :: l => if componentCount p <=? componentCount q then p :: q :: l else q :: insert_by_depth p l
  end.
Definition sortByDepth (paths : list gostring) : list gostring := foldr insert_by_depth [] paths.

Definition topLevelIsAllowed (top : gostring) (allowed : list gostring) : bool :=
  existsb (fun root => bool_decide (root <> []) && (pathStartsWith root top || pathStartsWith top root)) allowed.

(** The masks of [maskNonReadableTopLevel]; [entries] is the answer of
    [os.ReadDir] for the root, [None] for its error. *)
Definition maskNonReadableTopLevel (s : nsSetup) (entries : option (list gostring)) : option (list mount_op) :=
  let allowed := readableRoots s ++ writableRoots s in
  if decide (str "/" ∈ allowed) then Some []
  else entries ← entries;
       Some (map mask_path (filter (fun top => negb (topLevelIsAllowed top allowed)) (map (cons slash) entries))).

(** The mounts of [applyMountOverlay], in order. *)
Definition overlay_plan (s : nsSetup) (entries : option (list gostring)) : option (list mount_op) :=
  masks ← (if fullDiskReadAccess s then Some [] else maskNonReadableTopLevel s entries);
  Some ([make_private] ++ (if fullDiskWriteAccess s then [] else [remount_root_read_only]) ++ masks
        ++ map bind_read_write (sortByDepth (existingPaths (writableRoots s)))
        ++ map bind_read_only (existingPaths (protectedSubpaths s ++ readOnlySubpaths s))
        ++ map mask_path (existingPaths (unreadableRoots s))).

Context `{Mounts : !MountTable}.

Fixpoint run_plan (ops : list mount_op) (ns : mounts) : option mounts :=
  match ops with [] => Some ns | op :: ops => ns' ← mount op ns; run_plan ops ns' end.

Definition applyMountOverlay (s : nsSetup) (entries : option (list gostring)) (ns : mounts) : option mounts :=
  ops ← overlay_plan s entries; run_plan ops ns.

(** A write to the original file at [t]. *)
Definition writes (ns : mounts) (t : list gostring) : bool := exposed ns t && negb (read_only ns t).

(** ** linux_sandbox_main_linux.go: the inner stage

    The effects of [runInnerStage] in order, each with the outcome that the kernel
    gives it; the run stops at the first failure. *)
Inductive inner_effect := no_new_privs | overlay | fresh_proc | landlock | seccomp_filter | exec_command.
#[export] Instance inner_effect_eq_dec : EqDecision inner_effect.
Proof. solve_decision. Defined.

Inductive outcome := done_ok | unsupported | failed.

Definition inner_plan (spec : NativeSandboxSpec) (pidNamespace : bool) : list inner_effect :=
  (if negb (bool_decide (SpecNetworkSeccompMode spec = Seccomp.NetworkSeccompModeNone)) || negb (FullDiskWriteAccess spec)
   then [no_new_privs] else [])
  ++ [overlay] ++ (if pidNamespace then [fresh_proc] else [])
  ++ (if FullDiskWriteAccess spec then [] else [landlock]) ++ [seccomp_filter; exec_command].

(** Landlock may be missing, and a container may refuse a fresh proc; nothing
    else may. *)
Definition tolerated (e : inner_effect) (o : outcome) : bool :=
  match o, e with
  | done_ok, _ => true
  | unsupported, (landlock | fresh_proc) => true
  | _, _ => false
  end.

(** The effects that took place. *)
Fixpoint run_inner (kernel : inner_effect -> outcome) (plan : list inner_effect) : list inner_effect :=
  match plan with
  | [] => []
  | e :: plan => if tolerated e (kernel e) then e :: run_inner kernel plan else []
  end.
Definition runInnerStage (spec : NativeSandboxSpec) (pidNamespace : bool) (kernel : inner_effect -> outcome) : list inner_effect :=
  run_inner kernel (inner_plan spec pidNamespace).

Lemma run_inner_last kernel plan : exec_command ∉ plan -> exec_command ∈ run_inner kernel (plan ++ [exec_command]) ->
  forall e, e ∈ plan -> tolerated e (kernel e) = true.
Proof.
  induction plan as [|x plan IH]; intros Hn Hin e He; [by apply elem_of_nil in He|]. cbn in Hin.
  destruct (tolerated x (kernel x)) eqn:Hx; [|by apply elem_of_nil in Hin].
  apply not_elem_of_cons in Hn as [Hne Hn]. apply elem_of_cons in Hin as [|Hin]; [done|].
  apply elem_of_cons in He as [->|He]; [done|by apply IH].
Qed.

(** The command runs only after every protection is in place. *)
Lemma exec_is_confined spec pidNamespace kernel : exec_command ∈ runInnerStage spec pidNamespace kernel ->
  kernel overlay = done_ok /\ kernel seccomp_filter = done_ok
  /\ (FullDiskWriteAccess spec = false -> kernel no_new_privs = done_ok /\ kernel landlock <> failed).
Proof.
  unfold runInnerStage. set (front := (if negb (bool_decide (SpecNetworkSeccompMode spec = Seccomp.NetworkSeccompModeNone))
    || negb (FullDiskWriteAccess spec) then [no_new_privs] else [])
    ++ [overlay] ++ (if pidNamespace then [fresh_proc] else [])
    ++ (if FullDiskWriteAccess spec then [] else [landlock]) ++ [seccomp_filter]).
  assert (inner_plan spec pidNamespace = front ++ [exec_command]) as ->.
  { unfold inner_plan, front. by rewrite <- !(assoc (++)). }
  intros Hin. assert (exec_command ∉ front) as Hn.
  { unfold front. destruct (_ || _), pidNamespace, (FullDiskWriteAccess spec); refine (bool_decide_eq_true_1 _ _); vm_compute; reflexivity. }
  pose proof (run_inner_last _ _ Hn Hin) as Hall.
  assert (forall e, e ∈ front -> e <> landlock -> e <> fresh_proc -> kernel e = done_ok) as Hok.
  { intros e He Hl Hf. specialize (Hall e He). by destruct (kernel e), e. }
  split_and!.
  - apply Hok; [|done..]. unfold front. rewrite !elem_of_app, list_elem_of_singleton. tauto.
  - apply Hok; [|done..]. unfold front. rewrite !elem_of_app, !list_elem_of_singleton. tauto.
  - intros Hf. unfold front in *. rewrite Hf, orb_true_r in *. split.
    + apply Hok; [|done..]. by constructor.
    + intros Hk. specialize (Hall landlock). rewrite Hk in Hall. discriminate Hall.
      rewrite !elem_of_app, !list_elem_of_singleton. tauto.
Qed.

(** ** What the plan does to one path *)

Lemma run_plan_app ops ops' ns : run_plan (ops ++ ops') ns = run_plan ops ns ≫= run_plan ops'.
Proof. revert ns. induction ops as [|op ops IH]; intros ns; [done|]. cbn. by destruct (mount op ns) as [ns'|]; cbn. Qed.

Lemma run_plan_app_Some ops ops' ns ns' : run_plan (ops ++ ops') ns = Some ns' ->
  exists mid, run_plan ops ns = Some mid /\ run_plan ops' mid = Some ns'.
Proof. rewrite run_plan_app. intros Hr. apply bind_Some in Hr. naive_solver. Qed.

(** The state of one path. *)
Definition same_at (t : list gostring) (ns ns' : mounts) : Prop :=
  mount_point ns' t = mount_point ns t /\ read_only ns' t = read_only ns t /\ exposed ns' t = exposed ns t.

(** Whatever the masks hide, they change nothing else. *)
Lemma run_masks_hide qs ns ns' t : run_plan (map mask_path qs) ns = Some ns' -> exposed ns' t = true -> same_at t ns ns'.
Proof.
  revert ns. induction qs as [|q qs IH]; intros ns Hr He; cbn in Hr; [by simplify_eq|].
  apply bind_Some in Hr as (mid & Hm & Hr). destruct (IH mid Hr He) as (? & ? & Hem).
  rewrite He in Hem. destruct (mask_hides _ _ _ Hm t (eq_sym Hem)) as (? & ? & ?). unfold same_at. split_and!; congruence.
Qed.

Lemma run_masks ds ns ns' t : Forall direct ds -> run_plan (map mask_path (map upath ds)) ns = Some ns' ->
  if decide (Exists (fun d => d `prefix_of` t) ds) then exposed ns' t = false else same_at t ns ns'.
Proof.
  intros Hc. revert ns. induction Hc as [|d ds Hd _ IH]; intros ns Hr; cbn in Hr.
  { simplify_eq. rewrite decide_False by (by intros ?%Exists_nil). done. }
  apply bind_Some in Hr as (mid & Hm & Hr). apply IH in Hr. pose proof (mask_law _ _ _ Hm Hd t) as Hl.
  destruct (decide (d `prefix_of` t)) as [Hp|Hp].
  - rewrite decide_True by (by left). case_decide; [done|]. destruct Hr as (_ & _ & ->). done.
  - case_decide as He; [rewrite decide_True by (by right); done|].
    rewrite decide_False by (by intros [?|?]%Exists_cons). unfold same_at in *.
    destruct Hl as (? & ? & ?), Hr as (? & ? & ?). split_and!; congruence.
Qed.

(** Binding roots from the shallowest to the deepest leaves each path to its deepest root. *)
Definition deepest (roots : list (list gostring)) (t w : list gostring) : Prop :=
  w ∈ roots /\ w `prefix_of` t /\ forall w', w' ∈ roots -> w' `prefix_of` t -> length w' <= length w.

Lemma run_rw roots ns ns' t : Forall direct roots -> StronglySorted (fun a b => length a <= length b) roots ->
  run_plan (map bind_read_write (map upath roots)) ns = Some ns' ->
  exposed ns' t = exposed ns t /\
  ((exists w, deepest roots t w /\ length (mount_point ns t) <= length w /\ mount_point ns' t = w /\ read_only ns' t = false)
   \/ ((forall w, w ∈ roots -> w `prefix_of` t -> length w < length (mount_point ns t)) /\ same_at t ns ns')).
Proof.
  intros Hc Hs Hr. revert ns' Hc Hs Hr. induction roots as [|r roots IH] using rev_ind; intros ns' Hc Hs Hr.
  { simplify_eq/=. split; [done|right]. split; [by intros w ?%elem_of_nil|done]. }
  rewrite !map_app in Hr. apply run_plan_app_Some in Hr as (mid & Hm & Hr). cbn in Hr.
  apply bind_Some in Hr as (ns1 & Hb & [= ->]). apply Forall_app in Hc as [Hc Hcr]. apply Forall_inv in Hcr.
  apply StronglySorted_app in Hs as (Hle & Hs & _). destruct (IH mid Hc Hs Hm) as [He Hcase].
  destruct (bind_rw_law _ _ _ Hb Hcr t) as (Hp1 & Hr1 & He1). split; [congruence|].
  assert (forall w', w' ∈ roots -> length w' <= length r) as Hler by (intros w' Hw'; apply Hle; [done|by constructor]).
  assert (takes_over r (mount_point mid t) t = true ->
    length (mount_point ns t) <= length r /\ deepest (roots ++ [r]) t r) as Htake.
  { unfold takes_over. rewrite andb_true_iff, bool_decide_eq_true. intros [Hrt Hl%Nat.leb_le]. split.
    - destruct Hcase as [(w & (Hw & _) & Hlw & _)|[_ (E & _)]]; [specialize (Hler w Hw); lia|by rewrite <- E].
    - split_and!; [apply elem_of_app; right; by constructor|done|].
      intros w' [Hw'| ->%list_elem_of_singleton]%elem_of_app _; [by apply Hler|done]. }
  destruct (takes_over r (mount_point mid t) t) eqn:Ht.
  - left. exists r. destruct (Htake eq_refl). by split_and!.
  - unfold takes_over in Ht. apply andb_false_iff in Ht. rewrite bool_decide_eq_false, Nat.leb_gt in Ht.
    destruct Hcase as [(w & (Hw & Hwt & Hmax) & Hlw & Hpw & Hrw)|[Hn (Hpm & Hrm & Hem)]].
    + left. exists w. split_and!; [|done|congruence..]. split_and!; [apply elem_of_app; by left|done|].
      intros w' [Hw'| ->%list_elem_of_singleton]%elem_of_app Hpw'; [by apply Hmax|].
      destruct Ht as [?|Ht]; [done|]. specialize (Hler w Hw). rewrite Hpw in Ht. lia.
    + right. split; [|unfold same_at; split_and!; congruence].
      intros w [Hw| ->%list_elem_of_singleton]%elem_of_app Hwt; [by apply Hn|].
      destruct Ht as [?|Ht]; [done|by rewrite Hpm in Ht].
Qed.

(** Read-only binds close a path whose mount is not deeper. *)
Lemma run_ro subs ns ns' t : Forall direct subs -> run_plan (map bind_read_only (map upath subs)) ns = Some ns' ->
  exposed ns' t = exposed ns t /\
  (read_only ns' t = false <->
    read_only ns t = false /\ forall s, s ∈ subs -> s `prefix_of` t -> length s < length (mount_point ns t)).
Proof.
  intros Hc. revert ns. induction Hc as [|r subs Hcr Hc IH]; intros ns Hr.
  { simplify_eq/=. split; [done|]. split; [|by intros []]. intros ?. split; [done|]. by intros s ?%elem_of_nil. }
  cbn in Hr. apply bind_Some in Hr as (mid & Hb & Hr). destruct (IH mid Hr) as [He Hro].
  destruct (bind_ro_law _ _ _ Hb Hcr t) as (Hp1 & Hr1 & He1). split; [congruence|]. rewrite Hro.
  unfold takes_over in *. destruct (decide (r `prefix_of` t)) as [Hrt|Hrt].
  - rewrite bool_decide_eq_true_2 in Hp1, Hr1 by done. cbn [andb] in Hp1, Hr1.
    destruct (length (mount_point ns t) <=? length r) eqn:Hl.
    + apply Nat.leb_le in Hl. rewrite Hr1. split; [by intros []|]. intros [_ Hall].
      assert (length r < length (mount_point ns t)); [|lia]. apply Hall; [by constructor|done].
    + apply Nat.leb_gt in Hl. rewrite Hp1, Hr1. split; intros [? Hall]; (split; [done|]).
      * intros s [->|Hs]%elem_of_cons ?; [done|by apply Hall].
      * intros s Hs ?. apply Hall; [by right|done].
  - rewrite bool_decide_eq_false_2 in Hp1, Hr1 by done. cbn [andb] in Hp1, Hr1. rewrite Hp1, Hr1.
    split; intros [? Hall]; (split; [done|]).
    + intros s [->|Hs]%elem_of_cons ?; [done|by apply Hall].
    + intros s Hs ?. apply Hall; [by right|done].
Qed.

(** ** The whole overlay *)

Lemma elem_of_existing_from seen paths p :
  p ∈ existing_from seen paths <-> p ∈ paths /\ p <> [] /\ p ∉ seen /\ lstat p = true.
Proof.
  revert seen. induction paths as [|q paths IH]; intros seen; cbn [existing_from].
  { split; [by intros ?%elem_of_nil|by intros [?%elem_of_nil _]]. }
  case_decide as Hq; [|destruct (lstat q) eqn:Hl]; rewrite ?elem_of_cons, IH, ?not_elem_of_cons, ?elem_of_cons.
  - split; [intros (? & ? & ? & ?); auto|]. intros ([->|?] & ? & ? & ?); [by destruct Hq|done].
  - assert (q <> [] /\ q ∉ seen) as [Hne Hns] by tauto. split; [intros [->|(? & ? & [? ?] & ?)]; auto|].
    intros ([->|?] & ? & ? & ?); [by left|]. destruct (decide (p = q)) as [->|]; [by left|right; auto].
  - split; [intros (? & ? & ? & ?); auto|]. intros ([->|?] & ? & ? & ?); [congruence|done].
Qed.

Lemma elem_of_existing paths p : p ∈ existingPaths paths <-> p ∈ paths /\ p <> [] /\ lstat p = true.
Proof.
  unfold existingPaths. rewrite elem_of_existing_from.
  split; [by intros (? & ? & _ & ?)|]. intros (? & ? & ?). split_and!; [done..|apply not_elem_of_nil|done].
Qed.

Lemma insert_by_depth_perm p l : insert_by_depth p l ≡ₚ p :: l.
Proof.
  induction l as [|q l IH]; cbn; [done|]. destruct (_ <=? _); [done|]. rewrite IH. apply perm_swap.
Qed.

Lemma sortByDepth_perm l : sortByDepth l ≡ₚ l.
Proof. induction l as [|p l IH]; cbn; [done|]. by rewrite insert_by_depth_perm, IH. Qed.

Definition depth_le (a b : gostring) : Prop := componentCount a <= componentCount b.

Lemma insert_by_depth_sorted p l : StronglySorted depth_le l -> StronglySorted depth_le (insert_by_depth p l).
Proof.
  induction 1 as [|q l Hl IH Hq]; cbn; [by repeat constructor|].
  destruct (componentCount p <=? componentCount q) eqn:Hc.
  - apply Nat.leb_le in Hc. constructor; [by constructor|]. constructor; [done|].
    eapply Forall_impl; [exact Hq|]. unfold depth_le. intros. lia.
  - apply Nat.leb_gt in Hc. constructor; [done|]. rewrite insert_by_depth_perm. constructor; [unfold depth_le; lia|done].
Qed.

Lemma sortByDepth_sorted l : StronglySorted depth_le (sortByDepth l).
Proof. induction l as [|p l IH]; cbn; [constructor|]. by apply insert_by_depth_sorted. Qed.

Lemma direct_paths_segs ps : Forall direct_path ps -> exists segs, Forall direct segs /\ ps = map upath segs.
Proof.
  induction 1 as [|p ps (s & Hs & ->) _ (segs & Hc & ->)]; [by exists []|].
  exists (s :: segs). split; [by constructor|done].
Qed.

Lemma elem_of_map_upath (segs : list (list gostring)) q : q ∈ map upath segs <-> exists s, s ∈ segs /\ upath s = q.
Proof. rewrite list_elem_of_In, in_map_iff. setoid_rewrite list_elem_of_In. naive_solver. Qed.

Lemma elem_upath_segs segs s : Forall clean segs -> clean s -> upath s ∈ map upath segs <-> s ∈ segs.
Proof.
  intros Hc Hs. rewrite elem_of_map_upath. split; [|by eauto]. intros (s' & Hin & E).
  rewrite Forall_forall in Hc. apply upath_inj in E; [by subst|by apply clean_wf, Hc|by apply clean_wf].
Qed.

Lemma sorted_segs segs : Forall clean segs -> StronglySorted depth_le (map upath segs) ->
  StronglySorted (fun a b => length a <= length b) segs.
Proof.
  intros Hc. induction Hc as [|s segs Hs Hc IH]; intros H; cbn in H; [constructor|].
  apply StronglySorted_inv in H as [H1 H2]. constructor; [by apply IH|].
  rewrite Forall_map in H2. rewrite Forall_forall in Hc, H2 |- *. intros x Hx. pose proof (H2 x Hx) as Hd.
  change (depth_le (upath s) (upath x)) in Hd.
  unfold depth_le in Hd. rewrite !componentCount_upath in Hd by (apply clean_wf; auto). lia.
Qed.

Lemma Forall_existing P ps : Forall P ps -> Forall P (existingPaths ps).
Proof. rewrite !Forall_forall. intros H p [Hp _]%elem_of_existing. by apply H. Qed.

Lemma direct_clean segs : Forall direct segs -> Forall clean segs.
Proof. intros Hd. eapply Forall_impl; [exact Hd|]. by intros s []. Qed.

(** The paths that the helper binds and masks are clean and free of symbolic links. *)
Record clean_setup (s : nsSetup) : Prop := {
  clean_writable : Forall direct_path (writableRoots s);
  clean_protected : Forall direct_path (protectedSubpaths s ++ readOnlySubpaths s);
  clean_unreadable : Forall direct_path (unreadableRoots s);
}.

(** A path that the mounts leave writable: it lies under an existing writable
    root, no existing read-only path lies between the two, and no mask covers it. *)
Definition overlay_allows (s : nsSetup) (t : list gostring) : Prop :=
  (forall d, clean d -> upath d ∈ unreadableRoots s -> lstat (upath d) = true -> ~ d `prefix_of` t)
  /\ exists w, clean w /\ upath w ∈ writableRoots s /\ lstat (upath w) = true /\ w `prefix_of` t
     /\ forall q, clean q -> upath q ∈ protectedSubpaths s ++ readOnlySubpaths s -> lstat (upath q) = true ->
          w `prefix_of` q -> ~ q `prefix_of` t.

(** The masks of the top level are exact when no top-level name is a symbolic
    link, and spare what lies under a writable root. *)
Definition plain_top_level (s : nsSetup) (entries : option (list gostring)) : Prop :=
  fullDiskReadAccess s = true \/ Forall (fun n => wf_clean_seg n /\ unlinked [n]) (default [] entries).

Lemma top_masks_spare s names : clean_setup s -> Forall (fun n => wf_clean_seg n /\ unlinked [n]) names ->
  str "/" ∉ readableRoots s ++ writableRoots s ->
  exists tops, filter (fun top => negb (topLevelIsAllowed top (readableRoots s ++ writableRoots s))) (map (cons slash) names)
      = map upath tops /\ Forall direct tops
    /\ forall t w, clean w -> upath w ∈ writableRoots s -> w `prefix_of` t -> ~ Exists (fun d => d `prefix_of` t) tops.
Proof.
  intros Hs Hnames Hroot.
  set (keep := fun top => negb (topLevelIsAllowed top (readableRoots s ++ writableRoots s))).
  assert (forall d, d ∈ filter (fun d => keep (upath d)) (map (fun n => [n]) names) ->
    exists n, d = [n] /\ (wf_clean_seg n /\ unlinked [n]) /\ keep (upath d)) as Hin.
  { intros d [Hk Hd]%list_elem_of_filter. rewrite list_elem_of_In, in_map_iff in Hd. destruct Hd as (n & <- & Hn).
    rewrite <- list_elem_of_In in Hn. rewrite Forall_forall in Hnames. exists n. auto. }
  exists (filter (fun d => keep (upath d)) (map (fun n => [n]) names)). split_and!.
  - clear Hin. induction names as [|n names IH]; [done|]. apply Forall_cons in Hnames as [_ Hnames]. specialize (IH Hnames).
    cbn [map]. rewrite !filter_cons. fold (keep (slash :: n)). change (upath [n]) with (slash :: n).
    rewrite IH. by destruct (decide (keep (slash :: n))).
  - apply Forall_forall. intros d (n & -> & [Hn Hl] & _)%Hin. split; [constructor; [done|constructor]|done].
  - intros t w Hw Hwin Hwt (d & (n & -> & [Hn _] & Hk)%Hin & Hdt)%Exists_exists. unfold keep in Hk.
    apply Is_true_true, negb_true_iff, not_true_iff_false in Hk. apply Hk. apply existsb_exists. exists (upath w).
    rewrite <- list_elem_of_In. split; [apply elem_of_app; by right|].
    rewrite bool_decide_eq_true_2 by apply upath_nonempty. cbn [andb]. apply orb_true_iff. left.
    rewrite pathStartsWith_upath by (apply clean_wf; try done; repeat constructor; apply Hn).
    apply bool_decide_eq_true_2. destruct w as [|x w].
    { destruct Hroot. apply elem_of_app. right. exact Hwin. }
    destruct Hwt as [k ->]. destruct Hdt as [k' E]. injection E as -> _. by exists w.
Qed.

(** The root's remount or the bind of a writable root reaches the path: its
    mount before the helper is the root's, or not deeper than an existing writable
    root that holds it. *)
Definition reached (s : nsSetup) (ns : mounts) (t : list gostring) : Prop :=
  mount_point ns t = [] \/
  exists w, clean w /\ upath w ∈ writableRoots s /\ lstat (upath w) = true /\ w `prefix_of` t
    /\ length (mount_point ns t) <= length w.

Lemma run_prefix s ns ns' ops t : fullDiskWriteAccess s = false ->
  run_plan ([make_private] ++ (if fullDiskWriteAccess s then [] else [remount_root_read_only]) ++ ops) ns = Some ns' ->
  exists mid, run_plan ops mid = Some ns' /\ mount_point mid t = mount_point ns t /\ exposed mid t = exposed ns t
    /\ read_only mid t = (if decide (mount_point ns t = []) then true else read_only ns t).
Proof.
  intros -> Hr. cbn [app run_plan] in Hr. apply bind_Some in Hr as (n1 & H1 & Hr).
  apply bind_Some in Hr as (n2 & H2 & Hr). exists n2. destruct (private_law _ _ H1 t) as (Hp & Hro & He).
  destruct (root_law _ _ H2 t) as (Hp2 & Hro2 & He2). rewrite Hp, Hro in Hro2. split_and!; congruence.
Qed.

(** The state of [t] after the binds of the roots and of the read-only paths. *)
Lemma run_binds roots subs ns ns' t : Forall direct roots -> Forall direct subs ->
  StronglySorted (fun a b => length a <= length b) roots ->
  run_plan (map bind_read_write (map upath roots) ++ map bind_read_only (map upath subs)) ns = Some ns' ->
  let below := exists w, w ∈ roots /\ w `prefix_of` t /\ length (mount_point ns t) <= length w in
  let free := exists w, w ∈ roots /\ w `prefix_of` t /\ forall s, s ∈ subs -> w `prefix_of` s -> ~ s `prefix_of` t in
  exposed ns' t = exposed ns t
  /\ (below \/ read_only ns t = true -> read_only ns' t = false -> free)
  /\ (below -> free -> read_only ns' t = false).
Proof.
  intros Hr Hs Hsort Hrun below free. apply run_plan_app_Some in Hrun as (mid & H1 & H2).
  destruct (run_rw _ _ _ t Hr Hsort H1) as [He1 Hcase]. destruct (run_ro _ _ _ t Hs H2) as [He2 Hiff].
  split; [congruence|]. rewrite Hiff. destruct Hcase as [(w & (Hw & Hwt & Hmax) & _ & Hpw & Hrw)|[Hn (_ & Hr1 & _)]].
  - rewrite Hpw, Hrw. split.
    + intros _ [_ Hall]. exists w. split_and!; [done..|]. intros s Hss Hws Hst. specialize (Hall s Hss Hst).
      apply prefix_length in Hws. lia.
    + intros _ (w' & Hw' & Hwt' & Hall). split; [done|]. intros s Hss Hst. apply Nat.lt_nge. intros Hlen.
      apply (Hall s Hss); [|done]. pose proof (Hmax w' Hw' Hwt').
      destruct (prefix_weak_total w' s t) as [|Hsw]; [done..|]. apply prefix_length in Hsw as Hl.
      assert (length s = length w') by lia. destruct Hsw as [k ->]. rewrite length_app in *.
      destruct k; [by rewrite app_nil_r|simpl in *; lia].
  - assert (~ below) as Hnb by (intros (w & Hw & Hwt & Hl); specialize (Hn w Hw Hwt); lia).
    rewrite Hr1. split; [|done]. intros [?|Hro] [? _]; [done|congruence].
Qed.

Lemma overlay_plan_shape s entries ops : clean_setup s -> overlay_plan s entries = Some ops ->
  exists masks roots subs denied, ops = [make_private] ++ (if fullDiskWriteAccess s then [] else [remount_root_read_only])
    ++ map mask_path masks ++ (map bind_read_write (map upath roots) ++ map bind_read_only (map upath subs))
    ++ map mask_path (map upath denied)
  /\ Forall direct roots /\ Forall direct subs /\ Forall direct denied
  /\ (plain_top_level s entries -> exists tops, masks = map upath tops /\ Forall direct tops /\ forall t w, clean w ->
        upath w ∈ writableRoots s -> w `prefix_of` t -> ~ Exists (fun d => d `prefix_of` t) tops)
  /\ map upath roots = sortByDepth (existingPaths (writableRoots s))
  /\ map upath subs = existingPaths (protectedSubpaths s ++ readOnlySubpaths s)
  /\ map upath denied = existingPaths (unreadableRoots s).
Proof.
  intros Hs Hp. unfold overlay_plan in Hp. apply bind_Some in Hp as (masks & Hm & [= <-]).
  assert (exists qs, masks = map mask_path qs /\ (plain_top_level s entries ->
    exists tops, qs = map upath tops /\ Forall direct tops /\ forall t w, clean w ->
    upath w ∈ writableRoots s -> w `prefix_of` t -> ~ Exists (fun d => d `prefix_of` t) tops)) as (qs & -> & Htop).
  { assert (masks = [] -> exists qs, masks = map mask_path qs /\ (plain_top_level s entries ->
      exists tops, qs = map upath tops /\ Forall direct tops /\ forall t w, clean w ->
      upath w ∈ writableRoots s -> w `prefix_of` t -> ~ Exists (fun d => d `prefix_of` t) tops)) as Hnone.
    { intros ->. exists []. split; [done|]. intros _. exists []. split_and!; [done|constructor|by intros t w _ _ _ ?%Exists_nil]. }
    unfold plain_top_level in *. destruct (fullDiskReadAccess s) eqn:Ef; [by simplify_eq; apply Hnone|].
    unfold maskNonReadableTopLevel in Hm. case_decide as Hroot.
    { simplify_eq. by apply Hnone. }
    apply bind_Some in Hm as (names & -> & [= <-]). eexists. split; [reflexivity|].
    intros [|Hn]; [done|]. by apply top_masks_spare. }
  destruct (direct_paths_segs (sortByDepth (existingPaths (writableRoots s)))) as (roots & Hr & Er).
  { rewrite sortByDepth_perm. apply Forall_existing, Hs. }
  destruct (direct_paths_segs (existingPaths (protectedSubpaths s ++ readOnlySubpaths s))) as (subs & Hsub & Es).
  { apply Forall_existing, Hs. }
  destruct (direct_paths_segs (existingPaths (unreadableRoots s))) as (denied & Hd & Ed).
  { apply Forall_existing, Hs. }
  exists qs, roots, subs, denied. rewrite Er, Es, Ed, <- !(assoc (++)). by split_and!.
Qed.

Lemma elem_existing_segs segs ps w : Forall direct segs -> map upath segs ≡ₚ existingPaths ps -> clean w ->
  w ∈ segs <-> upath w ∈ ps /\ lstat (upath w) = true.
Proof.
  intros Hc%direct_clean E Hw. rewrite <- (elem_upath_segs segs), E, elem_of_existing by done.
  pose proof (upath_nonempty w). split; [by intros (? & _ & ?)|by intros []].
Qed.

(** The roots and the read-only paths that the binds are about. *)
Lemma binds_match s roots subs t : Forall direct roots -> Forall direct subs ->
  map upath roots ≡ₚ existingPaths (writableRoots s) ->
  map upath subs ≡ₚ existingPaths (protectedSubpaths s ++ readOnlySubpaths s) ->
  (exists w, w ∈ roots /\ w `prefix_of` t /\ forall q, q ∈ subs -> w `prefix_of` q -> ~ q `prefix_of` t) <->
  (exists w, clean w /\ upath w ∈ writableRoots s /\ lstat (upath w) = true /\ w `prefix_of` t
     /\ forall q, clean q -> upath q ∈ protectedSubpaths s ++ readOnlySubpaths s -> lstat (upath q) = true ->
          w `prefix_of` q -> ~ q `prefix_of` t).
Proof.
  intros Hr Hs Pr Ps. pose proof (fun w => elem_existing_segs _ _ w Hr Pr) as Er. pose proof (fun w => elem_existing_segs _ _ w Hs Ps) as Es.
  apply direct_clean in Hr, Hs. rewrite Forall_forall in Hr, Hs. split.
  - intros (w & Hw & Hwt & Hall). pose proof Hw as [? ?]%Er; [|by apply Hr]. exists w. split_and!; auto.
    intros q Hq Hin Hl. apply Hall. by apply Es.
  - intros (w & Hw & Hin & Hl & Hwt & Hall). exists w. split_and!; [by apply Er|done|].
    intros q Hq. pose proof Hq as [? ?]%Es; [|by apply Hs]. apply Hall; auto.
Qed.

(** The overlay leaves writable only what [overlay_allows] describes, for a path
    that it reaches or that was read-only before; and all of it, for a path that
    it reaches, when the top-level names are no symbolic links. *)
Lemma overlay_writes s entries ns ns' t : clean_setup s -> fullDiskWriteAccess s = false ->
  applyMountOverlay s entries ns = Some ns' ->
  (reached s ns t \/ read_only ns t = true -> writes ns' t = true -> exposed ns t = true /\ overlay_allows s t)
  /\ (plain_top_level s entries -> reached s ns t -> exposed ns t = true -> overlay_allows s t -> writes ns' t = true).
Proof.
  intros Hs Hf Ha. unfold applyMountOverlay in Ha. apply bind_Some in Ha as (ops & Hp & Hr).
  destruct (overlay_plan_shape _ _ _ Hs Hp) as (qs & roots & subs & denied & -> & Hrc & Hsc & Hdc & Htop & Er & Es & Ed).
  apply run_prefix with (t := t) in Hr as (n0 & Hr & Hp0 & He0 & Hro0); [|done].
  apply run_plan_app_Some in Hr as (n1 & H1 & Hr). apply run_plan_app_Some in Hr as (n2 & H2 & H3).
  assert (StronglySorted (fun a b => length a <= length b) roots) as Hsort.
  { apply sorted_segs; [by apply direct_clean|]. rewrite Er. apply sortByDepth_sorted. }
  assert (map upath roots ≡ₚ existingPaths (writableRoots s)) as Pr by (rewrite Er; apply sortByDepth_perm).
  assert (map upath subs ≡ₚ existingPaths (protectedSubpaths s ++ readOnlySubpaths s)) as Ps by (by rewrite Es).
  assert (map upath denied ≡ₚ existingPaths (unreadableRoots s)) as Pd by (by rewrite Ed).
  pose proof (fun w => elem_existing_segs _ _ w Hrc Pr) as Qr. pose proof (fun w => elem_existing_segs _ _ w Hdc Pd) as Qd.
  pose proof (run_masks _ _ _ t Hdc H3) as M3. destruct (run_binds _ _ _ _ t Hrc Hsc Hsort H2) as (He2 & Hsnd & Hcmp).
  unfold overlay_allows. pose proof (binds_match s roots subs t Hrc Hsc Pr Ps) as Hmatch.
  apply direct_clean in Hdc. rewrite Forall_forall in Hdc. unfold writes. rewrite !andb_true_iff, !negb_true_iff.
  assert (same_at t n0 n1 -> reached s ns t -> (exists w, w ∈ roots /\ w `prefix_of` t) ->
    exists w, w ∈ roots /\ w `prefix_of` t /\ length (mount_point n1 t) <= length w) as Hreach.
  { intros (Hp1 & _) [Hnil|(w & Hw & Hin & Hl & Hwt & Hlen)] (w' & Hw' & Hwt').
    - exists w'. split_and!; [done..|]. rewrite Hp1, Hp0, Hnil. simpl. lia.
    - exists w. split_and!; [by apply Qr|done|]. by rewrite Hp1, Hp0. }
  split.
  - intros Hcase [Hex Hro]. destruct (decide (Exists (fun d => d `prefix_of` t) denied)) as [Hd|Hd]; [congruence|].
    destruct M3 as (_ & Hro3 & He3). rewrite He2 in He3. rewrite <- He3, Hex in *.
    destruct (run_masks_hide _ _ _ t H1) as (Hp1 & Hro1 & He1); [congruence|]. split; [congruence|]. split.
    + intros d Hcd Hin Hl Hdt. apply Hd, Exists_exists. exists d. split; [by apply Qd|done].
    + apply Hmatch, Hsnd; [|congruence]. destruct Hcase as [[Hnil|(w & Hw & Hin & Hl & Hwt & Hlen)]|Hro'].
      * right. by rewrite Hro1, Hro0, decide_True.
      * left. exists w. split_and!; [by apply Qr|done|]. by rewrite Hp1, Hp0.
      * right. rewrite Hro1, Hro0. by case_decide.
  - intros Hplain Hrt Hex [Hno Hfree]. destruct (Htop Hplain) as (tops & -> & Htc & Hspare).
    pose proof (run_masks _ _ _ t Htc H1) as M1. rewrite decide_False in M1.
    2: { destruct Hfree as (w & Hw & Hin & _ & Hwt & _). by apply (Hspare t w). }
    rewrite decide_False in M3.
    2: { intros (d & Hd & Hdt)%Exists_exists. pose proof Hd as [? ?]%Qd; [|by apply Hdc]. by apply (Hno d); [apply Hdc|..]. }
    destruct M3 as (_ & -> & ->). pose proof M1 as (_ & _ & He1). split; [congruence|].
    apply Hmatch in Hfree. apply Hcmp; [|done]. apply Hreach; [done..|].
    destruct Hfree as (w & ? & ? & _). by exists w.
Qed.

End Linux.
End SandboxLinux.
