(* ===== verification/SandboxRefine.v ===== *)
(** * internal/sandbox: the mounts enforce the policy

    The composition of [SandboxPolicy] and [SandboxLinux]: for a policy whose
    entries are clean paths without symbolic links on their way, the mounts that
    the helper makes let a command write exactly where [canWritePathWithCwd] allows
    it, on the mounts that the helper reaches. *)

From stdpp Require Import base list.
From S2P Require Import Prelude GoStrings AbsPath GoPath SandboxPath Permissions SandboxPolicy SandboxProfile Seccomp SandboxLinux.

Module SandboxRefine.
Import AbsPath GoPath SandboxPath Permissions SandboxPolicy SandboxProfile SandboxLinux.

Section Refine.
Context `{World : SandboxWorld}.
Variables (p : FileSystemSandboxPolicy) (cwd : gostring).

(** The policies that the refinement is about: restricted ones, whose entries are
    clean paths. No symbolic link lies on the way to an entry or to a metadata
    directory right below it; the rest of the tree may have any. *)
Record plain : Prop := {
  plain_restricted : is_restricted p = true;
  plain_cwd : isAbsolute false cwd = true;
  plain_paths : forall e, e ∈ resolvedEntriesWithCwd p cwd -> exists s, direct s /\ rpath e = upath s
    /\ forall x, x ∈ protectedMetadataPathNames -> unlinked (s ++ [x]);
}.
Hypothesis Hplain : plain.

Lemma plain_entries e : e ∈ resolvedEntriesWithCwd p cwd -> exists s, clean s /\ rpath e = upath s.
Proof. intros He. destruct (plain_paths Hplain e He) as (s & [Hs _] & E & _). by exists s. Qed.

Lemma plain_not_open : is_open p = false.
Proof.
  pose proof (plain_restricted Hplain) as Hr. apply bool_decide_eq_true in Hr. unfold is_open. by rewrite Hr.
Qed.

(** An entry of the policy at a list of segments. *)
Definition entry_at (s : list gostring) (a : FileSystemAccessMode) : Prop :=
  clean s /\ mkResolvedEntry (upath s) a ∈ resolvedEntriesWithCwd p cwd.

Lemma entry_at_of e : e ∈ resolvedEntriesWithCwd p cwd -> exists s, rpath e = upath s /\ entry_at s (raccess e).
Proof.
  intros Hin. destruct (plain_entries e Hin) as (s & Hs & E). exists s. split; [done|].
  split; [done|]. rewrite <- E. by destruct e.
Qed.

(** What the entries' paths are like. *)
Lemma entry_unlinked s a : entry_at s a -> unlinked s.
Proof.
  intros [Hs Hin]. destruct (plain_paths Hplain _ Hin) as (s' & [Hc Hl] & E & _). cbn [rpath] in E.
  by apply upath_inj in E as ->; [|apply clean_wf..].
Qed.

Lemma entry_metadata_unlinked s a x : entry_at s a -> x ∈ protectedMetadataPathNames -> unlinked (s ++ [x]).
Proof.
  intros [Hs Hin]. destruct (plain_paths Hplain _ Hin) as (s' & [Hc _] & E & Hx). cbn [rpath] in E.
  apply upath_inj in E as ->; [apply Hx|apply clean_wf..]; done.
Qed.

Lemma covers_upath s a t : entry_at s a -> clean t -> covers (upath t) (mkResolvedEntry (upath s) a) <-> s `prefix_of` t.
Proof.
  intros [Hs _] Ht. unfold covers. cbn [rpath]. rewrite pathStartsWith_upath by (by apply clean_wf).
  apply bool_decide_eq_true.
Qed.

(** The entry at [s] is the most specific one for [t]. *)
Definition best_at (t s : list gostring) (a : FileSystemAccessMode) : Prop :=
  entry_at s a /\ s `prefix_of` t
  /\ forall s' a', entry_at s' a' -> s' `prefix_of` t ->
       length s' < length s \/ (s' = s /\ accessRank a' <= accessRank a).

Lemma prefix_same_length (a b t : list gostring) : a `prefix_of` t -> b `prefix_of` t -> length a = length b -> a = b.
Proof.
  intros [k ->] [k' E] Hl. apply app_inj_1 in E as [-> _]; done.
Qed.

Lemma decides_upath t s a : clean t -> entry_at s a ->
  decides (resolvedEntriesWithCwd p cwd) (upath t) (mkResolvedEntry (upath s) a) <-> best_at t s a.
Proof.
  intros Ht Hs. unfold decides, best_at. rewrite covers_upath by done. split.
  - intros (_ & Hst & Hmax). split_and!; [done..|]. intros s' a' Hs' Hst'.
    assert (below (mkResolvedEntry (upath s') a') (mkResolvedEntry (upath s) a)) as Hb.
    { apply Hmax; [by apply Hs'|by apply covers_upath]. }
    unfold below in Hb. cbn [rpath raccess] in Hb. rewrite !componentCount_upath in Hb by (apply clean_wf; apply Hs || apply Hs').
    destruct Hb as [Hb|[Hb Hr]]; [left; lia|right]. split; [|done]. apply (prefix_same_length _ _ t); [done..|lia].
  - intros (_ & Hst & Hmax). split_and!; [apply Hs|done|]. intros e Hin Hc.
    destruct (entry_at_of e Hin) as (s' & E & He). unfold covers in Hc. rewrite E in Hc.
    rewrite pathStartsWith_upath, bool_decide_eq_true in Hc by (apply clean_wf; [apply Ht || apply He]).
    unfold below. cbn [rpath raccess]. rewrite E, !componentCount_upath by (apply clean_wf; apply Hs || apply He).
    destruct (Hmax s' _ He Hc) as [?|[-> ?]]; [left; lia|by right].
Qed.

Lemma resolve_write t : clean t ->
  resolveAccessWithCwd p (upath t) cwd = FileSystemAccessModeWrite <-> exists s, best_at t s FileSystemAccessModeWrite.
Proof.
  intros Ht. rewrite (resolve_write_iff p _ cwd (upath t) plain_not_open) by (by apply resolveCandidatePath_upath). split.
  - intros (e & He & Ha). pose proof He as (Hin & _). destruct (entry_at_of e Hin) as (s & E & Hs).
    exists s. apply decides_upath; [done|by rewrite <- Ha|]. rewrite <- Ha, <- E. by destruct e.
  - intros (s & Hs). eexists. split; [apply decides_upath; [done| |exact Hs]; apply Hs|done].
Qed.

(** Every covered path has a most specific entry. *)
Lemma best_exists t s a : clean t -> entry_at s a -> s `prefix_of` t -> exists s' a', best_at t s' a'.
Proof.
  intros Ht Hs Hst. pose proof (best_decides (upath t) (resolvedEntriesWithCwd p cwd)) as Hb.
  destruct (fold_left _ _ _) as [e|].
  - pose proof Hb as (Hin & _). destruct (entry_at_of e Hin) as (s' & E & Hs'). exists s', (raccess e).
    apply decides_upath; [done..|]. rewrite <- E. by destruct e.
  - destruct (Hb (mkResolvedEntry (upath s) a)); [apply Hs|by apply covers_upath].
Qed.

(** An entry that is best for a path is best for itself. *)
Lemma best_self t s a : best_at t s a -> best_at s s a.
Proof.
  intros (Hs & Hst & Hmax). split_and!; [done..|]. intros s' a' Hs' Hp. apply Hmax; [done|]. by etrans.
Qed.

Lemma best_rank t s a s' a' : best_at t s a -> best_at t s' a' -> s = s' /\ accessRank a = accessRank a'.
Proof.
  intros (Hs & Hst & Hmax) (Hs' & Hst' & Hmax').
  destruct (Hmax _ _ Hs' Hst') as [?|[-> ?]], (Hmax' _ _ Hs Hst) as [?|[? ?]]; subst; lia || (split; [done|lia]).
Qed.

(** ** Protected metadata on segments *)

Lemma protected_clean name : name ∈ protectedMetadataPathNames -> wf_clean_seg name.
Proof.
  assert (Forall (fun s => (s <> [] /\ slash ∉ s) /\ s <> dot /\ s <> dotdot) protectedMetadataPathNames) as Hall
    by (refine (bool_decide_eq_true_1 _ _); vm_compute; reflexivity).
  rewrite Forall_forall in Hall. apply Hall.
Qed.

Lemma firstComponent_join k : wf k -> firstComponent (join [slash] k) = match k with [] => [] | x :: _ => x end.
Proof.
  intros Hk. pose proof (join_head k Hk) as Hh. unfold firstComponent.
  assert (trim_prefix (join [slash] k) [slash] = join [slash] k) as ->.
  { unfold trim_prefix. destruct (join [slash] k) as [|c r]; [done|]. cbn. by rewrite decide_False. }
  destruct k as [|x k]; [done|]. apply Forall_cons in Hk as [[_ Hx] _].
  assert (forall s, slash ∉ s -> take_while (fun c => negb (bool_decide (c = slash))) s = s
    /\ forall r, take_while (fun c => negb (bool_decide (c = slash))) (s ++ slash :: r) = s) as Htw.
  { induction s as [|c s IH]; intros Hs; cbn; [done|]. apply not_elem_of_cons in Hs as [Hc Hs].
    rewrite bool_decide_eq_false_2 by done. cbn. destruct (IH Hs) as [-> Hr]. split; [done|]. intros r. by rewrite Hr. }
  destruct k as [|y k]; [by apply Htw|].
  change (join [slash] (x :: y :: k)) with (x ++ slash :: join [slash] (y :: k)). by apply Htw.
Qed.

(** The protected name right below [s] on the way to [t], for an entry at [s]. *)
Definition seg_meta (a : FileSystemAccessMode) (s t : list gostring) : option gostring :=
  if CanWrite a && bool_decide (s `prefix_of` t)
  then match drop (length s) t with x :: _ => if decide (x ∈ protectedMetadataPathNames) then Some x else None | [] => None end
  else None.

Lemma seg_meta_Some a s t x : seg_meta a s t = Some x ->
  a = FileSystemAccessModeWrite /\ x ∈ protectedMetadataPathNames /\ (s ++ [x]) `prefix_of` t.
Proof.
  unfold seg_meta. destruct (CanWrite a) eqn:Ha; cbn [andb]; [|done]. apply CanWrite_true in Ha as ->.
  case_bool_decide as Hp; [|done]. destruct Hp as [k ->]. rewrite drop_app_length. destruct k as [|y k]; [done|].
  case_decide; [|done]. intros [= ->]. split_and!; [done..|]. exists k. by rewrite <- (assoc (++)).
Qed.

Lemma seg_meta_intro s t x : x ∈ protectedMetadataPathNames -> (s ++ [x]) `prefix_of` t ->
  seg_meta FileSystemAccessModeWrite s t = Some x.
Proof.
  intros Hx [k ->]. unfold seg_meta. replace ((s ++ [x]) ++ k) with (s ++ x :: k) by (by rewrite <- app_assoc).
  rewrite bool_decide_eq_true_2 by (by apply prefix_app_r). cbn [andb]. rewrite drop_app_length. by rewrite decide_True.
Qed.

Lemma metadata_step s a t : clean s -> clean t ->
  (if CanWrite a then rel ← stripPrefixPath (upath t) (upath s); name ← metadataPathName (firstComponent rel);
     Some (Join2 (upath s) name, name) else None)
  = (fun x => (upath (s ++ [x]), x)) <$> seg_meta a s t.
Proof.
  intros Hs Ht. unfold seg_meta. destruct (CanWrite a); [cbn [andb]|done].
  case_bool_decide as Hp; [|by rewrite stripPrefixPath_None by (done || by apply clean_wf)].
  destruct Hp as [k ->]. rewrite stripPrefixPath_upath by (by apply clean_wf). cbn [mbind option_bind].
  apply clean_app in Ht as [_ Hk]. rewrite firstComponent_join, drop_app_length by (by apply clean_wf).
  unfold metadataPathName. destruct k as [|x k]; [done|]. case_decide as Hx; [|done].
  cbn. f_equal. f_equal. apply Join2_upath; [done|by apply protected_clean].
Qed.

(** The first writable entry with protected metadata on the way to [t]. *)
Lemma metadata_child_cases entries t : clean t ->
  (forall e, e ∈ entries -> exists s, clean s /\ rpath e = upath s) ->
  (exists s x, metadata_child entries (upath t) = Some (upath (s ++ [x]), x) /\ clean s
     /\ mkResolvedEntry (upath s) FileSystemAccessModeWrite ∈ entries /\ x ∈ protectedMetadataPathNames
     /\ (s ++ [x]) `prefix_of` t
     /\ metadata_child entries (upath (s ++ [x])) = Some (upath (s ++ [x]), x))
  \/ (metadata_child entries (upath t) = None
     /\ forall s a, clean s -> mkResolvedEntry (upath s) a ∈ entries -> seg_meta a s t = None).
Proof.
  intros Ht. induction entries as [|e entries IH]; intros Hc.
  { right. split; [done|]. by intros s a _ ?%elem_of_nil. }
  destruct (Hc e) as (s & Hs & E); [by constructor|].
  destruct e as [pe a]. cbn [rpath] in E. subst pe. cbn [metadata_child rpath raccess].
  rewrite metadata_step by done. destruct (seg_meta a s t) as [x|] eqn:Hm; cbn [fmap option_fmap option_map].
  - left. pose proof Hm as (-> & Hx & Hp)%seg_meta_Some. exists s, x. split_and!; [done..|by constructor|done|done|].
    rewrite metadata_step; [|done|by eapply clean_prefix]. by rewrite (seg_meta_intro s _ x).
  - destruct IH as [(s' & x & H1 & H2 & H3 & H4 & H5 & H6)|[H1 H2]]; [by intros e He; apply Hc; right|left|right].
    + exists s', x. split_and!; [done..|by right|done|done|].
      rewrite metadata_step; [|done|by eapply clean_prefix].
      destruct (seg_meta a s (s' ++ [x])) as [y|] eqn:Hy; [|done]. apply seg_meta_Some in Hy as (-> & Hy & Hyp).
      exfalso. rewrite (seg_meta_intro s t y) in Hm; [done..|by etrans].
    + split; [done|]. intros s' a' Hs' [Heq|Hin]%elem_of_cons; [|by apply H2].
      pose proof (f_equal rpath Heq) as Eu. pose proof (f_equal raccess Heq) as Ea. cbn [rpath raccess] in Eu, Ea.
      apply upath_inj in Eu as ->; [by rewrite Ea|by apply clean_wf..].
Qed.

(** ** Writing on segments *)

(** No writable entry lies between protected metadata and the path. *)
Definition no_override (m t : list gostring) : Prop :=
  forall s, entry_at s FileSystemAccessModeWrite -> m `prefix_of` s -> ~ s `prefix_of` t.

Lemma explicit_iff m t : clean m -> clean t ->
  hasExplicitWriteEntryForMetadataPath p (upath m) (upath t) cwd = false <-> no_override m t.
Proof.
  intros Hm Ht. unfold hasExplicitWriteEntryForMetadataPath, no_override. rewrite <- not_true_iff_false, existsb_exists. split.
  - intros Hn s Hs Hms Hst. apply Hn. eexists. rewrite <- list_elem_of_In. split; [apply Hs|]. cbn [rpath raccess].
    assert (wf s) by apply clean_wf, Hs. rewrite !pathStartsWith_upath by (done || by apply clean_wf).
    by rewrite !bool_decide_eq_true_2.
  - intros Hno (e & Hin & [[Hw%CanWrite_true Ht1]%andb_true_iff Ht2]%andb_true_iff). rewrite <- list_elem_of_In in Hin.
    destruct (entry_at_of e Hin) as (s & E & Hs). rewrite Hw in Hs. assert (wf s) by apply clean_wf, Hs.
    rewrite E, pathStartsWith_upath, bool_decide_eq_true in Ht1, Ht2 by (done || by apply clean_wf).
    by apply (Hno s).
Qed.

(** A denied write lies below the protected metadata of a writable entry, and
    the metadata directory itself is denied. *)
Lemma denied_cases t : clean t -> isMetadataWriteDenied p (upath t) cwd = true ->
  exists s x, entry_at s FileSystemAccessModeWrite /\ x ∈ protectedMetadataPathNames /\ (s ++ [x]) `prefix_of` t
    /\ no_override (s ++ [x]) t /\ isMetadataWriteDenied p (upath (s ++ [x])) cwd = true.
Proof.
  intros Ht Hd. unfold isMetadataWriteDenied in *. rewrite (plain_restricted Hplain) in *. cbn [negb] in *.
  rewrite resolveCandidatePath_upath in Hd by done. unfold metadataChildOfWritableRoot in *.
  destruct (metadata_child_cases (resolvedEntriesWithCwd p cwd) t Ht plain_entries)
    as [(s & x & E & Hs & Hin & Hx & Hp & Em)|[E _]]; rewrite E in Hd; [|done].
  apply negb_true_iff in Hd. assert (clean (s ++ [x])) as Hsx by (by eapply clean_prefix).
  apply explicit_iff in Hd; [|done..]. exists s, x. split_and!; [done..|].
  rewrite resolveCandidatePath_upath, Em by done. apply negb_true_iff, explicit_iff; [done..|].
  intros q Hq Hmq Hqm. apply (Hd q); [done..|by etrans].
Qed.

Lemma not_denied_override t s x : clean t -> entry_at s FileSystemAccessModeWrite -> x ∈ protectedMetadataPathNames ->
  (s ++ [x]) `prefix_of` t -> isMetadataWriteDenied p (upath t) cwd = false ->
  exists s' x', entry_at s' FileSystemAccessModeWrite /\ x' ∈ protectedMetadataPathNames /\ ~ no_override (s' ++ [x']) t.
Proof.
  intros Ht Hs Hx Hp Hd. unfold isMetadataWriteDenied in Hd. rewrite (plain_restricted Hplain) in Hd. cbn [negb] in Hd.
  rewrite resolveCandidatePath_upath in Hd by done. unfold metadataChildOfWritableRoot in Hd.
  destruct (metadata_child_cases (resolvedEntriesWithCwd p cwd) t Ht plain_entries)
    as [(s' & x' & E & Hs' & Hin & Hx' & Hp' & _)|[_ Hn]].
  - rewrite E in Hd. apply negb_false_iff, not_false_iff_true in Hd. exists s', x'. split_and!; [done..|].
    intros Hno. apply Hd, explicit_iff; [by eapply clean_prefix|done..].
  - specialize (Hn s _ (proj1 Hs) (proj2 Hs)). by rewrite (seg_meta_intro s t x) in Hn.
Qed.

Lemma write_entry_not_denied s : entry_at s FileSystemAccessModeWrite -> isMetadataWriteDenied p (upath s) cwd = false.
Proof.
  intros Hs. apply not_true_iff_false. intros Hd. apply denied_cases in Hd as (s' & x & _ & _ & Hp & Hno & _); [|apply Hs].
  by apply (Hno s).
Qed.

Hypothesis Hpartial : fsHasFullDiskWriteAccess p = false.

Lemma can_write_iff t : clean t ->
  canWritePathWithCwd p (upath t) cwd = true
  <-> (exists s, best_at t s FileSystemAccessModeWrite) /\ isMetadataWriteDenied p (upath t) cwd = false.
Proof.
  intros Ht. unfold canWritePathWithCwd. rewrite Hpartial, <- resolve_write by done.
  destruct (CanWrite (resolveAccessWithCwd p (upath t) cwd)) eqn:Hc; cbn [negb].
  - apply CanWrite_true in Hc. rewrite negb_true_iff. naive_solver.
  - split; [done|]. intros [Hw _]. by rewrite Hw in Hc.
Qed.

Lemma can_write_self s : best_at s s FileSystemAccessModeWrite -> canWritePathWithCwd p (upath s) cwd = true.
Proof.
  intros Hb. apply can_write_iff; [apply Hb|]. split; [by exists s|]. apply write_entry_not_denied, Hb.
Qed.

(** A path that is an entry but cannot be written is best for itself with
    another access. *)
Lemma best_at_entry s a : entry_at s a -> exists a', best_at s s a' /\ accessRank a <= accessRank a'.
Proof.
  intros Hs. destruct (best_exists s s a (proj1 Hs) Hs (reflexivity s)) as (s' & a' & Hb).
  pose proof Hb as (Hs' & Hp & Hmax). destruct (Hmax s a Hs (reflexivity s)) as [Hl|[-> Hr]].
  - apply prefix_length in Hp. lia.
  - by exists a'.
Qed.

(** *** The roots *)

Definition writable_at (w : list gostring) : Prop := best_at w w FileSystemAccessModeWrite.

Lemma writable_entry_iff w : clean w ->
  upath w ∈ writable_entry_paths p cwd <-> writable_at w.
Proof.
  intros Hw. unfold writable_entry_paths. rewrite list_elem_of_In, in_map_iff. setoid_rewrite <- list_elem_of_In.
  setoid_rewrite list_elem_of_filter. split.
  - intros (e & E & Hf & Hin). apply Is_true_true, andb_true_iff in Hf as [Hc Hcan]. apply CanWrite_true in Hc.
    rewrite E in Hcan. apply can_write_iff in Hcan as [[s Hs] _]; [|done].
    assert (entry_at w FileSystemAccessModeWrite) as Hew.
    { split; [done|]. rewrite <- E, <- Hc. by destruct e. }
    destruct (best_at_entry w _ Hew) as (a & Hb & _). pose proof (best_rank _ _ _ _ _ Hb Hs) as [<- Hr].
    apply rank_write in Hr as ->. done.
  - intros Hb. exists (mkResolvedEntry (upath w) FileSystemAccessModeWrite). split; [done|split; [|apply Hb]].
    apply Is_true_true, andb_true_iff. split; [done|by apply can_write_self].
Qed.

Lemma roots_iff root : root ∈ dedupPaths (writable_entry_paths p cwd) <-> exists w, root = upath w /\ writable_at w.
Proof.
  rewrite elem_of_dedupPaths. split.
  - intros (q & Hq & E). assert (exists w, clean w /\ q = upath w) as (w & Hw & ->).
    { unfold writable_entry_paths in Hq. rewrite list_elem_of_In, in_map_iff in Hq. destruct Hq as (e & <- & He).
      rewrite <- list_elem_of_In in He. apply list_elem_of_filter in He as [_ He].
      by destruct (plain_entries e He) as (s & ? & ?); eauto. }
    apply writable_entry_iff in Hq as Hat; [|done].
    rewrite normalizeEffective_identity in E; [|by eapply entry_unlinked, Hat|done]. by exists w.
  - intros (w & -> & Hw). exists (upath w). split; [by apply writable_entry_iff; [apply Hw|]|].
    apply normalizeEffective_identity; [by eapply entry_unlinked, Hw|apply Hw].
Qed.

Lemma elem_of_concat_map {A B} (f : A -> list B) (l : list A) b : b ∈ concat (map f l) <-> exists a, a ∈ l /\ b ∈ f a.
Proof.
  rewrite list_elem_of_In, in_concat. setoid_rewrite in_map_iff. split.
  - intros (k & (a & <- & Ha) & Hb). exists a. by rewrite !list_elem_of_In.
  - intros (a & Ha & Hb). exists (f a). rewrite <- !list_elem_of_In. split; [exists a; by rewrite <- list_elem_of_In|done].
Qed.

Lemma writable_roots_eq : getWritableRootsWithCwd p cwd = map (writable_root p cwd) (dedupPaths (writable_entry_paths p cwd)).
Proof. unfold getWritableRootsWithCwd. by rewrite Hpartial. Qed.

Definition root_paths : list gostring := map Root (getWritableRootsWithCwd p cwd).
Definition read_only_paths : list gostring := concat (map ReadOnlySubpaths (getWritableRootsWithCwd p cwd)).
Definition protected_paths : list gostring :=
  concat (map (fun root => map (Join2 (Root root)) (ProtectedMetadataNames root)) (getWritableRootsWithCwd p cwd)).

Lemma root_paths_iff r : r ∈ root_paths <-> exists w, r = upath w /\ writable_at w.
Proof.
  unfold root_paths. rewrite writable_roots_eq, map_map. cbn [Root writable_root]. by rewrite map_id, roots_iff.
Qed.

Lemma of_roots {B} (f : WritableRoot -> list B) b : b ∈ concat (map f (getWritableRootsWithCwd p cwd)) <->
  exists w, writable_at w /\ b ∈ f (writable_root p cwd (upath w)).
Proof.
  rewrite writable_roots_eq, elem_of_concat_map. split.
  - intros (r & Hr & Hb). rewrite list_elem_of_In, in_map_iff in Hr. destruct Hr as (q & <- & Hq).
    rewrite <- list_elem_of_In in Hq. apply roots_iff in Hq as (w & -> & Hw). eauto.
  - intros (w & Hw & Hb). eexists. split; [|exact Hb]. rewrite list_elem_of_In. apply in_map. rewrite <- list_elem_of_In.
    apply roots_iff. eauto.
Qed.

Lemma protected_iff r : r ∈ protected_paths <-> exists w x, writable_at w /\ x ∈ protectedMetadataPathNames
  /\ r = upath (w ++ [x]) /\ canWritePathWithCwd p r cwd = false.
Proof.
  unfold protected_paths. rewrite of_roots. cbn [Root ProtectedMetadataNames writable_root].
  unfold protectedMetadataNamesForWritableRoot. split.
  - intros (w & Hw & Hr). rewrite list_elem_of_In, in_map_iff in Hr. destruct Hr as (x & <- & Hx).
    rewrite <- list_elem_of_In in Hx. apply list_elem_of_filter in Hx as [Hc Hx]. apply Is_true_true, negb_true_iff in Hc.
    rewrite Join2_upath in * by (apply Hw || by apply protected_clean). exists w, x. by split_and!.
  - intros (w & x & Hw & Hx & -> & Hc). exists w. split; [done|]. rewrite list_elem_of_In, in_map_iff. exists x.
    rewrite Join2_upath by (apply Hw || by apply protected_clean). split; [done|].
    rewrite <- list_elem_of_In. apply list_elem_of_filter. split; [|done].
    apply Is_true_true, negb_true_iff. by rewrite Join2_upath by (apply Hw || by apply protected_clean).
Qed.

Lemma default_subpaths w dot r : clean w -> r ∈ defaultReadOnlySubpathsForWritableRoot (upath w) dot ->
  exists x, x ∈ protectedMetadataPathNames /\ r = upath (w ++ [x]).
Proof.
  intros Hw. unfold defaultReadOnlySubpathsForWritableRoot. rewrite elem_of_dedupNoNormalize.
  assert (forall x, x ∈ protectedMetadataPathNames -> Join2 (upath w) x = upath (w ++ [x])) as Hj
    by (intros x Hx; apply Join2_upath; [done|by apply protected_clean]).
  assert (forall x (b : bool), x ∈ protectedMetadataPathNames -> r ∈ (if b then [Join2 (upath w) x] else []) ->
    exists x, x ∈ protectedMetadataPathNames /\ r = upath (w ++ [x])) as Hone.
  { intros x [|] Hx Hr; [|by apply elem_of_nil in Hr]. apply list_elem_of_singleton in Hr as ->. exists x. by rewrite Hj. }
  intros [Hr|[Hr|Hr]%elem_of_app]%elem_of_app; (eapply Hone; [|exact Hr]); unfold protectedMetadataPathNames;
    rewrite !elem_of_cons; tauto.
Qed.

Lemma read_only_elim r : r ∈ read_only_paths -> exists w, writable_at w /\
  ((exists x, x ∈ protectedMetadataPathNames /\ r = upath (w ++ [x]) /\ forall a, ~ entry_at (w ++ [x]) a)
   \/ (exists q a, entry_at q a /\ r = upath q /\ canWritePathWithCwd p r cwd = false)).
Proof.
  unfold read_only_paths. rewrite of_roots. intros (w & Hw & Hr). exists w. split; [done|].
  cbn [ReadOnlySubpaths writable_root] in Hr. rewrite elem_of_dedupNoNormalize in Hr. unfold read_only_below in Hr.
  apply elem_of_app in Hr as [[Hf Hr]%list_elem_of_filter|Hr].
  - left. apply default_subpaths in Hr as (x & Hx & ->); [|apply Hw]. exists x. split_and!; [done..|].
    intros a [_ Ha]. apply Is_true_true, negb_true_iff, not_true_iff_false in Hf. apply Hf. apply existsb_exists.
    eexists. rewrite <- list_elem_of_In. split; [exact Ha|]. by apply bool_decide_eq_true_2.
  - right. rewrite list_elem_of_In, in_map_iff in Hr. destruct Hr as (e & <- & He). rewrite <- list_elem_of_In in He.
    apply list_elem_of_filter in He as [Hf He]. apply Is_true_true in Hf. rewrite !andb_true_iff, !negb_true_iff in Hf.
    destruct (entry_at_of e He) as (q & E & Hq). exists q, (raccess e). split_and!; [done..|tauto].
Qed.

Lemma read_only_intro w q a : writable_at w -> entry_at q a -> a <> FileSystemAccessModeWrite ->
  canWritePathWithCwd p (upath q) cwd = false -> q <> w -> w `prefix_of` q -> upath q ∈ read_only_paths.
Proof.
  intros Hw Hq Ha Hc Hne Hp. unfold read_only_paths. apply of_roots. exists w. split; [done|].
  cbn [ReadOnlySubpaths writable_root]. rewrite elem_of_dedupNoNormalize. apply elem_of_app. right.
  rewrite list_elem_of_In, in_map_iff. exists (mkResolvedEntry (upath q) a). split; [done|].
  rewrite <- list_elem_of_In. apply list_elem_of_filter. split; [|apply Hq]. cbn [rpath raccess].
  assert (wf w /\ wf q) as [? ?] by (split; apply clean_wf; apply Hw || apply Hq).
  apply Is_true_true. rewrite !andb_true_iff, !negb_true_iff, Hc. split_and!; [|done| |].
  - by apply bool_decide_eq_false_2.
  - apply bool_decide_eq_false_2. intros E. by apply upath_inj in E.
  - rewrite pathStartsWith_upath by done. by apply bool_decide_eq_true_2.
Qed.

(** ** Soundness and completeness of the roots *)

Definition closed_path (q : gostring) : Prop := q ∈ protected_paths \/ q ∈ read_only_paths.

(** [t] lies below a writable root with nothing closed in between. *)
Definition open_at (w t : list gostring) : Prop :=
  writable_at w /\ w `prefix_of` t /\ forall q, clean q -> closed_path (upath q) -> w `prefix_of` q -> ~ q `prefix_of` t.

Lemma not_writable_at s a : best_at s s a -> a <> FileSystemAccessModeWrite -> ~ writable_at s.
Proof.
  intros Hb Ha Hw. pose proof (best_rank _ _ _ _ _ Hb Hw) as [_ Hr]. by apply rank_write in Hr.
Qed.

Lemma closed_below w t s a : open_at w t -> clean t -> best_at s s a -> a <> FileSystemAccessModeWrite ->
  w `prefix_of` s -> ~ s `prefix_of` t.
Proof.
  intros (Hw & Hwt & Hopen) Ht Hb Ha Hws. apply Hopen; [apply Hb| |done]. right.
  apply (read_only_intro w s a); [done|apply Hb|done| | |done].
  - apply not_true_iff_false. intros Hc. apply can_write_iff in Hc as [[s' Hs'] _]; [|apply Hb].
    pose proof (best_rank _ _ _ _ _ Hb Hs') as [_ Hr]. by apply rank_write in Hr.
  - intros ->. by apply (not_writable_at w a).
Qed.

Lemma open_is_writable w t : clean t -> open_at w t -> canWritePathWithCwd p (upath t) cwd = true.
Proof.
  intros Ht Ho. pose proof Ho as (Hw & Hwt & Hopen). apply can_write_iff; [done|]. split.
  - destruct (best_exists t w _ Ht (proj1 Hw) Hwt) as (s & a & Hb). exists s.
    destruct (decide (a = FileSystemAccessModeWrite)) as [->|Ha]; [done|exfalso].
    pose proof Hb as (Hs & Hst & Hmax). apply (closed_below w t s a); [done..|by eapply best_self|done| |done].
    destruct (prefix_weak_total w s t) as [|Hsw]; [done..|].
    destruct (Hmax w _ (proj1 Hw) Hwt) as [Hl|[-> _]]; [apply prefix_length in Hsw; lia|done].
  - apply not_true_iff_false. intros (s & x & Hs & Hx & Hp & Hno & Hd)%denied_cases; [|done].
    assert (clean (s ++ [x])) as Hc by (by eapply clean_prefix).
    destruct (decide ((s ++ [x]) `prefix_of` w)) as [Hmw|Hmw]; [by apply (Hno w); [apply Hw|..]|].
    destruct (prefix_weak_total w (s ++ [x]) t) as [Hwm|]; [done|done| |done].
    assert (w `prefix_of` s) as Hws.
    { destruct Hwm as [k Ek]. destruct k as [|y k _] using rev_ind; [rewrite app_nil_r in Ek; by subst|].
      rewrite (assoc (++)) in Ek. apply app_inj_tail in Ek as [-> _]. by apply prefix_app_r. }
    destruct (best_at_entry s _ Hs) as (a & Hb & _). destruct (decide (a = FileSystemAccessModeWrite)) as [->|Ha].
    + apply (Hopen (s ++ [x])); [done| |done|done]. left. apply protected_iff. exists s, x. split_and!; [done..|].
      apply not_true_iff_false. intros Hcw. apply can_write_iff in Hcw as [_ Hcw]; [congruence|done].
    + apply (closed_below w t s a); [done..|]. etrans; [by apply prefix_app_r|done].
Qed.

(** A policy whose writable entries are neither inside the protected metadata
    of another nor below a denied entry. *)
Record unnested : Prop := {
  no_root_in_metadata s x w : entry_at s FileSystemAccessModeWrite -> x ∈ protectedMetadataPathNames ->
    entry_at w FileSystemAccessModeWrite -> ~ (s ++ [x]) `prefix_of` w;
  no_root_in_denied d w : entry_at d FileSystemAccessModeDeny -> entry_at w FileSystemAccessModeWrite -> ~ d `prefix_of` w;
}.

Lemma metadata_not_writable t s x : unnested -> clean t -> entry_at s FileSystemAccessModeWrite ->
  x ∈ protectedMetadataPathNames -> (s ++ [x]) `prefix_of` t -> isMetadataWriteDenied p (upath t) cwd = true.
Proof.
  intros Hu Ht Hs Hx Hp. apply not_false_iff_true. intros Hd.
  destruct (not_denied_override t s x Ht Hs Hx Hp Hd) as (s' & x' & Hs' & Hx' & Hno). apply Hno.
  intros z Hz Hm _. by apply (no_root_in_metadata Hu s' x' z).
Qed.

Lemma writable_is_open t : unnested -> clean t -> canWritePathWithCwd p (upath t) cwd = true -> exists w, open_at w t.
Proof.
  intros Hu Ht Hc. apply can_write_iff in Hc as [[s Hb] Hnd]; [|done]. exists s.
  pose proof Hb as (Hs & Hst & Hmax). pose proof (best_self _ _ _ Hb) as Hself.
  split_and!; [done..|]. intros q Hq Hclosed Hsq Hqt.
  assert (forall w x, writable_at w -> x ∈ protectedMetadataPathNames -> q = w ++ [x] -> q <> s -> False) as Hmeta.
  { intros w x Hw Hx -> Hne. pose proof (metadata_not_writable t w x Hu Ht (proj1 Hw) Hx Hqt). congruence. }
  destruct Hclosed as [Hp|Hr].
  - apply protected_iff in Hp as (w & x & Hw & Hx & E & Hcq). apply upath_inj in E; [|apply clean_wf..]; [|done|].
    + apply (Hmeta w x); [done..|]. intros ->. rewrite can_write_self in Hcq; done.
    + apply clean_app. split; [apply Hw|]. constructor; [by apply protected_clean|constructor].
  - apply read_only_elim in Hr as (w & Hw & [(x & Hx & E & Hna)|(q' & a & Hq' & E & Hcq)]).
    + apply upath_inj in E; [|apply clean_wf..]; [|done|].
      * apply (Hmeta w x); [done..|]. intros ->. rewrite <- E in Hna. by apply (Hna _ Hs).
      * apply clean_app. split; [apply Hw|]. constructor; [by apply protected_clean|constructor].
    + apply upath_inj in E as ->; [|apply clean_wf; done|apply clean_wf, Hq'].
      destruct (Hmax q' a Hq' Hqt) as [Hl|[-> _]]; [apply prefix_length in Hsq; lia|].
      rewrite can_write_self in Hcq; done.
Qed.

Lemma unreadable_elim r : r ∈ getUnreadableRootsWithCwd p cwd -> exists d, r = upath d /\ entry_at d FileSystemAccessModeDeny.
Proof.
  unfold getUnreadableRootsWithCwd. rewrite (plain_restricted Hplain). cbn [negb]. rewrite elem_of_dedupPaths.
  intros (q & Hq & <-). rewrite list_elem_of_In, in_map_iff in Hq. destruct Hq as (e & <- & He).
  rewrite <- list_elem_of_In in He. apply list_elem_of_filter in He as [Hf He]. apply Is_true_true in Hf.
  rewrite !andb_true_iff in Hf. destruct Hf as [[Ha%bool_decide_eq_true _] _].
  destruct (entry_at_of e He) as (d & E & Hd). rewrite Ha in Hd. exists d. split; [|done].
  rewrite E. apply normalizeEffective_identity; [by eapply entry_unlinked|apply Hd].
Qed.

Lemma writable_not_masked t d : unnested -> clean t -> canWritePathWithCwd p (upath t) cwd = true ->
  upath d ∈ getUnreadableRootsWithCwd p cwd -> clean d -> ~ d `prefix_of` t.
Proof.
  intros Hu Ht Hc Hd Hcd Hdt. apply unreadable_elim in Hd as (d' & E & Hd).
  apply upath_inj in E as <-; [|apply clean_wf; done|apply clean_wf, Hd].
  apply can_write_iff in Hc as [[s (Hs & Hst & Hmax)] _]; [|done].
  destruct (prefix_weak_total d s t) as [Hds|Hsd]; [done..|by apply (no_root_in_denied Hu d s)|].
  destruct (Hmax d _ Hd Hdt) as [Hl|[_ Hr]]; [apply prefix_length in Hsd; lia|cbn in Hr; lia].
Qed.

End Refine.

(** ** The request *)

Section Request.
Context `{World : SandboxWorld} `{Mounts : !MountTable}.
Variable req : SpawnRequest.
Let p := RequestFileSystemPolicy req.
Let cwd := policyCwd req.
Let setup := nsSetupFromSpec (buildLinuxSandboxSpec req).

Hypothesis Hplain : plain p cwd.
Hypothesis Hpartial : fsHasFullDiskWriteAccess p = false.

Lemma setup_writable r : r ∈ writableRoots setup <-> exists w, r = upath w /\ writable_at p cwd w.
Proof.
  unfold setup. cbn [writableRoots nsSetupFromSpec WritableRoots buildLinuxSandboxSpec]. fold p cwd.
  rewrite Hpartial, elem_of_dedupNoNormalize. by apply root_paths_iff.
Qed.

Lemma setup_closed r : r ∈ protectedSubpaths setup ++ readOnlySubpaths setup <-> closed_path p cwd r.
Proof.
  unfold setup. cbn [protectedSubpaths readOnlySubpaths nsSetupFromSpec ProtectedSubpaths SpecReadOnlySubpaths buildLinuxSandboxSpec].
  fold p cwd. by rewrite Hpartial, elem_of_app, !elem_of_dedupNoNormalize.
Qed.

Lemma setup_unreadable r : r ∈ unreadableRoots setup <-> r ∈ getUnreadableRootsWithCwd p cwd.
Proof.
  unfold setup. cbn [unreadableRoots nsSetupFromSpec UnreadableRoots buildLinuxSandboxSpec]. by rewrite elem_of_dedupNoNormalize.
Qed.

Lemma closed_is_direct r : closed_path p cwd r -> direct_path r.
Proof.
  assert (forall w x, writable_at p cwd w -> x ∈ protectedMetadataPathNames -> direct (w ++ [x])) as Hc.
  { intros w x Hw Hx. split; [|eapply entry_metadata_unlinked; [done|apply Hw|done]].
    apply clean_app. split; [apply Hw|]. constructor; [by apply protected_clean|constructor]. }
  intros [Hr|Hr].
  - apply protected_iff in Hr as (w & x & Hw & Hx & -> & _); [|done..]. eexists. split; [|done]. by apply Hc.
  - apply read_only_elim in Hr as (w & Hw & [(x & Hx & -> & _)|(q & a & Hq & -> & _)]); [| |done..];
      (eexists; split; [|done]); [by apply Hc|]. split; [apply Hq|by eapply entry_unlinked].
Qed.

Lemma setup_clean : clean_setup setup.
Proof.
  constructor; apply Forall_forall; intros r Hr.
  - apply setup_writable in Hr as (w & -> & Hw). exists w. split; [|done]. split; [apply Hw|by eapply entry_unlinked, Hw].
  - by apply closed_is_direct, setup_closed.
  - apply setup_unreadable, unreadable_elim in Hr as (d & -> & Hd); [|done]. exists d. split; [|done].
    split; [apply Hd|by eapply entry_unlinked].
Qed.

(** The path and its ancestors exist. *)
Definition present (t : list gostring) : Prop := forall q, q `prefix_of` t -> lstat (upath q) = true.

Lemma overlay_allows_open t : clean t -> present t ->
  overlay_allows setup t <->
    (forall d, clean d -> upath d ∈ getUnreadableRootsWithCwd p cwd -> ~ d `prefix_of` t) /\ exists w, open_at p cwd w t.
Proof.
  intros Ht Hpr. unfold overlay_allows. split; intros [Hd (w & Hw)]; split.
  - intros d Hcd Hin Hdt. apply (Hd d); [done|by apply setup_unreadable|by apply Hpr|done].
  - destruct Hw as (Hcw & Hin & _ & Hwt & Hall). apply setup_writable in Hin as (w' & E & Hw).
    apply upath_inj in E as <-; [|apply clean_wf; done|apply clean_wf, Hw]. exists w. split_and!; [done..|].
    intros q Hq Hc Hwq Hqt. apply (Hall q); [done|by apply setup_closed|by apply Hpr|done..].
  - intros d Hcd Hin _. apply Hd; [done|by apply setup_unreadable].
  - destruct Hw as (Hw & Hwt & Hall). exists w. split_and!; [apply Hw|apply setup_writable; eauto|by apply Hpr|done|].
    intros q Hq Hin _. by apply Hall, setup_closed.
Qed.

(** C4: the mounts of the Linux helper enforce the policy. Take a restricted
    policy that is not writable everywhere, resolved against an absolute directory,
    whose entries are clean paths without symbolic links on the way to them and to
    the metadata directories right below them; and a clean path of the original
    tree that exists. If its mount is the root's, or not
    deeper than an existing writable root that holds it, or was read-only before,
    then after the overlay a command can write to it only where
    [canWritePathWithCwd] allows it. It can write wherever that allows it if the
    mount is one of the first two, no writable root lies inside the protected
    metadata of another or below a denied path, and, for a policy that does not
    let everything be read, no top-level name is a symbolic link. (A path on
    another mount outside the roots keeps the flag it had, which
    [other_mount_stays_writable] shows.) *)
Theorem linux_mounts_enforce_policy entries ns ns' t :
  applyMountOverlay setup entries ns = Some ns' -> clean t -> present t -> exposed ns t = true ->
  (reached setup ns t \/ read_only ns t = true -> writes ns' t = true -> canWritePathWithCwd p (upath t) cwd = true)
  /\ (unnested p cwd -> plain_top_level setup entries -> reached setup ns t ->
      canWritePathWithCwd p (upath t) cwd = true -> writes ns' t = true).
Proof.
  intros Ha Ht Hpr He. destruct (overlay_writes setup entries ns ns' t) as [Hs Hc]; [by apply setup_clean|done..|].
  rewrite overlay_allows_open in Hs, Hc by done. split.
  - intros Hr Hw. destruct (Hs Hr Hw) as (_ & _ & w & Ho). by eapply open_is_writable.
  - intros Hu Htop Hr Hw. apply Hc; [done..|]. split; [|by apply (writable_is_open p cwd)].
    intros d Hcd Hd. by apply (writable_not_masked p cwd Hplain Hpartial).
Qed.

(** a request without network access and without a proxy ends in a
    seccomp program that refuses, with EPERM, every [socket] and [socketpair]
    call for a family other than AF_UNIX, and every [connect], [bind] and
    [sendto] call, whatever the arguments. *)
Theorem restricted_request_refuses_network `{Seccomp.ClassicBPF} auditArch sc :
  IsEnabled (RequestNetworkPolicy req) = false -> HasProxy req = false ->
  exists prog, Seccomp.buildNetworkSeccompProgram (SpecNetworkSeccompMode (buildLinuxSandboxSpec req)) auditArch sc = Some prog
    /\ forall d a, d Seccomp.seccompDataArchOffset = auditArch ->
        (let nr := d Seccomp.seccompDataNROffset in
         ((nr = Seccomp.socket sc \/ nr = Seccomp.socketpair sc) /\ d Seccomp.seccompDataArg0LowOffset <> Seccomp.afUNIX)
         \/ nr = Seccomp.connect sc \/ nr = Seccomp.bind_ sc \/ nr = Seccomp.sendto sc) ->
        Seccomp.bpf_run d prog a = Some (Seccomp.verdict_code Seccomp.Eperm).
Proof.
  intros Hnet Hproxy. unfold buildLinuxSandboxSpec. cbn [SpecNetworkSeccompMode].
  unfold networkAllowsProxy, proxyRoutedNetwork, Seccomp.networkSeccompModeFor, Seccomp.shouldInstallNetworkSeccomp.
  rewrite Hnet, Hproxy. cbn [negb orb].
  destruct (Seccomp.buildNetworkSeccompProgram Seccomp.NetworkSeccompModeRestricted auditArch sc) as [prog|] eqn:E; [|done].
  destruct (Seccomp.filter_decides _ _ _ _ E) as [_ Hd]. exists prog. split; [done|]. intros d a Harch Hcall.
  rewrite Hd. f_equal. f_equal. unfold Seccomp.decision. rewrite Harch, Z.eqb_refl. cbn [negb].
  case_bool_decide as Hin; [done|]. destruct Hcall as [[Hs Hf]|Hcall].
  - apply Z.eqb_neq in Hf. rewrite Hf. by destruct Hs as [->| ->]; rewrite Z.eqb_refl, ?orb_true_r.
  - destruct Hin. unfold Seccomp.deniedSyscalls. rewrite elem_of_app. right. rewrite !elem_of_cons. tauto.
Qed.

End Request.

(** ** A mount table *)

(** The state of every path: its mount, whether it is read-only, whether the
    original file is there. *)
Definition path_of_string (s : gostring) : list gostring := filter (fun seg => seg <> []) (split_byte slash s).

Lemma path_of_upath r : clean r -> path_of_string (upath r) = r.
Proof.
  intros Hr%clean_wf. unfold path_of_string. rewrite split_upath by done. destruct r as [|x r]; [done|].
  rewrite filter_cons_False by (by intros []). by apply filter_id_Forall.
Qed.

(** Where an operation takes effect: the kernel follows symbolic links. *)
Definition target `{World : SandboxWorld} (q : gostring) : list gostring := path_of_string (default q (evalSymlinks q)).

Lemma target_direct `{World : SandboxWorld} r : direct r -> target (upath r) = r.
Proof.
  intros [Hr Hl]. unfold target. destruct (evalSymlinks (upath r)) as [c|] eqn:E; [|by apply path_of_upath].
  apply (Hl r c (reflexivity r)) in E as ->. by apply path_of_upath.
Qed.

Definition table := list gostring -> list gostring * bool * bool.

Definition bind_table (r : list gostring) (ro : bool) (ns : table) : table := fun t =>
  let '(pt, old, ex) := ns t in if takes_over r pt t then (r, ro, ex) else (pt, old, ex).

Definition table_mount `{World : SandboxWorld} (op : mount_op) (ns : table) : option table :=
  Some (match op with
        | make_private => ns
        | remount_root_read_only => fun t => let '(pt, ro, ex) := ns t in (pt, if decide (pt = []) then true else ro, ex)
        | bind_read_write q => bind_table (target q) false ns
        | bind_read_only q => bind_table (target q) true ns
        | mask_path q => fun t => if decide (target q `prefix_of` t) then (target q, true, false) else ns t
        end).

#[local] Program Instance table_mounts `{World : SandboxWorld} : MountTable := {|
  mounts := table;
  mount := table_mount;
  mount_point := fun ns t => (ns t).1.1;
  read_only := fun ns t => (ns t).1.2;
  exposed := fun ns t => (ns t).2;
|}.
Next Obligation. by intros World ns ns' [= <-] t. Qed.
Next Obligation. intros World ns ns' [= <-] t. by destruct (ns t) as [[pt ro] ex]. Qed.
Next Obligation.
  intros World ns ns' r [= <-] Hr t. unfold bind_table. rewrite target_direct by done. destruct (ns t) as [[pt ro] ex].
  cbn. by destruct (takes_over _ _ _).
Qed.
Next Obligation.
  intros World ns ns' r [= <-] Hr t. unfold bind_table. rewrite target_direct by done. destruct (ns t) as [[pt ro] ex].
  cbn. by destruct (takes_over _ _ _).
Qed.
Next Obligation. intros World ns ns' q [= <-] t. by case_decide. Qed.
Next Obligation.
  intros World ns ns' r [= <-] Hr t. rewrite target_direct by done. by case_decide.
Qed.

(** One writable mount; and a host with the workspace and [/home] on volumes of
    their own and a read-only [/sys]. *)
Definition host : table := fun _ => ([], false, true).
Definition volumes : table := fun t =>
  match t with
  | x :: _ => if decide (x = str "w" \/ x = str "home") then ([x], false, true)
              else if decide (x = str "sys") then ([x], true, true) else ([], false, true)
  | [] => ([], false, true)
  end.

(** ** Examples *)

Section Examples.
#[local] Existing Instance plain_world.

Definition request (p : FileSystemSandboxPolicy) : SpawnRequest :=
  mkSpawnRequest [str "ls"] (str "/w") p NetworkSandboxPolicyRestricted [] false false.

(** The mounts after the overlay for a policy; the top level is [/w], [/etc], [/home] and [/tmp]. *)
Definition top_level : list gostring := [str "w"; str "etc"; str "home"; str "tmp"].
Definition overlay_on `{World : SandboxWorld} (ns : table) (p : FileSystemSandboxPolicy) : table :=
  default ns (applyMountOverlay (nsSetupFromSpec (buildLinuxSandboxSpec (request p))) (Some top_level) ns).
Definition overlay_of `{World : SandboxWorld} := overlay_on host.

Definition segs (s : string) : list gostring := path_of_string (str s).

Example workspace_overlay :
  map (writes (overlay_of workspaceWriteFileSystemSandboxPolicy))
    [segs "/w/src/a.go"; segs "/tmp/x"; segs "/w/.git/config"; segs "/etc/passwd"] = [true; true; false; false].
Proof. vm_compute. reflexivity. Qed.

Lemma workspace_entries : resolvedEntriesWithCwd workspaceWriteFileSystemSandboxPolicy (str "/w") =
  [mkResolvedEntry (upath []) FileSystemAccessModeRead; mkResolvedEntry (upath [str "w"]) FileSystemAccessModeWrite;
   mkResolvedEntry (upath [str "tmp"]) FileSystemAccessModeWrite].
Proof. vm_compute. reflexivity. Qed.

Lemma clean_dec segs : bool_decide (Forall (fun s : gostring => (s <> [] /\ slash ∉ s) /\ s <> dot /\ s <> dotdot) segs) = true ->
  clean segs.
Proof. intros Hb. exact (bool_decide_eq_true_1 _ Hb). Qed.

Lemma workspace_plain : plain workspaceWriteFileSystemSandboxPolicy (str "/w").
Proof.
  assert (forall s, unlinked s) as Hl by (by intros s a c _ [= <-]).
  split; [reflexivity|reflexivity|]. intros e He. rewrite workspace_entries in He.
  repeat (apply elem_of_cons in He as [->|He];
    [eexists; split_and!; [|reflexivity|intros; apply Hl]; split; [apply clean_dec; vm_compute; reflexivity|apply Hl]|]).
  by apply elem_of_nil in He.
Qed.

Lemma workspace_write_entry s : entry_at workspaceWriteFileSystemSandboxPolicy (str "/w") s FileSystemAccessModeWrite ->
  s = [str "w"] \/ s = [str "tmp"].
Proof.
  intros [Hs He]. rewrite workspace_entries in He. apply clean_wf in Hs.
  rewrite !elem_of_cons in He. destruct He as [He|[He|[He|He%elem_of_nil]]]; [by apply (f_equal raccess) in He| | |done].
  - left. apply (f_equal rpath) in He. apply upath_inj in He; [done|done|apply clean_wf, clean_dec; vm_compute; reflexivity].
  - right. apply (f_equal rpath) in He. apply upath_inj in He; [done|done|apply clean_wf, clean_dec; vm_compute; reflexivity].
Qed.

Lemma workspace_unnested : unnested workspaceWriteFileSystemSandboxPolicy (str "/w").
Proof.
  split.
  - intros s x w Hs%workspace_write_entry Hx Hw%workspace_write_entry Hp. apply prefix_length in Hp.
    rewrite length_app in Hp. destruct Hs as [->| ->], Hw as [->| ->]; simpl in Hp; lia.
  - intros d w [_ Hd] _ _. rewrite workspace_entries in Hd.
    rewrite !elem_of_cons in Hd. by destruct Hd as [Hd|[Hd|[Hd|Hd%elem_of_nil]]]; [apply (f_equal raccess) in Hd..|].
Qed.

Lemma linux_mounts_enforce_policy_witness :
  writes (overlay_on volumes workspaceWriteFileSystemSandboxPolicy) [str "w"; str "src"] = true
  /\ writes (overlay_on volumes workspaceWriteFileSystemSandboxPolicy) [str "etc"; str "passwd"] = false.
Proof.
  pose proof (fun t => linux_mounts_enforce_policy (Mounts := table_mounts) (request workspaceWriteFileSystemSandboxPolicy)
    workspace_plain eq_refl (Some top_level) volumes (overlay_on volumes workspaceWriteFileSystemSandboxPolicy) t eq_refl) as Hall.
  assert (forall t, present t) as Hpr by (intros t q _; reflexivity). split.
  - destruct (Hall [str "w"; str "src"]) as [_ Hc]; [apply clean_dec; vm_compute; reflexivity|apply Hpr|reflexivity|].
    apply Hc; [apply workspace_unnested|left; reflexivity| |vm_compute; reflexivity].
    right. exists [str "w"]. split_and!; [apply clean_dec; vm_compute; reflexivity| |reflexivity|by exists [str "src"]|vm_compute; lia].
    refine (bool_decide_eq_true_1 _ _). vm_compute. reflexivity.
  - destruct (Hall [str "etc"; str "passwd"]) as [Hs _]; [apply clean_dec; vm_compute; reflexivity|apply Hpr|reflexivity|].
    apply not_true_iff_false. intros Hw. specialize (Hs (or_introl (or_introl eq_refl)) Hw). vm_compute in Hs. discriminate Hs.
Defined.

(** The remount of the root is not recursive: a writable mount outside the roots
    stays writable. *)
Example other_mount_stays_writable :
  let p := workspaceWriteFileSystemSandboxPolicy in
  (canWritePathWithCwd p (str "/home/u/.profile") (str "/w"), writes (overlay_on volumes p) (segs "/home/u/.profile"),
   writes (overlay_on host p) (segs "/home/u/.profile")) = (false, true, false).
Proof. vm_compute. reflexivity. Qed.

#[local] Existing Instance Seccomp.interpreter.

Lemma restricted_request_refuses_network_witness :
  let req := request workspaceWriteFileSystemSandboxPolicy in
  exists prog, Seccomp.buildNetworkSeccompProgram (SpecNetworkSeccompMode (buildLinuxSandboxSpec req))
      Seccomp.auditArchX8664 Seccomp.amd64 = Some prog
    /\ Seccomp.bpf_run (Seccomp.syscall_data Seccomp.auditArchX8664 41 Seccomp.afINET) prog 0
       = Some (Seccomp.verdict_code Seccomp.Eperm).
Proof.
  destruct (restricted_request_refuses_network (request workspaceWriteFileSystemSandboxPolicy)
    Seccomp.auditArchX8664 Seccomp.amd64) as (prog & E & Hd); [reflexivity|reflexivity|].
  exists prog. split; [exact E|]. apply Hd; [reflexivity|]. left. split; [left; reflexivity|vm_compute; discriminate].
Defined.

(** A write below a denied directory is allowed by the policy, but the denied
    directory is masked as a whole. *)
Example nested_write_masked :
  (canWritePathWithCwd layered (str "/w/secret/out/x") (str "/w"), writes (overlay_of layered) (segs "/w/secret/out/x"))
  = (true, false).
Proof. vm_compute. reflexivity. Qed.

(** Reads are masked at the top level only: with one readable root below
    [/home], the rest of [/home] stays there. *)
Example readable_sibling :
  let p := restricted [path_entry (str "/home/u/proj") FileSystemAccessModeRead] in
  (canReadPathWithCwd p (str "/home/u/.ssh/id") (str "/w"),
   exposed (overlay_of p) (segs "/home/u/.ssh/id"), exposed (overlay_of p) (segs "/etc/passwd")) = (false, true, false).
Proof. vm_compute. reflexivity. Qed.

End Examples.

(** A symbolic link at the top level, [/bin] to [usr/bin]: it is masked although it
    leads below a readable root, which hides what the policy lets be read. *)
Section Links.
#[local] Instance linked_world : SandboxWorld := {|
  homeDir := None; getwd := Some (str "/w"); tmpdir_env := []; isDir := fun _ => true; isFile := fun _ => false;
  lstat := fun _ => true; evalSymlinks := fun q => Some (if decide (q = str "/bin") then str "/usr/bin" else q) |}.

Example linked_top_level_hides :
  let p := restricted [path_entry (str "/usr") FileSystemAccessModeRead; path_entry (str "/w") FileSystemAccessModeWrite] in
  let overlay := default host (applyMountOverlay (nsSetupFromSpec (buildLinuxSandboxSpec (request p)))
    (Some [str "w"; str "usr"; str "bin"]) host) in
  (canReadPathWithCwd p (str "/usr/bin/ls") (str "/w"), exposed overlay (segs "/usr/bin/ls"), exposed overlay (segs "/usr/lib/x"))
  = (true, false, true).
Proof. vm_compute. reflexivity. Qed.

End Links.

(** Metadata that does not exist yet: its bind is skipped. *)
Section Missing.
#[local] Instance fresh_world : SandboxWorld := {|
  homeDir := None; getwd := Some (str "/w"); tmpdir_env := []; isDir := fun q => bool_decide (q = str "/w");
  isFile := fun _ => false; lstat := fun q => bool_decide (q ∈ [str "/"; str "/w"]); evalSymlinks := Some |}.

Example missing_metadata_writable :
  let p := workspaceWriteFileSystemSandboxPolicy in
  (canWritePathWithCwd p (str "/w/.codexgo/config.toml") (str "/w"),
   ProtectedSubpaths (buildLinuxSandboxSpec (request p)),
   writes (overlay_of p) (segs "/w/.codexgo/config.toml"))
  = (false, [str "/w/.git"; str "/w/.agents"; str "/w/.codexgo"], true).
Proof. vm_compute. reflexivity. Qed.

End Missing.
End SandboxRefine.
