(* ===== verification/Approvals.v ===== *)
(** * internal/core: approval decisions and escalation

    [approval_decision.go] and [sandbox_escalation.go]: when a command needs the
    user's approval, what the user is offered, what is remembered for the
    session, and when a command that the sandbox stopped is run again without it. *)

From stdpp Require Import base list gmap strings.
From S2P Require Import Prelude GoStrings GoText Permissions SandboxProfile.

Module Approvals.
Import Permissions SandboxProfile.

(** ** Policies and decisions *)

Inductive AskForApprovalKind :=
| AskForApprovalUnlessTrusted
| AskForApprovalOnFailure
| AskForApprovalOnRequest
| AskForApprovalGranular
| AskForApprovalNever
| AskForApprovalOther (s : gostring).
#[export] Instance AskForApprovalKind_eq_dec : EqDecision AskForApprovalKind.
Proof. solve_decision. Defined.

Record GranularApprovalConfig := mkGranularApprovalConfig {
  SandboxApproval : bool;
  Rules : bool;
  SkillApproval : bool;
  RequestPermissions : bool;
  McpElicitations : bool;
}.

Record AskForApproval := mkAskForApproval {
  AskKind : AskForApprovalKind;
  Granular : option GranularApprovalConfig;
}.

Definition ExecPolicyAmendment := list gostring.

Inductive NetworkPolicyRuleAction := NetworkPolicyRuleActionAllow | NetworkPolicyRuleActionDeny.
#[export] Instance NetworkPolicyRuleAction_eq_dec : EqDecision NetworkPolicyRuleAction.
Proof. solve_decision. Defined.

Record NetworkPolicyAmendment := mkNetworkPolicyAmendment { AmendmentHost : gostring; Action : NetworkPolicyRuleAction }.
#[export] Instance NetworkPolicyAmendment_eq_dec : EqDecision NetworkPolicyAmendment.
Proof. solve_decision. Defined.

Inductive ReviewDecisionKind :=
| ReviewDecisionApproved
| ReviewDecisionApprovedExecpolicyAmendment
| ReviewDecisionApprovedForSession
| ReviewDecisionNetworkPolicyAmendment
| ReviewDecisionDenied
| ReviewDecisionTimedOut
| ReviewDecisionAbort.
#[export] Instance ReviewDecisionKind_eq_dec : EqDecision ReviewDecisionKind.
Proof. solve_decision. Defined.

Record ReviewDecision := mkReviewDecision {
  DecisionKind : ReviewDecisionKind;
  DecisionExecAmendment : option ExecPolicyAmendment;
  DecisionNetworkAmendment : option NetworkPolicyAmendment;
}.
#[export] Instance ReviewDecision_eq_dec : EqDecision ReviewDecision.
Proof. solve_decision. Defined.

(** The composite literal with only a kind. *)
Definition decision (kind : ReviewDecisionKind) : ReviewDecision := mkReviewDecision kind None None.

(** ** The requirement *)

Inductive ExecApprovalRequirementKind := ExecApprovalSkip | ExecApprovalNeedsApproval | ExecApprovalForbidden.
#[export] Instance ExecApprovalRequirementKind_eq_dec : EqDecision ExecApprovalRequirementKind.
Proof. solve_decision. Defined.

Record ExecApprovalRequirement := mkExecApprovalRequirement {
  RequirementKind : ExecApprovalRequirementKind;
  BypassSandbox : bool;
  RequirementReason : option gostring;
  ProposedExecpolicyAmendment : option ExecPolicyAmendment;
}.

Record FilesystemSandboxState := mkFilesystemSandboxState { Restricted : bool; DeniedReadRestrictions : bool }.

Definition granularAllowsSandboxApproval (cfg : option GranularApprovalConfig) : bool :=
  match cfg with Some c => SandboxApproval c | None => false end.
Definition granularAllowsRequestPermissions (cfg : option GranularApprovalConfig) : bool :=
  match cfg with Some c => RequestPermissions c | None => false end.

Definition DefaultExecApprovalRequirement (policy : AskForApproval) (fs : FilesystemSandboxState) : ExecApprovalRequirement :=
  let needsApproval :=
    match AskKind policy with
    | AskForApprovalNever | AskForApprovalOnFailure => false
    | AskForApprovalOnRequest | AskForApprovalGranular => Restricted fs
    | AskForApprovalUnlessTrusted => true
    | AskForApprovalOther _ => false
    end in
  if needsApproval && bool_decide (AskKind policy = AskForApprovalGranular)
     && negb (granularAllowsSandboxApproval (Granular policy))
  then mkExecApprovalRequirement ExecApprovalForbidden false
         (Some (str "approval policy disallowed sandbox approval prompt")) None
  else if needsApproval then mkExecApprovalRequirement ExecApprovalNeedsApproval false None None
  else mkExecApprovalRequirement ExecApprovalSkip false None None.

Inductive SandboxOverride := SandboxNoOverride | SandboxBypassFirstAttempt.

Definition unsandboxedExecutionAllowed (fs : FilesystemSandboxState) : bool := negb (DeniedReadRestrictions fs).

Definition SandboxOverrideForFirstAttempt (requiresEscalatedPermissions : bool) (requirement : ExecApprovalRequirement)
  (fs : FilesystemSandboxState) : SandboxOverride :=
  if negb (unsandboxedExecutionAllowed fs) then SandboxNoOverride
  else if bool_decide (RequirementKind requirement = ExecApprovalSkip) && BypassSandbox requirement
  then SandboxBypassFirstAttempt
  else if requiresEscalatedPermissions then SandboxBypassFirstAttempt
  else SandboxNoOverride.

Definition DefaultAvailableDecisions (hasNetworkContext : bool) (proposedExecpolicyAmendment : option ExecPolicyAmendment)
  (proposedNetworkPolicyAmendments : list NetworkPolicyAmendment) (hasAdditionalPermissions : bool) : list ReviewDecision :=
  if hasNetworkContext
  then [decision ReviewDecisionApproved; decision ReviewDecisionApprovedForSession]
       ++ match list_find (fun a => Action a = NetworkPolicyRuleActionAllow) proposedNetworkPolicyAmendments with
          | Some (_, a) => [mkReviewDecision ReviewDecisionNetworkPolicyAmendment None (Some a)]
          | None => []
          end ++ [decision ReviewDecisionAbort]
  else if hasAdditionalPermissions then [decision ReviewDecisionApproved; decision ReviewDecisionAbort]
  else [decision ReviewDecisionApproved]
       ++ match proposedExecpolicyAmendment with
          | Some a => [mkReviewDecision ReviewDecisionApprovedExecpolicyAmendment (Some a) None]
          | None => []
          end ++ [decision ReviewDecisionAbort].

(** ** Escalation *)

Definition wantsNoSandboxApproval (policy : AskForApproval) : bool :=
  match AskKind policy with
  | AskForApprovalOnFailure | AskForApprovalUnlessTrusted => true
  | AskForApprovalGranular => granularAllowsSandboxApproval (Granular policy)
  | _ => false
  end.

Definition shouldBypassNoSandboxApproval (policy : AskForApproval) : bool := bool_decide (AskKind policy = AskForApprovalNever).

Definition reviewDecisionApproves (d : ReviewDecision) : bool :=
  match DecisionKind d with
  | ReviewDecisionApproved | ReviewDecisionApprovedForSession | ReviewDecisionApprovedExecpolicyAmendment => true
  | _ => false
  end.

(** The turn: its approval policy and what the sandbox resolver reads. *)
Record TurnSnapshot := mkTurnSnapshot { ApprovalPolicy : AskForApproval; SandboxContext : TurnContext }.

Definition turnApprovalPolicy (tc : option TurnSnapshot) : AskForApproval :=
  match tc with
  | Some tc => if decide (AskKind (ApprovalPolicy tc) = AskForApprovalOther []) then mkAskForApproval AskForApprovalOnRequest None
               else ApprovalPolicy tc
  | None => mkAskForApproval AskForApprovalOnRequest None
  end.

Definition fileSystemPolicyHasDeniedReads (p : FileSystemSandboxPolicy) : bool :=
  bool_decide (PolicyKind p = FileSystemSandboxKindRestricted)
  && existsb (fun e => bool_decide (Access e = FileSystemAccessModeDeny)) (PolicyEntries p).

Definition turnFilesystemSandboxState (os : platform) (tc : option TurnSnapshot) : FilesystemSandboxState :=
  let fs := (resolveTurnSandboxPolicy os (SandboxContext <$> tc)).2.1 in
  mkFilesystemSandboxState (bool_decide (PolicyKind fs = FileSystemSandboxKindRestricted)) (fileSystemPolicyHasDeniedReads fs).

Inductive sandboxEscalationDecision := sandboxEscalationSurfaceDenial | sandboxEscalationRetryUnsandboxed.
#[export] Instance sandboxEscalationDecision_eq_dec : EqDecision sandboxEscalationDecision.
Proof. solve_decision. Defined.

(** [prompt] is the answer of [RequestCommandApproval], [None] without a
    session.  The second result tells whether the user was asked. *)
Definition resolveSandboxEscalation (os : platform) (prompt : option ReviewDecision) (turn : option TurnSnapshot) :
  sandboxEscalationDecision * bool :=
  let policy := turnApprovalPolicy turn in
  if negb (wantsNoSandboxApproval policy) then (sandboxEscalationSurfaceDenial, false)
  else if negb (unsandboxedExecutionAllowed (turnFilesystemSandboxState os turn)) then (sandboxEscalationSurfaceDenial, false)
  else if shouldBypassNoSandboxApproval policy then (sandboxEscalationRetryUnsandboxed, false)
  else match prompt with
       | None => (sandboxEscalationSurfaceDenial, false)
       | Some d => (if reviewDecisionApproves d then sandboxEscalationRetryUnsandboxed else sandboxEscalationSurfaceDenial, true)
       end.

Definition sandboxDeniedKeywords : list gostring :=
  [str "operation not permitted"; str "permission denied"; str "read-only file system"; str "seccomp"; str "sandbox";
   str "landlock"; str "failed to write file"].
Definition execSignalBase : Z := 128.
Definition sigSysCode : Z := 31.

Definition isLikelySandboxDenied (unicode_lower : rune -> rune) (sandboxType : SandboxType) (exitCode : Z)
  (stdout stderr aggregated : gostring) : bool :=
  if bool_decide (sandboxType = SandboxTypeNone) || (exitCode =? 0)%Z then false
  else if existsb (fun section => existsb (contains (to_lower unicode_lower section)) sandboxDeniedKeywords)
            [stderr; stdout; aggregated]
  then true
  else if bool_decide (exitCode ∈ [2; 126; 127]%Z) then false
  else bool_decide (sandboxType = SandboxTypeLinuxSeccomp) && (exitCode =? execSignalBase + sigSysCode)%Z.

(** ** The session's memory *)

Section Store.
(** A key of the tool that asks, and its [json.Marshal] ([None] for an error). *)
Context {Key : Type} (marshal : Key -> option gostring).

Definition NewApprovalStore : gmap gostring ReviewDecision := ∅.

Definition Get (s : gmap gostring ReviewDecision) (key : Key) : option ReviewDecision := k ← marshal key; s !! k.
Definition Put (s : gmap gostring ReviewDecision) (key : Key) (d : ReviewDecision) : gmap gostring ReviewDecision :=
  match marshal key with Some k => <[k := d]> s | None => s end.

Definition isApprovedForSession (s : gmap gostring ReviewDecision) (key : Key) : bool :=
  match Get s key with
  | Some d => bool_decide (DecisionKind d = ReviewDecisionApprovedForSession)
  | None => false
  end.

(** [answer] is what [fetch] returns.  The result: the decision, whether the
    user was asked, and the store. *)
Definition WithCachedApproval (s : gmap gostring ReviewDecision) (keys : list Key) (answer : ReviewDecision) :
  ReviewDecision * bool * gmap gostring ReviewDecision :=
  match keys with
  | [] => (answer, true, s)
  | _ =>
      if forallb (isApprovedForSession s) keys
      then (decision ReviewDecisionApprovedForSession, false, s)
      else (answer, true,
            if decide (DecisionKind answer = ReviewDecisionApprovedForSession)
            then fold_left (fun s key => Put s key answer) keys s else s)
  end.

(** A session: the requests in order, each with the user's answer if asked. *)
Fixpoint run_requests (s : gmap gostring ReviewDecision) (requests : list (list Key * ReviewDecision)) :
  list (ReviewDecision * bool) * gmap gostring ReviewDecision :=
  match requests with
  | [] => ([], s)
  | (keys, answer) :: requests =>
      let '(d, asked, s) := WithCachedApproval s keys answer in
      let '(rest, s) := run_requests s requests in ((d, asked) :: rest, s)
  end.

(** A key that the user approved for the session when asked about it. *)
Definition granted (requests : list (list Key * ReviewDecision)) (outcomes : list (ReviewDecision * bool)) (k : gostring) : Prop :=
  exists i keys answer d key, requests !! i = Some (keys, answer) /\ outcomes !! i = Some (d, true)
    /\ DecisionKind answer = ReviewDecisionApprovedForSession /\ key ∈ keys /\ marshal key = Some k.

(** The store only holds approvals for the session. *)
Definition session_only (s : gmap gostring ReviewDecision) : Prop :=
  forall k d, s !! k = Some d -> DecisionKind d = ReviewDecisionApprovedForSession.

Lemma put_all_lookup (keys : list Key) (answer : ReviewDecision) (s : gmap gostring ReviewDecision) (k : gostring) :
  is_Some (fold_left (fun s key => Put s key answer) keys s !! k)
  <-> is_Some (s !! k) \/ exists key, key ∈ keys /\ marshal key = Some k.
Proof.
  revert s. induction keys as [|x keys IH]; intros s; cbn [fold_left].
  { split; [by left|]. by intros [?|(? & ?%elem_of_nil & _)]. }
  rewrite IH. unfold Put. destruct (marshal x) as [kx|] eqn:Ex.
  - rewrite lookup_insert_is_Some. setoid_rewrite elem_of_cons. split.
    + intros [[->|[_ ?]]|(key & ? & ?)]; [right; by exists x; auto|by left|right; by exists key; auto].
    + intros [?|(key & [->|?] & E)]; [|by left; left; congruence|right; eauto]. destruct (decide (kx = k)); auto.
  - setoid_rewrite elem_of_cons. split; [intros [?|(key & ? & ?)]; eauto|].
    intros [?|(key & [->|?] & E)]; [by left|congruence|right; eauto].
Qed.

Lemma put_all_session (keys : list Key) (answer : ReviewDecision) (s : gmap gostring ReviewDecision) : DecisionKind answer = ReviewDecisionApprovedForSession -> session_only s ->
  session_only (fold_left (fun s key => Put s key answer) keys s).
Proof.
  intros Ha. revert s. induction keys as [|x keys IH]; intros s Hs; cbn [fold_left]; [done|]. apply IH.
  unfold Put. destruct (marshal x) as [kx|]; [|done]. intros k d [[_ <-]|[_ Hk]]%lookup_insert_Some; [done|by eapply Hs].
Qed.

Lemma approved_iff (s : gmap gostring ReviewDecision) (key : Key) : session_only s ->
  isApprovedForSession s key = true <-> exists k, marshal key = Some k /\ is_Some (s !! k).
Proof.
  intros Hs. unfold isApprovedForSession, Get. destruct (marshal key) as [k|]; cbn; [|split; [done|by intros (? & ? & _)]].
  split.
  - destruct (s !! k) eqn:E; [|done]. intros _. exists k. by rewrite E.
  - intros (k' & [= <-] & [d Hd]). rewrite Hd. apply bool_decide_eq_true_2. by eapply Hs.
Qed.

Lemma cached_step (s : gmap gostring ReviewDecision) (keys : list Key) (answer d : ReviewDecision) (asked : bool) (s' : gmap gostring ReviewDecision) : WithCachedApproval s keys answer = (d, asked, s') -> session_only s ->
  session_only s'
  /\ (asked = false <-> keys <> [] /\ forall key, key ∈ keys -> exists k, marshal key = Some k /\ is_Some (s !! k))
  /\ (asked = false -> DecisionKind d = ReviewDecisionApprovedForSession) /\ (asked = true -> d = answer)
  /\ forall k, is_Some (s' !! k) <-> is_Some (s !! k)
       \/ (asked = true /\ DecisionKind answer = ReviewDecisionApprovedForSession /\ exists key, key ∈ keys /\ marshal key = Some k).
Proof.
  intros Hw Hs. unfold WithCachedApproval in Hw. destruct keys as [|x keys].
  { simplify_eq. split_and!; [done|by split; [|intros [? _]]|done|done|]. intros k. split; [by left|].
    by intros [?|(_ & _ & ? & ?%elem_of_nil & _)]. }
  remember (x :: keys) as all eqn:Eall. destruct (forallb (isApprovedForSession s) all) eqn:Hall; simplify_eq.
  - split_and!; [done| |done|done|].
    + split; [intros _|done]. split; [by subst|]. rewrite forallb_forall in Hall. intros key Hk.
      apply approved_iff; [done|]. by apply Hall, list_elem_of_In.
    + intros k. split; [by left|]. by intros [?|[? _]].
  - split_and!; [| |done|done|].
    + case_decide; [by apply put_all_session|done].
    + split; [done|]. intros [_ Hk]. apply not_true_iff_false in Hall. destruct Hall. apply forallb_forall.
      intros key Hin%list_elem_of_In. apply approved_iff; auto.
    + intros k. case_decide as Ha; [rewrite put_all_lookup|]; split; [intros [?|?]; auto|intros [?|(_ & _ & ?)]; auto|by left|].
      intros [?|(_ & ? & _)]; done.
Qed.

Lemma granted_cons keys a l o outs k : granted ((keys, a) :: l) (o :: outs) k <->
  (o.2 = true /\ DecisionKind a = ReviewDecisionApprovedForSession /\ exists key, key ∈ keys /\ marshal key = Some k)
  \/ granted l outs k.
Proof.
  unfold granted. split.
  - intros ([|i] & keys' & a' & d & key & H1 & H2 & H3 & H4 & H5); simplify_eq/=; [left; eauto|right; eauto 12].
  - intros [(Ho & Ha & key & Hk & Hm)|(i & H)]; [|by exists (S i)]. destruct o as [d asked]. simplify_eq/=.
    exists 0, keys, a, d, key. auto.
Qed.

Lemma run_requests_spec s l outs s' : run_requests s l = (outs, s') -> session_only s ->
  forall j keys a d asked, l !! j = Some (keys, a) -> outs !! j = Some (d, asked) ->
    (asked = false -> DecisionKind d = ReviewDecisionApprovedForSession) /\ (asked = true -> d = a)
    /\ (asked = false <-> keys <> [] /\ forall key, key ∈ keys ->
          exists k, marshal key = Some k /\ (is_Some (s !! k) \/ granted (take j l) (take j outs) k)).
Proof.
  revert s outs s'. induction l as [|[keys0 a0] l IH]; intros s outs s' Hr Hs j keys a d asked Hl Ho; [done|].
  cbn [run_requests] in Hr. destruct (WithCachedApproval s keys0 a0) as [[d0 asked0] s1] eqn:Ew.
  destruct (run_requests s1 l) as [outs1 s2] eqn:Er. simplify_eq.
  destruct (cached_step _ _ _ _ _ _ Ew Hs) as (Hs1 & Hasked & Hd1 & Hd2 & Hstore).
  assert (forall k, ~ granted [] [] k) as Hnil by (intros k (i & ? & ? & ? & ? & Hx & _); by rewrite lookup_nil in Hx).
  destruct j as [|j]; simplify_eq/=.
  - split_and!; [done|done|]. rewrite Hasked. apply and_iff_compat_l. split; intros Hk key Hin;
      destruct (Hk key Hin) as (k & Hm & Hx); exists k; split; auto. destruct Hx as [?|Hx]; [done|by apply Hnil in Hx].
  - destruct (IH _ _ _ Er Hs1 j keys a d asked Hl Ho) as (H1 & H2 & H3). split_and!; [done|done|]. rewrite H3.
    apply and_iff_compat_l. split; intros Hk key Hin; destruct (Hk key Hin) as (k & Hm & Hx); exists k; (split; [done|]);
      rewrite granted_cons, Hstore in *; cbn [snd] in *; tauto.
Qed.

(** what the session remembers is what the user granted. In any sequence
    of requests on a new store, one is answered without asking exactly when it
    has keys and each of them belongs to an earlier request that the user
    approved for the session; it is then answered with that approval, and any
    other request gets the user's own answer. *)
Theorem session_memory_exact requests outs s' :
  run_requests NewApprovalStore requests = (outs, s') ->
  forall j keys a d asked, requests !! j = Some (keys, a) -> outs !! j = Some (d, asked) ->
    (asked = false -> DecisionKind d = ReviewDecisionApprovedForSession) /\ (asked = true -> d = a)
    /\ (asked = false <-> keys <> [] /\ forall key, key ∈ keys ->
          exists k, marshal key = Some k /\ granted (take j requests) (take j outs) k).
Proof.
  intros Hr j keys a d asked Hl Ho.
  destruct (run_requests_spec _ _ _ _ Hr ltac:(unfold NewApprovalStore; by intros k x ?%lookup_empty_Some) j keys a d asked Hl Ho) as (H1 & H2 & H3).
  split_and!; [done|done|]. rewrite H3. apply and_iff_compat_l.
  split; intros Hk key Hin; destruct (Hk key Hin) as (k & Hm & Hx); exists k; split; auto.
  destruct Hx as [Hx|Hx]; [|done]. unfold NewApprovalStore in Hx. rewrite lookup_empty in Hx. by destruct Hx.
Qed.

End Store.

Lemma session_memory_exact_witness :
  let requests := [([str "a"; str "b"], decision ReviewDecisionApprovedForSession); ([str "b"], decision ReviewDecisionDenied);
                   ([str "c"], decision ReviewDecisionApproved)] in
  let outs := (run_requests Some NewApprovalStore requests).1 in
  outs = [(decision ReviewDecisionApprovedForSession, true); (decision ReviewDecisionApprovedForSession, false);
          (decision ReviewDecisionApproved, true)]
  /\ exists k, Some (str "b") = Some k /\ granted Some (take 1 requests) (take 1 outs) k.
Proof.
  split; [vm_compute; reflexivity|].
  destruct (session_memory_exact (Key := gostring) Some
    [([str "a"; str "b"], decision ReviewDecisionApprovedForSession); ([str "b"], decision ReviewDecisionDenied);
     ([str "c"], decision ReviewDecisionApproved)] _ _ (surjective_pairing _)
    1 [str "b"] (decision ReviewDecisionDenied) (decision ReviewDecisionApprovedForSession) false) as (_ & _ & [H _]);
    [vm_compute; reflexivity|vm_compute; reflexivity|].
  destruct (H eq_refl) as [_ Hk]. apply Hk. by constructor.
Defined.

(** ** Nothing runs outside the sandbox unasked *)

(** a command that the sandbox stopped is run again without it only when
    the policy provides for it, no denied reads depend on the sandbox, and the
    user was asked and approved. *)
Theorem escalation_needs_approval os prompt turn asked :
  resolveSandboxEscalation os prompt turn = (sandboxEscalationRetryUnsandboxed, asked) ->
  asked = true
  /\ (exists d, prompt = Some d /\ (DecisionKind d = ReviewDecisionApproved
        \/ DecisionKind d = ReviewDecisionApprovedForSession \/ DecisionKind d = ReviewDecisionApprovedExecpolicyAmendment))
  /\ DeniedReadRestrictions (turnFilesystemSandboxState os turn) = false
  /\ exists tc, turn = Some tc /\
       (AskKind (ApprovalPolicy tc) = AskForApprovalOnFailure \/ AskKind (ApprovalPolicy tc) = AskForApprovalUnlessTrusted
        \/ (AskKind (ApprovalPolicy tc) = AskForApprovalGranular
            /\ exists cfg, Granular (ApprovalPolicy tc) = Some cfg /\ SandboxApproval cfg = true)).
Proof.
  unfold resolveSandboxEscalation. destruct (wantsNoSandboxApproval _) eqn:Hw; cbn [negb]; [|done].
  unfold unsandboxedExecutionAllowed. destruct (DeniedReadRestrictions _) eqn:Hd; cbn [negb]; [done|].
  unfold wantsNoSandboxApproval, shouldBypassNoSandboxApproval, turnApprovalPolicy in *.
  destruct turn as [tc|]; [|done]. case_decide as Hk; [done|].
  destruct (AskKind (ApprovalPolicy tc)) eqn:Ek; try done; (rewrite bool_decide_eq_false_2 by done);
    (destruct prompt as [d|]; [|done]); (destruct (reviewDecisionApproves d) eqn:Ha; [|done]); intros [= <-];
    (split_and!; [done| |done|exists tc; split; [done|rewrite Ek; auto]]);
    try (exists d; split; [done|]; unfold reviewDecisionApproves in Ha; destruct (DecisionKind d); auto; done).
  right; right. split; [done|]. unfold granularAllowsSandboxApproval in Hw.
  destruct (Granular (ApprovalPolicy tc)) as [cfg|]; [by exists cfg|done].
Qed.

Lemma escalation_needs_approval_witness :
  let turn := mkTurnSnapshot (mkAskForApproval AskForApprovalOnFailure None)
                (mkTurnContext SandboxModeWorkspaceWrite false WindowsSandboxLevelDisabled) in
  true = true
  /\ (exists d, Some (decision ReviewDecisionApproved) = Some d /\ (DecisionKind d = ReviewDecisionApproved
        \/ DecisionKind d = ReviewDecisionApprovedForSession \/ DecisionKind d = ReviewDecisionApprovedExecpolicyAmendment))
  /\ DeniedReadRestrictions (turnFilesystemSandboxState linux (Some turn)) = false
  /\ exists tc, Some turn = Some tc /\
       (AskKind (ApprovalPolicy tc) = AskForApprovalOnFailure \/ AskKind (ApprovalPolicy tc) = AskForApprovalUnlessTrusted
        \/ (AskKind (ApprovalPolicy tc) = AskForApprovalGranular
            /\ exists cfg, Granular (ApprovalPolicy tc) = Some cfg /\ SandboxApproval cfg = true)).
Proof. apply (escalation_needs_approval linux). vm_compute. reflexivity. Defined.

(** The first attempt bypasses the sandbox only on full trust or on a request
    for more permissions, and never when reads are denied. *)
Lemma first_attempt_bypass escalated requirement fs :
  SandboxOverrideForFirstAttempt escalated requirement fs = SandboxBypassFirstAttempt <->
  DeniedReadRestrictions fs = false
  /\ (escalated = true \/ (RequirementKind requirement = ExecApprovalSkip /\ BypassSandbox requirement = true)).
Proof.
  unfold SandboxOverrideForFirstAttempt, unsandboxedExecutionAllowed.
  destruct (DeniedReadRestrictions fs); cbn [negb]; [by split; [|intros []]|].
  destruct (bool_decide _ && _) eqn:Hb; [apply andb_true_iff in Hb as [?%bool_decide_eq_true ?]|]; [by split; auto|].
  apply andb_false_iff in Hb as [Hb%bool_decide_eq_false|Hb]; destruct escalated; split; auto; try done;
    intros [_ [|[? ?]]]; congruence.
Qed.

(** The default requirement never grants the bypass. *)
Lemma default_requirement_no_bypass policy fs : BypassSandbox (DefaultExecApprovalRequirement policy fs) = false.
Proof. unfold DefaultExecApprovalRequirement. by destruct (_ && negb _), (AskKind policy), (Restricted fs). Qed.

End Approvals.
