(* ===== verification/ApprovalWaiters.v ===== *)
(** * internal/core: pending approvals

    The registries of waiters in [turn.go] and [approval_waiters.go] and the
    routing of [approvals.go].  A request registers a buffered channel under its
    key and waits; an answer takes the channel out of the registry under the lock
    and sends to it after the lock is released; a newer request for the same key
    closes the older channel; an interrupt closes all.  Goroutines interleave
    between these steps: a run is any sequence of them.  Sending on a closed
    channel and closing twice are panics, sending on a full one blocks. *)

From stdpp Require Import base list gmap strings fin_maps.
From S2P Require Import Prelude GoStrings Permissions SandboxProfile Approvals.

Module ApprovalWaiters.
Import Approvals.

Section Registry.
(** What the waiters wait for: a review decision, a permissions response, the
    user's input or an elicitation response. *)
Context {V : Type}.

(** ** State *)

(** A channel of capacity one, with the key it was registered for. *)
Record chan := mkChan { chan_key : gostring; buffer : option V; closed : bool }.

Record registry := mkRegistry {
  next : nat;
  chans : gmap nat chan;
  pending : gmap gostring nat;
  sends : list (nat * V);
  closes : list nat;
  detached : list nat;
  received : list (gostring * V);
  drained : list nat;
}.

Definition newWaiterRegistry : registry := mkRegistry 0 ∅ ∅ [] [] [] [] [].

Inductive fault := blocked.

(** [close(ch)] and [ch <- v] *)
Definition close_chan (c : nat) (cs : gmap nat chan) : result fault (gmap nat chan) :=
  match cs !! c with
  | Some (mkChan k b false) => Ok (<[c := mkChan k b true]> cs)
  | _ => Panic
  end.
Definition send_chan (c : nat) (v : V) (cs : gmap nat chan) : result fault (gmap nat chan) :=
  match cs !! c with
  | Some (mkChan k None false) => Ok (<[c := mkChan k (Some v) false]> cs)
  | Some (mkChan _ (Some _) false) => Err blocked
  | _ => Panic
  end.

Fixpoint close_all (l : list nat) (cs : gmap nat chan) : result fault (gmap nat chan) :=
  match l with [] => Ok cs | c :: l => cs' ← close_chan c cs; close_all l cs' end.

(** ** Steps *)

Definition pend_chans (m : gmap gostring nat) : list nat := (map_to_list m).*2.

(** [InsertPendingApproval], [insertPending*]: the replaced channel is the
    caller's to close. *)
Definition InsertPendingApproval (key : gostring) (r : registry) : registry :=
  let c := next r in
  mkRegistry (S c) (<[c := mkChan key None false]> (chans r)) (<[key := c]> (pending r)) (sends r)
    (match pending r !! key with Some prev => prev :: closes r | None => closes r end)
    (detached r) (received r) (drained r).

(** The locked part of [ResolvePendingApproval] and of the [Notify*] methods. *)
Definition take_waiter (key : gostring) (v : V) (r : registry) : registry :=
  match pending r !! key with
  | Some c => mkRegistry (next r) (chans r) (delete key (pending r)) ((c, v) :: sends r) (closes r)
                (detached r) (received r) (drained r)
  | None => r
  end.

(** [removePending*] of a waiter that gives up. *)
Definition removePending (key : gostring) (r : registry) : registry :=
  match pending r !! key with
  | Some c => mkRegistry (next r) (chans r) (delete key (pending r)) (sends r) (closes r)
                (c :: detached r) (received r) (drained r)
  | None => r
  end.

(** [ClearPendingWaiters], [dropSessionWaiters]; the order of the map is free. *)
Definition ClearPendingWaiters (r : registry) : result fault registry :=
  cs ← close_all (pend_chans (pending r)) (chans r);
  Ok (mkRegistry (next r) cs ∅ (sends r) (closes r) (detached r) (received r) (drained r)).

(** The sends and closes that goroutines still have to do. *)
Definition do_send (i : nat) (r : registry) : result fault registry :=
  match sends r !! i with
  | Some (c, v) =>
      cs ← send_chan c v (chans r);
      Ok (mkRegistry (next r) cs (pending r) (delete i (sends r)) (closes r) (detached r) (received r) (drained r))
  | None => Ok r
  end.
Definition do_close (i : nat) (r : registry) : result fault registry :=
  match closes r !! i with
  | Some c =>
      cs ← close_chan c (chans r);
      Ok (mkRegistry (next r) cs (pending r) (sends r) (delete i (closes r)) (detached r) (received r) (drained r))
  | None => Ok r
  end.

(** A waiter reads its channel. *)
Definition receive (c : nat) (r : registry) : registry :=
  match chans r !! c with
  | Some (mkChan k (Some v) cl) =>
      mkRegistry (next r) (<[c := mkChan k None cl]> (chans r)) (pending r) (sends r) (closes r) (detached r)
        ((k, v) :: received r) (c :: drained r)
  | _ => r
  end.

Inductive op :=
| op_insert (key : gostring)
| op_resolve (key : gostring) (v : V)
| op_remove (key : gostring)
| op_clear
| op_send (i : nat)
| op_close (i : nat)
| op_receive (c : nat).

Definition step (o : op) (r : registry) : result fault registry :=
  match o with
  | op_insert key => Ok (InsertPendingApproval key r)
  | op_resolve key v => Ok (take_waiter key v r)
  | op_remove key => Ok (removePending key r)
  | op_clear => ClearPendingWaiters r
  | op_send i => do_send i r
  | op_close i => do_close i r
  | op_receive c => Ok (receive c r)
  end.

Fixpoint run (ops : list op) (r : registry) : result fault registry :=
  match ops with [] => Ok r | o :: ops => r' ← step o r; run ops r' end.

(** ** Ownership

    A channel that may still be sent to or closed is in exactly one place: in
    the registry, with the goroutine that answers, or with the one that
    replaced it. *)

Definition owners (r : registry) : list nat := pend_chans (pending r) ++ (sends r).*1 ++ closes r.

Record inv (answers : list (gostring * V)) (r : registry) : Prop := {
  inv_unique : NoDup (owners r);
  inv_open c : c ∈ owners r -> exists k, chans r !! c = Some (mkChan k None false);
  inv_fresh c : is_Some (chans r !! c) <-> c < next r;
  inv_keys k c : pending r !! k = Some c -> exists b cl, chans r !! c = Some (mkChan k b cl);
  inv_sends c v : (c, v) ∈ sends r -> exists k b cl, chans r !! c = Some (mkChan k b cl) /\ (k, v) ∈ answers;
  inv_buffers c k v cl : chans r !! c = Some (mkChan k (Some v) cl) -> (k, v) ∈ answers;
  inv_received kv : kv ∈ received r -> kv ∈ answers;
  inv_awake c k b cl : chans r !! c = Some (mkChan k b cl) ->
    c ∈ owners r \/ is_Some b \/ cl = true \/ c ∈ detached r \/ c ∈ drained r;
}.

Lemma inv_init : inv [] newWaiterRegistry.
Proof.
  split; cbn; try (by intros; rewrite ?lookup_empty in *); try by intros ? ?%elem_of_nil.
  - constructor.
  - intros c. rewrite lookup_empty. split; [by intros [? ?]|lia].
  - by intros c v ?%elem_of_nil.
Qed.

Lemma pend_insert_new m k c : m !! k = None -> pend_chans (<[k := c]> m) ≡ₚ c :: pend_chans m.
Proof. intros Hk. unfold pend_chans. by rewrite map_to_list_insert. Qed.

Lemma pend_delete m k c : m !! k = Some c -> pend_chans m ≡ₚ c :: pend_chans (delete k m).
Proof. intros Hk. unfold pend_chans. by rewrite <- (map_to_list_delete m k c). Qed.

Lemma pend_insert_over m k c p : m !! k = Some p -> p :: pend_chans (<[k := c]> m) ≡ₚ c :: pend_chans m.
Proof.
  intros Hk. rewrite <- insert_delete_eq, pend_insert_new, (pend_delete m k p) by (done || apply lookup_delete_eq).
  apply perm_swap.
Qed.

Lemma elem_of_pend m c : c ∈ pend_chans m <-> exists k, m !! k = Some c.
Proof.
  unfold pend_chans. rewrite list_elem_of_fmap. split.
  - intros ([k c'] & -> & Hin). apply elem_of_map_to_list in Hin. by exists k.
  - intros (k & Hk). exists (k, c). split; [done|]. by apply elem_of_map_to_list.
Qed.

Lemma owners_insert key r : owners (InsertPendingApproval key r) ≡ₚ next r :: owners r.
Proof.
  unfold owners, InsertPendingApproval. cbn [pending sends closes]. destruct (pending r !! key) as [prev|] eqn:E.
  - rewrite (assoc (++)), <- Permutation_middle, <- (assoc (++)). rewrite app_comm_cons, (pend_insert_over _ _ _ _ E). done.
  - by rewrite (pend_insert_new _ _ _ E).
Qed.

Lemma owners_take key v r c : pending r !! key = Some c -> owners (take_waiter key v r) ≡ₚ owners r.
Proof.
  intros E. unfold owners, take_waiter. rewrite E. cbn [pending sends closes fmap list_fmap fst].
  rewrite (pend_delete _ _ _ E). cbn [app]. by rewrite <- Permutation_middle.
Qed.

Lemma owners_remove key r c : pending r !! key = Some c -> owners r ≡ₚ c :: owners (removePending key r).
Proof. intros E. unfold owners, removePending. rewrite E. cbn [pending sends closes]. by rewrite (pend_delete _ _ _ E). Qed.

Lemma delete_middle {A} (l : list A) i x : l !! i = Some x -> l ≡ₚ x :: delete i l.
Proof. apply delete_Permutation. Qed.

(** Changing a channel that has no owner any more keeps the others open. *)
Lemma open_insert (r : registry) c x (l : list nat) : NoDup (c :: l) -> (forall d, d ∈ c :: l -> exists k, chans r !! d = Some (mkChan k None false)) ->
  forall d, d ∈ l -> exists k, <[c := x]> (chans r) !! d = Some (mkChan k None false).
Proof.
  intros [Hn _]%NoDup_cons Ho d Hd. assert (c <> d) by (by intros ->). rewrite lookup_insert_ne by done.
  apply Ho. by right.
Qed.

Lemma inv_weaken answers answers' r : (forall kv, kv ∈ answers -> kv ∈ answers') -> inv answers r -> inv answers' r.
Proof.
  intros Hsub [H1 H2 H3 H4 H5 H6 H7 H8]. split; try done; [|eauto..].
  intros c v Hin. destruct (H5 c v Hin) as (k & b & cl & ? & ?). eauto 6.
Qed.

Lemma inv_insert answers key r : inv answers r -> inv answers (InsertPendingApproval key r).
Proof.
  intros [H1 H2 H3 H4 H5 H6 H7 H8]. pose proof (owners_insert key r) as Hp.
  assert (chans r !! next r = None) as Hnew by (apply eq_None_not_Some; rewrite H3; lia).
  assert (next r ∉ owners r) as Hno by (intros Hin; destruct (H2 _ Hin); congruence).
  split; cbn [chans pending sends received detached drained next InsertPendingApproval].
  - rewrite Hp. by constructor.
  - intros c Hc. rewrite Hp in Hc. destruct (decide (c = next r)) as [->|Hne]; [exists key; by rewrite lookup_insert_eq|].
    apply elem_of_cons in Hc as [|Hc]; [done|]. rewrite lookup_insert_ne by done. by apply H2.
  - intros c. rewrite lookup_insert_is_Some, H3. split; [intros [<-|[_ ?]]; lia|].
    intros Hc. destruct (decide (next r = c)); [by left|right; split; [done|lia]].
  - intros k c [[<- <-]|[Hne Hk]]%lookup_insert_Some; [rewrite lookup_insert_eq; eauto|].
    destruct (H4 k c Hk) as (b & cl & Hc). exists b, cl. rewrite lookup_insert_ne by congruence. done.
  - intros c v Hin. destruct (H5 c v Hin) as (k & b & cl & Hc & Ha). exists k, b, cl.
    rewrite lookup_insert_ne by congruence. done.
  - intros c k v cl [[_ ?]|[_ Hc]]%lookup_insert_Some; [done|eauto].
  - done.
  - intros c k b cl [[<- [= <- <- <-]]|[_ Hc]]%lookup_insert_Some; [left; rewrite Hp; by constructor|].
    destruct (H8 c k b cl Hc) as [Ho|?]; [left; rewrite Hp; by right|by right].
Qed.

Lemma inv_take answers key v r : inv answers r -> inv ((key, v) :: answers) (take_waiter key v r).
Proof.
  intros Hi. assert (inv ((key, v) :: answers) r) as Hw by (eapply inv_weaken; [|done]; intros; by right).
  destruct (pending r !! key) as [c|] eqn:E; [|unfold take_waiter; by rewrite E].
  pose proof (owners_take key v r c E) as Hp. destruct Hw as [H1 H2 H3 H4 H5 H6 H7 H8].
  destruct (H4 key c E) as (b & cl & Hc). unfold take_waiter in *. rewrite E in *.
  split; cbn [chans pending sends received detached drained next]; try done.
  - by rewrite Hp.
  - intros d Hd. rewrite Hp in Hd. auto.
  - intros k d [_ Hk]%lookup_delete_Some. eauto.
  - intros d w [[= -> ->]|Hin]%elem_of_cons; [exists key, b, cl; split; [done|by left]|eauto].
  - intros d k b' cl' Hd. rewrite Hp. eauto.
Qed.

Lemma inv_remove answers key r : inv answers r -> inv answers (removePending key r).
Proof.
  intros Hi. destruct (pending r !! key) as [c|] eqn:E; [|unfold removePending; by rewrite E].
  pose proof (owners_remove key r c E) as Hp. destruct Hi as [H1 H2 H3 H4 H5 H6 H7 H8].
  unfold removePending in *. rewrite E in *.
  split; cbn [chans pending sends received detached drained next]; try done.
  - rewrite Hp in H1. by apply NoDup_cons in H1 as [_ ?].
  - intros d Hd. apply H2. rewrite Hp. by right.
  - intros k d [_ Hk]%lookup_delete_Some. eauto.
  - intros d k b' cl' Hd. rewrite elem_of_cons. destruct (H8 d k b' cl' Hd) as [Ho|?]; [|tauto].
    rewrite Hp in Ho. apply elem_of_cons in Ho as [->|?]; tauto.
Qed.

Lemma owners_send r i c v : sends r !! i = Some (c, v) ->
  owners r ≡ₚ c :: (pend_chans (pending r) ++ (delete i (sends r)).*1 ++ closes r).
Proof.
  intros E. unfold owners. rewrite (delete_middle _ _ _ E) at 1. cbn [fmap list_fmap fst app].
  by rewrite <- Permutation_middle.
Qed.

Lemma owners_close r i c : closes r !! i = Some c ->
  owners r ≡ₚ c :: (pend_chans (pending r) ++ (sends r).*1 ++ delete i (closes r)).
Proof.
  intros E. unfold owners. rewrite (delete_middle _ _ _ E) at 1. rewrite !(assoc (++)). by rewrite <- Permutation_middle.
Qed.

(** One owner uses the channel [c] up: it is sent to or closed. *)
Lemma inv_use answers r c k b cl sends' closes' :
  inv answers r -> chans r !! c = Some (mkChan k None false) ->
  owners r ≡ₚ c :: (pend_chans (pending r) ++ sends'.*1 ++ closes') -> (forall x, x ∈ sends' -> x ∈ sends r) ->
  (forall v, b = Some v -> (k, v) ∈ answers) -> is_Some b \/ cl = true ->
  inv answers (mkRegistry (next r) (<[c := mkChan k b cl]> (chans r)) (pending r) sends' closes' (detached r) (received r) (drained r)).
Proof.
  intros [H1 H2 H3 H4 H5 H6 H7 H8] Hc Hp Hsub Hb Hwoken.
  assert (forall d k' b' cl', chans r !! d = Some (mkChan k' b' cl') -> exists b'' cl'',
    <[c := mkChan k b cl]> (chans r) !! d = Some (mkChan k' b'' cl'')) as Hkey.
  { intros d k' b' cl' Hd. destruct (decide (c = d)) as [->|Hne]; [|rewrite lookup_insert_ne by done; eauto].
    rewrite lookup_insert_eq. replace k' with k by congruence. eauto. }
  split; cbn [chans pending sends received detached drained next closes]; unfold owners; cbn [pending sends closes].
  - rewrite Hp in H1. by apply NoDup_cons in H1 as [_ ?].
  - apply open_insert; [by rewrite <- Hp|]. intros d Hd. apply H2. by rewrite Hp.
  - intros d. rewrite lookup_insert_is_Some, <- H3. split; [intros [<-|[_ ?]]; [by rewrite Hc|done]|].
    intros Hd. destruct (decide (c = d)); auto.
  - intros k' d Hd. destruct (H4 k' d Hd) as (b' & cl' & Hd'). by apply Hkey in Hd'.
  - intros d v Hin%Hsub. destruct (H5 d v Hin) as (k' & b' & cl' & Hd & Ha). apply Hkey in Hd as (? & ? & ?). eauto 6.
  - intros d k' v cl' [[<- [= <- -> <-]]|[_ Hd]]%lookup_insert_Some; [by apply Hb|eauto].
  - done.
  - intros d k' b' cl' [[<- [= <- <- <-]]|[Hne Hd]]%lookup_insert_Some; [destruct Hwoken; tauto|].
    destruct (H8 d k' b' cl' Hd) as [Ho|?]; [left|by right]. rewrite Hp in Ho. by apply elem_of_cons in Ho as [|].
Qed.

Lemma step_send answers i r : inv answers r -> exists r', do_send i r = Ok r' /\ inv answers r'.
Proof.
  intros Hi. unfold do_send. destruct (sends r !! i) as [[c v]|] eqn:E; [|by exists r].
  pose proof (owners_send r i c v E) as Hp. destruct (inv_open _ _ Hi c) as [k Hc]; [rewrite Hp; by left|].
  unfold send_chan. rewrite Hc. cbn. eexists. split; [reflexivity|]. apply inv_use; try done.
  - intros x Hx. rewrite (delete_middle _ _ _ E). by right.
  - intros w [= <-]. apply list_elem_of_lookup_2 in E. destruct (inv_sends _ _ Hi c v E) as (k' & b & cl & Hc' & Ha). congruence.
  - left. eauto.
Qed.

Lemma step_close answers i r : inv answers r -> exists r', do_close i r = Ok r' /\ inv answers r'.
Proof.
  intros Hi. unfold do_close. destruct (closes r !! i) as [c|] eqn:E; [|by exists r].
  pose proof (owners_close r i c E) as Hp. destruct (inv_open _ _ Hi c) as [k Hc]; [rewrite Hp; by left|].
  unfold close_chan. rewrite Hc. cbn. eexists. split; [reflexivity|]. by apply inv_use; try done; right.
Qed.

Lemma close_all_spec l cs : NoDup l -> (forall c, c ∈ l -> exists k, cs !! c = Some (mkChan k None false)) ->
  exists cs', close_all l cs = Ok cs' /\ (forall c, c ∉ l -> cs' !! c = cs !! c)
    /\ forall c k, c ∈ l -> cs !! c = Some (mkChan k None false) -> cs' !! c = Some (mkChan k None true).
Proof.
  intros Hl. revert cs. induction Hl as [|c l Hn _ IH]; intros cs Ho; cbn [close_all].
  { exists cs. split_and!; [done|done|]. by intros c k ?%elem_of_nil. }
  destruct (Ho c) as [k Hc]; [by left|]. unfold close_chan. rewrite Hc. cbn [mbind result_bind].
  destruct (IH (<[c := mkChan k None true]> cs)) as (cs' & -> & H1 & H2).
  { intros d Hd. rewrite lookup_insert_ne by (by intros ->). apply Ho. by right. }
  exists cs'. split_and!; [done| |].
  - intros d [Hne Hd]%not_elem_of_cons. rewrite H1 by done. by rewrite lookup_insert_ne.
  - intros d kd [->|Hd]%elem_of_cons Hk.
    + rewrite H1 by done. rewrite lookup_insert_eq. congruence.
    + apply H2; [done|]. by rewrite lookup_insert_ne by (by intros ->).
Qed.

Lemma step_clear answers r : inv answers r -> exists r', ClearPendingWaiters r = Ok r' /\ inv answers r'.
Proof.
  intros [H1 H2 H3 H4 H5 H6 H7 H8]. unfold ClearPendingWaiters. unfold owners in *.
  pose proof H1 as (Hd1 & Hdis & Hd2)%NoDup_app.
  destruct (close_all_spec (pend_chans (pending r)) (chans r)) as (cs & -> & Hout & Hin); [done| |].
  { intros c Hc. apply H2, elem_of_app. by left. }
  cbn [mbind result_bind]. eexists. split; [reflexivity|].
  assert (forall c, (exists k, c ∈ pend_chans (pending r) /\ chans r !! c = Some (mkChan k None false)
      /\ cs !! c = Some (mkChan k None true)) \/ (c ∉ pend_chans (pending r) /\ cs !! c = chans r !! c)) as Hcs.
  { intros c. destruct (decide (c ∈ pend_chans (pending r))) as [Hc|Hc]; [left|right; auto].
    destruct (H2 c) as [k Hk]; [apply elem_of_app; by left|]. exists k. auto. }
  split; cbn [chans pending sends received detached drained next closes]; unfold owners; cbn [pending sends closes];
    change (pend_chans ∅) with (@nil nat); cbn [app]; try done.
  - intros c Hc. rewrite Hout; [|intros Hx; by apply (Hdis c)]. apply H2, elem_of_app. by right.
  - intros c. rewrite <- H3. destruct (Hcs c) as [(k & _ & -> & ->)|[_ ->]]; [by split; eauto|done].
  - intros c v Hv. destruct (H5 c v Hv) as (k & b & cl & Hc & Ha). destruct (Hcs c) as [(k' & _ & Hc' & Hn)|[_ Hn]].
    + exists k, None, true. by simplify_eq.
    + exists k, b, cl. by rewrite Hn.
  - intros c k v cl Hc. destruct (Hcs c) as [(k' & _ & _ & Hn)|[_ Hn]]; [congruence|]. rewrite Hn in Hc. eauto.
  - intros c k b cl Hc. destruct (Hcs c) as [(k' & _ & _ & Hn)|[Hnp Hn]]; [simplify_eq; auto|].
    rewrite Hn in Hc. destruct (H8 c k b cl Hc) as [[?|?]%elem_of_app|?]; [done|by left|by right].
Qed.

Lemma inv_receive answers c r : inv answers r -> inv answers (receive c r).
Proof.
  intros Hi. unfold receive. destruct (chans r !! c) as [[k [v|] cl]|] eqn:E; try done.
  pose proof (inv_buffers _ _ Hi c k v cl E) as Hv. destruct Hi as [H1 H2 H3 H4 H5 H6 H7 H8].
  split; cbn [chans pending sends received detached drained next]; try done.
  - intros d Hd. destruct (H2 d Hd) as [k' Hk']. exists k'. rewrite lookup_insert_ne by congruence. done.
  - intros d. rewrite lookup_insert_is_Some, <- H3. split; [intros [<-|[_ ?]]; [by rewrite E|done]|].
    intros Hd. destruct (decide (c = d)); auto.
  - intros k' d Hd. destruct (H4 k' d Hd) as (b & cl' & Hd'). destruct (decide (c = d)) as [->|Hne].
    + exists None, cl. rewrite lookup_insert_eq. congruence.
    + exists b, cl'. by rewrite lookup_insert_ne.
  - intros d w Hw. destruct (H5 d w Hw) as (k' & b & cl' & Hd & Ha). destruct (decide (c = d)) as [->|Hne].
    + exists k', None, cl. rewrite lookup_insert_eq. split; [congruence|done].
    + exists k', b, cl'. by rewrite lookup_insert_ne.
  - intros d k' w cl' [[_ ?]|[_ Hd]]%lookup_insert_Some; [done|eauto].
  - intros kv [->|?]%elem_of_cons; [done|auto].
  - intros d k' b cl' [[<- [= <- <- <-]]|[_ Hd]]%lookup_insert_Some; rewrite elem_of_cons; [auto 8|].
    destruct (H8 d k' b cl' Hd) as [?|[?|[?|[?|?]]]]; auto 8.
Qed.

(** The answers given in a run. *)
Definition answers_of (ops : list op) : list (gostring * V) :=
  omap (fun o => match o with op_resolve k v => Some (k, v) | _ => None end) ops.

Lemma step_safe answers o r : inv answers r -> exists r', step o r = Ok r' /\ inv (answers_of [o] ++ answers) r'.
Proof.
  intros Hi. destruct o as [key|key v|key| |i|i|c]; cbn [step answers_of omap list_omap app].
  - eexists. split; [done|]. by apply inv_insert.
  - eexists. split; [done|]. by apply inv_take.
  - eexists. split; [done|]. by apply inv_remove.
  - by apply step_clear.
  - by apply step_send.
  - by apply step_close.
  - eexists. split; [done|]. by apply inv_receive.
Qed.

Lemma run_safe ops answers r : inv answers r -> exists r', run ops r = Ok r' /\ inv (rev (answers_of ops) ++ answers) r'.
Proof.
  revert answers r. induction ops as [|o ops IH]; intros answers r Hi; cbn [run]; [by exists r|].
  destruct (step_safe answers o r Hi) as (r1 & -> & Hi1). cbn [mbind result_bind].
  destruct (IH _ _ Hi1) as (r2 & -> & Hi2). exists r2. split; [done|].
  eapply inv_weaken; [|exact Hi2]. intros kv. rewrite !elem_of_app, !(list_elem_of_In (rev _)), <- !in_rev, <- !list_elem_of_In.
  unfold answers_of. cbn [omap list_omap]. destruct o; cbn [app]; rewrite ?elem_of_cons, ?elem_of_nil; tauto.
Qed.

(** C6: the registries of pending approvals are safe under every interleaving
    of requests, answers, time-outs, interrupts and the sends and closes that
    follow them: no step panics or blocks; a waiter only ever receives an answer
    that was given for the key it registered; and a channel that is no longer in
    the registry or in the hands of a goroutine has an answer, is closed, was
    read, or belongs to a waiter that gave up. *)
Theorem waiters_safe ops : exists r, run ops newWaiterRegistry = Ok r
  /\ (forall k v, (k, v) ∈ received r -> op_resolve k v ∈ ops)
  /\ forall c k b cl, chans r !! c = Some (mkChan k b cl) ->
       c ∈ owners r \/ is_Some b \/ cl = true \/ c ∈ detached r \/ c ∈ drained r.
Proof.
  destruct (run_safe ops [] newWaiterRegistry inv_init) as (r & Hr & Hi). exists r. split_and!; [done| |by apply Hi].
  intros k v Hkv. apply (inv_received _ _ Hi) in Hkv. rewrite app_nil_r, list_elem_of_In, <- in_rev, <- list_elem_of_In in Hkv.
  unfold answers_of in Hkv. apply list_elem_of_omap in Hkv as ([] & Hin & [= -> ->]). done.
Qed.

End Registry.

(** ** approvals.go: awaiting a decision *)

(** The case that the [select] of [awaitReviewDecision] takes. *)
Inductive select_case := case_received (d : ReviewDecision) | case_closed | case_cancelled | case_timer.

(** The decision, and the decision that [NotifyApproval] then delivers. *)
Definition awaitReviewDecision (c : select_case) : ReviewDecision * option ReviewDecision :=
  match c with
  | case_received d => (d, None)
  | case_closed => (decision ReviewDecisionAbort, None)
  | case_cancelled => (decision ReviewDecisionAbort, Some (decision ReviewDecisionAbort))
  | case_timer => (decision ReviewDecisionTimedOut, Some (decision ReviewDecisionTimedOut))
  end.

(** What a waiter that gives up delivers never approves anything. *)
Lemma await_approves c d n : awaitReviewDecision c = (d, n) ->
  (reviewDecisionApproves d = true -> c = case_received d)
  /\ forall d', n = Some d' -> reviewDecisionApproves d' = false.
Proof. by destruct c; intros [= <- <-]; (split; [|intros ? [= <-]]). Qed.

(** The time-out is reported as such, not as an abort. *)
Example timer_times_out : (awaitReviewDecision case_timer).1 = decision ReviewDecisionTimedOut.
Proof. reflexivity. Qed.

(** A waiter that gives up after it was replaced aborts the newer one of the
    same key. *)
Example late_cancel_hits_newer :
  let key := str "call-1" in
  (fun r => received r) <$> run [op_insert key; op_insert key; op_close 0;
     op_resolve key (decision ReviewDecisionAbort); op_send 0; op_receive 1] newWaiterRegistry
  = Ok [(key, decision ReviewDecisionAbort)].
Proof. vm_compute. reflexivity. Qed.

End ApprovalWaiters.
