(* ===== verification/ExecProcess.v ===== *)
(** * internal/unifiedexec: processes, errors and limits

    [constants.go], [state.go], [errors.go], [request.go] and the state of a
    process in [process.go] (with the exit state of internal/pty): the bounds on
    waiting times, the environment overlay, the exit and failure state, writing
    to standard input, and the rule for sandbox denials. *)

From stdpp Require Import base list gmap strings.
From S2P Require Import Prelude GoStrings Truncation SandboxProfile.

Module ExecProcess.
Import SandboxProfile.
#[local] Open Scope Z_scope.

(** ** constants.go *)

Definition MinYieldTimeMS : Z := 250.
Definition MinEmptyYieldTimeMS : Z := 5000.
Definition MaxYieldTimeMS : Z := 30000.
Definition DefaultMaxBackgroundTerminalTimeoutMS : Z := 300000.
Definition DefaultMaxOutputTokens : Z := 10000.
Definition UnifiedExecOutputMaxBytes : Z := 1024 * 1024.
Definition UnifiedExecOutputMaxTokens : Z := Z.quot UnifiedExecOutputMaxBytes 4.
Definition MaxUnifiedExecProcesses : nat := 64.

Definition unifiedExecEnv : list (gostring * gostring) :=
  [(str "NO_COLOR", str "1"); (str "TERM", str "dumb"); (str "LANG", str "C.UTF-8"); (str "LC_CTYPE", str "C.UTF-8");
   (str "LC_ALL", str "C.UTF-8"); (str "COLORTERM", str ""); (str "PAGER", str "cat"); (str "GIT_PAGER", str "cat");
   (str "GH_PAGER", str "cat"); (str "CODEXGO_CI", str "1")].

(** The first loop copies the map, the second applies the overlay in order. *)
Definition applyUnifiedExecEnv (env : gmap gostring gostring) : gmap gostring gostring :=
  fold_left (fun out kv => <[kv.1 := kv.2]> out) unifiedExecEnv env.

Definition clampYieldTime (yieldTimeMS : Z) : Z :=
  if yieldTimeMS <? MinYieldTimeMS then MinYieldTimeMS
  else if MaxYieldTimeMS <? yieldTimeMS then MaxYieldTimeMS
  else yieldTimeMS.

Definition resolveMaxTokens (maxTokens : option Z) : Z := default DefaultMaxOutputTokens maxTokens.

(** ** errors.go *)

Inductive ErrorKind :=
| ErrCreateProcess
| ErrProcessFailed
| ErrUnknownProcessID
| ErrWriteToStdin
| ErrStdinClosed
| ErrMissingCommandLine
| ErrSandboxDenied.
#[export] Instance ErrorKind_eq_dec : EqDecision ErrorKind.
Proof. solve_decision. Defined.

Record DeniedOutput := mkDeniedOutput { DeniedExitCode : Z; AggregatedText : gostring }.

Record Error := mkError {
  Kind : ErrorKind;
  Message : gostring;
  ErrorProcessID : Z;
  ErrorOutput : option DeniedOutput;
}.

Definition Error_Error (e : Error) : gostring :=
  match Kind e with
  | ErrCreateProcess => "Failed to create unified exec process: " ++ Message e
  | ErrProcessFailed => "Unified exec process failed: " ++ Message e
  | ErrUnknownProcessID => "Unknown process id " ++ format_int (ErrorProcessID e)
  | ErrWriteToStdin => str "failed to write to stdin"
  | ErrStdinClosed => str "stdin is closed for this session; rerun exec_command with tty=true to keep stdin open"
  | ErrMissingCommandLine => str "missing command line for unified exec request"
  | ErrSandboxDenied => "Command denied by sandbox: " ++ Message e
  end.

Definition newCreateProcessError (message : gostring) : Error := mkError ErrCreateProcess message 0 None.
Definition newProcessFailedError (message : gostring) : Error := mkError ErrProcessFailed message 0 None.
Definition newUnknownProcessIDError (processID : Z) : Error := mkError ErrUnknownProcessID [] processID None.
Definition newWriteToStdinError : Error := mkError ErrWriteToStdin [] 0 None.
Definition newStdinClosedError : Error := mkError ErrStdinClosed [] 0 None.
Definition newMissingCommandLineError : Error := mkError ErrMissingCommandLine [] 0 None.
Definition newSandboxDeniedError (message : gostring) (output : DeniedOutput) : Error :=
  mkError ErrSandboxDenied message 0 (Some output).

(** ** state.go *)

Record processState := mkProcessState {
  hasExited : bool;
  exitCode : option Z;
  failureMessage : option gostring;
}.

Definition exited (s : processState) (code : option Z) : processState := mkProcessState true code (failureMessage s).
Definition failed (s : processState) (message : gostring) : processState :=
  mkProcessState true (exitCode s) (Some message).

(** ** process.go *)

(** The exit state that internal/pty keeps; [setExit] publishes the code before
    the flag. *)
Record pty_exit := mkPtyExit { ptyCode : option Z; ptyExited : bool }.

(** A process: a local one has the exit state of its terminal, a remote one has
    none.  [terminated]: [Terminate] has been called. *)
Record Process := mkProcess {
  sandboxType : SandboxType;
  local : option pty_exit;
  state : processState;
  terminated : bool;
}.

Definition newProcess (sandbox : SandboxType) (isLocal : bool) : Process :=
  mkProcess sandbox (if isLocal then Some (mkPtyExit None false) else None) (mkProcessState false None None) false.

Definition HasExited (p : Process) : bool :=
  if hasExited (state p) then true
  else match local p with Some l => ptyExited l | None => false end.

Definition ExitCode (p : Process) : option Z :=
  match exitCode (state p) with
  | Some code => Some code
  | None => match local p with Some l => ptyCode l | None => None end
  end.

Definition FailureMessage (p : Process) : option gostring := failureMessage (state p).

Definition set_state (s : processState) (p : Process) : Process := mkProcess (sandboxType p) (local p) s (terminated p).

Definition Terminate (p : Process) : Process := mkProcess (sandboxType p) (local p) (state p) true.
Definition FailAndTerminate (message : gostring) (p : Process) : Process :=
  Terminate (match failureMessage (state p) with None => set_state (failed (state p) message) p | Some _ => p end).
Definition markExited (code : option Z) (p : Process) : Process := set_state (exited (state p) code) p.
Definition snapshotExitCode (p : Process) : option Z := exitCode (state p).
Definition recordFailure (message : gostring) (p : Process) : Process := set_state (failed (state p) message) p.

(** What a write meets.  Local: the writer takes the bytes or not (no writer, a
    cancelled call, a cancelled process).  Remote: the answer of the server. *)
Inductive write_answer :=
| local_accepted
| local_refused
| remote_failed (message : gostring)
| WriteStatusAccepted
| WriteStatusUnknownProcess
| WriteStatusStdinClosed
| WriteStatusStarting.

Definition Write (answer : write_answer) (p : Process) : Process * option Error :=
  match answer with
  | local_accepted | WriteStatusAccepted => (p, None)
  | local_refused => (p, Some newWriteToStdinError)
  | remote_failed message => (p, Some (newProcessFailedError message))
  | WriteStatusUnknownProcess | WriteStatusStdinClosed => (markExited (snapshotExitCode p) p, Some newWriteToStdinError)
  | WriteStatusStarting => (p, Some newWriteToStdinError)
  end.

Definition checkForSandboxDenialWithText (text : gostring) (p : Process) : option Error :=
  if bool_decide (sandboxType p = SandboxTypeNone) || negb (HasExited p) then None
  else
    let code := default (-1) (ExitCode p) in
    if code =? 0 then None
    else
      let snippet := Truncation.FormattedTruncateText text (Truncation.TokensPolicy UnifiedExecOutputMaxTokens) in
      let message := if decide (snippet = []) then "Process exited with code " ++ format_int code else snippet in
      Some (newSandboxDeniedError message (mkDeniedOutput code text)).

(** ** What the rest of the program can do to a process *)

Inductive process_event :=
| pty_code (code : Z)
| pty_gone
| task_exited (code : option Z)
| task_failed (message : gostring).

Definition apply_event (ev : process_event) (p : Process) : Process :=
  match ev with
  | pty_code code =>
      match local p with
      | Some l => mkProcess (sandboxType p) (Some (mkPtyExit (Some code) (ptyExited l))) (state p) (terminated p)
      | None => p
      end
  | pty_gone =>
      match local p with
      | Some l => mkProcess (sandboxType p) (Some (mkPtyExit (ptyCode l) true)) (state p) (terminated p)
      | None => p
      end
  | task_exited code => markExited code p
  | task_failed message => recordFailure message p
  end.

(** A process is over when it has exited or its exit code is known. *)
Definition over (p : Process) : bool := HasExited p || bool_decide (is_Some (ExitCode p)).

(** ** Lemmas *)

Lemma clampYieldTime_bounds t : MinYieldTimeMS <= clampYieldTime t <= MaxYieldTimeMS.
Proof. unfold clampYieldTime, MinYieldTimeMS, MaxYieldTimeMS. repeat case_match; breflect; lia. Qed.

Lemma apply_event_exited ev p : HasExited p = true -> HasExited (apply_event ev p) = true.
Proof.
  unfold HasExited. destruct ev; cbn; try done; destruct (local p) as [l|] eqn:E; cbn; rewrite ?E; cbn;
    destruct (hasExited (state p)); done.
Qed.

Lemma apply_event_over ev p : over p = true -> over (apply_event ev p) = true.
Proof.
  unfold over. rewrite !orb_true_iff. intros [H|H]; [left; by apply apply_event_exited|].
  destruct ev as [code| |code|m]; [right| |by left|by left].
  - rewrite bool_decide_eq_true in *. unfold ExitCode in *. cbn. destruct (local p) as [l|] eqn:E; cbn; rewrite ?E; [|done].
    destruct (exitCode (state p)); by eexists.
  - right. rewrite bool_decide_eq_true in *. unfold ExitCode in *. cbn. destruct (local p) as [l|] eqn:E; cbn; by rewrite ?E.
Qed.

Lemma apply_event_terminated ev p : terminated (apply_event ev p) = terminated p.
Proof. destruct ev; cbn; try done; by destruct (local p). Qed.

Lemma Terminate_exited p : HasExited (Terminate p) = HasExited p.
Proof. done. Qed.
Lemma Terminate_over p : over (Terminate p) = over p.
Proof. done. Qed.

Lemma Write_exited answer p : HasExited p = true -> HasExited (Write answer p).1 = true.
Proof. unfold HasExited. by destruct answer; cbn; destruct (hasExited (state p)). Qed.
Lemma Write_over answer p : over p = true -> over (Write answer p).1 = true.
Proof. unfold over. by destruct answer. Qed.
Lemma Write_terminated answer p : terminated (Write answer p).1 = terminated p.
Proof. by destruct answer. Qed.

(** A failure marks the process as exited. *)
Definition sound (p : Process) : Prop := forall m, FailureMessage p = Some m -> HasExited p = true.

Lemma sound_event ev p : sound p -> sound (apply_event ev p).
Proof.
  unfold sound, FailureMessage, HasExited. destruct ev; cbn; try done; destruct (local p) as [l|] eqn:E; cbn; rewrite ?E; cbn; try done;
    intros H m Hm; specialize (H m Hm); destruct (hasExited (state p)); done.
Qed.
Lemma sound_events evs p : sound p -> sound (fold_left (fun p ev => apply_event ev p) evs p).
Proof. revert p. induction evs as [|ev evs IH]; intros p Hp; cbn; [done|]. by apply IH, sound_event. Qed.
Lemma sound_new sandbox isLocal : sound (newProcess sandbox isLocal).
Proof. done. Qed.
Lemma sound_write answer p : sound p -> sound (Write answer p).1.
Proof. unfold sound, FailureMessage, HasExited. by destruct answer. Qed.
Lemma sound_terminate p : sound p -> sound (Terminate p).
Proof. done. Qed.

Lemma fold_insert_lookup (l : list (gostring * gostring)) (m : gmap gostring gostring) k : NoDup l.*1 ->
  fold_left (fun out kv => <[kv.1 := kv.2]> out) l m !! k
  = match (list_to_map l : gmap gostring gostring) !! k with Some v => Some v | None => m !! k end.
Proof.
  revert m. induction l as [|[a v] l IH]; intros m Hnd; cbn [fold_left]; [done|].
  apply NoDup_cons in Hnd as [Ha Hnd]. rewrite IH by done. rewrite list_to_map_cons. cbn [fst snd].
  destruct (decide (a = k)) as [->|Hne].
  - rewrite (not_elem_of_list_to_map_1 l k) by done. by rewrite !lookup_insert_eq.
  - by rewrite !lookup_insert_ne by done.
Qed.

(** The overlay wins over the given environment, every other variable stays. *)
Lemma applyUnifiedExecEnv_lookup env k :
  applyUnifiedExecEnv env !! k = match (list_to_map unifiedExecEnv : gmap gostring gostring) !! k with
                                 | Some v => Some v | None => env !! k end.
Proof.
  apply fold_insert_lookup. refine (bool_decide_eq_true_1 _ _). vm_compute. reflexivity.
Qed.

End ExecProcess.
