(* ===== verification/ExecStore.v ===== *)
(** * internal/unifiedexec: the store of live sessions

    The data of [manager.go]: the store of sessions with its reserved ids, and
    the choice of the session to evict when the store is full.  Ties between
    equally old sessions depend on the order in which the map is visited, a
    parameter. *)

From stdpp Require Import base list gmap strings sorting.
From S2P Require Import Prelude GoStrings GoOrder ExecProcess.

Module ExecStore.
Import ExecProcess.
#[local] Open Scope Z_scope.

(** ** Sessions *)

(** [process] is the identity of a process, [lastUsed] a reading of the clock. *)
Record processEntry := mkProcessEntry {
  process : nat;
  callID : gostring;
  processID : Z;
  hookCommand : gostring;
  tty : bool;
  lastUsed : Z;
}.

Record processStore := mkProcessStore { processes : gmap Z processEntry; reserved : gset Z }.

Definition emptyStore : processStore := mkProcessStore ∅ ∅.

Definition remove (id : Z) (s : processStore) : option processEntry * processStore :=
  (processes s !! id, mkProcessStore (delete id (processes s)) (reserved s ∖ {[id]})).

Definition touch (id : Z) (now : Z) (s : processStore) : processStore :=
  match processes s !! id with
  | Some e => mkProcessStore (<[id := mkProcessEntry (process e) (callID e) (processID e) (hookCommand e) (tty e) now]> (processes s))
                (reserved s)
  | None => s
  end.

(** ** The choice of what to evict *)

Record pruneMeta := mkPruneMeta { id : Z; metaLastUsed : Z; metaExited : bool }.

Definition more_recent (a b : pruneMeta) : bool := metaLastUsed b <? metaLastUsed a.
Definition less_recent (a b : pruneMeta) : bool := metaLastUsed a <? metaLastUsed b.

Definition protectedIDs (byRecency : list pruneMeta) : gset Z := list_to_set (map id (take 8 byRecency)).

Definition processIDToPruneFromMeta (meta : list pruneMeta) : option Z :=
  let protected := protectedIDs (sort_stable more_recent meta) in
  let lru := sort_stable less_recent meta in
  match find (fun m => negb (bool_decide (id m ∈ protected)) && metaExited m) lru with
  | Some m => Some (id m)
  | None => id <$> find (fun m => negb (bool_decide (id m ∈ protected))) lru
  end.

Section Prune.
(** The order of a range over the sessions, and the processes. *)
Context (order : gmap Z processEntry -> list (Z * processEntry)) (exited : nat -> bool).

Definition meta_of (kv : Z * processEntry) : pruneMeta := mkPruneMeta kv.1 (lastUsed kv.2) (exited (process kv.2)).

Definition pruneProcessesIfNeeded (s : processStore) : option processEntry * processStore :=
  if (size (processes s) <? MaxUnifiedExecProcesses)%nat then (None, s)
  else match processIDToPruneFromMeta (map meta_of (order (processes s))) with
       | Some id => remove id s
       | None => (None, s)
       end.
End Prune.

Example prune_prefers_exited :
  let recent := map (fun i => mkPruneMeta i i false) (seqZ 5 8) in
  processIDToPruneFromMeta (mkPruneMeta 1 1 false :: mkPruneMeta 2 2 true :: recent) = Some 2
  /\ processIDToPruneFromMeta (mkPruneMeta 1 1 false :: mkPruneMeta 2 2 false :: recent) = Some 1
  /\ processIDToPruneFromMeta recent = None.
Proof. vm_compute. done. Qed.

(** ** What is evicted *)

Lemma less_recent_asym a b : less_recent a b = true -> less_recent b a = false.
Proof. unfold less_recent. rewrite Z.ltb_lt, Z.ltb_ge. lia. Qed.
Lemma less_recent_trans a b c : less_recent b a = false -> less_recent c b = false -> less_recent c a = false.
Proof. unfold less_recent. rewrite !Z.ltb_ge. lia. Qed.
Lemma more_recent_asym a b : more_recent a b = true -> more_recent b a = false.
Proof. unfold more_recent. rewrite Z.ltb_lt, Z.ltb_ge. lia. Qed.
Lemma more_recent_trans a b c : more_recent b a = false -> more_recent c b = false -> more_recent c a = false.
Proof. unfold more_recent. rewrite !Z.ltb_ge. lia. Qed.

(** The first hit of a search in a sorted list is the least. *)
Lemma find_sorted (P : pruneMeta -> bool) l m : StronglySorted (not_after less_recent) l -> find P l = Some m ->
  m ∈ l /\ P m = true /\ forall r, r ∈ l -> P r = true -> metaLastUsed m <= metaLastUsed r.
Proof.
  induction 1 as [|x l Hs IH Hx]; cbn; [done|]. destruct (P x) eqn:E.
  - intros [= <-]. split_and!; [by constructor|done|]. intros r [->|Hr]%elem_of_cons _; [done|].
    rewrite Forall_forall in Hx. specialize (Hx r Hr). unfold not_after, less_recent in Hx. by apply Z.ltb_ge in Hx.
  - intros (Hm & HP & Hle)%IH. split_and!; [by constructor|done|].
    intros r [->|Hr]%elem_of_cons Hr'; [congruence|by apply Hle].
Qed.

Lemma find_none_all (P : pruneMeta -> bool) l : find P l = None -> forall r, r ∈ l -> P r = false.
Proof. intros Hf r Hr. eapply find_none; [exact Hf|]. by apply list_elem_of_In. Qed.

(** The metadata splits into the eight most recent ones and the rest. *)
Lemma protected_split (meta : list pruneMeta) : NoDup (map id meta) ->
  exists recent rest, meta ≡ₚ recent ++ rest /\ length recent = Nat.min 8 (length meta)
    /\ (forall p r, p ∈ recent -> r ∈ rest -> metaLastUsed r <= metaLastUsed p)
    /\ (forall m, m ∈ meta -> id m ∈ protectedIDs (sort_stable more_recent meta) <-> m ∈ recent)
    /\ (forall m, m ∈ meta -> m ∉ recent <-> m ∈ rest).
Proof.
  intros Hnd. pose proof (sort_stable_perm more_recent meta) as Hp.
  pose proof (sort_stable_sorted more_recent more_recent_asym more_recent_trans meta) as Hs.
  set (l := sort_stable more_recent meta) in *. exists (take 8 l), (drop 8 l).
  assert (NoDup (map id l)) as Hndl by (by rewrite Hp).
  assert (NoDup l) as Hl by (by apply (NoDup_fmap_1 id)).
  rewrite <- (take_drop 8 l) in Hl. apply NoDup_app in Hl as (_ & Hdis & _).
  split_and!.
  - by rewrite take_drop.
  - rewrite length_take. by rewrite Hp.
  - intros p r Hpi Hr. rewrite <- (take_drop 8 l) in Hs. apply StronglySorted_app in Hs as (Hle & _ & _).
    specialize (Hle p r Hpi Hr). unfold not_after, more_recent in Hle. by apply Z.ltb_ge in Hle.
  - intros m Hm. unfold protectedIDs. rewrite elem_of_list_to_set. split.
    + intros (m' & Hid & Hm')%list_elem_of_fmap. assert (m' = m) as <-; [|done].
      assert (m' ∈ meta) as Hin by (rewrite <- Hp, <- (take_drop 8 l); apply elem_of_app; by left).
      apply list_elem_of_lookup in Hin as [i Hi]. apply list_elem_of_lookup in Hm as [j Hj].
      assert (i = j) as ->; [|congruence].
      apply (NoDup_lookup (map id meta) i j (id m)); [done| |]; rewrite list_lookup_fmap; [rewrite Hi|rewrite Hj]; cbn; congruence.
    + intros Hm'. apply list_elem_of_fmap. by exists m.
  - intros m Hm. assert (m ∈ take 8 l ++ drop 8 l) as Hin by (by rewrite take_drop, Hp).
    apply elem_of_app in Hin as [Hin|Hin]; split; try done; [by intros ?%Hdis|]. intros _ Hc. by apply (Hdis m).
Qed.

(** What [processIDToPruneFromMeta] answers. *)
Lemma prune_choice (meta : list pruneMeta) : NoDup (map id meta) ->
  match processIDToPruneFromMeta meta with
  | None => (length meta <= 8)%nat
  | Some victim => exists recent rest m, meta ≡ₚ recent ++ rest /\ length recent = 8%nat /\ m ∈ rest /\ id m = victim
      /\ (forall p r, p ∈ recent -> r ∈ rest -> metaLastUsed r <= metaLastUsed p)
      /\ (forall r, r ∈ rest -> metaExited r = true -> metaExited m = true)
      /\ (forall r, r ∈ rest -> metaExited r = metaExited m -> metaLastUsed m <= metaLastUsed r)
  end.
Proof.
  intros Hnd. destruct (protected_split meta Hnd) as (recent & rest & Hperm & Hlen & Hrec & Hprot & Hrest).
  unfold processIDToPruneFromMeta. set (prot := protectedIDs _) in *. set (lru := sort_stable less_recent meta).
  pose proof (sort_stable_sorted less_recent less_recent_asym less_recent_trans meta : StronglySorted _ lru) as Hs.
  pose proof (sort_stable_perm less_recent meta : lru ≡ₚ meta) as Hlru.
  assert (forall m, m ∈ lru -> negb (bool_decide (id m ∈ prot)) = true <-> m ∈ rest) as Hfree.
  { intros m Hm. rewrite Hlru in Hm. rewrite negb_true_iff, bool_decide_eq_false, Hprot by done. by apply Hrest. }
  assert (forall m, m ∈ rest -> m ∈ lru) as Hin by (intros m Hm; rewrite Hlru, Hperm; apply elem_of_app; by right).
  assert (rest <> [] -> length recent = 8%nat) as H8.
  { intros Hne. apply Permutation_length in Hperm. rewrite length_app in Hperm. destruct rest; [done|]. cbn in Hperm. lia. }
  destruct (find (fun m => negb (bool_decide (id m ∈ prot)) && metaExited m) lru) as [m|] eqn:F1.
  - apply find_sorted in F1 as (Hm & [Hf He]%andb_true_iff & Hle); [|done]. apply Hfree in Hf; [|done].
    exists recent, rest, m. split_and!; try done; [apply H8; intros ->; by apply elem_of_nil in Hf|].
    intros r Hr Hx. apply Hle; [by apply Hin|]. apply andb_true_iff. split; [apply Hfree; auto|congruence].
  - pose proof (find_none_all _ _ F1) as Hno.
    destruct (find (fun m => negb (bool_decide (id m ∈ prot))) lru) as [m|] eqn:F2; cbn.
    + apply find_sorted in F2 as (Hm & Hf & Hle); [|done]. apply Hfree in Hf as Hr; [|done].
      assert (forall r, r ∈ rest -> metaExited r = false) as Hx.
      { intros r Hrr. specialize (Hno r (Hin r Hrr)). cbv beta in Hno. rewrite (proj2 (Hfree r (Hin r Hrr)) Hrr) in Hno. done. }
      exists recent, rest, m. split_and!; try done; [apply H8; intros ->; by apply elem_of_nil in Hr| |].
      * intros r Hrr. by rewrite (Hx r).
      * intros r Hrr _. apply Hle; [by apply Hin|]. apply Hfree; auto.
    + pose proof (find_none_all _ _ F2) as Hno2. assert (rest = []) as ->.
      { destruct rest as [|r rest]; [done|]. assert (r ∈ r :: rest) as Hr by constructor.
        specialize (Hno2 r (Hin r Hr)). cbv beta in Hno2. rewrite (proj2 (Hfree r (Hin r Hr)) Hr) in Hno2. done. }
      rewrite app_nil_r in Hperm. apply Permutation_length in Hperm. lia.
Qed.

Section Policy.
Context (order : gmap Z processEntry -> list (Z * processEntry)) (exited : nat -> bool).
Context (order_perm : forall m, order m ≡ₚ map_to_list m).

Lemma elem_of_meta (m : gmap Z processEntry) x :
  x ∈ map (meta_of exited) (order m) <-> exists k e, m !! k = Some e /\ x = meta_of exited (k, e).
Proof.
  rewrite list_elem_of_fmap. split.
  - intros ([k e] & -> & Hin). rewrite order_perm in Hin. apply elem_of_map_to_list in Hin. by exists k, e.
  - intros (k & e & Hk & ->). exists (k, e). split; [done|]. rewrite order_perm. by apply elem_of_map_to_list.
Qed.

Lemma meta_ids_NoDup (m : gmap Z processEntry) : NoDup (map id (map (meta_of exited) (order m))).
Proof. rewrite map_map. cbn. rewrite (Permutation_map fst (order_perm m)). apply NoDup_fst_map_to_list. Qed.

(** C31: eviction spares what is in use. Below the cap nothing is evicted. At
    the cap one session goes, and eight others are at least as recently used as
    every session beside them: the victim is not among the eight, it has exited if
    any session beside them has, and it is the least recently used of its kind. *)
Theorem prune_policy s :
  match pruneProcessesIfNeeded order exited s with
  | (None, s') => s' = s /\ (size (processes s) < MaxUnifiedExecProcesses)%nat
  | (Some victim, s') =>
      (MaxUnifiedExecProcesses <= size (processes s))%nat
      /\ exists k recent, processes s !! k = Some victim /\ s' = (remove k s).2
      /\ length recent = 8%nat /\ NoDup recent /\ k ∉ recent
      /\ (forall p ep q eq, p ∈ recent -> processes s !! p = Some ep -> q ∉ recent -> processes s !! q = Some eq ->
            lastUsed eq <= lastUsed ep)
      /\ (forall q eq, q ∉ recent -> processes s !! q = Some eq ->
            (exited (process eq) = true -> exited (process victim) = true)
            /\ (exited (process eq) = exited (process victim) -> lastUsed victim <= lastUsed eq))
  end.
Proof.
  unfold pruneProcessesIfNeeded.
  destruct (Nat.ltb_spec (size (processes s)) MaxUnifiedExecProcesses) as [Hlt|Hge]; [done|].
  set (m := map (meta_of exited) (order (processes s))). pose proof (prune_choice m (meta_ids_NoDup _)) as Hc.
  assert (length m = size (processes s)) as Hlen.
  { unfold m. by rewrite length_map, (Permutation_length (order_perm _)), length_map_to_list. }
  destruct (processIDToPruneFromMeta m) as [vid|]; [|unfold MaxUnifiedExecProcesses in Hge; lia].
  destruct Hc as (recent & rest & v & Hperm & H8 & Hv & <- & Hrec & Hex & Hold).
  assert (forall x, x ∈ rest -> exists k e, processes s !! k = Some e /\ x = meta_of exited (k, e)) as Hrest.
  { intros x Hx. apply elem_of_meta. fold m. rewrite Hperm. apply elem_of_app. by right. }
  assert (NoDup (map id (recent ++ rest))) as Hnd by (rewrite <- Hperm; apply meta_ids_NoDup).
  rewrite map_app in Hnd. apply NoDup_app in Hnd as (Hndr & Hdis & _).
  assert (forall k e, processes s !! k = Some e -> k ∉ map id recent -> meta_of exited (k, e) ∈ rest) as Hin.
  { intros k e Hk Hn. assert (meta_of exited (k, e) ∈ m) as Hm by (apply elem_of_meta; eauto).
    rewrite Hperm in Hm. apply elem_of_app in Hm as [Hm|Hm]; [|done]. destruct Hn. apply list_elem_of_fmap. by exists (meta_of exited (k, e)). }
  destruct (Hrest v Hv) as (k & victim & Hk & ->). cbn [id meta_of fst snd] in *. unfold remove. rewrite Hk. split; [done|].
  exists k, (map id recent). split_and!; [done|done|by rewrite length_map|done| | |].
  - intros Hc. apply (Hdis k Hc). apply list_elem_of_fmap. by exists (meta_of exited (k, victim)).
  - intros p ep q eq Hp Hep Hq Heq. apply list_elem_of_fmap in Hp as (x & Hx & Hxr).
    assert (x ∈ m) as Hxm by (rewrite Hperm; apply elem_of_app; by left).
    apply elem_of_meta in Hxm as (p' & e' & Hp' & ->). cbn in Hx. subst p'. rewrite Hep in Hp'. simplify_eq.
    apply (Hrec _ (meta_of exited (q, eq)) Hxr). by apply Hin.
  - intros q eq Hq Heq. pose proof (Hin q eq Heq Hq) as Hr. split; [apply (Hex _ Hr)|apply (Hold _ Hr)].
Qed.
End Policy.

(** Sixty-four sessions, used one after the other; the third has exited. *)
Definition full_store : processStore :=
  mkProcessStore (list_to_map (map (fun i => (i, mkProcessEntry (Z.to_nat i) [] i [] false i)) (seqZ 1 64))) ∅.

Lemma prune_policy_witness :
  let exited := Nat.eqb 3 in
  let victim := (pruneProcessesIfNeeded map_to_list exited full_store).1 in
  option_map processID victim = Some 3
  /\ match victim with
     | Some v => exists k recent, processes full_store !! k = Some v /\ length recent = 8%nat /\ k ∉ recent
     | None => size (processes full_store) < MaxUnifiedExecProcesses
     end%nat.
Proof.
  cbv zeta. split; [vm_compute; reflexivity|].
  pose proof (prune_policy map_to_list (Nat.eqb 3) (fun m => Permutation_refl _) full_store) as H.
  destruct (pruneProcessesIfNeeded map_to_list (Nat.eqb 3) full_store) as [[v|] s']; cbn [fst].
  - destruct H as (_ & k & recent & Hk & _ & H8 & _ & Hn & _). by exists k, recent.
  - by destruct H.
Defined.

End ExecStore.
