(* ===== verification/ExecManager.v ===== *)
(** * internal/unifiedexec: the process manager

    [manager.go]: [ExecCommand], [WriteStdin], [Kill], [Resize] and
    [TerminateAllProcesses] as goroutines that interleave between their critical
    sections.  A goroutine is its next step; an action of the system runs one
    step, starts a call, lets the outside act on a process, or performs a
    [Terminate] that follows a critical section. *)

From stdpp Require Import base list gmap strings fin_maps.
From S2P Require Import Prelude GoStrings GoOrder Truncation SandboxProfile ExecProcess ExecStore.

Module ExecManager.
Import SandboxProfile ExecProcess ExecStore.
#[local] Open Scope Z_scope.

(** ** Requests and results *)

(** The fields of a request that the manager reads. *)
Record ExecCommandRequest := mkExecCommandRequest {
  HookCommand : gostring;
  CallID : gostring;
  ProcessID : Z;
  YieldTimeMS : Z;
  MaxOutputTokens : option Z;
  TTY : bool;
}.

Record WriteStdinRequest := mkWriteStdinRequest {
  StdinProcessID : Z;
  Input : gostring;
  StdinYieldTimeMS : Z;
  StdinMaxOutputTokens : option Z;
}.

(** An [Output] without the chunk id and the wall time, which are random and
    measured. *)
Record Output := mkOutput {
  EventCallID : gostring;
  RawOutput : gostring;
  OutMaxOutputTokens : option Z;
  OutProcessID : option Z;
  OutExitCode : option Z;
  OriginalTokenCount : Z;
  OutHookCommand : gostring;
}.

Definition resolveWriteYieldTime (maxWriteStdinYieldTimeMS : Z) (req : WriteStdinRequest) : Z :=
  let timeMS := if StdinYieldTimeMS req <? MinYieldTimeMS then MinYieldTimeMS else StdinYieldTimeMS req in
  if decide (Input req = []) then
    let timeMS := if timeMS <? MinEmptyYieldTimeMS then MinEmptyYieldTimeMS else timeMS in
    if maxWriteStdinYieldTimeMS <? timeMS then maxWriteStdinYieldTimeMS else timeMS
  else if MaxYieldTimeMS <? timeMS then MaxYieldTimeMS else timeMS.

(** The cap that [NewProcessManager] keeps. *)
Definition yieldCap (maxWriteStdinYieldTimeMS : Z) : Z :=
  if maxWriteStdinYieldTimeMS <? MinEmptyYieldTimeMS then MinEmptyYieldTimeMS else maxWriteStdinYieldTimeMS.

(** The window of a write or a poll lies within its bounds. *)
Lemma resolveWriteYieldTime_bounds cap req :
  let t := resolveWriteYieldTime (yieldCap cap) req in
  (Input req = [] -> MinEmptyYieldTimeMS <= t <= yieldCap cap) /\ (Input req <> [] -> MinYieldTimeMS <= t <= MaxYieldTimeMS).
Proof.
  unfold resolveWriteYieldTime, yieldCap, MinEmptyYieldTimeMS, MinYieldTimeMS, MaxYieldTimeMS.
  split; intros H; (case_decide; [|try done]); repeat case_match; breflect; try done; lia.
Qed.

Inductive processStatus :=
| statusAlive (code : option Z) (processID : Z)
| statusExited (code : option Z)
| statusUnknown.

Record prepared := mkPrepared { prProcess : nat; prCallID : gostring; prHookCommand : gostring; prTTY : bool }.

(** ** Goroutines *)

(** The steps of [ExecCommand] after [Spawn] has returned a process.  The two
    reads that decide whether it started alive are one step. *)
Inductive exec_stage :=
| es_alive
| es_store
| es_collect (alive : bool)
| es_failure (alive : bool) (out : gostring)
| es_release_failed (alive : bool) (message : gostring)
| es_refresh (out : gostring)
| es_short (out : gostring)
| es_release_short (out : gostring) (code : option Z)
| es_denial (out : gostring) (code : option Z).

(** The steps of [WriteStdin] after the session has been found. *)
Inductive stdin_stage :=
| ws_write
| ws_write_failed (e : Error)
| ws_terminate (e : Error)
| ws_release (e : Error)
| ws_collect (status : option processStatus)
| ws_failure (status : option processStatus) (out : gostring)
| ws_release_failed (message : gostring)
| ws_refresh (out : gostring).

Inductive pc :=
| pc_allocated (id : Z)
| pc_exec (req : ExecCommandRequest) (p : nat) (st : exec_stage)
| pc_stdin_start (w : WriteStdinRequest)
| pc_stdin (w : WriteStdinRequest) (pr : prepared) (st : stdin_stage)
| pc_released
| pc_done (r : result Error Output).

(** [procs] are the processes ever spawned, [pending] the [Terminate] calls that
    follow critical sections, [issued] the ids given out so far (latest first),
    [armed] the calls of the session-stored hook, when one is installed.
    [pc_released] is a caller that gave its id back unused. *)
Record system := mkSystem {
  store : processStore;
  deterministicIDs : bool;
  procs : gmap nat Process;
  pending : list nat;
  threads : gmap nat pc;
  issued : list Z;
  armed : list (Z * nat);
}.

Definition init (deterministic : bool) : system := mkSystem emptyStore deterministic ∅ [] ∅ [] [].

Definition set_store (st : processStore) (s : system) : system :=
  mkSystem st (deterministicIDs s) (procs s) (pending s) (threads s) (issued s) (armed s).
Definition set_proc (n : nat) (p : Process) (s : system) : system :=
  mkSystem (store s) (deterministicIDs s) (<[n := p]> (procs s)) (pending s) (threads s) (issued s) (armed s).
Definition set_pending (l : list nat) (s : system) : system :=
  mkSystem (store s) (deterministicIDs s) (procs s) l (threads s) (issued s) (armed s).
Definition set_thread (t : nat) (c : pc) (s : system) : system :=
  mkSystem (store s) (deterministicIDs s) (procs s) (pending s) (<[t := c]> (threads s)) (issued s) (armed s).

(** *** The critical sections *)

Definition ReleaseProcessID (id : Z) (s : system) : system := set_store (remove id (store s)).2 s.

(** One round of [AllocateProcessID]: the candidate, or [None] when it is taken
    and the loop goes on. *)
Definition allocate (draw : Z) (s : system) : option (Z * system) :=
  let id := if deterministicIDs s then set_fold Z.max 999 (reserved (store s)) + 1 else draw in
  if decide (id ∈ reserved (store s)) then None
  else Some (id, mkSystem (mkProcessStore (processes (store s)) ({[id]} ∪ reserved (store s))) (deterministicIDs s)
                   (procs s) (pending s) (threads s) (id :: issued s) (armed s)).

Definition proc_exited (s : system) (n : nat) : bool := match procs s !! n with Some p => HasExited p | None => false end.

Section Order.
Context (order : gmap Z processEntry -> list (Z * processEntry)).

Definition storeProcess (p : nat) (req : ExecCommandRequest) (startedAt : Z) (s : system) : system :=
  let entry := mkProcessEntry p (CallID req) (ProcessID req) (HookCommand req) (TTY req) startedAt in
  let '(pruned, st) := pruneProcessesIfNeeded order (proc_exited s) (store s) in
  mkSystem (mkProcessStore (<[ProcessID req := entry]> (processes st)) (reserved st)) (deterministicIDs s) (procs s)
    (match pruned with Some e => process e :: pending s | None => pending s end)
    (threads s) (issued s) ((ProcessID req, p) :: armed s).

Definition prepareProcessHandles (id now : Z) (s : system) : option prepared * system :=
  match processes (store s) !! id with
  | None => (None, s)
  | Some e => (Some (mkPrepared (process e) (callID e) (hookCommand e) (tty e)), set_store (touch id now (store s)) s)
  end.

Definition refreshProcessState (id : Z) (s : system) : processStatus * system :=
  match processes (store s) !! id with
  | None => (statusUnknown, s)
  | Some e =>
      let code := match procs s !! process e with Some p => ExitCode p | None => None end in
      if proc_exited s (process e) then (statusExited code, set_store (remove id (store s)).2 s)
      else (statusAlive code (processID e), s)
  end.

(** *** The steps *)

(** What a step reads from outside: the clock, the collected output, the answer
    to a write. *)
Record input := mkInput { now : Z; collected : gostring; answer : write_answer }.

Definition output_of (req : ExecCommandRequest) (out : gostring) (id code : option Z) : Output :=
  mkOutput (CallID req) out (MaxOutputTokens req) id code (Truncation.ApproxTokenCount out) (HookCommand req).
Definition stdin_output (w : WriteStdinRequest) (pr : prepared) (out : gostring) (id code : option Z) : Output :=
  mkOutput (prCallID pr) out (StdinMaxOutputTokens w) id code (Truncation.ApproxTokenCount out) (prHookCommand pr).

Definition ExecCommand_step (inp : input) (req : ExecCommandRequest) (n : nat) (p : Process) (st : exec_stage) (s : system) :
  pc * system :=
  match st with
  | es_alive =>
      if negb (HasExited p) && negb (bool_decide (is_Some (ExitCode p)))
      then (pc_exec req n es_store, s) else (pc_exec req n (es_collect false), s)
  | es_store => (pc_exec req n (es_collect true), storeProcess n req (now inp) s)
  | es_collect alive => (pc_exec req n (es_failure alive (collected inp)), s)
  | es_failure alive out =>
      match FailureMessage p with
      | Some message => (pc_exec req n (es_release_failed alive message), s)
      | None => (pc_exec req n (if alive then es_refresh out else es_short out), s)
      end
  | es_release_failed _ message => (pc_done (Err (newProcessFailedError message)), ReleaseProcessID (ProcessID req) s)
  | es_refresh out =>
      match refreshProcessState (ProcessID req) s with
      | (statusAlive code id, s) => (pc_done (Ok (output_of req out (Some id) code)), s)
      | (statusExited code, s) => (pc_exec req n (es_denial out code), s)
      | (statusUnknown, s) => (pc_done (Err (newUnknownProcessIDError (ProcessID req))), s)
      end
  | es_short out => (pc_exec req n (es_release_short out (ExitCode p)), s)
  | es_release_short out code => (pc_exec req n (es_denial out code), ReleaseProcessID (ProcessID req) s)
  | es_denial out code =>
      match checkForSandboxDenialWithText out p with
      | Some e => (pc_done (Err e), s)
      | None => (pc_done (Ok (output_of req out None code)), s)
      end
  end.

(** The end of [WriteStdin], once the status is known. *)
Definition stdin_finish (w : WriteStdinRequest) (pr : prepared) (out : gostring) (status : processStatus) : pc :=
  match status with
  | statusAlive code id => pc_done (Ok (stdin_output w pr out (Some id) code))
  | statusExited code => pc_done (Ok (stdin_output w pr out None code))
  | statusUnknown => pc_done (Err (newUnknownProcessIDError (StdinProcessID w)))
  end.

Definition WriteStdin_step (inp : input) (w : WriteStdinRequest) (pr : prepared) (p : Process) (st : stdin_stage) (s : system) :
  pc * system :=
  let n := prProcess pr in
  match st with
  | ws_write =>
      match Write (answer inp) p with
      | (p', None) => (pc_stdin w pr (ws_collect None), set_proc n p' s)
      | (p', Some e) => (pc_stdin w pr (ws_write_failed e), set_proc n p' s)
      end
  | ws_write_failed e =>
      match refreshProcessState (StdinProcessID w) s with
      | (statusExited code, s) => (pc_stdin w pr (ws_collect (Some (statusExited code))), s)
      | (_, s) => if decide (Kind e = ErrProcessFailed) then (pc_stdin w pr (ws_terminate e), s) else (pc_done (Err e), s)
      end
  | ws_terminate e => (pc_stdin w pr (ws_release e), set_proc n (Terminate p) s)
  | ws_release e => (pc_done (Err e), ReleaseProcessID (StdinProcessID w) s)
  | ws_collect status => (pc_stdin w pr (ws_failure status (collected inp)), s)
  | ws_failure status out =>
      match FailureMessage p with
      | Some message => (pc_stdin w pr (ws_release_failed message), s)
      | None => match status with
                | Some status => (stdin_finish w pr out status, s)
                | None => (pc_stdin w pr (ws_refresh out), s)
                end
      end
  | ws_release_failed message => (pc_done (Err (newProcessFailedError message)), ReleaseProcessID (StdinProcessID w) s)
  | ws_refresh out => let '(status, s) := refreshProcessState (StdinProcessID w) s in (stdin_finish w pr out status, s)
  end.

(** One step of a goroutine. *)
Definition thread_step (inp : input) (c : pc) (s : system) : option (pc * system) :=
  match c with
  | pc_exec req n st => p ← procs s !! n; Some (ExecCommand_step inp req n p st s)
  | pc_stdin_start w =>
      match prepareProcessHandles (StdinProcessID w) (now inp) s with
      | (None, s) => Some (pc_done (Err (newUnknownProcessIDError (StdinProcessID w))), s)
      | (Some pr, s) =>
          if decide (Input w = []) then Some (pc_stdin w pr (ws_collect None), s)
          else if prTTY pr then Some (pc_stdin w pr ws_write, s)
          else Some (pc_done (Err newStdinClosedError), s)
      end
  | pc_stdin w pr st => p ← procs s !! prProcess pr; Some (WriteStdin_step inp w pr p st s)
  | pc_allocated _ | pc_released | pc_done _ => None
  end.

(** What [Spawn] returns: a new process under a fresh identity, after what
    happened to it during the grace period. *)
Record spawned_process := mkSpawned {
  spawnedAs : nat;
  spawnedSandbox : SandboxType;
  spawnedLocal : bool;
  graceEvents : list process_event;
}.
Definition process_of (sp : spawned_process) : Process :=
  fold_left (fun p ev => apply_event ev p) (graceEvents sp) (newProcess (spawnedSandbox sp) (spawnedLocal sp)).

Inductive action :=
| act_allocate (t : nat) (draw : Z)
| act_release (t : nat)
| act_exec (t : nat) (req : ExecCommandRequest) (spawned : sum Error spawned_process)
| act_stdin (t : nat) (w : WriteStdinRequest)
| act_step (t : nat) (inp : input)
| act_kill (id : Z)
| act_resize (id now : Z)
| act_terminate_all
| act_terminate (i : nat)
| act_event (n : nat) (ev : process_event).

(** [None]: the action is not enabled. *)
Definition step (a : action) (s : system) : option system :=
  match a with
  | act_allocate t draw =>
      match threads s !! t with
      | Some _ => None
      | None => match allocate draw s with Some (id, s) => Some (set_thread t (pc_allocated id) s) | None => Some s end
      end
  | act_release t =>
      match threads s !! t with
      | Some (pc_allocated id) => Some (set_thread t pc_released (ReleaseProcessID id s))
      | _ => None
      end
  | act_exec t req spawned =>
      match threads s !! t with
      | Some (pc_allocated id) =>
          if decide (ProcessID req = id) then
            match spawned with
            | inl e => Some (set_thread t (pc_done (Err e)) (ReleaseProcessID id s))
            | inr sp => match procs s !! spawnedAs sp with
                        | None => Some (set_thread t (pc_exec req (spawnedAs sp) es_alive) (set_proc (spawnedAs sp) (process_of sp) s))
                        | Some _ => None
                        end
            end
          else None
      | _ => None
      end
  | act_stdin t w => match threads s !! t with None => Some (set_thread t (pc_stdin_start w) s) | Some _ => None end
  | act_step t inp => c ← threads s !! t; '(c, s) ← thread_step inp c s; Some (set_thread t c s)
  | act_kill id =>
      Some (set_store (remove id (store s)).2
        (match processes (store s) !! id with Some e => set_pending (process e :: pending s) s | None => s end))
  | act_resize id now => Some (set_store (touch id now (store s)) s)
  | act_terminate_all =>
      Some (set_store emptyStore (set_pending (map (fun kv => process kv.2) (map_to_list (processes (store s))) ++ pending s) s))
  | act_terminate i =>
      n ← pending s !! i; p ← procs s !! n;
      Some (set_pending (delete i (pending s)) (set_proc n (Terminate p) s))
  | act_event n ev => p ← procs s !! n; Some (set_proc n (apply_event ev p) s)
  end.

Fixpoint run (acts : list action) (s : system) : option system :=
  match acts with [] => Some s | a :: acts => s ← step a s; run acts s end.
End Order.

End ExecManager.
