(* ===== verification/ExecSessions.v ===== *)
(** * internal/unifiedexec: no session is lost

    The invariant of the process manager, for every interleaving of its calls:
    the store stays within its capacity, a process that is not in the store is
    over, terminated or about to be, and an id is reserved only while a session
    or a call uses it. *)

From stdpp Require Import base list gmap strings fin_maps sorting.
From S2P Require Import Prelude GoStrings GoOrder SandboxProfile ExecProcess ExecStore ExecManager.

Module ExecSessions.
Import SandboxProfile ExecProcess ExecStore ExecManager.
#[local] Open Scope Z_scope.

Section Order.
Context (order : gmap Z processEntry -> list (Z * processEntry)).
Context (order_perm : forall m, order m ≡ₚ map_to_list m).

(** ** What a goroutine holds *)

(** The id that only this goroutine may use. *)
Definition claim (c : pc) : option Z :=
  match c with
  | pc_allocated id => Some id
  | pc_exec req _ (es_alive | es_store | es_collect false | es_failure false _ | es_release_failed false _ | es_short _
                   | es_release_short _ _) => Some (ProcessID req)
  | _ => None
  end.

(** The process it has yet to store. *)
Definition holds (c : pc) : option nat :=
  match c with pc_exec _ n (es_alive | es_store) => Some n | _ => None end.

(** The session it works on. *)
Definition session (c : pc) : option (Z * nat) :=
  match c with
  | pc_exec req n (es_collect true | es_failure true _ | es_release_failed true _ | es_refresh _) => Some (ProcessID req, n)
  | pc_stdin w pr _ => Some (StdinProcessID w, prProcess pr)
  | _ => None
  end.

(** What it knows of its process. *)
Definition knows (c : pc) (p : Process) : Prop :=
  match c with
  | pc_exec _ _ (es_collect false | es_failure false _ | es_short _ | es_release_short _ _) => over p = true
  | pc_exec _ _ (es_release_failed _ _) => HasExited p = true
  | pc_stdin _ _ (ws_release _) => terminated p = true
  | pc_stdin _ _ (ws_release_failed _) => HasExited p = true
  | _ => True
  end.
Definition subject (c : pc) : option nat :=
  match c with pc_exec _ n _ => Some n | pc_stdin _ pr _ => Some (prProcess pr) | _ => None end.

(** The id of a call that has given it up for good. *)
Definition left (c : pc) : option Z := match c with pc_exec req _ (es_denial _ _) => Some (ProcessID req) | _ => None end.

Definition in_store (s : system) (n : nat) : Prop := exists id e, processes (store s) !! id = Some e /\ process e = n.
Definition ending (s : system) (n : nat) (p : Process) : Prop :=
  over p = true \/ terminated p = true \/ n ∈ pending s.
Definition kept (s : system) (n : nat) (p : Process) : Prop :=
  in_store s n \/ (exists t c, threads s !! t = Some c /\ holds c = Some n) \/ ending s n p.

Definition claimed (s : system) (id : Z) : Prop := exists t c, threads s !! t = Some c /\ claim c = Some id.
Definition free_id (s : system) (id : Z) : Prop :=
  processes (store s) !! id = None /\ id ∉ reserved (store s).
Definition gone (s : system) (id : Z) : Prop := id ∈ issued s /\ free_id s id /\ ~ claimed s id.

Record inv (owner : gmap Z nat) (s : system) : Prop := {
  inv_size : (size (processes (store s)) <= MaxUnifiedExecProcesses)%nat;
  inv_entry id e : processes (store s) !! id = Some e ->
    processID e = id /\ owner !! id = Some (process e) /\ is_Some (procs s !! process e);
  inv_owner id : is_Some (owner !! id) -> id ∈ issued s;
  inv_claim t c id : threads s !! t = Some c -> claim c = Some id -> id ∈ issued s /\ owner !! id = None;
  inv_unique t t' c c' id : threads s !! t = Some c -> threads s !! t' = Some c' -> claim c = Some id ->
    claim c' = Some id -> t = t';
  inv_session t c id n : threads s !! t = Some c -> session c = Some (id, n) -> owner !! id = Some n;
  inv_knows t c n : threads s !! t = Some c -> subject c = Some n -> exists p, procs s !! n = Some p /\ knows c p;
  inv_sound n p : procs s !! n = Some p -> sound p;
  inv_reserved id : id ∈ reserved (store s) -> is_Some (processes (store s) !! id) \/ claimed s id;
  inv_kept n p : procs s !! n = Some p -> kept s n p;
  inv_left t c id : threads s !! t = Some c -> left c = Some id -> gone s id;
}.

Lemma sessions_inv_init det : inv ∅ (init det).
Proof.
  split; cbn; intros; rewrite ?lookup_empty in *; try done; try by destruct H.
  rewrite map_size_empty. lia.
Qed.

(** ** Changes to a process *)

Record later (p p' : Process) : Prop := {
  later_over : over p = true -> over p' = true;
  later_exited : HasExited p = true -> HasExited p' = true;
  later_terminated : terminated p = true -> terminated p' = true;
  later_sound : sound p -> sound p';
}.

Lemma later_event ev p : later p (apply_event ev p).
Proof.
  split; [apply apply_event_over|apply apply_event_exited| |apply sound_event]. by rewrite apply_event_terminated.
Qed.
Lemma later_write a p : later p (Write a p).1.
Proof. split; [apply Write_over|apply Write_exited| |apply sound_write]. by rewrite Write_terminated. Qed.
Lemma later_terminate p : later p (Terminate p).
Proof. by split. Qed.

Lemma knows_later c p p' : later p p' -> knows c p -> knows c p'.
Proof. intros [H1 H2 H3 _]. destruct c as [|? ? st|? |? ? st| |]; cbn; try done; destruct st; cbn; auto; destruct alive; auto. Qed.

Lemma inv_set_proc owner s n p p' : inv owner s -> procs s !! n = Some p -> later p p' -> inv owner (set_proc n p' s).
Proof.
  intros Hi Hn Hl. split; cbn.
  - apply Hi.
  - intros id e He. destruct (inv_entry _ _ Hi id e He) as (H1 & H2 & H3). split_and!; try done.
    destruct (decide (n = process e)) as [->|]; [rewrite lookup_insert_eq|rewrite lookup_insert_ne by done]; eauto.
  - apply Hi.
  - apply Hi.
  - apply Hi.
  - apply Hi.
  - intros t c m Ht Hs. destruct (inv_knows _ _ Hi t c m Ht Hs) as (q & Hq & Hk).
    destruct (decide (n = m)) as [->|].
    + exists p'. rewrite lookup_insert_eq. split; [done|]. eapply knows_later; [done|]. congruence.
    + exists q. by rewrite lookup_insert_ne.
  - intros m q Hm. destruct (decide (n = m)) as [->|].
    + rewrite lookup_insert_eq in Hm. simplify_eq. apply Hl. by apply (inv_sound _ _ Hi m).
    + rewrite lookup_insert_ne in Hm by done. by apply (inv_sound _ _ Hi m).
  - apply Hi.
  - intros m q Hm. destruct (decide (n = m)) as [->|].
    + rewrite lookup_insert_eq in Hm. simplify_eq. destruct (inv_kept _ _ Hi m p Hn) as [H|[H|[H|[H|H]]]];
        [by left|by right; left|right; right; left; by apply Hl|right; right; right; left; by apply Hl|by right; right; right; right].
    + rewrite lookup_insert_ne in Hm by done. by apply (inv_kept _ _ Hi m).
  - apply Hi.
Qed.

(** A pending termination is performed. *)
Lemma inv_terminate owner s i n p : inv owner s -> pending s !! i = Some n -> procs s !! n = Some p ->
  inv owner (set_pending (delete i (pending s)) (set_proc n (Terminate p) s)).
Proof.
  intros Hi Hp Hn. pose proof (inv_set_proc _ _ _ _ _ Hi Hn (later_terminate p)) as Hi'.
  destruct Hi' as [? ? ? ? ? ? ? ? ? Hk ?]. split; try done. cbn in *. pose proof (delete_Permutation _ _ _ Hp) as Hperm.
  intros m q Hm. destruct (Hk m q Hm) as [H|[H|[H|[H|H]]]]; [by left|by right; left|right; right; by left|right; right; right; by left|].
  cbn in H. rewrite Hperm in H. apply elem_of_cons in H as [->|H]; [|by right; right; right; right].
  rewrite lookup_insert_eq in Hm. simplify_eq. right; right; right; by left.
Qed.

(** ** Leaving the store *)

Lemma sessions_inv_remove owner s id : inv owner s ->
  (forall e p, processes (store s) !! id = Some e -> procs s !! process e = Some p -> ending s (process e) p) ->
  inv owner (set_store (remove id (store s)).2 s) /\ free_id (set_store (remove id (store s)).2 s) id.
Proof.
  intros Hi He. split; [|split; cbn; [apply lookup_delete_eq|set_solver]]. split; cbn.
  - etrans; [|apply (inv_size _ _ Hi)]. apply map_subseteq_size, delete_subseteq.
  - intros id' e [_ H]%lookup_delete_Some. by apply (inv_entry _ _ Hi).
  - apply Hi.
  - apply Hi.
  - apply Hi.
  - apply Hi.
  - apply Hi.
  - apply Hi.
  - intros id' [Hr Hne]%elem_of_difference. apply not_elem_of_singleton in Hne.
    destruct (inv_reserved _ _ Hi id' Hr) as [H|H]; [left|by right]. by rewrite lookup_delete_ne by done.
  - intros n p Hn. destruct (inv_kept _ _ Hi n p Hn) as [(id' & e & Hl & Hp)|[H|H]]; [|by right; left|by right; right].
    destruct (decide (id' = id)) as [->|Hne].
    + right; right. specialize (He e p Hl). rewrite Hp in He. by apply He.
    + left. exists id', e. cbn. by rewrite lookup_delete_ne by done.
  - intros t c id' Ht Hc. destruct (inv_left _ _ Hi t c id' Ht Hc) as (H1 & [H2 H3] & H4).
    split; [done|]. split; [|done]. split; cbn; [apply lookup_delete_None; by right|set_solver].
Qed.

(** ** Moving a goroutine *)

Lemma inv_set_thread owner s t c' : inv owner s ->
  (forall id, claim c' = Some id -> exists c, threads s !! t = Some c /\ claim c = Some id) ->
  (forall id n, session c' = Some (id, n) -> owner !! id = Some n) ->
  (forall n, subject c' = Some n -> exists p, procs s !! n = Some p /\ knows c' p) ->
  (forall c id, threads s !! t = Some c -> claim c = Some id -> claim c' = Some id \/ id ∉ reserved (store s)) ->
  (forall c n p, threads s !! t = Some c -> holds c = Some n -> procs s !! n = Some p -> holds c' = Some n \/ ending s n p) ->
  (forall id, left c' = Some id -> id ∈ issued s /\ free_id s id
     /\ forall t2 c2, t2 <> t -> threads s !! t2 = Some c2 -> claim c2 <> Some id) ->
  inv owner (set_thread t c' s).
Proof.
  intros Hi Hclaim Hsess Hknow Hdrop Hhold Hleft.
  assert (forall t2 c2 id, <[t := c']> (threads s) !! t2 = Some c2 -> claim c2 = Some id ->
    exists c, threads s !! t2 = Some c /\ claim c = Some id) as Hold.
  { intros t2 c2 id [[<- <-]|[_ Ht]]%lookup_insert_Some Hc; [by apply Hclaim|by exists c2]. }
  split; cbn.
  - apply Hi.
  - apply Hi.
  - apply Hi.
  - intros t2 c2 id Ht Hc. destruct (Hold _ _ _ Ht Hc) as (c & Ht' & Hc'). by apply (inv_claim _ _ Hi t2 c).
  - intros t1 t2 c1 c2 id H1 H2 Hc1 Hc2. destruct (Hold _ _ _ H1 Hc1) as (d1 & ? & ?), (Hold _ _ _ H2 Hc2) as (d2 & ? & ?).
    by apply (inv_unique _ _ Hi t1 t2 d1 d2 id).
  - intros t2 c2 id n [[<- <-]|[_ Ht]]%lookup_insert_Some Hc; [by apply Hsess|by apply (inv_session _ _ Hi t2 c2)].
  - intros t2 c2 n [[<- <-]|[_ Ht]]%lookup_insert_Some Hc; [by apply Hknow|by apply (inv_knows _ _ Hi t2 c2)].
  - apply Hi.
  - intros id Hr. destruct (inv_reserved _ _ Hi id Hr) as [H|(t2 & c2 & Ht & Hc)]; [by left|right].
    destruct (decide (t2 = t)) as [->|Hne].
    + destruct (Hdrop c2 id Ht Hc) as [H|H]; [|done]. exists t, c'. cbn. by rewrite lookup_insert_eq.
    + exists t2, c2. cbn. by rewrite lookup_insert_ne by done.
  - intros n p Hn. destruct (inv_kept _ _ Hi n p Hn) as [H|[(t2 & c2 & Ht & Hc)|H]]; [by left| |by right; right].
    destruct (decide (t2 = t)) as [->|Hne].
    + destruct (Hhold c2 n p Ht Hc Hn) as [H|H]; [|by right; right].
      right; left. exists t, c'. cbn. by rewrite lookup_insert_eq.
    + right; left. exists t2, c2. cbn. by rewrite lookup_insert_ne by done.
  - assert (forall id, ~ claimed s id -> ~ claimed (set_thread t c' s) id) as Hmono.
    { intros id Hn (t2 & c2 & Ht & Hc). apply Hn. destruct (Hold _ _ _ Ht Hc) as (c & ? & ?). by exists t2, c. }
    intros t2 c2 id [[<- <-]|[Hne Ht]]%lookup_insert_Some Hc.
    + destruct (Hleft id Hc) as (H1 & H2 & H3). split_and!; [done|done|]. intros (t2 & c2 & Ht & Hc2).
      cbn in Ht. apply lookup_insert_Some in Ht as [[<- <-]|[Hne Ht]]; [|by apply (H3 t2 c2)]. by destruct c' as [|? ? []| | | |].
    + destruct (inv_left _ _ Hi t2 c2 id Ht Hc) as (H1 & H2 & H3). split_and!; auto.
Qed.

(** ** Storing a session *)

Lemma inv_add_pending owner s n : inv owner s -> inv owner (set_pending (n :: pending s) s).
Proof.
  intros [? ? ? ? ? ? ? ? ? Hk ?]. split; try done. cbn. intros m p Hm.
  destruct (Hk m p Hm) as [H|[H|[H|[H|H]]]]; [by left|by right; left|right; right; by left|right; right; right; by left|].
  right; right; right; right. cbn. by apply elem_of_cons; right.
Qed.

Lemma meta_ids (f : nat -> bool) m : NoDup (map id (map (meta_of f) (order m))).
Proof.
  rewrite map_map. cbn. rewrite (Permutation_map fst (order_perm m)). apply NoDup_fst_map_to_list.
Qed.

Lemma inv_prune owner s : inv owner s ->
  let '(pruned, st) := pruneProcessesIfNeeded order (proc_exited s) (store s) in
  inv owner (set_store st (set_pending (match pruned with Some e => process e :: pending s | None => pending s end) s))
  /\ (size (processes st) < MaxUnifiedExecProcesses)%nat.
Proof.
  intros Hi. unfold pruneProcessesIfNeeded.
  destruct (Nat.ltb_spec (size (processes (store s))) MaxUnifiedExecProcesses) as [Hlt|Hge].
  { split; [|done]. destruct s as [st ? ? ? ? ? ?]. by destruct Hi. }
  set (m := map (meta_of (proc_exited s)) (order (processes (store s)))).
  assert (length m = size (processes (store s))) as Hlen.
  { unfold m. by rewrite length_map, (Permutation_length (order_perm _)), length_map_to_list. }
  pose proof (prune_choice m (meta_ids _ _)) as Hc. destruct (processIDToPruneFromMeta m) as [victim|].
  2: { unfold MaxUnifiedExecProcesses in Hge. lia. }
  destruct Hc as (recent & rest & v & Hperm & _ & Hv & Hid & _).
  assert (v ∈ m) as Hvm by (rewrite Hperm; apply elem_of_app; by right).
  apply list_elem_of_fmap in Hvm as ([vid e] & -> & Hin). cbn in Hid. subst vid.
  rewrite order_perm in Hin. apply elem_of_map_to_list in Hin. cbn [remove]. unfold remove. rewrite Hin.
  pose proof (inv_add_pending _ _ (process e) Hi) as Hi'. split.
  - apply (sessions_inv_remove _ _ victim) in Hi' as [H _]; [exact H|]. cbn. intros e' p He' Hp. rewrite Hin in He'. simplify_eq.
    right; right. cbn. by constructor.
  - cbn. rewrite map_size_delete_Some by done. pose proof (inv_size _ _ Hi). unfold MaxUnifiedExecProcesses in *. lia.
Qed.

Lemma sessions_inv_insert owner s t req n e armed' : inv owner s -> threads s !! t = Some (pc_exec req n es_store) ->
  (size (processes (store s)) < MaxUnifiedExecProcesses)%nat -> process e = n -> processID e = ProcessID req ->
  inv (<[ProcessID req := n]> owner)
    (mkSystem (mkProcessStore (<[ProcessID req := e]> (processes (store s))) (reserved (store s))) (deterministicIDs s) (procs s)
      (pending s) (<[t := pc_exec req n (es_collect true)]> (threads s)) (issued s) armed').
Proof.
  intros Hi Ht Hsz Hpe Hide. set (id := ProcessID req) in *. set (c' := pc_exec req n (es_collect true)).
  destruct (inv_claim _ _ Hi t _ id Ht eq_refl) as [Hiss Hown].
  assert (processes (store s) !! id = None) as Hnone.
  { destruct (processes (store s) !! id) as [e'|] eqn:E; [|done]. apply (inv_entry _ _ Hi) in E as (_ & E & _). congruence. }
  assert (forall t2 c2, <[t := c']> (threads s) !! t2 = Some c2 -> is_Some (claim c2) -> t2 <> t /\ threads s !! t2 = Some c2) as Hold.
  { intros t2 c2 [[<- <-]|[Hne H]]%lookup_insert_Some Hc; [by destruct Hc|done]. }
  assert (forall t2 c2, threads s !! t2 = Some c2 -> t2 <> t -> claim c2 <> Some id) as Huniq.
  { intros t2 c2 H2 Hne Hc. apply Hne. by apply (inv_unique _ _ Hi t2 t c2 _ id H2 Ht). }
  destruct (inv_knows _ _ Hi t _ n Ht eq_refl) as (p & Hp & _).
  split; cbn.
  - rewrite map_size_insert_None by done. lia.
  - intros id' e' [[<- <-]|[Hne H]]%lookup_insert_Some.
    + split_and!; [done|by rewrite lookup_insert_eq, Hpe|]. rewrite Hpe. by exists p.
    + destruct (inv_entry _ _ Hi id' e' H) as (? & ? & ?). by rewrite lookup_insert_ne by done.
  - intros id' [o [[<- <-]|[Hne H]]%lookup_insert_Some]; [done|]. apply (inv_owner _ _ Hi). by exists o.
  - intros t2 c2 id' H2 Hc. destruct (Hold _ _ H2 ltac:(by exists id')) as [Hne H2'].
    destruct (inv_claim _ _ Hi t2 c2 id' H2' Hc) as [? ?]. split; [done|]. rewrite lookup_insert_ne; [done|].
    intros <-. by apply (Huniq t2 c2).
  - intros t1 t2 c1 c2 id' H1 H2 Hc1 Hc2. destruct (Hold _ _ H1 ltac:(by exists id')) as [_ ?], (Hold _ _ H2 ltac:(by exists id')) as [_ ?].
    by apply (inv_unique _ _ Hi t1 t2 c1 c2 id').
  - intros t2 c2 id' n' [[<- <-]|[Hne H]]%lookup_insert_Some Hs.
    + injection Hs as <- <-. by rewrite lookup_insert_eq.
    + pose proof (inv_session _ _ Hi t2 c2 id' n' H Hs). rewrite lookup_insert_ne; [done|]. intros <-. congruence.
  - intros t2 c2 n' [[<- <-]|[Hne H]]%lookup_insert_Some Hs; [injection Hs as <-; by exists p|by apply (inv_knows _ _ Hi t2 c2)].
  - apply Hi.
  - intros id' Hr. destruct (decide (id' = id)) as [->|Hne]; [left; by rewrite lookup_insert_eq; eexists|].
    rewrite lookup_insert_ne by done. destruct (inv_reserved _ _ Hi id' Hr) as [H|(t2 & c2 & H2 & Hc)]; [by left|right].
    exists t2, c2. cbn. rewrite lookup_insert_ne; [done|]. intros <-. rewrite Ht in H2. simplify_eq. cbn in Hc. congruence.
  - intros n' q Hq. destruct (decide (n' = n)) as [->|Hn'].
    { left. exists id, e. cbn. by rewrite lookup_insert_eq. }
    destruct (inv_kept _ _ Hi n' q Hq) as [(id' & e' & H & Hpr)|[(t2 & c2 & H2 & Hc)|H]]; [left| |by right; right].
    + exists id', e'. cbn. rewrite lookup_insert_ne; [done|]. intros <-. congruence.
    + right; left. exists t2, c2. cbn. rewrite lookup_insert_ne; [done|]. intros <-. rewrite Ht in H2. simplify_eq. cbn in Hc. congruence.
  - intros t2 c2 id' [[<- <-]|[Hne H]]%lookup_insert_Some Hc; [done|].
    destruct (inv_left _ _ Hi t2 c2 id' H Hc) as (H1 & [H2 H3] & H4).
    assert (id' <> id) as Hid by (intros ->; apply H4; by exists t, (pc_exec req n es_store)).
    split; [done|]. split; [split; [by cbn; rewrite lookup_insert_ne|done]|].
    intros (t3 & c3 & Ht3 & Hc3). cbn in Ht3. destruct (Hold _ _ Ht3 ltac:(by exists id')) as [_ ?]. apply H4. by exists t3, c3.
Qed.

(** ** Starting a call *)

Lemma inv_allocate owner s s' t draw id : inv owner s -> threads s !! t = None -> allocate draw s = Some (id, s') ->
  NoDup (issued s') -> inv owner (set_thread t (pc_allocated id) s').
Proof.
  intros Hi Ht Ha Hnd. unfold allocate in Ha. case_decide as Hr; [done|]. injection Ha as <- <-. cbn in Hnd.
  apply NoDup_cons in Hnd as [Hfresh _]. set (id := if deterministicIDs s then _ else _) in *.
  assert (forall t2 c2, <[t := pc_allocated id]> (threads s) !! t2 = Some c2 ->
    (t2 = t /\ c2 = pc_allocated id) \/ (t2 <> t /\ threads s !! t2 = Some c2)) as Hold.
  { intros t2 c2 [[<- <-]|[Hne H]]%lookup_insert_Some; auto. }
  assert (forall t2 c2, threads s !! t2 = Some c2 -> claim c2 <> Some id) as Hnoclaim.
  { intros t2 c2 H2 Hc. apply Hfresh. by apply (inv_claim _ _ Hi t2 c2). }
  split; cbn.
  - apply Hi.
  - apply Hi.
  - intros id' H. apply elem_of_cons. right. by apply (inv_owner _ _ Hi).
  - intros t2 c2 id' [[-> ->]|[Hne H2]]%Hold Hc.
    + injection Hc as <-. split; [by constructor|]. apply eq_None_not_Some. intros H. by apply Hfresh, (inv_owner _ _ Hi).
    + destruct (inv_claim _ _ Hi t2 c2 id' H2 Hc). split; [|done]. apply elem_of_cons. by right.
  - intros t1 t2 c1 c2 id' [[-> ->]|[N1 H1]]%Hold [[-> ->]|[N2 H2]]%Hold Hc1 Hc2; [done| | |].
    + injection Hc1 as <-. by apply Hnoclaim in H2.
    + injection Hc2 as <-. by apply Hnoclaim in H1.
    + by apply (inv_unique _ _ Hi t1 t2 c1 c2 id').
  - intros t2 c2 id' n [[-> ->]|[N2 H2]]%Hold Hc; [done|by apply (inv_session _ _ Hi t2 c2)].
  - intros t2 c2 n [[-> ->]|[N2 H2]]%Hold Hc; [done|by apply (inv_knows _ _ Hi t2 c2)].
  - apply Hi.
  - intros id' [->%elem_of_singleton|H]%elem_of_union.
    + right. exists t, (pc_allocated id). cbn. by rewrite lookup_insert_eq.
    + destruct (inv_reserved _ _ Hi id' H) as [?|(t2 & c2 & H2 & Hc)]; [by left|right]. exists t2, c2. cbn.
      rewrite lookup_insert_ne; [done|congruence].
  - intros n p Hn. destruct (inv_kept _ _ Hi n p Hn) as [H|[(t2 & c2 & H2 & Hc)|H]]; [by left| |by right; right].
    right; left. exists t2, c2. cbn. rewrite lookup_insert_ne; [done|congruence].
  - intros t2 c2 id' [[-> ->]|[N2 H2]]%Hold Hc; [done|].
    destruct (inv_left _ _ Hi t2 c2 id' H2 Hc) as (H3 & [H4 H5] & H6). split_and!.
    + cbn. apply elem_of_cons. by right.
    + split; cbn; [done|]. rewrite not_elem_of_union, not_elem_of_singleton. split; [|done]. congruence.
    + intros (t3 & c3 & [[-> ->]|[N3 H7]]%Hold & Hc3); [|by apply H6; exists t3, c3]. injection Hc3 as ->. done.
Qed.

Lemma inv_spawn owner s t req n p : inv owner s -> threads s !! t = Some (pc_allocated (ProcessID req)) -> procs s !! n = None ->
  sound p -> inv owner (set_thread t (pc_exec req n es_alive) (set_proc n p s)).
Proof.
  intros Hi Ht Hn Hp. set (c' := pc_exec req n es_alive).
  assert (forall t2 c2, <[t := c']> (threads s) !! t2 = Some c2 -> (t2 = t /\ c2 = c') \/ (t2 <> t /\ threads s !! t2 = Some c2)) as Hold.
  { intros t2 c2 [[<- <-]|[Hne H]]%lookup_insert_Some; auto. }
  assert (forall t2 c2 id, <[t := c']> (threads s) !! t2 = Some c2 -> claim c2 = Some id ->
    exists c, threads s !! t2 = Some c /\ claim c = Some id) as Hclaim.
  { intros t2 c2 id [[-> ->]|[_ H]]%Hold Hc; [|by exists c2]. injection Hc as <-. by eexists. }
  assert (forall m q, procs s !! m = Some q -> m <> n) as Hne by congruence.
  split; cbn.
  - apply Hi.
  - intros id e He. destruct (inv_entry _ _ Hi id e He) as (H1 & H2 & q & H3). split_and!; [done..|].
    rewrite lookup_insert_ne; [by exists q|]. intros ->. by eapply Hne.
  - apply Hi.
  - intros t2 c2 id H2 Hc. destruct (Hclaim _ _ _ H2 Hc) as (c & H3 & H4). by apply (inv_claim _ _ Hi t2 c).
  - intros t1 t2 c1 c2 id H1 H2 Hc1 Hc2. destruct (Hclaim _ _ _ H1 Hc1) as (d1 & ? & ?), (Hclaim _ _ _ H2 Hc2) as (d2 & ? & ?).
    by apply (inv_unique _ _ Hi t1 t2 d1 d2 id).
  - intros t2 c2 id m [[-> ->]|[_ H2]]%Hold Hc; [done|by apply (inv_session _ _ Hi t2 c2)].
  - intros t2 c2 m [[-> ->]|[_ H2]]%Hold Hc.
    + injection Hc as <-. exists p. by rewrite lookup_insert_eq.
    + destruct (inv_knows _ _ Hi t2 c2 m H2 Hc) as (q & Hq & Hk). exists q. rewrite lookup_insert_ne; [done|].
      intros ->. by eapply Hne.
  - intros m q [[<- <-]|[_ H]]%lookup_insert_Some; [done|by apply (inv_sound _ _ Hi m)].
  - intros id Hr. destruct (inv_reserved _ _ Hi id Hr) as [H|(t2 & c2 & H2 & Hc)]; [by left|right].
    destruct (decide (t2 = t)) as [->|Ht2].
    + rewrite Ht in H2. simplify_eq. injection Hc as <-. exists t, c'. cbn. by rewrite lookup_insert_eq.
    + exists t2, c2. cbn. by rewrite lookup_insert_ne.
  - intros m q [[<- <-]|[Hm H]]%lookup_insert_Some.
    { right; left. exists t, c'. cbn. by rewrite lookup_insert_eq. }
    destruct (inv_kept _ _ Hi m q H) as [H'|[(t2 & c2 & H2 & Hc)|H']]; [by left| |by right; right].
    right; left. exists t2, c2. cbn. rewrite lookup_insert_ne; [done|]. intros <-. rewrite Ht in H2. by simplify_eq.
  - intros t2 c2 id [[-> ->]|[Ht2 H2]]%Hold Hc; [done|].
    destruct (inv_left _ _ Hi t2 c2 id H2 Hc) as (H3 & H4 & H5). split_and!; [done..|].
    intros (t3 & c3 & H6 & Hc3). destruct (Hclaim _ _ _ H6 Hc3) as (c & ? & ?). apply H5. by exists t3, c.
Qed.

Lemma inv_new_thread owner s t w : inv owner s -> threads s !! t = None -> inv owner (set_thread t (pc_stdin_start w) s).
Proof. intros Hi Ht. apply inv_set_thread; [done|by intros..| | |by intros]; intros; congruence. Qed.

(** ** One more step of a goroutine *)

Lemma inv_move owner s t c c' : inv owner s -> threads s !! t = Some c ->
  claim c' = claim c -> session c' = session c -> subject c' = subject c -> left c' = None ->
  (forall n p, holds c = Some n -> procs s !! n = Some p -> holds c' = Some n \/ ending s n p) ->
  (forall n p, subject c = Some n -> procs s !! n = Some p -> knows c p -> knows c' p) ->
  inv owner (set_thread t c' s).
Proof.
  intros Hi Ht Hcl Hse Hsu Hl Hho Hkn. apply inv_set_thread; [done|..].
  - intros id Hc. exists c. by rewrite <- Hcl.
  - intros id n Hs. rewrite Hse in Hs. by apply (inv_session _ _ Hi t c).
  - intros n Hs. rewrite Hsu in Hs. destruct (inv_knows _ _ Hi t c n Ht Hs) as (p & Hp & Hk). exists p. split; [done|]. by eapply Hkn.
  - intros c2 id H2 Hc. rewrite Ht in H2. simplify_eq. left. by rewrite Hcl.
  - intros c2 n p H2. rewrite Ht in H2. simplify_eq. apply Hho.
  - intros id. by rewrite Hl.
Qed.

Definition idle (c : pc) : Prop := match c with pc_released | pc_done _ => True | _ => False end.

Lemma inv_end owner s t c c' : inv owner s -> threads s !! t = Some c -> idle c' ->
  (forall id, claim c = Some id -> id ∉ reserved (store s)) -> holds c = None -> inv owner (set_thread t c' s).
Proof.
  intros Hi Ht Hid Hcl Hho. apply inv_set_thread; [done|by destruct c'|by destruct c'|by destruct c'| | |by destruct c'].
  - intros c2 id H2 Hc. rewrite Ht in H2. simplify_eq. right. by apply Hcl.
  - intros c2 n p H2 Hh. rewrite Ht in H2. simplify_eq.
Qed.

(** The session of a call, if it is still stored, is the call's process. *)
Lemma session_entry owner s t c id n e : inv owner s -> threads s !! t = Some c -> session c = Some (id, n) ->
  processes (store s) !! id = Some e -> process e = n.
Proof.
  intros Hi Ht Hs He. pose proof (inv_session _ _ Hi t c id n Ht Hs). destruct (inv_entry _ _ Hi id e He) as (_ & ? & _). congruence.
Qed.

(** A claimed id has no session yet. *)
Lemma claim_unstored owner s t c id : inv owner s -> threads s !! t = Some c -> claim c = Some id -> processes (store s) !! id = None.
Proof.
  intros Hi Ht Hc. destruct (inv_claim _ _ Hi t c id Ht Hc) as [_ H]. destruct (processes (store s) !! id) as [e|] eqn:E; [|done].
  destruct (inv_entry _ _ Hi id e E) as (_ & ? & _). congruence.
Qed.

(** The id of a stored or once stored session is claimed by nobody. *)
Lemma session_unclaimed owner s t c id n : inv owner s -> threads s !! t = Some c -> session c = Some (id, n) -> ~ claimed s id.
Proof.
  intros Hi Ht Hs (t2 & c2 & H2 & Hc). pose proof (inv_session _ _ Hi t c id n Ht Hs).
  destruct (inv_claim _ _ Hi t2 c2 id H2 Hc). congruence.
Qed.

Lemma inv_touch owner s id now : inv owner s -> inv owner (set_store (touch id now (store s)) s).
Proof.
  intros Hi. unfold touch. destruct (processes (store s) !! id) as [e|] eqn:E; [|by destruct s, Hi].
  destruct (inv_entry _ _ Hi id e E) as (H1 & H2 & H3). split; cbn; try apply Hi.
  - rewrite map_size_insert_Some by (by rewrite E). apply Hi.
  - intros id' e' [[<- <-]|[Hne H]]%lookup_insert_Some; [by cbn|by apply (inv_entry _ _ Hi)].
  - intros id' Hr. destruct (inv_reserved _ _ Hi id' Hr) as [H|H]; [left|by right].
    destruct (decide (id = id')) as [->|]; [rewrite lookup_insert_eq; by eexists|by rewrite lookup_insert_ne].
  - intros n p Hn. destruct (inv_kept _ _ Hi n p Hn) as [(id' & e' & H & Hp)|[H|H]]; [left|by right; left|by right; right].
    destruct (decide (id = id')) as [->|].
    + eexists id', _. cbn. rewrite lookup_insert_eq. split; [done|]. cbn. congruence.
    + exists id', e'. cbn. by rewrite lookup_insert_ne.
  - intros t c id' Ht Hc. destruct (inv_left _ _ Hi t c id' Ht Hc) as (H4 & [H5 H6] & H7). split_and!; [done| |done].
    split; [|done]. cbn. rewrite lookup_insert_ne; [done|congruence].
Qed.

Lemma inv_terminate_all owner s : inv owner s ->
  inv owner (set_store emptyStore (set_pending (map (fun kv => process kv.2) (map_to_list (processes (store s))) ++ pending s) s)).
Proof.
  intros Hi. split; cbn; try apply Hi.
  - rewrite map_size_empty. lia.
  - intros id e. by rewrite lookup_empty.
  - set_solver.
  - intros n p Hn. destruct (inv_kept _ _ Hi n p Hn) as [(id & e & H & Hp)|[H|[H|[H|H]]]];
      [right; right; right; right; cbn; apply elem_of_app|by right; left|by right; right; left|by right; right; right; left|].
    + left. apply list_elem_of_fmap. exists (id, e). split; [done|]. by apply elem_of_map_to_list.
    + right; right; right; right. cbn. apply elem_of_app. by right.
  - intros t c id Ht Hc. destruct (inv_left _ _ Hi t c id Ht Hc) as (H1 & _ & H3). split_and!; [done| |done].
    split; cbn; [apply lookup_empty|set_solver].
Qed.

(** What [refreshProcessState] leaves. *)
Lemma inv_refresh owner s id status s' : inv owner s -> refreshProcessState id s = (status, s') ->
  inv owner s' /\ threads s' = threads s /\ procs s' = procs s /\ reserved (store s') ⊆ reserved (store s)
  /\ match status with
     | statusAlive _ id' => s' = s /\ id' = id /\ exists e, processes (store s) !! id = Some e /\ proc_exited s (process e) = false
     | statusExited _ => free_id s' id
     | statusUnknown => s' = s /\ processes (store s) !! id = None
     end.
Proof.
  intros Hi Hr. unfold refreshProcessState in Hr. destruct (processes (store s) !! id) as [e|] eqn:E; [|by simplify_eq].
  destruct (inv_entry _ _ Hi id e E) as (Hid & _ & _). destruct (proc_exited s (process e)) eqn:X; simplify_eq.
  - destruct (sessions_inv_remove _ s (processID e) Hi) as [Hi' Hf].
    { intros e' p He' Hp. rewrite E in He'. simplify_eq. left. unfold over, proc_exited in *. rewrite Hp in X. by rewrite X. }
    split_and!; [done..| |done]. cbn. set_solver.
  - split_and!; [done..|]. eauto.
Qed.

(** What a finished [ExecCommand] leaves behind. *)
Definition settled (s : system) (req : ExecCommandRequest) (n : nat) (r : result Error Output) : Prop :=
  match r with
  | Ok out =>
      match OutProcessID out with
      | Some id => id = ProcessID req /\ (exists e, processes (store s) !! id = Some e /\ process e = n) /\ proc_exited s n = false
      | None => free_id s (ProcessID req)
      end
  | Err _ => free_id s (ProcessID req)
  | Panic => False
  end.

Lemma move_denial owner s t c req n out code : inv owner s -> threads s !! t = Some c -> subject c = Some n ->
  holds c = None -> ProcessID req ∈ issued s -> free_id s (ProcessID req) ->
  (forall t2 c2, t2 <> t -> threads s !! t2 = Some c2 -> claim c2 <> Some (ProcessID req)) ->
  (forall id, claim c = Some id -> id = ProcessID req) ->
  inv owner (set_thread t (pc_exec req n (es_denial out code)) s).
Proof.
  intros Hi Ht Hsu Hho Hiss Hf Hcl Hid. apply inv_set_thread; [done|by intros ? [= ]|by intros ? ? [= ]| | | |].
  - intros m [= <-]. destruct (inv_knows _ _ Hi t c n Ht Hsu) as (p & Hp & _). by exists p.
  - intros c2 id H2 Hc. rewrite Ht in H2. simplify_eq. right. rewrite (Hid id Hc). apply Hf.
  - intros c2 m p H2 Hh. rewrite Ht in H2. simplify_eq.
  - by intros id [= <-].
Qed.

Lemma unclaimed_unreserved owner s id : inv owner s -> processes (store s) !! id = None -> ~ claimed s id -> free_id s id.
Proof. intros Hi Hn Hc. split; [done|]. intros [[e He]|H]%(inv_reserved _ _ Hi); [congruence|done]. Qed.

Lemma exec_step owner s t req n p st inp c' s' : inv owner s -> threads s !! t = Some (pc_exec req n st) ->
  procs s !! n = Some p -> ExecCommand_step order inp req n p st s = (c', s') ->
  exists owner', inv owner' (set_thread t c' s')
    /\ forall r, c' = pc_done r -> settled (set_thread t c' s') req n r.
Proof.
  intros Hi Ht Hp Hs. pose proof (inv_knows _ _ Hi t _ n Ht eq_refl) as (q & Hq & Hk). rewrite Hp in Hq. injection Hq as <-.
  destruct st as [| |alive|alive out|alive message|out|out|out code|out code]; cbn in Hs.
  - exists owner. destruct (_ && _) eqn:E; simplify_eq; (split; [|done]); (eapply inv_move; [done..| |]).
    + intros m q [= <-] Hq. by left.
    + done.
    + intros m q [= <-] Hq. right. left. rewrite Hp in Hq. simplify_eq. unfold over. by destruct (HasExited _), (bool_decide _).
    + intros m q [= <-] Hq _. rewrite Hp in Hq. simplify_eq. cbn. unfold over. by destruct (HasExited _), (bool_decide _).
  - exists (<[ProcessID req := n]> owner). unfold storeProcess in Hs. pose proof (inv_prune owner s Hi) as Hpr.
    destruct (pruneProcessesIfNeeded _ _ _) as [pruned stt]. simplify_eq. destruct Hpr as [Hi' Hsz]. split; [|done].
    by apply (sessions_inv_insert _ _ t req n (mkProcessEntry n (CallID req) (ProcessID req) (HookCommand req) (TTY req) (now inp))
      ((ProcessID req, n) :: armed s) Hi').
  - exists owner. simplify_eq. split; [|done]. eapply inv_move; [done|done|by destruct alive|by destruct alive|done..| |].
    + by intros m q [= ].
    + intros m q _ _. by destruct alive.
  - exists owner. destruct (FailureMessage p) as [message|] eqn:F; simplify_eq; (split; [|done]).
    + eapply inv_move; [done|done|by destruct alive|by destruct alive|done..| |]; [by intros m q [= ]|].
      intros m q [= <-] Hq _. rewrite Hp in Hq. simplify_eq. cbn. by eapply (inv_sound _ _ Hi).
    + eapply inv_move; [done|done|by destruct alive|by destruct alive|by destruct alive|by destruct alive| |].
      * by intros m q [= ].
      * intros m q _ _. by destruct alive.
  - exists owner. simplify_eq. destruct (sessions_inv_remove _ s (ProcessID req) Hi) as [Hi' Hf].
    { intros e q He Hq. left. destruct alive.
      - rewrite (session_entry _ _ _ _ _ _ _ Hi Ht eq_refl He), Hp in Hq. simplify_eq. unfold over. cbn in Hk. by rewrite Hk.
      - rewrite (claim_unstored _ _ _ _ _ Hi Ht eq_refl) in He. done. }
    split; [|by intros r [= <-]]. eapply inv_end; [done..| |done]. destruct alive; cbn; [done|]. intros id [= <-]. apply Hf.
  - exists owner. destruct (refreshProcessState (ProcessID req) s) as [status s1] eqn:R.
    pose proof (session_unclaimed _ _ _ _ _ _ Hi Ht eq_refl) as Hun.
    assert (forall e, processes (store s) !! ProcessID req = Some e -> process e = n) as Hent.
    { intros e. by apply (session_entry _ _ _ _ _ _ e Hi Ht). }
    destruct (inv_refresh _ _ _ _ _ Hi R) as (Hi' & Hth & _ & _ & Hst). rewrite <- Hth in Ht.
    destruct status as [code id'|code|]; simplify_eq.
    + destruct Hst as (-> & -> & e & He & Hx). split; [by eapply inv_end|]. intros r [= <-]. cbn. split_and!; [done|exists e|].
      * split; [done|]. by apply Hent.
      * rewrite <- (Hent e He). exact Hx.
    + split; [|done]. assert (ProcessID req ∈ issued s) as Hiss.
      { apply (inv_owner _ _ Hi). exists n. rewrite Hth in Ht. by apply (inv_session _ _ Hi t _ (ProcessID req) n Ht). }
      eapply move_denial; [done|done|done|done| |done| |done].
      * unfold refreshProcessState in R. repeat case_match; by simplify_eq.
      * intros t2 c2 _ H2 Hc. apply Hun. exists t2, c2. by rewrite <- Hth.
    + destruct Hst as [-> Hn]. split; [by eapply inv_end|]. intros r [= <-].
      by apply (unclaimed_unreserved owner s).
  - exists owner. simplify_eq. split; [|done]. eapply inv_move; [done..| |]; [by intros m q [= ]|done].
  - exists owner. simplify_eq. split; [|done]. destruct (sessions_inv_remove _ s (ProcessID req) Hi) as [Hi' Hf].
    { intros e q He Hq. by rewrite (claim_unstored _ _ _ _ _ Hi Ht eq_refl) in He. }
    eapply move_denial; [done|done|done|done| |done| |by intros id [= <-]].
    + by apply (inv_claim _ _ Hi t _ _ Ht).
    + intros t2 c2 Hne H2 Hc. apply Hne. by eapply (inv_unique _ _ Hi t2 t c2 _ _ H2 Ht Hc).
  - exists owner. destruct (inv_left _ _ Hi t _ _ Ht eq_refl) as (_ & Hf & _).
    destruct (checkForSandboxDenialWithText out p) as [e|]; simplify_eq; (split; [by eapply inv_end|]); by intros r [= <-].
Qed.

Lemma stdin_start owner s t w inp c' s' : inv owner s -> threads s !! t = Some (pc_stdin_start w) ->
  thread_step order inp (pc_stdin_start w) s = Some (c', s') -> inv owner (set_thread t c' s').
Proof.
  intros Hi Ht Hs. cbn in Hs. unfold prepareProcessHandles in Hs.
  destruct (processes (store s) !! StdinProcessID w) as [e|] eqn:E; [|simplify_eq; by eapply inv_end].
  destruct (inv_entry _ _ Hi _ e E) as (_ & Hown & p & Hp). pose proof (inv_touch _ _ (StdinProcessID w) (now inp) Hi) as Hi'.
  set (pr := mkPrepared (process e) (callID e) (hookCommand e) (tty e)) in *.
  assert (forall st, match st with ws_release _ | ws_release_failed _ => False | _ => True end ->
    inv owner (set_thread t (pc_stdin w pr st) (set_store (touch (StdinProcessID w) (now inp) (store s)) s))) as Hmove.
  { intros st Hst. apply inv_set_thread; [done|by intros ? [= ]|by intros ? ? [= <- <-]| | | |by intros ? [= ]].
    - intros n [= <-]. exists p. split; [done|]. by destruct st.
    - intros c2 id H2. cbn in H2. rewrite Ht in H2. by simplify_eq.
    - intros c2 n q H2. cbn in H2. rewrite Ht in H2. by simplify_eq. }
  case_decide; [simplify_eq; by apply Hmove|]. destruct (prTTY pr); simplify_eq; [by apply Hmove|]. by eapply inv_end.
Qed.

Lemma stdin_finish_idle w pr out status : idle (stdin_finish w pr out status).
Proof. by destruct status. Qed.

Lemma stdin_step owner s t w pr p st inp c' s' : inv owner s -> threads s !! t = Some (pc_stdin w pr st) ->
  procs s !! prProcess pr = Some p -> WriteStdin_step inp w pr p st s = (c', s') -> inv owner (set_thread t c' s').
Proof.
  intros Hi Ht Hp Hs. pose proof (inv_knows _ _ Hi t _ _ Ht eq_refl) as (q & Hq & Hk). rewrite Hp in Hq. injection Hq as <-.
  assert (forall s st', inv owner s -> threads s !! t = Some (pc_stdin w pr st) ->
    (forall p, procs s !! prProcess pr = Some p -> knows (pc_stdin w pr st) p -> knows (pc_stdin w pr st') p) ->
    inv owner (set_thread t (pc_stdin w pr st') s)) as Hmove.
  { intros s1 st' H1 H2 H3. eapply inv_move; [done..| |]; [by intros ? ? [= ]|]. intros n p1 [= <-]. apply H3. }
  assert (forall s c, inv owner s -> threads s !! t = Some (pc_stdin w pr st) -> idle c -> inv owner (set_thread t c s)) as Hend.
  { intros s1 c H1 H2 H3. eapply inv_end; [done..| |done]. by intros ? [= ]. }
  assert (ending s (prProcess pr) p -> inv owner (ReleaseProcessID (StdinProcessID w) s)) as Hrel.
  { intros He. apply (sessions_inv_remove _ s (StdinProcessID w) Hi). intros e q' He' Hq'.
    pose proof (session_entry _ _ _ _ _ _ e Hi Ht eq_refl He') as Heq. rewrite Heq in *. by simplify_eq. }
  destruct st as [|e|e|e|status|status out|message|out]; cbn in Hs.
  - destruct (Write (answer inp) p) as [p' err] eqn:W. pose proof (later_write (answer inp) p) as Hl. rewrite W in Hl. cbn in Hl.
    pose proof (inv_set_proc _ _ _ _ _ Hi Hp Hl). destruct err; simplify_eq; by apply Hmove.
  - destruct (refreshProcessState (StdinProcessID w) s) as [status s1] eqn:R.
    destruct (inv_refresh _ _ _ _ _ Hi R) as (Hi' & Hth & _). rewrite <- Hth in Ht.
    destruct status; [case_decide| |case_decide]; simplify_eq; (by apply Hmove) || (by apply Hend).
  - simplify_eq. apply Hmove; [by apply (inv_set_proc _ _ _ _ _ Hi Hp (later_terminate p))|done|].
    intros q. cbn. rewrite lookup_insert_eq. by intros [= <-].
  - simplify_eq. apply Hend; [|done|done]. apply Hrel. right. by left.
  - simplify_eq. by apply Hmove.
  - destruct (FailureMessage p) as [message|] eqn:F; [|destruct status as [status|]]; simplify_eq.
    + apply Hmove; [done|done|]. intros q Hq _. simplify_eq. cbn. by eapply (inv_sound _ _ Hi).
    + apply Hend; [done|done|apply stdin_finish_idle].
    + by apply Hmove.
  - simplify_eq. apply Hend; [|done|done]. apply Hrel. left. unfold over. cbn in Hk. by rewrite Hk.
  - destruct (refreshProcessState (StdinProcessID w) s) as [status s1] eqn:R.
    destruct (inv_refresh _ _ _ _ _ Hi R) as (Hi' & Hth & _). rewrite <- Hth in Ht. simplify_eq.
    apply Hend; [done|done|apply stdin_finish_idle].
Qed.

(** ** Every action *)

Lemma inv_step owner s a s' : inv owner s -> step order a s = Some s' -> NoDup (issued s') -> exists owner', inv owner' s'.
Proof.
  intros Hi Hs Hnd. destruct a as [t draw|t|t req sp|t w|t inp|id|id now| |i|n ev]; cbn in Hs.
  - destruct (threads s !! t) eqn:Ht; [done|]. destruct (allocate draw s) as [[id s1]|] eqn:A; simplify_eq; [|by exists owner].
    exists owner. by eapply inv_allocate.
  - destruct (threads s !! t) as [[id| | | | |]|] eqn:Ht; simplify_eq. exists owner.
    destruct (sessions_inv_remove _ s id Hi) as [Hi' Hf].
    { intros e p He. by rewrite (claim_unstored _ _ _ _ _ Hi Ht eq_refl) in He. }
    eapply inv_end; [done..| |done]. intros id' [= <-]. apply Hf.
  - destruct (threads s !! t) as [[id| | | | |]|] eqn:Ht; simplify_eq. case_decide as Hid; [|done]. subst id. exists owner.
    destruct sp as [e|sp].
    + simplify_eq. destruct (sessions_inv_remove _ s (ProcessID req) Hi) as [Hi' Hf].
      { intros e' p He. by rewrite (claim_unstored _ _ _ _ _ Hi Ht eq_refl) in He. }
      eapply inv_end; [done..| |done]. intros id' [= <-]. apply Hf.
    + destruct (procs s !! spawnedAs sp) eqn:Hn; simplify_eq. apply inv_spawn; [done..|]. apply sound_events, sound_new.
  - destruct (threads s !! t) eqn:Ht; simplify_eq. exists owner. by apply inv_new_thread.
  - destruct (threads s !! t) as [c|] eqn:Ht; [|done]. cbn in Hs.
    destruct (thread_step order inp c s) as [[c' s1]|] eqn:T; [|done]. cbn in Hs. simplify_eq.
    destruct c as [id|req n st|w|w pr st| |r]; [done| | | |done|done].
    + cbn in T. destruct (procs s !! n) as [p|] eqn:Hp; [|done]. cbn in T. simplify_eq.
      destruct (ExecCommand_step order inp req n p st s) as [c1 s2] eqn:X. simplify_eq.
      destruct (exec_step _ _ _ _ _ _ _ _ _ _ Hi Ht Hp X) as (owner' & H & _). by exists owner'.
    + exists owner. by eapply stdin_start.
    + cbn in T. destruct (procs s !! prProcess pr) as [p|] eqn:Hp; [|done]. cbn in T. simplify_eq. exists owner.
      destruct (WriteStdin_step inp w pr p st s) as [c1 s2] eqn:X. simplify_eq. by eapply stdin_step.
  - simplify_eq. exists owner. destruct (processes (store s) !! id) as [e|] eqn:E.
    + apply (sessions_inv_remove _ _ id (inv_add_pending _ _ (process e) Hi)). cbn. intros e' p He _. rewrite E in He. simplify_eq.
      right; right. by constructor.
    + apply (sessions_inv_remove _ _ id Hi). intros e p He. congruence.
  - simplify_eq. exists owner. by apply inv_touch.
  - simplify_eq. exists owner. by apply inv_terminate_all.
  - destruct (pending s !! i) as [n|] eqn:Hp; [|done]. cbn in Hs. destruct (procs s !! n) as [p|] eqn:Hn; [|done]. cbn in Hs.
    simplify_eq. exists owner. by apply inv_terminate.
  - destruct (procs s !! n) as [p|] eqn:Hn; [|done]. cbn in Hs. simplify_eq. exists owner.
    eapply inv_set_proc; [done..|apply later_event].
Qed.

(** ** Runs *)

Lemma thread_step_issued inp c s c' s' : thread_step order inp c s = Some (c', s') -> issued s' = issued s.
Proof.
  assert (forall id st s2, refreshProcessState id s = (st, s2) -> issued s2 = issued s) as Hr.
  { intros id st s2. unfold refreshProcessState. repeat case_match; by intros [= <- <-]. }
  destruct c as [id|req n st|w|w pr st| |r]; cbn; [done| | | |done|done].
  - destruct (procs s !! n) as [p|]; [|done]. cbn. destruct st; cbn; unfold storeProcess;
      try (destruct (refreshProcessState _ _) as [[] s2] eqn:R; apply Hr in R);
      repeat case_match; intros; by simplify_eq.
  - unfold prepareProcessHandles. repeat case_match; intros; by simplify_eq.
  - destruct (procs s !! prProcess pr) as [p|]; [|done]. cbn. destruct st; cbn;
      try (destruct (refreshProcessState _ _) as [[] s2] eqn:R; apply Hr in R);
      repeat case_match; intros; by simplify_eq.
Qed.

Lemma issued_grows a s s' : step order a s = Some s' -> exists l, issued s' = l ++ issued s.
Proof.
  destruct a as [t draw|t|t req sp|t w|t inp|id|id now| |i|n ev]; cbn; intros H.
  - unfold allocate in H. repeat case_match; simplify_eq; first [by exists [] | by eexists [_]].
  - exists []. repeat case_match; by simplify_eq.
  - exists []. repeat case_match; by simplify_eq.
  - exists []. repeat case_match; by simplify_eq.
  - exists []. destruct (threads s !! t) as [c|]; [|done]. cbn in H.
    destruct (thread_step order inp c s) as [[c' s1]|] eqn:T; [|done]. cbn in H. simplify_eq. cbn. by eapply thread_step_issued.
  - exists []. repeat case_match; by simplify_eq.
  - exists []. by simplify_eq.
  - exists []. by simplify_eq.
  - exists []. destruct (pending s !! i) as [n|]; [|done]. cbn in H. destruct (procs s !! n); [|done]. cbn in H. by simplify_eq.
  - exists []. destruct (procs s !! n); [|done]. cbn in H. by simplify_eq.
Qed.

Lemma run_grows acts s s' : run order acts s = Some s' -> exists l, issued s' = l ++ issued s.
Proof.
  revert s. induction acts as [|a acts IH]; intros s Hr; cbn in Hr; [simplify_eq; by exists []|].
  destruct (step order a s) as [s1|] eqn:E; [|done]. cbn in Hr.
  destruct (issued_grows _ _ _ E) as [l1 H1], (IH _ Hr) as [l2 H2]. exists (l2 ++ l1). by rewrite H2, H1, (assoc (++)).
Qed.

Lemma inv_run acts : forall owner s s', inv owner s -> run order acts s = Some s' -> NoDup (issued s') -> exists owner', inv owner' s'.
Proof.
  induction acts as [|a acts IH]; intros owner s s' Hi Hr Hnd; cbn in Hr; [simplify_eq; by exists owner|].
  destruct (step order a s) as [s1|] eqn:E; [|done]. cbn in Hr. destruct (run_grows _ _ _ Hr) as [l Hl].
  assert (NoDup (issued s1)) as Hnd1 by (rewrite Hl in Hnd; by apply NoDup_app in Hnd as (_ & _ & ?)).
  destruct (inv_step _ _ _ _ Hi E Hnd1) as [owner1 Hi1]. by eapply IH.
Qed.

(** ** What holds even when ids are given out again *)

(** The store is bounded, and a reserved id belongs to a session or a call. *)
Definition bounded (s : system) : Prop :=
  (size (processes (store s)) <= MaxUnifiedExecProcesses)%nat
  /\ forall id, id ∈ reserved (store s) -> is_Some (processes (store s) !! id) \/ claimed s id.

(** The store loses sessions and reservations, a session only with its id. *)
Definition shrinks (st st' : processStore) : Prop :=
  (size (processes st') <= size (processes st))%nat
  /\ forall id, id ∈ reserved st' -> id ∈ reserved st /\ (is_Some (processes st !! id) -> is_Some (processes st' !! id)).

Lemma shrinks_refl st : shrinks st st.
Proof. by split. Qed.
Lemma shrinks_remove id st : shrinks st (remove id st).2.
Proof.
  split; cbn; [apply map_subseteq_size, delete_subseteq|]. intros id' [Hr Hne]%elem_of_difference.
  rewrite lookup_delete_ne by set_solver. done.
Qed.
Lemma shrinks_touch id now st : shrinks st (touch id now st).
Proof.
  unfold touch. destruct (processes st !! id) as [e|] eqn:E; [|apply shrinks_refl]. split; cbn.
  - by rewrite map_size_insert_Some by (by rewrite E).
  - intros id' Hr. split; [done|]. intros H. destruct (decide (id = id')) as [->|];
      [rewrite lookup_insert_eq; by eexists|by rewrite lookup_insert_ne].
Qed.

Lemma bounded_same s s' : bounded s -> threads s' = threads s -> shrinks (store s) (store s') -> bounded s'.
Proof.
  intros [Hb Hr] Ht [Hs Hl]. split; [lia|]. intros id Hid. destruct (Hl id Hid) as [Hid' Hk].
  destruct (Hr id Hid') as [H|(t & c & H1 & H2)]; [by left; apply Hk|right; exists t, c; by rewrite Ht].
Qed.

(** A call may drop its id when the id is free or has a session. *)
Definition lets_go (st : processStore) (c c' : pc) : Prop :=
  forall id, claim c = Some id -> claim c' = Some id \/ id ∉ reserved st \/ is_Some (processes st !! id).

Lemma bounded_thread s t c' : bounded s -> (forall c, threads s !! t = Some c -> lets_go (store s) c c') -> bounded (set_thread t c' s).
Proof.
  intros [Hb Hr] Hg. split; [done|]. intros id Hid. destruct (Hr id Hid) as [H|(t2 & c2 & H1 & H2)]; [by left|].
  destruct (decide (t2 = t)) as [->|Hne].
  - destruct (Hg _ H1 id H2) as [H|[H|H]]; [right|done|by left]. exists t, c'. cbn. by rewrite lookup_insert_eq.
  - right. exists t2, c2. cbn. by rewrite lookup_insert_ne by done.
Qed.

Lemma refresh_shrinks id s status s' : refreshProcessState id s = (status, s') -> threads s' = threads s /\ shrinks (store s) (store s').
Proof.
  unfold refreshProcessState. repeat case_match; intros; simplify_eq; (split; [done|]);
    first [apply shrinks_refl|apply (shrinks_remove _ (store s))].
Qed.

Lemma bounded_store_process s n req now : bounded s ->
  let s' := storeProcess order n req now s in
  threads s' = threads s /\ is_Some (processes (store s') !! ProcessID req) /\ bounded s'.
Proof.
  intros Hb. unfold storeProcess, pruneProcessesIfNeeded.
  assert (forall pruned st e p a, shrinks (store s) st -> (size (processes st) < MaxUnifiedExecProcesses)%nat ->
    let s' := mkSystem (mkProcessStore (<[ProcessID req := e]> (processes st)) (reserved st)) (deterministicIDs s) p pruned (threads s) (issued s) a in
    threads s' = threads s /\ is_Some (processes (store s') !! ProcessID req) /\ bounded s') as Hins.
  { intros pruned st e p a Hs Hlt. destruct (bounded_same s (set_store st s) Hb eq_refl Hs) as [_ Hr].
    split_and!; [done|cbn; rewrite lookup_insert_eq; by eexists|]. split; cbn.
    - rewrite map_size_insert. unfold MaxUnifiedExecProcesses in *. case_match; cbn; lia.
    - intros id Hid. destruct (Hr id Hid) as [H|H]; [left|by right]. destruct (decide (ProcessID req = id)) as [->|];
        [rewrite lookup_insert_eq; by eexists|by rewrite lookup_insert_ne]. }
  destruct (Nat.ltb_spec (size (processes (store s))) MaxUnifiedExecProcesses) as [Hlt|Hge]; [by apply Hins; [apply shrinks_refl|]|].
  set (m := map (meta_of (proc_exited s)) (order (processes (store s)))).
  assert (length m = size (processes (store s))) as Hlen.
  { unfold m. by rewrite length_map, (Permutation_length (order_perm _)), length_map_to_list. }
  pose proof (prune_choice m (meta_ids _ _)) as Hc. destruct (processIDToPruneFromMeta m) as [victim|].
  2: { unfold MaxUnifiedExecProcesses in Hge. lia. }
  destruct Hc as (recent & rest & v & Hperm & _ & Hv & Hid & _).
  assert (v ∈ m) as Hvm by (rewrite Hperm; apply elem_of_app; by right).
  apply list_elem_of_fmap in Hvm as ([vid e] & -> & Hin). cbn in Hid. subst vid.
  rewrite order_perm in Hin. apply elem_of_map_to_list in Hin. unfold remove. rewrite Hin.
  apply Hins; [apply (shrinks_remove victim (store s))|]. cbn. rewrite map_size_delete_Some by done.
  destruct Hb as [Hsz _]. unfold MaxUnifiedExecProcesses in *. lia.
Qed.

Lemma bounded_thread_step inp t c s c' s' : bounded s -> threads s !! t = Some c -> thread_step order inp c s = Some (c', s') ->
  bounded (set_thread t c' s').
Proof.
  intros Hb Ht Hs.
  assert (forall c' s', threads s' = threads s -> shrinks (store s) (store s') -> lets_go (store s') c c' -> bounded (set_thread t c' s')) as Hgo.
  { intros c1 s1 H1 H2 H3. apply bounded_thread; [by eapply bounded_same|]. intros c2 H. rewrite H1, Ht in H. by injection H as <-. }
  destruct c as [id|req n st|w|w pr st| |r]; cbn in Hs; [done| | | |done|done].
  - destruct (procs s !! n) as [p|]; [|done]. cbn in Hs. injection Hs as Hs.
    destruct st as [| |alive|alive out|alive message|out|out|out code|out code]; cbn in Hs.
    2: { injection Hs as <- <-. destruct (bounded_store_process s n req (now inp) Hb) as (H1 & H2 & H3).
         apply bounded_thread; [done|]. intros c2 H. rewrite H1, Ht in H. injection H as <-. intros id [= <-]. by right; right. }
    5: { destruct (refreshProcessState (ProcessID req) s) as [status s1] eqn:R. apply refresh_shrinks in R as [H1 H2].
         destruct status; injection Hs as <- <-; by apply Hgo. }
    all: repeat case_match; simplify_eq; (apply Hgo; [done|first [apply shrinks_refl|apply (shrinks_remove _ (store s))]|]);
      intros id; try destruct alive; cbn; intros; simplify_eq; auto; right; left; set_solver.
  - unfold prepareProcessHandles in Hs. repeat case_match; simplify_eq;
      (apply Hgo; [done|first [apply shrinks_refl|apply (shrinks_touch _ _ (store s))]|by intros ? [= ]]).
  - destruct (procs s !! prProcess pr) as [p|]; [|done]. cbn in Hs. injection Hs as Hs.
    destruct st; cbn in Hs; try (destruct (refreshProcessState _ _) as [status s1] eqn:R; apply refresh_shrinks in R as [H1 H2]);
      repeat case_match; simplify_eq; (apply Hgo; [done|first [done|apply shrinks_refl|apply (shrinks_remove _ (store s))]|by intros ? [= ]]).
Qed.

Lemma bounded_step a s s' : bounded s -> step order a s = Some s' -> bounded s'.
Proof.
  intros Hb Hs. destruct a as [t draw|t|t req sp|t w|t inp|id|id now| |i|n ev]; cbn in Hs.
  - destruct (threads s !! t) eqn:Ht; [done|]. unfold allocate in Hs. case_decide as Hr; simplify_eq; [done|].
    destruct Hb as [Hsz Hb]. split; [done|]. cbn. set (id := if deterministicIDs s then _ else _).
    intros id' [->%elem_of_singleton|H]%elem_of_union.
    + right. exists t, (pc_allocated id). cbn. by rewrite lookup_insert_eq.
    + destruct (Hb id' H) as [?|(t2 & c2 & H2 & Hc)]; [by left|right]. exists t2, c2. cbn.
      rewrite lookup_insert_ne; [done|congruence].
  - destruct (threads s !! t) as [[id| | | | |]|] eqn:Ht; simplify_eq. apply bounded_thread.
    + by apply (bounded_same s); [|done|apply shrinks_remove].
    + intros c2 H. cbn in H. rewrite Ht in H. injection H as <-. intros id' [= <-]. right. left. cbn. set_solver.
  - destruct (threads s !! t) as [[id| | | | |]|] eqn:Ht; simplify_eq. case_decide as Hid; [|done]. subst id. destruct sp as [e|sp].
    + simplify_eq. apply bounded_thread; [by apply (bounded_same s); [|done|apply shrinks_remove]|].
      intros c2 H. cbn in H. rewrite Ht in H. injection H as <-. intros id' [= <-]. right. left. cbn. set_solver.
    + destruct (procs s !! spawnedAs sp); simplify_eq. apply bounded_thread; [by apply (bounded_same s); [|done|apply shrinks_refl]|].
      intros c2 H. cbn in H. rewrite Ht in H. injection H as <-. intros id' [= <-]. by left.
  - destruct (threads s !! t) eqn:Ht; simplify_eq. apply bounded_thread; [done|]. intros c2 H. congruence.
  - destruct (threads s !! t) as [c|] eqn:Ht; [|done]. cbn in Hs.
    destruct (thread_step order inp c s) as [[c' s1]|] eqn:T; [|done]. cbn in Hs. simplify_eq. by eapply bounded_thread_step.
  - simplify_eq. apply (bounded_same s); [done|by destruct (processes (store s) !! id)|apply shrinks_remove].
  - simplify_eq. by apply (bounded_same s); [|done|apply shrinks_touch].
  - simplify_eq. split; cbn; [rewrite map_size_empty; lia|set_solver].
  - destruct (pending s !! i) as [n|]; [|done]. cbn in Hs. destruct (procs s !! n); [|done]. cbn in Hs. simplify_eq.
    by apply (bounded_same s); [|done|apply shrinks_refl].
  - destruct (procs s !! n); [|done]. cbn in Hs. simplify_eq. by apply (bounded_same s); [|done|apply shrinks_refl].
Qed.

Lemma bounded_run acts : forall s s', bounded s -> run order acts s = Some s' -> bounded s'.
Proof.
  induction acts as [|a acts IH]; intros s s' Hb Hr; cbn in Hr; [by simplify_eq|].
  destruct (step order a s) as [s1|] eqn:E; [|done]. cbn in Hr. eapply IH; [|done]. by eapply bounded_step.
Qed.

(** C8: no id is leaked, and no session is lost while ids are fresh. In every
    interleaving of calls, exits, evictions and terminations at most 64 sessions
    are kept, and an id is reserved only while a session has it or a call that
    has not stored its process. When no id has been given out twice so far, every
    process is in the store, about to be stored by the call that started it,
    over, terminated or about to be terminated. The condition is needed:
    an id that is free again can be given out again, and a call that still goes by
    its old id then takes the session of the new one out of the store
    ([stale_release_loses_session], [terminate_all_loses_session]). *)
Theorem sessions_accounted det acts s : run order acts (init det) = Some s ->
  (size (processes (store s)) <= 64)%nat
  /\ (forall id, id ∈ reserved (store s) -> is_Some (processes (store s) !! id)
       \/ exists t c, threads s !! t = Some c /\ claim c = Some id)
  /\ (NoDup (issued s) -> forall n p, procs s !! n = Some p ->
       (exists id e, processes (store s) !! id = Some e /\ process e = n)
       \/ (exists t req, threads s !! t = Some (pc_exec req n es_alive) \/ threads s !! t = Some (pc_exec req n es_store))
       \/ over p = true \/ terminated p = true \/ n ∈ pending s).
Proof.
  intros Hr. assert (bounded s) as [Hb1 Hb2].
  { eapply bounded_run; [|exact Hr]. split; cbn; [rewrite map_size_empty; lia|set_solver]. }
  split_and!; [done..|]. intros Hnd n p Hn. destruct (inv_run _ _ _ _ (sessions_inv_init det) Hr Hnd) as [owner Hi].
  destruct (inv_kept _ _ Hi n p Hn) as [H|[(t & c & Ht & Hc)|H]]; [by left| |by right; right].
  right; left. destruct c as [|req m []| | | |]; simplify_eq/=; exists t, req; auto.
Qed.

(** A call that ends has either left its live session in the store and named it,
    or given its id back. *)
Lemma exec_settles det acts s t req n st inp s' r : run order acts (init det) = Some s -> NoDup (issued s) ->
  threads s !! t = Some (pc_exec req n st) -> step order (act_step t inp) s = Some s' ->
  threads s' !! t = Some (pc_done r) -> settled s' req n r.
Proof.
  intros Hr Hnd Ht Hs Hd. destruct (inv_run _ _ _ _ (sessions_inv_init det) Hr Hnd) as [owner Hi].
  destruct (inv_knows _ _ Hi t _ n Ht eq_refl) as (p & Hp & _). cbn in Hs. rewrite Ht in Hs. cbn in Hs. rewrite Hp in Hs. cbn in Hs.
  destruct (ExecCommand_step order inp req n p st s) as [c' s1] eqn:X. simplify_eq.
  destruct (exec_step _ _ _ _ _ _ _ _ _ _ Hi Ht Hp X) as (_ & _ & Hset). cbn in Hd. rewrite lookup_insert_eq in Hd.
  simplify_eq. by apply Hset.
Qed.

End Order.

(** ** Concrete runs *)

Definition request (id : Z) : ExecCommandRequest := mkExecCommandRequest (str "sleep 9") (str "c") id 1000 None true.
Definition no_input : input := mkInput 0 [] local_accepted.
Definition started (n : nat) : sum Error spawned_process := inr (mkSpawned n SandboxTypeNone true []).

Definition lost (s : system) (n : nat) : bool :=
  match procs s !! n with
  | Some p => negb (over p) && negb (terminated p) && bool_decide (n ∉ pending s)
              && forallb (fun kv => negb (bool_decide (process kv.2 = n))) (map_to_list (processes (store s)))
  | None => false
  end.

Lemma sessions_accounted_witness :
  let acts := [act_allocate 0 5000; act_exec 0 (request 5000) (started 0); act_step 0 no_input; act_step 0 no_input;
               act_allocate 1 7000; act_kill 5000] in
  match run map_to_list acts (init false) with
  | Some s =>
      issued s = [7000; 5000] /\ (size (processes (store s)) <= 64)%nat
      /\ (forall n p, procs s !! n = Some p ->
           (exists id e, processes (store s) !! id = Some e /\ process e = n)
           \/ (exists t req, threads s !! t = Some (pc_exec req n es_alive) \/ threads s !! t = Some (pc_exec req n es_store))
           \/ over p = true \/ terminated p = true \/ n ∈ pending s)
  | None => False
  end.
Proof.
  intros acts. assert (issued <$> run map_to_list acts (init false) = Some [7000; 5000]) as Hiss by (vm_compute; reflexivity).
  destruct (run map_to_list acts (init false)) as [s|] eqn:E; [|discriminate Hiss]. injection Hiss as Hiss.
  destruct (sessions_accounted map_to_list (fun m => Permutation_refl _) false acts s E) as (H1 & _ & H3).
  split_and!; [done|done|]. apply H3. rewrite Hiss. refine (bool_decide_eq_true_1 _ _). vm_compute. reflexivity.
Defined.

(** [TerminateAllProcesses] forgets the reservations of calls under way: the id
    is given out again, and the second session overwrites the first, which
    nobody terminates. *)
Example terminate_all_loses_session :
  let acts := [act_allocate 0 0; act_exec 0 (request 1000) (started 0); act_step 0 no_input; act_terminate_all;
               act_allocate 1 0; act_exec 1 (request 1000) (started 1); act_step 1 no_input;
               act_step 0 no_input; act_step 1 no_input] in
  (fun s => lost s 0) <$> run map_to_list acts (init true) = Some true.
Proof. vm_compute. reflexivity. Qed.

(** A call whose process failed releases the id even when another session has
    it by now: the live session of the second call drops out of the store. *)
Example stale_release_loses_session :
  let acts := [act_allocate 0 5000; act_exec 0 (request 5000) (started 0); act_step 0 no_input; act_step 0 no_input;
               act_kill 5000; act_allocate 1 5000; act_exec 1 (request 5000) (started 1); act_step 1 no_input; act_step 1 no_input;
               act_event 0 (task_failed (str "boom")); act_step 0 no_input; act_step 0 no_input; act_step 0 no_input] in
  (fun s => lost s 1) <$> run map_to_list acts (init false) = Some true.
Proof. vm_compute. reflexivity. Qed.

End ExecSessions.
