(* ===== verification/ExecWatcher.v ===== *)
(** * internal/unifiedexec: the session watcher

    [async_watcher.go] with the subscribers of [process.go]: the goroutine that
    cuts the broadcast output of a live session into deltas and keeps the
    transcript, and the one that reports the end of the session.  A subscriber
    has a channel of 64 chunks and is dropped when it is full; the events are
    interleaved with what the process does, in any order. *)

From stdpp Require Import base list strings.
From S2P Require Import Prelude GoStrings GoUtf8 HeadTail StreamUtf8 SandboxProfile ExecProcess.

Module ExecWatcher.
Import ExecProcess HeadTail.
#[local] Open Scope Z_scope.

Definition unifiedExecOutputDeltaMaxBytes : Z := 8192.
Definition maxExecOutputDeltasPerCall : Z := 10000.
Definition subscriberCapacity : nat := 64.

(** ** Cutting the output *)

(** The loop on [split]; [None] is the way out without a valid prefix. *)
Fixpoint split_loop (maxLen split : nat) (buf : gostring) : option nat :=
  match split with
  | O => None
  | S split' =>
      if valid_utf8 (take split buf) then Some split
      else if (4 <? maxLen - split)%nat then None
      else split_loop maxLen split' buf
  end.

(** [None] when the buffer is empty, else the prefix and what is left. *)
Definition splitValidUTF8PrefixWithMax (buf : gostring) (maxBytes : Z) : option (gostring * gostring) :=
  if decide (buf = []) then None
  else
    let maxLen := if maxBytes <? zlen buf then maxBytes else zlen buf in
    let split := default 1%nat (split_loop (Z.to_nat maxLen) (Z.to_nat maxLen) buf) in
    Some (take split buf, drop split buf).

Definition splitValidUTF8Prefix (buf : gostring) : option (gostring * gostring) :=
  splitValidUTF8PrefixWithMax buf unifiedExecOutputDeltaMaxBytes.

Definition toValidUTF8 (b : gostring) : gostring := if valid_utf8 b then b else encode_runes (runes b).

Definition resolveAggregatedOutput (transcript : HeadTailBuffer) (fallback : gostring) : gostring :=
  if RetainedBytes transcript =? 0 then fallback else toValidUTF8 (ToBytes transcript).

(** ** The subscribers of a process *)

Record subscriber := mkSubscriber { queue : list gostring; live : bool }.

Definition SubscribeOutput : subscriber := mkSubscriber [] true.

(** A subscriber that is full is removed and its channel closed; what the
    channel holds can still be received. *)
Definition broadcast (chunk : gostring) (s : subscriber) : subscriber :=
  if live s then
    if decide (length (queue s) < subscriberCapacity)%nat then mkSubscriber (queue s ++ [chunk]) true
    else mkSubscriber (queue s) false
  else s.

Definition closeSubscribers (s : subscriber) : subscriber := mkSubscriber (queue s) false.

(** ** The streaming goroutine *)

(** [deltas] is what the sink got, [drained] the channel closed on return. *)
Record stream := mkStream {
  pending : gostring;
  emittedDeltas : Z;
  graceTimer : bool;
  transcript : HeadTailBuffer;
  deltas : list gostring;
  drained : bool;
}.

Definition emit_piece (prefix : gostring) (s : stream) : stream :=
  let t := PushChunk (transcript s) prefix in
  if maxExecOutputDeltasPerCall <=? emittedDeltas s
  then mkStream (pending s) (emittedDeltas s) (graceTimer s) t (deltas s) (drained s)
  else mkStream (pending s) (emittedDeltas s + 1) (graceTimer s) t (deltas s ++ [prefix]) (drained s).

Definition set_pending (p : gostring) (s : stream) : stream :=
  mkStream p (emittedDeltas s) (graceTimer s) (transcript s) (deltas s) (drained s).

(** Every turn takes a byte or more, so the length of [pending] is enough
    fuel. *)
Fixpoint drain_loop (fuel : nat) (s : stream) : stream :=
  match fuel with
  | O => s
  | S fuel =>
      match splitValidUTF8Prefix (pending s) with
      | None => s
      | Some (prefix, rest) => drain_loop fuel (emit_piece prefix (set_pending rest s))
      end
  end.
Definition drainPending (s : stream) : stream := drain_loop (length (pending s)) s.

Definition finish (s : stream) : stream :=
  mkStream (pending s) (emittedDeltas s) (graceTimer s) (transcript s) (deltas s) true.

(** The branches of the [select]; [None]: the branch is not ready.  The timer
    can fire once it is set. *)
Inductive branch := on_cancelled | on_grace | on_receive.

Definition stream_step (br : branch) (isCancelled : bool) (sub : subscriber) (s : stream)
    : option (subscriber * stream) :=
  if drained s then None
  else match br with
       | on_cancelled =>
           if isCancelled
           then Some (sub, mkStream (pending s) (emittedDeltas s) true (transcript s) (deltas s) false)
           else None
       | on_grace => if graceTimer s then Some (sub, finish s) else None
       | on_receive =>
           match queue sub with
           | chunk :: rest => Some (mkSubscriber rest (live sub), drainPending (set_pending (pending s ++ chunk) s))
           | [] => if live sub then None else Some (sub, finish (drainPending s))
           end
       end.

(** ** The exit goroutine *)

(** The call id, command, directory, process id and times are copied from
    [WatcherInfo]; they are left out. *)
Record ExecEndInfo := mkExecEndInfo { Output : gostring; ExitCode : Z; Failure : gostring }.

Definition exec_end (p : Process) (t : HeadTailBuffer) : ExecEndInfo :=
  let aggregated := resolveAggregatedOutput t [] in
  match FailureMessage p with
  | Some message => mkExecEndInfo aggregated (-1) message
  | None => mkExecEndInfo aggregated (default (-1) (ExecProcess.ExitCode p)) []
  end.

(** ** The session *)

(** [produced] is all that was broadcast, [ends] the calls of [ExecEnd]. *)
Record session := mkSession {
  process : Process;
  isCancelled : bool;
  sub : subscriber;
  out : stream;
  ends : list ExecEndInfo;
  produced : list gostring;
}.

Inductive action :=
| output (chunk : gostring)
| output_closed
| process_change (ev : process_event)
| cancel
| streaming (br : branch)
| exit_watcher.

Definition step (a : action) (w : session) : option session :=
  match a with
  | output chunk =>
      Some (mkSession (process w) (isCancelled w) (broadcast chunk (sub w)) (out w) (ends w) (produced w ++ [chunk]))
  | output_closed =>
      Some (mkSession (process w) (isCancelled w) (closeSubscribers (sub w)) (out w) (ends w) (produced w))
  | process_change ev =>
      Some (mkSession (apply_event ev (process w)) (isCancelled w) (sub w) (out w) (ends w) (produced w))
  | cancel => Some (mkSession (process w) true (sub w) (out w) (ends w) (produced w))
  | streaming br =>
      match stream_step br (isCancelled w) (sub w) (out w) with
      | Some (sub', out') => Some (mkSession (process w) (isCancelled w) sub' out' (ends w) (produced w))
      | None => None
      end
  | exit_watcher =>
      if isCancelled w && drained (out w) && bool_decide (ends w = [])
      then Some (mkSession (process w) (isCancelled w) (sub w) (out w)
                   [exec_end (process w) (transcript (out w))] (produced w))
      else None
  end.

Fixpoint run (actions : list action) (w : session) : option session :=
  match actions with
  | [] => Some w
  | a :: rest => match step a w with Some w' => run rest w' | None => None end
  end.

(** [StartSessionWatcher] with an empty transcript. *)
Definition StartSessionWatcher (p : Process) (maxBytes : Z) : session :=
  mkSession p false SubscribeOutput (mkStream [] 0 false (NewHeadTailBuffer maxBytes) [] false) [] [].

(** ** Lemmas on the cut *)

Lemma runes_chars s : Forall (fun r => scalar r) (runes s).
Proof.
  remember (length s) as n eqn:En. revert s En. induction n as [n IH] using lt_wf_ind. intros s ->.
  destruct s as [|c s]; [constructor|]. rewrite runes_cons by done.
  pose proof (decode_rune_width (c :: s) ltac:(done)) as Hw.
  destruct (decode_rune (c :: s)) as [r w] eqn:E. simpl in Hw. constructor.
  - destruct (decide (w = 1%nat)) as [->|Hne].
    + destruct (decode_rune_width_one c s r E) as [Hlt| ->]; [|unfold scalar, RuneError; cbn; lia].
      eapply encode_decode; [done|exact E|by right].
    + eapply encode_decode; [done|exact E|by left].
  - apply (IH (length (drop w (c :: s)))); [rewrite length_drop; simpl in *; lia|done].
Qed.

Lemma toValidUTF8_valid b : valid_utf8 (toValidUTF8 b) = true.
Proof. unfold toValidUTF8. destruct (valid_utf8 b) eqn:E; [done|]. apply valid_utf8_encode, runes_chars. Qed.

Lemma split_loop_spec maxLen split buf k : split_loop maxLen split buf = Some k ->
  (1 <= k <= split)%nat /\ valid_utf8 (take k buf) = true.
Proof.
  induction split as [|split IH]; cbn [split_loop]; [done|].
  destruct (valid_utf8 (take (S split) buf)) eqn:E; [intros [= <-]; split; [lia|done]|].
  destruct (4 <? maxLen - S split)%nat; [done|]. intros Hk%IH. intuition lia.
Qed.

(** A valid string has a boundary at or within three bytes before [n]. *)
Lemma boundary_near rs n : Forall scalar rs -> (n <= length (encode_runes rs))%nat ->
  exists m, (m <= n < m + 4)%nat /\ valid_utf8 (take m (encode_runes rs)) = true
            /\ valid_utf8 (drop m (encode_runes rs)) = true.
Proof.
  revert n. induction rs as [|r rs IH]; intros n Hall Hn.
  { exists 0%nat. cbn in *. split_and!; [lia..|done|done]. }
  apply Forall_cons in Hall as [Hr Hrs]. pose proof (encode_rune_length r) as Hl.
  destruct (decide (n < length (encode_rune r))%nat) as [Hlt|Hge].
  { exists 0%nat. rewrite take_0, drop_0. split_and!; [lia..|done|apply valid_utf8_encode; by constructor]. }
  rewrite encode_runes_cons, length_app in *.
  destruct (IH (n - length (encode_rune r))%nat Hrs) as (m & Hm & Ht & Hd); [lia|].
  exists (length (encode_rune r) + m)%nat. split; [lia|].
  rewrite take_app_add, drop_app_add.
  assert (valid_utf8 (encode_rune r) = true) as Hv.
  { rewrite <- (app_nil_r (encode_rune r)). change (valid_utf8 (encode_rune r ++ encode_runes []) = true).
    rewrite <- encode_runes_cons. apply valid_utf8_encode. by apply Forall_singleton. }
  by rewrite Utf8Stream.valid_utf8_app.
Qed.

Lemma split_loop_finds maxLen split m buf : (m <= split)%nat -> (1 <= m)%nat -> (maxLen <= m + 4)%nat ->
  valid_utf8 (take m buf) = true -> exists k, split_loop maxLen split buf = Some k /\ (m <= k)%nat.
Proof.
  intros Hm Hpos Hmax Hv. induction split as [|split IH]; [lia|]. cbn [split_loop].
  destruct (valid_utf8 (take (S split) buf)) eqn:E; [exists (S split); split; [done|lia]|].
  destruct (decide (m = S split)) as [->|]; [congruence|].
  destruct (4 <? maxLen - S split)%nat eqn:Eb; [breflect; lia|]. apply IH. lia.
Qed.

(** What a piece looks like. *)
Definition piece_ok (max : Z) (p : gostring) : Prop :=
  p <> [] /\ zlen p <= Z.max 1 max /\ (valid_utf8 p = true \/ length p = 1%nat).

Lemma split_piece buf max p r : splitValidUTF8PrefixWithMax buf max = Some (p, r) ->
  buf = p ++ r /\ piece_ok max p.
Proof.
  unfold splitValidUTF8PrefixWithMax. destruct (decide (buf = [])) as [|Hne]; [done|]. cbv zeta. intros [= <- <-].
  split; [by rewrite take_drop|].
  set (maxLen := if max <? zlen buf then max else zlen buf).
  assert (maxLen <= zlen buf /\ maxLen <= max \/ maxLen = zlen buf /\ zlen buf <= max) as Hmax.
  { unfold maxLen. destruct (max <? zlen buf) eqn:E; breflect; lia. }
  destruct buf as [|c buf]; [done|]. set (l := c :: buf) in *.
  assert (1 <= length l)%nat by (simpl; lia). unfold zlen in *.
  destruct (split_loop (Z.to_nat maxLen) (Z.to_nat maxLen) l) as [k|] eqn:E; cbn [default from_option id].
  - apply split_loop_spec in E as [Hk Hv]. split_and!; [|unfold zlen; rewrite length_take; lia|by left].
    intros E%(f_equal length). rewrite length_take in E. simpl in E. lia.
  - split_and!; [done|unfold zlen; rewrite length_take; lia|by right].
Qed.

Lemma split_valid buf max p r : 4 <= max -> valid_utf8 buf = true ->
  splitValidUTF8PrefixWithMax buf max = Some (p, r) -> valid_utf8 p = true /\ valid_utf8 r = true.
Proof.
  intros Hmax Hv. unfold splitValidUTF8PrefixWithMax. destruct (decide (buf = [])) as [|Hne]; [done|]. cbv zeta.
  set (maxLen := if max <? zlen buf then max else zlen buf). intros [= <- <-].
  assert (maxLen <= zlen buf /\ 4 <= maxLen \/ maxLen = zlen buf /\ 1 <= maxLen) as Hlen.
  { assert (1 <= zlen buf) by (destruct buf; [done|unfold zlen; cbn [length]; lia]).
    unfold maxLen. destruct (max <? zlen buf) eqn:E; breflect; lia. }
  destruct (valid_utf8_runes buf Hv) as [E Hall]. unfold zlen in Hlen.
  assert (exists m, (1 <= m <= Z.to_nat maxLen)%nat /\ (Z.to_nat maxLen <= m + 4)%nat /\ valid_utf8 (take m buf) = true)
    as (m & Hm & Hm4 & Ht).
  { destruct Hlen as [[H1 H2]|[-> H2]].
    - destruct (boundary_near (runes buf) (Z.to_nat maxLen) Hall) as (m & Hm & Ht & _); [rewrite <- E; lia|].
      rewrite <- E in Ht. exists m. split_and!; [lia..|done].
    - exists (length buf). rewrite firstn_all. split_and!; [lia..|done]. }
  destruct (split_loop_finds (Z.to_nat maxLen) (Z.to_nat maxLen) m buf) as (k & Ek & _); [lia|lia|lia|done|].
  rewrite Ek. cbn [default from_option id]. apply split_loop_spec in Ek as [_ Hk]. split; [done|].
  rewrite <- (Utf8Stream.valid_utf8_app (take k buf)) by done. by rewrite take_drop.
Qed.

(** ** Lemmas on the loop *)

Definition emit_all (pieces : list gostring) (s : stream) : stream := fold_left (fun s p => emit_piece p s) pieces s.

Lemma emit_piece_pending p s : pending (emit_piece p s) = pending s.
Proof. unfold emit_piece. cbv zeta. by case_match. Qed.
Lemma emit_piece_drained p s : drained (emit_piece p s) = drained s.
Proof. unfold emit_piece. cbv zeta. by case_match. Qed.
Lemma emit_piece_set q p s : set_pending q (emit_piece p s) = emit_piece p (set_pending q s).
Proof. unfold emit_piece, set_pending. cbn. cbv zeta. by case_match. Qed.

Lemma drain_loop_spec fuel s : (length (pending s) <= fuel)%nat -> exists pieces,
  concat pieces = pending s /\ drain_loop fuel s = emit_all pieces (set_pending [] s)
  /\ Forall (piece_ok unifiedExecOutputDeltaMaxBytes) pieces
  /\ (valid_utf8 (pending s) = true -> Forall (fun p => valid_utf8 p = true) pieces).
Proof.
  revert s. induction fuel as [|fuel IH]; intros s Hf.
  { exists []. destruct s as [[|] ? ? ? ? ?]; cbn in *; [|lia]. by split_and!. }
  cbn [drain_loop]. destruct (splitValidUTF8Prefix (pending s)) as [[p r]|] eqn:E.
  - pose proof (split_piece _ _ _ _ E) as [Es Hp].
    destruct (IH (emit_piece p (set_pending r s))) as (pieces & Hc & Hd & Hall & Hv).
    { rewrite emit_piece_pending. cbn. rewrite Es, length_app in Hf. destruct Hp as [Hp _].
      destruct p; [done|]. simpl in Hf. lia. }
    rewrite emit_piece_pending in Hc, Hv. cbn [pending set_pending] in Hc, Hv.
    exists (p :: pieces). cbn [concat]. rewrite Hc, Hd, emit_piece_set. split_and!; [done|done|by constructor|].
    intros Hvalid. destruct (split_valid (pending s) unifiedExecOutputDeltaMaxBytes p r) as [Hvp Hvr]; [done..|].
    constructor; [done|by apply Hv].
  - exists []. unfold splitValidUTF8Prefix, splitValidUTF8PrefixWithMax in E.
    destruct (decide (pending s = [])) as [Ep|]; [|done].
    destruct s as [q ? ? ? ? ?]; cbn in *; subst q. by split_and!.
Qed.

(** The stream has [pieces] behind it. *)
Record streamed (max : Z) (pieces : list gostring) (s : stream) : Prop := mkStreamed {
  st_pending : pending s = [];
  st_max : maxBytes (transcript s) = max;
  st_transcript : models (transcript s) (concat pieces);
  st_deltas : deltas s = take (Z.to_nat maxExecOutputDeltasPerCall) pieces;
  st_emitted : emittedDeltas s = zlen (deltas s);
  st_pieces : Forall (piece_ok unifiedExecOutputDeltaMaxBytes) pieces;
}.

Lemma streamed_emit max pieces s p : streamed max pieces s -> piece_ok unifiedExecOutputDeltaMaxBytes p ->
  streamed max (pieces ++ [p]) (emit_piece p s).
Proof.
  intros [Hp Hm Ht Hd He Hall] Hok. unfold emit_piece. cbv zeta.
  assert (models (PushChunk (transcript s) p) (concat (pieces ++ [p]))) as Hmod.
  { rewrite concat_app. cbn [concat]. rewrite app_nil_r. by apply models_push. }
  assert (Forall (piece_ok unifiedExecOutputDeltaMaxBytes) (pieces ++ [p])) as Hall'.
  { apply Forall_app. split; [done|by apply Forall_singleton]. }
  rewrite He, Hd in *. unfold zlen. rewrite length_take.
  destruct (maxExecOutputDeltasPerCall <=? _) eqn:E; breflect.
  - split; cbn; rewrite ?PushChunk_maxBytes; try done.
    + by rewrite take_app_le by lia.
    + unfold zlen. rewrite length_take. lia.
  - split; cbn; rewrite ?PushChunk_maxBytes; try done.
    + rewrite !take_ge; [done|rewrite length_app; cbn; lia|lia].
    + unfold zlen. rewrite length_app, length_take. cbn. lia.
Qed.

Lemma streamed_emit_all max pieces new s : streamed max pieces s -> Forall (piece_ok unifiedExecOutputDeltaMaxBytes) new ->
  streamed max (pieces ++ new) (emit_all new s).
Proof.
  intros Hs Hall. revert pieces s Hs. induction Hall as [|p new Hp _ IH]; intros pieces s Hs; [by rewrite app_nil_r|].
  rewrite cons_middle, app_assoc. cbn. apply IH. by apply streamed_emit.
Qed.

Lemma emit_all_drained new s : drained (emit_all new s) = drained s.
Proof. revert s. induction new as [|p new IH]; intros s; cbn; [done|]. unfold emit_all in IH. by rewrite IH, emit_piece_drained. Qed.

Lemma streamed_flag max pieces s s' : streamed max pieces s -> pending s' = pending s -> transcript s' = transcript s ->
  deltas s' = deltas s -> emittedDeltas s' = emittedDeltas s -> streamed max pieces s'.
Proof. intros [] E1 E2 E3 E4. split; congruence. Qed.

(** One received chunk. *)
Lemma streamed_chunk max pieces s chunk : streamed max pieces s -> exists new,
  concat new = chunk /\ streamed max (pieces ++ new) (drainPending (set_pending (pending s ++ chunk) s))
  /\ drained (drainPending (set_pending (pending s ++ chunk) s)) = drained s
  /\ (valid_utf8 chunk = true -> Forall (fun p => valid_utf8 p = true) new).
Proof.
  intros Hs. rewrite (st_pending _ _ _ Hs). cbn [app]. unfold drainPending.
  destruct (drain_loop_spec (length (pending (set_pending chunk s))) (set_pending chunk s)) as (new & Hc & Hd & Hall & Hv);
    [done|]. exists new. split; [done|]. rewrite Hd, emit_all_drained. split_and!; [|done|done].
  apply streamed_emit_all; [|done]. eapply streamed_flag; [exact Hs|..]; cbn; try done. symmetry. apply Hs.
Qed.

(** ** The session *)

Definition all_valid (l : list gostring) : Prop := Forall (fun p => valid_utf8 p = true) l.

Record accounted (max : Z) (w : session) (received pieces missed : list gostring) : Prop := mkAccounted {
  ac_produced : produced w = received ++ queue (sub w) ++ missed;
  ac_live : live (sub w) = true -> missed = [];
  ac_concat : concat pieces = concat received;
  ac_stream : streamed max pieces (out w);
  ac_valid : all_valid received -> all_valid pieces;
  ac_ends : ends w = [] \/ drained (out w) = true /\ exists p, ends w = [exec_end p (transcript (out w))];
}.

Lemma broadcast_accounted max w received pieces missed chunk : accounted max w received pieces missed ->
  exists missed', produced w ++ [chunk] = received ++ queue (broadcast chunk (sub w)) ++ missed'
    /\ (live (broadcast chunk (sub w)) = true -> missed' = []).
Proof.
  intros [Hp Hl _ _ _ _]. rewrite Hp, <- !app_assoc. unfold broadcast. destruct (live (sub w)) eqn:El.
  - rewrite (Hl eq_refl). destruct (decide _); cbn; [exists []|exists [chunk]]; rewrite ?app_nil_r; by rewrite <- ?app_assoc.
  - exists (missed ++ [chunk]). rewrite El. by split.
Qed.

Lemma stream_step_accounted max w received pieces missed br sub' out' : accounted max w received pieces missed ->
  stream_step br (isCancelled w) (sub w) (out w) = Some (sub', out') ->
  exists received' pieces',
    accounted max (mkSession (process w) (isCancelled w) sub' out' (ends w) (produced w)) received' pieces' missed.
Proof.
  intros [Hp Hl Hc Hs Hv He] E. unfold stream_step in E. destruct (drained (out w)) eqn:Ed; [done|].
  destruct He as [He|[He _]]; [|done]. destruct br.
  - destruct (isCancelled w); [|done]. injection E as <- <-. exists received, pieces. split; cbn; try done; [|by left].
    by eapply streamed_flag.
  - destruct (graceTimer (out w)); [|done]. injection E as <- <-. exists received, pieces. split; cbn; try done; [|by left].
    by eapply streamed_flag.
  - destruct (queue (sub w)) as [|chunk rest] eqn:Eq.
    + destruct (live (sub w)) eqn:El; [done|]. injection E as <- <-. exists received, pieces.
      split; cbn; rewrite ?Eq, ?El; try done; [|by left].
      assert (drainPending (out w) = out w) as -> by (unfold drainPending; by rewrite (st_pending _ _ _ Hs)).
      by eapply streamed_flag.
    + injection E as <- <-. destruct (streamed_chunk _ _ _ chunk Hs) as (new & Hn & Hs' & Hd & Hv').
      exists (received ++ [chunk]), (pieces ++ new). split; cbn [process isCancelled sub out ends produced queue live]; try done.
      * by rewrite Hp, <- !app_assoc.
      * rewrite !concat_app, Hc, Hn. cbn. by rewrite app_nil_r.
      * unfold all_valid. rewrite !Forall_app, Forall_singleton. intros [Hr Hchunk]. split; [by apply Hv|by apply Hv'].
      * by left.
Qed.

Lemma step_accounted max a w w' received pieces missed : accounted max w received pieces missed -> step a w = Some w' ->
  exists received' pieces' missed', accounted max w' received' pieces' missed'.
Proof.
  intros H E. destruct a as [chunk| |ev| |br| ]; cbn [step] in E.
  - destruct (broadcast_accounted _ _ _ _ _ chunk H) as (missed' & Hp & Hl). injection E as <-. destruct H.
    exists received, pieces, missed'. by split.
  - injection E as <-. destruct H. exists received, pieces, missed. by split.
  - injection E as <-. destruct H. exists received, pieces, missed. by split.
  - injection E as <-. destruct H. exists received, pieces, missed. by split.
  - destruct (stream_step br _ _ _) as [[sub' out']|] eqn:Es; [|done]. injection E as <-.
    destruct (stream_step_accounted _ _ _ _ _ _ _ _ H Es) as (received' & pieces' & H'). by exists received', pieces', missed.
  - destruct (isCancelled w && drained (out w) && bool_decide (ends w = [])) eqn:Eb; [|done]. injection E as <-.
    apply andb_true_iff in Eb as [[_ Hd]%andb_true_iff _]. destruct H. exists received, pieces, missed. split; cbn; try done.
    right. split; [done|]. by eexists.
Qed.

Lemma run_accounted max actions w w' received pieces missed : accounted max w received pieces missed ->
  run actions w = Some w' -> exists received' pieces' missed', accounted max w' received' pieces' missed'.
Proof.
  revert w received pieces missed. induction actions as [|a actions IH]; intros w received pieces missed H E; cbn [run] in E.
  { injection E as <-. by exists received, pieces, missed. }
  destruct (step a w) as [w1|] eqn:Es; [|done].
  destruct (step_accounted _ _ _ _ _ _ _ H Es) as (r1 & p1 & m1 & H1). by apply (IH w1 r1 p1 m1).
Qed.

Lemma start_accounted p max : accounted max (StartSessionWatcher p max) [] [] [].
Proof.
  split; cbn; [done..| |done|by left].
  split; cbn; [done|done|apply models_new|by rewrite take_nil|done|constructor].
Qed.

Lemma exec_end_output p t : Output (exec_end p t) = resolveAggregatedOutput t [].
Proof. unfold exec_end. cbv zeta. by case_match. Qed.

Lemma resolve_retained t output : models t output ->
  resolveAggregatedOutput t [] = toValidUTF8 (retained (maxBytes t) output).
Proof.
  intros H. pose proof (models_ToBytes _ _ H) as Hb. unfold resolveAggregatedOutput. rewrite Hb.
  destruct (RetainedBytes t =? 0) eqn:E; [|done]. apply Z.eqb_eq in E. unfold RetainedBytes in E.
  rewrite (m_head_bytes _ _ H), (m_tail_bytes _ _ H) in E. unfold zlen in E. rewrite <- Hb. unfold ToBytes.
  destruct (concat (head t)); [|cbn [length] in E; lia]. destruct (concat (tail t)); [done|cbn [length] in E; lia].
Qed.

(** C9: what a session's watcher streams.  Whatever the output, its chunks and
    the order in which output, exit, cancellation, the timer and the two
    goroutines come: the chunks received are a prefix of those broadcast, and
    only a subscriber that fell behind misses any; the deltas sent are the first
    10,000 of a cut of exactly the bytes received into pieces that are not empty,
    at most 8192 bytes long and valid UTF-8 or a single byte, and all valid when
    every chunk was; the transcript shows the first and last bytes of what was
    received; and the end of the session is reported at most once, with the
    transcript made valid UTF-8. *)
Theorem watcher_streams p max actions w : run actions (StartSessionWatcher p max) = Some w ->
  exists received pieces missed,
    produced w = received ++ queue (sub w) ++ missed
    /\ (live (sub w) = true -> missed = [])
    /\ concat pieces = concat received
    /\ deltas (out w) = take (Z.to_nat maxExecOutputDeltasPerCall) pieces
    /\ Forall (piece_ok unifiedExecOutputDeltaMaxBytes) pieces
    /\ (all_valid received -> all_valid pieces)
    /\ ToBytes (transcript (out w)) = retained max (concat received)
    /\ (length (ends w) <= 1)%nat
    /\ Forall (fun e => Output e = toValidUTF8 (retained max (concat received)) /\ valid_utf8 (Output e) = true) (ends w).
Proof.
  intros E. destruct (run_accounted max actions _ w [] [] [] (start_accounted p max) E)
    as (received & pieces & missed & [Hp Hl Hc Hs Hv He]).
  pose proof (st_transcript _ _ _ Hs) as Hm. rewrite Hc in Hm. pose proof (st_max _ _ _ Hs) as Hmax.
  exists received, pieces, missed. split_and!; try done.
  - apply Hs.
  - apply Hs.
  - by rewrite (models_ToBytes _ _ Hm), Hmax.
  - destruct He as [->|[_ [q ->]]]; cbn; lia.
  - destruct He as [->|[_ [q ->]]]; [constructor|]. apply Forall_singleton. rewrite exec_end_output, (resolve_retained _ _ Hm), Hmax.
    split; [done|apply toValidUTF8_valid].
Qed.

(** A session that prints, is cancelled and ends. *)
Definition sample_run : list action :=
  [output (str "ab"); streaming on_receive; output (str "c"); process_change (task_exited (Some 3)); cancel;
   streaming on_cancelled; streaming on_receive; output_closed; streaming on_receive; exit_watcher].

Lemma watcher_streams_witness :
  let w := default (StartSessionWatcher (newProcess SandboxProfile.SandboxTypeNone true) 8)
             (run sample_run (StartSessionWatcher (newProcess SandboxProfile.SandboxTypeNone true) 8)) in
  deltas (out w) = [str "ab"; str "c"] /\ ends w = [mkExecEndInfo (str "abc") 3 []]
  /\ exists received pieces missed, produced w = received ++ queue (sub w) ++ missed
    /\ deltas (out w) = take (Z.to_nat maxExecOutputDeltasPerCall) pieces.
Proof.
  split; [vm_compute; reflexivity|]. split; [vm_compute; reflexivity|].
  destruct (watcher_streams (newProcess SandboxProfile.SandboxTypeNone true) 8 sample_run
    (default (StartSessionWatcher (newProcess SandboxProfile.SandboxTypeNone true) 8)
       (run sample_run (StartSessionWatcher (newProcess SandboxProfile.SandboxTypeNone true) 8))))
    as (received & pieces & missed & H1 & _ & _ & H2 & _); [reflexivity|].
  exists received, pieces, missed. split; [exact H1|exact H2].
Defined.

(** A subscriber that falls behind is dropped: the 65th chunk and all that
    follow are missing from the transcript the end reports, though the buffer
    of the process has them. *)
Example lag_loses_output :
  option_map (fun w => (length (concat (produced w)), map (fun e => length (Output e)) (ends w)))
    (run (repeat (output (str "x")) 80 ++ repeat (streaming on_receive) 65 ++ [cancel; exit_watcher])
       (StartSessionWatcher (newProcess SandboxProfile.SandboxTypeNone true) 1024))
  = Some (80%nat, [64%nat]).
Proof. vm_compute. reflexivity. Qed.

(** A character split over two reads is streamed byte by byte. *)
Example split_character_streamed_in_bytes :
  let e_acute := encode_rune 233 in
  option_map (fun w => deltas (out w))
    (run [output (take 1 e_acute); streaming on_receive; output (drop 1 e_acute); streaming on_receive]
       (StartSessionWatcher (newProcess SandboxProfile.SandboxTypeNone true) 1024))
  = Some [take 1 e_acute; drop 1 e_acute].
Proof. vm_compute. reflexivity. Qed.

End ExecWatcher.
