(* ===== verification/ExecCollect.v ===== *)
(** * internal/unifiedexec: collecting output

    [collect.go] and [sync.go]: the loop that drains the buffer of a process
    until a deadline or the end of the process, as steps of a goroutine that is
    interleaved with the producer of the output and with the clock. *)

From stdpp Require Import base list strings.
From S2P Require Import Prelude GoStrings HeadTail.

Module ExecCollect.
Import HeadTail.
#[local] Open Scope Z_scope.

(** Milliseconds, the unit of the clock. *)
Definition postExitCloseWaitCap : Z := 50.

(** [outputHandles].  A [notify] is the number of its broadcasts: a waiter taken
    at a count is awake once the count has moved. *)
Record outputHandles := mkHandles {
  outputBuffer : HeadTailBuffer;
  outputNotify : nat;
  outputClosed : bool;
  outputClosedNotify : nat;
  isCancelled : bool;
  clock : Z;
}.

(** ** sync.go *)

Definition waiter (n : nat) : nat := n.
Definition notifyWaiters (n : nat) : nat := S n.
Definition awake (taken current : nat) : bool := negb (taken =? current)%nat.

(** ** The producer *)

(** [pushOutput] stores the chunk and then notifies: two steps. *)
Inductive event :=
| push (chunk : gostring)
| notify
| close_output
| notify_closed
| cancel
| tick (ms : nat).

Definition happen (ev : event) (h : outputHandles) : outputHandles :=
  match ev with
  | push chunk => mkHandles (PushChunk (outputBuffer h) chunk) (outputNotify h) (outputClosed h) (outputClosedNotify h) (isCancelled h) (clock h)
  | notify => mkHandles (outputBuffer h) (notifyWaiters (outputNotify h)) (outputClosed h) (outputClosedNotify h) (isCancelled h) (clock h)
  | close_output => mkHandles (outputBuffer h) (outputNotify h) true (outputClosedNotify h) (isCancelled h) (clock h)
  | notify_closed => mkHandles (outputBuffer h) (outputNotify h) (outputClosed h) (notifyWaiters (outputClosedNotify h)) (isCancelled h) (clock h)
  | cancel => mkHandles (outputBuffer h) (outputNotify h) (outputClosed h) (outputClosedNotify h) true (clock h)
  | tick ms => mkHandles (outputBuffer h) (outputNotify h) (outputClosed h) (outputClosedNotify h) (isCancelled h) (clock h + Z.of_nat ms)
  end.

Definition set_buffer (b : HeadTailBuffer) (h : outputHandles) : outputHandles :=
  mkHandles b (outputNotify h) (outputClosed h) (outputClosedNotify h) (isCancelled h) (clock h).

(** ** The loop *)

(** Where the loop is.  [waitOutput] is the waiter taken before the drain was
    seen to be empty, [until] when the timer of a [select] fires. *)
Inductive stage :=
| at_drain
| at_appended (drained : list gostring)
| at_deadline
| at_empty (waitOutput : nat)
| at_closed (waitOutput : nat)
| at_remaining (waitOutput : nat)
| at_post_exit (waitOutput : nat) (remaining : Z)
| at_close_wait (waitOutput : nat)
| at_register (waitOutput : nat) (until : Z)
| at_select_exit (waitOutput closedWaiter : nat) (until : Z)
| at_select (waitOutput : nat) (until : Z)
| returned.

Record locals := mkLocals {
  collected : gostring;
  exitSignalReceived : bool;
  postExitDeadline : option Z;
  pc : stage;
}.

Definition goto (st : stage) (l : locals) : locals := mkLocals (collected l) (exitSignalReceived l) (postExitDeadline l) st.

(** The branch of a [select] that is taken when several are ready. *)
Inductive choice := first | second | third.

Section Loop.
Context (deadline : Z).

Definition start (h : outputHandles) : locals := mkLocals [] (isCancelled h) None at_drain.

(** [None]: blocked, or over. *)
Definition collect_step (c : choice) (h : outputHandles) (l : locals) : option (outputHandles * locals) :=
  match pc l with
  | at_drain =>
      let '(drained, b) := DrainChunks (outputBuffer h) in
      if decide (drained = []) then Some (set_buffer b h, goto (at_empty (waiter (outputNotify h))) l)
      else Some (set_buffer b h, goto (at_appended drained) l)
  | at_appended drained =>
      Some (h, mkLocals (fold_left app drained (collected l)) (exitSignalReceived l || isCancelled h) (postExitDeadline l) at_deadline)
  | at_deadline => Some (h, goto (if deadline <=? clock h then returned else at_drain) l)
  | at_empty w =>
      Some (h, mkLocals (collected l) (exitSignalReceived l || isCancelled h) (postExitDeadline l) (at_closed w))
  | at_closed w => Some (h, goto (if exitSignalReceived l && outputClosed h then returned else at_remaining w) l)
  | at_remaining w =>
      let remaining := deadline - clock h in
      if remaining <=? 0 then Some (h, goto returned l)
      else if exitSignalReceived l then Some (h, goto (at_post_exit w remaining) l)
      else Some (h, goto (at_select w (clock h + remaining)) l)
  | at_post_exit w remaining =>
      let post := match postExitDeadline l with
                  | Some post => post
                  | None => clock h + (if postExitCloseWaitCap <? remaining then postExitCloseWaitCap else remaining)
                  end in
      Some (h, mkLocals (collected l) (exitSignalReceived l) (Some post) (at_close_wait w))
  | at_close_wait w =>
      let post := default 0 (postExitDeadline l) in
      let closeWaitRemaining := post - clock h in
      Some (h, goto (if closeWaitRemaining <=? 0 then returned else at_register w (clock h + closeWaitRemaining)) l)
  | at_register w until => Some (h, goto (at_select_exit w (waiter (outputClosedNotify h)) until) l)
  | at_select_exit w cw until =>
      match c with
      | first => if awake w (outputNotify h) then Some (h, goto at_drain l) else None
      | second => if awake cw (outputClosedNotify h) then Some (h, goto at_drain l) else None
      | third => if until <=? clock h then Some (h, goto returned l) else None
      end
  | at_select w until =>
      match c with
      | first => if awake w (outputNotify h) then Some (h, goto at_drain l) else None
      | second => if isCancelled h then Some (h, mkLocals (collected l) true (postExitDeadline l) at_drain) else None
      | third => if until <=? clock h then Some (h, goto returned l) else None
      end
  | returned => None
  end.

(** An interleaving: what the producer and the clock do, and the turns of the
    loop. *)
Inductive move := env (ev : event) | turn (c : choice).

Definition move_step (m : move) (s : outputHandles * locals) : option (outputHandles * locals) :=
  match m with env ev => Some (happen ev s.1, s.2) | turn c => collect_step c s.1 s.2 end.

Fixpoint run (ms : list move) (s : outputHandles * locals) : option (outputHandles * locals) :=
  match ms with
  | [] => Some s
  | m :: rest => match move_step m s with Some s' => run rest s' | None => None end
  end.

Definition pushed (ms : list move) : gostring := concat (map (fun m => match m with env (push c) => c | _ => [] end) ms).
End Loop.


(** ** What is collected *)

(** The bytes taken out of the buffer so far. *)
Definition taken (l : locals) : gostring :=
  match pc l with at_appended drained => collected l ++ concat drained | _ => collected l end.

Lemma fold_app (l : list gostring) acc : fold_left app l acc = acc ++ concat l.
Proof. revert acc. induction l as [|x l IH]; intros acc; cbn; [by rewrite app_nil_r|]. by rewrite IH, app_assoc. Qed.

Lemma retained_whole max output : 0 <= max -> zlen output <= Z.quot max 2 -> retained max output = output.
Proof.
  intros Hm Hl. unfold retained, budgets, firstn_z, lastn_z. pose proof (Z.quot_pos max 2 Hm ltac:(lia)). unfold zlen in *.
  rewrite take_ge by lia. rewrite (drop_ge output) by lia. by rewrite drop_nil, app_nil_r.
Qed.

(** [output] has been produced; [segments] of it were drained. *)
Record drained_as (max : Z) (output : gostring) (segments : list gostring) (rest : gostring) (s : outputHandles * locals)
    : Prop := mkDrainedAs {
  da_max : maxBytes (outputBuffer s.1) = max;
  da_output : output = concat segments ++ rest;
  da_models : models (outputBuffer s.1) rest;
  da_taken : taken s.2 = concat (map (retained max) segments);
}.

Lemma drained_as_same max output segments rest h l h' l' : drained_as max output segments rest (h, l) ->
  outputBuffer h' = outputBuffer h -> taken l' = taken l -> drained_as max output segments rest (h', l').
Proof. intros [] Eb Et. split; cbn in *; congruence. Qed.

Lemma drain_empty b output : models b output -> (DrainChunks b).1 = [] -> retained (maxBytes b) output = [].
Proof.
  intros Hm E. rewrite <- (models_ToBytes b output Hm). cbn in E. apply app_eq_nil in E as [E1 E2].
  unfold ToBytes. by rewrite E1, E2.
Qed.

Lemma happen_drained max output segments rest ev h l : drained_as max output segments rest (h, l) ->
  drained_as max (output ++ match ev with push c => c | _ => [] end) segments
    (rest ++ match ev with push c => c | _ => [] end) (happen ev h, l).
Proof.
  intros [Hx Ho Hm Ht]. destruct ev; cbn in *; rewrite ?app_nil_r; try by split.
  split; cbn; [by rewrite PushChunk_maxBytes|by rewrite Ho, app_assoc|by apply models_push|done].
Qed.

(** A turn that takes nothing. *)
Ltac stay H Epc :=
  eapply drained_as_same; [exact H|done|]; unfold taken; cbn; rewrite Epc;
  repeat match goal with |- context [if ?b then _ else _] => destruct b end; try done.

Lemma collect_step_drained deadline max output segments rest c h l s' : drained_as max output segments rest (h, l) ->
  collect_step deadline c h l = Some s' -> exists segments' rest', drained_as max output segments' rest' s'.
Proof.
  intros H E. pose proof H as [Hx Ho Hm Ht]. cbn [fst snd] in *. unfold collect_step in E. unfold taken in Ht.
  destruct (pc l) eqn:Epc; try discriminate;
    try (injection E as <-; exists segments, rest; by stay H Epc).
  - pose proof (models_Drain _ _ Hm) as Hm'. pose proof (drain_empty _ _ Hm) as Hno. pose proof (models_ToBytes _ _ Hm) as Hb.
    destruct (DrainChunks (outputBuffer h)) as [drained b] eqn:Ed. cbn [fst snd] in *.
    assert (concat drained = retained max rest) as Hd.
    { rewrite <- Hx, <- Hb. injection Ed as <- <-. by rewrite concat_app. }
    assert (maxBytes b = max) as Hmax by (injection Ed as <- <-; done).
    exists (segments ++ [rest]), [].
    assert (output = concat (segments ++ [rest]) ++ []) as Ho'.
    { rewrite concat_app, Ho. cbn. by rewrite !app_nil_r. }
    destruct (decide (drained = [])) as [->|Hne]; injection E as <-; split; cbn; try done;
      unfold taken; cbn [pc goto collected]; rewrite map_app, concat_app, <- Ht; cbn [map concat]; rewrite <- Hd; cbn; by rewrite ?app_nil_r.
  - injection E as <-. exists segments, rest. stay H Epc. by rewrite fold_app.
  - exists segments, rest. repeat case_match; simplify_eq; by stay H Epc.
  - exists segments, rest. repeat case_match; simplify_eq; by stay H Epc.
  - exists segments, rest. repeat case_match; simplify_eq; by stay H Epc.
Qed.

Lemma pushed_cons m ms : pushed (m :: ms) = match m with env (push c) => c | _ => [] end ++ pushed ms.
Proof. done. Qed.

Lemma run_drained deadline max ms : forall output segments rest s s', drained_as max output segments rest s ->
  run deadline ms s = Some s' -> exists segments' rest', drained_as max (output ++ pushed ms) segments' rest' s'.
Proof.
  induction ms as [|m ms IH]; intros output segments rest [h l] s' H E; cbn [run] in E.
  { injection E as <-. exists segments, rest. by rewrite app_nil_r. }
  rewrite pushed_cons, app_assoc. destruct m as [ev|c]; cbn [move_step fst snd] in E.
  - apply (happen_drained _ _ _ _ ev) in H. by destruct ev; eapply IH.
  - destruct (collect_step deadline c h l) as [s1|] eqn:Es; [|done].
    destruct (collect_step_drained _ _ _ _ _ _ _ _ _ H Es) as (segs & r & H1). rewrite app_nil_r. by eapply IH.
Qed.

(** C32: collecting loses nothing but what the buffer may drop. Whatever the
    producer, the clock and the loop do in whatever order: what the buffer held
    and received is cut into segments and a rest that is still in the buffer, and
    what was taken is each segment's first and last bytes within the capacity; so
    everything, in order, when it fits in half the capacity. *)
Theorem collect_accounts deadline h initial ms h' l' :
  models (outputBuffer h) initial -> run deadline ms (h, start h) = Some (h', l') ->
  let max := maxBytes (outputBuffer h) in
  exists segments rest, initial ++ pushed ms = concat segments ++ rest
    /\ taken l' = concat (map (retained max) segments)
    /\ ToBytes (outputBuffer h') = retained max rest
    /\ (0 <= max -> zlen (initial ++ pushed ms) <= Z.quot max 2 ->
          initial ++ pushed ms = taken l' ++ ToBytes (outputBuffer h')).
Proof.
  intros Hm E max. destruct (run_drained deadline max ms initial [] initial (h, start h) (h', l')) as (segs & rest & [Hx Ho Hm' Ht]);
    [by split|done|]. cbn [fst snd] in *. exists segs, rest. rewrite (models_ToBytes _ _ Hm'), Hx. split_and!; [done..|].
  intros Hpos Hfit. rewrite Ht. rewrite Ho in Hfit |- *. unfold zlen in Hfit. rewrite length_app in Hfit.
  rewrite retained_whole by (unfold zlen; lia). f_equal.
  assert (length (concat segs) <= Z.to_nat (Z.quot max 2))%nat as Hl by lia. clear -Hpos Hl.
  pose proof (Z.quot_pos max 2 Hpos ltac:(lia)) as Hq.
  induction segs as [|s segs IH]; [done|]. cbn [concat map] in *. rewrite length_app in Hl.
  rewrite retained_whole by (unfold zlen; lia). rewrite <- IH by lia. done.
Qed.

(** ** When it returns *)

(** What the stages know of the clock. *)
Definition timely (deadline : Z) (h : outputHandles) (l : locals) : Prop :=
  (forall post, postExitDeadline l = Some post -> post <= clock h + postExitCloseWaitCap)
  /\ match pc l with
     | at_register _ until | at_select_exit _ _ until => until <= clock h + postExitCloseWaitCap
     | at_select _ until => until = deadline
     | at_post_exit _ remaining => 0 < remaining
     | at_close_wait _ => is_Some (postExitDeadline l)
     | _ => True
     end.

Lemma timely_step deadline c h l h' l' : timely deadline h l -> collect_step deadline c h l = Some (h', l') -> timely deadline h' l'.
Proof.
  intros [Hp Hs] E. unfold collect_step in E. destruct (pc l) eqn:Epc; try discriminate.
  1: destruct (DrainChunks _) as [drained b].
  all: repeat case_match; simplify_eq; (split; [try exact Hp|]); cbn; rewrite ?Epc; try done;
    try (by breflect; lia); unfold postExitCloseWaitCap in *; breflect; try lia; try done.
  all: try (intros ? [= <-]; try (specialize (Hp _ eq_refl)); lia).
  all: destruct Hs as [post Hpost]; specialize (Hp _ Hpost); rewrite Hpost in *; cbn in *; lia.
Qed.

Lemma timely_happen deadline ev h l : timely deadline h l -> timely deadline (happen ev h) l.
Proof.
  intros [Hp Hs]. destruct ev; try by split. split; cbn.
  - intros post Hpost. specialize (Hp _ Hpost). lia.
  - destruct (pc l); try done; lia.
Qed.

Lemma timely_run deadline ms : forall s s', timely deadline s.1 s.2 -> run deadline ms s = Some s' -> timely deadline s'.1 s'.2.
Proof.
  induction ms as [|m ms IH]; intros [h l] s' H E; cbn [run] in E; [by injection E as <-|].
  destruct m as [ev|c]; cbn [move_step fst snd] in E; [eapply IH; [|exact E]; by apply timely_happen|].
  destruct (collect_step deadline c h l) as [[h1 l1]|] eqn:Es; [|done]. eapply IH; [|exact E]. by eapply timely_step.
Qed.

(** How far a stage is from the end once the deadline has passed. *)
Definition rank (st : stage) : nat :=
  match st with
  | returned => 0
  | at_deadline | at_remaining _ => 1
  | at_appended _ | at_closed _ => 2
  | at_empty _ => 3
  | at_drain => 4
  | at_select _ _ | at_select_exit _ _ _ => 5
  | at_register _ _ => 6
  | at_close_wait _ => 7
  | at_post_exit _ _ => 8
  end.

(** C33: collecting ends. In every interleaving, once the deadline has passed
    each turn of the loop brings it closer to its return, which is at most eight
    turns away, whatever output still comes; and a turn can be taken at once or
    after at most 50 more milliseconds. *)
Theorem collect_returns deadline h ms h' l' :
  run deadline ms (h, start h) = Some (h', l') -> deadline <= clock h' -> pc l' <> returned ->
  (rank (pc l') <= 8)%nat
  /\ (forall c h1 l1, collect_step deadline c h' l' = Some (h1, l1) -> (rank (pc l1) < rank (pc l'))%nat)
  /\ exists k, Z.of_nat k <= postExitCloseWaitCap /\ is_Some (collect_step deadline third (happen (tick k) h') l').
Proof.
  intros E Hd Hpc. assert (timely deadline h' l') as [Hp Hs].
  { refine (timely_run _ _ (h, start h) (h', l') _ E). by split. }
  split_and!.
  - destruct (pc l'); cbn; lia.
  - intros c h1 l1 Es. unfold collect_step in Es. destruct (pc l') eqn:Epc; try discriminate.
    1: destruct (DrainChunks _) as [drained b].
    all: repeat case_match; simplify_eq; cbn; breflect; try lia.
  - unfold collect_step. destruct (pc l') eqn:Epc; try done.
    all: try (exists 0%nat; split; [done|]; cbn; repeat case_match; by eexists).
    + exists 50%nat. split; [done|]. unfold postExitCloseWaitCap in *.
      destruct (Z.leb_spec until (clock (happen (tick 50) h'))); [by eexists|cbn in *; lia].
    + exists 0%nat. split; [done|]. subst until.
      destruct (Z.leb_spec deadline (clock (happen (tick 0) h'))); [by eexists|cbn in *; lia].
Qed.

(** ** Concrete runs *)

Definition sample_handles : outputHandles := mkHandles (NewHeadTailBuffer 64) 0 false 0 false 0.
Definition sample_moves : list move :=
  [env (push (str "ab")); turn first; turn first; env (push (str "c")); turn first; turn first; env (tick 1000);
   turn first; turn first].

Lemma collect_accounts_witness :
  run 500 sample_moves (sample_handles, start sample_handles)
    = Some (mkHandles (NewHeadTailBuffer 64) 0 false 0 false 1000, mkLocals (str "abc") false None returned)
  /\ exists segments rest, str "abc" = concat segments ++ rest /\ str "abc" = concat (map (retained 64) segments).
Proof.
  split; [vm_compute; reflexivity|].
  destruct (collect_accounts 500 sample_handles [] sample_moves (mkHandles (NewHeadTailBuffer 64) 0 false 0 false 1000)
    (mkLocals (str "abc") false None returned)) as (segments & rest & H1 & H2 & _);
    [apply models_new|vm_compute; reflexivity|]. exists segments, rest. split; [exact H1|exact H2].
Defined.

Lemma collect_returns_witness :
  let h := mkHandles (NewHeadTailBuffer 64) 0 false 0 false 600 in
  run 500 [env (tick 600)] (sample_handles, start sample_handles) = Some (h, start sample_handles)
  /\ exists k, Z.of_nat k <= postExitCloseWaitCap
       /\ is_Some (collect_step 500 third (happen (tick k) h) (start sample_handles)).
Proof.
  cbv zeta. split; [vm_compute; reflexivity|].
  exact (proj2 (proj2 (collect_returns 500 sample_handles [env (tick 600)] (mkHandles (NewHeadTailBuffer 64) 0 false 0 false 600)
    (start sample_handles) eq_refl ltac:(by vm_compute) ltac:(done)))).
Defined.

(** The end of the output is left in the buffer when it arrives between the
    empty drain and the check that the output is closed. *)
Example tail_left_behind :
  option_map (fun s => (collected s.2, pc s.2, ToBytes (outputBuffer s.1)))
    (run 500 [env cancel; turn first; env (push (str "x")); env notify; env close_output; turn first; turn first]
       (sample_handles, start sample_handles))
  = Some ([], returned, str "x").
Proof. vm_compute. reflexivity. Qed.

End ExecCollect.
