(* ===== verification/ProtocolItems.v ===== *)
(** * internal/protocol: conversation items and events

    The tagged unions of [response_item.go], [models_response.go], [items.go],
    [user_input.go], the events of [event.go] that the agent core emits, and the
    stream events of internal/api.  A variant has the fields that its
    [UnmarshalJSON] fills; accessors give the zero value for a field of another
    variant, as the flat structs do.  The times of events are left out. *)

From stdpp Require Import base list gmap strings.
From S2P Require Import Prelude GoStrings.

Module Items.

(** String-typed enumerations whose values the program passes on unread, and
    JSON kept as text. *)
Definition MessagePhase := gostring.
Definition ImageDetail := gostring.
Definition RawMessage := gostring.

(** ** models_response.go *)

Inductive ContentItem :=
| ContentInputText (text : gostring)
| ContentInputImage (url : gostring) (detail : option ImageDetail)
| ContentOutputText (text : gostring).
#[export] Instance ContentItem_eq_dec : EqDecision ContentItem.
Proof. solve_decision. Defined.

Inductive WebSearchAction :=
| WebSearchActionSearch (query : option gostring) (queries : option (list gostring))
| WebSearchActionOpenPage (url : option gostring)
| WebSearchActionFindInPage (url pattern : option gostring)
| WebSearchActionOther.
#[export] Instance WebSearchAction_eq_dec : EqDecision WebSearchAction.
Proof. solve_decision. Defined.

Inductive LocalShellStatus := LocalShellStatusCompleted | LocalShellStatusInProgress | LocalShellStatusIncomplete
| LocalShellStatusOther (s : gostring).
#[export] Instance LocalShellStatus_eq_dec : EqDecision LocalShellStatus.
Proof. solve_decision. Defined.

Record LocalShellExecAction := mkLocalShellExecAction {
  ShellCommand : list gostring;
  TimeoutMs : option Z;
  WorkingDirectory : option gostring;
  Env : option (gmap gostring gostring);
  User : option gostring;
}.
#[export] Instance LocalShellExecAction_eq_dec : EqDecision LocalShellExecAction.
Proof. solve_decision. Defined.

Inductive ReasoningItemContent :=
| ReasoningContentReasoningText (text : gostring)
| ReasoningContentText (text : gostring).
#[export] Instance ReasoningItemContent_eq_dec : EqDecision ReasoningItemContent.
Proof. solve_decision. Defined.

Definition reasoning_content_text (c : ReasoningItemContent) : gostring :=
  match c with ReasoningContentReasoningText t | ReasoningContentText t => t end.

Inductive FunctionCallOutputContentItem :=
| OutputInputText (text : gostring)
| OutputInputImage (url : gostring) (detail : option ImageDetail)
| OutputEncryptedContent (content : gostring).
#[export] Instance FunctionCallOutputContentItem_eq_dec : EqDecision FunctionCallOutputContentItem.
Proof. solve_decision. Defined.

Record FunctionCallOutputPayload := mkPayload {
  PayloadText : option gostring;
  PayloadItems : option (list FunctionCallOutputContentItem);
  PayloadSuccess : option bool;
}.
#[export] Instance FunctionCallOutputPayload_eq_dec : EqDecision FunctionCallOutputPayload.
Proof. solve_decision. Defined.

(** ** response_item.go *)

Inductive ResponseItem :=
| Message (id : option gostring) (role : gostring) (content : list ContentItem) (phase : option MessagePhase)
| Reasoning (id : gostring) (summary : list gostring) (content : option (list ReasoningItemContent))
    (encrypted : option gostring)
| LocalShellCall (id callID : option gostring) (status : LocalShellStatus) (action : option LocalShellExecAction)
| FunctionCall (id : option gostring) (name : gostring) (namespace : option gostring) (arguments callID : gostring)
| ToolSearchCall (id callID status : option gostring) (execution : gostring) (arguments : option RawMessage)
| FunctionCallOutput (callID : gostring) (output : option FunctionCallOutputPayload)
| CustomToolCall (id status : option gostring) (callID name input : gostring)
| CustomToolCallOutput (callID : gostring) (name : option gostring) (output : option FunctionCallOutputPayload)
| ToolSearchOutput (callID : option gostring) (status execution : gostring) (tools : list RawMessage)
| WebSearchCall (id status : option gostring) (action : option WebSearchAction)
| ImageGenerationCall (id status : gostring) (revisedPrompt : option gostring) (result : gostring)
| Compaction (encrypted : option gostring)
| CompactionTrigger
| ContextCompaction (encrypted : option gostring)
| OtherItem (extra : gmap gostring RawMessage).
#[export] Instance ResponseItem_eq_dec : EqDecision ResponseItem.
Proof. solve_decision. Defined.

(** The [Role] and the [Content] of an item. *)
Definition Role (item : ResponseItem) : gostring := match item with Message _ role _ _ => role | _ => [] end.
Definition Content (item : ResponseItem) : list ContentItem := match item with Message _ _ content _ => content | _ => [] end.

(** ** user_input.go *)

Record TextElement := mkTextElement { Start : Z; End_ : Z; Placeholder : option gostring }.
#[export] Instance TextElement_eq_dec : EqDecision TextElement.
Proof. solve_decision. Defined.

Inductive UserInput :=
| InputText (text : gostring) (elements : list TextElement)
| InputImage (url : gostring) (detail : option ImageDetail)
| InputLocalImage (path : gostring) (detail : option ImageDetail)
| InputSkill (name path : gostring)
| InputMention (name path : gostring)
| InputOther (extra : gmap gostring RawMessage).
#[export] Instance UserInput_eq_dec : EqDecision UserInput.
Proof. solve_decision. Defined.

(** The [Text] of an input: only text inputs have one. *)
Definition InputTextOf (ui : UserInput) : gostring := match ui with InputText t _ => t | _ => [] end.

(** ** event.go: usage and limits, 64-bit integers *)

Record TokenUsage := mkTokenUsage {
  InputTokens : Z;
  CachedInputTokens : Z;
  OutputTokens : Z;
  ReasoningOutputTokens : Z;
  TotalTokens : Z;
}.
#[export] Instance TokenUsage_eq_dec : EqDecision TokenUsage.
Proof. solve_decision. Defined.

Record TokenUsageInfo := mkTokenUsageInfo {
  TotalTokenUsage : TokenUsage;
  LastTokenUsage : TokenUsage;
  ModelContextWindow : option Z;
}.
#[export] Instance TokenUsageInfo_eq_dec : EqDecision TokenUsageInfo.
Proof. solve_decision. Defined.

(** The windows and the credits are passed on unread: their JSON. *)
Record RateLimitSnapshot := mkRateLimitSnapshot {
  LimitID : option gostring;
  LimitName : option gostring;
  Primary : option RawMessage;
  Secondary : option RawMessage;
  Credits : option RawMessage;
  PlanType : option gostring;
  RateLimitReachedType : option gostring;
}.
#[export] Instance RateLimitSnapshot_eq_dec : EqDecision RateLimitSnapshot.
Proof. solve_decision. Defined.

Inductive AgentStatus :=
| AgentStatusPendingInit
| AgentStatusRunning
| AgentStatusInterrupted
| AgentStatusCompleted (message : option gostring)
| AgentStatusErrored (message : gostring)
| AgentStatusShutdown
| AgentStatusNotFound.
#[export] Instance AgentStatus_eq_dec : EqDecision AgentStatus.
Proof. solve_decision. Defined.

Inductive TurnAbortReason :=
| TurnAbortReasonInterrupted
| TurnAbortReasonReplaced
| TurnAbortReasonReviewEnded
| TurnAbortReasonBudgetLimited.
#[export] Instance TurnAbortReason_eq_dec : EqDecision TurnAbortReason.
Proof. solve_decision. Defined.

Definition abort_reason_text (r : TurnAbortReason) : gostring :=
  match r with
  | TurnAbortReasonInterrupted => str "interrupted"
  | TurnAbortReasonReplaced => str "replaced"
  | TurnAbortReasonReviewEnded => str "review_ended"
  | TurnAbortReasonBudgetLimited => str "budget_limited"
  end.

(** ** items.go *)

Record HookPromptFragment := mkHookPromptFragment { FragmentText : gostring; HookRunID : gostring }.
#[export] Instance HookPromptFragment_eq_dec : EqDecision HookPromptFragment.
Proof. solve_decision. Defined.

Inductive TurnItem :=
| UserMessageItem (id : gostring) (content : list UserInput)
| HookPromptItem (id : gostring) (fragments : list HookPromptFragment)
| AgentMessageItem (id : gostring) (content : list gostring) (phase : option MessagePhase)
| ReasoningTurnItem (id : gostring) (summaryText rawContent : list gostring)
| WebSearchItem (id query : gostring) (action : WebSearchAction)
| ImageGenerationItem (id status : gostring) (revisedPrompt : option gostring) (result : gostring)
| ContextCompactionItem (id : gostring).
#[export] Instance TurnItem_eq_dec : EqDecision TurnItem.
Proof. solve_decision. Defined.

(** ** event.go: the events of the agent core *)

Inductive EventMsg :=
| ErrorEvent (message : gostring)
| WarningEvent (message : gostring)
| ContextCompactedEvent
| TurnStarted (turnID : gostring) (window : option Z)
| ThreadSettingsApplied
| TurnComplete (turnID : gostring) (lastAgentMessage : option gostring)
| TokenCount (info : option TokenUsageInfo) (limits : option RateLimitSnapshot)
| AgentMessage (text : gostring)
| AgentReasoning (text : gostring)
| AgentReasoningRawContent (text : gostring)
| AgentReasoningSectionBreak (itemID : gostring) (summaryIndex : Z)
| SessionConfigured
| TurnAborted (turnID : gostring) (reason : TurnAbortReason)
| ShutdownComplete
| ItemStarted (turnID : gostring) (item : TurnItem)
| ItemCompleted (turnID : gostring) (item : TurnItem)
| AgentMessageContentDelta (turnID itemID delta : gostring)
| ReasoningContentDelta (turnID itemID delta : gostring) (summaryIndex : Z)
| ReasoningRawContentDelta (turnID itemID delta : gostring) (contentIndex : Z)
| ExecCommandOutputDelta (callID chunk : gostring)
| ExecCommandEnd (callID : gostring)
| ToolEvent (kind : gostring).   (* the other events of the tools: commands, patches, approvals, agents *)
#[export] Instance EventMsg_eq_dec : EqDecision EventMsg.
Proof. solve_decision. Defined.

(** [Event]: the id of the submission and the message. *)
Record Event := mkEvent { EventID : gostring; Msg : EventMsg }.
#[export] Instance Event_eq_dec : EqDecision Event.
Proof. solve_decision. Defined.

(** ** internal/api: the events of a model's stream *)

Inductive ResponseEvent :=
| ResponseCreated
| OutputItemDone (item : option ResponseItem)
| OutputItemAdded (item : option ResponseItem)
| ServerModel
| ModelVerifications
| ServerReasoningIncluded (included : bool)
| Completed (usage : option TokenUsage) (endTurn : option bool)
| OutputTextDelta (delta : gostring)
| ToolCallInputDelta
| ReasoningSummaryDelta (delta : gostring) (summaryIndex : Z)
| ReasoningContentDeltaEvent (delta : gostring) (contentIndex : Z)
| ReasoningSummaryPartAdded (summaryIndex : Z)
| RateLimits (limits : option RateLimitSnapshot)
| ModelsEtag.

End Items.
