(* ===== verification/CoreState.v ===== *)
(** * internal/core: the state of a session

    [history.go], [auto_compact_window.go], [session_state.go] and the status
    part of [session.go]: the conversation with its token counts (64-bit,
    wrapping), the accounting of the compaction window, rate limits, and the
    status that events give an agent.  The operations run under the state lock,
    so they are functions on the state. *)

From stdpp Require Import base list strings.
From S2P Require Import Prelude GoStrings Truncation ProtocolItems.

Module State.
Import Items.
#[local] Open Scope Z_scope.

(** ** history.go *)

Record ConversationHistory := mkHistory { items : list ResponseItem; tokenInfo : option TokenUsageInfo }.

Definition NewConversationHistory : ConversationHistory := mkHistory [] None.

Definition HistoryRecordItems (new : list ResponseItem) (h : ConversationHistory) : ConversationHistory :=
  if decide (new = []) then h else mkHistory (items h ++ new) (tokenInfo h).
Definition HistoryReplace (new : list ResponseItem) (h : ConversationHistory) : ConversationHistory := mkHistory new (tokenInfo h).
Definition HistorySetTokenInfo (info : option TokenUsageInfo) (h : ConversationHistory) : ConversationHistory :=
  mkHistory (items h) info.

Definition zeroUsage : TokenUsage := mkTokenUsage 0 0 0 0 0.

Definition addTokenUsage (a b : TokenUsage) : TokenUsage :=
  mkTokenUsage (Truncation.wrap (InputTokens a + InputTokens b)) (Truncation.wrap (CachedInputTokens a + CachedInputTokens b))
    (Truncation.wrap (OutputTokens a + OutputTokens b)) (Truncation.wrap (ReasoningOutputTokens a + ReasoningOutputTokens b))
    (Truncation.wrap (TotalTokens a + TotalTokens b)).

Definition HistoryUpdateTokenInfoFromUsage (usage : TokenUsage) (modelContextWindow : option Z) (h : ConversationHistory)
    : ConversationHistory :=
  let prev := match tokenInfo h with Some info => TotalTokenUsage info | None => zeroUsage end in
  let window := match modelContextWindow with
                | Some w => Some w
                | None => match tokenInfo h with Some info => ModelContextWindow info | None => None end
                end in
  mkHistory (items h) (Some (mkTokenUsageInfo (addTokenUsage prev usage) usage window)).

(** ** auto_compact_window.go *)

Inductive autoCompactWindowPrefillKind := prefillNone | prefillServerObserved | prefillEstimated.
#[export] Instance autoCompactWindowPrefillKind_eq_dec : EqDecision autoCompactWindowPrefillKind.
Proof. solve_decision. Defined.

Record autoCompactWindow := mkWindow { ordinal : Z; prefill : Z; prefillVia : autoCompactWindowPrefillKind }.

Definition newAutoCompactWindow : autoCompactWindow := mkWindow 1 0 prefillNone.

Definition clearPrefill (w : autoCompactWindow) : autoCompactWindow := mkWindow (ordinal w) 0 prefillNone.

Definition startNext (w : autoCompactWindow) : autoCompactWindow :=
  clearPrefill (if ordinal w =? Truncation.maxUint64 then w else mkWindow (ordinal w + 1) (prefill w) (prefillVia w)).

Definition ensureServerObservedPrefillFromUsage (usage : TokenUsage) (w : autoCompactWindow) : autoCompactWindow :=
  if decide (prefillVia w = prefillServerObserved) then w
  else mkWindow (ordinal w) (Z.max (InputTokens usage) 0) prefillServerObserved.

Definition setEstimatedPrefill (tokens : Z) (w : autoCompactWindow) : autoCompactWindow :=
  if decide (prefillVia w = prefillServerObserved) then w
  else mkWindow (ordinal w) (Z.max tokens 0) prefillEstimated.

Record AutoCompactWindowSnapshot := mkSnapshot { Ordinal : Z; PrefillInputTokens : option Z }.

Definition snapshot (w : autoCompactWindow) : AutoCompactWindowSnapshot :=
  mkSnapshot (ordinal w) (if decide (prefillVia w = prefillNone) then None else Some (prefill w)).

(** ** session_state.go *)

Record PreviousTurnSettings := mkPreviousTurnSettings { Model : gostring; RealtimeActive : option bool }.

(** The configuration is [Config] of another component. *)
Record SessionState := mkSessionState {
  History : ConversationHistory;
  latestRateLimits : option RateLimitSnapshot;
  serverReasoningIncluded : bool;
  previousTurnSettings : option PreviousTurnSettings;
  window : autoCompactWindow;
  nextTurnIsFirst : bool;
}.

Definition NewSessionState : SessionState := mkSessionState NewConversationHistory None false None newAutoCompactWindow true.

Definition set_history (h : ConversationHistory) (s : SessionState) : SessionState :=
  mkSessionState h (latestRateLimits s) (serverReasoningIncluded s) (previousTurnSettings s) (window s) (nextTurnIsFirst s).
Definition set_window (w : autoCompactWindow) (s : SessionState) : SessionState :=
  mkSessionState (History s) (latestRateLimits s) (serverReasoningIncluded s) (previousTurnSettings s) w (nextTurnIsFirst s).

Definition SetPreviousTurnSettings (settings : option PreviousTurnSettings) (s : SessionState) : SessionState :=
  mkSessionState (History s) (latestRateLimits s) (serverReasoningIncluded s) settings (window s) (nextTurnIsFirst s).

Definition SetNextTurnIsFirst (v : bool) (s : SessionState) : SessionState :=
  mkSessionState (History s) (latestRateLimits s) (serverReasoningIncluded s) (previousTurnSettings s) (window s) v.
Definition TakeNextTurnIsFirst (s : SessionState) : bool * SessionState := (nextTurnIsFirst s, SetNextTurnIsFirst false s).

Definition TokenInfo (s : SessionState) : option TokenUsageInfo := tokenInfo (History s).
Definition SetTokenInfo (info : option TokenUsageInfo) (s : SessionState) : SessionState :=
  set_history (HistorySetTokenInfo info (History s)) s.

Definition UpdateTokenInfoFromUsage (usage : TokenUsage) (modelContextWindow : option Z) (s : SessionState) : SessionState :=
  set_window (ensureServerObservedPrefillFromUsage usage (window s))
    (set_history (HistoryUpdateTokenInfoFromUsage usage modelContextWindow (History s)) s).

Definition mergeRateLimitFields (previous : option RateLimitSnapshot) (snapshot : RateLimitSnapshot) : RateLimitSnapshot :=
  mkRateLimitSnapshot (match LimitID snapshot with None => Some (str "codex") | id => id end)
    (LimitName snapshot) (Primary snapshot) (Secondary snapshot)
    (match Credits snapshot, previous with None, Some p => Credits p | c, _ => c end)
    (match PlanType snapshot, previous with None, Some p => PlanType p | t, _ => t end)
    (RateLimitReachedType snapshot).

Definition SetRateLimits (snapshot : RateLimitSnapshot) (s : SessionState) : SessionState :=
  mkSessionState (History s) (Some (mergeRateLimitFields (latestRateLimits s) snapshot)) (serverReasoningIncluded s)
    (previousTurnSettings s) (window s) (nextTurnIsFirst s).

Definition TokenInfoAndRateLimits (s : SessionState) : option TokenUsageInfo * option RateLimitSnapshot :=
  (TokenInfo s, latestRateLimits s).

Definition SetServerReasoningIncluded (v : bool) (s : SessionState) : SessionState :=
  mkSessionState (History s) (latestRateLimits s) v (previousTurnSettings s) (window s) (nextTurnIsFirst s).

Definition SetAutoCompactWindowEstimatedPrefill (tokens : Z) (s : SessionState) : SessionState :=
  set_window (setEstimatedPrefill tokens (window s)) s.
Definition StartNextAutoCompactWindow (s : SessionState) : SessionState := set_window (startNext (window s)) s.

Definition RecordItems (new : list ResponseItem) (s : SessionState) : SessionState :=
  set_history (HistoryRecordItems new (History s)) s.
Definition HistoryItems (s : SessionState) : list ResponseItem := items (History s).

Definition ReplaceHistory (new : list ResponseItem) (s : SessionState) : SessionState :=
  set_window (clearPrefill (window s)) (set_history (HistoryReplace new (History s)) s).

(** ** session.go: the status of the agent *)

Definition agentStatusFromEvent (msg : EventMsg) : option AgentStatus :=
  match msg with
  | TurnStarted _ _ => Some AgentStatusRunning
  | TurnComplete _ last => Some (AgentStatusCompleted last)
  | TurnAborted _ reason =>
      match reason with
      | TurnAbortReasonInterrupted | TurnAbortReasonBudgetLimited => Some AgentStatusInterrupted
      | _ => Some (AgentStatusErrored (abort_reason_text reason))
      end
  | ErrorEvent message => Some (AgentStatusErrored message)
  | ShutdownComplete => Some AgentStatusShutdown
  | _ => None
  end.

Definition isFinalAgentStatus (status : AgentStatus) : bool :=
  match status with AgentStatusPendingInit | AgentStatusRunning | AgentStatusInterrupted => false | _ => true end.

(** ** The state under its operations *)

Inductive op :=
| op_record (new : list ResponseItem)
| op_replace (new : list ResponseItem)
| op_usage (usage : TokenUsage) (modelContextWindow : option Z)
| op_next_window
| op_estimate (tokens : Z)
| op_limits (snapshot : RateLimitSnapshot).

Definition apply (o : op) : SessionState -> SessionState :=
  match o with
  | op_record new => RecordItems new
  | op_replace new => ReplaceHistory new
  | op_usage usage w => UpdateTokenInfoFromUsage usage w
  | op_next_window => StartNextAutoCompactWindow
  | op_estimate tokens => SetAutoCompactWindowEstimatedPrefill tokens
  | op_limits l => SetRateLimits l
  end.

Definition run (ops : list op) (s : SessionState) : SessionState := fold_left (fun s o => apply o s) ops s.

(** ** What the state is, told from the operations *)

Definition usages (ops : list op) : list TokenUsage := omap (fun o => match o with op_usage u _ => Some u | _ => None end) ops.
Definition windows (ops : list op) : list Z := omap (fun o => match o with op_usage _ w => w | _ => None end) ops.
Definition estimates (ops : list op) : list Z := omap (fun o => match o with op_estimate t => Some t | _ => None end) ops.
Definition resets (ops : list op) : Z :=
  zlen (omap (fun o => match o with op_next_window => Some tt | _ => None end) ops).

Definition sum_of (f : TokenUsage -> Z) (us : list TokenUsage) : Z := fold_left Z.add (map f us) 0.

(** The operations since the compaction window was last reset. *)
Definition since_reset (ops : list op) : list op :=
  fold_left (fun acc o => match o with op_replace _ | op_next_window => [] | _ => acc ++ [o] end) ops [].

(** The first usage the server reports, else the last estimate. *)
Definition baseline (ops : list op) : option Z :=
  match usages ops with
  | u :: _ => Some (Z.max (InputTokens u) 0)
  | [] => (fun t => Z.max t 0) <$> last (estimates ops)
  end.

(** The items recorded since the conversation was last replaced. *)
Definition conversation (ops : list op) : list ResponseItem :=
  fold_left (fun acc o => match o with op_record new => acc ++ new | op_replace new => new | _ => acc end) ops [].

(** ** Lemmas *)

Lemma ops_run_app ops ops' s : run (ops ++ ops') s = run ops' (run ops s).
Proof. apply fold_left_app. Qed.

Lemma since_reset_snoc ops o : since_reset (ops ++ [o]) =
  match o with op_replace _ | op_next_window => [] | _ => since_reset ops ++ [o] end.
Proof. unfold since_reset. by rewrite fold_left_app. Qed.

Lemma sum_of_snoc f us u : sum_of f (us ++ [u]) = sum_of f us + f u.
Proof. unfold sum_of. by rewrite map_app, fold_left_app. Qed.

Lemma wrap_add a b : Truncation.wrap (Truncation.wrap a + b) = Truncation.wrap (a + b).
Proof.
  unfold Truncation.wrap. f_equal. replace ((a + 2 ^ 63) mod 2 ^ 64 - 2 ^ 63 + b + 2 ^ 63) with ((a + 2 ^ 63) mod 2 ^ 64 + b) by ring.
  rewrite Zplus_mod_idemp_l. f_equal. ring.
Qed.

Lemma HistoryRecordItems_items new h : items (HistoryRecordItems new h) = items h ++ new.
Proof. unfold HistoryRecordItems. destruct (decide _) as [->|]; [by rewrite app_nil_r|done]. Qed.
Lemma HistoryRecordItems_tokens new h : tokenInfo (HistoryRecordItems new h) = tokenInfo h.
Proof. unfold HistoryRecordItems. by destruct (decide _). Qed.

Lemma conversation_snoc ops o : conversation (ops ++ [o]) =
  match o with op_record new => conversation ops ++ new | op_replace new => new | _ => conversation ops end.
Proof. unfold conversation. by rewrite fold_left_app. Qed.

Lemma run_items ops : HistoryItems (run ops NewSessionState) = conversation ops.
Proof.
  induction ops as [|o ops IH] using rev_ind; [done|]. rewrite ops_run_app, conversation_snoc. cbn [run fold_left].
  destruct o; cbn; try exact IH; [|done]. unfold HistoryItems in *. cbn. by rewrite HistoryRecordItems_items, IH.
Qed.

Definition total_of (us : list TokenUsage) : TokenUsage :=
  mkTokenUsage (Truncation.wrap (sum_of InputTokens us)) (Truncation.wrap (sum_of CachedInputTokens us))
    (Truncation.wrap (sum_of OutputTokens us)) (Truncation.wrap (sum_of ReasoningOutputTokens us))
    (Truncation.wrap (sum_of TotalTokens us)).

Lemma total_of_snoc us u : total_of (us ++ [u]) = addTokenUsage (total_of us) u.
Proof. unfold total_of, addTokenUsage. rewrite !sum_of_snoc. cbn [InputTokens CachedInputTokens OutputTokens ReasoningOutputTokens TotalTokens]. by rewrite !wrap_add. Qed.

Lemma run_tokens ops :
  TokenInfo (run ops NewSessionState) =
  match last (usages ops) with
  | Some u => Some (mkTokenUsageInfo (total_of (usages ops)) u (last (windows ops)))
  | None => None
  end.
Proof.
  induction ops as [|o ops IH] using rev_ind; [done|]. rewrite ops_run_app. unfold usages, windows in *. rewrite !omap_app.
  cbn [run fold_left]. destruct o as [new|new|u w| |t|l]; cbn [omap list_omap]; rewrite ?app_nil_r; cbn [apply]; unfold TokenInfo in *; cbn;
    rewrite ?HistoryRecordItems_tokens; try exact IH.
  rewrite last_snoc, total_of_snoc. f_equal.
  rewrite IH. set (us := omap _ ops). destruct (last us) as [v|] eqn:El.
  - f_equal. destruct w; [by rewrite last_snoc|by rewrite app_nil_r].
  - apply last_None in El. assert (omap (fun o => match o with op_usage _ w => w | _ => None end) ops = []) as ->.
    { clear IH. subst us. induction ops as [|[] ops IHo]; cbn in *; try done; by apply IHo. }
    rewrite El. by destruct w.
Qed.

Lemma usages_app ops ops' : usages (ops ++ ops') = usages ops ++ usages ops'.
Proof. apply omap_app. Qed.
Lemma estimates_app ops ops' : estimates (ops ++ ops') = estimates ops ++ estimates ops'.
Proof. apply omap_app. Qed.

Lemma baseline_app ops ops' : usages ops <> [] -> baseline (ops ++ ops') = baseline ops.
Proof. intros H. unfold baseline. rewrite usages_app. by destruct (usages ops). Qed.
Lemma baseline_quiet ops o : usages [o] = [] -> estimates [o] = [] -> baseline (ops ++ [o]) = baseline ops.
Proof. intros H1 H2. unfold baseline. by rewrite usages_app, estimates_app, H1, H2, !app_nil_r. Qed.

Definition window_ok (ops : list op) (w : autoCompactWindow) : Prop :=
  PrefillInputTokens (snapshot w) = baseline (since_reset ops)
  /\ (prefillVia w = prefillServerObserved <-> usages (since_reset ops) <> []).

Lemma window_ok_quiet ops o w : window_ok ops w -> since_reset (ops ++ [o]) = since_reset ops ++ [o] ->
  usages [o] = [] -> estimates [o] = [] -> window_ok (ops ++ [o]) w.
Proof.
  intros [Hp Hv] Es Hu He. unfold window_ok. rewrite Es. split; [by rewrite baseline_quiet|].
  by rewrite usages_app, Hu, app_nil_r.
Qed.

Lemma window_ok_clear ops o w : since_reset (ops ++ [o]) = [] -> window_ok (ops ++ [o]) (clearPrefill w).
Proof. intros Es. unfold window_ok. by rewrite Es. Qed.

Lemma run_window ops : window_ok ops (window (run ops NewSessionState)).
Proof.
  induction ops as [|o ops IH] using rev_ind; [by split|]. rewrite ops_run_app. cbn [run fold_left].
  pose proof (since_reset_snoc ops o) as Es.
  destruct o as [new|new|u cw| |t|l]; cbn [apply]; try (by apply window_ok_quiet); try (by apply window_ok_clear).
  - destruct IH as [Hp Hv]. unfold window_ok. cbn [window UpdateTokenInfoFromUsage set_window]. rewrite Es.
    unfold ensureServerObservedPrefillFromUsage. cbn [window set_history]. destruct (decide _) as [Hs|Hs].
    + split; [rewrite baseline_app by (by apply Hv); exact Hp|]. rewrite usages_app. cbn. split; [|done].
      intros _ Hc. by apply app_eq_nil in Hc as [_ ?].
    + assert (usages (since_reset ops) = []) as Hn by (destruct (usages _); [done|destruct Hs; by apply Hv]).
      unfold baseline. rewrite usages_app, Hn. by split.
  - destruct IH as [Hp Hv]. unfold window_ok. cbn [window SetAutoCompactWindowEstimatedPrefill set_window]. rewrite Es.
    unfold setEstimatedPrefill. destruct (decide _) as [Hs|Hs].
    + split; [rewrite baseline_app by (by apply Hv); exact Hp|]. rewrite usages_app. cbn. rewrite app_nil_r. exact Hv.
    + assert (usages (since_reset ops) = []) as Hn by (destruct (usages _); [done|destruct Hs; by apply Hv]).
      unfold baseline. rewrite usages_app, estimates_app, Hn. cbn. rewrite last_snoc. by split.
Qed.

Lemma run_ordinal ops : ordinal (window (run ops NewSessionState)) = Z.min (1 + resets ops) Truncation.maxUint64.
Proof.
  unfold resets. induction ops as [|o ops IH] using rev_ind; [reflexivity|]. rewrite ops_run_app, omap_app, zlen_app.
  cbn [run fold_left]. destruct o as [new|new|u cw| |t|l]; cbn [apply omap list_omap]; rewrite ?zlen_nil, ?Z.add_0_r; try exact IH.
  - cbn. unfold ensureServerObservedPrefillFromUsage. cbn. by destruct (decide _).
  - change (zlen [tt]) with 1. cbn. unfold startNext. cbn. destruct (ordinal _ =? Truncation.maxUint64) eqn:E; breflect; cbn; lia.
  - cbn. unfold setEstimatedPrefill. by destruct (decide _).
Qed.

(** C13: the accounts of a session. Whatever the operations: the conversation is
    what was recorded since it was last replaced; the total usage is the sum of
    all usages, wrapped to 64 bits, beside the last one and the last window
    known; the compaction window counts the compactions, up to the largest
    64-bit number, and its baseline is the first usage the server reported since
    it was last reset, else the last estimate. *)
Theorem session_accounts ops :
  let s := run ops NewSessionState in
  HistoryItems s = conversation ops
  /\ TokenInfo s = match last (usages ops) with
                   | Some u => Some (mkTokenUsageInfo (total_of (usages ops)) u (last (windows ops)))
                   | None => None
                   end
  /\ snapshot (window s) = mkSnapshot (Z.min (1 + resets ops) Truncation.maxUint64) (baseline (since_reset ops)).
Proof.
  cbv zeta. split_and!; [apply run_items|apply run_tokens|]. destruct (run_window ops) as [Hp _].
  pose proof (run_ordinal ops) as Ho. unfold snapshot in *. cbn in Hp. by rewrite Ho, Hp.
Qed.

(** ** Rate limits *)

(** What is known of the credits and the plan is never forgotten. *)
Lemma limits_kept previous snapshot :
  let merged := mergeRateLimitFields (Some previous) snapshot in
  (is_Some (Credits previous) -> is_Some (Credits merged)) /\ (is_Some (PlanType previous) -> is_Some (PlanType merged))
  /\ is_Some (LimitID merged).
Proof. cbn. destruct (Credits snapshot), (PlanType snapshot), (LimitID snapshot); by split_and!. Qed.

End State.
