(* ===== verification/CoreMapping.v ===== *)
(** * internal/core: from conversation items to turn items

    [event_mapping.go] and [event_mapping_helpers.go]: which items of the
    conversation the client sees and as what, and which user messages are
    scaffolding.  The decoding of a hook prompt's XML and the fresh ids are
    parameters. *)

From stdpp Require Import base list strings.
From S2P Require Import Prelude GoStrings GoText ProtocolItems.

Module Mapping.
Import Items.

(** ** Tags *)

Definition collaborationModeOpenTag : gostring := str "<collaboration_mode>".
Definition realtimeConversationOpenTag : gostring := str "<realtime_conversation>".

Definition contextualDeveloperPrefixes : list gostring :=
  [str "<permissions instructions>"; str "<model_switch>"; collaborationModeOpenTag; realtimeConversationOpenTag;
   str "<personality_spec>"].

Definition imageOpenTag : gostring := str "<image>".
Definition imageCloseTag : gostring := str "</image>".
Definition localImageOpenTagPrefix : gostring := str "<image name=".
Definition localImageOpenTagSuffix : gostring := str ">".
Definition localImageCloseTag : gostring := imageCloseTag.

Definition isImageOpenTagText (text : gostring) : bool := bool_decide (text = imageOpenTag).
Definition isImageCloseTagText (text : gostring) : bool := bool_decide (text = imageCloseTag).
Definition isLocalImageOpenTagText (text : gostring) : bool :=
  match cut_prefix text localImageOpenTagPrefix with
  | Some rest => has_suffix rest localImageOpenTagSuffix
  | None => false
  end.
Definition isLocalImageCloseTagText (text : gostring) : bool := isImageCloseTagText text.

(** ** Contextual messages *)

(** [strings.EqualFold] of a slice as long as an ASCII prefix: a rune of several
    bytes makes the slice shorter in runes, so only ASCII letters can fold. *)
Definition hasPrefixFold (s prefix : gostring) : bool :=
  if (length s <? length prefix)%nat then false
  else bool_decide (map ascii_lower (take (length prefix) s) = map ascii_lower prefix).

Definition is_blank (c : ascii) : bool := (Ascii.eqb c " " || Ascii.eqb c "009" || Ascii.eqb c cr || Ascii.eqb c nl)%char.

(** [strings.TrimLeft(text, " \t\r\n")]. *)
Fixpoint trim_left_blanks (s : gostring) : gostring :=
  match s with c :: rest => if is_blank c then trim_left_blanks rest else s | [] => [] end.

Definition isStandardContextualUserText (text : gostring) : bool :=
  existsb (hasPrefixFold (trim_left_blanks text)) contextualDeveloperPrefixes.
Arguments isStandardContextualUserText : simpl never.

Section Mapping.
(** [xml.Unmarshal] into a [hookPromptXML]: the text and the run id, or an
    error; and the next fresh id. *)
Context (xml_hook_prompt : gostring -> option (gostring * gostring)) (newItemID : gostring).

Definition parseHookPromptFragment (text : gostring) : option HookPromptFragment :=
  let trimmed := trim_space text in
  if decide (trimmed = []) then None
  else match xml_hook_prompt trimmed with
       | None => None
       | Some (parsed, runID) =>
           if decide (trim_space runID = []) then None else Some (mkHookPromptFragment parsed runID)
       end.

Definition isContextualUserFragment (item : ContentItem) : bool :=
  match item with
  | ContentInputText text =>
      match parseHookPromptFragment text with Some _ => true | None => isStandardContextualUserText text end
  | _ => false
  end.

Definition isContextualUserMessageContent (content : list ContentItem) : bool := existsb isContextualUserFragment content.

(** The loop of [parseVisibleHookPromptMessage]: the fragments, or [None] when
    an item disqualifies the message. *)
Fixpoint hook_fragments (content : list ContentItem) (fragments : list HookPromptFragment) : option (list HookPromptFragment) :=
  match content with
  | [] => Some fragments
  | ContentInputText text :: rest =>
      match parseHookPromptFragment text with
      | Some frag => hook_fragments rest (fragments ++ [frag])
      | None => if isStandardContextualUserText text then hook_fragments rest fragments else None
      end
  | _ => None
  end.

Definition id_or_new (id : option gostring) : gostring :=
  let hookID := default [] id in if decide (hookID = []) then newItemID else hookID.

Definition parseVisibleHookPromptMessage (id : option gostring) (content : list ContentItem) : option TurnItem :=
  match hook_fragments content [] with
  | None | Some [] => None
  | Some fragments => Some (HookPromptItem (id_or_new id) fragments)
  end.

(** ** User and agent messages *)

Definition is_input_image (item : ContentItem) : bool := match item with ContentInputImage _ _ => true | _ => false end.

Definition isImageMarkerToSkip (content : list ContentItem) (idx : nat) (text : gostring) : bool :=
  let openMatches := (isLocalImageOpenTagText text || isImageOpenTagText text)
                     && match content !! S idx with Some item => is_input_image item | None => false end in
  let closeMatches := (0 <? idx)%nat && (isLocalImageCloseTagText text || isImageCloseTagText text)
                      && match content !! (idx - 1)%nat with Some item => is_input_image item | None => false end in
  openMatches || closeMatches.

(** The loop over the content; [content] is all of it, [rest] what is left
    from [idx] on. *)
Fixpoint user_inputs (content : list ContentItem) (idx : nat) (rest : list ContentItem) : list UserInput :=
  match rest with
  | [] => []
  | ContentInputText text :: rest =>
      if isImageMarkerToSkip content idx text then user_inputs content (S idx) rest
      else InputText text [] :: user_inputs content (S idx) rest
  | ContentInputImage url detail :: rest => InputImage url detail :: user_inputs content (S idx) rest
  | ContentOutputText _ :: rest => user_inputs content (S idx) rest
  end.

Definition parseUserMessage (content : list ContentItem) : option TurnItem :=
  if isContextualUserMessageContent content then None
  else Some (UserMessageItem newItemID (user_inputs content 0 content)).

Definition parseAgentMessage (id : option gostring) (content : list ContentItem) (phase : option MessagePhase) : TurnItem :=
  AgentMessageItem (id_or_new id)
    (omap (fun c => match c with ContentInputText t | ContentOutputText t => Some t | _ => None end) content) phase.

(** ** The other items *)

Definition searchActionDetail (query : option gostring) (queries : option (list gostring)) : gostring :=
  match query with
  | Some (c :: q) => c :: q
  | _ =>
      let qs := default [] queries in
      let first := default [] (head qs) in
      if (1 <? length qs)%nat && negb (bool_decide (first = [])) then first ++ str " ..." else first
  end.

Definition webSearchActionDetail (action : WebSearchAction) : gostring :=
  match action with
  | WebSearchActionSearch query queries => searchActionDetail query queries
  | WebSearchActionOpenPage url => default [] url
  | WebSearchActionFindInPage url pattern =>
      match pattern, url with
      | Some p, Some u => str "'" ++ p ++ str "' in " ++ u
      | Some p, None => str "'" ++ p ++ str "'"
      | None, Some u => u
      | None, None => []
      end
  | WebSearchActionOther => []
  end.

Definition parseReasoningTurnItem (id : gostring) (summary : list gostring) (content : option (list ReasoningItemContent)) : TurnItem :=
  ReasoningTurnItem id summary (match content with Some c => map reasoning_content_text c | None => [] end).

Definition parseWebSearchTurnItem (id : option gostring) (action : option WebSearchAction) : TurnItem :=
  WebSearchItem (default [] id) (match action with Some a => webSearchActionDetail a | None => [] end)
    (default WebSearchActionOther action).

Definition parseMessageTurnItem (id : option gostring) (role : gostring) (content : list ContentItem) (phase : option MessagePhase)
    : option TurnItem :=
  if decide (role = str "user") then
    match parseVisibleHookPromptMessage id content with
    | Some hookItem => Some hookItem
    | None => parseUserMessage content
    end
  else if decide (role = str "assistant") then Some (parseAgentMessage id content phase)
  else None.

Definition parseTurnItem (item : ResponseItem) : option TurnItem :=
  match item with
  | Message id role content phase => parseMessageTurnItem id role content phase
  | Reasoning id summary content _ => Some (parseReasoningTurnItem id summary content)
  | WebSearchCall id _ action => Some (parseWebSearchTurnItem id action)
  | ImageGenerationCall id status revised result => Some (ImageGenerationItem id status revised result)
  | _ => None
  end.

Definition userMessageText (content : list UserInput) : gostring :=
  concat (map (fun i => match i with InputText t _ => t | _ => [] end) content).

(** ** User text *)

(** The text of an item that maps to a user message. *)
Definition user_text (item : ResponseItem) : option gostring :=
  match parseTurnItem item with Some (UserMessageItem _ content) => Some (userMessageText content) | _ => None end.

(** A text the user can see: no scaffolding. *)
Definition visible (text : gostring) : Prop :=
  parseHookPromptFragment text = None /\ isStandardContextualUserText text = false.

Lemma user_text_only item text : user_text item = Some text -> exists id content phase, item = Message id (str "user") content phase.
Proof.
  unfold user_text, parseTurnItem. destruct item; try done. unfold parseMessageTurnItem.
  destruct (decide (role = str "user")) as [->|]; [intros _; by repeat eexists|]. by destruct (decide _).
Qed.

(** A message of one text is what its text is. *)
Lemma user_text_single id text phase :
  user_text (Message id (str "user") [ContentInputText text] phase) =
  match parseHookPromptFragment text with
  | Some _ => None
  | None => if isStandardContextualUserText text then None else Some text
  end.
Proof.
  unfold user_text, parseTurnItem, parseMessageTurnItem. destruct (decide (str "user" = str "user")) as [_|]; [|done].
  unfold parseVisibleHookPromptMessage. cbn [hook_fragments]. destruct (parseHookPromptFragment text) eqn:Eh; cbn; [done|].
  unfold parseUserMessage, isContextualUserMessageContent. cbn [existsb isContextualUserFragment]. rewrite Eh.
  destruct (isStandardContextualUserText text) eqn:Ec; [reflexivity|]. cbn [orb].
  assert (isImageMarkerToSkip [ContentInputText text] 0 text = false) as Hs.
  { unfold isImageMarkerToSkip. cbn. by rewrite andb_false_r. }
  cbn [user_inputs]. rewrite Hs. unfold userMessageText. cbn [map concat]. by rewrite app_nil_r.
Qed.

Lemma user_text_visible id text phase : visible text -> user_text (Message id (str "user") [ContentInputText text] phase) = Some text.
Proof. intros [Hh Hc]. by rewrite user_text_single, Hh, Hc. Qed.

End Mapping.

(** An image and its markers: the tags around it are dropped. *)
Example image_markers :
  let content := [ContentInputText (str "see "); ContentInputText (str "<image name=a.png>"); ContentInputImage (str "data:") None;
                  ContentInputText (str "</image>"); ContentInputText (str "<image>")] in
  parseTurnItem (fun _ => None) (str "id") (Message None (str "user") content None)
  = Some (UserMessageItem (str "id") [InputText (str "see ") []; InputImage (str "data:") None; InputText (str "<image>") []]).
Proof. vm_compute. reflexivity. Qed.

Example scaffolding_hidden :
  user_text (fun _ => None) (str "id") (Message None (str "user") [ContentInputText (str " <Permissions Instructions> x")] None) = None.
Proof. vm_compute. reflexivity. Qed.

End Mapping.
