(* ===== verification/CoreCompact.v ===== *)
(** * internal/core: rebuilding a compacted conversation

    The history helpers of [event_compact.go] and [event_compact_helpers.go]:
    when to compact, what the new conversation keeps of the old one, and where
    the initial context goes.  The request itself is a part of [CoreTurn.v]. *)

From stdpp Require Import base list strings.
From S2P Require Import Prelude GoStrings Truncation ProtocolItems CoreState CoreMapping.

Module Compact.
Import Items State Mapping.
#[local] Open Scope Z_scope.

(** ** Texts and limits *)

Definition SummaryPrefix : gostring := str "Another language model started to solve this problem and produced a summary of its thinking process. You also have access to the state of the tools that were used by that language model. Use this to build on the work that has already been done and avoid duplicating work. Here is the summary produced by the other language model, use the information in this summary to assist with your own analysis:".
Definition compactUserMessageMaxTokens : Z := 20000.
Definition longThreadWarningMessage : gostring := str "Heads up: Long threads and multiple compactions can cause the model to be less accurate. Start a new thread when possible to keep threads small and targeted.".
Definition noSummaryAvailablePlaceholder : gostring := str "(no summary available)".
Definition streamClosedBeforeCompletedMsg : gostring := str "stream closed before response.completed".

(** [turn_context.go]: the prompt that is used when none is configured. *)
Definition defaultSummarizationPrompt : gostring := str "Summarize the conversation so far, preserving all facts, decisions, and open tasks needed to continue.".
Definition CompactPromptText (prompt : option gostring) : gostring :=
  match prompt with Some (c :: p) => c :: p | _ => defaultSummarizationPrompt end.

Inductive InitialContextInjection := InjectBeforeLastUserMessage | DoNotInjectInitialContext.

Definition shouldAutoCompact (totalTokens : Z) (limit : option Z) : bool :=
  match limit with Some l => (0 <? l) && (l <=? totalTokens) | None => false end.

(** ** Messages *)

Definition userTextMessage (text : gostring) : ResponseItem := Message None (str "user") [ContentInputText text] None.
Definition developerTextMessage (text : gostring) : ResponseItem := Message None (str "developer") [ContentInputText text] None.

Definition assistantMessageText (content : list ContentItem) : gostring :=
  concat (map (fun c => match c with ContentOutputText t => t | _ => [] end) content).

(** The loop runs from the end: the items come newest first. *)
Fixpoint last_assistant_text (newest_first : list ResponseItem) : gostring :=
  match newest_first with
  | [] => []
  | Message _ role content _ :: rest =>
      if decide (role = str "assistant") then
        let text := assistantMessageText content in
        if decide (trim_space text = []) then last_assistant_text rest else text
      else last_assistant_text rest
  | _ :: rest => last_assistant_text rest
  end.

Definition getLastAssistantMessageFromTurn (items : list ResponseItem) : gostring := last_assistant_text (rev items).

Definition isSummaryMessage (message : gostring) : bool := has_prefix message (SummaryPrefix ++ [nl]).

Definition saturatingSub (a b : Z) : Z := if a <=? b then 0 else a - b.

(** The loop of [buildCompactedHistoryWithLimit], newest message first. *)
Fixpoint select_messages (newest_first : list gostring) (remaining : Z) : list gostring :=
  match newest_first with
  | [] => []
  | message :: rest =>
      if remaining =? 0 then []
      else
        let tokens := Truncation.ApproxTokenCount message in
        if tokens <=? remaining then message :: select_messages rest (saturatingSub remaining tokens)
        else [Truncation.TruncateText message (Truncation.TokensPolicy remaining)]
  end.

Definition buildCompactedHistoryWithLimit (history : list ResponseItem) (userMessages : list gostring) (summaryText : gostring)
    (maxTokens : Z) : list ResponseItem :=
  let selected := if 0 <? maxTokens then rev (select_messages (rev userMessages) maxTokens) else [] in
  let summary := if decide (summaryText = []) then noSummaryAvailablePlaceholder else summaryText in
  history ++ map userTextMessage selected ++ [userTextMessage summary].

Definition buildCompactedHistory (initialContext : list ResponseItem) (userMessages : list gostring) (summaryText : gostring)
    : list ResponseItem :=
  buildCompactedHistoryWithLimit initialContext userMessages summaryText compactUserMessageMaxTokens.

Definition content_tokens (c : ContentItem) : Z :=
  match c with ContentInputText t | ContentOutputText t => Truncation.ApproxTokenCount t | ContentInputImage _ _ => 0 end.

Definition approxHistoryTokens (items : list ResponseItem) : Z :=
  fold_left (fun total item => fold_left (fun total c => Truncation.wrap (total + content_tokens c)) (Content item) total) items 0.

Definition buildInitialContext (developerInstructions userInstructions : option gostring) : list ResponseItem :=
  match developerInstructions with Some (c :: t) => [developerTextMessage (c :: t)] | _ => [] end
  ++ match userInstructions with Some (c :: t) => [userTextMessage (c :: t)] | _ => [] end.

Section Compact.
Context (xml_hook_prompt : gostring -> option (gostring * gostring)) (newItemID : gostring).

#[local] Notation user_text := (user_text xml_hook_prompt newItemID).
#[local] Notation visible := (visible xml_hook_prompt).

(** [collectUserMessages] reads the text of the items that map to a user
    message. *)
Definition collectUserMessages (items : list ResponseItem) : list gostring :=
  omap (fun item => match user_text item with
                    | Some msg => if isSummaryMessage msg then None else Some msg
                    | None => None
                    end) items.

(** The first loop of [insertInitialContextBeforeLastRealUserOrSummary], from
    index [n - 1] down: the last user message or summary, the last real user
    message. *)
Fixpoint scan_users (compacted : list ResponseItem) (n : nat) (lastUserOrSummary : option nat) : option nat * option nat :=
  match n with
  | O => (lastUserOrSummary, None)
  | S i =>
      match (compacted !! i) ≫= user_text with
      | None => scan_users compacted i lastUserOrSummary
      | Some msg =>
          let lastUserOrSummary := match lastUserOrSummary with None => Some i | Some j => Some j end in
          if isSummaryMessage msg then scan_users compacted i lastUserOrSummary else (lastUserOrSummary, Some i)
      end
  end.

Definition is_compaction (item : ResponseItem) : bool :=
  match item with Compaction _ | ContextCompaction _ => true | _ => false end.

Fixpoint scan_compaction (compacted : list ResponseItem) (n : nat) : option nat :=
  match n with
  | O => None
  | S i => match compacted !! i with
           | Some item => if is_compaction item then Some i else scan_compaction compacted i
           | None => scan_compaction compacted i
           end
  end.

Definition insertInitialContextBeforeLastRealUserOrSummary (compacted initialContext : list ResponseItem) : list ResponseItem :=
  let '(lastUserOrSummary, lastRealUser) := scan_users compacted (length compacted) None in
  let lastCompaction := scan_compaction compacted (length compacted) in
  match (match lastRealUser with
         | Some i => Some i
         | None => match lastUserOrSummary with Some i => Some i | None => lastCompaction end
         end) with
  | None => compacted ++ initialContext
  | Some insertIdx => take insertIdx compacted ++ initialContext ++ drop insertIdx compacted
  end.

(** [runCompactTaskImpl], step 4: the new conversation and the summary. *)
Definition summary_of (historyItems : list ResponseItem) : gostring :=
  SummaryPrefix ++ [nl] ++ getLastAssistantMessageFromTurn historyItems.

Definition compacted_history (historyItems : list ResponseItem) (injection : InitialContextInjection)
    (initialContext : list ResponseItem) : list ResponseItem :=
  let newHistory := buildCompactedHistory [] (collectUserMessages historyItems) (summary_of historyItems) in
  match injection with
  | InjectBeforeLastUserMessage => insertInitialContextBeforeLastRealUserOrSummary newHistory initialContext
  | DoNotInjectInitialContext => newHistory
  end.

(** ** What is kept *)

Fixpoint tokens_of (msgs : list gostring) : Z :=
  match msgs with [] => 0 | m :: rest => Truncation.ApproxTokenCount m + tokens_of rest end.

Lemma tokens_of_snoc a m : tokens_of (a ++ [m]) = tokens_of a + Truncation.ApproxTokenCount m.
Proof. induction a as [|x a IH]; cbn [app tokens_of]; [lia|]. rewrite IH. lia. Qed.

Lemma ApproxTokenCount_nonneg t : 0 <= Truncation.ApproxTokenCount t.
Proof.
  unfold Truncation.ApproxTokenCount, Truncation.ceilDivInt. destruct (zlen t <=? 0) eqn:E; [done|]. breflect.
  apply Z.quot_pos; [|done]. unfold Truncation.saturatingAddInt, Truncation.approxBytesPerToken. cbv zeta.
  set (sum := Truncation.wrap (zlen t + (4 - 1))). destruct (Z.ltb_spec 0 (zlen t)); [|lia].
  destruct (Z.ltb_spec sum 0); [done|]. destruct (Z.ltb_spec (zlen t) 0); [lia|]. cbn [andb orb].
  change (4 - 1 <? 0) with false. rewrite !andb_false_r. destruct (_ || _); [by vm_compute|done].
Qed.

(** What is cut off the oldest message that does not fit. *)
Definition cut_of (older : list gostring) (budget : Z) (cut : list gostring) : Prop :=
  match cut with
  | [] => older = [] \/ budget = 0
  | [c] => exists rest m, older = rest ++ [m] /\ 0 < budget < Truncation.ApproxTokenCount m
             /\ c = Truncation.TruncateText m (Truncation.TokensPolicy budget)
  | _ => False
  end.

Lemma select_messages_spec newest remaining : 0 <= remaining ->
  exists older cut kept, rev newest = older ++ kept /\ rev (select_messages newest remaining) = cut ++ kept
    /\ tokens_of kept <= remaining /\ cut_of older (remaining - tokens_of kept) cut.
Proof.
  revert remaining. induction newest as [|m rest IH]; intros remaining Hr.
  { exists [], [], []. cbn. split_and!; [done|done|lia|by left]. }
  cbn [select_messages rev]. destruct (remaining =? 0) eqn:E0.
  { breflect. subst. exists (rev rest ++ [m]), [], []. rewrite app_nil_r. cbn. split_and!; [done|done|lia|by right]. }
  breflect. destruct (Truncation.ApproxTokenCount m <=? remaining) eqn:E; breflect.
  - destruct (IH (saturatingSub remaining (Truncation.ApproxTokenCount m))) as (older & cut & kept & Er & Es & Hk & Hc).
    { unfold saturatingSub. case_match; lia. }
    assert (saturatingSub remaining (Truncation.ApproxTokenCount m) = remaining - Truncation.ApproxTokenCount m) as Hs.
    { unfold saturatingSub. destruct (remaining <=? _) eqn:E1; breflect; lia. }
    rewrite Hs in *. exists older, cut, (kept ++ [m]). cbn [rev]. rewrite tokens_of_snoc, Er, Es, <- !app_assoc.
    split_and!; [done|done|lia|]. by replace (remaining - _) with (remaining - Truncation.ApproxTokenCount m - tokens_of kept) by lia.
  - exists (rev rest ++ [m]), [Truncation.TruncateText m (Truncation.TokensPolicy remaining)], []. cbn [rev app tokens_of].
    rewrite app_nil_r. split_and!; [done|done|lia|]. exists (rev rest), m. rewrite Z.sub_0_r. split_and!; [done|lia|lia|done].
Qed.

(** C14: what compaction keeps. The new conversation is the given prefix, the
    newest user messages, whole, as many as fit in the budget of tokens, before
    them the next older one cut to what is left of the budget, all in their
    order, and the summary. *)
Theorem compacted_history_spec history userMessages summaryText maxTokens : 0 <= maxTokens ->
  exists older cut kept, userMessages = older ++ kept
    /\ buildCompactedHistoryWithLimit history userMessages summaryText maxTokens
       = history ++ map userTextMessage (cut ++ kept)
         ++ [userTextMessage (if decide (summaryText = []) then noSummaryAvailablePlaceholder else summaryText)]
    /\ tokens_of kept <= maxTokens /\ cut_of older (maxTokens - tokens_of kept) cut.
Proof.
  intros Hmax. unfold buildCompactedHistoryWithLimit. destruct (Z.ltb_spec 0 maxTokens).
  - destruct (select_messages_spec (rev userMessages) maxTokens Hmax) as (older & cut & kept & Er & Es & Hk & Hc).
    rewrite rev_involutive in Er. exists older, cut, kept. by rewrite Es.
  - exists userMessages, [], []. rewrite app_nil_r. assert (maxTokens = 0) as -> by lia. cbn [tokens_of].
    split_and!; [done|done|lia|by right].
Qed.

Lemma compacted_history_spec_witness :
  0 <= 3 /\ exists older cut kept, [str "first"; str "second message"; str "third"] = older ++ kept
    /\ tokens_of kept <= 3 /\ cut_of older (3 - tokens_of kept) cut.
Proof.
  split; [lia|]. destruct (compacted_history_spec [] [str "first"; str "second message"; str "third"] [] 3 ltac:(lia))
    as (older & cut & kept & H1 & _ & H2 & H3). exists older, cut, kept. split; [exact H1|]. split; [exact H2|exact H3].
Defined.

(** ** Compacting again *)

Lemma summary_is_summary items : isSummaryMessage (summary_of items) = true.
Proof. apply has_prefix_true. exists (getLastAssistantMessageFromTurn items). unfold summary_of. by rewrite <- app_assoc. Qed.

Lemma collect_app a b : collectUserMessages (a ++ b) = collectUserMessages a ++ collectUserMessages b.
Proof. apply omap_app. Qed.

(** A plain message: the user sees it, and it is no summary. *)
Definition plain (msg : gostring) : Prop := visible msg /\ isSummaryMessage msg = false.

Lemma collect_plain msgs : Forall plain msgs -> collectUserMessages (map userTextMessage msgs) = msgs.
Proof.
  induction 1 as [|m msgs [Hv Hs] _ IH]; [done|]. cbn [map collectUserMessages omap list_omap].
  unfold userTextMessage at 1. rewrite user_text_visible by done. rewrite Hs. f_equal. exact IH.
Qed.

Lemma collect_summary s : isSummaryMessage s = true -> collectUserMessages [userTextMessage s] = [].
Proof.
  intros Hs. cbn [collectUserMessages omap list_omap]. unfold userTextMessage. rewrite user_text_single.
  destruct (parseHookPromptFragment _ _); [done|]. destruct (isStandardContextualUserText s); [done|]. by rewrite Hs.
Qed.

Lemma summary_not_empty items : summary_of items <> [].
Proof. done. Qed.

(** A conversation whose user messages are one text each. *)
Definition single_text (item : ResponseItem) : Prop :=
  match item with
  | Message _ role content _ => role = str "user" -> exists t, content = [ContentInputText t]
  | _ => True
  end.

(** What such a conversation shows as user messages reads as one again. *)
Lemma collected_plain items : Forall single_text items -> Forall plain (collectUserMessages items).
Proof.
  induction 1 as [|item items Hi _ IH]; [constructor|]. cbn [collectUserMessages omap list_omap].
  destruct (user_text item) as [msg|] eqn:Eu; [|exact IH]. destruct (isSummaryMessage msg) eqn:Es; [exact IH|].
  constructor; [|exact IH]. split; [|done]. pose proof (user_text_only _ _ _ _ Eu) as (id & content & phase & ->).
  destruct (Hi eq_refl) as (t & ->). rewrite user_text_single in Eu. unfold Mapping.visible.
  destruct (parseHookPromptFragment _ _) eqn:Eh; [done|]. destruct (isStandardContextualUserText t) eqn:Ec; [done|].
  by simplify_eq.
Qed.

(** One text is collected as it is, or not at all. *)
Lemma collect_one t : collectUserMessages [userTextMessage t] = [t] \/ collectUserMessages [userTextMessage t] = [].
Proof.
  cbn [collectUserMessages omap list_omap]. unfold userTextMessage. rewrite user_text_single.
  destruct (parseHookPromptFragment _ _); [by right|]. destruct (isStandardContextualUserText t); [by right|].
  destruct (isSummaryMessage t); [by right|by left].
Qed.

(** C15: a compacted conversation can be compacted again, as often as need be.
    Take a conversation whose user messages are one text each, and compact it
    without initial context. The result is such a conversation too: the newest
    user messages, whole, before them at most one that was cut, and last the
    summary. When it is compacted again, every message that was kept whole counts
    as a user message again, in order and unchanged; the cut one does or does not
    (its new text may read as scaffolding); the summary does not, so summaries do
    not pile up. *)
Theorem compaction_keeps_users items : Forall single_text items ->
  let new := compacted_history items DoNotInjectInitialContext [] in
  Forall single_text new /\
  exists older cut kept again, collectUserMessages items = older ++ kept
    /\ cut_of older (compactUserMessageMaxTokens - tokens_of kept) cut
    /\ new = map userTextMessage (cut ++ kept) ++ [userTextMessage (summary_of items)]
    /\ collectUserMessages new = again ++ kept /\ (again = cut \/ again = []).
Proof.
  intros Hitems new. pose proof (collected_plain _ Hitems) as Hplain.
  destruct (select_messages_spec (rev (collectUserMessages items)) compactUserMessageMaxTokens ltac:(done))
    as (older & cut & kept & Er & Es & _ & Hc). rewrite rev_involutive in Er.
  assert (new = map userTextMessage (cut ++ kept) ++ [userTextMessage (summary_of items)]) as ->.
  { unfold new, compacted_history, buildCompactedHistory, buildCompactedHistoryWithLimit.
    change (0 <? compactUserMessageMaxTokens) with true. cbn iota. rewrite Es.
    destruct (decide (summary_of items = [])) as [E|_]; [by apply summary_not_empty in E|done]. }
  assert (forall msgs, Forall single_text (map userTextMessage msgs)) as Hst.
  { intros msgs. apply Forall_map, Forall_true. intros t _. by exists t. }
  split; [apply Forall_app; split; [apply Hst|apply (Hst [_])]|].
  exists older, cut, kept, (collectUserMessages (map userTextMessage cut)). split_and!; [done..| |].
  - rewrite Er in Hplain. apply Forall_app in Hplain as [_ Hk].
    rewrite map_app, !collect_app, (collect_plain kept), collect_summary by (done || apply summary_is_summary).
    by rewrite app_nil_r.
  - destruct cut as [|c [|]]; [by left|apply collect_one|done].
Qed.

(** ** Where the initial context goes *)

Definition is_user (item : ResponseItem) : bool := match user_text item with Some _ => true | None => false end.
Definition is_real_user (item : ResponseItem) : bool :=
  match user_text item with Some msg => negb (isSummaryMessage msg) | None => false end.

(** The last index below [n] with the property. *)
Fixpoint last_such (P : ResponseItem -> bool) (l : list ResponseItem) (n : nat) : option nat :=
  match n with
  | O => None
  | S i => if from_option P false (l !! i) then Some i else last_such P l i
  end.

Lemma last_such_compaction l n : scan_compaction l n = last_such is_compaction l n.
Proof. induction n as [|n IH]; cbn; [done|]. destruct (l !! n); cbn; by rewrite IH. Qed.

Lemma scan_users_last l n us :
  scan_users l n us = (match us with Some j => Some j | None => last_such is_user l n end, last_such is_real_user l n).
Proof.
  revert us. induction n as [|n IH]; intros us; cbn [scan_users last_such]; [by destruct us|].
  destruct (l !! n) as [item|] eqn:E; cbn [from_option mbind option_bind]; [|by rewrite IH].
  unfold is_user, is_real_user. destruct (user_text item) as [msg|]; cbn; [|by rewrite IH].
  destruct (isSummaryMessage msg); cbn; [rewrite IH|]; by destruct us.
Qed.

Definition ends_at (P : ResponseItem -> bool) (after : list ResponseItem) : Prop :=
  exists x rest, after = x :: rest /\ P x = true /\ existsb P rest = false.

Lemma last_such_split P l : match last_such P l (length l) with
  | Some i => existsb P l = true /\ ends_at P (drop i l)
  | None => existsb P l = false
  end.
Proof.
  assert (forall n, (n <= length l)%nat -> existsb P (drop n l) = false ->
    match last_such P l n with Some i => existsb P l = true /\ ends_at P (drop i l) | None => existsb P l = false end) as H.
  { induction n as [|n IH]; intros Hn Hno; cbn [last_such]; [by rewrite drop_0 in Hno|].
    destruct (lookup_lt_is_Some_2 l n ltac:(lia)) as [x Hx]. rewrite Hx. cbn [from_option].
    pose proof (drop_S l x n Hx) as Ed. destruct (P x) eqn:EP.
    - split; [|exists x, (drop (S n) l); by rewrite Ed]. rewrite <- (take_drop n l), existsb_app, Ed. cbn. rewrite EP.
      by rewrite orb_true_r.
    - apply IH; [lia|]. rewrite Ed. cbn. by rewrite EP. }
  apply H; [lia|]. by rewrite drop_all.
Qed.

(** where compaction puts the initial context. It goes in one place, right
    before the last real user message; without one, before the last summary;
    without one, before the last compaction item; else at the end. *)
Theorem initial_context_boundary compacted initialContext :
  exists before after, compacted = before ++ after
    /\ insertInitialContextBeforeLastRealUserOrSummary compacted initialContext = before ++ initialContext ++ after
    /\ if existsb is_real_user compacted then ends_at is_real_user after
       else if existsb is_user compacted then ends_at is_user after
       else if existsb is_compaction compacted then ends_at is_compaction after
       else after = [].
Proof.
  unfold insertInitialContextBeforeLastRealUserOrSummary. rewrite scan_users_last, last_such_compaction.
  pose proof (last_such_split is_real_user compacted) as H1. pose proof (last_such_split is_user compacted) as H2.
  pose proof (last_such_split is_compaction compacted) as H3.
  destruct (last_such is_real_user _ _) as [i|].
  { destruct H1 as [-> H1]. exists (take i compacted), (drop i compacted). by rewrite take_drop. }
  rewrite H1. destruct (last_such is_user _ _) as [i|].
  { destruct H2 as [-> H2]. exists (take i compacted), (drop i compacted). by rewrite take_drop. }
  rewrite H2. destruct (last_such is_compaction _ _) as [i|].
  { destruct H3 as [-> H3]. exists (take i compacted), (drop i compacted). by rewrite take_drop. }
  rewrite H3. exists compacted, []. by rewrite !app_nil_r.
Qed.

End Compact.

Lemma compaction_keeps_users_witness :
  let items := [userTextMessage (str "fix the bug"); Message None (str "assistant") [ContentOutputText (str "done")] None] in
  let new := compacted_history (fun _ => None) (str "id") items DoNotInjectInitialContext [] in
  Forall single_text new
  /\ exists again kept, collectUserMessages (fun _ => None) (str "id") new = again ++ kept.
Proof.
  cbv zeta.
  destruct (compaction_keeps_users (fun _ => None) (str "id")
    [userTextMessage (str "fix the bug"); Message None (str "assistant") [ContentOutputText (str "done")] None])
    as [Hs (older & cut & kept & again & _ & _ & _ & Hc & _)].
  { constructor; [intros _; by eexists|]. constructor; [discriminate|constructor]. }
  split; [exact Hs|]. exists again, kept. exact Hc.
Defined.

(** Two compactions in a row. *)
Example kept_users :
  collectUserMessages (fun _ => None) (str "id")
    (compacted_history (fun _ => None) (str "id")
       (compacted_history (fun _ => None) (str "id")
          [userTextMessage (str "fix the bug"); Message None (str "assistant") [ContentOutputText (str "done")] None;
           userTextMessage (str "and the test")] DoNotInjectInitialContext []) DoNotInjectInitialContext [])
  = [str "fix the bug"; str "and the test"].
Proof. vm_compute. reflexivity. Qed.

(** ** When to compact *)

Lemma sum_of_app f a b : sum_of f (a ++ b) = sum_of f a + sum_of f b.
Proof.
  induction b as [|u b IH] using rev_ind; [unfold sum_of at 3; cbn; by rewrite app_nil_r, Z.add_0_r|].
  rewrite app_assoc, !sum_of_snoc, IH. lia.
Qed.

Lemma sum_of_nonneg f us : Forall (fun u => 0 <= f u) us -> 0 <= sum_of f us.
Proof. induction us as [|u us IH] using rev_ind; [done|]. rewrite Forall_app, Forall_singleton, sum_of_snoc. intros [H1 H2]. specialize (IH H1). lia. Qed.

Definition session_total (ops : list op) : Z :=
  match TokenInfo (run ops NewSessionState) with Some info => TotalTokens (TotalTokenUsage info) | None => 0 end.

Lemma session_total_sum ops : session_total ops = Truncation.wrap (sum_of TotalTokens (usages ops)).
Proof.
  unfold session_total. rewrite run_tokens. destruct (last (usages ops)) eqn:E; [done|].
  apply last_None in E. by rewrite E.
Qed.

(** The total that the trigger reads only grows: a compaction does not lower it.
    Once the limit is reached every later turn compacts again. *)
Lemma compaction_never_rests limit ops ops' :
  Forall (fun u => 0 <= TotalTokens u) (usages (ops ++ ops')) -> sum_of TotalTokens (usages (ops ++ ops')) <= Truncation.maxInt ->
  shouldAutoCompact (session_total ops) limit = true -> shouldAutoCompact (session_total (ops ++ ops')) limit = true.
Proof.
  intros Hpos Hmax. rewrite !session_total_sum. rewrite usages_app in *. rewrite sum_of_app in *. apply Forall_app in Hpos as [H1 H2].
  apply sum_of_nonneg in H1, H2.
  rewrite !Truncation.wrap_id by (unfold Truncation.is_int, Truncation.minInt; lia).
  unfold shouldAutoCompact. destruct limit as [l|]; [|done]. rewrite !andb_true_iff, !Z.ltb_lt, !Z.leb_le. lia.
Qed.

End Compact.
