(* ===== verification/CoreTools.v ===== *)
(** * internal/core: calls of tools and the router

    [tools.go], the projections of [turn_output.go], the outputs of
    [tool_executors.go] and [tool_search_executor.go], and the payloads, errors
    and input items of internal/tools that they use.  What a tool does is the
    interface [toolExecutor]; the JSON of search arguments is a parameter. *)

From stdpp Require Import base list gmap strings.
From S2P Require Import Prelude GoStrings ProtocolItems.

Module Tools.
Import Items.

(** ** internal/tools and protocol/ids.go *)

Record SearchToolCallParams := mkSearchParams { Query : gostring; Limit : option Z }.
#[export] Instance SearchToolCallParams_eq_dec : EqDecision SearchToolCallParams.
Proof. solve_decision. Defined.

Inductive ToolPayload :=
| FunctionPayload (arguments : gostring)
| ToolSearchPayload (arguments : SearchToolCallParams)
| CustomPayload (input : gostring).
#[export] Instance ToolPayload_eq_dec : EqDecision ToolPayload.
Proof. solve_decision. Defined.

Definition is_custom (p : ToolPayload) : bool := match p with CustomPayload _ => true | _ => false end.

(** [LogPayload]. *)
Definition LogPayload (p : ToolPayload) : gostring :=
  match p with ToolSearchPayload a => Query a | CustomPayload i => i | FunctionPayload a => a end.

Record ToolName := mkToolName { Name : gostring; Namespace : option gostring }.
#[export] Instance ToolName_eq_dec : EqDecision ToolName.
Proof. solve_decision. Defined.
Definition PlainToolName (name : gostring) : ToolName := mkToolName name None.
Definition NamespacedToolName (namespace name : gostring) : ToolName := mkToolName name (Some namespace).
Definition ToolName_String (t : ToolName) : gostring :=
  match Namespace t with Some ns => ns ++ Name t | None => Name t end.

Inductive FunctionCallError := RespondToModelError (message : gostring) | FatalError (message : gostring).
#[export] Instance FunctionCallError_eq_dec : EqDecision FunctionCallError.
Proof. solve_decision. Defined.
Definition FunctionCallError_Error (e : FunctionCallError) : gostring :=
  match e with FatalError m => str "Fatal error: " ++ m | RespondToModelError m => m end.

(** The result of an MCP call: its parts are JSON that is passed on. *)
Record CallToolResult := mkCallToolResult {
  ResultContent : list RawMessage;
  StructuredContent : option RawMessage;
  IsError : option bool;
  Meta : option RawMessage;
}.
#[export] Instance CallToolResult_eq_dec : EqDecision CallToolResult.
Proof. solve_decision. Defined.

Inductive ResponseInputItem :=
| MessageInput (role : gostring) (content : list ContentItem) (phase : option MessagePhase)
| FunctionCallOutputInput (callID : gostring) (output : FunctionCallOutputPayload)
| McpToolCallOutputInput (callID : gostring) (output : CallToolResult)
| CustomToolCallOutputInput (callID : gostring) (name : option gostring) (output : FunctionCallOutputPayload)
| ToolSearchOutputInput (callID status execution : gostring) (tools : list RawMessage).
#[export] Instance ResponseInputItem_eq_dec : EqDecision ResponseInputItem.
Proof. solve_decision. Defined.

(** ** Outputs: the interface and its implementations *)

Record ToolOutput := mkToolOutput {
  SuccessForLogging : bool;
  ToResponseItem : gostring -> ToolPayload -> ResponseInputItem;
}.

Definition payload_text (text : gostring) (success : option bool) : FunctionCallOutputPayload := mkPayload (Some text) None success.

(** The conversion that the outputs with a text have in common. *)
Definition text_response (out : FunctionCallOutputPayload) (callID : gostring) (payload : ToolPayload) : ResponseInputItem :=
  if is_custom payload then CustomToolCallOutputInput callID None out else FunctionCallOutputInput callID out.

Definition JsonToolOutput (value : RawMessage) (success : option bool) : ToolOutput :=
  mkToolOutput (default true success) (text_response (payload_text value success)).
Definition textToolOutput (text : gostring) (success : option bool) : ToolOutput :=
  mkToolOutput (default true success) (text_response (payload_text text success)).
Definition applyPatchToolOutput (text : gostring) : ToolOutput :=
  mkToolOutput true (text_response (payload_text text (Some true))).
Definition mcpToolOutput (result : CallToolResult) : ToolOutput :=
  mkToolOutput (negb (default false (IsError result))) (fun callID _ => McpToolCallOutputInput callID result).
Definition toolSearchOutput (tools : list RawMessage) : ToolOutput :=
  mkToolOutput true (fun callID _ => ToolSearchOutputInput callID (str "completed") (str "client") tools).

(** ** tools.go: results *)

Record AnyToolResult := mkAnyToolResult { CallID : gostring; Payload : ToolPayload; Output : ToolOutput }.

Definition IntoResponse (r : AnyToolResult) : ResponseInputItem := ToResponseItem (Output r) (CallID r) (Payload r).

Definition functionOutputText (p : FunctionCallOutputPayload) : gostring :=
  match PayloadText p with
  | Some text => text
  | None => concat (map (fun item => match item with OutputInputText t => t | _ => [] end) (default [] (PayloadItems p)))
  end.

Definition toolOutputText (out : ToolOutput) (callID : gostring) (payload : ToolPayload) : gostring :=
  match ToResponseItem out callID payload with
  | FunctionCallOutputInput _ o | CustomToolCallOutputInput _ _ o => functionOutputText o
  | _ => []
  end.

(** managers.go *)
Record ToolResult := mkToolResult { ResultOutput : gostring; Success : bool }.
#[export] Instance ToolResult_eq_dec : EqDecision ToolResult.
Proof. solve_decision. Defined.

Definition ToToolResult (r : AnyToolResult) : ToolResult :=
  mkToolResult (toolOutputText (Output r) (CallID r) (Payload r)) (SuccessForLogging (Output r)).

(** ** tools.go: the router *)

(** The fields of a [TurnContext] that a turn reads; the others go to the tools. *)
Record TurnContext := mkTurnContext {
  SubID : gostring;
  TurnRealtimeActive : bool;
  ModelSlug : gostring;
  TurnContextWindow : option Z;
  AutoCompactTokenLimit : option Z;
  TurnTools : list RawMessage;
  DeveloperInstructions : option gostring;
  UserInstructions : option gostring;
  CompactPrompt : option gostring;
  BaseInstructions : gostring;
  FinalOutputJSONSchema : option RawMessage;
}.

(** What a tool promises.  [Handle] runs beside the session: its answer is an
    input of the turn. *)
Record toolExecutor := mkExecutor {
  exec_name : ToolName;
  Spec : TurnContext -> option RawMessage;
  MatchesPayload : ToolPayload -> bool;
}.

Record DefaultToolRouter := mkRouter { executors : gmap gostring toolExecutor; order : list gostring }.

Fixpoint register (rest : list (option toolExecutor)) (r : DefaultToolRouter) : gostring + DefaultToolRouter :=
  match rest with
  | [] => inr r
  | None :: rest => register rest r
  | Some ex :: rest =>
      let key := ToolName_String (exec_name ex) in
      match executors r !! key with
      | Some _ => inl key
      | None => register rest (mkRouter (<[key := ex]> (executors r)) (order r ++ [key]))
      end
  end.

(** An error names the tool that is registered twice. *)
Definition NewDefaultToolRouter (execs : list (option toolExecutor)) : gostring + DefaultToolRouter :=
  register execs (mkRouter ∅ []).

Definition SpecsForTurn (r : DefaultToolRouter) (tc : TurnContext) : list RawMessage :=
  omap (fun key => executors r !! key ≫= fun ex => Spec ex tc) (order r).

Definition unsupportedToolCallMessage (payload : ToolPayload) (name : ToolName) : gostring :=
  if is_custom payload then str "unsupported custom tool call: " ++ ToolName_String name
  else str "unsupported call: " ++ ToolName_String name.

(** [dispatch] up to the call of the executor, and the whole for its answer. *)
Definition find_executor (r : DefaultToolRouter) (name : ToolName) (payload : ToolPayload) : FunctionCallError + toolExecutor :=
  match executors r !! ToolName_String name with
  | None => inl (RespondToModelError (unsupportedToolCallMessage payload name))
  | Some ex =>
      if MatchesPayload ex payload then inr ex
      else inl (FatalError (str "tool " ++ ToolName_String name ++ str " invoked with incompatible payload"))
  end.

Definition dispatch (r : DefaultToolRouter) (callID : gostring) (name : ToolName) (payload : ToolPayload)
    (handle : toolExecutor -> gostring + ToolOutput) : gostring + AnyToolResult :=
  match find_executor r name payload with
  | inl e => inl (FunctionCallError_Error e)
  | inr ex =>
      match handle ex with
      | inl e => inl e
      | inr out => inr (mkAnyToolResult callID payload out)
      end
  end.

(** [DispatchWithSession]; [DispatchParsed] is [dispatch] on a parsed call. *)
Definition DispatchWithSession (r : DefaultToolRouter) (callID : gostring) (name : ToolName) (payload : ToolPayload)
    (handle : toolExecutor -> gostring + ToolOutput) : gostring + ToolResult :=
  match dispatch r callID name payload handle with inl e => inl e | inr res => inr (ToToolResult res) end.

(** ** tools.go: parsing a call *)

Record ParsedToolCall := mkParsed { ToolNameOf : ToolName; ParsedCallID : gostring; ParsedPayload : ToolPayload }.

Section Parse.
(** [json.Unmarshal] into the search parameters, with its error text. *)
Context (unmarshal_params : RawMessage -> gostring + SearchToolCallParams).

Definition search_params (arguments : option RawMessage) : FunctionCallError + SearchToolCallParams :=
  match arguments with
  | None => inr (mkSearchParams [] None)
  | Some raw =>
      if decide (raw = [] \/ raw = str "null") then inr (mkSearchParams [] None)
      else match unmarshal_params raw with
           | inl e => inl (RespondToModelError (str "failed to parse tool_search arguments: " ++ e))
           | inr p => inr p
           end
  end.

Definition BuildToolCall (item : ResponseItem) : FunctionCallError + option ParsedToolCall :=
  match item with
  | FunctionCall _ name namespace arguments callID =>
      inr (Some (mkParsed (mkToolName name namespace) callID (FunctionPayload arguments)))
  | ToolSearchCall _ callID _ execution arguments =>
      match callID with
      | Some id =>
          if decide (execution = str "client") then
            match search_params arguments with
            | inl e => inl e
            | inr params => inr (Some (mkParsed (PlainToolName (str "tool_search")) id (ToolSearchPayload params)))
            end
          else inr None
      | None => inr None
      end
  | CustomToolCall _ _ callID name input => inr (Some (mkParsed (PlainToolName name) callID (CustomPayload input)))
  | _ => inr None
  end.
End Parse.

(** ** turn_output.go: the item that answers a call *)

Definition functionCallOutputItem (callID : gostring) (result : ToolResult) : ResponseItem :=
  FunctionCallOutput callID (Some (payload_text (ResultOutput result) (Some (Success result)))).
Definition customToolCallOutputItem (callID : gostring) (result : ToolResult) : ResponseItem :=
  CustomToolCallOutput callID None (Some (payload_text (ResultOutput result) (Some (Success result)))).

Definition zeroPayload : FunctionCallOutputPayload := mkPayload None None None.

Definition responseItemFromInput (i : ResponseInputItem) : ResponseItem :=
  match i with
  | ToolSearchOutputInput callID status execution tools => ToolSearchOutput (Some callID) status execution tools
  | CustomToolCallOutputInput callID name output => CustomToolCallOutput callID name (Some output)
  | FunctionCallOutputInput callID output => FunctionCallOutput callID (Some output)
  | McpToolCallOutputInput callID _ => FunctionCallOutput callID (Some zeroPayload)
  | MessageInput _ _ _ => FunctionCallOutput [] (Some zeroPayload)
  end.

Definition toolNameFor (name : gostring) (namespace : option gostring) : ToolName :=
  match namespace with Some ns => NamespacedToolName ns name | None => PlainToolName name end.

Definition dispatch_error (e : gostring) : ToolResult := mkToolResult (str "tool dispatch error: " ++ e) false.
Definition result_or_error (r : gostring + ToolResult) : ToolResult := match r with inl e => dispatch_error e | inr t => t end.

(** A call that the turn dispatches, with the name and payload it goes out
    with, and the item that answers it. *)
Inductive tool_call :=
| function_tool (callID : gostring) (name : ToolName) (arguments : gostring)
| custom_tool (callID : gostring) (name : gostring) (input : gostring)
| search_tool (call : ParsedToolCall).

Definition call_id (c : tool_call) : gostring :=
  match c with function_tool id _ _ | custom_tool id _ _ => id | search_tool p => ParsedCallID p end.
Definition call_name (c : tool_call) : ToolName :=
  match c with function_tool _ n _ => n | custom_tool _ n _ => PlainToolName n | search_tool p => ToolNameOf p end.
Definition call_payload (c : tool_call) : ToolPayload :=
  match c with function_tool _ _ a => FunctionPayload a | custom_tool _ _ i => CustomPayload i | search_tool p => ParsedPayload p end.

(** The tails of [dispatchFunctionCall], [dispatchCustomToolCall] and
    [dispatchToolSearchCall], for the answer of the router. *)
Definition call_answer (c : tool_call) (r : gostring + AnyToolResult) : ResponseItem :=
  match c with
  | function_tool id _ _ => functionCallOutputItem id (result_or_error (match r with inl e => inl e | inr a => inr (ToToolResult a) end))
  | custom_tool id _ _ => customToolCallOutputItem id (result_or_error (match r with inl e => inl e | inr a => inr (ToToolResult a) end))
  | search_tool p =>
      match r with
      | inl e => functionCallOutputItem (ParsedCallID p) (dispatch_error e)
      | inr a => responseItemFromInput (IntoResponse a)
      end
  end.

(** ** Routers *)

Definition registered (execs : list (option toolExecutor)) : list toolExecutor := omap id execs.
Definition key_of (ex : toolExecutor) : gostring := ToolName_String (exec_name ex).

Definition router_ok (exs : list toolExecutor) (r : DefaultToolRouter) : Prop :=
  order r = map key_of exs /\ NoDup (order r)
  /\ forall key ex, executors r !! key = Some ex <-> ex ∈ exs /\ key_of ex = key.

Lemma router_ok_key exs r key : router_ok exs r -> is_Some (executors r !! key) <-> key ∈ order r.
Proof.
  intros (-> & _ & Hl). split.
  - intros [ex Hx]. apply Hl in Hx as [Hin <-]. by apply list_elem_of_fmap_2.
  - intros Hin. apply list_elem_of_fmap in Hin as (ex & -> & Hin). exists ex. by apply Hl.
Qed.

Lemma router_ok_insert exs r ex : router_ok exs r -> executors r !! key_of ex = None ->
  router_ok (exs ++ [ex]) (mkRouter (<[key_of ex := ex]> (executors r)) (order r ++ [key_of ex])).
Proof.
  intros Hr Hn. assert (~ key_of ex ∈ order r) as Hnew.
  { rewrite <- (router_ok_key exs r) by done. rewrite Hn. apply is_Some_None. }
  destruct Hr as (Ho & Hnd & Hl). split_and!; cbn [order executors].
  - by rewrite Ho, map_app.
  - apply NoDup_app. split_and!; [done| |apply NoDup_singleton]. intros k Hk Hk'. apply list_elem_of_singleton in Hk' as ->. done.
  - intros key ex'. rewrite lookup_insert_Some, elem_of_app, list_elem_of_singleton, Hl. split.
    + intros [[<- <-]|[Hne [H1 H2]]]; auto.
    + intros [[H1| ->] H2]; [right|left; auto]. split; [|auto]. intros <-. apply Hnew. rewrite Ho, <- H2.
      by apply list_elem_of_fmap_2.
Qed.

Lemma register_ok rest : forall exs r, router_ok exs r ->
  match register rest r with
  | inr r' => router_ok (exs ++ registered rest) r'
  | inl key => exists before ex after, registered rest = before ++ ex :: after /\ key_of ex = key
                 /\ key ∈ map key_of (exs ++ before)
  end.
Proof.
  induction rest as [|[ex|] rest IH]; intros exs r Hr; cbn [register]; [by rewrite app_nil_r| |exact (IH exs r Hr)].
  fold (key_of ex). destruct (executors r !! key_of ex) as [old|] eqn:E.
  - exists [], ex, (registered rest). split_and!; [done..|]. rewrite app_nil_r. destruct Hr as (_ & _ & Hl).
    apply Hl in E as [E <-]. by apply list_elem_of_fmap_2.
  - specialize (IH _ _ (router_ok_insert _ _ _ Hr E)). destruct (register rest _) as [key|r'].
    + destruct IH as (before & ex' & after & H1 & H2 & H3). exists (ex :: before), ex', after. unfold registered in *.
      cbn [omap list_omap id]. rewrite H1. split_and!; [done..|]. by rewrite <- app_assoc in H3.
    + unfold registered in *. cbn [omap list_omap id]. by rewrite <- app_assoc in IH.
Qed.

(** Building a router fails exactly on a name that comes twice; else it has
    every tool under its name, in the order of registration. *)
Lemma NewDefaultToolRouter_spec execs :
  match NewDefaultToolRouter execs with
  | inr r => router_ok (registered execs) r
  | inl key => ~ NoDup (map key_of (registered execs)) /\ key ∈ map key_of (registered execs)
  end.
Proof.
  unfold NewDefaultToolRouter. assert (router_ok [] (mkRouter ∅ [])) as H0.
  { split_and!; [done|apply NoDup_nil_2|]. intros key ex. cbn [executors]. rewrite lookup_empty. split; [done|]. intros [H _].
    by apply elem_of_nil in H. }
  pose proof (register_ok execs [] _ H0) as H. destruct (register execs _) as [key|r]; [|done].
  destruct H as (before & ex & after & -> & <- & Hin). cbn [app] in Hin. rewrite map_app. cbn [map]. split; [|set_solver].
  intros Hnd. apply NoDup_app in Hnd as (_ & Hd & _). apply (Hd _ Hin). set_solver.
Qed.

(** ** Answers *)

(** The call that an output item answers.  Searches that the provider executes
    come with their outputs and are not answered here. *)
Definition input_id (i : ResponseInputItem) : option gostring :=
  match i with
  | MessageInput _ _ _ => None
  | FunctionCallOutputInput id _ | McpToolCallOutputInput id _ | CustomToolCallOutputInput id _ _ => Some id
  | ToolSearchOutputInput id _ execution _ => if decide (execution = str "client") then Some id else None
  end.

Definition answered_id (item : ResponseItem) : option gostring :=
  match item with
  | FunctionCallOutput id _ | CustomToolCallOutput id _ _ => Some id
  | ToolSearchOutput id _ execution _ => if decide (execution = str "client") then id else None
  | _ => None
  end.

(** What the implementations of [ToolOutput] promise to the router. *)
Class LawfulOutput (out : ToolOutput) : Prop :=
  response_for_call : forall callID payload, input_id (ToResponseItem out callID payload) = Some callID.

Lemma text_response_id out callID payload : input_id (text_response out callID payload) = Some callID.
Proof. unfold text_response. by destruct (is_custom payload). Qed.

#[export] Instance JsonToolOutput_lawful value success : LawfulOutput (JsonToolOutput value success).
Proof. intros callID payload. apply text_response_id. Qed.
#[export] Instance textToolOutput_lawful text success : LawfulOutput (textToolOutput text success).
Proof. intros callID payload. apply text_response_id. Qed.
#[export] Instance applyPatchToolOutput_lawful text : LawfulOutput (applyPatchToolOutput text).
Proof. intros callID payload. apply text_response_id. Qed.
#[export] Instance mcpToolOutput_lawful result : LawfulOutput (mcpToolOutput result).
Proof. by intros callID payload. Qed.
#[export] Instance toolSearchOutput_lawful tools : LawfulOutput (toolSearchOutput tools).
Proof. by intros callID payload. Qed.

Lemma responseItemFromInput_id i id : input_id i = Some id -> answered_id (responseItemFromInput i) = Some id.
Proof. by destruct i. Qed.

(** The item made of a tool's answer belongs to the call, whatever the outcome. *)
Lemma call_answer_id c r : (forall a, r = inr a -> CallID a = call_id c /\ LawfulOutput (Output a)) ->
  answered_id (call_answer c r) = Some (call_id c).
Proof.
  intros Hr. destruct c as [id n a|id n i|p]; [done..|]. destruct r as [e|a]; [done|]. cbn [call_answer].
  destruct (Hr a eq_refl) as [<- Hl]. apply responseItemFromInput_id. apply Hl.
Qed.

(** What the model reads. *)
Definition text_of (item : ResponseItem) : gostring :=
  match item with
  | FunctionCallOutput _ (Some p) | CustomToolCallOutput _ _ (Some p) => functionOutputText p
  | _ => []
  end.

Definition router_answer (r : DefaultToolRouter) (c : tool_call) (handle : toolExecutor -> gostring + ToolOutput) : ResponseItem :=
  call_answer c (dispatch r (call_id c) (call_name c) (call_payload c) handle).

Lemma router_answer_id r c handle : (forall ex out, handle ex = inr out -> LawfulOutput out) ->
  answered_id (router_answer r c handle) = Some (call_id c).
Proof.
  intros Hh. apply call_answer_id. intros a Ha. unfold dispatch in Ha. destruct (find_executor _ _ _) as [e|ex]; [done|].
  destruct (handle ex) as [e|out] eqn:E; [done|]. simplify_eq. split; [done|]. by eapply Hh.
Qed.

Lemma router_answer_error r c handle e : dispatch r (call_id c) (call_name c) (call_payload c) handle = inl e ->
  text_of (router_answer r c handle) = str "tool dispatch error: " ++ e.
Proof. intros H. unfold router_answer. rewrite H. by destruct c. Qed.

(** What the tools of the program return, and what of it a model reads: a result
    of an MCP server does not reach it, since the conversion to text knows
    function and custom outputs only. *)
Inductive tool_result :=
| res_text (text : gostring) (success : option bool)
| res_json (value : RawMessage) (success : option bool)
| res_patch (text : gostring)
| res_mcp (result : CallToolResult)
| res_search (tools : list RawMessage).

Definition output_of (res : tool_result) : ToolOutput :=
  match res with
  | res_text text success => textToolOutput text success
  | res_json value success => JsonToolOutput value success
  | res_patch text => applyPatchToolOutput text
  | res_mcp result => mcpToolOutput result
  | res_search tools => toolSearchOutput tools
  end.

Definition shown_text (res : tool_result) : gostring :=
  match res with res_text text _ | res_patch text => text | res_json value _ => value | res_mcp _ | res_search _ => [] end.
Definition succeeded (res : tool_result) : bool :=
  match res with
  | res_text _ success | res_json _ success => default true success
  | res_patch _ | res_search _ => true
  | res_mcp result => negb (default false (IsError result))
  end.

(** The item that carries a result back for a call. *)
Definition carries (c : tool_call) (res : tool_result) (item : ResponseItem) : Prop :=
  match c with
  | function_tool id _ _ => item = FunctionCallOutput id (Some (mkPayload (Some (shown_text res)) None (Some (succeeded res))))
  | custom_tool id _ _ => item = CustomToolCallOutput id None (Some (mkPayload (Some (shown_text res)) None (Some (succeeded res))))
  | search_tool p =>
      match res with
      | res_search tools => item = ToolSearchOutput (Some (ParsedCallID p)) (str "completed") (str "client") tools
      | res_mcp _ => item = FunctionCallOutput (ParsedCallID p) (Some zeroPayload)
      | _ => text_of item = shown_text res
      end
  end.

Lemma answer_carries c res : carries c res (call_answer c (inr (mkAnyToolResult (call_id c) (call_payload c) (output_of res)))).
Proof.
  destruct c as [id n a|id n i|p]; [by destruct res..|].
  destruct res; cbn [carries call_answer call_id call_payload]; try done;
    unfold IntoResponse, output_of, textToolOutput, JsonToolOutput, applyPatchToolOutput, text_response; cbn [Output CallID Payload ToResponseItem];
    by destruct (is_custom _).
Qed.

(** C18: every call is answered. When the router could be built and the outputs of
    tools, whatever their kind, become items with the id that they are given, then
    whatever a call names and however the tool ends, one item goes back to the
    model, with the id of the call. It tells that the
    tool is unknown or does not take the payload, or what the tool failed with;
    and for each kind of result that the program's tools return it is exactly the
    item of [carries]: the unchanged text and the success of a text, of a JSON
    value and of a patch, the tools that a search found, but no text for the
    result of an MCP server. *)
Theorem calls_answered execs r c handle :
  NewDefaultToolRouter execs = inr r -> (forall ex out, handle ex = inr out -> LawfulOutput out) ->
  let item := router_answer r c handle in
  answered_id item = Some (call_id c)
  /\ if decide (ToolName_String (call_name c) ∈ map key_of (registered execs)) then
       exists ex, ex ∈ registered execs /\ key_of ex = ToolName_String (call_name c)
         /\ if MatchesPayload ex (call_payload c) then
              match handle ex with
              | inl e => text_of item = str "tool dispatch error: " ++ e
              | inr out => forall res, out = output_of res -> carries c res item
              end
            else has_prefix (text_of item) (str "tool dispatch error: Fatal error: tool ") = true
     else text_of item = str "tool dispatch error: " ++ unsupportedToolCallMessage (call_payload c) (call_name c).
Proof.
  intros Hr Hh. cbv zeta. split; [by apply router_answer_id|].
  pose proof (NewDefaultToolRouter_spec execs) as Hok. rewrite Hr in Hok.
  pose proof (router_ok_key _ _ (ToolName_String (call_name c)) Hok) as Hkey. destruct Hok as (Ho & _ & Hl). rewrite Ho in Hkey.
  destruct (decide _) as [Hin|Hout].
  - apply Hkey in Hin as [ex Hx]. pose proof (proj1 (Hl _ _) Hx) as [Hin Hk]. exists ex. split_and!; [done|done|].
    unfold router_answer, dispatch, find_executor. rewrite Hx. destruct (MatchesPayload ex (call_payload c)) eqn:Em.
    + destruct (handle ex) as [e|out] eqn:Ee; [by destruct c|]. intros res ->. apply answer_carries.
    + apply has_prefix_true. destruct c; cbn [call_answer]; eexists; reflexivity.
  - assert (executors r !! ToolName_String (call_name c) = None) as Hn.
    { apply eq_None_not_Some. intros H. by apply Hout, Hkey. }
    unfold router_answer, dispatch, find_executor. rewrite Hn. by destruct c.
Qed.

(** A result of an MCP server does not reach the model: the conversion to text
    knows function and custom outputs only. *)
Lemma mcp_result_lost execs r callID name arguments handle ex result :
  NewDefaultToolRouter execs = inr r -> ex ∈ registered execs -> key_of ex = ToolName_String name ->
  MatchesPayload ex (FunctionPayload arguments) = true -> handle ex = inr (mcpToolOutput result) ->
  text_of (router_answer r (function_tool callID name arguments) handle) = [].
Proof.
  intros Hr Hin Hk Hm Hh. pose proof (NewDefaultToolRouter_spec execs) as Hok. rewrite Hr in Hok.
  destruct Hok as (_ & _ & Hl). unfold router_answer, dispatch, find_executor. cbn [call_name call_payload].
  rewrite (proj2 (Hl (ToolName_String name) ex)) by done. by rewrite Hm, Hh.
Qed.

Definition demo_executor : toolExecutor :=
  mkExecutor (PlainToolName (str "shell")) (fun _ => Some (str "{}")) (fun p => negb (is_custom p)).
Definition demo_router : DefaultToolRouter := mkRouter (<[str "shell" := demo_executor]> ∅) [str "shell"].
Definition demo_handle (ex : toolExecutor) : gostring + ToolOutput := inr (textToolOutput (str "ok") None).

Lemma calls_answered_witness :
  let answer := router_answer demo_router (function_tool (str "c1") (PlainToolName (str "shell")) []) demo_handle in
  NewDefaultToolRouter [Some demo_executor] = inr demo_router
  /\ answered_id answer = Some (str "c1")
  /\ exists ex, ex ∈ [demo_executor] /\ carries (function_tool (str "c1") (PlainToolName (str "shell")) []) (res_text (str "ok") None) answer.
Proof.
  cbv zeta. split; [reflexivity|].
  pose proof (calls_answered [Some demo_executor] demo_router
    (function_tool (str "c1") (PlainToolName (str "shell")) []) demo_handle eq_refl
    (fun ex out (H : demo_handle ex = inr out) => match H in _ = y return match y with inr o => LawfulOutput o | inl _ => True end with
                                                  | eq_refl => textToolOutput_lawful _ _ end)) as H.
  cbv zeta in H. destruct H as [Hid H]. split; [exact Hid|].
  rewrite decide_True in H by (vm_compute; left). destruct H as (ex & Hin & Hk & H). exists ex. split; [exact Hin|].
  apply list_elem_of_singleton in Hin as ->. exact (H (res_text (str "ok") None) eq_refl).
Defined.

Example unknown_tool :
  text_of (router_answer demo_router (custom_tool (str "c2") (str "nope") []) demo_handle)
  = str "tool dispatch error: unsupported custom tool call: nope".
Proof. reflexivity. Qed.

Example wrong_payload :
  text_of (router_answer demo_router (custom_tool (str "c2") (str "shell") []) demo_handle)
  = str "tool dispatch error: Fatal error: tool shell invoked with incompatible payload".
Proof. reflexivity. Qed.

End Tools.
