(* ===== verification/CoreTurn.v ===== *)
(** * internal/core: the turn

    [turn_run.go], [turn_output.go], [turn_events.go] and the request of
    [event_compact.go].  A turn runs on its own goroutine beside the submission
    loop and the consumer of the events, so it is a machine: every access to
    what they share (the session's state, the status, the queue of events, the
    cancellation) is one step, and the answers of the model client and the tools
    are inputs of the steps.  Hooks and the rollout recorder get no answer from
    the turn and are left out. *)

From stdpp Require Import base list gmap strings.
From S2P Require Import Prelude GoStrings Truncation ProtocolItems CoreState CoreMapping CoreCompact CoreTools.

Module Turn.
Import Items State Mapping Compact Tools.
#[local] Open Scope Z_scope.

(** ** What the goroutines share *)

Record Session := mkSession {
  state : SessionState;
  agentStatus : AgentStatus;
  queue : list Event;          (* the buffer of [txEvent] *)
  queueClosed : bool;
  sessionCancelled : bool;     (* [s.ctx] *)
  taskCancelled : gset nat;    (* the tasks whose own context is cancelled *)
  activeTurn : option nat;
  toolCalls : gmap nat Z;      (* the counters of the turn states *)
}.

Definition SubmissionChannelCapacity : nat := 512.

Definition set_state (x : SessionState) (s : Session) : Session :=
  mkSession x (agentStatus s) (queue s) (queueClosed s) (sessionCancelled s) (taskCancelled s) (activeTurn s) (toolCalls s).
Definition set_status (x : AgentStatus) (s : Session) : Session :=
  mkSession (state s) x (queue s) (queueClosed s) (sessionCancelled s) (taskCancelled s) (activeTurn s) (toolCalls s).
Definition set_queue (x : list Event) (s : Session) : Session :=
  mkSession (state s) (agentStatus s) x (queueClosed s) (sessionCancelled s) (taskCancelled s) (activeTurn s) (toolCalls s).
Definition set_active (x : option nat) (s : Session) : Session :=
  mkSession (state s) (agentStatus s) (queue s) (queueClosed s) (sessionCancelled s) (taskCancelled s) x (toolCalls s).
Definition set_tool_calls (x : gmap nat Z) (s : Session) : Session :=
  mkSession (state s) (agentStatus s) (queue s) (queueClosed s) (sessionCancelled s) (taskCancelled s) (activeTurn s) x.

(** [ctx.Err() != nil] for the context of a task, a child of the session's. *)
Definition cancelled (me : nat) (s : Session) : bool := sessionCancelled s || bool_decide (me ∈ taskCancelled s).

(** [IncToolCalls]: the counter has 64 bits. *)
Definition IncToolCalls (s : Session) : Session :=
  match activeTurn s with
  | Some t => set_tool_calls (<[t := (default 0 (toolCalls s !! t) + 1) mod 2 ^ 64]> (toolCalls s)) s
  | None => s
  end.

Definition updateAgentStatusFromEvent (msg : EventMsg) (s : Session) : Session :=
  match agentStatusFromEvent msg with Some next => set_status next s | None => s end.

(** ** Errors: what [errors.Is] and [errors.As] see of them *)

Record error := mkError {
  error_text : gostring;
  is_aborted : bool;             (* ErrTurnAborted *)
  is_canceled : bool;            (* context.Canceled *)
  is_overflow : bool;            (* errContextWindowExceeded *)
  http_body : option gostring;   (* a client.TransportError of an HTTP failure *)
}.

(** [fmt.Errorf] with [%w]. *)
Definition wrap_error (prefix : gostring) (e : error) : error :=
  mkError (prefix ++ error_text e) (is_aborted e) (is_canceled e) (is_overflow e) (http_body e).
Definition plain_error (text : gostring) : error := mkError text false false false None.

Definition modelFacingErrorMessage (e : error) : gostring :=
  match http_body e with Some (c :: b) => c :: b | _ => error_text e end.

(** ** turn_events.go *)

(** managers.go *)
Record Prompt := mkPrompt {
  Input : list ResponseItem;
  PromptTools : list RawMessage;
  BaseInstructionsOverride : option gostring;
  OutputSchema : option RawMessage;
}.

Definition base_override (tc : TurnContext) : option gostring :=
  if decide (BaseInstructions tc = []) then None else Some (BaseInstructions tc).

Definition buildPrompt (s : Session) (tc : TurnContext) : Prompt :=
  mkPrompt (HistoryItems (state s)) (TurnTools tc) (base_override tc) (FinalOutputJSONSchema tc).

Definition turnItemForStreamed (item : ResponseItem) : option TurnItem :=
  match item with
  | Message id role _ phase => if decide (role = str "assistant") then Some (AgentMessageItem (default [] id) [] phase) else None
  | Reasoning id _ _ _ => Some (ReasoningTurnItem id [] [])
  | _ => None
  end.

Definition streamedItemID (item : ResponseItem) : gostring :=
  match item with Message id _ _ _ => default [] id | Reasoning id _ _ _ => id | _ => [] end.

Definition is_message (item : ResponseItem) : bool := match item with Message _ _ _ _ => true | _ => false end.

Section Events.
Context (tc : TurnContext).

Definition emitItemStarted (item : ResponseItem) : list EventMsg :=
  match turnItemForStreamed item with Some ti => [ItemStarted (SubID tc) ti] | None => [] end.

Definition emitAgentMessageDelta (active : option ResponseItem) (delta : gostring) : list EventMsg :=
  match active with
  | Some item =>
      if decide (delta = []) then []
      else if is_message item then [AgentMessageContentDelta (SubID tc) (streamedItemID item) delta] else []
  | None => []
  end.

Definition emitReasoningSummaryDelta (active : option ResponseItem) (delta : gostring) (summaryIndex : Z) : list EventMsg :=
  match active with
  | Some item => if decide (delta = []) then [] else [ReasoningContentDelta (SubID tc) (streamedItemID item) delta summaryIndex]
  | None => []
  end.

Definition emitReasoningRawDelta (active : option ResponseItem) (delta : gostring) (contentIndex : Z) : list EventMsg :=
  match active with
  | Some item => if decide (delta = []) then [] else [ReasoningRawContentDelta (SubID tc) (streamedItemID item) delta contentIndex]
  | None => []
  end.

Definition emitReasoningSectionBreak (active : option ResponseItem) (summaryIndex : Z) : list EventMsg :=
  match active with Some item => [AgentReasoningSectionBreak (streamedItemID item) summaryIndex] | None => [] end.

Definition emitAgentMessage (text : gostring) : list EventMsg := if decide (text = []) then [] else [AgentMessage text].

Definition emitItemCompletedAgentMessage (id : option gostring) (phase : option MessagePhase) (text : gostring) : list EventMsg :=
  [ItemCompleted (SubID tc) (AgentMessageItem (default [] id) [text] phase)].

Definition reasoningRawText (content : option (list ReasoningItemContent)) : gostring :=
  concat (map (fun c => match c with ReasoningContentReasoningText t => t | _ => [] end) (default [] content)).

Definition emitReasoning (summary : list gostring) (content : option (list ReasoningItemContent)) : list EventMsg :=
  (if decide (concat summary = []) then [] else [AgentReasoning (concat summary)])
  ++ (if decide (reasoningRawText content = []) then [] else [AgentReasoningRawContent (reasoningRawText content)]).

Definition emitTurnError (e : error) : list EventMsg := [ErrorEvent (modelFacingErrorMessage e)].
End Events.

(** ** turn_run.go: input *)

Record turnInput := mkTurnInput { UserContent : list UserInput; InputItem : option ResponseItem }.

Definition input_content (ui : UserInput) : list ContentItem :=
  match ui with
  | InputImage url detail => if decide (url = []) then [] else [ContentInputImage url detail]
  | _ => if decide (InputTextOf ui = []) then [] else [ContentInputText (InputTextOf ui)]
  end.

Definition userInputToResponseItem (content : list UserInput) : option ResponseItem :=
  match flat_map input_content content with
  | [] => None
  | contentItems => Some (Message None (str "user") contentItems None)
  end.

Definition turn_input_items (input : list turnInput) : list ResponseItem :=
  omap (fun i => match InputItem i with
                 | Some item => Some item
                 | None => match UserContent i with [] => None | c => userInputToResponseItem c end
                 end) input.

(** ** Effects: the accesses to what is shared, in order *)

Inductive effect :=
| eff_record (items : list ResponseItem)                 (* RecordItems *)
| eff_status (msg : EventMsg)                            (* SendEvent: the status *)
| eff_send (ev : Event)                                  (* SendEvent: the select *)
| eff_update (f : State.op)                              (* WithState *)
| eff_settings (settings : PreviousTurnSettings)
| eff_reasoning_included (v : bool)
| eff_account (usage : option TokenUsage)                (* accountAndEmitTokenCount *)
| eff_replace (new : list ResponseItem)                  (* replaceCompactedHistory *)
| eff_recompute                                          (* recomputeTokenUsage, the reading *)
| eff_inc_tool_calls.

Definition SendEvent (id : gostring) (msg : EventMsg) : list effect := [eff_status msg; eff_send (mkEvent id msg)].
Definition sends (tc : TurnContext) (msgs : list EventMsg) : list effect := flat_map (SendEvent (SubID tc)) msgs.

(** ** The stream of a request *)

Record streamState := mkStream {
  needsFollowUp : bool;
  streamLastMessage : option gostring;
  toolOutputs : list ResponseItem;
  activeItem : option ResponseItem;
  shouldEmitTokens : bool;
  completedTokenUsage : option TokenUsage;
}.

Definition newStream : streamState := mkStream false None [] None false None.

Definition set_active_item (x : option ResponseItem) (st : streamState) : streamState :=
  mkStream (needsFollowUp st) (streamLastMessage st) (toolOutputs st) x (shouldEmitTokens st) (completedTokenUsage st).
Definition set_last_message (x : gostring) (st : streamState) : streamState :=
  mkStream (needsFollowUp st) (Some x) (toolOutputs st) (activeItem st) (shouldEmitTokens st) (completedTokenUsage st).
Definition add_output (x : ResponseItem) (st : streamState) : streamState :=
  mkStream true (streamLastMessage st) (toolOutputs st ++ [x]) (activeItem st) (shouldEmitTokens st) (completedTokenUsage st).
Definition set_emit_tokens (st : streamState) : streamState :=
  mkStream (needsFollowUp st) (streamLastMessage st) (toolOutputs st) (activeItem st) true (completedTokenUsage st).

(** What follows an event of the stream. *)
Inductive after_event := more | calling (c : tool_call) | completed.

Section Handlers.
Context (unmarshal_params : RawMessage -> gostring + SearchToolCallParams) (tc : TurnContext).

(** [handleOutputItemDone] up to the call of the router.  The counter goes up
    twice for a call: here and in the router's [dispatch]. *)
Definition handleOutputItemDone (item : ResponseItem) (st : streamState) : list effect * streamState * option tool_call :=
  match item with
  | Message id role content phase =>
      if decide (role = str "assistant") then
        let text := assistantMessageText content in
        (eff_record [item] :: sends tc (emitAgentMessage text ++ emitItemCompletedAgentMessage tc id phase text),
         if decide (text = []) then st else set_last_message text st, None)
      else ([eff_record [item]], st, None)
  | Reasoning id summary content _ =>
      (eff_record [item] :: sends tc (emitReasoning summary content ++ [ItemCompleted (SubID tc) (parseReasoningTurnItem id summary content)]),
       st, None)
  | FunctionCall _ name namespace arguments callID =>
      ([eff_record [item]; eff_inc_tool_calls; eff_inc_tool_calls], st,
       Some (function_tool callID (toolNameFor name namespace) arguments))
  | CustomToolCall _ _ callID name input =>
      ([eff_record [item]; eff_inc_tool_calls; eff_inc_tool_calls], st, Some (custom_tool callID name input))
  | ToolSearchCall _ callID _ _ _ =>
      match BuildToolCall unmarshal_params item with
      | inl err =>
          ([eff_record [item]],
           match callID with
           | Some id => add_output (functionCallOutputItem id (mkToolResult (FunctionCallError_Error err) false)) st
           | None => st
           end, None)
      | inr None => ([eff_record [item]], st, None)
      | inr (Some call) => ([eff_record [item]; eff_inc_tool_calls; eff_inc_tool_calls], st, Some (search_tool call))
      end
  | _ => ([eff_record [item]], st, None)
  end.

Definition handleStreamEvent (ev : ResponseEvent) (st : streamState) : list effect * streamState * after_event :=
  match ev with
  | OutputItemAdded (Some item) => (sends tc (emitItemStarted tc item), set_active_item (Some item) st, more)
  | OutputTextDelta delta => (sends tc (emitAgentMessageDelta tc (activeItem st) delta), st, more)
  | ReasoningSummaryDelta delta i => (sends tc (emitReasoningSummaryDelta tc (activeItem st) delta i), st, more)
  | ReasoningContentDeltaEvent delta i => (sends tc (emitReasoningRawDelta tc (activeItem st) delta i), st, more)
  | ReasoningSummaryPartAdded i => (sends tc (emitReasoningSectionBreak (activeItem st) i), st, more)
  | OutputItemDone (Some item) =>
      match handleOutputItemDone item st with
      | (es, st, Some c) => (es, st, calling c)
      | (es, st, None) => (es, set_active_item None st, more)
      end
  | RateLimits limits => (match limits with Some l => [eff_update (op_limits l)] | None => [] end, set_emit_tokens st, more)
  | ServerReasoningIncluded v => ([eff_reasoning_included v], st, more)
  | Completed usage endTurn =>
      ([], mkStream (needsFollowUp st || match endTurn with Some false => true | _ => false end) (streamLastMessage st)
             (toolOutputs st) (activeItem st) true usage, completed)
  | _ => ([], st, more)
  end.

(** When the answer of the router is there. *)
Definition answer_call (c : tool_call) (r : gostring + AnyToolResult) (st : streamState) : streamState :=
  set_active_item None (add_output (call_answer c r) st).

(** When the response is complete: tool outputs to the history, tokens. *)
Definition completion_effects (st : streamState) : list effect :=
  match toolOutputs st with [] => [] | outputs => [eff_record outputs] end
  ++ (if shouldEmitTokens st then [eff_account (completedTokenUsage st)] else []).

(** [handleCompactStreamEvent], and whether the stream is complete. *)
Definition handleCompactStreamEvent (ev : ResponseEvent) : list effect * bool :=
  match ev with
  | OutputItemDone (Some item) => ([eff_record [item]], false)
  | ServerReasoningIncluded v => ([eff_reasoning_included v], false)
  | RateLimits (Some l) => ([eff_update (op_limits l)], false)
  | Completed usage _ =>
      (match usage with Some u => [eff_update (op_usage u (TurnContextWindow tc))] | None => [] end, true)
  | _ => ([], false)
  end.
End Handlers.

(** ** The machine *)

Inductive turn_pc :=
| at_effects (es : list effect) (k : turn_pc)
(* maybePreSamplingAutoCompact and runCompactTaskImpl *)
| at_trigger
| at_trigger_ctx
| at_clone
| at_drain_check (history : list ResponseItem)
| at_drain_opened (history : list ResponseItem)
| at_drain_select (history : list ResponseItem)
| at_rebuild
| at_settings
(* the loop of runTurn and runSamplingRequest *)
| at_check (last : option gostring)
| at_stream (last : option gostring)
| at_opened (last : option gostring)
| at_select (last : option gostring) (st : streamState)
| at_dispatch (last : option gostring) (st : streamState) (c : tool_call)
| at_handle (last : option gostring) (st : streamState) (c : tool_call)
| at_after (last : option gostring) (st : streamState)
| at_return (last : option gostring).

(** The choices of a step that are not the turn's: which case of a select is
    taken, and what the model client and the tool answer. *)
Inductive turn_choice :=
| go
| take_done
| take_event (ev : ResponseEvent)
| take_closed
| opened (err : option error)
| answer (r : gostring + ToolOutput).

(** What others see of a step. *)
Inductive obs :=
| obs_record (items : list ResponseItem)
| obs_replace (items : list ResponseItem)
| obs_request (p : Prompt)
| obs_send (ev : Event).

Inductive outcome :=
| blocked
| panics
| goes (o : list obs) (pc : turn_pc) (s : Session).

Section Machine.
Context (xml_hook_prompt : gostring -> option (gostring * gostring)) (newItemID : gostring)
        (unmarshal_params : RawMessage -> gostring + SearchToolCallParams)
        (router : DefaultToolRouter) (tc : TurnContext) (me : nat).

(** The effects that never wait: what is seen, what is to be done next, the state. *)
Definition effect_step (e : effect) (s : Session) : list obs * list effect * Session :=
  match e with
  | eff_record items => ([obs_record items], [], set_state (RecordItems items (state s)) s)
  | eff_status msg => ([], [], updateAgentStatusFromEvent msg s)
  | eff_update f => ([], [], set_state (State.apply f (state s)) s)
  | eff_settings p => ([], [], set_state (SetPreviousTurnSettings (Some p) (state s)) s)
  | eff_reasoning_included v => ([], [], set_state (SetServerReasoningIncluded v (state s)) s)
  | eff_account usage =>
      let x := match usage with Some u => UpdateTokenInfoFromUsage u (TurnContextWindow tc) (state s) | None => state s end in
      let '(info, limits) := TokenInfoAndRateLimits x in
      ([], SendEvent (SubID tc) (TokenCount info limits), set_state x s)
  | eff_replace new => ([obs_replace new], [], set_state (StartNextAutoCompactWindow (ReplaceHistory new (state s))) s)
  | eff_recompute => ([], [eff_update (op_estimate (approxHistoryTokens (HistoryItems (state s))))], s)
  | eff_inc_tool_calls => ([], [], IncToolCalls s)
  | eff_send _ => ([], [], s)
  end.

Definition run_effect (e : effect) (es : list effect) (k : turn_pc) (i : turn_choice) (s : Session) : outcome :=
  match e, i with
  | eff_send ev, go =>
      if queueClosed s then panics
      else if decide (length (queue s) < SubmissionChannelCapacity)%nat then
        goes [obs_send ev] (at_effects es k) (set_queue (queue s ++ [ev]) s)
      else blocked
  | eff_send _, take_done => if sessionCancelled s then goes [] (at_effects es k) s else blocked
  | eff_send _, _ => blocked
  | _, go => let '(o, es', s') := effect_step e s in goes o (at_effects (es' ++ es) k) s'
  | _, _ => blocked
  end.

Definition emit (msgs : list EventMsg) (k : turn_pc) : turn_pc := at_effects (sends tc msgs) k.

(** [runSamplingRequest] and [runTurn] on an error. *)
Definition sampling_failed (e : error) (last : option gostring) : turn_pc :=
  if is_aborted e || is_canceled e then at_return last else emit (emitTurnError e) (at_return last).

(** [drainCompactToCompleted] on an error, and [runCompactTaskImpl] after it. *)
Definition drain_failed (e : error) (history : list ResponseItem) : turn_pc :=
  if is_aborted e || is_canceled e then at_settings
  else if is_overflow e && (1 <? length history)%nat then at_drain_check (drop 1 history)
  else emit (emitTurnError e) at_settings.

Definition compact_prompt (history : list ResponseItem) : Prompt := mkPrompt history [] (base_override tc) None.

Definition compactionItem : TurnItem := ContextCompactionItem newItemID.

Definition prompt_items : list ResponseItem :=
  match userInputToResponseItem [InputText (CompactPromptText (CompactPrompt tc)) []] with Some item => [item] | None => [] end.

(** Step 5 of [runCompactTaskImpl]. *)
Definition rebuild_effects (historyItems : list ResponseItem) : list effect :=
  [eff_replace (compacted_history xml_hook_prompt newItemID historyItems DoNotInjectInitialContext
                  (buildInitialContext (DeveloperInstructions tc) (UserInstructions tc)));
   eff_recompute]
  ++ sends tc [ItemCompleted (SubID tc) compactionItem; ContextCompactedEvent; WarningEvent longThreadWarningMessage].

Definition total_tokens (s : Session) : Z :=
  match TokenInfo (state s) with Some info => TotalTokens (TotalTokenUsage info) | None => 0 end.

Definition settings : PreviousTurnSettings := mkPreviousTurnSettings (ModelSlug tc) (Some (TurnRealtimeActive tc)).

(** [drainCompactStreamOnce]. *)
Definition drain_select (history : list ResponseItem) (i : turn_choice) (s : Session) : outcome :=
  match i with
  | take_done => if cancelled me s then goes [] at_settings s else blocked
  | take_closed => goes [] (drain_failed (plain_error (str "core: " ++ streamClosedBeforeCompletedMsg)) history) s
  | take_event ev =>
      let '(es, complete) := handleCompactStreamEvent tc ev in
      goes [] (at_effects es (if complete : bool then at_rebuild else at_drain_select history)) s
  | _ => blocked
  end.

(** The loop of [runSamplingRequest]. *)
Definition sampling_select (last : option gostring) (st : streamState) (i : turn_choice) (s : Session) : outcome :=
  match i with
  | take_done => if cancelled me s then goes [] (at_return last) s else blocked
  | take_closed => goes [] (sampling_failed (plain_error (str "core: stream closed before response.completed")) last) s
  | take_event ev =>
      let '(es, st', next) := handleStreamEvent unmarshal_params tc ev st in
      goes [] (at_effects es match next with
                             | more => at_select last st'
                             | calling c => at_dispatch last st' c
                             | completed => at_effects (completion_effects st') (at_after last st')
                             end) s
  | _ => blocked
  end.

Definition router_result (c : tool_call) (r : gostring + ToolOutput) : gostring + AnyToolResult :=
  match r with inl e => inl e | inr out => inr (mkAnyToolResult (call_id c) (call_payload c) out) end.

Definition after_sampling (last : option gostring) (st : streamState) : turn_pc :=
  let last := match streamLastMessage st with Some m => Some m | None => last end in
  if needsFollowUp st then at_check last else at_return last.

Definition turn_step (i : turn_choice) (pc : turn_pc) (s : Session) : outcome :=
  match pc, i with
  | at_effects [] k, go => goes [] k s
  | at_effects (e :: es) k, _ => run_effect e es k i s
  | at_trigger, go =>
      if shouldAutoCompact (total_tokens s) (AutoCompactTokenLimit tc) then goes [] at_trigger_ctx s else goes [] at_settings s
  | at_trigger_ctx, go =>
      goes [] (if cancelled me s then at_settings else emit [ItemStarted (SubID tc) compactionItem] at_clone) s
  | at_clone, go => goes [] (at_drain_check (HistoryItems (state s) ++ prompt_items)) s
  | at_drain_check history, go =>
      if cancelled me s then goes [] at_settings s
      else goes [obs_request (compact_prompt history)] (at_drain_opened history) s
  | at_drain_opened history, opened None => goes [] (at_drain_select history) s
  | at_drain_opened history, opened (Some e) =>
      goes [] (drain_failed (wrap_error (str "core: compaction stream failed: ") e) history) s
  | at_drain_select history, _ => drain_select history i s
  | at_rebuild, go => goes [] (at_effects (rebuild_effects (HistoryItems (state s))) at_settings) s
  | at_settings, go => goes [] (at_effects [eff_settings settings] (at_check None)) s
  | at_check last, go => goes [] (if cancelled me s then at_return last else at_stream last) s
  | at_stream last, go => goes [obs_request (buildPrompt s tc)] (at_opened last) s
  | at_opened last, opened None => goes [] (at_select last newStream) s
  | at_opened last, opened (Some e) => goes [] (sampling_failed (wrap_error (str "core: model stream failed: ") e) last) s
  | at_select last st, _ => sampling_select last st i s
  | at_dispatch last st c, go =>
      match find_executor router (call_name c) (call_payload c) with
      | inl e => goes [] (at_select last (answer_call c (inl (FunctionCallError_Error e)) st)) s
      | inr _ => goes [] (at_handle last st c) s
      end
  | at_handle last st c, answer r => goes [] (at_select last (answer_call c (router_result c r) st)) s
  | at_after last st, go => goes [] (if cancelled me s then at_return last else after_sampling last st) s
  | _, _ => blocked
  end.

(** [runTurn]: the input is recorded first. *)
Definition runTurn (input : list turnInput) : turn_pc :=
  at_effects match turn_input_items input with [] => [] | items => [eff_record items] end at_trigger.

(** Runs of the turn, with its choices and what is seen of it.  [env] is what
    the other goroutines may do between two steps. *)
Inductive turn_run (env : Session -> Session -> Prop)
  : turn_pc -> Session -> list turn_choice -> list obs -> turn_pc -> Session -> Prop :=
| run_refl pc s : turn_run env pc s [] [] pc s
| run_own pc s i o pc' s' cs os pc'' s'' : turn_step i pc s = goes o pc' s' ->
    turn_run env pc' s' cs os pc'' s'' -> turn_run env pc s (i :: cs) (o ++ os) pc'' s''
| run_env pc s s' cs os pc'' s'' : env s s' -> turn_run env pc s' cs os pc'' s'' -> turn_run env pc s cs os pc'' s''.
End Machine.
End Turn.
