(* ===== verification/CoreTurnRuns.v ===== *)
(** * internal/core: what the runs of a turn keep

    Theorems about the machine of [CoreTurn.v]: every call gets its output, what
    the model is asked with, and how a cancelled turn ends.  They hold for runs
    between whose steps other goroutines move. *)

From stdpp Require Import base list gmap strings.
From S2P Require Import Prelude GoStrings Truncation ProtocolItems CoreState CoreMapping CoreCompact CoreTools CoreTurn.

Module TurnRuns.
Import Items State Mapping Compact Tools Turn.

(** ** Calls and their outputs *)

(** The call that an item of the model asks for. *)
Definition asks (item : ResponseItem) : option gostring :=
  match item with
  | FunctionCall _ _ _ _ callID => Some callID
  | CustomToolCall _ _ callID _ _ => Some callID
  | ToolSearchCall _ callID _ execution _ => if decide (execution = str "client") then callID else None
  | _ => None
  end.

(** The calls that are open after the items, oldest first; [None] when an output
    does not answer the oldest one. *)
Fixpoint settle (items : list ResponseItem) (open : list gostring) : option (list gostring) :=
  match items with
  | [] => Some open
  | item :: rest =>
      match asks item, answered_id item with
      | Some id, _ => settle rest (open ++ [id])
      | None, Some id =>
          match open with
          | oldest :: open => if decide (oldest = id) then settle rest open else None
          | [] => None
          end
      | None, None => settle rest open
      end
  end.

Definition recorded (os : list obs) : list ResponseItem :=
  flat_map (fun o => match o with obs_record items => items | _ => [] end) os.
Definition recs (es : list effect) : list ResponseItem :=
  flat_map (fun e => match e with eff_record items => items | _ => [] end) es.

(** The model sends no outputs of calls to this client, and outputs of tools
    belong to their call. *)
Definition proper_choice (i : turn_choice) : Prop :=
  match i with
  | take_event (OutputItemDone (Some item)) => answered_id item = None
  | answer (inr out) => LawfulOutput out
  | _ => True
  end.

Lemma settle_app a b : forall open, settle (a ++ b) open = match settle a open with Some o => settle b o | None => None end.
Proof.
  induction a as [|item a IH]; intros open; cbn [app settle]; [done|]. destruct (asks item); [apply IH|].
  destruct (answered_id item); [|apply IH]. destruct open; [done|]. case_decide; [apply IH|done].
Qed.

Definition answers (item : ResponseItem) (id : gostring) : Prop := asks item = None /\ answered_id item = Some id.

Lemma settle_outputs outs ids rest : Forall2 answers outs ids -> settle outs (ids ++ rest) = Some rest.
Proof.
  induction 1 as [|item id outs ids [H1 H2] _ IH]; [done|]. cbn [settle app]. rewrite H1, H2, decide_True by done. apply IH.
Qed.

(** What a turn owes: the calls whose outputs it has not recorded yet. *)
Definition owes (R : list ResponseItem) (st : streamState) (running : list gostring) : Prop :=
  exists ids, settle R [] = Some (ids ++ running) /\ Forall2 answers (toolOutputs st) ids.

Fixpoint wf (R : list ResponseItem) (pc : turn_pc) : Prop :=
  match pc with
  | at_effects es k => wf (R ++ recs es) k
  | at_check _ | at_stream _ | at_opened _ | at_after _ _ => settle R [] = Some []
  | at_select _ st => owes R st []
  | at_dispatch _ st c | at_handle _ st c => owes R st [call_id c]
  | at_return _ => is_Some (settle R [])
  | _ => False
  end.

Lemma settle_prefix a b : is_Some (settle (a ++ b) []) -> is_Some (settle a []).
Proof. rewrite settle_app. destruct (settle a []); [done|]. by intros [? ?]. Qed.

Lemma wf_settles pc : forall R, wf R pc -> is_Some (settle R []).
Proof.
  induction pc; intros R H; cbn [wf] in H; try done; try (by rewrite H); try (by destruct H as (ids & -> & _)).
  eapply settle_prefix, IHpc, H.
Qed.

Lemma recs_app a b : recs (a ++ b) = recs a ++ recs b.
Proof. apply flat_map_app. Qed.

Lemma recs_sends tc msgs : recs (sends tc msgs) = [].
Proof. induction msgs as [|m msgs IH]; [done|]. apply IH. Qed.

Lemma recs_emit R tc msgs k : wf R k -> wf R (emit tc msgs k).
Proof. intros H. unfold emit. cbn [wf]. by rewrite recs_sends, app_nil_r. Qed.

Lemma owes_record R st item running : asks item = None -> answered_id item = None -> owes R st running ->
  owes (R ++ [item]) st running.
Proof.
  intros Ha Hb (ids & H1 & H2). exists ids. split; [|done]. rewrite settle_app, H1. cbn [settle]. by rewrite Ha, Hb.
Qed.

Lemma owes_call R st item id : asks item = Some id -> owes R st [] -> owes (R ++ [item]) st [id].
Proof.
  intros Ha (ids & H1 & H2). exists ids. split; [|done]. rewrite settle_app, H1. cbn [settle]. by rewrite Ha, app_nil_r.
Qed.

Lemma owes_answer R st id item : answers item id -> owes R st [id] -> owes R (add_output item st) [].
Proof.
  intros Ha (ids & H1 & H2). exists (ids ++ [id]). rewrite app_nil_r. split; [done|]. cbn [add_output toolOutputs].
  apply Forall2_app; [done|]. by constructor.
Qed.

Lemma owes_weaken R st st' running : toolOutputs st' = toolOutputs st -> owes R st running -> owes R st' running.
Proof. unfold owes. by intros ->. Qed.

Lemma owes_completed R st : owes R st [] -> settle (R ++ toolOutputs st) [] = Some [].
Proof. intros (ids & H1 & H2). rewrite settle_app, H1. by apply settle_outputs. Qed.

Section Runs.
Context (xml_hook_prompt : gostring -> option (gostring * gostring)) (newItemID : gostring)
        (unmarshal_params : RawMessage -> gostring + SearchToolCallParams)
        (router : DefaultToolRouter) (tc : TurnContext) (me : nat).

#[local] Notation turn_step := (turn_step xml_hook_prompt newItemID unmarshal_params router tc me).
#[local] Notation turn_run := (turn_run xml_hook_prompt newItemID unmarshal_params router tc me).
#[local] Notation BuildToolCall := (BuildToolCall unmarshal_params).
#[local] Notation handleOutputItemDone := (handleOutputItemDone unmarshal_params tc).
#[local] Notation handleStreamEvent := (handleStreamEvent unmarshal_params tc).

Lemma search_asks id callID status execution arguments :
  let item := ToolSearchCall id callID status execution arguments in
  match BuildToolCall item with
  | inl _ => exists i, callID = Some i /\ asks item = Some i
  | inr None => asks item = None
  | inr (Some call) => asks item = Some (ParsedCallID call)
  end.
Proof.
  cbn [Tools.BuildToolCall asks]. destruct callID as [i|]; [|by case_decide]. case_decide; [|done].
  destruct (search_params _ _); [by exists i|done].
Qed.

(** An item done: the call it asks for is open, or was answered at once. *)
Lemma item_done_owes R st item es st' c : answered_id item = None ->
  handleOutputItemDone item st = (es, st', c) -> owes R st [] ->
  owes (R ++ recs es) st' (match c with Some c => [call_id c] | None => [] end).
Proof.
  intros Hno Hd Ho. assert (forall es0 st0, recs es0 = [item] -> toolOutputs st0 = toolOutputs st -> asks item = None ->
    owes (R ++ recs es0) st0 []) as Hplain.
  { intros es0 st0 -> Ht Ha. eapply owes_weaken; [exact Ht|]. by apply owes_record. }
  pose proof (fun id => owes_call R st item id) as Hcall.
  destruct item as [id role content phase|id summary content enc|id callID status action|id name ns arguments callID
    |id callID status execution arguments|callID output|id status callID name input|callID name output
    |callID status execution tools|id status action|id status revised result|enc| |enc|extra];
    cbn [Turn.handleOutputItemDone] in Hd; simplify_eq; try (by apply Hplain); try (by apply Hcall).
  - destruct (decide (role = str "assistant")); simplify_eq; [|by apply Hplain].
    apply Hplain; [|by case_decide|done]. cbn [recs flat_map]. fold (recs (sends tc (emitAgentMessage (assistantMessageText content)
      ++ emitItemCompletedAgentMessage tc id phase (assistantMessageText content)))). by rewrite recs_sends.
  - apply Hplain; [|done..]. change (recs (?e :: ?l)) with ((match e with eff_record items => items | _ => [] end) ++ recs l).
    by rewrite recs_sends.
  - pose proof (search_asks id callID status execution arguments) as Hs. cbv zeta in Hs.
    destruct (BuildToolCall _) as [err|[call|]]; simplify_eq.
    + destruct Hs as (i & -> & Ha). apply owes_answer with i; [done|]. by apply Hcall.
    + by apply Hcall.
    + by apply Hplain.
Qed.

Lemma stream_event_owes R st ev es st' next : proper_choice (take_event ev) ->
  handleStreamEvent ev st = (es, st', next) -> owes R st [] ->
  match next with
  | more => owes (R ++ recs es) st' []
  | calling c => owes (R ++ recs es) st' [call_id c]
  | completed => owes (R ++ recs es) st' []
  end.
Proof.
  intros Hp Hd Ho. assert (forall msgs st0, toolOutputs st0 = toolOutputs st -> owes (R ++ recs (sends tc msgs)) st0 []) as Hsend.
  { intros msgs st0 Ht. rewrite recs_sends, app_nil_r. by eapply owes_weaken. }
  destruct ev as [|item|item| | |v|usage endTurn|d| |d i|d i|i|limits|]; cbn [Turn.handleStreamEvent] in Hd;
    try (simplify_eq; by apply (Hsend [])); try (simplify_eq; by apply Hsend).
  - destruct item as [item|]; [|simplify_eq; by apply (Hsend [])].
    destruct (handleOutputItemDone item st) as [[es0 st0] c] eqn:E. pose proof (item_done_owes R st item _ _ _ Hp E Ho) as H.
    destruct c; by simplify_eq.
  - destruct item as [item|]; simplify_eq; [by apply Hsend|by apply (Hsend [])].
  - destruct limits; simplify_eq; by apply (Hsend []).
Qed.

Lemma sampling_failed_wf R e last : settle R [] = Some [] \/ is_Some (settle R []) -> wf R (sampling_failed tc e last).
Proof.
  intros H. assert (is_Some (settle R [])) by (destruct H as [->|?]; done). unfold sampling_failed.
  destruct (is_aborted e || is_canceled e); [done|]. by apply recs_emit.
Qed.

Lemma effect_step_wf R e es k s : (forall ev, e <> eff_send ev) -> wf R (at_effects (e :: es) k) ->
  let '(o, es', s') := effect_step tc e s in wf (R ++ recorded o) (at_effects (es' ++ es) k).
Proof.
  intros Hns H. cbn [wf] in H. destruct e; cbn [effect_step]; unfold TokenInfoAndRateLimits;
    try (change (recorded []) with (@nil ResponseItem); rewrite app_nil_r; exact H).
  cbn [recorded flat_map app wf recs] in *. rewrite app_nil_r, <- app_assoc. exact H.
Qed.

Lemma run_effect_goes e es k i s o pc' s' : run_effect tc e es k i s = goes o pc' s' ->
  (exists ev, e = eff_send ev /\ pc' = at_effects es k /\ recorded o = [] /\ state s' = state s)
  \/ (i = go /\ (forall ev, e <> eff_send ev)
      /\ exists es', effect_step tc e s = (o, es', s') /\ pc' = at_effects (es' ++ es) k).
Proof.
  intros H. destruct e; try (right; destruct i; cbn [run_effect] in H; try discriminate;
    destruct (effect_step tc _ s) as [[o0 es0] s0] eqn:E; simplify_eq; split_and!; [done|done|by exists es0]).
  left. exists ev. destruct i; cbn [run_effect] in H; try discriminate.
  - destruct (queueClosed s); [done|]. case_decide; by simplify_eq.
  - destruct (sessionCancelled s); by simplify_eq.
Qed.

Lemma sampling_select_wf R last st i s o pc' s' : proper_choice i ->
  sampling_select unmarshal_params tc me last st i s = goes o pc' s' -> owes R st [] -> o = [] /\ wf R pc'.
Proof.
  intros Hp H Ho. assert (is_Some (settle R [])) as Hs by (destruct Ho as (ids & -> & _); done).
  destruct i as [| |ev| |err|r]; cbn [sampling_select] in H; try discriminate.
  - destruct (cancelled me s); by simplify_eq.
  - destruct (handleStreamEvent ev st) as [[es st'] next] eqn:E. simplify_eq. split; [done|]. cbn [wf].
    pose proof (stream_event_owes R st ev es st' next Hp E Ho) as Hn. destruct next as [|c|]; [done..|]. cbn [wf].
    apply owes_completed in Hn. unfold completion_effects. rewrite recs_app.
    destruct (toolOutputs st') as [|x xs]; destruct (shouldEmitTokens st'); cbn [recs flat_map app]; rewrite ?app_nil_r in *; done.
  - simplify_eq. split; [done|]. apply sampling_failed_wf. by right.
Qed.

Lemma turn_step_wf R i pc s o pc' s' : proper_choice i -> turn_step i pc s = goes o pc' s' -> wf R pc -> wf (R ++ recorded o) pc'.
Proof.
  intros Hp H Hw. destruct pc as [[|e es] k| | | |h|h|h| | |last|last|last|last st|last st c|last st c|last st|last]; cbn [wf] in Hw; try done.
  - destruct i; cbn [Turn.turn_step] in H; simplify_eq. cbn [recorded flat_map]. exact Hw.
  - cbn [Turn.turn_step] in H. apply run_effect_goes in H as [(ev & -> & -> & -> & _)|(-> & Hns & es' & E & ->)].
    + rewrite app_nil_r. exact Hw.
    + pose proof (effect_step_wf R e es k s Hns Hw) as Hr. by rewrite E in Hr.
  - destruct i; cbn [Turn.turn_step] in H; simplify_eq. cbn [recorded flat_map]. rewrite app_nil_r. destruct (cancelled me _); cbn [wf]; [by rewrite Hw|done].
  - destruct i; cbn [Turn.turn_step] in H; simplify_eq. cbn [recorded flat_map app]. by rewrite app_nil_r.
  - destruct i as [| | | |[e|]|]; cbn [Turn.turn_step] in H; simplify_eq; cbn [recorded flat_map]; rewrite app_nil_r.
    + apply sampling_failed_wf. by left.
    + cbn [wf]. exists []. by rewrite Hw.
  - cbn [Turn.turn_step] in H. apply (sampling_select_wf R) in H as [-> H]; [|done|done]. cbn [recorded flat_map]. by rewrite app_nil_r.
  - destruct i; cbn [Turn.turn_step] in H; try discriminate. destruct (find_executor _ _ _) as [e|ex]; simplify_eq;
      cbn [recorded flat_map]; rewrite app_nil_r; [|done]. cbn [wf]. unfold answer_call.
    eapply owes_weaken; [|apply (owes_answer R st (call_id c)); [|done]]; [done|]. split; [|by apply call_answer_id].
    by destruct c.
  - destruct i; cbn [Turn.turn_step] in H; simplify_eq. cbn [recorded flat_map]. rewrite app_nil_r. cbn [wf]. unfold answer_call.
    eapply owes_weaken; [|apply (owes_answer R st (call_id c)); [|done]]; [done|].
    assert (answered_id (call_answer c (router_result c r)) = Some (call_id c)) as Ha.
    { apply call_answer_id. intros a Ha. destruct r as [e|out]; [done|]. by injection Ha as <-. }
    split; [|done]. destruct (call_answer c (router_result c r)); done.
  - destruct i; cbn [Turn.turn_step] in H; simplify_eq. cbn [recorded flat_map]. rewrite app_nil_r. unfold after_sampling.
    destruct (cancelled me _); cbn [wf]; [by rewrite Hw|]. destruct (needsFollowUp st); cbn [wf]; [done|by rewrite Hw].
Qed.

Lemma turn_run_wf env pc s cs os pc' s' : turn_run env pc s cs os pc' s' -> Forall proper_choice cs ->
  forall R, wf R pc -> wf (R ++ recorded os) pc'.
Proof.
  induction 1 as [pc s|pc s i o pc' s' cs os pc'' s'' Hs _ IH|pc s s' cs os pc'' s'' _ _ IH]; intros Hp R Hw.
  - cbn [recorded flat_map]. by rewrite app_nil_r.
  - apply Forall_cons in Hp as [Hi Hp]. unfold recorded. rewrite flat_map_app, app_assoc. fold (recorded o) (recorded os).
    apply IH; [done|]. by eapply turn_step_wf.
  - by apply IH.
Qed.

(** C10: calls and outputs. Whatever the other goroutines do, a turn records an
    output only for the oldest open call, and when it gets to the next request
    every call has its output; while a response streams, the outputs that are
    still to be recorded answer all open calls but the running one. *)
Theorem turn_answers_calls env last s cs os pc s' :
  turn_run env (at_check last) s cs os pc s' -> Forall proper_choice cs ->
  is_Some (settle (recorded os) [])
  /\ match pc with
     | at_check _ | at_stream _ | at_opened _ | at_after _ _ => settle (recorded os) [] = Some []
     | at_select _ st => settle (recorded os ++ toolOutputs st) [] = Some []
     | at_dispatch _ st c | at_handle _ st c => exists ids, settle (recorded os) [] = Some (ids ++ [call_id c])
         /\ omap answered_id (toolOutputs st) = ids
     | _ => True
     end.
Proof.
  intros Hr Hp. pose proof (turn_run_wf _ _ _ _ _ _ _ Hr Hp [] eq_refl) as Hw. cbn [app] in Hw. split; [by eapply wf_settles|].
  assert (forall st id, owes (recorded os) st [id] -> exists ids, settle (recorded os) [] = Some (ids ++ [id])
    /\ omap answered_id (toolOutputs st) = ids) as Hrun.
  { intros st id (ids & H1 & H2). exists ids. split; [done|]. clear H1. induction H2 as [|x y xs ys [_ Hx] _ IH]; [done|].
    cbn [omap list_omap]. by rewrite Hx, <- IH. }
  destruct pc; cbn [wf] in Hw; try done; [by apply owes_completed|by apply Hrun..].
Qed.

(** ** What the model is asked *)

(** The choices of other goroutines that leave the conversation alone. *)
Definition quiet (s s' : Session) : Prop := HistoryItems (state s') = HistoryItems (state s).

Definition tame (e : effect) : Prop :=
  match e with eff_replace _ => False | eff_update (op_record _ | op_replace _) => False | _ => True end.
Fixpoint tame_pc (pc : turn_pc) : Prop := match pc with at_effects es k => Forall tame es /\ tame_pc k | _ => True end.

Lemma tame_sends msgs : Forall tame (sends tc msgs).
Proof. induction msgs; [constructor|]. by repeat constructor. Qed.

Lemma tame_emit msgs k : tame_pc k -> tame_pc (emit tc msgs k).
Proof. split; [apply tame_sends|done]. Qed.

Lemma tame_item_done item st es st' c : handleOutputItemDone item st = (es, st', c) -> Forall tame es.
Proof.
  destruct item; cbn [Turn.handleOutputItemDone]; try (intros ?; simplify_eq; by repeat constructor).
  - case_decide; intros ?; simplify_eq; constructor; try done; try apply tame_sends; constructor.
  - intros ?; simplify_eq. constructor; [done|apply tame_sends].
  - destruct (BuildToolCall _) as [?|[?|]]; intros ?; simplify_eq; by repeat constructor.
Qed.

Lemma tame_stream_event ev st es st' next : handleStreamEvent ev st = (es, st', next) -> Forall tame es.
Proof.
  destruct ev as [|item|item| | |v|usage endTurn|d| |d i|d i|i|limits|]; cbn [Turn.handleStreamEvent];
    try (intros ?; simplify_eq; (apply tame_sends || by repeat constructor)).
  - destruct item as [item|]; [|intros ?; simplify_eq; constructor].
    destruct (handleOutputItemDone item st) as [[es0 st0] c] eqn:E. apply tame_item_done in E. by destruct c; intros ?; simplify_eq.
  - destruct item; intros ?; simplify_eq; [apply tame_sends|constructor].
  - destruct limits; intros ?; simplify_eq; by repeat constructor.
Qed.

Lemma history_updated_status msg s : state (updateAgentStatusFromEvent msg s) = state s.
Proof. unfold updateAgentStatusFromEvent. by destruct (agentStatusFromEvent msg). Qed.

Lemma history_record items x : HistoryItems (RecordItems items x) = HistoryItems x ++ items.
Proof. unfold HistoryItems, RecordItems, HistoryRecordItems, set_history. cbn [History]. case_decide; [subst; by rewrite app_nil_r|done]. Qed.

Lemma effect_step_history e s o es' s' : tame e -> effect_step tc e s = (o, es', s') ->
  Forall tame es' /\ HistoryItems (state s') = HistoryItems (state s) ++ recorded o.
Proof.
  intros Ht H. destruct e as [items|msg|ev|f|p|v|usage|new| |]; cbn [effect_step] in H; unfold TokenInfoAndRateLimits in H; simplify_eq;
    try done; try (cbn [recorded flat_map]; rewrite ?app_nil_r; split; [by repeat constructor|]; try done).
  - cbn [state set_state]. apply history_record.
  - by rewrite history_updated_status.
  - destruct f; done.
  - cbn [state set_state]. by destruct usage.
  - unfold IncToolCalls. by destruct (activeTurn s).
Qed.

Lemma run_effect_history e es k i s o pc' s' : run_effect tc e es k i s = goes o pc' s' -> Forall tame (e :: es) -> tame_pc k ->
  tame_pc pc' /\ HistoryItems (state s') = HistoryItems (state s) ++ recorded o.
Proof.
  intros H Ht Hk. apply Forall_cons in Ht as [He Hes]. apply run_effect_goes in H as [(ev & -> & -> & Ho & Hs)|(-> & _ & es' & E & ->)].
  - unfold recorded in Ho. rewrite Hs. unfold recorded. rewrite Ho, app_nil_r. done.
  - apply effect_step_history in E as [H1 H2]; [|done]. split; [|done]. split; [by apply Forall_app|done].
Qed.

Lemma sampling_select_tame last st i s o pc' s' : sampling_select unmarshal_params tc me last st i s = goes o pc' s' ->
  o = [] /\ s' = s /\ tame_pc pc'.
Proof.
  destruct i as [| |ev| |err|r]; cbn [sampling_select]; try done; intros H.
  - destruct (cancelled me s); by simplify_eq.
  - destruct (handleStreamEvent ev st) as [[es st'] next] eqn:E. simplify_eq. split_and!; [done..|]. split; [by eapply tame_stream_event|].
    destruct next; [done..|]. split; [|done]. apply Forall_app. split; [by destruct (toolOutputs st'); repeat constructor|].
    destruct (shouldEmitTokens st'); by repeat constructor.
  - simplify_eq. split_and!; [done..|]. cbn [sampling_failed is_aborted plain_error is_canceled orb]. by apply tame_emit.
Qed.

Lemma turn_step_history R i pc s o pc' s' : turn_step i pc s = goes o pc' s' -> wf R pc -> tame_pc pc ->
  tame_pc pc' /\ HistoryItems (state s') = HistoryItems (state s) ++ recorded o.
Proof.
  intros H Hw Ht. destruct pc as [[|e es] k| | | |h|h|h| | |last|last|last|last st|last st c|last st c|last st|last]; cbn [wf] in Hw; try done.
  - destruct i; cbn [Turn.turn_step] in H; simplify_eq. rewrite app_nil_r. by destruct Ht.
  - cbn [Turn.turn_step] in H. destruct Ht as [Ht Hk]. by apply run_effect_history in H.
  - destruct i; cbn [Turn.turn_step] in H; simplify_eq. rewrite app_nil_r. by destruct (cancelled me _).
  - destruct i; cbn [Turn.turn_step] in H; simplify_eq. by rewrite app_nil_r.
  - destruct i as [| | | |[e|]|]; cbn [Turn.turn_step] in H; simplify_eq; rewrite app_nil_r; [|done].
    split; [|done]. unfold sampling_failed. destruct (is_aborted _ || is_canceled _); [done|]. by apply tame_emit.
  - cbn [Turn.turn_step] in H. apply sampling_select_tame in H as (-> & -> & H). by rewrite app_nil_r.
  - destruct i; cbn [Turn.turn_step] in H; try discriminate. destruct (find_executor _ _ _); simplify_eq; by rewrite app_nil_r.
  - destruct i; cbn [Turn.turn_step] in H; simplify_eq. by rewrite app_nil_r.
  - destruct i; cbn [Turn.turn_step] in H; simplify_eq. rewrite app_nil_r. unfold after_sampling.
    destruct (cancelled me _); [done|]. by destruct (needsFollowUp st).
Qed.

Lemma turn_run_history pc s cs os pc' s' : turn_run quiet pc s cs os pc' s' -> Forall proper_choice cs ->
  forall R, wf R pc -> tame_pc pc -> HistoryItems (state s') = HistoryItems (state s) ++ recorded os.
Proof.
  induction 1 as [pc s|pc s i o pc' s' cs os pc'' s'' Hs _ IH|pc s s' cs os pc'' s'' He _ IH]; intros Hp R Hw Ht.
  - by rewrite app_nil_r.
  - apply Forall_cons in Hp as [Hi Hp]. destruct (turn_step_history R _ _ _ _ _ _ Hs Hw Ht) as [Ht' Hh].
    unfold recorded. rewrite flat_map_app. fold (recorded o) (recorded os). rewrite app_assoc, <- Hh.
    apply (IH Hp (R ++ recorded o)); [|done]. by eapply turn_step_wf.
  - rewrite <- He. by apply (IH Hp R).
Qed.

Lemma step_sees_one i pc s o pc' s' : turn_step i pc s = goes o pc' s' -> (length o <= 1)%nat.
Proof.
  intros H. destruct pc as [[|e es] k| | | |h|h|h| | |last|last|last|last st|last st c|last st c|last st|last]; cbn [Turn.turn_step] in H.
  2:{ destruct e, i; cbn [run_effect effect_step] in H; unfold TokenInfoAndRateLimits in H; try destruct (queueClosed s);
      try destruct (sessionCancelled s); try case_decide; simplify_eq; cbn; lia. }
  all: destruct i as [| |ev| |[err|]|r]; unfold drain_select, sampling_select in H; try discriminate;
    repeat match type of H with context [match ?x with _ => _ end] => destruct x end; simplify_eq; cbn; lia.
Qed.

(** The step at which a request is made. *)
Lemma request_point env pc s cs os pc' s' : turn_run env pc s cs os pc' s' -> forall os1 p os2, os = os1 ++ obs_request p :: os2 ->
  exists cs1 cs2 i pcm sm pcm' sm', cs = cs1 ++ i :: cs2 /\ turn_run env pc s cs1 os1 pcm sm
    /\ turn_step i pcm sm = goes [obs_request p] pcm' sm'.
Proof.
  induction 1 as [pc s|pc s i o pc' s' cs os pc'' s'' Hs Hr IH|pc s s' cs os pc'' s'' He _ IH]; intros os1 p os2 Ho.
  - by destruct os1.
  - pose proof (step_sees_one _ _ _ _ _ _ Hs) as Hl. destruct o as [|x [|]]; [| |cbn in Hl; lia].
    + destruct (IH os1 p os2 Ho) as (cs1 & cs2 & j & pcm & sm & pcm' & sm' & -> & H1 & H2).
      exists (i :: cs1), cs2, j, pcm, sm, pcm', sm'. split_and!; [done| |done]. 
      change (turn_run env pc s (i :: cs1) ([] ++ os1) pcm sm). by eapply run_own.
    + destruct os1 as [|y os1]; cbn [app] in Ho; simplify_eq.
      * exists [], cs, i, pc, s, pc', s'. split_and!; [done|constructor|done].
      * destruct (IH os1 p os2 eq_refl) as (cs1 & cs2 & j & pcm & sm & pcm' & sm' & -> & H1 & H2).
        exists (i :: cs1), cs2, j, pcm, sm, pcm', sm'. split_and!; [done| |done].
        change (turn_run env pc s (i :: cs1) ([y] ++ os1) pcm sm). by eapply run_own.
  - destruct (IH os1 p os2 Ho) as (cs1 & cs2 & j & pcm & sm & pcm' & sm' & -> & H1 & H2).
    exists cs1, cs2, j, pcm, sm, pcm', sm'. split_and!; [done| |done]. by eapply run_env.
Qed.

Lemma request_step i pc s p pc' s' : turn_step i pc s = goes [obs_request p] pc' s' ->
  (exists last, pc = at_stream last /\ p = buildPrompt s tc) \/ (exists history, pc = at_drain_check history).
Proof.
  intros H. destruct pc as [[|e es] k| | | |h|h|h| | |last|last|last|last st|last st c|last st c|last st|last]; cbn [Turn.turn_step] in H.
  2:{ destruct e, i; cbn [run_effect effect_step] in H; unfold TokenInfoAndRateLimits in H; try destruct (queueClosed s);
      try destruct (sessionCancelled s); try case_decide; by simplify_eq. }
  all: destruct i as [| |ev| |[err|]|r]; unfold drain_select, sampling_select in H; try discriminate;
    repeat match type of H with context [match ?x with _ => _ end] => destruct x end; simplify_eq; eauto.
Qed.

Lemma settle_balanced a b : settle a [] = Some [] -> settle b [] = Some [] -> settle (a ++ b) [] = Some [].
Proof. intros Ha Hb. by rewrite settle_app, Ha. Qed.

(** C16: what the model is asked. While no other goroutine writes to the
    conversation, every sampling request of a turn, those that come after its own
    compaction, carries the conversation as it was when the sampling began and all
    that the turn recorded since. If that conversation had an output for every
    call, no call lacks its output in any of these requests, as long as the model
    itself sends no outputs and those of tools carry the id of their call. (An interrupted turn
    can leave a call without one, [aborted_call_unanswered]; the requests of later
    turns then carry that gap.) *)
Theorem requests_are_settled last s cs os pc s' :
  turn_run quiet (at_check last) s cs os pc s' -> Forall proper_choice cs ->
  HistoryItems (state s') = HistoryItems (state s) ++ recorded os
  /\ forall os1 p os2, os = os1 ++ obs_request p :: os2 ->
       Input p = HistoryItems (state s) ++ recorded os1
       /\ (settle (HistoryItems (state s)) [] = Some [] -> settle (Input p) [] = Some []).
Proof.
  intros Hr Hp. split; [by eapply (turn_run_history _ _ _ _ _ _ Hr Hp [])|]. intros os1 p os2 Ho.
  destruct (request_point _ _ _ _ _ _ _ Hr _ _ _ Ho) as (cs1 & cs2 & i & pcm & sm & pcm' & sm' & -> & H1 & H2).
  apply Forall_app in Hp as [Hp _]. pose proof (turn_run_wf _ _ _ _ _ _ _ H1 Hp [] eq_refl) as Hw.
  pose proof (turn_run_history _ _ _ _ _ _ H1 Hp [] eq_refl I) as Hh. cbn [app] in Hw.
  destruct (request_step _ _ _ _ _ _ H2) as [(l & -> & ->)|(h & ->)]; [|done]. cbn [wf] in Hw.
  cbn [buildPrompt Input]. rewrite Hh. split; [done|]. intros Hb. by apply settle_balanced.
Qed.

(** ** A cancelled turn *)

Definition stays_cancelled (s s' : Session) : Prop := cancelled me s = true -> cancelled me s' = true.

(** How many steps an effect and a point of the turn are from the end, when the
    turn is cancelled and its stream has no more events. *)
Definition effect_steps (e : effect) : nat := match e with eff_account _ => 3 | eff_recompute => 2 | _ => 1 end.
Definition effects_steps (es : list effect) : nat := list_sum (map effect_steps es).

Fixpoint steps_left (pc : turn_pc) : nat :=
  match pc with
  | at_effects es k => S (effects_steps es + steps_left k)
  | at_trigger => 6 | at_trigger_ctx => 5 | at_clone => 6
  | at_drain_check _ => 5 | at_drain_opened _ => 9 | at_drain_select _ => 8 | at_rebuild => 15
  | at_settings => 4
  | at_check _ => 1 | at_stream _ => 6 | at_opened _ => 5 | at_select _ _ => 4 | at_dispatch _ _ _ => 6 | at_handle _ _ _ => 5
  | at_after _ _ => 1
  | at_return _ => 0
  end.

Definition events_taken (cs : list turn_choice) : nat :=
  length (List.filter (fun i => match i with take_event _ => true | _ => false end) cs).
Definition requests_made (os : list obs) : nat :=
  length (List.filter (fun o => match o with obs_request _ => true | _ => false end) os).

Fixpoint may_request (pc : turn_pc) : nat := match pc with at_effects _ k => may_request k | at_stream _ => 1 | _ => 0 end.

Lemma effects_steps_app a b : effects_steps (a ++ b) = effects_steps a + effects_steps b.
Proof. unfold effects_steps. rewrite map_app. apply list_sum_app. Qed.

Lemma effects_steps_cons e es : effects_steps (e :: es) = effect_steps e + effects_steps es.
Proof. done. Qed.

Lemma effects_steps_sends msgs : effects_steps (sends tc msgs) = 2 * length msgs.
Proof.
  induction msgs as [|m msgs IH]; [done|]. change (sends tc (m :: msgs)) with (SendEvent (SubID tc) m ++ sends tc msgs).
  rewrite effects_steps_app, IH. cbn. lia.
Qed.

Lemma item_done_steps item st es st' c : handleOutputItemDone item st = (es, st', c) ->
  effects_steps es <= match c with Some _ => 3 | None => 7 end.
Proof.
  assert (forall (a : gostring), length (emitAgentMessage a) <= 1) as Ha by (intros a; unfold emitAgentMessage; by case_decide; cbn; lia).
  assert (forall summary content, length (emitReasoning summary content) <= 2) as Hr.
  { intros summary content. unfold emitReasoning. rewrite length_app. do 2 case_decide; cbn; lia. }
  destruct item; cbn [Turn.handleOutputItemDone]; try (intros ?; simplify_eq; cbn; lia).
  - case_decide; intros ?; simplify_eq; [|cbn; lia]. rewrite effects_steps_cons, effects_steps_sends, length_app.
    specialize (Ha (assistantMessageText content)). cbn. lia.
  - intros ?; simplify_eq. rewrite effects_steps_cons, effects_steps_sends, length_app. specialize (Hr summary content). cbn. lia.
  - destruct (BuildToolCall _) as [?|[?|]]; intros ?; simplify_eq; cbn; lia.
Qed.

Lemma stream_event_steps ev st es st' next : handleStreamEvent ev st = (es, st', next) ->
  effects_steps es <= match next with more => 7 | calling _ => 3 | completed => 0 end.
Proof.
  destruct ev as [|item|item| | |v|usage endTurn|d| |d i|d i|i|limits|]; cbn [Turn.handleStreamEvent]; try (intros ?; simplify_eq; cbn; lia).
  - destruct item as [item|]; [|intros ?; simplify_eq; cbn; lia].
    destruct (handleOutputItemDone item st) as [[es0 st0] c] eqn:E. apply item_done_steps in E. destruct c; intros ?; by simplify_eq.
  - destruct item as [item|]; intros ?; simplify_eq; [|cbn; lia]. rewrite effects_steps_sends. unfold emitItemStarted.
    destruct (turnItemForStreamed item); cbn; lia.
  - intros ?; simplify_eq. rewrite effects_steps_sends. unfold emitAgentMessageDelta. destruct (activeItem st') as [x|]; [|cbn; lia].
    case_decide; [cbn; lia|]. destruct (is_message x); cbn; lia.
  - intros ?; simplify_eq. rewrite effects_steps_sends. unfold emitReasoningSummaryDelta. destruct (activeItem st'); [|cbn; lia].
    case_decide; cbn; lia.
  - intros ?; simplify_eq. rewrite effects_steps_sends. unfold emitReasoningRawDelta. destruct (activeItem st'); [|cbn; lia].
    case_decide; cbn; lia.
  - intros ?; simplify_eq. rewrite effects_steps_sends. unfold emitReasoningSectionBreak. destruct (activeItem st'); cbn; lia.
  - destruct limits; intros ?; simplify_eq; cbn; lia.
Qed.

Lemma completion_steps st : effects_steps (completion_effects st) <= 4.
Proof.
  unfold completion_effects. rewrite effects_steps_app. destruct (toolOutputs st), (shouldEmitTokens st); cbn; lia.
Qed.

Lemma emit_error_steps e k : steps_left (emit tc (emitTurnError e) k) = 3 + steps_left k.
Proof. unfold emit. cbn [steps_left]. rewrite effects_steps_sends. cbn. lia. Qed.

Lemma effect_step_steps e s o es' s' : (forall ev, e <> eff_send ev) -> effect_step tc e s = (o, es', s') ->
  effects_steps es' < effect_steps e /\ cancelled me s' = cancelled me s /\ requests_made o = 0.
Proof.
  intros Hn H. destruct e as [items|msg|ev|f|p|v|usage|new| |]; cbn [effect_step] in H; unfold TokenInfoAndRateLimits in H; simplify_eq;
    try (split_and!; [cbn; lia|done|done]).
  - split_and!; [cbn; lia| |done]. unfold updateAgentStatusFromEvent. by destruct (agentStatusFromEvent msg).
  - split_and!; [cbn; lia| |done]. unfold IncToolCalls. by destruct (activeTurn s).
Qed.

Lemma steps_effect e es k : steps_left (at_effects (e :: es) k) = effect_steps e + steps_left (at_effects es k).
Proof. cbn [steps_left]. rewrite effects_steps_cons. lia. Qed.

Lemma run_effect_steps e es k i s o pc' s' : run_effect tc e es k i s = goes o pc' s' ->
  S (steps_left pc') <= steps_left (at_effects (e :: es) k) /\ may_request pc' = may_request k
  /\ cancelled me s' = cancelled me s /\ requests_made o = 0.
Proof.
  destruct e as [items|msg|ev|f|p|v|usage|new| |] eqn:Ee.
  3:{ destruct i; cbn [run_effect]; try done.
      - destruct (queueClosed s); [done|]. case_decide; [|done]. intros ?; simplify_eq. split_and!; [rewrite steps_effect; cbn; lia|done..].
      - destruct (sessionCancelled s); intros ?; simplify_eq. split_and!; [rewrite steps_effect; cbn; lia|done..]. }
  all: intros H; apply run_effect_goes in H as [(ev & Hev & _)|(_ & Hn & es' & E & ->)]; [done|];
    apply effect_step_steps in E as (H1 & H2 & H3); [|done]; split_and!; [|done..];
    cbn [steps_left]; rewrite effects_steps_app, effects_steps_cons; lia.
Qed.

Lemma sampling_select_steps last st i s o pc' s' : sampling_select unmarshal_params tc me last st i s = goes o pc' s' ->
  S (steps_left pc') <= 4 + 10 * events_taken [i] /\ may_request pc' = 0 /\ s' = s /\ o = [].
Proof.
  destruct i as [| |ev| |err|r]; cbn [sampling_select]; try done; intros H.
  - destruct (cancelled me s); simplify_eq. split_and!; [cbn; lia|done..].
  - destruct (handleStreamEvent ev st) as [[es st'] next] eqn:E. simplify_eq. apply stream_event_steps in E.
    pose proof (completion_steps st') as Hc. change (events_taken [take_event ev]) with 1.
    split_and!; [|by destruct next|done..]. cbn [steps_left]. destruct next; cbn [steps_left]; lia.
  - simplify_eq. split_and!; [|done..]. unfold sampling_failed. cbn [is_aborted is_canceled plain_error orb].
    rewrite emit_error_steps. cbn. lia.
Qed.

Lemma drain_failed_steps e history : steps_left (drain_failed tc e history) <= 7 /\ may_request (drain_failed tc e history) = 0.
Proof.
  unfold drain_failed. destruct (is_aborted e || is_canceled e); [cbn; lia|]. destruct (is_overflow e && _); [cbn; lia|].
  rewrite emit_error_steps. cbn. lia.
Qed.

Lemma sampling_failed_steps e last : steps_left (sampling_failed tc e last) <= 3 /\ may_request (sampling_failed tc e last) = 0.
Proof.
  unfold sampling_failed. destruct (is_aborted e || is_canceled e); [cbn; lia|]. rewrite emit_error_steps. cbn. lia.
Qed.

Lemma drain_select_steps history i s o pc' s' : drain_select tc me history i s = goes o pc' s' ->
  S (steps_left pc') <= 8 + 10 * events_taken [i] /\ may_request pc' = 0 /\ s' = s /\ o = [].
Proof.
  destruct i as [| |ev| |err|r]; cbn [drain_select]; try done; intros H.
  - destruct (cancelled me s); simplify_eq. split_and!; [cbn; lia|done..].
  - destruct (handleCompactStreamEvent tc ev) as [es complete] eqn:E. simplify_eq. change (events_taken [take_event ev]) with 1.
    assert (effects_steps es <= 1) as He.
    { destruct ev as [|[]| | | | |[] ?|?| |? ?|? ?|?|[]|]; cbn [handleCompactStreamEvent] in E; simplify_eq; cbn; lia. }
    split_and!; [|by destruct complete|done..]. cbn [steps_left]. destruct complete; cbn [steps_left]; lia.
  - simplify_eq. pose proof (drain_failed_steps (plain_error (str "core: " ++ streamClosedBeforeCompletedMsg)) history) as [H1 H2].
    split_and!; [|done..]. cbn. lia.
Qed.

Lemma rebuild_steps items k : steps_left (at_effects (rebuild_effects xml_hook_prompt newItemID tc items) k) = 10 + steps_left k.
Proof.
  cbn [steps_left]. unfold rebuild_effects. rewrite effects_steps_app, effects_steps_sends. cbn. lia.
Qed.

(** A step of a cancelled turn brings it nearer to its end, unless it takes an
    event; only the request it is about to make is still made. *)
Lemma cancelled_step i pc s o pc' s' : cancelled me s = true -> turn_step i pc s = goes o pc' s' ->
  S (steps_left pc') <= steps_left pc + 10 * events_taken [i] /\ requests_made o + may_request pc' <= may_request pc
  /\ cancelled me s' = true.
Proof.
  intros Hc H. destruct pc as [[|e es] k| | | |h|h|h| | |last|last|last|last st|last st c|last st c|last st|last]; cbn [Turn.turn_step] in H.
  - destruct i; simplify_eq. cbn. split_and!; [lia|lia|done].
  - apply run_effect_steps in H as (H1 & H2 & H3 & H4). rewrite H2, H3, H4. cbn [may_request]. split_and!; [lia|lia|done].
  - destruct i; try done. destruct (shouldAutoCompact _ _); simplify_eq; cbn; split_and!; [lia|lia|done|lia|lia|done].
  - destruct i; try done. rewrite Hc in H. simplify_eq. cbn. split_and!; [lia|lia|done].
  - destruct i; simplify_eq. cbn. split_and!; [lia|lia|done].
  - destruct i; try done. rewrite Hc in H. simplify_eq. cbn. split_and!; [lia|lia|done].
  - destruct i as [| | | |[e|]|]; simplify_eq; [|cbn; split_and!; [lia|lia|done]].
    pose proof (drain_failed_steps (wrap_error (str "core: compaction stream failed: ") e) h) as [H1 H2]. rewrite H2. cbn.
    split_and!; [lia|lia|done].
  - apply drain_select_steps in H as (H1 & -> & -> & ->). split_and!; [done|cbn; lia|done].
  - destruct i; simplify_eq. rewrite rebuild_steps. cbn. split_and!; [lia|lia|done].
  - destruct i; simplify_eq. cbn. split_and!; [lia|lia|done].
  - destruct i; try done. rewrite Hc in H. simplify_eq. cbn. split_and!; [lia|lia|done].
  - destruct i; simplify_eq. cbn. split_and!; [lia|lia|done].
  - destruct i as [| | | |[e|]|]; simplify_eq; [|cbn; split_and!; [lia|lia|done]].
    pose proof (sampling_failed_steps (wrap_error (str "core: model stream failed: ") e) last) as [H1 H2]. rewrite H2. cbn.
    split_and!; [lia|lia|done].
  - apply sampling_select_steps in H as (H1 & -> & -> & ->). split_and!; [done|cbn; lia|done].
  - destruct i; try done. destruct (find_executor _ _ _); simplify_eq; cbn; split_and!; [lia|lia|done|lia|lia|done].
  - destruct i; simplify_eq. cbn. split_and!; [lia|lia|done].
  - destruct i; try done. rewrite Hc in H. simplify_eq. cbn. split_and!; [lia|lia|done].
  - by destruct i.
Qed.

(** Where a turn waits for the consumer of the events. *)
Definition waits_for_consumer (pc : turn_pc) (s : Session) : Prop :=
  match pc with
  | at_effects (eff_send _ :: _) _ => sessionCancelled s = false /\ SubmissionChannelCapacity <= length (queue s)
  | _ => False
  end.

Definition can_move (pc : turn_pc) (s : Session) : Prop := exists i, events_taken [i] = 0 /\ turn_step i pc s <> blocked.

Lemma cancelled_moves pc s : cancelled me s = true -> (exists last, pc = at_return last) \/ waits_for_consumer pc s \/ can_move pc s.
Proof.
  intros Hc. destruct pc as [[|e es] k| | | |h|h|h| | |last|last|last|last st|last st c|last st c|last st|last]; [| | | | | | | | | | | | | | | | |by left; exists last].
  2:{ destruct e; try (right; right; exists go; split; [done|]; cbn [Turn.turn_step run_effect]; by destruct (effect_step _ _ _) as [[? ?] ?]).
      right. destruct (sessionCancelled s) eqn:Es.
      { right. exists take_done. split; [done|]. cbn [Turn.turn_step run_effect]. by rewrite Es. }
      destruct (decide (length (queue s) < SubmissionChannelCapacity)) as [Hq|Hq]; [right|left; split; [done|lia]].
      exists go. split; [done|]. cbn [Turn.turn_step run_effect]. destruct (queueClosed s); [done|]. by rewrite decide_True. }
  7,13: (right; right; exists take_done; split; [done|]; cbn; by rewrite Hc).
  6,11: (right; right; exists (opened None); split; [done|]; done).
  11: (right; right; exists (answer (inl [])); split; [done|]; done).
  all: right; right; exists go; split; [done|]; cbn [Turn.turn_step]; try rewrite Hc; try done.
  - by destruct (shouldAutoCompact _ _).
  - by destruct (find_executor _ _ _).
Qed.

(** C17: a cancelled turn ends. Once its context is cancelled, a turn makes at
    most the one request it was about to make; each of its steps brings it
    nearer to its end unless it takes one more event of a stream, by a bound
    that is fixed at the moment; and until it has ended it can move without one,
    unless it waits for the consumer of a full queue. *)
Theorem cancelled_turn_ends pc s cs os pc' s' :
  turn_run stays_cancelled pc s cs os pc' s' -> cancelled me s = true ->
  length cs + steps_left pc' <= steps_left pc + 10 * events_taken cs
  /\ requests_made os <= 1
  /\ ((exists last, pc' = at_return last) \/ waits_for_consumer pc' s' \/ can_move pc' s').
Proof.
  intros Hr Hc. assert (length cs + steps_left pc' <= steps_left pc + 10 * events_taken cs
    /\ requests_made os + may_request pc' <= may_request pc /\ cancelled me s' = true) as (H1 & H2 & H3).
  { induction Hr as [pc s|pc s i o pc' s' cs os pc'' s'' Hs _ IH|pc s s' cs os pc'' s'' He _ IH]; 
      [unfold requests_made, events_taken; cbn [length List.filter]; split_and!; [lia|lia|done]| |by apply IH, He].
    destruct (cancelled_step _ _ _ _ _ _ Hc Hs) as (H1 & H2 & H3). destruct (IH H3) as (H4 & H5 & H6).
    unfold requests_made, events_taken in *. change (i :: cs) with ([i] ++ cs). rewrite !List.filter_app, !length_app.
    split_and!; [cbn [length]; lia|lia|done]. }
  split_and!; [done| |by apply cancelled_moves]. enough (forall q, may_request q <= 1) as Hm by (specialize (Hm pc); lia).
  induction q; cbn; lia.
Qed.

(** ** Runs of the machine alone *)

Fixpoint exec (cs : list turn_choice) (pc : turn_pc) (s : Session) : option (list obs * turn_pc * Session) :=
  match cs with
  | [] => Some ([], pc, s)
  | i :: cs =>
      match turn_step i pc s with
      | goes o pc' s' => match exec cs pc' s' with Some (os, pc'', s'') => Some (o ++ os, pc'', s'') | None => None end
      | _ => None
      end
  end.

Lemma exec_run env cs : forall pc s os pc' s', exec cs pc s = Some (os, pc', s') -> turn_run env pc s cs os pc' s'.
Proof.
  induction cs as [|i cs IH]; intros pc s os pc' s' H; cbn [exec] in H; [simplify_eq; constructor|].
  destruct (turn_step i pc s) as [| |o pc1 s1] eqn:E; try done.
  destruct (exec cs pc1 s1) as [[[os1 pc2] s2]|] eqn:E2; [|done]. simplify_eq. eapply run_own; [done|]. by apply IH.
Qed.
End Runs.

(** ** A turn with one call *)

Definition demo_tc : TurnContext := mkTurnContext (str "t1") false (str "m") None None [] None None None [] None.
Definition demo_session : Session := mkSession NewSessionState AgentStatusPendingInit [] false false ∅ (Some 0) ∅.
Definition demo_call : ResponseItem := FunctionCall None (str "shell") None [] (str "c1").
Definition demo_exec : list turn_choice -> option (list obs * turn_pc * Session) :=
  fun cs => exec (fun _ => None) [] (fun _ => inl []) demo_router demo_tc 0 cs (at_check None) demo_session.

Definition demo_request : list turn_choice := [go; go; opened None; take_event (OutputItemDone (Some demo_call)); go; go; go; go; go].
Definition demo_answer : list turn_choice := [answer (inr (textToolOutput (str "ok") None))].
Definition demo_complete : list turn_choice := [take_event (Completed None None); go; go; go; go; go; go; go].

Definition demo_output : ResponseItem := call_answer (function_tool (str "c1") (PlainToolName (str "shell")) [])
  (inr (mkAnyToolResult (str "c1") (FunctionPayload []) (textToolOutput (str "ok") None))).

Definition summary_of_run (r : option (list obs * turn_pc * Session)) : option (list ResponseItem * option (list gostring) * nat) :=
  match r with
  | Some (os, _, _) => Some (recorded os, settle (recorded os) [], requests_made os)
  | None => None
  end.

Example one_call : summary_of_run (demo_exec (demo_request ++ demo_answer ++ demo_complete ++ [go; go]))
  = Some ([demo_call; demo_output], Some [], 2).
Proof. vm_compute. reflexivity. Qed.

Definition pc_of (r : option (list obs * turn_pc * Session)) : option turn_pc := option_map (fun x => snd (fst x)) r.

Definition whole_call : list turn_choice := demo_request ++ demo_answer ++ demo_complete.

Lemma whole_call_proper : Forall proper_choice whole_call.
Proof. unfold whole_call, demo_request, demo_answer, demo_complete. repeat constructor. exact (textToolOutput_lawful _ _). Qed.

Lemma turn_answers_calls_witness :
  match demo_exec whole_call with
  | Some (os, at_check _, _) => settle (recorded os) [] = Some []
  | _ => False
  end.
Proof.
  assert (pc_of (demo_exec whole_call) = Some (at_check None)) as Hpc by (vm_compute; reflexivity).
  destruct (demo_exec whole_call) as [[[os pc] s']|] eqn:E; [|discriminate Hpc]. injection Hpc as Hpc. cbn in Hpc. subst pc.
  exact (proj2 (turn_answers_calls _ _ _ _ _ _ (fun _ _ => True) _ _ _ _ _ _ (exec_run _ _ _ _ _ _ _ _ _ _ _ _ _ E) whole_call_proper)).
Defined.

Lemma requests_are_settled_witness :
  match demo_exec (whole_call ++ [go; go]) with
  | Some (os, _, s') => HistoryItems (state s') = recorded os /\ requests_made os = 2
  | None => False
  end.
Proof.
  assert (summary_of_run (demo_exec (whole_call ++ [go; go])) = Some ([demo_call; demo_output], Some [], 2)) as Hn
    by (vm_compute; reflexivity).
  destruct (demo_exec (whole_call ++ [go; go])) as [[[os pc] s']|] eqn:E; [|discriminate Hn]. injection Hn as _ _ Hn. split; [|exact Hn].
  refine (proj1 (requests_are_settled _ _ _ _ _ _ _ _ _ _ _ _ (exec_run _ _ _ _ _ _ _ _ _ _ _ _ _ E) _)).
  apply Forall_app. split; [exact whole_call_proper|by repeat constructor].
Defined.

Definition cancelled_session : Session := mkSession NewSessionState AgentStatusPendingInit [] false false {[0]} (Some 0) ∅.

Lemma cancelled_turn_ends_witness :
  let run := exec (fun _ => None) [] (fun _ => inl []) demo_router demo_tc 0 in
  match run [go; opened None; take_event (OutputItemDone (Some demo_call)); go; go; go; go; go; answer (inl []); take_done]
          (at_stream None) cancelled_session with
  | Some (os, pc, s') => pc = at_return None /\ requests_made os <= 1
  | None => False
  end.
Proof.
  cbv zeta. set (cs := [go; opened None; take_event (OutputItemDone (Some demo_call)); go; go; go; go; go; answer (inl []); take_done]).
  set (r := exec _ _ _ _ _ _ cs (at_stream None) cancelled_session).
  assert (pc_of r = Some (at_return None)) as Hpc by (vm_compute; reflexivity).
  destruct r as [[[os pc] s']|] eqn:E; [|discriminate Hpc]. injection Hpc as Hpc. split; [exact Hpc|]. subst r.
  refine (proj1 (proj2 (cancelled_turn_ends _ _ _ _ _ _ _ _ _ _ _ _ (exec_run _ _ _ _ _ _ _ _ _ _ _ _ _ E) _))). reflexivity.
Defined.

(** A turn that is aborted between a call and the end of the response leaves the
    call in the conversation without an output. *)
Example aborted_call_unanswered :
  let run := exec (fun _ => None) [] (fun _ => inl []) demo_router demo_tc 0 in
  match run [go; opened None; take_event (OutputItemDone (Some demo_call)); go; go; go; go; go; answer (inr (textToolOutput (str "ok") None)); take_done]
          (at_stream None) cancelled_session with
  | Some (os, at_return _, _) => settle (recorded os) [] = Some [str "c1"]
  | _ => False
  end.
Proof. vm_compute. reflexivity. Qed.

(** The counter of tool calls counts a call twice. *)
Example call_counted_twice :
  match demo_exec (demo_request ++ demo_answer) with Some (_, _, s) => toolCalls s !! 0 = Some 2%Z | None => False end.
Proof. vm_compute. reflexivity. Qed.

End TurnRuns.
