(* ===== verification/CoreSession.v ===== *)
(** * internal/core: the submission loop and its tasks

    [submission_loop.go], [turn_spawn.go], [turn_handlers.go] and the queues of
    [codex.go]: the loop takes submissions in order and starts, replaces and
    interrupts tasks, which run beside it on their own goroutines and share the
    session of [CoreTurn.v] with it; a consumer takes the events.  The tools of a
    task, and the watchers of the commands that they leave running, send events
    under the id of its turn.  Approvals are
    in [ApprovalWaiters.v]; building a turn's context reads the configuration and
    is an input; hooks and the MCP manager give no answer that matters here. *)

From stdpp Require Import base list gmap strings.
From S2P Require Import Prelude GoStrings ProtocolItems CoreState CoreTools CoreTurn.

Module SessionLoop.
Import Items State Tools Turn.

(** ** Submissions *)

Inductive Op :=
| OpShutdown
| OpInterrupt
| OpUserInput (items : list UserInput)
| OpCompact
| OpReview
| OpThreadSettings
| OpOther.

Record Submission := mkSubmission { sub_id : gostring; sub_op : Op }.

Inductive TaskKind := TaskKindRegular | TaskKindReview | TaskKindCompact.

Definition turnInputFromOp (items : list UserInput) : list turnInput :=
  match items with [] => [] | _ => [mkTurnInput items None] end.

(** ** Tasks *)

(** A task is installed before its goroutine starts.  After its function
    returned it reports its end and runs its deferred calls. *)
Inductive task_pc :=
| not_started (pc : turn_pc)
| running (pc : turn_pc)
| emitting (pc : turn_pc)
| clearing
| cancelling
| over.

Record RunningTask := mkTask { task_context : TurnContext; task_kind : TaskKind; task_at : task_pc }.

(** What the loop does with the active turn it has read. *)
Inductive purpose :=
| to_interrupt
| to_shutdown (id : gostring)
| to_spawn (tc : TurnContext) (kind : TaskKind) (items : list UserInput).

Inductive after_emit := then_select | then_start (t : nat) | then_exit.

Inductive loop_pc :=
| loop_select
| loop_read (p : purpose)
| loop_cancel (prev : nat) (p : purpose)
| loop_build (id : gostring) (kind : TaskKind) (items : list UserInput)
| loop_install (tc : TurnContext) (kind : TaskKind) (items : list UserInput)
| loop_emit (pc : turn_pc) (k : after_emit)
| loop_cancel_session
| loop_close_queue
| loop_close_done
| loop_over.

Record World := mkWorld {
  sess : Session;
  tasks : list RunningTask;
  loop : loop_pc;
  submissions : list Submission;     (* the buffer of [txSub] *)
  delivered : list Event;            (* what [NextEvent] returned *)
  loopDone : bool;
}.

Definition set_sess (x : Session) (w : World) : World := mkWorld x (tasks w) (loop w) (submissions w) (delivered w) (loopDone w).
Definition set_tasks (x : list RunningTask) (w : World) : World := mkWorld (sess w) x (loop w) (submissions w) (delivered w) (loopDone w).
Definition set_loop (x : loop_pc) (w : World) : World := mkWorld (sess w) (tasks w) x (submissions w) (delivered w) (loopDone w).
Definition set_submissions (x : list Submission) (w : World) : World := mkWorld (sess w) (tasks w) (loop w) x (delivered w) (loopDone w).

Definition cancel_task (t : nat) (s : Session) : Session :=
  mkSession (state s) (agentStatus s) (queue s) (queueClosed s) (sessionCancelled s) ({[t]} ∪ taskCancelled s) (activeTurn s) (toolCalls s).
Definition cancel_session (s : Session) : Session :=
  mkSession (state s) (agentStatus s) (queue s) (queueClosed s) true (taskCancelled s) (activeTurn s) (toolCalls s).
Definition close_queue (s : Session) : Session :=
  mkSession (state s) (agentStatus s) (queue s) true (sessionCancelled s) (taskCancelled s) (activeTurn s) (toolCalls s).

Definition clearActiveTurnIf (t : nat) (s : Session) : Session :=
  if decide (activeTurn s = Some t) then set_active None s else s.

Definition set_sub_id (id : gostring) (tc : TurnContext) : TurnContext :=
  mkTurnContext id (TurnRealtimeActive tc) (ModelSlug tc) (TurnContextWindow tc) (AutoCompactTokenLimit tc) (TurnTools tc)
    (DeveloperInstructions tc) (UserInstructions tc) (CompactPrompt tc) (BaseInstructions tc) (FinalOutputJSONSchema tc).

(** What is sent with an id, as a sequence of effects that then returns. *)
Definition send_all (id : gostring) (msgs : list EventMsg) : turn_pc := at_effects (flat_map (SendEvent id) msgs) (at_return None).

Definition emitTurnStarted (tc : TurnContext) : turn_pc := send_all (SubID tc) [TurnStarted (SubID tc) (TurnContextWindow tc)].
Definition emitTurnComplete (tc : TurnContext) (last : option gostring) : turn_pc := send_all (SubID tc) [TurnComplete (SubID tc) last].
Definition emitTurnAborted (tc : TurnContext) (reason : TurnAbortReason) : turn_pc := send_all (SubID tc) [TurnAborted (SubID tc) reason].

(** The choices of the loop: which case of its select, what the configuration
    gives for a turn. *)
Inductive loop_choice :=
| loop_go
| loop_take
| loop_done
| built (r : gostring + TurnContext).

Inductive world_choice :=
| submit (sub : Submission)
| consume
| cancel_parent
| loop_moves (c : loop_choice)
| task_moves (t : nat) (i : turn_choice)
| tool_sends (t : nat) (i : turn_choice) (m : EventMsg).

Inductive world_outcome :=
| w_blocked
| w_panics
| w_goes (w : World).

(** What the watcher of a command sends ([unified_exec_watcher.go]), also when
    the turn that started the command is over; and what tools send. *)
Definition of_watcher (m : EventMsg) : bool := match m with ExecCommandOutputDelta _ _ | ExecCommandEnd _ => true | _ => false end.
Definition of_tools (m : EventMsg) : bool :=
  match m with ItemStarted _ _ | ItemCompleted _ _ | ToolEvent _ => true | _ => of_watcher m end.

Section Machine.
Context (xml_hook_prompt : gostring -> option (gostring * gostring)) (newItemID : gostring)
        (unmarshal_params : RawMessage -> gostring + SearchToolCallParams) (router : DefaultToolRouter).

#[local] Notation turn_step := (turn_step xml_hook_prompt newItemID unmarshal_params router).

(** The function of a task: the compaction and review tasks are placeholders. *)
Definition task_function (kind : TaskKind) (items : list UserInput) : turn_pc :=
  match kind with
  | TaskKindRegular => runTurn (turnInputFromOp items)
  | _ => at_return None
  end.

(** [dispatch]. *)
Definition dispatch_op (sub : Submission) : loop_pc :=
  match sub_op sub with
  | OpShutdown => loop_read (to_shutdown (sub_id sub))
  | OpInterrupt => loop_read to_interrupt
  | OpUserInput items => loop_build (sub_id sub) TaskKindRegular items
  | OpCompact => loop_build (sub_id sub) TaskKindCompact []
  | OpReview => loop_build (sub_id sub) TaskKindReview []
  | OpThreadSettings => loop_emit (send_all (sub_id sub) [ThreadSettingsApplied]) then_select
  | OpOther => loop_select
  end.

(** When a previous task, if any, has been cancelled. *)
Definition after_cancel (p : purpose) : loop_pc :=
  match p with
  | to_interrupt => loop_select
  | to_shutdown id => loop_emit (send_all id [ShutdownComplete]) then_exit
  | to_spawn tc kind items => loop_install tc kind items
  end.

Definition start_task (t : nat) (ts : list RunningTask) : list RunningTask :=
  match ts !! t with
  | Some (mkTask tc kind (not_started pc)) => <[t := mkTask tc kind (running pc)]> ts
  | _ => ts
  end.

(** One step of the loop's goroutine. *)
Definition loop_step (c : loop_choice) (w : World) : world_outcome :=
  let s := sess w in
  match loop w, c with
  | loop_select, loop_take =>
      match submissions w with
      | sub :: rest => w_goes (set_submissions rest (set_loop (dispatch_op sub) w))
      | [] => w_blocked
      end
  | loop_select, loop_done => if sessionCancelled s then w_goes (set_loop loop_cancel_session w) else w_blocked
  | loop_read p, loop_go =>
      w_goes (set_loop match activeTurn s with Some prev => loop_cancel prev p | None => after_cancel p end w)
  | loop_cancel prev p, loop_go => w_goes (set_loop (after_cancel p) (set_sess (cancel_task prev s) w))
  | loop_build id kind items, built (inr tc) => w_goes (set_loop (loop_read (to_spawn (set_sub_id id tc) kind items)) w)
  | loop_build id kind items, built (inl err) => w_goes (set_loop (loop_emit (send_all id [ErrorEvent err]) then_select) w)
  | loop_install tc kind items, loop_go =>
      let t := length (tasks w) in
      w_goes (set_loop (loop_emit (emitTurnStarted tc) (then_start t))
               (set_tasks (tasks w ++ [mkTask tc kind (not_started (task_function kind items))]) (set_sess (set_active (Some t) s) w)))
  | loop_emit (at_return _) k, loop_go =>
      w_goes match k with
             | then_select => set_loop loop_select w
             | then_start t => set_loop loop_select (set_tasks (start_task t (tasks w)) w)
             | then_exit => set_loop loop_cancel_session w
             end
  | loop_emit pc k, loop_go | loop_emit pc k, loop_done =>
      match turn_step (mkTurnContext [] false [] None None [] None None None [] None) 0
              (match c with loop_done => take_done | _ => go end) pc s with
      | goes _ pc' s' => w_goes (set_loop (loop_emit pc' k) (set_sess s' w))
      | panics => w_panics
      | blocked => w_blocked
      end
  | loop_cancel_session, loop_go => w_goes (set_loop loop_close_queue (set_sess (cancel_session s) w))
  | loop_close_queue, loop_go => w_goes (set_loop loop_close_done (set_sess (close_queue s) w))
  | loop_close_done, loop_go => w_goes (mkWorld s (tasks w) loop_over (submissions w) (delivered w) true)
  | _, _ => w_blocked
  end.

(** One step of the goroutine of task [t]. *)
Definition task_step (t : nat) (i : turn_choice) (w : World) : world_outcome :=
  let s := sess w in
  match tasks w !! t with
  | None => w_blocked
  | Some (mkTask tc kind at_) =>
      let put (x : task_pc) (s' : Session) := w_goes (set_tasks (<[t := mkTask tc kind x]> (tasks w)) (set_sess s' w)) in
      let advance (wrap : turn_pc -> task_pc) (pc : turn_pc) :=
        match turn_step tc t i pc s with
        | goes _ pc' s' => put (wrap pc') s'
        | panics => w_panics
        | blocked => w_blocked
        end in
      match at_, i with
      | running (at_return last), go =>
          put (emitting (if cancelled t s then emitTurnAborted tc TurnAbortReasonInterrupted else emitTurnComplete tc last)) s
      | running pc, _ => advance running pc
      | emitting (at_return _), go => put clearing s
      | emitting pc, _ => advance emitting pc
      | clearing, go => put cancelling (clearActiveTurnIf t s)
      | cancelling, go => put over (cancel_task t s)
      | _, _ => w_blocked
      end
  end.

(** A tool of task [t], or the watcher of a command that one of its tools has
    started, sends an event. None of these changes the agent's status. *)
Definition tool_step (t : nat) (i : turn_choice) (m : EventMsg) (w : World) : world_outcome :=
  match tasks w !! t with
  | None => w_blocked
  | Some (mkTask tc _ at_) =>
      if match at_ with not_started _ => false | running _ => of_tools m | _ => of_watcher m end then
        match turn_step tc t i (at_effects [eff_send (mkEvent (SubID tc) m)] (at_return None)) (sess w) with
        | goes _ _ s' => w_goes (set_sess s' w)
        | panics => w_panics
        | blocked => w_blocked
        end
      else w_blocked
  end.

Definition world_step (c : world_choice) (w : World) : world_outcome :=
  match c with
  | submit sub =>
      if decide (length (submissions w) < SubmissionChannelCapacity) then w_goes (set_submissions (submissions w ++ [sub]) w) else w_blocked
  | consume =>
      match queue (sess w) with
      | ev :: rest => w_goes (mkWorld (set_queue rest (sess w)) (tasks w) (loop w) (submissions w) (delivered w ++ [ev]) (loopDone w))
      | [] => w_blocked
      end
  | cancel_parent => w_goes (set_sess (cancel_session (sess w)) w)
  | loop_moves c => loop_step c w
  | task_moves t i => task_step t i w
  | tool_sends t i m => tool_step t i m w
  end.

Fixpoint world_run (cs : list world_choice) (w : World) : world_outcome :=
  match cs with
  | [] => w_goes w
  | c :: cs => match world_step c w with w_goes w' => world_run cs w' | o => o end
  end.
End Machine.

(** A session after [Spawn]. *)
Definition Spawn (history : list ResponseItem) : World :=
  mkWorld (mkSession (RecordItems history NewSessionState) AgentStatusPendingInit [mkEvent [] SessionConfigured] false false ∅ None ∅)
    [] loop_select [] [] false.

(** All events that were enqueued, in order. *)
Definition sent (w : World) : list Event := delivered w ++ queue (sess w).
End SessionLoop.
