(* ===== verification/CoreSessionRuns.v ===== *)
(** * internal/core: what the submission loop keeps

    Theorems about the machine of [CoreSession.v], for every interleaving of the
    loop, the tasks, their tools and watchers, the consumer and the clients. *)

From stdpp Require Import base list gmap strings.
From S2P Require Import Prelude GoStrings ProtocolItems CoreState CoreTools CoreTurn CoreSession.

Module SessionRuns.
Import Items State Tools Turn SessionLoop.

(** ** The events of a submission *)

Definition is_start (m : EventMsg) : bool := match m with TurnStarted _ _ => true | _ => false end.
Definition is_terminal (m : EventMsg) : bool := match m with TurnComplete _ _ | TurnAborted _ _ => true | _ => false end.
Definition is_middle (m : EventMsg) : bool := negb (is_start m || is_terminal m).

(** Nothing was sent; a turn has started; something else came first; the turn
    has ended, with or without its start; out of order. *)
Inductive phase := fresh | started | loose | ended | ended_loose | bad.

Definition phase_step (p : phase) (m : EventMsg) : phase :=
  match p with
  | fresh => if is_start m then started else if is_terminal m then ended_loose else loose
  | started => if is_start m then bad else if is_terminal m then ended else started
  | loose => if is_start m then bad else if is_terminal m then ended_loose else loose
  | ended | ended_loose => if of_watcher m then p else bad
  | bad => bad
  end.

Definition phase_of (id : gostring) (evs : list Event) : phase :=
  fold_left (fun p ev => if decide (EventID ev = id) then phase_step p (Msg ev) else p) evs fresh.

Definition events_of (id : gostring) (evs : list Event) : list EventMsg :=
  omap (fun ev => if decide (EventID ev = id) then Some (Msg ev) else None) evs.

Definition lifecycle (ms : list EventMsg) : Prop :=
  exists start middle terminal late, ms = start ++ middle ++ terminal ++ late
    /\ Forall (fun m => is_start m = true) start /\ Forall (fun m => is_middle m = true) middle
    /\ Forall (fun m => is_terminal m = true) terminal /\ (length start <= 1)%nat /\ (length terminal <= 1)%nat
    /\ Forall (fun m => of_watcher m = true) late /\ (terminal = [] -> late = []).

Lemma phase_of_app id a b : phase_of id (a ++ b) =
  fold_left (fun p ev => if decide (EventID ev = id) then phase_step p (Msg ev) else p) b (phase_of id a).
Proof. apply fold_left_app. Qed.

Lemma phase_of_snoc id evs ev : phase_of id (evs ++ [ev]) =
  if decide (EventID ev = id) then phase_step (phase_of id evs) (Msg ev) else phase_of id evs.
Proof. by rewrite phase_of_app. Qed.

Lemma events_of_snoc id evs ev : events_of id (evs ++ [ev]) =
  events_of id evs ++ (if decide (EventID ev = id) then [Msg ev] else []).
Proof. unfold events_of. rewrite omap_app. cbn. by case_decide. Qed.

Lemma middle_cases m : (is_start m = true /\ is_terminal m = false /\ is_middle m = false)
  \/ (is_start m = false /\ is_terminal m = true /\ is_middle m = false)
  \/ (is_start m = false /\ is_terminal m = false /\ is_middle m = true).
Proof. destruct m; auto. Qed.

(** What the phase says about the events. *)
Lemma phase_events id evs :
  match phase_of id evs with
  | fresh => events_of id evs = []
  | started => exists s middle, events_of id evs = s :: middle /\ is_start s = true /\ Forall (fun m => is_middle m = true) middle
  | loose => Forall (fun m => is_middle m = true) (events_of id evs)
  | ended => exists s middle t late, events_of id evs = s :: middle ++ t :: late /\ is_start s = true
      /\ Forall (fun m => is_middle m = true) middle /\ is_terminal t = true /\ Forall (fun m => of_watcher m = true) late
  | ended_loose => exists middle t late, events_of id evs = middle ++ t :: late /\ Forall (fun m => is_middle m = true) middle
      /\ is_terminal t = true /\ Forall (fun m => of_watcher m = true) late
  | bad => True
  end.
Proof.
  induction evs as [|ev evs IH] using rev_ind; [done|]. rewrite phase_of_snoc, events_of_snoc.
  destruct (decide (EventID ev = id)); [|by rewrite app_nil_r].
  destruct (phase_of id evs) eqn:Ep; cbn [phase_step]; [| | | | |done].
  4: { destruct (of_watcher (Msg ev)) eqn:Ew; [|done]. destruct IH as (s & middle & t & late & -> & ? & ? & ? & Hl).
       exists s, middle, t, (late ++ [Msg ev]). split_and!; [by cbn; rewrite <- app_assoc|done..|].
       apply Forall_app. by split; [|constructor]. }
  4: { destruct (of_watcher (Msg ev)) eqn:Ew; [|done]. destruct IH as (middle & t & late & -> & ? & ? & Hl).
       exists middle, t, (late ++ [Msg ev]). split_and!; [by rewrite <- app_assoc|done..|]. apply Forall_app. by split; [|constructor]. }
  all: destruct (middle_cases (Msg ev)) as [(H1 & H2 & H3)|[(H1 & H2 & H3)|(H1 & H2 & H3)]]; rewrite ?H1, ?H2; try done.
  - rewrite IH. by exists (Msg ev), [].
  - rewrite IH. by exists [], (Msg ev), [].
  - rewrite IH. by constructor.
  - destruct IH as (s & middle & -> & Hs & Hm). by exists s, middle, (Msg ev), [].
  - destruct IH as (s & middle & -> & Hs & Hm). exists s, (middle ++ [Msg ev]). split_and!; [done|done|].
    apply Forall_app. by split; [|constructor].
  - by exists (events_of id evs), (Msg ev), [].
  - apply Forall_app. by split; [|constructor].
Qed.

Lemma phase_lifecycle id evs : phase_of id evs <> bad -> lifecycle (events_of id evs).
Proof.
  intros Hb. pose proof (phase_events id evs) as H. destruct (phase_of id evs); [| | | | |done].
  - rewrite H. exists [], [], [], []. split_and!; auto; cbn; lia.
  - destruct H as (s & middle & -> & H1 & H2). exists [s], middle, [], []. rewrite !app_nil_r. split_and!; auto; cbn; lia.
  - exists [], (events_of id evs), [], []. rewrite !app_nil_r. split_and!; auto; cbn; lia.
  - destruct H as (s & middle & t & late & -> & H1 & H2 & H3 & H4). exists [s], middle, [t], late. split_and!; auto; cbn; try lia; done.
  - destruct H as (middle & t & late & -> & H1 & H2 & H3). exists [], middle, [t], late. split_and!; auto; cbn; try lia; done.
Qed.

(** ** What a turn sends *)

(** The events still to be sent on the way. *)
Definition sends_of (es : list effect) : list Event := omap (fun e => match e with eff_send ev => Some ev | _ => None end) es.
Fixpoint pending (pc : turn_pc) : list Event :=
  match pc with
  | at_effects es k => sends_of es ++ pending k
  | _ => []
  end.

Definition sent_obs (os : list obs) : list Event := omap (fun o => match o with obs_send ev => Some ev | _ => None end) os.

Definition plain_event (tc : TurnContext) (ev : Event) : Prop := EventID ev = SubID tc /\ is_middle (Msg ev) = true.
Definition plain (tc : TurnContext) (pc : turn_pc) : Prop := Forall (plain_event tc) (pending pc).

(** The sequences of [send_all], at any point. *)
Definition emission (pc : turn_pc) : Prop :=
  match pc with
  | at_effects es k => k = at_return None /\ Forall (fun e => match e with eff_status _ | eff_send _ => True | _ => False end) es
  | at_return _ => True
  | _ => False
  end.

(** What only the loop and the ends of tasks change. *)
Definition same_control (s s' : Session) : Prop :=
  sessionCancelled s' = sessionCancelled s /\ taskCancelled s' = taskCancelled s /\ activeTurn s' = activeTurn s
  /\ queueClosed s' = queueClosed s.

Section Turn.
Context (xml_hook_prompt : gostring -> option (gostring * gostring)) (newItemID : gostring)
        (unmarshal_params : RawMessage -> gostring + SearchToolCallParams) (router : DefaultToolRouter).

#[local] Notation turn_step := (turn_step xml_hook_prompt newItemID unmarshal_params router).

Section OneTurn.
Context (tc : TurnContext).

#[local] Notation plain_es es := (Forall (plain_event tc) (sends_of es)).
#[local] Notation BuildToolCall := (BuildToolCall unmarshal_params).
#[local] Notation handleOutputItemDone := (handleOutputItemDone unmarshal_params tc).
#[local] Notation handleStreamEvent := (handleStreamEvent unmarshal_params tc).

Lemma sends_of_app a b : sends_of (a ++ b) = sends_of a ++ sends_of b.
Proof. apply omap_app. Qed.

Lemma sends_plain msgs : Forall (fun m => is_middle m = true) msgs -> plain_es (sends tc msgs).
Proof. induction 1 as [|m msgs Hm _ IH]; [constructor|]. by constructor. Qed.

Lemma emit_plain msgs k : Forall (fun m => is_middle m = true) msgs -> plain tc k -> plain tc (emit tc msgs k).
Proof. intros Hm Hk. apply Forall_app. split; [by apply sends_plain|done]. Qed.

Lemma item_done_plain item st es st' c : handleOutputItemDone item st = (es, st', c) -> plain_es es.
Proof.
  destruct item; cbn [Turn.handleOutputItemDone]; try (intros ?; simplify_eq; by constructor).
  - case_decide; intros ?; simplify_eq; [|constructor]. apply sends_plain, Forall_app. split; [|by repeat constructor].
    unfold emitAgentMessage. case_decide; by repeat constructor.
  - intros ?; simplify_eq. apply sends_plain, Forall_app. split; [|by repeat constructor]. unfold emitReasoning. apply Forall_app.
    split; case_decide; by repeat constructor.
  - destruct (BuildToolCall _) as [?|[?|]]; intros ?; simplify_eq; by constructor.
Qed.

Lemma stream_event_plain ev st es st' next : handleStreamEvent ev st = (es, st', next) -> plain_es es.
Proof.
  destruct ev as [|item|item| | |v|usage endTurn|d| |d i|d i|i|limits|]; cbn [Turn.handleStreamEvent]; try (intros ?; simplify_eq; by constructor).
  - destruct item as [item|]; [|intros ?; simplify_eq; constructor].
    destruct (handleOutputItemDone item st) as [[es0 st0] c] eqn:E. apply item_done_plain in E. destruct c; intros ?; by simplify_eq.
  - destruct item as [item|]; intros ?; simplify_eq; [|constructor]. apply sends_plain. unfold emitItemStarted.
    destruct (turnItemForStreamed item); by repeat constructor.
  - intros ?; simplify_eq. apply sends_plain. unfold emitAgentMessageDelta. destruct (activeItem st') as [x|]; [|constructor].
    case_decide; [constructor|]. destruct (is_message x); by repeat constructor.
  - intros ?; simplify_eq. apply sends_plain. unfold emitReasoningSummaryDelta. destruct (activeItem st'); [|constructor].
    case_decide; by repeat constructor.
  - intros ?; simplify_eq. apply sends_plain. unfold emitReasoningRawDelta. destruct (activeItem st'); [|constructor].
    case_decide; by repeat constructor.
  - intros ?; simplify_eq. apply sends_plain. unfold emitReasoningSectionBreak. destruct (activeItem st'); by repeat constructor.
  - destruct limits; intros ?; simplify_eq; constructor.
Qed.

Lemma effect_step_sends e s o es' s' : effect_step tc e s = (o, es', s') ->
  plain_es es' /\ queue s' = queue s /\ sent_obs o = [] /\ same_control s s'.
Proof.
  intros H. destruct e as [items|msg|ev|f|p|v|usage|new| |]; cbn [effect_step] in H; unfold TokenInfoAndRateLimits in H; simplify_eq;
    try (split_and!; [by repeat constructor|done..]).
  - unfold updateAgentStatusFromEvent. destruct (agentStatusFromEvent msg); split_and!; done || constructor.
  - unfold IncToolCalls. destruct (activeTurn s); split_and!; done || constructor.
Qed.

Lemma run_effect_sends e es k i s o pc' s' : run_effect tc e es k i s = goes o pc' s' ->
  plain_es (e :: es) -> plain tc k ->
  plain tc pc' /\ queue s' = queue s ++ sent_obs o /\ Forall (plain_event tc) (sent_obs o) /\ same_control s s'.
Proof.
  intros H Hes Hk. destruct e as [items|msg|ev|f|p|v|usage|new| |].
  3:{ apply Forall_cons in Hes as [Hev Hes]. assert (plain tc (at_effects es k)) as Hp by (by apply Forall_app).
      destruct i; cbn [run_effect] in H; try done.
      - destruct (queueClosed s); [done|]. case_decide; [|done]. simplify_eq. split_and!; [done|done|exact (Forall_cons_2 _ _ _ Hev (Forall_nil_2 _))|done].
      - destruct (sessionCancelled s); [|done]. simplify_eq. cbn. rewrite app_nil_r. split_and!; [done|done|constructor|done]. }
  all: destruct i; cbn [run_effect] in H; try done;
    match type of H with context [effect_step tc ?e ?x] => destruct (effect_step tc e x) as [[o0 es0] s0] eqn:E end;
    apply effect_step_sends in E as (H1 & H2 & H3 & H4); simplify_eq; rewrite H3, app_nil_r;
    (split_and!; [|done|constructor|done]); unfold plain; cbn [pending]; rewrite sends_of_app;
    apply Forall_app; (split; [by apply Forall_app|done]).
Qed.

Lemma sampling_failed_plain e last : plain tc (sampling_failed tc e last).
Proof. unfold sampling_failed. destruct (is_aborted e || is_canceled e); [constructor|]. apply emit_plain; by repeat constructor. Qed.

Lemma drain_failed_plain e history : plain tc (drain_failed tc e history).
Proof.
  unfold drain_failed. destruct (is_aborted e || is_canceled e); [constructor|]. destruct (is_overflow e && _); [constructor|].
  apply emit_plain; by repeat constructor.
Qed.

Lemma sampling_select_plain me last st i s o pc' s' : sampling_select unmarshal_params tc me last st i s = goes o pc' s' ->
  plain tc pc' /\ o = [] /\ s' = s.
Proof.
  destruct i as [| |ev| |err|r]; cbn [sampling_select]; try done; intros H.
  - destruct (cancelled me s); simplify_eq. by split_and!; [constructor| |].
  - destruct (handleStreamEvent ev st) as [[es st'] next] eqn:E. simplify_eq. split_and!; [|done..]. apply Forall_app.
    split; [by eapply stream_event_plain|]. destruct next; [constructor..|]. apply Forall_app. split; [|constructor].
    unfold completion_effects. destruct (toolOutputs st'), (shouldEmitTokens st'); constructor.
  - simplify_eq. split_and!; [apply sampling_failed_plain|done..].
Qed.

Lemma drain_select_plain me history i s o pc' s' : drain_select tc me history i s = goes o pc' s' ->
  plain tc pc' /\ o = [] /\ s' = s.
Proof.
  destruct i as [| |ev| |err|r]; cbn [drain_select]; try done; intros H.
  - destruct (cancelled me s); simplify_eq. by split_and!; [constructor| |].
  - destruct (handleCompactStreamEvent tc ev) as [es complete] eqn:E. simplify_eq. split_and!; [|done..]. apply Forall_app.
    split; [|by destruct complete; constructor].
    destruct ev as [|[]| | | | |[] ?|?| |? ?|? ?|?|[]|]; cbn [handleCompactStreamEvent] in E; simplify_eq; constructor.
  - simplify_eq. split_and!; [apply drain_failed_plain|done..].
Qed.

(** A step of a turn sends at most events of its own, neither first nor last
    ones, and leaves what the loop decides alone. *)
Lemma turn_step_sends me i pc s o pc' s' : turn_step tc me i pc s = goes o pc' s' -> plain tc pc ->
  plain tc pc' /\ queue s' = queue s ++ sent_obs o /\ Forall (plain_event tc) (sent_obs o) /\ same_control s s'.
Proof.
  intros H Hp. assert (forall pc0, plain tc pc0 -> plain tc pc0 /\ queue s = queue s ++ sent_obs [] /\
    Forall (plain_event tc) (sent_obs []) /\ same_control s s) as Hstay.
  { intros pc0 Hp0. rewrite app_nil_r. split_and!; [done|done|constructor|done]. }
  destruct pc as [[|e es] k| | | |h|h|h| | |last|last|last|last st|last st c|last st c|last st|last]; cbn [Turn.turn_step] in H.
  2:{ apply run_effect_sends in H; [done| |]; apply Forall_app in Hp as [H1 H2]; done. }
  13:{ apply sampling_select_plain in H as (H1 & -> & ->). by apply Hstay. }
  7:{ apply drain_select_plain in H as (H1 & -> & ->). by apply Hstay. }
  all: destruct i as [| | | |[err|]|r]; try done;
    repeat match type of H with context [match ?x with _ => _ end] => destruct x end; simplify_eq;
    first [apply Hstay; first [done|exact Hp|solve [repeat constructor]|apply sampling_failed_plain|apply drain_failed_plain
                              |by apply emit_plain; repeat constructor]
          |split_and!; [constructor|by rewrite app_nil_r|constructor|done]|idtac].
  apply Hstay. unfold after_sampling. destruct (needsFollowUp st); constructor.
Qed.
End OneTurn.

(** A step of a sequence of sends: it gets nearer, sends the next event, or
    drops it, which takes a cancelled session. *)
Lemma emission_step tc me i pc s o pc' s' : emission pc -> turn_step tc me i pc s = goes o pc' s' ->
  emission pc' /\ same_control s s'
  /\ ((pending pc' = pending pc /\ queue s' = queue s)
      \/ exists ev, pending pc = ev :: pending pc'
           /\ (queue s' = queue s ++ [ev] \/ (queue s' = queue s /\ sessionCancelled s = true))).
Proof.
  intros He H. destruct pc; cbn [emission] in He; try done. destruct He as [-> Hes].
  destruct es as [|e es]; cbn [Turn.turn_step] in H.
  - destruct i; simplify_eq. split_and!; [done..|]. by left.
  - apply Forall_cons in Hes as [He Hes]. destruct e; try done.
    + destruct i; cbn [run_effect effect_step] in H; try done. simplify_eq. split; [done|].
      unfold updateAgentStatusFromEvent. destruct (agentStatusFromEvent msg); (split; [done|]; by left).
    + destruct i; cbn [run_effect] in H; try done.
      * destruct (queueClosed s); [done|]. case_decide; [|done]. simplify_eq. split_and!; [done..|]. right. exists ev. auto.
      * destruct (sessionCancelled s) eqn:Ec; [|done]. simplify_eq. split_and!; [done..|]. right. exists ev. auto.
Qed.

Lemma send_all_emission id msgs : emission (send_all id msgs).
Proof. split; [done|]. induction msgs as [|m msgs IH]; [constructor|]. by repeat constructor. Qed.

Lemma send_all_pending id m : pending (send_all id [m]) = [mkEvent id m].
Proof. done. Qed.

(** ** The invariant of the events *)

#[local] Notation world_step := (world_step xml_hook_prompt newItemID unmarshal_params router).
#[local] Notation world_run := (world_run xml_hook_prompt newItemID unmarshal_params router).
#[local] Notation loop_step := (loop_step xml_hook_prompt newItemID unmarshal_params router).
#[local] Notation task_step := (task_step xml_hook_prompt newItemID unmarshal_params router).

Definition ph (w : World) (id : gostring) : phase := phase_of id (sent w).
Definition sc (w : World) : bool := sessionCancelled (sess w).

(** Between the first and the last event of a turn, and after the last.  Only a
    cancelled session drops events. *)
Definition in_turn (cancelled : bool) (p : phase) : Prop := p = started \/ (cancelled = true /\ (p = fresh \/ p = loose)).
Definition after_turn (cancelled : bool) (p : phase) : Prop := p = ended \/ (cancelled = true /\ p <> bad).

Definition task_ok (cancelled : bool) (p : phase) (task : RunningTask) : Prop :=
  let tc := task_context task in
  match task_at task with
  | not_started pc => plain tc pc /\ (p = fresh \/ p = started)
  | running pc => plain tc pc /\ in_turn cancelled p
  | emitting pc =>
      emission pc /\ ((exists ev, pending pc = [ev] /\ EventID ev = SubID tc /\ is_terminal (Msg ev) = true /\ in_turn cancelled p)
                      \/ (pending pc = [] /\ after_turn cancelled p))
  | clearing | cancelling | over => after_turn cancelled p
  end.

Definition purpose_id (p : purpose) : list gostring :=
  match p with to_interrupt => [] | to_shutdown id => [id] | to_spawn tc _ _ => [SubID tc] end.

(** The id under which the loop has still to send or to start something. *)
Definition loop_ids (l : loop_pc) : list gostring :=
  match l with
  | loop_read p | loop_cancel _ p => purpose_id p
  | loop_build id _ _ => [id]
  | loop_install tc _ _ => [SubID tc]
  | loop_emit pc (then_select | then_exit) => map EventID (pending pc)
  | _ => []
  end.

Definition loop_ok (w : World) : Prop :=
  match loop w with
  | loop_emit pc (then_start t) =>
      emission pc /\ exists tc kind pc0, tasks w !! t = Some (mkTask tc kind (not_started pc0))
        /\ ((exists ev, pending pc = [ev] /\ EventID ev = SubID tc /\ is_start (Msg ev) = true /\ ph w (SubID tc) = fresh)
            \/ (pending pc = [] /\ in_turn (sc w) (ph w (SubID tc))))
  | loop_emit pc _ => emission pc /\ (pending pc = [] \/ exists ev, pending pc = [ev] /\ is_middle (Msg ev) = true)
  | _ => True
  end.

Definition task_ids (ts : list RunningTask) : list gostring := map (fun task => SubID (task_context task)) ts.
Definition waiting_ids (w : World) : list gostring := loop_ids (loop w) ++ map sub_id (submissions w).
Definition ids (w : World) : list gostring := waiting_ids w ++ task_ids (tasks w).

Record inv (used : list gostring) (w : World) : Prop := {
  inv_distinct : NoDup (ids w);
  inv_used : forall id, id ∈ ids w -> id ∈ used;
  inv_unused : forall id, id ∉ used -> ph w id = fresh;
  inv_waiting : forall id, id ∈ waiting_ids w -> ph w id = fresh;
  inv_tasks : forall t task, tasks w !! t = Some task -> task_ok (sc w) (ph w (SubID (task_context task))) task;
  inv_loop : loop_ok w;
  inv_valid : forall id, ph w id <> bad;
}.


Lemma phase_of_others id0 id evs : Forall (fun ev => EventID ev = id0) evs -> id <> id0 -> forall l, phase_of id (l ++ evs) = phase_of id l.
Proof.
  induction 1 as [|ev evs Hev _ IH]; intros Hne l; [by rewrite app_nil_r|]. change (ev :: evs) with ([ev] ++ evs).
  rewrite app_assoc, IH, phase_of_snoc by done. rewrite decide_False by congruence. done.
Qed.

(** The phases that the other events of a turn keep. *)
Lemma phase_of_plain tc evs p : Forall (plain_event tc) evs -> p = started \/ p = loose -> forall l, phase_of (SubID tc) l = p ->
  phase_of (SubID tc) (l ++ evs) = p.
Proof.
  intros He Hp. induction He as [|ev evs [H1 H2] _ IH]; intros l Hl; [by rewrite app_nil_r|]. change (ev :: evs) with ([ev] ++ evs).
  rewrite app_assoc. apply IH. rewrite phase_of_snoc, decide_True by done. rewrite Hl.
  destruct (middle_cases (Msg ev)) as [(? & ? & H)|[(? & ? & H)|(H3 & H4 & _)]]; [congruence..|].
  destruct Hp as [-> | ->]; cbn [phase_step]; by rewrite H3, H4.
Qed.

(** A turn may lose its first event, when the session is cancelled. *)
Lemma in_turn_plain tc evs c l : Forall (plain_event tc) evs -> in_turn c (phase_of (SubID tc) l) ->
  in_turn c (phase_of (SubID tc) (l ++ evs)).
Proof.
  intros He [Ho|[Hc [Hf|Hf]]]; [left; apply (phase_of_plain tc evs); auto| |right; split; [done|right; apply (phase_of_plain tc evs); auto]].
  destruct evs as [|ev evs]; [right; rewrite app_nil_r; auto|]. right. split; [done|]. right.
  apply Forall_cons in He as [[H1 H2] He]. change (ev :: evs) with ([ev] ++ evs). rewrite app_assoc. apply (phase_of_plain tc evs); auto.
  rewrite phase_of_snoc, decide_True by done. rewrite Hf. cbn [phase_step].
  destruct (middle_cases (Msg ev)) as [(? & ? & H)|[(? & ? & H)|(-> & -> & _)]]; congruence.
Qed.

Lemma in_turn_mono (c c' : bool) p : (c = true -> c' = true) -> in_turn c p -> in_turn c' p.
Proof. intros Hm [H|[H1 H2]]; [by left|right; auto]. Qed.
Lemma after_turn_mono (c c' : bool) p : (c = true -> c' = true) -> after_turn c p -> after_turn c' p.
Proof. intros Hm [H|[H1 H2]]; [by left|right; auto]. Qed.

Lemma task_ok_mono (c c' : bool) p task : (c = true -> c' = true) -> task_ok c p task -> task_ok c' p task.
Proof.
  intros Hm. unfold task_ok. destruct (task_at task); try by apply after_turn_mono.
  - done.
  - intros [H1 H2]. split; [done|by eapply in_turn_mono].
  - intros [H1 [(ev & H2 & H3 & H4 & H5)|[H2 H3]]]; (split; [done|]).
    + left. exists ev. split_and!; [done..|by eapply in_turn_mono].
    + right. split; [done|by eapply after_turn_mono].
Qed.

Lemma in_turn_valid c p : in_turn c p -> p <> bad.
Proof. by intros [->|[_ [-> | ->]]]. Qed.

Lemma task_ok_valid c p task : task_ok c p task -> p <> bad.
Proof.
  assert (forall q, after_turn c q -> q <> bad) as Ha by (by intros q [->|[_ H]]).
  unfold task_ok. destruct (task_at task); try apply Ha.
  - by intros [_ [->| ->]].
  - intros [_ H]. by eapply in_turn_valid.
  - intros [_ [(ev & _ & _ & _ & H)|[_ H]]]; [by eapply in_turn_valid|by apply Ha].
Qed.

Lemma in_turn_end ev tc c l : EventID ev = SubID tc -> is_terminal (Msg ev) = true -> in_turn c (phase_of (SubID tc) l) ->
  after_turn c (phase_of (SubID tc) (l ++ [ev])).
Proof.
  intros H1 H2 H. rewrite phase_of_snoc, decide_True by done.
  destruct (middle_cases (Msg ev)) as [(? & H3 & _)|[(H3 & _ & _)|(_ & H3 & _)]]; [congruence| |congruence].
  destruct H as [->|[Hc [-> | ->]]]; cbn [phase_step]; rewrite H3, H2; [by left|by right..].
Qed.

(** A step that changes the phase of the touched ids only. *)
Lemma life_step used w w' (touched : list gostring) : inv used w ->
  (forall id, id ∉ touched -> ph w' id = ph w id) ->
  (forall id, id ∈ touched -> id ∈ used /\ id ∉ waiting_ids w' /\ ph w' id <> bad) ->
  ids w' ⊆+ ids w -> (forall id, id ∈ waiting_ids w' -> id ∈ waiting_ids w) ->
  (forall t task, tasks w' !! t = Some task -> task_ok (sc w') (ph w' (SubID (task_context task))) task) ->
  loop_ok w' -> inv used w'.
Proof.
  intros [H1 H2 H3 H4 H5 H6 H7] Hout Hin Hids Hw Ht Hl. constructor; try done.
  - apply submseteq_Permutation in Hids as [k Hk]. rewrite Hk in H1. by apply NoDup_app in H1 as (H1 & _).
  - intros id Hid. apply H2. by eapply elem_of_submseteq.
  - intros id Hid. destruct (decide (id ∈ touched)) as [Hd|Hd]; [by destruct (Hin _ Hd)|]. rewrite Hout by done. auto.
  - intros id Hid. destruct (decide (id ∈ touched)) as [Hd|Hd]; [by destruct (Hin _ Hd) as (_ & ? & _)|]. rewrite Hout by done. auto.
  - intros id. destruct (decide (id ∈ touched)) as [Hd|Hd]; [by destruct (Hin _ Hd) as (_ & _ & ?)|]. rewrite Hout by done. auto.
Qed.

Lemma task_id_in w t task : tasks w !! t = Some task -> SubID (task_context task) ∈ task_ids (tasks w).
Proof. intros H. exact (list_elem_of_fmap_2 (fun task => SubID (task_context task)) _ _ (list_elem_of_lookup_2 _ _ _ H)). Qed.

Lemma task_id_not_waiting used w t task : inv used w -> tasks w !! t = Some task -> SubID (task_context task) ∉ waiting_ids w.
Proof.
  intros Hi Ht Hw. pose proof (inv_distinct _ _ Hi) as Hd. apply NoDup_app in Hd as (_ & Hd & _).
  apply (Hd _ Hw). by eapply task_id_in.
Qed.

Lemma task_ids_distinct used w t t' a b : inv used w -> tasks w !! t = Some a -> tasks w !! t' = Some b ->
  SubID (task_context a) = SubID (task_context b) -> t = t'.
Proof.
  intros Hi Ha Hb Heq. pose proof (inv_distinct _ _ Hi) as Hd. apply NoDup_app in Hd as (_ & _ & Hd).
  apply (NoDup_lookup _ _ _ (SubID (task_context a)) Hd); unfold task_ids; rewrite list_lookup_fmap.
  - by rewrite Ha.
  - rewrite Hb. cbn. by rewrite Heq.
Qed.

Definition put_task (t : nat) (task : RunningTask) (s' : Session) (w : World) : World :=
  set_tasks (<[t := task]> (tasks w)) (set_sess s' w).

Lemma put_task_ids t task old s' w : tasks w !! t = Some old -> task_context task = task_context old ->
  ids (put_task t task s' w) = ids w /\ waiting_ids (put_task t task s' w) = waiting_ids w.
Proof.
  intros Ht Hc. split; [|done]. unfold ids. change (waiting_ids (put_task t task s' w)) with (waiting_ids w). f_equal.
  cbn [put_task set_tasks tasks set_sess]. unfold task_ids. rewrite list_fmap_insert, Hc. apply list_insert_id.
  by rewrite list_lookup_fmap, Ht.
Qed.

(** Task [t] moves and sends under its own id. *)
Lemma inv_put_task used w t tc kind at_ x s' evs : inv used w -> tasks w !! t = Some (mkTask tc kind at_) ->
  (forall pc, at_ <> not_started pc) -> queue s' = queue (sess w) ++ evs -> Forall (fun ev => EventID ev = SubID tc) evs ->
  (sc w = true -> sessionCancelled s' = true) ->
  task_ok (sessionCancelled s') (phase_of (SubID tc) (sent w ++ evs)) (mkTask tc kind x) ->
  inv used (put_task t (mkTask tc kind x) s' w).
Proof.
  intros Hi Ht Hns Hq He Hsc Hok. set (w' := put_task t (mkTask tc kind x) s' w).
  assert (forall id, ph w' id = phase_of id (sent w ++ evs)) as Hph.
  { intros id. unfold ph, sent. cbn [w' put_task set_tasks sess set_sess delivered]. by rewrite Hq, app_assoc. }
  destruct (put_task_ids t (mkTask tc kind x) _ s' w Ht eq_refl) as [Hids Hwait]. fold w' in Hids, Hwait.
  assert (forall id, id <> SubID tc -> ph w' id = ph w id) as Hout.
  { intros id Hne. rewrite Hph. by eapply phase_of_others. }
  apply (life_step used w w' [SubID tc]); [done| | | | | |].
  - intros id Hid. apply Hout. set_solver.
  - intros id Hid. apply list_elem_of_singleton in Hid as ->. split_and!.
    + apply (inv_used _ _ Hi). apply elem_of_app. right. by apply (task_id_in _ _ _ Ht).
    + rewrite Hwait. by apply (task_id_not_waiting _ _ _ _ Hi Ht).
    + rewrite Hph. by eapply task_ok_valid.
  - by rewrite Hids.
  - by rewrite Hwait.
  - intros t' task. cbn [w' put_task set_tasks tasks set_sess]. intros Ht'. destruct (decide (t' = t)) as [->|Hne].
    + rewrite list_lookup_insert_eq in Ht' by (by eapply lookup_lt_Some). injection Ht' as <-. rewrite Hph. exact Hok.
    + rewrite list_lookup_insert_ne in Ht' by done. eapply task_ok_mono; [exact Hsc|]. rewrite Hout; [by apply (inv_tasks _ _ Hi t')|].
      intros Heq. apply Hne. by apply (task_ids_distinct _ _ _ _ _ _ Hi Ht' Ht).
  - pose proof (inv_loop _ _ Hi) as Hl. unfold loop_ok in *. change (loop w') with (loop w).
    destruct (loop w) as [| | | | |pc [|t0|]| | | |]; try done. destruct Hl as (Hem & tc0 & kind0 & pc0 & Ht0 & Hp). split; [done|].
    assert (t0 <> t) as Hne by (intros ->; rewrite Ht in Ht0; injection Ht0 as <- <- ->; by eapply Hns).
    exists tc0, kind0, pc0. split; [cbn; by rewrite list_lookup_insert_ne|].
    assert (SubID tc0 <> SubID tc) as Hid by (intros Heq; apply Hne; by apply (task_ids_distinct _ _ _ _ _ _ Hi Ht0 Ht)).
    rewrite Hout by done. destruct Hp as [Hp|[Hp1 Hp2]]; [by left|]. right. split; [done|]. by eapply in_turn_mono.
Qed.

Lemma inv_put_silent used w t tc kind at_ x s' : inv used w -> tasks w !! t = Some (mkTask tc kind at_) ->
  (forall pc, at_ <> not_started pc) -> queue s' = queue (sess w) -> (sc w = true -> sessionCancelled s' = true) ->
  task_ok (sessionCancelled s') (ph w (SubID tc)) (mkTask tc kind x) -> inv used (put_task t (mkTask tc kind x) s' w).
Proof.
  intros Hi Ht Hns Hq Hsc Hok. eapply (inv_put_task _ _ _ _ _ _ _ _ []); try done.
  - by rewrite app_nil_r.
  - by rewrite app_nil_r.
Qed.

(** A watcher's event after the end of the turn. *)
Lemma after_turn_late ev tc c l : EventID ev = SubID tc -> of_watcher (Msg ev) = true -> after_turn c (phase_of (SubID tc) l) ->
  after_turn c (phase_of (SubID tc) (l ++ [ev])).
Proof.
  intros H1 H2 [H|[Hc H]]; rewrite phase_of_snoc, decide_True by done; [rewrite H; left; cbn; by rewrite H2|]. right. split; [done|].
  assert (is_start (Msg ev) = false /\ is_terminal (Msg ev) = false) as [Hs Ht] by (by destruct (Msg ev)).
  destruct (phase_of _ l); cbn [phase_step]; by rewrite ?Hs, ?Ht, ?H2.
Qed.

(** The events of tools and watchers keep what a started task has sent. *)
Lemma task_ok_tool ev c l task : EventID ev = SubID (task_context task) ->
  match task_at task with not_started _ => false | running _ => of_tools (Msg ev) | _ => of_watcher (Msg ev) end = true ->
  task_ok c (phase_of (SubID (task_context task)) l) task -> task_ok c (phase_of (SubID (task_context task)) (l ++ [ev])) task.
Proof.
  intros He Hm Hok. assert (Forall (plain_event (task_context task)) [ev]) as Hp.
  { constructor; [split; [done|]|constructor]. destruct (task_at task); try done; by destruct (Msg ev). }
  unfold task_ok in *. destruct (task_at task) as [pc|pc|pc| | |]; try done; try by apply after_turn_late.
  - destruct Hok. split; [done|by apply in_turn_plain].
  - destruct Hok as [? [(ev' & ? & ? & ? & Hin)|[? Ha]]]; (split; [done|]).
    + left. exists ev'. split_and!; [done..|by apply in_turn_plain].
    + right. split; [done|by apply after_turn_late].
Qed.

Lemma tool_step_cases t i m w w' : tool_step xml_hook_prompt newItemID unmarshal_params router t i m w = w_goes w' ->
  exists tc kind at_ s' evs, tasks w !! t = Some (mkTask tc kind at_) /\ w' = put_task t (mkTask tc kind at_) s' w
    /\ match at_ with not_started _ => false | running _ => of_tools m | _ => of_watcher m end = true
    /\ queue s' = queue (sess w) ++ evs /\ (evs = [] \/ evs = [mkEvent (SubID tc) m]) /\ same_control (sess w) s'.
Proof.
  unfold tool_step. destruct (tasks w !! t) as [[tc kind at_]|] eqn:Et; [|done].
  destruct (match at_ with not_started _ => false | running _ => of_tools m | _ => of_watcher m end) eqn:Em; [|done].
  destruct (turn_step tc t i _ (sess w)) as [| |o pc' s'] eqn:E; try done. intros [= <-].
  apply emission_step in E as (_ & Hc & Hmove); [|by repeat constructor]. exists tc, kind, at_, s'.
  assert (set_sess s' w = put_task t (mkTask tc kind at_) s' w) as Hw.
  { unfold put_task, set_tasks, set_sess. cbn. by rewrite list_insert_id. }
  destruct Hmove as [[_ Hq]|(ev & Hp & [Hq|[Hq _]])].
  - exists []. rewrite app_nil_r. split_and!; auto.
  - exists [ev]. cbn in Hp. injection Hp as <- _. split_and!; auto.
  - exists []. rewrite app_nil_r. split_and!; auto.
Qed.

Lemma inv_tool used t i m w w' : tool_step xml_hook_prompt newItemID unmarshal_params router t i m w = w_goes w' -> inv used w -> inv used w'.
Proof.
  intros H Hi. apply tool_step_cases in H as (tc & kind & at_ & s' & evs & Ht & -> & Hm & Hq & He & Hc & _).
  pose proof (inv_tasks _ _ Hi _ _ Ht) as Hok.
  eapply inv_put_task; [done|done| |done| | |].
  - by intros pc ->.
  - by destruct He as [-> | ->]; repeat constructor.
  - intros ?. by rewrite Hc.
  - rewrite Hc. destruct He as [-> | ->]; [by rewrite app_nil_r|].
    by apply (task_ok_tool (mkEvent (SubID tc) m) _ _ (mkTask tc kind at_)).
Qed.

(** The cases of a step of a task. *)
Lemma task_step_cases t i w w' : task_step t i w = w_goes w' ->
  exists tc kind at_ x s', tasks w !! t = Some (mkTask tc kind at_) /\ w' = put_task t (mkTask tc kind x) s' w
    /\ match at_ with
       | not_started _ | over => False
       | running pc =>
           (exists last, pc = at_return last /\ s' = sess w /\ x = emitting (if cancelled t (sess w) then emitTurnAborted tc TurnAbortReasonInterrupted
                                                                     else emitTurnComplete tc last))
           \/ exists o pc', turn_step tc t i pc (sess w) = goes o pc' s' /\ x = running pc'
       | emitting pc =>
           ((exists last, pc = at_return last) /\ s' = sess w /\ x = clearing)
           \/ exists o pc', turn_step tc t i pc (sess w) = goes o pc' s' /\ x = emitting pc'
       | clearing => s' = clearActiveTurnIf t (sess w) /\ x = cancelling
       | cancelling => s' = cancel_task t (sess w) /\ x = over
       end.
Proof.
  unfold CoreSession.SessionLoop.task_step. destruct (tasks w !! t) as [[tc kind at_]|] eqn:Et; [|done]. intros H.
  destruct at_ as [pc|pc|pc| | |]; try (by destruct i); try (destruct i; simplify_eq; by repeat eexists).
  all: destruct (turn_step tc t i pc (sess w)) as [| |o pc' s'] eqn:E; destruct pc; destruct i; simplify_eq;
    try (cbn [Turn.turn_step] in E; discriminate); try (by repeat eexists; left; repeat eexists); try (by repeat eexists; right; repeat eexists).
Qed.

Lemma inv_task used t i w w' : task_step t i w = w_goes w' -> inv used w -> inv used w'.
Proof.
  intros H Hi. apply task_step_cases in H as (tc & kind & at_ & x & s' & Ht & -> & H). pose proof (inv_tasks _ _ Hi _ _ Ht) as Hok.
  cbn [task_context] in Hok. fold (ph w (SubID tc)) in *. unfold task_ok in Hok. cbn [task_at task_context] in Hok.
  destruct at_ as [pc|pc|pc| | |]; try done.
  - destruct Hok as [Hp Hin]. destruct H as [(last & -> & -> & ->)|(o & pc' & H & ->)].
    + eapply inv_put_silent; try done. unfold task_ok. cbn [task_at task_context].
      split; [destruct (cancelled t (sess w)); apply send_all_emission|].
      left. destruct (cancelled t (sess w)); eexists; split_and!; try done; exact Hin.
    + apply turn_step_sends in H as (H1 & H2 & H3 & H4 & _); [|done]. eapply inv_put_task; try done.
      * eapply Forall_impl; [exact H3|]. by intros ev [He _].
      * intros Hc. by rewrite H4.
      * unfold task_ok. cbn [task_at task_context]. split; [done|]. rewrite H4. by apply in_turn_plain.
  - destruct Hok as [Hem Hok]. destruct H as [([last ->] & -> & ->)|(o & pc' & H & ->)].
    + destruct Hok as [(ev & Hev & _)|[_ Hok]]; [done|]. by eapply inv_put_silent.
    + apply emission_step in H as (H1 & (Hc & _) & H2); [|done].
      assert (sc w = true -> sessionCancelled s' = true) as Hsc by (intros ?; by rewrite Hc).
      destruct H2 as [[Hp Hq]|(ev & Hp & Hq)].
      * eapply inv_put_silent; try done. rewrite Hc. unfold task_ok. cbn [task_at task_context]. split; [done|]. by rewrite Hp.
      * destruct Hok as [(ev' & Hev & He1 & He2 & Hin)|[Hnil _]]; [|congruence]. rewrite Hp in Hev. injection Hev as -> Hnil.
        destruct Hq as [Hq|[Hq Hs]].
        -- eapply (inv_put_task _ _ _ _ _ _ _ _ [ev']); try done; [by repeat constructor|]. unfold task_ok. cbn [task_at task_context].
           split; [done|]. right. split; [done|]. rewrite Hc. by eapply in_turn_end.
        -- eapply inv_put_silent; try done. unfold task_ok. cbn [task_at task_context]. split; [done|]. right. split; [done|].
           right. rewrite Hc. split; [done|]. by eapply in_turn_valid.
  - destruct H as [-> ->]. eapply inv_put_silent; try done; unfold clearActiveTurnIf, sc; by case_decide.
  - destruct H as [-> ->]. by eapply inv_put_silent.
Qed.

(** The loop moves and sends nothing. *)
Lemma inv_silent used w w' : inv used w -> sent w' = sent w -> (sc w = true -> sc w' = true) -> tasks w' = tasks w ->
  ids w' ⊆+ ids w -> (forall id, id ∈ waiting_ids w' -> id ∈ waiting_ids w) -> loop_ok w' -> inv used w'.
Proof.
  intros Hi Hs Hc Ht Hids Hw Hl. assert (forall id, ph w' id = ph w id) as Hph by (intros id; unfold ph; by rewrite Hs).
  apply (life_step used w w' []); try done.
  - intros id H. by apply elem_of_nil in H.
  - intros t task H. rewrite Ht in H. rewrite Hph. eapply task_ok_mono; [exact Hc|]. by apply (inv_tasks _ _ Hi t).
Qed.

Lemma after_cancel_ids p : loop_ids (after_cancel p) = purpose_id p.
Proof. by destruct p. Qed.

Lemma task_function_plain tc kind items : plain tc (task_function kind items).
Proof. destruct kind; cbn; [|constructor..]. unfold plain, runTurn. cbn [pending]. destruct (turn_input_items _); constructor. Qed.

Lemma loop_pending w pc k : loop w = loop_emit pc k -> loop_ok w -> emission pc /\ (length (pending pc) <= 1)%nat.
Proof.
  unfold loop_ok. intros ->. destruct k; intros [He H]; (split; [done|]).
  - destruct H as [->|(ev & -> & _)]; cbn; lia.
  - destruct H as (tc & kind & pc0 & _ & [(ev & -> & _)|[-> _]]); cbn; lia.
  - destruct H as [->|(ev & -> & _)]; cbn; lia.
Qed.

(** The event that the loop is about to send: nothing was sent under its id, and
    no task runs under it. *)
Lemma loop_event_fresh used w pc k ev : inv used w -> loop w = loop_emit pc k -> pending pc = [ev] ->
  EventID ev ∈ used /\ ph w (EventID ev) = fresh /\ is_terminal (Msg ev) = false /\ EventID ev ∉ map sub_id (submissions w)
  /\ forall t task, tasks w !! t = Some task -> SubID (task_context task) = EventID ev -> is_start (Msg ev) = true /\ exists pc0, task_at task = not_started pc0.
Proof.
  intros Hi Hloop Hp. pose proof (inv_loop _ _ Hi) as Hl. unfold loop_ok in Hl. rewrite Hloop, Hp in Hl.
  assert (k = then_select \/ k = then_exit -> EventID ev ∈ waiting_ids w /\ EventID ev ∉ map sub_id (submissions w)) as Hwait.
  { intros Hk. pose proof (inv_distinct _ _ Hi) as Hd. unfold ids, waiting_ids in *. rewrite Hloop in *. cbn [loop_ids] in *.
    rewrite Hp in *. assert (match k with then_select | then_exit => map EventID [ev] | then_start _ => [] end = [EventID ev]) as Hids
      by (by destruct Hk as [-> | ->]).
    rewrite Hids in *. split; [set_solver|]. apply NoDup_app in Hd as (Hd & _ & _). by apply NoDup_cons in Hd as [Hd _]. }
  assert (k = then_select \/ k = then_exit -> is_middle (Msg ev) = true -> EventID ev ∈ used /\ ph w (EventID ev) = fresh
    /\ is_terminal (Msg ev) = false /\ EventID ev ∉ map sub_id (submissions w) /\ forall t task, tasks w !! t = Some task ->
       SubID (task_context task) = EventID ev -> is_start (Msg ev) = true /\ exists pc0, task_at task = not_started pc0) as Hplain.
  { intros Hk Hm. destruct (Hwait Hk) as [H1 H2]. split_and!; [|by apply (inv_waiting _ _ Hi)| |done|].
    - apply (inv_used _ _ Hi). apply elem_of_app. by left.
    - destruct (middle_cases (Msg ev)) as [(? & ? & H)|[(? & ? & H)|(_ & H & _)]]; congruence.
    - intros t task Ht He. destruct (task_id_not_waiting _ _ _ _ Hi Ht). by rewrite He. }
  destruct k as [|t|]; destruct Hl as [_ Hl].
  - destruct Hl as [?|(ev' & H1 & H2)]; [done|]. injection H1 as <-. apply Hplain; auto.
  - destruct Hl as (tc & kind & pc0 & Ht & [(ev' & H1 & H2 & H3 & H4)|[? _]]); [|done]. injection H1 as <-. rewrite H2.
    split_and!; [|done| | |].
    + apply (inv_used _ _ Hi). apply elem_of_app. right. by apply (task_id_in _ _ _ Ht).
    + destruct (middle_cases (Msg ev)) as [(_ & H & _)|[(? & ? & ?)|(_ & H & _)]]; congruence.
    + intros Hin. apply (task_id_not_waiting _ _ _ _ Hi Ht). cbn. apply elem_of_app. by right.
    + intros t' task Ht' He. rewrite (task_ids_distinct _ _ _ _ _ _ Hi Ht' Ht He) in Ht'. rewrite Ht in Ht'. injection Ht' as <-.
      split; [done|by exists pc0].
  - destruct Hl as [?|(ev' & H1 & H2)]; [done|]. injection H1 as <-. apply Hplain; auto.
Qed.

Lemma loop_ids_emitted pc k : pending pc = [] -> loop_ids (loop_emit pc k) = [].
Proof. intros Hp. cbn [loop_ids]. rewrite Hp. by destruct k. Qed.

Lemma emitted_submseteq w w' pc' k : loop w' = loop_emit pc' k -> pending pc' = [] -> tasks w' = tasks w ->
  submissions w' = submissions w ->
  ids w' ⊆+ ids w /\ (forall id, id ∈ waiting_ids w' -> id ∈ waiting_ids w) /\ waiting_ids w' = map sub_id (submissions w).
Proof.
  intros Hl Hp Ht Hs. unfold ids, waiting_ids. rewrite Hl, loop_ids_emitted, Ht, Hs by done. cbn [app]. split_and!; [|set_solver|done].
  rewrite <- app_assoc. by apply submseteq_inserts_l.
Qed.

Lemma inv_loop_sent used w w' pc pc' k ev : inv used w -> loop w = loop_emit pc k -> loop w' = loop_emit pc' k ->
  pending pc = [ev] -> pending pc' = [] -> emission pc' -> sent w' = sent w ++ [ev] -> sc w' = sc w -> tasks w' = tasks w ->
  submissions w' = submissions w -> inv used w'.
Proof.
  intros Hi Hloop Hloop' Hp Hp' Hem Hs Hc Ht Hsub.
  destruct (loop_event_fresh _ _ _ _ _ Hi Hloop Hp) as (Hused & Hf & Hterm & Hnot & Htasks).
  destruct (emitted_submseteq w w' pc' k Hloop' Hp' Ht Hsub) as (Hids & Hwait & Hw).
  assert (forall id, id <> EventID ev -> ph w' id = ph w id) as Hout.
  { intros id Hne. unfold ph. rewrite Hs, phase_of_snoc. by rewrite decide_False. }
  assert (ph w' (EventID ev) = if is_start (Msg ev) then started else loose) as Hopen.
  { unfold ph in *. rewrite Hs, phase_of_snoc, decide_True, Hf by done. cbn [phase_step]. by rewrite Hterm. }
  apply (life_step used w w' [EventID ev]); try done.
  - intros id Hid. apply Hout. set_solver.
  - intros id Hid. apply list_elem_of_singleton in Hid as ->. rewrite Hw, Hopen. split_and!; [done..|]. by destruct (is_start (Msg ev)).
  - intros t task Htask. rewrite Ht in Htask. rewrite Hc. pose proof (inv_tasks _ _ Hi _ _ Htask) as Hok.
    destruct (decide (SubID (task_context task) = EventID ev)) as [He|Hne]; [|by rewrite Hout].
    destruct (Htasks _ _ Htask He) as [Hst [pc0 Hat]]. unfold task_ok in *. rewrite Hat in *. rewrite He, Hopen, Hst.
    split; [apply Hok|by right].
  - pose proof (inv_loop _ _ Hi) as Hl. unfold loop_ok in *. rewrite Hloop in Hl. rewrite Hloop', Hp'. destruct k as [|t|]; [by auto| |by auto].
    split; [done|]. destruct Hl as [_ (tc & kind & pc0 & Hl & H)]. exists tc, kind, pc0. rewrite Ht. split; [done|]. right. split; [done|].
    left. destruct H as [(ev' & H1 & H2 & H3 & _)|[H1 _]]; [|congruence]. rewrite Hp in H1. injection H1 as <-. by rewrite <- H2, Hopen, H3.
Qed.

(** The sends of the loop. *)
Lemma inv_loop_emit used i w pc k o pc' s' : inv used w -> loop w = loop_emit pc k ->
  turn_step (mkTurnContext [] false [] None None [] None None None [] None) 0 i pc (sess w) = goes o pc' s' ->
  inv used (set_loop (loop_emit pc' k) (set_sess s' w)).
Proof.
  intros Hi Hloop H. set (w' := set_loop (loop_emit pc' k) (set_sess s' w)).
  destruct (loop_pending w pc k Hloop (inv_loop _ _ Hi)) as [Hem Hlen].
  apply emission_step in H as (Hem' & (Hc & _) & Hmove); [|done].
  pose proof (inv_loop _ _ Hi) as Hl. unfold loop_ok in Hl. rewrite Hloop in Hl.
  destruct Hmove as [[Hp Hq]|(ev & Hp & Hmove)].
  { assert (sent w' = sent w) as Hs by (unfold sent; cbn; by rewrite Hq).
    assert (loop_ids (loop w') = loop_ids (loop w)) as Hid by (rewrite Hloop; cbn; destruct k; by rewrite ?Hp).
    apply (inv_silent used w); try done; [intros ?; by change (sc w') with (sessionCancelled s'); rewrite Hc|..].
    - unfold ids, waiting_ids. by rewrite Hid.
    - unfold waiting_ids. by rewrite Hid.
    - unfold loop_ok. cbn [w' loop set_loop]. unfold ph. rewrite Hs, Hp. change (sc w') with (sessionCancelled s'). rewrite Hc.
      destruct k; (split; [done|]); by destruct Hl. }
  assert (pending pc' = []) as Hnil by (rewrite Hp in Hlen; cbn in Hlen; destruct (pending pc'); [done|cbn in Hlen; lia]).
  rewrite Hnil in Hp. destruct Hmove as [Hq|[Hq Hs1]].
  - apply (inv_loop_sent used w w' pc pc' k ev); try done. unfold sent. cbn. by rewrite Hq, app_assoc.
  - assert (sent w' = sent w) as Hs by (unfold sent; cbn; by rewrite Hq).
    destruct (emitted_submseteq w w' pc' k eq_refl Hnil eq_refl eq_refl) as (Hids & Hwait & _).
    apply (inv_silent used w); try done; [intros ?; by change (sc w') with (sessionCancelled s'); rewrite Hc|].
    unfold loop_ok. cbn [w' loop set_loop]. rewrite Hnil. destruct k as [|t|]; [by auto| |by auto].
    destruct Hl as [_ (tc & kind & pc0 & Hl & H)]. split; [done|]. exists tc, kind, pc0. split; [done|]. right. split; [done|]. right.
    change (sc w') with (sessionCancelled s'). rewrite Hc. split; [done|]. unfold ph. rewrite Hs.
    destruct H as [(ev' & H1 & _ & _ & H2)|[H1 _]]; [by left|congruence].
Qed.

Lemma inv_install used w tc kind items : inv used w -> loop w = loop_install tc kind items ->
  let t := length (tasks w) in
  inv used (set_loop (loop_emit (emitTurnStarted tc) (then_start t))
    (set_tasks (tasks w ++ [mkTask tc kind (not_started (task_function kind items))]) (set_sess (set_active (Some t) (sess w)) w))).
Proof.
  intros Hi Hloop t. match goal with |- inv _ ?x => set (w' := x) end.
  assert (ph w (SubID tc) = fresh) as Hf.
  { apply (inv_waiting _ _ Hi). unfold waiting_ids. rewrite Hloop. apply elem_of_app. left. by apply list_elem_of_singleton. }
  apply (life_step used w w' []); try done.
  - intros id H. by apply elem_of_nil in H.
  - unfold ids, waiting_ids. rewrite Hloop. cbn [loop_ids w' loop set_loop set_tasks tasks submissions app]. unfold task_ids.
    rewrite map_app. cbn [map task_context]. apply Permutation_submseteq. rewrite (Permutation_app_comm (map _ (tasks w))). cbn [app].
    by rewrite <- Permutation_middle.
  - intros id Hid. unfold waiting_ids in *. rewrite Hloop. cbn [w' loop set_loop set_tasks loop_ids submissions app] in *. set_solver.
  - intros t' task Ht. cbn [w' tasks set_loop set_tasks] in Ht. apply lookup_app_Some in Ht as [Ht|[Hge Ht]]; [by apply (inv_tasks _ _ Hi t')|].
    destruct (t' - length (tasks w))%nat; [|done]. injection Ht as <-. split; [apply task_function_plain|]. by left.
  - split; [apply send_all_emission|]. exists tc, kind, (task_function kind items). split.
    + cbn [w' tasks set_loop set_tasks]. by rewrite lookup_app_r, Nat.sub_diag by lia.
    + left. eexists. split_and!; [done..|exact Hf].
Qed.

Lemma inv_start used w pc last t : inv used w -> loop w = loop_emit pc (then_start t) -> pc = at_return last ->
  inv used (set_loop loop_select (set_tasks (start_task t (tasks w)) w)).
Proof.
  intros Hi Hloop ->. pose proof (inv_loop _ _ Hi) as Hl. unfold loop_ok in Hl. rewrite Hloop in Hl.
  destruct Hl as [_ (tc & kind & pc0 & Ht & [(ev & ? & _)|[_ Hin]])]; [done|]. unfold start_task. rewrite Ht.
  set (w1 := set_loop loop_select w). assert (ids w1 = ids w) as Hids by (unfold ids, waiting_ids; by rewrite Hloop).
  assert (inv used w1) as Hi1.
  { apply (inv_silent used w); try done; [by rewrite Hids|]. unfold waiting_ids. by rewrite Hloop. }
  change (set_loop loop_select (set_tasks (<[t:=mkTask tc kind (running pc0)]> (tasks w)) w))
    with (put_task t (mkTask tc kind (running pc0)) (sess w) w1).
  destruct (put_task_ids t (mkTask tc kind (running pc0)) _ (sess w) w1 Ht eq_refl) as [H1 H2].
  apply (life_step used w1 _ []); try done.
  - intros id H. by apply elem_of_nil in H.
  - by rewrite H1.
  - intros t' task Ht'. cbn [put_task set_tasks tasks set_sess] in Ht'. destruct (decide (t' = t)) as [->|Hne].
    + rewrite list_lookup_insert_eq in Ht' by (by eapply lookup_lt_Some). injection Ht' as <-.
      pose proof (inv_tasks _ _ Hi _ _ Ht) as [Hp _]. by split.
    + rewrite list_lookup_insert_ne in Ht' by done. by apply (inv_tasks _ _ Hi1 t').
Qed.

(** Steps of the loop that neither send nor touch a task. *)
Lemma inv_loop_moves used w w' : inv used w -> sent w' = sent w -> (sc w = true -> sc w' = true) -> tasks w' = tasks w ->
  loop_ids (loop w') ++ map sub_id (submissions w') ⊆+ loop_ids (loop w) ++ map sub_id (submissions w) -> loop_ok w' -> inv used w'.
Proof.
  intros Hi Hs Hc Ht Hids Hl. apply (inv_silent used w); try done.
  - unfold ids, waiting_ids. rewrite Ht. by apply submseteq_app.
  - intros id Hid. by eapply elem_of_submseteq.
Qed.

Lemma send_all_ok w id m k : (forall t, k <> then_start t) -> is_middle m = true -> loop w = loop_emit (send_all id [m]) k -> loop_ok w.
Proof.
  intros Hk Hm Hloop. unfold loop_ok. rewrite Hloop. destruct k as [|t|]; [|by destruct (Hk t)|];
    (split; [apply send_all_emission|right; by exists (mkEvent id m)]).
Qed.

Lemma inv_loop_step used c w w' : loop_step c w = w_goes w' -> inv used w -> inv used w'.
Proof.
  intros H Hi. unfold CoreSession.SessionLoop.loop_step in H. destruct (loop w) as [|p|prev p|id kind items|tc kind items|pc k| | | |] eqn:Hloop.
  - destruct c; try done.
    + destruct (submissions w) as [|sub rest] eqn:Es; [done|]. simplify_eq. apply (inv_loop_moves used w); try done.
      * rewrite Hloop, Es. cbn [loop_ids set_submissions set_loop loop submissions app map]. unfold dispatch_op.
        destruct sub as [id op]; destruct op; cbn [loop_ids purpose_id sub_op sub_id pending send_all map app];
          try reflexivity; by apply submseteq_cons.
      * unfold loop_ok. cbn [loop set_submissions set_loop dispatch_op]. unfold dispatch_op. destruct (sub_op sub); try done.
        split; [apply send_all_emission|]. right. by eexists.
    + destruct (sessionCancelled (sess w)); simplify_eq. apply (inv_loop_moves used w); try done. by rewrite Hloop.
  - destruct c; simplify_eq. destruct (activeTurn (sess w)) as [prev|]; apply (inv_loop_moves used w); try done; try by rewrite Hloop.
    + rewrite Hloop. cbn [set_loop loop submissions]. by rewrite after_cancel_ids.
    + destruct p; try done. eapply send_all_ok; [| |reflexivity]; done.
  - destruct c; simplify_eq. apply (inv_loop_moves used w); try done; [|destruct p; try done; eapply send_all_ok; [| |reflexivity]; done].
    rewrite Hloop. cbn [set_loop set_sess loop submissions]. by rewrite after_cancel_ids.
  - destruct c as [| | |[err|tc]]; simplify_eq; apply (inv_loop_moves used w); try done; try by rewrite Hloop. eapply send_all_ok; [| |reflexivity]; done.
  - destruct c; simplify_eq. by apply inv_install.
  - assert (forall i, match turn_step (mkTurnContext [] false [] None None [] None None None [] None) 0 i pc (sess w) with
        | goes _ pc' s' => w_goes (set_loop (loop_emit pc' k) (set_sess s' w)) | panics => w_panics | blocked => w_blocked end = w_goes w' ->
        inv used w') as Hemit.
    { intros i Hw. destruct (turn_step _ 0 i pc (sess w)) as [| |o pc' s'] eqn:E; simplify_eq. by eapply inv_loop_emit. }
    destruct pc, c; try discriminate H; try (by apply (Hemit go), H); try (by apply (Hemit take_done), H).
    destruct k as [|t|]; simplify_eq.
    + apply (inv_loop_moves used w); try done. rewrite Hloop. apply submseteq_inserts_l. done.
    + by eapply inv_start.
    + apply (inv_loop_moves used w); try done. rewrite Hloop. apply submseteq_inserts_l. done.
  - destruct c; simplify_eq. apply (inv_loop_moves used w); try done. by rewrite Hloop.
  - destruct c; simplify_eq. apply (inv_loop_moves used w); try done. by rewrite Hloop.
  - destruct c; simplify_eq. apply (inv_loop_moves used w); try done. by rewrite Hloop.
  - by destruct c.
Qed.

Definition submitted (cs : list world_choice) : list gostring :=
  omap (fun c => match c with submit sub => Some (sub_id sub) | _ => None end) cs.

Lemma inv_submit used sub w : inv used w -> sub_id sub ∉ used ->
  inv (sub_id sub :: used) (set_submissions (submissions w ++ [sub]) w).
Proof.
  intros Hi Hnew. set (w' := set_submissions (submissions w ++ [sub]) w).
  assert (waiting_ids w' = waiting_ids w ++ [sub_id sub]) as Hw.
  { unfold waiting_ids. cbn [w' set_submissions loop submissions]. by rewrite map_app, app_assoc. }
  assert (ids w' ≡ₚ sub_id sub :: ids w) as Hids.
  { unfold ids. rewrite Hw. change (tasks w') with (tasks w). rewrite <- app_assoc. cbn [app]. by rewrite <- Permutation_middle. }
  destruct Hi as [H1 H2 H3 H4 H5 H6 H7]. constructor; try done.
  - rewrite Hids. apply NoDup_cons. split; [|done]. intros Hin. by apply Hnew, H2.
  - intros id Hid. rewrite Hids in Hid. apply elem_of_cons in Hid as [->|Hid]; [by left|right; auto].
  - intros id Hid. apply H3. set_solver.
  - intros id Hid. rewrite Hw in Hid. apply elem_of_app in Hid as [Hid|Hid]; [by apply H4|].
    apply list_elem_of_singleton in Hid as ->. by apply H3.
Qed.

Lemma loop_ok_same w w' : sent w' = sent w -> loop w' = loop w -> tasks w' = tasks w -> (sc w = true -> sc w' = true) ->
  loop_ok w -> loop_ok w'.
Proof.
  intros Hs Hl Ht Hc. unfold loop_ok, ph. rewrite Hs, Hl, Ht. destruct (loop w) as [| | | | |pc [|t|]| | | |]; try done.
  intros [He (tc & kind & pc0 & H1 & H2)]. split; [done|]. exists tc, kind, pc0. split; [done|].
  destruct H2 as [H2|[H2 H3]]; [by left|]. right. split; [done|]. by eapply in_turn_mono.
Qed.

Lemma inv_world c used w w' : world_step c w = w_goes w' -> inv used w -> (forall id, id ∈ submitted [c] -> id ∉ used) ->
  inv (submitted [c] ++ used) w'.
Proof.
  intros H Hi Hnew. destruct c as [sub| | |c|t i|t i m]; cbn [CoreSession.SessionLoop.world_step] in H.
  - case_decide; simplify_eq. apply inv_submit; [done|]. apply Hnew. by left.
  - destruct (queue (sess w)) as [|ev rest] eqn:Eq; simplify_eq. assert (delivered w ++ [ev] ++ rest = delivered w ++ queue (sess w)) as Hs by (by rewrite Eq).
    rewrite app_assoc in Hs. apply (inv_silent used w); try done. apply (loop_ok_same w); try done. by eapply inv_loop.
  - simplify_eq. apply (inv_silent used w); try done. apply (loop_ok_same w); try done. by eapply inv_loop.
  - by eapply inv_loop_step.
  - by eapply inv_task.
  - by eapply inv_tool.
Qed.

Lemma life_run cs : forall used w w', world_run cs w = w_goes w' -> inv used w -> NoDup (submitted cs) ->
  (forall id, id ∈ submitted cs -> id ∉ used) -> exists used', inv used' w'.
Proof.
  induction cs as [|c cs IH]; intros used w w' H Hi Hnd Hnew; cbn [SessionLoop.world_run] in H; [simplify_eq; by exists used|].
  destruct (world_step c w) as [| |w1] eqn:E; try done.
  assert (submitted (c :: cs) = submitted [c] ++ submitted cs) as Hs by (by destruct c).
  rewrite Hs in *. apply NoDup_app in Hnd as (_ & Hd & Hnd).
  apply (IH (submitted [c] ++ used) w1); [done| |done|].
  - eapply inv_world; [done|done|]. intros id Hid. apply Hnew, elem_of_app. by left.
  - intros id Hid Hin. apply elem_of_app in Hin as [Hin|Hin]; [by apply (Hd id)|].
    apply (Hnew id); [apply elem_of_app; by right|done].
Qed.

Lemma life_spawn history : inv [[]] (Spawn history).
Proof.
  assert (forall id, ph (Spawn history) id = if decide ([] = id) then loose else fresh) as Hph by (intros id; unfold ph, phase_of, sent; cbn; by case_decide).
  constructor; [constructor|intros id Hid; by apply elem_of_nil in Hid| |intros id Hid; by apply elem_of_nil in Hid|done|done|].
  - intros id Hid. rewrite Hph, decide_False; [done|]. intros <-. apply Hid. by left.
  - intros id. rewrite Hph. by case_decide.
Qed.


(** ** One task at a time *)

Definition finished (task : RunningTask) : Prop := match task_at task with cancelling | over => True | _ => False end.

(** A task that goes on: it is not cancelled and still holds its slot. *)
Definition live (w : World) (t : nat) : Prop :=
  exists task, tasks w !! t = Some task /\ ~ finished task /\ cancelled t (sess w) = false.

Definition slot_ok (w : World) : Prop :=
  match loop w with
  | loop_install _ _ _ => forall t, ~ live w t
  | loop_cancel prev _ => forall t, live w t -> t = prev
  | _ => forall t, live w t -> activeTurn (sess w) = Some t
  end.

(** The points of the loop where the slot counts. *)
Definition settled (l : loop_pc) : Prop := match l with loop_install _ _ _ | loop_cancel _ _ => False | _ => True end.

Lemma slot_elim w : settled (loop w) -> slot_ok w -> forall t, live w t -> activeTurn (sess w) = Some t.
Proof. unfold slot_ok. by destruct (loop w). Qed.
Lemma slot_intro w : settled (loop w) -> (forall t, live w t -> activeTurn (sess w) = Some t) -> slot_ok w.
Proof. unfold slot_ok. by destruct (loop w). Qed.

Lemma slot_none w : (forall t, ~ live w t) -> slot_ok w.
Proof. intros H. unfold slot_ok. destruct (loop w); try (intros t Ht; by apply H in Ht). Qed.

(** Moves that make no task live and keep the slot of the live ones. *)
Lemma slot_mono w w' : (forall t, live w' t -> live w t) -> loop w' = loop w ->
  (forall t, live w' t -> activeTurn (sess w) = Some t -> activeTurn (sess w') = Some t) -> slot_ok w -> slot_ok w'.
Proof.
  intros Hl Hloop Ha. unfold slot_ok. rewrite Hloop. destruct (loop w); try (intros H t Ht; apply Ha; [done|]; by apply H, Hl).
  - intros H t Ht. by apply H, Hl.
  - intros H t Ht. by apply (H t), Hl.
Qed.

Lemma live_same w w' : tasks w' = tasks w -> (forall t, cancelled t (sess w') = false -> cancelled t (sess w) = false) ->
  forall t, live w' t -> live w t.
Proof. intros Ht Hc t (task & H1 & H2 & H3). exists task. rewrite Ht in H1. auto. Qed.

Lemma same_control_cancelled t s s' : same_control s s' -> cancelled t s' = cancelled t s.
Proof. intros (H1 & H2 & _). unfold cancelled. by rewrite H1, H2. Qed.

Lemma live_put w t tc kind at_ x s' t' : tasks w !! t = Some (mkTask tc kind at_) ->
  (finished (mkTask tc kind at_) -> finished (mkTask tc kind x)) -> (forall n, cancelled n s' = false -> cancelled n (sess w) = false) ->
  live (put_task t (mkTask tc kind x) s' w) t' -> live w t'.
Proof.
  intros Ht Hf Hc (task & H1 & H2 & H3). apply Hc in H3. cbn [put_task set_tasks tasks set_sess] in H1.
  destruct (decide (t' = t)) as [->|Hne].
  - rewrite list_lookup_insert_eq in H1 by (by eapply lookup_lt_Some). injection H1 as <-. exists (mkTask tc kind at_).
    split_and!; [done| |done]. intros Hfin. by apply H2, Hf.
  - rewrite list_lookup_insert_ne in H1 by done. by exists task.
Qed.

Lemma cancel_task_cancelled t n s : cancelled n (cancel_task t s) = cancelled n s || bool_decide (n = t).
Proof.
  unfold cancelled, cancel_task. cbn [sessionCancelled taskCancelled]. rewrite <- orb_assoc. f_equal.
  apply eq_iff_eq_true. rewrite orb_true_iff, !bool_decide_eq_true. set_solver.
Qed.

Lemma run_effect_control tc e es k i s o pc' s' : run_effect tc e es k i s = goes o pc' s' -> same_control s s'.
Proof.
  pose proof (effect_step_sends tc e s) as He. destruct (effect_step tc e s) as [[o0 es0] s0] eqn:E.
  destruct (He _ _ _ eq_refl) as (_ & _ & _ & Hc). destruct e, i; cbn [run_effect]; rewrite ?E; intros H; simplify_eq; try done.
  - destruct (queueClosed s); [done|]. case_decide; by simplify_eq.
  - destruct (sessionCancelled s); by simplify_eq.
Qed.

Lemma turn_step_control tc me i pc s o pc' s' : turn_step tc me i pc s = goes o pc' s' -> same_control s s'.
Proof.
  intros H. destruct pc as [[|e es] k| | | |h|h|h| | |last|last|last|last st|last st c|last st c|last st|last]; cbn [Turn.turn_step] in H.
  2:{ by eapply run_effect_control. }
  all: destruct i as [| |ev| |[err|]|r]; unfold drain_select, sampling_select in H; try discriminate;
    repeat match type of H with context [match ?x with _ => _ end] => destruct x end; by simplify_eq.
Qed.

Lemma slot_task t i w w' : task_step t i w = w_goes w' -> slot_ok w -> slot_ok w'.
Proof.
  intros H Hs. apply task_step_cases in H as (tc & kind & at_ & x & s' & Ht & -> & H).
  assert (forall t', live (put_task t (mkTask tc kind x) s' w) t' -> same_control (sess w) s' -> ~ finished (mkTask tc kind at_) -> live w t') as Hmono.
  { intros t' Hl Hc Hf. apply (live_put w t tc kind at_ x s' t'); [done|by intros ?| |done]. intros n Hn. by rewrite <- (same_control_cancelled n _ _ Hc). }
  assert (same_control (sess w) s' -> ~ finished (mkTask tc kind at_) -> slot_ok (put_task t (mkTask tc kind x) s' w)) as Hplain.
  { intros Hc Hf. apply (slot_mono w); try done; [intros t' Hl; by apply Hmono|]. intros t' _ Ha. cbn. destruct Hc as (_ & _ & -> & _). done. }
  destruct at_ as [pc|pc|pc| | |]; try done.
  - apply Hplain; [|by intros []]. destruct H as [(last & _ & -> & _)|(o & pc' & H & _)]; [done|by eapply turn_step_control].
  - apply Hplain; [|by intros []]. destruct H as [(_ & -> & _)|(o & pc' & H & _)]; [done|by eapply turn_step_control].
  - destruct H as [-> ->]. assert (forall t', live (put_task t (mkTask tc kind cancelling) (clearActiveTurnIf t (sess w)) w) t' -> live w t' /\ t' <> t) as Hl.
    { intros t' (task & H1 & H2 & H3). cbn [put_task set_tasks tasks set_sess] in H1. assert (t' <> t) as Hne.
      { intros ->. rewrite list_lookup_insert_eq in H1 by (by eapply lookup_lt_Some). injection H1 as <-. by apply H2. }
      split; [|done]. rewrite list_lookup_insert_ne in H1 by done. exists task. split_and!; [done|done|].
      revert H3. unfold clearActiveTurnIf. cbn. by case_decide. }
    apply (slot_mono w); try done; [intros t' Ht'; by apply Hl|]. intros t' Ht' Ha. cbn. unfold clearActiveTurnIf.
    rewrite decide_False; [done|]. intros Hx. apply Hl in Ht' as [_ Hne]. congruence.
  - destruct H as [-> ->]. apply (slot_mono w); try done. intros t' Hl.
    apply (live_put w t tc kind cancelling over (cancel_task t (sess w)) t'); [done|done| |done]. intros n. rewrite cancel_task_cancelled. by destruct (cancelled n (sess w)).
Qed.

Lemma slot_loop c w w' : loop_step c w = w_goes w' -> slot_ok w -> slot_ok w'.
Proof.
  intros H Hs. unfold CoreSession.SessionLoop.loop_step in H.
  assert (forall l s', settled (loop w) -> settled l -> same_control (sess w) s' -> slot_ok (set_loop l (set_sess s' w))) as Hsame.
  { intros l s' H1 H2 H3. pose proof (slot_elim w H1 Hs) as Hs'. apply slot_intro; [done|]. cbn. intros t Hl.
    destruct H3 as (Hc1 & Hc2 & -> & _). apply Hs'. eapply live_same; [| |exact Hl]; [done|]. intros n. unfold cancelled. cbn. by rewrite Hc1, Hc2. }
  destruct (loop w) as [|p|prev p|id kind items|tc kind items|pc k| | | |] eqn:Hloop.
  - destruct c; try done.
    + destruct (submissions w) as [|sub rest]; [done|]. simplify_eq. specialize (Hsame (dispatch_op sub) (sess w) I).
      assert (settled (dispatch_op sub)) as Hd by (unfold dispatch_op; by destruct (sub_op sub)). by apply Hsame.
    + destruct (sessionCancelled (sess w)); simplify_eq. by apply (Hsame loop_cancel_session (sess w)).
  - destruct c; simplify_eq. pose proof (slot_elim w ltac:(by rewrite Hloop) Hs) as Hact.
    destruct (activeTurn (sess w)) as [prev|] eqn:Ea.
    + unfold slot_ok. cbn. intros t Hl. specialize (Hact t Hl). congruence.
    + apply slot_none. intros t Hl. specialize (Hact t Hl). congruence.
  - destruct c; simplify_eq. apply slot_none. intros t (task & H1 & H2 & H3). cbn in H3. rewrite cancel_task_cancelled in H3.
    apply orb_false_iff in H3 as [H3 H4]. apply bool_decide_eq_false in H4. apply H4. unfold slot_ok in Hs. rewrite Hloop in Hs.
    apply Hs. by exists task.
  - destruct c as [| | |[err|tc]]; simplify_eq; by apply (Hsame _ (sess w)).
  - destruct c; simplify_eq. unfold slot_ok in Hs. rewrite Hloop in Hs. apply slot_intro; [done|]. cbn.
    intros t (task & H1 & H2 & H3). cbn in H1. apply lookup_app_Some in H1 as [H1|[Hge H1]]; [|].
    + destruct (Hs t). exists task. auto.
    + apply list_lookup_singleton_Some in H1 as [H1 _]. f_equal. lia.
  - assert (forall i, match turn_step (mkTurnContext [] false [] None None [] None None None [] None) 0 i pc (sess w) with
        | goes _ pc' s' => w_goes (set_loop (loop_emit pc' k) (set_sess s' w)) | panics => w_panics | blocked => w_blocked end = w_goes w' ->
        slot_ok w') as Hemit.
    { intros i Hw. destruct (turn_step _ 0 i pc (sess w)) as [| |o pc' s'] eqn:E; simplify_eq. apply Hsame; [done|done|].
      by eapply turn_step_control. }
    destruct pc, c; try discriminate H; try (by apply (Hemit go), H); try (by apply (Hemit take_done), H).
    destruct k as [|t|]; simplify_eq; [by apply (Hsame loop_select (sess w))| |by apply (Hsame loop_cancel_session (sess w))].
    pose proof (slot_elim w ltac:(by rewrite Hloop) Hs) as Ha. apply slot_intro; [done|]. cbn. intros t' (task & H1 & H2 & H3). apply Ha.
    cbn in H1, H3. unfold start_task in H1. destruct (tasks w !! t) as [[tc kind [pc0|pc0|pc0| | |]]|] eqn:Et; try by exists task.
    destruct (decide (t' = t)) as [->|Hne]; [exists (mkTask tc kind (not_started pc0)); split_and!; [done|by intros []|done]|].
    rewrite list_lookup_insert_ne in H1 by done. by exists task.
  - destruct c; simplify_eq. apply slot_none.
    intros t (task & _ & _ & H3). unfold cancelled in H3. by cbn in H3.
  - destruct c; simplify_eq. apply slot_intro; [done|]. intros t Hl. apply (slot_elim w ltac:(by rewrite Hloop) Hs). by eapply live_same.
  - destruct c; simplify_eq. apply slot_intro; [done|]. intros t Hl. apply (slot_elim w ltac:(by rewrite Hloop) Hs). by eapply live_same.
  - by destruct c.
Qed.

Lemma slot_world c w w' : world_step c w = w_goes w' -> slot_ok w -> slot_ok w'.
Proof.
  intros H Hs. destruct c as [sub| | |c|t i|t i m]; cbn [CoreSession.SessionLoop.world_step] in H.
  - case_decide; simplify_eq. by apply (slot_mono w).
  - destruct (queue (sess w)) as [|ev rest]; simplify_eq. by apply (slot_mono w).
  - simplify_eq. apply slot_none. by intros t (task & _ & _ & H3).
  - by eapply slot_loop.
  - by eapply slot_task.
  - apply tool_step_cases in H as (tc & kind & at_ & s' & evs & Ht & -> & _ & _ & _ & Hc). apply (slot_mono w); try done.
    + intros t'. apply (live_put w t tc kind at_ at_ s' t'); [done|done|]. intros n. by rewrite (same_control_cancelled n _ _ Hc).
    + intros t' _. cbn. by destruct Hc as (_ & _ & -> & _).
Qed.

Lemma slot_run cs : forall w w', world_run cs w = w_goes w' -> slot_ok w -> slot_ok w'.
Proof.
  induction cs as [|c cs IH]; intros w w' H Hs; cbn [SessionLoop.world_run] in H; [by simplify_eq|].
  destruct (world_step c w) as [| |w1] eqn:E; try done. eapply IH; [done|]. by eapply slot_world.
Qed.

(** C12: one task at a time. In every interleaving at most one task goes on
    uncancelled; it is the one in the active slot, unless the loop is about to
    cancel it; when the loop has cancelled what it found in the slot, none goes
    on, whether it interrupts, shuts down or installs the next one. *)
Theorem one_task_goes_on history cs w : world_run cs (Spawn history) = w_goes w ->
  (forall t t', live w t -> live w t' -> t = t')
  /\ (forall t, live w t -> activeTurn (sess w) = Some t \/ exists p, loop w = loop_cancel t p)
  /\ (forall prev p w' t, loop w = loop_cancel prev p -> world_step (loop_moves loop_go) w = w_goes w' -> ~ live w' t)
  /\ (forall tc kind items t, loop w = loop_install tc kind items -> ~ live w t).
Proof.
  intros H. assert (slot_ok w) as Hs.
  { eapply slot_run; [exact H|]. apply slot_none. by intros t (task & H1 & _). }
  assert (forall t, live w t -> activeTurn (sess w) = Some t \/ exists p, loop w = loop_cancel t p) as Hone.
  { intros t Hl. unfold slot_ok in Hs. destruct (loop w) eqn:E; try (left; by apply Hs).
    - right. exists p. by rewrite (Hs t Hl).
    - by destruct (Hs t). }
  split_and!; [|done| |].
  - intros t t' Hl Hl'. unfold slot_ok in Hs. destruct (loop w) eqn:E; try (apply Hs in Hl, Hl'; congruence). by destruct (Hs t).
  - intros prev p w' t Hloop Hw (task & H1 & H2 & H3). unfold slot_ok in Hs. rewrite Hloop in Hs.
    cbn [CoreSession.SessionLoop.world_step] in Hw. unfold CoreSession.SessionLoop.loop_step in Hw. rewrite Hloop in Hw. simplify_eq.
    cbn in H3. rewrite cancel_task_cancelled in H3. apply orb_false_iff in H3 as [H3 H4]. apply bool_decide_eq_false in H4.
    apply H4, Hs. by exists task.
  - intros tc kind items t Hloop. unfold slot_ok in Hs. rewrite Hloop in Hs. apply Hs.
Qed.
End Turn.

(** ** Concrete runs *)

Definition demo_context : TurnContext := mkTurnContext [] false (str "m") None None [] None None None [] None.
Definition demo_run (cs : list world_choice) : world_outcome :=
  SessionLoop.world_run (fun _ => None) [] (fun _ => inl []) (mkRouter ∅ []) cs (Spawn []).

Lemma demo_run_spec cs o : demo_run cs = o ->
  SessionLoop.world_run (fun _ => None) [] (fun _ => inl []) (mkRouter ∅ []) cs (Spawn []) = o.
Proof. by intros <-. Qed.

Definition loops (n : nat) : list world_choice := replicate n (loop_moves loop_go).
Definition moves (t n : nat) : list world_choice := replicate n (task_moves t go).

(** A user input becomes a running task. *)
Definition begin_turn (id : gostring) (prev : bool) : list world_choice :=
  [submit (mkSubmission id (OpUserInput [InputText (str "hi") []])); loop_moves loop_take; loop_moves (built (inr demo_context))]
  ++ loops (if prev then 7 else 6).

(** The task records its input and asks the model, which answers with nothing. *)
Definition ask_model (t : nat) : list world_choice := moves t 8 ++ [task_moves t (opened None)].
Definition end_turn (t : nat) : list world_choice := [task_moves t (take_event (Completed None None))] ++ moves t 6.
Definition report_end (t : nat) : list world_choice := moves t 7.

Definition one_turn : list world_choice := begin_turn (str "a") false ++ ask_model 0 ++ end_turn 0 ++ report_end 0.

Definition view (o : world_outcome) : option (AgentStatus * list (gostring * bool * bool)) :=
  match o with
  | w_goes w => Some (agentStatus (sess w), map (fun ev => (EventID ev, is_start (Msg ev), is_terminal (Msg ev))) (sent w))
  | _ => None
  end.
Example one_turn_events : view (demo_run one_turn) =
  Some (AgentStatusCompleted None,
    [([], false, false); (str "a", true, false); (str "a", false, false); (str "a", false, true)]).
Proof. vm_compute. reflexivity. Qed.

Definition over_tasks (w : World) : list bool := map (fun task => match task_at task with over => true | _ => false end) (tasks w).


Lemma one_task_goes_on_witness :
  match demo_run (begin_turn (str "a") false ++ begin_turn (str "b") true) with
  | w_goes w => (live w 0 -> live w 1 -> 0 = 1) /\ length (tasks w) = 2
  | _ => False
  end.
Proof.
  assert (forall o, demo_run (begin_turn (str "a") false ++ begin_turn (str "b") true) = o ->
    match o with w_goes w => length (tasks w) = 2 | _ => False end ->
    match o with w_goes w => (live w 0 -> live w 1 -> 0 = 1) /\ length (tasks w) = 2 | _ => False end) as Hrun.
  { intros [| |w] E Ho; [destruct Ho|destruct Ho|]. split; [|exact Ho]. apply demo_run_spec in E.
    exact (proj1 (one_task_goes_on _ _ _ _ [] _ w E) 0 1). }
  apply (Hrun _ eq_refl). vm_compute. reflexivity.
Defined.

(** The output and the end of a command that outlives its turn come after the
    turn's end, under the same id. *)
Example late_command_events :
  view (demo_run (one_turn ++ [tool_sends 0 go (ExecCommandOutputDelta (str "c") (str "x")); tool_sends 0 go (ExecCommandEnd (str "c"))])) =
  Some (AgentStatusCompleted None,
    [([], false, false); (str "a", true, false); (str "a", false, false); (str "a", false, true); (str "a", false, false);
     (str "a", false, false)]).
Proof. vm_compute. reflexivity. Qed.

(** A task that was replaced reports its end late: the agent counts as
    interrupted while the next task runs. *)
Example late_end_interrupts :
  match demo_run (begin_turn (str "a") false ++ begin_turn (str "b") true ++ moves 0 9) with
  | w_goes w => agentStatus (sess w) = AgentStatusInterrupted
      /\ option_map task_at (tasks w !! 1) = Some (running (runTurn [mkTurnInput [InputText (str "hi") []] None]))
  | _ => False
  end.
Proof. vm_compute. by split. Qed.

(** On shutdown the queue of events is closed while the cancelled task may still
    send: taking the send in its select panics. *)
Example shutdown_send_panics :
  demo_run (begin_turn (str "a") false ++ [submit (mkSubmission (str "b") OpShutdown); loop_moves loop_take] ++ loops 8 ++ moves 0 10)
  = w_panics.
Proof. vm_compute. reflexivity. Qed.

End SessionRuns.
