(* ===== verification/GoalStore.v ===== *)
(** * internal/state/goals.go: the store of thread goals

    A table with one row per thread.  Every SQL statement of the file is one
    atomic function on the table; an operation of two statements is two of them.
    A statement that fails changes nothing; which ones fail is an input.  An
    integer column that leaves 64 bits becomes a float in SQLite, so such a row
    cannot be read back: columns are unbounded here and reading checks them. *)

From stdpp Require Import base list gmap strings.
From S2P Require Import Prelude GoStrings Truncation.

Module Goals.
Import Truncation.
#[local] Open Scope Z_scope.

(** ** Rows *)

Inductive ThreadGoalStatus :=
| GoalStatusActive | GoalStatusPaused | GoalStatusBlocked
| GoalStatusUsageLimited | GoalStatusBudgetLimited | GoalStatusComplete.
#[export] Instance ThreadGoalStatus_eq_dec : EqDecision ThreadGoalStatus.
Proof. solve_decision. Defined.

Definition AsStr (s : ThreadGoalStatus) : gostring :=
  match s with
  | GoalStatusActive => str "active"
  | GoalStatusPaused => str "paused"
  | GoalStatusBlocked => str "blocked"
  | GoalStatusUsageLimited => str "usage_limited"
  | GoalStatusBudgetLimited => str "budget_limited"
  | GoalStatusComplete => str "complete"
  end.

Definition ParseThreadGoalStatus (value : gostring) : option ThreadGoalStatus :=
  if decide (value = str "active") then Some GoalStatusActive
  else if decide (value = str "paused") then Some GoalStatusPaused
  else if decide (value = str "blocked") then Some GoalStatusBlocked
  else if decide (value = str "usage_limited") then Some GoalStatusUsageLimited
  else if decide (value = str "budget_limited") then Some GoalStatusBudgetLimited
  else if decide (value = str "complete") then Some GoalStatusComplete
  else None.

Record ThreadGoal := mkGoal {
  ThreadID : gostring;
  GoalID : gostring;
  Objective : gostring;
  Status : ThreadGoalStatus;
  TokenBudget : option Z;
  TokensUsed : Z;
  TimeUsedSeconds : Z;
  CreatedAtMs : Z;
  UpdatedAtMs : Z;
}.

(** An outer [Some] sets the field. *)
Record GoalUpdate := mkUpdate {
  NewObjective : option gostring;
  NewStatus : option ThreadGoalStatus;
  NewTokenBudget : option (option Z);
  ExpectedGoalID : option gostring;
}.

Inductive GoalAccountingMode :=
| GoalAccountingModeActiveStatusOnly | GoalAccountingModeActiveOnly
| GoalAccountingModeActiveOrComplete | GoalAccountingModeActiveOrStopped.

Inductive GoalAccountingOutcome :=
| GoalAccountingOutcomeUnchanged (goal : option ThreadGoal)
| GoalAccountingOutcomeUpdated (goal : ThreadGoal).

(** [thread_id] is the primary key. *)
Definition table := gmap gostring ThreadGoal.

(** ** Reading *)

(** An integer column against a nullable one: NULL makes the condition false. *)
Definition at_least (used : Z) (budget : option Z) : bool :=
  match budget with Some b => b <=? used | None => false end.

Definition readable (z : Z) : bool := (minInt <=? z) && (z <=? maxInt).

(** [threadGoalFromRow]: [None] is the error of a column that does not scan. *)
Definition threadGoalFromRow (g : ThreadGoal) : option ThreadGoal :=
  if readable (TokensUsed g) && readable (TimeUsedSeconds g) then Some g else None.

(** The result of an operation: its error, or a goal when there is one. *)
Definition goal_result := option (option ThreadGoal).

Definition row_result (row : option ThreadGoal) : goal_result :=
  match row with
  | None => Some None
  | Some g => match threadGoalFromRow g with Some g => Some (Some g) | None => None end
  end.

Definition GetThreadGoal (threadID : gostring) (t : table) : goal_result := row_result (t !! threadID).

(** ** Writing *)

Definition statusAfterBudgetLimit (status : ThreadGoalStatus) (tokensUsed : Z) (tokenBudget : option Z) : ThreadGoalStatus :=
  if decide (status = GoalStatusActive) then
    if at_least tokensUsed tokenBudget then GoalStatusBudgetLimited else status
  else status.

Definition fresh_row (threadID goalID objective : gostring) (status : ThreadGoalStatus) (budget : option Z) (now : Z) : ThreadGoal :=
  mkGoal threadID goalID objective (statusAfterBudgetLimit status 0 budget) budget 0 0 now now.

(** [ON CONFLICT DO UPDATE]. *)
Definition ReplaceThreadGoal (goalID : gostring) (now : Z) (threadID objective : gostring) (status : ThreadGoalStatus)
    (budget : option Z) (t : table) : goal_result * table :=
  let g := fresh_row threadID goalID objective status budget now in (row_result (Some g), <[threadID := g]> t).

(** [ON CONFLICT DO NOTHING]. *)
Definition InsertThreadGoal (goalID : gostring) (now : Z) (threadID objective : gostring) (status : ThreadGoalStatus)
    (budget : option Z) (t : table) : goal_result * table :=
  match t !! threadID with
  | Some _ => (Some None, t)
  | None => let g := fresh_row threadID goalID objective status budget now in (row_result (Some g), <[threadID := g]> t)
  end.

Definition id_matches (expected : option gostring) (g : ThreadGoal) : bool :=
  match expected with None => true | Some id => bool_decide (GoalID g = id) end.

(** An UPDATE of the row of a thread: the number of rows it affects. *)
Definition sql_update (threadID : gostring) (where_ : ThreadGoal -> bool) (f : ThreadGoal -> ThreadGoal) (t : table)
    : option ThreadGoal * table :=
  match t !! threadID with
  | Some g => if where_ g then (Some (f g), <[threadID := f g]> t) else (None, t)
  | None => (None, t)
  end.

(** The CASE of a status that is set, for the budget the row will have. *)
Definition status_case (g : ThreadGoal) (status : ThreadGoalStatus) (budget : option Z) : ThreadGoalStatus :=
  if bool_decide (Status g = GoalStatusBudgetLimited)
     && (bool_decide (status = GoalStatusPaused) || bool_decide (status = GoalStatusBlocked)) then Status g
  else if bool_decide (status = GoalStatusActive) && at_least (TokensUsed g) budget then GoalStatusBudgetLimited
  else status.

(** The row after the statement for the fields that are present; [None] when
    there are none to write. *)
Definition updated_row (u : GoalUpdate) (now : Z) : option (ThreadGoal -> ThreadGoal) :=
  let objective g := default (Objective g) (NewObjective u) in
  match NewStatus u, NewTokenBudget u, NewObjective u with
  | Some status, Some budget, _ => Some (fun g =>
      mkGoal (ThreadID g) (GoalID g) (objective g) (status_case g status budget) budget
        (TokensUsed g) (TimeUsedSeconds g) (CreatedAtMs g) now)
  | Some status, None, _ => Some (fun g =>
      mkGoal (ThreadID g) (GoalID g) (objective g) (status_case g status (TokenBudget g)) (TokenBudget g)
        (TokensUsed g) (TimeUsedSeconds g) (CreatedAtMs g) now)
  | None, Some budget, _ => Some (fun g =>
      mkGoal (ThreadID g) (GoalID g) (objective g)
        (if bool_decide (Status g = GoalStatusActive) && at_least (TokensUsed g) budget then GoalStatusBudgetLimited else Status g)
        budget (TokensUsed g) (TimeUsedSeconds g) (CreatedAtMs g) now)
  | None, None, Some objective => Some (fun g =>
      mkGoal (ThreadID g) (GoalID g) objective (Status g) (TokenBudget g) (TokensUsed g) (TimeUsedSeconds g) (CreatedAtMs g) now)
  | None, None, None => None
  end.

(** [UpdateThreadGoal]: its statement, then [GetThreadGoal] when a row was
    affected; other writers may come in between.  [inl] is the answer without
    that read. *)
Definition UpdateThreadGoal_exec (now : Z) (threadID : gostring) (u : GoalUpdate) (t : table) : (goal_result + unit) * table :=
  match updated_row u now with
  | Some f =>
      match sql_update threadID (id_matches (ExpectedGoalID u)) f t with
      | (Some _, t') => (inr (), t')
      | (None, t') => (inl (Some None), t')
      end
  | None =>
      (inl match GetThreadGoal threadID t with
           | Some (Some g) => Some (if id_matches (ExpectedGoalID u) g then Some g else None)
           | r => r
           end, t)
  end.

Definition set_row_status (status : ThreadGoalStatus) (now : Z) (g : ThreadGoal) : ThreadGoal :=
  mkGoal (ThreadID g) (GoalID g) (Objective g) status (TokenBudget g) (TokensUsed g) (TimeUsedSeconds g) (CreatedAtMs g) now.

(** [updateActiveThreadGoalStatus], the statement and whether it affected a row. *)
Definition updateActiveThreadGoalStatus_exec (now : Z) (threadID : gostring) (status : ThreadGoalStatus) (t : table) : bool * table :=
  match sql_update threadID
          (fun g => bool_decide (Status g = GoalStatusActive)
                    || bool_decide (status = GoalStatusUsageLimited) && bool_decide (Status g = GoalStatusBudgetLimited))
          (set_row_status status now) t with
  | (Some _, t') => (true, t')
  | (None, t') => (false, t')
  end.

Definition DeleteThreadGoal (threadID : gostring) (t : table) : bool * table :=
  (bool_decide (is_Some (t !! threadID)), delete threadID t).

Definition active_or_stopped (s : ThreadGoalStatus) : bool := negb (bool_decide (s = GoalStatusComplete)).

Definition statusFilter (mode : GoalAccountingMode) (s : ThreadGoalStatus) : bool :=
  match mode with
  | GoalAccountingModeActiveStatusOnly => bool_decide (s = GoalStatusActive)
  | GoalAccountingModeActiveOnly => bool_decide (s = GoalStatusActive) || bool_decide (s = GoalStatusBudgetLimited)
  | GoalAccountingModeActiveOrComplete =>
      bool_decide (s = GoalStatusActive) || bool_decide (s = GoalStatusBudgetLimited) || bool_decide (s = GoalStatusComplete)
  | GoalAccountingModeActiveOrStopped => active_or_stopped s
  end.

Definition budgetLimitStatusFilter (mode : GoalAccountingMode) (s : ThreadGoalStatus) : bool :=
  match mode with
  | GoalAccountingModeActiveOrStopped => active_or_stopped s
  | _ => bool_decide (s = GoalStatusActive)
  end.

Definition charged_row (mode : GoalAccountingMode) (now timeDelta tokenDelta : Z) (g : ThreadGoal) : ThreadGoal :=
  mkGoal (ThreadID g) (GoalID g) (Objective g)
    (if budgetLimitStatusFilter mode (Status g) && at_least (TokensUsed g + tokenDelta) (TokenBudget g)
     then GoalStatusBudgetLimited else Status g)
    (TokenBudget g) (TokensUsed g + tokenDelta) (TimeUsedSeconds g + timeDelta) (CreatedAtMs g) now.

(** [AccountThreadGoalUsage]: its UPDATE.  [inr] is the answer; [inl] leaves it
    to a [GetThreadGoal], whose goal comes back as unchanged. *)
Definition AccountThreadGoalUsage_exec (now : Z) (threadID : gostring) (timeDelta tokenDelta : Z) (mode : GoalAccountingMode)
    (expected : option gostring) (t : table) : (unit + option GoalAccountingOutcome) * table :=
  let timeDelta := Z.max timeDelta 0 in
  let tokenDelta := Z.max tokenDelta 0 in
  if (timeDelta =? 0) && (tokenDelta =? 0) then (inl (), t)
  else match sql_update threadID (fun g => statusFilter mode (Status g) && id_matches expected g)
               (charged_row mode now timeDelta tokenDelta) t with
       | (Some g, t') => (inr (GoalAccountingOutcomeUpdated <$> threadGoalFromRow g), t')
       | (None, t') => (inl (), t')
       end.

(** ** What every statement keeps *)

Lemma ParseThreadGoalStatus_AsStr s : ParseThreadGoalStatus (AsStr s) = Some s.
Proof. by destruct s. Qed.

Lemma AsStr_inj s s' : AsStr s = AsStr s' -> s = s'.
Proof. intros H. apply (f_equal ParseThreadGoalStatus) in H. rewrite !ParseThreadGoalStatus_AsStr in H. congruence. Qed.

(** Usage is not negative, and an active goal has budget left. *)
Definition row_ok (g : ThreadGoal) : Prop :=
  0 <= TokensUsed g /\ 0 <= TimeUsedSeconds g /\ (Status g = GoalStatusActive -> at_least (TokensUsed g) (TokenBudget g) = false).

Definition table_ok (t : table) : Prop := map_Forall (fun _ g => row_ok g) t.

(** [g'] is the goal [g], later. *)
Definition grows (g g' : ThreadGoal) : Prop :=
  GoalID g' = GoalID g /\ TokensUsed g <= TokensUsed g' /\ TimeUsedSeconds g <= TimeUsedSeconds g'.

#[export] Instance grows_refl : Reflexive grows.
Proof. intros g. by split_and!. Qed.
#[export] Instance grows_trans : Transitive grows.
Proof. intros g h k (H1 & H2 & H3) (H4 & H5 & H6). split_and!; [congruence|lia|lia]. Qed.

(** Wherever the goal [G] is afterwards, it was there and has not shrunk. *)
Definition keeps_goal (G : gostring) (t t' : table) : Prop :=
  forall id g', t' !! id = Some g' -> GoalID g' = G -> exists g, t !! id = Some g /\ grows g g'.

#[export] Instance keeps_goal_refl G : Reflexive (keeps_goal G).
Proof. intros t id g H _. exists g. by split. Qed.
#[export] Instance keeps_goal_trans G : Transitive (keeps_goal G).
Proof.
  intros t u v H1 H2 id g Hg HG. destruct (H2 _ _ Hg HG) as (g1 & Hg1 & Hr). pose proof Hr as (Hid & _).
  destruct (H1 _ _ Hg1) as (g0 & Hg0 & Hr0); [congruence|]. exists g0. split; [done|by trans g1].
Qed.

(** A step of the table that the properties allow. *)
Definition table_step (G : gostring) (t t' : table) : Prop := (table_ok t -> table_ok t') /\ keeps_goal G t t'.

#[export] Instance table_step_refl G : Reflexive (table_step G).
Proof. by split. Qed.
#[export] Instance table_step_trans G : Transitive (table_step G).
Proof. intros t u v [H1 H2] [H3 H4]. split; [auto|by trans u]. Qed.

Lemma table_step_insert G id g' t : (table_ok t -> row_ok g') ->
  (GoalID g' = G -> exists g, t !! id = Some g /\ grows g g') -> table_step G t (<[id := g']> t).
Proof.
  intros Hok HG. split; [intros Ht; by apply map_Forall_insert_2; [apply Hok|]|].
  intros i g Hg Hid. apply lookup_insert_Some in Hg as [[-> ->]|[_ Hg]]; [by apply HG|]. exists g. by split.
Qed.

Lemma fresh_row_ok threadID goalID objective status budget now : row_ok (fresh_row threadID goalID objective status budget now).
Proof.
  unfold fresh_row, row_ok, statusAfterBudgetLimit; cbn. split_and!; [lia|lia|].
  case_decide as E; [destruct (at_least 0 budget) eqn:?; done|done].
Qed.

Lemma fresh_row_step G threadID goalID objective status budget now t : goalID <> G ->
  table_step G t (<[threadID := fresh_row threadID goalID objective status budget now]> t).
Proof. intros Hne. apply table_step_insert; [intros _; apply fresh_row_ok|]. intros E. by cbn in E. Qed.

Lemma ReplaceThreadGoal_step G goalID now threadID objective status budget t : goalID <> G ->
  table_step G t (snd (ReplaceThreadGoal goalID now threadID objective status budget t)).
Proof. apply fresh_row_step. Qed.

Lemma InsertThreadGoal_step G goalID now threadID objective status budget t : goalID <> G ->
  table_step G t (snd (InsertThreadGoal goalID now threadID objective status budget t)).
Proof. intros H. unfold InsertThreadGoal. destruct (t !! threadID); cbn; [done|]. by apply fresh_row_step. Qed.

(** An UPDATE that keeps the id, does not lower usage and keeps rows in order. *)
Lemma sql_update_step G threadID where_ f t : (forall g, where_ g = true -> row_ok g -> row_ok (f g)) ->
  (forall g, where_ g = true -> grows g (f g)) -> table_step G t (snd (sql_update threadID where_ f t)).
Proof.
  intros Hok Hg. unfold sql_update. destruct (t !! threadID) as [g|] eqn:E; [|done]. destruct (where_ g) eqn:Ew; [|done].
  apply table_step_insert; [|eauto]. intros Ht. apply Hok; [done|]. by eapply Ht.
Qed.

Lemma status_case_ok g status budget : status_case g status budget = GoalStatusActive ->
  at_least (TokensUsed g) budget = false.
Proof.
  unfold status_case. intros H. destruct (at_least (TokensUsed g) budget); [|done].
  repeat case_bool_decide; cbn in H; congruence.
Qed.

Lemma updated_row_ok u now f g : updated_row u now = Some f -> row_ok g -> row_ok (f g) /\ grows g (f g).
Proof.
  intros Hf (H1 & H2 & H3). unfold updated_row in Hf.
  destruct (NewStatus u) as [status|], (NewTokenBudget u) as [budget|], (NewObjective u) as [objective|]; simplify_eq;
    (split; [split_and!; cbn; [done|done|]|by split_and!]); try apply status_case_ok; try done.
  all: case_bool_decide; cbn [andb]; [destruct (at_least (TokensUsed g) budget); done|done].
Qed.

Lemma updated_row_grows u now f g : updated_row u now = Some f -> grows g (f g).
Proof.
  intros Hf. unfold updated_row in Hf.
  destruct (NewStatus u) as [status|], (NewTokenBudget u) as [budget|], (NewObjective u) as [objective|]; simplify_eq; by split_and!.
Qed.

Lemma UpdateThreadGoal_step G now threadID u t : table_step G t (snd (UpdateThreadGoal_exec now threadID u t)).
Proof.
  unfold UpdateThreadGoal_exec. destruct (updated_row u now) as [f|] eqn:Ef; [|done].
  assert (table_step G t (snd (sql_update threadID (id_matches (ExpectedGoalID u)) f t))) as H.
  { apply sql_update_step; intros g _; [intros Hg; by eapply updated_row_ok|by eapply updated_row_grows]. }
  by destruct (sql_update _ _ _ _) as [[?|] t'].
Qed.

Lemma updateActiveThreadGoalStatus_step G now threadID status t : status <> GoalStatusActive ->
  table_step G t (snd (updateActiveThreadGoalStatus_exec now threadID status t)).
Proof.
  intros Hs. unfold updateActiveThreadGoalStatus_exec. match goal with |- context [sql_update ?i ?w ?f t] =>
    assert (table_step G t (snd (sql_update i w f t))) as H end.
  { apply sql_update_step; intros g _; [|by split_and!]. intros (H1 & H2 & _). by split_and!. }
  by destruct (sql_update _ _ _ _) as [[?|] t'].
Qed.

Lemma DeleteThreadGoal_step G threadID t : table_step G t (snd (DeleteThreadGoal threadID t)).
Proof.
  split; [intros Ht; by apply map_Forall_delete|]. intros id g Hg _. cbn in Hg. apply lookup_delete_Some in Hg as [_ Hg]. exists g. by split.
Qed.

Lemma charged_row_ok mode now time tokens g : 0 <= time -> 0 <= tokens -> statusFilter mode (Status g) = true -> row_ok g ->
  row_ok (charged_row mode now time tokens g).
Proof.
  intros Ht Hk Hf (H1 & H2 & H3). split_and!; cbn; [lia|lia|]. intros Hs.
  destruct (at_least (TokensUsed g + tokens) (TokenBudget g)); [|done]. rewrite andb_true_r in Hs.
  destruct (budgetLimitStatusFilter mode (Status g)) eqn:E; [done|]. rewrite Hs in E. by destruct mode.
Qed.

Lemma AccountThreadGoalUsage_step G now threadID time tokens mode expected t :
  table_step G t (snd (AccountThreadGoalUsage_exec now threadID time tokens mode expected t)).
Proof.
  unfold AccountThreadGoalUsage_exec. destruct (_ && _); [done|].
  match goal with |- context [sql_update ?i ?w ?f t] => assert (table_step G t (snd (sql_update i w f t))) as H end.
  { apply sql_update_step; intros g Hw.
    - apply andb_true_iff in Hw as [Hw _]. apply charged_row_ok; [lia|lia|done].
    - split_and!; cbn; [done|lia|lia]. }
  by destruct (sql_update _ _ _ _) as [[?|] t'].
Qed.
End Goals.
