(* ===== verification/GoalAccounting.v ===== *)
(** * internal/ext/goal/accounting.go: what a turn has used for its goal

    Every method holds the lock of the state, so each is one function on it.  A
    time is a number of nanoseconds; [now] is the reading of the clock inside the
    method. *)

From stdpp Require Import base list gmap strings.
From S2P Require Import Prelude GoStrings GoText GoOrder Truncation ProtocolItems GoalStore.

Module Accounting.
Import Truncation Items Goals.
#[local] Open Scope Z_scope.

(** ** util.go *)

Definition saturatingSubI64 (a b : Z) : Z :=
  if ((b <? 0) && (maxInt + b <? a)) || ((0 <? b) && (a <? minInt + b)) then
    if 0 <? b then minInt else maxInt
  else wrap (a - b).

Definition saturatingAddI64 (a b : Z) : Z :=
  let sum := wrap (a + b) in
  if ((0 <? b) && (sum <? a)) || ((b <? 0) && (a <? sum)) then
    if 0 <? b then maxInt else minInt
  else sum.

Definition maxI64 (a b : Z) : Z := if b <? a then a else b.

Definition ptrEqStr (p : option gostring) (value : gostring) : bool := bool_decide (p = Some value).

(** ** Token deltas *)

Definition goalTokenDeltaForUsage (usage : TokenUsage) : Z :=
  let billable := saturatingSubI64 (InputTokens usage) (CachedInputTokens usage) in
  saturatingAddI64 billable (maxI64 (OutputTokens usage) 0).

Definition tokenDeltaSinceLastAccounting (last current : TokenUsage) : Z :=
  goalTokenDeltaForUsage
    (mkTokenUsage (saturatingSubI64 (InputTokens current) (InputTokens last))
       (saturatingSubI64 (CachedInputTokens current) (CachedInputTokens last))
       (saturatingSubI64 (OutputTokens current) (OutputTokens last))
       (saturatingSubI64 (ReasoningOutputTokens current) (ReasoningOutputTokens last))
       (saturatingSubI64 (TotalTokens current) (TotalTokens last))).

(** ** The state *)

Inductive budgetLimitedGoalDisposition := budgetLimitedKeepActive | budgetLimitedClearActive.

Record goalProgressSnapshot := mkSnapshot {
  snapCurrentTokenUsage : TokenUsage;
  expectedGoalID : gostring;
  timeDeltaSeconds : Z;
  tokenDelta : Z;
}.

Record idleGoalProgressSnapshot := mkIdleSnapshot { idleExpectedGoalID : gostring; idleTimeDeltaSeconds : Z }.

Record recordedTokenDelta := mkRecorded { turnDelta : Z; threadUnflushedDelta : Z }.

Record goalTurnAccounting := mkTurnAccounting {
  currentTokenUsage : TokenUsage;
  lastAccountedTokenUsage : TokenUsage;
  turnGoalID : option gostring;
  accountTokens : bool;
}.

Record goalWallClockAccounting := mkWallClock { lastAccountedAt : Z; wallGoalID : option gostring }.

Record goalAccountingState := mkAccounting {
  curTurnID : option gostring;
  turns : gmap gostring goalTurnAccounting;
  wallClock : goalWallClockAccounting;
  budgetLimitReportedGoalID : option gostring;
}.

Definition set_cur (x : option gostring) (s : goalAccountingState) := mkAccounting x (turns s) (wallClock s) (budgetLimitReportedGoalID s).
Definition set_turns (x : gmap gostring goalTurnAccounting) (s : goalAccountingState) :=
  mkAccounting (curTurnID s) x (wallClock s) (budgetLimitReportedGoalID s).
Definition set_wall (x : goalWallClockAccounting) (s : goalAccountingState) := mkAccounting (curTurnID s) (turns s) x (budgetLimitReportedGoalID s).
Definition set_reported (x : option gostring) (s : goalAccountingState) := mkAccounting (curTurnID s) (turns s) (wallClock s) x.
Definition set_turn_goal (x : option gostring) (t : goalTurnAccounting) :=
  mkTurnAccounting (currentTokenUsage t) (lastAccountedTokenUsage t) x (accountTokens t).

Definition newGoalAccountingState (now : Z) : goalAccountingState := mkAccounting None ∅ (mkWallClock now None) None.

Definition newGoalTurnAccounting (usage : TokenUsage) (accountTokens : bool) : goalTurnAccounting :=
  mkTurnAccounting usage usage None accountTokens.

Definition resetBaselineToCurrent (t : goalTurnAccounting) : goalTurnAccounting :=
  mkTurnAccounting (currentTokenUsage t) (currentTokenUsage t) (turnGoalID t) (accountTokens t).

Definition turnTokenDelta (t : goalTurnAccounting) : Z :=
  tokenDeltaSinceLastAccounting (lastAccountedTokenUsage t) (currentTokenUsage t).

(** ** The wall clock *)

Definition nanosPerSecond : Z := 10 ^ 9.

(** [time.Since] saturates; the seconds of a float below a quarter of a year are
    those of the integer, truncated. *)
Definition timeDelta (now : Z) (w : goalWallClockAccounting) : Z :=
  let elapsed := clamp (now - lastAccountedAt w) in
  if elapsed <? 0 then 0 else elapsed / nanosPerSecond.

Definition markAccounted (accountedSeconds : Z) (w : goalWallClockAccounting) : goalWallClockAccounting :=
  if accountedSeconds <=? 0 then w
  else mkWallClock (lastAccountedAt w + wrap (accountedSeconds * nanosPerSecond)) (wallGoalID w).

Definition resetBaseline (now : Z) (w : goalWallClockAccounting) : goalWallClockAccounting := mkWallClock now (wallGoalID w).

Definition markActiveGoal (now : Z) (goalID : gostring) (w : goalWallClockAccounting) : goalWallClockAccounting :=
  if ptrEqStr (wallGoalID w) goalID then w else mkWallClock now (Some goalID).

Definition clearWallGoal (now : Z) (w : goalWallClockAccounting) : goalWallClockAccounting := mkWallClock now None.

(** ** The methods *)

Definition startTurn (turnID : gostring) (planMode : bool) (usage : TokenUsage) (s : goalAccountingState) : goalAccountingState :=
  set_turns (<[turnID := newGoalTurnAccounting usage (negb planMode)]> (turns s)) (set_cur (Some turnID) s).

Definition currentTurnID (s : goalAccountingState) : option gostring := curTurnID s.

Definition turnIsCurrentActiveGoal (turnID : gostring) (s : goalAccountingState) : bool :=
  ptrEqStr (curTurnID s) turnID
  && match turns s !! turnID with Some t => accountTokens t && bool_decide (is_Some (turnGoalID t)) | None => false end.

Definition threadUnflushedTokenDelta `{MapOrder goalTurnAccounting} (s : goalAccountingState) : Z :=
  fold_left (fun total kt => if accountTokens kt.2 then saturatingAddI64 total (maxI64 (turnTokenDelta kt.2) 0) else total)
    (range (turns s)) 0.

Definition set_current_usage (usage : TokenUsage) (t : goalTurnAccounting) : goalTurnAccounting :=
  mkTurnAccounting usage (lastAccountedTokenUsage t) (turnGoalID t) (accountTokens t).

Definition recordTokenUsage `{MapOrder goalTurnAccounting} (turnID : gostring) (usage : TokenUsage) (s : goalAccountingState)
    : option recordedTokenDelta * goalAccountingState :=
  match turns s !! turnID with
  | None => (None, s)
  | Some t =>
      let t := set_current_usage usage t in
      let s := set_turns (<[turnID := t]> (turns s)) s in
      (if negb (accountTokens t) then None
       else if turnTokenDelta t <=? 0 then None
       else Some (mkRecorded (turnTokenDelta t) (threadUnflushedTokenDelta s)), s)
  end.

Definition forget_report (goalID : gostring) (s : goalAccountingState) : goalAccountingState :=
  if ptrEqStr (budgetLimitReportedGoalID s) goalID then s else set_reported None s.

Definition markTurnGoalActive (now : Z) (turnID goalID : gostring) (s : goalAccountingState) : goalAccountingState :=
  let s := forget_report goalID s in
  match turns s !! turnID with
  | None => s
  | Some t =>
      let s := set_turns (<[turnID := set_turn_goal (Some goalID) t]> (turns s)) s in
      if ptrEqStr (curTurnID s) turnID then set_wall (markActiveGoal now goalID (wallClock s)) s else s
  end.

Definition markCurrentTurnGoalActive (now : Z) (goalID : gostring) (s : goalAccountingState) : option gostring * goalAccountingState :=
  match curTurnID s with
  | None => (None, s)
  | Some turnID =>
      let s := forget_report goalID s in
      match turns s !! turnID with
      | None => (None, s)
      | Some t =>
          (Some turnID,
           set_wall (markActiveGoal now goalID (wallClock s))
             (set_turns (<[turnID := resetBaselineToCurrent (set_turn_goal (Some goalID) t)]> (turns s)) s))
      end
  end.

Definition markIdleGoalActive (now : Z) (goalID : gostring) (s : goalAccountingState) : goalAccountingState :=
  let s := forget_report goalID s in set_wall (markActiveGoal now goalID (wallClock s)) s.

(** The goal of the current turn, when it has a record. *)
Definition clear_turn_goal (s : goalAccountingState) : goalAccountingState :=
  match curTurnID s with
  | Some turnID =>
      match turns s !! turnID with
      | Some t => set_turns (<[turnID := set_turn_goal None t]> (turns s)) s
      | None => s
      end
  | None => s
  end.

Definition clearActiveGoal (now : Z) (s : goalAccountingState) : goalAccountingState :=
  let s := clear_turn_goal s in set_reported None (set_wall (clearWallGoal now (wallClock s)) s).

Definition clearCurrentTurnGoal (now : Z) (s : goalAccountingState) : option gostring * goalAccountingState :=
  match curTurnID s with
  | None => (None, s)
  | Some turnID => (Some turnID, clearActiveGoal now s)
  end.

Definition progressSnapshot (now : Z) (turnID : gostring) (s : goalAccountingState) : option goalProgressSnapshot :=
  match turns s !! turnID with
  | Some (mkTurnAccounting current last (Some goalID) true) =>
      let tokens := tokenDeltaSinceLastAccounting last current in
      let time := if ptrEqStr (wallGoalID (wallClock s)) goalID then timeDelta now (wallClock s) else 0 in
      if (time =? 0) && (tokens <=? 0) then None else Some (mkSnapshot current goalID time tokens)
  | _ => None
  end.

Definition idleProgressSnapshot (now : Z) (s : goalAccountingState) : option idleGoalProgressSnapshot :=
  match wallGoalID (wallClock s) with
  | None => None
  | Some goalID =>
      let time := timeDelta now (wallClock s) in if time =? 0 then None else Some (mkIdleSnapshot goalID time)
  end.

Definition shouldClearActiveGoal (status : ThreadGoalStatus) (d : budgetLimitedGoalDisposition) : bool :=
  match status with
  | GoalStatusActive => false
  | GoalStatusBudgetLimited => match d with budgetLimitedClearActive => true | budgetLimitedKeepActive => false end
  | _ => true
  end.

(** The wall clock and the report after a flush, in both of its forms. *)
Definition mark_clock (now : Z) (seconds : Z) (clear : bool) (status : ThreadGoalStatus) (s : goalAccountingState) : goalAccountingState :=
  let w := markAccounted seconds (wallClock s) in
  let s := set_wall (if clear then clearWallGoal now w else w) s in
  if decide (status = GoalStatusBudgetLimited) then s else set_reported None s.

Definition markProgressAccountedForStatus (now : Z) (turnID : gostring) (snapshot : goalProgressSnapshot)
    (status : ThreadGoalStatus) (d : budgetLimitedGoalDisposition) (s : goalAccountingState) : goalAccountingState :=
  let clear := shouldClearActiveGoal status d in
  let s := match turns s !! turnID with
           | Some t =>
               set_turns (<[turnID := mkTurnAccounting (currentTokenUsage t) (snapCurrentTokenUsage snapshot)
                                        (if clear then None else turnGoalID t) (accountTokens t)]> (turns s)) s
           | None => s
           end in
  mark_clock now (timeDeltaSeconds snapshot) clear status s.

Definition markIdleProgressAccountedForStatus (now : Z) (snapshot : idleGoalProgressSnapshot) (status : ThreadGoalStatus)
    (d : budgetLimitedGoalDisposition) (s : goalAccountingState) : goalAccountingState :=
  mark_clock now (idleTimeDeltaSeconds snapshot) (shouldClearActiveGoal status d) status s.

Definition finishTurn (turnID : gostring) (s : goalAccountingState) : goalAccountingState :=
  let s := set_turns (delete turnID (turns s)) s in
  if ptrEqStr (curTurnID s) turnID then set_cur None s else s.

Definition resetIdleProgressBaselineAndClearActiveGoal (now : Z) (s : goalAccountingState) : goalAccountingState :=
  set_reported None (set_wall (clearWallGoal now (resetBaseline now (wallClock s))) s).

Definition markBudgetLimitReportedIfNew (goalID : gostring) (s : goalAccountingState) : bool * goalAccountingState :=
  if ptrEqStr (budgetLimitReportedGoalID s) goalID then (false, s) else (true, set_reported (Some goalID) s).

(** ** Arithmetic *)

Lemma saturatingSubI64_clamp a b : is_int a -> is_int b -> saturatingSubI64 a b = clamp (a - b).
Proof.
  unfold saturatingSubI64, clamp, is_int. intros Ha Hb.
  destruct (Z.ltb_spec b 0), (Z.ltb_spec (maxInt + b) a), (Z.ltb_spec 0 b), (Z.ltb_spec a (minInt + b)); cbn [andb orb];
    try rewrite wrap_id by (unfold is_int, minInt, maxInt in *; lia); unfold minInt, maxInt in *; lia.
Qed.

Lemma saturatingAddI64_clamp a b : is_int a -> is_int b -> saturatingAddI64 a b = clamp (a + b).
Proof.
  unfold saturatingAddI64, clamp. intros Ha Hb.
  assert (wrap (a + b) = if maxInt <? a + b then a + b - 2 ^ 64 else if a + b <? minInt then a + b + 2 ^ 64 else a + b) as ->.
  { unfold is_int, minInt, maxInt in *. unfold wrap. destruct (Z.ltb_spec (2 ^ 63 - 1) (a + b)); [|destruct (Z.ltb_spec (a + b) (- (2 ^ 63 - 1) - 1))].
    - replace (a + b + 2 ^ 63) with (a + b - 2 ^ 64 + 2 ^ 63 + 1 * 2 ^ 64) by lia. rewrite Z.mod_add, Z.mod_small by lia. lia.
    - replace (a + b + 2 ^ 63) with (a + b + 2 ^ 64 + 2 ^ 63 + (- 1) * 2 ^ 64) by lia. rewrite Z.mod_add, Z.mod_small by lia. lia.
    - rewrite Z.mod_small; lia. }
  unfold is_int, minInt, maxInt in *.
  destruct (Z.ltb_spec (2 ^ 63 - 1) (a + b)), (Z.ltb_spec (a + b) (- (2 ^ 63 - 1) - 1)); try lia;
    repeat match goal with |- context [?x <? ?y] => destruct (Z.ltb_spec x y); cbn [andb orb] end; lia.
Qed.

(** What a usage is billed for, and usages of which one comes after the other. *)
Definition billed (u : TokenUsage) : Z := InputTokens u - CachedInputTokens u + OutputTokens u.

Definition in_bounds (u : TokenUsage) : Prop :=
  0 <= InputTokens u < 2 ^ 61 /\ 0 <= CachedInputTokens u < 2 ^ 61 /\ 0 <= OutputTokens u < 2 ^ 61.

Definition later (u v : TokenUsage) : Prop :=
  in_bounds u /\ in_bounds v /\ OutputTokens u <= OutputTokens v
  /\ CachedInputTokens v - CachedInputTokens u <= InputTokens v - InputTokens u.

Lemma later_refl u : in_bounds u -> later u u.
Proof. intros H. split_and!; [done|done|lia|lia]. Qed.

#[export] Instance later_trans : Transitive later.
Proof. intros u v w (H1 & H2 & H3 & H4) (H5 & H6 & H7 & H8). split_and!; [done|done|lia|lia]. Qed.

(** Without saturation the delta is the difference of what is billed. *)
Lemma tokenDelta_billed u v : later u v -> tokenDeltaSinceLastAccounting u v = billed v - billed u /\ 0 <= billed v - billed u.
Proof.
  intros (Hu & Hv & Ho & Hc). unfold in_bounds in *. unfold tokenDeltaSinceLastAccounting, goalTokenDeltaForUsage, billed. cbn.
  assert (forall a b, 0 <= a < 2 ^ 61 -> 0 <= b < 2 ^ 61 -> saturatingSubI64 a b = a - b) as Hsub.
  { intros a b Ha Hb. rewrite saturatingSubI64_clamp by (unfold is_int, minInt, maxInt; lia). unfold clamp, minInt, maxInt. lia. }
  rewrite (Hsub (InputTokens v)), (Hsub (CachedInputTokens v)), (Hsub (OutputTokens v)) by lia. unfold maxI64. destruct (Z.ltb_spec 0 (OutputTokens v - OutputTokens u)).
  - rewrite saturatingSubI64_clamp by (unfold is_int, minInt, maxInt; lia).
    rewrite saturatingAddI64_clamp by (unfold clamp, is_int, minInt, maxInt; lia). unfold clamp, minInt, maxInt. lia.
  - rewrite saturatingSubI64_clamp by (unfold is_int, minInt, maxInt; lia).
    rewrite saturatingAddI64_clamp by (unfold clamp, is_int, minInt, maxInt; lia). unfold clamp, minInt, maxInt. lia.
Qed.

Lemma timeDelta_nonneg now w : 0 <= timeDelta now w.
Proof. unfold timeDelta, nanosPerSecond. destruct (Z.ltb_spec (clamp (now - lastAccountedAt w)) 0); [lia|]. by apply Z.div_pos. Qed.

(** The order of the range does not matter for what is not flushed yet. *)
Lemma unflushed_fold (l : list (gostring * goalTurnAccounting)) : forall total, 0 <= total <= maxInt ->
  fold_left (fun total kt => if accountTokens kt.2 then saturatingAddI64 total (maxI64 (turnTokenDelta kt.2) 0) else total) l total
  = Z.min maxInt (total + foldr (fun kt n => (if accountTokens kt.2 then maxI64 (turnTokenDelta kt.2) 0 else 0) + n) 0 l).
Proof.
  assert (forall t, 0 <= maxI64 (turnTokenDelta t) 0 <= maxInt) as Hm.
  { intros t. assert (is_int (turnTokenDelta t)) as Hi.
    { unfold turnTokenDelta, tokenDeltaSinceLastAccounting, goalTokenDeltaForUsage, saturatingAddI64. destruct (_ || _); [|apply wrap_range].
      destruct (_ <? _); unfold is_int, minInt, maxInt; lia. }
    unfold maxI64, is_int in *. destruct (Z.ltb_spec 0 (turnTokenDelta t)); unfold maxInt in *; lia. }
  assert (forall l : list (gostring * goalTurnAccounting),
    0 <= foldr (fun kt n => (if accountTokens kt.2 then maxI64 (turnTokenDelta kt.2) 0 else 0) + n) 0 l) as Hf.
  { intros k. induction k as [|kt k IH]; cbn; [lia|]. specialize (Hm kt.2). destruct (accountTokens kt.2); lia. }
  induction l as [|kt l IH]; intros total Ht; cbn [fold_left foldr]; [lia|]. pose proof (Hm kt.2) as Hk. pose proof (Hf l).
  destruct (accountTokens kt.2); rewrite IH; try lia;
    rewrite saturatingAddI64_clamp by (unfold is_int, minInt in *; unfold maxInt in *; lia); unfold clamp, minInt, maxInt in *; lia.
Qed.

Lemma threadUnflushedTokenDelta_order (o o' : MapOrder goalTurnAccounting) s :
  threadUnflushedTokenDelta (H := o) s = threadUnflushedTokenDelta (H := o') s.
Proof.
  unfold threadUnflushedTokenDelta. rewrite !unflushed_fold by (unfold maxInt; lia). do 2 f_equal.
  assert (@range _ o (turns s) ≡ₚ @range _ o' (turns s)) as Hp by (by rewrite !range_perm).
  induction Hp; cbn; lia.
Qed.
End Accounting.
