(* ===== verification/GoalRuns.v ===== *)
(** * internal/ext/goal: what holds of goals in all runs

    Theorems about the programs of [GoalRuntime.v]: every interleaving keeps
    goals within their budgets and their usage from shrinking; and a turn charges
    its goal with exactly the tokens it used. *)

From stdpp Require Import base list gmap strings.
From S2P Require Import Prelude GoStrings GoText GoOrder Truncation ProtocolItems GoalStore GoalAccounting GoalRuntime.

Module GoalRuns.
Import Truncation Items Goals Accounting GoalRuntime.
#[local] Open Scope Z_scope.

(** ** Programs whose every step is allowed *)

Inductive safe (P : choice -> Prop) (R : table -> table -> Prop) {A} : prog A -> Prop :=
| safe_ret a : safe P R (ret a)
| safe_act f : (forall c s, P c -> R (goals s) (goals (fst (f c s)))) ->
    (forall c s, P c -> safe P R (snd (f c s))) -> safe P R (act f).

Lemma safe_bind P R {A B} (p : prog A) (k : A -> prog B) : safe P R p -> (forall a, safe P R (k a)) -> safe P R (bind p k).
Proof.
  intros Hp Hk. induction Hp as [a|f Hr _ IH]; cbn; [apply Hk|].
  constructor; intros c s Hc; specialize (Hr c s Hc); specialize (IH c s Hc); by destruct (f c s).
Qed.

Lemma safe_try P R {A B} (p : prog (gostring + A)) (k : A -> prog (gostring + B)) :
  safe P R p -> (forall a, safe P R (k a)) -> safe P R (try p k).
Proof. intros Hp Hk. apply safe_bind; [done|]. intros [e|a]; [constructor|apply Hk]. Qed.

Create HintDb goal_safe.

Section Safe.
Context (G threadID bad_row : gostring).

(** The inputs that draw no id twice, and the steps that are allowed. *)
Definition draws_fresh (c : choice) : Prop := fresh_id c <> G.
#[local] Notation good := (safe draws_fresh (table_step G)).

Lemma safe_observe {A} (f : Z -> goalAccountingState -> A) : good (observe f).
Proof. constructor; intros c s _; [done|constructor]. Qed.
Lemma safe_modify {A} (f : Z -> goalAccountingState -> A * goalAccountingState) : good (modify f).
Proof. constructor; intros c s _; destruct (f (clock s) (accounting s)); [done|constructor]. Qed.
Lemma safe_update f : good (update f).
Proof. constructor; intros c s _; [done|constructor]. Qed.
Lemma safe_emit o : good (emit o).
Proof. constructor; intros c s _; [done|constructor]. Qed.
Lemma safe_enabled : good isEnabled.
Proof. constructor; intros c s _; [done|constructor]. Qed.
Lemma safe_statement {A} (f : gostring -> Z -> table -> A * table) :
  (forall id now t, id <> G -> table_step G t (snd (f id now t))) -> good (statement f).
Proof.
  intros Hf. constructor; intros c s Hc; (destruct (db_error c); [first [done|constructor]|]);
    pose proof (Hf (fresh_id c) (millis (clock s)) (goals s) Hc) as H; destruct (f _ _ _); [done|constructor].
Qed.
Lemma safe_wrap {A} prefix (p : prog (gostring + A)) : good p -> good (wrap_error prefix p).
Proof. intros Hp. apply safe_bind; [done|]. intros [?|?]; constructor. Qed.
Lemma safe_scanned {A} (p : prog (gostring + option A)) : good p -> good (scanned bad_row p).
Proof. intros Hp. apply safe_bind; [done|]. intros [?|[?|]]; constructor. Qed.
Lemma safe_when {A} (off : A) p : good p -> good (when_enabled off p).
Proof. intros Hp. apply safe_bind; [apply safe_enabled|]. intros []; [done|constructor]. Qed.
Lemma safe_silent {A} (p : prog A) : good p -> good (silent p).
Proof. intros Hp. apply safe_bind; [done|]. intros _. constructor. Qed.
End Safe.

(** Every match of a program. *)
Ltac safe_prog := repeat first
  [ solve [eauto 3 with goal_safe nocore] | apply safe_ret | apply safe_observe | apply safe_modify | apply safe_update | apply safe_emit | apply safe_enabled
  | apply safe_wrap | apply safe_scanned | apply safe_when | apply safe_silent | (apply safe_try; [|intros ?]) | (apply safe_bind; [|intros ?])
  | match goal with |- safe _ _ (match ?x with _ => _ end) => destruct x end ].

Section Programs.
Context (G threadID bad_row : gostring).
#[local] Notation good := (safe (draws_fresh G) (table_step G)).

Lemma safe_get : good (GetThreadGoalOf threadID bad_row).
Proof. unfold GetThreadGoalOf. safe_prog. apply safe_statement. intros. done. Qed.

Lemma safe_insert objective status budget : good (InsertThreadGoalOf threadID bad_row objective status budget).
Proof. unfold InsertThreadGoalOf. safe_prog. apply safe_statement. intros. by apply InsertThreadGoal_step. Qed.

Lemma safe_replace objective status budget : good (ReplaceThreadGoalOf threadID bad_row objective status budget).
Proof. unfold ReplaceThreadGoalOf. safe_prog. apply safe_statement. intros. by apply ReplaceThreadGoal_step. Qed.

Lemma safe_update_goal u : good (UpdateThreadGoalOf threadID bad_row u).
Proof.
  unfold UpdateThreadGoalOf. pose proof safe_get. destruct (updated_row u 0) as [upd|] eqn:E; safe_prog; apply safe_statement; intros id now t _.
  - apply UpdateThreadGoal_step.
  - unfold UpdateThreadGoal_exec. assert (updated_row u now = None) as ->; [|done].
    unfold updated_row in *. by destruct (NewStatus u), (NewTokenBudget u), (NewObjective u).
Qed.

Lemma safe_active_status status : status <> GoalStatusActive -> good (updateActiveThreadGoalStatusOf threadID bad_row status).
Proof.
  intros Hs. unfold updateActiveThreadGoalStatusOf. pose proof safe_get. safe_prog. apply safe_statement. intros.
  by apply updateActiveThreadGoalStatus_step.
Qed.

Lemma safe_delete : good (DeleteThreadGoalOf threadID).
Proof. unfold DeleteThreadGoalOf. safe_prog. apply safe_statement. intros. apply DeleteThreadGoal_step. Qed.

Lemma safe_account time tokens mode expected : good (AccountThreadGoalUsage threadID bad_row time tokens mode expected).
Proof.
  unfold AccountThreadGoalUsage. pose proof safe_get. safe_prog. apply safe_statement. intros. apply AccountThreadGoalUsage_step.
Qed.
End Programs.
#[export] Hint Resolve safe_get safe_insert safe_replace safe_update_goal safe_delete safe_account : goal_safe.

Section Calls.
Context (G threadID bad_row : gostring) `{MapOrder goalTurnAccounting}.
#[local] Notation good := (safe (draws_fresh G) (table_step G)).

Lemma safe_terminal previous goal : good (recordTerminalIfStatusChanged previous goal).
Proof. unfold recordTerminalIfStatusChanged. safe_prog. Qed.

Lemma safe_status prefix expected : good (currentGoalStatusForMetrics threadID bad_row prefix expected).
Proof. unfold currentGoalStatusForMetrics. safe_prog. Qed.
#[local] Hint Resolve safe_terminal safe_status : goal_safe.

Lemma safe_flush r a turnID eventID mode d : good (flush_turn threadID bad_row r a turnID eventID mode d).
Proof. unfold flush_turn. safe_prog. Qed.

Lemma safe_idle eventID mode d : good (accountIdleGoalProgress threadID bad_row eventID mode d).
Proof. unfold accountIdleGoalProgress. safe_prog. Qed.
#[local] Hint Resolve safe_flush safe_idle : goal_safe.

Lemma safe_limit turnID : good (UsageLimitActiveGoalForTurn threadID bad_row turnID).
Proof.
  unfold UsageLimitActiveGoalForTurn, UsageLimitActiveThreadGoal, accountActiveGoalProgress.
  pose proof (safe_active_status G threadID bad_row GoalStatusUsageLimited ltac:(done)). safe_prog.
Qed.
#[local] Hint Resolve safe_limit : goal_safe.

Lemma safe_config on : good (OnConfigChanged on).
Proof. constructor; intros c s _; [done|constructor]. Qed.

Lemma safe_preview goal : good (fillEmptyThreadPreviewIfPossible threadID goal).
Proof. constructor; intros c s _; cbn; [by destruct (db_error c)|constructor]. Qed.
#[local] Hint Resolve safe_config safe_preview : goal_safe.

Lemma safe_program c : good (program threadID bad_row c).
Proof.
  pose proof (safe_active_status G threadID bad_row GoalStatusPaused ltac:(done)).
  destruct c; cbn [program];
    unfold OnTurnStart, OnTurnStop, OnTurnAbort, turn_over, OnTurnError, OnTokenUsage, OnToolFinish, PrepareExternalGoalMutation,
      ApplyExternalGoalSet, recordCreated, recordResumedIfStatusChanged, recordResumed, ApplyExternalGoalClear, RestoreAfterResume,
      handleGet, handleCreate, handleUpdate, toolAccountActiveGoalProgress, PauseActiveThreadGoal, accountActiveGoalProgress; safe_prog.
Qed.

(** ** Interleavings *)

Definition all_good (ps : list (prog unit)) : Prop := Forall (fun p : prog unit => good p) ps.

Definition move_fresh (m : move) : Prop := match m with starts _ => True | moves _ c => draws_fresh G c end.

Lemma move_step_good m s ps s' ps' : move_step threadID bad_row m (s, ps) = (s', ps') -> move_fresh m -> all_good ps ->
  table_step G (goals s) (goals s') /\ all_good ps'.
Proof.
  destruct m as [c|t c]; cbn; intros Hm Hf Hps; simplify_eq.
  { split; [done|]. apply Forall_app. split; [done|]. repeat constructor. apply safe_program. }
  destruct (ps !! t) as [[?|f]|] eqn:E; simplify_eq; try done.
  destruct (f c (at_time c s)) as [s1 p] eqn:Ef. simplify_eq. pose proof Hps as Hg. apply (Forall_lookup_1 _ _ _ _ Hg) in E.
  inversion E as [|? Hr Hp]; subst. specialize (Hr c (at_time c s) Hf). specialize (Hp c (at_time c s) Hf). rewrite Ef in Hr, Hp.
  split; [done|]. by apply Forall_insert.
Qed.

Lemma moves_run_good ms : forall s ps s' ps', moves_run threadID bad_row ms (s, ps) = (s', ps') -> Forall move_fresh ms -> all_good ps ->
  table_step G (goals s) (goals s').
Proof.
  unfold moves_run. induction ms as [|m ms IH]; cbn [fold_left]; intros s ps s' ps' Hm Hf Hps; [by simplify_eq|]. inversion Hf; subst.
  destruct (move_step threadID bad_row m (s, ps)) as [s1 ps1] eqn:E. destruct (move_step_good _ _ _ _ _ E) as [Hs Hg]; [done..|].
  trans (goals s1); [done|]. by eapply IH.
Qed.
End Calls.

#[local] Instance ascii_inhabited : Inhabited ascii := populate Ascii.zero.
#[local] Instance gostring_infinite : Infinite gostring := list_infinite (A := ascii).

Definition drawn (ms : list move) : list gostring := omap (fun m => match m with moves _ c => Some (fresh_id c) | starts _ => None end) ms.

Lemma not_drawn G ms : G ∉ drawn ms -> Forall (move_fresh G) ms.
Proof.
  intros HG. apply Forall_forall. intros [c|t c] Hm; [done|]. intros E. apply HG. apply list_elem_of_omap. exists (moves t c).
  split; [done|]. cbn. by rewrite <- E.
Qed.

(** C20: in every interleaving of hooks, tools and calls of the host, with
    failing statements anywhere, a goal whose status is active has budget left,
    and as long as a thread keeps its goal the usage of the goal never goes
    down. *)
Theorem goals_stay_in_budget `{MapOrder goalTurnAccounting} threadID bad_row ms s s' ps' :
  moves_run threadID bad_row ms (s, []) = (s', ps') -> table_ok (goals s) ->
  forall id g', goals s' !! id = Some g' ->
    0 <= TokensUsed g' /\ 0 <= TimeUsedSeconds g'
    /\ (Status g' = GoalStatusActive -> match TokenBudget g' with Some budget => TokensUsed g' < budget | None => True end)
    /\ (GoalID g' ∉ drawn ms -> exists g, goals s !! id = Some g /\ GoalID g = GoalID g'
          /\ TokensUsed g <= TokensUsed g' /\ TimeUsedSeconds g <= TimeUsedSeconds g').
Proof.
  intros Hr Hok id g' Hg'. assert (forall G, G ∉ drawn ms -> table_step G (goals s) (goals s')) as Hstep.
  { intros G HG. eapply moves_run_good; [exact Hr|by apply not_drawn|constructor]. }
  destruct (Hstep (fresh (drawn ms)) (infinite_is_fresh _)) as [Hok' _]. specialize (Hok' Hok). destruct (Hok' _ _ Hg') as (H1 & H2 & H3).
  split_and!; [done|done| |].
  - intros Ha. specialize (H3 Ha). unfold at_least in H3. destruct (TokenBudget g'); [|done]. by apply Z.leb_gt.
  - intros HG. destruct (Hstep _ HG) as [_ Hk]. destruct (Hk _ _ Hg' eq_refl) as (g & Hg & Hid & Hu & Ht). exists g. by split_and!.
Qed.

(** ** One program alone: what it may end in

    [P] holds of the inputs of its steps. *)

Fixpoint ends {A} (P : choice -> Prop) (Q : A -> System -> Prop) (p : prog A) (s : System) : Prop :=
  match p with
  | ret a => Q a s
  | act f => forall c, P c -> match f c (at_time c s) with (s', p') => ends P Q p' s' end
  end.

Lemma prog_ind' {A} (P : prog A -> Prop) : (forall a, P (ret a)) -> (forall f, (forall c s, P (snd (f c s))) -> P (act f)) -> forall p, P p.
Proof.
  intros Hret Hact. fix IH 1. intros [a|f]; [apply Hret|]. apply Hact. intros c s. destruct (f c s) as [s' p]. apply IH.
Qed.

(** Two systems that differ in time, events and previews only. *)
Definition same (s s' : System) : Prop := accounting s' = accounting s /\ goals s' = goals s /\ enabled s' = enabled s.

Lemma threadGoalFromRow_Some g r : threadGoalFromRow g = Some r -> r = g.
Proof. unfold threadGoalFromRow. destruct (_ && _); congruence. Qed.

Section Ends.
Context (P : choice -> Prop).
#[local] Notation ends := (ends P).

Lemma ends_exec {A} (Q : A -> System -> Prop) p : forall s cs, Forall P cs -> P calm -> ends Q p s ->
  Q (fst (fst (exec p cs s))) (snd (fst (exec p cs s))).
Proof.
  induction p as [a|f IH] using prog_ind'; intros s cs Hcs Hc Hp; cbn; [done|].
  assert (P (hd calm cs) /\ Forall P (tl cs)) as [H1 H2] by (by inversion Hcs). specialize (Hp (hd calm cs) H1).
  specialize (IH (hd calm cs) (at_time (hd calm cs) s)). destruct (f _ _) as [s' p']. by apply IH.
Qed.

Lemma ends_mono {A} (Q Q' : A -> System -> Prop) p : forall s, ends Q p s -> (forall a s, Q a s -> Q' a s) -> ends Q' p s.
Proof.
  induction p as [a|f IH] using prog_ind'; intros s Hp HQ; cbn in *; [auto|]. intros c Hc. specialize (Hp c Hc).
  specialize (IH c (at_time c s)). destruct (f _ _) as [s' p']. by apply IH.
Qed.

Lemma ends_bind {A B} (Q : B -> System -> Prop) (p : prog A) (k : A -> prog B) : forall s,
  ends (fun a s => ends Q (k a) s) p s -> ends Q (bind p k) s.
Proof.
  induction p as [a|f IH] using prog_ind'; intros s Hp; cbn in *; [done|]. intros c Hc. specialize (Hp c Hc).
  specialize (IH c (at_time c s)). destruct (f _ _) as [s' p']. by apply IH.
Qed.

Lemma ends_try {A B} (Q : gostring + B -> System -> Prop) (p : prog (gostring + A)) (k : A -> prog (gostring + B)) s :
  ends (fun r s => match r with inl e => Q (inl e) s | inr a => ends Q (k a) s end) p s -> ends Q (try p k) s.
Proof. intros H. apply ends_bind. eapply ends_mono; [exact H|]. by intros [e|a]. Qed.

Lemma ends_wrap {A} prefix (Q : gostring + A -> System -> Prop) p s :
  ends (fun r s => match r with inl e => Q (inl (prefix ++ e)) s | inr a => Q (inr a) s end) p s -> ends Q (wrap_error prefix p) s.
Proof. intros H. apply ends_bind. eapply ends_mono; [exact H|]. by intros [e|a]. Qed.

Lemma ends_observe {A} (f : Z -> goalAccountingState -> A) Q s :
  (forall now s', same s s' -> Q (f now (accounting s)) s') -> ends Q (observe f) s.
Proof. intros H c _. cbn. by apply H. Qed.

Lemma ends_enabled Q s : (forall s', same s s' -> Q (enabled s) s') -> ends Q isEnabled s.
Proof. intros H c _. cbn. by apply H. Qed.

Lemma ends_emit o Q s : (forall s', same s s' -> Q tt s') -> ends Q (emit o) s.
Proof. intros H c _. cbn. by apply H. Qed.

Lemma ends_modify {A} (f : Z -> goalAccountingState -> A * goalAccountingState) Q s :
  (forall now s', accounting s' = snd (f now (accounting s)) -> goals s' = goals s -> enabled s' = enabled s ->
     Q (fst (f now (accounting s))) s') -> ends Q (modify f) s.
Proof.
  intros H c _. unfold modify. cbn. specialize (H (clock s + Z.of_N (elapsed c))). destruct (f _ _) as [a x]. by apply H.
Qed.

Lemma ends_update f Q s :
  (forall now s', accounting s' = f now (accounting s) -> goals s' = goals s -> enabled s' = enabled s -> Q tt s') -> ends Q (update f) s.
Proof. intros H c _. cbn. by eapply H. Qed.

Context (threadID bad_row : gostring).

(** A statement may fail; a row that cannot be read fails every read. *)
Definition may_fail : Prop := exists c, P c /\ db_error c <> None.
Definition broken (s : System) : Prop := exists g, goals s !! threadID = Some g /\ threadGoalFromRow g = None.

Lemma ends_get (Q : gostring + option ThreadGoal -> System -> Prop) s :
  (forall e s', same s s' -> may_fail \/ broken s -> Q (inl e) s') ->
  (forall s', same s s' -> ~ broken s -> Q (inr (goals s !! threadID)) s') ->
  ends Q (GetThreadGoalOf threadID bad_row) s.
Proof.
  intros He Hr. apply ends_wrap, ends_bind. intros c Hc. cbn. destruct (db_error c) eqn:Ec; cbn.
  { apply He; [done|]. left. exists c. split; [done|congruence]. }
  unfold GetThreadGoal, row_result. destruct (goals s !! threadID) as [g|] eqn:E.
  2: { apply Hr; [done|]. intros (g & Hg & _). congruence. }
  destruct (threadGoalFromRow g) as [g'|] eqn:Eg; cbn; [|apply He; [done|]; right; by exists g].
  pose proof Eg as E'. apply threadGoalFromRow_Some in E' as ->. apply Hr; [done|]. intros (g2 & Hg & Hn). congruence.
Qed.

(** The row is charged as the mode allows; the row that came back is its new
    value, unless it cannot be read any more. *)
Lemma ends_account time tokens mode expected (Q : gostring + GoalAccountingOutcome -> System -> Prop) s :
  (forall e s', same s s' -> may_fail \/ broken s -> Q (inl e) s') ->
  (forall goal s', same s s' -> (time <= 0 /\ tokens <= 0)
     \/ (forall g, goals s !! threadID = Some g -> statusFilter mode (Status g) && id_matches expected g = false) ->
     Q (inr (GoalAccountingOutcomeUnchanged goal)) s') ->
  (forall g now s', accounting s' = accounting s -> enabled s' = enabled s -> goals s !! threadID = Some g ->
     statusFilter mode (Status g) = true -> id_matches expected g = true ->
     let g' := charged_row mode now (Z.max time 0) (Z.max tokens 0) g in
     goals s' = <[threadID := g']> (goals s) ->
     match threadGoalFromRow g' with
     | Some _ => Q (inr (GoalAccountingOutcomeUpdated g')) s'
     | None => forall e, Q (inl e) s'
     end) ->
  ends Q (AccountThreadGoalUsage threadID bad_row time tokens mode expected) s.
Proof.
  intros He Hn Hu. assert (((time <= 0 /\ tokens <= 0)
     \/ (forall g, goals s !! threadID = Some g -> statusFilter mode (Status g) && id_matches expected g = false)) ->
    forall s0, same s s0 -> ends Q (try (GetThreadGoalOf threadID bad_row)
    (fun goal => ret (inr (GoalAccountingOutcomeUnchanged goal)))) s0) as Hread.
  { intros Hw s0 (H1 & H2 & H3). apply ends_try, ends_get; [intros e s' (H4 & H5 & H6) Hb|intros s' (H4 & H5 & H6) _; cbn].
    - apply He; [split_and!; congruence|]. unfold broken in *. by rewrite H2 in Hb.
    - apply Hn; [split_and!; congruence|done]. }
  unfold AccountThreadGoalUsage. destruct ((Z.max time 0 =? 0) && (Z.max tokens 0 =? 0)) eqn:Ez.
  { apply Hread; [|done]. left. apply andb_true_iff in Ez as [?%Z.eqb_eq ?%Z.eqb_eq]. lia. }
  apply ends_try, ends_wrap, ends_bind. intros c Hc. cbn. destruct (db_error c) eqn:Ec; cbn.
  { apply He; [done|]. left. exists c. split; [done|congruence]. }
  unfold AccountThreadGoalUsage_exec. rewrite Ez. unfold sql_update.
  destruct (goals s !! threadID) as [g|] eqn:E; [|apply Hread; [by right; intros|done]].
  destruct (statusFilter mode (Status g) && id_matches expected g) eqn:E1; [|apply Hread; [right; intros; by simplify_eq|done]].
  apply andb_true_iff in E1 as [E1 E2].
  match goal with |- context [<[threadID := ?g']> (goals s)] =>
    specialize (Hu g _ (set_goals (<[threadID := g']> (goals s)) (at_time c s)) eq_refl eq_refl eq_refl E1 E2 eq_refl);
    pose proof (threadGoalFromRow_Some g') as Hr end.
  unfold set_goals in *. cbn in *. destruct (threadGoalFromRow _) as [r|]; cbn; [|by apply Hu]. by rewrite (Hr r eq_refl).
Qed.
End Ends.

(** ** A turn and its goal *)

Section Turn.
Context (P : choice -> Prop) (threadID bad_row turnID : gostring) (g0 : ThreadGoal) (u0 : TokenUsage).
#[local] Notation ends := (ends P).
#[local] Notation broken := (broken threadID).

(** The goal of the turn with what it was charged, up to the usage [last]. *)
Definition charged (last : TokenUsage) (g : ThreadGoal) : Prop :=
  GoalID g = GoalID g0 /\ (Status g = GoalStatusActive \/ Status g = GoalStatusBudgetLimited)
  /\ TokensUsed g = TokensUsed g0 + (billed last - billed u0) /\ 0 <= TokensUsed g /\ 0 <= TimeUsedSeconds g.

(** The turn runs for the goal, and the usage [u] was reported last. *)
Definition on_goal (u : TokenUsage) (s : System) : Prop :=
  enabled s = true /\ exists last g, later u0 last /\ later last u
  /\ turns (accounting s) !! turnID = Some (mkTurnAccounting u last (Some (GoalID g0)) true)
  /\ goals s !! threadID = Some g /\ charged last g.

Definition settled (u : TokenUsage) (s : System) : Prop := exists g, goals s !! threadID = Some g /\ charged u g.

Lemma on_goal_same u s s' : same s s' -> on_goal u s -> on_goal u s'.
Proof. intros (H1 & H2 & H3). unfold on_goal. by rewrite H1, H2, H3. Qed.

Lemma broken_same s s' : same s s' -> broken s -> broken s'.
Proof. intros (_ & H & _). unfold GoalRuns.broken. by rewrite H. Qed.

Lemma charged_more now time last u g : 0 <= time -> later last u -> charged last g ->
  charged u (charged_row GoalAccountingModeActiveOnly now time (Z.max (tokenDeltaSinceLastAccounting last u) 0) g).
Proof.
  intros Ht Hl (H1 & H2 & H3 & H4 & H5). destruct (tokenDelta_billed _ _ Hl) as [Hd Hn]. rewrite Hd.
  split_and!; cbn; [done| |lia|lia|lia]. destruct (_ && _); [by right|done].
Qed.

Lemma snapshot_turn now u last s :
  turns s !! turnID = Some (mkTurnAccounting u last (Some (GoalID g0)) true) ->
  match progressSnapshot now turnID s with
  | None => tokenDeltaSinceLastAccounting last u <= 0
  | Some snap => snapCurrentTokenUsage snap = u /\ expectedGoalID snap = GoalID g0
      /\ tokenDelta snap = tokenDeltaSinceLastAccounting last u /\ 0 <= timeDeltaSeconds snap
      /\ (0 < timeDeltaSeconds snap \/ 0 < tokenDelta snap)
  end.
Proof.
  intros Ht. unfold progressSnapshot. rewrite Ht. set (time := if ptrEqStr _ _ then _ else 0).
  assert (0 <= time) by (unfold time; destruct (ptrEqStr _ _); [apply timeDelta_nonneg|done]).
  destruct (Z.eqb_spec time 0), (Z.leb_spec (tokenDeltaSinceLastAccounting last u) 0); cbn; try lia; split_and!; first [done|lia].
Qed.

(** The outcome of a flush. *)
Definition flushed (d : budgetLimitedGoalDisposition) (u : TokenUsage) (r : gostring + option ThreadGoal) (s : System) : Prop :=
  match r with
  | inl _ => (on_goal u s /\ may_fail P) \/ broken s
  | inr None => on_goal u s /\ settled u s
  | inr (Some g) => settled u s /\ enabled s = true /\ (d = budgetLimitedKeepActive -> on_goal u s)
  end.

Lemma flushed_same d u r s s' : same s s' -> flushed d u r s -> flushed d u r s'.
Proof.
  intros Hs. assert (settled u s -> settled u s') by (unfold settled; by destruct Hs as (_ & -> & _)).
  assert (enabled s = true -> enabled s' = true) by (by destruct Hs as (_ & _ & ->)).
  destruct r as [e|[g|]]; cbn; intuition eauto using on_goal_same, broken_same.
Qed.

Lemma ends_terminal previous goal Q s : (forall s', same s s' -> Q tt s') -> ends Q (recordTerminalIfStatusChanged previous goal) s.
Proof.
  intros H. unfold recordTerminalIfStatusChanged. case_decide; [by apply H|]. destruct (terminal_metric _); [|by apply H].
  apply ends_bind, ends_emit. intros s1 (H1 & H2 & H3). apply ends_bind, ends_emit. intros s2 (H4 & H5 & H6).
  apply ends_emit. intros s3 (H7 & H8 & H9). apply H. split_and!; congruence.
Qed.

Lemma ends_status prefix expected Q s :
  (forall e s', same s s' -> may_fail P \/ broken s -> Q (inl e) s') -> (forall r s', same s s' -> ~ broken s -> Q (inr r) s') ->
  ends Q (currentGoalStatusForMetrics threadID bad_row prefix expected) s.
Proof. intros He Hr. apply ends_try, ends_wrap, ends_get; [intros e s' Hs Hb; by apply He|intros s' Hs; by apply Hr]. Qed.

Lemma mark_on_goal now u last snap status d s s' :
  enabled s = true -> turns (accounting s) !! turnID = Some (mkTurnAccounting u last (Some (GoalID g0)) true) ->
  snapCurrentTokenUsage snap = u -> later u0 u -> settled u s ->
  accounting s' = markProgressAccountedForStatus now turnID snap status d (accounting s) -> goals s' = goals s -> enabled s' = enabled s ->
  status = GoalStatusActive \/ status = GoalStatusBudgetLimited ->
  settled u s' /\ enabled s' = true /\ (d = budgetLimitedKeepActive -> on_goal u s').
Proof.
  intros He Ht Hu Hl (g & Hg & Hc) Ha Hgs Hen Hst. assert (settled u s') as Hset by (exists g; by rewrite Hgs).
  split_and!; [done|congruence|]. intros ->. split; [congruence|]. exists u, g. destruct Hl as (? & ? & Hl).
  split_and!; [done| |..]; [by apply later_refl| |by rewrite Hgs|done].
  rewrite Ha. unfold markProgressAccountedForStatus, mark_clock. rewrite Ht.
  assert (shouldClearActiveGoal status budgetLimitedKeepActive = false) as -> by (by destruct Hst as [-> | ->]). rewrite Hu.
  case_decide; cbn; by rewrite lookup_insert_eq.
Qed.

Lemma ends_flush r a eventID d u s : on_goal u s ->
  ends (flushed d u) (flush_turn threadID bad_row r a turnID eventID GoalAccountingModeActiveOnly d) s.
Proof.
  intros Hon. pose proof Hon as (Hen & last & g & Hl0 & Hl & Ht & Hg & Hc). apply ends_bind, ends_observe. intros now s1 Hs1.
  pose proof (snapshot_turn now u last _ Ht) as Hsn. destruct (progressSnapshot now turnID (accounting s)) as [snap|].
  2: { cbn. split; [by eapply on_goal_same|]. destruct Hs1 as (_ & Hg1 & _). exists g. rewrite Hg1. split; [done|].
       destruct (tokenDelta_billed _ _ Hl) as [Hd Hp], Hc as (? & ? & ? & ? & ?). rewrite Hd in Hsn. split_and!; try done; lia. }
  destruct Hsn as (Hu & Hid & Htok & Htime & Hpos). pose proof (on_goal_same _ _ _ Hs1 Hon) as Hon1.
  assert (forall s', same s1 s' -> may_fail P \/ broken s1 -> (on_goal u s' /\ may_fail P) \/ broken s') as Hfail.
  { intros s' Hs' [Hf|Hb]; [left; split; [by eapply on_goal_same|done]|right; by eapply broken_same]. }
  apply ends_try, ends_status; [intros e s' Hs' Hf; by apply Hfail|]. intros previous s2 Hs2 _.
  assert (same s s2) as Hs02 by (destruct Hs1 as (?&?&?), Hs2 as (?&?&?); split_and!; congruence).
  pose proof (on_goal_same _ _ _ Hs02 Hon) as Hon2. apply ends_try, ends_wrap, ends_account.
  - intros e s' Hs' [Hf|Hb]; [left; split; [by eapply on_goal_same|done]|right; by eapply broken_same].
  - intros goal s' Hs' [[??]|Hno]; [lia|]. destruct Hs02 as (_ & Hg2 & _). rewrite Hg2 in Hno. specialize (Hno _ Hg).
    destruct Hc as (Hgid & Hst & _). rewrite Hid in Hno. cbn in Hno. rewrite (bool_decide_true (GoalID g = GoalID g0)) in Hno by done.
    by destruct Hst as [Hst|Hst]; rewrite Hst in Hno.
  - intros g1 now2 s3 Ha3 He3 Hg1 Hf Hm g' Hgs. destruct Hs02 as (Ha2 & Hg2 & He2). rewrite Hg2, Hg in Hg1. injection Hg1 as <-.
    assert (charged u g') as Hset by (unfold g'; rewrite Htok; apply charged_more; [lia|done..]).
    assert (goals s3 !! threadID = Some g') as Hlook by (rewrite Hgs; apply lookup_insert_eq).
    destruct (threadGoalFromRow g') as [r'|] eqn:Er; [|intros e; right; by exists g'].
    apply ends_bind, ends_terminal. intros s4 Hs4. apply ends_bind, ends_update. intros now3 s5 Ha5 Hg5 He5.
    apply ends_bind, ends_emit. intros s6 Hs6. cbn. apply (flushed_same d u (inr (Some g')) s5 s6 Hs6). cbn.
    destruct Hs4 as (Ha4 & Hg4 & He4).
    apply (mark_on_goal now3 u last snap (Status g') d s4 s5); try done; try congruence.
    + by trans last.
    + exists g'. by rewrite Hg4.
    + by destruct Hset as (_ & ? & _).
Qed.

(** ** The hooks of the turn *)

Definition turn_state (u : TokenUsage) (s : System) : Prop := on_goal u s \/ broken s.

Lemma ends_OnTokenUsage `{MapOrder goalTurnAccounting} u v s : later u v -> on_goal u s ->
  ends (fun _ => on_goal v) (OnTokenUsage turnID v) s.
Proof.
  intros Hv Hon. pose proof Hon as (He & last & g & Hl0 & Hl & Ht & Hg & Hc). apply ends_bind, ends_enabled.
  intros s1 (H1 & H2 & H3). rewrite He. apply ends_update. intros now s2 H4 H5 H6.
  split; [congruence|]. exists last, g. split_and!; [done|by trans u| |by rewrite H5, H2|done].
  rewrite H4, H1. unfold recordTokenUsage. rewrite Ht. cbn. by rewrite lookup_insert_eq.
Qed.

Lemma reported_on_goal u x s s' : on_goal u s -> accounting s' = set_reported x (accounting s) -> goals s' = goals s ->
  enabled s' = enabled s -> on_goal u s'.
Proof. intros Hon H1 H2 H3. unfold on_goal. by rewrite H1, H2, H3. Qed.

Lemma ends_OnToolFinish callID namespace name o u s : on_goal u s ->
  ends (fun _ => turn_state u) (OnToolFinish threadID bad_row turnID callID namespace name o) s.
Proof.
  intros Hon. pose proof Hon as (He & _). apply ends_bind, ends_enabled. intros s1 Hs1. rewrite He.
  pose proof (on_goal_same _ _ _ Hs1 Hon) as Hon1. destruct (_ && _); [|by left].
  apply ends_bind. eapply ends_mono; [by apply ends_flush|]. intros [e|[goal|]] s2 Hf; cbn in Hf.
  - destruct Hf as [[Hf _]|Hf]; [by left|by right].
  - destruct Hf as (_ & _ & Hf). specialize (Hf eq_refl). case_decide; [|by left]. apply ends_bind, ends_modify.
    intros now s3 H1 H2 H3. assert (on_goal u s3) as Hon3.
    { unfold markBudgetLimitReportedIfNew in H1. destruct (ptrEqStr _ _); cbn in H1; [by apply (on_goal_same _ s2)|].
      by eapply reported_on_goal. }
    destruct (fst _); [|by left]. apply ends_emit. intros s4 Hs4. left. by eapply on_goal_same.
  - left. by destruct Hf.
Qed.

Lemma ends_turn_over suffix u s : on_goal u s ->
  ends (fun _ s' => broken s' \/ (on_goal u s' /\ may_fail P) \/ (settled u s' /\ turns (accounting s') !! turnID = None))
    (turn_over threadID bad_row suffix turnID) s.
Proof.
  intros Hon. pose proof Hon as (He & _). apply ends_bind, ends_enabled. intros s1 Hs1. rewrite He.
  apply ends_bind. eapply ends_mono; [apply ends_flush; by eapply on_goal_same|]. intros [e|r] s2 Hf; cbn in Hf; [cbn; tauto|].
  assert (settled u s2) as (g & Hg & Hc) by (destruct r; cbn in Hf; by destruct_and? Hf).
  apply ends_update. intros now s3 H1 H2 H3. right; right. split; [exists g; by rewrite H2|].
  rewrite H1. unfold finishTurn. destruct (ptrEqStr _ _); cbn; by rewrite lookup_delete_eq.
Qed.

(** A row that cannot be read stays as it is: the flush reads it first. *)
Lemma ends_flush_broken r a eventID mode d s : broken s ->
  ends (fun r s' => broken s' /\ match r with inr (Some _) => False | _ => True end) (flush_turn threadID bad_row r a turnID eventID mode d) s.
Proof.
  intros Hb. apply ends_bind, ends_observe. intros now s1 Hs1. destruct (progressSnapshot _ _ _); [|by split; [eapply broken_same|]].
  apply ends_try, ends_status; [intros e s' Hs' _; split; [|done]; by do 2 (eapply broken_same; [done|])|].
  intros previous s2 _ Hn. destruct Hn. by eapply broken_same.
Qed.

Lemma broken_goals s s' : goals s' = goals s -> broken s -> broken s'.
Proof. intros H. unfold GoalRuns.broken. by rewrite H. Qed.

Lemma ends_when {A} (off : A) p Q s : (forall s', same s s' -> Q off s') -> (forall s', same s s' -> ends Q p s') -> ends Q (when_enabled off p) s.
Proof. intros H1 H2. apply ends_bind, ends_enabled. intros s' Hs. destruct (enabled s); [by apply H2|by apply H1]. Qed.

Lemma keep_broken_OnTokenUsage `{MapOrder goalTurnAccounting} v s : broken s -> ends (fun _ => broken) (OnTokenUsage turnID v) s.
Proof.
  intros Hb. apply ends_when; intros s1 Hs1; [by eapply broken_same|]. apply ends_update. intros now s2 _ H2 _.
  eapply broken_goals; [exact H2|by eapply broken_same].
Qed.

Lemma keep_broken_OnToolFinish callID namespace name o s : broken s ->
  ends (fun _ => broken) (OnToolFinish threadID bad_row turnID callID namespace name o) s.
Proof.
  intros Hb. apply ends_when; intros s1 Hs1; (assert (broken s1) as Hb1 by (by eapply broken_same)); [done|].
  destruct (_ && _); [|done]. apply ends_bind. eapply ends_mono; [by apply ends_flush_broken|].
  intros [e|[goal|]] s2 [Hb2 Hr]; done.
Qed.

Lemma keep_broken_turn_over suffix s : broken s -> ends (fun _ => broken) (turn_over threadID bad_row suffix turnID) s.
Proof.
  intros Hb. apply ends_when; intros s1 Hs1; (assert (broken s1) as Hb1 by (by eapply broken_same)); [done|].
  apply ends_bind. eapply ends_mono; [by apply ends_flush_broken|].
  intros [e|r] s2 [Hb2 _]; [done|]. apply ends_update. intros now s3 _ H2 _. by eapply broken_goals.
Qed.

Lemma ends_OnTurnStart s : ~ may_fail P -> enabled s = true -> goals s !! threadID = Some g0 ->
  Status g0 = GoalStatusActive \/ Status g0 = GoalStatusBudgetLimited -> 0 <= TokensUsed g0 -> 0 <= TimeUsedSeconds g0 -> in_bounds u0 ->
  ends (fun _ => turn_state u0) (OnTurnStart threadID bad_row turnID false u0) s.
Proof.
  intros Hnf He Hg Hst H0 H0' Hu. apply ends_bind, ends_enabled. intros s1 (Ha1 & Hg1 & He1). rewrite He.
  apply ends_bind, ends_update. intros now s2 Ha2 Hg2 He2. cbn beta iota. apply ends_bind, ends_get.
  { intros e s3 Hs3 [Hf|Hb]; [done|]. right. by eapply broken_same. }
  intros s3 (Ha3 & Hg3 & He3) _. rewrite Hg2, Hg1, Hg.
  assert (bool_decide (Status g0 = GoalStatusActive) || bool_decide (Status g0 = GoalStatusBudgetLimited) = true) as ->.
  { by destruct Hst as [-> | ->]. }
  apply ends_update. intros now4 s4 Ha4 Hg4 He4. left. split; [congruence|]. exists u0, g0.
  split_and!; [by apply later_refl..| |congruence|]; [|split_and!; [done|done|lia|done|done]].
  rewrite Ha4, Ha3, Ha2. unfold markTurnGoalActive, forget_report, startTurn.
  destruct (ptrEqStr (budgetLimitReportedGoalID _) _); cbn; rewrite lookup_insert_eq; cbn; (destruct (ptrEqStr _ _); cbn; by rewrite lookup_insert_eq).
Qed.
End Turn.

(** ** Calls one after the other *)

Definition run_calls `{MapOrder goalTurnAccounting} (threadID bad_row : gostring) (calls : list (call * list choice)) (s : System) : System :=
  fold_left (fun s c => snd (fst (exec (program threadID bad_row (fst c)) (snd c) s))) calls s.

(** What happens in a turn: reports of its usage and finished tools. *)
Inductive turn_event :=
| reports (total : TokenUsage)
| tool_done (callID : gostring) (namespace : option gostring) (name : gostring) (o : ToolCallOutcome).

Definition event_call (turnID : gostring) (ev : turn_event * list choice) : call * list choice :=
  (match fst ev with
   | reports total => call_token_usage turnID total
   | tool_done callID namespace name o => call_tool_finish turnID callID namespace name o
   end, snd ev).

Fixpoint reported_in_order (u : TokenUsage) (evs : list (turn_event * list choice)) : Prop :=
  match evs with
  | [] => True
  | (reports v, _) :: evs => later u v /\ reported_in_order v evs
  | _ :: evs => reported_in_order u evs
  end.

Definition last_report (u : TokenUsage) (evs : list (turn_event * list choice)) : TokenUsage :=
  fold_left (fun u ev => match fst ev with reports v => v | _ => u end) evs u.

Section TurnRun.
Context `{MapOrder goalTurnAccounting} (threadID bad_row turnID : gostring) (g0 : ThreadGoal) (u0 : TokenUsage).
#[local] Notation turn_state := (turn_state threadID turnID g0 u0).
#[local] Notation any := (fun _ : choice => True).

Lemma run_one (P : choice -> Prop) (Q : System -> Prop) c cs s : Forall P cs -> P calm ->
  ends P (fun _ => Q) (program threadID bad_row c) s -> Q (run_calls threadID bad_row [(c, cs)] s).
Proof. intros Hcs Hc He. exact (ends_exec P (fun _ => Q) _ s cs Hcs Hc He). Qed.

Lemma run_event u ev cs s : reported_in_order u [(ev, cs)] -> turn_state u s ->
  turn_state (last_report u [(ev, cs)]) (run_calls threadID bad_row [event_call turnID (ev, cs)] s).
Proof.
  intros Ho Ht. apply (run_one any (turn_state (last_report u [(ev, cs)]))); [by apply Forall_true|done|]. destruct ev as [v|callID namespace name o]; cbn [event_call fst snd program last_report fold_left reported_in_order] in *.
  - destruct Ho as [Ho _], Ht as [Ht|Ht].
    + eapply ends_mono; [by eapply ends_OnTokenUsage|]. by left.
    + eapply ends_mono; [by apply keep_broken_OnTokenUsage|]. by right.
  - destruct Ht as [Ht|Ht]; [by apply ends_OnToolFinish|]. eapply ends_mono; [by apply keep_broken_OnToolFinish|]. by right.
Qed.

Lemma run_events evs : forall u s, reported_in_order u evs -> turn_state u s ->
  turn_state (last_report u evs) (run_calls threadID bad_row (map (event_call turnID) evs) s).
Proof.
  induction evs as [|[ev cs] evs IH]; intros u s Ho Ht; [done|]. change (map _ _) with ([event_call turnID (ev, cs)] ++ map (event_call turnID) evs).
  unfold run_calls. rewrite fold_left_app. apply (IH (last_report u [(ev, cs)])).
  - destruct ev; cbn in *; tauto.
  - apply run_event; [|done]. destruct ev; cbn in *; tauto.
Qed.

Lemma last_report_later evs : forall u, in_bounds u -> reported_in_order u evs -> later u (last_report u evs).
Proof.
  induction evs as [|[[v|callID namespace name o] cs] evs IH]; intros u Hu Ho; cbn in *; [by apply later_refl| |by apply IH].
  destruct Ho as [Ho Hos]. pose proof Ho as (_ & Hv & _). trans v; [done|]. by apply IH.
Qed.

Definition no_failure (c : choice) : Prop := db_error c = None.

Lemma run_over stop cs u s : stop = call_turn_stop turnID \/ stop = call_turn_abort turnID -> turn_state u s ->
  let s' := run_calls threadID bad_row [(stop, cs)] s in
  broken threadID s' \/ on_goal threadID turnID g0 u0 u s' /\ ~ Forall no_failure cs
  \/ settled threadID g0 u0 u s' /\ turns (accounting s') !! turnID = None.
Proof.
  intros Hc Ht s'. assert (forall P, Forall P cs -> P calm -> broken threadID s' \/ on_goal threadID turnID g0 u0 u s' /\ may_fail P
    \/ settled threadID g0 u0 u s' /\ turns (accounting s') !! turnID = None) as Hall.
  { intros P H1 H2. apply (run_one P (fun s' => broken threadID s' \/ on_goal threadID turnID g0 u0 u s' /\ may_fail P
      \/ settled threadID g0 u0 u s' /\ turns (accounting s') !! turnID = None)); [done..|].
    assert (exists suffix, program threadID bad_row stop = turn_over threadID bad_row suffix turnID) as [suffix ->].
    { by destruct Hc as [-> | ->]; eexists. }
    destruct Ht as [Ht|Ht]; [exact (ends_turn_over P threadID bad_row turnID g0 u0 suffix u s Ht)|].
    eapply ends_mono; [exact (keep_broken_turn_over P threadID bad_row turnID suffix s Ht)|]. intros ? s1 Hb. by left. }
  destruct (decide (Forall no_failure cs)) as [Hn|Hn].
  - destruct (Hall no_failure Hn eq_refl) as [Hb|[[_ (c & H1 & H2)]|Hb]]; [by left|done|by right; right].
  - destruct (Hall any) as [Hb|[[Hb _]|Hb]]; [by apply Forall_true|done|by left|by right; left|by right; right].
Qed.
End TurnRun.


(** ** The objective in a prompt *)

(** The objective, which the user wrote, cannot close its tag or open another. *)
Lemma escapeXMLText_inert input : "<"%char ∉ escapeXMLText input /\ ">"%char ∉ escapeXMLText input.
Proof.
  assert (forall c by_ s d, d ∈ replace_byte c by_ s -> d ∈ by_ \/ (d <> c /\ d ∈ s)) as Hrep.
  { intros c by_ s d Hd. unfold replace_byte in Hd. apply list_elem_of_In, in_flat_map in Hd as (e & He & Hd).
    apply list_elem_of_In in He, Hd. case_decide; [by left|]. apply list_elem_of_singleton in Hd as ->. by right. }
  assert (forall c, c = "<"%char \/ c = ">"%char -> c ∈ str "&gt;" \/ c ∈ str "&lt;" -> False) as Hno.
  { intros c [-> | ->] [Hc|Hc]; revert Hc; by apply (bool_decide_unpack _). }
  split; intros Hd; apply Hrep in Hd as [Hd|[Hne Hd]]; eauto; apply Hrep in Hd as [Hd|[Hne' _]]; eauto.
Qed.

(** ** Concrete runs *)

#[local] Existing Instance listed_order.

Definition demo_thread : gostring := str "thread".
Definition demo_goal : ThreadGoal := mkGoal demo_thread (str "goal") (str "ship it") GoalStatusActive (Some 100) 50 7 0 0.
Definition demo_system : System := mkSystem (newGoalAccountingState 0) {[demo_thread := demo_goal]} 0 true ∅ [].
Definition demo_usage (input output : Z) : TokenUsage := mkTokenUsage input 0 output 0 (input + output).
Definition ok (seconds : N) : choice := mkChoice (seconds * 1000000000) None (str "new").
Definition failing : choice := mkChoice 0 (Some (str "database is locked")) [].
Definition no_name : option gostring := None.

(** Two flushes of one turn, of a tool and of the host, whose steps alternate. *)
Definition double_flush : list move :=
  [starts (call_turn_start (str "t") false (demo_usage 1000 0))] ++ repeat (moves 0 (ok 0)) 4
  ++ [starts (call_token_usage (str "t") (demo_usage 1020 0))] ++ repeat (moves 1 (ok 0)) 2
  ++ [starts (call_tool_finish (str "t") (str "call") None (str "exec") ToolCallOutcomeCompleted); starts call_prepare_mutation]
  ++ concat (repeat [moves 2 (ok 0); moves 3 (ok 0)] 8).

(** The turn used 20 tokens, and each of the flushes charges them. *)
Example charged_twice :
  let '(s, ps) := moves_run demo_thread [] double_flush (demo_system, []) in
  Forall (fun p => match p with ret _ => True | _ => False end) ps /\ TokensUsed <$> goals s !! demo_thread = Some 90.
Proof. vm_compute. split; [by repeat constructor|done]. Qed.

Lemma goals_stay_in_budget_witness :
  let s' := fst (moves_run demo_thread [] double_flush (demo_system, [])) in
  exists g', goals s' !! demo_thread = Some g' /\ TokensUsed g' = 90
    /\ (Status g' = GoalStatusActive -> match TokenBudget g' with Some budget => TokensUsed g' < budget | None => True end)
    /\ exists g, goals demo_system !! demo_thread = Some g /\ GoalID g = GoalID g' /\ TokensUsed g <= TokensUsed g'.
Proof.
  intros s'. assert (exists g', goals s' !! demo_thread = Some g' /\ GoalID g' = str "goal" /\ TokensUsed g' = 90) as (g' & Hg & Hid & Hu).
  { vm_compute. eexists. split; [reflexivity|]. split; reflexivity. }
  exists g'. split; [exact Hg|]. split; [exact Hu|].
  destruct (goals_stay_in_budget demo_thread [] double_flush demo_system s' (snd (moves_run demo_thread [] double_flush (demo_system, []))))
    with (id := demo_thread) (g' := g') as (_ & _ & Hb & Hk).
  - apply surjective_pairing.
  - refine (proj2 (map_Forall_singleton _ _ _) _). split_and!; [cbn; lia|cbn; lia|done].
  - exact Hg.
  - split; [exact Hb|]. destruct Hk as (g & H1 & H2 & H3 & _); [|exists g; split; [exact H1|split; [exact H2|exact H3]]].
    rewrite Hid. apply (bool_decide_unpack _). vm_compute. exact I.
Defined.

(** A turn with a flush that fails, one that works, and one at its end. *)
Definition demo_events : list (turn_event * list choice) :=
  [(reports (demo_usage 1010 2), [ok 1]); (tool_done (str "a") no_name (str "exec") ToolCallOutcomeCompleted, [ok 1; ok 1; failing]);
   (reports (demo_usage 1020 4), []); (tool_done (str "b") no_name (str "exec") ToolCallOutcomeCompleted, []);
   (reports (demo_usage 1040 6), [])].

End GoalRuns.
