(* ===== verification/ShellCmd.v ===== *)
(** * internal/shellcmd: shells, scripts of plain words, patches in heredocs

    [shell_detect.go], [bash.go], [escalation.go], [apply_patch_heredoc.go],
    [shlex.go] and the argument vector of [usershell.go].  The parser and the
    printer are those of mvdan.cc/sh: its syntax trees are data here, with the
    node types that the code tells apart.  The account database, the PATH and
    the file tests are an environment; the URL test is not modelled. *)

From stdpp Require Import base list strings.
From S2P Require Import Prelude GoStrings GoText ExecPolicyShlex SandboxProfile.

Module ShellCmd.
Import SandboxProfile.

(** ** shell_detect.go *)

Inductive ShellType := ShellTypeZsh | ShellTypeBash | ShellTypePowerShell | ShellTypeSh | ShellTypeCmd.
#[export] Instance ShellType_eq_dec : EqDecision ShellType.
Proof. solve_decision. Defined.

(** [filepath.Ext] of a name without separators. *)
Fixpoint ext_from (s : gostring) : option gostring :=
  match s with
  | [] => None
  | c :: s' => match ext_from s' with
               | Some e => Some e
               | None => if decide (c = "."%char) then Some s else None
               end
  end.

Definition fileStem (path : gostring) : gostring :=
  let base := filepath_base path in
  if decide (base = str "." \/ base = str "/" \/ base = []) then []
  else match ext_from base with
       | Some ext => if decide (ext = base) then base else take (length base - length ext) base
       | None => base
       end.

Definition bare_shell (name : gostring) : option ShellType :=
  if decide (name = str "zsh") then Some ShellTypeZsh
  else if decide (name = str "sh") then Some ShellTypeSh
  else if decide (name = str "cmd") then Some ShellTypeCmd
  else if decide (name = str "bash") then Some ShellTypeBash
  else if decide (name = str "pwsh") then Some ShellTypePowerShell
  else if decide (name = str "powershell") then Some ShellTypePowerShell
  else None.

(** The recursion on the stem; the outer [None] is the end of the fuel. *)
Fixpoint detect (fuel : nat) (shellPath : gostring) : option (option ShellType) :=
  match fuel with
  | O => None
  | S fuel =>
      match bare_shell shellPath with
      | Some t => Some (Some t)
      | None =>
          let stem := fileStem shellPath in
          if decide (stem = []) then Some None
          else if decide (stem = shellPath) then Some None
          else detect fuel stem
      end
  end.

Definition DetectShellType (shellPath : gostring) : option ShellType := default None (detect (S (length shellPath)) shellPath).

(** ** usershell.go *)

Definition login_flag (useLoginShell : bool) : gostring := if useLoginShell then str "-lc" else str "-c".

(** [None] is an unclassified shell. *)
Definition DeriveExecArgs (type : option ShellType) (path command : gostring) (useLoginShell : bool) : list gostring :=
  match type with
  | Some ShellTypePowerShell => [path] ++ (if useLoginShell then [] else [str "-NoProfile"]) ++ [str "-Command"; command]
  | Some ShellTypeCmd => [path; str "/c"; command]
  | _ => [path; login_flag useLoginShell; command]
  end.

Record User := mkUser { Uid : gostring; UidNumber : option Z; Username : gostring }.   (* the number is [Atoi] of the id *)

(** What the code asks of the machine. *)
Class ShellEnv := {
  GOOS : platform;
  user_Current : option User;
  passwd : option (list gostring);          (* the lines of /etc/passwd *)
  dscl : gostring -> option gostring;       (* the shell of a directory record *)
  LookPath : gostring -> option gostring;
  fileExists : gostring -> bool;
}.

Section Env.
Context `{ShellEnv}.

Definition darwinAccountShell : gostring :=
  match user_Current with
  | None => []
  | Some u =>
      if decide (Username u = []) then []
      else match dscl (str "/Users/" ++ Username u) with
           | None => []
           | Some out =>
               let line := trim_space out in
               if has_prefix line (str "UserShell:") then trim_space (trim_prefix line (str "UserShell:")) else []
           end
  end.

Definition passwd_match (u : User) (line : gostring) : option gostring :=
  match split_byte ":" line with
  | name :: _ :: uid :: _ :: _ :: _ :: shell :: _ =>
      match UidNumber u with
      | Some n => if decide (uid = format_int n) then Some (trim_space shell) else None
      | None => if decide (name = Username u) then Some (trim_space shell) else None
      end
  | _ => None
  end.

Fixpoint first_match (u : User) (lines : list gostring) : gostring :=
  match lines with
  | [] => []
  | line :: lines => match passwd_match u line with Some shell => shell | None => first_match u lines end
  end.

Definition passwdAccountShell : gostring :=
  match user_Current with
  | None => []
  | Some u => if decide (Uid u = []) then [] else match passwd with Some lines => first_match u lines | None => [] end
  end.

Definition accountShellPath : gostring :=
  match GOOS with darwin => darwinAccountShell | windows => [] | _ => passwdAccountShell end.

Definition binaryNames (st : ShellType) : list gostring :=
  match st with
  | ShellTypeZsh => [str "zsh"]
  | ShellTypeBash => [str "bash"]
  | ShellTypeSh => [str "sh"]
  | ShellTypePowerShell => [str "pwsh"; str "powershell"]
  | ShellTypeCmd => [str "cmd"]
  end.

Definition fallbackPaths (st : ShellType) : list gostring :=
  match st with
  | ShellTypeZsh => [str "/bin/zsh"]
  | ShellTypeBash => [str "/bin/bash"]
  | ShellTypeSh => [str "/bin/sh"]
  | _ => []
  end.

Definition resolveShell (st : ShellType) : option (ShellType * gostring) :=
  let path := accountShellPath in
  if bool_decide (path <> []) && bool_decide (DetectShellType path = Some st) && fileExists path then Some (st, path)
  else match head (omap LookPath (binaryNames st)) with
       | Some path => Some (st, path)
       | None => match list_find (fun path => fileExists path) (fallbackPaths st) with Some (_, path) => Some (st, path) | None => None end
       end.

Definition first_shell (order : list ShellType) (last : ShellType * gostring) : ShellType * gostring :=
  default last (head (omap resolveShell order)).

Definition DefaultUserShell : ShellType * gostring :=
  match GOOS with
  | windows => first_shell [ShellTypePowerShell; ShellTypeCmd] (ShellTypeCmd, str "cmd.exe")
  | os =>
      let order := match os with darwin => [ShellTypeZsh; ShellTypeBash; ShellTypeSh] | _ => [ShellTypeBash; ShellTypeSh] end in
      let fallback := first_shell order (ShellTypeSh, str "/bin/sh") in
      let path := accountShellPath in
      if decide (path = []) then fallback
      else match DetectShellType path with Some st => default fallback (resolveShell st) | None => fallback end
  end.
End Env.

(** The shell of the account comes first, whenever it is one of the known ones
    and exists. *)
Lemma account_shell_first `{ShellEnv} (st : ShellType) : GOOS <> windows -> accountShellPath <> [] ->
  DetectShellType accountShellPath = Some st -> fileExists accountShellPath = true -> DefaultUserShell = (st, accountShellPath).
Proof.
  intros Hos Hp Hd Hf. assert (resolveShell st = Some (st, accountShellPath)) as Hr.
  { unfold resolveShell. cbv zeta. rewrite Hf, !bool_decide_eq_true_2 by done. done. }
  unfold DefaultUserShell. destruct GOOS; [| |done|]; rewrite decide_False, Hd, Hr by done; done.
Qed.

(** The shell found is of the type that its name says, on every Unix. *)
Lemma resolveShell_type `{ShellEnv} (st st' : ShellType) (path : gostring) : resolveShell st = Some (st', path) -> st' = st.
Proof. unfold resolveShell. intros Hr. repeat case_match; congruence. Qed.

(** [detect] never stops for want of fuel: a stem that differs is shorter. *)
Lemma ext_from_suffix (s e : gostring) : ext_from s = Some e -> e <> [] /\ exists x, s = x ++ e.
Proof.
  revert e. induction s as [|c s IH]; intros e He; [done|]. cbn in He. destruct (ext_from s) as [e'|] eqn:E.
  - injection He as ->. destruct (IH e eq_refl) as (Hne & x & ->). split; [done|]. by exists (c :: x).
  - case_decide; [|done]. injection He as <-. split; [done|]. by exists [].
Qed.

Lemma last_join_suffix (sep l : gostring) (ls : list gostring) : last ls = Some l -> exists x, join sep ls = x ++ l.
Proof.
  induction ls as [|y ls IH]; [done|]. destruct ls as [|z ls]; [intros [= ->]; by exists []|].
  intros Hl. destruct (IH Hl) as (x & E). exists (y ++ sep ++ x). change (join sep (y :: z :: ls)) with (y ++ sep ++ join sep (z :: ls)).
  by rewrite E, <- !app_assoc.
Qed.

Lemma after_last_suffix (sep : ascii) (s : gostring) : exists x, s = x ++ after_last sep s.
Proof.
  unfold after_last. destruct (last (split_byte sep s)) as [l|] eqn:E; [|by exists []].
  destruct (last_join_suffix [sep] _ _ E) as (x & Hx). exists x. by rewrite <- Hx, join_split_byte.
Qed.

Lemma trim_right_byte_prefix (c : ascii) (s : gostring) : exists y, s = trim_right_byte c s ++ y.
Proof.
  assert (forall r, exists x, r = x ++ trim_left_byte c r) as Hl.
  { induction r as [|d r [x IH]]; [by exists []|]. cbn. case_decide; [exists (d :: x)|by exists []]. by rewrite IH at 1. }
  destruct (Hl (rev s)) as (x & Hx). exists (rev x). unfold trim_right_byte. by rewrite <- rev_app_distr, <- Hx, rev_involutive.
Qed.

Lemma fileStem_shorter (path : gostring) : fileStem path = path \/ (length (fileStem path) < length path)%nat \/ fileStem path = [].
Proof.
  unfold fileStem. case_decide as Hb; [by right; right|]. assert (filepath_base path <> str "." /\ filepath_base path <> str "/") as [Hdot Hslash] by tauto.
  assert (exists x y, path = x ++ filepath_base path ++ y) as (x & y & Hp).
  { revert Hdot Hslash. unfold filepath_base. case_decide; [done|]. destruct (decide (after_last "/" (trim_right_byte "/" path) = [])); [done|].
    intros _ _. destruct (after_last_suffix "/" (trim_right_byte "/" path)) as (x & Hx), (trim_right_byte_prefix "/" path) as (y & Hy).
    exists x, y. rewrite app_assoc, <- Hx. done. }
  set (base := filepath_base path) in *. clearbody base. assert (length base <= length path)%nat as Hle by (subst path; rewrite !length_app; lia).
  assert (base = path \/ (length base < length path)%nat) as Hlt.
  { destruct (decide (length base = length path)) as [E|]; [left|right; lia]. subst path. rewrite !length_app in E.
    destruct x, y; cbn in E; try lia. cbn. by rewrite app_nil_r. }
  destruct (ext_from base) as [e|] eqn:E; [|tauto]. apply ext_from_suffix in E as [He (z & ->)]. case_decide; [tauto|].
  right; left. rewrite length_app, length_take, length_app in *. destruct e; [done|cbn in *; lia].
Qed.

Lemma detect_terminates (fuel : nat) (path : gostring) : (length path < fuel)%nat -> is_Some (detect fuel path).
Proof.
  revert path. induction fuel as [|fuel IH]; intros path Hf; [lia|]. cbn [detect]. destruct (bare_shell path); [eauto|].
  case_decide; [eauto|]. case_decide; [eauto|]. apply IH. destruct (fileStem_shorter path) as [?|[?|?]]; [done|lia|done].
Qed.

Example shells_by_path :
  map DetectShellType [str "/bin/bash"; str "/usr/local/bin/zsh"; str "sh"; str "powershell.exe"; str "/opt/bash.old.exe"; str "fish"; str ".bash"; []]
  = [Some ShellTypeBash; Some ShellTypeZsh; Some ShellTypeSh; Some ShellTypePowerShell; Some ShellTypeBash; None; None; None].
Proof. reflexivity. Qed.

(** ** Syntax trees of mvdan.cc/sh *)

Inductive WordPart :=
| Lit (value : gostring)
| SglQuoted (dollar : bool) (value : gostring)
| DblQuoted (dollar : bool) (parts : list WordPart)
| OtherPart (n : nat).   (* expansions, substitutions, extended globs *)

Definition Word := list WordPart.

Inductive BinCmdOperator := AndStmt | OrStmt | Pipe | PipeAll.
Inductive RedirOperator := Hdoc | DashHdoc | OtherRedir.

Record Redirect := mkRedirect { RedirOp : RedirOperator; HdocWord : option Word }.

Inductive Stmt := mkStmt (cmd : Command) (negated background coprocess disown : bool) (redirs : list Redirect)
with Command :=
| CallExpr (assigns : nat) (args : list Word)
| BinaryCmd (op : BinCmdOperator) (x y : Stmt)
| OtherCommand (n : nat).   (* groups, loops, functions; also the empty command *)

(** The library: a script that parses, and the text of a word. *)
Class ShellSyntax := {
  parseShell : gostring -> option (list Stmt);
  print_word : Word -> gostring;
}.

(** ** bash.go *)

Definition ExtractBashCommand (command : list gostring) : option (gostring * gostring) :=
  match command with
  | [shell; flag; script] =>
      if decide (flag = str "-lc" \/ flag = str "-c") then
        match DetectShellType shell with
        | Some (ShellTypeZsh | ShellTypeBash | ShellTypeSh) => Some (shell, script)
        | _ => None
        end
      else None
  | _ => None
  end.

Definition inner_literal (p : WordPart) : option gostring := match p with Lit v => Some v | _ => None end.

Definition literalPart (p : WordPart) : option gostring :=
  match p with
  | Lit v => Some v
  | SglQuoted dollar v => if dollar then None else Some v
  | DblQuoted dollar parts => if dollar then None else @concat ascii <$> mapM inner_literal parts
  | OtherPart _ => None
  end.

Definition literalWord (w : Word) : option gostring :=
  match w with [] => None | _ => @concat ascii <$> mapM literalPart w end.

Definition parsePlainCall (assigns : nat) (args : list Word) : option (list gostring) :=
  if (assigns =? 0)%nat then
    match mapM literalWord args with
    | Some (w :: ws) => Some (w :: ws)
    | _ => None
    end
  else None.

Fixpoint collectWordOnlyStmt (s : Stmt) : option (list (list gostring)) :=
  match s with
  | mkStmt cmd negated background coprocess disown redirs =>
      if negated || background || coprocess || disown then None
      else match redirs with
           | _ :: _ => None
           | [] => collectWordOnlyCommand cmd
           end
  end
with collectWordOnlyCommand (c : Command) : option (list (list gostring)) :=
  match c with
  | BinaryCmd (AndStmt | OrStmt | Pipe) x y =>
      match collectWordOnlyStmt x with
      | None => None
      | Some lwords => match collectWordOnlyStmt y with None => None | Some rwords => Some (lwords ++ rwords) end
      end
  | BinaryCmd PipeAll _ _ => None
  | CallExpr assigns args => match parsePlainCall assigns args with Some words => Some [words] | None => None end
  | OtherCommand _ => None
  end.

Fixpoint TryParseWordOnlyCommandsSequence (file : list Stmt) : option (list (list gostring)) :=
  match file with
  | [] => Some []
  | stmt :: file =>
      match collectWordOnlyStmt stmt with
      | None => None
      | Some words => match TryParseWordOnlyCommandsSequence file with None => None | Some rest => Some (words ++ rest) end
      end
  end.

Definition ParseShellLcPlainCommands `{ShellSyntax} (command : list gostring) : option (list (list gostring)) :=
  match ExtractBashCommand command with
  | Some (_, script) => parseShell script ≫= TryParseWordOnlyCommandsSequence
  | None => None
  end.

(** ** escalation.go *)

Inductive Escalator := EscalatorSudo | EscalatorSu | EscalatorDoas.

Definition escalatorForName (name : gostring) : option Escalator :=
  let base := filepath_base name in
  if decide (base = str "sudo") then Some EscalatorSudo
  else if decide (base = str "su") then Some EscalatorSu
  else if decide (base = str "doas") then Some EscalatorDoas
  else None.

Definition DetectEscalation (command : list gostring) : option (Escalator * list gostring) :=
  match command with
  | [] => None
  | name :: rest => match escalatorForName name with Some kind => Some (kind, rest) | None => None end
  end.

Fixpoint isDangerousToCallWithExec (command : list gostring) : bool :=
  match command with
  | [] => false
  | name :: rest =>
      if decide (name = str "rm") then
        match rest with first :: _ => bool_decide (first = str "-f" \/ first = str "-rf") | [] => false end
      else if decide (name = str "sudo") then isDangerousToCallWithExec rest
      else false
  end.

Definition CommandMightBeDangerous `{ShellSyntax} (command : list gostring) : bool :=
  isDangerousToCallWithExec command
  || match ParseShellLcPlainCommands command with Some all => existsb isDangerousToCallWithExec all | None => false end.

(** ** apply_patch_heredoc.go *)

Record ApplyPatchHeredoc := mkHeredoc { Body : gostring; Workdir : gostring }.

Definition is_apply_patch_name (name : gostring) : bool := bool_decide (name = str "apply_patch" \/ name = str "applypatch").

Definition isApplyPatchCall (c : Command) : bool :=
  match c with
  | CallExpr O [w] => match literalWord w with Some name => is_apply_patch_name name | None => false end
  | _ => false
  end.

Definition cdSingleArg (s : Stmt) : option gostring :=
  match s with
  | mkStmt (CallExpr O [name; path]) false false _ _ [] =>
      match literalWord name with
      | Some n => if decide (n = str "cd") then literalWord path else None
      | None => None
      end
  | _ => None
  end.

Section Heredoc.
Context `{ShellSyntax}.

Definition singleHeredocBody (redirs : list Redirect) : option gostring :=
  match redirs with
  | [mkRedirect (Hdoc | DashHdoc) (Some w)] => Some (print_word w)
  | _ => None
  end.

Definition trimHeredoc (body : gostring) : gostring := trim_right_byte nl body.

Definition extractFromStmt (s : Stmt) : option ApplyPatchHeredoc :=
  match s with
  | mkStmt cmd false false false false redirs =>
      match cmd with
      | CallExpr _ _ =>
          if isApplyPatchCall cmd then (fun body => mkHeredoc (trimHeredoc body) []) <$> singleHeredocBody redirs else None
      | BinaryCmd AndStmt x y =>
          match cdSingleArg x, y with
          | Some workdir, mkStmt call false false _ _ yredirs =>
              if isApplyPatchCall call then (fun body => mkHeredoc (trimHeredoc body) workdir) <$> singleHeredocBody yredirs else None
          | _, _ => None
          end
      | _ => None
      end
  | _ => None
  end.

Definition ExtractApplyPatchHeredoc (argv : list gostring) : option ApplyPatchHeredoc :=
  match ExtractBashCommand argv with
  | None => None
  | Some (_, script) =>
      match parseShell script with
      | Some [stmt] => extractFromStmt stmt
      | _ => None
      end
  end.
End Heredoc.

(** ** shlex.go: the quoting of [ExecPolicyShlex.v], which is the same code *)

Definition ShlexJoin (tokens : list gostring) : gostring :=
  match Shlex.quoteAll tokens with
  | Some quoted => join (str " ") quoted
  | None => str "<command included NUL byte>"
  end.
End ShellCmd.
