(* ===== verification/ShellRuns.v ===== *)
(** * internal/shellcmd: what the shell runs, and what the analysis reports

    The reference: how a shell runs the scripts of [ShellCmd.v], with every exit
    status possible and word expansion as an interface.  For scripts whose words
    mean what they say, [TryParseWordOnlyCommandsSequence] reports the commands
    of the longest run, and no run has others. *)

From stdpp Require Import base list strings.
From S2P Require Import Prelude GoStrings GoText ShellCmd.

Module ShellRuns.
Import ShellCmd.

(** ** Interleavings, for the two ends of a pipe *)

Inductive interleaved {A} : list A -> list A -> list A -> Prop :=
| interleaved_nil : interleaved [] [] []
| interleaved_left a x y z : interleaved x y z -> interleaved (a :: x) y (a :: z)
| interleaved_right a x y z : interleaved x y z -> interleaved x (a :: y) (a :: z).

Lemma interleaved_perm {A} (x y z : list A) : interleaved x y z -> z ≡ₚ x ++ y.
Proof.
  induction 1 as [|a x y z H IH|a x y z H IH]; [done|by rewrite IH|]. rewrite IH. apply Permutation_middle.
Qed.

Lemma interleaved_app {A} (x y : list A) : interleaved x y (x ++ y).
Proof.
  induction x as [|a x IH]; cbn; [induction y as [|b y IHy]; by constructor|by constructor].
Qed.

(** ** Words *)

(** The characters that mean themselves outside quotes, and inside double ones. *)
Definition plain_char (c : ascii) : bool :=
  let n := N_of_ascii c in
  ((48 <=? n) && (n <=? 57) || (65 <=? n) && (n <=? 90) || (97 <=? n) && (n <=? 122))%N || bool_decide (c ∈ str "_-./:,@%+").

Definition quoted_char (c : ascii) : bool :=
  negb (bool_decide (c ∈ ["$"; "`"; "\"; "034"%char; "!"]%char)).

Definition plain_inner (p : WordPart) : bool := match p with Lit v => forallb quoted_char v | _ => false end.

Definition plain_part (p : WordPart) : bool :=
  match p with
  | Lit [] => false
  | Lit v => forallb plain_char v
  | SglQuoted dollar _ => negb dollar
  | DblQuoted dollar parts => negb dollar && forallb plain_inner parts
  | OtherPart _ => false
  end.

Definition plain_word (w : Word) : bool := forallb plain_part w.

(** What a word can expand to: the commands run by its substitutions, and its
    fields.  The law is quote removal, for words with nothing else to do. *)
Class WordExpansion := {
  expands : Word -> list (list gostring) -> list gostring -> Prop;
  expands_plain : forall w s subs fields, plain_word w = true -> literalWord w = Some s ->
    expands w subs fields <-> subs = [] /\ fields = [s];
}.

Section Runs.
Context `{WordExpansion}.

Inductive expands_all : list Word -> list (list gostring) -> list gostring -> Prop :=
| expands_none : expands_all [] [] []
| expands_more w ws subs subs' fields fields' :
    expands w subs fields -> expands_all ws subs' fields' -> expands_all (w :: ws) (subs ++ subs') (fields ++ fields').

(** A run: the argument vectors of the commands, in order, and success. *)
Inductive runs : Stmt -> list (list gostring) -> bool -> Prop :=
| run_foreground cmd negated disown redirs t ok :
    runs_command cmd t ok -> runs (mkStmt cmd negated false false disown redirs) t (xorb negated ok)
| run_async cmd negated background coprocess disown redirs t ok :
    runs_command cmd t ok -> background || coprocess = true ->
    runs (mkStmt cmd negated background coprocess disown redirs) t true
| run_redirect_fails cmd negated background coprocess disown redirs :
    redirs <> [] -> runs (mkStmt cmd negated background coprocess disown redirs) [] negated
with runs_command : Command -> list (list gostring) -> bool -> Prop :=
| run_call assigns args subs name rest ok :
    expands_all args subs (name :: rest) -> runs_command (CallExpr assigns args) (subs ++ [name :: rest]) ok
| run_nothing assigns args subs ok :
    expands_all args subs [] -> runs_command (CallExpr assigns args) subs ok
| run_and_both x y tx ty ok :
    runs x tx true -> runs y ty ok -> runs_command (BinaryCmd AndStmt x y) (tx ++ ty) ok
| run_and_first x y tx : runs x tx false -> runs_command (BinaryCmd AndStmt x y) tx false
| run_or_both x y tx ty ok :
    runs x tx false -> runs y ty ok -> runs_command (BinaryCmd OrStmt x y) (tx ++ ty) ok
| run_or_first x y tx : runs x tx true -> runs_command (BinaryCmd OrStmt x y) tx true
| run_pipe op x y tx ty t okx oky ok :
    op = Pipe \/ op = PipeAll -> runs x tx okx -> runs y ty oky -> interleaved tx ty t -> runs_command (BinaryCmd op x y) t ok
| run_other n t ok : runs_command (OtherCommand n) t ok.

Definition is_async (s : Stmt) : bool := match s with mkStmt _ _ background coprocess _ _ => background || coprocess end.

Inductive runs_file : list Stmt -> list (list gostring) -> Prop :=
| run_end : runs_file [] []
| run_then s file t1 t2 ok : runs s t1 ok -> runs_file file t2 -> runs_file (s :: file) (t1 ++ t2)
| run_meanwhile s file t1 t2 t ok :
    is_async s = true -> runs s t1 ok -> runs_file file t2 -> interleaved t1 t2 t -> runs_file (s :: file) t.

(** *** The words of a script *)

Fixpoint plain_stmt (s : Stmt) : bool := match s with mkStmt cmd _ _ _ _ _ => plain_command cmd end
with plain_command (c : Command) : bool :=
  match c with
  | CallExpr _ args => forallb plain_word args
  | BinaryCmd _ x y => plain_stmt x && plain_stmt y
  | OtherCommand _ => true
  end.

Lemma expands_all_plain (args : list Word) (words : list gostring) : mapM literalWord args = Some words ->
  forallb plain_word args = true -> forall subs fields, expands_all args subs fields <-> subs = [] /\ fields = words.
Proof.
  revert words. induction args as [|w args IH]; intros words Hm Hp subs fields.
  { injection Hm as <-. split; [by inversion 1|]. intros [-> ->]. constructor. }
  cbn [forallb] in Hp. apply andb_true_iff in Hp as [Hw Hp]. apply mapM_Some in Hm. inversion Hm as [|? s ? words' Hs Hrest]; subst.
  apply mapM_Some in Hrest. specialize (IH _ Hrest Hp). split.
  - inversion 1 as [|? ? ? ? ? ? He Hall]; subst. apply (expands_plain _ _ _ _ Hw Hs) in He as [-> ->]. by apply IH in Hall as [-> ->].
  - intros [-> ->]. change (expands_all (w :: args) ([] ++ []) ([s] ++ words')). constructor; [by apply (expands_plain _ s)|by apply IH].
Qed.

Lemma plain_call (assigns : nat) (args : list Word) (words : list gostring) : parsePlainCall assigns args = Some words ->
  mapM literalWord args = Some words /\ exists name rest, words = name :: rest.
Proof.
  unfold parsePlainCall. destruct (assigns =? 0)%nat; [|done]. destruct (mapM literalWord args) as [[|name rest]|]; [done| |done].
  intros [= <-]. eauto.
Qed.
(** *** What the analysis accepts *)

Definition exact_cmd (c : Command) : Prop := forall cmds, collectWordOnlyCommand c = Some cmds -> plain_command c = true ->
  (forall ok, runs_command c cmds ok) /\ forall t ok, runs_command c t ok -> t ⊆+ cmds.
Definition exact_stmt (s : Stmt) : Prop := forall cmds, collectWordOnlyStmt s = Some cmds -> plain_stmt s = true ->
  (forall ok, runs s cmds ok) /\ forall t ok, runs s t ok -> t ⊆+ cmds.

Lemma exact_call (assigns : nat) (args : list Word) : exact_cmd (CallExpr assigns args).
Proof.
  intros cmds Hc Hp. cbn in Hc, Hp. destruct (parsePlainCall assigns args) as [words|] eqn:E; [|done]. injection Hc as <-.
  apply plain_call in E as (Hm & name & rest & ->). pose proof (expands_all_plain _ _ Hm Hp) as Hx. split.
  - intros ok. apply (run_call assigns args [] name rest ok). by apply Hx.
  - intros t ok Hr. inversion Hr as [? ? ? ? ? ? He|? ? ? ? He| | | | | |]; subst; apply Hx in He as [-> E]; [by injection E as -> ->|done].
Qed.

Lemma exact_stmt_of (cmd : Command) (negated background coprocess disown : bool) (redirs : list Redirect) :
  exact_cmd cmd -> exact_stmt (mkStmt cmd negated background coprocess disown redirs).
Proof.
  intros IH cmds Hc Hp. cbn in Hc. destruct negated, background, coprocess, disown; try done. destruct redirs; [|done].
  destruct (IH cmds Hc Hp) as [Hex Hall]. split.
  - intros ok. exact (run_foreground cmd false false [] cmds ok (Hex ok)).
  - intros t ok Hr. inversion Hr; subst; [by eapply Hall|done|done].
Qed.

(** Both sides of an operator: the whole run, and the parts of one. *)
Lemma exact_binary (op : BinCmdOperator) (x y : Stmt) : exact_stmt x -> exact_stmt y -> exact_cmd (BinaryCmd op x y).
Proof.
  intros IHx IHy cmds Hc Hp. cbn in Hp. apply andb_true_iff in Hp as [Hpx Hpy].
  assert (op <> PipeAll /\ exists cx cy, collectWordOnlyStmt x = Some cx /\ collectWordOnlyStmt y = Some cy /\ cmds = cx ++ cy)
    as (Hop & cx & cy & Ex & Ey & ->).
  { cbn in Hc. destruct op; try done; split; try done; destruct (collectWordOnlyStmt x) as [cx|]; try done;
      destruct (collectWordOnlyStmt y) as [cy|]; try done; injection Hc as <-; eauto. }
  destruct (IHx _ Ex Hpx) as [Hx Hallx], (IHy _ Ey Hpy) as [Hy Hally]. split.
  - intros ok. destruct op; [by apply run_and_both|by apply run_or_both| |done].
    eapply (run_pipe Pipe x y cx cy); [by left|exact (Hx true)|exact (Hy true)|apply interleaved_app].
  - intros t ok Hr. inversion Hr; subst;
      try (apply submseteq_app; [eapply Hallx; eassumption|eapply Hally; eassumption]);
      try (apply submseteq_inserts_r; eapply Hallx; eassumption).
    match goal with Hi : interleaved _ _ _ |- _ => rewrite (interleaved_perm _ _ _ Hi) end.
    apply submseteq_app; [eapply Hallx; eassumption|eapply Hally; eassumption].
Qed.

Fixpoint collect_exact (s : Stmt) : exact_stmt s :=
  match s with
  | mkStmt cmd negated background coprocess disown redirs =>
      exact_stmt_of cmd negated background coprocess disown redirs (collect_command_exact cmd)
  end
with collect_command_exact (c : Command) : exact_cmd c :=
  match c with
  | CallExpr assigns args => exact_call assigns args
  | BinaryCmd op x y => exact_binary op x y (collect_exact x) (collect_exact y)
  | OtherCommand n => fun cmds (Hc : None = Some cmds) _ => ltac:(discriminate Hc)
  end.

Lemma runs_only_reported (file : list Stmt) (cmds t : list (list gostring)) :
  TryParseWordOnlyCommandsSequence file = Some cmds -> forallb plain_stmt file = true -> runs_file file t -> t ⊆+ cmds.
Proof.
  revert cmds t. induction file as [|s file IH]; intros cmds t Hc Hp Hr; [inversion Hr; subst; apply submseteq_nil_l|].
  cbn in Hc, Hp. apply andb_true_iff in Hp as [Hs Hf]. destruct (collectWordOnlyStmt s) as [cs|] eqn:Es; [|done].
  destruct (TryParseWordOnlyCommandsSequence file) as [rest|]; [|done]. injection Hc as <-.
  destruct (collect_exact s _ Es Hs) as [_ Hall]. inversion Hr as [|? ? ? ? ? Hr1 Hr2|? ? ? ? ? ? ? Hr1 Hr2 Hi]; subst;
    [|rewrite (interleaved_perm _ _ _ Hi)]; (apply submseteq_app; [by eapply Hall|by apply (IH rest)]).
Qed.

(** C23: A script that [TryParseWordOnlyCommandsSequence] accepts, and whose words
    are quoted or made of plain characters, runs at most the commands it reports,
    each at most once, whatever their exit statuses; and it can run exactly these.
    The analysis accepts more scripts, of which this does not hold: unquoted words
    with a backslash, a glob or a tilde are reported as they are written
    ([backslash_hides_rm], [globs_are_reported]). *)
Theorem reported_commands_exact (file : list Stmt) (cmds : list (list gostring))
  (Haccepted : TryParseWordOnlyCommandsSequence file = Some cmds) (Hplain : forallb plain_stmt file = true) :
  runs_file file cmds /\ forall t, runs_file file t -> t ⊆+ cmds.
Proof.
  split; [|intros t; by apply runs_only_reported]. revert cmds Haccepted. induction file as [|s file IH]; intros cmds Hc.
  { injection Hc as <-. constructor. }
  cbn in Hc, Hplain. apply andb_true_iff in Hplain as [Hs Hf]. destruct (collectWordOnlyStmt s) as [cs|] eqn:Es; [|done].
  destruct (TryParseWordOnlyCommandsSequence file) as [rest|]; [|done]. injection Hc as <-.
  exact (run_then s file cs rest true (proj1 (collect_exact s _ Es Hs) true) (IH Hf rest eq_refl)).
Qed.
End Runs.

(** So a dangerous command that such a script runs itself is noticed. *)
Lemma danger_noticed `{ShellSyntax} `{WordExpansion} (command : list gostring) (shell script : gostring) (file : list Stmt)
  (cmds t : list (list gostring)) (argv : list gostring) :
  ExtractBashCommand command = Some (shell, script) -> parseShell script = Some file ->
  TryParseWordOnlyCommandsSequence file = Some cmds -> forallb plain_stmt file = true ->
  runs_file file t -> argv ∈ t -> isDangerousToCallWithExec argv = true -> CommandMightBeDangerous command = true.
Proof.
  intros He Hp Hc Hpl Hr Hin Hd. unfold CommandMightBeDangerous, ParseShellLcPlainCommands. rewrite He, Hp. cbn [mbind option_bind].
  rewrite Hc. apply orb_true_iff. right. apply existsb_exists. exists argv. split; [|done]. apply list_elem_of_In.
  eapply elem_of_submseteq; [exact Hin|]. by eapply runs_only_reported.
Qed.

(** ** A shell that removes quotes and backslashes *)

Fixpoint unescape (v : gostring) : gostring :=
  match v with
  | "\"%char :: c :: v => c :: unescape v
  | c :: v => c :: unescape v
  | [] => []
  end.

Definition part_text (p : WordPart) : option gostring :=
  match p with
  | Lit v => Some (unescape v)
  | SglQuoted false v => Some v
  | DblQuoted false parts => literalPart (DblQuoted false parts)
  | _ => None
  end.

Definition bytes_text (w : Word) : option gostring := match w with [] => None | _ => @concat ascii <$> mapM part_text w end.

Lemma unescape_plain (v : gostring) : forallb plain_char v = true -> unescape v = v.
Proof.
  induction v as [|c v IH]; [done|]. cbn [forallb]. intros [Hc Hv]%andb_true_iff. specialize (IH Hv).
  destruct (decide (c = "\"%char)) as [->|Hne]; [by vm_compute in Hc|].
  cbn [unescape]. rewrite IH. destruct c as [[] [] [] [] [] [] [] []]; try done; by destruct Hne.
Qed.

Lemma plain_text (w : Word) : plain_word w = true -> bytes_text w = literalWord w.
Proof.
  unfold bytes_text, literalWord. destruct w as [|p w]; [done|]. intros Hp. f_equal.
  induction (p :: w) as [|q l IH]; [done|]. cbn in Hp. apply andb_true_iff in Hp as [Hq Hl]. cbn. rewrite (IH Hl).
  replace (part_text q) with (literalPart q); [done|]. destruct q as [[|c v]|[]|[]|]; cbn in Hq |- *; try done.
  f_equal. symmetry. exact (unescape_plain (c :: v) Hq).
Qed.

Program Definition plainExpansion : WordExpansion := {|
  expands w subs fields := match bytes_text w with Some s => subs = [] /\ fields = [s] | None => True end
|}.
Next Obligation. intros w s subs fields Hw Hs. cbv beta. by rewrite (plain_text w Hw), Hs. Qed.

Definition call (args : list Word) : Command := CallExpr 0 args.
Definition stmt (c : Command) : Stmt := mkStmt c false false false false [].

(** [cd src && rg -n 'a b'"c" | head; ls] *)
Definition search_script : list Stmt :=
  [stmt (BinaryCmd AndStmt (stmt (call [[Lit (str "cd")]; [Lit (str "src")]]))
           (stmt (BinaryCmd Pipe
              (stmt (call [[Lit (str "rg")]; [Lit (str "-n")]; [SglQuoted false (str "a b"); DblQuoted false [Lit (str "c")]]]))
              (stmt (call [[Lit (str "head")]])))));
   stmt (call [[Lit (str "ls")]])].

Definition search_commands : list (list gostring) :=
  [[str "cd"; str "src"]; [str "rg"; str "-n"; str "a bc"]; [str "head"]; [str "ls"]].

Lemma reported_commands_exact_witness :
  TryParseWordOnlyCommandsSequence search_script = Some search_commands
  /\ @runs_file plainExpansion search_script search_commands.
Proof.
  split; [vm_compute; reflexivity|].
  exact (proj1 (@reported_commands_exact plainExpansion search_script search_commands ltac:(vm_compute; reflexivity)
                  ltac:(vm_compute; reflexivity))).
Defined.

(** Outside quotes a backslash and a glob are reported as they are written:
    [r\m -rf /] is accepted, is not found dangerous, and runs [rm]. *)
Definition hidden_rm : list Stmt := [stmt (call [[Lit (str "r\m")]; [Lit (str "-rf")]; [Lit (str "/")]])].

Lemma backslash_hides_rm :
  TryParseWordOnlyCommandsSequence hidden_rm = Some [[str "r\m"; str "-rf"; str "/"]]
  /\ isDangerousToCallWithExec [str "r\m"; str "-rf"; str "/"] = false
  /\ isDangerousToCallWithExec [str "rm"; str "-rf"; str "/"] = true
  /\ @runs_file plainExpansion hidden_rm [[str "rm"; str "-rf"; str "/"]].
Proof.
  split_and!; [vm_compute; reflexivity..|].
  apply (@run_then plainExpansion _ [] [[str "rm"; str "-rf"; str "/"]] [] true); [|constructor].
  apply (@run_foreground plainExpansion _ false false [] _ true).
  apply (@run_call plainExpansion 0 _ [] (str "rm") [str "-rf"; str "/"] true).
  change (@expands_all plainExpansion [[Lit (str "r\m")]; [Lit (str "-rf")]; [Lit (str "/")]]
            ([] ++ [] ++ [] ++ []) ([str "rm"] ++ [str "-rf"] ++ [str "/"] ++ [])).
  repeat (constructor; [cbn; split; vm_compute; reflexivity|]). constructor.
Qed.

Example globs_are_reported :
  literalWord [Lit (str "*.go")] = Some (str "*.go") /\ literalWord [Lit (str "~/x?")] = Some (str "~/x?").
Proof. split; reflexivity. Qed.
End ShellRuns.
