(* ===== verification/CoreShell.v ===== *)
(** * internal/core: the tools that run commands and write files

    [shell_command_executor.go], the [exec_command] and [write_stdin] tools of
    [unified_exec_executor.go] and the [apply_patch] tool of
    [tool_executors.go].  A handler is a program over the host's state, which
    the commands change, and logs what it runs, asks and emits.  The JSON of
    arguments is a parameter, and so is the machine that runs commands. *)

From stdpp Require Import base list gmap strings.
From S2P Require Import Prelude GoStrings GoText AbsPath ApplyPatchParser ApplyPatchApply Permissions SandboxProfile Approvals Truncation.
From S2P Require Import ExecProcess ExecManager ProtocolItems CoreTools ShellCmd.

Module ShellTools.
Import Parser Apply Permissions SandboxProfile Approvals ShellCmd.
#[local] Open Scope Z_scope.

(** ** Requests and results *)

(** What every command is started with; the policies of a retry are zero values. *)
Record Spawn := mkSpawn {
  Command : list gostring;
  Cwd : gostring;
  SandboxPolicyCwd : gostring;
  SpawnType : SandboxType;
  SpawnPolicies : option (FileSystemSandboxPolicy * NetworkSandboxPolicy);
}.

Record ExecResult := mkExecResult { ExitCode : Z; Stdout : gostring; Stderr : gostring }.

(** [ExecCommandRequest] of internal/unifiedexec: the part of [ExecManager.v],
    and the rest. *)
Record UnifiedRequest := mkUnifiedRequest { request : ExecManager.ExecCommandRequest; spawn : Spawn; TurnID : gostring }.

(** An [Output]: the part of [ExecManager.v], the chunk id, and the wall time in
    seconds with four digits. *)
Record UnifiedOutput := mkUnifiedOutput { output : ExecManager.Output; ChunkID : gostring; WallTime : gostring }.

Inductive PatchApplyStatus := PatchApplyStatusCompleted | PatchApplyStatusFailed | PatchApplyStatusDeclined.
Inductive FileChange :=
| FileChangeAdd (content : gostring)
| FileChangeDelete (content : gostring)
| FileChangeUpdate (unifiedDiff : gostring) (movePath : option gostring).

Record ExecEnd := mkExecEnd {
  EndStdout : gostring;
  EndStderr : gostring;
  AggregatedOutput : gostring;
  EndExitCode : Z;
  FormattedOutput : gostring;
  Completed : bool;   (* the status: completed or failed *)
}.

Inductive action :=
| act_begin (callID turnID : gostring) (argv : list gostring) (cwd : gostring)
| act_end (callID turnID : gostring) (argv : list gostring) (cwd : gostring) (e : ExecEnd)
| act_interaction (callID : gostring) (processID : Z) (stdin : gostring)
| act_change_started (id : gostring) (changes : gmap gostring FileChange)
| act_change_completed (id : gostring) (changes : gmap gostring FileChange) (status : PatchApplyStatus)
| act_run (s : Spawn) (result : gostring + ExecResult)
| act_run_session (s : Spawn) (result : ExecProcess.Error + UnifiedOutput)
| act_ask (callID : gostring) (argv : list gostring) (cwd : gostring) (answer : ReviewDecision).

(** ** The host *)

Class Host (World : Type) := {
  Run : Spawn -> World -> World * (gostring + ExecResult);
  RequestCommandApproval : gostring -> list gostring -> gostring -> World -> World * ReviewDecision;
  AllocateProcessID : World -> World * Z;
  ReleaseProcessID : Z -> World -> World;
  ExecCommand : UnifiedRequest -> World -> World * (ExecProcess.Error + UnifiedOutput);
  WriteStdin : ExecManager.WriteStdinRequest -> World -> World * (ExecProcess.Error + UnifiedOutput);
  GenerateChunkID : World -> World * gostring;
}.

(** encoding/json, into the types of the arguments. *)
Record unifiedExecCommandArgs := mkUnifiedArgs {
  Cmd : gostring;
  ArgWorkdir : option gostring;
  ArgShell : option gostring;
  ArgLogin : option bool;
  ArgTTY : bool;
  ArgYieldTimeMS : option Z;
  ArgMaxOutputTokens : option Z;
}.
Record writeStdinArgs := mkStdinArgs {
  SessionID : option Z;
  Chars : gostring;
  StdinYield : option Z;
  StdinMaxTokens : option Z;
}.

Class Json := {
  unmarshal_object : gostring -> gostring + gmap gostring gostring;
  unmarshal_string : gostring -> gostring + gostring;
  unmarshal_bool : gostring -> gostring + bool;
  unmarshal_exec : gostring -> gostring + unifiedExecCommandArgs;
  unmarshal_stdin : gostring -> gostring + writeStdinArgs;
  unmarshal_patch : gostring -> gostring + gostring;   (* the field [input] *)
}.

(** ** Programs *)

Record system (World : Type) := mkSystem { world : World; log : list action }.
Arguments mkSystem {World} _ _.
Arguments world {World} _.
Arguments log {World} _.

Definition prog (World A : Type) : Type := system World -> system World * A.
Definition done_with {World A : Type} (a : A) : prog World A := fun s => (s, a).
Definition then_do {World A B : Type} (m : prog World A) (f : A -> prog World B) : prog World B :=
  fun s => let '(s, a) := m s in f a s.
Definition perform {World A : Type} (f : World -> World * A) : prog World A :=
  fun s => let '(w, a) := f (world s) in (mkSystem w (log s), a).
Definition record {World : Type} (a : action) : prog World unit := fun s => (mkSystem (world s) (log s ++ [a]), tt).
Definition record_if {World : Type} (b : bool) (a : action) : prog World unit := if b then record a else done_with tt.

#[local] Notation "'let*' x := m 'in' k" := (then_do m (fun x => k)) (at level 200, x name, m at level 100, k at level 200).
#[local] Notation "m ';*' k" := (then_do m (fun _ => k)) (at level 199, right associativity).

(** What a handler is called with; [HasSession] is [h.Session != nil]. *)
Record toolHandlerContext := mkHandler {
  HasSession : bool;
  TurnSubID : gostring;
  TurnCwd : gostring;
  Turn : TurnSnapshot;
  TruncationOfModel : option Truncation.TruncationPolicy;   (* the model's policy, [None] for an unknown mode *)
  CallID : gostring;
  Payload : Tools.ToolPayload;
}.

Definition outcome : Type := result Tools.FunctionCallError Tools.ToolOutput.
Definition respond {World : Type} (message : gostring) : prog World outcome := done_with (Err (Tools.RespondToModelError message)).

Section Tools.
Context {World : Type} `{Apply.FileSystem World} `{Host World} `{Json} `{ShellSyntax} `{ShellEnv}.
Variable unicode_lower : rune -> rune.
Variable homeDir process_cwd : option gostring.
Variable getwd_error : gostring -> gostring.   (* the error of [FromAbsolutePath] without a working directory *)

Definition resolveWorkdir (cwd workdir : gostring) : gostring := AbsPath.ResolvePathAgainstBase false homeDir workdir cwd.

Definition payloadArguments (p : Tools.ToolPayload) : Tools.FunctionCallError + gostring :=
  match p with
  | Tools.FunctionPayload a => inr a
  | Tools.CustomPayload i => inr i
  | Tools.ToolSearchPayload _ => inl (Tools.FatalError (str "tool invoked with incompatible payload"))
  end.

(** [resolveSandboxEscalation] of [Approvals.v], which says whether the user is
    asked; the answer is that of the session. *)
Definition resolveEscalation (h : toolHandlerContext) (argv : list gostring) (cwd : gostring) : prog World sandboxEscalationDecision :=
  if HasSession h && (resolveSandboxEscalation GOOS (Some (decision ReviewDecisionDenied)) (Some (Turn h))).2 then
    let* d := perform (RequestCommandApproval (CallID h) argv cwd) in
    record (act_ask (CallID h) argv cwd d) ;*
    done_with (resolveSandboxEscalation GOOS (Some d) (Some (Turn h))).1
  else done_with (resolveSandboxEscalation GOOS None (Some (Turn h))).1.

(** ** apply_patch in a heredoc *)

Definition Buffer_Write (w s : gostring) : gostring * option gostring := (w ++ s, None).

Definition change_of (cwd : gostring) (h : Hunk) : FileChange :=
  match h with
  | HunkAddFile _ contents => FileChangeAdd contents
  | HunkDeleteFile _ => FileChangeDelete []
  | HunkUpdateFile _ move _ => FileChangeUpdate [] ((fun p => AbsPath.ResolvePathAgainstBase false homeDir p cwd) <$> move)
  end.

Definition fileChangesFromHunks (hunks : list Hunk) (cwd : gostring) : gmap gostring FileChange :=
  fold_left (fun m h => <[ResolvePath homeDir cwd h := change_of cwd h]> m) hunks ∅.

Definition failure_text (stderr : gostring) (f : ApplyFailure) : gostring :=
  let msg := trim_space stderr in if decide (msg = []) then errorString (FailureErr f) else msg.

Definition applyHeredocPatch (h : toolHandlerContext) (cwd : gostring) (hd : ApplyPatchHeredoc) :
  prog World (result Tools.FunctionCallError gostring) :=
  let effectiveCwd := if decide (Workdir hd = []) then cwd else resolveWorkdir cwd (Workdir hd) in
  match ParsePatch (Body hd) with
  | Panic => done_with Panic
  | Err e => done_with (Err (Tools.RespondToModelError (str "apply_patch failed to parse: " ++ parse_error_string e)))
  | Ok parsed =>
      match AbsPath.FromAbsolutePath false homeDir process_cwd effectiveCwd with
      | None => done_with (Err (Tools.RespondToModelError (str "invalid cwd for apply_patch: " ++ getwd_error effectiveCwd)))
      | Some cwdAbs =>
          let changes := fileChangesFromHunks (Hunks parsed) cwdAbs in
          record_if (HasSession h) (act_change_started (CallID h) changes) ;*
          let* applied := (fun s =>
            match ApplyHunks homeDir cwdAbs Buffer_Write (Hunks parsed) [] [] (world s) with
            | None => (s, None)
            | Some (w, stdout, stderr, r) => (mkSystem w (log s), Some (stdout, stderr, r))
            end) in
          match applied with
          | None | Some (_, _, Panic) => done_with Panic
          | Some (_, stderr, Err f) =>
              record_if (HasSession h) (act_change_completed (CallID h) changes PatchApplyStatusFailed) ;*
              done_with (Err (Tools.RespondToModelError (failure_text stderr f)))
          | Some (stdout, _, Ok _) =>
              record_if (HasSession h) (act_change_completed (CallID h) changes PatchApplyStatusCompleted) ;*
              let out := trim_space stdout in
              done_with (Ok (if decide (out = []) then str "Success. Updated the following files:" else out))
          end
      end
  end.

(** ** shell_command *)

Record shellCommandExecutor := mkShellExecutor { toolName : gostring; argKey : gostring }.
Definition newShellCommandExecutor : shellCommandExecutor := mkShellExecutor (str "shell_command") (str "command").

Definition in_quotes (s : gostring) : gostring := ["034"%char] ++ s ++ ["034"%char].

(** The decoding of a field that may be missing. *)
Definition optional_field {A : Type} (decode : gostring -> gostring + A) (m : gmap gostring gostring) (key : gostring) (none : A)
  (message : gostring) : Tools.FunctionCallError + A :=
  match m !! key with
  | None => inr none
  | Some raw => match decode raw with inl _ => inl (Tools.RespondToModelError message) | inr a => inr a end
  end.

Definition parseArgs (e : shellCommandExecutor) (p : Tools.ToolPayload) : Tools.FunctionCallError + (gostring * gostring * bool) :=
  match payloadArguments p with
  | inl err => inl err
  | inr raw =>
      match unmarshal_object raw with
      | inl err => inl (Tools.RespondToModelError (str "failed to parse function arguments: " ++ err))
      | inr generic =>
          match generic !! argKey e with
          | None => inl (Tools.RespondToModelError (toolName e ++ str " requires a " ++ in_quotes (argKey e) ++ str " argument"))
          | Some commandRaw =>
              match unmarshal_string commandRaw with
              | inl _ => inl (Tools.RespondToModelError (toolName e ++ str " " ++ in_quotes (argKey e) ++ str " must be a string"))
              | inr command =>
                  match optional_field unmarshal_string generic (str "workdir") [] (toolName e ++ str " workdir must be a string") with
                  | inl err => inl err
                  | inr workdir =>
                      match optional_field unmarshal_bool generic (str "login") true (toolName e ++ str " login must be a boolean") with
                      | inl err => inl err
                      | inr login => inr (command, workdir, login)
                      end
                  end
              end
          end
      end
  end.

Definition formatShellToolOutput (res : ExecResult) : gostring :=
  str "Exit code: " ++ format_int (ExitCode res) ++ [nl] ++ str "Wall time: 0 seconds" ++ [nl] ++ str "Output:" ++ [nl]
  ++ Stdout res ++ Stderr res.

Definition turn_policy (h : toolHandlerContext) : SandboxType * (FileSystemSandboxPolicy * NetworkSandboxPolicy) :=
  resolveTurnSandboxPolicy GOOS (Some (SandboxContext (Turn h))).

Definition run_command (s : Spawn) : prog World (gostring + ExecResult) :=
  let* r := perform (Run s) in record (act_run s r) ;* done_with r.

Definition denied (type : SandboxType) (res : ExecResult) : bool :=
  isLikelySandboxDenied unicode_lower type (ExitCode res) (Stdout res) (Stderr res) (Stdout res ++ Stderr res).

Definition runShellWithEscalation (h : toolHandlerContext) (argv : list gostring) (cwd : gostring) : prog World (gostring + ExecResult) :=
  let pol := turn_policy h in
  let* first := run_command (mkSpawn argv cwd (TurnCwd h) pol.1 (Some pol.2)) in
  match first with
  | inl err => done_with (inl err)
  | inr res =>
      if negb (denied pol.1 res) then done_with (inr res)
      else
        let* d := resolveEscalation h argv cwd in
        match d with
        | sandboxEscalationSurfaceDenial => done_with (inr res)
        | sandboxEscalationRetryUnsandboxed => run_command (mkSpawn argv cwd (TurnCwd h) SandboxTypeNone None)
        end
  end.

Definition runShellCommand (h : toolHandlerContext) (argv : list gostring) (cwd : gostring) : prog World outcome :=
  record_if (HasSession h) (act_begin (CallID h) (TurnSubID h) argv cwd) ;*
  let* r := runShellWithEscalation h argv cwd in
  match r with
  | inl err => respond (str "exec failed: " ++ err)
  | inr res =>
      let text := formatShellToolOutput res in
      record_if (HasSession h)
        (act_end (CallID h) (TurnSubID h) argv cwd
           (mkExecEnd (Stdout res) (Stderr res) (Stdout res ++ Stderr res) (ExitCode res) text (ExitCode res =? 0))) ;*
      done_with (Ok (Tools.textToolOutput text (Some (ExitCode res =? 0))))
  end.

Definition Handle (e : shellCommandExecutor) (h : toolHandlerContext) : prog World outcome :=
  match parseArgs e (Payload h) with
  | inl err => done_with (Err err)
  | inr (command, workdirArg, useLoginShell) =>
      if decide (trim_space command = []) then respond (toolName e ++ str " requires a non-empty command")
      else
        let cwd := if decide (workdirArg = []) then TurnCwd h else resolveWorkdir (TurnCwd h) workdirArg in
        let argv := DeriveExecArgs (Some DefaultUserShell.1) DefaultUserShell.2 command useLoginShell in
        match ExtractApplyPatchHeredoc argv with
        | Some hd =>
            let* out := applyHeredocPatch h cwd hd in
            done_with (match out with Ok text => Ok (Tools.applyPatchToolOutput text) | Err err => Err err | Panic => Panic end)
        | None => runShellCommand h argv cwd
        end
  end.

(** ** The apply_patch tool *)

(** The last line tolerates a bare string as the arguments. *)
Definition extractPatch (p : Tools.ToolPayload) : Tools.FunctionCallError + gostring :=
  match p with
  | Tools.CustomPayload input => inr input
  | Tools.FunctionPayload arguments =>
      match unmarshal_patch arguments with
      | inr input => inr input
      | inl err =>
          match unmarshal_string arguments with
          | inr bare => inr bare
          | inl _ => inl (Tools.RespondToModelError (str "failed to parse apply_patch arguments: " ++ err))
          end
      end
  | Tools.ToolSearchPayload _ => inl (Tools.FatalError (str "apply_patch invoked with incompatible payload"))
  end.

Definition applyPatch_Handle (h : toolHandlerContext) : prog World outcome :=
  match extractPatch (Payload h) with
  | inl err => done_with (Err err)
  | inr patch =>
      if decide (trim_space patch = []) then respond (str "apply_patch requires a non-empty patch")
      else match AbsPath.FromAbsolutePath false homeDir process_cwd (TurnCwd h) with
           | None => respond (str "invalid cwd for apply_patch: " ++ getwd_error (TurnCwd h))
           | Some cwd => fun s =>
               match ApplyPatch homeDir cwd Buffer_Write patch [] [] (world s) with
               | None => (s, Panic)
               | Some (w, stdout, stderr, r) =>
                   (mkSystem w (log s),
                    match r with
                    | Panic => Panic
                    | Err f => Err (Tools.RespondToModelError (failure_text stderr f))
                    | Ok _ => let out := trim_space stdout in
                              Ok (Tools.applyPatchToolOutput (if decide (out = []) then str "Patch applied." else out))
                    end)
               end
           end
  end.

(** ** exec_command *)

Definition turnTruncationPolicy (h : toolHandlerContext) : Truncation.TruncationPolicy :=
  default (Truncation.TokensPolicy ExecProcess.UnifiedExecOutputMaxTokens) (TruncationOfModel h).

Definition defaultExecYieldTimeMS : Z := 10000.
Definition defaultWriteStdinYieldTimeMS : Z := 250.

Record unifiedExecToolOutput := mkUnifiedToolOutput {
  chunkID : gostring;
  wallTime : gostring;
  rawOutput : gostring;
  maxOutputTokens : option Z;
  processID : option Z;
  exitCode : option Z;
  originalTokenCount : option Z;
  truncationPolicy : Truncation.TruncationPolicy;
}.

Definition modelOutputMaxTokens (o : unifiedExecToolOutput) : Z :=
  let maxTokens := default ExecProcess.DefaultMaxOutputTokens (maxOutputTokens o) in
  let budget := Truncation.TokenBudget (truncationPolicy o) in
  if budget <? maxTokens then budget else maxTokens.

Definition truncatedOutput (o : unifiedExecToolOutput) : gostring :=
  Truncation.FormattedTruncateText (rawOutput o) (Truncation.TokensPolicy (modelOutputMaxTokens o)).

Definition section_of (text : gostring) (v : option Z) : list gostring :=
  match v with Some n => [text ++ format_int n] | None => [] end.

Definition responseText (o : unifiedExecToolOutput) : gostring :=
  join [nl]
    ((if decide (chunkID o = []) then [] else [str "Chunk ID: " ++ chunkID o])
     ++ [str "Wall time: " ++ wallTime o ++ str " seconds"]
     ++ section_of (str "Process exited with code ") (exitCode o)
     ++ section_of (str "Process running with session ID ") (processID o)
     ++ section_of (str "Original token count: ") (originalTokenCount o)
     ++ [str "Output:"; truncatedOutput o]).

Definition unifiedToolOutput (o : unifiedExecToolOutput) : Tools.ToolOutput :=
  Tools.mkToolOutput true (Tools.text_response (Tools.payload_text (responseText o) (Some true))).

Definition newUnifiedExecToolOutput (out : UnifiedOutput) (policy : Truncation.TruncationPolicy) : unifiedExecToolOutput :=
  let o := output out in
  mkUnifiedToolOutput (ChunkID out) (WallTime out) (ExecManager.RawOutput o) (ExecManager.OutMaxOutputTokens o)
    (ExecManager.OutProcessID o) (ExecManager.OutExitCode o) (Some (ExecManager.OriginalTokenCount o)) policy.

Definition parseUnifiedExecCommandArgs (p : Tools.ToolPayload) : Tools.FunctionCallError + unifiedExecCommandArgs :=
  match payloadArguments p with
  | inl err => inl err
  | inr raw =>
      match unmarshal_exec raw with
      | inl err => inl (Tools.RespondToModelError (str "failed to parse function arguments: " ++ err))
      | inr args =>
          if decide (Cmd args = [])
          then inl (Tools.RespondToModelError (str "failed to parse function arguments: missing required `cmd`"))
          else inr args
      end
  end.

Definition resolveUnifiedExecCommand (args : unifiedExecCommandArgs) (allowLoginShell : bool) : gostring + list gostring :=
  if bool_decide (ArgLogin args = Some true) && negb allowLoginShell
  then inl (str "login shell is disabled by config; omit `login` or set it to false.")
  else
    let useLoginShell := default allowLoginShell (ArgLogin args) in
    let shell := match ArgShell args with
                 | Some path => if decide (path = []) then (Some DefaultUserShell.1, DefaultUserShell.2) else (DetectShellType path, path)
                 | None => (Some DefaultUserShell.1, DefaultUserShell.2)
                 end in
    inr (DeriveExecArgs shell.1 shell.2 (Cmd args) useLoginShell).

Record unifiedExecRequestParams := mkParams {
  Argv : list gostring;
  ParamHookCommand : gostring;
  ParamProcessID : Z;
  ParamYieldTimeMS : Z;
  ParamMaxOutputTokens : option Z;
  ParamCwd : gostring;
  ParamTTY : bool;
  ForceSandboxNone : bool;
}.

Definition buildUnifiedExecRequest (h : toolHandlerContext) (p : unifiedExecRequestParams) : UnifiedRequest :=
  let pol := turn_policy h in
  let sandboxCwd := if decide (TurnCwd h = []) then ParamCwd p else TurnCwd h in
  mkUnifiedRequest
    (ExecManager.mkExecCommandRequest (ParamHookCommand p) (CallID h) (ParamProcessID p) (ParamYieldTimeMS p)
       (ParamMaxOutputTokens p) (ParamTTY p))
    (mkSpawn (Argv p) (ParamCwd p) sandboxCwd (if ForceSandboxNone p then SandboxTypeNone else pol.1) (Some pol.2))
    (TurnSubID h).

Definition run_session (r : UnifiedRequest) : prog World (ExecProcess.Error + UnifiedOutput) :=
  let* out := perform (ExecCommand r) in record (act_run_session (spawn r) out) ;* done_with out.

(** The second result of the code is [None] here. *)
Definition maybeEscalateUnifiedExec (h : toolHandlerContext) (base : unifiedExecRequestParams) : prog World (option UnifiedOutput) :=
  let* d := resolveEscalation h (Argv base) (ParamCwd base) in
  match d with
  | sandboxEscalationSurfaceDenial => done_with None
  | sandboxEscalationRetryUnsandboxed =>
      let* id := perform AllocateProcessID in
      let* retry := run_session (buildUnifiedExecRequest h
        (mkParams (Argv base) (ParamHookCommand base) id (ParamYieldTimeMS base) (ParamMaxOutputTokens base) (ParamCwd base)
           (ParamTTY base) true)) in
      done_with (match retry with inr out => Some out | inl _ => None end)
  end.

Definition emitExecCommandEnd (h : toolHandlerContext) (argv : list gostring) (cwd text : gostring) (code : Z) : prog World unit :=
  record_if (HasSession h) (act_end (CallID h) (TurnSubID h) argv cwd (mkExecEnd text [] text code text (code =? 0))).

Definition exec_finished (h : toolHandlerContext) (argv : list gostring) (cwd : gostring) (out : UnifiedOutput) : prog World outcome :=
  match ExecManager.OutProcessID (output out), ExecManager.OutExitCode (output out) with
  | None, Some code => emitExecCommandEnd h argv cwd (ExecManager.RawOutput (output out)) code
  | _, _ => done_with tt
  end ;*
  done_with (Ok (unifiedToolOutput (newUnifiedExecToolOutput out (turnTruncationPolicy h)))).

(** The denial that the code tells apart: [errors.As], the kind and the output. *)
Definition sandbox_denial (e : ExecProcess.Error) : option ExecProcess.DeniedOutput :=
  match ExecProcess.Kind e with ExecProcess.ErrSandboxDenied => ExecProcess.ErrorOutput e | _ => None end.

Definition exec_Handle (h : toolHandlerContext) : prog World outcome :=
  match parseUnifiedExecCommandArgs (Payload h) with
  | inl err => done_with (Err err)
  | inr args =>
      let cwd := match ArgWorkdir args with
                 | Some w => if decide (w = []) then TurnCwd h else resolveWorkdir (TurnCwd h) w
                 | None => TurnCwd h
                 end in
      match resolveUnifiedExecCommand args true with
      | inl err => respond err
      | inr argv =>
          let* id := perform AllocateProcessID in
          match ExtractApplyPatchHeredoc argv with
          | Some hd =>
              perform (fun w => (ReleaseProcessID id w, tt)) ;*
              let* out := applyHeredocPatch h cwd hd in
              done_with match out with
                        | Ok text => Ok (unifiedToolOutput (mkUnifiedToolOutput [] (str "0.0000") text (ArgMaxOutputTokens args) None None
                                                              None (turnTruncationPolicy h)))
                        | Err err => Err err
                        | Panic => Panic
                        end
          | None =>
              record_if (HasSession h) (act_begin (CallID h) (TurnSubID h) argv cwd) ;*
              let base := mkParams argv (Cmd args) id (default defaultExecYieldTimeMS (ArgYieldTimeMS args)) (ArgMaxOutputTokens args)
                            cwd (ArgTTY args) false in
              let* first := run_session (buildUnifiedExecRequest h base) in
              match first with
              | inr out => exec_finished h argv cwd out
              | inl err =>
                  match sandbox_denial err with
                  | None => respond (str "exec_command failed for `" ++ ShlexJoin argv ++ str "`: " ++ ExecProcess.Error_Error err)
                  | Some d =>
                      let* retried := maybeEscalateUnifiedExec h base in
                      match retried with
                      | Some out => exec_finished h argv cwd out
                      | None =>
                          let text := ExecProcess.AggregatedText d in
                          emitExecCommandEnd h argv cwd text (ExecProcess.DeniedExitCode d) ;*
                          let* chunk := perform GenerateChunkID in
                          done_with (Ok (unifiedToolOutput (mkUnifiedToolOutput chunk (str "0.0000") text (ArgMaxOutputTokens args) None
                            (Some (ExecProcess.DeniedExitCode d)) (Some (Truncation.ApproxTokenCount text)) (turnTruncationPolicy h))))
                      end
                  end
              end
          end
      end
  end.

(** ** write_stdin *)

Definition stdin_Handle (h : toolHandlerContext) : prog World outcome :=
  match payloadArguments (Payload h) with
  | inl err => done_with (Err err)
  | inr raw =>
      match unmarshal_stdin raw with
      | inl err => respond (str "failed to parse function arguments: " ++ err)
      | inr args =>
          match SessionID args with
          | None => respond (str "failed to parse function arguments: missing required `session_id`")
          | Some id =>
              let* answer := perform (WriteStdin (ExecManager.mkWriteStdinRequest id (Chars args)
                (default defaultWriteStdinYieldTimeMS (StdinYield args)) (StdinMaxTokens args))) in
              match answer with
              | inl err => respond (str "write_stdin failed: " ++ ExecProcess.Error_Error err)
              | inr out =>
                  let pid := ExecManager.OutProcessID (output out) in
                  let event := ExecManager.EventCallID (output out) in
                  record_if ((bool_decide (Chars args <> []) || bool_decide (is_Some pid)) && HasSession h)
                    (act_interaction (if decide (event = []) then CallID h else event) (default id pid) (Chars args)) ;*
                  done_with (Ok (unifiedToolOutput (newUnifiedExecToolOutput out (turnTruncationPolicy h))))
              end
          end
      end
  end.
End Tools.
End ShellTools.
