(* ===== verification/CoreShellRuns.v ===== *)
(** * internal/core: what a call of a shell tool runs, asks and emits

    Every call of the four tools of [CoreShell.v] leaves one of a few logs,
    whatever the machine, the user and the arguments do. *)

From stdpp Require Import base list gmap strings.
From S2P Require Import Prelude GoStrings GoText AbsPath ApplyPatchParser ApplyPatchApply Permissions SandboxProfile Approvals Truncation.
From S2P Require Import ExecProcess ExecManager ProtocolItems CoreTools ShellCmd CoreShell.

Module ShellToolRuns.
Import Parser Apply Permissions SandboxProfile Approvals ShellCmd ShellTools.
#[local] Open Scope Z_scope.

Inductive shell_tool := tool_shell_command | tool_exec_command | tool_write_stdin | tool_apply_patch.

Section Runs.
Context {World : Type} `{Apply.FileSystem World} `{Host World} `{Json} `{ShellSyntax} `{ShellEnv}.
Variable unicode_lower : rune -> rune.
Variable homeDir process_cwd : option gostring.
Variable getwd_error : gostring -> gostring.

Definition handle (tool : shell_tool) (h : toolHandlerContext) : prog World outcome :=
  match tool with
  | tool_shell_command => Handle unicode_lower homeDir process_cwd getwd_error newShellCommandExecutor h
  | tool_exec_command => exec_Handle homeDir process_cwd getwd_error h
  | tool_write_stdin => stdin_Handle h
  | tool_apply_patch => applyPatch_Handle homeDir process_cwd getwd_error h
  end.

(** ** The logs *)

(** What an action runs, and whether the sandbox stopped it. *)
Definition ran (a : action) : option (Spawn * bool) :=
  match a with
  | act_run s r => Some (s, match r with inr res => denied unicode_lower (SpawnType s) res | inl _ => false end)
  | act_run_session s r => Some (s, match r with inl e => bool_decide (is_Some (sandbox_denial e)) | inr _ => false end)
  | _ => None
  end.

Definition is_change (a : action) : Prop := match a with act_change_started _ _ | act_change_completed _ _ _ => True | _ => False end.

(** The first start of a command: the sandbox of the turn, at the turn's directory. *)
Record in_policy (h : toolHandlerContext) (argv : list gostring) (cwd : gostring) (s : Spawn) : Prop := {
  policy_type : SpawnType s = (turn_policy h).1;
  policy_rules : SpawnPolicies s = Some (turn_policy h).2;
  policy_command : Command s = argv;
  policy_cwd : Cwd s = cwd;
}.

(** When the policy of the turn lets the user lift the sandbox. *)
Definition may_lift (h : toolHandlerContext) : Prop :=
  wantsNoSandboxApproval (turnApprovalPolicy (Some (Turn h))) = true
  /\ unsandboxedExecutionAllowed (turnFilesystemSandboxState GOOS (Some (Turn h))) = true.

Inductive attempts (h : toolHandlerContext) (argv : list gostring) (cwd : gostring) : list action -> Prop :=
| attempts_one a s d : ran a = Some (s, d) -> in_policy h argv cwd s -> attempts h argv cwd [a]
| attempts_declined a s answer : ran a = Some (s, true) -> in_policy h argv cwd s -> HasSession h = true -> may_lift h ->
    attempts h argv cwd [a; act_ask (CallID h) argv cwd answer]
| attempts_lifted a s answer a' s' d : ran a = Some (s, true) -> in_policy h argv cwd s -> HasSession h = true -> may_lift h ->
    reviewDecisionApproves answer = true ->
    ran a' = Some (s', d) -> SpawnType s' = SandboxTypeNone -> Command s' = argv -> Cwd s' = cwd ->
    attempts h argv cwd [a; act_ask (CallID h) argv cwd answer; a'].

Definition emitted (h : toolHandlerContext) (a : action) : list action := if HasSession h then [a] else [].

(** The last attempt left a session running. *)
Definition left_running (l : list action) : Prop :=
  exists s out, last l = Some (act_run_session s (inr out))
    /\ (is_Some (ExecManager.OutProcessID (output out)) \/ ExecManager.OutExitCode (output out) = None).

(** The end event that a finished attempt calls for. *)
Definition end_of (a : action) : option ExecEnd :=
  match a with
  | act_run _ (inr res) =>
      Some (mkExecEnd (Stdout res) (Stderr res) (Stdout res ++ Stderr res) (ExitCode res) (formatShellToolOutput res) (ExitCode res =? 0))
  | act_run_session _ (inr out) =>
      match ExecManager.OutProcessID (output out), ExecManager.OutExitCode (output out) with
      | None, Some code =>
          let text := ExecManager.RawOutput (output out) in Some (mkExecEnd text [] text code text (code =? 0))
      | _, _ => None
      end
  | act_run_session _ (inl e) =>
      (fun d => let text := ExecProcess.AggregatedText d in
                mkExecEnd text [] text (ExecProcess.DeniedExitCode d) text (ExecProcess.DeniedExitCode d =? 0)) <$> sandbox_denial e
  | _ => None
  end.

Definition completed (a : action) : bool :=
  match a with act_run _ (inr _) | act_run_session _ (inr _) => true | _ => false end.

(** The result that is shown: that of the last attempt, or the denial of the
    first when the user declined or a retry of a session failed. *)
Definition final (l : list action) : option ExecEnd :=
  match last l with Some a => if completed a then end_of a else head l ≫= end_of | None => None end.

(** The last attempt could not be run: an error that is not a denial. *)
Definition could_not_run (l : list action) : Prop :=
  exists a, last l = Some a /\ match a with
    | act_run _ (inl _) => True
    | act_run_session _ (inl e) => sandbox_denial e = None
    | _ => False
    end.

Inductive call_log (h : toolHandlerContext) : list action -> outcome -> Prop :=
| log_no_command l r : Forall is_change l -> call_log h l r
| log_interaction id pid chars r : call_log h (emitted h (act_interaction id pid chars)) r
| log_failed argv cwd l message : attempts h argv cwd l -> could_not_run l ->
    call_log h (emitted h (act_begin (CallID h) (TurnSubID h) argv cwd) ++ l) (Err (Tools.RespondToModelError message))
| log_finished argv cwd l e out : attempts h argv cwd l -> final l = Some e ->
    call_log h (emitted h (act_begin (CallID h) (TurnSubID h) argv cwd) ++ l ++ emitted h (act_end (CallID h) (TurnSubID h) argv cwd e))
      (Ok out)
| log_running argv cwd l out : attempts h argv cwd l -> left_running l ->
    call_log h (emitted h (act_begin (CallID h) (TurnSubID h) argv cwd) ++ l) (Ok out).

(** ** Programs and their logs *)

(** From any state, [m] adds a log and gives a result that satisfy [P]. *)
Definition logs {A : Type} (m : prog World A) (P : list action -> A -> Prop) : Prop :=
  forall s, exists new, log (m s).1 = log s ++ new /\ P new (m s).2.

Lemma logs_done {A} (a : A) (P : list action -> A -> Prop) : P [] a -> logs (done_with a) P.
Proof. intros HP s. exists []. by rewrite app_nil_r. Qed.

Lemma logs_perform {A} (f : World -> World * A) (P : list action -> A -> Prop) : (forall a, P [] a) -> logs (perform f) P.
Proof. intros HP s. exists []. unfold perform. destruct (f (world s)) as [w a]. cbn. by rewrite app_nil_r. Qed.

Lemma logs_record (a : action) (P : list action -> unit -> Prop) : P [a] tt -> logs (record a) P.
Proof. intros HP s. by exists [a]. Qed.

Lemma logs_record_if (h : toolHandlerContext) (a : action) (P : list action -> unit -> Prop) :
  P (emitted h a) tt -> logs (record_if (HasSession h) a) P.
Proof. unfold record_if, emitted. destruct (HasSession h); intros; [by apply logs_record|by apply logs_done]. Qed.

Lemma logs_emitted (h : toolHandlerContext) (a : action) : logs (record_if (HasSession h) a) (fun l _ => l = emitted h a).
Proof. by apply logs_record_if. Qed.

Lemma logs_then {A B} (m : prog World A) (f : A -> prog World B) (P : list action -> A -> Prop) (Q : list action -> B -> Prop) :
  logs m P -> (forall a l, P l a -> logs (f a) (fun l' => Q (l ++ l'))) -> logs (then_do m f) Q.
Proof.
  intros Hm Hf s. destruct (Hm s) as (l & El & HP). unfold then_do. destruct (m s) as [s1 a]. cbn in El, HP.
  destruct (Hf a l HP s1) as (l' & El' & HQ). exists (l ++ l'). by rewrite El', El, app_assoc.
Qed.

Lemma logs_weaken {A} (m : prog World A) (P Q : list action -> A -> Prop) : logs m P -> (forall l a, P l a -> Q l a) -> logs m Q.
Proof. intros Hm HPQ s. destruct (Hm s) as (l & ? & ?). eauto. Qed.

(** ** The parts of the handlers *)

Lemma escalation_asks (h : toolHandlerContext) (prompt : option ReviewDecision) :
  resolveSandboxEscalation GOOS prompt (Some (Turn h)) =
  if decide (may_lift h) then
    match prompt with
    | Some d => (if reviewDecisionApproves d then sandboxEscalationRetryUnsandboxed else sandboxEscalationSurfaceDenial, true)
    | None => (sandboxEscalationSurfaceDenial, false)
    end
  else (sandboxEscalationSurfaceDenial, false).
Proof.
  unfold resolveSandboxEscalation, may_lift. destruct (wantsNoSandboxApproval _) eqn:Ew; cbn [negb]; [|case_decide; naive_solver].
  destruct (unsandboxedExecutionAllowed _); cbn [negb]; [|case_decide; naive_solver].
  rewrite decide_True by done. unfold shouldBypassNoSandboxApproval. rewrite bool_decide_eq_false_2; [done|].
  intros E. unfold wantsNoSandboxApproval in Ew. by rewrite E in Ew.
Qed.

Definition asked (h : toolHandlerContext) (argv : list gostring) (cwd : gostring) (l : list action) (d : sandboxEscalationDecision) : Prop :=
  l = [] /\ d = sandboxEscalationSurfaceDenial
  \/ exists answer, l = [act_ask (CallID h) argv cwd answer] /\ HasSession h = true /\ may_lift h
       /\ (d = sandboxEscalationRetryUnsandboxed -> reviewDecisionApproves answer = true).

Lemma logs_escalation (h : toolHandlerContext) (argv : list gostring) (cwd : gostring) :
  logs (resolveEscalation h argv cwd) (asked h argv cwd).
Proof.
  unfold resolveEscalation. rewrite !escalation_asks. destruct (HasSession h) eqn:Eh; [|apply logs_done; left; by case_decide].
  case_decide as Hl; [|apply logs_done; by left]. cbn [andb snd].
  eapply logs_then; [apply (logs_perform _ (fun l _ => l = [])); done|]. intros d l ->.
  eapply logs_then; [apply (logs_record _ (fun l _ => l = [act_ask (CallID h) argv cwd d])); done|]. intros _ l ->.
  apply logs_done. right. exists d. rewrite escalation_asks, decide_True by done. cbn. by destruct (reviewDecisionApproves d).
Qed.

Lemma logs_run_command (s : Spawn) : logs (run_command s) (fun l r => l = [act_run s r]).
Proof.
  unfold run_command. eapply logs_then; [apply (logs_perform _ (fun l _ => l = [])); done|]. intros r l ->.
  eapply logs_then; [apply (logs_record _ (fun l _ => l = [act_run s r])); done|]. intros _ l ->. by apply logs_done.
Qed.

Lemma logs_run_session (r : UnifiedRequest) : logs (run_session r) (fun l out => l = [act_run_session (spawn r) out]).
Proof.
  unfold run_session. eapply logs_then; [apply (logs_perform _ (fun l _ => l = [])); done|]. intros out l ->.
  eapply logs_then; [apply (logs_record _ (fun l _ => l = [act_run_session (spawn r) out])); done|]. intros _ l ->. by apply logs_done.
Qed.

(** What [runShellWithEscalation] returns for its attempts. *)
Definition shell_result (l : list action) (r : gostring + ExecResult) : Prop :=
  match r with inl _ => could_not_run l | inr res => final l = end_of (act_run (mkSpawn [] [] [] SandboxTypeNone None) (inr res)) end.

Lemma logs_with_escalation (h : toolHandlerContext) (argv : list gostring) (cwd : gostring) :
  logs (runShellWithEscalation unicode_lower h argv cwd) (fun l r => attempts h argv cwd l /\ shell_result l r).
Proof.
  unfold runShellWithEscalation. set (sp := mkSpawn argv cwd (TurnCwd h) (turn_policy h).1 (Some (turn_policy h).2)).
  assert (in_policy h argv cwd sp) as Hp by done.
  eapply logs_then; [apply logs_run_command|]. intros [err|res] l ->.
  { apply logs_done. split; [by eapply (attempts_one _ _ _ _ sp)|]. by eexists. }
  destruct (denied unicode_lower (turn_policy h).1 res) eqn:Ed; cbn [negb].
  2: { apply logs_done. split; [by eapply (attempts_one _ _ _ _ sp)|done]. }
  eapply logs_then; [apply logs_escalation|]. intros d l [[-> ->]|(answer & -> & Hs & Hl & Ha)].
  { apply logs_done. split; [by eapply (attempts_one _ _ _ _ sp)|done]. }
  assert (ran (act_run sp (inr res)) = Some (sp, true)) as Hr by (cbn [ran]; change (SpawnType sp) with (turn_policy h).1; by rewrite Ed).
  destruct d; [apply logs_done; split; [by eapply attempts_declined|done]|].
  eapply logs_weaken; [apply logs_run_command|]. intros l r ->. split; [by eapply attempts_lifted; eauto|].
  destruct r; [by eexists|done].
Qed.

Lemma logs_runShellCommand (h : toolHandlerContext) (argv : list gostring) (cwd : gostring) :
  logs (runShellCommand unicode_lower h argv cwd) (call_log h).
Proof.
  unfold runShellCommand. eapply logs_then; [apply logs_emitted|]. intros _ l ->.
  eapply logs_then; [apply logs_with_escalation|]. intros [err|res] l [Hl Hr].
  { apply logs_done. rewrite app_nil_r. by apply log_failed. }
  eapply logs_then; [apply logs_emitted|]. intros _ l' ->.
  apply logs_done. rewrite app_nil_r. by apply log_finished.
Qed.

Definition only_changes {A : Type} (l : list action) (_ : A) : Prop := Forall is_change l.

Lemma logs_heredoc (h : toolHandlerContext) (cwd : gostring) (hd : ApplyPatchHeredoc) :
  logs (applyHeredocPatch homeDir process_cwd getwd_error h cwd hd) only_changes.
Proof.
  unfold applyHeredocPatch. cbv zeta. destruct (ParsePatch (Body hd)) as [parsed|e|]; try (apply logs_done; constructor).
  destruct (AbsPath.FromAbsolutePath _ _ _ _) as [cwdAbs|]; [|apply logs_done; constructor].
  assert (forall a, is_change a -> logs (record_if (HasSession h) a) only_changes) as Hrec.
  { intros a Ha. apply logs_record_if. unfold emitted, only_changes. destruct (HasSession h); repeat constructor; done. }
  eapply logs_then; [by apply Hrec|]. intros [] l Hl.
  eapply logs_then; [|].
  { intros s. exists []. rewrite app_nil_r. instantiate (1 := fun l _ => l = []).
    destruct (ApplyHunks _ _ _ _ _ _ _) as [[[[w out] err] r]|]; done. }
  intros applied l0 El. cbv beta in El. subst l0. unfold only_changes in *. cbn [app].
  destruct applied as [[[out err] [d|f|]]|];
    try (apply logs_done; rewrite ?app_nil_r; exact Hl);
    (eapply logs_then; [by apply Hrec|]; intros [] l' Hl'; apply logs_done; rewrite app_nil_r; by apply Forall_app).
Qed.

Lemma logs_exec_finished (h : toolHandlerContext) (argv : list gostring) (cwd : gostring) (before : list action) (s : Spawn) (out : UnifiedOutput) :
  attempts h argv cwd before -> last before = Some (act_run_session s (inr out)) ->
  logs (exec_finished h argv cwd out)
    (fun l r => call_log h (emitted h (act_begin (CallID h) (TurnSubID h) argv cwd) ++ before ++ l) r).
Proof.
  intros Hb Hlast. unfold exec_finished.
  assert (forall o, left_running before -> logs (then_do (done_with tt) (fun _ => done_with (Ok o)))
            (fun l r => call_log h (emitted h (act_begin (CallID h) (TurnSubID h) argv cwd) ++ before ++ l) r)) as Hrun.
  { intros o Hl. eapply logs_then; [by apply (logs_done _ (fun l _ => l = []))|]. intros _ l ->. apply logs_done. cbn [app].
    rewrite app_nil_r. by apply log_running. }
  destruct (ExecManager.OutProcessID (output out)) eqn:Ep; [apply Hrun; exists s, out; rewrite Ep; eauto|].
  destruct (ExecManager.OutExitCode (output out)) eqn:Ec; [|apply Hrun; exists s, out; eauto].
  eapply logs_then; [apply logs_emitted|]. intros _ l ->. apply logs_done.
  rewrite app_nil_r. apply log_finished; [done|]. unfold final. rewrite Hlast. cbn [completed end_of]. by rewrite Ep, Ec.
Qed.

Lemma build_in_policy (h : toolHandlerContext) (p : unifiedExecRequestParams) : ForceSandboxNone p = false ->
  in_policy h (Argv p) (ParamCwd p) (spawn (buildUnifiedExecRequest h p)).
Proof. intros Hf. unfold buildUnifiedExecRequest. rewrite Hf. done. Qed.

(** What the escalation of a denied session adds to the first attempt. *)
Lemma logs_maybe_escalate (h : toolHandlerContext) (base : unifiedExecRequestParams) (a : action) (s : Spawn) :
  ran a = Some (s, true) -> completed a = false -> in_policy h (Argv base) (ParamCwd base) s ->
  logs (maybeEscalateUnifiedExec h base) (fun l retried => attempts h (Argv base) (ParamCwd base) (a :: l)
    /\ match retried with
       | Some out => exists s', last (a :: l) = Some (act_run_session s' (inr out))
       | None => final (a :: l) = end_of a
       end).
Proof.
  intros Ha Hc Hp. unfold maybeEscalateUnifiedExec. eapply logs_then; [apply logs_escalation|].
  intros d l [[-> ->]|(answer & -> & Hs & Hl & Hok)].
  { apply logs_done. split; [by eapply attempts_one|]. unfold final. cbn [last app]. by rewrite Hc. }
  destruct d; [apply logs_done; split; [by eapply attempts_declined|done]|].
  eapply logs_then; [by apply (logs_perform _ (fun l _ => l = []))|]. intros id l ->.
  eapply logs_then; [apply logs_run_session|]. intros retry l ->. apply logs_done. cbn [app]. split.
  - by eapply attempts_lifted; eauto.
  - destruct retry as [e|out]; [done|]. cbn. eauto.
Qed.

Lemma logs_exec (h : toolHandlerContext) : logs (exec_Handle homeDir process_cwd getwd_error h) (call_log h).
Proof.
  unfold exec_Handle, respond. destruct (parseUnifiedExecCommandArgs (Payload h)) as [err|args]; [apply logs_done; by constructor|].
  cbv zeta. set (cwd := match ArgWorkdir args with Some _ => _ | None => _ end).
  destruct (resolveUnifiedExecCommand args true) as [err|argv]; [apply logs_done; by constructor|].
  eapply logs_then; [by apply (logs_perform _ (fun l _ => l = []))|]. intros id l ->. cbn [app].
  destruct (ExtractApplyPatchHeredoc argv) as [hd|].
  { eapply logs_then; [by apply (logs_perform _ (fun l _ => l = []))|]. intros _ l ->. cbn [app].
    eapply logs_then; [apply logs_heredoc|]. intros out l Hl. apply logs_done. rewrite app_nil_r. by constructor. }
  eapply logs_then; [apply logs_emitted|]. intros _ l ->.
  set (base := mkParams argv (Cmd args) id _ _ cwd _ false).
  pose proof (build_in_policy h base eq_refl) as Hp. set (r := buildUnifiedExecRequest h base) in *.
  eapply logs_then; [apply logs_run_session|]. intros [err|out] l ->.
  2: { eapply logs_weaken; [eapply (logs_exec_finished _ argv cwd [act_run_session (spawn r) (inr out)]); [|done]|done].
       by eapply attempts_one. }
  destruct (sandbox_denial err) as [d|] eqn:Ed.
  2: { apply logs_done. rewrite app_nil_r. apply log_failed; [by eapply attempts_one|by eexists]. }
  eapply logs_then.
  { apply (logs_maybe_escalate h base (act_run_session (spawn r) (inl err)) (spawn r)); [|done|done]. cbn. by rewrite Ed. }
  intros [out|] l [Hatt Hlast].
  { destruct Hlast as [s' Hl]. exact (logs_exec_finished h argv cwd (_ :: l) s' out Hatt Hl). }
  eapply logs_then; [apply logs_emitted|]. intros _ l' ->.
  eapply logs_then; [by apply (logs_perform _ (fun l _ => l = []))|]. intros chunk l' ->. apply logs_done.
  rewrite ?app_nil_r. apply (log_finished h argv cwd (act_run_session (spawn r) (inl err) :: l)); [done|].
  rewrite Hlast. cbn [end_of]. by rewrite Ed.
Qed.

Lemma logs_stdin (h : toolHandlerContext) : logs (stdin_Handle h) (call_log h).
Proof.
  unfold stdin_Handle, respond. destruct (payloadArguments (Payload h)) as [err|raw]; [apply logs_done; by constructor|].
  destruct (unmarshal_stdin raw) as [err|args]; [apply logs_done; by constructor|].
  destruct (SessionID args) as [id|]; [|apply logs_done; by constructor].
  eapply logs_then; [by apply (logs_perform _ (fun l _ => l = []))|]. intros [err|out] l ->; [apply logs_done; by constructor|].
  destruct (_ || _); cbn [andb].
  - eapply logs_then; [apply logs_emitted|]. intros _ l ->. apply logs_done.
    rewrite app_nil_r. apply log_interaction.
  - eapply logs_then; [by apply (logs_done _ (fun l _ => l = []))|]. intros _ l ->. apply logs_done. by constructor.
Qed.

Lemma logs_apply_patch (h : toolHandlerContext) : logs (applyPatch_Handle homeDir process_cwd getwd_error h) (call_log h).
Proof.
  unfold applyPatch_Handle, respond. destruct (extractPatch (Payload h)) as [err|patch]; [apply logs_done; by constructor|].
  case_decide; [apply logs_done; by constructor|].
  destruct (AbsPath.FromAbsolutePath _ _ _ _) as [cwd|]; [|apply logs_done; by constructor].
  intros s. exists []. rewrite app_nil_r. destruct (ApplyPatch _ _ _ _ _ _ _) as [[[[w out] err] r]|]; split; try done; by constructor.
Qed.

(** C7: Whatever a call of shell_command, exec_command, write_stdin or
    apply_patch is given, and whatever the machine and the user answer, it runs
    at most two commands, and these are the same one in the same directory: first
    under the sandbox policy of the turn; a second time without a sandbox only
    when the first attempt was denied by it, the turn's policies let the user
    lift it, and the user, asked about this very command, approved.  In a session
    one begin event comes before the attempts, and after them one end event with
    the result that the call returns.  There is no end event in two cases only: the
    last attempt left a session running, whose watcher sends the end; or the last
    attempt could not be run at all, and there the begin event stays alone, against
    the comment on [runShellCommand] ([untrusted_start_is_not_asked]).  Without a
    session no event is sent. *)
Theorem commands_stay_confined (tool : shell_tool) (h : toolHandlerContext) (s : system World) :
  let '(s', out) := handle tool h s in exists new, log s' = log s ++ new /\ call_log h new out.
Proof.
  assert (logs (handle tool h) (call_log h)) as Hl.
  { destruct tool; [|apply logs_exec|apply logs_stdin|apply logs_apply_patch]. cbn [handle]. unfold Handle, respond.
    destruct (parseArgs _ _) as [err|[[command workdir] login]]; [apply logs_done; by constructor|].
    case_decide; [apply logs_done; by constructor|]. cbv zeta.
    destruct (ExtractApplyPatchHeredoc _) as [hd|]; [|apply logs_runShellCommand].
    eapply logs_then; [apply logs_heredoc|]. intros out l Hl. apply logs_done. rewrite app_nil_r. by constructor. }
  specialize (Hl s). by destruct (handle tool h s).
Qed.
End Runs.

(** ** Two runs on a file system in memory *)

Definition demo_patch : gostring :=
  join [nl] [str "*** Begin Patch"; str "*** Add File: notes.txt"; str "+hello"; str "*** End Patch"].

(** A shell that reads [apply_patch <<'EOF'] with the patch, and any other text
    as one word; a machine without commands, whose user declines. *)
#[local] Instance demo_syntax : ShellSyntax := {
  parseShell script :=
    Some [if decide (script = str "heredoc")
          then mkStmt (CallExpr 0 [[Lit (str "apply_patch")]]) false false false false [mkRedirect Hdoc (Some [Lit demo_patch])]
          else mkStmt (CallExpr 0 [[Lit script]]) false false false false []];
  print_word w := concat (map (fun p => match p with Lit v => v | _ => [] end) w);
}.

#[local] Instance demo_env : ShellEnv := {
  GOOS := linux; user_Current := None; passwd := None; dscl _ := None; LookPath _ := None; fileExists _ := true;
}.

#[local] Instance demo_json : Json := {
  unmarshal_object s := inr {[ str "command" := s ]};
  unmarshal_string s := inr s;
  unmarshal_bool _ := inl [];
  unmarshal_exec _ := inl [];
  unmarshal_stdin _ := inl [];
  unmarshal_patch s := inr s;
}.

#[local] Instance demo_host : Host MemFs := {
  Run _ w := (w, inl (str "no such command"));
  RequestCommandApproval _ _ _ w := (w, decision ReviewDecisionDenied);
  AllocateProcessID w := (w, 1);
  ReleaseProcessID _ w := w;
  ExecCommand _ w := (w, inl (ExecProcess.newCreateProcessError []));
  WriteStdin _ w := (w, inl (ExecProcess.newUnknownProcessIDError 1));
  GenerateChunkID w := (w, []);
}.

Definition demo_call (policy : AskForApprovalKind) (command : gostring) : toolHandlerContext :=
  mkHandler true (str "t1") (str "/w")
    (mkTurnSnapshot (mkAskForApproval policy None) (mkTurnContext SandboxModeReadOnly false WindowsSandboxLevelDisabled))
    None (str "c1") (Tools.FunctionPayload command).

Definition demo_run (policy : AskForApprovalKind) (command : gostring) : system MemFs * outcome :=
  handle (fun r => r) None None (fun _ => []) tool_shell_command (demo_call policy command) (mkSystem (mkMemFs ∅ {[ str "/w" ]}) []).

(** A patch in a heredoc is applied in a turn whose sandbox only reads and whose
    user is never asked. *)
Example heredoc_writes_in_read_only_turn :
  (turn_policy (demo_call AskForApprovalNever (str "heredoc"))).2.1 = readOnlyFileSystemSandboxPolicy
  /\ files (world (demo_run AskForApprovalNever (str "heredoc")).1) !! str "/w/notes.txt" = Some (str "hello" ++ [nl])
  /\ (log (demo_run AskForApprovalNever (str "heredoc")).1
      = let changes := {[ str "/w/notes.txt" := FileChangeAdd (str "hello" ++ [nl]) ]} in
        [act_change_started (str "c1") changes; act_change_completed (str "c1") changes PatchApplyStatusCompleted]).
Proof. split_and!; vm_compute; reflexivity. Qed.

(** A command that cannot be started has a begin event and no end event.  And
    it was started without asking, though the turn's policy is to ask first. *)
Example untrusted_start_is_not_asked :
  RequirementKind (DefaultExecApprovalRequirement (mkAskForApproval AskForApprovalUnlessTrusted None)
    (turnFilesystemSandboxState linux (Some (Turn (demo_call AskForApprovalUnlessTrusted (str "ls")))))) = ExecApprovalNeedsApproval
  /\ log (demo_run AskForApprovalUnlessTrusted (str "ls")).1
  = [act_begin (str "c1") (str "t1") [str "/bin/bash"; str "-lc"; str "ls"] (str "/w");
     act_run (mkSpawn [str "/bin/bash"; str "-lc"; str "ls"] (str "/w") (str "/w") SandboxTypeLinuxSeccomp
                (Some (readOnlyFileSystemSandboxPolicy, NetworkSandboxPolicyRestricted))) (inl (str "no such command"))]
  /\ (demo_run AskForApprovalUnlessTrusted (str "ls")).2 = Err (Tools.RespondToModelError (str "exec failed: no such command")).
Proof. split_and!; vm_compute; reflexivity. Qed.
End ShellToolRuns.
